(* ===== verification/_CoqProject ===== *)
-Q . S2P
Prelude.v
Buffers.v
VarInt.v
BitIO.v
CodecBase.v
CodecDelta.v
CodecGCD.v
CodecDoubleDelta.v
CodecGorilla.v
DataTypes.v
CodecT64.v
CodecFPC.v
CodecObject.v
LZ4Decompress.v
LZ4Block.v
CodecLibraries.v
CodecEncrypted.v
CompressedBuffers.v
CompressedStreams.v
CodecFactory.v
FactoryCorrect.v
FactoryValidation.v
Doubles.v
Containers.v
CachePolicy.v
LRUCache.v
SLRUCache.v
TTLCache.v
CacheBase.v
Itoa.v
IntText.v
PartInfo.v
ActivePartSet.v
HashTable.v
HashTableProbing.v
HashTableCorrect.v
HashTableIO.v
