(* ===== verification/Prelude.v ===== *)
(** Verification of parts of ClickHouse: the compression of columns, buffered input and output,
    integers as text, the caches, the names and the set of data parts, and the hash table.

    * The program and its parts

    A column is stored in blocks that a compression codec makes. A [CompressedWriteBuffer] collects
    bytes, compresses them with a codec and writes the block, after a checksum, to another
    [WriteBuffer]; a [CompressedReadBuffer] reads the blocks from a [ReadBuffer], checks them and
    decompresses them with the codec that a factory makes from the first byte of the block. A codec
    is an [ICompressionCodec]; there is one class for each method, one that chains others and two
    that encrypt. The factory also makes codecs from the CODEC expression of a column, after
    validating it. Several codecs write bit streams or variable-length integers. The caches of the
    server are a [CacheBase], shared by threads, over a cache policy. A table consists of data parts,
    each with a range of blocks that is in its name; merges replace parts by larger ones, and an
    [ActiveDataPartSet] keeps those that are not covered by others. The [HashTable] is what
    aggregation, joins and sets are built on; it is written to buffers when states are stored or sent.

    * How code is modelled

    The definitions are translated from the C++ sources under src/ by hand, with their names. The
    comment at the top of each file, and of each Module, names the source files. C++ code is a
    function into [outcome]: it returns, throws an error code, has undefined behaviour (out-of-bounds
    access, shift by too much, signed overflow, [std::terminate]), or has used up the fuel of a loop.
    Integers are in Z with their wrap-around written out ([wrap], [to_signed]). Memory is a list of
    bytes with offsets for pointers; every access is checked ([read_bytes], [write_bytes], [load],
    [store]), so that a theorem that says what a function returns says as well that it stays within
    its buffers. Objects are Records, methods take and return them; where a method throws after
    changing the object, the pair of outcome and object is returned.

    Loops are Fixpoints with fuel where they are not structural. The fuel is computed from the input
    (the bytes or buffers left, or a constant that exceeds the digits of the widest type); no theorem
    assumes that it suffices: the theorems say what is returned, and [OutOfFuel] is neither a return
    nor [defined] nor [safe].

    Code that is not under src/ is a parameter: the libraries LZ4 and ZSTD, OpenSSL, the libdivide
    and gcd functions, [log2], the hash functions, the memory that the allocator is given or refused,
    the user's weight and load functions of caches. What is
    assumed of it is a hypothesis with a name, or a class with a concrete instance in the witnesses.

    * Files

    - Prelude: outcomes, machine integers, memory, their tactics and the hint database [codec].
    - Buffers: [ReadBuffer] and [WriteBuffer] (src/src/IO/ReadBuffer.h, WriteBuffer.h, BufferBase.h)
      and the streams of bytes they stand for, whatever the virtual [nextImpl] does; the class [Sink]
      is what a writer relies on.
    - VarInt, BitIO: variable-length integers (src/src/IO/VarInt.h) and bit streams
      (src/src/IO/BitHelpers.h) with the lists of bits they stand for.
    - CodecBase: block header, [compress] and [decompress] (src/src/Compression/ICompressionCodec.cpp);
      the codecs NONE and Multiple. The Record of a codec's operations comes with the contract that
      callers rely on: a round trip within the reserved size, and safety on arbitrary bytes.
    - CodecDelta, CodecGCD, CodecDoubleDelta, CodecGorilla, CodecT64, CodecFPC: the codecs for
      columns of numbers (src/src/Compression/CompressionCodec*.cpp), each with its round trip.
    - LZ4Decompress, LZ4Block: the LZ4 decompressor (LZ4_decompress_faster.cpp), in all its variants
      for instruction sets, against the LZ4 block format.
    - CodecLibraries, CodecEncrypted: the codecs LZ4, LZ4HC and ZSTD over their libraries, and the
      encryption codecs with the loading of their configuration.
    - CompressedBuffers, CompressedStreams: the compressed streams, and what they guarantee.
    - DataTypes, CodecObject, CodecFactory, FactoryCorrect, FactoryValidation: what codecs see of
      data types, codecs as objects with a description, the factory and the validation of codec
      expressions (CompressionFactory.cpp, CompressionFactoryAdditions.cpp).
    - Doubles, Containers: [double] and [std::list] as the files below use them.
    - CachePolicy, LRUCache, SLRUCache, TTLCache: the interface of cache policies and the three
      policies (src/src/Common/*CachePolicy.h). The class [PolicyCorrect] is what a policy promises;
      LRU and SLRU are its instances.
    - CacheBase: the thread-safe cache (src/src/Common/CacheBase.h), proved against [PolicyCorrect].
      Threads in [getOrSet] are a step semantics: a step ends where another thread can interfere.
    - Itoa, IntText: [itoa] for all integer types (src/base/base/itoa.cpp); integers as text in
      buffers (src/src/IO/WriteIntText.h, ReadHelpers.h).
    - PartInfo: [MergeTreePartInfo], the names, the order and the containment of data parts, and the
      names of detached ones (src/src/Storages/MergeTree/MergeTreePartInfo.cpp).
    - ActivePartSet: the set of parts that no other covers (ActiveDataPartSet.cpp); its invariant
      [active] is proved for every sequence of operations.
    - HashTable, HashTableProbing, HashTableCorrect, HashTableIO: the open-addressing hash table and
      the maps and sets made of it (src/src/Common/HashTable/HashTable.h, HashMap.h, HashSet.h,
      ClearableHashSet.h). The class [HashCell] is the template parameter for cells, [HashCellLaws] what
      the table relies on. Probing has the collision resolution chains and what insertion, growth in
      place and removal do to them, Correct the operations as those of a finite map, IO the serialization.

    * What the theorems show

    - Round trips: what a codec compresses is restored by the codec found from the method byte, for
      codec expressions and sources of sizes that its codecs take ([column_codec_roundtrip],
      [column_takes]), and what is written to a compressed stream is read back by any sequence of reads
      ([compressed_stream_roundtrip]); for each codec, for bit streams, for variable-length integers,
      for integers as text. The name of a part denotes the part exactly if it is [nameable], and the
      theorem says what it denotes otherwise ([part_name_roundtrip], [detached_name_roundtrip]).
    - Safety: arbitrary bytes neither make the readers of compressed streams, the LZ4 decompressor,
      the bit reader nor most codecs touch memory out of bounds, and all of them end
      ([compressed_reader_never_ub], [lz4_decompress_never_ub], [factory_codecs_safe]); blocks with a
      wrong checksum are rejected.
    - Refinement: buffers are streams of bytes, a block of a compressed stream is the same however it
      is buffered, as long as the buffers are windows of one stream ([ReadBuffer.contiguous]) or the
      block is copied, LRU is a list in the order of use, SLRU two of them; adding a part to the set of
      active parts, which looks only around its place, is a scan of all the parts ([active_set_add]).
      A hash table is a finite map, for every hash function ([hash_table_refines_map]); it is restored
      from its serialization ([hash_table_serialization]), which can be added to a set ([hash_set_union]).
    - Equivalence: the LZ4 decompressor decodes the block format, validation keeps the meaning of a
      codec expression, [itoa] prints what repeated division by ten does.
    - Concurrency: [getOrSet] loads a value once at a time and puts exactly this value into the cache,
      returns only values that belong to the key, and ends under every schedule.
    - Invariants and limits: reloading encryption keys is all or nothing, a TTL cache accounts exactly
      for the entries of each user and keeps quotas; the active parts are disjoint, in order and cover
      every part that was added ([active_set_invariant], [active_set_covers]); of a number in text the
      value is read if it fits its type, and otherwise it is refused or wraps around, depending on the
      type and the check that is asked for ([read_int_text_exact]); what was reserved in a hash table
      needs no further memory ([hash_table_reserve]).
    - Deviations: lemmas that show where the code does not do what it means to, such as
      [ttl_clear_keeps_size], [clear_unregisters_later_token], [gorilla_static_width_overflow],
      [double_delta_unaligned_loses_data], [multiple_short_data_ub], [checked_overflow_not_thrown],
      [wide_overflow_accepted], [part_name_large_mutation_refused], [intersecting_add_loses_parts],
      [in_place_block_of_other_bytes], [zero_size_accepts_null], [zero_ratio_protects_nothing],
      [reserve_zero_grows], [clear_version_wraps], [failed_read_keeps_cells].

    * Not modelled

    The parts above are a small part of the repository. Within them: the hardware codecs DEFLATE_QPL and
    ZSTD_QAT (asynchronous jobs of an accelerator and its library) and their registration (the factory
    is that of a build without USE_QPL and USE_QATLIB), the statistics and tracing of
    the LZ4 decompressor (they only choose among variants that are all modelled), failures of memory
    allocation outside of the hash table, the other growers and the two-level variants of the hash table
    and its serialization as text, profile events and logging, seeking by a pair of offsets beyond what
    [CompressedReadBuffer] does itself, files and sockets under the buffers, the calendar (a parameter of
    the old names of parts). Outside of them: the parser
    of SQL, the analyzer and the interpreters, functions and aggregate functions, the storages and
    their background tasks, replication, the server and its protocols, formats, and the bundled
    libraries under src/contrib and src/base/poco. They are mostly orchestration of input and output,
    threads and other parts; each would need models of large parts of the others before a theorem
    about it says something. *)

From Stdlib Require Import ZArith Lia Bool.
From stdpp Require Import base tactics list numbers list_numbers sets.

Local Open Scope Z_scope.

(** * Outcomes of C++ code *)

(** The error codes the modelled code throws (src/src/Common/ErrorCodes.cpp). *)
Inductive ErrorCode :=
| CANNOT_COMPRESS
| CANNOT_DECOMPRESS
| CORRUPTED_DATA
| CANNOT_WRITE_AFTER_END_OF_BUFFER
| ATTEMPT_TO_READ_AFTER_EOF
| CHECKSUM_DOESNT_MATCH
| TOO_LARGE_SIZE_COMPRESSED
| UNKNOWN_CODEC
| LOGICAL_ERROR
| INCORRECT_DATA
| BAD_ARGUMENTS
| ILLEGAL_SYNTAX_FOR_CODEC_TYPE
| ILLEGAL_CODEC_PARAMETER
| UNEXPECTED_AST_STRUCTURE
| DATA_TYPE_CANNOT_HAVE_ARGUMENTS
| CANNOT_READ_ALL_DATA
| BAD_GET
| OPENSSL_ERROR
| CANNOT_PARSE_NUMBER
| CANNOT_PARSE_ESCAPE_SEQUENCE
| CANNOT_PARSE_QUOTED_STRING
| CANNOT_PARSE_INPUT_ASSERTION_FAILED
| BAD_DATA_PART_NAME
| DUPLICATE_DATA_PART
| INVALID_PARTITION_VALUE
| CANNOT_ALLOCATE_MEMORY
| TOO_LARGE_ARRAY_SIZE
| NO_AVAILABLE_DATA.

#[global] Instance ErrorCode_eq_dec : EqDecision ErrorCode.
Proof. solve_decision. Defined.

(** What a call does: it returns, it throws, it has undefined behaviour (an
    access outside of a buffer, a shift by at least the width), or a loop ran
    out of the fuel it was given. *)
Inductive outcome (A : Type) :=
| Ret (a : A)
| Throw (e : ErrorCode)
| UB
| OutOfFuel.
Arguments Ret {A} a.
Arguments Throw {A} e.
Arguments UB {A}.
Arguments OutOfFuel {A}.

#[global] Instance outcome_ret : MRet outcome := @Ret.
#[global] Instance outcome_bind : MBind outcome := λ A B f m,
  match m with
  | Ret a => f a
  | Throw e => Throw e
  | UB => UB
  | OutOfFuel => OutOfFuel
  end.

(** A call is defined when it returns or throws. *)
Definition defined {A} (m : outcome A) : Prop :=
  match m with Ret _ | Throw _ => True | UB | OutOfFuel => False end.

(** [m] is defined, and if it returns then its value satisfies [P]. *)
Definition safe {A} (m : outcome A) (P : A → Prop) : Prop :=
  match m with Ret a => P a | Throw _ => True | UB | OutOfFuel => False end.

Definition throw_if (b : bool) (e : ErrorCode) : outcome unit :=
  if b then Throw e else Ret tt.

(** An operation whose behaviour is undefined unless [b]. *)
Definition ub_unless (b : bool) : outcome unit :=
  if b then Ret tt else UB.

Section outcome_lemmas.
Context {A B : Type}.

Lemma bind_Ret (a : A) (f : A → outcome B) : (Ret a ≫= f) = f a.
Proof. reflexivity. Qed.

Lemma safe_bind (m : outcome A) (f : A → outcome B) (P : A → Prop) (Q : B → Prop) :
  safe m P → (∀ a, P a → safe (f a) Q) → safe (m ≫= f) Q.
Proof. destruct m; simpl; intros; naive_solver. Qed.

Lemma safe_mono (m : outcome A) (P Q : A → Prop) :
  safe m P → (∀ a, P a → Q a) → safe m Q.
Proof. destruct m; simpl; naive_solver. Qed.

Lemma safe_defined (m : outcome A) (P : A → Prop) : safe m P → defined m.
Proof. by destruct m. Qed.

Lemma safe_Ret (a : A) (P : A → Prop) : P a → safe (Ret a) P.
Proof. done. Qed.
End outcome_lemmas.

Lemma safe_throw_if (b : bool) e (Q : unit → Prop) :
  (b = false → Q tt) → safe (throw_if b e) Q.
Proof. destruct b; simpl; auto. Qed.

Lemma throw_if_false b e : b = false → throw_if b e = Ret tt.
Proof. by intros ->. Qed.

Lemma throw_if_inv b e u : throw_if b e = Ret u → b = false.
Proof. by destruct b. Qed.

Lemma bind_Ret_inv {A B} (m : outcome A) (f : A → outcome B) y :
  (m ≫= f) = Ret y → ∃ x, m = Ret x ∧ f x = Ret y.
Proof. destruct m; simpl; intros; try discriminate. eauto. Qed.

(** Inverts the hypotheses that say that calls return. *)
Ltac inv_ret :=
  repeat match goal with
  | H : (throw_if _ _ ≫= _) = Ret _ |- _ =>
      let u := fresh "u" in let Hu := fresh "Hthrow" in
      apply bind_Ret_inv in H as (u & Hu & H); apply throw_if_inv in Hu; cbn beta in H
  | H : (_ ≫= _) = Ret _ |- _ =>
      let x := fresh "x" in let Hx := fresh "Hret" in
      apply bind_Ret_inv in H as (x & Hx & H); cbn beta in H
  | H : throw_if _ _ = Ret _ |- _ => apply throw_if_inv in H
  | H : Ret _ = Ret _ |- _ => injection H as H; try subst
  | H : Throw _ = Ret _ |- _ => discriminate H
  | H : (let '(_, _) := ?p in _) = Ret _ |- _ => is_var p; destruct p
  | H : (if ?b then _ else _) = Ret _ |- _ => destruct b eqn:?
  | H : (match ?x with Some _ => _ | None => _ end) = Ret _ |- _ => destruct x eqn:?
  end.

Lemma ub_unless_true b : b = true → ub_unless b = Ret tt.
Proof. by intros ->. Qed.

(** * Lists *)

Section lists.
Context {A : Type}.
Implicit Types (l : list A) (f : A → bool).

Lemma list_filter_ext (P Q : A → Prop) `{!∀ x, Decision (P x), !∀ x, Decision (Q x)} l :
  (∀ x, x ∈ l → P x ↔ Q x) → filter P l = filter Q l.
Proof.
  induction l as [|x l IH]; intros Hl; [done|]. rewrite !filter_cons. rewrite IH by set_solver.
  specialize (Hl x). do 2 case_decide; set_solver.
Qed.

Lemma list_filter_all (P : A → Prop) `{!∀ x, Decision (P x)} l : (∀ x, x ∈ l → P x) → filter P l = l.
Proof. induction l as [|x l IH]; intros Hl; [done|]. rewrite filter_cons_True, IH by set_solver. done. Qed.

Lemma list_filter_none (P : A → Prop) `{!∀ x, Decision (P x)} l : (∀ x, x ∈ l → ¬ P x) → filter P l = [].
Proof. induction l as [|x l IH]; intros Hl; [done|]. rewrite filter_cons_False, IH by set_solver. done. Qed.

Lemma existsb_elem f l : existsb f l = true ↔ ∃ x, x ∈ l ∧ f x = true.
Proof. rewrite existsb_exists. by setoid_rewrite list_elem_of_In. Qed.

Lemma existsb_none f l : (∀ x, x ∈ l → f x = false) → existsb f l = false.
Proof. intros Hl. destruct (existsb f l) eqn:E; [|done]. apply existsb_elem in E as (x & Hx & Hf). by rewrite Hl in Hf. Qed.
End lists.

(** * Loops *)

(** [while (cond) body], with [fuel] bounding the number of iterations. *)
Fixpoint while_loop {St} (fuel : nat) (cond : St → bool) (body : St → outcome St) (s : St)
  : outcome St :=
  if cond s then
    match fuel with
    | O => OutOfFuel
    | S fuel' => s' ← body s; while_loop fuel' cond body s'
    end
  else Ret s.

Section while_lemmas.
Context {St : Type} (cond : St → bool) (body : St → outcome St).

Lemma while_done fuel s : cond s = false → while_loop fuel cond body s = Ret s.
Proof. intros H. destruct fuel; simpl; by rewrite H. Qed.

Lemma while_step fuel s s' :
  cond s = true → body s = Ret s' →
  while_loop (S fuel) cond body s = while_loop fuel cond body s'.
Proof. intros H1 H2. simpl. by rewrite H1, H2. Qed.

(** The rule for loops whose body may throw: an invariant and a measure that
    each iteration decreases. *)
Lemma while_safe (Inv : St → Prop) (measure : St → Z) fuel s :
  Inv s → measure s ≤ Z.of_nat fuel →
  (∀ t, Inv t → cond t = true →
     0 < measure t ∧ safe (body t) (λ t', Inv t' ∧ measure t' < measure t)) →
  safe (while_loop fuel cond body s) (λ t, Inv t ∧ cond t = false).
Proof.
  intros HI Hm Hbody. revert s HI Hm. induction fuel as [|fuel IH]; intros s HI Hm; simpl.
  - destruct (cond s) eqn:Hc; [|by simpl].
    destruct (Hbody s HI Hc). lia.
  - destruct (cond s) eqn:Hc; [|by simpl].
    destruct (Hbody s HI Hc) as [? Hs].
    eapply safe_bind; [exact Hs|]. simpl. intros t [HIt Hlt]. apply IH; [done|lia].
Qed.
End while_lemmas.

(** * Machine integers and bytes *)

(** Reduction of an integer to [w] bytes, as unsigned C++ arithmetic does. *)
Definition wrap (w : Z) (x : Z) : Z := x mod 2 ^ (8 * w).

Abbreviation u8 := (wrap 1).
Abbreviation u32 := (wrap 4).
Abbreviation u64 := (wrap 8).

(** The value of a [w]-byte signed integer with the given bits. *)
Definition to_signed (w : Z) (x : Z) : Z :=
  let y := wrap w x in if y <? 2 ^ (8 * w - 1) then y else y - 2 ^ (8 * w).

(** A byte is an integer of [0, 256); memory is a list of bytes. *)
Definition is_byte (b : Z) : Prop := 0 ≤ b < 256.
Abbreviation bytes := (list Z).
Abbreviation is_bytes := (Forall is_byte).

(** The length of a buffer as a C++ size. *)
Definition blen (l : bytes) : Z := Z.of_nat (length l).

(** Little-endian representation. *)
Fixpoint le_split (n : nat) (x : Z) : bytes :=
  match n with
  | O => []
  | S n' => x mod 256 :: le_split n' (x / 256)
  end.

Fixpoint le_combine (l : bytes) : Z :=
  match l with
  | [] => 0
  | b :: l' => b + 256 * le_combine l'
  end.

(** * Buffers *)

(** [n] bytes of [buf] from offset [pos]: the source of a [memcpy] or of an
    unaligned load. Reading outside of the buffer is undefined. *)
Definition read_bytes (buf : bytes) (pos n : Z) : outcome bytes :=
  if (0 <=? pos) && (0 <=? n) && (pos + n <=? blen buf)
  then Ret (take (Z.to_nat n) (drop (Z.to_nat pos) buf))
  else UB.

(** [bs] written over [buf] at offset [pos]. *)
Definition write_bytes (buf : bytes) (pos : Z) (bs : bytes) : outcome bytes :=
  if (0 <=? pos) && (pos + blen bs <=? blen buf)
  then Ret (take (Z.to_nat pos) buf ++ bs ++ drop (Z.to_nat (pos + blen bs)) buf)
  else UB.

(** [unalignedLoadLittleEndian<T>] and [unalignedStoreLittleEndian<T>] for an
    unsigned [T] of [w] bytes. *)
Definition load (w : Z) (buf : bytes) (pos : Z) : outcome Z :=
  bs ← read_bytes buf pos w; Ret (le_combine bs).

Definition store (w : Z) (buf : bytes) (pos : Z) (x : Z) : outcome bytes :=
  write_bytes buf pos (le_split (Z.to_nat w) x).

Create HintDb codec discriminated.

(** Bytes of a concrete buffer, by computation. *)
Lemma is_bytes_compute (l : bytes) : forallb (λ b, (0 <=? b) && (b <? 256)) l = true → is_bytes l.
Proof.
  induction l as [|b l IH]; simpl; [constructor|].
  rewrite !andb_true_iff, Z.leb_le, Z.ltb_lt. intros [Hb Hl]. constructor; [done|auto].
Qed.

Section bytes_lemmas.
Implicit Types l bs pre post old : bytes.

Lemma blen_nonneg l : 0 ≤ blen l.
Proof. unfold blen. lia. Qed.

Lemma blen_nil : blen [] = 0.
Proof. done. Qed.

Lemma blen_cons b l : blen (b :: l) = 1 + blen l.
Proof. unfold blen. simpl. lia. Qed.

Lemma blen_app l1 l2 : blen (l1 ++ l2) = blen l1 + blen l2.
Proof. unfold blen. rewrite length_app. lia. Qed.

Lemma blen_le_split n x : blen (le_split n x) = Z.of_nat n.
Proof. unfold blen. f_equal. revert x. induction n; simpl; auto. Qed.

Lemma length_le_split n x : length (le_split n x) = n.
Proof. revert x. induction n; simpl; auto. Qed.

Lemma blen_take n l : blen (take n l) = Z.min (Z.of_nat n) (blen l).
Proof. unfold blen. rewrite length_take. lia. Qed.

Lemma blen_drop n l : blen (drop n l) = Z.max 0 (blen l - Z.of_nat n).
Proof. unfold blen. rewrite length_drop. lia. Qed.

Lemma blen_replicate n b : blen (replicate n b) = Z.of_nat n.
Proof. unfold blen. by rewrite length_replicate. Qed.

Lemma to_nat_blen l : Z.to_nat (blen l) = length l.
Proof. unfold blen. lia. Qed.

Lemma blen_0_nil l : blen l = 0 → l = [].
Proof. unfold blen. destruct l; simpl; [done|lia]. Qed.
End bytes_lemmas.

Create Rewrite HintDb blen.
#[export] Hint Rewrite blen_nil blen_cons blen_app blen_le_split blen_take blen_drop
  blen_replicate : blen.

(** Arithmetic on buffer lengths. *)
Ltac fold_blen :=
  repeat match goal with
  | |- context [Z.of_nat (@length Z ?l)] => change (Z.of_nat (length l)) with (blen l)
  | H : context [Z.of_nat (@length Z ?l)] |- _ => change (Z.of_nat (length l)) with (blen l) in H
  end.

Ltac blia :=
  autorewrite with blen in *; fold_blen; autorewrite with blen in *;
  repeat match goal with
  | l : list Z |- _ =>
      lazymatch goal with
      | _ : 0 ≤ blen l |- _ => fail
      | _ => pose proof (blen_nonneg l)
      end
  end; lia.

(** Case analysis on the comparisons of the goal. *)
Ltac zcases :=
  repeat match goal with
  | |- context [?a <=? ?b] => destruct (Z.leb_spec a b)
  | |- context [?a <? ?b] => destruct (Z.ltb_spec a b)
  | |- context [?a =? ?b] => destruct (Z.eqb_spec a b)
  end.

(** Evaluates the powers of two with constant exponents. *)
Ltac is_nat_const n :=
  lazymatch n with
  | O => idtac
  | S ?m => is_nat_const m
  end.

Ltac is_z_const e :=
  lazymatch e with
  | Z0 => idtac
  | Zpos _ => idtac
  | Zneg _ => idtac
  | ?a + ?b => is_z_const a; is_z_const b
  | ?a - ?b => is_z_const a; is_z_const b
  | ?a * ?b => is_z_const a; is_z_const b
  | Z.of_nat ?n => is_nat_const n
  end.

Ltac pow2_consts :=
  repeat match goal with
  | |- context [2 ^ ?e] =>
      is_z_const e; let v := eval vm_compute in (2 ^ e) in progress change (2 ^ e) with v
  | H : context [2 ^ ?e] |- _ =>
      is_z_const e; let v := eval vm_compute in (2 ^ e) in progress change (2 ^ e) with v in H
  end.

Ltac zlia := pow2_consts; lia.

(** [lia] with quotients and remainders by constants. *)
Ltac dlia := Z.div_mod_to_equations; lia.

(** Splits a list at an offset within it. *)
Lemma split_at (l : bytes) (n : Z) :
  0 ≤ n ≤ blen l → ∃ l1 l2, l = l1 ++ l2 ∧ blen l1 = n.
Proof.
  intros H. exists (take (Z.to_nat n) l), (drop (Z.to_nat n) l).
  rewrite take_drop. split; [done|]. blia.
Qed.

Section buffer_lemmas.
Implicit Types l bs pre post old : bytes.

Lemma read_bytes_app pre bs post pos n :
  pos = blen pre → n = blen bs → read_bytes (pre ++ bs ++ post) pos n = Ret bs.
Proof.
  intros -> ->. unfold read_bytes.
  replace (_ && _ && _) with true by (symmetry; rewrite !andb_true_iff, !Z.leb_le; blia).
  by rewrite !to_nat_blen, drop_app_length, take_app_length.
Qed.

Lemma read_bytes_prefix bs post n : n = blen bs → read_bytes (bs ++ post) 0 n = Ret bs.
Proof. by apply (read_bytes_app []). Qed.

Lemma read_bytes_all bs : read_bytes bs 0 (blen bs) = Ret bs.
Proof. rewrite <- (app_nil_r bs) at 1. by apply read_bytes_prefix. Qed.

Lemma read_bytes_suffix pre bs pos n :
  pos = blen pre → n = blen bs → read_bytes (pre ++ bs) pos n = Ret bs.
Proof. intros. rewrite <- (app_nil_r bs) at 1. by apply read_bytes_app. Qed.

Lemma read_bytes_safe buf pos n :
  0 ≤ pos → 0 ≤ n → pos + n ≤ blen buf →
  ∃ bs, read_bytes buf pos n = Ret bs ∧ blen bs = n ∧ (is_bytes buf → is_bytes bs).
Proof.
  intros ???. unfold read_bytes.
  replace (_ && _ && _) with true by (symmetry; rewrite !andb_true_iff, !Z.leb_le; lia).
  eexists; split; [done|]. split; [blia|]. auto using Forall_take, Forall_drop.
Qed.

Lemma write_bytes_app pre old bs post pos :
  pos = blen pre → blen old = blen bs →
  write_bytes (pre ++ old ++ post) pos bs = Ret (pre ++ bs ++ post).
Proof.
  intros -> Hl. unfold write_bytes.
  replace (_ && _) with true by (symmetry; rewrite !andb_true_iff, !Z.leb_le; blia).
  rewrite !to_nat_blen, take_app_length, <- Hl.
  by rewrite (assoc_L (++) pre old post), <- blen_app, to_nat_blen, drop_app_length.
Qed.

Lemma write_bytes_safe buf pos bs :
  0 ≤ pos → pos + blen bs ≤ blen buf →
  ∃ buf', write_bytes buf pos bs = Ret buf' ∧ blen buf' = blen buf ∧
    (is_bytes buf → is_bytes bs → is_bytes buf').
Proof.
  intros ??. unfold write_bytes.
  replace (_ && _) with true by (symmetry; rewrite !andb_true_iff, !Z.leb_le; lia).
  eexists; split; [done|]. split; [blia|].
  intros. rewrite !Forall_app. auto using Forall_take, Forall_drop.
Qed.
End buffer_lemmas.

Section words.
Lemma pow2_pos n : 0 < 2 ^ n ∨ n < 0.
Proof. destruct (decide (n < 0)); [by right|left]. apply Z.pow_pos_nonneg; lia. Qed.

Lemma wrap_range w x : 0 ≤ w → 0 ≤ wrap w x < 2 ^ (8 * w).
Proof. intros. apply Z.mod_pos_bound, Z.pow_pos_nonneg; lia. Qed.

Lemma wrap_small w x : 0 ≤ x < 2 ^ (8 * w) → wrap w x = x.
Proof. intros. by apply Z.mod_small. Qed.

Lemma wrap_wrap w x : wrap w (wrap w x) = wrap w x.
Proof. apply Zmod_mod. Qed.

Lemma wrap_add_l w x y : wrap w (wrap w x + y) = wrap w (x + y).
Proof. apply Zplus_mod_idemp_l. Qed.

Lemma wrap_add_r w x y : wrap w (x + wrap w y) = wrap w (x + y).
Proof. apply Zplus_mod_idemp_r. Qed.

Lemma wrap_sub_l w x y : wrap w (wrap w x - y) = wrap w (x - y).
Proof. apply Zminus_mod_idemp_l. Qed.

Lemma wrap_sub_r w x y : wrap w (x - wrap w y) = wrap w (x - y).
Proof. apply Zminus_mod_idemp_r. Qed.

Lemma wrap_mul_l w x y : wrap w (wrap w x * y) = wrap w (x * y).
Proof. apply Zmult_mod_idemp_l. Qed.

Lemma wrap_opp w x : wrap w (- wrap w x) = wrap w (- x).
Proof. rewrite <- !Z.sub_0_l. apply wrap_sub_r. Qed.

Lemma le_combine_range l : is_bytes l → 0 ≤ le_combine l < 2 ^ (8 * blen l).
Proof.
  unfold is_byte. induction 1 as [|b l Hb _ IH]; simpl; [done|].
  rewrite blen_cons. replace (8 * (1 + blen l)) with (8 + 8 * blen l) by lia.
  rewrite Z.pow_add_r by blia. change (2 ^ 8) with 256. lia.
Qed.

Lemma le_split_bytes n x : is_bytes (le_split n x).
Proof.
  revert x. induction n; simpl; constructor; auto.
  unfold is_byte. pose proof (Z.mod_pos_bound x 256). lia.
Qed.

Lemma le_combine_split n x : 0 ≤ x < 2 ^ (8 * Z.of_nat n) → le_combine (le_split n x) = x.
Proof.
  revert x. induction n as [|n IH]; intros x Hx; simpl.
  - change (2 ^ (8 * Z.of_nat 0)) with 1 in Hx. lia.
  - rewrite Nat2Z.inj_succ in Hx.
    replace (8 * Z.succ (Z.of_nat n)) with (8 + 8 * Z.of_nat n) in Hx by lia.
    rewrite Z.pow_add_r in Hx by lia. change (2 ^ 8) with 256 in Hx.
    rewrite IH; [pose proof (Z.div_mod x 256); lia|].
    split; [apply Z.div_pos; lia|apply Z.div_lt_upper_bound; lia].
Qed.

Lemma le_split_combine l : is_bytes l → le_split (length l) (le_combine l) = l.
Proof.
  unfold is_byte. induction 1 as [|b l Hb Hl IH]; simpl; [done|].
  rewrite (Z.mul_comm 256), Z.mod_add, Z.div_add by lia.
  rewrite Z.mod_small, Z.div_small, Z.add_0_l by lia. by rewrite IH.
Qed.

Lemma le_split_combine_len n l : is_bytes l → length l = n → le_split n (le_combine l) = l.
Proof. intros ? <-. by apply le_split_combine. Qed.

Lemma load_app w pre bs post pos :
  pos = blen pre → w = blen bs → load w (pre ++ bs ++ post) pos = Ret (le_combine bs).
Proof. intros. unfold load. by rewrite read_bytes_app. Qed.

Lemma load_safe w buf pos :
  is_bytes buf → 0 ≤ pos → 0 ≤ w → pos + w ≤ blen buf →
  ∃ x, load w buf pos = Ret x ∧ 0 ≤ x < 2 ^ (8 * w).
Proof.
  intros Hb ???. destruct (read_bytes_safe buf pos w) as (bs & Hr & Hl & Hbs); [done..|].
  exists (le_combine bs). unfold load. rewrite Hr. split; [done|].
  rewrite <- Hl. by apply le_combine_range, Hbs.
Qed.

(** Loads do not depend on what follows. *)
Lemma load_app_l w (a b : bytes) pos x : load w a pos = Ret x → load w (a ++ b) pos = Ret x.
Proof.
  unfold load, read_bytes. destruct (Z.leb_spec 0 pos), (Z.leb_spec 0 w), (Z.leb_spec (pos + w) (blen a)); try done.
  simpl. intros [= <-]. rewrite blen_app. pose proof (blen_nonneg b).
  rewrite (proj2 (Z.leb_le _ _)) by lia. do 2 f_equal.
  rewrite drop_app_le by (unfold blen in *; lia). simpl. do 2 f_equal.
  rewrite take_app_le; [done|]. rewrite length_drop. unfold blen in *. lia.
Qed.

Lemma load_range w buf pos x : is_bytes buf → load w buf pos = Ret x → 0 ≤ x < 2 ^ (8 * w).
Proof.
  intros Hb Hx. destruct (load_safe w buf pos) as (y & Hy & ?); try done.
  1-3: unfold load, read_bytes in Hx; destruct (Z.leb_spec 0 pos), (Z.leb_spec 0 w),
    (Z.leb_spec (pos + w) (blen buf)); done.
  rewrite Hx in Hy. by injection Hy as <-.
Qed.

Lemma store_app w pre old post pos x :
  0 ≤ w → pos = blen pre → blen old = w →
  store w (pre ++ old ++ post) pos x = Ret (pre ++ le_split (Z.to_nat w) x ++ post).
Proof. intros. apply write_bytes_app; blia. Qed.

Lemma store_safe w buf pos x :
  0 ≤ w → 0 ≤ pos → pos + w ≤ blen buf →
  ∃ buf', store w buf pos x = Ret buf' ∧ blen buf' = blen buf ∧ (is_bytes buf → is_bytes buf').
Proof.
  intros. destruct (write_bytes_safe buf pos (le_split (Z.to_nat w) x)) as (b' & ? & ? & ?);
    [blia..|].
  exists b'. split; [done|]. split; [done|]. auto using le_split_bytes.
Qed.
End words.

(** * Bits *)

Section bits.
Lemma testbit_high b k i : 0 ≤ b < 2 ^ k → k ≤ i → Z.testbit b i = false.
Proof.
  intros Hb Hi. destruct (decide (0 ≤ k)).
  - rewrite <- (Z.mod_small b (2 ^ k)) by done. by apply Z.mod_pow2_bits_high.
  - rewrite Z.pow_neg_r in Hb; lia.
Qed.

Lemma land_disjoint a b k : 0 ≤ k → 0 ≤ b < 2 ^ k → Z.land (a * 2 ^ k) b = 0.
Proof.
  intros Hk Hb. apply Z.bits_inj'. intros i Hi. rewrite Z.land_spec, Z.bits_0.
  destruct (decide (i < k)).
  - by rewrite Z.mul_pow2_bits_low.
  - by rewrite (testbit_high b k), andb_false_r by lia.
Qed.

Lemma lor_add a b k : 0 ≤ k → 0 ≤ b < 2 ^ k → Z.lor (a * 2 ^ k) b = a * 2 ^ k + b.
Proof. intros. symmetry. apply Z.add_nocarry_lor. by apply land_disjoint. Qed.

Lemma lor_add' a b k : 0 ≤ k → 0 ≤ b < 2 ^ k → Z.lor b (a * 2 ^ k) = a * 2 ^ k + b.
Proof. intros. rewrite Z.lor_comm. by apply lor_add. Qed.

Lemma land_low x k : 0 ≤ k → Z.land x (2 ^ k - 1) = x mod 2 ^ k.
Proof. intros. by rewrite <- Z.land_ones, Z.ones_equiv, Z.sub_1_r by done. Qed.

(** Bits outside of a width are the same on both sides. *)
Lemma bits_inj_width a b n :
  0 ≤ a < 2 ^ n → 0 ≤ b < 2 ^ n →
  (∀ i, 0 ≤ i < n → Z.testbit a i = Z.testbit b i) → a = b.
Proof.
  intros Ha Hb H. apply Z.bits_inj'. intros i Hi. destruct (decide (i < n)).
  - apply H. lia.
  - by rewrite !(testbit_high _ n) by lia.
Qed.

Lemma lxor_range a b n : 0 ≤ n → 0 ≤ a < 2 ^ n → 0 ≤ b < 2 ^ n → 0 ≤ Z.lxor a b < 2 ^ n.
Proof.
  intros Hn Ha Hb. assert (0 ≤ Z.lxor a b) by (apply Z.lxor_nonneg; lia).
  split; [done|].
  assert (Z.lxor a b = Z.lxor a b mod 2 ^ n) as ->; [|apply Z.mod_pos_bound; lia].
  apply Z.bits_inj'. intros i Hi. destruct (decide (i < n)).
  - by rewrite Z.mod_pow2_bits_low.
  - by rewrite Z.mod_pow2_bits_high, Z.lxor_spec, !(testbit_high _ n) by lia.
Qed.

Lemma lor_range a b n : 0 ≤ n → 0 ≤ a < 2 ^ n → 0 ≤ b < 2 ^ n → 0 ≤ Z.lor a b < 2 ^ n.
Proof.
  intros Hn Ha Hb. assert (0 ≤ Z.lor a b) by (apply Z.lor_nonneg; lia).
  split; [done|].
  assert (Z.lor a b = Z.lor a b mod 2 ^ n) as ->; [|apply Z.mod_pos_bound; lia].
  apply Z.bits_inj'. intros i Hi. destruct (decide (i < n)).
  - by rewrite Z.mod_pow2_bits_low.
  - by rewrite Z.mod_pow2_bits_high, Z.lor_spec, !(testbit_high _ n) by lia.
Qed.

Lemma lxor_ones a n : 0 ≤ n → 0 ≤ a < 2 ^ n → Z.lxor a (2 ^ n - 1) = 2 ^ n - 1 - a.
Proof.
  intros Hn Ha. enough (a + Z.lxor a (2 ^ n - 1) = 2 ^ n - 1) by lia.
  rewrite Z.add_nocarry_lxor.
  - by rewrite <- Z.lxor_assoc, Z.lxor_nilpotent, Z.lxor_0_l.
  - apply Z.bits_inj'. intros i Hi. rewrite Z.land_spec, Z.lxor_spec, Z.bits_0.
    rewrite Z.sub_1_r, <- Z.ones_equiv, Z.testbit_ones by lia.
    destruct (decide (i < n)).
    + rewrite (proj2 (Z.leb_le 0 i)), (proj2 (Z.ltb_lt i n)) by lia.
      by destruct (Z.testbit a i).
    + by rewrite (testbit_high a n) by lia.
Qed.
End bits.

Section signed.
Lemma to_signed_mod w x : 1 ≤ w → wrap w (to_signed w x) = wrap w x.
Proof.
  intros Hw. unfold to_signed. case_match; [apply wrap_wrap|].
  rewrite <- (wrap_wrap w x) at 2. unfold wrap at 1 3.
  replace (wrap w x - 2 ^ (8 * w)) with (wrap w x + (-1) * 2 ^ (8 * w)) by lia.
  apply Z.mod_add. apply Z.pow_nonzero; lia.
Qed.

Lemma to_signed_range w x : 1 ≤ w → - 2 ^ (8 * w - 1) ≤ to_signed w x < 2 ^ (8 * w - 1).
Proof.
  intros Hw. pose proof (wrap_range w x ltac:(lia)).
  assert (2 ^ (8 * w) = 2 * 2 ^ (8 * w - 1)) by (rewrite <- Z.pow_succ_r by lia; f_equal; lia).
  unfold to_signed. destruct (Z.ltb_spec (wrap w x) (2 ^ (8 * w - 1))); lia.
Qed.

(** An integer in the range of the type is its own signed value. *)
Lemma to_signed_id w x : 1 ≤ w → - 2 ^ (8 * w - 1) ≤ x < 2 ^ (8 * w - 1) → to_signed w (wrap w x) = x.
Proof.
  intros Hw Hx.
  assert (2 ^ (8 * w) = 2 * 2 ^ (8 * w - 1)) by (rewrite <- Z.pow_succ_r by lia; f_equal; lia).
  unfold to_signed. rewrite wrap_wrap. destruct (decide (0 ≤ x)).
  - rewrite wrap_small by lia. destruct (Z.ltb_spec x (2 ^ (8 * w - 1))); lia.
  - assert (wrap w x = x + 2 ^ (8 * w)) as ->.
    { unfold wrap. rewrite <- (Z.mod_add x 1) by lia. rewrite Z.mul_1_l. apply Z.mod_small. lia. }
    destruct (Z.ltb_spec (x + 2 ^ (8 * w)) (2 ^ (8 * w - 1))); lia.
Qed.

Lemma to_signed_wrap_arg w x y : wrap w x = wrap w y → to_signed w x = to_signed w y.
Proof. unfold to_signed. by intros ->. Qed.
End signed.

(** * Memory written from its beginning, and arrays of integers *)

(** Memory whose first bytes have been overwritten by [bs]. *)
Definition over (bs old : bytes) : bytes := bs ++ drop (length bs) old.

(** The bytes of an array of [w]-byte integers. *)
Definition enc (w : nat) (vs : list Z) : bytes := concat (le_split w <$> vs).

(** The values a [w]-byte unsigned type has. *)
Definition in_width (w : nat) (v : Z) : Prop := 0 ≤ v < 2 ^ (8 * Z.of_nat w).
Abbreviation all_width w := (Forall (in_width w)).

Section memory.
Implicit Types pre post old bs : bytes.

Lemma write_at pre old bs pos :
  pos = blen pre → blen bs ≤ blen old →
  write_bytes (pre ++ old) pos bs = Ret (pre ++ over bs old).
Proof.
  intros Hp Hl. unfold over. rewrite <- (take_drop (length bs) old) at 1.
  apply write_bytes_app; [done|]. unfold blen in *. rewrite length_take. lia.
Qed.

Lemma store_at w pre old x pos :
  0 ≤ w → pos = blen pre → w ≤ blen old →
  store w (pre ++ old) pos x = Ret (pre ++ over (le_split (Z.to_nat w) x) old).
Proof. intros. apply write_at; blia. Qed.

Lemma over_nil old : over [] old = old.
Proof. apply drop_0. Qed.

Lemma over_app b1 b2 old : over (b1 ++ b2) old = b1 ++ over b2 (drop (length b1) old).
Proof. unfold over. by rewrite length_app, drop_drop, app_assoc. Qed.

Lemma blen_over bs old : blen bs ≤ blen old → blen (over bs old) = blen old.
Proof. intros. unfold over. unfold blen in *. rewrite length_app, length_drop. lia. Qed.

Lemma over_bytes bs old : is_bytes bs → is_bytes old → is_bytes (over bs old).
Proof. intros. apply Forall_app. auto using Forall_drop. Qed.

Lemma over_full bs old : length old = length bs → over bs old = bs.
Proof. intros H. unfold over. by rewrite <- H, drop_all, app_nil_r. Qed.

Lemma take_over bs old : take (length bs) (over bs old) = bs.
Proof. apply take_app_length. Qed.

Lemma over_over b1 b2 old : length b1 = length b2 → over b2 (over b1 old) = over b2 old.
Proof. intros H. unfold over. by rewrite <- H, drop_app_length. Qed.

Lemma load_prefix w x rest :
  in_width w x → load (Z.of_nat w) (le_split w x ++ rest) 0 = Ret x.
Proof.
  intros Hx. pose proof (load_app (Z.of_nat w) [] (le_split w x) rest 0) as E.
  simpl in E. rewrite E by (rewrite ?blen_le_split; done). by rewrite le_combine_split.
Qed.
End memory.

Section arrays.
Implicit Types vs : list Z.

Lemma enc_nil w : enc w [] = [].
Proof. done. Qed.

Lemma enc_cons w v vs : enc w (v :: vs) = le_split w v ++ enc w vs.
Proof. done. Qed.

Lemma enc_app w vs1 vs2 : enc w (vs1 ++ vs2) = enc w vs1 ++ enc w vs2.
Proof. unfold enc. by rewrite fmap_app, concat_app. Qed.

Lemma length_enc w vs : length (enc w vs) = (w * length vs)%nat.
Proof. induction vs; [simpl; lia|]. rewrite enc_cons, length_app, length_le_split, IHvs. simpl. lia. Qed.

Lemma blen_enc w vs : blen (enc w vs) = Z.of_nat w * Z.of_nat (length vs).
Proof. unfold blen. rewrite length_enc. lia. Qed.

Lemma enc_bytes w vs : is_bytes (enc w vs).
Proof. induction vs; [constructor|]. rewrite enc_cons. apply Forall_app. auto using le_split_bytes. Qed.

(** Any bytes whose number is a multiple of [w] are an array. *)
Lemma enc_exists w (l : bytes) :
  (0 < w)%nat → is_bytes l → (length l mod w = 0)%nat →
  ∃ vs, l = enc w vs ∧ all_width w vs ∧ length vs = (length l / w)%nat.
Proof.
  intros Hw Hl Hm. assert (∃ k, length l = k * w)%nat as [k Hk].
  { exists (length l / w)%nat. pose proof (Nat.div_mod (length l) w ltac:(lia)). lia. }
  rewrite Hk, Nat.div_mul by lia. clear Hm.
  revert l Hl Hk. induction k as [|k IH]; intros l Hl Hk.
  - exists []. destruct l; [by split_and!|simpl in Hk; lia].
  - destruct (IH (drop w l)) as (vs & Heq & Hr & Hn).
    { by apply Forall_drop. }
    { rewrite length_drop. lia. }
    assert (length (take w l) = w) as Ht by (rewrite length_take; lia).
    pose proof (le_combine_range (take w l) (Forall_take _ _ _ Hl)) as Hrange.
    unfold blen in Hrange. rewrite Ht in Hrange.
    exists (le_combine (take w l) :: vs). split_and!.
    + rewrite enc_cons, le_split_combine_len, <- Heq, take_drop; auto using Forall_take.
    + by constructor.
    + simpl. by rewrite Hn.
Qed.

Lemma load_enc w pre v vs post pos :
  in_width w v → pos = blen pre →
  load (Z.of_nat w) (pre ++ enc w (v :: vs) ++ post) pos = Ret v.
Proof.
  intros Hv ->. rewrite enc_cons, <- app_assoc.
  rewrite (load_app _ pre (le_split w v)) by (rewrite ?blen_le_split; done).
  by rewrite le_combine_split.
Qed.

Lemma wrap_in_width w x : in_width w (wrap (Z.of_nat w) x).
Proof. apply wrap_range. lia. Qed.
End arrays.

#[export] Hint Rewrite blen_enc : blen.
#[export] Hint Resolve enc_bytes le_split_bytes over_bytes wrap_in_width : codec.

(** * Pointers into buffers *)

(** The memory from [&buf[pos]] on. *)
Definition tail_at (buf : bytes) (pos : Z) : outcome bytes :=
  _ ← ub_unless ((0 <=? pos) && (pos <=? blen buf));
  Ret (drop (Z.to_nat pos) buf).

(** A call that is given [&buf[pos]] to write to. *)
Definition on_tail {A} (buf : bytes) (pos : Z) (f : bytes → outcome (bytes * A)) : outcome (bytes * A) :=
  t ← tail_at buf pos;
  '(t, a) ← f t;
  Ret (take (Z.to_nat pos) buf ++ t, a).

Section pointers.
Lemma tail_at_app (pre rest : bytes) pos : pos = blen pre → tail_at (pre ++ rest) pos = Ret rest.
Proof.
  intros ->. unfold tail_at. rewrite ub_unless_true by (apply andb_true_iff; rewrite !Z.leb_le; blia).
  simpl. by rewrite to_nat_blen, drop_app_length.
Qed.

Lemma tail_at_safe (buf : bytes) pos :
  0 ≤ pos ≤ blen buf →
  ∃ t, tail_at buf pos = Ret t ∧ buf = take (Z.to_nat pos) buf ++ t ∧ blen t = blen buf - pos ∧
    (is_bytes buf → is_bytes t).
Proof.
  intros H. unfold tail_at. rewrite ub_unless_true by (apply andb_true_iff; rewrite !Z.leb_le; lia).
  eexists. split; [done|]. rewrite take_drop. split; [done|]. split; [blia|auto using Forall_drop].
Qed.

Lemma on_tail_app {A} (pre rest : bytes) pos (f : bytes → outcome (bytes * A)) t a :
  pos = blen pre → f rest = Ret (t, a) → on_tail (pre ++ rest) pos f = Ret (pre ++ t, a).
Proof.
  intros Hp Hf. unfold on_tail. rewrite tail_at_app by done. simpl. rewrite Hf. simpl.
  by rewrite Hp, to_nat_blen, take_app_length.
Qed.

Lemma on_tail_safe {A} (buf : bytes) pos (f : bytes → outcome (bytes * A)) (P : A → Prop) :
  0 ≤ pos ≤ blen buf → is_bytes buf →
  (∀ t, blen t = blen buf - pos → is_bytes t →
    safe (f t) (λ r, blen r.1 = blen t ∧ is_bytes r.1 ∧ P r.2)) →
  safe (on_tail buf pos f) (λ r, blen r.1 = blen buf ∧ is_bytes r.1 ∧ P r.2).
Proof.
  intros Hp Hb Hf. unfold on_tail.
  destruct (tail_at_safe buf pos Hp) as (t & -> & Heq & Hl & Ht). cbn [mbind outcome_bind].
  eapply safe_bind; [by apply Hf; auto|]. intros [t' a] (Hl' & Hb' & HP). simpl in *.
  split_and!; [blia| |done]. apply Forall_app. auto using Forall_take.
Qed.
End pointers.

Section sequential.
Implicit Types l bs out dest : bytes.

(** Writing after what has been written. *)
Lemma write_over l bs dest pos :
  pos = blen l → blen l + blen bs ≤ blen dest →
  write_bytes (over l dest) pos bs = Ret (over (l ++ bs) dest).
Proof.
  intros -> H. unfold over at 1. rewrite write_at by (done || blia). by rewrite over_app.
Qed.

Lemma write_first bs dest : blen bs ≤ blen dest → write_bytes dest 0 bs = Ret (over bs dest).
Proof. intros. by apply (write_at [] dest bs 0). Qed.

Lemma store_over w l x dest pos :
  0 ≤ w → pos = blen l → blen l + w ≤ blen dest →
  store w (over l dest) pos x = Ret (over (l ++ le_split (Z.to_nat w) x) dest).
Proof. intros. apply write_over; blia. Qed.

Lemma on_tail_over {A} l out dest pos (f : bytes → outcome (bytes * A)) a :
  pos = blen l → f (drop (length l) dest) = Ret (over out (drop (length l) dest), a) →
  on_tail (over l dest) pos f = Ret (over (l ++ out) dest, a).
Proof. intros Hp Hf. unfold over at 1. rewrite (on_tail_app _ _ _ _ _ _ Hp Hf). by rewrite over_app. Qed.

Lemma on_tail_over_throw {A} l dest pos (f : bytes → outcome (bytes * A)) e :
  pos = blen l → f (drop (length l) dest) = Throw e → on_tail (over l dest) pos f = Throw e.
Proof. intros Hp Hf. unfold on_tail, over. rewrite tail_at_app by done. simpl. by rewrite Hf. Qed.

(** The first byte of a header. *)
Lemma load_first b (l : bytes) : load 1 (b :: l) 0 = Ret b.
Proof.
  transitivity (Ret (le_combine [b])); [by apply (load_app 1 [] [b])|]. simpl. f_equal. lia.
Qed.

Lemma load_byte pre b post pos : pos = blen pre → load 1 (pre ++ b :: post) pos = Ret b.
Proof.
  intros ->. transitivity (Ret (le_combine [b])); [by apply (load_app 1 pre [b])|]. simpl. f_equal. lia.
Qed.

(** The codecs leave the first bytes of a source whose size is not a multiple of the
    width of the values as they are. *)
Lemma split_source w (source : bytes) :
  (0 < w)%nat → is_bytes source →
  ∃ skipped vs, source = skipped ++ enc w vs ∧ all_width w vs ∧ is_bytes skipped ∧
    blen skipped = blen source mod Z.of_nat w.
Proof.
  intros Hw Hb. set (k := (length source mod w)%nat).
  assert (k < w)%nat by (apply Nat.mod_upper_bound; lia).
  assert (k ≤ length source)%nat by (apply Nat.Div0.mod_le).
  destruct (enc_exists w (drop k source)) as (vs & Heq & Hvs & _); [done|by apply Forall_drop| |].
  - rewrite length_drop. pose proof (Nat.div_mod (length source) w ltac:(lia)) as E. fold k in E.
    replace (length source - k)%nat with (length source / w * w)%nat by lia. apply Nat.Div0.mod_mul.
  - exists (take k source), vs. rewrite <- Heq, take_drop. split_and!; auto using Forall_take.
    unfold blen. rewrite length_take, Nat.min_l, <- Nat2Z.inj_mod by done. done.
Qed.
End sequential.
