(* ===== verification/Buffers.v ===== *)
(** Buffered input and output: [ReadBuffer] (src/src/IO/ReadBuffer.h) and
    [WriteBuffer] (src/src/IO/WriteBuffer.h) over [BufferBase]
    (src/src/IO/BufferBase.h), with the byte streams they implement. *)

From S2P Require Import Prelude.
From stdpp Require Import base tactics list numbers.
Local Open Scope Z_scope.

(** * ReadBuffer *)

Module ReadBuffer.

(** [rb_working] is the contents of [working_buffer], [rb_pos] the cursor as an
    offset in it, [rb_bytes] the field [bytes]. The virtual [nextImpl] is given by
    [rb_source]: the buffers it will still deliver, each with the
    [nextimpl_working_buffer_offset] that comes with it; when the list is empty
    [nextImpl] returns false. *)
Record t := mk {
  rb_working : bytes;
  rb_pos : Z;
  rb_bytes : Z;
  rb_source : list (bytes * Z);
}.

Definition available (rb : t) : Z := blen (rb_working rb) - rb_pos rb.
Definition hasPendingData (rb : t) : bool := 0 <? available rb.
Definition count (rb : t) : Z := u64 (rb_bytes rb + rb_pos rb).

Definition advance (rb : t) (n : Z) : t :=
  mk (rb_working rb) (rb_pos rb + n) (rb_bytes rb) (rb_source rb).

Definition next (rb : t) : bool * t :=
  let bytes' := u64 (rb_bytes rb + rb_pos rb) in
  match rb_source rb with
  | [] => (false, mk [] 0 bytes' [])
  | (data, off) :: rest => (true, mk data (Z.min off (blen data)) bytes' rest)
  end.

Definition eof (rb : t) : bool * t :=
  if hasPendingData rb then (false, rb)
  else let '(res, rb') := next rb in (negb res, rb').

(** Every iteration of the loops below uses up the current buffer or ends the
    loop, so their number is bounded by the number of buffers left. *)
Definition loop_fuel (rb : t) : nat := S (S (length (rb_source rb))).

(** [read(char * to, size_t n)]: the bytes copied to [to]. *)
Fixpoint read_loop (fuel : nat) (copied : bytes) (n : Z) (rb : t) : outcome (bytes * t) :=
  if blen copied <? n then
    let '(is_eof, rb) := eof rb in
    if is_eof then Ret (copied, rb) else
    match fuel with
    | O => OutOfFuel
    | S fuel' =>
        let bytes_to_copy := Z.min (available rb) (n - blen copied) in
        bs ← read_bytes (rb_working rb) (rb_pos rb) bytes_to_copy;
        read_loop fuel' (copied ++ bs) n (advance rb bytes_to_copy)
    end
  else Ret (copied, rb).

Definition read (n : Z) (rb : t) : outcome (bytes * t) := read_loop (loop_fuel rb) [] n rb.

Definition readStrict (n : Z) (rb : t) : outcome (bytes * t) :=
  '(bs, rb) ← read n rb;
  if n =? blen bs then Ret (bs, rb) else Throw CANNOT_READ_ALL_DATA.

(** [tryIgnore(n)]: the number of bytes skipped. *)
Fixpoint tryIgnore_loop (fuel : nat) (ignored n : Z) (rb : t) : outcome (Z * t) :=
  if ignored <? n then
    let '(is_eof, rb) := eof rb in
    if is_eof then Ret (ignored, rb) else
    match fuel with
    | O => OutOfFuel
    | S fuel' =>
        let bytes_to_ignore := Z.min (available rb) (n - ignored) in
        tryIgnore_loop fuel' (ignored + bytes_to_ignore) n (advance rb bytes_to_ignore)
    end
  else Ret (ignored, rb).

Definition tryIgnore (n : Z) (rb : t) : outcome (Z * t) := tryIgnore_loop (loop_fuel rb) 0 n rb.

(** [ignore(n)]: counts [n] down and throws when the data ends before. *)
Fixpoint ignore_loop (fuel : nat) (n : Z) (rb : t) : outcome (Z * t) :=
  if negb (n =? 0) then
    let '(is_eof, rb) := eof rb in
    if is_eof then Ret (n, rb) else
    match fuel with
    | O => OutOfFuel
    | S fuel' =>
        let bytes_to_ignore := Z.min (available rb) n in
        ignore_loop fuel' (n - bytes_to_ignore) (advance rb bytes_to_ignore)
    end
  else Ret (n, rb).

Definition ignore (n : Z) (rb : t) : outcome t :=
  '(n, rb) ← ignore_loop (loop_fuel rb) n rb;
  if n =? 0 then Ret rb else Throw ATTEMPT_TO_READ_AFTER_EOF.

(** [peek(char & c)] and [read(char & c)]. *)
Definition peek (rb : t) : outcome (option Z * t) :=
  let '(is_eof, rb) := eof rb in
  if is_eof then Ret (None, rb) else
  c ← load 1 (rb_working rb) (rb_pos rb);
  Ret (Some c, rb).

Definition read_char (rb : t) : outcome (option Z * t) :=
  '(c, rb) ← peek rb;
  match c with
  | Some c => Ret (Some c, advance rb 1)
  | None => Ret (None, rb)
  end.

(** ** The stream a buffer stands for *)

Definition chunk_data (c : bytes * Z) : bytes := drop (Z.to_nat (snd c)) (fst c).

Definition remaining (rb : t) : bytes :=
  drop (Z.to_nat (rb_pos rb)) (rb_working rb) ++ concat (chunk_data <$> rb_source rb).

(** The cursor is inside the buffer, and [nextImpl] delivers at least one byte
    when it returns true (the [chassert] of [next]). *)
Definition chunk_ok (c : bytes * Z) : Prop := is_bytes (fst c) ∧ 0 ≤ snd c < blen (fst c).

Record wf (rb : t) : Prop := {
  wf_bytes : is_bytes (rb_working rb);
  wf_pos : 0 ≤ rb_pos rb ≤ blen (rb_working rb);
  wf_source : Forall chunk_ok (rb_source rb);
}.

Definition from_memory (data : bytes) : t := mk data 0 0 [].

Section lemmas.
Implicit Types rb : t.

Lemma chunk_data_nonempty c : chunk_ok c → chunk_data c ≠ [].
Proof.
  intros [_ Ho] H. apply (f_equal blen) in H. unfold chunk_data in H.
  rewrite blen_drop, blen_nil in H. lia.
Qed.

Lemma remaining_pending rb :
  0 ≤ rb_pos rb ≤ blen (rb_working rb) →
  blen (drop (Z.to_nat (rb_pos rb)) (rb_working rb)) = available rb.
Proof. unfold available. intros. blia. Qed.

Lemma wf_from_memory data : is_bytes data → wf (from_memory data).
Proof. intros. split; simpl; [done|blia|constructor]. Qed.

Lemma remaining_from_memory data : remaining (from_memory data) = data.
Proof. unfold remaining. simpl. apply app_nil_r. Qed.

Lemma wf_advance rb n : wf rb → 0 ≤ n ≤ available rb → wf (advance rb n).
Proof. unfold available. intros [? ? ?] ?. split; simpl; [done|lia|done]. Qed.

Lemma remaining_advance rb n :
  wf rb → 0 ≤ n ≤ available rb →
  remaining (advance rb n) = drop (Z.to_nat n) (remaining rb).
Proof.
  unfold available. intros [? ? ?] ?. unfold remaining. simpl.
  rewrite drop_app_le by (unfold blen in *; rewrite length_drop; lia).
  rewrite drop_drop. do 2 f_equal. lia.
Qed.

(** [eof] tells whether the stream is exhausted, leaves the stream as it is,
    and when it is not exhausted makes at least one byte available. *)
Lemma eof_spec rb :
  wf rb →
  ∃ b rb', eof rb = (b, rb') ∧ wf rb' ∧ remaining rb' = remaining rb ∧
    (length (rb_source rb') ≤ length (rb_source rb))%nat ∧
    (b = false ↔ remaining rb ≠ []) ∧
    (b = false → 0 < available rb' ∧
       (0 < available rb ∧ rb' = rb ∨ (length (rb_source rb') < length (rb_source rb))%nat)).
Proof.
  intros Hwf. pose proof Hwf as [Hb Hp Hs]. unfold eof, hasPendingData.
  pose proof (remaining_pending rb Hp) as Hrem.
  destruct (0 <? available rb) eqn:Ha.
  - apply Z.ltb_lt in Ha. exists false, rb. split_and!; [done|done|done|done| |auto].
    split; [|done]. intros _ H. apply app_eq_nil in H as [H _]. rewrite H, blen_nil in Hrem. lia.
  - apply Z.ltb_ge in Ha. unfold next.
    assert (drop (Z.to_nat (rb_pos rb)) (rb_working rb) = []) as Hd
      by (apply blen_0_nil; pose proof (blen_nonneg (drop (Z.to_nat (rb_pos rb)) (rb_working rb))); lia).
    destruct (rb_source rb) as [|[data off] rest] eqn:Hsrc.
    + exists true, (mk [] 0 (u64 (rb_bytes rb + rb_pos rb)) []). simpl.
      unfold remaining. rewrite Hd, Hsrc. simpl. split_and!; [done|split; simpl; [constructor|blia|constructor]|done|done|done|done].
    + inversion Hs as [|? ? [Hdb Ho] Hrest]; subst. simpl in *.
      exists false, (mk data (Z.min off (blen data)) (u64 (rb_bytes rb + rb_pos rb)) rest).
      rewrite Z.min_l by lia. unfold remaining. simpl. rewrite Hd, Hsrc. simpl.
      unfold available. simpl. split_and!;
        [done|split; simpl; [done|lia|done]|done|lia| |intros _; split; [lia|right; lia]].
      split; [|done]. intros _ H. apply app_eq_nil in H as [H _].
      by apply (chunk_data_nonempty (data, off)) in H.
Qed.

Lemma read_loop_spec fuel copied n rb :
  wf rb → blen copied ≤ n →
  (blen copied < n → (length (rb_source rb) + (if hasPendingData rb then 1 else 0) ≤ fuel)%nat) →
  ∃ rb', read_loop fuel copied n rb =
           Ret (copied ++ take (Z.to_nat (n - blen copied)) (remaining rb), rb') ∧
    wf rb' ∧ remaining rb' = drop (Z.to_nat (n - blen copied)) (remaining rb).
Proof.
  revert copied rb. induction fuel as [|fuel IH]; intros copied rb Hwf Hn Hf.
  all: simpl; destruct (blen copied <? n) eqn:Hlt;
    [apply Z.ltb_lt in Hlt
    |apply Z.ltb_ge in Hlt; exists rb; replace (Z.to_nat _) with 0%nat by lia;
     by rewrite take_0, drop_0, app_nil_r].
  all: specialize (Hf Hlt); destruct (eof_spec rb Hwf) as (b & rb1 & Heof & Hwf1 & Hrem & Hl & Hb & Hav); rewrite Heof;
    destruct b;
    [assert (remaining rb = []) as Hnil
       by (destruct (decide (remaining rb = [])) as [|Hne]; [done|]; by apply Hb in Hne);
     exists rb1; rewrite Hrem, Hnil, take_nil, drop_nil, app_nil_r; done|].
  - destruct (Hav eq_refl) as [Hpos [[Ha ->]|Hlen]]; [|lia].
    unfold hasPendingData in Hf. apply Z.ltb_lt in Ha. rewrite Ha in Hf. lia.
  - destruct (Hav eq_refl) as [Hpos Hcase].
    set (k := Z.min (available rb1) (n - blen copied)).
    assert (0 < k) by (unfold k; lia). assert (k ≤ available rb1) by (unfold k; lia).
    assert (read_bytes (rb_working rb1) (rb_pos rb1) k = Ret (take (Z.to_nat k) (remaining rb))) as Hr.
    { rewrite <- Hrem. destruct Hwf1 as [? ? ?]. unfold available in *.
      unfold read_bytes, remaining.
      replace (_ && _ && _) with true by (symmetry; rewrite !andb_true_iff, !Z.leb_le; lia).
      rewrite take_app_le by (unfold blen in *; rewrite length_drop; lia). done. }
    assert (k ≤ blen (remaining rb)) as Hkr.
    { rewrite <- Hrem. unfold remaining. rewrite blen_app.
      rewrite (remaining_pending rb1) by apply Hwf1. pose proof (blen_nonneg (concat (chunk_data <$> rb_source rb1))). lia. }
    fold k. rewrite Hr. simpl.
    destruct (IH (copied ++ take (Z.to_nat k) (remaining rb)) (advance rb1 k))
      as (rb2 & Heq & Hwf2 & Hrem2).
    { apply wf_advance; [done|lia]. }
    { blia. }
    { intros Hlt'. rewrite blen_app, blen_take in Hlt'.
      assert (hasPendingData (advance rb1 k) = true → n - blen copied ≤ available rb1) as Hk.
      { unfold hasPendingData, available, advance; simpl. rewrite Z.ltb_lt.
        unfold k, available. lia. }
      simpl. destruct Hcase as [[Ha ->]|Hlen].
      - unfold hasPendingData in Hf at 1. apply Z.ltb_lt in Ha. rewrite Ha in Hf.
        destruct (hasPendingData (advance rb k)) eqn:Hp; [|lia].
        specialize (Hk eq_refl). lia.
      - destruct (hasPendingData (advance rb1 k)) eqn:Hp; [specialize (Hk eq_refl)|]; lia. }
    exists rb2. rewrite Heq.
    rewrite remaining_advance, Hrem in * by (done || lia).
    split; [|split; [done|]].
    + f_equal. f_equal. rewrite <- app_assoc. f_equal.
      rewrite blen_app, blen_take.
      rewrite <- (take_drop (Z.to_nat k) (take (Z.to_nat (n - blen copied)) (remaining rb))).
      rewrite take_take, Nat.min_l by (unfold k; lia). f_equal.
      rewrite skipn_firstn_comm. f_equal. lia.
    + rewrite Hrem2, drop_drop, blen_app, blen_take. f_equal. lia.
Qed.

(** The loops that skip data take the same steps as [read]. *)
Lemma skip_loops fuel copied n rb bs rb' :
  wf rb → blen copied ≤ n → read_loop fuel copied n rb = Ret (bs, rb') →
  tryIgnore_loop fuel (blen copied) n rb = Ret (blen bs, rb') ∧
  ignore_loop fuel (n - blen copied) rb = Ret (n - blen bs, rb').
Proof.
  revert copied rb. induction fuel as [|fuel IH]; intros copied rb Hwf Hn; simpl;
    replace (n - blen copied =? 0) with (negb (blen copied <? n)) by
      (destruct (blen copied <? n) eqn:E; [apply Z.ltb_lt in E|apply Z.ltb_ge in E];
       symmetry; rewrite ?Z.eqb_eq, ?Z.eqb_neq; simpl; lia);
    rewrite negb_involutive; (destruct (blen copied <? n) eqn:Hlt; [|naive_solver]);
    destruct (eof_spec rb Hwf) as (b & rb1 & Heof & Hwf1 & _ & _ & _ & Hav); rewrite Heof;
    (destruct b; [naive_solver|]); [naive_solver|].
  destruct (Hav eq_refl) as [Hpos _]. apply Z.ltb_lt in Hlt.
  set (k := Z.min (available rb1) (n - blen copied)).
  destruct (read_bytes_safe (rb_working rb1) (rb_pos rb1) k) as (cs & Hr & Hl & _);
    [destruct Hwf1; unfold k, available in *; lia..|].
  rewrite Hr. simpl. intros Hrd.
  destruct (IH (copied ++ cs) (advance rb1 k)) as [H1 H2];
    [by apply wf_advance; [|unfold k; lia]|unfold k in *; blia|done|].
  rewrite blen_app, Hl in *. split; [done|].
  by replace (n - blen copied - k) with (n - (blen copied + k)) by lia.
Qed.

Lemma read_spec n rb :
  wf rb → 0 ≤ n →
  ∃ rb', read n rb = Ret (take (Z.to_nat n) (remaining rb), rb') ∧ wf rb' ∧
    remaining rb' = drop (Z.to_nat n) (remaining rb).
Proof.
  intros Hwf Hn. unfold read, loop_fuel.
  destruct (read_loop_spec (S (S (length (rb_source rb)))) [] n rb Hwf) as (rb' & H);
    [done|intros _; destruct (hasPendingData rb); lia|].
  rewrite Z.sub_0_r in H. eauto.
Qed.

(** ** Data before the cursor *)

(** The part of the working buffer that has been passed. *)
Definition passed rb : bytes := take (Z.to_nat (rb_pos rb)) (rb_working rb).

(** The buffers that [nextImpl] will deliver are windows of one stream, of which
    [before] comes before them: where a reader sets [nextimpl_working_buffer_offset],
    the bytes it has skipped are the bytes of the stream in front of the cursor. *)
Fixpoint windows (before : bytes) (source : list (bytes * Z)) : Prop :=
  match source with
  | [] => True
  | (data, off) :: source =>
      take (Z.to_nat off) data `suffix_of` before ∧ windows (before ++ drop (Z.to_nat off) data) source
  end.

(** The bytes in front of the cursor end the stream [before] it. *)
Definition at_window (before : bytes) rb : Prop :=
  passed rb `suffix_of` before ∧ windows (before ++ drop (Z.to_nat (rb_pos rb)) (rb_working rb)) (rb_source rb).

Definition contiguous rb : Prop := ∃ before, at_window before rb.

(** So it is, in particular, when no buffer starts with bytes to be skipped. *)
Lemma unshifted_contiguous rb : Forall (λ c, snd c = 0) (rb_source rb) → contiguous rb.
Proof.
  intros Hu. exists (passed rb). split; [done|]. generalize (passed rb ++ drop (Z.to_nat (rb_pos rb)) (rb_working rb)).
  induction Hu as [|[data off] source Hoff _ IH]; intros before; [done|]. simpl in *. subst off. split; [apply suffix_nil|].
  apply IH.
Qed.

Lemma eof_window before rb b rb' :
  wf rb → at_window before rb → eof rb = (b, rb') → at_window before rb'.
Proof.
  intros Hwf [Hp Hw]. unfold eof. destruct (hasPendingData rb) eqn:Hpend; [by intros [= <- <-]|].
  assert (drop (Z.to_nat (rb_pos rb)) (rb_working rb) = []) as Hd.
  { apply blen_0_nil. unfold hasPendingData in Hpend. apply Z.ltb_ge in Hpend.
    pose proof (remaining_pending rb (wf_pos _ Hwf)).
    pose proof (blen_nonneg (drop (Z.to_nat (rb_pos rb)) (rb_working rb))). lia. }
  unfold next. pose proof (wf_source _ Hwf) as Hs. rewrite Hd, app_nil_r in Hw.
  destruct (rb_source rb) as [|[data off] rest].
  - intros [= _ <-]. split; [apply suffix_nil|done].
  - inversion_clear Hs as [|? ? [_ Ho] _]. simpl in *. intros [= _ <-]. rewrite Z.min_l by lia. exact Hw.
Qed.

Lemma advance_window before rb k :
  wf rb → 0 ≤ k ≤ available rb → at_window before rb →
  at_window (before ++ take (Z.to_nat k) (drop (Z.to_nat (rb_pos rb)) (rb_working rb))) (advance rb k).
Proof.
  intros Hwf Hk [Hp Hw]. pose proof (wf_pos _ Hwf) as Hpos. unfold available in Hk.
  unfold at_window, passed in *. cbn [advance rb_working rb_pos rb_source].
  replace (Z.to_nat (rb_pos rb + k)) with (Z.to_nat (rb_pos rb) + Z.to_nat k)%nat by lia. split.
  - rewrite <- take_take_drop. by apply suffix_app.
  - by rewrite <- drop_drop, <- app_assoc, take_drop.
Qed.

Lemma advance_contiguous rb k : wf rb → 0 ≤ k ≤ available rb → contiguous rb → contiguous (advance rb k).
Proof. intros Hwf Hk [before Hb]. eexists. by apply advance_window. Qed.

Lemma read_loop_window before fuel copied n rb bs rb' :
  wf rb → at_window before rb → read_loop fuel copied n rb = Ret (bs, rb') →
  ∃ cs, bs = copied ++ cs ∧ at_window (before ++ cs) rb'.
Proof.
  revert before copied rb. induction fuel as [|fuel IH]; intros before copied rb Hwf Hb; simpl;
    (destruct (blen copied <? n) eqn:Hlt; [|intros [= <- <-]; exists []; by rewrite !app_nil_r]);
    destruct (eof_spec rb Hwf) as (b & rb1 & Heof & Hwf1 & _ & _ & _ & Hav); rewrite Heof;
    pose proof (eof_window _ _ _ _ Hwf Hb Heof) as Hb1;
    (destruct b; [intros [= <- <-]; exists []; by rewrite !app_nil_r|]); [done|].
  destruct (Hav eq_refl) as [Hpos _]. apply Z.ltb_lt in Hlt.
  set (k := Z.min (available rb1) (n - blen copied)).
  assert (0 ≤ k ≤ available rb1) as Hk by (unfold k; lia).
  pose proof (wf_pos _ Hwf1) as Hp.
  assert (read_bytes (rb_working rb1) (rb_pos rb1) k =
    Ret (take (Z.to_nat k) (drop (Z.to_nat (rb_pos rb1)) (rb_working rb1)))) as ->.
  { unfold read_bytes, available in *. by rewrite !(proj2 (Z.leb_le _ _)) by lia. }
  cbn [mbind outcome_bind]. intros Hr.
  destruct (IH _ _ _ (wf_advance _ _ Hwf1 Hk) (advance_window _ _ _ Hwf1 Hk Hb1) Hr) as (cs & -> & Hcs).
  rewrite <- app_assoc in Hcs. eexists. split; [by rewrite <- app_assoc|done].
Qed.

Lemma readStrict_spec n rb :
  wf rb → 0 ≤ n →
  if n <=? blen (remaining rb) then
    ∃ rb', readStrict n rb = Ret (take (Z.to_nat n) (remaining rb), rb') ∧ wf rb' ∧
      remaining rb' = drop (Z.to_nat n) (remaining rb) ∧
      (contiguous rb → contiguous rb' ∧
        (n ≤ rb_pos rb' → take (Z.to_nat n) (remaining rb) `suffix_of` passed rb'))
  else readStrict n rb = Throw CANNOT_READ_ALL_DATA.
Proof.
  intros Hwf Hn. destruct (read_spec n rb Hwf Hn) as (rb' & Hr & Hwf' & Hrem).
  unfold readStrict. rewrite Hr. simpl. rewrite blen_take, Z2Nat.id by done.
  destruct (Z.leb_spec n (blen (remaining rb))); [|by rewrite (proj2 (Z.eqb_neq _ _)) by lia].
  rewrite Z.min_l, Z.eqb_refl by done. exists rb'. split_and!; [done|done|done|].
  intros [before Hb]. destruct (read_loop_window _ _ _ _ _ _ _ Hwf Hb Hr) as (cs & Hcs & Hb'). simpl in Hcs. subst cs.
  split; [by eexists|]. intros Hpos. destruct Hb' as [[k Hk] _].
  assert (blen (passed rb') = rb_pos rb') as Hl by (unfold passed; destruct Hwf'; blia).
  apply app_eq_inv in Hk as [(l & _ & ->)|(l & _ & Hk)]; [by exists l|].
  apply (f_equal blen) in Hk as Hkl. rewrite blen_app, blen_take, Hl in Hkl.
  assert (l = []) as -> by (apply blen_0_nil; pose proof (blen_nonneg l); lia).
  by rewrite Hk.
Qed.

(** A read of what is in the buffer does not go further. *)
Lemma readStrict_within n rb :
  wf rb → 0 < n ≤ available rb →
  ∃ bs, readStrict n rb = Ret (bs, advance rb n).
Proof.
  intros Hwf Hn. pose proof (wf_pos _ Hwf) as Hp. unfold readStrict, read, loop_fuel. cbn [read_loop].
  rewrite blen_nil, (proj2 (Z.ltb_lt _ _)) by lia. unfold eof, hasPendingData.
  rewrite (proj2 (Z.ltb_lt _ _)) by lia. rewrite Z.sub_0_r, Z.min_r by lia.
  destruct (read_bytes_safe (rb_working rb) (rb_pos rb) n) as (bs & -> & Hl & _); [lia|lia|unfold available in Hn; lia|].
  cbn [mbind outcome_bind app]. rewrite Hl, (proj2 (Z.ltb_ge _ _)) by lia. cbn [mbind outcome_bind].
  rewrite Hl, Z.eqb_refl. by exists bs.
Qed.
End lemmas.

(** C40: a [ReadBuffer] implements the stream of bytes it stands for, however the
    data is cut into buffers by [nextImpl]: [read] returns the next [n] bytes (or
    all that are left) and leaves the rest; [tryIgnore] skips the same bytes and
    says how many; [readStrict] and [ignore] do the same when there are [n] bytes
    and otherwise throw CANNOT_READ_ALL_DATA and ATTEMPT_TO_READ_AFTER_EOF; [eof]
    is true exactly at the end of the stream. *)
Theorem read_implements_stream (rb : t) (n : Z) :
  wf rb → 0 ≤ n →
  let rest := remaining rb in
  ∃ rb', wf rb' ∧ remaining rb' = drop (Z.to_nat n) rest ∧
    read n rb = Ret (take (Z.to_nat n) rest, rb') ∧
    tryIgnore n rb = Ret (Z.min n (blen rest), rb') ∧
    readStrict n rb =
      (if n <=? blen rest then Ret (take (Z.to_nat n) rest, rb') else Throw CANNOT_READ_ALL_DATA) ∧
    ignore n rb = (if n <=? blen rest then Ret rb' else Throw ATTEMPT_TO_READ_AFTER_EOF) ∧
    (fst (eof rb) = true ↔ rest = []).
Proof.
  intros Hwf Hn rest. destruct (read_spec n rb Hwf Hn) as (rb' & Hr & Hwf' & Hrem).
  destruct (skip_loops (loop_fuel rb) [] n rb _ _ Hwf Hn Hr) as [Ht Hi].
  rewrite blen_take, Z.sub_0_r in *. rewrite Z2Nat.id in * by done.
  exists rb'. split_and!; [done|done|done|done|..].
  - unfold readStrict. rewrite Hr. simpl. rewrite blen_take, Z2Nat.id by done. fold rest.
    zcases; done || lia.
  - unfold ignore. rewrite Hi. simpl. fold rest.
    zcases; done || lia.
  - destruct (eof_spec rb Hwf) as (b & rb1 & -> & _ & _ & _ & Hb & _). simpl. fold rest in Hb.
    destruct (decide (rest = [])), b; naive_solver.
Qed.

(** Three buffers, the second with an offset, read across their borders. *)
Lemma read_implements_stream_witness :
  ∃ rb', read 5 (mk [1; 2] 1 0 [([0; 3; 4], 1); ([5; 6; 7; 8], 0)]) = Ret ([2; 3; 4; 5; 6], rb') ∧
    remaining rb' = [7; 8].
Proof.
  destruct (read_implements_stream (mk [1; 2] 1 0 [([0; 3; 4], 1); ([5; 6; 7; 8], 0)]) 5)
    as (rb' & _ & H2 & H3 & _).
  - split; simpl; repeat constructor; cbv; congruence.
  - lia.
  - exists rb'. split; [exact H3|exact H2].
Defined.
End ReadBuffer.

(** * WriteBuffer *)

Module WriteBuffer.

(** The virtual [nextImpl] of a class derived from [WriteBuffer]: it is given the
    data in the buffer up to the cursor and the state of the derived class. *)
Class NextImpl (Sk : Type) := nextImpl : bytes → Sk → outcome unit * Sk.

Record t (Sk : Type) := mk {
  wb_working : bytes;
  wb_pos : Z;
  wb_bytes : Z;
  wb_finalized : bool;
  wb_canceled : bool;
  wb_sink : Sk;
}.
Arguments mk {Sk} _ _ _ _ _ _.
Arguments wb_working {Sk} _.
Arguments wb_pos {Sk} _.
Arguments wb_bytes {Sk} _.
Arguments wb_finalized {Sk} _.
Arguments wb_canceled {Sk} _.
Arguments wb_sink {Sk} _.

Section operations.
Context {Sk : Type} `{NextImpl Sk}.
Implicit Types wb : t Sk.

Definition available wb : Z := blen (wb_working wb) - wb_pos wb.
Definition hasPendingData wb : bool := 0 <? available wb.
Definition pending wb : bytes := take (Z.to_nat (wb_pos wb)) (wb_working wb).

Definition set_cursor wb (working : bytes) (pos : Z) : t Sk :=
  mk working pos (wb_bytes wb) (wb_finalized wb) (wb_canceled wb) (wb_sink wb).

(** The cursor returns to the beginning whether or not [nextImpl] throws. *)
Definition next wb : outcome unit * t Sk :=
  if wb_pos wb =? 0 then (Ret tt, wb) else
  let '(res, sink) := nextImpl (pending wb) (wb_sink wb) in
  (res, mk (wb_working wb) 0 (u64 (wb_bytes wb + wb_pos wb))
           (wb_finalized wb) (wb_canceled wb) sink).

Definition nextIfAtEnd wb : outcome unit * t Sk :=
  if hasPendingData wb then (Ret tt, wb) else next wb.

(** [write(const char * from, size_t n)]; the fuel bounds the number of
    iterations, each of which copies at least one byte when the buffer is not
    empty. *)
Fixpoint write_loop (fuel : nat) (from : bytes) (copied : Z) wb : outcome unit * t Sk :=
  if copied <? blen from then
    match fuel with
    | O => (OutOfFuel, wb)
    | S fuel' =>
        let '(res, wb) := nextIfAtEnd wb in
        match res with
        | Ret _ =>
            let bytes_to_copy := Z.min (available wb) (blen from - copied) in
            match (bs ← read_bytes from copied bytes_to_copy;
                   write_bytes (wb_working wb) (wb_pos wb) bs) with
            | Ret working =>
                write_loop fuel' from (copied + bytes_to_copy)
                  (set_cursor wb working (wb_pos wb + bytes_to_copy))
            | Throw e => (Throw e, wb)
            | UB => (UB, wb)
            | OutOfFuel => (OutOfFuel, wb)
            end
        | _ => (res, wb)
        end
    end
  else (Ret tt, wb).

Definition write (from : bytes) wb : outcome unit * t Sk :=
  if wb_finalized wb then (Throw LOGICAL_ERROR, wb)
  else write_loop (length from) from 0 wb.

Definition cancel wb : t Sk :=
  if wb_canceled wb || wb_finalized wb then wb
  else mk (wb_working wb) (wb_pos wb) (wb_bytes wb) (wb_finalized wb) true (wb_sink wb).

(** [finalizeImpl] of the base class is [next]. *)
Definition finalize wb : outcome unit * t Sk :=
  if wb_finalized wb then (Ret tt, wb)
  else if wb_canceled wb then (Throw LOGICAL_ERROR, wb)
  else
    let '(res, wb) := next wb in
    match res with
    | Ret _ => (Ret tt, mk (wb_working wb) (wb_pos wb) (wb_bytes wb) true (wb_canceled wb) (wb_sink wb))
    | _ => (res, cancel (set_cursor wb (wb_working wb) 0))
    end.
End operations.

(** A buffer with [capacity] bytes of memory, nothing written yet. *)
Definition create {Sk} (capacity : nat) (sink : Sk) : t Sk :=
  mk (replicate capacity 0) 0 0 false false sink.

(** A sink whose [nextImpl] appends the data it is given to what it holds, and
    may only throw instead. [holds s bs] says that the sink is in a consistent
    state and stands for the bytes [bs]; [max_data] bounds the buffers it takes. *)
Class Sink (Sk : Type) `{NextImpl Sk} := {
  holds : Sk → bytes → Prop;
  max_data : Z;
  nextImpl_spec : ∀ data s held,
    is_bytes data → 0 < blen data ≤ max_data → holds s held →
    match nextImpl data s with
    | (Ret _, s') => holds s' (held ++ data)
    | (Throw _, _) => True
    | _ => False
    end;
}.

(** A file that is only appended to, with a limit on its size. *)
Record file := File { file_data : bytes; file_limit : Z }.

#[global] Instance file_nextImpl : NextImpl file := λ data f,
  if blen (file_data f) + blen data <=? file_limit f
  then (Ret tt, File (file_data f ++ data) (file_limit f))
  else (Throw CANNOT_WRITE_AFTER_END_OF_BUFFER, f).

#[global, refine] Instance file_sink : Sink file :=
  {| holds f bs := file_data f = bs; max_data := 2 ^ 63 |}.
Proof.
  intros data f held _ _ <-. unfold nextImpl, file_nextImpl. by destruct (_ <=? _).
Defined.

Section stream.
Context {Sk : Type} `{Sink Sk}.
Implicit Types wb : t Sk.

(** The buffer is in a consistent state, with a capacity the sink can take, and
    has been given the bytes [bs], of which the sink holds all but the last, which
    are still in the buffer. *)
Record writes wb (bs : bytes) : Prop := {
  writes_bytes : is_bytes (wb_working wb);
  writes_pos : 0 ≤ wb_pos wb ≤ blen (wb_working wb);
  writes_capacity : 0 < blen (wb_working wb) ≤ max_data;
  writes_held : ∃ held, holds (wb_sink wb) held ∧ bs = held ++ pending wb;
}.

Lemma create_writes (capacity : nat) (sink : Sk) bs :
  0 < Z.of_nat capacity ≤ max_data → holds sink bs → writes (create capacity sink) bs.
Proof.
  intros ? ?. split; simpl; rewrite ?blen_replicate; [|lia|lia|].
  - apply Forall_replicate. unfold is_byte. lia.
  - exists bs. unfold pending. simpl. by rewrite app_nil_r.
Qed.

Lemma next_spec wb bs :
  writes wb bs →
  match next wb with
  | (Ret _, wb') => writes wb' bs ∧ wb_pos wb' = 0 ∧ wb_working wb' = wb_working wb
      ∧ wb_finalized wb' = wb_finalized wb ∧ wb_canceled wb' = wb_canceled wb
  | (Throw _, wb') => pending wb' = [] ∧ wb_finalized wb' = wb_finalized wb
  | _ => False
  end.
Proof.
  intros Hw. pose proof Hw as [? ? ? (held & Hh & ->)]. unfold next. destruct (Z.eqb_spec (wb_pos wb) 0) as [Hz|Hz].
  - by split_and!.
  - assert (0 < blen (pending wb) ≤ max_data) by (unfold pending; blia).
    pose proof (nextImpl_spec (pending wb) (wb_sink wb) held) as Hn.
    specialize (Hn ltac:(by apply Forall_take) ltac:(done) Hh).
    destruct (nextImpl _ _) as [[] sink]; try done.
    split_and!; [|done..]. split; simpl; [done|blia|done|].
    exists (held ++ pending wb). by rewrite app_nil_r.
Qed.

Lemma nextIfAtEnd_spec wb bs :
  writes wb bs →
  match nextIfAtEnd wb with
  | (Ret _, wb') => writes wb' bs ∧ 0 < available wb' ∧ wb_working wb' = wb_working wb
      ∧ wb_finalized wb' = wb_finalized wb ∧ wb_canceled wb' = wb_canceled wb
  | (Throw _, wb') => pending wb' = []
  | _ => False
  end.
Proof.
  intros Hwr. unfold nextIfAtEnd, hasPendingData.
  destruct (0 <? available wb) eqn:Ha; [apply Z.ltb_lt in Ha; by split_and!|].
  pose proof (next_spec wb bs Hwr) as Hn. destruct (next wb) as [[] wb']; try naive_solver.
  destruct Hn as (? & Hp & Hw & ? & ?). split_and!; try done.
  unfold available. rewrite Hp, Hw. destruct Hwr. lia.
Qed.

(** Data copied to the cursor, within the buffer. *)
Lemma writes_append wb bs m1 m2 m3 data :
  writes wb bs → wb_working wb = m1 ++ m2 ++ m3 → wb_pos wb = blen m1 → blen m2 = blen data →
  is_bytes data →
  writes (set_cursor wb (m1 ++ data ++ m3) (wb_pos wb + blen data)) (bs ++ data) ∧
  blen (m1 ++ data ++ m3) = blen (wb_working wb).
Proof.
  intros [Hb Hp Hc (held & Hh & ->)] Hm Hm1 Hl Hd. rewrite Hm in *.
  assert (blen (m1 ++ data ++ m3) = blen (m1 ++ m2 ++ m3)) as Hlen by blia. split; [|done].
  rewrite !Forall_app in Hb. split; simpl.
  - rewrite !Forall_app. tauto.
  - rewrite Hlen. blia.
  - by rewrite Hlen.
  - exists held. split; [done|]. rewrite <- app_assoc. f_equal. unfold pending. simpl.
    rewrite Hm, Hm1, <- blen_app, !to_nat_blen, take_app_length.
    by rewrite (assoc_L (++) m1 data m3), take_app_length.
Qed.

Lemma write_loop_spec fuel from copied wb bs :
  writes wb bs → is_bytes from →
  0 ≤ copied ≤ blen from → blen from - copied ≤ Z.of_nat fuel →
  match write_loop fuel from copied wb with
  | (Ret _, wb') => writes wb' (bs ++ drop (Z.to_nat copied) from)
      ∧ blen (wb_working wb') = blen (wb_working wb)
      ∧ wb_finalized wb' = wb_finalized wb ∧ wb_canceled wb' = wb_canceled wb
  | (Throw _, wb') => pending wb' = []
  | _ => False
  end.
Proof.
  revert copied wb bs. induction fuel as [|fuel IH]; intros copied wb bs Hwr Hfrom Hc Hf.
  all: simpl; destruct (copied <? blen from) eqn:Hlt;
    [apply Z.ltb_lt in Hlt
    |apply Z.ltb_ge in Hlt; rewrite drop_ge, app_nil_r by (unfold blen in *; lia); by split_and!].
  { lia. }
  pose proof (nextIfAtEnd_spec wb bs Hwr) as Hn.
  destruct (nextIfAtEnd wb) as [[] wb1]; try done.
  destruct Hn as (Hwr1 & Hav & Hw & Hfi & Hca).
  set (k := Z.min (available wb1) (blen from - copied)).
  assert (0 < k ∧ k ≤ available wb1 ∧ k ≤ blen from - copied) as (? & ? & ?) by (unfold k; lia).
  pose proof Hwr1 as [_ Hpos1 _ _]. unfold available in Hav, k.
  destruct (split_at from copied) as (f1 & f23 & -> & Hf1); [lia|].
  destruct (split_at f23 k) as (f2 & f3 & -> & Hf2); [blia|].
  destruct (split_at (wb_working wb1) (wb_pos wb1)) as (m1 & m23 & Hm & Hm1); [lia|].
  destruct (split_at m23 k) as (m2 & m3 & -> & Hm2);
    [apply (f_equal blen) in Hm; unfold available in *; blia|].
  rewrite read_bytes_app by lia. simpl. rewrite Hm, write_bytes_app by lia.
  destruct (writes_append wb1 bs m1 m2 m3 f2 Hwr1 Hm) as [Hwr2 Hlen]; [lia|lia|rewrite !Forall_app in Hfrom; tauto|].
  rewrite Hf2 in Hwr2. specialize (IH (copied + k) _ _ Hwr2 Hfrom ltac:(lia) ltac:(lia)). simpl in IH.
  destruct (write_loop fuel _ (copied + k) _) as [[] wb2]; try done.
  destruct IH as (Hwr3 & ? & ? & ?). split_and!; [|congruence..].
  replace (bs ++ drop (Z.to_nat copied) (f1 ++ f2 ++ f3)) with
    ((bs ++ f2) ++ drop (Z.to_nat (copied + k)) (f1 ++ f2 ++ f3)); [done|].
  rewrite <- app_assoc. f_equal.
  rewrite <- Hf1, <- Hf2, <- blen_app, !to_nat_blen, drop_app_length.
  by rewrite (assoc_L (++) f1 f2 f3), drop_app_length.
Qed.

Lemma write_spec data wb bs :
  writes wb bs → is_bytes data →
  match write data wb with
  | (Ret _, wb') => writes wb' (bs ++ data) ∧ blen (wb_working wb') = blen (wb_working wb)
      ∧ wb_finalized wb' = wb_finalized wb ∧ wb_canceled wb' = wb_canceled wb
  | (Throw _, wb') => wb_finalized wb = false → pending wb' = []
  | _ => False
  end.
Proof.
  intros Hwr Hd. unfold write. destruct (wb_finalized wb) eqn:Hfin; [done|].
  pose proof (write_loop_spec (length data) data 0 wb bs Hwr Hd) as Hw.
  specialize (Hw ltac:(blia) ltac:(unfold blen; lia)). rewrite drop_0, Hfin in Hw.
  by destruct (write_loop _ data 0 wb) as [[] wb1].
Qed.

(** The calls [write(data)] of a list, up to the first that throws. *)
Fixpoint write_all (datas : list bytes) wb : outcome unit * t Sk :=
  match datas with
  | [] => (Ret tt, wb)
  | data :: rest =>
      let '(res, wb) := write data wb in
      match res with Ret _ => write_all rest wb | _ => (res, wb) end
  end.

Lemma write_all_spec datas wb bs :
  writes wb bs → wb_finalized wb = false → Forall is_bytes datas →
  match write_all datas wb with
  | (Ret _, wb') => writes wb' (bs ++ concat datas)
      ∧ wb_finalized wb' = false ∧ wb_canceled wb' = wb_canceled wb
  | (Throw _, wb') => pending wb' = []
  | _ => False
  end.
Proof.
  intros Hwr Hfin Hd. revert wb bs Hwr Hfin.
  induction Hd as [|data datas Hd _ IH]; intros wb bs Hwr Hfin; simpl.
  { rewrite app_nil_r. by split_and!. }
  pose proof (write_spec data wb bs Hwr Hd) as Hw.
  destruct (write data wb) as [[] wb1]; try done; [|by apply Hw].
  destruct Hw as (Hwr1 & Hlen & Hf & Hc).
  specialize (IH wb1 _ Hwr1 ltac:(congruence)). rewrite <- app_assoc in IH.
  destruct (write_all datas wb1) as [[] wb2]; try done.
  destruct IH as (? & ? & ?). split_and!; [done|done|congruence].
Qed.

Lemma finalize_spec wb bs :
  writes wb bs → wb_finalized wb = false → wb_canceled wb = false →
  match finalize wb with
  | (Ret _, wb') => holds (wb_sink wb') bs ∧ wb_finalized wb' = true
  | (Throw _, wb') => pending wb' = [] ∧ wb_canceled wb' = true
  | _ => False
  end.
Proof.
  intros Hwr Hf Hc. unfold finalize. rewrite Hf, Hc.
  pose proof (next_spec wb bs Hwr) as Hn. destruct (next wb) as [[] wb2]; try done; simpl.
  - destruct Hn as ([_ _ _ (held & Hh & ->)] & Hp & _). split; [|done].
    unfold pending. by rewrite Hp, app_nil_r.
  - destruct Hn as (Hp & Hf2). unfold cancel. simpl. rewrite Hf2, Hf.
    by destruct (wb_canceled wb2) eqn:E.
Qed.
End stream.

(** A [WriteBuffer] over a sink that appends delivers exactly the bytes
    written to it, in order: after any sequence of [write]s and a [finalize] that
    return, the sink holds what it held before, the data pending then, and the new
    data, and the buffer is finalized; when the sink throws, the buffer holds
    nothing that a second attempt would write again, and a failed [finalize]
    leaves it canceled. No call has undefined behaviour or runs forever. *)
Theorem write_delivers_all {Sk : Type} `{Sink Sk} (datas : list bytes) (wb : t Sk) (bs : bytes) :
  writes wb bs → wb_finalized wb = false → wb_canceled wb = false → Forall is_bytes datas →
  match write_all datas wb with
  | (Ret _, wb1) =>
      match finalize wb1 with
      | (Ret _, wb2) => holds (wb_sink wb2) (bs ++ concat datas) ∧ wb_finalized wb2 = true
      | (Throw _, wb2) => pending wb2 = [] ∧ wb_canceled wb2 = true
      | _ => False
      end
  | (Throw _, wb1) => pending wb1 = []
  | _ => False
  end.
Proof.
  intros Hwr Hfin Hcan Hd. pose proof (write_all_spec datas wb bs Hwr Hfin Hd) as Hw.
  destruct (write_all datas wb) as [[] wb1]; try naive_solver.
  destruct Hw as (Hwr1 & Hf1 & Hc1). apply finalize_spec; congruence.
Qed.

(** A buffer of two bytes over a file. *)
Lemma write_delivers_all_witness :
  ∃ wb1 wb2, write_all [[1; 2; 3]; [4]; [5; 6]] (create 2 (File [9] 100)) = (Ret tt, wb1) ∧
    finalize wb1 = (Ret tt, wb2) ∧ file_data (wb_sink wb2) = [9; 1; 2; 3; 4; 5; 6].
Proof.
  pose proof (write_delivers_all [[1; 2; 3]; [4]; [5; 6]] (create 2 (File [9] 100)) [9]) as H.
  destruct (write_all _ _) as [r1 wb1] eqn:E1. vm_compute in E1. injection E1 as <- <-.
  destruct (finalize _) as [r2 wb2] eqn:E2. vm_compute in E2. injection E2 as <- <-.
  do 2 eexists. split; [reflexivity|]. split; [vm_compute; reflexivity|].
  apply H; [by apply create_writes|done|done|].
  repeat constructor; cbv; congruence.
Defined.
End WriteBuffer.

(** * Steps that write and read *)

(** The result of a step and the buffer after it. *)
Definition and_then {Sk} (r : outcome unit * WriteBuffer.t Sk) (k : WriteBuffer.t Sk → outcome unit * WriteBuffer.t Sk) :
  outcome unit * WriteBuffer.t Sk :=
  match r with
  | (Ret _, wb) => k wb
  | (Throw e, wb) => (Throw e, wb)
  | (UB, wb) => (UB, wb)
  | (OutOfFuel, wb) => (OutOfFuel, wb)
  end.

(** What a step writes. *)
Definition appends {Sk} `{WriteBuffer.Sink Sk} (r : outcome unit * WriteBuffer.t Sk) (bs : bytes) : Prop :=
  match r with (Ret _, wb) => WriteBuffer.writes wb bs | (Throw _, _) => True | _ => False end.

(** What a step reads: [a], encoded as [e]. *)
Definition reads {A} (read : ReadBuffer.t → outcome (A * ReadBuffer.t)) (a : A) (e : bytes) : Prop :=
  ∀ rb rest, ReadBuffer.wf rb → ReadBuffer.remaining rb = e ++ rest →
    ∃ rb', read rb = Ret (a, rb') ∧ ReadBuffer.wf rb' ∧ ReadBuffer.remaining rb' = rest.

Lemma and_then_appends {Sk} `{WriteBuffer.Sink Sk} (r : outcome unit * WriteBuffer.t Sk) k bs bs' :
  appends r bs → (∀ wb, WriteBuffer.writes wb bs → appends (k wb) bs') → appends (and_then r k) bs'.
Proof. destruct r as [[] wb]; simpl; try done. auto. Qed.

Lemma reads_bind {A B C} (f : ReadBuffer.t → outcome (A * ReadBuffer.t)) (g : A → ReadBuffer.t → outcome (B * ReadBuffer.t))
    (h : A → B → C) a b e e' :
  reads f a e → reads (g a) b e' →
  reads (λ rb, '(a, rb) ← f rb; '(b, rb) ← g a rb; Ret (h a b, rb)) (h a b) (e ++ e').
Proof.
  intros Hf Hg rb rest Hwf Hrem. rewrite <- app_assoc in Hrem. destruct (Hf rb _ Hwf Hrem) as (rb1 & -> & Hwf1 & Hrem1).
  destruct (Hg rb1 _ Hwf1 Hrem1) as (rb2 & Hr & Hwf2 & Hrem2). exists rb2. cbn [mbind outcome_bind]. by rewrite Hr.
Qed.

Lemma data_appends {Sk} `{WriteBuffer.Sink Sk} data (wb : WriteBuffer.t Sk) bs :
  WriteBuffer.writes wb bs → is_bytes data → appends (WriteBuffer.write data wb) (bs ++ data).
Proof.
  intros Hw Hd. pose proof (WriteBuffer.write_spec data wb bs Hw Hd) as Hs. unfold appends.
  destruct (WriteBuffer.write data wb) as [[] ?]; try done. by destruct Hs.
Qed.
