(* ===== verification/VarInt.v ===== *)
(** Variable-length integers (src/src/IO/VarInt.h): the overloads for streams,
    memory and the buffers of Buffers.v. *)

From S2P Require Import Prelude Buffers.
From stdpp Require Import base tactics list numbers.
Local Open Scope Z_scope.

(** * Writing *)

(** The number of 7-bit groups of a UInt64 bounds the loops below. *)
Definition max_varuint_bytes : nat := 10.

(** [writeVarUInt(UInt64, std::ostream &)]: the bytes put to the stream. *)
Fixpoint writeVarUInt_ostream (fuel : nat) (x : Z) (ostr : bytes) : outcome bytes :=
  if 0x7F <? x then
    match fuel with
    | O => OutOfFuel
    | S fuel' =>
        let byte := u8 (Z.lor 0x80 (Z.land x 0x7F)) in
        writeVarUInt_ostream fuel' (Z.shiftr x 7) (ostr ++ [byte])
    end
  else Ret (ostr ++ [u8 x]).

(** [writeVarUInt(UInt64 x, char * ostr)]: the memory and the advanced pointer. *)
Fixpoint writeVarUInt_ptr (fuel : nat) (x : Z) (mem : bytes) (ostr : Z) : outcome (bytes * Z) :=
  if 0x7F <? x then
    match fuel with
    | O => OutOfFuel
    | S fuel' =>
        let byte := u8 (Z.lor 0x80 (Z.land x 0x7F)) in
        mem ← store 1 mem ostr byte;
        writeVarUInt_ptr fuel' (Z.shiftr x 7) mem (ostr + 1)
    end
  else
    mem ← store 1 mem ostr (u8 x);
    Ret (mem, ostr + 1).

(** [writeVarUInt(UInt64, WriteBuffer &)]. *)
Definition put_byte {Sk} `{WriteBuffer.NextImpl Sk} (byte : Z) (ostr : WriteBuffer.t Sk)
  : outcome unit * WriteBuffer.t Sk :=
  let '(res, ostr) := WriteBuffer.nextIfAtEnd ostr in
  match res with
  | Ret _ =>
      match store 1 (WriteBuffer.wb_working ostr) (WriteBuffer.wb_pos ostr) byte with
      | Ret working => (Ret tt, WriteBuffer.set_cursor ostr working (WriteBuffer.wb_pos ostr + 1))
      | Throw e => (Throw e, ostr)
      | UB => (UB, ostr)
      | OutOfFuel => (OutOfFuel, ostr)
      end
  | _ => (res, ostr)
  end.

Fixpoint writeVarUInt {Sk} `{WriteBuffer.NextImpl Sk} (fuel : nat) (x : Z) (ostr : WriteBuffer.t Sk)
  : outcome unit * WriteBuffer.t Sk :=
  if 0x7F <? x then
    match fuel with
    | O => (OutOfFuel, ostr)
    | S fuel' =>
        let byte := u8 (Z.lor 0x80 (Z.land x 0x7F)) in
        let '(res, ostr) := put_byte byte ostr in
        match res with
        | Ret _ => writeVarUInt fuel' (Z.shiftr x 7) ostr
        | _ => (res, ostr)
        end
    end
  else put_byte (u8 x) ostr.

(** [static_cast<UInt64>((x << 1) ^ (x >> 63))] of an Int64. *)
Definition zigzag (x : Z) : Z := u64 (Z.lxor (to_signed 8 (Z.shiftl x 1)) (Z.shiftr x 63)).

Definition writeVarInt {Sk} `{WriteBuffer.NextImpl Sk} (x : Z) (ostr : WriteBuffer.t Sk)
  : outcome unit * WriteBuffer.t Sk :=
  writeVarUInt max_varuint_bytes (zigzag x) ostr.

Definition writeVarInt_ptr (x : Z) (mem : bytes) (ostr : Z) : outcome (bytes * Z) :=
  writeVarUInt_ptr max_varuint_bytes (zigzag x) mem ostr.

(** * Reading *)

(** The body of the loop of all overloads: [x |= (byte & 0x7F) << (7 * i)]. *)
Definition add_group (x byte i : Z) : Z := Z.lor x (u64 (Z.shiftl (Z.land byte 0x7F) (7 * i))).
Definition is_last (byte : Z) : bool := Z.land byte 0x80 =? 0.

(** [varint_impl::readVarUInt<check_eof>]; [n] counts the iterations left. *)
Fixpoint varint_impl_readVarUInt (check_eof : bool) (n : nat) (i x : Z) (istr : ReadBuffer.t)
  : outcome (Z * ReadBuffer.t) :=
  match n with
  | O => Ret (x, istr)
  | S n' =>
      istr ← (if check_eof then
                let '(is_eof, istr) := ReadBuffer.eof istr in
                if is_eof then Throw ATTEMPT_TO_READ_AFTER_EOF else Ret istr
              else Ret istr);
      byte ← load 1 (ReadBuffer.rb_working istr) (ReadBuffer.rb_pos istr);
      let istr := ReadBuffer.advance istr 1 in
      let x := add_group x byte i in
      if is_last byte then Ret (x, istr)
      else varint_impl_readVarUInt check_eof n' (i + 1) x istr
  end.

Definition readVarUInt (istr : ReadBuffer.t) : outcome (Z * ReadBuffer.t) :=
  if 10 <=? ReadBuffer.available istr
  then varint_impl_readVarUInt false max_varuint_bytes 0 0 istr
  else varint_impl_readVarUInt true max_varuint_bytes 0 0 istr.

(** [readVarUInt(UInt64 &, std::istream &)]: [get] returns -1 at the end. *)
Fixpoint readVarUInt_istream (n : nat) (i x : Z) (istr : bytes) : outcome (Z * bytes) :=
  match n with
  | O => Ret (x, istr)
  | S n' =>
      let byte := u64 (match istr with [] => -1 | b :: _ => b end) in
      let istr := tail istr in
      let x := add_group x byte i in
      if is_last byte then Ret (x, istr) else readVarUInt_istream n' (i + 1) x istr
  end.

(** [readVarUInt(UInt64 &, const char *, size_t)] from [mem]; the pointer is
    [istr] and [end_] the end of the [size] bytes. *)
Fixpoint readVarUInt_ptr (n : nat) (i x : Z) (mem : bytes) (istr end_ : Z) : outcome (Z * Z) :=
  match n with
  | O => Ret (x, istr)
  | S n' =>
      _ ← throw_if (istr =? end_) ATTEMPT_TO_READ_AFTER_EOF;
      byte ← load 1 mem istr;
      let istr := istr + 1 in
      let x := add_group x byte i in
      if is_last byte then Ret (x, istr) else readVarUInt_ptr n' (i + 1) x mem istr end_
  end.

(** [(static_cast<UInt64>(x) >> 1) ^ -(x & 1)], where the raw bits [x] are first
    read as an Int64 and the result is stored in one. *)
Definition unzigzag (raw : Z) : Z :=
  let x := to_signed 8 raw in
  to_signed 8 (Z.lxor (Z.shiftr (u64 x) 1) (u64 (- Z.land x 1))).

Definition readVarInt (istr : ReadBuffer.t) : outcome (Z * ReadBuffer.t) :=
  '(raw, istr) ← readVarUInt istr;
  Ret (unzigzag raw, istr).

(** The overloads for narrower types truncate to [w] bytes. *)
Definition readVarUInt_narrow (w : Z) (istr : ReadBuffer.t) : outcome (Z * ReadBuffer.t) :=
  '(tmp, istr) ← readVarUInt istr;
  Ret (wrap w tmp, istr).

Definition readVarInt_narrow (w : Z) (istr : ReadBuffer.t) : outcome (Z * ReadBuffer.t) :=
  '(tmp, istr) ← readVarInt istr;
  Ret (to_signed w tmp, istr).

Definition getLengthOfVarUInt (x : Z) : Z :=
  if x <? Z.shiftl 1 7 then 1
  else if x <? Z.shiftl 1 14 then 2
  else if x <? Z.shiftl 1 21 then 3
  else if x <? Z.shiftl 1 28 then 4
  else if x <? Z.shiftl 1 35 then 5
  else if x <? Z.shiftl 1 42 then 6
  else if x <? Z.shiftl 1 49 then 7
  else if x <? Z.shiftl 1 56 then 8
  else if x <? Z.shiftl 1 63 then 9
  else 10.

Definition getLengthOfVarInt (x : Z) : Z := getLengthOfVarUInt (zigzag x).

Example zigzag_ex : (zigzag 0, zigzag (-1), zigzag 1, zigzag (- 2 ^ 63), unzigzag (2 ^ 64 - 1)) = (0, 1, 2, 2 ^ 64 - 1, - 2 ^ 63).
Proof. reflexivity. Qed.

(** * The encoding *)

(** The base-128 digits of [x], the lowest first, all but the last marked. *)
Fixpoint vlq (n : nat) (x : Z) : bytes :=
  match n with
  | O => [x]
  | S n' => if 127 <? x then (128 + x mod 128) :: vlq n' (x / 128) else [x]
  end.

Section encoding.
Lemma group_byte x : u8 (Z.lor 0x80 (Z.land x 0x7F)) = 128 + x mod 128.
Proof.
  change 0x7F with (2 ^ 7 - 1). rewrite land_low by done.
  pose proof (Z.mod_pos_bound x (2 ^ 7) ltac:(done)).
  change 0x80 with (1 * 2 ^ 7) at 1. rewrite lor_add by zlia. apply wrap_small. zlia.
Qed.

Lemma shiftr_7 x : Z.shiftr x 7 = x / 128.
Proof. by rewrite Z.shiftr_div_pow2. Qed.

Lemma vlq_fits n x : 0 ≤ x < 2 ^ (7 * (Z.of_nat n + 1)) → 127 < x → ∃ m, n = S m ∧ 0 ≤ x / 128 < 2 ^ (7 * (Z.of_nat m + 1)).
Proof.
  intros Hx H. destruct n as [|m]; [zlia|]. exists m. split; [done|].
  replace (7 * (Z.of_nat (S m) + 1)) with (7 + 7 * (Z.of_nat m + 1)) in Hx by lia.
  rewrite Z.pow_add_r in Hx by lia. change (2 ^ 7) with 128 in Hx.
  split; [apply Z.div_pos; lia|apply Z.div_lt_upper_bound; lia].
Qed.

Lemma vlq_bytes n x : 0 ≤ x < 2 ^ (7 * (Z.of_nat n + 1)) → is_bytes (vlq n x).
Proof.
  revert x. induction n as [|n IH]; intros x Hx.
  - repeat constructor; zlia.
  - cbn [vlq]. destruct (Z.ltb_spec 127 x).
    + destruct (vlq_fits _ _ Hx) as (m & [= <-] & ?); [done|].
      constructor; [unfold is_byte; pose proof (Z.mod_pos_bound x 128); lia|auto].
    + repeat constructor; lia.
Qed.

Lemma ostream_vlq n x ostr :
  0 ≤ x < 2 ^ (7 * (Z.of_nat n + 1)) → writeVarUInt_ostream n x ostr = Ret (ostr ++ vlq n x).
Proof.
  revert x ostr. induction n as [|n IH]; intros x ostr Hx; cbn [writeVarUInt_ostream vlq];
    (destruct (Z.ltb_spec 127 x);
     [|rewrite wrap_small by zlia; done]).
  - zlia.
  - destruct (vlq_fits _ _ Hx) as (m & [= <-] & ?); [done|].
    by rewrite group_byte, shiftr_7, IH, <- app_assoc.
Qed.

Lemma ptr_vlq n x pre old post :
  0 ≤ x < 2 ^ (7 * (Z.of_nat n + 1)) → blen old = blen (vlq n x) →
  writeVarUInt_ptr n x (pre ++ old ++ post) (blen pre) =
    Ret (pre ++ vlq n x ++ post, blen pre + blen (vlq n x)).
Proof.
  assert (∀ y, 0 ≤ y < 256 → le_split (Z.to_nat 1) y = [y]) as Hle
    by (intros y Hy; simpl; by rewrite Z.mod_small).
  revert x pre old. induction n as [|n IH]; intros x pre old Hx Hold;
    cbn [writeVarUInt_ptr vlq] in *; destruct (Z.ltb_spec 127 x).
  1: zlia.
  2: destruct (vlq_fits _ _ Hx) as (m & [= <-] & ?); [done|].
  2: rewrite group_byte, shiftr_7; pose proof (Z.mod_pos_bound x 128).
  2: rewrite blen_cons in *; pose proof (blen_nonneg (vlq n (x / 128)));
     destruct (split_at old 1) as (o1 & o2 & -> & Ho); [lia|];
     rewrite <- app_assoc, store_app by blia; cbn [mbind outcome_bind];
     rewrite Hle by lia; rewrite (assoc_L (++) pre);
     replace (blen pre + 1) with (blen (pre ++ [128 + x mod 128])) by blia;
     rewrite IH by blia; rewrite <- !app_assoc; do 2 f_equal; blia.
  all: rewrite wrap_small by zlia; rewrite store_app by blia;
    cbn [mbind outcome_bind]; by rewrite Hle by lia.
Qed.

Lemma length_vlq x : 0 ≤ x < 2 ^ 64 → blen (vlq max_varuint_bytes x) = getLengthOfVarUInt x.
Proof.
  intros Hx. unfold getLengthOfVarUInt, max_varuint_bytes.
  assert (∀ n y k, 0 ≤ k → 2 ^ (7 * k) ≤ y < 2 ^ (7 * (k + 1)) → k ≤ Z.of_nat n → blen (vlq n y) = k + 1) as Hlen.
  { induction n as [|n IH]; intros y k Hk Hy Hn; [by replace k with 0 by lia|].
    cbn [vlq]. destruct (Z.ltb_spec 127 y).
    - assert (k ≠ 0) by (intros ->; zlia).
      replace (7 * k) with (7 + 7 * (k - 1)) in Hy by lia.
      replace (7 * (k + 1)) with (7 + 7 * (k - 1 + 1)) in Hy by lia.
      rewrite !Z.pow_add_r in Hy by lia. change (2 ^ 7) with 128 in Hy.
      rewrite blen_cons, (IH _ (k - 1)); [lia|lia| |lia].
      split; [apply Z.div_le_lower_bound; lia|apply Z.div_lt_upper_bound; lia].
    - destruct (decide (k = 0)) as [->|]; [done|].
      assert (2 ^ 7 ≤ 2 ^ (7 * k)) by (apply Z.pow_le_mono_r; lia). lia. }
  rewrite !Z.shiftl_1_l.
  destruct (decide (x = 0)) as [->|]; [done|].
  repeat match goal with |- context [x <? 2 ^ ?k] => destruct (Z.ltb_spec x (2 ^ k)) end;
    match goal with
    | |- _ = ?r => rewrite (Hlen 10%nat x (r - 1)); zlia
    end.
Qed.
End encoding.

(** * Decoding *)

(** What the reading loops do on a stream of bytes. *)
Fixpoint vlq_read (n : nat) (i x : Z) (s : bytes) : option (Z * bytes) :=
  match n with
  | O => Some (x, s)
  | S n' =>
      match s with
      | [] => None
      | b :: s' =>
          let x := add_group x b i in
          if is_last b then Some (x, s') else vlq_read n' (i + 1) x s'
      end
  end.

Section decoding.
Lemma add_group_last acc i b :
  0 ≤ i → 0 ≤ acc < 2 ^ (7 * i) → 0 ≤ b ≤ 127 → b * 2 ^ (7 * i) < 2 ^ 64 →
  add_group acc b i = acc + b * 2 ^ (7 * i) ∧ is_last b = true.
Proof.
  intros Hi Hacc Hb Hlt. unfold add_group, is_last.
  change 0x7F with (2 ^ 7 - 1). rewrite land_low, Z.mod_small by zlia.
  rewrite Z.shiftl_mul_pow2, wrap_small by (change (8 * 8) with 64; lia).
  rewrite lor_add' by lia. split; [lia|].
  apply Z.eqb_eq. change 0x80 with (1 * 2 ^ 7). rewrite Z.land_comm.
  apply land_disjoint; zlia.
Qed.

Lemma add_group_more acc i r :
  0 ≤ i → 0 ≤ acc < 2 ^ (7 * i) → 0 ≤ r < 128 → r * 2 ^ (7 * i) < 2 ^ 64 →
  add_group acc (128 + r) i = acc + r * 2 ^ (7 * i) ∧ is_last (128 + r) = false.
Proof.
  intros Hi Hacc Hr Hlt. split.
  - rewrite <- (proj1 (add_group_last acc i r Hi Hacc ltac:(lia) Hlt)).
    unfold add_group. do 3 f_equal. change 0x7F with (2 ^ 7 - 1). rewrite !land_low by done.
    change (2 ^ 7) with 128. replace (128 + r) with (r + 1 * 128) by lia.
    by rewrite Z.mod_add.
  - apply Z.eqb_neq. change (128 + r) with (1 * 2 ^ 7 + r). rewrite <- lor_add by zlia.
    rewrite Z.land_lor_distr_l. change (Z.land (1 * 2 ^ 7) 0x80) with 0x80.
    intros H. apply Z.lor_eq_0_iff in H. lia.
Qed.

Lemma vlq_read_vlq m n i acc x rest :
  0 ≤ i → 0 ≤ acc < 2 ^ (7 * i) → 0 ≤ x → x * 2 ^ (7 * i) < 2 ^ 64 →
  x < 2 ^ (7 * (Z.of_nat m + 1)) → (m < n)%nat →
  vlq_read n i acc (vlq m x ++ rest) = Some (acc + x * 2 ^ (7 * i), rest).
Proof.
  revert n i acc x. induction m as [|m IH]; intros n i acc x Hi Hacc Hx H64 Hm Hn;
    (destruct n as [|n]; [lia|]); cbn [vlq vlq_read app].
  - destruct (add_group_last acc i x) as [Hg1 Hg2]; [lia|done|zlia|done|].
    by rewrite Hg1, Hg2.
  - destruct (Z.ltb_spec 127 x); cbn [app].
    + pose proof (Z.mod_pos_bound x 128 ltac:(lia)). pose proof (Z.div_mod x 128 ltac:(lia)).
      assert (0 < 2 ^ (7 * i)) by (apply Z.pow_pos_nonneg; lia).
      assert (2 ^ (7 * (i + 1)) = 128 * 2 ^ (7 * i)) as Hpow.
      { replace (7 * (i + 1)) with (7 + 7 * i) by lia. by rewrite Z.pow_add_r by lia. }
      destruct (add_group_more acc i (x mod 128)) as [Hg1 Hg2]; [lia|done|lia|nia|].
      rewrite Hg1, Hg2, IH.
      * do 2 f_equal. rewrite Hpow. nia.
      * lia.
      * rewrite Hpow. nia.
      * apply Z.div_pos; lia.
      * rewrite Hpow. nia.
      * apply Z.div_lt_upper_bound; [lia|].
        replace (7 * (Z.of_nat (S m) + 1)) with (7 + 7 * (Z.of_nat m + 1)) in Hm by lia.
        by rewrite Z.pow_add_r in Hm by lia.
      * lia.
    + destruct (add_group_last acc i x) as [Hg1 Hg2]; [lia|done|lia|done|].
      by rewrite Hg1, Hg2.
Qed.

(** A UInt64 has at most ten groups. *)
Lemma vlq_9 x : 0 ≤ x < 2 ^ 64 → vlq max_varuint_bytes x = vlq 9 x.
Proof.
  assert (∀ n y, 0 ≤ y < 2 ^ (7 * (Z.of_nat n + 1)) → vlq (S n) y = vlq n y) as Hn.
  { induction n as [|n IH]; intros y Hy.
    - cbn [vlq]. destruct (Z.ltb_spec 127 y); [zlia|done].
    - change (vlq (S (S n)) y) with (if 127 <? y then (128 + y mod 128) :: vlq (S n) (y / 128) else [y]).
      cbn [vlq]. destruct (Z.ltb_spec 127 y); [|done].
      destruct (vlq_fits _ _ Hy) as (m & [= <-] & ?); [done|]. f_equal. by apply IH. }
  intros Hx. apply Hn. zlia.
Qed.

(** The reading loop does not stop inside of an encoding. *)
Lemma vlq_read_prefix m n i acc x p q :
  0 ≤ x < 2 ^ (7 * (Z.of_nat m + 1)) → (m < n)%nat → vlq m x = p ++ q → q ≠ [] →
  vlq_read n i acc p = None.
Proof.
  revert n i acc x p. induction m as [|m IH]; intros n i acc x p Hx Hn Hp Hq;
    (destruct n as [|n]; [lia|]); (destruct p as [|b p]; [done|]); cbn [vlq app] in Hp.
  - injection Hp as _ Hp. symmetry in Hp. by apply app_eq_nil in Hp as [_ ?].
  - destruct (Z.ltb_spec 127 x); injection Hp as <- Hp.
    + destruct (vlq_fits _ _ Hx) as (m' & [= <-] & ?); [done|]. cbn [vlq_read].
      pose proof (Z.mod_pos_bound x 128 ltac:(lia)).
      assert (is_last (128 + x mod 128) = false) as ->.
      { apply (add_group_more 0 0 (x mod 128)); zlia. }
      apply (IH _ _ _ (x / 128)); [done|lia|done|done].
    + symmetry in Hp. by apply app_eq_nil in Hp as [_ ?].
Qed.

(** The overload for memory. *)
Lemma ptr_vlq_read n i x pre s post :
  readVarUInt_ptr n i x (pre ++ s ++ post) (blen pre) (blen pre + blen s) =
    match vlq_read n i x s with
    | Some (y, rest) => Ret (y, blen pre + (blen s - blen rest))
    | None => Throw ATTEMPT_TO_READ_AFTER_EOF
    end.
Proof.
  revert i x pre s. induction n as [|n IH]; intros i x pre s; cbn [readVarUInt_ptr vlq_read].
  - do 2 f_equal. lia.
  - destruct s as [|b s].
    + rewrite blen_nil, Z.add_0_r, Z.eqb_refl. done.
    + rewrite blen_cons. pose proof (blen_nonneg s). rewrite throw_if_false by (apply Z.eqb_neq; lia).
      cbn [mbind outcome_bind app]. rewrite load_byte by done. cbn [mbind outcome_bind].
      destruct (is_last b); [do 2 f_equal; lia|].
      specialize (IH (i + 1) (add_group x b i) (pre ++ [b]) s). rewrite blen_app, <- app_assoc in IH.
      cbn [app] in IH. change (blen [b]) with 1 in IH. rewrite <- Z.add_assoc in IH. rewrite IH.
      destruct (vlq_read n _ _ s) as [[y rest]|]; [do 2 f_equal; lia|done].
Qed.

(** What [writeVarUInt] has written is read back. *)
Lemma ptr_roundtrip x pre rest post :
  0 ≤ x < 2 ^ 64 →
  readVarUInt_ptr max_varuint_bytes 0 0 (pre ++ (vlq max_varuint_bytes x ++ rest) ++ post) (blen pre)
    (blen pre + blen (vlq max_varuint_bytes x ++ rest)) = Ret (x, blen pre + blen (vlq max_varuint_bytes x)).
Proof.
  intros Hx. rewrite ptr_vlq_read, (vlq_9 x Hx), vlq_read_vlq by (unfold max_varuint_bytes; zlia).
  rewrite blen_app. do 2 f_equal; [change (2 ^ (7 * 0)) with 1; lia|lia].
Qed.

Lemma load_head (rb : ReadBuffer.t) :
  ReadBuffer.wf rb → 0 < ReadBuffer.available rb →
  ∃ b, load 1 (ReadBuffer.rb_working rb) (ReadBuffer.rb_pos rb) = Ret b ∧
    ReadBuffer.remaining rb = b :: ReadBuffer.remaining (ReadBuffer.advance rb 1) ∧
    ReadBuffer.wf (ReadBuffer.advance rb 1) ∧ is_byte b.
Proof.
  intros Hwf Ha. pose proof (ReadBuffer.remaining_advance rb 1 Hwf ltac:(lia)) as Hr.
  pose proof (ReadBuffer.wf_advance rb 1 Hwf ltac:(lia)) as Hwf'.
  pose proof Hwf as [Hb Hp _]. unfold ReadBuffer.available in Ha.
  destruct (split_at (ReadBuffer.rb_working rb) (ReadBuffer.rb_pos rb)) as (w1 & w2 & Hw & Hl); [lia|].
  destruct w2 as [|b w2]; [rewrite Hw, app_nil_r in *; lia|].
  assert (is_byte b) by (rewrite Hw in Hb; apply Forall_app in Hb as [_ Hb]; by inversion Hb).
  exists b. split_and!; [| |done|done].
  - rewrite Hw. change (b :: w2) with ([b] ++ w2). rewrite load_app by done. simpl. f_equal; lia.
  - rewrite Hr. unfold ReadBuffer.remaining. rewrite Hw, <- Hl, to_nat_blen, drop_app_length. done.
Qed.

Lemma impl_vlq_read check_eof n i x rb :
  ReadBuffer.wf rb → (check_eof = true ∨ Z.of_nat n ≤ ReadBuffer.available rb) →
  match vlq_read n i x (ReadBuffer.remaining rb) with
  | Some (v, s) => ∃ rb', varint_impl_readVarUInt check_eof n i x rb = Ret (v, rb') ∧
      ReadBuffer.wf rb' ∧ ReadBuffer.remaining rb' = s
  | None => varint_impl_readVarUInt check_eof n i x rb = Throw ATTEMPT_TO_READ_AFTER_EOF
  end.
Proof.
  revert i x rb. induction n as [|n IH]; intros i x rb Hwf Hav; cbn [vlq_read varint_impl_readVarUInt].
  { by exists rb. }
  assert (ReadBuffer.remaining rb = [] ∧ check_eof = true ∧ fst (ReadBuffer.eof rb) = true ∨
    ∃ rb1, (if check_eof then let '(is_eof, istr) := ReadBuffer.eof rb in
              if is_eof then Throw ATTEMPT_TO_READ_AFTER_EOF else Ret istr
            else Ret rb) = Ret rb1 ∧ ReadBuffer.wf rb1 ∧
           ReadBuffer.remaining rb1 = ReadBuffer.remaining rb ∧ 0 < ReadBuffer.available rb1 ∧
           (check_eof = true ∨ rb1 = rb)) as Hcase.
  { destruct check_eof.
    - destruct (ReadBuffer.eof_spec rb Hwf) as (b & rb1 & -> & Hwf1 & Hrem & _ & Hb & Hp).
      destruct b; [left|right; exists rb1; naive_solver].
      destruct (decide (ReadBuffer.remaining rb = [])) as [|Hne]; [done|]. by apply Hb in Hne.
    - right. exists rb. destruct Hav as [?|?]; [done|]. split_and!; auto. lia. }
  destruct Hcase as [(Hnil & -> & Heof)|(rb1 & -> & Hwf1 & Hrem & Hpos & Hor)].
  { rewrite Hnil. destruct (ReadBuffer.eof rb) as [b rb1]. simpl in Heof. by subst. }
  destruct (load_head rb1 Hwf1 Hpos) as (b & Hload & Hr1 & Hwf2 & _).
  cbn [mbind outcome_bind]. rewrite Hload, <- Hrem, Hr1. cbn [mbind outcome_bind].
  destruct (is_last b); [by eexists|]. apply IH; [done|].
  destruct Hor as [?| ->]; [by left|]. destruct Hav as [?|?]; [by left|right].
  unfold ReadBuffer.available in *. simpl. lia.
Qed.

Lemma readVarUInt_vlq_read rb :
  ReadBuffer.wf rb →
  match vlq_read max_varuint_bytes 0 0 (ReadBuffer.remaining rb) with
  | Some (v, s) => ∃ rb', readVarUInt rb = Ret (v, rb') ∧
      ReadBuffer.wf rb' ∧ ReadBuffer.remaining rb' = s
  | None => readVarUInt rb = Throw ATTEMPT_TO_READ_AFTER_EOF
  end.
Proof.
  intros Hwf. unfold readVarUInt. destruct (Z.leb_spec 10 (ReadBuffer.available rb));
    apply impl_vlq_read; auto.
Qed.
End decoding.

Section zigzag.
Lemma zigzag_value x :
  - 2 ^ 63 ≤ x < 2 ^ 63 → zigzag x = if 0 <=? x then 2 * x else - 2 * x - 1.
Proof.
  intros Hx. unfold zigzag. rewrite Z.shiftl_mul_pow2 by done. change (2 ^ 1) with 2.
  rewrite Z.shiftr_div_pow2 by done. destruct (Z.leb_spec 0 x).
  - rewrite (Z.div_small x) by lia. rewrite Z.lxor_0_r, to_signed_mod by done.
    rewrite wrap_small by zlia. lia.
  - assert (x / 2 ^ 63 = -1) as ->.
    { symmetry. apply (Z.div_unique x (2 ^ 63) (-1) (x + 2 ^ 63)); zlia. }
    rewrite Z.lxor_m1_r. unfold Z.lnot. rewrite <- Z.sub_1_r.
    rewrite <- wrap_sub_l, <- wrap_opp, to_signed_mod, wrap_opp, wrap_sub_l by done.
    rewrite wrap_small by zlia. lia.
Qed.

Lemma unzigzag_value r :
  0 ≤ r < 2 ^ 64 → unzigzag r = if Z.even r then r / 2 else - (r / 2) - 1.
Proof.
  intros Hr. unfold unzigzag.
  rewrite to_signed_mod, (wrap_small 8 r) by done. rewrite Z.shiftr_div_pow2 by done. change (2 ^ 1) with 2.
  assert (Z.land (to_signed 8 r) 1 = r mod 2) as ->.
  { change 1 with (2 ^ 1 - 1). rewrite land_low by done. change (2 ^ 1) with 2.
    unfold to_signed. rewrite wrap_small by done. case_match; [done|].
    replace (r - 2 ^ (8 * 8)) with (r + (- 2 ^ 63) * 2) by zlia. by rewrite Z.mod_add. }
  pose proof (Z.div_mod r 2 ltac:(lia)). rewrite Zeven_mod. pose proof (Z.mod_pos_bound r 2 ltac:(lia)).
  assert (0 ≤ r / 2 < 2 ^ 63) by (split; [apply Z.div_pos; lia|apply Z.div_lt_upper_bound; zlia]).
  destruct (Z.eqb_spec (r mod 2) 0) as [E|E].
  - rewrite E. change (u64 (- 0)) with 0. rewrite Z.lxor_0_r.
    rewrite <- (wrap_small 8 (r / 2)) at 1 by zlia. apply to_signed_id; zlia.
  - replace (r mod 2) with 1 by lia. replace (u64 (Z.opp 1)) with (2 ^ 64 - 1) by done.
    rewrite lxor_ones by zlia.
    rewrite <- (to_signed_id 8 (- (r / 2) - 1)) by zlia.
    apply to_signed_wrap_arg. rewrite wrap_wrap. unfold wrap. change (8 * 8) with 64.
    rewrite <- (Z.mod_add (- (r / 2) - 1) 1) by zlia. f_equal. lia.
Qed.

Lemma unzigzag_zigzag x : - 2 ^ 63 ≤ x < 2 ^ 63 → unzigzag (zigzag x) = x.
Proof.
  intros Hx. rewrite zigzag_value by done. destruct (Z.leb_spec 0 x).
  - rewrite unzigzag_value by zlia. rewrite Z.even_mul. cbn [Z.even orb].
    rewrite Z.mul_comm. by rewrite Z.div_mul.
  - rewrite unzigzag_value by zlia.
    replace (-2 * x - 1) with (2 * (- x - 1) + 1) by lia.
    rewrite Z.even_add, Z.even_mul. cbn [Z.even orb eqb].
    rewrite (Z.mul_comm 2), Z.div_add_l by lia. simpl. change (1 / 2) with 0. lia.
Qed.

Lemma zigzag_range x : - 2 ^ 63 ≤ x < 2 ^ 63 → 0 ≤ zigzag x < 2 ^ 64.
Proof. intros. rewrite zigzag_value by done. zcases; zlia. Qed.
End zigzag.

Section writing.
Context {Sk : Type} `{WriteBuffer.Sink Sk}.

Lemma put_byte_spec b (wb : WriteBuffer.t Sk) bs :
  WriteBuffer.writes wb bs → is_byte b →
  match put_byte b wb with
  | (Ret _, wb') => WriteBuffer.writes wb' (bs ++ [b])
  | (Throw _, wb') => WriteBuffer.pending wb' = []
  | _ => False
  end.
Proof.
  intros Hwr Hb. unfold put_byte. pose proof (WriteBuffer.nextIfAtEnd_spec wb bs Hwr) as Hn.
  destruct (WriteBuffer.nextIfAtEnd wb) as [[] wb1]; try naive_solver.
  destruct Hn as (Hwr1 & Hav & _). pose proof Hwr1 as [_ Hp _ _].
  unfold WriteBuffer.available in Hav.
  destruct (split_at (WriteBuffer.wb_working wb1) (WriteBuffer.wb_pos wb1)) as (m1 & m2 & Hm & Hl); [lia|].
  destruct m2 as [|m m2]; [rewrite Hm, app_nil_r in *; lia|].
  rewrite Hm. change (m :: m2) with ([m] ++ m2) in *. rewrite store_app by done.
  replace (le_split (Z.to_nat 1) b) with [b]
    by (unfold is_byte in Hb; simpl; by rewrite Z.mod_small by lia).
  apply (WriteBuffer.writes_append wb1 bs m1 [m] m2 [b]); auto using Forall_cons, Forall_nil.
Qed.

Lemma writeVarUInt_vlq n x (wb : WriteBuffer.t Sk) bs :
  WriteBuffer.writes wb bs → 0 ≤ x < 2 ^ (7 * (Z.of_nat n + 1)) →
  match writeVarUInt n x wb with
  | (Ret _, wb') => WriteBuffer.writes wb' (bs ++ vlq n x)
  | (Throw _, wb') => WriteBuffer.pending wb' = []
  | _ => False
  end.
Proof.
  revert x wb bs. induction n as [|n IH]; intros x wb bs Hwr Hx; cbn [writeVarUInt vlq];
    destruct (Z.ltb_spec 127 x); [zlia| | |].
  1, 3: rewrite wrap_small by zlia; apply put_byte_spec; [done|unfold is_byte; zlia].
  destruct (vlq_fits _ _ Hx) as (m & [= <-] & ?); [done|].
  rewrite group_byte, shiftr_7. pose proof (Z.mod_pos_bound x 128 ltac:(lia)).
  pose proof (put_byte_spec (128 + x mod 128) wb bs Hwr ltac:(unfold is_byte; lia)) as Hb.
  destruct (put_byte _ wb) as [[] wb1]; try done.
  specialize (IH (x / 128) wb1 _ Hb ltac:(done)). by rewrite <- app_assoc in IH.
Qed.
End writing.

(** * Properties *)

(** The variable-length encoding of a UInt64. For every [x] there is a byte
    string of the length [getLengthOfVarUInt] announces that every writing
    overload produces (whatever the capacity of the [WriteBuffer]); reading it
    back, however the reader's data is cut into buffers and whichever of the
    checked and unchecked loops that selects, gives [x] and consumes exactly the
    string; and reading any proper prefix of it throws
    ATTEMPT_TO_READ_AFTER_EOF. *)
Theorem varuint_roundtrip {Sk} `{WriteBuffer.Sink Sk} (x : Z) :
  0 ≤ x < 2 ^ 64 →
  ∃ e, blen e = getLengthOfVarUInt x ∧ is_bytes e ∧
    (∀ ostr, writeVarUInt_ostream max_varuint_bytes x ostr = Ret (ostr ++ e)) ∧
    (∀ pre old post, blen old = blen e →
       writeVarUInt_ptr max_varuint_bytes x (pre ++ old ++ post) (blen pre) =
         Ret (pre ++ e ++ post, blen pre + blen e)) ∧
    (∀ (wb : WriteBuffer.t Sk) bs, WriteBuffer.writes wb bs →
       match writeVarUInt max_varuint_bytes x wb with
       | (Ret _, wb') => WriteBuffer.writes wb' (bs ++ e)
       | (Throw _, wb') => WriteBuffer.pending wb' = []
       | _ => False
       end) ∧
    (∀ rb rest, ReadBuffer.wf rb → ReadBuffer.remaining rb = e ++ rest →
       ∃ rb', readVarUInt rb = Ret (x, rb') ∧ ReadBuffer.remaining rb' = rest) ∧
    (∀ rb p q, ReadBuffer.wf rb → ReadBuffer.remaining rb = p → e = p ++ q → q ≠ [] →
       readVarUInt rb = Throw ATTEMPT_TO_READ_AFTER_EOF).
Proof.
  intros Hx. assert (0 ≤ x < 2 ^ (7 * (Z.of_nat 9 + 1))) as H70 by zlia.
  assert (0 ≤ x < 2 ^ (7 * (Z.of_nat 10 + 1))) as H77 by zlia.
  exists (vlq max_varuint_bytes x). rewrite <- length_vlq by done. split_and!.
  - done.
  - by apply vlq_bytes.
  - intros. by apply ostream_vlq.
  - intros. by apply ptr_vlq.
  - intros wb bs Hwr. by apply writeVarUInt_vlq.
  - intros rb rest Hwf Hrem. pose proof (readVarUInt_vlq_read rb Hwf) as Hr.
    rewrite Hrem, (vlq_9 x Hx), vlq_read_vlq in Hr by (unfold max_varuint_bytes; zlia).
    destruct Hr as (rb' & Hr & _ & ?). exists rb'. split; [|done]. rewrite Hr. do 2 f_equal. zlia.
  - intros rb p q Hwf Hrem He Hq. pose proof (readVarUInt_vlq_read rb Hwf) as Hr.
    rewrite (vlq_9 x Hx) in He.
    by rewrite Hrem, (vlq_read_prefix 9 _ 0 0 x p q) in Hr by (unfold max_varuint_bytes; zlia || done).
Qed.

(** 300 takes two bytes; the reader gets them in two buffers. *)
Lemma varuint_roundtrip_witness :
  ∃ rb', readVarUInt (ReadBuffer.mk [172] 0 0 [([2; 7], 0)]) = Ret (300, rb') ∧
    ReadBuffer.remaining rb' = [7].
Proof.
  destruct (varuint_roundtrip (Sk := WriteBuffer.file) 300) as (e & _ & _ & H1 & _ & _ & H2 & _).
  - zlia.
  - apply H2.
    + split; simpl; repeat constructor; cbv; congruence.
    + specialize (H1 []). vm_compute in H1. injection H1 as <-. reflexivity.
Defined.

(** Signed integers. For every Int64 [x], what [writeVarInt] writes is read
    back as [x] by [readVarInt]; integers in the range of a narrower signed type
    are read back by the overload for that type, and small absolute values take
    few bytes: one byte for [-64 .. 63]. *)
Theorem varint_roundtrip {Sk} `{WriteBuffer.Sink Sk} (x w : Z) :
  - 2 ^ 63 ≤ x < 2 ^ 63 → 1 ≤ w ≤ 8 →
  ∃ e, blen e = getLengthOfVarInt x ∧ (-64 ≤ x < 64 → blen e = 1) ∧
    (∀ (wb : WriteBuffer.t Sk) bs, WriteBuffer.writes wb bs →
       match writeVarInt x wb with
       | (Ret _, wb') => WriteBuffer.writes wb' (bs ++ e)
       | (Throw _, wb') => WriteBuffer.pending wb' = []
       | _ => False
       end) ∧
    (∀ rb rest, ReadBuffer.wf rb → ReadBuffer.remaining rb = e ++ rest →
       ∃ rb', readVarInt rb = Ret (x, rb') ∧ ReadBuffer.remaining rb' = rest ∧
         (- 2 ^ (8 * w - 1) ≤ x < 2 ^ (8 * w - 1) → readVarInt_narrow w rb = Ret (x, rb'))).
Proof.
  intros Hx Hw. pose proof (zigzag_range x Hx) as Hz.
  exists (vlq max_varuint_bytes (zigzag x)). split_and!.
  - by rewrite length_vlq.
  - intros Hs. rewrite length_vlq, zigzag_value by done. unfold getLengthOfVarUInt.
    rewrite Z.shiftl_1_l. zcases; zlia.
  - intros wb bs Hwr. apply writeVarUInt_vlq; [done|unfold max_varuint_bytes; zlia].
  - intros rb rest Hwf Hrem. pose proof (readVarUInt_vlq_read rb Hwf) as Hr.
    rewrite Hrem, (vlq_9 _ Hz), vlq_read_vlq in Hr by (unfold max_varuint_bytes; zlia).
    destruct Hr as (rb' & Hr & _ & ?). exists rb'.
    change (2 ^ (7 * 0)) with 1 in Hr. rewrite Z.mul_1_r, Z.add_0_l in Hr.
    unfold readVarInt_narrow, readVarInt. rewrite Hr. cbn [mbind outcome_bind].
    rewrite unzigzag_zigzag by done. split_and!; [done|done|].
    intros Hxw. do 2 f_equal. rewrite <- (to_signed_id w x) at 2 by lia.
    apply to_signed_wrap_arg. by rewrite wrap_wrap.
Qed.

Lemma varint_roundtrip_witness :
  ∃ rb', readVarInt (ReadBuffer.from_memory [199; 1; 5]) = Ret (-100, rb') ∧
    ReadBuffer.remaining rb' = [5].
Proof.
  destruct (varint_roundtrip (Sk := WriteBuffer.file) (-100) 2) as (e & _ & _ & H1 & H2).
  - zlia.
  - lia.
  - destruct (H1 (WriteBuffer.create 8 (WriteBuffer.File [] 8)) []) as [_ _ _ (held & <- & He)];
      [by apply WriteBuffer.create_writes|].
    vm_compute in He. subst e.
    destruct (H2 (ReadBuffer.from_memory [199; 1; 5]) [5]) as (rb' & Hr & Hrem & _).
    + apply ReadBuffer.wf_from_memory. repeat constructor; cbv; congruence.
    + reflexivity.
    + exists rb'. split; [exact Hr|exact Hrem].
Defined.
