(* ===== verification/BitIO.v ===== *)
(** Bit streams (src/src/IO/BitHelpers.h): [BitReader] and [BitWriter] with their
    128-bit buffers, the sequences of bits they stand for, and the bit counting
    helpers of src/src/Common/BitHelpers.h. *)

From S2P Require Import Prelude.
From stdpp Require Import base tactics list numbers.
Local Open Scope Z_scope.

(** * src/src/Common/BitHelpers.h *)

(** [getLeadingZeroBits] of a [w]-byte unsigned integer. [__builtin_clz] of a type
    narrower than [unsigned int] counts the bits of the promoted value. *)
Definition getLeadingZeroBits (w x : Z) : Z :=
  if x =? 0 then 8 * w else Z.max (8 * w) 32 - 1 - Z.log2 x.

(** The number of trailing zero bits of a positive integer. *)
Fixpoint pos_ctz (p : positive) : Z :=
  match p with
  | xO q => 1 + pos_ctz q
  | _ => 0
  end.

Definition getTrailingZeroBits (w x : Z) : Z :=
  match x with
  | Zpos p => pos_ctz p
  | _ => 8 * w
  end.

Definition maskLowBits (w bits : Z) : Z :=
  if bits =? 0 then 0
  else
    let result := 2 ^ (8 * w) - 1 in
    if bits <? 8 * w then Z.shiftr result (8 * w - bits) else result.

Abbreviation u128 := (wrap 16).

(** [std::byteswap] of a UInt64. *)
Definition byteswap (x : Z) : Z := le_combine (rev (le_split 8 x)).

(** * BitReader *)

Module BitReader.

Record t := mk {
  source : bytes;
  source_begin : Z;
  source_end : Z;
  source_current : Z;
  bits_buffer : Z;
  bits_count : Z;
}.

Definition create (src : bytes) (begin size : Z) : t := mk src begin (begin + size) begin 0 0.

Definition set_bits (r : t) (buffer count : Z) : t :=
  mk (source r) (source_begin r) (source_end r) (source_current r) buffer count.

Definition skipBufferedBits (bits : Z) (r : t) : outcome t :=
  _ ← ub_unless (bits <? 128);
  Ret (set_bits r (u128 (Z.shiftl (bits_buffer r) bits)) (u8 (bits_count r - bits))).

(** Fills the buffer with at most 64 bits. *)
Definition fillBitBuffer (r : t) : outcome t :=
  let available := source_end r - source_current r in
  let bytes_to_read := Z.min (64 / 8) available in
  if available =? 0 then
    if bytes_to_read =? 0 then Ret r else Throw ATTEMPT_TO_READ_AFTER_EOF
  else
    bs ← read_bytes (source r) (source_current r) bytes_to_read;
    let tmp_buffer := byteswap (le_combine bs) in
    let shift := u64 ((16 - 8) * 8 - bits_count r) in
    _ ← ub_unless (shift <? 128);
    Ret (mk (source r) (source_begin r) (source_end r) (source_current r + bytes_to_read)
            (Z.lor (bits_buffer r) (u128 (Z.shiftl tmp_buffer shift)))
            (u8 (bits_count r + u8 bytes_to_read * 8))).

Inductive GetBitsMode := CONSUME | PEEK.

Definition getBitsFromBitBuffer (mode : GetBitsMode) (bits_to_read : Z) (r : t) : outcome (Z * t) :=
  let shift := u64 (16 * 8 - bits_to_read) in
  _ ← ub_unless (shift <? 128);
  let result := u64 (Z.shiftr (bits_buffer r) shift) in
  match mode with
  | CONSUME => r ← skipBufferedBits bits_to_read r; Ret (result, r)
  | PEEK => Ret (result, r)
  end.

Definition readBits (bits_to_read : Z) (r : t) : outcome (Z * t) :=
  r ← (if bits_count r <? bits_to_read then fillBitBuffer r else Ret r);
  getBitsFromBitBuffer CONSUME bits_to_read r.

Definition peekByte (r : t) : outcome (Z * t) :=
  r ← (if bits_count r <? 8 then fillBitBuffer r else Ret r);
  '(v, r) ← getBitsFromBitBuffer PEEK 8 r;
  Ret (u8 v, r).

Definition readBit (r : t) : outcome (Z * t) :=
  '(v, r) ← readBits 1 r;
  Ret (u8 v, r).

Definition eof (r : t) : bool := (bits_count r =? 0) && (source_end r <=? source_current r).

(** The number of bits read by clients, and the number still to be read. *)
Definition count (r : t) : Z := u64 ((source_current r - source_begin r) * 8 - bits_count r).
Definition remaining (r : t) : Z := u64 ((source_end r - source_current r) * 8 + bits_count r).

End BitReader.

(** * BitWriter *)

Module BitWriter.

Record t := mk {
  dest : bytes;
  dest_begin : Z;
  dest_end : Z;
  dest_current : Z;
  bits_buffer : Z;
  bits_count : Z;
}.

Definition BIT_BUFFER_SIZE : Z := 16 * 8.

Definition create (mem : bytes) (begin size : Z) : t := mk mem begin (begin + size) begin 0 0.

Definition doFlush (w : t) : outcome t :=
  let available := dest_end w - dest_current w in
  let to_write := Z.min 8 (bits_count w / 8) in
  _ ← throw_if (available <? to_write) CANNOT_WRITE_AFTER_END_OF_BUFFER;
  let tmp_buffer := byteswap (u64 (Z.shiftr (bits_buffer w) ((16 - 8) * 8))) in
  mem ← write_bytes (dest w) (dest_current w) (take (Z.to_nat to_write) (le_split 8 tmp_buffer));
  Ret (mk mem (dest_begin w) (dest_end w) (dest_current w + to_write)
          (u128 (Z.shiftl (bits_buffer w) (to_write * 8)))
          (u8 (bits_count w - to_write * 8))).

Definition writeBits (bits_to_write value : Z) (w : t) : outcome t :=
  let capacity := u32 (BIT_BUFFER_SIZE - bits_count w) in
  w ← (if capacity <? bits_to_write then doFlush w else Ret w);
  let capacity := u32 (BIT_BUFFER_SIZE - bits_count w) in
  let mask := maskLowBits 8 bits_to_write in
  let v := Z.land value mask in
  let shift := u32 (capacity - bits_to_write) in
  _ ← ub_unless (shift <? 128);
  Ret (mk (dest w) (dest_begin w) (dest_end w) (dest_current w)
          (Z.lor (bits_buffer w) (u128 (Z.shiftl v shift)))
          (u8 (bits_count w + bits_to_write))).

(** Every [doFlush] of the loop writes at least one byte, so 32 iterations are
    enough for the at most 255 bits of a UInt8 count. *)
Definition flush (w : t) : outcome t :=
  let count := u8 (Z.land (bits_count w + 8 - 1) (Z.lnot (8 - 1))) in
  while_loop 32 (λ w, negb (bits_count w =? 0)) doFlush
    (mk (dest w) (dest_begin w) (dest_end w) (dest_current w) (bits_buffer w) count).

Definition count (w : t) : Z := u64 ((dest_current w - dest_begin w) * 8 + bits_count w).

End BitWriter.

(** * Sequences of bits *)

(** The number whose binary digits are given, the highest first. *)
Definition bits_val (l : list bool) : Z := foldl (λ acc b, 2 * acc + Z.b2z b) 0 l.

(** The [n] lowest binary digits of [v], the highest first. *)
Fixpoint to_bits (n : nat) (v : Z) : list bool :=
  match n with
  | O => []
  | S n' => Z.testbit v (Z.of_nat n') :: to_bits n' v
  end.

(** The bits of a sequence of bytes, in the order both classes use. *)
Definition bytes_bits (bs : bytes) : list bool := concat (to_bits 8 <$> bs).

Section bits_lemmas.
Implicit Types l : list bool.

Lemma bits_val_acc l acc : foldl (λ acc b, 2 * acc + Z.b2z b) acc l = acc * 2 ^ Z.of_nat (length l) + bits_val l.
Proof.
  revert acc. induction l as [|b l IH] using rev_ind; intros acc; unfold bits_val; simpl; [lia|].
  rewrite !foldl_app. simpl. rewrite IH, length_app. simpl.
  replace (Z.of_nat (length l + 1)) with (1 + Z.of_nat (length l)) by lia.
  rewrite Z.pow_add_r by lia. change (2 ^ 1) with 2.
  unfold bits_val. lia.
Qed.

Lemma bits_val_app l1 l2 : bits_val (l1 ++ l2) = bits_val l1 * 2 ^ Z.of_nat (length l2) + bits_val l2.
Proof. unfold bits_val at 1. rewrite foldl_app. apply bits_val_acc. Qed.

Lemma bits_val_cons b l : bits_val (b :: l) = Z.b2z b * 2 ^ Z.of_nat (length l) + bits_val l.
Proof. apply (bits_val_app [b] l). Qed.

Lemma bits_val_range l : 0 ≤ bits_val l < 2 ^ Z.of_nat (length l).
Proof.
  induction l as [|b l IH]; [done|]. rewrite bits_val_cons. cbn [length].
  rewrite Nat2Z.inj_succ, Z.pow_succ_r by lia. destruct b; simpl; lia.
Qed.

Lemma bits_val_shiftr l1 l2 : Z.shiftr (bits_val (l1 ++ l2)) (Z.of_nat (length l2)) = bits_val l1.
Proof.
  rewrite bits_val_app, Z.shiftr_div_pow2, Z.div_add_l by (lia || (apply Z.pow_nonzero; lia)).
  rewrite Z.div_small; [lia|apply bits_val_range].
Qed.

Lemma bits_val_zeros n : bits_val (replicate n false) = 0.
Proof. induction n; [done|]. simpl. rewrite bits_val_cons, IHn. done. Qed.

Lemma bits_val_inj l1 l2 : length l1 = length l2 → bits_val l1 = bits_val l2 → l1 = l2.
Proof.
  revert l2. induction l1 as [|b1 l1 IH]; intros [|b2 l2]; simpl; [done|lia|lia|].
  intros [= Hl] Hv. rewrite !bits_val_cons, Hl in Hv.
  pose proof (bits_val_range l1). pose proof (bits_val_range l2). rewrite Hl in *.
  assert (b1 = b2) as -> by (destruct b1, b2; simpl in *; done || lia).
  f_equal. apply IH; [done|lia].
Qed.

Lemma length_to_bits n v : length (to_bits n v) = n.
Proof. induction n; simpl; auto. Qed.

Lemma bits_val_to_bits n v : bits_val (to_bits n v) = v mod 2 ^ Z.of_nat n.
Proof.
  induction n as [|n IH]; [by rewrite Z.mod_1_r|].
  cbn [to_bits]. rewrite bits_val_cons, length_to_bits, IH, Nat2Z.inj_succ, Z.pow_succ_r by lia.
  rewrite (Z.mul_comm 2), Z.rem_mul_r by (try apply Z.pow_nonzero; lia).
  rewrite Z.testbit_spec' by lia. lia.
Qed.

Lemma to_bits_bits_val l : to_bits (length l) (bits_val l) = l.
Proof.
  apply bits_val_inj; [apply length_to_bits|].
  rewrite bits_val_to_bits. apply Z.mod_small, bits_val_range.
Qed.

Lemma bytes_bits_app b1 b2 : bytes_bits (b1 ++ b2) = bytes_bits b1 ++ bytes_bits b2.
Proof. unfold bytes_bits. by rewrite fmap_app, concat_app. Qed.

Lemma length_bytes_bits bs : length (bytes_bits bs) = (8 * length bs)%nat.
Proof.
  induction bs as [|b bs IH]; [done|].
  change (b :: bs) with ([b] ++ bs). rewrite bytes_bits_app, length_app, IH. simpl. lia.
Qed.

(** Big-endian bytes. *)
Lemma bits_val_bytes bs : is_bytes bs → bits_val (bytes_bits bs) = le_combine (rev bs).
Proof.
  assert (∀ (l : bytes) (b : Z), le_combine (l ++ [b]) = le_combine l + b * 2 ^ (8 * blen l)) as Hsnoc.
  { induction l as [|a l IH]; intros b; cbn [app le_combine]; [change (8 * blen []) with 0; lia|].
    rewrite IH, blen_cons. replace (8 * (1 + blen l)) with (8 + 8 * blen l) by lia.
    rewrite Z.pow_add_r by blia. lia. }
  induction 1 as [|b bs Hb Hbs IH]; [done|]. cbn [rev]. rewrite Hsnoc.
  change (b :: bs) with ([b] ++ bs). rewrite bytes_bits_app, bits_val_app, IH, length_bytes_bits.
  unfold bytes_bits. cbn [fmap list_fmap concat]. rewrite app_nil_r, bits_val_to_bits.
  unfold is_byte in Hb. rewrite Z.mod_small by zlia.
  unfold blen. rewrite length_rev. replace (Z.of_nat (8 * length bs)) with (8 * Z.of_nat (length bs)) by lia. lia.
Qed.

Lemma bytes_bits_take k bs : take (8 * k) (bytes_bits bs) = bytes_bits (take k bs).
Proof.
  revert bs. induction k as [|k IH]; intros bs; [by rewrite Nat.mul_0_r, !take_0|].
  destruct bs as [|b bs]; [by rewrite take_nil|].
  change (b :: bs) with ([b] ++ bs) at 1. rewrite bytes_bits_app.
  replace (8 * S k)%nat with (length (bytes_bits [b]) + 8 * k)%nat by (simpl; lia).
  rewrite take_app_add, IH. cbn [take]. by rewrite <- bytes_bits_app.
Qed.

Lemma bytes_bits_zeros k : bytes_bits (replicate k 0) = replicate (8 * k) false.
Proof.
  induction k as [|k IH]; [done|]. replace (8 * S k)%nat with (8 + 8 * k)%nat by lia.
  rewrite replicate_add, <- IH. done.
Qed.
End bits_lemmas.

(** * The bit sequences readers and writers stand for *)

(** The bits held in a 128-bit buffer, the first at the top, zeros below. *)
Definition buffer_of (pend : list bool) : Z := bits_val (pend ++ replicate (128 - length pend) false).

(** The writer has written the bits [l] to memory that was [pre ++ old], at the
    end of [pre], and has room for [cap] bytes there. *)
Record writes (w : BitWriter.t) (pre old : bytes) (cap : Z) (done : bytes) (pend : list bool) : Prop := {
  wr_dest : BitWriter.dest w = pre ++ done ++ drop (length done) old;
  wr_begin : BitWriter.dest_begin w = blen pre;
  wr_current : BitWriter.dest_current w = blen pre + blen done;
  wr_end : blen pre + cap ≤ BitWriter.dest_end w;
  wr_old : cap ≤ blen old;
  wr_done : is_bytes done ∧ blen done ≤ cap;
  wr_len : (length pend ≤ 128)%nat;
  wr_count : BitWriter.bits_count w = Z.of_nat (length pend);
  wr_buffer : BitWriter.bits_buffer w = buffer_of pend;
}.

Definition written_bits (done : bytes) (pend : list bool) : list bool := bytes_bits done ++ pend.

(** The reader has the bits [l] left. *)
Record reads (r : BitReader.t) (pend : list bool) (rest : bytes) : Prop := {
  rd_bytes : is_bytes rest;
  rd_source : ∃ pre post, BitReader.source r = pre ++ rest ++ post ∧
    BitReader.source_current r = blen pre ∧ BitReader.source_end r = blen pre + blen rest;
  rd_len : (length pend ≤ 128)%nat;
  rd_count : BitReader.bits_count r = Z.of_nat (length pend);
  rd_buffer : BitReader.bits_buffer r = buffer_of pend;
}.

Definition reader_bits (r : BitReader.t) (l : list bool) : Prop :=
  ∃ pend rest, reads r pend rest ∧ l = pend ++ bytes_bits rest.

Section buffer.
Implicit Types l pend : list bool.

Lemma buffer_of_range pend : (length pend ≤ 128)%nat → 0 ≤ buffer_of pend < 2 ^ 128.
Proof.
  intros H. unfold buffer_of. pose proof (bits_val_range (pend ++ replicate (128 - length pend) false)) as Hr.
  rewrite length_app, length_replicate in Hr.
  replace (Z.of_nat (length pend + (128 - length pend))) with 128 in Hr by lia. done.
Qed.

(** Shifting the buffer right leaves its first bits. *)
Lemma buffer_top pend n :
  (length pend ≤ 128)%nat → (n ≤ 128)%nat →
  Z.shiftr (buffer_of pend) (128 - Z.of_nat n) =
    bits_val (take n (pend ++ replicate (128 - length pend) false)).
Proof.
  intros Hp Hn. unfold buffer_of. set (B := pend ++ _).
  assert (length B = 128%nat) as HB by (unfold B; rewrite length_app, length_replicate; lia).
  rewrite <- (take_drop n B) at 1. rewrite bits_val_app, length_drop, HB.
  rewrite Z.shiftr_div_pow2 by lia. replace (Z.of_nat (128 - n)) with (128 - Z.of_nat n) by lia.
  rewrite Z.div_add_l by (apply Z.pow_nonzero; lia).
  rewrite Z.div_small; [lia|]. pose proof (bits_val_range (drop n B)) as Hr.
  rewrite length_drop, HB in Hr. by replace (Z.of_nat (128 - n)) with (128 - Z.of_nat n) in Hr by lia.
Qed.

(** Shifting it left drops them. *)
Lemma buffer_skip l1 l2 :
  (length (l1 ++ l2) ≤ 128)%nat →
  u128 (Z.shiftl (buffer_of (l1 ++ l2)) (Z.of_nat (length l1))) = buffer_of l2.
Proof.
  intros Hl. rewrite length_app in Hl. unfold buffer_of. rewrite <- app_assoc, bits_val_app, length_app, length_replicate, length_app.
  replace (length l2 + (128 - (length l1 + length l2)))%nat with (128 - length l1)%nat by lia.
  rewrite Z.shiftl_mul_pow2 by lia. unfold wrap. change (8 * 16) with 128.
  rewrite Z.mul_add_distr_r, <- Z.mul_assoc, <- Z.pow_add_r by lia.
  replace (Z.of_nat (128 - length l1) + Z.of_nat (length l1)) with 128 by lia.
  rewrite Z.add_comm, Z.mod_add by done.
  replace (128 - length l2)%nat with ((128 - (length l1 + length l2)) + length l1)%nat by lia.
  rewrite replicate_add, (assoc_L (++)). set (X := l2 ++ replicate (128 - (length l1 + length l2)) false).
  rewrite (bits_val_app X), bits_val_zeros, length_replicate, Z.add_0_r.
  apply Z.mod_small.
  pose proof (bits_val_range X) as Hr. unfold X in Hr at 3.
  rewrite length_app, length_replicate in Hr.
  assert (0 < 2 ^ Z.of_nat (length l1)) by (apply Z.pow_pos_nonneg; lia).
  replace 128 with (Z.of_nat (length l2 + (128 - (length l1 + length l2))) + Z.of_nat (length l1)) by lia.
  rewrite Z.pow_add_r by lia. nia.
Qed.

(** Or-ing bits in below the ones it has appends them. *)
Lemma buffer_append pend l :
  (length pend + length l ≤ 128)%nat →
  Z.lor (buffer_of pend)
    (u128 (Z.shiftl (bits_val l) (128 - Z.of_nat (length pend) - Z.of_nat (length l)))) =
    buffer_of (pend ++ l).
Proof.
  intros Hl. unfold buffer_of. rewrite bits_val_app, bits_val_zeros, length_replicate, Z.add_0_r.
  rewrite length_app, <- app_assoc, !bits_val_app, bits_val_zeros, length_app, length_replicate, Z.add_0_r.
  rewrite Z.shiftl_mul_pow2 by lia.
  pose proof (bits_val_range l) as Hr.
  set (s := 128 - Z.of_nat (length pend) - Z.of_nat (length l)).
  assert (0 < 2 ^ s) by (apply Z.pow_pos_nonneg; lia).
  assert (2 ^ (Z.of_nat (length l) + s) = 2 ^ Z.of_nat (length l) * 2 ^ s) as Hp by (apply Z.pow_add_r; lia).
  rewrite wrap_small.
  - replace (Z.of_nat (128 - length pend)) with (Z.of_nat (length l) + s) by lia.
    rewrite lor_add by (try lia; rewrite Hp; nia).
    replace (Z.of_nat (length l + (128 - (length pend + length l)))) with (Z.of_nat (length l) + s) by lia.
    by replace (Z.of_nat (128 - (length pend + length l))) with s by lia.
  - change (8 * 16) with 128. assert (2 ^ (Z.of_nat (length l) + s) ≤ 2 ^ 128) by (apply Z.pow_le_mono_r; lia).
    nia.
Qed.

Lemma bytes_bits_be n l :
  length l = (8 * n)%nat → bytes_bits (rev (le_split n (bits_val l))) = l.
Proof.
  intros Hl. apply bits_val_inj.
  - by rewrite length_bytes_bits, length_rev, length_le_split.
  - rewrite bits_val_bytes by (apply Forall_rev, le_split_bytes).
    rewrite rev_involutive, le_combine_split; [done|].
    pose proof (bits_val_range l) as Hr. rewrite Hl in Hr.
    by replace (Z.of_nat (8 * n)) with (8 * Z.of_nat n) in Hr by lia.
Qed.

Lemma le_split_byteswap x : 0 ≤ x < 2 ^ 64 → le_split 8 (byteswap x) = rev (le_split 8 x).
Proof.
  intros Hx. unfold byteswap. apply le_split_combine_len.
  - apply Forall_rev, le_split_bytes.
  - by rewrite length_rev, length_le_split.
Qed.

(** The UInt64 that [memcpy] and [byteswap] make of up to eight bytes. *)
Lemma byteswap_bytes bs :
  is_bytes bs → (length bs ≤ 8)%nat →
  byteswap (le_combine bs) = bits_val (bytes_bits bs) * 2 ^ (64 - 8 * blen bs).
Proof.
  intros Hb Hl. unfold byteswap.
  assert (le_split 8 (le_combine bs) = bs ++ replicate (8 - length bs) 0) as ->.
  { assert (∀ n, le_split n 0 = replicate n 0) as Hz 
      by (induction n as [|n IHn]; cbn [le_split]; [done|]; change (0 mod 256) with 0;
          change (0 / 256) with 0; by rewrite IHn).
    assert (∀ (l : bytes) k, is_bytes l → le_split (length l + k) (le_combine l) = l ++ replicate k 0) as Hs.
    { intros l k. induction 1 as [|b l Hbb _ IH]; [apply Hz|]. unfold is_byte in Hbb.
      simpl. rewrite (Z.mul_comm 256), Z.mod_add, Z.div_add by lia.
      rewrite Z.mod_small, Z.div_small, Z.add_0_l by lia. by rewrite IH. }
    rewrite <- Hs by done. f_equal. lia. }
  rewrite <- bits_val_bytes.
  - rewrite bytes_bits_app, bits_val_app, bytes_bits_zeros, bits_val_zeros, length_replicate.
    rewrite Z.add_0_r. do 2 f_equal. unfold blen. lia.
  - apply Forall_app. split; [done|]. apply Forall_replicate. unfold is_byte. lia.
Qed.
End buffer.

Section writer.
Implicit Types l pend : list bool.

Lemma writes_create pre old cap size :
  0 ≤ cap ≤ size → cap ≤ blen old →
  writes (BitWriter.create (pre ++ old) (blen pre) size) pre old cap [] [].
Proof.
  intros. split; simpl; rewrite ?drop_0, ?blen_nil; try done; try lia. split; [constructor|lia].
Qed.

Lemma doFlush_spec w pre old cap done pend :
  writes w pre old cap done pend →
  Z.of_nat (length (written_bits done pend)) ≤ 8 * cap →
  ∃ w' done' pend', BitWriter.doFlush w = Ret w' ∧
    writes w' pre old cap (done ++ done') pend' ∧ pend = bytes_bits done' ++ pend' ∧
    length done' = (8 `min` (length pend / 8))%nat.
Proof.
  intros [Hd Hbeg Hcur Hend Hold [Hdone Hcap] Hlen Hcnt Hbuf] Hroom.
  unfold written_bits in Hroom. rewrite length_app, length_bytes_bits in Hroom.
  set (k := (8 `min` (length pend / 8))%nat).
  assert (8 * k ≤ length pend ∧ k ≤ 8)%nat as [Hk Hk8].
  { unfold k. pose proof (Nat.Div0.mul_div_le (length pend) 8). lia. }
  assert (Z.min 8 (BitWriter.bits_count w / 8) = Z.of_nat k) as Hto.
  { rewrite Hcnt. unfold k. rewrite Nat2Z.inj_min, Nat2Z.inj_div. done. }
  rewrite <- (take_drop (8 * k) pend) in Hbuf.
  set (p1 := take (8 * k) pend) in *. set (p2 := drop (8 * k) pend) in *.
  assert (length p1 = 8 * k)%nat as Hp1 by (unfold p1; rewrite length_take; lia).
  assert (pend = p1 ++ p2) as Hpend by (unfold p1, p2; by rewrite take_drop).
  set (B := pend ++ replicate (128 - length pend) false).
  assert (length B = 128%nat) as HB by (unfold B; rewrite length_app, length_replicate; lia).
  assert (u64 (Z.shiftr (BitWriter.bits_buffer w) 64) = bits_val (take 64 B)) as Htop.
  { rewrite Hbuf, <- Hpend. change 64 with (128 - Z.of_nat 64) at 1.
    rewrite (buffer_top pend 64) by lia. fold B. apply wrap_small.
    pose proof (bits_val_range (take 64 B)) as Hr. by rewrite length_take, HB in Hr. }
  set (done' := take k (rev (le_split 8 (bits_val (take 64 B))))).
  assert (length done' = k) as Hdl.
  { unfold done'. rewrite length_take, length_rev, length_le_split. lia. }
  assert (bytes_bits done' = p1) as Hdb.
  { unfold done'. rewrite <- bytes_bits_take, bytes_bits_be.
    - rewrite take_take, Nat.min_l by lia. unfold B. rewrite take_app_le by lia. done.
    - rewrite length_take, HB. done. }
  exists (BitWriter.mk (pre ++ (done ++ done') ++ drop (length (done ++ done')) old)
    (BitWriter.dest_begin w) (BitWriter.dest_end w) (BitWriter.dest_current w + Z.of_nat k)
    (u128 (Z.shiftl (BitWriter.bits_buffer w) (Z.of_nat k * 8)))
    (u8 (BitWriter.bits_count w - Z.of_nat k * 8))), done', p2.
  split_and!.
  - unfold BitWriter.doFlush. rewrite Hto. unfold blen in *.
    rewrite throw_if_false by (apply Z.ltb_ge; lia). cbn [mbind outcome_bind].
    change ((16 - 8) * 8) with 64. rewrite Htop, le_split_byteswap.
    2: { pose proof (bits_val_range (take 64 B)) as Hr. by rewrite length_take, HB in Hr. }
    rewrite Nat2Z.id. fold done'. rewrite Hd.
    rewrite <- (take_drop k (drop (length done) old)), (assoc_L (++) pre).
    rewrite write_bytes_app.
    + cbn [mbind outcome_bind]. f_equal. f_equal. rewrite <- !app_assoc, drop_drop, length_app, Hdl. done.
    + rewrite blen_app. unfold blen. lia.
    + unfold blen. rewrite length_take, length_drop, Hdl. lia.
  - assert (length pend = 8 * k + length p2)%nat as Hpl by (rewrite Hpend, length_app; lia).
    split; cbn [BitWriter.dest BitWriter.dest_begin BitWriter.dest_end BitWriter.dest_current BitWriter.bits_buffer BitWriter.bits_count]; try done.
    + rewrite blen_app. unfold blen in *. lia.
    + split; [|unfold blen in *; rewrite length_app; lia].
      apply Forall_app. split; [done|]. unfold done'. apply Forall_take, Forall_rev, le_split_bytes.
    + lia.
    + rewrite Hcnt. rewrite wrap_small by zlia. lia.
    + rewrite Hbuf. replace (Z.of_nat k * 8) with (Z.of_nat (length p1)) by lia.
      apply buffer_skip. by rewrite <- Hpend.
  - by rewrite Hdb.
  - done.
Qed.

Lemma mask_low n v : 1 ≤ n ≤ 64 → Z.land v (maskLowBits 8 n) = v mod 2 ^ n.
Proof.
  intros Hn. unfold maskLowBits. rewrite (proj2 (Z.eqb_neq n 0)) by lia.
  change (8 * 8) with 64. rewrite <- land_low by lia. f_equal.
  destruct (Z.ltb_spec n 64); [|by replace n with 64 by lia].
  rewrite Z.shiftr_div_pow2 by lia.
  replace (2 ^ 64 - 1) with ((2 ^ n - 1) * 2 ^ (64 - n) + (2 ^ (64 - n) - 1)).
  - rewrite Z.div_add_l by (apply Z.pow_nonzero; lia).
    assert (0 < 2 ^ (64 - n)) by (apply Z.pow_pos_nonneg; lia). rewrite Z.div_small by lia. lia.
  - rewrite Z.mul_sub_distr_r, <- Z.pow_add_r by lia. replace (n + (64 - n)) with 64 by lia. lia.
Qed.

Lemma writeBits_spec w pre old cap done pend n v :
  writes w pre old cap done pend → (1 ≤ n ≤ 64)%nat →
  Z.of_nat (length (written_bits done pend)) ≤ 8 * cap →
  ∃ w' done' pend', BitWriter.writeBits (Z.of_nat n) v w = Ret w' ∧
    writes w' pre old cap done' pend' ∧
    written_bits done' pend' = written_bits done pend ++ to_bits n v.
Proof.
  intros Hw Hn Hroom.
  assert (∃ w1 done1 pend1, (if u32 (BitWriter.BIT_BUFFER_SIZE - BitWriter.bits_count w) <? Z.of_nat n
      then BitWriter.doFlush w else Ret w) = Ret w1 ∧
    writes w1 pre old cap done1 pend1 ∧ written_bits done1 pend1 = written_bits done pend ∧
    (length pend1 + n ≤ 128)%nat) as (w1 & done1 & pend1 & Heq & Hw1 & Hbits & Hfit).
  { pose proof (wr_count _ _ _ _ _ _ Hw) as Hc. pose proof (wr_len _ _ _ _ _ _ Hw) as Hl.
    unfold BitWriter.BIT_BUFFER_SIZE. rewrite Hc, wrap_small by zlia.
    destruct (Z.ltb_spec (16 * 8 - Z.of_nat (length pend)) (Z.of_nat n)).
    - destruct (doFlush_spec _ _ _ _ _ _ Hw Hroom) as (w' & done' & pend' & -> & Hw' & -> & Hk).
      exists w', (done ++ done'), pend'. split_and!; [done|done|..].
      + unfold written_bits. by rewrite bytes_bits_app, <- app_assoc.
      + rewrite length_app, length_bytes_bits in *. 
        assert (8 ≤ (8 * length done' + length pend') / 8)%nat
          by (apply Nat.div_le_lower_bound; lia). lia.
    - exists w, done, pend. split_and!; [done|done|done|lia]. }
  unfold BitWriter.writeBits. rewrite Heq. cbn [mbind outcome_bind].
  destruct Hw1 as [Hd Hbeg Hcur Hend Hold Hdone Hlen Hcnt Hbuf].
  unfold BitWriter.BIT_BUFFER_SIZE. rewrite Hcnt.
  rewrite (wrap_small 4 (16 * 8 - _)) by zlia.
  rewrite (wrap_small 4 (16 * 8 - _ - _)) by zlia.
  rewrite ub_unless_true by (apply Z.ltb_lt; lia). cbn [mbind outcome_bind].
  rewrite mask_low by lia. rewrite <- bits_val_to_bits.
  eexists _, done1, (pend1 ++ to_bits n v). split_and!; [done| |].
  - split; cbn [BitWriter.dest BitWriter.dest_begin BitWriter.dest_end BitWriter.dest_current BitWriter.bits_buffer BitWriter.bits_count]; try done.
    + rewrite length_app, length_to_bits. lia.
    + rewrite wrap_small by zlia. rewrite length_app, length_to_bits. lia.
    + rewrite Hbuf, <- buffer_append by (rewrite length_to_bits; lia).
      by rewrite length_to_bits.
  - unfold written_bits in *. by rewrite app_assoc, Hbits.
Qed.

Lemma flush_loop_spec pre old cap fuel w done pend :
  writes w pre old cap done pend →
  (length pend ≤ 8 * fuel)%nat → (length pend mod 8 = 0)%nat →
  Z.of_nat (length (written_bits done pend)) ≤ 8 * cap →
  ∃ w' done', while_loop fuel (λ w, negb (BitWriter.bits_count w =? 0)) BitWriter.doFlush w = Ret w' ∧
    writes w' pre old cap done' [] ∧ bytes_bits done' = written_bits done pend.
Proof.
  revert w done pend. induction fuel as [|fuel IH]; intros w done pend Hw Hf Hm Hroom;
    (destruct (decide (pend = [])) as [->|Hne];
      [exists w, done; rewrite while_done by (by rewrite (wr_count _ _ _ _ _ _ Hw));
       unfold written_bits; by rewrite app_nil_r|]);
    assert (length pend ≠ 0)%nat by (by destruct pend); [lia|].
  destruct (doFlush_spec _ _ _ _ _ _ Hw Hroom) as (w1 & done1 & pend1 & Hfl & Hw1 & Hp & Hk).
  rewrite (while_step _ _ _ _ w1); [| |done].
  2: { rewrite (wr_count _ _ _ _ _ _ Hw). by rewrite (proj2 (Z.eqb_neq _ _)) by lia. }
  assert (length pend = 8 * length done1 + length pend1)%nat as Hl
    by (rewrite Hp, length_app, length_bytes_bits; lia).
  assert (1 ≤ length pend / 8)%nat.
  { apply Nat.div_le_lower_bound; [lia|].
    pose proof (Nat.div_mod (length pend) 8 ltac:(lia)). lia. }
  assert (written_bits (done ++ done1) pend1 = written_bits done pend) as Hwb.
  { unfold written_bits. by rewrite Hp, bytes_bits_app, <- app_assoc. }
  destruct (IH w1 (done ++ done1) pend1) as (w' & done' & ? & ? & ?); [done|lia| |by rewrite Hwb|].
  - rewrite Hl in Hm. by rewrite Nat.mul_comm, Nat.add_comm, Nat.Div0.mod_add in Hm.
  - exists w', done'. by rewrite <- Hwb.
Qed.

(** The count [flush] rounds up to whole bytes. *)
Lemma flush_count n :
  (n ≤ 128)%nat →
  ∃ pad, (pad < 8 ∧ (n + pad) mod 8 = 0 ∧ n + pad ≤ 128)%nat ∧
    u8 (Z.land (Z.of_nat n + 8 - 1) (Z.lnot (8 - 1))) = Z.of_nat (n + pad).
Proof.
  intros Hn. set (q := (Z.of_nat n + 8 - 1) / 8).
  assert (8 * q ≤ Z.of_nat n + 8 - 1 < 8 * q + 8) as Hq
    by (unfold q; pose proof (Z.mul_div_le (Z.of_nat n + 8 - 1) 8); pose proof (Z.mul_succ_div_gt (Z.of_nat n + 8 - 1) 8); lia).
  exists (Z.to_nat (8 * q) - n)%nat. split.
  - split_and!; [lia| |lia]. replace (n + (Z.to_nat (8 * q) - n))%nat with (Z.to_nat q * 8)%nat by lia.
    apply Nat.Div0.mod_mul.
  - change (8 - 1) with (Z.ones 3). rewrite <- Z.ldiff_land, Z.ldiff_ones_r by done.
    rewrite Z.shiftr_div_pow2, Z.shiftl_mul_pow2 by done. change (2 ^ 3) with 8.
    change (Z.ones 3) with 7 in *. fold q. rewrite wrap_small by zlia. lia.
Qed.

(** Flushing pads the last byte with zeros. *)
Lemma flush_spec w pre old cap done pend :
  writes w pre old cap done pend →
  Z.of_nat (length (written_bits done pend)) ≤ 8 * cap →
  ∃ w' done' pad, BitWriter.flush w = Ret w' ∧ writes w' pre old cap done' [] ∧
    bytes_bits done' = written_bits done pend ++ replicate pad false ∧ (pad < 8)%nat.
Proof.
  intros Hw Hroom. pose proof Hw as [Hd Hbeg Hcur Hend Hold Hdone Hlen Hcnt Hbuf].
  destruct (flush_count _ Hlen) as (pad & (Hp8 & Hmod & Hpad) & Hcount).
  unfold BitWriter.flush. rewrite Hcnt, Hcount.
  assert (length (pend ++ replicate pad false) = length pend + pad)%nat as Hl
    by (by rewrite length_app, length_replicate).
  destruct (flush_loop_spec pre old cap 32 (BitWriter.mk (BitWriter.dest w) (BitWriter.dest_begin w)
      (BitWriter.dest_end w) (BitWriter.dest_current w) (BitWriter.bits_buffer w)
      (Z.of_nat (length pend + pad))) done (pend ++ replicate pad false))
    as (w' & done' & Heq & Hw' & Hbits).
  - split; cbn [BitWriter.dest BitWriter.dest_begin BitWriter.dest_end BitWriter.dest_current BitWriter.bits_buffer BitWriter.bits_count]; try done; try lia.
    rewrite Hbuf. unfold buffer_of. rewrite <- app_assoc, Hl, <- replicate_add.
    do 3 f_equal. lia.
  - lia.
  - by rewrite Hl.
  - unfold written_bits in *. rewrite length_app, length_bytes_bits in Hroom.
    rewrite length_app, Hl, length_bytes_bits.
    apply Nat.Div0.div_exact in Hmod. lia.
  - exists w', done', pad. unfold written_bits in *. rewrite <- app_assoc. auto.
Qed.

Lemma writer_count w pre old cap done :
  writes w pre old cap done [] → blen done < 2 ^ 60 → BitWriter.count w = 8 * blen done.
Proof.
  intros [Hd Hbeg Hcur Hend Hold Hdone Hlen Hcnt Hbuf] Hs. unfold BitWriter.count.
  rewrite Hbeg, Hcur, Hcnt. cbn [length]. rewrite wrap_small; pose proof (blen_nonneg done); zlia.
Qed.
End writer.

Section reader.
Implicit Types l pend : list bool.

Lemma reader_create pre bs post :
  is_bytes bs →
  reader_bits (BitReader.create (pre ++ bs ++ post) (blen pre) (blen bs)) (bytes_bits bs).
Proof.
  intros Hb. exists [], bs. split; [|done]. split; simpl; [done| |lia|done|done].
  by exists pre, post.
Qed.

(** [fillBitBuffer] moves bytes from the source to the buffer; after it the
    buffer has 64 bits more or the source is exhausted. *)
Lemma fill_spec r pend rest :
  reads r pend rest → (length pend < 64)%nat →
  ∃ r' pend' rest', BitReader.fillBitBuffer r = Ret r' ∧ reads r' pend' rest' ∧
    pend' ++ bytes_bits rest' = pend ++ bytes_bits rest ∧
    (rest' = [] ∨ (64 ≤ length pend')%nat).
Proof.
  intros [Hb (pre & post & Hsrc & Hcur & Hend) Hlen Hcnt Hbuf] H64.
  unfold BitReader.fillBitBuffer. rewrite Hcur, Hend, Hcnt.
  replace (blen pre + blen rest - blen pre) with (blen rest) by lia.
  destruct (Z.eqb_spec (blen rest) 0) as [E|E].
  { apply blen_0_nil in E as ->. rewrite blen_nil. change (Z.min (64 / 8) 0 =? 0) with true.
    exists r, pend, []. split_and!; [done| |done|by left].
    split; try done. exists pre, post. rewrite Hsrc, Hcur, Hend. done. }
  change (64 / 8) with 8. set (k := Z.min 8 (blen rest)).
  destruct (split_at rest k) as (r1 & r2 & -> & Hk); [unfold k; blia|].
  rewrite Hsrc, <- app_assoc. rewrite read_bytes_app by done. cbn [mbind outcome_bind].
  rewrite blen_app in *. pose proof (blen_nonneg r2).
  apply Forall_app in Hb as [Hb1 Hb2].
  assert (length r1 ≤ 8)%nat as Hl8 by (unfold k, blen in *; lia).
  rewrite (wrap_small 8) by zlia.
  rewrite ub_unless_true by (apply Z.ltb_lt; lia). cbn [mbind outcome_bind].
  eexists _, (pend ++ bytes_bits r1), r2. split_and!; [done| | |].
  - split; cbn [BitReader.source BitReader.source_end BitReader.source_current BitReader.bits_buffer BitReader.bits_count].
    + done.
    + exists (pre ++ r1), post. rewrite <- !app_assoc, blen_app. split_and!; [done|lia|lia].
    + rewrite length_app, length_bytes_bits. lia.
    + unfold blen in Hk. assert (0 ≤ k ≤ 8) by (unfold k; lia).
      rewrite (wrap_small 1 k), (wrap_small 1) by zlia.
      rewrite length_app, length_bytes_bits, <- Hk. lia.
    + rewrite Hbuf, byteswap_bytes by done. rewrite <- buffer_append by (rewrite length_bytes_bits; lia).
      do 2 f_equal. rewrite !Z.shiftl_mul_pow2 by (rewrite ?length_bytes_bits; lia).
      rewrite <- Z.mul_assoc, <- Z.pow_add_r by (unfold blen; lia). do 2 f_equal.
      rewrite length_bytes_bits. unfold blen. lia.
  - by rewrite bytes_bits_app, app_assoc.
  - destruct (decide (blen r2 = 0)) as [Hz|Hz]; [left; by apply blen_0_nil|right].
    subst k. rewrite blen_app in Hk. rewrite length_app, length_bytes_bits. unfold blen in *. lia.
Qed.

Lemma getBits_spec r pend rest l1 l2 :
  reads r pend rest → pend = l1 ++ l2 → (1 ≤ length l1 ≤ 64)%nat →
  ∃ r', BitReader.getBitsFromBitBuffer BitReader.CONSUME (Z.of_nat (length l1)) r = Ret (bits_val l1, r') ∧
    reads r' l2 rest.
Proof.
  intros [Hb Hsrc Hlen Hcnt Hbuf] -> Hn. unfold BitReader.getBitsFromBitBuffer, BitReader.skipBufferedBits.
  rewrite length_app in Hlen.
  rewrite (wrap_small 8 (16 * 8 - _)) by zlia. rewrite ub_unless_true by (apply Z.ltb_lt; lia).
  cbn [mbind outcome_bind]. rewrite ub_unless_true by (apply Z.ltb_lt; lia). cbn [mbind outcome_bind].
  eexists. split.
  - f_equal. f_equal. change (16 * 8) with 128. rewrite Hbuf, buffer_top by (rewrite ?length_app; lia).
    rewrite <- app_assoc, take_app_length. apply wrap_small.
    pose proof (bits_val_range l1). assert (2 ^ Z.of_nat (length l1) ≤ 2 ^ 64) by (apply Z.pow_le_mono_r; lia).
    change (8 * 8) with 64. lia.
  - split; cbn [BitReader.source BitReader.source_end BitReader.source_current BitReader.bits_buffer BitReader.bits_count BitReader.set_bits]; try done.
    + lia.
    + rewrite Hcnt, length_app, wrap_small by zlia. lia.
    + rewrite Hbuf. apply buffer_skip. rewrite length_app. lia.
Qed.

Lemma readBits_spec r l1 l2 :
  reader_bits r (l1 ++ l2) → (1 ≤ length l1 ≤ 64)%nat →
  ∃ r', BitReader.readBits (Z.of_nat (length l1)) r = Ret (bits_val l1, r') ∧ reader_bits r' l2.
Proof.
  intros (pend & rest & Hr & Hl) Hn. unfold BitReader.readBits.
  assert (∃ r1 pend1 rest1, (if BitReader.bits_count r <? Z.of_nat (length l1)
      then BitReader.fillBitBuffer r else Ret r) = Ret r1 ∧ reads r1 pend1 rest1 ∧
      pend1 ++ bytes_bits rest1 = l1 ++ l2 ∧ (length l1 ≤ length pend1)%nat)
    as (r1 & pend1 & rest1 & -> & Hr1 & Hl1 & Hge).
  { rewrite (rd_count _ _ _ Hr). destruct (Z.ltb_spec (Z.of_nat (length pend)) (Z.of_nat (length l1))).
    - destruct (fill_spec _ _ _ Hr) as (r1 & pend1 & rest1 & -> & Hr1 & Hl1 & Hor); [lia|].
      exists r1, pend1, rest1. split_and!; [done|done|congruence|].
      destruct Hor as [-> | ?]; [|lia].
      apply (f_equal length) in Hl1. rewrite <- Hl, !length_app in Hl1. simpl in Hl1. lia.
    - exists r, pend, rest. split_and!; [done|done|done|lia]. }
  cbn [mbind outcome_bind].
  assert (pend1 = l1 ++ drop (length l1) pend1) as Hp.
  { rewrite <- (take_drop (length l1) pend1) at 1. f_equal.
    rewrite <- (take_app_le pend1 (bytes_bits rest1)) by done. by rewrite Hl1, take_app_length. }
  destruct (getBits_spec r1 pend1 rest1 l1 (drop (length l1) pend1) Hr1 Hp Hn) as (r' & -> & Hr').
  exists r'. split; [done|]. exists (drop (length l1) pend1), rest1. split; [done|].
  rewrite Hp, <- app_assoc in Hl1. by apply app_inv_head in Hl1.
Qed.

Lemma readBit_spec r b l :
  reader_bits r (b :: l) →
  ∃ r', BitReader.readBit r = Ret (Z.b2z b, r') ∧ reader_bits r' l.
Proof.
  intros Hr. destruct (readBits_spec r [b] l Hr) as (r' & Heq & Hr'); [simpl; lia|].
  exists r'. unfold BitReader.readBit. change 1 with (Z.of_nat (length [b])).
  rewrite Heq. by destruct b.
Qed.

(** [peekByte] shows the next eight bits, zeros after the last one, and makes
    them available for [skipBufferedBits]. *)
Lemma peekByte_spec r l :
  reader_bits r l →
  ∃ r', BitReader.peekByte r = Ret (bits_val (take 8 (l ++ replicate 8 false)), r') ∧
    reader_bits r' l ∧ Z.min 8 (Z.of_nat (length l)) ≤ BitReader.bits_count r'.
Proof.
  intros (pend & rest & Hr & ->). unfold BitReader.peekByte.
  assert (∃ r1 pend1 rest1, (if BitReader.bits_count r <? 8
      then BitReader.fillBitBuffer r else Ret r) = Ret r1 ∧ reads r1 pend1 rest1 ∧
      pend1 ++ bytes_bits rest1 = pend ++ bytes_bits rest ∧ (8 ≤ length pend1 ∨ rest1 = [])%nat)
    as (r1 & pend1 & rest1 & -> & Hr1 & <- & Hge).
  { rewrite (rd_count _ _ _ Hr). destruct (Z.ltb_spec (Z.of_nat (length pend)) 8).
    - destruct (fill_spec _ _ _ Hr) as (r1 & pend1 & rest1 & -> & Hr1 & Hl1 & Hor); [lia|].
      exists r1, pend1, rest1. split_and!; [done|done|done|]. destruct Hor as [->|?]; [by right|left; lia].
    - exists r, pend, rest. split_and!; [done|done|done|left; lia]. }
  cbn [mbind outcome_bind]. unfold BitReader.getBitsFromBitBuffer.
  change (u64 (16 * 8 - 8)) with (128 - Z.of_nat 8). cbn [mbind outcome_bind ub_unless Z.ltb].
  pose proof Hr1 as [_ _ Hlen Hcnt Hbuf].
  exists r1. split_and!; [|by exists pend1, rest1|].
  - change (128 - Z.of_nat 8 <? 128) with true. cbn [mbind outcome_bind ub_unless].
    rewrite Hbuf, buffer_top by lia. f_equal. f_equal.
    assert (take 8 (pend1 ++ replicate (128 - length pend1) false) =
            take 8 ((pend1 ++ bytes_bits rest1) ++ replicate 8 false)) as ->.
    { destruct Hge as [Hge| ->].
      - by rewrite <- app_assoc, !take_app_le by lia.
      - rewrite app_nil_r. destruct (decide (8 ≤ length pend1)%nat).
        + by rewrite !take_app_le by lia.
        + rewrite !take_app_ge by lia. by rewrite !take_replicate, !Nat.min_l by lia. }
    set (p := take 8 _). assert (length p = 8%nat) as Hp.
    { unfold p. rewrite length_take, length_app, length_replicate. lia. }
    pose proof (bits_val_range p) as Hrp. rewrite Hp in Hrp.
    rewrite (wrap_small 8), (wrap_small 1) by zlia. done.
  - rewrite Hcnt, length_app. destruct Hge as [?| ->]; [lia|]. simpl. lia.
Qed.

Lemma skip_spec r l n :
  reader_bits r l → Z.of_nat n ≤ BitReader.bits_count r → (n < 128)%nat →
  ∃ r', BitReader.skipBufferedBits (Z.of_nat n) r = Ret r' ∧ reader_bits r' (drop n l).
Proof.
  intros (pend & rest & [Hb Hsrc Hlen Hcnt Hbuf] & ->) Hn Hn'. rewrite Hcnt in Hn.
  unfold BitReader.skipBufferedBits. rewrite ub_unless_true by (apply Z.ltb_lt; lia).
  eexists. split; [done|]. exists (drop n pend), rest. rewrite drop_app_le by lia.
  split; [|done].
  split; cbn [BitReader.source BitReader.source_end BitReader.source_current BitReader.bits_buffer BitReader.bits_count BitReader.set_bits]; try done.
  - rewrite length_drop. lia.
  - rewrite Hcnt, length_drop, wrap_small by zlia. lia.
  - rewrite Hbuf, <- (take_drop n pend) at 1.
    rewrite <- (buffer_skip (take n pend) (drop n pend)) by (by rewrite take_drop).
    rewrite length_take, Nat.min_l by lia. done.
Qed.

Lemma bit_eof_spec r l : reader_bits r l → BitReader.eof r = bool_decide (l = []).
Proof.
  intros (pend & rest & [Hb (pre & post & Hsrc & Hcur & Hend) Hlen Hcnt Hbuf] & ->).
  unfold BitReader.eof. rewrite Hcur, Hend, Hcnt.
  destruct pend as [|b pend]; simpl; [|done].
  destruct rest as [|b rest].
  - rewrite blen_nil, Z.add_0_r, Z.leb_refl. done.
  - rewrite blen_cons. pose proof (blen_nonneg rest).
    rewrite (proj2 (Z.leb_gt _ _)) by lia. done.
Qed.
End reader.

(** * Readers over arbitrary data *)

(** What holds of a reader whatever its source and whatever was asked of it. The
    UInt8 count of buffered bits can underflow, but only after the source is
    exhausted. *)
Record reader_ok (r : BitReader.t) : Prop := {
  ok_source : is_bytes (BitReader.source r);
  ok_range : 0 ≤ BitReader.source_current r ≤ BitReader.source_end r ∧
             BitReader.source_end r ≤ blen (BitReader.source r);
  ok_buffer : 0 ≤ BitReader.bits_buffer r < 2 ^ 128;
  ok_count : 0 ≤ BitReader.bits_count r < 256;
  ok_full : BitReader.bits_count r ≤ 127 ∨ BitReader.source_current r = BitReader.source_end r;
}.

Section reader_safety.
Lemma reader_ok_create src begin size :
  is_bytes src → 0 ≤ begin → 0 ≤ size → begin + size ≤ blen src →
  reader_ok (BitReader.create src begin size).
Proof. intros. split; simpl; try done; lia. Qed.

Lemma fill_safe r n :
  reader_ok r → BitReader.bits_count r < n ≤ 64 →
  safe (BitReader.fillBitBuffer r) (λ r', reader_ok r' ∧
    (n ≤ BitReader.bits_count r' ∨ BitReader.source_current r' = BitReader.source_end r')).
Proof.
  intros [Hs Hr Hb Hc Hf] Hn. unfold BitReader.fillBitBuffer.
  destruct (Z.eqb_spec (BitReader.source_end r - BitReader.source_current r) 0) as [E|E].
  - rewrite E. simpl. split; [by split|lia].
  - change (64 / 8) with 8.
    set (k := Z.min 8 _). assert (1 ≤ k ≤ 8) by lia.
    destruct (read_bytes_safe (BitReader.source r) (BitReader.source_current r) k)
      as (bs & -> & Hk & Hbs); [lia..|]. cbn [mbind outcome_bind]. rewrite (wrap_small 8) by zlia.
    rewrite ub_unless_true by (apply Z.ltb_lt; lia). cbn [mbind outcome_bind].
    rewrite (wrap_small 1 k), (wrap_small 1) by zlia. simpl.
    split; [split; simpl; try done; try lia|lia].
    apply lor_range; [lia|done|apply (wrap_range 16); lia].
Qed.

Lemma skip_safe r n :
  reader_ok r → 0 ≤ n < 128 →
  n ≤ BitReader.bits_count r ∨ BitReader.source_current r = BitReader.source_end r →
  safe (BitReader.skipBufferedBits n r) reader_ok.
Proof.
  intros [Hs Hr Hb Hc Hf] Hn Hor. unfold BitReader.skipBufferedBits.
  rewrite ub_unless_true by (apply Z.ltb_lt; lia). simpl.
  split; simpl; try done.
  - apply (wrap_range 16). lia.
  - apply (wrap_range 1). lia.
  - destruct Hor; [|by right]. rewrite wrap_small by zlia. lia.
Qed.

Lemma top_bits_range b n : 0 ≤ b < 2 ^ 128 → 0 ≤ n ≤ 128 → 0 ≤ Z.shiftr b (128 - n) < 2 ^ n.
Proof.
  intros Hb Hn. rewrite Z.shiftr_div_pow2 by lia.
  split; [apply Z.div_pos; [lia|apply Z.pow_pos_nonneg; lia]|].
  apply Z.div_lt_upper_bound; [apply Z.pow_pos_nonneg; lia|].
  rewrite <- Z.pow_add_r by lia. replace (128 - n + n) with 128 by lia. lia.
Qed.

Lemma readBits_safe r n :
  reader_ok r → 1 ≤ n ≤ 64 →
  safe (BitReader.readBits n r) (λ vr, 0 ≤ vr.1 < 2 ^ n ∧ reader_ok vr.2).
Proof.
  intros Hr Hn. unfold BitReader.readBits.
  apply (safe_bind _ _ (λ r', reader_ok r' ∧
    (n ≤ BitReader.bits_count r' ∨ BitReader.source_current r' = BitReader.source_end r'))).
  { destruct (Z.ltb_spec (BitReader.bits_count r) n); [apply fill_safe; [done|lia]|simpl; auto]. }
  intros r' [Hr' Hor]. unfold BitReader.getBitsFromBitBuffer.
  change (16 * 8) with 128. rewrite (wrap_small 8 (128 - n)) by zlia.
  rewrite ub_unless_true by (apply Z.ltb_lt; lia). cbn [mbind outcome_bind].
  eapply safe_bind; [apply skip_safe; [done|lia|done]|]. intros r2 Hr2. simpl. split; [|done].
  pose proof (top_bits_range _ n (ok_buffer _ Hr') ltac:(lia)).
  assert (2 ^ n ≤ 2 ^ 64) by (apply Z.pow_le_mono_r; lia).
  rewrite wrap_small by (change (8 * 8) with 64; lia). done.
Qed.

Lemma readBit_safe r :
  reader_ok r → safe (BitReader.readBit r) (λ vr, 0 ≤ vr.1 < 2 ∧ reader_ok vr.2).
Proof.
  intros Hr. eapply safe_bind; [by apply readBits_safe|].
  intros [v r'] [Hv Hr']. simpl in *. rewrite wrap_small by zlia. done.
Qed.

Lemma peekByte_safe r :
  reader_ok r →
  safe (BitReader.peekByte r) (λ vr, is_byte vr.1 ∧ reader_ok vr.2 ∧
    (8 ≤ BitReader.bits_count vr.2 ∨ BitReader.source_current vr.2 = BitReader.source_end vr.2)).
Proof.
  intros Hr. unfold BitReader.peekByte.
  apply (safe_bind _ _ (λ r', reader_ok r' ∧
    (8 ≤ BitReader.bits_count r' ∨ BitReader.source_current r' = BitReader.source_end r'))).
  { destruct (Z.ltb_spec (BitReader.bits_count r) 8); [apply fill_safe; [done|lia]|simpl; auto]. }
  intros r' [Hr' Hor]. simpl. split; [|done]. apply (wrap_range 1). lia.
Qed.
End reader_safety.

(** * Writing a sequence of values and reading it back *)

Fixpoint write_values (l : list (nat * Z)) (w : BitWriter.t) : outcome BitWriter.t :=
  match l with
  | [] => Ret w
  | (n, v) :: l => w ← BitWriter.writeBits (Z.of_nat n) v w; write_values l w
  end.

Fixpoint read_values (l : list nat) (r : BitReader.t) : outcome (list Z * BitReader.t) :=
  match l with
  | [] => Ret ([], r)
  | n :: l =>
      '(v, r) ← BitReader.readBits (Z.of_nat n) r;
      '(vs, r) ← read_values l r;
      Ret (v :: vs, r)
  end.

Definition values_bits (l : list (nat * Z)) : list bool := concat ((λ p, to_bits p.1 p.2) <$> l).

Section values.
Implicit Types l : list (nat * Z).

Lemma values_bits_app l1 l2 : values_bits (l1 ++ l2) = values_bits l1 ++ values_bits l2.
Proof. unfold values_bits. by rewrite fmap_app, concat_app. Qed.

Lemma write_values_app l1 l2 w : write_values (l1 ++ l2) w = (write_values l1 w ≫= write_values l2).
Proof.
  revert w. induction l1 as [|[n v] l1 IH]; intros w; [done|]. simpl.
  destruct (BitWriter.writeBits _ _ _); simpl; auto.
Qed.

Lemma write_values_spec l w pre old cap done pend :
  Forall (λ p, 1 ≤ p.1 ≤ 64)%nat l → writes w pre old cap done pend →
  Z.of_nat (length (written_bits done pend ++ values_bits l)) ≤ 8 * cap →
  ∃ w' done' pend', write_values l w = Ret w' ∧ writes w' pre old cap done' pend' ∧
    written_bits done' pend' = written_bits done pend ++ values_bits l.
Proof.
  intros Hl. revert w done pend. induction Hl as [|[n v] l Hn _ IH]; intros w done pend Hw Hroom; simpl.
  - exists w, done, pend. unfold values_bits. simpl. by rewrite app_nil_r.
  - change (values_bits ((n, v) :: l)) with (to_bits n v ++ values_bits l) in *.
    rewrite app_assoc in *. rewrite !length_app in Hroom.
    destruct (writeBits_spec _ _ _ _ _ _ n v Hw) as (w1 & done1 & pend1 & -> & Hw1 & E); [done|lia|].
    cbn [mbind outcome_bind]. rewrite <- E. apply IH; [done|]. rewrite E, !length_app. lia.
Qed.

(** Values written from the beginning of a memory area, and what [flush] leaves there. *)
Lemma write_values_flush l pre old size :
  Forall (λ p, 1 ≤ p.1 ≤ 64)%nat l → (Z.of_nat (length (values_bits l)) + 7) / 8 ≤ Z.min size (blen old) →
  size < 2 ^ 60 →
  ∃ body pad w1 w2,
    write_values l (BitWriter.create (pre ++ old) (blen pre) size) = Ret w1 ∧
    BitWriter.flush w1 = Ret w2 ∧ BitWriter.dest w2 = pre ++ over body old ∧
    BitWriter.count w2 = 8 * blen body ∧
    is_bytes body ∧ bytes_bits body = values_bits l ++ replicate pad false ∧
    blen body = (Z.of_nat (length (values_bits l)) + 7) / 8.
Proof.
  intros Hl Hroom Hsz. set (nb := Z.of_nat (length (values_bits l))) in *.
  pose proof (Z.mul_div_le (nb + 7) 8 ltac:(lia)). pose proof (Z.mul_succ_div_gt (nb + 7) 8 ltac:(lia)).
  set (cap := (nb + 7) / 8) in *. assert (0 ≤ cap) by (apply Z.div_pos; lia).
  destruct (write_values_spec l (BitWriter.create (pre ++ old) (blen pre) size) pre old cap [] [])
    as (w1 & done1 & pend1 & E1 & Hw1 & Hb1); [done|apply writes_create; lia| |].
  { change (written_bits [] [] ++ values_bits l) with (values_bits l). fold nb. lia. }
  change (written_bits [] [] ++ values_bits l) with (values_bits l) in Hb1.
  destruct (flush_spec _ _ _ _ _ _ Hw1) as (w2 & body & pad & E2 & Hw2 & Hbits & Hpad);
    [rewrite Hb1; fold nb; lia|].
  pose proof (wr_done _ _ _ _ _ _ Hw2) as [Hbs Hcap]. rewrite Hb1 in Hbits.
  exists body, pad, w1, w2. split_and!; [done|done|apply (wr_dest _ _ _ _ _ _ Hw2)| |done|done|].
  - apply (writer_count _ _ _ _ _ Hw2). lia.
  - apply (f_equal length) in Hbits. rewrite length_app, length_bytes_bits, length_replicate in Hbits.
    unfold blen, nb in *. lia.
Qed.

Lemma read_values_spec l r rest :
  Forall (λ p, 1 ≤ p.1 ≤ 64)%nat l → reader_bits r (values_bits l ++ rest) →
  ∃ r', read_values l.*1 r = Ret ((λ p, p.2 mod 2 ^ Z.of_nat p.1) <$> l, r') ∧ reader_bits r' rest.
Proof.
  intros Hl. revert r. induction Hl as [|[n v] l Hn _ IH]; intros r Hr; [by exists r|].
  change (values_bits ((n, v) :: l)) with (to_bits n v ++ values_bits l) in Hr.
  rewrite <- app_assoc in Hr. cbn [fmap list_fmap read_values fst snd].
  destruct (readBits_spec _ _ _ Hr) as (r1 & E & Hr1); [by rewrite length_to_bits|].
  rewrite length_to_bits, bits_val_to_bits in E. rewrite E. cbn [mbind outcome_bind].
  destruct (IH _ Hr1) as (r2 & -> & Hr2). by exists r2.
Qed.
End values.

(** Writing any sequence of values of 1 to 64 bits with [writeBits] and [flush]
    into memory with room for them succeeds, changes only the bytes it fills, and
    [readBits] with the same widths over the bytes written returns every value
    truncated to its width. *)
Theorem bit_stream_roundtrip (pre old : bytes) (size : Z) (l : list (nat * Z)) :
  Forall (λ p, 1 ≤ p.1 ≤ 64)%nat l →
  Z.of_nat (length (values_bits l)) ≤ 8 * size → size ≤ blen old → size < 2 ^ 60 →
  ∃ w bs r,
    (write_values l (BitWriter.create (pre ++ old) (blen pre) size) ≫= BitWriter.flush) = Ret w ∧
    BitWriter.dest w = pre ++ bs ++ drop (length bs) old ∧ BitWriter.count w = 8 * blen bs ∧
    read_values l.*1 (BitReader.create (BitWriter.dest w) (blen pre) (BitWriter.count w / 8)) =
      Ret ((λ p, p.2 mod 2 ^ Z.of_nat p.1) <$> l, r).
Proof.
  intros Hl Hroom Hold Hsize.
  destruct (write_values_spec l (BitWriter.create (pre ++ old) (blen pre) size) pre old size [] [])
    as (w1 & done1 & pend1 & -> & Hw1 & Hb1); [done|apply writes_create; lia|simpl; lia|].
  cbn [mbind outcome_bind].
  destruct (flush_spec _ _ _ _ _ _ Hw1) as (w & bs & pad & -> & Hw & Hbits & _); [rewrite Hb1; simpl; lia|].
  pose proof (wr_done _ _ _ _ _ _ Hw) as [Hbs Hcap].
  exists w, bs. rewrite (writer_count _ _ _ _ _ Hw), (wr_dest _ _ _ _ _ _ Hw) by lia.
  rewrite (Z.mul_comm 8), Z.div_mul by lia.
  destruct (read_values_spec l (BitReader.create (pre ++ bs ++ drop (length bs) old) (blen pre) (blen bs))
    (replicate pad false)) as (r & -> & _); [done| |].
  - replace (values_bits l ++ _) with (bytes_bits bs) by (by rewrite Hbits, Hb1). by apply reader_create.
  - exists r. split_and!; [done|done|lia|done].
Qed.

Lemma bit_stream_roundtrip_witness :
  ∃ w bs r,
    (write_values [(3%nat, 5); (64%nat, 1); (11%nat, 4000)]
       (BitWriter.create ([7] ++ replicate 12 0) (blen [7]) 10) ≫= BitWriter.flush) = Ret w ∧
    BitWriter.dest w = [7] ++ bs ++ drop (length bs) (replicate 12 0) ∧ BitWriter.count w = 8 * blen bs ∧
    read_values [3%nat; 64%nat; 11%nat]
      (BitReader.create (BitWriter.dest w) (blen [7]) (BitWriter.count w / 8)) =
      Ret ([5; 1; 4000 mod 2048], r).
Proof.
  apply (bit_stream_roundtrip [7] (replicate 12 0) 10 [(3%nat, 5); (64%nat, 1); (11%nat, 4000)]);
    [repeat constructor; simpl; lia|vm_compute; done|vm_compute; done|vm_compute; done].
Defined.

(** Whatever the bytes of the source and the bits already consumed, [readBits] of
    1 to 64 bits neither reads outside the source nor shifts by the width of the
    buffer, keeps the reader's invariant, and returns a number of that many bits. *)
Theorem bit_reader_never_ub (r : BitReader.t) (n : Z) :
  reader_ok r → 1 ≤ n ≤ 64 →
  safe (BitReader.readBits n r) (λ vr, 0 ≤ vr.1 < 2 ^ n ∧ reader_ok vr.2).
Proof. apply readBits_safe. Qed.

Lemma bit_reader_never_ub_witness :
  reader_ok (BitReader.create [0xff; 0x01] 0 2) ∧
  safe (BitReader.readBits 64 (BitReader.create [0xff; 0x01] 0 2)) (λ vr, 0 ≤ vr.1 < 2 ^ 64 ∧ reader_ok vr.2).
Proof.
  assert (reader_ok (BitReader.create [0xff; 0x01] 0 2)) as Hok.
  { apply reader_ok_create; [repeat constructor; unfold is_byte; lia|lia|lia|vm_compute; done]. }
  split; [exact Hok|]. apply (bit_reader_never_ub _ 64 Hok). lia.
Defined.
