(* ===== verification/CodecBase.v ===== *)
(** The interface of compression codecs, [ICompressionCodec]
    (src/src/Compression/ICompressionCodec.h and .cpp): the block header that
    [compress] writes and [decompress] checks, and what a codec promises to its
    callers; the codec NONE (CompressionCodecNone.cpp); and the codec Multiple
    (CompressionCodecMultiple.cpp), which chains others, proved against that
    interface. *)

From S2P Require Import Prelude.
From stdpp Require Import base tactics list numbers.
Local Open Scope Z_scope.

(** * CompressionInfo.h *)

Definition COMPRESSED_BLOCK_HEADER_SIZE : Z := 9.
Definition DBMS_MAX_COMPRESSED_SIZE : Z := 0x40000000.

Inductive CompressionMethodByte :=
| NONE | LZ4 | ZSTD | Multiple | Delta | T64 | DoubleDelta | Gorilla
| AES_128_GCM_SIV | AES_256_GCM_SIV | FPC | DeflateQpl | GCD | ZSTD_QPL.

Definition method_byte (m : CompressionMethodByte) : Z :=
  match m with
  | NONE => 0x02
  | LZ4 => 0x82
  | ZSTD => 0x90
  | Multiple => 0x91
  | Delta => 0x92
  | T64 => 0x93
  | DoubleDelta => 0x94
  | Gorilla => 0x95
  | AES_128_GCM_SIV => 0x96
  | AES_256_GCM_SIV => 0x97
  | FPC => 0x98
  | DeflateQpl => 0x99
  | GCD => 0x9a
  | ZSTD_QPL => 0x9b
  end.

(** * ICompressionCodec *)

(** The virtual functions of a codec. [source] is the memory from the source
    pointer on, of which the first [source_size] bytes are the data; [dest] is the
    memory from the destination pointer on. *)
Record codec := mk_codec {
  getMethodByte : Z;
  doCompressData : bytes → Z → bytes → outcome (bytes * Z);
  doDecompressData : bytes → Z → bytes → Z → outcome bytes;
  getMaxCompressedDataSize : Z → Z;
  getAdditionalSizeAtTheEndOfBuffer : Z;
  decompression_error_code : ErrorCode;
}.

Definition getHeaderSize : Z := COMPRESSED_BLOCK_HEADER_SIZE.

Definition getCompressedReserveSize (c : codec) (uncompressed_size : Z) : Z :=
  u32 (getHeaderSize + getMaxCompressedDataSize c uncompressed_size).

Definition compress (c : codec) (source : bytes) (source_size : Z) (dest : bytes)
  : outcome (bytes * Z) :=
  dest ← write_bytes dest 0 [getMethodByte c];
  let header_size := getHeaderSize in
  '(dest, compressed_bytes_written) ←
    on_tail dest header_size (doCompressData c source source_size);
  dest ← store 4 dest 1 (u32 (compressed_bytes_written + header_size));
  dest ← store 4 dest 5 source_size;
  Ret (dest, u32 (header_size + compressed_bytes_written)).

Definition readCompressedBlockSize (decompression_error_code : ErrorCode) (source : bytes) : outcome Z :=
  compressed_block_size ← load 4 source 1;
  _ ← throw_if (compressed_block_size =? 0) decompression_error_code;
  Ret compressed_block_size.

Definition readDecompressedBlockSize (decompression_error_code : ErrorCode) (source : bytes) : outcome Z :=
  decompressed_block_size ← load 4 source 5;
  _ ← throw_if (decompressed_block_size =? 0) decompression_error_code;
  Ret decompressed_block_size.

Definition readMethod (source : bytes) : outcome Z := load 1 source 0.

Definition decompress (c : codec) (source : bytes) (source_size : Z) (dest : bytes)
  : outcome (bytes * Z) :=
  let header_size := getHeaderSize in
  _ ← throw_if (source_size <? header_size) (decompression_error_code c);
  let our_method := getMethodByte c in
  method ← load 1 source 0;
  _ ← throw_if (negb (method =? our_method)) (decompression_error_code c);
  decompressed_size ← readDecompressedBlockSize (decompression_error_code c) source;
  data ← tail_at source header_size;
  dest ← doDecompressData c data (source_size - header_size) dest decompressed_size;
  Ret (dest, decompressed_size).

(** ** What a codec promises *)

(** Decompressing [out], followed in memory by anything, gives [source] back; a codec
    that asks for additional bytes may overwrite those after it. *)
Definition undone_by (c : codec) (out source : bytes) : Prop :=
  ∀ tail dest,
    getAdditionalSizeAtTheEndOfBuffer c ≤ blen tail →
    blen source + getAdditionalSizeAtTheEndOfBuffer c ≤ blen dest →
    ∃ extra, doDecompressData c (out ++ tail) (blen out) dest (blen source) =
      Ret (source ++ extra) ∧ blen (source ++ extra) = blen dest.

(** For the sources [valid] accepts, compression into memory of the size the codec
    asked for succeeds and stays within it, and decompression undoes it. *)
Class CodecCorrect (c : codec) (valid : bytes → Prop) := {
  codec_method : is_byte (getMethodByte c);
  codec_additional : 0 ≤ getAdditionalSizeAtTheEndOfBuffer c;
  codec_roundtrip source tail dest :
    is_bytes source → valid source →
    getMaxCompressedDataSize c (blen source) ≤ blen dest →
    ∃ out,
      doCompressData c (source ++ tail) (blen source) dest = Ret (over out dest, blen out) ∧
      is_bytes out ∧ blen out ≤ getMaxCompressedDataSize c (blen source) ∧
      undone_by c out source;
}.

(** Whatever the data, decompression stays within the source and the destination,
    and terminates. *)
Class CodecSafe (c : codec) := {
  codec_safe source source_size dest uncompressed_size :
    is_bytes source → is_bytes dest →
    0 ≤ source_size → source_size < 2 ^ 32 →
    source_size + getAdditionalSizeAtTheEndOfBuffer c ≤ blen source →
    0 < uncompressed_size → uncompressed_size < 2 ^ 32 →
    uncompressed_size + getAdditionalSizeAtTheEndOfBuffer c ≤ blen dest →
    safe (doDecompressData c source source_size dest uncompressed_size)
      (λ dest', blen dest' = blen dest ∧ is_bytes dest');
}.

(** ** NONE *)

Definition None_doCompressData (source : bytes) (source_size : Z) (dest : bytes) : outcome (bytes * Z) :=
  bs ← read_bytes source 0 source_size;
  dest ← write_bytes dest 0 bs;
  Ret (dest, source_size).

Definition None_doDecompressData (ec : ErrorCode) (source : bytes) (source_size : Z) (dest : bytes)
  (uncompressed_size : Z) : outcome bytes :=
  _ ← throw_if (negb (source_size =? uncompressed_size)) ec;
  bs ← read_bytes source 0 uncompressed_size;
  write_bytes dest 0 bs.

Definition CompressionCodecNone (ec : ErrorCode) : codec := {|
  getMethodByte := method_byte NONE;
  doCompressData := None_doCompressData;
  doDecompressData := None_doDecompressData ec;
  getMaxCompressedDataSize n := n;
  getAdditionalSizeAtTheEndOfBuffer := 0;
  decompression_error_code := ec;
|}.

(** ** Multiple *)

(** [PODArray::resize]: the new elements are not initialised, [fresh] stands for
    what the memory holds. *)
Class FreshMemory := {
  fresh : nat → bytes;
  fresh_length n : length (fresh n) = n;
  fresh_bytes n : is_bytes (fresh n);
}.

Definition resize `{FreshMemory} (n : Z) (buf : bytes) : bytes :=
  take (Z.to_nat n) buf ++ fresh (Z.to_nat n - length buf).

Definition Multiple_getMaxCompressedDataSize (codecs : list codec) (uncompressed_size : Z) : Z :=
  let compressed_size :=
    foldl (λ compressed_size c, getCompressedReserveSize c compressed_size) uncompressed_size codecs in
  u32 (1 + Z.of_nat (length codecs) + compressed_size).

Section multiple.
Context `{FreshMemory}.
(** [CompressionCodecFactory::instance().get(UInt8)]. *)
Context (factory_get : Z → outcome codec).

Fixpoint Multiple_compress_loop (codecs : list codec) (codecs_byte_pos : Z)
  (dest uncompressed_buf compressed_buf : bytes) (source_size : Z) : outcome (bytes * bytes * Z) :=
  match codecs with
  | [] => Ret (dest, uncompressed_buf, source_size)
  | c :: codecs =>
      dest ← write_bytes dest codecs_byte_pos [getMethodByte c];
      let compressed_buf := resize (getCompressedReserveSize c source_size) compressed_buf in
      '(compressed_buf, size_compressed) ← compress c uncompressed_buf source_size compressed_buf;
      Multiple_compress_loop codecs (codecs_byte_pos + 1) dest compressed_buf uncompressed_buf size_compressed
  end.

Definition Multiple_doCompressData (codecs : list codec) (source : bytes) (source_size : Z) (dest : bytes)
  : outcome (bytes * Z) :=
  uncompressed_buf ← read_bytes source 0 source_size;
  dest ← write_bytes dest 0 [u8 (Z.of_nat (length codecs))];
  '(dest, uncompressed_buf, source_size) ←
    Multiple_compress_loop codecs 1 dest uncompressed_buf [] source_size;
  bs ← read_bytes uncompressed_buf 0 source_size;
  dest ← write_bytes dest (1 + Z.of_nat (length codecs)) bs;
  Ret (dest, u32 (1 + Z.of_nat (length codecs) + source_size)).

(** The body of the loop, [idx] counting down to 0. *)
Definition Multiple_decompress_step (ec : ErrorCode) (source : bytes) (idx : Z) (decompressed_size : Z)
  (compressed_buf uncompressed_buf : bytes) (source_size : Z) : outcome (bytes * bytes * Z) :=
  compression_method ← load 1 source (idx + 1);
  c ← factory_get compression_method;
  let additional_size_at_the_end_of_buffer := getAdditionalSizeAtTheEndOfBuffer c in
  _ ← throw_if (DBMS_MAX_COMPRESSED_SIZE <=? blen compressed_buf) ec;
  _ ← throw_if (2 ^ 32 <=? blen compressed_buf + additional_size_at_the_end_of_buffer) ec;
  let compressed_buf := resize (blen compressed_buf + additional_size_at_the_end_of_buffer) compressed_buf in
  uncompressed_size ← readDecompressedBlockSize ec compressed_buf;
  _ ← throw_if (DBMS_MAX_COMPRESSED_SIZE <=? uncompressed_size) ec;
  _ ← throw_if ((idx =? 0) && negb (uncompressed_size =? decompressed_size)) ec;
  _ ← throw_if (2 ^ 32 <=? uncompressed_size + additional_size_at_the_end_of_buffer) ec;
  let uncompressed_buf := resize (uncompressed_size + additional_size_at_the_end_of_buffer) uncompressed_buf in
  '(uncompressed_buf, _) ← decompress c compressed_buf source_size uncompressed_buf;
  Ret (uncompressed_buf, compressed_buf, uncompressed_size).

(** [n] is [idx + 1]. *)
Fixpoint Multiple_decompress_loop (ec : ErrorCode) (source : bytes) (n : nat) (decompressed_size : Z)
  (compressed_buf uncompressed_buf : bytes) (source_size : Z) : outcome bytes :=
  match n with
  | O => Ret compressed_buf
  | S idx =>
      '(compressed_buf, uncompressed_buf, source_size) ←
        Multiple_decompress_step ec source (Z.of_nat idx) decompressed_size
          compressed_buf uncompressed_buf source_size;
      Multiple_decompress_loop ec source idx decompressed_size compressed_buf uncompressed_buf source_size
  end.

(** The array made of a range whose end is before its beginning asks the allocator
    for more than it allows, which throws (src/src/Common/Allocator.cpp). *)
Definition Multiple_doDecompressData (ec : ErrorCode) (source : bytes) (source_size : Z) (dest : bytes)
  (decompressed_size : Z) : outcome bytes :=
  _ ← throw_if (source_size <? 1) ec;
  compression_methods_size ← load 1 source 0;
  _ ← throw_if (compression_methods_size =? 0) ec;
  _ ← throw_if (source_size <? compression_methods_size + 1) LOGICAL_ERROR;
  compressed_buf ← read_bytes source (compression_methods_size + 1)
                     (source_size - (compression_methods_size + 1));
  compressed_buf ← Multiple_decompress_loop ec source (Z.to_nat compression_methods_size) decompressed_size
    compressed_buf [] (source_size - (compression_methods_size + 1));
  bs ← read_bytes compressed_buf 0 decompressed_size;
  write_bytes dest 0 bs.

Definition CompressionCodecMultiple (ec : ErrorCode) (codecs : list codec) : codec := {|
  getMethodByte := method_byte Multiple;
  doCompressData := Multiple_doCompressData codecs;
  doDecompressData := Multiple_doDecompressData ec;
  getMaxCompressedDataSize := Multiple_getMaxCompressedDataSize codecs;
  getAdditionalSizeAtTheEndOfBuffer := 0;
  decompression_error_code := ec;
|}.

(** [getCodecsBytesFromData]. *)
Definition getCodecsBytesFromData (source : bytes) : outcome bytes :=
  compression_methods_size ← load 1 source 0;
  read_bytes source 1 compression_methods_size.
End multiple.

(** * Blocks *)

(** A compressed block: the header and the data of the codec. *)
Definition block (c : codec) (out : bytes) (decompressed_size : Z) : bytes :=
  getMethodByte c :: le_split 4 (9 + blen out) ++ le_split 4 decompressed_size ++ out.

Section blocks.
Implicit Types (c : codec) (out source tail dest : bytes).

Lemma blen_block c out n : blen (block c out n) = 9 + blen out.
Proof. unfold block. autorewrite with blen. lia. Qed.

Lemma block_bytes c out n : is_byte (getMethodByte c) → is_bytes out → is_bytes (block c out n).
Proof. intros. constructor; [done|]. rewrite !Forall_app. auto with codec. Qed.

(** The fields of the header, whatever follows in memory. *)
Lemma block_method c out n tail : load 1 (block c out n ++ tail) 0 = Ret (getMethodByte c).
Proof.
  transitivity (Ret (le_combine [getMethodByte c])); [|simpl; f_equal; lia].
  by apply (load_app 1 [] [getMethodByte c]).
Qed.

Lemma block_sizes ec c out n tail :
  9 + blen out < 2 ^ 32 → 0 < n < 2 ^ 32 →
  readCompressedBlockSize ec (block c out n ++ tail) = Ret (9 + blen out) ∧
  readDecompressedBlockSize ec (block c out n ++ tail) = Ret n.
Proof.
  intros Ho Hn. pose proof (blen_nonneg out). split.
  - unfold readCompressedBlockSize.
    assert (block c out n ++ tail = [getMethodByte c] ++ le_split 4 (9 + blen out) ++ (le_split 4 n ++ out ++ tail)) as ->
      by (unfold block; cbn [app]; by rewrite <- ?app_assoc).
    rewrite load_app by (rewrite ?blen_le_split; done). rewrite le_combine_split by (simpl; zlia).
    cbn [mbind outcome_bind]. by rewrite throw_if_false by (apply Z.eqb_neq; lia).
  - unfold readDecompressedBlockSize.
    assert (block c out n ++ tail = ([getMethodByte c] ++ le_split 4 (9 + blen out)) ++ le_split 4 n ++ (out ++ tail)) as ->
      by (unfold block; cbn [app]; by rewrite <- ?app_assoc).
    rewrite load_app by (rewrite ?blen_app, ?blen_le_split; done). rewrite le_combine_split by (simpl; zlia).
    cbn [mbind outcome_bind]. by rewrite throw_if_false by (apply Z.eqb_neq; lia).
Qed.

Lemma compress_block c source ssize dest out :
  9 + blen out < 2 ^ 32 → 9 + blen out ≤ blen dest →
  doCompressData c source ssize (drop 9 dest) = Ret (over out (drop 9 dest), blen out) →
  compress c source ssize dest = Ret (over (block c out ssize) dest, 9 + blen out).
Proof.
  intros Ho Hd Hc. pose proof (blen_nonneg out).
  assert (∃ b0 o1 o2 rest, dest = b0 :: o1 ++ o2 ++ rest ∧ blen o1 = 4 ∧ blen o2 = 4)
    as (b0 & o1 & o2 & rest & -> & H1 & H2).
  { destruct dest as [|b0 d]; [unfold blen in Hd; simpl in Hd; lia|].
    destruct (split_at d 4) as (o1 & d1 & -> & ?); [blia|].
    destruct (split_at d1 4) as (o2 & d2 & -> & ?); [blia|]. by exists b0, o1, o2, d2. }
  assert (∀ m o1' o2', blen o1' = 4 → blen o2' = 4 → drop 9 (m :: o1' ++ o2' ++ rest) = rest) as Hdrop.
  { intros. cbn [drop]. rewrite (assoc_L (++)). apply drop_app_length'.
    rewrite length_app. unfold blen in *. lia. }
  rewrite Hdrop in Hc by done. set (m := getMethodByte c).
  unfold compress, getHeaderSize, COMPRESSED_BLOCK_HEADER_SIZE.
  replace (write_bytes _ 0 _) with (Ret (m :: o1 ++ o2 ++ rest)) by (symmetry; by apply (write_bytes_app [] [b0] [m])).
  cbn [mbind outcome_bind].
  replace (on_tail _ 9 _) with (Ret (m :: o1 ++ o2 ++ over out rest, blen out)).
  2: { symmetry. pose proof (on_tail_app (m :: o1 ++ o2) rest 9 _ _ _ ltac:(blia) Hc) as E.
       simpl in E. by rewrite <- !app_assoc in E. }
  cbn [mbind outcome_bind].
  replace (store 4 _ 1 _) with (Ret (m :: le_split 4 (9 + blen out) ++ o2 ++ over out rest)).
  2: { symmetry. rewrite wrap_small, (Z.add_comm (blen out)) by zlia. by apply (store_app 4 [m] o1). }
  cbn [mbind outcome_bind].
  replace (store 4 _ 5 _) with (Ret (m :: le_split 4 (9 + blen out) ++ le_split 4 ssize ++ over out rest)).
  2: { symmetry. apply (store_app 4 (m :: le_split 4 (9 + blen out)) o2); [done|blia|done]. }
  cbn [mbind outcome_bind]. rewrite wrap_small by zlia. do 2 f_equal.
  unfold over, block. rewrite <- (Hdrop b0 o1 o2) at 1 by done. rewrite drop_drop.
  cbn [app length]. rewrite <- !app_assoc. do 5 f_equal.
Qed.
(** Decompression checks the header and hands the data over. *)
Lemma decompress_block c out n tail dest r :
  9 + blen out < 2 ^ 32 → 0 < n < 2 ^ 32 →
  doDecompressData c (out ++ tail) (blen out) dest n = Ret r →
  decompress c (block c out n ++ tail) (blen (block c out n)) dest = Ret (r, n).
Proof.
  intros Ho Hn Hd. pose proof (blen_nonneg out). unfold decompress, getHeaderSize, COMPRESSED_BLOCK_HEADER_SIZE.
  rewrite blen_block, throw_if_false by (apply Z.ltb_ge; lia). cbn [mbind outcome_bind].
  rewrite block_method. cbn [mbind outcome_bind].
  rewrite throw_if_false by (by rewrite Z.eqb_refl). cbn [mbind outcome_bind].
  rewrite (proj2 (block_sizes _ c out n tail Ho Hn)). cbn [mbind outcome_bind].
  assert (block c out n ++ tail = (getMethodByte c :: le_split 4 (9 + blen out) ++ le_split 4 n) ++ out ++ tail) as ->
    by (unfold block; cbn [app]; by rewrite <- !app_assoc).
  rewrite tail_at_app by (autorewrite with blen; lia). cbn [mbind outcome_bind].
  replace (9 + blen out - 9) with (blen out) by lia. by rewrite Hd.
Qed.

(** Compression and decompression of a whole block by a correct codec. *)
Lemma block_roundtrip c valid `{CodecCorrect c valid} source tail dest :
  is_bytes source → valid source → 0 < blen source < 2 ^ 32 →
  9 + getMaxCompressedDataSize c (blen source) < 2 ^ 32 →
  9 + getMaxCompressedDataSize c (blen source) ≤ blen dest →
  ∃ out,
    compress c (source ++ tail) (blen source) dest =
      Ret (over (block c out (blen source)) dest, blen (block c out (blen source))) ∧
    is_bytes out ∧ blen out ≤ getMaxCompressedDataSize c (blen source) ∧
    doCompressData c (source ++ tail) (blen source) (drop 9 dest) = Ret (over out (drop 9 dest), blen out) ∧
    undone_by c out source.
Proof.
  intros Hb Hv Hs Hmax Hd.
  destruct (codec_roundtrip source tail (drop 9 dest) Hb Hv) as (out & Hc & Ho & Hl & Hback); [blia|].
  exists out. split_and!; [|done..].
  rewrite blen_block. apply compress_block; [lia|lia|done].
Qed.

(** A block decompressed by a safe codec, whatever its bytes are. *)
Lemma decompress_safe c `{CodecSafe c} source source_size dest :
  is_bytes source → is_bytes dest → source_size < 2 ^ 32 → 0 ≤ getAdditionalSizeAtTheEndOfBuffer c →
  source_size + getAdditionalSizeAtTheEndOfBuffer c ≤ blen source →
  (∀ n, readDecompressedBlockSize (decompression_error_code c) source = Ret n →
    n + getAdditionalSizeAtTheEndOfBuffer c ≤ blen dest) →
  safe (decompress c source source_size dest) (λ r, blen r.1 = blen dest ∧ is_bytes r.1).
Proof.
  intros Hb Hd Hs Ha Hsrc Hsize. unfold decompress, getHeaderSize, COMPRESSED_BLOCK_HEADER_SIZE.
  destruct (Z.ltb_spec source_size 9) as [|Hge]; [done|]. cbn [throw_if mbind outcome_bind].
  destruct (load_safe 1 source 0 Hb) as (method & -> & _); [lia..|]. cbn [mbind outcome_bind].
  destruct (negb _); [done|]. cbn [throw_if mbind outcome_bind].
  unfold readDecompressedBlockSize in *.
  destruct (load_safe 4 source 5 Hb) as (n & E & Hn); [lia..|]. rewrite E in *. cbn [mbind outcome_bind] in *.
  destruct (Z.eqb_spec n 0) as [|Hn0]; [done|]. cbn [throw_if mbind outcome_bind] in *.
  destruct (tail_at_safe source 9) as (t & -> & _ & Ht & Htb); [lia|]. cbn [mbind outcome_bind].
  eapply safe_bind; [|by intros a Ha'; exact Ha'].
  apply codec_safe; auto with lia. all: specialize (Hsize n eq_refl); try lia.
Qed.
End blocks.

(** * Headers of the codecs for integers *)

(** The codecs for values of a fixed width start their data with the width, the number
    of bytes before the first whole value, and these bytes. *)
Definition skip_header (n : Z) (skipped : bytes) : bytes := [n; blen skipped] ++ skipped.

Section skip_headers.
Context {B : Type}.
Implicit Types (skipped tail dest : bytes).

Lemma blen_skip_header n skipped : blen (skip_header n skipped) = 2 + blen skipped.
Proof. unfold skip_header. blia. Qed.

Lemma skip_header_bytes n skipped :
  is_byte n → blen skipped < 256 → is_bytes skipped → is_bytes (skip_header n skipped).
Proof.
  intros Hn Hl Hb. unfold skip_header. pose proof (blen_nonneg skipped).
  constructor; [done|]. constructor; [unfold is_byte; lia|done].
Qed.

Lemma write_skip_header n k skipped tail dest (K : bytes → outcome B) :
  k = blen skipped → 2 + k ≤ blen dest →
  (d ← write_bytes dest 0 [n]; d ← write_bytes d 1 [k];
   s ← read_bytes (skipped ++ tail) 0 k; d ← write_bytes d 2 s; K d) =
  K (over (skip_header n skipped) dest).
Proof.
  intros -> Hd. pose proof (blen_nonneg skipped).
  rewrite write_first by blia. cbn [mbind outcome_bind].
  rewrite write_over by blia. cbn [mbind outcome_bind].
  rewrite (read_bytes_app [] skipped tail) by done. cbn [mbind outcome_bind].
  by rewrite write_over by blia.
Qed.

Lemma read_skip_header n k skipped tail dest (K : bytes → bytes → outcome B) :
  k = blen skipped → k ≤ blen dest →
  (s ← read_bytes (skip_header n skipped ++ tail) 2 k; d ← write_bytes dest 0 s;
   src ← tail_at (skip_header n skipped ++ tail) (2 + k); K d src) =
  K (over skipped dest) tail.
Proof.
  intros -> Hd. replace (read_bytes _ 2 _) with (Ret skipped).
  2: { symmetry. unfold skip_header. rewrite <- app_assoc. by apply read_bytes_app. }
  cbn [mbind outcome_bind].
  rewrite write_first by done. cbn [mbind outcome_bind].
  by rewrite tail_at_app by (by rewrite blen_skip_header).
Qed.

Lemma load_skip_header n skipped tail : load 1 (skip_header n skipped ++ tail) 0 = Ret n.
Proof. apply load_first. Qed.
End skip_headers.

(** * NONE *)

#[global] Instance None_correct ec : CodecCorrect (CompressionCodecNone ec) (λ _, True).
Proof.
  split; [unfold is_byte; simpl; lia|simpl; lia|]. intros source tail dest Hb _ Hmax. simpl in *.
  exists source. unfold None_doCompressData, undone_by. simpl.
  rewrite (read_bytes_app [] source tail) by done. cbn [mbind outcome_bind].
  rewrite (write_at [] dest source) by done. split_and!; [done|done|done|].
  intros tail' dest' _ Hd. exists (drop (length source) dest'). unfold None_doDecompressData.
  rewrite throw_if_false by (by rewrite Z.eqb_refl). cbn [mbind outcome_bind].
  rewrite (read_bytes_app [] source tail') by done. cbn [mbind outcome_bind].
  rewrite (write_at [] dest' source) by (done || lia). split; [done|]. apply blen_over. lia.
Qed.

#[global] Instance None_safe ec : CodecSafe (CompressionCodecNone ec).
Proof.
  split. intros source ssize dest n Hb Hd Hs _ Hsrc Hn _ Hdst. simpl in *. unfold None_doDecompressData.
  destruct (Z.eqb_spec ssize n) as [->|]; [|done]. cbn [negb throw_if mbind outcome_bind].
  destruct (read_bytes_safe source 0 n) as (bs & -> & Hl & Hbs); [lia..|]. cbn [mbind outcome_bind].
  destruct (write_bytes_safe dest 0 bs) as (d' & -> & Hl' & Hb'); [lia..|]. simpl. auto.
Qed.

(** * Multiple *)

(** The codec the factory returns for a method byte may have other parameters than
    the one that wrote the block; it has to undo what that one wrote. *)
Record decodes_like (c' c : codec) : Prop := {
  like_method : getMethodByte c' = getMethodByte c;
  like_additional : getAdditionalSizeAtTheEndOfBuffer c' = getAdditionalSizeAtTheEndOfBuffer c;
  like_undone out source : undone_by c out source → undone_by c' out source;
}.

(** Room for the bytes that codecs ask for at the end of buffers. *)
Definition max_additional : Z := 4096.

(** Each codec of the list accepts what the codec before it made of the source,
    and every block is within the limits of [doDecompressData]. [bound] is the size
    that [getMaxCompressedDataSize] reserved for the source of the list. *)
Inductive chain : list codec → Z → bytes → Prop :=
| chain_nil bound source :
    is_bytes source → blen source ≤ bound →
    blen source + max_additional < DBMS_MAX_COMPRESSED_SIZE → chain [] bound source
| chain_cons c codecs (valid : bytes → Prop) bound source :
    CodecCorrect c valid → valid source → is_bytes source → 0 < blen source ≤ bound →
    blen source + max_additional < DBMS_MAX_COMPRESSED_SIZE →
    getAdditionalSizeAtTheEndOfBuffer c ≤ max_additional →
    9 + getMaxCompressedDataSize c bound < 2 ^ 32 →
    (∀ n, 0 < n ≤ bound → 0 ≤ getMaxCompressedDataSize c n ≤ getMaxCompressedDataSize c bound) →
    (∀ out, is_bytes out → blen out ≤ getMaxCompressedDataSize c (blen source) →
      undone_by c out source →
      chain codecs (9 + getMaxCompressedDataSize c bound) (block c out (blen source))) →
    chain (c :: codecs) bound source.

Section multiple_proofs.
Context `{FreshMemory}.
Context (factory_get : Z → outcome codec).

Lemma blen_resize n buf : 0 ≤ n → blen (resize n buf) = n.
Proof.
  intros. unfold resize. unfold blen. rewrite length_app, length_take, fresh_length. lia.
Qed.

Lemma resize_bytes n buf : is_bytes buf → is_bytes (resize n buf).
Proof. intros. apply Forall_app. auto using Forall_take, fresh_bytes. Qed.

Lemma resize_grow n buf : blen buf ≤ n → resize n buf = buf ++ fresh (Z.to_nat n - length buf).
Proof. intros. unfold resize. rewrite take_ge; [done|]. unfold blen in *. lia. Qed.

Lemma reserve_small c n :
  0 ≤ getMaxCompressedDataSize c n → 9 + getMaxCompressedDataSize c n < 2 ^ 32 →
  getCompressedReserveSize c n = 9 + getMaxCompressedDataSize c n.
Proof. intros. apply wrap_small. unfold getHeaderSize, COMPRESSED_BLOCK_HEADER_SIZE. zlia. Qed.

(** One codec of the list undone. *)
Lemma decompress_step_block ec c source idx decompressed_size src out tail ubuf c' :
  load 1 source (idx + 1) = Ret (getMethodByte c) →
  factory_get (getMethodByte c) = Ret c' → decodes_like c' c →
  0 ≤ getAdditionalSizeAtTheEndOfBuffer c ≤ max_additional →
  0 < blen src → blen src + max_additional < DBMS_MAX_COMPRESSED_SIZE →
  blen (block c out (blen src) ++ tail) < DBMS_MAX_COMPRESSED_SIZE →
  (idx = 0 → decompressed_size = blen src) →
  undone_by c out src →
  ∃ tail' ubuf', Multiple_decompress_step factory_get ec source idx decompressed_size
      (block c out (blen src) ++ tail) ubuf (blen (block c out (blen src))) =
      Ret (src ++ tail', ubuf', blen src) ∧
    blen (src ++ tail') ≤ blen src + max_additional.
Proof.
  intros Hm Hf [Hlm Hla Hld] Ha Hs Hs2 Hblk Hidx Hback. unfold Multiple_decompress_step.
  rewrite Hm. cbn [mbind outcome_bind]. rewrite Hf. cbn [mbind outcome_bind]. rewrite Hla.
  unfold DBMS_MAX_COMPRESSED_SIZE, max_additional in *.
  rewrite throw_if_false by (apply Z.leb_gt; lia). cbn [mbind outcome_bind].
  rewrite throw_if_false by (apply Z.leb_gt; zlia). cbn [mbind outcome_bind].
  rewrite resize_grow, <- app_assoc by lia. pose proof (blen_nonneg out).
  rewrite (proj2 (block_sizes ec c out (blen src) _ ltac:(rewrite blen_app, blen_block in Hblk; blia) ltac:(zlia))).
  cbn [mbind outcome_bind].
  rewrite throw_if_false by (apply Z.leb_gt; lia). cbn [mbind outcome_bind].
  rewrite throw_if_false.
  2: { destruct (Z.eqb_spec idx 0); [|done]. rewrite Hidx by done. by rewrite Z.eqb_refl. }
  cbn [mbind outcome_bind]. rewrite throw_if_false by (apply Z.leb_gt; zlia). cbn [mbind outcome_bind].
  set (ubuf1 := resize _ ubuf). set (tail1 := tail ++ _).
  destruct (Hld _ _ Hback tail1 ubuf1) as (extra & Hdec & Hlen); rewrite ?Hla.
  - unfold tail1. unfold blen. rewrite length_app, fresh_length, !length_app. unfold blen. lia.
  - unfold ubuf1. rewrite blen_resize by lia. lia.
  - assert (block c out (blen src) = block c' out (blen src)) as -> by (unfold block; by rewrite Hlm).
    rewrite (decompress_block c' out (blen src) tail1 ubuf1 (src ++ extra));
      [|rewrite blen_app, blen_block in Hblk; blia|zlia|done].
    cbn [mbind outcome_bind]. eexists _, _. split; [done|].
    rewrite Hlen. unfold ubuf1. rewrite blen_resize; lia.
Qed.

(** The loops: compression leaves a block that the decompression loop takes back to
    the source. *)
Lemma Multiple_loops codecs bound source :
  chain codecs bound source →
  (∀ c, c ∈ codecs → ∃ c', factory_get (getMethodByte c) = Ret c' ∧ decodes_like c' c) →
  ∀ pos pre old tail cbuf,
  pos = blen pre → Z.of_nat (length codecs) ≤ blen old →
  ∃ final tail',
    Multiple_compress_loop codecs pos (pre ++ old) (source ++ tail) cbuf (blen source) =
      Ret (pre ++ over (getMethodByte <$> codecs) old, final ++ tail', blen final) ∧
    is_bytes (getMethodByte <$> codecs) ∧
    is_bytes final ∧ blen final + max_additional < DBMS_MAX_COMPRESSED_SIZE ∧
    blen final ≤ foldl (λ n c, getCompressedReserveSize c n) bound codecs ∧
    ∀ ec msource k decompressed_size t ubuf,
      (∀ i c, codecs !! i = Some c → load 1 msource (Z.of_nat (k + i) + 1) = Ret (getMethodByte c)) →
      (k = O → decompressed_size = blen source) →
      blen (final ++ t) < DBMS_MAX_COMPRESSED_SIZE →
      ∃ t' ubuf', Multiple_decompress_loop factory_get ec msource (k + length codecs) decompressed_size
          (final ++ t) ubuf (blen final) =
        Multiple_decompress_loop factory_get ec msource k decompressed_size (source ++ t') ubuf' (blen source) ∧
        blen (source ++ t') < DBMS_MAX_COMPRESSED_SIZE.
Proof.
  induction 1 as [bound source Hb Hsz Hlim|c codecs valid bound source Hc Hv Hb Hsz Hlim Hadd Hmax Hmono _ IH];
    intros Hget pos pre old tail cbuf Hpos Hold.
  - exists source, tail. simpl. rewrite over_nil. split_and!; [done|constructor|done..|].
    intros ec msource k dsize t ubuf _ _ Ht. exists t, ubuf. by rewrite Nat.add_0_r.
  - cbn [Multiple_compress_loop length] in *. rewrite (write_at pre old) by (done || blia).
    cbn [mbind outcome_bind].
    pose proof (Hmono (blen source) ltac:(lia)) as Hm.
    set (cbuf1 := resize _ cbuf).
    assert (blen cbuf1 = 9 + getMaxCompressedDataSize c (blen source)) as Hcb.
    { unfold cbuf1. rewrite reserve_small by lia. apply blen_resize. lia. }
    unfold DBMS_MAX_COMPRESSED_SIZE, max_additional in *.
    destruct (block_roundtrip c valid source tail cbuf1 Hb Hv) as (out & -> & Ho & Hol & _ & Hun); [zlia|lia|lia|].
    cbn [mbind outcome_bind]. set (blk := block c out (blen source)) in *.
    destruct (IH out Ho Hol Hun ltac:(intros; apply Hget; by right) (pos + 1) (pre ++ [getMethodByte c])
      (drop 1 old) (drop (length blk) cbuf1) (source ++ tail))
      as (final & tail' & Hcomp & Hmb & Hfb & Hflim & Hfold & Hback); [blia|blia|].
    exists final, tail'. split_and!; [|constructor; [by apply codec_method|done]|done|done|..].
    + fold blk in Hcomp. change (over [getMethodByte c] old) with ([getMethodByte c] ++ drop 1 old).
      rewrite (app_assoc pre). unfold over at 1. rewrite Hcomp. do 3 f_equal.
      rewrite <- app_assoc. f_equal. unfold over. cbn [fmap list_fmap length app]. by rewrite drop_drop.
    + cbn [foldl]. rewrite reserve_small by (pose proof (Hmono bound ltac:(lia)); lia). lia.
    + intros ec msource k dsize t ubuf Hmeth Hk Ht.
      replace (k + S (length codecs))%nat with (S k + length codecs)%nat by lia.
      destruct (Hback ec msource (S k) dsize t ubuf) as (t' & ubuf' & -> & Ht'); [|lia|done|].
      { intros i c' Hi. replace (S k + i)%nat with (k + S i)%nat by lia. by apply (Hmeth (S i)). }
      destruct (Hget c ltac:(by left)) as (c' & Hf & Hlike).
      cbn [Multiple_decompress_loop].
      destruct (decompress_step_block ec c msource (Z.of_nat k) dsize source out t' ubuf' c')
        as (t2 & ubuf2 & -> & Ht2); try done; unfold max_additional, DBMS_MAX_COMPRESSED_SIZE in *; try lia.
      { rewrite <- (Nat.add_0_r k). by apply (Hmeth 0%nat). }
      { pose proof (@codec_additional c valid Hc). lia. }
      cbn [mbind outcome_bind]. exists t2, ubuf2. split; [done|lia].
Qed.

(** What the codec writes: the number of codecs, their method bytes, the last block. *)
Definition multiple_data (codecs : list codec) (final : bytes) : bytes :=
  (Z.of_nat (length codecs) :: (getMethodByte <$> codecs)) ++ final.

Lemma blen_multiple_data codecs final :
  blen (multiple_data codecs final) = 1 + Z.of_nat (length codecs) + blen final.
Proof. unfold multiple_data. rewrite blen_app, blen_cons. unfold blen. rewrite length_fmap. lia. Qed.

Lemma multiple_data_method codecs final tail i c :
  codecs !! i = Some c →
  load 1 (multiple_data codecs final ++ tail) (Z.of_nat i + 1) = Ret (getMethodByte c).
Proof.
  intros Hi. destruct (list_elem_of_split_length _ _ _ Hi) as (l1 & l2 & -> & ->).
  unfold multiple_data. rewrite fmap_app, fmap_cons.
  set (n := Z.of_nat (length (l1 ++ c :: l2))).
  transitivity (Ret (le_combine [getMethodByte c])); [|simpl; f_equal; lia].
  rewrite <- app_assoc, app_comm_cons, <- app_assoc.
  apply (load_app 1 _ [getMethodByte c]); [|done].
  rewrite blen_cons. unfold blen. rewrite length_fmap. lia.
Qed.

Lemma Multiple_undo ec codecs source final tail dest :
  codecs ≠ [] → blen source ≤ blen dest →
  (∃ t' ubuf', Multiple_decompress_loop factory_get ec (multiple_data codecs final ++ tail)
      (length codecs) (blen source) final [] (blen final) =
    Multiple_decompress_loop factory_get ec (multiple_data codecs final ++ tail) 0 (blen source)
      (source ++ t') ubuf' (blen source)) →
  Multiple_doDecompressData factory_get ec (multiple_data codecs final ++ tail)
    (blen (multiple_data codecs final)) dest (blen source) = Ret (over source dest).
Proof.
  intros Hne Hd (t' & ubuf' & Hloop). unfold Multiple_doDecompressData. pose proof (blen_nonneg final).
  assert (length codecs ≠ 0)%nat by (by destruct codecs). set (k := length codecs) in *.
  rewrite blen_multiple_data, throw_if_false by (apply Z.ltb_ge; lia). cbn [mbind outcome_bind].
  replace (load 1 _ 0) with (Ret (Z.of_nat k)).
  2: { symmetry. transitivity (Ret (le_combine [Z.of_nat k])); [by apply (load_app 1 [] [Z.of_nat k])|].
       simpl. f_equal. lia. }
  fold k. cbn [mbind outcome_bind]. rewrite (throw_if_false (Z.of_nat k =? 0)) by (apply Z.eqb_neq; lia). cbn [mbind outcome_bind].
  rewrite throw_if_false by (apply Z.ltb_ge; lia). cbn [mbind outcome_bind].
  replace (1 + Z.of_nat k + blen final - (Z.of_nat k + 1)) with (blen final) by lia.
  replace (read_bytes _ (Z.of_nat k + 1) _) with (Ret final).
  2: { symmetry. unfold multiple_data. rewrite <- app_assoc. apply read_bytes_app; [|done].
       rewrite blen_cons. unfold blen. rewrite length_fmap. lia. }
  cbn [mbind outcome_bind]. rewrite Nat2Z.id, Hloop. cbn [Multiple_decompress_loop mbind outcome_bind].
  rewrite (read_bytes_app [] source t') by done. cbn [mbind outcome_bind].
  by rewrite (write_at [] dest) by (done || lia).
Qed.

Lemma Multiple_compress ec codecs source tail dest :
  codecs ≠ [] → (length codecs ≤ 255)%nat →
  (∀ c, c ∈ codecs → ∃ c', factory_get (getMethodByte c) = Ret c' ∧ decodes_like c' c) →
  chain codecs (blen source) source →
  0 ≤ foldl (λ n c, getCompressedReserveSize c n) (blen source) codecs < 2 ^ 32 - 256 →
  Multiple_getMaxCompressedDataSize codecs (blen source) ≤ blen dest →
  ∃ out,
    Multiple_doCompressData codecs (source ++ tail) (blen source) dest = Ret (over out dest, blen out) ∧
    is_bytes out ∧ blen out ≤ Multiple_getMaxCompressedDataSize codecs (blen source) ∧
    undone_by (CompressionCodecMultiple factory_get ec codecs) out source.
Proof.
  intros Hne H255 Hget Hchain Hfold Hmax. unfold Multiple_getMaxCompressedDataSize in *.
  rewrite wrap_small in * by zlia. set (k := length codecs) in *.
  assert (k ≠ 0)%nat by (unfold k; by destruct codecs).
  destruct (Multiple_loops codecs (blen source) source Hchain Hget 1 [Z.of_nat k] (drop 1 dest) [] [])
    as (final & tail' & Hcomp & Hmb & Hfb & Hlim & Hfl & Hback); [done|fold k; blia|].
  pose proof (blen_nonneg final). exists (multiple_data codecs final). split_and!.
  - unfold Multiple_doCompressData. rewrite (read_bytes_app [] source tail) by done. cbn [mbind outcome_bind].
    fold k. rewrite wrap_small by zlia. rewrite (write_at [] dest) by blia. cbn [mbind outcome_bind].
    rewrite app_nil_r in Hcomp. unfold over at 1. cbn [app length] in *. rewrite Hcomp. cbn [mbind outcome_bind].
    rewrite (read_bytes_app [] final tail') by done. cbn [mbind outcome_bind].
    unfold over at 1. rewrite app_comm_cons, write_at;
      [|rewrite blen_cons; unfold blen; rewrite length_fmap; fold k; lia
       |rewrite length_fmap, drop_drop, blen_drop; fold k; lia].
    cbn [mbind outcome_bind]. rewrite blen_multiple_data, wrap_small by (fold k; zlia). do 2 f_equal.
    rewrite drop_drop. symmetry. apply (over_app (Z.of_nat k :: (getMethodByte <$> codecs)) final dest).
  - apply Forall_app. split; [constructor; [unfold is_byte; lia|done]|done].
  - rewrite blen_multiple_data. fold k. lia.
  - intros t dest' _ Hd. simpl in *. exists (drop (length source) dest'). split; [|apply blen_over; lia].
    apply Multiple_undo; [done|lia|].
    destruct (Hback ec (multiple_data codecs final ++ t) O (blen source) [] []) as (t' & ubuf' & Hloop & _);
      [by apply multiple_data_method|done|rewrite app_nil_r; unfold max_additional in *; lia|].
    rewrite app_nil_r in Hloop. eauto.
Qed.
End multiple_proofs.

(** * Theorems *)

(** [compress] with any codec that keeps the codec contract writes, within
    [getCompressedReserveSize] bytes, a block whose header [readMethod],
    [readCompressedBlockSize] and [readDecompressedBlockSize] read back as the method
    byte, the returned size and the size of the source, and [decompress] of that block,
    whatever follows it in memory, returns the source. *)
Theorem codec_block_roundtrip (c : codec) (valid : bytes → Prop) `{CodecCorrect c valid}
    (source tail dest dest' : bytes) :
  is_bytes source → valid source → 0 < blen source < 2 ^ 32 →
  0 ≤ getMaxCompressedDataSize c (blen source) → 9 + getMaxCompressedDataSize c (blen source) < 2 ^ 32 →
  getCompressedReserveSize c (blen source) ≤ blen dest →
  getAdditionalSizeAtTheEndOfBuffer c ≤ blen tail →
  blen source + getAdditionalSizeAtTheEndOfBuffer c ≤ blen dest' →
  ∃ blk extra,
    compress c source (blen source) dest = Ret (over blk dest, blen blk) ∧
    blen blk ≤ getCompressedReserveSize c (blen source) ∧
    readMethod (blk ++ tail) = Ret (getMethodByte c) ∧
    readCompressedBlockSize (decompression_error_code c) (blk ++ tail) = Ret (blen blk) ∧
    readDecompressedBlockSize (decompression_error_code c) (blk ++ tail) = Ret (blen source) ∧
    decompress c (blk ++ tail) (blen blk) dest' = Ret (source ++ extra, blen source).
Proof.
  intros Hb Hv Hs H0 Hmax Hd Ht Hd'. rewrite reserve_small in * by done.
  destruct (block_roundtrip c valid source [] dest Hb Hv Hs Hmax Hd) as (out & Hc & Ho & Hl & _ & Hun).
  rewrite app_nil_r in Hc. destruct (Hun tail dest' Ht Hd') as (extra & Hdec & _).
  exists (block c out (blen source)), extra. rewrite Hc, blen_block.
  pose proof (block_sizes (decompression_error_code c) c out (blen source) tail ltac:(lia) Hs) as [-> ->].
  split_and!; [done|lia|apply block_method|done|done|].
  rewrite <- (blen_block c out (blen source)). by apply decompress_block; [lia| |].
Qed.

Lemma codec_block_roundtrip_witness :
  ∃ blk extra,
    compress (CompressionCodecNone CORRUPTED_DATA) [10; 20; 30] (blen [10; 20; 30]) (replicate 12 0) =
      Ret (over blk (replicate 12 0), blen blk) ∧
    blen blk ≤ getCompressedReserveSize (CompressionCodecNone CORRUPTED_DATA) (blen [10; 20; 30]) ∧
    readMethod (blk ++ []) = Ret 0x02 ∧
    readCompressedBlockSize CORRUPTED_DATA (blk ++ []) = Ret (blen blk) ∧
    readDecompressedBlockSize CORRUPTED_DATA (blk ++ []) = Ret (blen [10; 20; 30]) ∧
    decompress (CompressionCodecNone CORRUPTED_DATA) (blk ++ []) (blen blk) (replicate 3 0) =
      Ret ([10; 20; 30] ++ extra, blen [10; 20; 30]).
Proof.
  apply (codec_block_roundtrip (CompressionCodecNone CORRUPTED_DATA) (λ _, True) [10; 20; 30] []);
    [by apply is_bytes_compute|done|vm_compute; done..].
Defined.

(** [decompress] with any codec that keeps the safety contract, given any bytes as a
    block and a destination as large as the block's header says, returns or throws: it
    neither reads nor writes outside of its buffers. *)
Theorem codec_decompress_never_ub (c : codec) `{CodecSafe c} (source dest : bytes) (source_size : Z) :
  is_bytes source → is_bytes dest → 0 ≤ source_size < 2 ^ 32 → 0 ≤ getAdditionalSizeAtTheEndOfBuffer c →
  source_size + getAdditionalSizeAtTheEndOfBuffer c ≤ blen source →
  (∀ n, readDecompressedBlockSize (decompression_error_code c) source = Ret n →
    n + getAdditionalSizeAtTheEndOfBuffer c ≤ blen dest) →
  safe (decompress c source source_size dest) (λ r, blen r.1 = blen dest ∧ is_bytes r.1).
Proof. intros ?? [? ?] ???. by apply decompress_safe. Qed.

Lemma codec_decompress_never_ub_witness :
  safe (decompress (CompressionCodecNone CORRUPTED_DATA) [2; 9; 0; 0; 0; 7; 0; 0; 0; 1] 10 (replicate 7 0))
    (λ r, blen r.1 = blen (replicate 7 0) ∧ is_bytes r.1).
Proof.
  apply (codec_decompress_never_ub (CompressionCodecNone CORRUPTED_DATA));
    [by apply is_bytes_compute..|lia|done|done|].
  intros n Hn. vm_compute in Hn. injection Hn as <-. done.
Defined.

(** The codec Multiple over any list of 1 to 255 correct codecs, each of which accepts
    the block that the codec before it makes: [compress] stays within the reserved size
    and [decompress], which asks the factory for every codec by its method byte, gives
    the source back. *)
Theorem multiple_roundtrip `{FreshMemory} (factory_get : Z → outcome codec) (ec : ErrorCode)
    (codecs : list codec) (source tail dest dest' : bytes) :
  codecs ≠ [] → (length codecs ≤ 255)%nat →
  (∀ c, c ∈ codecs → ∃ c', factory_get (getMethodByte c) = Ret c' ∧ decodes_like c' c) →
  chain codecs (blen source) source → 0 < blen source < 2 ^ 32 →
  0 ≤ foldl (λ n c, getCompressedReserveSize c n) (blen source) codecs < 2 ^ 32 - 265 →
  getCompressedReserveSize (CompressionCodecMultiple factory_get ec codecs) (blen source) ≤ blen dest →
  blen source ≤ blen dest' →
  ∃ blk extra,
    compress (CompressionCodecMultiple factory_get ec codecs) source (blen source) dest =
      Ret (over blk dest, blen blk) ∧
    blen blk ≤ getCompressedReserveSize (CompressionCodecMultiple factory_get ec codecs) (blen source) ∧
    decompress (CompressionCodecMultiple factory_get ec codecs) (blk ++ tail) (blen blk) dest' =
      Ret (source ++ extra, blen source).
Proof.
  intros Hne H255 Hget Hchain Hs Hfold Hd Hd'. set (c := CompressionCodecMultiple factory_get ec codecs) in *.
  assert (getMaxCompressedDataSize c (blen source) =
    1 + Z.of_nat (length codecs) + foldl (λ n c, getCompressedReserveSize c n) (blen source) codecs) as Hm
    by (apply wrap_small; zlia).
  rewrite reserve_small in * by lia.
  destruct (Multiple_compress factory_get ec codecs source [] (drop 9 dest) Hne H255 Hget Hchain)
    as (out & Hc & Ho & Hl & Hun); [lia|change (getMaxCompressedDataSize c (blen source) ≤ blen (drop 9 dest)); blia|].
  change (blen out ≤ getMaxCompressedDataSize c (blen source)) in Hl. rewrite app_nil_r in Hc.
  destruct (Hun tail dest' (blen_nonneg _) ltac:(simpl; lia)) as (extra & Hdec & _).
  exists (block c out (blen source)), extra. rewrite blen_block. split_and!.
  - apply compress_block; [lia|lia|done].
  - lia.
  - rewrite <- (blen_block c out (blen source)). by apply decompress_block; [lia| |].
Qed.

#[local, refine] Instance zero_memory : FreshMemory := {| fresh n := replicate n 0 |}.
Proof.
  - intros n. apply length_replicate.
  - intros n. apply Forall_replicate. unfold is_byte. lia.
Defined.

Lemma None_chain ec n source bound :
  is_bytes source → 0 < blen source ≤ bound → bound + 9 * Z.of_nat n + max_additional < DBMS_MAX_COMPRESSED_SIZE →
  chain (replicate n (CompressionCodecNone ec)) bound source.
Proof.
  unfold max_additional, DBMS_MAX_COMPRESSED_SIZE.
  revert source bound. induction n as [|n IH]; intros source bound Hb Hs Hlim; simpl.
  - constructor; unfold max_additional, DBMS_MAX_COMPRESSED_SIZE; auto; lia.
  - apply chain_cons with (valid := λ _, True); unfold max_additional, DBMS_MAX_COMPRESSED_SIZE; simpl; auto.
    + typeclasses eauto.
    + lia.
    + lia.
    + zlia.
    + lia.
    + intros out Ho Hl _. apply IH; [by apply block_bytes|rewrite blen_block; blia|lia].
Qed.

Lemma None_like ec ec' : decodes_like (CompressionCodecNone ec') (CompressionCodecNone ec).
Proof.
  split; [done|done|]. intros out source Hun tail dest Ht Hd.
  destruct (Hun tail dest Ht Hd) as (extra & Hdec & Hl). exists extra. split; [|done].
  simpl in *. unfold None_doDecompressData in *. by destruct (negb _).
Qed.

Lemma multiple_roundtrip_witness :
  let get := λ m, if m =? 2 then Ret (CompressionCodecNone CANNOT_DECOMPRESS) else Throw UNKNOWN_CODEC in
  let c := CompressionCodecMultiple get CORRUPTED_DATA (replicate 2 (CompressionCodecNone CORRUPTED_DATA)) in
  ∃ blk extra,
    compress c [10; 20; 30] (blen [10; 20; 30]) (replicate 33 0) = Ret (over blk (replicate 33 0), blen blk) ∧
    blen blk ≤ getCompressedReserveSize c (blen [10; 20; 30]) ∧
    decompress c (blk ++ [99]) (blen blk) (replicate 3 0) = Ret ([10; 20; 30] ++ extra, blen [10; 20; 30]).
Proof.
  intros get c.
  apply (multiple_roundtrip get CORRUPTED_DATA (replicate 2 (CompressionCodecNone CORRUPTED_DATA))
    [10; 20; 30] [99] (replicate 33 0) (replicate 3 0)); [done|simpl; lia| | |vm_compute; done..].
  - intros c' Hc'. apply elem_of_replicate in Hc' as [-> _].
    exists (CompressionCodecNone CANNOT_DECOMPRESS). split; [done|]. apply None_like.
  - apply None_chain; [by apply is_bytes_compute|vm_compute; done|vm_compute; done].
Defined.

(** Data of the codec Multiple that ends less than nine bytes after the list of method
    bytes makes [doDecompressData] read the size field of a block header outside of the
    array that holds the data: there is no check that the array has a header. *)
Theorem multiple_short_data_ub `{FreshMemory} (factory_get : Z → outcome codec) (ec : ErrorCode)
    (m : Z) (c : codec) (data dest : bytes) (decompressed_size : Z) :
  factory_get m = Ret c → getAdditionalSizeAtTheEndOfBuffer c = 0 → blen data < 9 →
  Multiple_doDecompressData factory_get ec ([1; m] ++ data) (2 + blen data) dest decompressed_size = UB.
Proof.
  intros Hget Ha Hd. unfold Multiple_doDecompressData. pose proof (blen_nonneg data).
  rewrite (throw_if_false (2 + blen data <? 1)) by (apply Z.ltb_ge; lia). cbn [mbind outcome_bind].
  replace (load 1 _ 0) with (Ret (A:=Z) 1) by (symmetry; by apply (load_app 1 [] [1])).
  cbn [mbind outcome_bind throw_if Z.eqb].
  rewrite (throw_if_false (2 + blen data <? 1 + 1)) by (apply Z.ltb_ge; lia). cbn [mbind outcome_bind].
  replace (read_bytes _ (1 + 1) _) with (Ret data).
  2: { symmetry. pose proof (read_bytes_app [1; m] data [] 2 (2 + blen data - (1 + 1))) as E.
       rewrite app_nil_r in E. apply E; [done|lia]. }
  cbn [mbind outcome_bind]. change (Z.to_nat 1) with 1%nat. cbn [Multiple_decompress_loop].
  unfold Multiple_decompress_step.
  replace (load 1 _ (Z.of_nat 0 + 1)) with (Ret m).
  2: { symmetry. transitivity (Ret (le_combine [m])); [by apply (load_app 1 [1] [m])|]. simpl. f_equal. lia. }
  cbn [mbind outcome_bind]. rewrite Hget. cbn [mbind outcome_bind]. rewrite Ha.
  rewrite (throw_if_false (DBMS_MAX_COMPRESSED_SIZE <=? blen data)) by (unfold DBMS_MAX_COMPRESSED_SIZE; apply Z.leb_gt; lia).
  cbn [mbind outcome_bind].
  rewrite (throw_if_false (2 ^ 32 <=? blen data + 0)) by (apply Z.leb_gt; zlia). cbn [mbind outcome_bind].
  unfold readDecompressedBlockSize, load, read_bytes. rewrite blen_resize by lia.
  rewrite (proj2 (Z.leb_gt (5 + 4) (blen data + 0))) by lia. by rewrite andb_false_r.
Qed.

Lemma multiple_short_data_ub_witness :
  Multiple_doDecompressData (λ _, Ret (CompressionCodecNone CORRUPTED_DATA)) CORRUPTED_DATA
    ([1; 2] ++ [2; 9; 0; 0; 0]) (2 + blen [2; 9; 0; 0; 0]) [0] 1 = UB.
Proof. by apply (multiple_short_data_ub _ CORRUPTED_DATA 2 (CompressionCodecNone CORRUPTED_DATA)). Defined.
