(* ===== verification/CodecDelta.v ===== *)
(** The codec Delta (src/src/Compression/CompressionCodecDelta.cpp): differences of
    consecutive integers of 1, 2, 4 or 8 bytes. *)

From S2P Require Import Prelude CodecBase.
From stdpp Require Import base tactics list numbers.
Local Open Scope Z_scope.

(** The sizes for which the codecs instantiate their templates. *)
Definition valid_size (n : Z) : bool := (n =? 1) || (n =? 2) || (n =? 4) || (n =? 8).

Module Delta.

Definition getMaxCompressedDataSize (uncompressed_size : Z) : Z := u32 (uncompressed_size + 2).

(** The loop of [compressDataForType<T>]; [source] and [dest] are offsets. *)
Fixpoint compress_loop (w : Z) (fuel : nat) (mem : bytes) (source source_end : Z) (dmem : bytes) (dest : Z)
  (prev_src : Z) : outcome bytes :=
  if source <? source_end then
    match fuel with
    | O => OutOfFuel
    | S fuel =>
        curr_src ← load w mem source;
        dmem ← store w dmem dest (wrap w (curr_src - prev_src));
        compress_loop w fuel mem (source + w) source_end dmem (dest + w) curr_src
    end
  else Ret dmem.

(** Every iteration reads at least one byte of the source. *)
Definition compressDataForType (w : Z) (source : bytes) (source_size : Z) (dest : bytes) : outcome bytes :=
  _ ← throw_if (negb (source_size mod w =? 0)) CANNOT_COMPRESS;
  compress_loop w (Z.to_nat source_size) source 0 source_size dest 0 0.

Fixpoint decompress_loop (w : Z) (fuel : nat) (mem : bytes) (source source_end : Z) (dmem : bytes)
  (dest output_end : Z) (accumulator : Z) : outcome bytes :=
  if source <? source_end then
    match fuel with
    | O => OutOfFuel
    | S fuel =>
        x ← load w mem source;
        let accumulator := wrap w (accumulator + x) in
        _ ← throw_if (output_end <? dest + w) CANNOT_DECOMPRESS;
        dmem ← store w dmem dest accumulator;
        decompress_loop w fuel mem (source + w) source_end dmem (dest + w) output_end accumulator
    end
  else Ret dmem.

Definition decompressDataForType (w : Z) (source : bytes) (source_size : Z) (dest : bytes) (output_size : Z)
  : outcome bytes :=
  _ ← throw_if (negb (source_size mod w =? 0)) CANNOT_DECOMPRESS;
  decompress_loop w (Z.to_nat source_size) source 0 source_size dest 0 output_size 0.

Definition doCompressData (delta_bytes_size : Z) (source : bytes) (source_size : Z) (dest : bytes)
  : outcome (bytes * Z) :=
  _ ← ub_unless (negb (delta_bytes_size =? 0));
  let bytes_to_skip := u8 (source_size mod delta_bytes_size) in
  dest ← write_bytes dest 0 [delta_bytes_size];
  dest ← write_bytes dest 1 [bytes_to_skip];
  skipped ← read_bytes source 0 bytes_to_skip;
  dest ← write_bytes dest 2 skipped;
  let start_pos := 2 + bytes_to_skip in
  '(dest, _) ←
    (if valid_size delta_bytes_size then
       src ← tail_at source bytes_to_skip;
       on_tail dest start_pos (λ d,
         d ← compressDataForType delta_bytes_size src (source_size - bytes_to_skip) d; Ret (d, tt))
     else Ret (dest, tt));
  Ret (dest, u32 (1 + 1 + source_size)).

Definition doDecompressData (source : bytes) (source_size : Z) (dest : bytes) (uncompressed_size : Z)
  : outcome bytes :=
  _ ← throw_if (source_size <? 2) CANNOT_DECOMPRESS;
  if uncompressed_size =? 0 then Ret dest else
  bytes_size ← load 1 source 0;
  _ ← throw_if (negb (valid_size bytes_size)) CANNOT_DECOMPRESS;
  let bytes_to_skip := u8 (uncompressed_size mod bytes_size) in
  let output_size := u32 (uncompressed_size - bytes_to_skip) in
  _ ← throw_if (source_size <? u32 (2 + bytes_to_skip)) CANNOT_DECOMPRESS;
  skipped ← read_bytes source 2 bytes_to_skip;
  dest ← write_bytes dest 0 skipped;
  let source_size_no_header := u32 (source_size - bytes_to_skip - 2) in
  src ← tail_at source (2 + bytes_to_skip);
  '(dest, _) ← on_tail dest bytes_to_skip (λ d,
    d ← decompressDataForType bytes_size src source_size_no_header d output_size; Ret (d, tt));
  Ret dest.

Definition codec (ec : ErrorCode) (delta_bytes_size : Z) : codec := {|
  getMethodByte := method_byte CodecBase.Delta;
  CodecBase.doCompressData := doCompressData delta_bytes_size;
  CodecBase.doDecompressData := doDecompressData;
  CodecBase.getMaxCompressedDataSize := getMaxCompressedDataSize;
  getAdditionalSizeAtTheEndOfBuffer := 0;
  decompression_error_code := ec;
|}.

(** * What the loops compute *)

(** Differences modulo [2 ^ (8 * w)], and their running sums. *)
Fixpoint deltas (w : Z) (prev : Z) (vs : list Z) : list Z :=
  match vs with
  | [] => []
  | v :: vs => wrap w (v - prev) :: deltas w v vs
  end.

Fixpoint sums (w : Z) (acc : Z) (vs : list Z) : list Z :=
  match vs with
  | [] => []
  | v :: vs => let acc := wrap w (acc + v) in acc :: sums w acc vs
  end.

Section loops.
Context (w : nat) (Hw : (0 < w)%nat).
Abbreviation wz := (Z.of_nat w).

Lemma length_deltas prev vs : length (deltas wz prev vs) = length vs.
Proof. revert prev. induction vs; intros; simpl; auto. Qed.

Lemma length_sums acc vs : length (sums wz acc vs) = length vs.
Proof. revert acc. induction vs; intros; simpl; auto. Qed.

Lemma deltas_width prev vs : all_width w (deltas wz prev vs).
Proof. revert prev. induction vs; intros; simpl; constructor; auto with codec. Qed.

Lemma sums_deltas prev vs : all_width w vs → sums wz prev (deltas wz prev vs) = vs.
Proof.
  intros Hvs. revert prev. induction Hvs as [|v vs Hv _ IH]; intros prev; simpl; [done|].
  rewrite wrap_add_r. replace (prev + (v - prev)) with v by lia.
  rewrite wrap_small by done. by rewrite IH.
Qed.

Lemma compress_loop_spec vs fuel pre post dpre old prev :
  all_width w vs → (length vs ≤ fuel)%nat → Z.of_nat (w * length vs) ≤ blen old →
  compress_loop wz fuel (pre ++ enc w vs ++ post) (blen pre) (blen pre + blen (enc w vs))
    (dpre ++ old) (blen dpre) prev = Ret (dpre ++ over (enc w (deltas wz prev vs)) old).
Proof.
  intros Hvs. revert fuel pre dpre old prev.
  induction Hvs as [|v vs Hv _ IH]; intros fuel pre dpre old prev Hf Hold.
  - rewrite over_nil, Z.add_0_r. destruct fuel; simpl; by rewrite Z.ltb_irrefl.
  - destruct fuel as [|fuel]; [simpl in Hf; lia|]. cbn [compress_loop length] in *.
    rewrite (proj2 (Z.ltb_lt _ _)) by (rewrite blen_enc; simpl; nia).
    rewrite load_enc by done. cbn [mbind outcome_bind].
    rewrite store_at by (lia || done || nia). cbn [mbind outcome_bind deltas]. rewrite Nat2Z.id.
    unfold over at 1. rewrite !enc_cons, <- !app_assoc, blen_app, length_le_split.
    rewrite (app_assoc pre), (app_assoc dpre).
    replace (blen pre + wz) with (blen (pre ++ le_split w v)) by blia.
    replace (blen dpre + wz) with (blen (dpre ++ le_split w (wrap wz (v - prev)))) by blia.
    replace (blen pre + (blen (le_split w v) + blen (enc w vs)))
      with (blen (pre ++ le_split w v) + blen (enc w vs)) by blia.
    rewrite IH by (autorewrite with blen; lia).
    by rewrite <- app_assoc, over_app, length_le_split.
Qed.

(** The values are written until the output is full. *)
Lemma decompress_loop_spec vs fuel pre post dpre old osz acc :
  all_width w vs → (length vs ≤ fuel)%nat → osz ≤ blen old →
  decompress_loop wz fuel (pre ++ enc w vs ++ post) (blen pre) (blen pre + blen (enc w vs))
    (dpre ++ old) (blen dpre) (blen dpre + osz) acc =
    if blen (enc w vs) <=? Z.max 0 osz then Ret (dpre ++ over (enc w (sums wz acc vs)) old)
    else Throw CANNOT_DECOMPRESS.
Proof.
  intros Hvs. revert fuel pre dpre old osz acc.
  induction Hvs as [|v vs Hv _ IH]; intros fuel pre dpre old osz acc Hf Hold.
  - cbn [sums]. rewrite enc_nil, over_nil, blen_nil, Z.add_0_r, (proj2 (Z.leb_le 0 _)) by lia.
    destruct fuel; simpl; by rewrite Z.ltb_irrefl.
  - destruct fuel as [|fuel]; [simpl in Hf; lia|]. cbn [decompress_loop length] in *.
    rewrite (proj2 (Z.ltb_lt _ _)) by (rewrite blen_enc; simpl; nia).
    rewrite load_enc by done. cbn [mbind outcome_bind].
    rewrite enc_cons, blen_app, blen_le_split.
    destruct (Z.ltb_spec (blen dpre + osz) (blen dpre + wz)); cbn [throw_if mbind outcome_bind].
    { pose proof (blen_nonneg (enc w vs)). by rewrite (proj2 (Z.leb_gt _ _)) by lia. }
    rewrite store_at by (lia || done). cbn [mbind outcome_bind sums]. rewrite Nat2Z.id.
    unfold over at 1. rewrite !enc_cons, <- !app_assoc, length_le_split.
    rewrite (app_assoc pre), (app_assoc dpre).
    replace (blen pre + wz) with (blen (pre ++ le_split w v)) by blia.
    replace (blen dpre + wz) with (blen (dpre ++ le_split w (wrap wz (acc + v)))) by blia.
    replace (blen pre + (wz + blen (enc w vs)))
      with (blen (pre ++ le_split w v) + blen (enc w vs)) by blia.
    replace (blen dpre + osz) with (blen (dpre ++ le_split w (wrap wz (acc + v))) + (osz - wz)) by blia.
    rewrite IH by (autorewrite with blen; lia).
    replace (wz + blen (enc w vs) <=? Z.max 0 osz) with (blen (enc w vs) <=? Z.max 0 (osz - wz))
      by (apply eq_true_iff_eq; rewrite !Z.leb_le; pose proof (blen_nonneg (enc w vs)); lia).
    destruct (_ <=? _); [|done]. by rewrite <- app_assoc, over_app, length_le_split.
Qed.

Lemma compressDataForType_spec vs post dest :
  all_width w vs → blen (enc w vs) ≤ blen dest →
  compressDataForType wz (enc w vs ++ post) (blen (enc w vs)) dest =
    Ret (over (enc w (deltas wz 0 vs)) dest).
Proof.
  intros Hvs Hd. unfold compressDataForType. rewrite blen_enc in *.
  rewrite throw_if_false by (by rewrite Z.mul_comm, Z.mod_mul by lia). cbn [mbind outcome_bind].
  pose proof (compress_loop_spec vs (Z.to_nat (wz * Z.of_nat (length vs))) [] post [] dest 0 Hvs) as E.
  rewrite blen_nil, blen_enc in E. apply E; nia.
Qed.

Lemma decompressDataForType_spec vs post dest osz :
  all_width w vs → 0 ≤ osz ≤ blen dest →
  decompressDataForType wz (enc w vs ++ post) (blen (enc w vs)) dest osz =
    if blen (enc w vs) <=? osz then Ret (over (enc w (sums wz 0 vs)) dest) else Throw CANNOT_DECOMPRESS.
Proof.
  intros Hvs Hd. unfold decompressDataForType. rewrite blen_enc in *.
  rewrite throw_if_false by (by rewrite Z.mul_comm, Z.mod_mul by lia). cbn [mbind outcome_bind].
  pose proof (decompress_loop_spec vs (Z.to_nat (wz * Z.of_nat (length vs))) [] post [] dest osz 0 Hvs) as E.
  rewrite blen_nil, blen_enc in E. rewrite Z.max_r in E by lia. apply E; nia.
Qed.
End loops.

(** * The codec *)

Lemma valid_size_cases n : valid_size n = true → ∃ w, n = Z.of_nat w ∧ (0 < w ≤ 8)%nat.
Proof.
  unfold valid_size. rewrite !orb_true_iff, !Z.eqb_eq. intros Hn.
  exists (Z.to_nat n). lia.
Qed.

(** The data of the codec for a source of [skipped] bytes and the values [vs]. *)
Definition data (w : nat) (skipped : bytes) (vs : list Z) : bytes :=
  skip_header (Z.of_nat w) skipped ++ enc w (deltas (Z.of_nat w) 0 vs).

Section codec.
Context (w : nat) (Hw : (0 < w ≤ 8)%nat) (Hv : valid_size (Z.of_nat w) = true).

Lemma blen_data skipped vs : blen (data w skipped vs) = 2 + blen (skipped ++ enc w vs).
Proof. unfold data. rewrite blen_app, blen_skip_header, blen_app, !blen_enc, length_deltas. lia. Qed.

Lemma doCompressData_spec skipped vs tail dest :
  all_width w vs → blen skipped = blen (skipped ++ enc w vs) mod Z.of_nat w →
  blen (skipped ++ enc w vs) + 2 < 2 ^ 32 → blen (skipped ++ enc w vs) + 2 ≤ blen dest →
  doCompressData (Z.of_nat w) ((skipped ++ enc w vs) ++ tail) (blen (skipped ++ enc w vs)) dest =
    Ret (over (data w skipped vs) dest, blen (data w skipped vs)).
Proof.
  intros Hvs Hsk Hs Hd. unfold doCompressData.
  rewrite ub_unless_true by (apply negb_true_iff, Z.eqb_neq; lia). cbn [mbind outcome_bind].
  pose proof (Z.mod_pos_bound (blen (skipped ++ enc w vs)) (Z.of_nat w) ltac:(lia)) as Hsk2.
  rewrite <- Hsk in Hsk2.
  rewrite <- Hsk, (wrap_small 1) by zlia. rewrite blen_app in *.
  pose proof (blen_nonneg (enc w vs)).
  rewrite <- (app_assoc skipped), write_skip_header by (done || lia). rewrite Hv.
  rewrite tail_at_app by done. cbn [mbind outcome_bind].
  rewrite (on_tail_over _ (enc w (deltas (Z.of_nat w) 0 vs)) dest _ _ tt).
  - cbn [mbind outcome_bind]. unfold data. rewrite wrap_small by zlia. do 2 f_equal.
    rewrite blen_app, blen_skip_header, !blen_enc, length_deltas. lia.
  - by rewrite blen_skip_header.
  - replace (blen skipped + blen (enc w vs) - blen skipped) with (blen (enc w vs)) by lia.
    rewrite compressDataForType_spec by (done || lia || (rewrite blen_drop; fold_blen; rewrite blen_skip_header; lia)). done.
Qed.

Lemma doDecompressData_spec skipped vs tail dest :
  all_width w vs → blen skipped = blen (skipped ++ enc w vs) mod Z.of_nat w →
  0 < blen (skipped ++ enc w vs) → blen (skipped ++ enc w vs) + 2 < 2 ^ 32 →
  blen (skipped ++ enc w vs) ≤ blen dest →
  doDecompressData (data w skipped vs ++ tail) (blen (data w skipped vs)) dest (blen (skipped ++ enc w vs)) =
    Ret (over (skipped ++ enc w vs) dest).
Proof.
  intros Hvs Hsk Hpos Hs Hd. unfold doDecompressData. rewrite blen_data.
  pose proof (Z.mod_pos_bound (blen (skipped ++ enc w vs)) (Z.of_nat w) ltac:(lia)) as Hsk2.
  rewrite <- Hsk in Hsk2.
  rewrite throw_if_false by (apply Z.ltb_ge; lia). cbn [mbind outcome_bind].
  rewrite (proj2 (Z.eqb_neq _ _)) by lia.
  unfold data. rewrite <- !app_assoc, load_skip_header. cbn [mbind outcome_bind].
  rewrite Hv. cbn [negb throw_if mbind outcome_bind]. rewrite <- Hsk, (wrap_small 1) by zlia.
  rewrite !(wrap_small 4) by (rewrite blen_app in *; pose proof (blen_nonneg (enc w vs)); zlia).
  rewrite blen_app in *. pose proof (blen_nonneg (enc w vs)).
  rewrite throw_if_false by (apply Z.ltb_ge; lia). cbn [mbind outcome_bind].
  rewrite read_skip_header by (done || lia).
  rewrite (on_tail_over _ (enc w vs) dest _ _ tt); [done|done|].
  replace (2 + (blen skipped + blen (enc w vs)) - blen skipped - 2)
    with (blen (enc w (deltas (Z.of_nat w) 0 vs))) by (rewrite !blen_enc, length_deltas; lia).
  rewrite decompressDataForType_spec by (try apply deltas_width; blia).
  rewrite (proj2 (Z.leb_le _ _)) by (rewrite !blen_enc, length_deltas in *; lia).
  cbn [mbind outcome_bind]. rewrite sums_deltas by (done || lia). done.
Qed.
End codec.

#[global] Instance delta_correct ec n : valid_size n = true →
  CodecCorrect (codec ec n) (λ source, 0 < blen source ∧ blen source + 2 < 2 ^ 32).
Proof.
  intros Hv. destruct (valid_size_cases n Hv) as (w & -> & Hw).
  split; [unfold is_byte; simpl; lia|simpl; lia|].
  intros source tail dest Hb [Hpos Hs] Hmax. simpl in *. unfold getMaxCompressedDataSize in *.
  rewrite wrap_small in * by zlia.
  destruct (split_source w source) as (skipped & vs & -> & Hvs & Hskb & Hsk); [lia|done|].
  exists (data w skipped vs). split_and!.
  - by apply doCompressData_spec.
  - pose proof (Z.mod_pos_bound (blen (skipped ++ enc w vs)) (Z.of_nat w) ltac:(lia)).
    apply Forall_app. split; [|auto with codec].
    apply skip_header_bytes; [unfold is_byte; lia|lia|done].
  - rewrite blen_data by done. lia.
  - intros tail' dest' _ Hd. simpl in *. eexists. split.
    + apply doDecompressData_spec; auto; lia.
    + apply blen_over. lia.
Qed.

Lemma decompressDataForType_safe w src ssize d osz :
  (0 < w)%nat → is_bytes src → is_bytes d → 0 ≤ ssize ≤ blen src → 0 ≤ osz ≤ blen d →
  safe (decompressDataForType (Z.of_nat w) src ssize d osz) (λ d', blen d' = blen d ∧ is_bytes d').
Proof.
  intros Hw Hb Hd Hs Ho. destruct (Z.eqb_spec (ssize mod Z.of_nat w) 0) as [Hm|Hm].
  - destruct (split_at src ssize Hs) as (s1 & s2 & -> & Hl). apply Forall_app in Hb as [Hb1 Hb2].
    destruct (split_source w s1 Hw Hb1) as (sk & vs & -> & Hvs & _ & Hsk).
    rewrite Hl, Hm in Hsk. apply blen_0_nil in Hsk as ->. simpl in *. rewrite <- Hl.
    rewrite decompressDataForType_spec by done.
    destruct (Z.leb_spec (blen (enc w vs)) osz); [simpl|done].
    split; [apply blen_over; rewrite blen_enc, length_sums in *; lia|auto with codec].
  - unfold decompressDataForType. by rewrite (proj2 (Z.eqb_neq _ _)).
Qed.

#[global] Instance delta_safe ec n : CodecSafe (codec ec n).
Proof.
  split. intros source ssize dest usize Hb Hd Hs Hs32 Hsrc Hu Hu32 Hdst. simpl in *.
  unfold doDecompressData. destruct (Z.ltb_spec ssize 2); [done|]. cbn [throw_if mbind outcome_bind].
  rewrite (proj2 (Z.eqb_neq _ _)) by lia.
  destruct (load_safe 1 source 0 Hb) as (b & -> & _); [lia..|]. cbn [mbind outcome_bind].
  destruct (valid_size b) eqn:Hv; [|done]. cbn [negb throw_if mbind outcome_bind].
  destruct (valid_size_cases b Hv) as (w & -> & Hw).
  pose proof (Z.mod_pos_bound usize (Z.of_nat w) ltac:(lia)) as Hk.
  pose proof (Z.mod_le usize (Z.of_nat w) ltac:(lia) ltac:(lia)).
  set (k := usize mod Z.of_nat w) in *.
  rewrite (wrap_small 1 k), (wrap_small 4 (usize - k)), (wrap_small 4 (2 + k)) by zlia.
  destruct (Z.ltb_spec ssize (2 + k)); [done|]. cbn [throw_if mbind outcome_bind].
  destruct (read_bytes_safe source 2 k) as (sk & -> & Hskl & Hskb); [lia..|]. cbn [mbind outcome_bind].
  destruct (write_bytes_safe dest 0 sk) as (dest1 & -> & Hdl & Hdb); [lia..|]. cbn [mbind outcome_bind].
  destruct (tail_at_safe source (2 + k)) as (src & -> & _ & Hsl & Hsb); [lia|]. cbn [mbind outcome_bind].
  rewrite (wrap_small 4) by zlia.
  eapply safe_bind; [apply (on_tail_safe dest1 k _ (λ _, True)); [lia|auto|]|].
  - intros t Ht Htb. eapply safe_bind; [apply decompressDataForType_safe; auto; lia|].
    intros d' [Hd1 Hd2]. simpl. auto.
  - intros [d' []] (Hd1 & Hd2 & _). simpl in *. split; [lia|done].
Qed.

(** * Theorems *)

(** For every non-empty source, of any size aligned or not, Delta with a width of 1,
    2, 4 or 8 bytes writes exactly two bytes more than the source, within the size it
    reserved, and decompression of them gives the source back. *)
Theorem delta_roundtrip (n : Z) (source dest dest' tail : bytes) :
  valid_size n = true → is_bytes source → 0 < blen source → blen source + 2 < 2 ^ 32 →
  getMaxCompressedDataSize (blen source) ≤ blen dest → blen source ≤ blen dest' →
  ∃ out,
    doCompressData n source (blen source) dest = Ret (over out dest, blen out) ∧
    blen out = blen source + 2 ∧ blen out = getMaxCompressedDataSize (blen source) ∧
    doDecompressData (out ++ tail) (blen out) dest' (blen source) = Ret (over source dest').
Proof.
  intros Hv Hb Hpos Hs Hmax Hd. unfold getMaxCompressedDataSize in *. rewrite wrap_small in * by zlia.
  destruct (valid_size_cases n Hv) as (w & -> & Hw).
  destruct (split_source w source) as (skipped & vs & -> & Hvs & Hskb & Hsk); [lia|done|].
  exists (data w skipped vs). pose proof (doCompressData_spec w Hw Hv skipped vs [] dest) as Hc.
  rewrite app_nil_r in Hc. rewrite blen_data by done. split_and!; [|lia|lia|].
  - rewrite <- (blen_data w Hw). by apply Hc.
  - rewrite <- (blen_data w Hw). by apply doDecompressData_spec.
Qed.

Lemma delta_roundtrip_witness :
  ∃ out,
    doCompressData 2 [7; 1; 0; 255; 255] (blen [7; 1; 0; 255; 255]) (replicate 7 0) =
      Ret (over out (replicate 7 0), blen out) ∧
    blen out = blen [7; 1; 0; 255; 255] + 2 ∧ blen out = getMaxCompressedDataSize (blen [7; 1; 0; 255; 255]) ∧
    doDecompressData (out ++ [3]) (blen out) (replicate 6 9) (blen [7; 1; 0; 255; 255]) =
      Ret (over [7; 1; 0; 255; 255] (replicate 6 9)).
Proof.
  apply (delta_roundtrip 2 [7; 1; 0; 255; 255] (replicate 7 0) (replicate 6 9) [3]);
    [done|by apply is_bytes_compute|vm_compute; done..].
Defined.

(** Decompression of arbitrary bytes with Delta returns or throws: the width in the
    header is checked, and no value is read or written outside of the buffers. *)
Theorem delta_decompress_never_ub (source dest : bytes) (source_size uncompressed_size : Z) :
  is_bytes source → is_bytes dest → 0 ≤ source_size ≤ blen source → source_size < 2 ^ 32 →
  0 < uncompressed_size ≤ blen dest → uncompressed_size < 2 ^ 32 →
  safe (doDecompressData source source_size dest uncompressed_size)
    (λ dest', blen dest' = blen dest ∧ is_bytes dest').
Proof.
  intros. apply (@codec_safe (codec CORRUPTED_DATA 1) (delta_safe _ _)); simpl; auto; lia.
Qed.

Lemma delta_decompress_never_ub_witness :
  safe (doDecompressData [4; 0; 1; 2; 3; 4; 5] 7 (replicate 6 0) 6)
    (λ dest', blen dest' = blen (replicate 6 0) ∧ is_bytes dest').
Proof.
  apply delta_decompress_never_ub; [by apply is_bytes_compute..|vm_compute; split; congruence|done|vm_compute; split; congruence|done].
Defined.
End Delta.
