(* ===== verification/CodecGCD.v ===== *)
(** The codec GCD (src/src/Compression/CompressionCodecGCD.cpp): integers of 1 to 32
    bytes divided by their greatest common divisor. *)

From S2P Require Import Prelude CodecBase CodecDelta.
From stdpp Require Import base tactics list numbers.
Local Open Scope Z_scope.

Module GCD.

Definition getMaxCompressedDataSize (gcd_bytes_size uncompressed_size : Z) : Z :=
  u32 (uncompressed_size + gcd_bytes_size + 2).

Definition valid_gcd_size (n : Z) : bool :=
  (n =? 1) || (n =? 2) || (n =? 4) || (n =? 8) || (n =? 16) || (n =? 32).

Section compression.
(** [boost::integer::gcd], and the quotient of a [LibdivideT] by a
    [libdivide::divider] (the first argument is the size of [LibdivideT]). *)
Context (boost_gcd : Z → Z → Z) (libdivide : Z → Z → Z → Z).

(** The loop that computes the divisor, which stops when it is 1. *)
Fixpoint gcd_loop (w : Z) (fuel : nat) (mem : bytes) (source cur_source source_end : Z) (gcd : Z) : outcome Z :=
  if negb (gcd =? 1) && (cur_source <? source_end) then
    match fuel with
    | O => OutOfFuel
    | S fuel =>
        x ← load w mem cur_source;
        let gcd := if cur_source =? source then x else boost_gcd gcd x in
        gcd_loop w fuel mem source (cur_source + w) source_end gcd
    end
  else Ret gcd.

Definition quotient (w x gcd : Z) : Z :=
  if w <=? 8 then
    let LibdivideT := if w <=? 4 then 4 else 8 in
    wrap w (libdivide LibdivideT x gcd)
  else x / gcd.

Fixpoint divide_loop (w : Z) (fuel : nat) (mem : bytes) (cur_source source_end : Z) (dmem : bytes) (dest : Z)
  (gcd : Z) : outcome bytes :=
  if cur_source <? source_end then
    match fuel with
    | O => OutOfFuel
    | S fuel =>
        x ← load w mem cur_source;
        dmem ← store w dmem dest (quotient w x gcd);
        divide_loop w fuel mem (cur_source + w) source_end dmem (dest + w) gcd
    end
  else Ret dmem.

Definition compressDataForType (w : Z) (source : bytes) (source_size : Z) (dest : bytes) : outcome bytes :=
  _ ← throw_if (negb (source_size mod w =? 0)) CANNOT_COMPRESS;
  gcd ← gcd_loop w (Z.to_nat source_size) source 0 0 source_size 0;
  dest ← store w dest 0 gcd;
  if (gcd =? 0) || (gcd =? 1) then
    bs ← read_bytes source 0 source_size;
    write_bytes dest w bs
  else divide_loop w (Z.to_nat source_size) source 0 source_size dest w gcd.

Definition doCompressData (gcd_bytes_size : Z) (source : bytes) (source_size : Z) (dest : bytes)
  : outcome (bytes * Z) :=
  _ ← ub_unless (negb (gcd_bytes_size =? 0));
  let bytes_to_skip := u8 (source_size mod gcd_bytes_size) in
  dest ← write_bytes dest 0 [gcd_bytes_size];
  dest ← write_bytes dest 1 [bytes_to_skip];
  skipped ← read_bytes source 0 bytes_to_skip;
  dest ← write_bytes dest 2 skipped;
  let start_pos := 2 + bytes_to_skip in
  '(dest, _) ←
    (if valid_gcd_size gcd_bytes_size then
       src ← tail_at source bytes_to_skip;
       on_tail dest start_pos (λ d,
         d ← compressDataForType gcd_bytes_size src (source_size - bytes_to_skip) d; Ret (d, tt))
     else Ret (dest, tt));
  Ret (dest, u32 (2 + gcd_bytes_size + source_size)).
End compression.

(** The product of two [T]: two [UInt16] are promoted to [int], whose overflow is
    undefined; two [UInt8] are too, but their product fits. *)
Definition product (w x y : Z) : outcome Z :=
  _ ← ub_unless (negb (w <? 4) || (x * y <? 2 ^ 31));
  Ret (wrap w (x * y)).

Fixpoint multiply_loop (w : Z) (fuel : nat) (mem : bytes) (source source_end : Z) (dmem : bytes)
  (dest dest_end : Z) (gcd_multiplier : Z) : outcome bytes :=
  if source <? source_end then
    match fuel with
    | O => OutOfFuel
    | S fuel =>
        _ ← throw_if (dest_end <? dest + w) CANNOT_DECOMPRESS;
        x ← load w mem source;
        p ← product w x gcd_multiplier;
        dmem ← store w dmem dest p;
        multiply_loop w fuel mem (source + w) source_end dmem (dest + w) dest_end gcd_multiplier
    end
  else Ret dmem.

Definition decompressDataForType (w : Z) (source : bytes) (source_size : Z) (dest : bytes) (output_size : Z)
  : outcome bytes :=
  _ ← throw_if (negb (source_size mod w =? 0)) CANNOT_DECOMPRESS;
  _ ← throw_if (source_size <? w) CANNOT_DECOMPRESS;
  gcd_multiplier ← load w source 0;
  if (gcd_multiplier =? 0) || (gcd_multiplier =? 1) then
    _ ← throw_if (negb (source_size - w =? output_size)) CANNOT_DECOMPRESS;
    bs ← read_bytes source w (source_size - w);
    write_bytes dest 0 bs
  else multiply_loop w (Z.to_nat source_size) source w source_size dest 0 output_size gcd_multiplier.

Definition doDecompressData (source : bytes) (source_size : Z) (dest : bytes) (uncompressed_size : Z)
  : outcome bytes :=
  _ ← throw_if (source_size <? 2) CANNOT_DECOMPRESS;
  if uncompressed_size =? 0 then Ret dest else
  bytes_size ← load 1 source 0;
  _ ← throw_if (negb (valid_gcd_size bytes_size)) CANNOT_DECOMPRESS;
  let bytes_to_skip := u8 (uncompressed_size mod bytes_size) in
  let output_size := u32 (uncompressed_size - bytes_to_skip) in
  _ ← throw_if (source_size <? u32 (2 + bytes_to_skip)) CANNOT_DECOMPRESS;
  skipped ← read_bytes source 2 bytes_to_skip;
  dest ← write_bytes dest 0 skipped;
  let source_size_no_header := u32 (source_size - bytes_to_skip - 2) in
  src ← tail_at source (2 + bytes_to_skip);
  '(dest, _) ← on_tail dest bytes_to_skip (λ d,
    d ← decompressDataForType bytes_size src source_size_no_header d output_size; Ret (d, tt));
  Ret dest.

Definition codec (boost_gcd : Z → Z → Z) (libdivide : Z → Z → Z → Z) (ec : ErrorCode) (gcd_bytes_size : Z) : codec := {|
  getMethodByte := method_byte CodecBase.GCD;
  CodecBase.doCompressData := doCompressData boost_gcd libdivide gcd_bytes_size;
  CodecBase.doDecompressData := doDecompressData;
  CodecBase.getMaxCompressedDataSize := getMaxCompressedDataSize gcd_bytes_size;
  getAdditionalSizeAtTheEndOfBuffer := 0;
  decompression_error_code := ec;
|}.

(** * What the loops compute *)

(** The greatest common divisor of a list, 0 for zeros only. *)
Definition gcds (vs : list Z) : Z := foldl Z.gcd 0 vs.

Section gcds.
Lemma foldl_gcd_divide g vs : (foldl Z.gcd g vs | g) ∧ Forall (λ v, (foldl Z.gcd g vs | v)) vs.
Proof.
  revert g. induction vs as [|v vs IH]; intros g; simpl; [split; [done|constructor]|].
  destruct (IH (Z.gcd g v)) as [H1 H2]. split; [|constructor; [|done]].
  - etrans; [exact H1|apply Z.gcd_divide_l].
  - etrans; [exact H1|apply Z.gcd_divide_r].
Qed.

Lemma foldl_gcd_1 vs : foldl Z.gcd 1 vs = 1.
Proof. induction vs; simpl; [done|]. by rewrite Z.gcd_1_l. Qed.

Lemma foldl_gcd_range w g vs : in_width w g → all_width w vs → in_width w (foldl Z.gcd g vs).
Proof.
  intros Hg Hvs. revert g Hg. induction Hvs as [|v vs Hv _ IH]; intros g Hg; simpl; [done|].
  apply IH. unfold in_width in *. pose proof (Z.gcd_nonneg g v). destruct (decide (g = 0)) as [->|].
  - rewrite Z.gcd_0_l. lia.
  - pose proof (Z.divide_pos_le (Z.gcd g v) g ltac:(lia) (Z.gcd_divide_l g v)). lia.
Qed.

Lemma gcds_range w vs : all_width w vs → in_width w (gcds vs).
Proof. apply foldl_gcd_range. split; [lia|apply Z.pow_pos_nonneg; lia]. Qed.

Lemma gcds_quotient w vs v : all_width w vs → v ∈ vs → gcds vs ≠ 0 → v / gcds vs * gcds vs = v.
Proof.
  intros Hvs Hin Hg. destruct (foldl_gcd_divide 0 vs) as [_ H].
  rewrite Forall_forall in H. specialize (H v (proj1 (list_elem_of_In _ _) Hin)). fold (gcds vs) in H.
  rewrite Z.mul_comm, <- Z.divide_div_mul_exact, Z.mul_comm, Z.div_mul by done. done.
Qed.
End gcds.

Section loops.
Context (boost_gcd : Z → Z → Z) (libdivide : Z → Z → Z → Z).
Hypothesis boost_gcd_spec : ∀ a b, 0 ≤ a → 0 ≤ b → boost_gcd a b = Z.gcd a b.
Hypothesis libdivide_spec : ∀ t x d,
  t = 4 ∨ t = 8 → 0 ≤ x < 2 ^ (8 * t) → 0 < d < 2 ^ (8 * t) → libdivide t x d = x / d.
Context (w : nat) (Hw : (0 < w)%nat).
Abbreviation wz := (Z.of_nat w).

Lemma quotient_spec x d : (w ≤ 4 ∨ w = 8 ∨ 8 < w)%nat → in_width w x → in_width w d → d ≠ 0 →
  quotient libdivide wz x d = x / d.
Proof.
  unfold in_width, quotient. intros Hc Hx Hd Hd0.
  assert (0 ≤ x / d < 2 ^ (8 * wz)) as Hq.
  { split; [apply Z.div_pos; lia|]. apply Z.le_lt_trans with x; [|lia].
    apply Z.div_le_upper_bound; nia. }
  destruct (Z.leb_spec wz 8); [|done].
  assert (∀ t, wz ≤ t → 2 ^ (8 * wz) ≤ 2 ^ (8 * t)) as Hp by (intros; apply Z.pow_le_mono_r; lia).
  destruct (Z.leb_spec wz 4) as [H4|H4].
  - specialize (Hp 4 H4). rewrite libdivide_spec by (auto; lia). by apply wrap_small.
  - specialize (Hp 8 ltac:(lia)). rewrite libdivide_spec by (auto; lia). by apply wrap_small.
Qed.

Lemma gcd_loop_spec vs fuel pre post source g :
  all_width w vs → (length vs ≤ fuel)%nat → in_width w g →
  source ≤ blen pre → (blen pre = source → g = 0) →
  gcd_loop boost_gcd wz fuel (pre ++ enc w vs ++ post) source (blen pre) (blen pre + blen (enc w vs)) g =
    Ret (foldl Z.gcd g vs).
Proof.
  intros Hvs. revert fuel pre g. induction Hvs as [|v vs Hv _ IH]; intros fuel pre g Hf Hg Hle Hst.
  - rewrite enc_nil, blen_nil, Z.add_0_r. destruct fuel; simpl; by rewrite Z.ltb_irrefl, andb_false_r.
  - destruct fuel as [|fuel]; [simpl in Hf; lia|]. cbn [gcd_loop length foldl] in *.
    destruct (Z.eqb_spec g 1) as [->|Hg1]; cbn [negb andb].
    { by rewrite Z.gcd_1_l, foldl_gcd_1. }
    rewrite (proj2 (Z.ltb_lt _ _)) by (rewrite blen_enc; simpl; nia).
    rewrite load_enc by done. cbn [mbind outcome_bind].
    replace (if blen pre =? source then v else boost_gcd g v) with (Z.gcd g v).
    2: { unfold in_width in *. destruct (Z.eqb_spec (blen pre) source); [|by rewrite boost_gcd_spec by lia].
         rewrite Hst, Z.gcd_0_l by done. lia. }
    rewrite !enc_cons, <- !app_assoc, blen_app, (app_assoc pre).
    replace (blen pre + wz) with (blen (pre ++ le_split w v)) by blia.
    replace (blen pre + (blen (le_split w v) + blen (enc w vs)))
      with (blen (pre ++ le_split w v) + blen (enc w vs)) by blia.
    apply IH; [lia| |blia|intros Hx; blia].
    apply (foldl_gcd_range w g [v]); [done|by constructor].
Qed.

Lemma divide_loop_spec vs fuel pre post dpre old g :
  (w ≤ 4 ∨ w = 8 ∨ 8 < w)%nat → in_width w g → g ≠ 0 →
  all_width w vs → (length vs ≤ fuel)%nat → Z.of_nat (w * length vs) ≤ blen old →
  divide_loop libdivide wz fuel (pre ++ enc w vs ++ post) (blen pre) (blen pre + blen (enc w vs))
    (dpre ++ old) (blen dpre) g = Ret (dpre ++ over (enc w ((λ v, v / g) <$> vs)) old).
Proof.
  intros Hc Hg Hg0 Hvs. revert fuel pre dpre old.
  induction Hvs as [|v vs Hv _ IH]; intros fuel pre dpre old Hf Hold.
  - cbn [fmap list_fmap]. rewrite enc_nil, blen_nil, over_nil, Z.add_0_r. destruct fuel; simpl; by rewrite Z.ltb_irrefl.
  - destruct fuel as [|fuel]; [simpl in Hf; lia|]. cbn [divide_loop length fmap list_fmap] in *.
    rewrite (proj2 (Z.ltb_lt _ _)) by (rewrite blen_enc; simpl; nia).
    rewrite load_enc by done. cbn [mbind outcome_bind]. rewrite quotient_spec by done.
    rewrite store_at by (lia || done || nia). cbn [mbind outcome_bind]. rewrite Nat2Z.id.
    unfold over at 1. rewrite !enc_cons, <- !app_assoc, blen_app, length_le_split.
    rewrite (app_assoc pre), (app_assoc dpre).
    replace (blen pre + wz) with (blen (pre ++ le_split w v)) by blia.
    replace (blen dpre + wz) with (blen (dpre ++ le_split w (v / g))) by blia.
    replace (blen pre + (blen (le_split w v) + blen (enc w vs)))
      with (blen (pre ++ le_split w v) + blen (enc w vs)) by blia.
    rewrite IH by (autorewrite with blen; lia). by rewrite <- app_assoc, over_app, length_le_split.
Qed.

(** The values of the data: the divisor, and the quotients unless it is 0 or 1. *)
Definition divided (vs : list Z) : list Z :=
  let g := gcds vs in
  g :: (if (g =? 0) || (g =? 1) then vs else (λ v, v / g) <$> vs).

Lemma gcd_compressDataForType_spec vs post dest :
  (w ≤ 4 ∨ w = 8 ∨ 8 < w)%nat → all_width w vs → wz + blen (enc w vs) ≤ blen dest →
  compressDataForType boost_gcd libdivide wz (enc w vs ++ post) (blen (enc w vs)) dest =
    Ret (over (enc w (divided vs)) dest).
Proof.
  intros Hc Hvs Hd. unfold compressDataForType.
  rewrite throw_if_false by (by rewrite blen_enc, Z.mul_comm, Z.mod_mul by lia). cbn [mbind outcome_bind].
  assert (length vs ≤ Z.to_nat (blen (enc w vs)))%nat as Hfuel by (rewrite blen_enc; nia).
  pose proof (gcd_loop_spec vs (Z.to_nat (blen (enc w vs))) [] post 0 0 Hvs Hfuel) as E.
  rewrite blen_nil in E. cbn [app] in E. rewrite Z.add_0_l in E. rewrite E; clear E;
    [|split; [lia|apply Z.pow_pos_nonneg; lia]|lia|done].
  fold (gcds vs). cbn [mbind outcome_bind]. pose proof (gcds_range w vs Hvs) as Hg.
  pose proof (blen_nonneg (enc w vs)). unfold divided.
  rewrite (store_at wz [] dest) by (done || lia). cbn [mbind outcome_bind app]. rewrite Nat2Z.id.
  destruct ((gcds vs =? 0) || (gcds vs =? 1)) eqn:E.
  - rewrite (read_bytes_app [] (enc w vs) post) by done. cbn [mbind outcome_bind].
    rewrite enc_cons. by rewrite write_over by (autorewrite with blen in *; lia).
  - apply orb_false_iff in E as [E0%Z.eqb_neq E1%Z.eqb_neq].
    pose proof (divide_loop_spec vs (Z.to_nat (blen (enc w vs))) [] post (le_split w (gcds vs))
      (drop (length (le_split w (gcds vs))) dest) (gcds vs) Hc Hg E0 Hvs Hfuel) as E.
    rewrite blen_nil, Z.add_0_l, blen_le_split in E. cbn [app] in E. unfold over at 1. rewrite E by (rewrite blen_enc in Hd; rewrite blen_drop, length_le_split; lia).
    by rewrite enc_cons, over_app.
Qed.
End loops.

Section decompression.
Context (w : nat) (Hw : (0 < w)%nat).
Abbreviation wz := (Z.of_nat w).

(** The product does not overflow the promoted type. *)
Definition product_ok (g v : Z) : Prop := wz < 4 → v * g < 2 ^ 31.

Lemma product_spec v g : product_ok g v → product wz v g = Ret (wrap wz (v * g)).
Proof.
  intros Hp. unfold product. rewrite ub_unless_true; [done|].
  destruct (Z.ltb_spec wz 4); [|done]. simpl. apply Z.ltb_lt. by apply Hp.
Qed.

(** Only products of two [UInt16] can. *)
Lemma product_ok_width g v : (w = 1 ∨ 4 ≤ w)%nat → in_width w g → in_width w v → product_ok g v.
Proof.
  intros [->|] Hg Hv H4; [|lia]. unfold in_width in *.
  change (2 ^ (8 * Z.of_nat 1)) with 256 in *. assert (v * g ≤ 255 * 255) by nia. zlia.
Qed.

Lemma multiply_loop_spec vs fuel pre post dpre old osz g :
  all_width w vs → Forall (product_ok g) vs → (length vs ≤ fuel)%nat → osz ≤ blen old →
  multiply_loop wz fuel (pre ++ enc w vs ++ post) (blen pre) (blen pre + blen (enc w vs))
    (dpre ++ old) (blen dpre) (blen dpre + osz) g =
    if blen (enc w vs) <=? Z.max 0 osz then Ret (dpre ++ over (enc w ((λ v, wrap wz (v * g)) <$> vs)) old)
    else Throw CANNOT_DECOMPRESS.
Proof.
  intros Hvs. revert fuel pre dpre old osz.
  induction Hvs as [|v vs Hv _ IH]; intros fuel pre dpre old osz Hp Hf Hold.
  - cbn [fmap list_fmap]. rewrite enc_nil, over_nil, blen_nil, Z.add_0_r, (proj2 (Z.leb_le 0 _)) by lia.
    destruct fuel; simpl; by rewrite Z.ltb_irrefl.
  - inversion Hp as [|? ? Hp1 Hp2]; subst.
    destruct fuel as [|fuel]; [simpl in Hf; lia|]. cbn [multiply_loop length fmap list_fmap] in *.
    rewrite (proj2 (Z.ltb_lt _ _)) by (rewrite blen_enc; simpl; nia).
    destruct (Z.ltb_spec (blen dpre + osz) (blen dpre + wz)); cbn [throw_if mbind outcome_bind].
    { rewrite enc_cons, blen_app, blen_le_split.
      pose proof (blen_nonneg (enc w vs)). by rewrite (proj2 (Z.leb_gt _ _)) by lia. }
    rewrite load_enc by done. cbn [mbind outcome_bind]. rewrite product_spec by done. cbn [mbind outcome_bind].
    rewrite store_at by (lia || done). cbn [mbind outcome_bind]. rewrite Nat2Z.id.
    unfold over at 1. rewrite !enc_cons, <- !app_assoc, blen_app, length_le_split, blen_le_split.
    rewrite (app_assoc pre), (app_assoc dpre).
    replace (blen pre + wz) with (blen (pre ++ le_split w v)) by blia.
    replace (blen dpre + wz) with (blen (dpre ++ le_split w (wrap wz (v * g)))) by blia.
    replace (blen pre + (wz + blen (enc w vs)))
      with (blen (pre ++ le_split w v) + blen (enc w vs)) by blia.
    replace (blen dpre + osz) with (blen (dpre ++ le_split w (wrap wz (v * g))) + (osz - wz)) by blia.
    rewrite IH by (done || autorewrite with blen; lia).
    replace (wz + blen (enc w vs) <=? Z.max 0 osz) with (blen (enc w vs) <=? Z.max 0 (osz - wz))
      by (apply eq_true_iff_eq; rewrite !Z.leb_le; pose proof (blen_nonneg (enc w vs)); lia).
    destruct (_ <=? _); [|done]. by rewrite <- app_assoc, over_app, length_le_split.
Qed.

(** What the data of a divisor and values stands for. *)
Definition multiplied (g : Z) (vs : list Z) : list Z :=
  if (g =? 0) || (g =? 1) then vs else (λ v, wrap wz (v * g)) <$> vs.

Lemma length_multiplied g vs : length (multiplied g vs) = length vs.
Proof. unfold multiplied. destruct (_ || _); [done|]. by rewrite length_fmap. Qed.

Lemma gcd_decompressDataForType_spec g vs post dest osz :
  in_width w g → all_width w vs → Forall (product_ok g) vs → 0 ≤ osz ≤ blen dest →
  decompressDataForType wz (enc w (g :: vs) ++ post) (blen (enc w (g :: vs))) dest osz =
    if (blen (enc w vs) =? osz) || ((1 <? g) && (blen (enc w vs) <=? osz))
    then Ret (over (enc w (multiplied g vs)) dest) else Throw CANNOT_DECOMPRESS.
Proof.
  intros Hg Hvs Hp Hd. unfold decompressDataForType. pose proof (blen_nonneg (enc w vs)).
  rewrite (throw_if_false (negb (_ mod _ =? _))) by (by rewrite blen_enc, Z.mul_comm, Z.mod_mul by lia). cbn [mbind outcome_bind].
  assert (blen (enc w (g :: vs)) = wz + blen (enc w vs)) as Hl by (by rewrite enc_cons, blen_app, blen_le_split).
  rewrite (throw_if_false (_ <? wz)) by (apply Z.ltb_ge; lia). cbn [mbind outcome_bind].
  rewrite Hl, enc_cons, <- app_assoc, load_prefix by done. cbn [mbind outcome_bind].
  unfold multiplied, in_width in *. replace (wz + blen (enc w vs) - wz) with (blen (enc w vs)) by lia.
  destruct ((g =? 0) || (g =? 1)) eqn:E.
  - apply orb_true_iff in E. rewrite !Z.eqb_eq in E. rewrite (proj2 (Z.ltb_ge 1 g)), andb_false_l, orb_false_r by lia.
    destruct (Z.eqb_spec (blen (enc w vs)) osz); [|done]. cbn [negb throw_if mbind outcome_bind].
    rewrite read_bytes_app by (rewrite ?blen_le_split; done). cbn [mbind outcome_bind]. apply write_first. lia.
  - apply orb_false_iff in E as [E0%Z.eqb_neq E1%Z.eqb_neq].
    rewrite (proj2 (Z.ltb_lt 1 g)), andb_true_l by lia.
    pose proof (multiply_loop_spec vs (Z.to_nat (wz + blen (enc w vs))) (le_split w g) post [] dest osz g Hvs Hp) as E.
    rewrite blen_nil, blen_le_split, Z.max_r in E by lia. cbn [app] in E. rewrite Z.add_0_l in E.
    rewrite E by (rewrite ?blen_enc; nia).
    destruct (Z.eqb_spec (blen (enc w vs)) osz) as [->|]; [by rewrite Z.leb_refl|done].
Qed.
End decompression.

(** * The codec *)

Lemma valid_gcd_cases n : valid_gcd_size n = true →
  ∃ w, n = Z.of_nat w ∧ (0 < w ≤ 32)%nat ∧ (w ≤ 4 ∨ w = 8 ∨ 8 < w)%nat ∧ (w = 1 ∨ w = 2 ∨ 4 ≤ w)%nat.
Proof.
  unfold valid_gcd_size. rewrite !orb_true_iff, !Z.eqb_eq. intros Hn.
  exists (Z.to_nat n). lia.
Qed.

(** The quotients multiplied by the divisor are the values. *)
Lemma multiplied_divided w vs :
  all_width w vs → ∃ g qs, divided vs = g :: qs ∧ in_width w g ∧ all_width w qs ∧ length qs = length vs ∧
    (w ≤ 3 → Forall (product_ok w g) qs)%nat ∧ multiplied w g qs = vs.
Proof.
  intros Hvs. exists (gcds vs). pose proof (gcds_range w vs Hvs) as Hg. unfold divided, multiplied.
  destruct ((gcds vs =? 0) || (gcds vs =? 1)) eqn:E.
  - exists vs. split_and!; try done. intros Hw. eapply Forall_impl; [|exact Hvs]. intros v Hv _.
    unfold in_width in *. apply orb_true_iff in E. rewrite !Z.eqb_eq in E.
    assert (2 ^ (8 * Z.of_nat w) ≤ 2 ^ 24) by (apply Z.pow_le_mono_r; lia). nia.
  - apply orb_false_iff in E as [E0%Z.eqb_neq E1%Z.eqb_neq].
    exists ((λ v, v / gcds vs) <$> vs). unfold in_width in Hg.
    assert (Forall (λ v, in_width w v ∧ v / gcds vs * gcds vs = v) vs) as Hall.
    { rewrite Forall_forall in Hvs |- *. intros v Hv. split; [by apply Hvs|].
      apply (gcds_quotient w); [by apply Forall_forall|by apply list_elem_of_In|done]. }
    split_and!; [done|exact Hg| |by rewrite length_fmap| |].
    + apply Forall_fmap. eapply Forall_impl; [|exact Hall]. intros v [Hv Hq]. unfold in_width in *. simpl.
      split; [apply Z.div_pos; lia|]. apply Z.le_lt_trans with v; [|lia].
      apply Z.div_le_upper_bound; nia.
    + intros Hw. apply Forall_fmap. eapply Forall_impl; [|exact Hall]. intros v [Hv Hq] _. simpl. rewrite Hq.
      unfold in_width in Hv. assert (2 ^ (8 * Z.of_nat w) ≤ 2 ^ 24) by (apply Z.pow_le_mono_r; lia). zlia.
    + rewrite <- list_fmap_compose. transitivity (id <$> vs); [|apply list_fmap_id]. apply list_fmap_ext.
      intros i v Hv. simpl. rewrite Forall_lookup in Hall. destruct (Hall i v Hv) as [Hv1 Hq].
      rewrite Hq. by apply wrap_small.
Qed.

Definition data (w : nat) (skipped : bytes) (vs : list Z) : bytes :=
  skip_header (Z.of_nat w) skipped ++ enc w (divided vs).

Lemma gcd_blen_data w skipped vs :
  blen (data w skipped vs) = 2 + Z.of_nat w + blen (skipped ++ enc w vs).
Proof.
  unfold data, divided. rewrite !blen_app, blen_skip_header, enc_cons, blen_app, blen_le_split, !blen_enc.
  destruct (_ || _); rewrite ?length_fmap; lia.
Qed.

Section codec.
Context (boost_gcd : Z → Z → Z) (libdivide : Z → Z → Z → Z).
Hypothesis boost_gcd_spec : ∀ a b, 0 ≤ a → 0 ≤ b → boost_gcd a b = Z.gcd a b.
Hypothesis libdivide_spec : ∀ t x d,
  t = 4 ∨ t = 8 → 0 ≤ x < 2 ^ (8 * t) → 0 < d < 2 ^ (8 * t) → libdivide t x d = x / d.
Context (w : nat) (Hw : (0 < w ≤ 32)%nat) (Hw8 : (w ≤ 4 ∨ w = 8 ∨ 8 < w)%nat).
Hypothesis Hv : valid_gcd_size (Z.of_nat w) = true.

Lemma gcd_doCompressData_spec skipped vs tail dest :
  all_width w vs → blen skipped = blen (skipped ++ enc w vs) mod Z.of_nat w →
  blen (skipped ++ enc w vs) + 34 < 2 ^ 32 → 2 + Z.of_nat w + blen (skipped ++ enc w vs) ≤ blen dest →
  doCompressData boost_gcd libdivide (Z.of_nat w) ((skipped ++ enc w vs) ++ tail) (blen (skipped ++ enc w vs)) dest =
    Ret (over (data w skipped vs) dest, blen (data w skipped vs)).
Proof.
  intros Hvs Hsk Hs Hd. unfold doCompressData.
  rewrite ub_unless_true by (apply negb_true_iff, Z.eqb_neq; lia). cbn [mbind outcome_bind].
  pose proof (Z.mod_pos_bound (blen (skipped ++ enc w vs)) (Z.of_nat w) ltac:(lia)) as Hsk2.
  rewrite <- Hsk in Hsk2. rewrite <- Hsk, (wrap_small 1) by zlia. rewrite gcd_blen_data, blen_app in *.
  pose proof (blen_nonneg (enc w vs)).
  rewrite <- (app_assoc skipped), write_skip_header by (done || lia). rewrite Hv.
  rewrite tail_at_app by done. cbn [mbind outcome_bind].
  rewrite (on_tail_over _ (enc w (divided vs)) dest _ _ tt).
  - cbn [mbind outcome_bind]. rewrite wrap_small by zlia. done.
  - by rewrite blen_skip_header.
  - replace (blen skipped + blen (enc w vs) - blen skipped) with (blen (enc w vs)) by lia.
    rewrite gcd_compressDataForType_spec; [done|done|done|lia|done|done|].
    rewrite blen_drop. fold_blen. rewrite blen_skip_header. lia.
Qed.

Lemma gcd_doDecompressData_spec skipped vs tail dest :
  all_width w vs → blen skipped = blen (skipped ++ enc w vs) mod Z.of_nat w →
  0 < blen (skipped ++ enc w vs) → blen (skipped ++ enc w vs) + 34 < 2 ^ 32 →
  blen (skipped ++ enc w vs) ≤ blen dest →
  doDecompressData (data w skipped vs ++ tail) (blen (data w skipped vs)) dest (blen (skipped ++ enc w vs)) =
    Ret (over (skipped ++ enc w vs) dest).
Proof.
  intros Hvs Hsk Hpos Hs Hd. unfold doDecompressData. rewrite gcd_blen_data.
  pose proof (Z.mod_pos_bound (blen (skipped ++ enc w vs)) (Z.of_nat w) ltac:(lia)) as Hsk2.
  rewrite <- Hsk in Hsk2.
  rewrite (throw_if_false (_ <? 2)) by (apply Z.ltb_ge; lia). cbn [mbind outcome_bind].
  rewrite (proj2 (Z.eqb_neq _ _)) by lia.
  unfold data. rewrite <- !app_assoc, load_skip_header. cbn [mbind outcome_bind].
  rewrite Hv. cbn [negb throw_if mbind outcome_bind]. rewrite <- Hsk, (wrap_small 1) by zlia.
  rewrite !(wrap_small 4) by (rewrite blen_app in *; pose proof (blen_nonneg (enc w vs)); zlia).
  rewrite blen_app in *. pose proof (blen_nonneg (enc w vs)).
  rewrite throw_if_false by (apply Z.ltb_ge; lia). cbn [mbind outcome_bind].
  rewrite read_skip_header by (done || lia).
  rewrite (on_tail_over _ (enc w vs) dest _ _ tt); [done|done|].
  destruct (multiplied_divided w vs Hvs) as (g & qs & -> & Hg & Hqs & Hl & Hp & Hm).
  replace (2 + Z.of_nat w + (blen skipped + blen (enc w vs)) - blen skipped - 2)
    with (blen (enc w (g :: qs))) by (rewrite !blen_enc; simpl; lia).
  replace (blen skipped + blen (enc w vs) - blen skipped) with (blen (enc w qs)) by (rewrite !blen_enc, Hl; lia).
  rewrite gcd_decompressDataForType_spec; [|lia|done|done| |].
  - rewrite Z.eqb_refl, orb_true_l, Hm. done.
  - destruct (decide (w ≤ 3)%nat); [by apply Hp|]. apply Forall_true. intros v H4. lia.
  - rewrite blen_drop. fold_blen. rewrite blen_enc in *. rewrite Hl. lia.
Qed.
End codec.

Section instances.
Context (boost_gcd : Z → Z → Z) (libdivide : Z → Z → Z → Z).
Hypothesis boost_gcd_spec : ∀ a b, 0 ≤ a → 0 ≤ b → boost_gcd a b = Z.gcd a b.
Hypothesis libdivide_spec : ∀ t x d,
  t = 4 ∨ t = 8 → 0 ≤ x < 2 ^ (8 * t) → 0 < d < 2 ^ (8 * t) → libdivide t x d = x / d.

Lemma gcd_correct ec n : valid_gcd_size n = true →
  CodecCorrect (codec boost_gcd libdivide ec n) (λ source, 0 < blen source ∧ blen source + 34 < 2 ^ 32).
Proof.
  intros Hv. destruct (valid_gcd_cases n Hv) as (w & -> & Hw & Hw8 & _).
  split; [unfold is_byte; simpl; lia|simpl; lia|].
  intros source tail dest Hb [Hpos Hs] Hmax. simpl in *. unfold getMaxCompressedDataSize in *.
  rewrite wrap_small in * by zlia.
  destruct (split_source w source) as (skipped & vs & -> & Hvs & Hskb & Hsk); [lia|done|].
  exists (data w skipped vs). split_and!.
  - apply gcd_doCompressData_spec; auto; lia.
  - pose proof (Z.mod_pos_bound (blen (skipped ++ enc w vs)) (Z.of_nat w) ltac:(lia)).
    apply Forall_app. split; [|auto with codec].
    apply skip_header_bytes; [unfold is_byte; lia|lia|done].
  - rewrite gcd_blen_data. lia.
  - intros tail' dest' _ Hd. simpl in *. eexists. split.
    + apply gcd_doDecompressData_spec; auto; lia.
    + apply blen_over. lia.
Qed.
End instances.

Lemma gcd_decompressDataForType_safe w src ssize d osz :
  (w = 1 ∨ 4 ≤ w)%nat → is_bytes src → is_bytes d → 0 ≤ ssize ≤ blen src → 0 ≤ osz ≤ blen d →
  safe (decompressDataForType (Z.of_nat w) src ssize d osz) (λ d', blen d' = blen d ∧ is_bytes d').
Proof.
  intros Hw Hb Hd Hs Ho. destruct (Z.eqb_spec (ssize mod Z.of_nat w) 0) as [Hm|Hm].
  2: { unfold decompressDataForType. by rewrite (proj2 (Z.eqb_neq (ssize mod Z.of_nat w) 0) Hm). }
  destruct (split_at src ssize Hs) as (s1 & s2 & -> & Hl). apply Forall_app in Hb as [Hb1 Hb2].
  destruct (split_source w s1 ltac:(lia) Hb1) as (sk & vs & -> & Hvs & _ & Hsk).
  rewrite Hl, Hm in Hsk. apply blen_0_nil in Hsk as ->. cbn [app] in *. rewrite <- Hl in *.
  destruct Hvs as [|g vs Hg Hvs].
  { unfold decompressDataForType. rewrite enc_nil, blen_nil. rewrite (proj2 (Z.ltb_lt 0 (Z.of_nat w))) by lia.
    by destruct (negb _). }
  rewrite gcd_decompressDataForType_spec; [|lia|done|done| |done].
  - destruct (_ || _) eqn:E; [simpl|done].
    split; [apply blen_over|auto with codec]. rewrite blen_enc, length_multiplied, <- blen_enc.
    rewrite orb_true_iff, andb_true_iff, Z.eqb_eq, Z.leb_le in E. lia.
  - eapply Forall_impl; [|exact Hvs]. intros v Hv. apply product_ok_width; auto; lia.
Qed.

(** * Theorems *)

(** For every non-empty source, GCD with a width of 1, 2, 4, 8, 16 or 32 bytes writes,
    within the size it reserved, data from which decompression gives the source back.
    [boost::integer::gcd] is assumed to be the greatest common divisor and
    [libdivide::divider] to divide. *)
Theorem gcd_roundtrip (boost_gcd : Z → Z → Z) (libdivide : Z → Z → Z → Z)
    (n : Z) (source dest dest' tail : bytes) :
  (∀ a b, 0 ≤ a → 0 ≤ b → boost_gcd a b = Z.gcd a b) →
  (∀ t x d, t = 4 ∨ t = 8 → 0 ≤ x < 2 ^ (8 * t) → 0 < d < 2 ^ (8 * t) → libdivide t x d = x / d) →
  valid_gcd_size n = true → is_bytes source → 0 < blen source → blen source + 34 < 2 ^ 32 →
  getMaxCompressedDataSize n (blen source) ≤ blen dest → blen source ≤ blen dest' →
  ∃ out,
    doCompressData boost_gcd libdivide n source (blen source) dest = Ret (over out dest, blen out) ∧
    blen out = getMaxCompressedDataSize n (blen source) ∧
    doDecompressData (out ++ tail) (blen out) dest' (blen source) = Ret (over source dest').
Proof.
  intros Hbg Hld Hv Hb Hpos Hs Hmax Hd. unfold getMaxCompressedDataSize in *.
  destruct (valid_gcd_cases n Hv) as (w & -> & Hw & Hw8 & _). rewrite wrap_small in * by zlia.
  destruct (split_source w source) as (skipped & vs & -> & Hvs & Hskb & Hsk); [lia|done|].
  exists (data w skipped vs). split_and!; [|rewrite gcd_blen_data; lia|].
  - rewrite <- (app_nil_r (skipped ++ enc w vs)) at 1. apply gcd_doCompressData_spec; auto; lia.
  - by apply gcd_doDecompressData_spec.
Qed.

Lemma gcd_roundtrip_witness :
  ∃ out,
    doCompressData Z.gcd (λ _ x d, x / d) 2 [7; 6; 0; 10; 0] (blen [7; 6; 0; 10; 0]) (replicate 9 0) =
      Ret (over out (replicate 9 0), blen out) ∧
    blen out = getMaxCompressedDataSize 2 (blen [7; 6; 0; 10; 0]) ∧
    doDecompressData (out ++ []) (blen out) (replicate 5 9) (blen [7; 6; 0; 10; 0]) =
      Ret (over [7; 6; 0; 10; 0] (replicate 5 9)).
Proof.
  apply (gcd_roundtrip Z.gcd (λ _ x d, x / d) 2 [7; 6; 0; 10; 0] (replicate 9 0) (replicate 5 9) []);
    [done|done|done|by apply is_bytes_compute|vm_compute; done..].
Defined.

(** Decompression of arbitrary bytes with GCD returns or throws, unless the header says
    that the values have two bytes. *)
Theorem gcd_decompress_never_ub (source dest : bytes) (source_size uncompressed_size : Z) :
  is_bytes source → is_bytes dest → 0 ≤ source_size ≤ blen source → source_size < 2 ^ 32 →
  0 < uncompressed_size ≤ blen dest → uncompressed_size < 2 ^ 32 →
  load 1 source 0 ≠ Ret 2 →
  safe (doDecompressData source source_size dest uncompressed_size)
    (λ dest', blen dest' = blen dest ∧ is_bytes dest').
Proof.
  intros Hb Hd Hs Hs32 Hu Hu32 Hn2. unfold doDecompressData.
  destruct (Z.ltb_spec source_size 2); [done|]. cbn [throw_if mbind outcome_bind].
  rewrite (proj2 (Z.eqb_neq _ _)) by lia.
  destruct (load_safe 1 source 0 Hb) as (b & E & _); [lia..|]. rewrite E in *. cbn [mbind outcome_bind].
  destruct (valid_gcd_size b) eqn:Hv; [|done]. cbn [negb throw_if mbind outcome_bind].
  destruct (valid_gcd_cases b Hv) as (w & -> & Hw & _ & Hw4).
  assert (w ≠ 2)%nat as Hw2 by (by intros ->).
  pose proof (Z.mod_pos_bound uncompressed_size (Z.of_nat w) ltac:(lia)) as Hk.
  pose proof (Z.mod_le uncompressed_size (Z.of_nat w) ltac:(lia) ltac:(lia)).
  set (k := uncompressed_size mod Z.of_nat w) in *.
  rewrite (wrap_small 1 k), (wrap_small 4 (uncompressed_size - k)), (wrap_small 4 (2 + k)) by zlia.
  destruct (Z.ltb_spec source_size (2 + k)); [done|]. cbn [throw_if mbind outcome_bind].
  destruct (read_bytes_safe source 2 k) as (sk & -> & Hskl & Hskb); [lia..|]. cbn [mbind outcome_bind].
  destruct (write_bytes_safe dest 0 sk) as (dest1 & -> & Hdl & Hdb); [lia..|]. cbn [mbind outcome_bind].
  destruct (tail_at_safe source (2 + k)) as (src & -> & _ & Hsl & Hsb); [lia|]. cbn [mbind outcome_bind].
  rewrite (wrap_small 4) by zlia.
  eapply safe_bind; [apply (on_tail_safe dest1 k _ (λ _, True)); [lia|auto|]|].
  - intros t Ht Htb. eapply safe_bind; [apply gcd_decompressDataForType_safe; auto; lia|].
    intros d' [Hd1 Hd2]. simpl. auto.
  - intros [d' []] (Hd1 & Hd2 & _). simpl in *. split; [lia|done].
Qed.

Lemma gcd_decompress_never_ub_witness :
  safe (doDecompressData [4; 0; 3; 0; 0; 0; 5; 0; 0; 0] 10 (replicate 4 0) 4)
    (λ dest', blen dest' = blen (replicate 4 0) ∧ is_bytes dest').
Proof.
  apply gcd_decompress_never_ub; [by apply is_bytes_compute..|vm_compute; split; congruence|done|vm_compute; split; congruence|done|done].
Defined.

(** Data of two-byte values whose divisor and quotient have a product of at least
    [2 ^ 31] makes decompression multiply two [UInt16], promoted to [int], beyond the
    range of [int], which is undefined. *)
Theorem gcd_uint16_overflow_ub (g v : Z) (tail dest : bytes) :
  in_width 2 g → in_width 2 v → 2 ^ 31 ≤ v * g → 2 ≤ blen dest →
  doDecompressData (skip_header 2 [] ++ enc 2 [g; v] ++ tail) 6 dest 2 = UB.
Proof.
  intros Hg Hv Hov Hd. unfold doDecompressData. cbn [throw_if mbind outcome_bind Z.ltb Z.compare Pos.compare Pos.compare_cont Z.eqb].
  rewrite load_skip_header. cbn [mbind outcome_bind].
  change (valid_gcd_size 2) with true. cbn [negb throw_if mbind outcome_bind].
  change (u8 (2 mod 2)) with 0. change (6 <? u32 (2 + 0)) with false. cbn [throw_if mbind outcome_bind].
  rewrite read_skip_header by (done || blia). rewrite over_nil.
  unfold on_tail. replace (tail_at dest 0) with (Ret dest) by (symmetry; by apply (tail_at_app [] dest)). cbn [mbind outcome_bind].
  change (u32 (6 - 0 - 2)) with 4. change (u32 (2 - 0)) with 2.
  unfold decompressDataForType. change (4 mod 2 =? 0) with true. change (4 <? 2) with false.
  cbn [negb throw_if mbind outcome_bind].
  pose proof (load_prefix 2 g (enc 2 [v] ++ tail) Hg) as E0. change (Z.of_nat 2) with 2 in E0.
  rewrite enc_cons, <- app_assoc, E0. cbn [mbind outcome_bind].
  unfold in_width in *. change (2 ^ (8 * Z.of_nat 2)) with 65536 in *.
  assert (g ≠ 0 ∧ g ≠ 1) as [Hg0 Hg1] by (split; intros ->; zlia).
  rewrite (proj2 (Z.eqb_neq g 0)), (proj2 (Z.eqb_neq g 1)) by done. cbn [orb].
  change (Z.to_nat 4) with 4%nat. cbn [multiply_loop].
  change (2 <? 4) with true. change (2 <? 0 + 2) with false. cbn [throw_if mbind outcome_bind].
  pose proof (load_enc 2 (le_split 2 g) v [] tail 2 Hv ltac:(by rewrite blen_le_split)) as E.
  change (Z.of_nat 2) with 2 in E. rewrite E. cbn [mbind outcome_bind].
  unfold product. change (negb (2 <? 4)) with false. cbn [orb].
  by rewrite (proj2 (Z.ltb_ge (v * g) (2 ^ 31)) Hov).
Qed.

Lemma gcd_uint16_overflow_ub_witness :
  doDecompressData (skip_header 2 [] ++ enc 2 [65535; 65535] ++ []) 6 (replicate 2 0) 2 = UB.
Proof. by apply gcd_uint16_overflow_ub. Defined.
End GCD.
