(* ===== verification/CodecDoubleDelta.v ===== *)
(** The codec DoubleDelta (src/src/Compression/CompressionCodecDoubleDelta.cpp):
    differences of differences, written with a prefix code over a bit stream. *)

From S2P Require Import Prelude BitIO CodecBase CodecDelta.
From stdpp Require Import base tactics list numbers sets.
Local Open Scope Z_scope.

Module DoubleDelta.

Definition getMaxValueForByteSize (byte_size : Z) : outcome Z :=
  if byte_size =? 1 then Ret (2 ^ 7 - 1)
  else if byte_size =? 2 then Ret (2 ^ 15 - 1)
  else if byte_size =? 4 then Ret (2 ^ 31 - 1)
  else if byte_size =? 8 then Ret (2 ^ 63 - 1)
  else Throw LOGICAL_ERROR.

Record WriteSpec := mkSpec { prefix_bits : Z; prefix : Z; data_bits : Z }.

(** Sizes of the prefix and of the data by the five highest bits of the stream. *)
Definition WRITE_SPEC_LUT : list WriteSpec :=
  replicate 16 (mkSpec 1 0x0 0) ++
  replicate 8 (mkSpec 2 0x2 7) ++
  replicate 4 (mkSpec 3 0x6 9) ++
  replicate 2 (mkSpec 4 0xe 12) ++
  [mkSpec 5 0x1e 32; mkSpec 5 0x1f 64].

Definition getDeltaWriteSpec (value : Z) : WriteSpec :=
  if (-63 <? value) && (value <? 64) then mkSpec 2 0x2 7
  else if (-255 <? value) && (value <? 256) then mkSpec 3 0x6 9
  else if (-2047 <? value) && (value <? 2048) then mkSpec 4 0xe 12
  else if (- 2 ^ 31 <? value) && (value <? 2 ^ 31 - 1) then mkSpec 5 0x1e 32
  else mkSpec 5 0x1f 64.

Definition getDeltaMaxWriteSpecByteSize (data_bytes_size : Z) : outcome WriteSpec :=
  v ← getMaxValueForByteSize data_bytes_size;
  Ret (getDeltaWriteSpec v).

Definition getCompressedHeaderSize (data_bytes_size : Z) : Z :=
  let items_count_size := 4 in
  let first_delta_bytes_size := data_bytes_size in
  items_count_size + data_bytes_size + first_delta_bytes_size.

Definition getCompressedDataSize (data_bytes_size uncompressed_size : Z) : outcome Z :=
  let items_count := uncompressed_size / data_bytes_size in
  double_delta_write_spec ← getDeltaMaxWriteSpecByteSize data_bytes_size;
  let max_item_size_bits := prefix_bits double_delta_write_spec + data_bits double_delta_write_spec in
  Ret (u32 (items_count * max_item_size_bits + 7) / 8).

(** ** Compression *)

(** The bits of one value. *)
Definition write_item (w : Z) (double_delta : Z) (writer : BitWriter.t) : outcome BitWriter.t :=
  if double_delta =? 0 then BitWriter.writeBits 1 0 writer
  else
    let signed_dd := to_signed w double_delta in
    let sign := Z.b2z (signed_dd <? 0) in
    let abs_value :=
      if signed_dd =? - 2 ^ (8 * w - 1) then Z.shiftr (2 ^ (8 * w) - 1) 1
      else wrap w (Z.abs signed_dd - 1) in
    let write_spec := getDeltaWriteSpec signed_dd in
    writer ← BitWriter.writeBits (prefix_bits write_spec) (prefix write_spec) writer;
    writer ← BitWriter.writeBits 1 sign writer;
    BitWriter.writeBits (data_bits write_spec - 1) abs_value writer.

Fixpoint compress_loop (w : Z) (fuel : nat) (mem : bytes) (source source_end : Z)
  (prev_value prev_delta : Z) (writer : BitWriter.t) : outcome BitWriter.t :=
  if source <? source_end then
    match fuel with
    | O => OutOfFuel
    | S fuel =>
        curr_value ← load w mem source;
        let delta := wrap w (curr_value - prev_value) in
        let double_delta := wrap w (delta - prev_delta) in
        writer ← write_item w double_delta writer;
        compress_loop w fuel mem (source + w) source_end curr_value delta writer
    end
  else Ret writer.

(** Offsets from the beginning of the memory given to the function stand for the
    pointers [source] and [dest]. *)
Definition compressDataForType (w : Z) (mem : bytes) (source_size : Z) (dmem : bytes) : outcome (bytes * Z) :=
  _ ← throw_if (negb (source_size mod w =? 0)) CANNOT_COMPRESS;
  let items_count := source_size / w in
  dmem ← store 4 dmem 0 items_count;
  '(dmem, source, dest, prev_value) ←
    (if 0 <? source_size then
       prev_value ← load w mem 0;
       dmem ← store w dmem 4 prev_value;
       Ret (dmem, w, 4 + w, prev_value)
     else Ret (dmem, 0, 4, 0));
  '(dmem, source, dest, prev_value, prev_delta) ←
    (if source <? source_size then
       curr_value ← load w mem source;
       let prev_delta := wrap w (curr_value - prev_value) in
       dmem ← store w dmem dest prev_delta;
       Ret (dmem, source + w, dest + w, curr_value, prev_delta)
     else Ret (dmem, source, dest, prev_value, 0));
  size ← getCompressedDataSize w (u32 (source_size - w * 2));
  let writer := BitWriter.create dmem dest size in
  writer ← compress_loop w (Z.to_nat items_count) mem source source_size prev_value prev_delta writer;
  writer ← BitWriter.flush writer;
  Ret (BitWriter.dest writer, u32 (dest + (BitWriter.count writer + 7) / 8)).

Definition getMaxCompressedDataSize (data_bytes_size uncompressed_size : Z) : outcome Z :=
  size ← getCompressedDataSize data_bytes_size uncompressed_size;
  Ret (u32 (2 + data_bytes_size + getCompressedHeaderSize data_bytes_size + size)).

Definition doCompressData (data_bytes_size : Z) (source : bytes) (source_size : Z) (dest : bytes)
  : outcome (bytes * Z) :=
  _ ← ub_unless (negb (data_bytes_size =? 0));
  let bytes_to_skip := u8 (source_size mod data_bytes_size) in
  dest ← write_bytes dest 0 [data_bytes_size];
  dest ← write_bytes dest 1 [bytes_to_skip];
  skipped ← read_bytes source 0 bytes_to_skip;
  dest ← write_bytes dest 2 skipped;
  let start_pos := 2 + bytes_to_skip in
  '(dest, compressed_size) ←
    (if valid_size data_bytes_size then
       src ← tail_at source bytes_to_skip;
       on_tail dest start_pos (compressDataForType data_bytes_size src (source_size - bytes_to_skip))
     else Ret (dest, 0));
  Ret (dest, u32 (1 + 1 + compressed_size)).

(** ** Decompression *)

(** One value read from the stream: its double delta. *)
Definition read_item (w : Z) (reader : BitReader.t) : outcome (Z * BitReader.t) :=
  '(b, reader) ← BitReader.peekByte reader;
  match WRITE_SPEC_LUT !! Z.to_nat (Z.shiftr b (8 - 5)) with
  | None => UB
  | Some write_spec =>
      reader ← BitReader.skipBufferedBits (prefix_bits write_spec) reader;
      if negb (data_bits write_spec =? 0) then
        '(sign, reader) ← BitReader.readBit reader;
        '(v, reader) ← BitReader.readBits (data_bits write_spec - 1) reader;
        let double_delta := wrap w (u64 (v + 1)) in
        Ret (if negb (sign =? 0) then wrap w (- double_delta) else double_delta, reader)
      else Ret (0, reader)
  end.

Fixpoint decompress_loop (w : Z) (fuel : nat) (items_read items_count : Z) (reader : BitReader.t)
  (dmem : bytes) (dest output_end : Z) (prev_value prev_delta : Z) : outcome bytes :=
  if (items_read <? items_count) && negb (BitReader.eof reader) then
    match fuel with
    | O => OutOfFuel
    | S fuel =>
        '(double_delta, reader) ← read_item w reader;
        let delta := wrap w (double_delta + prev_delta) in
        let curr_value := wrap w (prev_value + delta) in
        _ ← throw_if (output_end <? dest + w) CANNOT_DECOMPRESS;
        dmem ← store w dmem dest curr_value;
        decompress_loop w fuel (items_read + 1) items_count reader dmem (dest + w) output_end
          curr_value (wrap w (curr_value - prev_value))
    end
  else Ret dmem.

Definition decompressDataForType (w : Z) (mem : bytes) (source_size : Z) (dmem : bytes) (output_size : Z)
  : outcome bytes :=
  let source_end := source_size in
  let output_end := output_size in
  if source_end <? 4 then Ret dmem else
  items_count ← load 4 mem 0;
  if (source_end <? 4 + w) || (items_count <? 1) then Ret dmem else
  prev_value ← load w mem 4;
  _ ← throw_if (output_end <? w) CANNOT_DECOMPRESS;
  dmem ← store w dmem 0 prev_value;
  if (source_end <? 4 + w + w) || (items_count <? 2) then Ret dmem else
  prev_delta ← load w mem (4 + w);
  let prev_value := wrap w (prev_value + prev_delta) in
  _ ← throw_if (output_end <? w + w) CANNOT_DECOMPRESS;
  dmem ← store w dmem w prev_value;
  let reader := BitReader.create mem (4 + w + w) (source_size - w - w - 4) in
  decompress_loop w (Z.to_nat items_count) 2 items_count reader dmem (w + w) output_end prev_value prev_delta.

Definition doDecompressData (source : bytes) (source_size : Z) (dest : bytes) (uncompressed_size : Z)
  : outcome bytes :=
  _ ← throw_if (source_size <? 2) CANNOT_DECOMPRESS;
  bytes_size ← load 1 source 0;
  _ ← throw_if (bytes_size =? 0) CANNOT_DECOMPRESS;
  let bytes_to_skip := u8 (uncompressed_size mod bytes_size) in
  let output_size := u32 (uncompressed_size - bytes_to_skip) in
  _ ← throw_if (source_size <? u32 (2 + bytes_to_skip)) CANNOT_DECOMPRESS;
  skipped ← read_bytes source 2 bytes_to_skip;
  dest ← write_bytes dest 0 skipped;
  let source_size_no_header := u32 (source_size - bytes_to_skip - 2) in
  src ← tail_at source (2 + bytes_to_skip);
  if valid_size bytes_size then
    '(dest, _) ← on_tail dest bytes_to_skip (λ d,
      d ← decompressDataForType bytes_size src source_size_no_header d output_size; Ret (d, tt));
    Ret dest
  else Ret dest.

(** * The prefix code *)

(** What is written for a double delta, as a sequence of values with their widths. *)
Definition item_values (w : Z) (dd : Z) : list (nat * Z) :=
  if dd =? 0 then [(1%nat, 0)]
  else
    let s := to_signed w dd in
    let spec := getDeltaWriteSpec s in
    [(Z.to_nat (prefix_bits spec), prefix spec); (1%nat, Z.b2z (s <? 0));
     (Z.to_nat (data_bits spec - 1), Z.abs s - 1)].

Section prefix_code.
Context (w : Z) (Hw : 1 ≤ w ≤ 8).

(** A double delta that is not zero, as a signed integer. *)
Lemma signed_dd_range dd : 0 < dd < 2 ^ (8 * w) →
  to_signed w dd ≠ 0 ∧ - 2 ^ 63 ≤ to_signed w dd < 2 ^ 63 ∧ wrap w (to_signed w dd) = dd.
Proof.
  intros Hdd. pose proof (to_signed_range w dd ltac:(lia)) as Hs.
  assert (2 ^ (8 * w - 1) ≤ 2 ^ 63) by (apply Z.pow_le_mono_r; lia).
  assert (wrap w (to_signed w dd) = dd) as Hm by (rewrite to_signed_mod by lia; apply wrap_small; lia).
  split_and!; [|lia|lia|done]. intros E. rewrite E in Hm. unfold wrap in Hm. rewrite Z.mod_0_l in Hm; lia.
Qed.

(** The table of the code: the prefixes, and values that fit in the data bits. *)
Lemma write_spec_cases s :
  s ≠ 0 → - 2 ^ 63 ≤ s < 2 ^ 63 →
  0 ≤ Z.abs s - 1 < 2 ^ (data_bits (getDeltaWriteSpec s) - 1) ∧
  getDeltaWriteSpec s ∈
    [mkSpec 2 0x2 7; mkSpec 3 0x6 9; mkSpec 4 0xe 12; mkSpec 5 0x1e 32; mkSpec 5 0x1f 64].
Proof.
  intros H0 Hs. unfold getDeltaWriteSpec.
  repeat match goal with |- context [if ?b then _ else _] => destruct b eqn:? end;
    repeat match goal with H : _ && _ = true |- _ => apply andb_true_iff in H as [?%Z.ltb_lt ?%Z.ltb_lt] end;
    cbn [data_bits]; (split; [zlia|apply list_elem_of_In; simpl; auto 10]).
Qed.

Lemma abs_value_spec s :
  s ≠ 0 → - 2 ^ (8 * w - 1) ≤ s < 2 ^ (8 * w - 1) →
  (if s =? - 2 ^ (8 * w - 1) then Z.shiftr (2 ^ (8 * w) - 1) 1 else wrap w (Z.abs s - 1)) = Z.abs s - 1.
Proof.
  intros H0 Hs.
  assert (2 ^ (8 * w) = 2 * 2 ^ (8 * w - 1)) as Hp by (rewrite <- Z.pow_succ_r by lia; f_equal; lia).
  destruct (Z.eqb_spec s (- 2 ^ (8 * w - 1))) as [->|].
  - rewrite Z.shiftr_div_pow2, Z.abs_opp, Z.abs_eq by lia. symmetry. apply Z.div_unique with (r := 1); lia.
  - apply wrap_small. lia.
Qed.

Lemma write_item_values dd writer :
  0 ≤ dd < 2 ^ (8 * w) → write_item w dd writer = write_values (item_values w dd) writer.
Proof.
  intros Hdd. unfold write_item, item_values.
  assert (∀ m : outcome BitWriter.t, (x ← m; Ret x) = m) as Hret by (by intros []).
  destruct (Z.eqb_spec dd 0); [symmetry; apply Hret|].
  destruct (signed_dd_range dd ltac:(lia)) as (Hs0 & Hs & _).
  rewrite abs_value_spec by (done || (apply to_signed_range; lia)).
  destruct (write_spec_cases _ Hs0 Hs) as [_ Hspec]. cbn [write_values].
  set_unfold in Hspec. destruct_or! Hspec; rewrite Hspec; cbn [prefix_bits prefix data_bits];
    destruct (BitWriter.writeBits _ _ writer) as [wr1| | |]; cbn [mbind outcome_bind]; try done;
    destruct (BitWriter.writeBits _ _ wr1) as [wr2| | |]; cbn [mbind outcome_bind]; try done;
    symmetry; apply Hret.
Qed.

Lemma item_values_widths dd : 0 ≤ dd < 2 ^ (8 * w) → Forall (λ p, 1 ≤ p.1 ≤ 64)%nat (item_values w dd).
Proof.
  intros Hdd. unfold item_values. destruct (Z.eqb_spec dd 0); [repeat constructor; simpl; lia|].
  destruct (signed_dd_range dd ltac:(lia)) as (Hs0 & Hs & _).
  destruct (write_spec_cases _ Hs0 Hs) as [_ Hspec].
  set_unfold in Hspec. destruct_or! Hspec; rewrite Hspec; repeat constructor; simpl; lia.
Qed.

(** The table finds the code of a prefix whatever bits follow it. *)
Lemma lut_spec spec t :
  spec ∈ [mkSpec 1 0x0 0; mkSpec 2 0x2 7; mkSpec 3 0x6 9; mkSpec 4 0xe 12; mkSpec 5 0x1e 32; mkSpec 5 0x1f 64] →
  length (to_bits (Z.to_nat (prefix_bits spec)) (prefix spec) ++ t) = 5%nat →
  WRITE_SPEC_LUT !! Z.to_nat (bits_val (to_bits (Z.to_nat (prefix_bits spec)) (prefix spec) ++ t)) = Some spec.
Proof.
  intros Hs. rewrite length_app, length_to_bits. set_unfold in Hs.
  destruct_or! Hs; subst spec; cbn [prefix_bits]; intros Hl;
    repeat (destruct t as [|[] t]; simpl in Hl; try lia; try done).
Qed.

Lemma peek_prefix r spec rest :
  spec ∈ [mkSpec 1 0x0 0; mkSpec 2 0x2 7; mkSpec 3 0x6 9; mkSpec 4 0xe 12; mkSpec 5 0x1e 32; mkSpec 5 0x1f 64] →
  reader_bits r (to_bits (Z.to_nat (prefix_bits spec)) (prefix spec) ++ rest) →
  ∃ b r1 r2, BitReader.peekByte r = Ret (b, r1) ∧
    WRITE_SPEC_LUT !! Z.to_nat (Z.shiftr b (8 - 5)) = Some spec ∧
    BitReader.skipBufferedBits (prefix_bits spec) r1 = Ret r2 ∧ reader_bits r2 rest.
Proof.
  intros Hs Hr. set (pl := to_bits _ _) in *.
  assert (1 ≤ length pl ≤ 5 ∧ Z.of_nat (length pl) = prefix_bits spec)%nat as [Hl Hlz].
  { unfold pl. rewrite length_to_bits. set_unfold in Hs. destruct_or! Hs; subst spec; simpl; lia. }
  destruct (peekByte_spec _ _ Hr) as (r1 & Hpeek & Hr1 & Hcnt). rewrite length_app in Hcnt.
  destruct (skip_spec r1 _ (length pl) Hr1) as (r2 & Hskip & Hr2); [lia|lia|].
  rewrite drop_app_length in Hr2. rewrite Hlz in Hskip.
  eexists _, r1, r2. split_and!; [done| |done|done].
  set (X := (pl ++ rest) ++ replicate 8 false).
  assert (length X ≥ 8)%nat as HX by (unfold X; rewrite length_app, length_replicate; lia).
  assert (length (drop 5 (take 8 X)) = 3%nat) as Hd3 by (rewrite length_drop, length_take; lia).
  pose proof (bits_val_shiftr (take 5 (take 8 X)) (drop 5 (take 8 X))) as E.
  rewrite take_drop, Hd3 in E. change (8 - 5) with (Z.of_nat 3). rewrite E, take_take.
  assert (take (5 `min` 8) X = pl ++ take (5 - length pl) (rest ++ replicate 8 false)) as ->.
  { unfold X. rewrite <- app_assoc, take_app_ge by (simpl; lia). done. }
  apply lut_spec; [done|]. fold pl. rewrite length_app, length_take, length_app, length_replicate. lia.
Qed.

(** Reading undoes writing. *)
Lemma read_item_spec dd r rest :
  0 ≤ dd < 2 ^ (8 * w) → reader_bits r (values_bits (item_values w dd) ++ rest) →
  ∃ r', read_item w r = Ret (dd, r') ∧ reader_bits r' rest.
Proof.
  intros Hdd Hr. unfold read_item, item_values in *. destruct (Z.eqb_spec dd 0) as [->|Hne].
  - destruct (peek_prefix r (mkSpec 1 0 0) rest ltac:(by left)) as (b & r1 & r2 & -> & Hlut & Hskip & Hr2);
      [done|]. cbn [mbind outcome_bind]. rewrite Hlut, Hskip. by exists r2.
  - destruct (signed_dd_range dd ltac:(lia)) as (Hs0 & Hs & Hwrap). set (s := to_signed w dd) in *.
    destruct (write_spec_cases s Hs0 Hs) as [Habs Hspec]. set (spec := getDeltaWriteSpec s) in *.
    unfold values_bits in Hr. cbn [fmap list_fmap concat fst snd] in Hr. rewrite app_nil_r, <- !app_assoc in Hr.
    destruct (peek_prefix r spec _ ltac:(by right) Hr) as (b & r1 & r2 & -> & Hlut & Hskip & Hr2).
    cbn [mbind outcome_bind]. rewrite Hlut, Hskip. cbn [mbind outcome_bind].
    assert (8 ≤ data_bits spec ≤ 64 ∨ data_bits spec = 7) as Hdb
      by (clearbody spec; set_unfold in Hspec; destruct_or! Hspec; subst spec; simpl; lia).
    rewrite (proj2 (Z.eqb_neq (data_bits spec) 0)) by lia. cbn [negb].
    destruct (readBit_spec r2 _ _ Hr2) as (r3 & -> & Hr3). cbn [mbind outcome_bind].
    set (n := Z.to_nat (data_bits spec - 1)) in *.
    destruct (readBits_spec r3 _ _ Hr3) as (r4 & E & Hr4); [rewrite length_to_bits; lia|].
    rewrite length_to_bits, bits_val_to_bits in E.
    replace (Z.of_nat n) with (data_bits spec - 1) in E by lia. rewrite E. cbn [mbind outcome_bind].
    exists r4. split; [|done]. do 2 f_equal. rewrite (Z.mod_small (Z.abs s - 1)) by done.
    assert (2 ^ (data_bits spec - 1) ≤ 2 ^ 63) by (apply Z.pow_le_mono_r; lia).
    rewrite (wrap_small 8) by zlia. replace (Z.abs s - 1 + 1) with (Z.abs s) by lia.
    replace (negb (Z.b2z (Z.testbit (Z.b2z (s <? 0)) 0) =? 0)) with (s <? 0) by (by destruct (s <? 0)).
    rewrite <- Hwrap. destruct (Z.ltb_spec s 0).
    + rewrite wrap_opp. f_equal. lia.
    + f_equal. lia.
Qed.
End prefix_code.

(** * The loops *)

Fixpoint dds (w : Z) (prev_value prev_delta : Z) (vs : list Z) : list Z :=
  match vs with
  | [] => []
  | v :: vs =>
      let delta := wrap w (v - prev_value) in
      wrap w (delta - prev_delta) :: dds w v delta vs
  end.

(** What the writer is given for the values after the second. *)
Definition items (w : Z) (prev_value prev_delta : Z) (vs : list Z) : list (nat * Z) :=
  concat (item_values w <$> dds w prev_value prev_delta vs).

Section loops.
Context (w : nat) (Hw : (1 ≤ w ≤ 8)%nat).
Abbreviation wz := (Z.of_nat w).

Lemma items_cons pv pd v vs :
  items wz pv pd (v :: vs) =
    item_values wz (wrap wz (wrap wz (v - pv) - pd)) ++ items wz v (wrap wz (v - pv)) vs.
Proof. done. Qed.

Lemma items_widths pv pd vs : Forall (λ p, 1 ≤ p.1 ≤ 64)%nat (items wz pv pd vs).
Proof.
  revert pv pd. induction vs as [|v vs IH]; intros; [constructor|].
  rewrite items_cons. apply Forall_app. split; [|apply IH].
  apply item_values_widths; [lia|apply wrap_range; lia].
Qed.

Lemma compress_loop_items vs fuel pre post pv pd writer :
  all_width w vs → (length vs ≤ fuel)%nat →
  compress_loop wz fuel (pre ++ enc w vs ++ post) (blen pre) (blen pre + blen (enc w vs)) pv pd writer =
    write_values (items wz pv pd vs) writer.
Proof.
  intros Hvs. revert fuel pre pv pd writer. induction Hvs as [|v vs Hv _ IH]; intros fuel pre pv pd writer Hf.
  - rewrite enc_nil, blen_nil, Z.add_0_r. destruct fuel; simpl; by rewrite Z.ltb_irrefl.
  - destruct fuel as [|fuel]; [simpl in Hf; lia|]. cbn [compress_loop length] in *.
    rewrite (proj2 (Z.ltb_lt _ _)) by (rewrite blen_enc; simpl; nia).
    rewrite load_enc by done. cbn [mbind outcome_bind].
    rewrite items_cons, write_values_app, write_item_values by (lia || (apply wrap_range; lia)).
    destruct (write_values (item_values _ _) writer) as [writer'| | |]; cbn [mbind outcome_bind]; try done.
    rewrite !enc_cons, <- !app_assoc, blen_app, (app_assoc pre).
    replace (blen pre + wz) with (blen (pre ++ le_split w v)) by blia.
    replace (blen pre + (blen (le_split w v) + blen (enc w vs)))
      with (blen (pre ++ le_split w v) + blen (enc w vs)) by blia.
    apply IH. lia.
Qed.

Lemma item_bits_nonempty dd rest : values_bits (item_values wz dd) ++ rest ≠ [].
Proof.
  intros [E _]%app_nil. unfold item_values in E. destruct (dd =? 0); [done|].
  apply (f_equal length) in E. unfold values_bits in E. cbn [fmap list_fmap concat fst snd] in E.
  rewrite !length_app, !length_to_bits in E. simpl in E. lia.
Qed.

Lemma dd_decompress_loop_spec vs fuel items_read reader pad dpre old osz pv pd :
  all_width w vs → (length vs ≤ fuel)%nat →
  reader_bits reader (values_bits (items wz pv pd vs) ++ pad) →
  in_width w pv → in_width w pd →
  Z.of_nat (w * length vs) ≤ osz → osz ≤ blen old →
  decompress_loop wz fuel items_read (items_read + Z.of_nat (length vs)) reader (dpre ++ old) (blen dpre)
    (blen dpre + osz) pv pd = Ret (dpre ++ over (enc w vs) old).
Proof.
  intros Hvs. revert fuel items_read reader dpre old osz pv pd.
  induction Hvs as [|v vs Hv _ IH]; intros fuel items_read reader dpre old osz pv pd Hf Hr Hpv Hpd Hosz Hold.
  - rewrite enc_nil, over_nil, Z.add_0_r. destruct fuel; simpl; by rewrite Z.ltb_irrefl.
  - destruct fuel as [|fuel]; [simpl in Hf; lia|]. cbn [decompress_loop length] in *.
    rewrite items_cons, values_bits_app, <- app_assoc in Hr.
    rewrite (proj2 (Z.ltb_lt _ _)), (bit_eof_spec _ _ Hr) by lia.
    rewrite bool_decide_eq_false_2 by apply item_bits_nonempty. cbn [negb andb].
    set (delta := wrap wz (v - pv)) in *.
    destruct (read_item_spec wz ltac:(lia) _ _ _ (wrap_range wz _ ltac:(lia)) Hr) as (r' & -> & Hr').
    cbn [mbind outcome_bind]. rewrite wrap_add_l. replace (delta - pd + pd) with delta by lia.
    replace (wrap wz (pv + wrap wz delta)) with v.
    2: { unfold delta. rewrite wrap_wrap, wrap_add_r. replace (pv + (v - pv)) with v by lia.
         symmetry. by apply wrap_small. }
    rewrite throw_if_false by (apply Z.ltb_ge; nia). cbn [mbind outcome_bind].
    rewrite store_at by (lia || nia || done). cbn [mbind outcome_bind]. rewrite Nat2Z.id.
    unfold over at 1. rewrite length_le_split, (app_assoc dpre).
    replace (blen dpre + wz) with (blen (dpre ++ le_split w v)) by blia.
    replace (blen dpre + osz) with (blen (dpre ++ le_split w v) + (osz - wz)) by blia.
    replace (items_read + Z.of_nat (S (length vs))) with (items_read + 1 + Z.of_nat (length vs)) by lia.
    rewrite (IH fuel (items_read + 1) r'); auto with codec; [|lia|nia|autorewrite with blen; lia].
    by rewrite <- app_assoc, enc_cons, over_app, length_le_split.
Qed.

Lemma lut_sizes spec :
  spec ∈ WRITE_SPEC_LUT → 1 ≤ prefix_bits spec ≤ 5 ∧ (data_bits spec = 0 ∨ 7 ≤ data_bits spec ≤ 64).
Proof.
  assert (forallb (λ s, (1 <=? prefix_bits s) && (prefix_bits s <=? 5) &&
    ((data_bits s =? 0) || ((7 <=? data_bits s) && (data_bits s <=? 64)))) WRITE_SPEC_LUT = true) as H by done.
  rewrite forallb_forall in H. intros Hs%list_elem_of_In%H.
  rewrite !andb_true_iff, orb_true_iff, andb_true_iff, !Z.leb_le, Z.eqb_eq in Hs. lia.
Qed.

Lemma read_item_safe r : reader_ok r → safe (read_item wz r) (λ vr, in_width w vr.1 ∧ reader_ok vr.2).
Proof.
  intros Hr. unfold read_item. eapply safe_bind; [by apply peekByte_safe|].
  intros [b r1] (Hb & Hr1 & Hor). simpl in *. unfold is_byte in Hb.
  assert (0 ≤ Z.shiftr b (8 - 5) < 32) as Hs.
  { rewrite Z.shiftr_div_pow2 by lia. change (2 ^ (8 - 5)) with 8.
    split; [apply Z.div_pos; lia|apply Z.div_lt_upper_bound; lia]. }
  assert (∃ spec, WRITE_SPEC_LUT !! Z.to_nat (Z.shiftr b (8 - 5)) = Some spec ∧
    1 ≤ prefix_bits spec ≤ 5 ∧ (data_bits spec = 0 ∨ 7 ≤ data_bits spec ≤ 64)) as (spec & -> & Hp & Hd).
  { destruct (lookup_lt_is_Some_2 WRITE_SPEC_LUT (Z.to_nat (Z.shiftr b (8 - 5)))) as [spec Hspec].
    { unfold WRITE_SPEC_LUT. simpl. lia. }
    exists spec. split; [done|]. apply lut_sizes. by apply list_elem_of_lookup_2 in Hspec. }
  eapply safe_bind; [apply skip_safe; [done|lia|lia]|]. intros r2 Hr2.
  destruct (Z.eqb_spec (data_bits spec) 0); cbn [negb]; [simpl; split; [|done]; unfold in_width; split; [lia|apply Z.pow_pos_nonneg; lia]|].
  eapply safe_bind; [by apply readBit_safe|]. intros [sign r3] [_ Hr3].
  eapply safe_bind; [apply readBits_safe; [done|lia]|]. intros [v r4] [_ Hr4]. simpl in *.
  split; [|done]. destruct (negb _); auto with codec.
Qed.

Lemma decompress_loop_safe fuel items_read items_count reader dmem dest output_end pv pd :
  is_bytes dmem → reader_ok reader → items_count - items_read ≤ Z.of_nat fuel →
  0 ≤ dest → output_end ≤ blen dmem →
  safe (decompress_loop wz fuel items_read items_count reader dmem dest output_end pv pd)
    (λ d, blen d = blen dmem ∧ is_bytes d).
Proof.
  revert items_read reader dmem dest pv pd. induction fuel as [|fuel IH];
    intros items_read reader dmem dest pv pd Hb Hr Hf Hd Ho; cbn [decompress_loop].
  - rewrite (proj2 (Z.ltb_ge _ _)) by lia. by simpl.
  - destruct (_ && _); [|by simpl]. eapply safe_bind; [by apply read_item_safe|].
    intros [dd r'] [_ Hr']. destruct (Z.ltb_spec output_end (dest + wz)); [done|].
    cbn [throw_if mbind outcome_bind].
    destruct (store_safe wz dmem dest (wrap wz (pv + wrap wz (dd + pd)))) as (d' & -> & Hl & Hdb); [lia..|].
    cbn [mbind outcome_bind]. eapply safe_mono; [apply IH; auto; lia|]. simpl. intros d [? ?]. split; [lia|done].
Qed.
End loops.

(** * Sizes *)

(** The bits of the longest item. *)
Definition max_item_bits (w : Z) : Z :=
  if w =? 1 then 12 else if w =? 2 then 37 else 69.

Section sizes.
Context (w : Z) (Hv : valid_size w = true).

Lemma valid_width : w = 1 ∨ w = 2 ∨ w = 4 ∨ w = 8.
Proof. unfold valid_size in Hv. rewrite !orb_true_iff, !Z.eqb_eq in Hv. lia. Qed.

Lemma getCompressedDataSize_spec n :
  getCompressedDataSize w n = Ret (u32 (n / w * max_item_bits w + 7) / 8).
Proof. destruct valid_width as [->|[->|[->| ->]]]; done. Qed.

Lemma item_bits_bound dd :
  0 ≤ dd < 2 ^ (8 * w) → Z.of_nat (length (values_bits (item_values w dd))) ≤ max_item_bits w.
Proof.
  intros Hdd. unfold item_values. destruct (Z.eqb_spec dd 0).
  { destruct valid_width as [->|[->|[->| ->]]]; done. }
  pose proof (to_signed_range w dd ltac:(destruct valid_width; lia)) as Hs. set (s := to_signed w dd) in *.
  unfold values_bits. cbn [fmap list_fmap concat fst snd]. rewrite !length_app, !length_to_bits.
  assert (prefix_bits (getDeltaWriteSpec s) + data_bits (getDeltaWriteSpec s) ≤ max_item_bits w ∧
    1 ≤ prefix_bits (getDeltaWriteSpec s) ∧ 1 ≤ data_bits (getDeltaWriteSpec s)); [|simpl; lia].
  unfold getDeltaWriteSpec.
  repeat match goal with |- context [if ?b then _ else _] => destruct b eqn:? end;
    repeat match goal with
    | H : _ && _ = true |- _ => apply andb_true_iff in H as [?%Z.ltb_lt ?%Z.ltb_lt]
    | H : _ && _ = false |- _ => apply andb_false_iff in H; rewrite !Z.ltb_ge in H
    end;
    destruct valid_width as [Ew|[Ew|[Ew|Ew]]]; rewrite Ew in *; unfold max_item_bits; simpl; try lia; zlia.
Qed.
End sizes.

(** * Whole columns *)

(** The values that are stored as they are: the first value and the first delta. *)
Definition head (w : Z) (vs : list Z) : list Z :=
  match vs with
  | v0 :: v1 :: _ => [v0; wrap w (v1 - v0)]
  | _ => vs
  end.

(** The last of them, and the last delta. *)
Definition head_state (w : Z) (vs : list Z) : Z * Z :=
  match vs with
  | [] => (0, 0)
  | [v0] => (v0, 0)
  | v0 :: v1 :: _ => (v1, wrap w (v1 - v0))
  end.

(** What is written for the other values. *)
Definition tail_items (w : Z) (vs : list Z) : list (nat * Z) :=
  items w (head_state w vs).1 (head_state w vs).2 (drop 2 vs).

Definition column (w : nat) (vs : list Z) (body : bytes) : bytes :=
  le_split 4 (Z.of_nat (length vs)) ++ enc w (head (Z.of_nat w) vs) ++ body.

Section columns.
Context (w : nat) (Hv : valid_size (Z.of_nat w) = true).
Abbreviation wz := (Z.of_nat w).

Lemma width_range : (1 ≤ w ≤ 8)%nat.
Proof. destruct (valid_width wz Hv); lia. Qed.

Lemma head_width vs : all_width w vs → all_width w (head wz vs).
Proof.
  intros Hvs. destruct Hvs as [|v0 [|v1 vs] H0 Hvs]; simpl; [constructor|by constructor|].
  repeat constructor; [apply H0..| |]; apply wrap_range; lia.
Qed.

Lemma length_head vs : length (head wz vs) = Nat.min 2 (length vs).
Proof. by destruct vs as [|? [|? [|? ?]]]. Qed.

Lemma items_bits_bound pv pd vs :
  Z.of_nat (length (values_bits (items wz pv pd vs))) ≤ Z.of_nat (length vs) * max_item_bits wz.
Proof.
  pose proof width_range. revert pv pd. induction vs as [|v vs IH]; intros pv pd; [simpl; lia|].
  rewrite items_cons, values_bits_app, length_app by done. specialize (IH v (wrap wz (v - pv))).
  pose proof (item_bits_bound wz Hv (wrap wz (wrap wz (v - pv) - pd)) (wrap_range wz _ ltac:(lia))).
  cbn [length]. lia.
Qed.


(** The first two steps of [compressDataForType]. *)
Lemma compress_head {B} vs post n dest (K : bytes → Z → Z → Z → Z → outcome B) :
  all_width w vs → 4 + blen (enc w (head wz vs)) ≤ blen dest →
  (dmem ← store 4 dest 0 n;
   '(dmem, source, dest, prev_value) ←
     (if 0 <? blen (enc w vs) then
          prev_value ← load wz (enc w vs ++ post) 0;
          dmem ← store wz dmem 4 prev_value;
          Ret (dmem, wz, 4 + wz, prev_value)
        else Ret (dmem, 0, 4, 0));
   '(dmem, source, dest, prev_value, prev_delta) ←
     (if source <? blen (enc w vs) then
          curr_value ← load wz (enc w vs ++ post) source;
          let prev_delta := wrap wz (curr_value - prev_value) in
          dmem ← store wz dmem dest prev_delta;
          Ret (dmem, source + wz, dest + wz, curr_value, prev_delta)
        else Ret (dmem, source, dest, prev_value, 0));
   K dmem source dest prev_value prev_delta) =
  K (over (le_split 4 n ++ enc w (head wz vs)) dest) (blen (enc w (take 2 vs)))
    (4 + blen (enc w (head wz vs))) (head_state wz vs).1 (head_state wz vs).2.
Proof.
  intros Hvs Hd. pose proof width_range as Hw. pose proof (blen_nonneg (enc w (head wz vs))).
  replace (store 4 dest 0 n) with (Ret (over (le_split 4 n) dest))
    by (symmetry; apply write_first; rewrite blen_le_split; lia).
  cbn [mbind outcome_bind].
  destruct Hvs as [|v0 vs Hv0 Hvs]; [cbn [head take]; by rewrite enc_nil, app_nil_r|].
  rewrite (proj2 (Z.ltb_lt _ _)) by (rewrite blen_enc; simpl; lia).
  replace (load wz _ 0) with (Ret v0) by (symmetry; rewrite enc_cons, <- app_assoc; by apply load_prefix).
  cbn [mbind outcome_bind].
  assert (4 + wz ≤ blen dest) by (destruct vs; simpl in *; rewrite !blen_enc in *; simpl in *; lia).
  rewrite store_over by (rewrite ?blen_le_split; lia). cbn [mbind outcome_bind]. rewrite Nat2Z.id.
  destruct Hvs as [|v1 vs Hv1 Hvs].
  { rewrite (proj2 (Z.ltb_ge _ _)) by (rewrite blen_enc; simpl; lia). cbn [mbind outcome_bind head take head_state fst snd].
    rewrite !blen_enc, enc_cons, enc_nil, app_nil_r. cbn [length]. change (Z.of_nat 1) with 1. by rewrite Z.mul_1_r. }
  rewrite (proj2 (Z.ltb_lt _ _)) by (rewrite blen_enc; simpl; lia).
  rewrite (enc_cons w v0), <- app_assoc, load_enc by (rewrite ?blen_le_split; done). cbn [mbind outcome_bind].
  rewrite store_over by (autorewrite with blen; simpl in *; rewrite blen_enc in *; simpl in *; lia).
  cbn [mbind outcome_bind head take head_state fst snd]. rewrite Nat2Z.id.
  rewrite !blen_enc, !enc_cons, enc_nil, app_nil_r, <- !app_assoc, take_0. cbn [length].
  replace (wz * Z.of_nat 2) with (wz + wz) by lia. by rewrite Z.add_assoc.
Qed.

(** The size given to the writer is enough for the items. *)
Lemma tail_bits_bound vs :
  Z.of_nat (length vs) * max_item_bits wz + 7 < 2 ^ 32 →
  (Z.of_nat (length (values_bits (tail_items wz vs))) + 7) / 8 ≤
    u32 (u32 (blen (enc w vs) - wz * 2) / wz * max_item_bits wz + 7) / 8.
Proof.
  intros Hn. pose proof width_range as Hw.
  assert (12 ≤ max_item_bits wz ≤ 69) by (unfold max_item_bits; repeat case_match; lia).
  pose proof (items_bits_bound (head_state wz vs).1 (head_state wz vs).2 (drop 2 vs)) as Hb.
  fold (tail_items wz vs) in Hb. rewrite length_drop in Hb.
  destruct (decide (length vs < 2)%nat).
  - rewrite (Z.div_small (_ + 7)) by nia. apply Z.div_pos; [apply wrap_range; lia|lia].
  - apply Z.div_le_mono; [lia|].
    replace (blen (enc w vs) - wz * 2) with (Z.of_nat (length vs - 2) * wz) by (rewrite blen_enc; nia).
    rewrite (wrap_small 4 (_ * wz)), Z.div_mul, wrap_small by (lia || (change (8 * 4) with 32; nia)). lia.
Qed.

Lemma dd_compressDataForType_spec vs post dest :
  all_width w vs → Z.of_nat (length vs) * max_item_bits wz + 7 < 2 ^ 32 →
  4 + wz + wz + (Z.of_nat (length vs) * max_item_bits wz + 7) / 8 ≤ blen dest →
  ∃ body pad,
    compressDataForType wz (enc w vs ++ post) (blen (enc w vs)) dest =
      Ret (over (column w vs body) dest, blen (column w vs body)) ∧
    is_bytes body ∧ bytes_bits body = values_bits (tail_items wz vs) ++ replicate pad false ∧
    blen body ≤ (Z.of_nat (length vs) * max_item_bits wz + 7) / 8.
Proof.
  intros Hvs Hn Hd. pose proof width_range as Hw. unfold compressDataForType.
  assert (blen (enc w vs) / wz = Z.of_nat (length vs)) as Hcount by (rewrite blen_enc, Z.mul_comm, Z.div_mul; lia).
  rewrite throw_if_false by (by rewrite blen_enc, Z.mul_comm, Z.mod_mul by lia). cbn [mbind outcome_bind].
  rewrite Hcount. set (n := Z.of_nat (length vs)) in *.
  assert (0 ≤ max_item_bits wz) by (unfold max_item_bits; repeat case_match; lia).
  assert (0 ≤ (n * max_item_bits wz + 7) / 8) by (apply Z.div_pos; nia).
  pose proof (length_head vs) as Hlh.
  assert (blen (enc w (head wz vs)) ≤ wz + wz) by (rewrite blen_enc, Hlh; nia).
  rewrite (compress_head vs post n dest) by (done || lia).
  rewrite getCompressedDataSize_spec by done. cbn [mbind outcome_bind].
  set (size := u32 _ / 8). set (h := le_split 4 n ++ enc w (head wz vs)).
  assert (blen h = 4 + blen (enc w (head wz vs))) as Hh by (unfold h; by rewrite blen_app, blen_le_split).
  assert (enc w vs = enc w (take 2 vs) ++ enc w (drop 2 vs)) as Henc by (by rewrite <- enc_app, take_drop).
  assert (∀ writer, compress_loop wz (Z.to_nat n) (enc w vs ++ post) (blen (enc w (take 2 vs))) (blen (enc w vs))
    (head_state wz vs).1 (head_state wz vs).2 writer = write_values (tail_items wz vs) writer) as Hloop.
  { intros writer. rewrite Henc, <- app_assoc, blen_app. apply compress_loop_items; [lia|by apply Forall_drop|].
    unfold n. rewrite length_drop. lia. }
  rewrite Hloop, <- Hh. unfold over at 1.
  assert (0 ≤ size < 2 ^ 32) as Hsize.
  { unfold size. pose proof (wrap_range 4 (u32 (blen (enc w vs) - wz * 2) / wz * max_item_bits wz + 7) ltac:(lia)).
    split; [apply Z.div_pos; lia|apply Z.div_lt_upper_bound; zlia]. }
  assert ((Z.of_nat (length (values_bits (tail_items wz vs))) + 7) / 8 ≤ size) as Hbits.
  { by apply tail_bits_bound. }
  assert ((Z.of_nat (length (values_bits (tail_items wz vs))) + 7) / 8 ≤ (n * max_item_bits wz + 7) / 8) as Hbits2.
  { apply Z.div_le_mono; [lia|].
    pose proof (items_bits_bound (head_state wz vs).1 (head_state wz vs).2 (drop 2 vs)).
    fold (tail_items wz vs) in *. rewrite length_drop in *. unfold n in *. nia. }
  destruct (write_values_flush (tail_items wz vs) h (drop (length h) dest) size)
    as (body & pad & w1 & w2 & -> & Hfl & Hdest & Hcnt & Hb & Hbb & Hlen).
  - apply items_widths. lia.
  - blia.
  - zlia.
  - cbn [mbind outcome_bind]. rewrite Hfl. cbn [mbind outcome_bind]. exists body, pad.
    split_and!; [|done|done|lia]. rewrite Hdest, Hcnt. unfold column. rewrite app_assoc. fold n. fold h.
    rewrite over_app, blen_app. do 2 f_equal.
    replace ((8 * blen body + 7) / 8) with (blen body) by (apply Z.div_unique with (r := 7); lia).
    apply wrap_small. pose proof (blen_nonneg body). pose proof (blen_nonneg h).
    assert ((n * max_item_bits wz + 7) / 8 < 2 ^ 29) by (apply Z.div_lt_upper_bound; zlia). zlia.
Qed.

Lemma blen_column vs body :
  blen (column w vs body) = 4 + blen (enc w (head wz vs)) + blen body.
Proof. unfold column. rewrite !blen_app, blen_le_split. lia. Qed.

Lemma column_count vs body tail :
  Z.of_nat (length vs) < 2 ^ 32 → load 4 (column w vs body ++ tail) 0 = Ret (Z.of_nat (length vs)).
Proof.
  intros Hn. unfold column. rewrite <- app_assoc. apply (load_prefix 4). unfold in_width. simpl. zlia.
Qed.

Lemma dd_decompressDataForType_spec vs body pad tail dest :
  all_width w vs → Z.of_nat (length vs) < 2 ^ 32 → is_bytes body →
  bytes_bits body = values_bits (tail_items wz vs) ++ replicate pad false →
  blen (enc w vs) ≤ blen dest →
  decompressDataForType wz (column w vs body ++ tail) (blen (column w vs body)) dest (blen (enc w vs)) =
    Ret (over (enc w vs) dest).
Proof.
  intros Hvs Hn Hb Hbits Hd. pose proof width_range as Hw. pose proof (blen_nonneg body).
  unfold decompressDataForType. rewrite column_count, blen_column by done.
  pose proof (blen_nonneg (enc w (head wz vs))).
  rewrite (proj2 (Z.ltb_ge _ 4)) by lia. cbn [mbind outcome_bind].
  destruct Hvs as [|v0 vs Hv0 Hvs]; [by rewrite orb_true_r, enc_nil, over_nil|].
  assert (wz ≤ blen (enc w (head wz (v0 :: vs)))) as Hh1
    by (rewrite blen_enc, length_head; simpl; nia).
  rewrite (proj2 (Z.ltb_ge _ (4 + wz))), (proj2 (Z.ltb_ge _ 1)) by (cbn [length]; lia). cbn [orb].
  assert (wz + blen (enc w vs) = blen (enc w (v0 :: vs))) as He by (rewrite !blen_enc; simpl; lia).
  pose proof (blen_nonneg (enc w vs)).
  replace (load wz _ 4) with (Ret v0).
  2: { symmetry. unfold column. rewrite <- !app_assoc. destruct vs; by apply load_enc. }
  cbn [mbind outcome_bind]. rewrite (throw_if_false (_ <? wz)) by (apply Z.ltb_ge; lia). cbn [mbind outcome_bind].
  replace (store wz dest 0 v0) with (Ret (over (le_split w v0) dest))
    by (symmetry; unfold store; rewrite Nat2Z.id; apply write_first; rewrite blen_le_split; lia).
  cbn [mbind outcome_bind].
  destruct Hvs as [|v1 vs Hv1 Hvs]; [by rewrite orb_true_r, enc_cons, enc_nil, app_nil_r|].
  cbn [head] in *. assert (blen (enc w [v0; wrap wz (v1 - v0)]) = wz + wz) as Hh2 by (rewrite blen_enc; simpl; lia).
  rewrite Hh2 in *. rewrite (proj2 (Z.ltb_ge _ (4 + wz + wz))), (proj2 (Z.ltb_ge _ 2)) by (cbn [length]; lia). cbn [orb].
  replace (load wz _ (4 + wz)) with (Ret (wrap wz (v1 - v0))).
  2: { symmetry. unfold column. cbn [head]. rewrite (enc_cons w v0), <- !app_assoc, (app_assoc (le_split 4 _)).
       apply load_enc; [apply wrap_in_width|by rewrite blen_app, !blen_le_split]. }
  cbn [mbind outcome_bind]. replace (wrap wz (v0 + wrap wz (v1 - v0))) with v1.
  2: { rewrite wrap_add_r. replace (v0 + (v1 - v0)) with v1 by lia. symmetry. by apply wrap_small. }
  assert (wz + blen (enc w vs) = blen (enc w (v1 :: vs))) as He2 by (rewrite !blen_enc; simpl; lia).
  pose proof (blen_nonneg (enc w vs)).
  rewrite throw_if_false by (apply Z.ltb_ge; lia). cbn [mbind outcome_bind].
  rewrite store_over by (rewrite ?blen_le_split; lia). cbn [mbind outcome_bind]. rewrite !Nat2Z.id.
  set (dpre := le_split w v0 ++ le_split w v1).
  assert (blen dpre = wz + wz) as Hdp by (unfold dpre; by rewrite blen_app, !blen_le_split).
  unfold over at 1. rewrite <- Hdp.
  replace (blen (enc w (v0 :: v1 :: vs))) with (blen dpre + blen (enc w vs)) by lia.
  replace (Z.of_nat (length (v0 :: v1 :: vs))) with (2 + Z.of_nat (length vs)) by (simpl; lia).
  rewrite (dd_decompress_loop_spec w ltac:(lia) vs _ 2 _ (replicate pad false)); try done.
  - rewrite !enc_cons, (app_assoc (le_split w v0)). fold dpre. by rewrite over_app.
  - simpl. lia.
  - change (values_bits (items wz v1 (wrap wz (v1 - v0)) vs)) with (values_bits (tail_items wz (v0 :: v1 :: vs))).
    rewrite <- Hbits. replace (4 + blen dpre + blen body - wz - wz - 4) with (blen body) by lia.
    unfold column. rewrite (app_assoc (le_split 4 _)), <- app_assoc.
    replace (4 + wz + wz) with (blen (le_split 4 (Z.of_nat (length (v0 :: v1 :: vs))) ++ enc w (head wz (v0 :: v1 :: vs))))
      by (rewrite blen_app, blen_le_split; cbn [head]; lia).
    by apply reader_create.
  - apply wrap_in_width.
  - rewrite blen_enc. lia.
  - rewrite blen_drop. fold_blen. lia.
Qed.
End columns.

(** * The codec *)

Definition codec (ec : ErrorCode) (data_bytes_size : Z) : codec := {|
  getMethodByte := method_byte CodecBase.DoubleDelta;
  CodecBase.doCompressData := doCompressData data_bytes_size;
  CodecBase.doDecompressData := doDecompressData;
  CodecBase.getMaxCompressedDataSize n :=
    match getMaxCompressedDataSize data_bytes_size n with Ret m => m | _ => 0 end;
  getAdditionalSizeAtTheEndOfBuffer := 0;
  decompression_error_code := ec;
|}.

Definition data (w : nat) (skipped : bytes) (vs : list Z) (body : bytes) : bytes :=
  skip_header (Z.of_nat w) skipped ++ column w vs body.

(** The sources for which no size overflows 32 bits. *)
Definition max_source : Z := 2 ^ 27.

Section codec.
Context (w : nat) (Hv : valid_size (Z.of_nat w) = true).
Abbreviation wz := (Z.of_nat w).

Lemma items_fit n : 0 ≤ n ≤ max_source → 0 ≤ n / wz * max_item_bits wz + 7 < 2 ^ 32.
Proof.
  intros Hn. unfold max_source in Hn.
  pose proof (Z.mul_div_le n wz). pose proof (Z.div_pos n wz).
  destruct (valid_width wz Hv) as [E|[E|[E|E]]]; rewrite E in *; unfold max_item_bits; simpl; zlia.
Qed.

Lemma getMax_spec n : 0 ≤ n ≤ max_source →
  getMaxCompressedDataSize wz n = Ret (6 + 3 * wz + (n / wz * max_item_bits wz + 7) / 8).
Proof.
  intros Hn. pose proof (items_fit n Hn) as Hf. unfold getMaxCompressedDataSize, getCompressedHeaderSize.
  rewrite getCompressedDataSize_spec by done. cbn [mbind outcome_bind]. f_equal.
  pose proof (width_range w Hv). rewrite (wrap_small 4 (_ + 7)) by zlia.
  assert (0 ≤ (n / wz * max_item_bits wz + 7) / 8 < 2 ^ 29)
    by (split; [apply Z.div_pos; lia|apply Z.div_lt_upper_bound; zlia]).
  rewrite wrap_small by zlia. lia.
Qed.

(** The size that is returned does not count the skipped bytes. *)
Lemma dd_doCompressData_spec skipped vs tail dest :
  all_width w vs → blen skipped = blen (skipped ++ enc w vs) mod wz →
  blen (skipped ++ enc w vs) ≤ max_source →
  6 + 3 * wz + (blen (skipped ++ enc w vs) / wz * max_item_bits wz + 7) / 8 ≤ blen dest →
  ∃ body pad,
    doCompressData wz ((skipped ++ enc w vs) ++ tail) (blen (skipped ++ enc w vs)) dest =
      Ret (over (data w skipped vs body) dest, blen (data w skipped vs body) - blen skipped) ∧
    is_bytes body ∧ bytes_bits body = values_bits (tail_items wz vs) ++ replicate pad false ∧
    blen body ≤ (Z.of_nat (length vs) * max_item_bits wz + 7) / 8.
Proof.
  intros Hvs Hsk Hs Hd. unfold doCompressData. pose proof (width_range w Hv).
  rewrite ub_unless_true by (apply negb_true_iff, Z.eqb_neq; lia). cbn [mbind outcome_bind].
  pose proof (Z.mod_pos_bound (blen (skipped ++ enc w vs)) wz ltac:(lia)) as Hsk2.
  rewrite <- Hsk in Hsk2. rewrite <- Hsk, (wrap_small 1) by zlia.
  assert (blen (skipped ++ enc w vs) / wz = Z.of_nat (length vs)) as Hcount.
  { symmetry. apply Z.div_unique with (r := blen skipped); [lia|]. rewrite blen_app, blen_enc. lia. }
  pose proof (items_fit _ (conj (blen_nonneg _) Hs)) as Hfit. rewrite Hcount in *.
  assert (0 ≤ (Z.of_nat (length vs) * max_item_bits wz + 7) / 8 < 2 ^ 29)
    by (split; [apply Z.div_pos; lia|apply Z.div_lt_upper_bound; zlia]).
  rewrite <- (app_assoc skipped), write_skip_header by (done || lia). rewrite Hv.
  rewrite tail_at_app by done. cbn [mbind outcome_bind].
  replace (blen (skipped ++ enc w vs) - blen skipped) with (blen (enc w vs)) by (rewrite blen_app; lia).
  destruct (dd_compressDataForType_spec w Hv vs tail (drop (length (skip_header wz skipped)) dest))
    as (body & pad & Hc & Hb & Hbits & Hl); [done|lia|rewrite blen_drop; fold_blen; rewrite blen_skip_header; lia|].
  exists body, pad. split_and!; [|done|done|done].
  rewrite (on_tail_over _ _ _ _ _ _ ltac:(by rewrite blen_skip_header) Hc). cbn [mbind outcome_bind].
  do 2 f_equal. unfold data. rewrite blen_app, blen_skip_header.
  pose proof (blen_nonneg (column w vs body)). rewrite wrap_small; [lia|].
  rewrite blen_column, blen_enc, length_head in *. pose proof (Nat.le_min_l 2 (length vs)).
  assert (0 ≤ wz * Z.of_nat (2 `min` length vs) ≤ 16) by nia. pose proof (blen_nonneg body). zlia.
Qed.

Lemma dd_doDecompressData_spec skipped vs body pad tail dest :
  all_width w vs → blen skipped = blen (skipped ++ enc w vs) mod wz →
  blen (skipped ++ enc w vs) ≤ max_source → is_bytes body →
  bytes_bits body = values_bits (tail_items wz vs) ++ replicate pad false →
  blen (data w skipped vs body) < 2 ^ 32 → blen (skipped ++ enc w vs) ≤ blen dest →
  doDecompressData (data w skipped vs body ++ tail) (blen (data w skipped vs body)) dest
    (blen (skipped ++ enc w vs)) = Ret (over (skipped ++ enc w vs) dest).
Proof.
  intros Hvs Hsk Hs Hb Hbits Hsz Hd. unfold doDecompressData, data, max_source in *. pose proof (width_range w Hv).
  rewrite <- (app_assoc (skip_header _ _)). rewrite (blen_app (skip_header _ _)), blen_skip_header in *.
  pose proof (Z.mod_pos_bound (blen (skipped ++ enc w vs)) wz ltac:(lia)) as Hsk2.
  rewrite <- Hsk in Hsk2. pose proof (blen_nonneg (column w vs body)). pose proof (blen_nonneg (enc w vs)).
  rewrite (throw_if_false (_ <? 2)) by (apply Z.ltb_ge; lia). cbn [mbind outcome_bind].
  rewrite load_skip_header. cbn [mbind outcome_bind].
  rewrite (throw_if_false (wz =? 0)) by (apply Z.eqb_neq; lia). cbn [mbind outcome_bind].
  rewrite <- Hsk, (wrap_small 1) by zlia. rewrite blen_app in *.
  rewrite !(wrap_small 4) by zlia.
  rewrite throw_if_false by (apply Z.ltb_ge; lia). cbn [mbind outcome_bind].
  rewrite read_skip_header by (done || lia). rewrite Hv.
  replace (2 + blen skipped + blen (column w vs body) - blen skipped - 2) with (blen (column w vs body)) by lia.
  replace (blen skipped + blen (enc w vs) - blen skipped) with (blen (enc w vs)) by lia.
  rewrite (on_tail_over _ (enc w vs) dest _ _ tt); [done|done|].
  rewrite (dd_decompressDataForType_spec w Hv vs body pad); try done.
  - pose proof (blen_enc w vs). nia.
  - rewrite blen_drop. fold_blen. lia.
Qed.
End codec.

Lemma dd_decompressDataForType_safe w src ssize d osz :
  valid_size (Z.of_nat w) = true → is_bytes src → is_bytes d → 0 ≤ ssize ≤ blen src → 0 ≤ osz ≤ blen d →
  safe (decompressDataForType (Z.of_nat w) src ssize d osz) (λ d', blen d' = blen d ∧ is_bytes d').
Proof.
  intros Hv Hb Hd Hs Ho. pose proof (width_range w Hv) as Hw. unfold decompressDataForType.
  set (wz := Z.of_nat w) in *.
  destruct (Z.ltb_spec ssize 4); [by simpl|].
  destruct (load_safe 4 src 0 Hb) as (n & -> & Hn); [lia..|]. cbn [mbind outcome_bind].
  destruct (Z.ltb_spec ssize (4 + wz)); [by simpl|]. destruct (n <? 1); [by simpl|]. cbn [orb].
  destruct (load_safe wz src 4 Hb) as (v0 & -> & _); [lia..|]. cbn [mbind outcome_bind].
  destruct (Z.ltb_spec osz wz); [done|]. cbn [throw_if mbind outcome_bind].
  destruct (store_safe wz d 0 v0) as (d1 & -> & Hl1 & Hb1); [lia..|]. cbn [mbind outcome_bind].
  destruct (Z.ltb_spec ssize (4 + wz + wz)); [simpl; auto|]. destruct (n <? 2); [simpl; auto|]. cbn [orb].
  destruct (load_safe wz src (4 + wz) Hb) as (dl & -> & _); [lia..|]. cbn [mbind outcome_bind].
  destruct (Z.ltb_spec osz (wz + wz)); [done|]. cbn [throw_if mbind outcome_bind].
  destruct (store_safe wz d1 wz (wrap wz (v0 + dl))) as (d2 & -> & Hl2 & Hb2); [lia..|]. cbn [mbind outcome_bind].
  eapply safe_mono.
  - apply decompress_loop_safe; [lia|by auto|apply reader_ok_create; auto; lia|lia|lia|lia].
  - simpl. intros d3 [? ?]. split; [lia|done].
Qed.

#[global] Instance double_delta_safe ec n : CodecSafe (codec ec n).
Proof.
  split. intros source ssize dest usize Hb Hd Hs Hs32 Hsrc Hu Hu32 Hdst. simpl in *.
  unfold doDecompressData. destruct (Z.ltb_spec ssize 2); [done|]. cbn [throw_if mbind outcome_bind].
  destruct (load_safe 1 source 0 Hb) as (b & -> & Hbr); [lia..|]. cbn [mbind outcome_bind].
  destruct (Z.eqb_spec b 0); [done|]. cbn [throw_if mbind outcome_bind].
  change (2 ^ (8 * 1)) with 256 in Hbr.
  pose proof (Z.mod_pos_bound usize b ltac:(lia)). pose proof (Z.mod_le usize b ltac:(lia) ltac:(lia)).
  set (k := usize mod b) in *.
  rewrite (wrap_small 1 k), (wrap_small 4 (usize - k)), (wrap_small 4 (2 + k)) by zlia.
  destruct (Z.ltb_spec ssize (2 + k)); [done|]. cbn [throw_if mbind outcome_bind].
  destruct (read_bytes_safe source 2 k) as (sk & -> & Hskl & Hskb); [lia..|]. cbn [mbind outcome_bind].
  destruct (write_bytes_safe dest 0 sk) as (dest1 & -> & Hdl & Hdb); [lia..|]. cbn [mbind outcome_bind].
  destruct (tail_at_safe source (2 + k)) as (src & -> & _ & Hsl & Hsb); [lia|]. cbn [mbind outcome_bind].
  destruct (valid_size b) eqn:Hv; [|simpl; auto].
  destruct (Delta.valid_size_cases b Hv) as (w & -> & Hw).
  rewrite (wrap_small 4) by zlia.
  eapply safe_bind; [apply (on_tail_safe dest1 k _ (λ _, True)); [lia|auto|]|].
  - intros t Ht Htb. eapply safe_bind; [apply dd_decompressDataForType_safe; auto; lia|].
    intros d' [Hd1 Hd2]. simpl. auto.
  - intros [d' []] (Hd1 & Hd2 & _). simpl in *. split; [lia|done].
Qed.

(** Sources of whole values are compressed without loss. *)
Lemma aligned_roundtrip n source tail dest reserved :
  valid_size n = true → is_bytes source → 0 < blen source ≤ max_source → blen source mod n = 0 →
  getMaxCompressedDataSize n (blen source) = Ret reserved → reserved ≤ blen dest →
  ∃ out, doCompressData n (source ++ tail) (blen source) dest = Ret (over out dest, blen out) ∧
    is_bytes out ∧ blen out ≤ reserved ∧
    ∀ tail' dest', blen source ≤ blen dest' →
      doDecompressData (out ++ tail') (blen out) dest' (blen source) = Ret (over source dest').
Proof.
  intros Hv Hb Hs Hal Hres Hd. destruct (Delta.valid_size_cases n Hv) as (w & -> & Hw).
  rewrite getMax_spec in Hres by (done || lia). injection Hres as <-.
  destruct (split_source w source) as (skipped & vs & -> & Hvs & Hskb & Hsk); [lia|done|].
  rewrite Hal in Hsk. apply blen_0_nil in Hsk as ->. cbn [app] in *.
  destruct (dd_doCompressData_spec w Hv [] vs tail dest) as (body & pad & Hc & Hbb & Hbits & Hl);
    [done|cbn [app]; by rewrite Hal|cbn [app]; lia|done|].
  exists (data w [] vs body). cbn [app] in Hc. rewrite blen_nil, Z.sub_0_r in Hc.
  assert (blen (enc w vs) / Z.of_nat w = Z.of_nat (length vs)) as Hcount
    by (rewrite blen_enc, Z.mul_comm, Z.div_mul; lia).
  assert (blen (data w [] vs body) ≤
    6 + 3 * Z.of_nat w + (blen (enc w vs) / Z.of_nat w * max_item_bits (Z.of_nat w) + 7) / 8) as Hsz.
  { unfold data. rewrite blen_app, blen_skip_header, blen_column, Hcount, (blen_enc w (head _ _)), length_head, blen_nil.
    pose proof (Nat.le_min_l 2 (length vs)). nia. }
  split_and!; [done| |done|].
  - apply Forall_app. split; [apply skip_header_bytes; [unfold is_byte; lia|done|constructor]|].
    unfold column. rewrite !Forall_app. auto with codec.
  - intros tail' dest' Hd'.
    apply (dd_doDecompressData_spec w Hv [] vs body pad); [done|cbn [app]; by rewrite Hal|cbn [app]; lia|done|done| |done].
    pose proof (items_fit w Hv (blen (enc w vs)) ltac:(lia)).
    assert ((blen (enc w vs) / Z.of_nat w * max_item_bits (Z.of_nat w) + 7) / 8 < 2 ^ 29)
      by (apply Z.div_lt_upper_bound; zlia). zlia.
Qed.

(** More is reserved for a larger source. *)
Lemma double_delta_getMax_mono ec n a b :
  valid_size n = true → 0 ≤ a ≤ b → b ≤ max_source →
  0 ≤ CodecBase.getMaxCompressedDataSize (codec ec n) a ≤ CodecBase.getMaxCompressedDataSize (codec ec n) b ∧
  CodecBase.getMaxCompressedDataSize (codec ec n) b < 2 ^ 31.
Proof.
  intros Hv Hab Hb. destruct (Delta.valid_size_cases n Hv) as (w & -> & Hw). simpl.
  rewrite !(getMax_spec w Hv) by lia.
  pose proof (items_fit w Hv a ltac:(lia)) as Ha1. pose proof (items_fit w Hv b ltac:(lia)) as Hb1.
  assert (0 ≤ max_item_bits (Z.of_nat w)) by (destruct (valid_width (Z.of_nat w) Hv) as [-> |[-> |[-> | ->]]]; vm_compute; congruence).
  assert (0 ≤ (a / Z.of_nat w * max_item_bits (Z.of_nat w) + 7) / 8 ≤ (b / Z.of_nat w * max_item_bits (Z.of_nat w) + 7) / 8).
  { split; [apply Z.div_pos; lia|]. apply Z.div_le_mono; [lia|]. pose proof (Z.div_le_mono a b (Z.of_nat w)). nia. }
  assert ((b / Z.of_nat w * max_item_bits (Z.of_nat w) + 7) / 8 < 2 ^ 29) by (apply Z.div_lt_upper_bound; zlia).
  pose proof (width_range w Hv). zlia.
Qed.

Lemma double_delta_correct ec n : valid_size n = true →
  CodecCorrect (codec ec n) (λ source, 0 < blen source ≤ max_source ∧ blen source mod n = 0).
Proof.
  intros Hv. split; [unfold is_byte; simpl; lia|simpl; lia|].
  intros source tail dest Hb [Hs Hal] Hmax. simpl in *.
  destruct (Delta.valid_size_cases n Hv) as (w & -> & Hw). pose proof (getMax_spec w Hv _ (conj (blen_nonneg _) (proj2 Hs))) as Hres.
  rewrite Hres in *. destruct (aligned_roundtrip _ source tail dest _ Hv Hb Hs Hal Hres Hmax) as (out & Hc & Ho & Hl & Hun).
  exists out. split_and!; [done|done|done|]. intros tail' dest' _ Hd'. simpl in *.
  eexists. split; [apply Hun; lia|]. apply blen_over. lia.
Qed.

(** * Theorems *)



(** For a source that does not consist of whole values, [doCompressData] writes data
    from which the source could be decompressed, but returns a size that is short by the
    number of the bytes it skipped, so the last bytes of the data are lost. *)
Theorem double_delta_unaligned_size (n : Z) (source dest dest' tail : bytes) (reserved : Z) :
  valid_size n = true → is_bytes source → blen source ≤ max_source → blen source mod n ≠ 0 →
  getMaxCompressedDataSize n (blen source) = Ret reserved →
  reserved ≤ blen dest → blen source ≤ blen dest' →
  ∃ out,
    doCompressData n source (blen source) dest = Ret (over out dest, blen out - blen source mod n) ∧
    doDecompressData (out ++ tail) (blen out) dest' (blen source) = Ret (over source dest').
Proof.
  intros Hv Hb Hs Hal Hres Hd Hd'. destruct (Delta.valid_size_cases n Hv) as (w & -> & Hw).
  rewrite getMax_spec in Hres by (done || (split; [apply blen_nonneg|done])). injection Hres as <-.
  destruct (split_source w source) as (skipped & vs & -> & Hvs & Hskb & Hsk); [lia|done|].
  destruct (dd_doCompressData_spec w Hv skipped vs [] dest) as (body & pad & Hc & Hbb & Hbits & Hl); [done..|].
  rewrite app_nil_r in Hc. exists (data w skipped vs body). rewrite <- Hsk. split; [done|].
  apply (dd_doDecompressData_spec w Hv skipped vs body pad); try done.
  pose proof (items_fit w Hv (blen (enc w vs)) ltac:(pose proof (blen_nonneg skipped); pose proof (blen_nonneg (enc w vs)); rewrite blen_app in *; lia)).
  assert (blen (enc w vs) / Z.of_nat w = Z.of_nat (length vs)) as Hcount
    by (rewrite blen_enc, Z.mul_comm, Z.div_mul; lia). rewrite Hcount in *.
  assert ((Z.of_nat (length vs) * max_item_bits (Z.of_nat w) + 7) / 8 < 2 ^ 29)
    by (apply Z.div_lt_upper_bound; zlia).
  pose proof (Z.mod_pos_bound (blen (skipped ++ enc w vs)) (Z.of_nat w) ltac:(lia)).
  unfold data. rewrite blen_app, blen_skip_header, blen_column, (blen_enc w (head _ _)), length_head.
  pose proof (Nat.le_min_l 2 (length vs)). nia.
Qed.

Lemma double_delta_unaligned_size_witness :
  ∃ out,
    doCompressData 4 [9; 1; 0; 0; 0] (blen [9; 1; 0; 0; 0]) (replicate 27 0) =
      Ret (over out (replicate 27 0), blen out - 1) ∧
    doDecompressData (out ++ []) (blen out) (replicate 5 0) (blen [9; 1; 0; 0; 0]) =
      Ret (over [9; 1; 0; 0; 0] (replicate 5 0)).
Proof.
  apply (double_delta_unaligned_size 4 [9; 1; 0; 0; 0] (replicate 27 0) (replicate 5 0) [] 27);
    [done|by apply is_bytes_compute|vm_compute; congruence|done|done|vm_compute; congruence|vm_compute; congruence].
Defined.

(** Such a loss is not detected: the five bytes 9, 1, 0, 0, 0 compressed as values of
    four bytes and decompressed from the number of bytes that [doCompressData] returned
    come back as 9, 0, 0, 0, 0, without an exception. *)
Theorem double_delta_unaligned_loses_data :
  (d ← doCompressData 4 [9; 1; 0; 0; 0] 5 (replicate 27 0);
   doDecompressData (take (Z.to_nat d.2) d.1) d.2 (replicate 5 0) 5) = Ret [9; 0; 0; 0; 0].
Proof. vm_compute. done. Qed.

(** Decompression of arbitrary bytes with DoubleDelta returns or throws: the items are
    read within the source, whatever their prefixes are, and written within the
    destination. *)
Theorem double_delta_decompress_never_ub (source dest : bytes) (source_size uncompressed_size : Z) :
  is_bytes source → is_bytes dest → 0 ≤ source_size ≤ blen source → source_size < 2 ^ 32 →
  0 < uncompressed_size ≤ blen dest → uncompressed_size < 2 ^ 32 →
  safe (doDecompressData source source_size dest uncompressed_size)
    (λ dest', blen dest' = blen dest ∧ is_bytes dest').
Proof.
  intros. apply (@codec_safe (codec CORRUPTED_DATA 1) (double_delta_safe _ _)); simpl; auto; lia.
Qed.

Lemma double_delta_decompress_never_ub_witness :
  safe (doDecompressData [1; 0; 255; 0; 0; 0; 7; 1; 250; 250] 10 (replicate 6 0) 6)
    (λ dest', blen dest' = blen (replicate 6 0) ∧ is_bytes dest').
Proof.
  apply double_delta_decompress_never_ub;
    [by apply is_bytes_compute..|vm_compute; split; congruence|done|vm_compute; split; congruence|done].
Defined.

(** A header with a width for which the codec has no case is accepted: the call returns
    and leaves the destination as it was, but for the skipped bytes. *)
Theorem double_delta_unknown_width_ignored (b k : Z) (rest dest : bytes) (uncompressed_size : Z) :
  is_byte b → b ≠ 0 → valid_size b = false → 0 ≤ uncompressed_size < 2 ^ 32 → uncompressed_size ≤ blen dest →
  uncompressed_size mod b ≤ blen rest → blen rest < 2 ^ 32 - 2 →
  doDecompressData (b :: k :: rest) (2 + blen rest) dest uncompressed_size =
    Ret (over (take (Z.to_nat (uncompressed_size mod b)) rest) dest).
Proof.
  intros Hb Hb0 Hv Hu Hud Hr Hr32. unfold doDecompressData, is_byte in *. pose proof (blen_nonneg rest).
  rewrite (throw_if_false (_ <? 2)) by (apply Z.ltb_ge; lia). cbn [mbind outcome_bind].
  rewrite load_first. cbn [mbind outcome_bind].
  rewrite (throw_if_false (b =? 0)) by (by apply Z.eqb_neq). cbn [mbind outcome_bind].
  pose proof (Z.mod_pos_bound uncompressed_size b ltac:(lia)).
  pose proof (Z.mod_le uncompressed_size b ltac:(lia) ltac:(lia)).
  set (m := uncompressed_size mod b) in *. rewrite (wrap_small 1 m), (wrap_small 4 (2 + m)) by zlia.
  rewrite throw_if_false by (apply Z.ltb_ge; lia). cbn [mbind outcome_bind].
  destruct (split_at rest m ltac:(lia)) as (r1 & r2 & -> & Hm).
  rewrite <- Hm, to_nat_blen, take_app_length.
  replace (read_bytes _ 2 _) with (Ret r1) by (symmetry; by apply (read_bytes_app [b; k] r1 r2)).
  cbn [mbind outcome_bind]. rewrite write_first by lia. cbn [mbind outcome_bind].
  replace (tail_at _ _) with (Ret r2); [cbn [mbind outcome_bind]; by rewrite Hv|].
  symmetry. apply (tail_at_app (b :: k :: r1) r2). blia.
Qed.

Lemma double_delta_unknown_width_ignored_witness :
  doDecompressData (3 :: 0 :: [1; 2; 3; 4; 5]) (2 + blen [1; 2; 3; 4; 5]) (replicate 5 0) 5 =
    Ret (over (take (Z.to_nat (5 mod 3)) [1; 2; 3; 4; 5]) (replicate 5 0)).
Proof. by apply (double_delta_unknown_width_ignored 3 0 [1; 2; 3; 4; 5] (replicate 5 0) 5). Defined.
End DoubleDelta.
