(* ===== verification/CodecGorilla.v ===== *)
(** The codec Gorilla (src/src/Compression/CompressionCodecGorilla.cpp): consecutive
    values combined by exclusive or, with their significant bits written to a bit
    stream. *)

From S2P Require Import Prelude BitIO CodecBase CodecDelta.
From stdpp Require Import base tactics list numbers.
Local Open Scope Z_scope.

Module Gorilla.

Definition getBitLengthOfLength (data_bytes_size : Z) : Z :=
  default 0 ([0; 4; 5; 0; 6; 0; 0; 0; 7] !! Z.to_nat data_bytes_size).

Definition getCompressedHeaderSize (data_bytes_size : Z) : Z :=
  let items_count_size := 4 in
  items_count_size + data_bytes_size.

(** [DATA_BIT_LENGTH] is a static variable of a function that is not a template: it is
    initialised by the first call of the process, for the width [first_bytes_size]
    that this call was given. *)
Definition getCompressedDataSize (first_bytes_size data_bytes_size uncompressed_size : Z) : Z :=
  let items_count := uncompressed_size / data_bytes_size in
  let DATA_BIT_LENGTH := getBitLengthOfLength first_bytes_size in
  let LEADING_ZEROES_BIT_LENGTH := DATA_BIT_LENGTH - 1 in
  let max_item_size_bits := 2 + LEADING_ZEROES_BIT_LENGTH + DATA_BIT_LENGTH + data_bytes_size * 8 in
  u32 (items_count * max_item_size_bits + 8) / 8.

Record BinaryValueInfo := mkInfo { leading_zero_bits : Z; data_bits : Z; trailing_zero_bits : Z }.

(** [T] is the type of the exclusive or of two values of [w] bytes: [int] for the types
    narrower than it. *)
Definition promoted (w : Z) : Z := Z.max w 4.

Definition getBinaryValueInfo (w : Z) (value : Z) : BinaryValueInfo :=
  let bit_size := promoted w * 8 in
  let lz := u8 (getLeadingZeroBits (promoted w) value) in
  let tz := u8 (getTrailingZeroBits (promoted w) value) in
  let data_size := if value =? 0 then 0 else u8 (bit_size - lz - tz) in
  mkInfo lz data_size tz.

(** ** Compression *)

Definition write_item (w : Z) (xored_data : Z) (prev_xored_info : BinaryValueInfo) (writer : BitWriter.t)
  : outcome (BitWriter.t * BinaryValueInfo) :=
  let DATA_BIT_LENGTH := getBitLengthOfLength w in
  let LEADING_ZEROES_BIT_LENGTH := DATA_BIT_LENGTH - 1 in
  let curr_xored_info := getBinaryValueInfo w xored_data in
  if xored_data =? 0 then
    writer ← BitWriter.writeBits 1 0 writer;
    Ret (writer, prev_xored_info)
  else if negb (data_bits prev_xored_info =? 0)
      && (leading_zero_bits prev_xored_info <=? leading_zero_bits curr_xored_info)
      && (trailing_zero_bits prev_xored_info <=? trailing_zero_bits curr_xored_info) then
    writer ← BitWriter.writeBits 2 0x2 writer;
    writer ← BitWriter.writeBits (data_bits prev_xored_info)
               (Z.shiftr xored_data (trailing_zero_bits prev_xored_info)) writer;
    Ret (writer, prev_xored_info)
  else
    writer ← BitWriter.writeBits 2 0x3 writer;
    writer ← BitWriter.writeBits LEADING_ZEROES_BIT_LENGTH (leading_zero_bits curr_xored_info) writer;
    writer ← BitWriter.writeBits DATA_BIT_LENGTH (data_bits curr_xored_info) writer;
    writer ← BitWriter.writeBits (data_bits curr_xored_info)
               (Z.shiftr xored_data (trailing_zero_bits curr_xored_info)) writer;
    Ret (writer, curr_xored_info).

Fixpoint compress_loop (w : Z) (fuel : nat) (mem : bytes) (source source_end : Z)
  (prev_value : Z) (prev_xored_info : BinaryValueInfo) (writer : BitWriter.t) : outcome BitWriter.t :=
  if source <? source_end then
    match fuel with
    | O => OutOfFuel
    | S fuel =>
        curr_value ← load w mem source;
        let xored_data := Z.lxor curr_value prev_value in
        '(writer, prev_xored_info) ← write_item w xored_data prev_xored_info writer;
        compress_loop w fuel mem (source + w) source_end curr_value prev_xored_info writer
    end
  else Ret writer.

Definition compressDataForType (w : Z) (mem : bytes) (source_size : Z) (dmem : bytes) (dest_size : Z)
  : outcome (bytes * Z) :=
  _ ← throw_if (negb (source_size mod w =? 0)) CANNOT_COMPRESS;
  let dest_end := dest_size in
  let items_count := source_size / w in
  dmem ← store 4 dmem 0 items_count;
  '(dmem, source, dest, prev_value) ←
    (if 0 <? source_size then
       prev_value ← load w mem 0;
       dmem ← store w dmem 4 prev_value;
       Ret (dmem, w, 4 + w, prev_value)
     else Ret (dmem, 0, 4, 0));
  let writer := BitWriter.create dmem dest (dest_end - dest) in
  writer ← compress_loop w (Z.to_nat items_count) mem source source_size prev_value (mkInfo 0 0 0) writer;
  writer ← BitWriter.flush writer;
  Ret (BitWriter.dest writer, u32 (dest + (BitWriter.count writer + 7) / 8)).

Definition getMaxCompressedDataSize (first_bytes_size data_bytes_size uncompressed_size : Z) : Z :=
  u32 (2 + data_bytes_size + getCompressedHeaderSize data_bytes_size
       + getCompressedDataSize first_bytes_size data_bytes_size uncompressed_size).

Definition doCompressData (first_bytes_size data_bytes_size : Z) (source : bytes) (source_size : Z) (dest : bytes)
  : outcome (bytes * Z) :=
  _ ← ub_unless (negb (data_bytes_size =? 0));
  let bytes_to_skip := u8 (source_size mod data_bytes_size) in
  dest ← write_bytes dest 0 [data_bytes_size];
  dest ← write_bytes dest 1 [bytes_to_skip];
  skipped ← read_bytes source 0 bytes_to_skip;
  dest ← write_bytes dest 2 skipped;
  let start_pos := 2 + bytes_to_skip in
  let compressed_size := getMaxCompressedDataSize first_bytes_size data_bytes_size source_size in
  '(dest, result_size) ←
    (if valid_size data_bytes_size then
       src ← tail_at source bytes_to_skip;
       on_tail dest start_pos (λ d,
         compressDataForType data_bytes_size src (source_size - bytes_to_skip) d compressed_size)
     else Ret (dest, 0));
  Ret (dest, u32 (2 + bytes_to_skip + result_size)).

(** ** Decompression *)

Definition read_item (w : Z) (prev_xored_info : BinaryValueInfo) (reader : BitReader.t)
  : outcome (Z * BinaryValueInfo * BitReader.t) :=
  let DATA_BIT_LENGTH := getBitLengthOfLength w in
  let LEADING_ZEROES_BIT_LENGTH := DATA_BIT_LENGTH - 1 in
  '(b, reader) ← BitReader.readBit reader;
  if b =? 1 then
    '(b, reader) ← BitReader.readBit reader;
    '(curr_xored_info, reader) ←
      (if b =? 1 then
         '(lz, reader) ← BitReader.readBits LEADING_ZEROES_BIT_LENGTH reader;
         '(size, reader) ← BitReader.readBits DATA_BIT_LENGTH reader;
         let lz := u8 lz in
         let size := u8 size in
         Ret (mkInfo lz size (u8 (w * 8 - lz - size)), reader)
       else Ret (prev_xored_info, reader));
    _ ← throw_if ((leading_zero_bits curr_xored_info =? 0) && (data_bits curr_xored_info =? 0)
                  && (trailing_zero_bits curr_xored_info =? 0)) CANNOT_DECOMPRESS;
    '(x, reader) ← BitReader.readBits (data_bits curr_xored_info) reader;
    let xored_data := wrap w x in
    _ ← ub_unless (trailing_zero_bits curr_xored_info <? promoted w * 8);
    let xored_data := wrap w (Z.shiftl xored_data (trailing_zero_bits curr_xored_info)) in
    Ret (xored_data, curr_xored_info, reader)
  else Ret (0, prev_xored_info, reader).

Fixpoint decompress_loop (w : Z) (fuel : nat) (items_read items_count : Z) (reader : BitReader.t)
  (dmem : bytes) (dest : Z) (prev_value : Z) (prev_xored_info : BinaryValueInfo) : outcome bytes :=
  if (items_read <? items_count) && negb (BitReader.eof reader) then
    match fuel with
    | O => OutOfFuel
    | S fuel =>
        '(xored_data, curr_xored_info, reader) ← read_item w prev_xored_info reader;
        let curr_value := Z.lxor prev_value xored_data in
        dmem ← store w dmem dest curr_value;
        decompress_loop w fuel (items_read + 1) items_count reader dmem (dest + w) curr_value curr_xored_info
    end
  else Ret dmem.

Definition decompressDataForType (w : Z) (mem : bytes) (source_size : Z) (dmem : bytes) (dest_size : Z)
  : outcome bytes :=
  let source_end := source_size in
  if source_end <? 4 then Ret dmem else
  items_count ← load 4 mem 0;
  if (source_end <? 4 + w) || (items_count <? 1) then Ret dmem else
  _ ← throw_if (dest_size <? u64 (items_count * w)) CANNOT_DECOMPRESS;
  prev_value ← load w mem 4;
  dmem ← store w dmem 0 prev_value;
  let reader := BitReader.create mem (4 + w) (source_size - 4 - w) in
  decompress_loop w (Z.to_nat items_count) 1 items_count reader dmem w prev_value (mkInfo 0 0 0).

Definition doDecompressData (source : bytes) (source_size : Z) (dest : bytes) (uncompressed_size : Z)
  : outcome bytes :=
  _ ← throw_if (source_size <? 2) CANNOT_DECOMPRESS;
  bytes_size ← load 1 source 0;
  _ ← throw_if (bytes_size =? 0) CANNOT_DECOMPRESS;
  let bytes_to_skip := u8 (uncompressed_size mod bytes_size) in
  _ ← throw_if (source_size <? u32 (2 + bytes_to_skip)) CANNOT_DECOMPRESS;
  _ ← throw_if (uncompressed_size <=? bytes_to_skip) CANNOT_DECOMPRESS;
  skipped ← read_bytes source 2 bytes_to_skip;
  dest ← write_bytes dest 0 skipped;
  let source_size_no_header := u32 (source_size - bytes_to_skip - 2) in
  let uncompressed_size_left := u32 (uncompressed_size - bytes_to_skip) in
  src ← tail_at source (2 + bytes_to_skip);
  if valid_size bytes_size then
    '(dest, _) ← on_tail dest bytes_to_skip (λ d,
      d ← decompressDataForType bytes_size src source_size_no_header d uncompressed_size_left; Ret (d, tt));
    Ret dest
  else Throw CANNOT_DECOMPRESS.

(** * Significant bits *)

Section significant_bits.
Context (w : nat) (Hv : valid_size (Z.of_nat w) = true).
Abbreviation wz := (Z.of_nat w).

Lemma gorilla_width : wz = 1 ∨ wz = 2 ∨ wz = 4 ∨ wz = 8.
Proof. unfold valid_size in Hv. rewrite !orb_true_iff, !Z.eqb_eq in Hv. lia. Qed.

Lemma pos_ctz_spec p : 0 ≤ pos_ctz p ∧ ∃ q, 0 < q ∧ Zpos p = q * 2 ^ pos_ctz p.
Proof.
  induction p as [p IH|p IH|]; simpl.
  - split; [lia|]. exists (Zpos p~1). lia.
  - destruct IH as (H0 & q & Hq & E). split; [lia|]. exists q. split; [done|].
    rewrite Z.pow_add_r by lia. lia.
  - split; [lia|]. by exists 1.
Qed.

(** The description of a value that is not zero, with the leading zeros of its own
    type. *)
Lemma getBinaryValueInfo_spec x :
  0 < x < 2 ^ (8 * wz) →
  ∃ lz tz, getBinaryValueInfo wz x = mkInfo (lz + 8 * (promoted wz - wz)) (8 * wz - lz - tz) tz ∧
    0 ≤ lz ∧ 0 ≤ tz ∧ 1 ≤ 8 * wz - lz - tz ∧ x < 2 ^ (8 * wz - lz) ∧ Z.shiftl (Z.shiftr x tz) tz = x.
Proof.
  intros Hx. pose proof gorilla_width as Hw. unfold getBinaryValueInfo, getTrailingZeroBits, getLeadingZeroBits.
  destruct x as [|p|]; [lia| |lia]. destruct (pos_ctz_spec p) as (Htz & q & Hq & Hp).
  set (x := Zpos p) in *. set (tz := pos_ctz p) in *. rewrite (proj2 (Z.eqb_neq x 0)) by lia.
  assert (Z.max (8 * promoted wz) 32 = 8 * promoted wz) as Hmax by (unfold promoted; lia). rewrite Hmax.
  assert (0 ≤ Z.log2 x < 8 * wz) as Hlog.
  { split; [apply Z.log2_nonneg|]. apply Z.log2_lt_pow2; lia. }
  assert (tz ≤ Z.log2 x) as Htl.
  { apply Z.log2_le_pow2; [lia|]. rewrite Hp. pose proof (Z.pow_pos_nonneg 2 tz). nia. }
  exists (8 * wz - 1 - Z.log2 x), tz.
  assert (promoted wz = 4 ∨ promoted wz = 8) as Hpr by (unfold promoted; lia).
  assert (wz ≤ promoted wz) by (unfold promoted; lia).
  rewrite (wrap_small 1 tz), !(wrap_small 1 (8 * promoted wz - 1 - Z.log2 x)), wrap_small by zlia.
  split_and!; [f_equal; lia|lia|lia|lia| |].
  - replace (8 * wz - (8 * wz - 1 - Z.log2 x)) with (Z.succ (Z.log2 x)) by lia. apply Z.log2_spec. lia.
  - rewrite Hp, Z.shiftr_div_pow2, Z.div_mul, Z.shiftl_mul_pow2 by (try apply Z.pow_nonzero; lia). done.
Qed.
End significant_bits.

(** * Items *)

(** What is written for an exclusive or, and the description that is kept. *)
Definition item_values (w : Z) (info : BinaryValueInfo) (x : Z) : list (nat * Z) * BinaryValueInfo :=
  let curr := getBinaryValueInfo w x in
  let L := getBitLengthOfLength w in
  if x =? 0 then ([(1%nat, 0)], info)
  else if negb (data_bits info =? 0) && (leading_zero_bits info <=? leading_zero_bits curr)
      && (trailing_zero_bits info <=? trailing_zero_bits curr) then
    ([(2%nat, 2); (Z.to_nat (data_bits info), Z.shiftr x (trailing_zero_bits info))], info)
  else
    ([(2%nat, 3); (Z.to_nat (L - 1), leading_zero_bits curr); (Z.to_nat L, data_bits curr);
      (Z.to_nat (data_bits curr), Z.shiftr x (trailing_zero_bits curr))], curr).

Fixpoint items (w : Z) (prev_value : Z) (info : BinaryValueInfo) (vs : list Z) : list (nat * Z) :=
  match vs with
  | [] => []
  | v :: vs =>
      let item := item_values w info (Z.lxor v prev_value) in
      item.1 ++ items w v item.2 vs
  end.

Definition max_item_bits (w : Z) : Z := 1 + 2 * getBitLengthOfLength w + w * 8.

Lemma read_value n v l r rest :
  reader_bits r (values_bits ((n, v) :: l) ++ rest) → (1 ≤ n ≤ 64)%nat →
  ∃ r', BitReader.readBits (Z.of_nat n) r = Ret (v mod 2 ^ Z.of_nat n, r') ∧ reader_bits r' (values_bits l ++ rest).
Proof.
  intros Hr Hn. unfold values_bits in Hr. cbn [fmap list_fmap concat fst snd] in Hr. rewrite <- app_assoc in Hr.
  destruct (readBits_spec _ _ _ Hr) as (r' & E & Hr'); rewrite length_to_bits in *; [done|].
  rewrite bits_val_to_bits in E. by exists r'.
Qed.

Lemma read_prefix v b l r rest :
  to_bits 2 v = [true; b] → reader_bits r (values_bits ((2%nat, v) :: l) ++ rest) →
  ∃ r1 r2, BitReader.readBit r = Ret (1, r1) ∧ BitReader.readBit r1 = Ret (Z.b2z b, r2) ∧
    reader_bits r2 (values_bits l ++ rest).
Proof.
  intros Hb Hr. unfold values_bits in Hr. cbn [fmap list_fmap concat fst snd] in Hr. rewrite Hb in Hr.
  destruct (readBit_spec r true _ Hr) as (r1 & H1 & Hr1). destruct (readBit_spec r1 b _ Hr1) as (r2 & H2 & Hr2).
  by exists r1, r2.
Qed.

Lemma shift_coarser q a b : 0 ≤ a ≤ b → Z.shiftl (Z.shiftr (Z.shiftl q b) a) a = Z.shiftl q b.
Proof.
  intros Hab. replace b with (b - a + a) by lia. rewrite <- (Z.shiftl_shiftl q (b - a) a) by lia.
  by rewrite Z.shiftr_shiftl_l, Z.sub_diag, Z.shiftl_0_r by lia.
Qed.

Section item.
Context (w : nat) (Hv : valid_size (Z.of_nat w) = true).
Abbreviation wz := (Z.of_nat w).

(** The description kept by the compressor: none yet, or one of a value of the type. *)
Definition info_ok (e : BinaryValueInfo) : Prop :=
  data_bits e = 0 ∨
  ∃ lz, leading_zero_bits e = lz + 8 * (promoted wz - wz) ∧ 0 ≤ lz ∧ 0 ≤ trailing_zero_bits e ∧
    1 ≤ data_bits e ∧ lz + data_bits e + trailing_zero_bits e = 8 * wz.

(** The decompressor keeps the same description, with the leading zeros of the type of
    the values. *)
Definition same_info (e d : BinaryValueInfo) : Prop :=
  data_bits e = 0 ∨ data_bits d = data_bits e ∧ trailing_zero_bits d = trailing_zero_bits e.

Lemma bit_length_cases :
  getBitLengthOfLength wz - 1 = (3 + Z.log2 wz) ∧ 8 * wz = 2 ^ (3 + Z.log2 wz) ∧ 3 ≤ 3 + Z.log2 wz ≤ 6 ∧
  (8 * (promoted wz - wz)) mod 2 ^ (3 + Z.log2 wz) = 0.
Proof.
  pose proof (gorilla_width w Hv) as [E|[E|[E|E]]]; rewrite E; vm_compute; (split_and!; congruence).
Qed.

Lemma item_values_ok e x : 0 ≤ x < 2 ^ (8 * wz) → info_ok e → info_ok (item_values wz e x).2.
Proof.
  intros Hx He. unfold item_values. destruct (Z.eqb_spec x 0); [done|]. case_match; [done|].
  destruct (getBinaryValueInfo_spec w Hv x ltac:(lia)) as (lz & tz & -> & Hi). simpl. right. exists lz. simpl. lia.
Qed.

Lemma gorilla_item_widths e x : 0 ≤ x < 2 ^ (8 * wz) → info_ok e →
  Forall (λ p, 1 ≤ p.1 ≤ 64)%nat (item_values wz e x).1.
Proof.
  intros Hx He. unfold item_values. pose proof bit_length_cases as (HL & _ & Hb & _). pose proof (gorilla_width w Hv).
  destruct (Z.eqb_spec x 0); [repeat constructor; simpl; lia|].
  destruct (getBinaryValueInfo_spec w Hv x ltac:(lia)) as (lz & tz & -> & Hi). simpl.
  case_match eqn:Hc; cbn [fst]; repeat apply Forall_cons_2; try apply Forall_nil_2; cbn [fst data_bits]; try lia.
  rewrite !andb_true_iff, negb_true_iff, Z.eqb_neq in Hc; destruct He as [|(? & ?)]; lia.
Qed.

Lemma gorilla_item_bound e x : 0 ≤ x < 2 ^ (8 * wz) → info_ok e →
  Z.of_nat (length (values_bits (item_values wz e x).1)) ≤ max_item_bits wz.
Proof.
  intros Hx He. unfold item_values, max_item_bits. pose proof bit_length_cases as (HL & _ & Hb & _).
  pose proof (gorilla_width w Hv).
  destruct (Z.eqb_spec x 0); [simpl; lia|].
  destruct (getBinaryValueInfo_spec w Hv x ltac:(lia)) as (lz & tz & -> & Hi).
  unfold values_bits. case_match eqn:Hc; cbn [fmap list_fmap concat fst snd data_bits];
    rewrite !length_app, !length_to_bits; simpl length; [|lia].
  rewrite !andb_true_iff, negb_true_iff, Z.eqb_neq in Hc. destruct He as [|(? & ?)]; lia.
Qed.

Lemma gorilla_write_item e x writer :
  0 ≤ x < 2 ^ (8 * wz) → info_ok e →
  write_item wz x e writer =
    (writer ← write_values (item_values wz e x).1 writer; Ret (writer, (item_values wz e x).2)).
Proof.
  intros Hx He. unfold write_item, item_values. pose proof bit_length_cases as (HL & _ & Hb & _).
  destruct (Z.eqb_spec x 0); [simpl; by destruct (BitWriter.writeBits _ _ _)|].
  destruct (getBinaryValueInfo_spec w Hv x ltac:(lia)) as (lz & tz & -> & Hi).
  case_match eqn:Hc; cbn [write_values fst snd data_bits leading_zero_bits trailing_zero_bits];
    change (Z.of_nat 2) with 2; rewrite !Z2Nat.id by (try lia; rewrite !andb_true_iff, negb_true_iff, Z.eqb_neq in Hc; destruct He as [|(? & ?)]; lia);
    repeat (match goal with |- context [BitWriter.writeBits ?a ?b ?c] => destruct (BitWriter.writeBits a b c) end;
            cbn [mbind outcome_bind]; try done).
Qed.

(** The significant bits, read back and shifted to their place. *)
Lemma significant_bits_read x lz tz r l rest :
  0 ≤ x < 2 ^ (8 * wz - lz) → 0 ≤ lz → 0 ≤ tz → 1 ≤ 8 * wz - lz - tz → Z.shiftl (Z.shiftr x tz) tz = x →
  reader_bits r (values_bits ((Z.to_nat (8 * wz - lz - tz), Z.shiftr x tz) :: l) ++ rest) →
  ∃ r', BitReader.readBits (8 * wz - lz - tz) r = Ret (Z.shiftr x tz, r') ∧
    reader_bits r' (values_bits l ++ rest) ∧
    wrap wz (Z.shiftl (wrap wz (Z.shiftr x tz)) tz) = x ∧ (tz <? promoted wz * 8) = true.
Proof.
  intros Hx Hlz Htz Hn Hsh Hr. pose proof (gorilla_width w Hv).
  destruct (read_value _ _ _ _ _ Hr) as (r' & E & Hr'); [lia|]. rewrite Z2Nat.id in E by lia.
  assert (2 ^ (8 * wz - lz) ≤ 2 ^ (8 * wz)) by (apply Z.pow_le_mono_r; lia).
  assert (0 ≤ Z.shiftr x tz < 2 ^ (8 * wz - lz - tz)) as Hsr.
  { rewrite Z.shiftr_div_pow2 by lia. split; [apply Z.div_pos; lia|].
    apply Z.div_lt_upper_bound; [lia|]. rewrite <- Z.pow_add_r by lia.
    replace (tz + (8 * wz - lz - tz)) with (8 * wz - lz) by lia. lia. }
  assert (2 ^ (8 * wz - lz - tz) ≤ 2 ^ (8 * wz)) by (apply Z.pow_le_mono_r; lia).
  rewrite Z.mod_small in E by done. exists r'. split_and!; [done|done| |].
  - rewrite (wrap_small wz (Z.shiftr x tz)), Hsh by lia. apply wrap_small. lia.
  - apply Z.ltb_lt. unfold promoted. lia.
Qed.

(** Reading undoes writing, and keeps the descriptions of both sides equal. *)
Lemma gorilla_read_item e d x r rest :
  0 ≤ x < 2 ^ (8 * wz) → info_ok e → same_info e d →
  reader_bits r (values_bits (item_values wz e x).1 ++ rest) →
  ∃ d' r', read_item wz d r = Ret (x, d', r') ∧ same_info (item_values wz e x).2 d' ∧ reader_bits r' rest.
Proof.
  intros Hx He Hd Hr. unfold read_item. unfold item_values in *. destruct (Z.eqb_spec x 0) as [->|Hne].
  { destruct (readBit_spec r false rest Hr) as (r1 & -> & Hr1). by exists d, r1. }
  destruct (getBinaryValueInfo_spec w Hv x ltac:(lia)) as (lz & tz & Hi & Hlz & Htz & Hn & Hxlz & Hsh).
  rewrite Hi in *. pose proof bit_length_cases as (HL & HwL & HLr & Hoff). pose proof (gorilla_width w Hv).
  case_match eqn:Hc; cbn [fst snd leading_zero_bits data_bits trailing_zero_bits] in *.
  - rewrite !andb_true_iff, negb_true_iff, Z.eqb_neq, !Z.leb_le in Hc. destruct Hc as [[Hc0 Hc1] Hc2].
    destruct He as [|(elz & Helz & He0 & He1 & He2 & He3)]; [done|]. destruct Hd as [|[Hd1 Hd2]]; [done|].
    destruct (read_prefix 2 false _ _ _ eq_refl Hr) as (r1 & r2 & -> & E2 & Hr2).
    cbn [mbind outcome_bind Z.eqb Pos.eqb]. rewrite E2. cbn [mbind outcome_bind Z.b2z Z.eqb].
    rewrite throw_if_false by (rewrite Hd1, (proj2 (Z.eqb_neq (data_bits e) 0)), andb_false_r by done; done).
    cbn [mbind outcome_bind]. rewrite Hd1, Hd2.
    assert (data_bits e = 8 * wz - elz - trailing_zero_bits e) as Hde by lia. rewrite Hde in *.
    destruct (significant_bits_read x elz (trailing_zero_bits e) r2 [] rest) as (r3 & -> & Hr3 & Hx3 & Ht);
      [|lia|lia|lia| |exact Hr2|].
    + assert (2 ^ (8 * wz - lz) ≤ 2 ^ (8 * wz - elz)) by (apply Z.pow_le_mono_r; lia). lia.
    + rewrite <- Hsh at 1. rewrite shift_coarser; [done|lia].
    + cbn [mbind outcome_bind]. rewrite Ht, Hx3. exists d, r3. split_and!; [done| |done]. right. lia.
  - destruct (read_prefix 3 true _ _ _ eq_refl Hr) as (r1 & r2 & -> & E2 & Hr2).
    cbn [mbind outcome_bind Z.eqb Pos.eqb]. rewrite E2. cbn [mbind outcome_bind Z.b2z Z.eqb Pos.eqb].
    destruct (read_value _ _ _ r2 rest Hr2) as (r3 & E3 & Hr3); [lia|]. rewrite Z2Nat.id in E3 by lia. rewrite E3.
    cbn [mbind outcome_bind].
    destruct (read_value _ _ _ r3 rest Hr3) as (r4 & E4 & Hr4); [lia|]. rewrite Z2Nat.id in E4 by lia. rewrite E4.
    cbn [mbind outcome_bind].
    replace ((lz + 8 * (promoted wz - wz)) mod 2 ^ (getBitLengthOfLength wz - 1)) with lz.
    2: { rewrite HL, <- Z.add_mod_idemp_r, Hoff, Z.add_0_r, Z.mod_small by lia. done. }
    rewrite (Z.mod_small (8 * wz - lz - tz)).
    2: { replace (getBitLengthOfLength wz) with (Z.succ (3 + Z.log2 wz)) by lia. rewrite Z.pow_succ_r; lia. }
    rewrite !(wrap_small 1) by zlia. replace (wz * 8 - lz - (8 * wz - lz - tz)) with tz by lia.
    cbn [leading_zero_bits data_bits trailing_zero_bits].
    rewrite throw_if_false by (rewrite (proj2 (Z.eqb_neq (8 * wz - lz - tz) 0)), andb_false_r by lia; done).
    cbn [mbind outcome_bind].
    destruct (significant_bits_read x lz tz r4 [] rest) as (r5 & -> & Hr5 & Hx5 & Ht); [lia..|done|done|].
    cbn [mbind outcome_bind]. rewrite Ht, Hx5. eexists _, r5. split_and!; [done| |done]. right. done.
Qed.
End item.

(** * The loops *)

Lemma lxor_width w a b : in_width w a → in_width w b → 0 ≤ Z.lxor a b < 2 ^ (8 * Z.of_nat w).
Proof. intros Ha Hb. apply lxor_range; [lia|done|done]. Qed.

Section loops.
Context (w : nat) (Hv : valid_size (Z.of_nat w) = true).
Abbreviation wz := (Z.of_nat w).

Lemma gorilla_items_ok vs e pv : all_width w vs → in_width w pv → info_ok w e →
  Forall (λ p, 1 ≤ p.1 ≤ 64)%nat (items wz pv e vs) ∧
  Z.of_nat (length (values_bits (items wz pv e vs))) ≤ Z.of_nat (length vs) * max_item_bits wz.
Proof.
  intros Hvs. revert e pv. induction Hvs as [|v vs Hvw _ IH]; intros e pv Hpv He; simpl items; [split; [constructor|simpl; lia]|].
  pose proof (lxor_width _ _ _ Hvw Hpv) as Hx.
  destruct (IH (item_values wz e (Z.lxor v pv)).2 v) as [IH1 IH2]; [done|by apply item_values_ok|].
  rewrite Forall_app, values_bits_app, length_app. split; [split; [by apply gorilla_item_widths|done]|].
  pose proof (gorilla_item_bound w Hv e _ Hx He). cbn [length]. lia.
Qed.

Lemma gorilla_compress_loop vs fuel pre post pv e writer :
  all_width w vs → in_width w pv → info_ok w e → (length vs ≤ fuel)%nat →
  compress_loop wz fuel (pre ++ enc w vs ++ post) (blen pre) (blen pre + blen (enc w vs)) pv e writer =
    write_values (items wz pv e vs) writer.
Proof.
  intros Hvs. revert fuel pre pv e writer. induction Hvs as [|v vs Hvw _ IH]; intros fuel pre pv e writer Hpv He Hf.
  - rewrite enc_nil, blen_nil, Z.add_0_r. destruct fuel; simpl; by rewrite Z.ltb_irrefl.
  - pose proof (gorilla_width w Hv). destruct fuel as [|fuel]; [simpl in Hf; lia|]. cbn [compress_loop length items] in *.
    rewrite (proj2 (Z.ltb_lt _ _)) by (rewrite blen_enc; simpl; nia).
    rewrite load_enc by done. cbn [mbind outcome_bind]. pose proof (lxor_width _ _ _ Hvw Hpv) as Hx.
    rewrite write_values_app, gorilla_write_item by done.
    destruct (write_values (item_values _ _ _).1 writer) as [writer'| | |]; cbn [mbind outcome_bind]; try done.
    rewrite !enc_cons, <- !app_assoc, blen_app, (app_assoc pre).
    replace (blen pre + wz) with (blen (pre ++ le_split w v)) by blia.
    replace (blen pre + (blen (le_split w v) + blen (enc w vs)))
      with (blen (pre ++ le_split w v) + blen (enc w vs)) by blia.
    apply IH; [done|by apply item_values_ok|lia].
Qed.

Lemma gorilla_item_nonempty e x rest : values_bits (item_values wz e x).1 ++ rest ≠ [].
Proof. unfold item_values. repeat case_match; done. Qed.

Lemma gorilla_decompress_loop vs fuel items_read reader pad dpre old pv e d :
  all_width w vs → (length vs ≤ fuel)%nat → in_width w pv → info_ok w e → same_info e d →
  reader_bits reader (values_bits (items wz pv e vs) ++ pad) →
  blen (enc w vs) ≤ blen old →
  decompress_loop wz fuel items_read (items_read + Z.of_nat (length vs)) reader (dpre ++ old) (blen dpre)
    pv d = Ret (dpre ++ over (enc w vs) old).
Proof.
  intros Hvs. revert fuel items_read reader dpre old pv e d.
  induction Hvs as [|v vs Hvw _ IH]; intros fuel items_read reader dpre old pv e d Hf Hpv He Hd Hr Hold.
  - rewrite enc_nil, over_nil, Z.add_0_r. destruct fuel; simpl; by rewrite Z.ltb_irrefl.
  - destruct fuel as [|fuel]; [simpl in Hf; lia|]. cbn [decompress_loop length items] in *.
    pose proof (gorilla_width w Hv). rewrite values_bits_app, <- app_assoc in Hr.
    rewrite (proj2 (Z.ltb_lt _ _)), (bit_eof_spec _ _ Hr) by lia.
    rewrite bool_decide_eq_false_2 by apply gorilla_item_nonempty. cbn [negb andb].
    pose proof (lxor_width _ _ _ Hvw Hpv) as Hx.
    destruct (gorilla_read_item w Hv e d _ _ _ Hx He Hd Hr) as (d' & r' & -> & Hd' & Hr'). cbn [mbind outcome_bind].
    replace (Z.lxor pv (Z.lxor v pv)) with v
      by (rewrite Z.lxor_comm, Z.lxor_assoc, Z.lxor_nilpotent, Z.lxor_0_r; done).
    rewrite enc_cons, blen_app, blen_le_split in Hold. pose proof (blen_nonneg (enc w vs)).
    rewrite store_at by (lia || done). cbn [mbind outcome_bind]. rewrite Nat2Z.id.
    unfold over at 1. rewrite length_le_split, (app_assoc dpre).
    replace (blen dpre + wz) with (blen (dpre ++ le_split w v)) by blia.
    replace (items_read + Z.of_nat (S (length vs))) with (items_read + 1 + Z.of_nat (length vs)) by lia.
    rewrite (IH fuel (items_read + 1) r' _ _ v (item_values wz e (Z.lxor v pv)).2 d'); [|lia|done|by apply item_values_ok|done|exact Hr'|rewrite blen_drop; fold_blen; lia].
    by rewrite <- app_assoc, enc_cons, over_app, length_le_split.
Qed.
End loops.

(** * Whole columns *)

(** What is written for the values after the first. *)
Definition tail_items (w : Z) (vs : list Z) : list (nat * Z) :=
  match vs with
  | [] => []
  | v :: vs => items w v (mkInfo 0 0 0) vs
  end.

Definition column (w : nat) (vs : list Z) (body : bytes) : bytes :=
  le_split 4 (Z.of_nat (length vs)) ++ enc w (take 1 vs) ++ body.

Section columns.
Context (w : nat) (Hv : valid_size (Z.of_nat w) = true).
Abbreviation wz := (Z.of_nat w).

Lemma tail_items_ok vs : all_width w vs →
  Forall (λ p, 1 ≤ p.1 ≤ 64)%nat (tail_items wz vs) ∧
  Z.of_nat (length (values_bits (tail_items wz vs))) ≤ Z.of_nat (length vs) * max_item_bits wz.
Proof.
  assert (0 ≤ max_item_bits wz) by (unfold max_item_bits; pose proof (bit_length_cases w Hv); lia).
  intros Hvs. destruct Hvs as [|v vs Hvw Hvs]; [split; [constructor|simpl; lia]|]. cbn [tail_items length].
  destruct (gorilla_items_ok w Hv vs (mkInfo 0 0 0) v Hvs Hvw); [by left|]. split; [done|lia].
Qed.

(** The first step of [compressDataForType]. *)
Lemma gorilla_head {B} vs post n dest (K : bytes → Z → Z → Z → outcome B) :
  all_width w vs → 4 + wz ≤ blen dest →
  (dmem ← store 4 dest 0 n;
   '(dmem, source, dest, prev_value) ←
     (if 0 <? blen (enc w vs) then
          prev_value ← load wz (enc w vs ++ post) 0;
          dmem ← store wz dmem 4 prev_value;
          Ret (dmem, wz, 4 + wz, prev_value)
        else Ret (dmem, 0, 4, 0));
   K dmem source dest prev_value) =
  K (over (le_split 4 n ++ enc w (take 1 vs)) dest) (blen (enc w (take 1 vs)))
    (4 + blen (enc w (take 1 vs))) (List.hd 0 vs).
Proof.
  intros Hvs Hd. pose proof (gorilla_width w Hv).
  replace (store 4 dest 0 n) with (Ret (over (le_split 4 n) dest))
    by (symmetry; apply write_first; rewrite blen_le_split; lia).
  cbn [mbind outcome_bind].
  destruct Hvs as [|v0 vs Hv0 Hvs]; [cbn [take List.hd]; by rewrite enc_nil, app_nil_r|].
  rewrite (proj2 (Z.ltb_lt _ _)) by (rewrite blen_enc; simpl; lia).
  replace (load wz _ 0) with (Ret v0) by (symmetry; rewrite enc_cons, <- app_assoc; by apply load_prefix).
  cbn [mbind outcome_bind]. rewrite store_over by (rewrite ?blen_le_split; lia). cbn [mbind outcome_bind].
  cbn [take List.hd]. rewrite take_0, !blen_enc, enc_cons, enc_nil, app_nil_r, Nat2Z.id. cbn [length].
  change (Z.of_nat 1) with 1. by rewrite Z.mul_1_r.
Qed.

Lemma gorilla_compressDataForType vs post dest dest_size :
  all_width w vs → dest_size < 2 ^ 32 →
  4 + wz + (Z.of_nat (length vs) * max_item_bits wz + 7) / 8 ≤ Z.min dest_size (blen dest) →
  ∃ body pad,
    compressDataForType wz (enc w vs ++ post) (blen (enc w vs)) dest dest_size =
      Ret (over (column w vs body) dest, blen (column w vs body)) ∧
    is_bytes body ∧ bytes_bits body = values_bits (tail_items wz vs) ++ replicate pad false ∧
    blen body ≤ (Z.of_nat (length vs) * max_item_bits wz + 7) / 8.
Proof.
  intros Hvs Hds Hd. pose proof (gorilla_width w Hv) as Hw. unfold compressDataForType.
  rewrite throw_if_false by (by rewrite blen_enc, Z.mul_comm, Z.mod_mul by lia). cbn [mbind outcome_bind].
  assert (blen (enc w vs) / wz = Z.of_nat (length vs)) as -> by (rewrite blen_enc, Z.mul_comm, Z.div_mul; lia).
  destruct (tail_items_ok vs Hvs) as [Hok Hbound]. set (n := Z.of_nat (length vs)) in *.
  assert (0 ≤ max_item_bits wz) by (unfold max_item_bits; pose proof (bit_length_cases w Hv); lia).
  assert (0 ≤ (n * max_item_bits wz + 7) / 8) by (apply Z.div_pos; nia).
  rewrite (gorilla_head vs post n dest) by (done || lia).
  set (h := le_split 4 n ++ enc w (take 1 vs)).
  assert (blen h = 4 + blen (enc w (take 1 vs))) as Hh by (unfold h; by rewrite blen_app, blen_le_split).
  assert (blen (enc w (take 1 vs)) ≤ wz) as Ht.
  { rewrite blen_enc, length_take. pose proof (Nat.le_min_l 1 (length vs)). nia. }
  assert (∀ writer, compress_loop wz (Z.to_nat n) (enc w vs ++ post) (blen (enc w (take 1 vs))) (blen (enc w vs))
    (List.hd 0 vs) (mkInfo 0 0 0) writer = write_values (tail_items wz vs) writer) as ->.
  { intros writer. destruct Hvs as [|v vs Hvw Hvs]; [done|]. cbn [take List.hd tail_items].
    rewrite take_0, (enc_cons w v vs), (enc_cons w v []), enc_nil, app_nil_r, <- app_assoc, blen_app.
    apply gorilla_compress_loop; [done|done|done|by left|]. unfold n. cbn [length]. lia. }
  rewrite <- Hh. unfold over at 1.
  assert ((Z.of_nat (length (values_bits (tail_items wz vs))) + 7) / 8 ≤ (n * max_item_bits wz + 7) / 8) as Hbits
    by (apply Z.div_le_mono; lia).
  destruct (write_values_flush (tail_items wz vs) h (drop (length h) dest) (dest_size - blen h))
    as (body & pad & w1 & w2 & -> & Hfl & Hdest & Hcnt & Hb & Hbb & Hlen).
  - done.
  - blia.
  - pose proof (blen_nonneg h). zlia.
  - cbn [mbind outcome_bind]. rewrite Hfl. cbn [mbind outcome_bind]. exists body, pad.
    split_and!; [|done|done|lia]. rewrite Hdest, Hcnt. unfold column. rewrite app_assoc. fold n. fold h.
    rewrite over_app, blen_app. do 2 f_equal.
    replace ((8 * blen body + 7) / 8) with (blen body) by (apply Z.div_unique with (r := 7); lia).
    apply wrap_small. pose proof (blen_nonneg body). pose proof (blen_nonneg h). zlia.
Qed.

Lemma gorilla_blen_column vs body :
  blen (column w vs body) = 4 + blen (enc w (take 1 vs)) + blen body.
Proof. unfold column. rewrite !blen_app, blen_le_split. lia. Qed.

Lemma gorilla_decompressDataForType vs body pad tail dest :
  all_width w vs → blen (enc w vs) < 2 ^ 32 → is_bytes body →
  bytes_bits body = values_bits (tail_items wz vs) ++ replicate pad false →
  blen (enc w vs) ≤ blen dest →
  decompressDataForType wz (column w vs body ++ tail) (blen (column w vs body)) dest (blen (enc w vs)) =
    Ret (over (enc w vs) dest).
Proof.
  intros Hvs Hn Hb Hbits Hd. pose proof (gorilla_width w Hv) as Hw. pose proof (blen_nonneg body).
  unfold decompressDataForType. rewrite gorilla_blen_column. rewrite blen_enc in Hn.
  pose proof (blen_nonneg (enc w (take 1 vs))).
  rewrite (proj2 (Z.ltb_ge _ 4)) by lia.
  replace (load 4 _ 0) with (Ret (Z.of_nat (length vs))).
  2: { symmetry. unfold column. rewrite <- app_assoc. apply (load_prefix 4). unfold in_width. simpl. zlia. }
  cbn [mbind outcome_bind].
  destruct Hvs as [|v vs Hvw Hvs]; [by rewrite orb_true_r, enc_nil, over_nil|]. cbn [take] in *. rewrite take_0 in *.
  assert (blen (enc w [v]) = wz) as Hv1 by (rewrite blen_enc; simpl; lia). rewrite Hv1.
  rewrite (proj2 (Z.ltb_ge _ (4 + wz))), (proj2 (Z.ltb_ge _ 1)) by (cbn [length]; lia). cbn [orb].
  rewrite throw_if_false.
  2: { apply Z.ltb_ge. rewrite (wrap_small 8) by zlia. rewrite blen_enc. lia. }
  cbn [mbind outcome_bind]. rewrite enc_cons, blen_app, blen_le_split in Hd. pose proof (blen_nonneg (enc w vs)).
  replace (load wz _ 4) with (Ret v).
  2: { symmetry. unfold column. rewrite <- !app_assoc. cbn [take]. by apply load_enc. }
  cbn [mbind outcome_bind].
  replace (store wz dest 0 v) with (Ret (over (le_split w v) dest))
    by (symmetry; unfold store; rewrite Nat2Z.id; apply write_first; rewrite blen_le_split; lia).
  cbn [mbind outcome_bind]. unfold over at 1. rewrite length_le_split.
  replace (Z.of_nat (length (v :: vs))) with (1 + Z.of_nat (length vs)) by (simpl; lia).
  match goal with |- decompress_loop _ ?f _ _ ?r _ _ _ ?d = _ =>
    pose proof (gorilla_decompress_loop w Hv vs f 1 r (replicate pad false) (le_split w v) (drop w dest) v
      (mkInfo 0 0 0) d) as Hloop end.
  rewrite blen_le_split in Hloop. rewrite Hloop; try done.
  - by rewrite enc_cons, over_app, length_le_split.
  - lia.
  - by left.
  - by left.
  - cbn [tail_items] in Hbits. rewrite <- Hbits. replace (4 + wz + blen body - 4 - wz) with (blen body) by lia.
    unfold column. cbn [take]. rewrite take_0, (app_assoc (le_split 4 _)), <- app_assoc.
    replace (4 + wz) with (blen (le_split 4 (Z.of_nat (length (v :: vs))) ++ enc w [v]))
      by (rewrite blen_app, blen_le_split; lia).
    by apply reader_create.
  - rewrite blen_drop. fold_blen. lia.
Qed.
End columns.

(** * The codec *)

Definition codec (ec : ErrorCode) (first_bytes_size data_bytes_size : Z) : codec := {|
  getMethodByte := method_byte CodecBase.Gorilla;
  CodecBase.doCompressData := doCompressData first_bytes_size data_bytes_size;
  CodecBase.doDecompressData := doDecompressData;
  CodecBase.getMaxCompressedDataSize := getMaxCompressedDataSize first_bytes_size data_bytes_size;
  getAdditionalSizeAtTheEndOfBuffer := 0;
  decompression_error_code := ec;
|}.

Definition data (w : nat) (skipped : bytes) (vs : list Z) (body : bytes) : bytes :=
  skip_header (Z.of_nat w) skipped ++ column w vs body.

(** The sources for which no size overflows 32 bits. *)
Definition max_source : Z := 2 ^ 27.

Section codec.
Context (first w : nat) (Hv : valid_size (Z.of_nat w) = true) (Hfv : valid_size (Z.of_nat first) = true).
Context (Hfirst : Z.of_nat w ≤ Z.of_nat first).
Abbreviation wz := (Z.of_nat w).

(** Enough is reserved when the width of the first call is not smaller. *)
Lemma gorilla_getMax n : 0 ≤ n ≤ max_source →
  6 + 2 * wz + (n / wz * max_item_bits wz + 8) / 8 ≤ getMaxCompressedDataSize (Z.of_nat first) wz n < 2 ^ 32.
Proof.
  intros Hn. unfold getMaxCompressedDataSize, getCompressedHeaderSize, getCompressedDataSize, max_item_bits, max_source in *.
  pose proof (Z.mul_div_le n wz) as Hdiv. pose proof (Z.div_pos n wz) as Hpos.
  assert (getBitLengthOfLength wz ≤ getBitLengthOfLength (Z.of_nat first) ≤ 7 ∧ 4 ≤ getBitLengthOfLength wz) as HL.
  { pose proof (gorilla_width w Hv) as [E|[E|[E|E]]]; pose proof (gorilla_width first Hfv) as [E'|[E'|[E'|E']]];
      rewrite E, E' in *; try lia; vm_compute; (split_and!; congruence). }
  set (L := getBitLengthOfLength wz) in *. set (L' := getBitLengthOfLength (Z.of_nat first)) in *.
  pose proof (gorilla_width w Hv) as Hw. set (q := n / wz) in *.
  assert (0 ≤ q ∧ wz * q ≤ 2 ^ 27) as Hq by lia.
  assert (0 ≤ q * (2 + (L' - 1) + L' + wz * 8) + 8 < 2 ^ 32) as Hs.
  { assert (q * (2 + (L' - 1) + L' + wz * 8) ≤ q * (15 + wz * 8)) by (apply Z.mul_le_mono_nonneg_l; lia).
    split; [nia|]. destruct Hw as [E|[E|[E|E]]]; rewrite E in *; zlia. }
  rewrite (wrap_small 4 (_ + 8)) by done.
  assert (q * (1 + 2 * L + wz * 8) ≤ q * (2 + (L' - 1) + L' + wz * 8)) by (apply Z.mul_le_mono_nonneg_l; lia).
  assert ((q * (1 + 2 * L + wz * 8) + 8) / 8 ≤ (q * (2 + (L' - 1) + L' + wz * 8) + 8) / 8) by (apply Z.div_le_mono; lia).
  assert (0 ≤ (q * (2 + (L' - 1) + L' + wz * 8) + 8) / 8 < 2 ^ 29)
    by (split; [apply Z.div_pos; lia|apply Z.div_lt_upper_bound; zlia]).
  rewrite wrap_small by zlia. zlia.
Qed.

Lemma gorilla_doCompressData skipped vs tail dest :
  all_width w vs → blen skipped = blen (skipped ++ enc w vs) mod wz →
  blen (skipped ++ enc w vs) ≤ max_source →
  getMaxCompressedDataSize (Z.of_nat first) wz (blen (skipped ++ enc w vs)) ≤ blen dest →
  ∃ body pad,
    doCompressData (Z.of_nat first) wz ((skipped ++ enc w vs) ++ tail) (blen (skipped ++ enc w vs)) dest =
      Ret (over (data w skipped vs body) dest, blen (data w skipped vs body)) ∧
    is_bytes body ∧ bytes_bits body = values_bits (tail_items wz vs) ++ replicate pad false ∧
    blen (data w skipped vs body) ≤ getMaxCompressedDataSize (Z.of_nat first) wz (blen (skipped ++ enc w vs)).
Proof.
  intros Hvs Hsk Hs Hd. unfold doCompressData. pose proof (gorilla_width w Hv).
  rewrite ub_unless_true by (apply negb_true_iff, Z.eqb_neq; lia). cbn [mbind outcome_bind].
  pose proof (Z.mod_pos_bound (blen (skipped ++ enc w vs)) wz ltac:(lia)) as Hsk2.
  rewrite <- Hsk in Hsk2. rewrite <- Hsk, (wrap_small 1) by zlia.
  assert (blen (skipped ++ enc w vs) / wz = Z.of_nat (length vs)) as Hcount.
  { symmetry. apply Z.div_unique with (r := blen skipped); [lia|]. rewrite blen_app, blen_enc. lia. }
  pose proof (gorilla_getMax _ (conj (blen_nonneg _) Hs)) as Hfit. rewrite Hcount in *.
  set (reserved := getMaxCompressedDataSize _ _ _) in *.
  assert (0 ≤ max_item_bits wz) by (unfold max_item_bits; pose proof (bit_length_cases w Hv); lia).
  assert (0 ≤ (Z.of_nat (length vs) * max_item_bits wz + 7) / 8 ≤ (Z.of_nat (length vs) * max_item_bits wz + 8) / 8)
    by (split; [apply Z.div_pos; nia|apply Z.div_le_mono; lia]).
  rewrite <- (app_assoc skipped), write_skip_header by (done || lia). rewrite Hv.
  rewrite tail_at_app by done. cbn [mbind outcome_bind].
  replace (blen (skipped ++ enc w vs) - blen skipped) with (blen (enc w vs)) by (rewrite blen_app; lia).
  destruct (gorilla_compressDataForType w Hv vs tail (drop (length (skip_header wz skipped)) dest) reserved)
    as (body & pad & Hc & Hb & Hbits & Hl); [done|lia|rewrite blen_drop; fold_blen; rewrite blen_skip_header; lia|].
  exists body, pad.
  assert (blen (data w skipped vs body) ≤ reserved).
  { unfold data. rewrite blen_app, blen_skip_header, gorilla_blen_column, blen_enc, length_take.
    pose proof (Nat.le_min_l 1 (length vs)). nia. }
  split_and!; [|done|done|done].
  rewrite (on_tail_over _ _ _ _ _ _ ltac:(by rewrite blen_skip_header) Hc). cbn [mbind outcome_bind].
  do 2 f_equal. unfold data in *. rewrite blen_app, blen_skip_header in *.
  pose proof (blen_nonneg (column w vs body)). rewrite wrap_small; zlia.
Qed.

End codec.

Section decode.
Context (w : nat) (Hv : valid_size (Z.of_nat w) = true).
Abbreviation wz := (Z.of_nat w).

Lemma gorilla_doDecompressData skipped vs body pad tail dest :
  all_width w vs → vs ≠ [] → blen skipped = blen (skipped ++ enc w vs) mod wz →
  blen (skipped ++ enc w vs) ≤ max_source → is_bytes body →
  bytes_bits body = values_bits (tail_items wz vs) ++ replicate pad false →
  blen (data w skipped vs body) < 2 ^ 32 → blen (skipped ++ enc w vs) ≤ blen dest →
  doDecompressData (data w skipped vs body ++ tail) (blen (data w skipped vs body)) dest
    (blen (skipped ++ enc w vs)) = Ret (over (skipped ++ enc w vs) dest).
Proof.
  intros Hvs Hne Hsk Hs Hb Hbits Hsz Hd. unfold doDecompressData, data, max_source in *. pose proof (gorilla_width w Hv).
  rewrite <- (app_assoc (skip_header _ _)). rewrite (blen_app (skip_header _ _)), blen_skip_header in *.
  pose proof (Z.mod_pos_bound (blen (skipped ++ enc w vs)) wz ltac:(lia)) as Hsk2.
  rewrite <- Hsk in Hsk2. pose proof (blen_nonneg (column w vs body)). pose proof (blen_nonneg (enc w vs)).
  assert (0 < blen (enc w vs)) by (rewrite blen_enc; destruct vs; [done|simpl; lia]).
  rewrite (throw_if_false (_ <? 2)) by (apply Z.ltb_ge; lia). cbn [mbind outcome_bind].
  rewrite load_skip_header. cbn [mbind outcome_bind].
  rewrite (throw_if_false (wz =? 0)) by (apply Z.eqb_neq; lia). cbn [mbind outcome_bind].
  rewrite <- Hsk, (wrap_small 1) by zlia. rewrite blen_app in *.
  rewrite !(wrap_small 4) by zlia.
  rewrite (throw_if_false (_ <? 2 + _)) by (apply Z.ltb_ge; lia). cbn [mbind outcome_bind].
  rewrite throw_if_false by (apply Z.leb_gt; lia). cbn [mbind outcome_bind].
  rewrite read_skip_header by (done || lia). rewrite Hv.
  replace (2 + blen skipped + blen (column w vs body) - blen skipped - 2) with (blen (column w vs body)) by lia.
  replace (blen skipped + blen (enc w vs) - blen skipped) with (blen (enc w vs)) by lia.
  rewrite (on_tail_over _ (enc w vs) dest _ _ tt); [done|done|].
  rewrite (gorilla_decompressDataForType w Hv vs body pad); try done.
  - zlia.
  - rewrite blen_drop. fold_blen. lia.
Qed.
End decode.

Lemma gorilla_undo first n source tail dest :
  valid_size n = true → valid_size first = true → n ≤ first →
  is_bytes source → n ≤ blen source ≤ max_source →
  getMaxCompressedDataSize first n (blen source) ≤ blen dest →
  ∃ out, doCompressData first n (source ++ tail) (blen source) dest = Ret (over out dest, blen out) ∧
    is_bytes out ∧ blen out ≤ getMaxCompressedDataSize first n (blen source) ∧
    ∀ tail' dest', blen source ≤ blen dest' →
      doDecompressData (out ++ tail') (blen out) dest' (blen source) = Ret (over source dest').
Proof.
  intros Hv Hfv Hf Hb Hs Hd. destruct (Delta.valid_size_cases n Hv) as (w & -> & Hw).
  destruct (Delta.valid_size_cases first Hfv) as (f & -> & _).
  destruct (split_source w source) as (skipped & vs & -> & Hvs & Hskb & Hsk); [lia|done|].
  destruct (gorilla_doCompressData f w Hv Hfv Hf skipped vs tail dest Hvs Hsk ltac:(lia) Hd)
    as (body & pad & Hc & Hbb & Hbits & Hl).
  assert (vs ≠ []) as Hne.
  { intros ->. rewrite enc_nil, app_nil_r in *.
    pose proof (Z.mod_pos_bound (blen skipped) (Z.of_nat w) ltac:(lia)). lia. }
  pose proof (gorilla_getMax f w Hv Hfv Hf (blen (skipped ++ enc w vs)) ltac:(lia)) as Hmax.
  exists (data w skipped vs body). split_and!; [done| |done|].
  - apply Forall_app. split; [apply skip_header_bytes; [unfold is_byte; lia| |done]|].
    + pose proof (Z.mod_pos_bound (blen (skipped ++ enc w vs)) (Z.of_nat w) ltac:(lia)). lia.
    + unfold column. rewrite !Forall_app. auto with codec.
  - intros tail' dest' Hd'. apply (gorilla_doDecompressData w Hv skipped vs body pad); try done; lia.
Qed.

(** More is reserved for a larger source. *)
Lemma gorilla_getMax_mono first n a b :
  valid_size n = true → valid_size first = true → 0 ≤ a ≤ b → b ≤ max_source →
  0 ≤ getMaxCompressedDataSize first n a ≤ getMaxCompressedDataSize first n b ∧
  getMaxCompressedDataSize first n b < 2 ^ 31.
Proof.
  intros Hv Hfv Hab Hb. unfold getMaxCompressedDataSize, getCompressedHeaderSize, getCompressedDataSize, max_source in *.
  assert (n = 1 ∨ n = 2 ∨ n = 4 ∨ n = 8) as Hn by (unfold valid_size in Hv; rewrite !orb_true_iff, !Z.eqb_eq in Hv; tauto).
  assert (1 ≤ getBitLengthOfLength first ≤ 7) as HL.
  { unfold valid_size in Hfv. rewrite !orb_true_iff, !Z.eqb_eq in Hfv.
    destruct Hfv as [[[-> | ->] | ->] | ->]; vm_compute; split; congruence. }
  set (L := getBitLengthOfLength first) in *. set (bits := 2 + (L - 1) + L + n * 8). assert (n ≤ bits ≤ 23 * n) by (unfold bits; lia).
  assert (∀ x, 0 ≤ x ≤ 2 ^ 27 → 0 ≤ x / n * bits + 8 < 2 ^ 32 ∧ (x / n * bits + 8) / 8 < 2 ^ 30) as Hx.
  { intros x Hx. pose proof (Z.mul_div_le x n ltac:(lia)). pose proof (Z.div_pos x n ltac:(lia) ltac:(lia)).
    assert (0 ≤ x / n * bits ≤ 23 * 2 ^ 27) by (split; [nia|]; transitivity (x / n * (23 * n)); nia).
    split; [zlia|apply Z.div_lt_upper_bound; zlia]. }
  destruct (Hx a ltac:(lia)) as [Ha1 Ha2]. destruct (Hx b ltac:(lia)) as [Hb1 Hb2].
  rewrite !(wrap_small 4 (_ + 8)) by done.
  assert (0 ≤ (a / n * bits + 8) / 8 ≤ (b / n * bits + 8) / 8).
  { split; [apply Z.div_pos; lia|]. apply Z.div_le_mono; [lia|]. pose proof (Z.div_le_mono a b n). nia. }
  rewrite !wrap_small by zlia. zlia.
Qed.

Lemma gorilla_correct ec first n :
  valid_size n = true → valid_size first = true → n ≤ first →
  CodecCorrect (codec ec first n) (λ source, n ≤ blen source ≤ max_source).
Proof.
  intros Hv Hfv Hf. split; [unfold is_byte; simpl; lia|simpl; lia|].
  intros source tail dest Hb Hs Hmax. simpl in *.
  destruct (gorilla_undo first n source tail dest Hv Hfv Hf Hb Hs Hmax) as (out & Hc & Ho & Hl & Hun).
  exists out. split_and!; [done|done|done|]. intros tail' dest' _ Hd'. simpl in *.
  eexists. split; [apply Hun; lia|]. apply blen_over. lia.
Qed.

(** * Theorems *)



(** Consecutive values that differ in the highest and the lowest bits, in turns so that
    no description can be kept. *)
Definition wide_values (n : nat) : bytes :=
  concat (replicate n (enc 8 [0; 0x8000000000000002] ++ enc 8 [0xC000000000000003; 0x4000000000000001])).

(** The static variable of [getCompressedDataSize] is shared by all the types. When
    the first column of the process has values of one byte, the size reserved for values
    of eight bytes is too small: 33 of them are written past the end of the buffer, and for
    36 of them the compression fails. When the first column has values of eight bytes,
    both are compressed. *)
Theorem gorilla_static_width_overflow :
  let reserved first n := Z.to_nat (getMaxCompressedDataSize first 8 n) in
  let compress first source :=
    doCompressData first 8 source (blen source) (replicate (reserved first (blen source)) 0) in
  let source33 := take 264 (wide_values 9) in
  let source36 := wide_values 9 in
  compress 1 source33 = UB ∧ compress 1 source36 = Throw CANNOT_WRITE_AFTER_END_OF_BUFFER ∧
  (∃ out n, compress 8 source33 = Ret (out, n)) ∧ (∃ out n, compress 8 source36 = Ret (out, n)).
Proof. vm_compute. eauto 10. Qed.

(** A source shorter than one value is compressed, as bytes to skip, and the
    decompression of the result is refused: these bytes are lost. *)
Theorem gorilla_short_source_rejected (n : Z) (source dest dest' tail : bytes) :
  valid_size n = true → is_bytes source → 0 < blen source < n →
  getMaxCompressedDataSize n n (blen source) ≤ blen dest →
  ∃ out,
    doCompressData n n source (blen source) dest = Ret (over out dest, blen out) ∧
    doDecompressData (out ++ tail) (blen out) dest' (blen source) = Throw CANNOT_DECOMPRESS.
Proof.
  intros Hv Hb Hs Hd. destruct (Delta.valid_size_cases n Hv) as (w & -> & Hw).
  assert (blen source = blen (source ++ enc w []) mod Z.of_nat w) as Hsk
    by (rewrite enc_nil, app_nil_r, Z.mod_small; lia).
  destruct (gorilla_doCompressData w w Hv Hv ltac:(lia) source [] [] dest) as (body & pad & Hc & Hbb & _ & _);
    rewrite ?enc_nil, ?app_nil_r in *; [constructor|done|unfold max_source; lia|done|].
  exists (data w source [] body). split; [done|].
  unfold doDecompressData, data. rewrite blen_app, blen_skip_header, <- app_assoc.
  pose proof (blen_nonneg (column w [] body)). rewrite (throw_if_false (_ <? 2)) by (apply Z.ltb_ge; lia).
  cbn [mbind outcome_bind]. rewrite load_skip_header. cbn [mbind outcome_bind].
  rewrite (throw_if_false (_ =? 0)) by (apply Z.eqb_neq; lia). cbn [mbind outcome_bind].
  rewrite (Z.mod_small (blen source)), (wrap_small 1 (blen source)), (wrap_small 4 (2 + blen source)) by zlia.
  rewrite (throw_if_false (_ <? _)) by (apply Z.ltb_ge; lia). cbn [mbind outcome_bind].
  by rewrite Z.leb_refl.
Qed.

Lemma gorilla_short_source_rejected_witness :
  ∃ out,
    doCompressData 4 4 [1; 2; 3] (blen [1; 2; 3]) (replicate 15 0) = Ret (over out (replicate 15 0), blen out) ∧
    doDecompressData (out ++ [5]) (blen out) [0; 0; 0] (blen [1; 2; 3]) = Throw CANNOT_DECOMPRESS.
Proof.
  apply (gorilla_short_source_rejected 4 [1; 2; 3] (replicate 15 0) [0; 0; 0] [5]);
    [done|by apply is_bytes_compute|vm_compute; split; congruence|vm_compute; congruence].
Defined.

(** Decompression checks of a stored description only that it is not all zeros. Data
    with a description of no significant bits, or of more bits than the type has, makes
    it shift by the width of the type or more. *)
Theorem gorilla_corrupt_description_ub :
  let column bits := [1; 0] ++ le_split 4 2 ++ [77] ++ bits in
  (** leading zeros 1, no significant bits *)
  doDecompressData (column [0xE4; 0; 0]) 10 [0; 0] 2 = UB ∧
  (** leading zeros 7, 8 significant bits: the trailing zeros wrap to 249 *)
  doDecompressData (column [0xFE; 0; 0; 0]) 11 [0; 0] 2 = UB.
Proof. by vm_compute. Qed.
End Gorilla.
