(* ===== verification/DataTypes.v ===== *)
(** Data types: their identifiers (src/src/Core/TypeId.h), the predicates and sizes
    (src/src/DataTypes/IDataType.h, IDataType.cpp and the classes of the types), and the
    streams a column of a type is stored in (src/src/DataTypes/Serializations). *)

From S2P Require Import Prelude.
From stdpp Require Import base tactics decidable list numbers.
Local Open Scope Z_scope.

Module TypeIndex.
Inductive t :=
| Nothing | UInt8 | UInt16 | UInt32 | UInt64 | UInt128 | UInt256
| Int8 | Int16 | Int32 | Int64 | Int128 | Int256
| Float32 | Float64
| Date | Date32 | DateTime | DateTime64
| String | FixedString
| Enum8 | Enum16
| Decimal32 | Decimal64 | Decimal128 | Decimal256
| UUID | Array | Tuple | Set' | Interval | Nullable | Function' | AggregateFunction
| LowCardinality | Map | ObjectDeprecated | Object | IPv4 | IPv6 | JSONPaths | Variant | Dynamic.

#[global] Instance t_eq_dec : EqDecision t.
Proof. solve_decision. Defined.
End TypeIndex.

(** * WhichDataType *)

Module WhichDataType.
Definition eqb (idx idx' : TypeIndex.t) : bool := bool_decide (idx = idx').

Definition isNativeUInt (idx : TypeIndex.t) : bool :=
  eqb idx TypeIndex.UInt8 || eqb idx TypeIndex.UInt16 || eqb idx TypeIndex.UInt32 || eqb idx TypeIndex.UInt64.
Definition isUInt (idx : TypeIndex.t) : bool :=
  isNativeUInt idx || eqb idx TypeIndex.UInt128 || eqb idx TypeIndex.UInt256.
Definition isNativeInt (idx : TypeIndex.t) : bool :=
  eqb idx TypeIndex.Int8 || eqb idx TypeIndex.Int16 || eqb idx TypeIndex.Int32 || eqb idx TypeIndex.Int64.
Definition isInt (idx : TypeIndex.t) : bool :=
  isNativeInt idx || eqb idx TypeIndex.Int128 || eqb idx TypeIndex.Int256.
Definition isDecimal (idx : TypeIndex.t) : bool :=
  eqb idx TypeIndex.Decimal32 || eqb idx TypeIndex.Decimal64 || eqb idx TypeIndex.Decimal128 || eqb idx TypeIndex.Decimal256.
Definition isFloat (idx : TypeIndex.t) : bool := eqb idx TypeIndex.Float32 || eqb idx TypeIndex.Float64.
Definition isDateOrDate32 (idx : TypeIndex.t) : bool := eqb idx TypeIndex.Date || eqb idx TypeIndex.Date32.
Definition isDateTime (idx : TypeIndex.t) : bool := eqb idx TypeIndex.DateTime.
Definition isDateTime64 (idx : TypeIndex.t) : bool := eqb idx TypeIndex.DateTime64.
End WhichDataType.

(** * Types *)

(** A type without parameters (or whose parameters do not change how it is stored) is
    given by its identifier. *)
Inductive IDataType :=
| DataTypeSimple (idx : TypeIndex.t)
| DataTypeFixedString (n : Z)
| DataTypeNullable (nested : IDataType)
| DataTypeArray (nested : IDataType)
| DataTypeTuple (elems : list IDataType)
| DataTypeMap (key value : IDataType)
| DataTypeLowCardinality (dictionary_type : IDataType).

Definition getTypeId (type : IDataType) : TypeIndex.t :=
  match type with
  | DataTypeSimple idx => idx
  | DataTypeFixedString _ => TypeIndex.FixedString
  | DataTypeNullable _ => TypeIndex.Nullable
  | DataTypeArray _ => TypeIndex.Array
  | DataTypeTuple _ => TypeIndex.Tuple
  | DataTypeMap _ _ => TypeIndex.Map
  | DataTypeLowCardinality _ => TypeIndex.LowCardinality
  end.

(** [sizeof] of the values of [DataTypeNumberBase], [DataTypeDecimalBase] and [DataTypeEnum]. *)
Definition number_size (idx : TypeIndex.t) : option Z :=
  match idx with
  | TypeIndex.UInt8 | TypeIndex.Int8 | TypeIndex.Enum8 => Some 1
  | TypeIndex.UInt16 | TypeIndex.Int16 | TypeIndex.Enum16 | TypeIndex.Date => Some 2
  | TypeIndex.UInt32 | TypeIndex.Int32 | TypeIndex.Float32 | TypeIndex.Date32 | TypeIndex.DateTime
  | TypeIndex.Decimal32 => Some 4
  | TypeIndex.UInt64 | TypeIndex.Int64 | TypeIndex.Float64 | TypeIndex.DateTime64 | TypeIndex.Decimal64
  | TypeIndex.Interval => Some 8
  | TypeIndex.UInt128 | TypeIndex.Int128 | TypeIndex.Decimal128 => Some 16
  | TypeIndex.UInt256 | TypeIndex.Int256 | TypeIndex.Decimal256 => Some 32
  | _ => None
  end.

Fixpoint isValueRepresentedByNumber (type : IDataType) : bool :=
  match type with
  | DataTypeSimple idx => bool_decide (is_Some (number_size idx)) || bool_decide (idx = TypeIndex.IPv4)
  | DataTypeLowCardinality dictionary_type => isValueRepresentedByNumber dictionary_type
  | _ => false
  end.

Definition isValueUnambiguouslyRepresentedInFixedSizeContiguousMemoryRegion (type : IDataType) : bool :=
  match type with
  | DataTypeFixedString _ => true
  | DataTypeSimple TypeIndex.UUID | DataTypeSimple TypeIndex.IPv4 | DataTypeSimple TypeIndex.IPv6 => true
  | _ => isValueRepresentedByNumber type
  end.

Fixpoint getSizeOfValueInMemory (type : IDataType) : outcome Z :=
  match type with
  | DataTypeFixedString n => Ret n
  | DataTypeSimple TypeIndex.Nothing => Ret 0
  | DataTypeSimple TypeIndex.UUID | DataTypeSimple TypeIndex.IPv6 => Ret 16
  | DataTypeSimple TypeIndex.IPv4 => Ret 4
  | DataTypeSimple idx => match number_size idx with Some n => Ret n | None => Throw LOGICAL_ERROR end
  | DataTypeTuple elems =>
      (fix sizes (elems : list IDataType) (res : Z) : outcome Z :=
         match elems with
         | [] => Ret res
         | elem :: elems => n ← getSizeOfValueInMemory elem; sizes elems (res + n)
         end) elems 0
  | DataTypeLowCardinality dictionary_type => getSizeOfValueInMemory dictionary_type
  | DataTypeNullable _ | DataTypeArray _ | DataTypeMap _ _ => Throw LOGICAL_ERROR
  end.

(** * Streams *)

(** [ISerialization::Substream::Type], the kinds that the types above have. *)
Inductive Substream :=
| ArrayElements | ArraySizes | NullableElements | NullMap | TupleElement
| DictionaryKeys | DictionaryIndexes | SparseElements | SparseOffsets | Regular.

#[global] Instance Substream_eq_dec : EqDecision Substream.
Proof. solve_decision. Defined.

(** The streams that the default serialization of a type enumerates: the path of each, and
    the type of the data at its end. *)
Fixpoint enumerateStreams (path : list Substream) (type : IDataType) : list (list Substream * IDataType) :=
  match type with
  | DataTypeSimple _ | DataTypeFixedString _ => [(path ++ [Regular], type)]
  | DataTypeArray nested =>
      (path ++ [ArraySizes], DataTypeSimple TypeIndex.UInt64) :: enumerateStreams (path ++ [ArrayElements]) nested
  | DataTypeNullable nested =>
      (path ++ [NullMap], DataTypeSimple TypeIndex.UInt8) :: enumerateStreams (path ++ [NullableElements]) nested
  | DataTypeTuple [] => [(path ++ [Regular], type)]
  | DataTypeTuple elems =>
      (fix all (elems : list IDataType) : list (list Substream * IDataType) :=
         match elems with
         | [] => []
         | elem :: elems => enumerateStreams (path ++ [TupleElement]) elem ++ all elems
         end) elems
  (* the nested type is Array(Tuple(key, value)) *)
  | DataTypeMap key value =>
      (path ++ [ArraySizes], DataTypeSimple TypeIndex.UInt64) ::
      enumerateStreams (path ++ [ArrayElements; TupleElement]) key ++
      enumerateStreams (path ++ [ArrayElements; TupleElement]) value
  (* the serialization of the keys is that of the type without Nullable, which has one stream *)
  | DataTypeLowCardinality dictionary_type =>
      [(path ++ [DictionaryKeys; Regular], dictionary_type); (path ++ [DictionaryIndexes], type)]
  end.

Definition isSpecialCompressionAllowed (path : list Substream) : bool :=
  forallb (λ elem, negb (bool_decide (elem = NullMap) || bool_decide (elem = ArraySizes) ||
                         bool_decide (elem = DictionaryIndexes) || bool_decide (elem = SparseOffsets))) path.

(** The types of the streams that codecs which depend on the type are made for. *)
Definition special_streams (type : IDataType) : list IDataType :=
  snd <$> filter (λ s, isSpecialCompressionAllowed s.1 = true) (enumerateStreams [] type).

(** [innerDataTypeIsFloat] of CompressionFactoryAdditions.cpp. *)
Fixpoint innerDataTypeIsFloat (type : IDataType) : bool :=
  if WhichDataType.isFloat (getTypeId type) then true
  else
    match type with
    | DataTypeNullable nested => innerDataTypeIsFloat nested
    | DataTypeArray nested => innerDataTypeIsFloat nested
    | DataTypeTuple elems =>
        (fix any (elems : list IDataType) : bool :=
           match elems with
           | [] => false
           | subtype :: elems => if innerDataTypeIsFloat subtype then true else any elems
           end) elems
    | _ => false
    end.
