(* ===== verification/CodecT64.v ===== *)
(** The codec T64 (src/src/Compression/CompressionCodecT64.cpp): blocks of 64 integers as
    bit matrices, transposed, with the bits that all the values share cropped. *)

From S2P Require Import Prelude CodecBase CodecDelta DataTypes.
From stdpp Require Import base tactics list numbers sets.
Local Open Scope Z_scope.

Module T64.

Inductive Variant := Byte | Bit.

Definition variant_bit (v : Variant) : Z := match v with Byte => 0 | Bit => 1 end.

Definition HEADER_SIZE : Z := 1 + 2 * 8.
Definition MAX_COMPRESSED_BLOCK_SIZE : Z := 8 * 64.

Definition getMaxCompressedDataSize (uncompressed_size : Z) : Z :=
  u32 (uncompressed_size + MAX_COMPRESSED_BLOCK_SIZE + HEADER_SIZE).

(** ** Types *)

Inductive MagicNumber :=
| UInt8 | UInt16 | UInt32 | UInt64 | Int8 | Int16 | Int32 | Int64
| Date | DateTime | DateTime64 | Enum8 | Enum16 | Decimal32 | Decimal64 | IPv4 | Date32.

Definition magic_byte (m : MagicNumber) : Z :=
  match m with
  | UInt8 => 1 | UInt16 => 2 | UInt32 => 3 | UInt64 => 4
  | Int8 => 6 | Int16 => 7 | Int32 => 8 | Int64 => 9
  | Date => 13 | DateTime => 14 | DateTime64 => 15
  | Enum8 => 17 | Enum16 => 18 | Decimal32 => 19 | Decimal64 => 20 | IPv4 => 21 | Date32 => 22
  end.

Definition serializeTypeId (type_id : option TypeIndex.t) : outcome MagicNumber :=
  match type_id with
  | None => Throw CANNOT_COMPRESS
  | Some type_id =>
      match type_id with
      | TypeIndex.UInt8 => Ret UInt8
      | TypeIndex.UInt16 => Ret UInt16
      | TypeIndex.UInt32 => Ret UInt32
      | TypeIndex.UInt64 => Ret UInt64
      | TypeIndex.Int8 => Ret Int8
      | TypeIndex.Int16 => Ret Int16
      | TypeIndex.Int32 => Ret Int32
      | TypeIndex.Int64 => Ret Int64
      | TypeIndex.Date => Ret Date
      | TypeIndex.Date32 => Ret Date32
      | TypeIndex.DateTime => Ret DateTime
      | TypeIndex.DateTime64 => Ret DateTime64
      | TypeIndex.Enum8 => Ret Enum8
      | TypeIndex.Enum16 => Ret Enum16
      | TypeIndex.Decimal32 => Ret Decimal32
      | TypeIndex.Decimal64 => Ret Decimal64
      | TypeIndex.IPv4 => Ret IPv4
      | _ => Throw LOGICAL_ERROR
      end
  end.

Definition deserializeTypeId (serialized_type_id : Z) : outcome TypeIndex.t :=
  match serialized_type_id with
  | 1 => Ret TypeIndex.UInt8
  | 2 => Ret TypeIndex.UInt16
  | 3 => Ret TypeIndex.UInt32
  | 4 => Ret TypeIndex.UInt64
  | 6 => Ret TypeIndex.Int8
  | 7 => Ret TypeIndex.Int16
  | 8 => Ret TypeIndex.Int32
  | 9 => Ret TypeIndex.Int64
  | 13 => Ret TypeIndex.Date
  | 22 => Ret TypeIndex.Date32
  | 14 => Ret TypeIndex.DateTime
  | 15 => Ret TypeIndex.DateTime64
  | 17 => Ret TypeIndex.Enum8
  | 18 => Ret TypeIndex.Enum16
  | 19 => Ret TypeIndex.Decimal32
  | 20 => Ret TypeIndex.Decimal64
  | 21 => Ret TypeIndex.IPv4
  | _ => Throw INCORRECT_DATA
  end.

Definition baseType (type_idx : TypeIndex.t) : TypeIndex.t :=
  match type_idx with
  | TypeIndex.Int8 => TypeIndex.Int8
  | TypeIndex.Int16 => TypeIndex.Int16
  | TypeIndex.Int32 | TypeIndex.Decimal32 | TypeIndex.Date32 => TypeIndex.Int32
  | TypeIndex.Int64 | TypeIndex.Decimal64 | TypeIndex.DateTime64 => TypeIndex.Int64
  | TypeIndex.UInt8 | TypeIndex.Enum8 => TypeIndex.UInt8
  | TypeIndex.UInt16 | TypeIndex.Enum16 | TypeIndex.Date => TypeIndex.UInt16
  | TypeIndex.UInt32 | TypeIndex.DateTime | TypeIndex.IPv4 => TypeIndex.UInt32
  | TypeIndex.UInt64 => TypeIndex.UInt64
  | _ => TypeIndex.Nothing
  end.

(** [None] is the null pointer. *)
Definition typeIdx (data_type : option TypeIndex.t) : TypeIndex.t :=
  match data_type with
  | None => TypeIndex.Nothing
  | Some idx =>
      match idx with
      | TypeIndex.Int8 | TypeIndex.UInt8 | TypeIndex.Enum8 | TypeIndex.Int16 | TypeIndex.UInt16
      | TypeIndex.Enum16 | TypeIndex.Date | TypeIndex.Date32 | TypeIndex.Int32 | TypeIndex.UInt32
      | TypeIndex.IPv4 | TypeIndex.DateTime | TypeIndex.DateTime64 | TypeIndex.Decimal32
      | TypeIndex.Int64 | TypeIndex.UInt64 | TypeIndex.Decimal64 => idx
      | _ => TypeIndex.Nothing
      end
  end.

(** ** Bit matrices

    A [UInt64] array that the code also accesses as bytes is the list of its bytes. *)

Definition transpose64x8 (src_dst : bytes) : bytes :=
  let dst := fold_left (λ dst i,
    let value := default 0 (src_dst !! i) in
    imap (λ k d, Z.lor d (Z.shiftl (Z.land (Z.shiftr value (Z.of_nat k)) 0x1) (Z.of_nat i))) dst)
    (seq 0 64) (replicate 8 0) in
  enc 8 dst.

(** The [k]-th [UInt64] of an array. *)
Definition word (src : bytes) (k : nat) : Z := le_combine (take 8 (drop (8 * k) src)).

Definition reverseTranspose64x8 (src_dst : bytes) : bytes :=
  (λ i : nat,
    let bit k := Z.shiftl (Z.land (Z.shiftr (word src_dst k) (Z.of_nat i)) 0x1) (Z.of_nat k) in
    Z.lor (Z.lor (Z.lor (Z.lor (Z.lor (Z.lor (Z.lor (bit 0%nat) (bit 1%nat)) (bit 2%nat)) (bit 3%nat)) (bit 4%nat))
      (bit 5%nat)) (bit 6%nat)) (bit 7%nat)) <$> seq 0 64.

(** The [j]-th byte of a value in memory. *)
Definition value8 (value : Z) (j : nat) : Z := Z.shiftr value (8 * Z.of_nat j) mod 256.

(** [matrix8[64 * j + col] = value8[j]]. *)
Definition set_byte (value : Z) (col : nat) (matrix8 : bytes) (j : nat) : bytes :=
  <[(64 * j + col)%nat := value8 value j]> matrix8.

Definition transposeBytes (w : Z) (value : Z) (matrix : bytes) (col : nat) : bytes :=
  let set := fold_left (set_byte value col) in
  let matrix := if 4 <? w then set [7; 6; 5; 4]%nat matrix else matrix in
  let matrix := if 2 <? w then set [3; 2]%nat matrix else matrix in
  let matrix := if 1 <? w then set [1]%nat matrix else matrix in
  set [0]%nat matrix.

(** [value |= matrix8[64 * j + col] << (8 * j)]. *)
Definition or_byte (w : Z) (matrix : bytes) (col : nat) (value : Z) (j : nat) : Z :=
  wrap w (Z.lor value (Z.shiftl (default 0 (matrix !! (64 * j + col)%nat)) (8 * Z.of_nat j))).

Definition reverseTransposeBytes (w : Z) (matrix : bytes) (col : nat) (value : Z) : Z :=
  let or_bytes := fold_left (or_byte w matrix col) in
  let value := if 4 <? w then or_bytes [7; 6; 5; 4]%nat value else value in
  let value := if 2 <? w then or_bytes [3; 2]%nat value else value in
  let value := if 1 <? w then or_bytes [1]%nat value else value in
  or_bytes [0]%nat value.

(** [memcpy] of [tail] values; only these are read afterwards. *)
Fixpoint load_buf (w : Z) (src : bytes) (pos : Z) (tail : nat) : outcome (list Z) :=
  match tail with
  | O => Ret []
  | S tail =>
      v ← load w src pos;
      vs ← load_buf w src (pos + w) tail;
      Ret (v :: vs)
  end.

Definition store_buf (w : Z) (buf : list Z) (dst : bytes) (pos : Z) (tail : nat) : outcome bytes :=
  write_bytes dst pos (enc (Z.to_nat w) (take tail buf)).

(** Applies [f] to the eight [UInt64] from [8 * byte] on. *)
Definition on_line (f : bytes → bytes) (matrix : bytes) (byte : nat) : bytes :=
  take (64 * byte) matrix ++ f (take 64 (drop (64 * byte) matrix)) ++ drop (64 * byte + 64) matrix.

Definition transpose (w : Z) (full : bool) (src : list Z) (dmem : bytes) (dst : Z) (num_bits : Z) (tail : nat)
  : outcome bytes :=
  let full_bytes := num_bits / 8 in
  let part_bits := num_bits mod 8 in
  let matrix := replicate 512 0 in
  let matrix := fold_left (λ matrix col, transposeBytes w (default 0 (src !! col)) matrix col) (seq 0 tail) matrix in
  let matrix :=
    if full then fold_left (on_line transpose64x8) (seq 0 (Z.to_nat full_bytes)) matrix else matrix in
  let full_size := 8 * (num_bits - part_bits) in
  chunk ← read_bytes matrix 0 full_size;
  dmem ← write_bytes dmem dst chunk;
  let dst := dst + full_size in
  if negb (part_bits =? 0) then
    let matrix := on_line transpose64x8 matrix (Z.to_nat full_bytes) in
    chunk ← read_bytes matrix (64 * full_bytes) (part_bits * 8);
    write_bytes dmem dst chunk
  else Ret dmem.

Definition reverseTranspose (w : Z) (full : bool) (mem : bytes) (src : Z) (num_bits : Z) (tail : nat)
  : outcome (list Z) :=
  let matrix := replicate 512 0 in
  chunk ← read_bytes mem src (num_bits * 8);
  matrix ← write_bytes matrix 0 chunk;
  let full_bytes := num_bits / 8 in
  let part_bits := num_bits mod 8 in
  let matrix :=
    if full then fold_left (on_line reverseTranspose64x8) (seq 0 (Z.to_nat full_bytes)) matrix else matrix in
  let matrix :=
    if negb (part_bits =? 0) then on_line reverseTranspose64x8 matrix (Z.to_nat full_bytes) else matrix in
  let buf := replicate 64 0 in
  Ret (fold_left (λ buf col, alter (reverseTransposeBytes w matrix col) col buf) (seq 0 tail) buf).

Definition restoreUpperBits (signed : bool) (buf : list Z) (upper_min upper_max sign_bit : Z) (tail : nat) : list Z :=
  if signed && negb (sign_bit =? 0) then
    fold_left (λ buf col, alter (λ value,
      if negb (Z.land value sign_bit =? 0) then Z.lor value upper_min else Z.lor value upper_max) col buf)
      (seq 0 tail) buf
  else fold_left (λ buf col, alter (λ value, Z.lor value upper_min) col buf) (seq 0 tail) buf.

(** ** Minimum and maximum *)

Definition getValuableBitsNumber_UInt64 (min max : Z) : Z :=
  let diff_bits := Z.lxor min max in
  if negb (diff_bits =? 0) then 64 - (63 - Z.log2 diff_bits) else 0.

Definition getValuableBitsNumber_Int64 (min max : Z) : Z :=
  if (min <? 0) && (0 <=? max) then
    if 0 <=? min + max then getValuableBitsNumber_UInt64 0 (u64 max) + 1
    else getValuableBitsNumber_UInt64 0 (u64 (Z.lnot min)) + 1
  else getValuableBitsNumber_UInt64 (u64 min) (u64 max).

Definition getValuableBitsNumber (signed : bool) (min max : Z) : Z :=
  if signed then getValuableBitsNumber_Int64 min max else getValuableBitsNumber_UInt64 min max.

(** The value of a [T] with the given bytes. *)
Definition as_T (signed : bool) (w : Z) (raw : Z) : Z := if signed then to_signed w raw else raw.

Fixpoint findMinMax_loop (signed : bool) (w : Z) (mem : bytes) (fuel : nat) (src end' : Z) (min max : Z)
  : outcome (Z * Z) :=
  if src <? end' then
    match fuel with
    | O => OutOfFuel
    | S fuel =>
        raw ← load w mem src;
        let current := as_T signed w raw in
        let min := if current <? min then current else min in
        let max := if max <? current then current else max in
        findMinMax_loop signed w mem fuel (src + w) end' min max
    end
  else Ret (min, max).

Definition findMinMax (signed : bool) (w : Z) (mem : bytes) (src_size : Z) : outcome (Z * Z) :=
  raw ← load w mem 0;
  findMinMax_loop signed w mem (Z.to_nat src_size) 0 src_size (as_T signed w raw) (as_T signed w raw).

(** ** Compression *)

Fixpoint compress_loop (w : Z) (full : bool) (num_bits : Z) (num_full : nat) (mem : bytes) (src : Z)
  (dmem : bytes) (dst : Z) : outcome (Z * bytes * Z) :=
  match num_full with
  | O => Ret (src, dmem, dst)
  | S num_full =>
      buf ← load_buf w mem src 64;
      dmem ← transpose w full buf dmem dst num_bits 64;
      compress_loop w full num_bits num_full mem (src + w * 64) dmem (dst + 8 * num_bits)
  end.

Definition compressData (signed : bool) (w : Z) (full : bool) (mem : bytes) (bytes_size : Z) (dmem : bytes)
  : outcome (bytes * Z) :=
  let matrix_size := 64 in
  let header_size := 2 * 8 in
  _ ← throw_if (negb (bytes_size mod w =? 0)) CANNOT_COMPRESS;
  let src_size := bytes_size / w in
  let num_full := src_size / matrix_size in
  let tail := src_size mod matrix_size in
  '(min, max) ← findMinMax signed w mem bytes_size;
  dmem ← store 8 dmem 0 (u64 min);
  dmem ← store 8 dmem 8 (u64 max);
  let num_bits := getValuableBitsNumber signed min max in
  if num_bits =? 0 then Ret (dmem, header_size) else
  let dst_shift := 8 * num_bits in
  '(src, dmem, dst) ← compress_loop w full num_bits (Z.to_nat num_full) mem 0 dmem header_size;
  let dst_bytes := u32 (num_full * dst_shift) in
  '(dmem, dst_bytes) ←
    (if negb (tail =? 0) then
       buf ← load_buf w mem src (Z.to_nat tail);
       dmem ← transpose w full buf dmem dst num_bits (Z.to_nat tail);
       Ret (dmem, u32 (dst_bytes + dst_shift))
     else Ret (dmem, dst_bytes));
  Ret (dmem, u32 (header_size + dst_bytes)).

Definition compressData_variant (signed : bool) (w : Z) (src : bytes) (src_size : Z) (dst : bytes) (variant : Variant)
  : outcome (bytes * Z) :=
  match variant with
  | Bit => compressData signed w true src src_size dst
  | Byte => compressData signed w false src src_size dst
  end.

Definition doCompressData (type_idx : option TypeIndex.t) (variant : Variant) (src : bytes) (src_size : Z) (dst : bytes)
  : outcome (bytes * Z) :=
  magic ← serializeTypeId type_idx;
  let cookie := u8 (Z.lor (magic_byte magic) (Z.shiftl (variant_bit variant) 7)) in
  dst ← write_bytes dst 0 [cookie];
  let compress signed w :=
    '(dst, size) ← on_tail dst 1 (λ dst, compressData_variant signed w src src_size dst variant);
    Ret (dst, u32 (1 + size)) in
  match type_idx with
  | None => UB
  | Some type_idx =>
      match baseType type_idx with
      | TypeIndex.Int8 => compress true 1
      | TypeIndex.Int16 => compress true 2
      | TypeIndex.Int32 => compress true 4
      | TypeIndex.Int64 => compress true 8
      | TypeIndex.UInt8 => compress false 1
      | TypeIndex.UInt16 => compress false 2
      | TypeIndex.UInt32 => compress false 4
      | TypeIndex.UInt64 => compress false 8
      | _ => Throw CANNOT_COMPRESS
      end
  end.

(** ** Decompression *)

Fixpoint fill_loop (w : Z) (dmem : bytes) (dst : Z) (min_value : Z) (num_elements : nat) : outcome bytes :=
  match num_elements with
  | O => Ret dmem
  | S num_elements =>
      dmem ← store w dmem dst min_value;
      fill_loop w dmem (dst + w) min_value num_elements
  end.

Definition restore_block (signed : bool) (w : Z) (full : bool) (num_bits upper_min upper_max sign_bit : Z)
  (mem : bytes) (src : Z) (dmem : bytes) (dst : Z) (tail : nat) : outcome bytes :=
  buf ← reverseTranspose w full mem src num_bits tail;
  let buf := restoreUpperBits signed buf upper_min upper_max sign_bit tail in
  store_buf w buf dmem dst tail.

Fixpoint decompress_loop (signed : bool) (w : Z) (full : bool) (num_bits upper_min upper_max sign_bit : Z)
  (num_full : nat) (mem : bytes) (src : Z) (dmem : bytes) (dst : Z) : outcome (Z * bytes * Z) :=
  match num_full with
  | O => Ret (src, dmem, dst)
  | S num_full =>
      dmem ← restore_block signed w full num_bits upper_min upper_max sign_bit mem src dmem dst 64;
      decompress_loop signed w full num_bits upper_min upper_max sign_bit num_full mem
        (src + 8 * num_bits) dmem (dst + w * 64)
  end.

Definition decompressData (signed : bool) (w : Z) (full : bool) (mem : bytes) (bytes_size : Z) (dmem : bytes)
  (uncompressed_size : Z) : outcome bytes :=
  let matrix_size := 64 in
  let header_size := 2 * 8 in
  _ ← throw_if (bytes_size <? header_size) CANNOT_DECOMPRESS;
  _ ← throw_if (negb (uncompressed_size mod w =? 0)) CANNOT_DECOMPRESS;
  let num_elements := uncompressed_size / w in
  min ← load 8 mem 0;
  max ← load 8 mem 8;
  let min := as_T signed 8 min in
  let max := as_T signed 8 max in
  let bytes_size := bytes_size - header_size in
  let num_bits := getValuableBitsNumber signed min max in
  if num_bits =? 0 then
    let min_value := wrap w min in
    fill_loop w dmem 0 min_value (Z.to_nat num_elements)
  else
  let src_shift := 8 * num_bits in
  _ ← throw_if ((bytes_size =? 0) || negb (bytes_size mod src_shift =? 0)) CANNOT_DECOMPRESS;
  let num_full := bytes_size / src_shift in
  let tail := num_elements mod matrix_size in
  let num_full := if negb (tail =? 0) then u32 (num_full - 1) else num_full in
  let expected := u64 (num_full * matrix_size + tail) in
  _ ← throw_if (negb (expected =? num_elements)) CANNOT_DECOMPRESS;
  let upper_min := if num_bits <? 64 then wrap w (u64 (Z.shiftl (Z.shiftr (u64 min) num_bits) num_bits)) else 0 in
  let crosses := signed && (min <? 0) && (0 <=? max) && (num_bits <? 64) in
  let sign_bit := if crosses then wrap w (u64 (Z.shiftl 1 (num_bits - 1))) else 0 in
  let upper_max :=
    if crosses then wrap w (u64 (Z.shiftl (Z.shiftr (u64 max) num_bits) num_bits)) else 0 in
  '(src, dmem, dst) ← decompress_loop signed w full num_bits upper_min upper_max sign_bit
    (Z.to_nat num_full) mem header_size dmem 0;
  if negb (tail =? 0) then
    restore_block signed w full num_bits upper_min upper_max sign_bit mem src dmem dst (Z.to_nat tail)
  else Ret dmem.

Definition decompressData_variant (signed : bool) (w : Z) (src : bytes) (src_size : Z) (dst : bytes)
  (uncompressed_size : Z) (variant : Variant) : outcome bytes :=
  match variant with
  | Bit => decompressData signed w true src src_size dst uncompressed_size
  | Byte => decompressData signed w false src src_size dst uncompressed_size
  end.

Definition doDecompressData (src : bytes) (src_size : Z) (dst : bytes) (uncompressed_size : Z) : outcome bytes :=
  _ ← throw_if (src_size =? 0) CANNOT_DECOMPRESS;
  cookie ← load 1 src 0;
  src ← tail_at src 1;
  let src_size := src_size - 1 in
  let saved_variant := if Z.shiftr cookie 7 =? 1 then Bit else Byte in
  saved_type_id ← deserializeTypeId (Z.land cookie 0x7F);
  let decompress signed w := decompressData_variant signed w src src_size dst uncompressed_size saved_variant in
  match baseType saved_type_id with
  | TypeIndex.Int8 => decompress true 1
  | TypeIndex.Int16 => decompress true 2
  | TypeIndex.Int32 => decompress true 4
  | TypeIndex.Int64 => decompress true 8
  | TypeIndex.UInt8 => decompress false 1
  | TypeIndex.UInt16 => decompress false 2
  | TypeIndex.UInt32 => decompress false 4
  | TypeIndex.UInt64 => decompress false 8
  | _ => Throw CANNOT_DECOMPRESS
  end.

(** * Transposition of a line of the matrix *)

Lemma bit_at v k n i :
  0 ≤ k → 0 ≤ n → 0 ≤ i →
  Z.testbit (Z.shiftl (Z.land (Z.shiftr v k) 1) n) i = (i =? n) && Z.testbit v k.
Proof.
  intros Hk Hn Hi. change 1 with (Z.ones 1). rewrite Z.land_ones by lia.
  destruct (Z.eqb_spec i n) as [->|].
  - rewrite Z.shiftl_spec, Z.sub_diag, Z.mod_pow2_bits_low, Z.shiftr_spec by lia. f_equal; lia.
  - destruct (decide (i < n)); [by rewrite Z.shiftl_spec_low by lia|].
    rewrite Z.shiftl_spec, Z.mod_pow2_bits_high by lia. done.
Qed.

Lemma fold_left_seq_S {A} (f : A → nat → A) n a : fold_left f (seq 0 (S n)) a = f (fold_left f (seq 0 n) a) n.
Proof. by rewrite seq_S, fold_left_app. Qed.

Section line.
Context (src : bytes) (Hlen : length src = 64%nat).

(** Row [k] of the transposed line has bit [k] of each byte. *)
Definition row (n : nat) (k : nat) (d : Z) : Prop :=
  0 ≤ d < 2 ^ 64 ∧ ∀ i, 0 ≤ i → Z.testbit d i = (i <? Z.of_nat n) && Z.testbit (default 0 (src !! Z.to_nat i)) (Z.of_nat k).

Lemma transpose_rows n : (n ≤ 64)%nat →
  let dst := fold_left (λ dst i,
    let value := default 0 (src !! i) in
    imap (λ k d, Z.lor d (Z.shiftl (Z.land (Z.shiftr value (Z.of_nat k)) 0x1) (Z.of_nat i))) dst)
    (seq 0 n) (replicate 8 0) in
  length dst = 8%nat ∧ ∀ k d, dst !! k = Some d → row n k d.
Proof.
  induction n as [|n IH]; intros Hn.
  - cbn [seq fold_left]. split; [done|]. intros k d [-> _]%lookup_replicate. split; [done|].
    intros i Hi. rewrite Z.bits_0, (proj2 (Z.ltb_ge _ _)) by lia. done.
  - rewrite fold_left_seq_S. destruct IH as [IHl IH]; [lia|]. cbv zeta.
    set (dst := fold_left _ _ _) in *. split; [by rewrite length_imap|].
    intros k d. rewrite list_lookup_imap. destruct (dst !! k) as [d0|] eqn:E; [|done]. simpl. intros [= <-].
    destruct (IH k d0 E) as [H0 Hbits]. set (v := default 0 (src !! n)). split.
    + apply lor_range; [lia|done|]. rewrite Z.shiftl_mul_pow2 by lia. change 1 with (Z.ones 1).
      rewrite Z.land_ones by lia. pose proof (Z.mod_pos_bound (Z.shiftr v (Z.of_nat k)) (2 ^ 1) ltac:(lia)).
      assert (2 ^ Z.of_nat n ≤ 2 ^ 63) by (apply Z.pow_le_mono_r; lia).
      pose proof (Z.pow_pos_nonneg 2 (Z.of_nat n)). set (x := _ mod 2 ^ 1) in *.
      assert (x = 0 ∨ x = 1) as [-> | ->] by zlia; zlia.
    + intros i Hi. rewrite Z.lor_spec, Hbits, bit_at by lia. unfold v.
      destruct (Z.eqb_spec i (Z.of_nat n)) as [->|].
      * rewrite Z.ltb_irrefl, Nat2Z.id, (proj2 (Z.ltb_lt _ _)) by lia. done.
      * rewrite orb_false_r. f_equal. zcases; lia.
Qed.

Lemma transpose64x8_rows :
  ∃ dst, transpose64x8 src = enc 8 dst ∧ length dst = 8%nat ∧ ∀ k d, dst !! k = Some d → row 64 k d.
Proof. unfold transpose64x8. eexists. split; [done|]. by apply transpose_rows. Qed.
End line.

Lemma word_enc dst post k d : all_width 8 dst → dst !! k = Some d → word (enc 8 dst ++ post) k = d.
Proof.
  intros Hd Hk. apply list_elem_of_split_length in Hk as (d1 & d2 & -> & ->).
  unfold word. rewrite enc_app, enc_cons, <- !app_assoc, drop_app_length' by (rewrite length_enc; lia).
  rewrite take_app_length' by (by rewrite length_le_split).
  apply Forall_app in Hd as [_ Hd]. inversion_clear Hd. by apply le_combine_split.
Qed.

Lemma enc_zeros n : enc 8 (replicate n 0) = replicate (8 * n) 0.
Proof.
  induction n as [|n IH]; [done|]. change (replicate (S n) 0) with (0 :: replicate n 0).
  rewrite enc_cons, IH. replace (8 * S n)%nat with (8 + 8 * n)%nat by lia. by rewrite replicate_add.
Qed.

(** The bits of the bytes of the reverse. *)
Lemma reverse_bits src i : (i < 64)%nat →
  ∃ b, reverseTranspose64x8 src !! i = Some b ∧
    ∀ k, 0 ≤ k → Z.testbit b k = (k <? 8) && Z.testbit (word src (Z.to_nat k)) (Z.of_nat i).
Proof.
  intros Hi. unfold reverseTranspose64x8. rewrite list_lookup_fmap, lookup_seq_lt by done. simpl.
  eexists. split; [done|]. intros k Hk. rewrite !Z.lor_spec, !bit_at by lia.
  destruct (decide (k < 8)) as [Hk8|].
  - rewrite (proj2 (Z.ltb_lt _ _)) by done.
    assert (k = 0 ∨ k = 1 ∨ k = 2 ∨ k = 3 ∨ k = 4 ∨ k = 5 ∨ k = 6 ∨ k = 7) as Hc by lia.
    by destruct_or! Hc; subst k; simpl; rewrite ?orb_false_r.
  - rewrite (proj2 (Z.ltb_ge _ _)) by lia.
    repeat match goal with |- context [k =? ?c] => rewrite (proj2 (Z.eqb_neq k c)) by (simpl; lia) end. done.
Qed.

(** Reversing the first [p] rows gives the low [p] bits of the bytes. *)
Lemma reverse_transpose_line src p :
  length src = 64%nat → is_bytes src → (p ≤ 8)%nat →
  reverseTranspose64x8 (take (8 * p) (transpose64x8 src) ++ replicate (64 - 8 * p) 0) =
    (λ b, b mod 2 ^ Z.of_nat p) <$> src.
Proof.
  intros Hlen Hb Hp. destruct (transpose64x8_rows src Hlen) as (dst & -> & Hdst & Hrows).
  assert (all_width 8 dst) as Hw.
  { apply Forall_lookup. intros k d Hd. by destruct (Hrows k d Hd). }
  rewrite <- (take_drop p dst), enc_app, take_app_length' by (rewrite length_enc, length_take; lia).
  replace (64 - 8 * p)%nat with (8 * (8 - p))%nat by lia. rewrite <- enc_zeros, <- enc_app.
  set (rows := take p dst ++ replicate (8 - p) 0).
  assert (all_width 8 rows) as Hw2.
  { apply Forall_app. split; [by apply Forall_take|]. apply Forall_replicate. unfold in_width. simpl. zlia. }
  apply list_eq. intros i. rewrite list_lookup_fmap. destruct (decide (i < 64)%nat) as [Hi|Hi].
  - destruct (reverse_bits (enc 8 rows) i Hi) as (b & -> & Hbits).
    destruct (lookup_lt_is_Some_2 src i) as [x Hx]; [lia|]. rewrite Hx. simpl. f_equal.
    apply Z.bits_inj'. intros k Hk. rewrite Hbits by done. rewrite <- (app_nil_r (enc 8 rows)).
    destruct (decide (k < Z.of_nat p)) as [Hkp|Hkp].
    + destruct (lookup_lt_is_Some_2 dst (Z.to_nat k)) as [d Hd]; [lia|].
      rewrite (word_enc _ _ _ d) by (done || (unfold rows; rewrite lookup_app_l, lookup_take_lt; (done || lia || (rewrite length_take; lia)))).
      destruct (Hrows _ _ Hd) as [_ ->]; [|lia].
      rewrite (proj2 (Z.ltb_lt k 8)), (proj2 (Z.ltb_lt _ _)), Z2Nat.id, Nat2Z.id, Hx, Z.mod_pow2_bits_low by lia. done.
    + rewrite Z.mod_pow2_bits_high by lia. destruct (Z.ltb_spec k 8); [|done].
      rewrite (word_enc _ _ _ 0), Z.bits_0; [done..|].
      unfold rows. rewrite lookup_app_r by (rewrite length_take; lia).
      apply lookup_replicate_2. rewrite length_take. lia.
  - rewrite !lookup_ge_None_2; [done|lia|]. unfold reverseTranspose64x8. rewrite length_fmap, length_seq. lia.
Qed.

(** * The matrix *)

(** Line [j] of the matrix of the values: their [j]-th bytes. *)
Definition line (vs : list Z) (j : nat) : bytes :=
  (λ c, match vs !! c with Some v => value8 v j | None => 0 end) <$> seq 0 64.

Definition matrix_of (vs : list Z) : bytes := concat (line vs <$> seq 0 8).

Lemma length_line vs j : length (line vs j) = 64%nat.
Proof. unfold line. by rewrite length_fmap, length_seq. Qed.

Lemma value8_byte v j : is_byte (value8 v j).
Proof. apply Z.mod_pos_bound. lia. Qed.

Lemma line_bytes vs j : is_bytes (line vs j).
Proof.
  unfold line. apply Forall_fmap, Forall_forall. intros c _. simpl. unfold is_byte.
  case_match; [apply value8_byte|lia].
Qed.

Lemma lookup_concat_lines (ls : list bytes) j c l :
  Forall (λ l, length l = 64%nat) ls → ls !! j = Some l → (c < 64)%nat →
  concat ls !! (64 * j + c)%nat = l !! c.
Proof.
  intros Hls. revert j. induction Hls as [|l0 ls Hl0 Hls IH]; intros j Hj Hc; [done|].
  destruct j as [|j]; simpl in *.
  - injection Hj as ->. rewrite lookup_app_l by lia. done.
  - rewrite lookup_app_r by lia. rewrite <- (IH j Hj Hc). f_equal. lia.
Qed.

Lemma lines_64 (f : nat → bytes) l : (∀ j, length (f j) = 64%nat) → Forall (λ l, length l = 64%nat) (f <$> l).
Proof. intros Hf. apply Forall_fmap, Forall_forall. intros j _. apply Hf. Qed.

Lemma length_lines (ls : list bytes) :
  Forall (λ l, length l = 64%nat) ls → length (concat ls) = (64 * length ls)%nat.
Proof. induction 1 as [|l ls Hl _ IH]; simpl; [done|]. rewrite length_app. lia. Qed.

Lemma matrix_lookup vs j c : (j < 8)%nat → (c < 64)%nat →
  matrix_of vs !! (64 * j + c)%nat = Some (match vs !! c with Some v => value8 v j | None => 0 end).
Proof.
  intros Hj Hc. unfold matrix_of.
  rewrite (lookup_concat_lines _ j c (line vs j)); [|apply lines_64, length_line| |done].
  - unfold line. by rewrite list_lookup_fmap, lookup_seq_lt.
  - by rewrite list_lookup_fmap, lookup_seq_lt.
Qed.

Lemma length_matrix vs : length (matrix_of vs) = 512%nat.
Proof. unfold matrix_of. rewrite length_lines by apply lines_64, length_line. done. Qed.

(** Two matrices are equal when their bytes are. *)
Lemma matrix_eq (m1 m2 : bytes) :
  length m1 = 512%nat → length m2 = 512%nat →
  (∀ j c, (j < 8)%nat → (c < 64)%nat → m1 !! (64 * j + c)%nat = m2 !! (64 * j + c)%nat) → m1 = m2.
Proof.
  intros H1 H2 H. apply list_eq. intros i. destruct (decide (i < 512)%nat).
  - pose proof (Nat.div_mod i 64 ltac:(lia)) as E. rewrite E. apply H.
    + apply Nat.Div0.div_lt_upper_bound. lia.
    + apply Nat.mod_upper_bound. lia.
  - rewrite !lookup_ge_None_2 by lia. done.
Qed.

(** The bytes of a value, in the order in which they are stored. *)
Definition bytes_of (w : Z) : list nat :=
  (if 4 <? w then [7; 6; 5; 4]%nat else []) ++ (if 2 <? w then [3; 2]%nat else []) ++
  (if 1 <? w then [1]%nat else []) ++ [0]%nat.

Lemma bytes_of_spec w j : valid_size w = true → j ∈ bytes_of w ↔ Z.of_nat j < w.
Proof.
  intros Hv. destruct (Delta.valid_size_cases w Hv) as (n & -> & _). revert Hv. unfold valid_size, bytes_of.
  rewrite !orb_true_iff, !Z.eqb_eq. rewrite list_elem_of_In.
  intros [[[E|E]|E]|E]; rewrite E; simpl; lia.
Qed.

Lemma transposeBytes_fold w v m col : transposeBytes w v m col = fold_left (set_byte v col) (bytes_of w) m.
Proof. unfold transposeBytes, bytes_of. rewrite !fold_left_app. by destruct (4 <? w), (2 <? w), (1 <? w). Qed.

Lemma reverseTransposeBytes_fold w m col v :
  reverseTransposeBytes w m col v = fold_left (or_byte w m col) (bytes_of w) v.
Proof. unfold reverseTransposeBytes, bytes_of. rewrite !fold_left_app. by destruct (4 <? w), (2 <? w), (1 <? w). Qed.

Lemma set_bytes_lookup v col js m j c :
  length m = 512%nat → (col < 64)%nat → (j < 8)%nat → (c < 64)%nat →
  fold_left (set_byte v col) js m !! (64 * j + c)%nat =
    if decide (c = col ∧ j ∈ js) then Some (value8 v j) else m !! (64 * j + c)%nat.
Proof.
  intros Hm Hcol Hj Hc. revert m Hm. induction js as [|j' js IH]; intros m Hm; simpl.
  - rewrite decide_False; [done|]. set_solver.
  - rewrite IH by (unfold set_byte; by rewrite length_insert). unfold set_byte.
    destruct (decide (c = col ∧ j = j')) as [[-> ->]|Hne].
    + rewrite list_lookup_insert_eq by lia. rewrite (decide_True (P := _ ∧ j' ∈ j' :: js)) by set_solver. by case_decide.
    + rewrite list_lookup_insert_ne by lia. apply decide_ext. set_solver.
Qed.

Lemma value8_high w v j : in_width w v → (w ≤ j)%nat → value8 v j = 0.
Proof.
  intros [Hv1 Hv2] Hj. unfold value8. rewrite Z.shiftr_div_pow2 by lia. rewrite Z.div_small; [done|].
  assert (2 ^ (8 * Z.of_nat w) ≤ 2 ^ (8 * Z.of_nat j)) by (apply Z.pow_le_mono_r; lia). lia.
Qed.

Lemma length_set_bytes v col js m : length (fold_left (set_byte v col) js m) = length m.
Proof. revert m. induction js as [|j js IH]; intros m; simpl; [done|]. rewrite IH. apply length_insert. Qed.

(** The loop of [transpose] fills the matrix. *)
Lemma matrix_filled w vs : valid_size (Z.of_nat w) = true → all_width w vs → (length vs ≤ 64)%nat →
  fold_left (λ matrix col, transposeBytes (Z.of_nat w) (default 0 (vs !! col)) matrix col)
    (seq 0 (length vs)) (replicate 512 0) = matrix_of vs.
Proof.
  intros Hv Hvs Hl.
  assert (∀ n, (n ≤ length vs)%nat →
    let m := fold_left (λ matrix col, transposeBytes (Z.of_nat w) (default 0 (vs !! col)) matrix col)
      (seq 0 n) (replicate 512 0) in
    length m = 512%nat ∧ ∀ j c, (j < 8)%nat → (c < 64)%nat → m !! (64 * j + c)%nat =
      Some (match take n vs !! c with Some v => value8 v j | None => 0 end)) as H.
  { induction n as [|n IH]; intros Hn.
    - cbn [seq fold_left take]. rewrite length_replicate. split; [done|]. intros j c Hj Hc.
      rewrite lookup_replicate_2 by lia. done.
    - rewrite fold_left_seq_S. destruct IH as [IHl IH]; [lia|]. cbv zeta. set (m := fold_left _ _ _) in *.
      destruct (lookup_lt_is_Some_2 vs n) as [v Hvn]; [lia|]. rewrite Hvn. simpl default.
      rewrite transposeBytes_fold, length_set_bytes. split; [done|]. intros j c Hj Hc.
      rewrite set_bytes_lookup, IH, (take_S_r _ _ v Hvn) by (done || lia). case_decide as Hd.
      + destruct Hd as [-> _]. rewrite lookup_app_r, length_take, Nat.min_l, Nat.sub_diag by (rewrite ?length_take; lia). done.
      + f_equal. destruct (decide (c = n)) as [->|].
        * rewrite lookup_take_ge by lia.
          rewrite lookup_app_r, length_take, Nat.min_l, Nat.sub_diag by (rewrite ?length_take; lia). simpl.
          symmetry. apply (value8_high w); [by eapply Forall_lookup_1|].
          rewrite bytes_of_spec in Hd by done. lia.
        * destruct (decide (c < n)%nat).
          -- by rewrite lookup_app_l by (rewrite length_take; lia).
          -- rewrite !lookup_ge_None_2; [done|rewrite length_app, length_take; simpl; lia|rewrite length_take; lia]. }
  destruct (H (length vs)) as [Hlen Hlook]; [done|]. cbv zeta in *.
  apply matrix_eq; [done|apply length_matrix|]. intros j c Hj Hc.
  rewrite Hlook, matrix_lookup, take_ge by (done || lia). done.
Qed.

(** * Blocks of values *)

Lemma on_line_app f (ls1 ls2 : list bytes) l :
  Forall (λ l, length l = 64%nat) ls1 → length l = 64%nat →
  on_line f (concat ls1 ++ l ++ concat ls2) (length ls1) = concat ls1 ++ f l ++ concat ls2.
Proof.
  intros H1 Hl. pose proof (length_lines _ H1) as Hlen. unfold on_line.
  rewrite take_app_length' by lia. rewrite (drop_app_length' (concat ls1)) by lia.
  rewrite (take_app_length' l) by lia. rewrite (app_assoc (concat ls1) l), drop_app_length' by (rewrite length_app; lia). done.
Qed.

Lemma on_lines f (ls1 ls2 : list bytes) :
  Forall (λ l, length l = 64%nat) ls1 → (∀ l, length (f l) = 64%nat) →
  fold_left (on_line f) (seq 0 (length ls1)) (concat ls1 ++ concat ls2) = concat (f <$> ls1) ++ concat ls2.
Proof.
  intros H1 Hf. revert ls2. induction ls1 as [|l ls1 IH] using rev_ind; intros ls2; [done|].
  apply Forall_app in H1 as [H1 H2]. inversion_clear H2. rewrite length_app, Nat.add_1_r, fold_left_seq_S.
  rewrite concat_app, fmap_app, concat_app. simpl. rewrite !app_nil_r, <- !app_assoc.
  pose proof (IH H1 (l :: ls2)) as E. simpl in E. rewrite E.
  rewrite <- (length_fmap f ls1). apply on_line_app; [|done].
  apply Forall_fmap, Forall_forall. intros l' _. apply Hf.
Qed.

Lemma length_transpose64x8 l : length (transpose64x8 l) = 64%nat.
Proof.
  unfold transpose64x8. rewrite length_enc.
  assert (∀ s (d : list Z), length (fold_left (λ dst i,
    let value := default 0 (l !! i) in
    imap (λ k d, Z.lor d (Z.shiftl (Z.land (Z.shiftr value (Z.of_nat k)) 0x1) (Z.of_nat i))) dst) s d) = length d) as H.
  { induction s as [|i s IH]; intros d; simpl; [done|]. by rewrite IH, length_imap. }
  by rewrite H.
Qed.

Lemma length_reverseTranspose64x8 l : length (reverseTranspose64x8 l) = 64%nat.
Proof. unfold reverseTranspose64x8. by rewrite length_fmap, length_seq. Qed.

(** What [transpose] writes for a block: the lines of the whole bytes, transposed in the
    variant [full], and the rows of the bits of the last byte. *)
Definition stored_line (full : bool) (l : bytes) : bytes := if full then transpose64x8 l else l.

Definition stored (full : bool) (vs : list Z) (num_bits : nat) : bytes :=
  concat ((λ j, stored_line full (line vs j)) <$> seq 0 (num_bits / 8)) ++
  take (8 * (num_bits mod 8)) (transpose64x8 (line vs (num_bits / 8))).

Lemma length_stored_line full vs j : length (stored_line full (line vs j)) = 64%nat.
Proof. destruct full; [apply length_transpose64x8|apply length_line]. Qed.

Lemma stored_64 full vs l : Forall (λ l, length l = 64%nat) ((λ j, stored_line full (line vs j)) <$> l).
Proof. apply lines_64. intros j. apply length_stored_line. Qed.

Lemma length_stored full vs nb : length (stored full vs nb) = (8 * nb)%nat.
Proof.
  unfold stored. rewrite length_app, length_lines by apply stored_64.
  rewrite length_fmap, length_seq, length_take, length_transpose64x8.
  pose proof (Nat.div_mod nb 8 ltac:(lia)). pose proof (Nat.mod_upper_bound nb 8 ltac:(lia)). lia.
Qed.

(** The matrix, split after its whole bytes. *)
Lemma matrix_split vs n : (n < 8)%nat →
  matrix_of vs = concat (line vs <$> seq 0 n) ++ line vs n ++ concat (line vs <$> seq (S n) (7 - n)).
Proof.
  intros Hn. unfold matrix_of. replace 8%nat with (n + (1 + (7 - n)))%nat by lia.
  rewrite !seq_app, !fmap_app, !concat_app. cbn [seq fmap list_fmap concat Nat.add]. by rewrite app_nil_r, Nat.add_1_r.
Qed.

Lemma matrix_all vs : matrix_of vs = concat (line vs <$> seq 0 8) ++ concat [].
Proof. by rewrite app_nil_r. Qed.

Lemma stored_lines (full : bool) vs n (ls : list bytes) :
  (if full then fold_left (on_line transpose64x8) (seq 0 n) (concat (line vs <$> seq 0 n) ++ concat ls)
   else concat (line vs <$> seq 0 n) ++ concat ls) =
  concat ((λ j, stored_line full (line vs j)) <$> seq 0 n) ++ concat ls.
Proof.
  destruct full; [|done]. pose proof (on_lines transpose64x8 (line vs <$> seq 0 n) ls) as H.
  rewrite length_fmap, length_seq in H. rewrite H; [|apply lines_64, length_line|apply length_transpose64x8].
  by rewrite <- list_fmap_compose.
Qed.

Lemma transpose_spec w full vs pre dest nb dst :
  valid_size (Z.of_nat w) = true → all_width w vs → (length vs ≤ 64)%nat → (nb ≤ 64)%nat →
  dst = blen pre → blen pre + 8 * Z.of_nat nb ≤ blen dest →
  transpose (Z.of_nat w) full vs (over pre dest) dst (Z.of_nat nb) (length vs) =
    Ret (over (pre ++ stored full vs nb) dest).
Proof.
  intros Hv Hvs Hl Hnb -> Hd. unfold transpose. rewrite matrix_filled by done.
  replace (Z.of_nat nb mod 8) with (Z.of_nat (nb mod 8)) by (by rewrite Nat2Z.inj_mod).
  replace (Z.of_nat nb / 8) with (Z.of_nat (nb / 8)) by (by rewrite Nat2Z.inj_div). rewrite Nat2Z.id.
  pose proof (Nat.div_mod nb 8 ltac:(lia)) as Hdm. pose proof (Nat.mod_upper_bound nb 8 ltac:(lia)) as Hmb.
  set (n := (nb / 8)%nat) in *. set (p := (nb mod 8)%nat) in *.
  set (lns := concat ((λ j, stored_line full (line vs j)) <$> seq 0 n)).
  assert (length lns = (64 * n)%nat) as Hlns.
  { unfold lns. rewrite length_lines by apply stored_64. by rewrite length_fmap, length_seq. }
  assert (∃ ls, matrix_of vs = concat (line vs <$> seq 0 n) ++ concat ls ∧
    (p ≠ 0%nat → concat ls = line vs n ++ concat (line vs <$> seq (S n) (7 - n)))) as (ls & -> & Hls).
  { destruct (decide (n < 8)%nat) as [Hn|Hn].
    - exists (line vs n :: (line vs <$> seq (S n) (7 - n))). by rewrite (matrix_split vs n Hn).
    - exists []. assert (n = 8%nat) as -> by lia. split; [apply matrix_all|lia]. }
  rewrite stored_lines. fold lns.
  replace (8 * (Z.of_nat nb - Z.of_nat p)) with (blen lns) by (unfold blen; lia).
  replace (read_bytes _ 0 _) with (Ret lns) by (symmetry; by apply (read_bytes_app [] lns (concat ls))).
  cbn [mbind outcome_bind]. assert (blen lns = 64 * Z.of_nat n) as Hbl by (unfold blen; lia).
  rewrite write_over by (done || lia). cbn [mbind outcome_bind].
  unfold stored. fold n. fold p. fold lns.
  destruct (Z.eqb_spec (Z.of_nat p) 0) as [E|E]; simpl negb.
  - assert (p = 0%nat) as -> by lia. by rewrite Nat.mul_0_r, take_0, app_nil_r.
  - rewrite Hls by lia.
    pose proof (on_line_app transpose64x8 ((λ j, stored_line full (line vs j)) <$> seq 0 n)
      (line vs <$> seq (S n) (7 - n)) (line vs n) (stored_64 _ _ _) (length_line _ _)) as E2.
    rewrite length_fmap, length_seq in E2. fold lns in E2. rewrite E2.
    rewrite <- (take_drop (8 * p) (transpose64x8 (line vs n))), <- !(app_assoc (take _ _)).
    assert (blen (take (8 * p) (transpose64x8 (line vs n))) = Z.of_nat p * 8) as Hbt
      by (unfold blen; rewrite length_take, length_transpose64x8; lia).
    rewrite read_bytes_app by lia. cbn [mbind outcome_bind].
    rewrite write_over by (rewrite ?blen_app; lia). rewrite <- app_assoc, take_drop. done.
Qed.

(** The values, without the cropped bits. *)
Definition masked (nb : nat) (vs : list Z) : list Z := (λ v, v mod 2 ^ Z.of_nat nb) <$> vs.

Lemma value8_mod v nb j :
  value8 (v mod 2 ^ Z.of_nat nb) j = value8 v j mod 2 ^ Z.of_nat (Nat.min 8 (nb - 8 * j)).
Proof.
  unfold value8. change 256 with (2 ^ 8). apply Z.bits_inj'. intros i Hi.
  rewrite !Z.testbit_mod_pow2, !Z.shiftr_spec, Z.testbit_mod_pow2 by lia.
  destruct (Z.testbit v (i + 8 * Z.of_nat j)); rewrite ?andb_false_r; [|done].
  rewrite !andb_true_r. zcases; (done || lia).
Qed.

Lemma line_masked nb vs j :
  line (masked nb vs) j = (λ b, b mod 2 ^ Z.of_nat (Nat.min 8 (nb - 8 * j))) <$> line vs j.
Proof.
  unfold line, masked. rewrite <- list_fmap_compose. apply list_fmap_ext. intros i c _. simpl.
  rewrite list_lookup_fmap. destruct (vs !! c); simpl; [apply value8_mod|].
  rewrite Z.mod_0_l; [done|]. apply Z.pow_nonzero; lia.
Qed.

Lemma line_mod_256 vs j : (λ b, b mod 2 ^ Z.of_nat 8) <$> line vs j = line vs j.
Proof.
  rewrite <- (list_fmap_id (line vs j)) at 2. apply list_fmap_ext. intros i b Hb.
  pose proof (Forall_lookup_1 _ _ _ _ (line_bytes vs j) Hb) as [H1 H2]. simpl. by apply Z.mod_small.
Qed.

Lemma line_mod_1 vs j : (λ b, b mod 2 ^ Z.of_nat 0) <$> line vs j = replicate 64 0.
Proof.
  apply list_eq. intros i. rewrite list_lookup_fmap. destruct (decide (i < 64)%nat).
  - destruct (lookup_lt_is_Some_2 (line vs j) i) as [x ->]; [rewrite length_line; lia|].
    rewrite lookup_replicate_2 by lia. simpl. by rewrite Z.mod_1_r.
  - rewrite (lookup_ge_None_2 (line vs j)), lookup_ge_None_2; [done|rewrite length_replicate|rewrite length_line]; lia.
Qed.

(** The lines after the last significant bit are zeros. *)
Lemma zero_lines nb vs n k : (nb ≤ 8 * n)%nat →
  concat (line (masked nb vs) <$> seq n k) = replicate (64 * k) 0.
Proof.
  revert n. induction k as [|k IH]; intros n Hn; [done|]. cbn [seq fmap list_fmap concat].
  rewrite IH, line_masked by lia. replace (nb - 8 * n)%nat with 0%nat by lia.
  change (8 `min` 0)%nat with 0%nat. rewrite line_mod_1, <- replicate_add. f_equal. lia.
Qed.

Lemma whole_lines nb vs n : (8 * n ≤ nb)%nat → line (masked nb vs) <$> seq 0 n = line vs <$> seq 0 n.
Proof.
  intros Hn. apply list_fmap_ext. intros i j [-> Hj]%lookup_seq. rewrite line_masked.
  rewrite Nat.min_l by lia. apply line_mod_256.
Qed.

Lemma reverse_line vs j : reverseTranspose64x8 (transpose64x8 (line vs j)) = line vs j.
Proof.
  pose proof (reverse_transpose_line (line vs j) 8 (length_line _ _) (line_bytes _ _) ltac:(lia)) as H.
  rewrite take_ge, line_mod_256, app_nil_r in H by (rewrite length_transpose64x8; lia). done.
Qed.

Lemma reversed_lines (full : bool) vs n (ls : list bytes) :
  (if full then fold_left (on_line reverseTranspose64x8) (seq 0 n)
     (concat ((λ j, stored_line full (line vs j)) <$> seq 0 n) ++ concat ls)
   else concat ((λ j, stored_line full (line vs j)) <$> seq 0 n) ++ concat ls) =
  concat (line vs <$> seq 0 n) ++ concat ls.
Proof.
  destruct full; [|done].
  pose proof (on_lines reverseTranspose64x8 ((λ j, stored_line true (line vs j)) <$> seq 0 n) ls) as H.
  rewrite length_fmap, length_seq in H. rewrite H; [|apply stored_64|apply length_reverseTranspose64x8].
  do 2 f_equal. rewrite <- list_fmap_compose. apply list_fmap_ext. intros i j _. apply reverse_line.
Qed.

Lemma replicate_lines k : replicate (64 * k) 0 = concat (replicate k (replicate 64 0)).
Proof.
  induction k as [|k IH]; [done|]. replace (64 * S k)%nat with (64 + 64 * k)%nat by lia.
  by rewrite replicate_add, IH.
Qed.

(** The steps of [reverseTranspose] on the matrix. *)
Lemma matrix_reversed (full : bool) vs nb : (nb ≤ 64)%nat →
  let matrix := over (stored full vs nb) (replicate 512 0) in
  let matrix :=
    if full then fold_left (on_line reverseTranspose64x8) (seq 0 (nb / 8)) matrix else matrix in
  (if negb (Z.of_nat (nb mod 8) =? 0) then on_line reverseTranspose64x8 matrix (nb / 8) else matrix) =
  matrix_of (masked nb vs).
Proof.
  intros Hnb. cbv zeta. unfold over. rewrite length_stored, drop_replicate. unfold stored.
  pose proof (Nat.div_mod nb 8 ltac:(lia)) as Hdm. pose proof (Nat.mod_upper_bound nb 8 ltac:(lia)) as Hmb.
  set (n := (nb / 8)%nat) in *. set (p := (nb mod 8)%nat) in *.
  destruct (decide (n < 8)%nat) as [Hn|Hn].
  - rewrite (matrix_split _ n Hn), whole_lines, zero_lines, line_masked by lia.
    replace (nb - 8 * n)%nat with p by lia. rewrite Nat.min_r by lia.
    set (part := take (8 * p) (transpose64x8 (line vs n)) ++ replicate (64 - 8 * p) 0).
    replace (512 - 8 * nb)%nat with ((64 - 8 * p) + 64 * (7 - n))%nat by lia.
    rewrite replicate_add, <- app_assoc, (app_assoc (take _ _)). fold part. rewrite replicate_lines.
    change (part ++ concat (replicate (7 - n) (replicate 64 0))) with (concat (part :: replicate (7 - n) (replicate 64 0))).
    rewrite reversed_lines. cbn [concat].
    assert (reverseTranspose64x8 part = (λ b, b mod 2 ^ Z.of_nat p) <$> line vs n) as Hpart
      by (apply reverse_transpose_line; [apply length_line|apply line_bytes|lia]).
    destruct (Z.eqb_spec (Z.of_nat p) 0) as [E|E]; simpl negb.
    + unfold part. assert (p = 0%nat) as -> by lia. by rewrite line_mod_1.
    + rewrite <- Hpart. pose proof (on_line_app reverseTranspose64x8 (line vs <$> seq 0 n)
        (replicate (7 - n) (replicate 64 0)) part (lines_64 _ _ (length_line _))) as H.
      rewrite length_fmap, length_seq in H. apply H. unfold part.
      rewrite length_app, length_take, length_transpose64x8, length_replicate. lia.
  - assert (n = 8%nat ∧ p = 0%nat ∧ nb = 64%nat) as (-> & -> & ->) by lia. simpl negb.
    rewrite matrix_all, whole_lines, Nat.mul_0_r, take_0, app_nil_r by lia.
    apply (reversed_lines full vs 8 []).
Qed.

(** * Values out of the matrix *)

Lemma or_bytes_range w m col js v : 0 ≤ w → 0 ≤ v < 2 ^ (8 * w) → 0 ≤ fold_left (or_byte w m col) js v < 2 ^ (8 * w).
Proof.
  intros Hw. revert v. induction js as [|j js IH]; intros v Hv; simpl; [done|].
  apply IH. by apply wrap_range.
Qed.

(** The bits collected from the matrix of values. *)
Lemma or_bytes_spec w us c u js v i :
  us !! c = Some u → (c < 64)%nat → Forall (λ j, j < 8)%nat js → 0 ≤ i < 8 * w → 0 ≤ v < 2 ^ (8 * w) →
  Z.testbit (fold_left (or_byte w (matrix_of us) c) js v) i =
    Z.testbit v i || (bool_decide (Z.to_nat (i / 8) ∈ js) && Z.testbit u i).
Proof.
  intros Hu Hc Hjs. revert v. induction Hjs as [|j js Hj _ IH]; intros v Hi Hv; cbn [fold_left].
  - rewrite bool_decide_eq_false_2, andb_false_l, orb_false_r by set_solver. done.
  - rewrite IH by (done || (apply wrap_range; lia)). unfold or_byte. rewrite matrix_lookup, Hu by done. simpl default.
    unfold wrap. rewrite Z.mod_pow2_bits_low, Z.lor_spec, Z.shiftl_spec by lia. unfold value8.
    change 256 with (2 ^ 8). pose proof (Z.div_mod i 8 ltac:(lia)) as Hd. pose proof (Z.mod_pos_bound i 8 ltac:(lia)).
    destruct (decide (Z.to_nat (i / 8) = j)) as [E|E].
    + rewrite (bool_decide_eq_true_2 (_ ∈ j :: js)) by set_solver.
      rewrite Z.mod_pow2_bits_low, Z.shiftr_spec by lia. replace (i - 8 * Z.of_nat j + 8 * Z.of_nat j) with i by lia.
      by destruct (Z.testbit v i), (Z.testbit u i), (bool_decide _).
    + replace (Z.testbit (_ mod 2 ^ 8) (i - 8 * Z.of_nat j)) with false.
      * rewrite orb_false_r. f_equal. f_equal. apply bool_decide_ext. set_solver.
      * symmetry. destruct (decide (i - 8 * Z.of_nat j < 0)); [by apply Z.testbit_neg_r|].
        apply Z.mod_pow2_bits_high. pose proof (Z.div_pos i 8). lia.
Qed.

Lemma bytes_of_lt w : Forall (λ j, j < 8)%nat (bytes_of w).
Proof. unfold bytes_of. destruct (4 <? w), (2 <? w), (1 <? w); repeat constructor. Qed.

Lemma reverseTransposeBytes_spec w us c u :
  valid_size (Z.of_nat w) = true → us !! c = Some u → in_width w u → (c < 64)%nat →
  reverseTransposeBytes (Z.of_nat w) (matrix_of us) c 0 = u.
Proof.
  intros Hv Hu Hw Hc. rewrite reverseTransposeBytes_fold.
  assert (0 ≤ 0 < 2 ^ (8 * Z.of_nat w)) as H0 by (split; [lia|apply Z.pow_pos_nonneg; lia]).
  apply (bits_inj_width _ _ (8 * Z.of_nat w)); [by apply or_bytes_range; [lia|]|done|].
  intros i Hi. rewrite (or_bytes_spec _ _ _ u), Z.bits_0 by (done || apply bytes_of_lt).
  rewrite bool_decide_eq_true_2; [done|]. apply bytes_of_spec; [done|].
  pose proof (Z.div_mod i 8 ltac:(lia)). pose proof (Z.mod_pos_bound i 8 ltac:(lia)). pose proof (Z.div_pos i 8). lia.
Qed.

Lemma fold_alter (f : nat → Z → Z) (l1 l2 : list Z) :
  fold_left (λ buf col, alter (f col) col buf) (seq 0 (length l1)) (l1 ++ l2) = imap f l1 ++ l2.
Proof.
  revert l2. induction l1 as [|x l1 IH] using rev_ind; intros l2; [done|].
  rewrite length_app, Nat.add_1_r, fold_left_seq_S, <- app_assoc. simpl. rewrite (IH (x :: l2)).
  rewrite imap_app. simpl. rewrite <- app_assoc. simpl. rewrite Nat.add_0_r.
  pose proof (alter_app_r (f (length l1)) (imap f l1) (x :: l2) 0) as E.
  rewrite length_imap, Nat.add_0_r in E. by rewrite E.
Qed.

Lemma fold_alter_const (f : Z → Z) (l1 l2 : list Z) n : n = length l1 →
  fold_left (λ buf col, alter f col buf) (seq 0 n) (l1 ++ l2) = (f <$> l1) ++ l2.
Proof. intros ->. rewrite (fold_alter (λ _, f)). f_equal. induction l1; simpl; by f_equal. Qed.

Lemma masked_width w nb vs : all_width w vs → all_width w (masked nb vs).
Proof.
  intros Hvs. apply Forall_fmap. eapply Forall_impl; [exact Hvs|]. intros v [H1 H2]. simpl.
  pose proof (Z.pow_pos_nonneg 2 (Z.of_nat nb) ltac:(lia) ltac:(lia)).
  pose proof (Z.mod_le v (2 ^ Z.of_nat nb) H1 ltac:(lia)). pose proof (Z.mod_pos_bound v (2 ^ Z.of_nat nb) ltac:(lia)).
  split; lia.
Qed.

Lemma reverseTranspose_spec w full vs nb pre post src :
  valid_size (Z.of_nat w) = true → all_width w vs → (length vs ≤ 64)%nat → (nb ≤ 64)%nat → src = blen pre →
  reverseTranspose (Z.of_nat w) full (pre ++ stored full vs nb ++ post) src (Z.of_nat nb) (length vs) =
    Ret (masked nb vs ++ replicate (64 - length vs) 0).
Proof.
  intros Hv Hvs Hl Hnb ->. unfold reverseTranspose.
  rewrite read_bytes_app by (done || (unfold blen; rewrite length_stored; lia)). cbn [mbind outcome_bind].
  rewrite write_first by (unfold blen; rewrite length_stored, length_replicate; lia). cbn [mbind outcome_bind].
  replace (Z.of_nat nb mod 8) with (Z.of_nat (nb mod 8)) by (by rewrite Nat2Z.inj_mod).
  replace (Z.of_nat nb / 8) with (Z.of_nat (nb / 8)) by (by rewrite Nat2Z.inj_div). rewrite Nat2Z.id.
  pose proof (matrix_reversed full vs nb Hnb) as Hm. cbv zeta in Hm. rewrite Hm. f_equal.
  replace (replicate 64 0) with (replicate (length vs) 0 ++ replicate (64 - length vs) 0)
    by (rewrite <- replicate_add; f_equal; lia).
  rewrite <- (length_replicate (length vs) 0) at 1. rewrite fold_alter. f_equal.
  apply list_eq. intros c. rewrite list_lookup_imap.
  assert (length (masked nb vs) = length vs) as Hlm by (unfold masked; apply length_fmap).
  destruct (decide (c < length vs)%nat).
  - rewrite lookup_replicate_2 by done. destruct (lookup_lt_is_Some_2 (masked nb vs) c) as [u Hu]; [lia|].
    rewrite Hu. simpl. f_equal. apply reverseTransposeBytes_spec; [done|done| |lia].
    by eapply Forall_lookup_1; [apply masked_width|].
  - rewrite (lookup_ge_None_2 (replicate _ _)), lookup_ge_None_2; [done|lia|rewrite length_replicate; lia].
Qed.

(** What is done to a value after the transposition. *)
Definition restore (signed : bool) (upper_min upper_max sign_bit value : Z) : Z :=
  if signed && negb (sign_bit =? 0) && (Z.land value sign_bit =? 0) then Z.lor value upper_max
  else Z.lor value upper_min.

Lemma restoreUpperBits_spec signed buf rest upper_min upper_max sign_bit :
  restoreUpperBits signed (buf ++ rest) upper_min upper_max sign_bit (length buf) =
    (restore signed upper_min upper_max sign_bit <$> buf) ++ rest.
Proof.
  unfold restoreUpperBits, restore. destruct (signed && negb (sign_bit =? 0)); rewrite fold_alter_const by done; [|done].
  f_equal. apply list_fmap_ext. intros i x _. simpl. by destruct (Z.land x sign_bit =? 0).
Qed.

Lemma restore_block_spec signed w full vs nb pre post src dpre dest dst upper_min upper_max sign_bit :
  valid_size (Z.of_nat w) = true → all_width w vs → (length vs ≤ 64)%nat → (nb ≤ 64)%nat →
  src = blen pre → dst = blen dpre → blen dpre + blen (enc w vs) ≤ blen dest →
  restore signed upper_min upper_max sign_bit <$> masked nb vs = vs →
  restore_block signed (Z.of_nat w) full (Z.of_nat nb) upper_min upper_max sign_bit
    (pre ++ stored full vs nb ++ post) src (over dpre dest) dst (length vs) =
    Ret (over (dpre ++ enc w vs) dest).
Proof.
  intros Hv Hvs Hl Hnb Hsrc -> Hd Hrestore. unfold restore_block.
  rewrite reverseTranspose_spec by done. cbn [mbind outcome_bind].
  assert (length (masked nb vs) = length vs) as Hlm by (unfold masked; apply length_fmap).
  rewrite <- Hlm at 2. rewrite restoreUpperBits_spec, Hrestore.
  unfold store_buf. rewrite take_app_length, Nat2Z.id. by apply write_over.
Qed.

(** * The bits that all the values share *)

Section unsigned_bits.
Context (min max : Z) (Hmin : 0 ≤ min) (Hmax : min ≤ max).
Abbreviation nb := (getValuableBitsNumber_UInt64 min max).

Lemma valuable_shift : 0 ≤ nb ∧ Z.shiftr min nb = Z.shiftr max nb ∧ (nb = 0 → min = max).
Proof.
  unfold getValuableBitsNumber_UInt64. destruct (Z.eqb_spec (Z.lxor min max) 0) as [E|E]; simpl negb; cbv match.
  - apply Z.lxor_eq in E as ->. split_and!; done.
  - pose proof (Z.log2_nonneg (Z.lxor min max)). split_and!; [lia| |lia].
    apply Z.lxor_eq. rewrite <- Z.shiftr_lxor. apply Z.shiftr_eq_0; [|lia]. apply Z.lxor_nonneg. lia.
Qed.

Lemma valuable_bound n : 0 ≤ n → Z.lxor min max < 2 ^ n → nb ≤ n.
Proof.
  intros Hn Hlt. unfold getValuableBitsNumber_UInt64.
  destruct (Z.eqb_spec (Z.lxor min max) 0) as [E|E]; simpl negb; cbv match; [lia|].
  assert (0 ≤ Z.lxor min max) by (apply Z.lxor_nonneg; lia).
  pose proof (proj1 (Z.log2_lt_pow2 (Z.lxor min max) n ltac:(lia)) Hlt). lia.
Qed.

Lemma shift_between x : min ≤ x ≤ max → Z.shiftr x nb = Z.shiftr min nb.
Proof.
  intros Hx. destruct valuable_shift as (H0 & H & _).
  rewrite !Z.shiftr_div_pow2 in * by done.
  pose proof (Z.pow_pos_nonneg 2 nb ltac:(lia) H0).
  pose proof (Z.div_le_mono min x (2 ^ nb)). pose proof (Z.div_le_mono x max (2 ^ nb)). lia.
Qed.
End unsigned_bits.

(** The number of bits of a value. *)
Lemma valuable_zero m : 0 ≤ m → m < 2 ^ getValuableBitsNumber_UInt64 0 m.
Proof.
  intros Hm. unfold getValuableBitsNumber_UInt64. rewrite Z.lxor_0_l.
  destruct (Z.eqb_spec m 0) as [->|]; [done|]. simpl negb. cbv match.
  replace (64 - (63 - Z.log2 m)) with (Z.succ (Z.log2 m)) by lia. apply Z.log2_spec. lia.
Qed.

(** The low bits of a value with the high bits of another that has the same ones. *)
Lemma combine_bits w nb U :
  1 ≤ w ≤ 8 → 0 ≤ nb ≤ 8 * w →
  Z.lor (wrap w U mod 2 ^ nb) (wrap w (u64 (Z.shiftl (Z.shiftr U nb) nb))) = wrap w U.
Proof.
  intros Hw Hnb.
  apply (bits_inj_width _ _ (8 * w)).
  - apply lor_range; [lia| |apply wrap_range; lia]. pose proof (wrap_range w U ltac:(lia)).
    pose proof (Z.pow_pos_nonneg 2 nb). pose proof (Z.mod_le (wrap w U) (2 ^ nb)).
    pose proof (Z.mod_pos_bound (wrap w U) (2 ^ nb)). lia.
  - apply wrap_range. lia.
  - intros i Hi. unfold wrap. rewrite Z.lor_spec, Z.testbit_mod_pow2, !Z.mod_pow2_bits_low, Z.shiftl_spec by lia.
    destruct (Z.ltb_spec i nb); simpl.
    + rewrite (Z.testbit_neg_r _ (i - nb)), orb_false_r by lia. done.
    + rewrite Z.shiftr_spec by lia. f_equal. lia.
Qed.

(** The values of the type [T]. *)
Definition in_T (signed : bool) (w x : Z) : Prop :=
  if signed then - 2 ^ (8 * w - 1) ≤ x < 2 ^ (8 * w - 1) else 0 ≤ x < 2 ^ (8 * w).

Lemma as_T_range signed w v : (1 ≤ w)%nat → in_width w v → in_T signed (Z.of_nat w) (as_T signed (Z.of_nat w) v).
Proof. intros Hw Hv. destruct signed; [|done]. simpl. apply to_signed_range. lia. Qed.

Lemma wrap_as_T signed w v : (1 ≤ w)%nat → in_width w v → wrap (Z.of_nat w) (as_T signed (Z.of_nat w) v) = v.
Proof. intros Hw Hv. destruct signed; simpl; rewrite ?to_signed_mod by lia; by apply wrap_small. Qed.

(** [u64] of a negative integer. *)
Lemma u64_negative x : - 2 ^ 64 ≤ x < 0 → u64 x = 2 ^ 64 + x.
Proof.
  intros Hx. unfold wrap. change (8 * 8) with 64. rewrite <- (Z.mod_add x 1) by zlia.
  rewrite Z.mod_small by zlia. lia.
Qed.

(** Values that fit in [nb] signed bits have the same bits above them as every other
    one of their sign. *)
Lemma shift_negative nb x : 0 < nb < 64 → - 2 ^ (nb - 1) ≤ x < 0 → Z.shiftr (u64 x) nb = 2 ^ (64 - nb) - 1.
Proof.
  intros Hnb Hx. assert (2 ^ nb = 2 * 2 ^ (nb - 1)) by (rewrite <- Z.pow_succ_r by lia; f_equal; lia).
  assert (2 ^ 64 = 2 ^ nb * 2 ^ (64 - nb)) by (rewrite <- Z.pow_add_r by lia; f_equal; lia).
  pose proof (Z.pow_pos_nonneg 2 (64 - nb)). pose proof (Z.pow_pos_nonneg 2 (nb - 1)).
  rewrite u64_negative by nia. rewrite Z.shiftr_div_pow2 by lia.
  symmetry. apply Z.div_unique with (r := 2 ^ nb + x); nia.
Qed.

Lemma shift_nonnegative nb x : 0 < nb → 0 ≤ x < 2 ^ (nb - 1) → x < 2 ^ 64 → Z.shiftr (u64 x) nb = 0.
Proof.
  intros Hnb Hx Hx64. assert (2 ^ (nb - 1) ≤ 2 ^ nb) by (apply Z.pow_le_mono_r; lia).
  rewrite wrap_small by zlia. rewrite Z.shiftr_div_pow2, Z.div_small by lia. done.
Qed.

Lemma valuable_crossing w min max :
  1 ≤ w ≤ 8 → - 2 ^ (8 * w - 1) ≤ min < 0 → 0 ≤ max < 2 ^ (8 * w - 1) →
  let nb := getValuableBitsNumber_Int64 min max in
  1 ≤ nb ≤ 8 * w ∧ - 2 ^ (nb - 1) ≤ min ∧ max < 2 ^ (nb - 1).
Proof.
  intros Hw Hmin Hmax nb. unfold nb, getValuableBitsNumber_Int64.
  rewrite (proj2 (Z.ltb_lt min 0)), (proj2 (Z.leb_le 0 max)) by lia. simpl andb. cbv match.
  assert (2 ^ (8 * w - 1) ≤ 2 ^ 63) by (apply Z.pow_le_mono_r; lia).
  assert (∀ m, 0 ≤ m < 2 ^ (8 * w - 1) → let n := getValuableBitsNumber_UInt64 0 (u64 m) + 1 in
    1 ≤ n ≤ 8 * w ∧ m < 2 ^ (n - 1)) as Hm.
  { intros m Hm n. unfold n. rewrite wrap_small by zlia. rewrite Z.add_simpl_r.
    pose proof (valuable_zero m ltac:(lia)). pose proof (valuable_shift 0 m ltac:(lia) ltac:(lia)) as [? _].
    pose proof (valuable_bound 0 m ltac:(lia) ltac:(lia) (8 * w - 1) ltac:(lia)) as Hb.
    rewrite Z.lxor_0_l in Hb. lia. }
  destruct (Z.leb_spec 0 (min + max)).
  - destruct (Hm max Hmax). lia.
  - unfold Z.lnot. destruct (Hm (Z.pred (- min)) ltac:(lia)). lia.
Qed.

Lemma lxor_negative a b n : 0 ≤ n ≤ 63 → - 2 ^ n ≤ a < 0 → - 2 ^ n ≤ b < 0 → Z.lxor (u64 a) (u64 b) < 2 ^ n.
Proof.
  intros Hn Ha Hb. assert (2 ^ n ≤ 2 ^ 63) by (apply Z.pow_le_mono_r; lia).
  rewrite !u64_negative by zlia.
  assert (∀ x, - 2 ^ n ≤ x < 0 → 2 ^ 64 + x = Z.lxor (- x - 1) (2 ^ 64 - 1)) as H1
    by (intros x Hx; rewrite lxor_ones by zlia; lia).
  rewrite (H1 a), (H1 b), (Z.lxor_comm (- b - 1)), Z.lxor_assoc, <- (Z.lxor_assoc (2 ^ 64 - 1)) by done.
  rewrite Z.lxor_nilpotent, Z.lxor_0_l. apply lxor_range; lia.
Qed.

(** The bounds of the type of [w] bytes, as 64-bit unsigned integers: the order is kept
    among the values of one sign. *)
Definition same_sign (signed : bool) (min max : Z) : Prop := signed = false ∨ max < 0 ∨ 0 ≤ min.

Lemma u64_same_sign signed w min max x :
  1 ≤ w ≤ 8 → in_T signed w min → in_T signed w max → same_sign signed min max → min ≤ x ≤ max →
  0 ≤ u64 min ∧ u64 min ≤ u64 x ≤ u64 max ∧ Z.lxor (u64 min) (u64 max) < 2 ^ (8 * w).
Proof.
  intros Hw Hmin Hmax Hss Hx.
  assert (2 ^ (8 * w - 1) ≤ 2 ^ 63) by (apply Z.pow_le_mono_r; lia).
  assert (2 ^ (8 * w - 1) ≤ 2 ^ (8 * w)) by (apply Z.pow_le_mono_r; lia).
  assert (2 ^ (8 * w) ≤ 2 ^ 64) by (apply Z.pow_le_mono_r; lia).
  split; [apply wrap_range; lia|].
  destruct (decide (0 ≤ min)) as [Hpos|Hneg].
  - assert (0 ≤ min ∧ max < 2 ^ (8 * w)) by (destruct signed; simpl in *; lia).
    rewrite !wrap_small by zlia. split; [lia|]. apply lxor_range; lia.
  - destruct signed; [|simpl in *; lia]. destruct Hss as [|[Hlt|]]; [done| |lia]. simpl in *.
    rewrite !(u64_negative min), !(u64_negative x), !(u64_negative max) by zlia. split; [lia|].
    pose proof (lxor_negative min max (8 * w - 1)) as Hl. rewrite !u64_negative in Hl by zlia. lia.
Qed.

Lemma valuable_same_sign signed w min max :
  1 ≤ w ≤ 8 → in_T signed w min → in_T signed w max → same_sign signed min max → min ≤ max →
  getValuableBitsNumber signed min max = getValuableBitsNumber_UInt64 (u64 min) (u64 max).
Proof.
  intros Hw Hmin Hmax Hss Hle. destruct signed; simpl in *.
  - unfold getValuableBitsNumber_Int64. destruct Hss as [|Hs]; [done|].
    destruct (Z.ltb_spec min 0), (Z.leb_spec 0 max); simpl; (done || lia).
  - assert (2 ^ (8 * w) ≤ 2 ^ 64) by (apply Z.pow_le_mono_r; lia). by rewrite !wrap_small by zlia.
Qed.

(** The sign bit of a value that fits in [n] signed bits. *)
Lemma sign_bit_test w n x :
  1 ≤ n ≤ 8 * w → - 2 ^ (n - 1) ≤ x < 2 ^ (n - 1) → (Z.land (wrap w x mod 2 ^ n) (2 ^ (n - 1)) =? 0) = (0 <=? x).
Proof.
  intros Hn Hx. assert (2 ^ n = 2 * 2 ^ (n - 1)) as Hp by (rewrite <- Z.pow_succ_r by lia; f_equal; lia).
  assert (wrap w x mod 2 ^ n = if 0 <=? x then x else 2 ^ n + x) as ->.
  { unfold wrap. rewrite Z.mod_mod_divide.
    - destruct (Z.leb_spec 0 x); [apply Z.mod_small; lia|].
      rewrite <- (Z.mod_add x 1) by lia. rewrite Z.mod_small; lia.
    - exists (2 ^ (8 * w - n)). rewrite <- Z.pow_add_r by lia. f_equal. lia. }
  destruct (Z.leb_spec 0 x).
  - apply Z.eqb_eq. rewrite Z.land_comm. pose proof (land_disjoint 1 x (n - 1)) as H1.
    rewrite Z.mul_1_l in H1. apply H1; lia.
  - apply Z.eqb_neq. intros E. apply (f_equal (λ z, Z.testbit z (n - 1))) in E.
    rewrite Z.land_spec, Z.bits_0, Z.pow2_bits_true, andb_true_r in E by lia.
    replace (2 ^ n + x) with (2 ^ (n - 1) + x + 1 * 2 ^ (n - 1)) in E by lia.
    rewrite Z.testbit_odd, Z.shiftr_div_pow2, Z.div_add, Z.div_small in E by lia. done.
Qed.

(** The restored value is the one that was stored. *)
Section restored.
Context (signed : bool) (w : Z) (Hw : 1 ≤ w ≤ 8) (min max : Z).
Context (Hmin : in_T signed w min) (Hmax : in_T signed w max) (Hle : min ≤ max).
Abbreviation nb := (getValuableBitsNumber signed min max).
Abbreviation crosses := (signed && (min <? 0) && (0 <=? max) && (nb <? 64)).

Lemma crossing_dec : same_sign signed min max ∨ signed = true ∧ min < 0 ∧ 0 ≤ max.
Proof. unfold same_sign. destruct signed; [|auto]. lia. Qed.

Lemma valuable_range : 0 ≤ nb ≤ 8 * w.
Proof.
  destruct crossing_dec as [Hss|(Hs & Hn & Hp)].
  - rewrite (valuable_same_sign signed w) by done.
    destruct (u64_same_sign signed w min max min) as (H0 & H1 & H2); [done..|lia|].
    pose proof (valuable_shift (u64 min) (u64 max)). pose proof (valuable_bound (u64 min) (u64 max) H0 ltac:(lia) (8 * w)). lia.
  - rewrite Hs in *. pose proof (valuable_crossing w min max Hw) as H. simpl in *. lia.
Qed.

Lemma valuable_none : nb = 0 → min = max.
Proof.
  intros Hnb. destruct crossing_dec as [Hss|(Hs & Hn & Hp)].
  - rewrite (valuable_same_sign signed w) in Hnb by done.
    destruct (u64_same_sign signed w min max max) as (H0 & H1 & _); [done..|lia|].
    pose proof (valuable_shift (u64 min) (u64 max) H0 ltac:(lia)) as (_ & _ & E). specialize (E Hnb).
    destruct (u64_same_sign signed w min max max) as (_ & H3 & _); [done..|lia|].
    assert (2 ^ (8 * w) ≤ 2 ^ 64) by (apply Z.pow_le_mono_r; lia).
    assert (2 ^ (8 * w - 1) ≤ 2 ^ 63) by (apply Z.pow_le_mono_r; lia).
    destruct (decide (0 ≤ min)).
    + rewrite !wrap_small in E by (destruct signed; simpl in *; zlia). done.
    + destruct signed; [|simpl in *; lia]. destruct Hss as [|[]]; [done| |lia]. simpl in *.
      rewrite !u64_negative in E by zlia. lia.
  - rewrite Hs in *. pose proof (valuable_crossing w min max Hw) as H. simpl in *. lia.
Qed.

Lemma restore_value x :
  nb ≠ 0 → min ≤ x ≤ max →
  restore signed (if nb <? 64 then wrap w (u64 (Z.shiftl (Z.shiftr (u64 min) nb) nb)) else 0)
    (if crosses then wrap w (u64 (Z.shiftl (Z.shiftr (u64 max) nb) nb)) else 0)
    (if crosses then wrap w (u64 (Z.shiftl 1 (nb - 1))) else 0) (wrap w x mod 2 ^ nb) = wrap w x.
Proof.
  intros Hnb Hx. pose proof valuable_range as Hr.
  assert (wrap w (u64 x) = wrap w x) as Hwx.
  { unfold wrap. apply Z.mod_mod_divide.
    exists (2 ^ (64 - 8 * w)). rewrite <- Z.pow_add_r by lia. f_equal. lia. }
  unfold restore. destruct (Z.ltb_spec nb 64) as [H64|H64].
  2: { rewrite andb_false_r. simpl negb. rewrite andb_false_r. simpl. rewrite Z.lor_0_r.
       apply Z.mod_small. assert (nb = 8 * w) as -> by lia. apply wrap_range. lia. }
  rewrite andb_true_r. destruct crossing_dec as [Hss|(Hs & Hn & Hp)].
  - replace (signed && (min <? 0) && (0 <=? max)) with false.
    2: { destruct signed; [|done]. destruct Hss as [|Hss]; [done|]. simpl.
         symmetry. apply andb_false_iff. rewrite Z.ltb_ge, Z.leb_gt. lia. }
    simpl negb. rewrite andb_false_r. simpl andb. cbv match.
    destruct (u64_same_sign signed w min max x) as (H0 & H1 & _); [done..|].
    assert (Z.shiftr (u64 min) nb = Z.shiftr (u64 x) nb) as ->.
    { rewrite (valuable_same_sign signed w) by done. symmetry. apply shift_between; lia. }
    rewrite <- Hwx. apply combine_bits; lia.
  - rewrite Hs in *. rewrite (proj2 (Z.ltb_lt min 0)), (proj2 (Z.leb_le 0 max)) by lia. simpl andb. cbv match.
    destruct (valuable_crossing w min max) as (H1 & H2 & H3); [done|simpl in *; lia..|].
    change (getValuableBitsNumber true min max) with (getValuableBitsNumber_Int64 min max) in *.
    set (n := getValuableBitsNumber_Int64 min max) in *.
    assert (2 ^ (n - 1) < 2 ^ (8 * w)) by (apply Z.pow_lt_mono_r; lia).
    assert (2 ^ (n - 1) ≤ 2 ^ 62) by (apply Z.pow_le_mono_r; lia). pose proof (Z.pow_pos_nonneg 2 (n - 1)).
    rewrite Z.shiftl_1_l, (wrap_small 8 (2 ^ (n - 1))), (wrap_small w (2 ^ (n - 1))) by zlia.
    rewrite (proj2 (Z.eqb_neq (2 ^ (n - 1)) 0)) by lia. simpl.
    replace (Z.land (wrap w x mod 2 ^ n) (2 ^ (n - 1)) =? 0) with (0 <=? x).
    + destruct (Z.leb_spec 0 x).
      * rewrite (shift_nonnegative n max), <- (shift_nonnegative n x), <- Hwx by zlia. apply combine_bits; lia.
      * rewrite (shift_negative n min), <- (shift_negative n x), <- Hwx by zlia. apply combine_bits; lia.
    + symmetry. apply sign_bit_test; lia.
Qed.
End restored.

Lemma restore_all signed upper_min upper_max sign_bit nb vs :
  (∀ v, v ∈ vs → restore signed upper_min upper_max sign_bit (v mod 2 ^ Z.of_nat nb) = v) →
  restore signed upper_min upper_max sign_bit <$> masked nb vs = vs.
Proof.
  intros H. unfold masked. rewrite <- list_fmap_compose. rewrite <- (list_fmap_id vs) at 2.
  apply list_fmap_ext. intros i v Hv. simpl. apply H. by eapply list_elem_of_lookup_2.
Qed.

(** * The loops *)

(** Blocks of 64 values, and the values that are left. *)
Lemma chunks (vs : list Z) :
  ∃ blocks tail, vs = concat blocks ++ tail ∧ Forall (λ b, length b = 64%nat) blocks ∧ (length tail < 64)%nat.
Proof.
  remember (length vs) as n eqn:E. revert vs E. induction n as [n IH] using lt_wf_ind. intros vs ->.
  destruct (decide (length vs < 64)%nat).
  - exists [], vs. auto.
  - destruct (IH (length (drop 64 vs))) with (vs := drop 64 vs) as (blocks & tail & Heq & Hb & Ht);
      [rewrite length_drop; lia|done|].
    exists (take 64 vs :: blocks), tail. simpl. rewrite <- app_assoc, <- Heq, take_drop. split_and!; [done| |done].
    constructor; [rewrite length_take; lia|done].
Qed.

Lemma length_blocks (blocks : list (list Z)) :
  Forall (λ b, length b = 64%nat) blocks → length (concat blocks) = (64 * length blocks)%nat.
Proof. apply length_lines. Qed.

(** What is written for them. *)
Definition body (full : bool) (nb : nat) (blocks : list (list Z)) (tail : list Z) : bytes :=
  concat ((λ b, stored full b nb) <$> blocks) ++ (if decide (tail = []) then [] else stored full tail nb).

Lemma length_body_blocks full nb (blocks : list (list Z)) :
  length (concat ((λ b, stored full b nb) <$> blocks)) = (8 * nb * length blocks)%nat.
Proof. induction blocks as [|b blocks IH]; cbn [fmap list_fmap concat length]; [lia|]. rewrite length_app, length_stored, IH. lia. Qed.

Lemma blen_body_blocks full nb (blocks : list (list Z)) :
  blen (concat ((λ b, stored full b nb) <$> blocks)) = 8 * Z.of_nat nb * Z.of_nat (length blocks).
Proof. unfold blen. rewrite length_body_blocks. lia. Qed.

Section loops.
Context (signed : bool) (w : nat) (Hv : valid_size (Z.of_nat w) = true).
Abbreviation wz := (Z.of_nat w).

Lemma t64_width : (1 ≤ w ≤ 8)%nat.
Proof. unfold valid_size in Hv. rewrite !orb_true_iff, !Z.eqb_eq in Hv. lia. Qed.

Definition between (min max : Z) (vs : list Z) : Prop :=
  Forall (λ v, min ≤ as_T signed wz v ≤ max) vs.

Lemma findMinMax_loop_spec vs fuel pre post min max :
  all_width w vs → (length vs ≤ fuel)%nat → in_T signed wz min → in_T signed wz max → min ≤ max →
  ∃ min' max',
    findMinMax_loop signed wz (pre ++ enc w vs ++ post) fuel (blen pre) (blen pre + blen (enc w vs)) min max =
      Ret (min', max') ∧ min' ≤ min ∧ max ≤ max' ∧ in_T signed wz min' ∧ in_T signed wz max' ∧ between min' max' vs.
Proof.
  pose proof t64_width as Hw. intros Hvs. revert fuel pre min max.
  induction Hvs as [|v vs Hvw _ IH]; intros fuel pre min max Hf Hmin Hmax Hle.
  - exists min, max. rewrite enc_nil, blen_nil, Z.add_0_r. split; [destruct fuel; simpl; by rewrite Z.ltb_irrefl|].
    split_and!; [lia|lia|done|done|constructor].
  - destruct fuel as [|fuel]; [simpl in Hf; lia|]. cbn [findMinMax_loop length] in *.
    rewrite (proj2 (Z.ltb_lt _ _)) by (rewrite blen_enc; simpl; nia).
    rewrite load_enc by done. cbn [mbind outcome_bind]. pose proof (as_T_range signed w v ltac:(lia) Hvw) as Hcur.
    set (cur := as_T signed wz v) in *.
    rewrite enc_cons, <- app_assoc, blen_app, (app_assoc pre).
    replace (blen pre + wz) with (blen (pre ++ le_split w v)) by blia.
    replace (blen pre + (blen (le_split w v) + blen (enc w vs)))
      with (blen (pre ++ le_split w v) + blen (enc w vs)) by blia.
    destruct (IH fuel (pre ++ le_split w v) (if cur <? min then cur else min) (if max <? cur then cur else max))
      as (min' & max' & -> & H1 & H2 & H3 & H4 & H5);
      [lia|by case_match|by case_match|destruct (Z.ltb_spec cur min), (Z.ltb_spec max cur); lia|].
    exists min', max'.
    assert (min' ≤ min ∧ max ≤ max' ∧ min' ≤ cur ≤ max') as (? & ? & ?)
      by (destruct (Z.ltb_spec cur min), (Z.ltb_spec max cur); lia).
    split_and!; [done|lia|lia|done|done|]. by constructor.
Qed.

Lemma findMinMax_spec vs post :
  all_width w vs → vs ≠ [] →
  ∃ min max, findMinMax signed wz (enc w vs ++ post) (blen (enc w vs)) = Ret (min, max) ∧
    in_T signed wz min ∧ in_T signed wz max ∧ min ≤ max ∧ between min max vs.
Proof.
  intros Hvs Hne. pose proof t64_width as Hw. unfold findMinMax.
  destruct Hvs as [|v vs Hvw Hvs]; [done|].
  replace (load wz _ 0) with (Ret v) by (symmetry; rewrite enc_cons, <- app_assoc; by apply load_prefix).
  cbn [mbind outcome_bind]. pose proof (as_T_range signed w v ltac:(lia) Hvw) as Hcur.
  destruct (findMinMax_loop_spec (v :: vs) (Z.to_nat (blen (enc w (v :: vs)))) [] post (as_T signed wz v) (as_T signed wz v))
    as (min & max & E & H1 & H2 & H3 & H4 & H5); [by constructor|rewrite blen_enc; nia|done|done|lia|].
  exists min, max. split_and!; [exact E|done|done|lia|done].
Qed.

Lemma load_buf_spec vs pre post pos :
  all_width w vs → pos = blen pre → load_buf wz (pre ++ enc w vs ++ post) pos (length vs) = Ret vs.
Proof.
  intros Hvs. revert pre pos. induction Hvs as [|v vs Hvw _ IH]; intros pre pos ->; [done|]. cbn [load_buf length].
  rewrite load_enc by done. cbn [mbind outcome_bind]. rewrite enc_cons, <- app_assoc, (app_assoc pre).
  rewrite IH by blia. done.
Qed.

Lemma t64_compress_loop full blocks pre post dpre dest nb :
  Forall (λ b, length b = 64%nat) blocks → all_width w (concat blocks) → (nb ≤ 64)%nat →
  blen dpre + 8 * Z.of_nat nb * Z.of_nat (length blocks) ≤ blen dest →
  compress_loop wz full (Z.of_nat nb) (length blocks) (pre ++ enc w (concat blocks) ++ post) (blen pre)
    (over dpre dest) (blen dpre) =
  Ret (blen pre + blen (enc w (concat blocks)), over (dpre ++ concat ((λ b, stored full b nb) <$> blocks)) dest,
       blen dpre + 8 * Z.of_nat nb * Z.of_nat (length blocks)).
Proof.
  intros Hbl. revert pre dpre. induction Hbl as [|b blocks Hb _ IH]; intros pre dpre Hw Hnb Hd; cbn [compress_loop length].
  - cbn [concat fmap list_fmap]. rewrite enc_nil, blen_nil, app_nil_r, Z.mul_0_r, !Z.add_0_r. done.
  - cbn [concat fmap list_fmap length] in *. apply Forall_app in Hw as [Hw1 Hw2].
    rewrite Nat2Z.inj_succ, Z.mul_succ_r in *.
    rewrite enc_app, <- app_assoc. rewrite <- Hb at 1. rewrite load_buf_spec by done. cbn [mbind outcome_bind].
    rewrite <- Hb at 1. rewrite transpose_spec by (done || lia). cbn [mbind outcome_bind].
    replace (blen pre + wz * 64) with (blen (pre ++ enc w b)) by (rewrite blen_app, blen_enc, Hb; lia).
    assert (blen (stored full b nb) = 8 * Z.of_nat nb) as Hs by (unfold blen; rewrite length_stored; lia).
    replace (blen dpre + 8 * Z.of_nat nb) with (blen (dpre ++ stored full b nb)) by (rewrite blen_app; lia).
    rewrite (app_assoc pre), IH by (done || (rewrite blen_app; lia)).
    rewrite <- app_assoc, !blen_app, Hs. apply (f_equal Ret), pair_equal_spec. split; [apply pair_equal_spec; split; [lia|done]|lia].
Qed.

Lemma t64_decompress_loop full blocks pre post dpre dest nb upper_min upper_max sign_bit :
  Forall (λ b, length b = 64%nat) blocks → all_width w (concat blocks) → (nb ≤ 64)%nat →
  (∀ v, v ∈ concat blocks → restore signed upper_min upper_max sign_bit (v mod 2 ^ Z.of_nat nb) = v) →
  blen dpre + blen (enc w (concat blocks)) ≤ blen dest →
  decompress_loop signed wz full (Z.of_nat nb) upper_min upper_max sign_bit (length blocks)
    (pre ++ concat ((λ b, stored full b nb) <$> blocks) ++ post) (blen pre) (over dpre dest) (blen dpre) =
  Ret (blen pre + 8 * Z.of_nat nb * Z.of_nat (length blocks), over (dpre ++ enc w (concat blocks)) dest,
       blen dpre + blen (enc w (concat blocks))).
Proof.
  intros Hbl. revert pre dpre. induction Hbl as [|b blocks Hb _ IH]; intros pre dpre Hw Hnb Hr Hd; cbn [decompress_loop length].
  - cbn [concat fmap list_fmap]. rewrite enc_nil, blen_nil, app_nil_r, Z.mul_0_r, !Z.add_0_r. done.
  - cbn [concat fmap list_fmap length] in *. apply Forall_app in Hw as [Hw1 Hw2]. rewrite enc_app, blen_app in Hd.
    pose proof (blen_nonneg (enc w (concat blocks))).
    rewrite <- app_assoc. rewrite <- Hb at 1. rewrite restore_block_spec by (done || lia || (apply restore_all; set_solver)).
    cbn [mbind outcome_bind].
    assert (blen (stored full b nb) = 8 * Z.of_nat nb) as Hs by (unfold blen; rewrite length_stored; lia).
    replace (blen pre + 8 * Z.of_nat nb) with (blen (pre ++ stored full b nb)) by (rewrite blen_app; lia).
    replace (blen dpre + wz * 64) with (blen (dpre ++ enc w b)) by (rewrite blen_app, blen_enc, Hb; lia).
    rewrite (app_assoc pre), IH by (done || (rewrite blen_app; lia) || set_solver).
    rewrite <- app_assoc, enc_app, !blen_app, Hs. apply (f_equal Ret), pair_equal_spec. split; [apply pair_equal_spec; split; [lia|done]|lia].
Qed.
End loops.

(** * Whole columns *)

(** The number of bits kept for values between [min] and [max]. *)
Definition bits_of (signed : bool) (min max : Z) : nat := Z.to_nat (getValuableBitsNumber signed min max).

Definition column (signed full : bool) (min max : Z) (blocks : list (list Z)) (tail : list Z) : bytes :=
  le_split 8 (u64 min) ++ le_split 8 (u64 max) ++
  (if decide (bits_of signed min max = 0%nat) then [] else body full (bits_of signed min max) blocks tail).

Section columns.
Context (signed full : bool) (w : nat) (Hv : valid_size (Z.of_nat w) = true).
Abbreviation wz := (Z.of_nat w).
Context (blocks : list (list Z)) (tail : list Z).
Context (Hblocks : Forall (λ b, length b = 64%nat) blocks) (Htail : (length tail < 64)%nat).
Abbreviation vs := (concat blocks ++ tail).
Context (Hvs : all_width w vs) (Hne : vs ≠ []).

Lemma count_spec : Z.of_nat (length vs) / 64 = Z.of_nat (length blocks) ∧ Z.of_nat (length vs) mod 64 = Z.of_nat (length tail).
Proof.
  rewrite length_app, length_blocks by done. split.
  - symmetry. apply Z.div_unique with (r := Z.of_nat (length tail)); lia.
  - symmetry. apply Z.mod_unique with (q := Z.of_nat (length blocks)); lia.
Qed.

Lemma size_spec : blen (enc w vs) / wz = Z.of_nat (length vs) ∧ blen (enc w vs) mod wz = 0.
Proof. pose proof (t64_width w Hv). rewrite blen_enc, Z.mul_comm. split; [apply Z.div_mul|apply Z.mod_mul]; lia. Qed.

Lemma blen_body nb : blen (body full nb blocks tail) =
  8 * Z.of_nat nb * (Z.of_nat (length blocks) + if decide (tail = []) then 0 else 1).
Proof.
  unfold body. rewrite blen_app. unfold blen. rewrite length_body_blocks.
  case_decide; [simpl; lia|]. rewrite length_stored. lia.
Qed.

(** The loop of [decompressData], and the values after it. *)
Lemma restore_column upper_min upper_max sign_bit nb pre post dest src :
  (nb ≤ 64)%nat → src = blen pre → blen (enc w vs) ≤ blen dest →
  (∀ v, v ∈ vs → restore signed upper_min upper_max sign_bit (v mod 2 ^ Z.of_nat nb) = v) →
  ('(src, dmem, dst) ← decompress_loop signed wz full (Z.of_nat nb) upper_min upper_max sign_bit (length blocks)
     (pre ++ body full nb blocks tail ++ post) src dest 0;
   if negb (Z.of_nat (length tail) =? 0) then
     restore_block signed wz full (Z.of_nat nb) upper_min upper_max sign_bit
       (pre ++ body full nb blocks tail ++ post) src dmem dst (length tail)
   else Ret dmem) = Ret (over (enc w vs) dest).
Proof.
  intros Hnb -> Hd Hr. rewrite enc_app, blen_app in Hd. pose proof (blen_nonneg (enc w tail)).
  apply Forall_app in Hvs as [Hw1 Hw2]. unfold body. rewrite <- (app_assoc (concat _)).
  pose proof (t64_decompress_loop signed w Hv full blocks pre
    ((if decide (tail = []) then [] else stored full tail nb) ++ post) [] dest nb upper_min upper_max sign_bit) as Hloop.
  rewrite over_nil, blen_nil in Hloop. rewrite Hloop by (done || lia || set_solver). cbn [mbind outcome_bind app].
  rewrite enc_app. case_decide as Ht.
  - rewrite Ht, enc_nil, app_nil_r. done.
  - assert (length tail ≠ 0%nat) by (by destruct tail). rewrite (proj2 (Z.eqb_neq _ 0)) by lia. cbn [negb].
    rewrite (app_assoc pre). rewrite restore_block_spec; try done; [| |apply restore_all; set_solver].
    + lia.
    + rewrite blen_app, blen_body_blocks. lia.
Qed.

Section bounded.
Context (min max : Z).
Context (Hmin : in_T signed wz min) (Hmax : in_T signed wz max) (Hle : min ≤ max) (Hbt : between signed w min max vs).
Abbreviation nb := (bits_of signed min max).

Lemma bits_spec : getValuableBitsNumber signed min max = Z.of_nat nb ∧ (nb ≤ 8 * w)%nat ∧ (w ≤ 8)%nat.
Proof.
  pose proof (t64_width w Hv). pose proof (valuable_range signed wz ltac:(lia) min max Hmin Hmax Hle).
  unfold bits_of. lia.
Qed.

Lemma blen_t64_column : 16 ≤ blen (column signed full min max blocks tail) ≤ 16 + blen (enc w vs) + 512.
Proof.
  unfold column. rewrite !blen_app, !blen_le_split. destruct bits_spec as (_ & Hb1 & Hb2).
  rewrite blen_enc, length_app, length_blocks by done.
  case_decide; [rewrite blen_nil; lia|]. rewrite blen_body. case_decide; nia.
Qed.

(** Every value is restored from its low bits. *)
Lemma column_restored v : nb ≠ 0%nat → v ∈ vs →
  let crosses := signed && (min <? 0) && (0 <=? max) && (Z.of_nat nb <? 64) in
  restore signed
    (if Z.of_nat nb <? 64 then wrap wz (u64 (Z.shiftl (Z.shiftr (u64 min) (Z.of_nat nb)) (Z.of_nat nb))) else 0)
    (if crosses then wrap wz (u64 (Z.shiftl (Z.shiftr (u64 max) (Z.of_nat nb)) (Z.of_nat nb))) else 0)
    (if crosses then wrap wz (u64 (Z.shiftl 1 (Z.of_nat nb - 1))) else 0) (v mod 2 ^ Z.of_nat nb) = v.
Proof.
  intros Hnb Hin. pose proof (t64_width w Hv). destruct bits_spec as (E & _).
  rewrite list_elem_of_lookup in Hin. destruct Hin as [i Hi].
  pose proof (Forall_lookup_1 _ _ _ _ Hvs Hi) as Hvw. pose proof (Forall_lookup_1 _ _ _ _ Hbt Hi) as Hr. simpl in Hr.
  pose proof (restore_value signed wz ltac:(lia) min max Hmin Hmax Hle (as_T signed wz v)) as H1.
  rewrite E, wrap_as_T in H1 by (done || lia). apply H1; [lia|done].
Qed.

Lemma as_T_min : as_T signed 8 (u64 min) = min ∧ as_T signed 8 (u64 max) = max.
Proof.
  pose proof (t64_width w Hv).
  assert (2 ^ (8 * wz) ≤ 2 ^ 64) by (apply Z.pow_le_mono_r; lia).
  assert (2 ^ (8 * wz - 1) ≤ 2 ^ 63) by (apply Z.pow_le_mono_r; lia).
  destruct signed; simpl in *; split; (apply to_signed_id || apply wrap_small); zlia.
Qed.

Lemma fill_loop_spec x n dpre dest dst : dst = blen dpre → blen dpre + wz * Z.of_nat n ≤ blen dest →
  fill_loop wz (over dpre dest) dst x n = Ret (over (dpre ++ enc w (replicate n x)) dest).
Proof.
  revert dpre dst. induction n as [|n IH]; intros dpre dst -> Hd; cbn [fill_loop].
  - cbn [replicate]. by rewrite enc_nil, app_nil_r.
  - rewrite store_over by nia. cbn [mbind outcome_bind]. rewrite Nat2Z.id, IH by (rewrite ?blen_app, ?blen_le_split; nia).
    cbn [replicate]. by rewrite enc_cons, <- app_assoc.
Qed.

Lemma constant_column : nb = 0%nat → vs = replicate (length vs) (wrap wz min).
Proof.
  intros Hnb. pose proof (t64_width w Hv). destruct bits_spec as (E & _). rewrite Hnb in E.
  pose proof (valuable_none signed wz ltac:(lia) min max Hmin Hmax Hle E) as <-.
  symmetry. apply replicate_as_Forall. split; [done|]. unfold between in Hbt.
  apply Forall_lookup. intros i v Hi.
  pose proof (Forall_lookup_1 _ _ _ _ Hvs Hi) as Hvw. pose proof (Forall_lookup_1 _ _ _ _ Hbt Hi) as Hr. simpl in Hr.
  replace min with (as_T signed wz v) by lia. apply wrap_as_T; [lia|done].
Qed.

Lemma t64_decompressData post dest :
  blen (enc w vs) < 2 ^ 31 → blen (enc w vs) ≤ blen dest →
  decompressData signed wz full (column signed full min max blocks tail ++ post)
    (blen (column signed full min max blocks tail)) dest (blen (enc w vs)) = Ret (over (enc w vs) dest).
Proof.
  intros Hsz Hd. pose proof (t64_width w Hv). pose proof blen_t64_column as Hcol. unfold decompressData.
  assert (64 * Z.of_nat (length blocks) + Z.of_nat (length tail) < 2 ^ 31) as Hcnt.
  { rewrite blen_enc, length_app, length_blocks in Hsz by done. nia. }
  destruct size_spec as [-> ->], as_T_min as [Hmin64 Hmax64], bits_spec as (Hnb & Hnb1 & Hnb2).
  rewrite (throw_if_false (_ <? _)) by (apply Z.ltb_ge; lia). cbn [mbind outcome_bind throw_if negb Z.eqb].
  assert (column signed full min max blocks tail ++ post = le_split 8 (u64 min) ++ le_split 8 (u64 max) ++
    (if decide (nb = 0%nat) then [] else body full nb blocks tail) ++ post) as ->
    by (unfold column; by rewrite <- !app_assoc).
  replace (load 8 _ 0) with (Ret (u64 min)) by (symmetry; apply (load_prefix 8); apply (wrap_in_width 8)).
  cbn [mbind outcome_bind]. rewrite (load_app 8 (le_split 8 (u64 min)) (le_split 8 (u64 max))) by done.
  rewrite le_combine_split by (apply (wrap_in_width 8)). cbn [mbind outcome_bind]. rewrite Hmin64, Hmax64, Hnb.
  destruct (Z.eqb_spec (Z.of_nat nb) 0) as [E|E].
  { rewrite <- (over_nil dest) at 1. rewrite Nat2Z.id, fill_loop_spec by (rewrite ?blen_enc in *; rewrite ?blen_nil; lia).
    rewrite <- constant_column by lia. done. }
  assert (blen (column signed full min max blocks tail) - 2 * 8 = blen (body full nb blocks tail)) as ->.
  { unfold column. rewrite !blen_app, !blen_le_split, decide_False by lia. lia. }
  rewrite decide_False by lia. destruct count_spec as [_ ->].
  rewrite blen_body. set (k := Z.of_nat (length blocks) + if decide (tail = []) then 0 else 1).
  assert (0 < k) as Hk.
  { unfold k. case_decide as Ht; [|lia]. destruct blocks; [|simpl; lia]. by rewrite Ht in Hne. }
  rewrite (Z.mul_comm (8 * Z.of_nat nb) k), Z.mod_mul, Z.div_mul by lia.
  rewrite (throw_if_false (_ || _)) by (rewrite (proj2 (Z.eqb_neq (k * (8 * Z.of_nat nb)) 0)) by nia; done). cbn [mbind outcome_bind].
  assert ((if negb (Z.of_nat (length tail) =? 0) then u32 (k - 1) else k) = Z.of_nat (length blocks)) as ->.
  { unfold k. case_decide as Ht; [rewrite Ht; simpl; lia|]. destruct tail; [done|]. simpl negb. cbv match.
    rewrite wrap_small by zlia. lia. }
  rewrite throw_if_false.
  2: { rewrite length_app, length_blocks by done. rewrite wrap_small by zlia. apply negb_false_iff, Z.eqb_eq. lia. }
  cbn [mbind outcome_bind]. rewrite !Nat2Z.id, (app_assoc (le_split 8 (u64 min))).
  apply restore_column; [lia|done|done|]. intros v Hin. apply column_restored; [lia|done].
Qed.
End bounded.

Lemma t64_compressData post dest :
  blen (enc w vs) < 2 ^ 31 → 16 + blen (enc w vs) + 512 ≤ blen dest →
  ∃ min max,
    compressData signed wz full (enc w vs ++ post) (blen (enc w vs)) dest =
      Ret (over (column signed full min max blocks tail) dest, blen (column signed full min max blocks tail)) ∧
    in_T signed wz min ∧ in_T signed wz max ∧ min ≤ max ∧ between signed w min max vs.
Proof.
  intros Hsz Hd. pose proof (t64_width w Hv). unfold compressData. destruct size_spec as [-> ->], count_spec as [-> ->].
  destruct (findMinMax_spec signed w Hv vs post Hvs Hne) as (min & max & -> & Hmin & Hmax & Hle & Hbt).
  exists min, max. split; [|done]. cbn [throw_if negb Z.eqb mbind outcome_bind].
  pose proof (blen_t64_column min max Hmin Hmax Hle) as Hcol. pose proof (blen_nonneg (enc w vs)).
  destruct (bits_spec min max Hmin Hmax Hle) as (Hnb & Hnb1 & Hnb2). rewrite Hnb. set (nb := bits_of signed min max) in *.
  replace (store 8 dest 0 (u64 min)) with (Ret (over (le_split 8 (u64 min)) dest))
    by (symmetry; apply (write_first (le_split 8 (u64 min))); rewrite blen_le_split; lia).
  cbn [mbind outcome_bind]. rewrite store_over by (rewrite ?blen_le_split; lia). cbn [mbind outcome_bind].
  change (Z.to_nat 8) with 8%nat. set (hdr := le_split 8 (u64 min) ++ le_split 8 (u64 max)).
  assert (blen hdr = 2 * 8) as Hh by done. unfold column in *. fold nb in Hcol |- *.
  rewrite (app_assoc (le_split 8 (u64 min))) in Hcol |- *. fold hdr in Hcol |- *. rewrite blen_app, Hh in Hcol |- *.
  destruct (Z.eqb_spec (Z.of_nat nb) 0) as [E|E].
  { rewrite decide_True by lia. by rewrite app_nil_r. }
  rewrite decide_False in Hcol |- * by lia. rewrite blen_body in Hcol |- *. unfold body in *.
  apply Forall_app in Hvs as [Hw1 Hw2]. rewrite !Nat2Z.id.
  pose proof (t64_compress_loop w Hv full blocks [] (enc w tail ++ post) hdr dest nb Hblocks Hw1 ltac:(lia)) as Hloop.
  rewrite enc_app, <- app_assoc. cbn [app] in Hloop. rewrite blen_nil, Hh in Hloop. rewrite Hloop by (case_decide; lia). cbn [mbind outcome_bind].
  rewrite (wrap_small 4 (Z.of_nat (length blocks) * _)) by (case_decide; zlia).
  case_decide as Ht.
  - rewrite Ht. change (negb (Z.of_nat (length []) =? 0)) with false. cbv match. cbn [mbind outcome_bind].
    rewrite app_nil_r, wrap_small by zlia.
    apply (f_equal Ret), pair_equal_spec. split; [done|lia].
  - rewrite ?decide_False in Hcol by done.
    assert (length tail ≠ 0%nat) by (by destruct tail). rewrite (proj2 (Z.eqb_neq _ 0)) by lia. cbn [negb].
    rewrite load_buf_spec by (done || lia). cbn [mbind outcome_bind].
    rewrite transpose_spec; try done; try lia.
    + cbn [mbind outcome_bind]. rewrite (wrap_small 4 (_ * (8 * _) + _)), wrap_small by zlia. rewrite <- app_assoc.
      apply (f_equal Ret), pair_equal_spec. split; [done|lia].
    + rewrite blen_app, blen_body_blocks. lia.
    + rewrite blen_app, blen_body_blocks. lia.
Qed.
End columns.

Lemma transpose64x8_bytes l : is_bytes (transpose64x8 l).
Proof. apply enc_bytes. Qed.

Lemma stored_bytes full vs nb : is_bytes (stored full vs nb).
Proof.
  unfold stored. apply Forall_app. split; [|apply Forall_take, transpose64x8_bytes].
  apply Forall_concat, Forall_fmap, Forall_forall. intros j _.
  change (is_bytes (stored_line full (line vs j))). destruct full; [apply transpose64x8_bytes|apply line_bytes].
Qed.

Lemma body_bytes full nb blocks tail : is_bytes (body full nb blocks tail).
Proof.
  unfold body. apply Forall_app. split.
  - apply Forall_concat, Forall_fmap, Forall_forall. intros b _.
    change (is_bytes (stored full b nb)). apply stored_bytes.
  - case_decide; [constructor|apply stored_bytes].
Qed.

(** * The codec *)

Definition codec (ec : ErrorCode) (type_idx : option TypeIndex.t) (variant : Variant) : codec := {|
  getMethodByte := method_byte CodecBase.T64;
  CodecBase.doCompressData := doCompressData type_idx variant;
  CodecBase.doDecompressData := doDecompressData;
  CodecBase.getMaxCompressedDataSize := getMaxCompressedDataSize;
  getAdditionalSizeAtTheEndOfBuffer := 0;
  decompression_error_code := ec;
|}.

(** The integers that the values of a type are compressed as. *)
Definition type_width (t : TypeIndex.t) : option (bool * nat) :=
  match baseType t with
  | TypeIndex.Int8 => Some (true, 1)
  | TypeIndex.Int16 => Some (true, 2)
  | TypeIndex.Int32 => Some (true, 4)
  | TypeIndex.Int64 => Some (true, 8)
  | TypeIndex.UInt8 => Some (false, 1)
  | TypeIndex.UInt16 => Some (false, 2)
  | TypeIndex.UInt32 => Some (false, 4)
  | TypeIndex.UInt64 => Some (false, 8)
  | _ => None
  end%nat.

Definition is_full (v : Variant) : bool := match v with Bit => true | Byte => false end.

(** The first byte of the data. *)
Definition cookie (t : TypeIndex.t) (v : Variant) : Z :=
  match serializeTypeId (Some t) with
  | Ret m => magic_byte m + 128 * variant_bit v
  | _ => 0
  end.

Lemma type_width_valid t signed w : type_width t = Some (signed, w) → valid_size (Z.of_nat w) = true.
Proof. by destruct t; intros [= <- <-]. Qed.

Lemma cookie_byte t v : is_byte (cookie t v).
Proof. unfold is_byte. by destruct t, v. Qed.

Lemma doCompressData_eq t v signed w src src_size dst :
  type_width t = Some (signed, w) →
  doCompressData (Some t) v src src_size dst =
    (dst ← write_bytes dst 0 [cookie t v];
     '(dst, size) ← on_tail dst 1 (λ dst, compressData signed (Z.of_nat w) (is_full v) src src_size dst);
     Ret (dst, u32 (1 + size))).
Proof. by destruct t; intros [= <- <-]; destruct v. Qed.

Lemma doDecompressData_eq t v signed w src src_size dst uncompressed_size :
  type_width t = Some (signed, w) → 0 < src_size →
  doDecompressData (cookie t v :: src) src_size dst uncompressed_size =
    decompressData signed (Z.of_nat w) (is_full v) src (src_size - 1) dst uncompressed_size.
Proof.
  intros Ht Hs. unfold doDecompressData. rewrite throw_if_false by (apply Z.eqb_neq; lia).
  cbn [mbind outcome_bind]. rewrite load_first.
  replace (tail_at _ 1) with (Ret src) by (symmetry; by apply (tail_at_app [cookie t v] src)). cbn [mbind outcome_bind].
  destruct t; try discriminate Ht; injection Ht as <- <-; by destruct v.
Qed.

(** Sources of whole values are compressed without loss. *)
Lemma t64_undo t v signed w source tail dest :
  type_width t = Some (signed, w) →
  is_bytes source → 0 < blen source < 2 ^ 31 → blen source mod Z.of_nat w = 0 →
  getMaxCompressedDataSize (blen source) ≤ blen dest →
  ∃ out,
    doCompressData (Some t) v (source ++ tail) (blen source) dest = Ret (over out dest, blen out) ∧
    is_bytes out ∧ blen out ≤ getMaxCompressedDataSize (blen source) ∧
    ∀ tail' dest', blen source ≤ blen dest' →
      doDecompressData (out ++ tail') (blen out) dest' (blen source) = Ret (over source dest').
Proof.
  intros Ht Hb Hs Hal Hmax. pose proof (type_width_valid t signed w Ht) as Hv. pose proof (t64_width w Hv) as Hw.
  unfold getMaxCompressedDataSize, MAX_COMPRESSED_BLOCK_SIZE, HEADER_SIZE in *. rewrite wrap_small in Hmax |- * by zlia.
  destruct (split_source w source) as (skipped & vs & -> & Hvs & _ & Hsk); [lia|done|].
  rewrite Hal in Hsk. apply blen_0_nil in Hsk as ->. cbn [app] in *.
  destruct (chunks vs) as (blocks & tl & -> & Hbl & Htl).
  assert (concat blocks ++ tl ≠ []) as Hne by (intros E; rewrite E, enc_nil, blen_nil in Hs; lia).
  rewrite (doCompressData_eq t v signed w) by done.
  rewrite write_first by (change (blen [cookie t v]) with 1; lia). cbn [mbind outcome_bind].
  destruct (t64_compressData signed (is_full v) w Hv blocks tl Hbl Htl Hvs Hne tail (drop 1 dest))
    as (min & max & Hc & Hmin & Hmax' & Hle & Hbt); [lia|rewrite blen_drop; lia|].
  pose proof (blen_t64_column signed (is_full v) w Hv blocks tl Hbl Htl min max Hmin Hmax' Hle) as Hcol.
  erewrite (on_tail_over [cookie t v]) by (done || exact Hc). cbn [mbind outcome_bind].
  exists ([cookie t v] ++ column signed (is_full v) min max blocks tl).
  rewrite blen_app. change (blen [cookie t v]) with 1. rewrite wrap_small by zlia. split_and!; [done| |lia|].
  - apply Forall_app. split; [constructor; [apply cookie_byte|constructor]|].
    unfold column, body. rewrite !Forall_app. split_and!; [auto with codec..|].
    case_decide; [constructor|]. apply body_bytes.
  - intros tail' dest' Hd'. cbn [app]. rewrite (doDecompressData_eq t v signed w) by (done || lia).
    rewrite Z.add_simpl_l. apply t64_decompressData; try done; lia.
Qed.

Lemma t64_correct ec t v signed w :
  type_width t = Some (signed, w) →
  CodecCorrect (codec ec (Some t) v) (λ source, 0 < blen source < 2 ^ 31 ∧ blen source mod Z.of_nat w = 0).
Proof.
  intros Ht. split; [unfold is_byte; simpl; lia|simpl; lia|].
  intros source tail dest Hb [Hs Hal] Hmax.
  destruct (t64_undo t v signed w source tail dest Ht Hb Hs Hal Hmax) as (out & Hc & Ho & Hl & Hun).
  exists out. split_and!; [done|done|done|]. intros tail' dest' _ Hd'. cbn [getAdditionalSizeAtTheEndOfBuffer codec] in *.
  eexists. split; [apply Hun; lia|]. apply blen_over. lia.
Qed.

(** * Any data *)

Lemma valuable_u64 a b : 0 ≤ a < 2 ^ 64 → 0 ≤ b < 2 ^ 64 → 0 ≤ getValuableBitsNumber_UInt64 a b ≤ 64.
Proof.
  intros Ha Hb. pose proof (lxor_range a b 64 ltac:(lia) Ha Hb). unfold getValuableBitsNumber_UInt64.
  destruct (Z.eqb_spec (Z.lxor a b) 0); cbn [negb]; [lia|].
  pose proof (Z.log2_nonneg (Z.lxor a b)). pose proof (proj1 (Z.log2_lt_pow2 (Z.lxor a b) 64 ltac:(lia)) ltac:(lia)). lia.
Qed.

Lemma valuable_any signed a b : 0 ≤ a < 2 ^ 64 → 0 ≤ b < 2 ^ 64 →
  0 ≤ getValuableBitsNumber signed (as_T signed 8 a) (as_T signed 8 b) ≤ 64.
Proof.
  intros Ha Hb. destruct signed; simpl; [|by apply valuable_u64].
  pose proof (to_signed_range 8 a ltac:(lia)) as Ra. pose proof (to_signed_range 8 b ltac:(lia)) as Rb.
  set (x := to_signed 8 a) in *. set (y := to_signed 8 b) in *. clearbody x y. unfold getValuableBitsNumber_Int64.
  destruct (Z.ltb_spec x 0), (Z.leb_spec 0 y); cbn [andb]; try (apply valuable_u64; apply (wrap_range 8); lia).
  pose proof (valuable_crossing 8 x y ltac:(lia) ltac:(lia) ltac:(lia)) as (Hn & _).
  unfold getValuableBitsNumber_Int64 in Hn.
  rewrite (proj2 (Z.ltb_lt x 0)), (proj2 (Z.leb_le 0 y)) in Hn by lia. cbn [andb] in Hn. lia.
Qed.

Lemma length_fold_alter (f : nat → Z → Z) l (buf : list Z) :
  length (fold_left (λ buf col, alter (f col) col buf) l buf) = length buf.
Proof. revert buf. induction l as [|c l IH]; intros buf; cbn [fold_left]; [done|]. rewrite IH. apply length_alter. Qed.

Section any_data.
Context (signed full : bool) (w : nat) (Hv : valid_size (Z.of_nat w) = true).
Abbreviation wz := (Z.of_nat w).
Context (nb : Z) (Hnb : 0 ≤ nb ≤ 64) (um ux sb : Z) (mem : bytes).

Lemma restore_block_safe src dmem dst tail :
  (tail ≤ 64)%nat → 0 ≤ src → src + 8 * nb ≤ blen mem → 0 ≤ dst → dst + wz * Z.of_nat tail ≤ blen dmem →
  safe (restore_block signed wz full nb um ux sb mem src dmem dst tail)
    (λ d, blen d = blen dmem ∧ (is_bytes dmem → is_bytes d)).
Proof.
  intros Ht Hs Hsm Hd Hdm. unfold restore_block, reverseTranspose.
  destruct (read_bytes_safe mem src (nb * 8)) as (chunk & -> & Hc & _); [lia..|]. cbn [mbind outcome_bind].
  destruct (write_bytes_safe (replicate 512 0) 0 chunk) as (m & -> & _ & _);
    [lia|rewrite blen_replicate; lia|]. cbn [mbind outcome_bind].
  match goal with |- context [restoreUpperBits _ ?b _ _ _ _] => set (buf := b) end.
  assert (length (restoreUpperBits signed buf um ux sb tail) = 64%nat) as Hl.
  { unfold restoreUpperBits. case_match.
    - rewrite (length_fold_alter (λ _ value, if negb (Z.land value sb =? 0) then Z.lor value um else Z.lor value ux)).
      unfold buf. by rewrite length_fold_alter.
    - rewrite (length_fold_alter (λ _ value, Z.lor value um)). unfold buf. by rewrite length_fold_alter. }
  unfold store_buf. rewrite Nat2Z.id.
  destruct (write_bytes_safe dmem dst (enc w (take tail (restoreUpperBits signed buf um ux sb tail)))) as (d & -> & Hdl & Hdb);
    [lia|rewrite blen_enc, length_take, Hl; nia|]. simpl. auto with codec.
Qed.

Lemma t64_decompress_loop_safe num_full src dmem dst :
  is_bytes dmem → 0 ≤ src → src + 8 * nb * Z.of_nat num_full ≤ blen mem →
  0 ≤ dst → dst + wz * 64 * Z.of_nat num_full ≤ blen dmem →
  safe (decompress_loop signed wz full nb um ux sb num_full mem src dmem dst)
    (λ '(src', d, dst'), src' = src + 8 * nb * Z.of_nat num_full ∧ dst' = dst + wz * 64 * Z.of_nat num_full ∧
      blen d = blen dmem ∧ is_bytes d).
Proof.
  revert src dmem dst. induction num_full as [|n IH]; intros src dmem dst Hb Hs Hsm Hd Hdm; cbn [decompress_loop].
  - simpl. split_and!; (done || lia).
  - rewrite Nat2Z.inj_succ, !Z.mul_succ_r in *.
    assert (0 ≤ 8 * nb * Z.of_nat n ∧ 0 ≤ wz * 64 * Z.of_nat n) as [? ?] by (split; nia).
    eapply safe_bind; [apply restore_block_safe; lia|]. intros d [Hdl Hdb]. cbv beta in *.
    eapply safe_mono; [apply IH; [auto|lia..]|]. intros [[src' d'] dst'] (-> & -> & ? & ?).
    split_and!; (done || lia).
Qed.

Lemma fill_loop_safe dmem dst x n :
  is_bytes dmem → 0 ≤ dst → dst + wz * Z.of_nat n ≤ blen dmem →
  safe (fill_loop wz dmem dst x n) (λ d, blen d = blen dmem ∧ is_bytes d).
Proof.
  clear. revert dmem dst. induction n as [|n IH]; intros dmem dst Hb Hd Hdm; cbn [fill_loop]; [by simpl|].
  destruct (store_safe wz dmem dst x) as (d & -> & Hdl & Hdb); [lia|lia|nia|]. cbn [mbind outcome_bind].
  eapply safe_mono; [apply IH; [auto|lia|nia]|]. intros d' [? ?]. split; [lia|done].
Qed.
End any_data.

Lemma decompressData_safe signed full w mem bytes_size dmem usize :
  valid_size (Z.of_nat w) = true → is_bytes mem → is_bytes dmem →
  0 ≤ bytes_size ≤ blen mem → bytes_size < 2 ^ 32 → 0 ≤ usize ≤ blen dmem → usize < 2 ^ 32 →
  safe (decompressData signed (Z.of_nat w) full mem bytes_size dmem usize) (λ d, blen d = blen dmem ∧ is_bytes d).
Proof.
  intros Hv Hm Hd Hbs Hbs32 Hu Hu32. pose proof (t64_width w Hv) as Hw. unfold decompressData.
  destruct (Z.ltb_spec bytes_size (2 * 8)); [done|]. cbn [throw_if mbind outcome_bind].
  destruct (Z.eqb_spec (usize mod Z.of_nat w) 0) as [Hal|]; [|done]. cbn [negb throw_if mbind outcome_bind].
  destruct (load_safe 8 mem 0 Hm) as (a & -> & Ha); [lia..|]. cbn [mbind outcome_bind].
  destruct (load_safe 8 mem 8 Hm) as (b & -> & Hb); [lia..|]. cbn [mbind outcome_bind].
  pose proof (valuable_any signed a b Ha Hb) as Hnb. set (nb := getValuableBitsNumber signed _ _) in *.
  set (n := usize / Z.of_nat w). assert (usize = Z.of_nat w * n) as Hn
    by (unfold n; pose proof (Z.div_mod usize (Z.of_nat w)); lia). assert (0 ≤ n) by (apply Z.div_pos; lia).
  destruct (Z.eqb_spec nb 0) as [E|E]; [apply fill_loop_safe; [done|lia|rewrite Z2Nat.id; lia]|].
  set (rest := bytes_size - 2 * 8). set (k := rest / (8 * nb)).
  destruct (Z.eqb_spec rest 0) as [|Hrest]; [done|].
  destruct (Z.eqb_spec (rest mod (8 * nb)) 0) as [Hmod|]; [|done]. cbn [orb negb throw_if mbind outcome_bind].
  assert (rest = 8 * nb * k) as Hk by (unfold k; pose proof (Z.div_mod rest (8 * nb)); lia).
  assert (0 < k ≤ rest) as Hk0 by nia.
  pose proof (Z.mod_pos_bound n 64 ltac:(lia)) as Ht. set (tl := n mod 64) in *.
  set (num_full := if negb (tl =? 0) then u32 (k - 1) else k).
  assert (num_full = k - (if tl =? 0 then 0 else 1)) as Hnf.
  { unfold num_full. destruct (Z.eqb_spec tl 0); cbn [negb]; [lia|]. apply wrap_small. unfold rest in *. zlia. }
  clearbody num_full.
  rewrite (wrap_small 8 (num_full * 64 + tl)) by (unfold rest in *; destruct (tl =? 0); zlia).
  destruct (Z.eqb_spec (num_full * 64 + tl) n) as [Hexp|]; [|done]. cbn [negb throw_if mbind outcome_bind].
  assert (0 ≤ num_full) by (destruct (tl =? 0); lia).
  eapply safe_bind; [apply t64_decompress_loop_safe; [lia|done|lia| |lia|]; rewrite Z2Nat.id by done|].
  - unfold rest in *. destruct (tl =? 0); nia.
  - nia.
  - rewrite Z2Nat.id by done. intros [[src d] dst] (-> & -> & Hdl & Hdb). destruct (Z.eqb_spec tl 0); cbn [negb]; [by simpl|].
    eapply safe_mono; [apply restore_block_safe; [lia|lia|nia| |nia|]|].
    + unfold rest in *. nia.
    + rewrite Z2Nat.id by lia. nia.
    + simpl. intros d' [? ?]. split; [lia|auto].
Qed.

#[global] Instance t64_safe ec t v : CodecSafe (codec ec t v).
Proof.
  split. intros source ssize dest usize Hb Hd Hs Hs32 Hsrc Hu Hu32 Hdst. simpl in *.
  unfold doDecompressData. destruct (Z.eqb_spec ssize 0); [done|]. cbn [throw_if mbind outcome_bind].
  destruct (load_safe 1 source 0 Hb) as (c & -> & Hc); [lia..|]. cbn [mbind outcome_bind].
  destruct (tail_at_safe source 1) as (src & -> & _ & Hsl & Hsb); [lia|]. cbn [mbind outcome_bind].
  destruct (deserializeTypeId (Z.land c 127)) as [t'| | |] eqn:Et; [|done| |].
  - cbn [mbind outcome_bind]. unfold decompressData_variant.
    destruct (baseType t'); try done; (destruct (Z.shiftr c 7 =? 1));
      match goal with |- safe (decompressData ?s ?w ?f _ _ _ _) _ =>
        let n := eval vm_compute in (Z.to_nat w) in apply (decompressData_safe s f n); (done || lia || auto) end.
  - unfold deserializeTypeId in Et. by repeat case_match.
  - unfold deserializeTypeId in Et. by repeat case_match.
Qed.

(** * Theorems *)

(** C35: for every type T64 supports, for both variants and for every source of less than
    [2 ^ 31] bytes that consists of whole values, T64 writes within the size it reserved,
    and decompression of what it wrote gives the source back. *)
Theorem t64_roundtrip (t : TypeIndex.t) (v : Variant) (signed : bool) (w : nat) (source dest dest' tail : bytes) :
  type_width t = Some (signed, w) →
  is_bytes source → 0 < blen source < 2 ^ 31 → blen source mod Z.of_nat w = 0 →
  getMaxCompressedDataSize (blen source) ≤ blen dest → blen source ≤ blen dest' →
  ∃ out,
    doCompressData (Some t) v source (blen source) dest = Ret (over out dest, blen out) ∧
    blen out ≤ getMaxCompressedDataSize (blen source) ∧
    doDecompressData (out ++ tail) (blen out) dest' (blen source) = Ret (over source dest').
Proof.
  intros Ht Hb Hs Hal Hd Hd'.
  destruct (t64_undo t v signed w source [] dest Ht Hb Hs Hal Hd) as (out & Hc & _ & Hl & Hun).
  rewrite app_nil_r in Hc. exists out. auto.
Qed.

Lemma t64_roundtrip_witness :
  ∃ out,
    doCompressData (Some TypeIndex.Enum16) Bit [10; 0; 20; 0; 25; 255] (blen [10; 0; 20; 0; 25; 255]) (replicate 535 0) =
      Ret (over out (replicate 535 0), blen out) ∧
    blen out ≤ getMaxCompressedDataSize (blen [10; 0; 20; 0; 25; 255]) ∧
    doDecompressData (out ++ [1]) (blen out) (replicate 6 7) (blen [10; 0; 20; 0; 25; 255]) =
      Ret (over [10; 0; 20; 0; 25; 255] (replicate 6 7)).
Proof.
  apply (t64_roundtrip TypeIndex.Enum16 Bit false 2 [10; 0; 20; 0; 25; 255] (replicate 535 0) (replicate 6 7) [1]);
    [done|by apply is_bytes_compute|vm_compute; split; congruence|done|vm_compute; congruence|vm_compute; congruence].
Defined.

(** Whatever the data, T64 decompression has no undefined behaviour: it fails with an
    exception, or it writes within the destination. *)
Theorem t64_decompress_never_ub (source dest : bytes) (source_size uncompressed_size : Z) :
  is_bytes source → is_bytes dest → 0 ≤ source_size ≤ blen source → source_size < 2 ^ 32 →
  0 < uncompressed_size ≤ blen dest → uncompressed_size < 2 ^ 32 →
  safe (doDecompressData source source_size dest uncompressed_size) (λ dest', blen dest' = blen dest ∧ is_bytes dest').
Proof.
  intros Hs Hd Hss Hs32 Hu Hu32.
  apply (codec_safe (c := codec CANNOT_DECOMPRESS None Byte)); simpl; (done || lia).
Qed.

Lemma t64_decompress_never_ub_witness :
  safe (doDecompressData (255 :: replicate 30 129) 31 (replicate 8 0) 8)
    (λ dest', blen dest' = blen (replicate 8 0) ∧ is_bytes dest').
Proof.
  apply (t64_decompress_never_ub (255 :: replicate 30 129) (replicate 8 0) 31 8);
    [by apply is_bytes_compute|by apply is_bytes_compute|vm_compute; split; congruence|done|vm_compute; split; congruence|done].
Defined.

(** The number of a supported type is stored in a way that identifies it, and the
    types that are not supported are refused before anything is written. *)
Theorem t64_type_id_roundtrip (t : TypeIndex.t) :
  match serializeTypeId (Some t) with
  | Ret m => deserializeTypeId (magic_byte m) = Ret t ∧ typeIdx (Some t) = t ∧ is_Some (type_width t)
  | Throw e => e = LOGICAL_ERROR ∧ typeIdx (Some t) = TypeIndex.Nothing ∧ type_width t = None
  | _ => False
  end.
Proof. destruct t; vm_compute; eauto. Qed.
End T64.
