(* ===== verification/CodecFPC.v ===== *)
(** The codec FPC (src/src/Compression/CompressionCodecFPC.cpp): floating-point values
    predicted from the previous ones, with the leading zero bytes of the differences
    cropped. *)

From S2P Require Import Prelude CodecBase.
From stdpp Require Import base tactics list numbers.
Local Open Scope Z_scope.

Module FPC.

Definition MAX_COMPRESSION_LEVEL : Z := 28.
Definition DEFAULT_COMPRESSION_LEVEL : Z := 12.
Definition HEADER_SIZE : Z := 2.

Definition getMaxCompressedDataSize (float_width uncompressed_size : Z) : outcome Z :=
  _ ← ub_unless (negb (float_width =? 0));
  let float_count := u32 (uncompressed_size + float_width - 1) / float_width in
  let float_count := if negb (float_count mod 2 =? 0) then u32 (float_count + 1) else float_count in
  Ret (u32 (HEADER_SIZE + float_count * float_width + float_count / 2)).

(** ** Predictors *)

(** [table[i]] and [table[i] = x] of a [std::vector]. *)
Definition vec_at (table : list Z) (i : Z) : outcome Z :=
  match table !! Z.to_nat i with Some x => Ret x | None => UB end.

Definition vec_set (table : list Z) (i x : Z) : outcome (list Z) :=
  match table !! Z.to_nat i with Some _ => Ret (<[Z.to_nat i := x]> table) | None => UB end.

Record DfcmPredictor := mkDfcm { dfcm_table : list Z; dfcm_prev_value : Z; dfcm_hash : Z }.

Definition DfcmPredictor_create (table_size : nat) : DfcmPredictor := mkDfcm (replicate table_size 0) 0 0.

Definition dfcm_predict (w : Z) (p : DfcmPredictor) : outcome Z :=
  x ← vec_at (dfcm_table p) (dfcm_hash p);
  Ret (wrap w (x + dfcm_prev_value p)).

Definition dfcm_recalculateHash (w : Z) (p : DfcmPredictor) : outcome DfcmPredictor :=
  value ← vec_at (dfcm_table p) (dfcm_hash p);
  let mask := u64 (Z.of_nat (length (dfcm_table p)) - 1) in
  let hash :=
    if 8 <=? w then Z.land (Z.lxor (u64 (Z.shiftl (dfcm_hash p) 2)) (Z.shiftr value 40)) mask
    else Z.land (Z.lxor (u64 (Z.shiftl (dfcm_hash p) 4)) (Z.shiftr value 23)) mask in
  Ret (mkDfcm (dfcm_table p) (dfcm_prev_value p) hash).

Definition dfcm_add (w : Z) (p : DfcmPredictor) (value : Z) : outcome DfcmPredictor :=
  table ← vec_set (dfcm_table p) (dfcm_hash p) (wrap w (value - dfcm_prev_value p));
  p ← dfcm_recalculateHash w (mkDfcm table (dfcm_prev_value p) (dfcm_hash p));
  Ret (mkDfcm (dfcm_table p) value (dfcm_hash p)).

Record FcmPredictor := mkFcm { fcm_table : list Z; fcm_hash : Z }.

Definition FcmPredictor_create (table_size : nat) : FcmPredictor := mkFcm (replicate table_size 0) 0.

Definition fcm_predict (p : FcmPredictor) : outcome Z := vec_at (fcm_table p) (fcm_hash p).

Definition fcm_recalculateHash (w : Z) (p : FcmPredictor) : outcome FcmPredictor :=
  value ← vec_at (fcm_table p) (fcm_hash p);
  let mask := u64 (Z.of_nat (length (fcm_table p)) - 1) in
  let hash :=
    if 8 <=? w then Z.land (Z.lxor (u64 (Z.shiftl (fcm_hash p) 6)) (Z.shiftr value 48)) mask
    else Z.land (Z.lxor (u64 (Z.shiftl (fcm_hash p) 1)) (Z.shiftr value 22)) mask in
  Ret (mkFcm (fcm_table p) hash).

Definition fcm_add (w : Z) (p : FcmPredictor) (value : Z) : outcome FcmPredictor :=
  table ← vec_set (fcm_table p) (fcm_hash p) value;
  fcm_recalculateHash w (mkFcm table (fcm_hash p)).

(** ** FPCOperation *)

Definition DFCM_BIT : Z := Z.shiftl 1 3.
Definition DFCM_BIT_1 : Z := Z.shiftl DFCM_BIT 4.
Definition DFCM_BIT_2 : Z := DFCM_BIT.
Definition FCM_BIT : Z := 0.
Definition MAX_ZERO_BYTE_COUNT : Z := 7.
Definition CHUNK_SIZE : Z := 64.

(** The span [result] is the part of the memory [mem] of [size] bytes from [pos] on. *)
Record FPCOperation := mkOp {
  dfcm_predictor : DfcmPredictor;
  fcm_predictor : FcmPredictor;
  mem : bytes;
  pos : Z;
  size : Z;
}.

Definition FPCOperation_create (dest : bytes) (pos size : Z) (compression_level : Z) : FPCOperation :=
  let table_size := Z.to_nat (Z.shiftl 1 compression_level) in
  mkOp (DfcmPredictor_create table_size) (FcmPredictor_create table_size) dest pos size.

(** [result = result.subspan(n)]. *)
Definition subspan_result (n : Z) (op : FPCOperation) : outcome FPCOperation :=
  _ ← ub_unless (n <=? size op);
  Ret (mkOp (dfcm_predictor op) (fcm_predictor op) (mem op) (pos op + n) (size op - n)).

(** [values.subspan(n)]. *)
Definition subspan (values : bytes) (n : Z) : outcome bytes :=
  _ ← ub_unless (n <=? blen values);
  Ret (drop (Z.to_nat n) values).

Section with_width.
Context (VALUE_SIZE : Z).

Definition ceilBytesToEvenValues (bytes_count : Z) : Z :=
  let values_count := (bytes_count + VALUE_SIZE - 1) / VALUE_SIZE in
  if values_count mod 2 =? 0 then values_count else values_count + 1.

(** The bytes of the array [chunk] after the call, and the number of values. *)
Definition importChunk (values : bytes) : bytes * Z :=
  let chunk_size := CHUNK_SIZE * VALUE_SIZE in
  if chunk_size <=? blen values then
    (take (Z.to_nat chunk_size) values, chunk_size / VALUE_SIZE)
  else
    (values ++ replicate (Z.to_nat (chunk_size - blen values)) 0, ceilBytesToEvenValues (blen values)).

Definition exportChunk (current_chunk : list Z) (op : FPCOperation) : outcome FPCOperation :=
  let chunk_view :=
    take (Z.to_nat (Z.min (size op) (Z.of_nat (length current_chunk) * VALUE_SIZE)))
      (enc (Z.to_nat VALUE_SIZE) current_chunk) in
  mem' ← write_bytes (mem op) (pos op) chunk_view;
  subspan_result (blen chunk_view) (mkOp (dfcm_predictor op) (fcm_predictor op) mem' (pos op) (size op)).

Definition encodeCompressedZeroByteCount (compressed : Z) : Z :=
  let compressed :=
    if (VALUE_SIZE =? MAX_ZERO_BYTE_COUNT + 1) && (4 <=? compressed) then compressed - 1 else compressed in
  Z.min compressed MAX_ZERO_BYTE_COUNT.

Definition decodeCompressedZeroByteCount (encoded_size : Z) : Z :=
  if (VALUE_SIZE =? MAX_ZERO_BYTE_COUNT + 1) && (3 <? encoded_size) then encoded_size + 1 else encoded_size.

(** [std::countl_zero]. *)
Definition countl_zero (x : Z) : Z := if x =? 0 then 8 * VALUE_SIZE else 8 * VALUE_SIZE - 1 - Z.log2 x.

Record CompressedValue := mkCompressed { value : Z; compressed_size : Z; predictor : Z }.

Definition compressValue (x : Z) (op : FPCOperation) : outcome (CompressedValue * FPCOperation) :=
  p ← dfcm_predict VALUE_SIZE (dfcm_predictor op);
  let compressed_dfcm := Z.lxor p x in
  p ← fcm_predict (fcm_predictor op);
  let compressed_fcm := Z.lxor p x in
  dfcm ← dfcm_add VALUE_SIZE (dfcm_predictor op) x;
  fcm ← fcm_add VALUE_SIZE (fcm_predictor op) x;
  let op := mkOp dfcm fcm (mem op) (pos op) (size op) in
  let zeroes_dfcm := countl_zero compressed_dfcm in
  let zeroes_fcm := countl_zero compressed_fcm in
  if zeroes_fcm <? zeroes_dfcm then
    Ret (mkCompressed compressed_dfcm (encodeCompressedZeroByteCount (zeroes_dfcm / 8)) DFCM_BIT, op)
  else
    Ret (mkCompressed compressed_fcm (encodeCompressedZeroByteCount (zeroes_fcm / 8)) FCM_BIT, op).

Definition encodePair (first second : Z) (op : FPCOperation) : outcome FPCOperation :=
  '(c1, op) ← compressValue first op;
  '(c2, op) ← compressValue second op;
  let header := 0 in
  let header := Z.lor header (Z.lor (u8 (Z.shiftl (predictor c1) 4)) (predictor c2)) in
  let header := Z.lor header (u8 (Z.lor (Z.shiftl (compressed_size c1) 4) (compressed_size c2))) in
  mem' ← write_bytes (mem op) (pos op) [header];
  let zero_byte_count1 := decodeCompressedZeroByteCount (compressed_size c1) in
  let zero_byte_count2 := decodeCompressedZeroByteCount (compressed_size c2) in
  let tail_size1 := VALUE_SIZE - zero_byte_count1 in
  let tail_size2 := VALUE_SIZE - zero_byte_count2 in
  let bytes_of x n := take (Z.to_nat n) (le_split (Z.to_nat VALUE_SIZE) x) in
  mem' ← write_bytes mem' (pos op + 1) (bytes_of (value c1) tail_size1);
  mem' ← write_bytes mem' (pos op + 1 + tail_size1) (bytes_of (value c2) tail_size2);
  subspan_result (1 + tail_size1 + tail_size2)
    (mkOp (dfcm_predictor op) (fcm_predictor op) mem' (pos op) (size op)).

(** [n] pairs of values of the array [chunk], from the byte [i] on. *)
Fixpoint encodeChunk (chunk : bytes) (i : Z) (n : nat) (op : FPCOperation) : outcome FPCOperation :=
  match n with
  | O => Ret op
  | S n =>
      x ← load VALUE_SIZE chunk i;
      y ← load VALUE_SIZE chunk (i + VALUE_SIZE);
      op ← encodePair x y op;
      encodeChunk chunk (i + 2 * VALUE_SIZE) n op
  end.

Fixpoint encode_loop (fuel : nat) (data : bytes) (i : Z) (op : FPCOperation) : outcome FPCOperation :=
  if i <? blen data then
    match fuel with
    | O => OutOfFuel
    | S fuel =>
        rest ← subspan data i;
        let '(chunk, written_values_count) := importChunk rest in
        op ← encodeChunk chunk 0 (Z.to_nat (written_values_count / 2)) op;
        encode_loop fuel data (i + CHUNK_SIZE * VALUE_SIZE) op
    end
  else Ret op.

Definition encode (data : bytes) (op : FPCOperation) : outcome (bytes * Z) :=
  let initial_size := size op in
  op ← encode_loop (length data) data 0 op;
  Ret (mem op, initial_size - size op).

Definition decompressValue (x : Z) (isDfcmPredictor : bool) (op : FPCOperation) : outcome (Z * FPCOperation) :=
  p ← (if isDfcmPredictor then dfcm_predict VALUE_SIZE (dfcm_predictor op) else fcm_predict (fcm_predictor op));
  let decompressed := Z.lxor p x in
  dfcm ← dfcm_add VALUE_SIZE (dfcm_predictor op) decompressed;
  fcm ← fcm_add VALUE_SIZE (fcm_predictor op) decompressed;
  Ret (decompressed, mkOp dfcm fcm (mem op) (pos op) (size op)).

Definition decodePair (bytes : bytes) (op : FPCOperation) : outcome (Z * Z * Z * FPCOperation) :=
  match bytes with
  | [] => Throw CANNOT_DECOMPRESS
  | front :: _ =>
      let zero_byte_count1 := decodeCompressedZeroByteCount (Z.land (Z.shiftr front 4) MAX_ZERO_BYTE_COUNT) in
      let zero_byte_count2 := decodeCompressedZeroByteCount (Z.land front MAX_ZERO_BYTE_COUNT) in
      _ ← throw_if ((VALUE_SIZE <? zero_byte_count1) || (VALUE_SIZE <? zero_byte_count2)) CANNOT_DECOMPRESS;
      let tail_size1 := VALUE_SIZE - zero_byte_count1 in
      let tail_size2 := VALUE_SIZE - zero_byte_count2 in
      let expected_size := tail_size1 + tail_size2 + 1 in
      _ ← throw_if (2 ^ 64 <=? expected_size) CANNOT_DECOMPRESS;
      _ ← throw_if (blen bytes <? expected_size) CANNOT_DECOMPRESS;
      tail1 ← read_bytes bytes 1 tail_size1;
      let value1 := le_combine tail1 in
      tail2 ← read_bytes bytes (1 + tail_size1) tail_size2;
      let value2 := le_combine tail2 in
      let is_dfcm_predictor1 := negb (Z.land front DFCM_BIT_1 =? 0) in
      let is_dfcm_predictor2 := negb (Z.land front DFCM_BIT_2 =? 0) in
      '(first, op) ← decompressValue value1 is_dfcm_predictor1 op;
      '(second, op) ← decompressValue value2 is_dfcm_predictor2 op;
      Ret (first, second, expected_size, op)
  end.

(** The values of the sequence, two for each of the [n] pairs, and the bytes read. *)
Fixpoint decodeChunk (values : bytes) (read_bytes : Z) (n : nat) (op : FPCOperation)
  : outcome (list Z * Z * FPCOperation) :=
  match n with
  | O => Ret ([], read_bytes, op)
  | S n =>
      rest ← subspan values read_bytes;
      '(x, y, k, op) ← decodePair rest op;
      '(seq, read_bytes, op) ← decodeChunk values (read_bytes + k) n op;
      Ret (x :: y :: seq, read_bytes, op)
  end.

Fixpoint decode_loop (fuel : nat) (values : bytes) (read_bytes : Z) (i decoded_size : Z) (op : FPCOperation)
  : outcome FPCOperation :=
  if i <? decoded_size then
    match fuel with
    | O => OutOfFuel
    | S fuel =>
        let count :=
          if decoded_size <? i + CHUNK_SIZE * VALUE_SIZE then ceilBytesToEvenValues (decoded_size - i)
          else CHUNK_SIZE in
        _ ← ub_unless (count <=? CHUNK_SIZE);
        rest ← subspan values read_bytes;
        '(chunk, k, op) ← decodeChunk rest 0 (Z.to_nat (count / 2)) op;
        op ← exportChunk chunk op;
        decode_loop fuel values (read_bytes + k) (i + count * VALUE_SIZE) decoded_size op
    end
  else Ret op.

Definition decode (values : bytes) (decoded_size : Z) (op : FPCOperation) : outcome bytes :=
  op ← decode_loop (Z.to_nat decoded_size) values 0 0 decoded_size op;
  Ret (mem op).
End with_width.

Definition doCompressData (float_width level : Z) (source : bytes) (source_size : Z) (dest : bytes)
  : outcome (bytes * Z) :=
  dest ← write_bytes dest 0 [float_width];
  dest ← write_bytes dest 1 [level];
  dest_size ← getMaxCompressedDataSize float_width source_size;
  src ← read_bytes source 0 source_size;
  let op := FPCOperation_create dest HEADER_SIZE (dest_size - HEADER_SIZE) level in
  if (float_width =? 8) || (float_width =? 4) then
    '(dest, n) ← encode float_width src op;
    Ret (dest, u32 (HEADER_SIZE + n))
  else Throw CANNOT_COMPRESS.

Definition doDecompressData (source : bytes) (source_size : Z) (dest : bytes) (uncompressed_size : Z)
  : outcome bytes :=
  _ ← throw_if (source_size <? HEADER_SIZE) CANNOT_DECOMPRESS;
  compressed_data ← read_bytes source 0 source_size;
  compressed_float_width ← load 1 compressed_data 0;
  compressed_level ← load 1 compressed_data 1;
  _ ← throw_if ((compressed_level =? 0) || (MAX_COMPRESSION_LEVEL <? compressed_level)) CANNOT_DECOMPRESS;
  src ← subspan compressed_data HEADER_SIZE;
  let op := FPCOperation_create dest 0 uncompressed_size compressed_level in
  if (compressed_float_width =? 8) || (compressed_float_width =? 4) then
    decode compressed_float_width src uncompressed_size op
  else Throw CANNOT_DECOMPRESS.

Definition codec (ec : ErrorCode) (float_width level : Z) : codec := {|
  getMethodByte := method_byte CodecBase.FPC;
  CodecBase.doCompressData := doCompressData float_width level;
  CodecBase.doDecompressData := doDecompressData;
  CodecBase.getMaxCompressedDataSize n :=
    match getMaxCompressedDataSize float_width n with Ret m => m | _ => 0 end;
  getAdditionalSizeAtTheEndOfBuffer := 0;
  decompression_error_code := ec;
|}.

(** * Predictors *)

Section predictors.
Context (w : nat) (level : Z) (Hlevel : 0 ≤ level ≤ 28).
Abbreviation wz := (Z.of_nat w).

Definition table_ok (table : list Z) (hash : Z) : Prop :=
  Z.of_nat (length table) = 2 ^ level ∧ all_width w table ∧ 0 ≤ hash < 2 ^ level.

Definition dfcm_ok (p : DfcmPredictor) : Prop :=
  table_ok (dfcm_table p) (dfcm_hash p) ∧ in_width w (dfcm_prev_value p).

Definition fcm_ok (p : FcmPredictor) : Prop := table_ok (fcm_table p) (fcm_hash p).

Lemma vec_at_ok table hash : table_ok table hash → ∃ x, vec_at table hash = Ret x ∧ in_width w x.
Proof.
  intros (Hl & Ht & Hh). unfold vec_at.
  destruct (lookup_lt_is_Some_2 table (Z.to_nat hash)) as [x Hx]; [lia|]. rewrite Hx.
  exists x. split; [done|]. by eapply Forall_lookup_1.
Qed.

Lemma vec_set_ok table hash x : table_ok table hash → in_width w x →
  ∃ table', vec_set table hash x = Ret table' ∧ table_ok table' hash.
Proof.
  intros (Hl & Ht & Hh) Hx. unfold vec_set.
  destruct (lookup_lt_is_Some_2 table (Z.to_nat hash)) as [y Hy]; [lia|]. rewrite Hy.
  eexists. split; [done|]. split_and!; [by rewrite length_insert|by apply Forall_insert|lia..].
Qed.

(** The mask keeps every hash within the table. *)
Lemma masked_hash table hash h k value : table_ok table hash → 0 ≤ h → 0 ≤ value → 0 ≤ k →
  0 ≤ Z.land (Z.lxor (u64 h) (Z.shiftr value k)) (u64 (Z.of_nat (length table) - 1)) < 2 ^ level.
Proof.
  intros (-> & _ & _) Hh Hv Hk. assert (2 ^ level ≤ 2 ^ 28) by (apply Z.pow_le_mono_r; lia).
  pose proof (Z.pow_pos_nonneg 2 level). rewrite (wrap_small 8 (_ - 1)) by zlia.
  rewrite land_low by lia. apply Z.mod_pos_bound. lia.
Qed.

Lemma dfcm_predict_ok p : dfcm_ok p → ∃ v, dfcm_predict wz p = Ret v ∧ in_width w v.
Proof.
  intros [Ht Hp]. unfold dfcm_predict. destruct (vec_at_ok _ _ Ht) as (x & -> & Hx).
  eexists. split; [done|]. apply wrap_in_width.
Qed.

Lemma fcm_predict_ok p : fcm_ok p → ∃ v, fcm_predict p = Ret v ∧ in_width w v.
Proof. apply vec_at_ok. Qed.

Lemma dfcm_add_ok p v : dfcm_ok p → in_width w v → ∃ p', dfcm_add wz p v = Ret p' ∧ dfcm_ok p'.
Proof.
  intros [Ht Hp] Hv. unfold dfcm_add.
  destruct (vec_set_ok _ _ (wrap wz (v - dfcm_prev_value p)) Ht (wrap_in_width w _)) as (t & -> & Ht').
  cbn [mbind outcome_bind]. unfold dfcm_recalculateHash. cbn [dfcm_table dfcm_hash dfcm_prev_value].
  destruct (vec_at_ok _ _ Ht') as (x & -> & Hx). cbn [mbind outcome_bind dfcm_table dfcm_hash].
  eexists. split; [done|]. split; [|done]. cbn [dfcm_table dfcm_hash]. destruct Hx as [Hx _].
  destruct Ht as (_ & _ & Hh). pose proof Ht' as (Hl & Ha & _).
  split; [done|]. split; [done|].
  destruct (8 <=? wz); (eapply masked_hash; [done|apply Z.shiftl_nonneg; lia|done|lia]).
Qed.

Lemma fcm_add_ok p v : fcm_ok p → in_width w v → ∃ p', fcm_add wz p v = Ret p' ∧ fcm_ok p'.
Proof.
  intros Ht Hv. unfold fcm_add. destruct (vec_set_ok _ _ v Ht Hv) as (t & -> & Ht').
  cbn [mbind outcome_bind]. unfold fcm_recalculateHash. cbn [fcm_table fcm_hash].
  destruct (vec_at_ok _ _ Ht') as (x & -> & Hx). cbn [mbind outcome_bind]. eexists. split; [done|].
  destruct Hx as [Hx _]. destruct Ht as (_ & _ & Hh). pose proof Ht' as (Hl & Ha & _).
  split; [done|]. split; [done|]. cbn [fcm_hash].
  destruct (8 <=? wz); (eapply masked_hash; [done|apply Z.shiftl_nonneg; lia|done|lia]).
Qed.

Lemma table_created : table_ok (replicate (Z.to_nat (Z.shiftl 1 level)) 0) 0.
Proof.
  pose proof (Z.pow_pos_nonneg 2 level). rewrite Z.shiftl_1_l.
  split_and!; [rewrite length_replicate; lia| |lia|lia].
  apply Forall_replicate. split; [lia|apply Z.pow_pos_nonneg; lia].
Qed.
End predictors.

(** * Pairs of values *)

Lemma take_le_split n w v : (n ≤ w)%nat → take n (le_split w v) = le_split n v.
Proof. revert w v. induction n as [|n IH]; intros [|w] v Hn; simpl; [done|done|lia|]. rewrite IH by lia. done. Qed.

Lemma lxor_cancel p x : Z.lxor p (Z.lxor p x) = x.
Proof. by rewrite <- Z.lxor_assoc, Z.lxor_nilpotent, Z.lxor_0_l. Qed.

(** The header of a pair: both predictors and both counts can be read back. *)
Definition pair_header (p1 p2 z1 z2 : Z) : Z :=
  Z.lor (Z.lor 0 (Z.lor (u8 (Z.shiftl p1 4)) p2)) (u8 (Z.lor (Z.shiftl z1 4) z2)).

Definition header_ok (p1 p2 z1 z2 : Z) : bool :=
  let h := pair_header p1 p2 z1 z2 in
  (Z.land (Z.shiftr h 4) MAX_ZERO_BYTE_COUNT =? z1) && (Z.land h MAX_ZERO_BYTE_COUNT =? z2)
  && Bool.eqb (negb (Z.land h DFCM_BIT_1 =? 0)) (p1 =? 8) && Bool.eqb (negb (Z.land h DFCM_BIT_2 =? 0)) (p2 =? 8)
  && (0 <=? h) && (h <? 256).

Lemma pair_header_spec p1 p2 z1 z2 :
  (p1 = 0 ∨ p1 = 8) → (p2 = 0 ∨ p2 = 8) → 0 ≤ z1 ≤ 7 → 0 ≤ z2 ≤ 7 → header_ok p1 p2 z1 z2 = true.
Proof.
  intros H1 H2 Hz1 Hz2.
  assert (forallb (λ p1, forallb (λ p2, forallb (λ z1, forallb (λ z2, header_ok p1 p2 (Z.of_nat z1) (Z.of_nat z2))
    (seq 0 8)) (seq 0 8)) [0; 8]) [0; 8] = true) as H by (by vm_compute).
  rewrite forallb_forall in H. specialize (H p1 ltac:(simpl; lia)). rewrite forallb_forall in H.
  specialize (H p2 ltac:(simpl; lia)). rewrite forallb_forall in H.
  specialize (H (Z.to_nat z1) ltac:(apply in_seq; lia)). rewrite forallb_forall in H.
  specialize (H (Z.to_nat z2) ltac:(apply in_seq; lia)). by rewrite !Z2Nat.id in H by lia.
Qed.

Section pairs.
Context (w : nat) (Hw : w = 4%nat ∨ w = 8%nat) (level : Z) (Hlevel : 0 ≤ level ≤ 28).
Abbreviation wz := (Z.of_nat w).

Lemma zero_bytes v : in_width w v →
  let e := encodeCompressedZeroByteCount wz (countl_zero wz v / 8) in
  let z := decodeCompressedZeroByteCount wz e in
  0 ≤ e ≤ 7 ∧ 0 ≤ z ≤ wz ∧ v < 2 ^ (8 * (wz - z)).
Proof.
  intros [Hv1 Hv2]. cbv zeta.
  assert (0 ≤ countl_zero wz v / 8 ≤ wz ∧ v < 2 ^ (8 * (wz - countl_zero wz v / 8))) as [Hr Hlt].
  { unfold countl_zero. destruct (Z.eqb_spec v 0) as [->|].
    - rewrite Z.mul_comm, Z.div_mul, Z.sub_diag by lia. simpl. lia.
    - pose proof (Z.log2_nonneg v). assert (Z.log2 v < 8 * wz) by (apply Z.log2_lt_pow2; lia).
      set (k := (8 * wz - 1 - Z.log2 v) / 8).
      assert (8 * k ≤ 8 * wz - 1 - Z.log2 v < 8 * k + 8) as Hk.
      { pose proof (Z.div_mod (8 * wz - 1 - Z.log2 v) 8). pose proof (Z.mod_pos_bound (8 * wz - 1 - Z.log2 v) 8). lia. }
      split; [lia|]. apply Z.log2_lt_pow2; lia. }
  set (zb := countl_zero wz v / 8) in *.
  assert (∀ z, 0 ≤ z ≤ zb → v < 2 ^ (8 * (wz - z))) as Hmono.
  { intros z Hz. eapply Z.lt_le_trans; [exact Hlt|]. apply Z.pow_le_mono_r; lia. }
  unfold encodeCompressedZeroByteCount, decodeCompressedZeroByteCount, MAX_ZERO_BYTE_COUNT.
  destruct Hw as [E|E]; rewrite E in *; change (Z.of_nat 4) with 4 in *; change (Z.of_nat 8) with 8 in *.
  - change (4 =? 7 + 1) with false. cbn [andb]. rewrite Z.min_l by lia. split; [lia|]. split; [lia|]. apply Hmono. lia.
  - change (8 =? 7 + 1) with true. cbn [andb]. destruct (Z.leb_spec 4 zb).
    + rewrite Z.min_l by lia. destruct (Z.ltb_spec 3 (zb - 1)); (split; [lia|]; split; [lia|]; apply Hmono; lia).
    + rewrite Z.min_l by lia. rewrite (proj2 (Z.ltb_ge 3 zb)) by lia. split; [lia|]. split; [lia|]. apply Hmono. lia.
Qed.

(** A value is compressed to one from which the same predictors restore it. *)
Lemma compressValue_spec d f x :
  dfcm_ok w level d → fcm_ok w level f → in_width w x →
  ∃ c d' f', (∀ m p s, compressValue wz x (mkOp d f m p s) = Ret (c, mkOp d' f' m p s)) ∧
    dfcm_ok w level d' ∧ fcm_ok w level f' ∧
    0 ≤ compressed_size c ≤ 7 ∧ (predictor c = 0 ∨ predictor c = 8) ∧
    (let z := decodeCompressedZeroByteCount wz (compressed_size c) in 0 ≤ z ≤ wz ∧ 0 ≤ value c < 2 ^ (8 * (wz - z))) ∧
    (∀ m p s, decompressValue wz (value c) (predictor c =? 8) (mkOp d f m p s) = Ret (x, mkOp d' f' m p s)).
Proof.
  intros Hd Hf Hx. unfold compressValue, decompressValue. cbn [dfcm_predictor fcm_predictor mem pos size].
  destruct (dfcm_predict_ok w level Hlevel d Hd) as (pd & -> & Hpd), (fcm_predict_ok w level Hlevel f Hf) as (pf & -> & Hpf).
  destruct (dfcm_add_ok w level Hlevel d x Hd Hx) as (d' & Ed & Hd'), (fcm_add_ok w level Hlevel f x Hf Hx) as (f' & Ef & Hf').
  cbn [mbind outcome_bind]. rewrite Ed. cbn [mbind outcome_bind]. rewrite Ef. cbn [mbind outcome_bind].
  pose proof (lxor_range pd x (8 * wz) ltac:(lia) Hpd Hx) as Rd. pose proof (lxor_range pf x (8 * wz) ltac:(lia) Hpf Hx) as Rf.
  destruct (zero_bytes _ Rd) as (? & ? & ?), (zero_bytes _ Rf) as (? & ? & ?).
  destruct (_ <? _); (eexists _, d', f'; split; [done|]); cbn [compressed_size predictor value].
  - split_and!; [done|done|lia|lia|by right|lia|lia|lia|lia|]. intros m p s.
    change (DFCM_BIT =? 8) with true. cbv match. cbn [mbind outcome_bind]. rewrite lxor_cancel, Ed.
    cbn [mbind outcome_bind]. by rewrite Ef.
  - split_and!; [done|done|lia|lia|by left|lia|lia|lia|lia|]. intros m p s.
    change (FCM_BIT =? 8) with false. cbv match. cbn [mbind outcome_bind]. rewrite lxor_cancel, Ed.
    cbn [mbind outcome_bind]. by rewrite Ef.
Qed.

Lemma encodePair_spec d f a b :
  dfcm_ok w level d → fcm_ok w level f → in_width w a → in_width w b →
  ∃ out d' f', dfcm_ok w level d' ∧ fcm_ok w level f' ∧ is_bytes out ∧ 1 ≤ blen out ≤ 1 + 2 * wz ∧
    (∀ pre dest s, blen pre + blen out ≤ blen dest → blen out ≤ s →
      encodePair wz a b (mkOp d f (over pre dest) (blen pre) s) =
        Ret (mkOp d' f' (over (pre ++ out) dest) (blen pre + blen out) (s - blen out))) ∧
    (∀ rest m p s, decodePair wz (out ++ rest) (mkOp d f m p s) = Ret (a, b, blen out, mkOp d' f' m p s)).
Proof.
  intros Hd Hf Ha Hb.
  destruct (compressValue_spec d f a Hd Hf Ha) as (c1 & d1 & f1 & E1 & Hd1 & Hf1 & Hs1 & Hp1 & Hz1 & D1).
  destruct (compressValue_spec d1 f1 b Hd1 Hf1 Hb) as (c2 & d2 & f2 & E2 & Hd2 & Hf2 & Hs2 & Hp2 & Hz2 & D2).
  pose proof (pair_header_spec _ _ _ _ Hp1 Hp2 Hs1 Hs2) as Hh. unfold header_ok in Hh.
  set (h := pair_header _ _ _ _) in *. cbv zeta in Hz1, Hz2, Hh.
  rewrite !andb_true_iff, !Z.eqb_eq, !Bool.eqb_true_iff, Z.leb_le, Z.ltb_lt in Hh. destruct Hh as (((((H1 & H2) & H3) & H4) & H5) & H6).
  set (z1 := decodeCompressedZeroByteCount wz (compressed_size c1)) in *.
  set (z2 := decodeCompressedZeroByteCount wz (compressed_size c2)) in *.
  set (t1 := le_split (Z.to_nat (wz - z1)) (value c1)). set (t2 := le_split (Z.to_nat (wz - z2)) (value c2)).
  assert (blen t1 = wz - z1) as Hl1 by (unfold t1; rewrite blen_le_split; lia).
  assert (blen t2 = wz - z2) as Hl2 by (unfold t2; rewrite blen_le_split; lia).
  exists ([h] ++ t1 ++ t2), d2, f2.
  assert (blen ([h] ++ t1 ++ t2) = 1 + (wz - z1) + (wz - z2)) as Hlen by (rewrite !blen_app, Hl1, Hl2; change (blen [h]) with 1; lia).
  split_and!; [done|done| |lia|lia| |].
  - rewrite !Forall_app. split_and!; [constructor; [done|constructor]|apply le_split_bytes..].
  - intros pre dest s Hd' Hs. unfold encodePair. rewrite E1. cbn [mbind outcome_bind]. rewrite E2.
    cbn [mbind outcome_bind mem pos size dfcm_predictor fcm_predictor]. fold z1 z2.
    change (Z.lor (Z.lor 0 _) _) with h. rewrite !Nat2Z.id, !take_le_split by lia. fold t1 t2.
    rewrite write_over by (rewrite ?(blen_cons h), ?blen_nil; lia). cbn [mbind outcome_bind].
    rewrite write_over by (rewrite ?blen_app, ?(blen_cons h), ?blen_nil; lia). cbn [mbind outcome_bind].
    rewrite write_over by (rewrite ?blen_app, ?(blen_cons h), ?blen_nil; lia). cbn [mbind outcome_bind].
    unfold subspan_result. cbn [size mem pos dfcm_predictor fcm_predictor].
    rewrite ub_unless_true by (apply Z.leb_le; lia). cbn [mbind outcome_bind]. rewrite Hlen, <- !app_assoc. done.
  - intros rest m p s. unfold decodePair. cbn [app]. rewrite H1, H2, H3, H4. fold z1 z2.
    rewrite (throw_if_false (_ || _)) by (apply orb_false_iff; rewrite !Z.ltb_ge; lia). cbn [mbind outcome_bind].
    rewrite (throw_if_false (_ <=? _)) by (apply Z.leb_gt; destruct Hw; zlia). cbn [mbind outcome_bind].
    rewrite <- app_assoc. pose proof (blen_nonneg rest).
    rewrite throw_if_false by (apply Z.ltb_ge; rewrite blen_cons, !blen_app; lia). cbn [mbind outcome_bind].
    replace (read_bytes (h :: t1 ++ t2 ++ rest) 1 (wz - z1)) with (Ret t1)
      by (symmetry; by apply (read_bytes_app [h] t1 (t2 ++ rest))).
    cbn [mbind outcome_bind]. replace (read_bytes (h :: t1 ++ t2 ++ rest) (1 + (wz - z1)) (wz - z2)) with (Ret t2).
    2: { symmetry. pose proof (read_bytes_app ([h] ++ t1) t2 rest (1 + (wz - z1)) (wz - z2)) as R.
         rewrite <- app_assoc in R. apply R; [rewrite blen_app, Hl1; done|done]. }
    cbn [mbind outcome_bind]. unfold t1, t2. rewrite !le_combine_split by (rewrite Z2Nat.id; lia).
    rewrite D1. cbn [mbind outcome_bind]. rewrite D2. cbn [mbind outcome_bind]. do 3 f_equal. rewrite !blen_cons. fold t1 t2.
    rewrite blen_app. lia.
Qed.

(** * Chunks *)

Definition flat (ps : list (Z * Z)) : list Z := concat ((λ p, [p.1; p.2]) <$> ps).

Lemma length_flat ps : length (flat ps) = (2 * length ps)%nat.
Proof. induction ps as [|p ps IH]; [done|]. change (flat (p :: ps)) with (p.1 :: p.2 :: flat ps). cbn [length]. lia. Qed.

Lemma flat_exists (vs : list Z) n : length vs = (2 * n)%nat → ∃ ps, vs = flat ps ∧ length ps = n.
Proof.
  revert vs. induction n as [|n IH]; intros vs Hl; [by destruct vs; exists []|].
  destruct vs as [|a [|b vs]]; simpl in Hl; [lia|lia|]. destruct (IH vs) as (ps & -> & Hps); [lia|].
  exists ((a, b) :: ps). split; [done|]. simpl. lia.
Qed.

Lemma encodeChunk_spec ps d f :
  dfcm_ok w level d → fcm_ok w level f → all_width w (flat ps) →
  ∃ out d' f', dfcm_ok w level d' ∧ fcm_ok w level f' ∧ is_bytes out ∧
    blen out ≤ Z.of_nat (length ps) * (1 + 2 * wz) ∧
    (∀ cpre cpost pre dest s, blen pre + blen out ≤ blen dest → blen out ≤ s →
      encodeChunk wz (cpre ++ enc w (flat ps) ++ cpost) (blen cpre) (length ps) (mkOp d f (over pre dest) (blen pre) s) =
        Ret (mkOp d' f' (over (pre ++ out) dest) (blen pre + blen out) (s - blen out))) ∧
    (∀ vpre rest m p s, decodeChunk wz (vpre ++ out ++ rest) (blen vpre) (length ps) (mkOp d f m p s) =
        Ret (flat ps, blen vpre + blen out, mkOp d' f' m p s)).
Proof.
  revert d f. induction ps as [|[a b] ps IH]; intros d f Hd Hf Hps.
  - exists [], d, f. rewrite blen_nil. split_and!; [done|done|constructor|simpl; lia| |].
    + intros. cbn [encodeChunk length]. by rewrite app_nil_r, Z.add_0_r, Z.sub_0_r.
    + intros. cbn [decodeChunk length]. by rewrite Z.add_0_r.
  - change (flat ((a, b) :: ps)) with (a :: b :: flat ps) in *.
    inversion_clear Hps as [|? ? Ha Hps']. inversion_clear Hps' as [|? ? Hb Hps].
    destruct (encodePair_spec d f a b Hd Hf Ha Hb) as (o1 & d1 & f1 & Hd1 & Hf1 & Hb1 & Hl1 & E1 & D1).
    destruct (IH d1 f1 Hd1 Hf1 Hps) as (o2 & d2 & f2 & Hd2 & Hf2 & Hb2 & Hl2 & E2 & D2).
    exists (o1 ++ o2), d2, f2. rewrite blen_app. pose proof (blen_nonneg o2).
    split_and!; [done|done|by apply Forall_app|cbn [length]; lia| |].
    + intros cpre cpost pre dest s Hdest Hs. cbn [encodeChunk length].
      rewrite (load_enc w cpre a _ _ (blen cpre)) by done. cbn [mbind outcome_bind]. rewrite (enc_cons w a), <- app_assoc, (app_assoc cpre).
      rewrite load_enc by (done || blia). cbn [mbind outcome_bind]. rewrite E1 by lia. cbn [mbind outcome_bind].
      rewrite (enc_cons w b), <- (app_assoc (le_split w b)), (app_assoc (cpre ++ _)).
      replace (blen cpre + 2 * wz) with (blen ((cpre ++ le_split w a) ++ le_split w b)) by blia.
      replace (blen pre + blen o1) with (blen (pre ++ o1)) by blia.
      rewrite E2 by (rewrite ?blen_app; lia). rewrite <- app_assoc, blen_app. do 2 f_equal; lia.
    + intros vpre rest m p s. cbn [decodeChunk length]. unfold subspan. pose proof (blen_nonneg rest).
      rewrite ub_unless_true by (apply Z.leb_le; rewrite !blen_app; lia). cbn [mbind outcome_bind].
      rewrite to_nat_blen, drop_app_length, <- app_assoc, D1. cbn [mbind outcome_bind].
      replace (vpre ++ o1 ++ o2 ++ rest) with ((vpre ++ o1) ++ o2 ++ rest) by (by rewrite <- app_assoc).
      replace (blen vpre + blen o1) with (blen (vpre ++ o1)) by blia. rewrite D2. cbn [mbind outcome_bind].
      rewrite blen_app. do 2 f_equal. f_equal. lia.
Qed.

(** * The loops *)

Lemma ceil_spec n : 0 ≤ n →
  let c := ceilBytesToEvenValues wz n in
  c = 2 * (c / 2) ∧ 0 ≤ c ∧ n ≤ c * wz ∧ (n ≤ 64 * wz → c ≤ 64) ∧
  ceilBytesToEvenValues wz (64 * wz + n) = 64 + c.
Proof.
  intros Hn. unfold ceilBytesToEvenValues. cbv zeta.
  replace (64 * wz + n + wz - 1) with (n + wz - 1 + 64 * wz) by lia. rewrite Z.div_add by lia.
  pose proof (Z.div_mod (n + wz - 1) wz ltac:(lia)) as Hd. pose proof (Z.mod_pos_bound (n + wz - 1) wz ltac:(lia)).
  assert (0 ≤ (n + wz - 1) / wz) by (apply Z.div_pos; lia). set (q := (n + wz - 1) / wz) in *.
  pose proof (Z.div_mod q 2 ltac:(lia)) as Hq. pose proof (Z.mod_pos_bound q 2 ltac:(lia)).
  replace ((q + 64) mod 2) with (q mod 2) by (replace (q + 64) with (q + 32 * 2) by lia; by rewrite Z.mod_add).
  destruct (Z.eqb_spec (q mod 2) 0).
  - split_and!; [lia|lia|nia|intros; destruct Hw; subst w; lia|lia].
  - assert ((q + 1) / 2 = q / 2 + 1) as -> by (replace (q + 1) with (q mod 2 - 1 + (q / 2 + 1) * 2) by lia;
      rewrite Z.div_add by lia; rewrite Z.div_small; lia).
    split_and!; [lia|lia|nia|intros; destruct Hw; subst w; lia|lia].
Qed.

(** What [encode_loop] does with the rest of the data, and [decode_loop] with the result. *)
Definition loops_agree (d : DfcmPredictor) (f : FcmPredictor) (rest out : bytes) : Prop :=
  (∀ fuel dn pre dest s, (length rest ≤ fuel)%nat → blen pre + blen out ≤ blen dest → blen out ≤ s →
    ∃ d' f', encode_loop wz fuel (dn ++ rest) (blen dn) (mkOp d f (over pre dest) (blen pre) s) =
      Ret (mkOp d' f' (over (pre ++ out) dest) (blen pre + blen out) (s - blen out))) ∧
  (∀ fuel vpre tl i pre dest, (length rest ≤ fuel)%nat → blen pre + blen rest ≤ blen dest →
    ∃ op, decode_loop wz fuel (vpre ++ out ++ tl) (blen vpre) i (i + blen rest)
      (mkOp d f (over pre dest) (blen pre) (blen rest)) = Ret op ∧ mem op = over (pre ++ rest) dest).

Lemma exportChunk_spec d f vs (bs pre dest : bytes) s :
  bs = take (Z.to_nat s) (enc w vs) → 0 ≤ s → blen pre + blen bs ≤ blen dest → blen bs ≤ s →
  exportChunk wz vs (mkOp d f (over pre dest) (blen pre) s) =
    Ret (mkOp d f (over (pre ++ bs) dest) (blen pre + blen bs) (s - blen bs)).
Proof.
  intros Hbs Hs Hd Hle. unfold exportChunk. cbn [mem pos size dfcm_predictor fcm_predictor].
  assert (take (Z.to_nat (Z.min s (Z.of_nat (length vs) * wz))) (enc w vs) = bs) as Ht.
  { rewrite Hbs. destruct (Z.min_spec s (Z.of_nat (length vs) * wz)) as [[? ->]|[? ->]]; [done|].
    rewrite !take_ge; [done|rewrite length_enc; nia|rewrite length_enc; nia]. }
  rewrite Nat2Z.id, Ht, write_over by done. cbn [mbind outcome_bind]. unfold subspan_result.
  cbn [mem pos size dfcm_predictor fcm_predictor]. rewrite ub_unless_true by (by apply Z.leb_le). done.
Qed.

Lemma loops_nil d f : loops_agree d f [] [].
Proof.
  split.
  - intros fuel dn pre dest s _ _ _. exists d, f. rewrite !app_nil_r, blen_nil, Z.add_0_r, Z.sub_0_r.
    destruct fuel; cbn [encode_loop]; by rewrite Z.ltb_irrefl.
  - intros fuel vpre tl i pre dest _ _. eexists. rewrite blen_nil, Z.add_0_r, app_nil_r.
    split; [destruct fuel; cbn [decode_loop]; by rewrite Z.ltb_irrefl|done].
Qed.

Lemma importChunk_full (chunk rest : bytes) : blen chunk = 64 * wz →
  importChunk wz (chunk ++ rest) = (chunk, 64).
Proof.
  intros Hc. unfold importChunk, CHUNK_SIZE. pose proof (blen_nonneg rest).
  rewrite (proj2 (Z.leb_le _ _)) by (rewrite blen_app; lia).
  rewrite <- Hc, to_nat_blen, take_app_length. f_equal. rewrite Hc. apply Z.div_mul. lia.
Qed.

(** A whole chunk. *)
Lemma loops_full d f ps rest :
  dfcm_ok w level d → fcm_ok w level f → all_width w (flat ps) → length ps = 32%nat →
  ∃ out d' f', dfcm_ok w level d' ∧ fcm_ok w level f' ∧ is_bytes out ∧ blen out ≤ 32 * (1 + 2 * wz) ∧
    ∀ out', loops_agree d' f' rest out' → loops_agree d f (enc w (flat ps) ++ rest) (out ++ out').
Proof.
  intros Hd Hf Hps Hl. destruct (encodeChunk_spec ps d f Hd Hf Hps) as (out & d' & f' & Hd' & Hf' & Hb & Hlen & E & D).
  exists out, d', f'. split_and!; [done|done|done|lia|]. intros out' [IHe IHd].
  set (chunk := enc w (flat ps)) in *.
  assert (blen chunk = 64 * wz) as Hc by (unfold chunk; rewrite blen_enc, length_flat; lia).
  pose proof (blen_nonneg rest). pose proof (blen_nonneg out'). pose proof (blen_nonneg out). split.
  - intros fuel dn pre dest s Hf1 Hd1 Hs1. rewrite blen_app in *. destruct fuel as [|fuel].
    { rewrite length_app in Hf1. unfold blen in Hc. lia. }
    cbn [encode_loop]. rewrite (proj2 (Z.ltb_lt _ _)) by (rewrite !blen_app; lia).
    unfold subspan. rewrite ub_unless_true by (apply Z.leb_le; rewrite !blen_app; lia). cbn [mbind outcome_bind].
    rewrite to_nat_blen, drop_app_length, importChunk_full by done.
    pose proof (E [] [] pre dest s ltac:(lia) ltac:(lia)) as E1. rewrite app_nil_r, Hl in E1. cbn [app] in E1.
    change (Z.to_nat (64 / 2)) with 32%nat. change (blen []) with 0 in E1. rewrite E1. cbn [mbind outcome_bind].
    replace (blen pre + blen out) with (blen (pre ++ out)) by (by rewrite blen_app).
    replace (blen dn + CHUNK_SIZE * wz) with (blen (dn ++ chunk)) by (rewrite blen_app; unfold CHUNK_SIZE; lia).
    destruct (IHe fuel (dn ++ chunk) (pre ++ out) dest (s - blen out)) as (d2 & f2 & E2).
    { rewrite length_app in Hf1. unfold blen in Hc. lia. }
    { rewrite blen_app. lia. } { lia. }
    exists d2, f2. rewrite (app_assoc dn), E2, <- !app_assoc, !blen_app. do 2 f_equal; lia.
  - intros fuel vpre tl i pre dest Hf1 Hd1. rewrite blen_app in *. destruct fuel as [|fuel].
    { rewrite length_app in Hf1. unfold blen in Hc. lia. }
    cbn [decode_loop]. unfold CHUNK_SIZE. rewrite (proj2 (Z.ltb_lt i _)) by lia.
    rewrite (proj2 (Z.ltb_ge (i + (blen chunk + blen rest)) _)) by lia.
    cbn [ub_unless Z.leb Z.compare Pos.compare Pos.compare_cont mbind outcome_bind].
    unfold subspan. pose proof (blen_nonneg tl). rewrite ub_unless_true by (apply Z.leb_le; rewrite !blen_app; lia).
    cbn [mbind outcome_bind]. rewrite to_nat_blen, drop_app_length, <- (app_assoc out).
    pose proof (D [] (out' ++ tl) (over pre dest) (blen pre) (blen chunk + blen rest)) as D1.
    rewrite blen_nil, Hl in D1. cbn [app] in D1. change (Z.to_nat (64 / 2)) with 32%nat. rewrite D1. cbn [mbind outcome_bind].
    rewrite (exportChunk_spec d' f' (flat ps) chunk) by (rewrite ?take_ge; (done || lia || (rewrite length_enc; unfold chunk, blen in *; rewrite ?length_enc in *; lia))).
    cbn [mbind outcome_bind]. replace (blen vpre + (0 + blen out)) with (blen (vpre ++ out)) by (rewrite blen_app; lia).
    replace (blen pre + blen chunk) with (blen (pre ++ chunk)) by (by rewrite blen_app).
    replace (blen chunk + blen rest - blen chunk) with (blen rest) by lia.
    replace (i + (blen chunk + blen rest)) with (i + 64 * wz + blen rest) by lia.
    destruct (IHd fuel (vpre ++ out) tl (i + 64 * wz) (pre ++ chunk) dest) as (op & E2 & Hm).
    { rewrite length_app in Hf1. unfold blen in Hc. lia. } { rewrite blen_app. lia. }
    exists op. rewrite (app_assoc vpre), E2, Hm, <- app_assoc. done.
Qed.

(** The chunk of the last values, padded with zeros. *)
Lemma importChunk_part (rest : bytes) :
  is_bytes rest → 0 < blen rest < 64 * wz →
  let c := ceilBytesToEvenValues wz (blen rest) in
  ∃ ps post, importChunk wz rest = (enc w (flat ps) ++ post, c) ∧ all_width w (flat ps) ∧
    Z.of_nat (length ps) = c / 2 ∧ take (Z.to_nat (blen rest)) (enc w (flat ps)) = rest.
Proof.
  intros Hb Hr. cbv zeta. destruct (ceil_spec (blen rest) ltac:(lia)) as (Hc1 & Hc2 & Hc3 & Hc4 & _).
  set (c := ceilBytesToEvenValues wz (blen rest)) in *.
  unfold importChunk, CHUNK_SIZE. rewrite (proj2 (Z.leb_gt _ _)) by lia. fold c.
  set (chunk := rest ++ replicate _ 0).
  assert (length chunk = 64 * w)%nat as Hlc by (unfold chunk; rewrite length_app, length_replicate; unfold blen in *; lia).
  destruct (enc_exists w chunk) as (vs & Ec & Hvs & Hlvs); [lia| | |].
  { apply Forall_app. split; [done|]. apply Forall_replicate. unfold is_byte. lia. }
  { rewrite Hlc. apply Nat.Div0.mod_mul. }
  rewrite Hlc, Nat.div_mul in Hlvs by lia.
  destruct (flat_exists (take (Z.to_nat c) vs) (Z.to_nat (c / 2))) as (ps & Eps & Hps); [rewrite length_take; lia|].
  exists ps, (enc w (drop (Z.to_nat c) vs)). rewrite <- Eps, <- enc_app, take_drop, <- Ec.
  split_and!; [done|by apply Forall_take|lia|].
  transitivity (take (Z.to_nat (blen rest)) (enc w vs)).
  - rewrite <- (take_drop (Z.to_nat c) vs) at 2. rewrite enc_app, take_app_le; [done|].
    rewrite length_enc, length_take. nia.
  - rewrite <- Ec. unfold chunk. by rewrite to_nat_blen, take_app_length.
Qed.

Lemma loops_part d f (rest : bytes) :
  dfcm_ok w level d → fcm_ok w level f → is_bytes rest → 0 < blen rest < 64 * wz →
  ∃ out, is_bytes out ∧ blen out ≤ ceilBytesToEvenValues wz (blen rest) / 2 * (1 + 2 * wz) ∧ loops_agree d f rest out.
Proof.
  intros Hd Hf Hb Hr. destruct (ceil_spec (blen rest) ltac:(lia)) as (Hc1 & Hc2 & Hc3 & Hc4 & _).
  destruct (importChunk_part rest Hb Hr) as (ps & post & Hi & Hps & Hlen & Ht). cbv zeta in *.
  set (c := ceilBytesToEvenValues wz (blen rest)) in *.
  destruct (encodeChunk_spec ps d f Hd Hf Hps) as (out & d' & f' & Hd' & Hf' & Hbo & Hlo & E & D).
  exists out. split_and!; [done|by rewrite <- Hlen|]. split.
  - intros fuel dn pre dest s Hfu Hd1 Hs1. destruct fuel as [|fuel]; [unfold blen in Hr; lia|].
    cbn [encode_loop]. rewrite (proj2 (Z.ltb_lt _ _)) by (rewrite blen_app; lia).
    unfold subspan. rewrite ub_unless_true by (apply Z.leb_le; rewrite blen_app; lia). cbn [mbind outcome_bind].
    rewrite to_nat_blen, drop_app_length, Hi, <- Hlen, Nat2Z.id.
    pose proof (E [] post pre dest s Hd1 Hs1) as E1. cbn [app] in E1. change (blen []) with 0 in E1. rewrite E1.
    cbn [mbind outcome_bind]. exists d', f'. unfold CHUNK_SIZE.
    destruct fuel; cbn [encode_loop]; rewrite (proj2 (Z.ltb_ge _ _)) by (rewrite blen_app; lia); done.
  - intros fuel vpre tl i pre dest Hfu Hd1. destruct fuel as [|fuel]; [unfold blen in Hr; lia|].
    cbn [decode_loop]. unfold CHUNK_SIZE. rewrite (proj2 (Z.ltb_lt i _)), (proj2 (Z.ltb_lt (i + blen rest) _)) by lia.
    rewrite Z.add_simpl_l. fold c. rewrite ub_unless_true by (apply Z.leb_le; lia). cbn [mbind outcome_bind].
    unfold subspan. pose proof (blen_nonneg tl). pose proof (blen_nonneg out).
    rewrite ub_unless_true by (apply Z.leb_le; rewrite !blen_app; lia). cbn [mbind outcome_bind].
    rewrite to_nat_blen, drop_app_length, <- Hlen, Nat2Z.id.
    pose proof (D [] tl (over pre dest) (blen pre) (blen rest)) as D1. rewrite blen_nil in D1. cbn [app] in D1.
    rewrite D1. cbn [mbind outcome_bind].
    rewrite (exportChunk_spec d' f' (flat ps) rest) by (done || lia). cbn [mbind outcome_bind].
    eexists. split; [destruct fuel; cbn [decode_loop]; rewrite (proj2 (Z.ltb_ge _ _)) by lia; done|done].
Qed.

Lemma loops_total (data : bytes) d f :
  dfcm_ok w level d → fcm_ok w level f → is_bytes data →
  ∃ out, is_bytes out ∧ blen out ≤ ceilBytesToEvenValues wz (blen data) / 2 * (1 + 2 * wz) ∧ loops_agree d f data out.
Proof.
  remember (length data) as n eqn:En. revert data d f En. induction n as [n IH] using lt_wf_ind.
  intros data d f -> Hd Hf Hb. destruct (decide (data = [])) as [->|Hne].
  { exists []. split_and!; [constructor| |apply loops_nil].
    rewrite blen_nil. destruct (ceil_spec 0 ltac:(lia)) as (H1 & H2 & _).
    apply Z.mul_nonneg_nonneg; [apply Z.div_pos; lia|lia]. }
  assert (0 < blen data) by (destruct data; [done|rewrite blen_cons; pose proof (blen_nonneg data); lia]).
  destruct (decide (blen data < 64 * wz)) as [Hlt|Hge]; [by apply loops_part|].
  destruct (split_at data (64 * wz)) as (chunk & rest & -> & Hc); [lia|].
  apply Forall_app in Hb as [Hb1 Hb2].
  destruct (enc_exists w chunk) as (vs & -> & Hvs & Hlvs); [lia|done| |].
  { assert (length chunk = 64 * w)%nat as -> by (unfold blen in Hc; lia). apply Nat.Div0.mod_mul. }
  rewrite blen_enc in Hc. destruct (flat_exists vs 32) as (ps & -> & Hps); [nia|].
  destruct (loops_full d f ps rest Hd Hf Hvs Hps) as (o1 & d1 & f1 & Hd1 & Hf1 & Ho1 & Hl1 & Hagree).
  destruct (IH (length rest)) with (data := rest) (d := d1) (f := f1) as (o2 & Ho2 & Hl2 & Ha2); [|done..|].
  { rewrite length_app, length_enc, length_flat. lia. }
  exists (o1 ++ o2). split_and!; [by apply Forall_app| |by apply Hagree].
  rewrite !blen_app, blen_enc. replace (wz * Z.of_nat (length (flat ps))) with (64 * wz) by lia.
  destruct (ceil_spec (blen rest) (blen_nonneg _)) as (Hc1 & Hc2 & _ & _ & ->).
  replace (64 + ceilBytesToEvenValues wz (blen rest)) with (ceilBytesToEvenValues wz (blen rest) + 32 * 2) by lia.
  rewrite Z.div_add by lia. lia.
Qed.
End pairs.

(** * The codec *)

Definition max_source : Z := 2 ^ 31.

Lemma fpc_getMax w n : w = 4%nat ∨ w = 8%nat → 0 ≤ n ≤ max_source →
  getMaxCompressedDataSize (Z.of_nat w) n =
    Ret (2 + ceilBytesToEvenValues (Z.of_nat w) n / 2 * (1 + 2 * Z.of_nat w)) ∧
  2 + ceilBytesToEvenValues (Z.of_nat w) n / 2 * (1 + 2 * Z.of_nat w) < 2 ^ 32.
Proof.
  intros Hw Hn. unfold getMaxCompressedDataSize, max_source, HEADER_SIZE in *. set (wz := Z.of_nat w).
  assert (wz = 4 ∨ wz = 8) as Hwz by lia.
  rewrite ub_unless_true by (apply negb_true_iff, Z.eqb_neq; lia). cbn [mbind outcome_bind].
  rewrite (wrap_small 4 (n + wz - 1)) by zlia.
  destruct (ceil_spec w Hw n ltac:(lia)) as (Hc1 & Hc2 & _). fold wz in Hc1, Hc2. unfold ceilBytesToEvenValues in *.
  pose proof (Z.mul_div_le (n + wz - 1) wz ltac:(lia)) as Hq. assert (0 ≤ (n + wz - 1) / wz) by (apply Z.div_pos; lia).
  set (q := (n + wz - 1) / wz) in *.
  destruct (Z.eqb_spec (q mod 2) 0) as [E|E]; cbn [negb].
  - rewrite wrap_small by zlia. split; [f_equal; lia|zlia].
  - rewrite (wrap_small 4 (q + 1)) by zlia. rewrite wrap_small by zlia. split; [f_equal; lia|zlia].
Qed.

Lemma valid_width_cases n : (n =? 8) || (n =? 4) = true → ∃ w, n = Z.of_nat w ∧ (w = 4%nat ∨ w = 8%nat).
Proof. rewrite orb_true_iff, !Z.eqb_eq. intros [-> | ->]; [exists 8%nat|exists 4%nat]; auto. Qed.

Lemma fpc_undo float_width level source tail dest reserved :
  (float_width =? 8) || (float_width =? 4) = true → 1 ≤ level ≤ MAX_COMPRESSION_LEVEL →
  is_bytes source → blen source ≤ max_source →
  getMaxCompressedDataSize float_width (blen source) = Ret reserved → reserved ≤ blen dest →
  ∃ out, doCompressData float_width level (source ++ tail) (blen source) dest = Ret (over out dest, blen out) ∧
    is_bytes out ∧ blen out ≤ reserved ∧
    ∀ tail' dest', blen source ≤ blen dest' →
      doDecompressData (out ++ tail') (blen out) dest' (blen source) = Ret (over source dest').
Proof.
  intros Hv Hlevel Hb Hs Hres Hd. destruct (valid_width_cases _ Hv) as (w & -> & Hw).
  unfold MAX_COMPRESSION_LEVEL in Hlevel. assert (0 ≤ level ≤ 28) as Hlevel' by lia.
  destruct (fpc_getMax w (blen source) Hw (conj (blen_nonneg _) Hs)) as [Hmax Hmax32].
  rewrite Hmax in Hres. injection Hres as <-. set (reserved := 2 + _) in *.
  set (n := Z.to_nat (Z.shiftl 1 level)).
  assert (dfcm_ok w level (DfcmPredictor_create n)) as Hdf.
  { split; [apply table_created; lia|]. split; [simpl; lia|apply Z.pow_pos_nonneg; lia]. }
  assert (fcm_ok w level (FcmPredictor_create n)) as Hff by (apply table_created; lia).
  destruct (loops_total w Hw level Hlevel' source _ _ Hdf Hff Hb) as (body & Hbb & Hbl & Henc & Hdec).
  set (h := [Z.of_nat w; level]). assert (blen h = 2) as Hh by done.
  assert (blen (h ++ body) ≤ reserved) as Hout by (rewrite blen_app; unfold reserved; lia).
  pose proof (blen_nonneg body) as Hbn.
  exists (h ++ body). rewrite blen_app in Hout |- *. split_and!; [| |lia|].
  - unfold doCompressData. rewrite write_first by (change (blen [Z.of_nat w]) with 1; lia). cbn [mbind outcome_bind].
    rewrite write_over by (change (blen [Z.of_nat w]) with 1; change (blen [level]) with 1; lia). cbn [mbind outcome_bind].
    rewrite Hmax. cbn [mbind outcome_bind]. fold reserved.
    replace (read_bytes (source ++ tail) 0 (blen source)) with (Ret source) by (symmetry; by apply (read_bytes_app [] source tail)).
    cbn [mbind outcome_bind]. rewrite Hv. unfold encode, FPCOperation_create, HEADER_SIZE. fold n. cbn [size].
    destruct (Henc (length source) [] h dest (reserved - 2)) as (d' & f' & E); [lia|lia|lia|].
    cbn [app] in E. change (blen []) with 0 in E. rewrite Hh in E. change ([Z.of_nat w] ++ [level]) with h.
    rewrite E. cbn [mbind outcome_bind mem size]. rewrite wrap_small by zlia. rewrite Hh. do 2 f_equal. lia.
  - apply Forall_app. split; [|done]. repeat constructor; unfold is_byte; lia.
  - intros tail' dest' Hd'. unfold doDecompressData, HEADER_SIZE.
    rewrite throw_if_false by (apply Z.ltb_ge; lia). cbn [mbind outcome_bind].
    replace (read_bytes _ 0 _) with (Ret (h ++ body))
      by (symmetry; apply (read_bytes_app [] (h ++ body) tail'); [done|by rewrite blen_app]).
    cbn [mbind outcome_bind]. change (h ++ body) with (Z.of_nat w :: level :: body). rewrite load_first.
    cbn [mbind outcome_bind]. 
    replace (load 1 _ 1) with (Ret level) by (symmetry; by apply (load_byte [Z.of_nat w] level body 1)). cbn [mbind outcome_bind].
    rewrite throw_if_false.
    2: { apply orb_false_iff. unfold MAX_COMPRESSION_LEVEL. rewrite Z.eqb_neq, Z.ltb_ge. lia. }
    cbn [mbind outcome_bind]. unfold subspan. rewrite ub_unless_true by (apply Z.leb_le; rewrite !blen_cons; lia).
    cbn [mbind outcome_bind]. change (drop (Z.to_nat 2) _) with body. rewrite Hv.
    unfold decode, FPCOperation_create. fold n.
    destruct (Hdec (Z.to_nat (blen source)) [] [] 0 [] dest') as (op & E & Hm); [unfold blen; lia|rewrite blen_nil; lia|].
    cbn [app] in E. rewrite app_nil_r, over_nil, blen_nil, Z.add_0_l in E. rewrite E. cbn [mbind outcome_bind]. by rewrite Hm.
Qed.

(** More is reserved for a larger source. *)
Lemma fpc_getMax_mono ec float_width level a b :
  (float_width =? 8) || (float_width =? 4) = true → 0 ≤ a ≤ b → b ≤ max_source →
  0 ≤ CodecBase.getMaxCompressedDataSize (codec ec float_width level) a ≤
    CodecBase.getMaxCompressedDataSize (codec ec float_width level) b.
Proof.
  intros Hv Hab Hb. destruct (valid_width_cases _ Hv) as (w & -> & Hw). simpl.
  rewrite (proj1 (fpc_getMax w a Hw ltac:(lia))), (proj1 (fpc_getMax w b Hw ltac:(lia))).
  destruct (ceil_spec w Hw a ltac:(lia)) as (_ & Ha & _).
  assert (ceilBytesToEvenValues (Z.of_nat w) a ≤ ceilBytesToEvenValues (Z.of_nat w) b) as Hc.
  { unfold ceilBytesToEvenValues. pose proof (Z.div_le_mono (a + Z.of_nat w - 1) (b + Z.of_nat w - 1) (Z.of_nat w) ltac:(lia) ltac:(lia)).
    destruct (_ =? 0) eqn:E1, ((b + Z.of_nat w - 1) / Z.of_nat w mod 2 =? 0) eqn:E2; simpl; rewrite ?Z.eqb_eq, ?Z.eqb_neq in *; dlia. }
  pose proof (Z.div_le_mono _ _ 2 ltac:(lia) Hc). pose proof (Z.div_pos (ceilBytesToEvenValues (Z.of_nat w) a) 2 ltac:(lia) ltac:(lia)).
  nia.
Qed.

Lemma fpc_correct ec float_width level :
  (float_width =? 8) || (float_width =? 4) = true → 1 ≤ level ≤ MAX_COMPRESSION_LEVEL →
  CodecCorrect (codec ec float_width level) (λ source, blen source ≤ max_source).
Proof.
  intros Hv Hlevel. split; [unfold is_byte; simpl; lia|simpl; lia|].
  intros source tail dest Hb Hs Hmax. destruct (valid_width_cases _ Hv) as (w & Ew & Hw).
  destruct (fpc_getMax w (blen source) Hw (conj (blen_nonneg _) Hs)) as [Hres _]. rewrite <- Ew in Hres.
  cbn [CodecBase.getMaxCompressedDataSize codec] in *. rewrite Hres in Hmax |- *.
  destruct (fpc_undo float_width level source tail dest _ Hv Hlevel Hb Hs Hres Hmax) as (out & Hc & Ho & Hl & Hun).
  exists out. split_and!; [done|done|done|]. intros tail' dest' _ Hd'. cbn [getAdditionalSizeAtTheEndOfBuffer codec] in *.
  eexists. split; [apply Hun; lia|]. apply blen_over. lia.
Qed.

(** * Any data *)

Lemma subspan_safe (bs : bytes) n : is_bytes bs → 0 ≤ n ≤ blen bs →
  safe (subspan bs n) (λ r, is_bytes r ∧ blen r = blen bs - n).
Proof.
  intros Hb Hn. unfold subspan. rewrite ub_unless_true by (apply Z.leb_le; lia). simpl.
  split; [by apply Forall_drop|]. rewrite blen_drop. lia.
Qed.

Section any_data.
Context (w : nat) (Hw : w = 4%nat ∨ w = 8%nat) (level : Z) (Hlevel : 0 ≤ level ≤ 28).
Abbreviation wz := (Z.of_nat w).

(** The predictors work, and the span is within the memory. *)
Definition op_ok (op : FPCOperation) : Prop :=
  dfcm_ok w level (dfcm_predictor op) ∧ fcm_ok w level (fcm_predictor op) ∧
  0 ≤ pos op ∧ 0 ≤ size op ∧ pos op + size op ≤ blen (mem op) ∧ is_bytes (mem op).

Lemma decompressValue_safe x b op : in_width w x → op_ok op →
  safe (decompressValue wz x b op) (λ r, in_width w r.1 ∧ op_ok r.2 ∧
    mem r.2 = mem op ∧ pos r.2 = pos op ∧ size r.2 = size op).
Proof.
  intros Hx (Hd & Hf & Hp). unfold decompressValue.
  assert (∃ p, (if b then dfcm_predict wz (dfcm_predictor op) else fcm_predict (fcm_predictor op)) = Ret p ∧ in_width w p)
    as (p & -> & Hpw) by (destruct b; [by eapply dfcm_predict_ok|by eapply fcm_predict_ok]).
  cbn [mbind outcome_bind]. pose proof (lxor_range p x (8 * wz) ltac:(lia) Hpw Hx) as Hl.
  destruct (dfcm_add_ok w level Hlevel _ _ Hd Hl) as (d' & -> & Hd'). cbn [mbind outcome_bind].
  destruct (fcm_add_ok w level Hlevel _ _ Hf Hl) as (f' & -> & Hf'). cbn [mbind outcome_bind].
  simpl. split_and!; try done; apply Hp.
Qed.

Lemma zero_count_range x : 0 ≤ x ≤ 7 → 0 ≤ decodeCompressedZeroByteCount wz x ≤ 8.
Proof. intros Hx. unfold decodeCompressedZeroByteCount. case_match eqn:E; [|lia]. apply andb_true_iff in E as [_ ?%Z.ltb_lt]. lia. Qed.

Lemma tail_in_width (bs : bytes) k : is_bytes bs → blen bs = k → k ≤ wz → in_width w (le_combine bs).
Proof.
  intros Hb Hl Hk. pose proof (le_combine_range bs Hb) as H. split; [lia|].
  eapply Z.lt_le_trans; [apply H|]. apply Z.pow_le_mono_r; lia.
Qed.

Lemma decodePair_safe bs op : is_bytes bs → op_ok op →
  safe (decodePair wz bs op) (λ '(x, y, k, op'), in_width w x ∧ in_width w y ∧ 0 ≤ k ≤ blen bs ∧ op_ok op' ∧
    mem op' = mem op ∧ pos op' = pos op ∧ size op' = size op).
Proof.
  intros Hb Hop. unfold decodePair. destruct bs as [|front rest]; [done|]. set (bs := front :: rest) in *.
  assert (∀ y, 0 ≤ y → 0 ≤ Z.land y MAX_ZERO_BYTE_COUNT ≤ 7) as Hland.
  { intros y Hy. unfold MAX_ZERO_BYTE_COUNT. pose proof (land_low y 3 ltac:(lia)) as E.
    change (2 ^ 3 - 1) with 7 in E. rewrite E. pose proof (Z.mod_pos_bound y (2 ^ 3) ltac:(lia)). zlia. }
  assert (0 ≤ front) as Hfr by (inversion Hb as [|? ? [? ?] ?]; lia).
  pose proof (zero_count_range _ (Hland (Z.shiftr front 4) ltac:(by apply Z.shiftr_nonneg))) as Hz1.
  pose proof (zero_count_range _ (Hland front Hfr)) as Hz2.
  set (z1 := decodeCompressedZeroByteCount wz (Z.land (Z.shiftr front 4) MAX_ZERO_BYTE_COUNT)) in *.
  set (z2 := decodeCompressedZeroByteCount wz (Z.land front MAX_ZERO_BYTE_COUNT)) in *.
  destruct (Z.ltb_spec wz z1); [done|]. destruct (Z.ltb_spec wz z2); [done|]. cbn [orb throw_if mbind outcome_bind].
  rewrite (throw_if_false (_ <=? _)) by (apply Z.leb_gt; zlia). cbn [mbind outcome_bind].
  destruct (Z.ltb_spec (blen bs) (wz - z1 + (wz - z2) + 1)); [done|]. cbn [throw_if mbind outcome_bind].
  destruct (read_bytes_safe bs 1 (wz - z1)) as (t1 & -> & Hl1 & Hb1); [lia..|]. cbn [mbind outcome_bind].
  destruct (read_bytes_safe bs (1 + (wz - z1)) (wz - z2)) as (t2 & -> & Hl2 & Hb2); [lia..|]. cbn [mbind outcome_bind].
  eapply safe_bind; [apply decompressValue_safe; [eapply tail_in_width; eauto; lia|done]|].
  intros [x op1] (Hx & Hop1 & ? & ? & ?). cbn [fst snd] in *.
  eapply safe_bind; [apply decompressValue_safe; [eapply tail_in_width; eauto; lia|done]|].
  intros [y op2] (Hy & Hop2 & ? & ? & ?). cbn [fst snd] in *. simpl. split_and!; (done || lia || congruence || apply Hx || apply Hy).
Qed.

Lemma decodeChunk_safe n values k op : is_bytes values → op_ok op → 0 ≤ k ≤ blen values →
  safe (decodeChunk wz values k n op) (λ '(seq, k', op'), length seq = (2 * n)%nat ∧ k ≤ k' ≤ blen values ∧ op_ok op' ∧
    mem op' = mem op ∧ pos op' = pos op ∧ size op' = size op).
Proof.
  revert k op. induction n as [|n IH]; intros k op Hb Hop Hk; cbn [decodeChunk]; [simpl; split_and!; try done; lia|].
  eapply safe_bind; [by apply subspan_safe|]. intros rest [Hrb Hrl].
  eapply safe_bind; [by apply decodePair_safe|]. intros [[[x y] k1] op1] (_ & _ & Hk1 & Hop1 & ? & ? & ?).
  eapply safe_bind; [apply IH; [done|done|lia]|]. intros [[seq k2] op2] (Hseq & Hk2 & Hop2 & ? & ? & ?).
  simpl. split_and!; (lia || congruence || apply Hop2).
Qed.

Lemma exportChunk_safe vs op : op_ok op →
  safe (exportChunk wz vs op) (λ op', op_ok op' ∧ blen (mem op') = blen (mem op)).
Proof.
  intros (Hd & Hf & Hp & Hs & Hps & Hm). unfold exportChunk. rewrite Nat2Z.id. set (view := take _ _).
  assert (blen view ≤ size op) as Hv by (unfold view; rewrite blen_take; lia).
  destruct (write_bytes_safe (mem op) (pos op) view) as (m & -> & Hl & Hb); [lia..|]. cbn [mbind outcome_bind].
  unfold subspan_result. cbn [size]. rewrite ub_unless_true by (by apply Z.leb_le). simpl. pose proof (blen_nonneg view).
  split; [|done]. unfold op_ok. cbn [dfcm_predictor fcm_predictor mem pos size]. split_and!; try (done || lia).
  apply Hb; [done|]. unfold view. apply Forall_take, enc_bytes.
Qed.

Lemma decode_loop_safe fuel values k i decoded_size op :
  is_bytes values → op_ok op → 0 ≤ k ≤ blen values → decoded_size - i ≤ Z.of_nat fuel →
  safe (decode_loop wz fuel values k i decoded_size op) (λ op', op_ok op' ∧ blen (mem op') = blen (mem op)).
Proof.
  revert k i op. induction fuel as [|fuel IH]; intros k i op Hb Hop Hk Hf; cbn [decode_loop].
  - rewrite (proj2 (Z.ltb_ge _ _)) by lia. by simpl.
  - destruct (Z.ltb_spec i decoded_size) as [Hi|]; [|by simpl]. unfold CHUNK_SIZE.
    set (count := if decoded_size <? i + 64 * wz then _ else 64).
    assert (0 < count ≤ 64) as Hc.
    { unfold count. destruct (Z.ltb_spec decoded_size (i + 64 * wz)); [|lia].
      destruct (ceil_spec w Hw (decoded_size - i) ltac:(lia)) as (? & ? & ? & ? & _). split; [nia|lia]. }
    rewrite ub_unless_true by (apply Z.leb_le; lia). cbn [mbind outcome_bind].
    eapply safe_bind; [by apply subspan_safe|]. intros rest [Hrb Hrl].
    eapply safe_bind; [apply decodeChunk_safe; [done|done|lia]|]. intros [[chunk k1] op1] (_ & Hk1 & Hop1 & Hm1 & _).
    eapply safe_bind; [by apply exportChunk_safe|]. intros op2 [Hop2 Hm2].
    eapply safe_mono; [apply IH; [done|done|lia|nia]|]. simpl. intros op3 [? ?]. split; [done|congruence].
Qed.
End any_data.

#[global] Instance fpc_safe ec n l : CodecSafe (codec ec n l).
Proof.
  split. intros source ssize dest usize Hb Hd Hs Hs32 Hsrc Hu Hu32 Hdst.
  cbn [CodecBase.doDecompressData getAdditionalSizeAtTheEndOfBuffer codec] in *.
  unfold doDecompressData, HEADER_SIZE. destruct (Z.ltb_spec ssize 2); [done|]. cbn [throw_if mbind outcome_bind].
  destruct (read_bytes_safe source 0 ssize) as (data & -> & Hl & Hdb); [lia..|]. cbn [mbind outcome_bind].
  destruct (load_safe 1 data 0 (Hdb Hb)) as (fw & -> & Hfw); [lia..|]. cbn [mbind outcome_bind].
  destruct (load_safe 1 data 1 (Hdb Hb)) as (lv & -> & Hlv); [lia..|]. cbn [mbind outcome_bind].
  unfold MAX_COMPRESSION_LEVEL. destruct (Z.eqb_spec lv 0); [done|]. destruct (Z.ltb_spec 28 lv); [done|].
  cbn [orb throw_if mbind outcome_bind]. eapply safe_bind; [apply subspan_safe; [auto|lia]|].
  intros src [Hsb Hsl]. destruct ((fw =? 8) || (fw =? 4)) eqn:Hv; [|done].
  destruct (valid_width_cases _ Hv) as (w & -> & Hw). unfold decode.
  eapply safe_bind; [apply (decode_loop_safe w Hw lv ltac:(lia)); [done| |pose proof (blen_nonneg src); lia|lia]|].
  - unfold FPCOperation_create. split_and!; cbn [dfcm_predictor fcm_predictor mem pos size]; try (done || lia).
    + split; [apply table_created; lia|]. split; [simpl; lia|apply Z.pow_pos_nonneg; lia].
    + apply table_created; lia.
  - intros op [(_ & _ & _ & _ & _ & Hm) Hml]. by simpl.
Qed.

(** * Theorems *)

(** C38: for both widths, every level and every source of up to [2 ^ 31] bytes, whole
    values or not, FPC writes within the size it reserved, and decompression of what it
    wrote gives the source back. *)
Theorem fpc_roundtrip (float_width level : Z) (source dest dest' tail : bytes) (reserved : Z) :
  (float_width =? 8) || (float_width =? 4) = true → 1 ≤ level ≤ MAX_COMPRESSION_LEVEL →
  is_bytes source → blen source ≤ max_source →
  getMaxCompressedDataSize float_width (blen source) = Ret reserved → reserved ≤ blen dest → blen source ≤ blen dest' →
  ∃ out,
    doCompressData float_width level source (blen source) dest = Ret (over out dest, blen out) ∧ blen out ≤ reserved ∧
    doDecompressData (out ++ tail) (blen out) dest' (blen source) = Ret (over source dest').
Proof.
  intros Hv Hlevel Hb Hs Hres Hd Hd'.
  destruct (fpc_undo float_width level source [] dest reserved Hv Hlevel Hb Hs Hres Hd) as (out & Hc & _ & Hl & Hun).
  rewrite app_nil_r in Hc. exists out. auto.
Qed.

Lemma fpc_roundtrip_witness :
  ∃ out,
    doCompressData 4 12 [10; 0; 20; 0; 25; 255; 1] (blen [10; 0; 20; 0; 25; 255; 1]) (replicate 11 0) =
      Ret (over out (replicate 11 0), blen out) ∧ blen out ≤ 11 ∧
    doDecompressData (out ++ [1]) (blen out) (replicate 7 7) (blen [10; 0; 20; 0; 25; 255; 1]) =
      Ret (over [10; 0; 20; 0; 25; 255; 1] (replicate 7 7)).
Proof.
  apply (fpc_roundtrip 4 12 [10; 0; 20; 0; 25; 255; 1] (replicate 11 0) (replicate 7 7) [1] 11);
    [done|done|by apply is_bytes_compute|vm_compute; congruence|done|vm_compute; congruence|vm_compute; congruence].
Defined.

(** Whatever the data, FPC decompression has no undefined behaviour: the tables of the
    predictors are accessed within their bounds, the data is not read past its end and the
    destination is not written past its end. *)
Theorem fpc_decompress_never_ub (source dest : bytes) (source_size uncompressed_size : Z) :
  is_bytes source → is_bytes dest → 0 ≤ source_size ≤ blen source → source_size < 2 ^ 32 →
  0 < uncompressed_size ≤ blen dest → uncompressed_size < 2 ^ 32 →
  safe (doDecompressData source source_size dest uncompressed_size) (λ dest', blen dest' = blen dest ∧ is_bytes dest').
Proof.
  intros Hs Hd Hss Hs32 Hu Hu32.
  apply (codec_safe (c := codec CANNOT_DECOMPRESS 4 12)); simpl; (done || lia).
Qed.

Lemma fpc_decompress_never_ub_witness :
  safe (doDecompressData [8; 3; 0x9C; 1; 2; 3; 4; 5] 8 (replicate 8 0) 8)
    (λ dest', blen dest' = blen (replicate 8 0) ∧ is_bytes dest').
Proof.
  apply (fpc_decompress_never_ub [8; 3; 0x9C; 1; 2; 3; 4; 5] (replicate 8 0) 8 8);
    [by apply is_bytes_compute|by apply is_bytes_compute|vm_compute; split; congruence|done|vm_compute; split; congruence|done].
Defined.
End FPC.
