(* ===== verification/CodecObject.v ===== *)
(** Codecs as objects: the part of the syntax tree that describes codecs
    (src/src/Parsers/ASTFunction.h, ASTIdentifier.h, ASTLiteral.h,
    ASTExpressionList.h) with the values of literals (src/src/Core/Field.h), and
    the functions of [ICompressionCodec] (src/src/Compression/ICompressionCodec.h
    and .cpp) that are not about the bytes: the description and the classification
    of a codec. *)

From S2P Require Import Prelude CodecBase.
From stdpp Require Import base tactics list numbers strings.
Local Open Scope Z_scope.

(** * Literals *)

Module Field.

(** [Field::Types::Which]. *)
Inductive Which :=
| Null | UInt64 | Int64 | Float64 | UInt128 | Int128 | String | Array | Tuple
| Decimal32 | Decimal64 | Decimal128 | AggregateFunctionState | Decimal256 | UInt256 | Int256
| Map | UUID | Bool | Object | IPv4 | IPv6 | CustomType.

#[global] Instance Which_eq_dec : EqDecision Which.
Proof. solve_decision. Defined.

(** The values codecs look at; those of the other types are not read. *)
Inductive t :=
| UInt64_value (x : Z)
| Int64_value (x : Z)
| Bool_value (x : Z)
| String_value (s : string)
| other_value (which : Which).

Definition getType (f : t) : Which :=
  match f with
  | UInt64_value _ => UInt64
  | Int64_value _ => Int64
  | Bool_value _ => Bool
  | String_value _ => String
  | other_value which => which
  end.

Definition isInt64OrUInt64FieldType (which : Which) : bool :=
  bool_decide (which = Int64) || bool_decide (which = UInt64).

(** [safeGet<T>] for an unsigned [T]: the nearest field type is UInt64, as which
    the stored value is read. *)
Definition safeGet_UInt64 (f : t) : outcome Z :=
  match f with
  | UInt64_value x | Int64_value x | Bool_value x => Ret (u64 x)
  | _ => Throw BAD_GET
  end.

Definition safeGet_String (f : t) : outcome string :=
  match f with String_value s => Ret s | _ => Throw BAD_GET end.
End Field.

(** * Syntax trees *)

Inductive AST :=
| ASTIdentifier (name : string)
| ASTFunction (name : string) (arguments : list AST)
| ASTLiteral (value : Field.t)
| ASTExpressionList (children : list AST).

(** * Codec objects *)

(** What [updateHash] feeds to the hash: syntax trees and members. *)
Inductive hash_item := hash_tree (ast : AST) | hash_value (x : Z).

(** A codec with its virtual functions: [codec_of] gives those about the bytes for
    each value of the member [decompression_error_code]. *)
Record ICompressionCodec := {
  codec_of : ErrorCode → codec;
  full_codec_desc : option AST;
  updateHash : list hash_item;
  isCompression : bool;
  isGenericCompression : bool;
  isEncryption : bool;
  isFloatingPointTimeSeriesCodec : bool;
  isDeltaCompression : bool;
  isExperimental : bool;
  isDeflateQpl : bool;
  isZstdQat : bool;
  isNone : bool;
}.

Definition setCodecDescription (codec_name : string) (arguments : list AST) : AST :=
  if decide (codec_name = "") then ASTFunction "CODEC" arguments
  else
    let codec_desc :=
      match arguments with
      | [] => ASTIdentifier codec_name
      | _ => ASTFunction codec_name arguments
      end in
    ASTFunction "CODEC" [codec_desc].

Definition getFullCodecDesc (o : ICompressionCodec) : outcome AST :=
  match full_codec_desc o with Some desc => Ret desc | None => Throw LOGICAL_ERROR end.

(** The description of a codec from its full description. *)
Definition inner_desc (full : AST) : outcome AST :=
  match full with
  | ASTFunction _ [desc] => Ret desc
  | ASTFunction _ arguments => Ret (ASTExpressionList arguments)
  | _ => UB
  end.

Definition getCodecDesc (o : ICompressionCodec) : outcome AST :=
  full ← getFullCodecDesc o; inner_desc full.

(** A pointer to a codec of one's own: the object and its [decompression_error_code],
    which is CORRUPTED_DATA until [setExternalDataFlag] changes it. *)
Record codec_ptr := mk_ptr { ptr_object : ICompressionCodec; ptr_error_code : ErrorCode }.

Definition make_ptr (o : ICompressionCodec) : codec_ptr := mk_ptr o CORRUPTED_DATA.
Definition setExternalDataFlag (p : codec_ptr) : codec_ptr := mk_ptr (ptr_object p) CANNOT_DECOMPRESS.
Definition ptr_codec (p : codec_ptr) : codec := codec_of (ptr_object p) (ptr_error_code p).

(** ** NONE *)

Definition None_object : ICompressionCodec := {|
  codec_of := CompressionCodecNone;
  full_codec_desc := Some (setCodecDescription "NONE" []);
  updateHash := [hash_tree (ASTIdentifier "NONE")];
  isCompression := false;
  isGenericCompression := false;
  isEncryption := false;
  isFloatingPointTimeSeriesCodec := false;
  isDeltaCompression := false;
  isExperimental := false;
  isDeflateQpl := false;
  isZstdQat := false;
  isNone := true;
|}.
