(* ===== verification/LZ4Decompress.v ===== *)
(** The decompressor of LZ4 blocks, src/src/Compression/LZ4_decompress_faster.cpp and
    .h: all of its specialisations (copying by 8, 16 or 32 bytes, with and without
    shuffle instructions, for every target the source distinguishes), proved against
    the format of LZ4 blocks. *)

From S2P Require Import Prelude.
From stdpp Require Import base tactics list numbers list_numbers.
Local Open Scope Z_scope.

Module LZ4.

Definition ADDITIONAL_BYTES_AT_END_OF_BUFFER : Z := 64.

(** What the file is compiled for. *)
Record Target := {
  SSE2 : bool;
  SSSE3 : bool;
  AARCH64 : bool;
  USE_MULTITARGET_CODE : bool;
}.

(** * Copying *)

(** Pointers are offsets into one of two memories, that of the source or that of the
    destination. All writes go to the destination. *)
Inductive region := Source (mem : bytes) | Dest.

Definition read_from (r : region) (dmem : bytes) (src n : Z) : outcome bytes :=
  match r with Source mem => read_bytes mem src n | Dest => read_bytes dmem src n end.

(** A load followed by a store. *)
Definition load_store (r : region) (dmem : bytes) (dst src n : Z) : outcome bytes :=
  bs ← read_from r dmem src n; write_bytes dmem dst bs.

(** [memcpy], undefined when the two ranges overlap. *)
Definition memcpy (r : region) (dmem : bytes) (dst src n : Z) : outcome bytes :=
  _ ← ub_unless match r with Source _ => true | Dest => n <=? Z.abs (dst - src) end;
  load_store r dmem dst src n.

Definition LZ4_readLE16 (mem : bytes) (mem_ptr : Z) : outcome Z :=
  p0 ← load 1 mem mem_ptr;
  p1 ← load 1 mem (mem_ptr + 1);
  Ret (p0 + Z.shiftl p1 8).

Definition copy8 (r : region) (dmem : bytes) (dst src : Z) : outcome bytes := memcpy r dmem dst src 8.

Definition copy16 (t : Target) (r : region) (dmem : bytes) (dst src : Z) : outcome bytes :=
  if SSE2 t then load_store r dmem dst src 16 else memcpy r dmem dst src 16.

Definition copy32 (t : Target) (r : region) (dmem : bytes) (dst src : Z) : outcome bytes :=
  if SSE2 t then
    dmem ← load_store r dmem dst src 16;
    load_store r dmem (dst + 16) (src + 16) 16
  else
    dmem ← memcpy r dmem dst src 16;
    memcpy r dmem (dst + 16) (src + 16) 16.

(** [copy<N>]. *)
Definition copy (t : Target) (N : Z) (r : region) (dmem : bytes) (dst src : Z) : outcome bytes :=
  if N =? 8 then copy8 r dmem dst src
  else if N =? 16 then copy16 t r dmem dst src
  else copy32 t r dmem dst src.

(** [wildCopy<N>]: [wildCopy8], [wildCopy16] and [wildCopy32] differ in the copy only. *)
Fixpoint wildCopy (t : Target) (N : Z) (r : region) (fuel : nat) (dmem : bytes) (dst src dst_end : Z)
  : outcome bytes :=
  match fuel with
  | O => OutOfFuel
  | S fuel =>
      dmem ← copy t N r dmem dst src;
      let dst := dst + N in
      let src := src + N in
      if dst <? dst_end then wildCopy t N r fuel dmem dst src dst_end else Ret dmem
  end.

(** ** Copies that replicate *)

Definition at_ (table : list Z) (i : Z) : outcome Z :=
  match table !! Z.to_nat i with Some x => Ret x | None => UB end.

(** [op[i] = match[i]] for [i] from 0 to 3. *)
Definition copy_byte (dmem : bytes) (dst src : Z) : outcome bytes := load_store Dest dmem dst src 1.

Definition copy_4_bytes (dmem : bytes) (op match' : Z) : outcome bytes :=
  dmem ← copy_byte dmem op match';
  dmem ← copy_byte dmem (op + 1) (match' + 1);
  dmem ← copy_byte dmem (op + 2) (match' + 2);
  copy_byte dmem (op + 3) (match' + 3).

Definition shift8_1 : list Z := [0; 1; 2; 1; 4; 4; 4; 4].
Definition shift8_2 : list Z := [0; 0; 0; 1; 0; -1; -2; -3].

Definition copyOverlap8 (dmem : bytes) (op match' offset : Z) : outcome (bytes * Z) :=
  dmem ← copy_4_bytes dmem op match';
  s1 ← at_ shift8_1 offset;
  let match' := match' + s1 in
  dmem ← memcpy Dest dmem (op + 4) match' 4;
  s2 ← at_ shift8_2 offset;
  Ret (dmem, match' + s2).

Definition shift16_1 : list Z := [0; 1; 2; 1; 4; 4; 4; 4; 4; 4; 4; 4; 4; 4; 4; 4].
Definition shift16_2 : list Z := [0; 0; 0; 1; 0; -1; -2; -3; -4; 4; 4; 4; 4; 4; 4; 4].
Definition shift16_3 : list Z := [0; 0; 0; -1; 0; -2; 2; 1; 8; -1; -2; -3; -4; -5; -6; -7].

Definition copyOverlap16 (dmem : bytes) (op match' offset : Z) : outcome (bytes * Z) :=
  dmem ← copy_4_bytes dmem op match';
  s1 ← at_ shift16_1 offset;
  let match' := match' + s1 in
  dmem ← memcpy Dest dmem (op + 4) match' 4;
  s2 ← at_ shift16_2 offset;
  let match' := match' + s2 in
  dmem ← memcpy Dest dmem (op + 8) match' 8;
  s3 ← at_ shift16_3 offset;
  Ret (dmem, match' + s3).

Definition shift32_1 : list Z :=
  [0; 1; 2; 1; 4; 4; 4; 4; 4; 4; 4; 4; 4; 4; 4; 4;
   4; 4; 4; 4; 4; 4; 4; 4; 4; 4; 4; 4; 4; 4; 4; 4].
Definition shift32_2 : list Z :=
  [0; 0; 0; 1; 0; -1; -2; -3; -4; 4; 4; 4; 4; 4; 4; 4;
   4; 4; 4; 4; 4; 4; 4; 4; 4; 4; 4; 4; 4; 4; 4; 4].
Definition shift32_3 : list Z :=
  [0; 0; 0; -1; 0; -2; 2; 1; 8; -1; -2; -3; -4; -5; -6; -7;
   8; 8; 8; 8; 8; 8; 8; 8; 8; 8; 8; 8; 8; 8; 8; 8].
Definition shift32_4 : list Z :=
  [0; 0; 0; 1; 0; 1; -2; 2; 0; -2; -4; 5; 4; 3; 2; 1;
   0; -1; -2; -3; -4; -5; -6; -7; -8; -9; -10; -11; -12; -13; -14; -15].

Definition copyOverlap32 (dmem : bytes) (op match' offset : Z) : outcome (bytes * Z) :=
  dmem ← copy_4_bytes dmem op match';
  s1 ← at_ shift32_1 offset;
  let match' := match' + s1 in
  dmem ← memcpy Dest dmem (op + 4) match' 4;
  s2 ← at_ shift32_2 offset;
  let match' := match' + s2 in
  dmem ← memcpy Dest dmem (op + 8) match' 8;
  s3 ← at_ shift32_3 offset;
  let match' := match' + s3 in
  dmem ← memcpy Dest dmem (op + 16) match' 16;
  s4 ← at_ shift32_4 offset;
  Ret (dmem, match' + s4).

(** ** Shuffles *)

(** A byte of a vector by its index; the instructions give zero, or use some bits of the
    index only, when it is large. *)
Definition pick (v : bytes) (i : Z) : Z := nth (Z.to_nat i) v 0.

(** [_mm_shuffle_epi8]. *)
Definition mm_shuffle_epi8 (v mask : bytes) : bytes :=
  (λ m, if 128 <=? m then 0 else pick v (Z.land m 15)) <$> mask.

(** [vtbl1_u8] and [vtbl2_u8]: the table is the whole vector. *)
Definition vtbl_u8 (v mask : bytes) : bytes := (λ m, if m <? blen v then pick v m else 0) <$> mask.

(** [_mm256_permutexvar_epi8]. *)
Definition mm256_permutexvar_epi8 (mask v : bytes) : bytes := (λ m, pick v (Z.land m 31)) <$> mask.

Definition masks8 : list Z :=
  [ 0; 1; 2; 2; 4; 3; 2; 1;
    0; 0; 0; 0; 0; 0; 0; 0;
    0; 1; 0; 1; 0; 1; 0; 1;
    0; 1; 2; 0; 1; 2; 0; 1;
    0; 1; 2; 3; 0; 1; 2; 3;
    0; 1; 2; 3; 4; 0; 1; 2;
    0; 1; 2; 3; 4; 5; 0; 1;
    0; 1; 2; 3; 4; 5; 6; 0;
    0; 0; 0; 0; 0; 0; 0; 0 ].

Definition copyOverlap8Shuffle_SSSE3 (dmem : bytes) (op match' offset : Z) : outcome (bytes * Z) :=
  v ← read_bytes dmem match' 16;
  mask ← read_bytes masks8 (8 * offset) 16;
  dmem ← write_bytes dmem op (mm_shuffle_epi8 v mask);
  s ← at_ masks8 offset;
  Ret (dmem, match' + s).

(** The table of this version has no row of padding. *)
Definition copyOverlap8Shuffle_AARCH64 (dmem : bytes) (op match' offset : Z) : outcome (bytes * Z) :=
  v ← read_bytes dmem match' 8;
  mask ← read_bytes (take 64 masks8) (8 * offset) 8;
  dmem ← write_bytes dmem op (vtbl_u8 v mask);
  s ← at_ masks8 offset;
  Ret (dmem, match' + s).

Definition copyOverlap8Shuffle (t : Target) (dmem : bytes) (op match' offset : Z) : outcome (bytes * Z) :=
  if AARCH64 t then copyOverlap8Shuffle_AARCH64 dmem op match' offset
  else if SSSE3 t then copyOverlap8Shuffle_SSSE3 dmem op match' offset
  else copyOverlap8 dmem op match' offset.

Definition masks16 : list Z :=
  [ 0; 1; 2; 1; 4; 1; 4; 2; 8; 7; 6; 5; 4; 3; 2; 1;
    0; 0; 0; 0; 0; 0; 0; 0; 0; 0; 0; 0; 0; 0; 0; 0;
    0; 1; 0; 1; 0; 1; 0; 1; 0; 1; 0; 1; 0; 1; 0; 1;
    0; 1; 2; 0; 1; 2; 0; 1; 2; 0; 1; 2; 0; 1; 2; 0;
    0; 1; 2; 3; 0; 1; 2; 3; 0; 1; 2; 3; 0; 1; 2; 3;
    0; 1; 2; 3; 4; 0; 1; 2; 3; 4; 0; 1; 2; 3; 4; 0;
    0; 1; 2; 3; 4; 5; 0; 1; 2; 3; 4; 5; 0; 1; 2; 3;
    0; 1; 2; 3; 4; 5; 6; 0; 1; 2; 3; 4; 5; 6; 0; 1;
    0; 1; 2; 3; 4; 5; 6; 7; 0; 1; 2; 3; 4; 5; 6; 7;
    0; 1; 2; 3; 4; 5; 6; 7; 8; 0; 1; 2; 3; 4; 5; 6;
    0; 1; 2; 3; 4; 5; 6; 7; 8; 9; 0; 1; 2; 3; 4; 5;
    0; 1; 2; 3; 4; 5; 6; 7; 8; 9; 10; 0; 1; 2; 3; 4;
    0; 1; 2; 3; 4; 5; 6; 7; 8; 9; 10; 11; 0; 1; 2; 3;
    0; 1; 2; 3; 4; 5; 6; 7; 8; 9; 10; 11; 12; 0; 1; 2;
    0; 1; 2; 3; 4; 5; 6; 7; 8; 9; 10; 11; 12; 13; 0; 1;
    0; 1; 2; 3; 4; 5; 6; 7; 8; 9; 10; 11; 12; 13; 14; 0 ].

Definition copyOverlap16Shuffle_SSSE3 (dmem : bytes) (op match' offset : Z) : outcome (bytes * Z) :=
  v ← read_bytes dmem match' 16;
  mask ← read_bytes masks16 (16 * offset) 16;
  dmem ← write_bytes dmem op (mm_shuffle_epi8 v mask);
  s ← at_ masks16 offset;
  Ret (dmem, match' + s).

Definition copyOverlap16Shuffle_AARCH64 (dmem : bytes) (op match' offset : Z) : outcome (bytes * Z) :=
  v ← read_bytes dmem match' 16;
  mask ← read_bytes masks16 (16 * offset) 8;
  dmem ← write_bytes dmem op (vtbl_u8 v mask);
  v ← read_bytes dmem match' 16;
  mask ← read_bytes masks16 (16 * offset + 8) 8;
  dmem ← write_bytes dmem (op + 8) (vtbl_u8 v mask);
  s ← at_ masks16 offset;
  Ret (dmem, match' + s).

Definition copyOverlap16Shuffle (t : Target) (dmem : bytes) (op match' offset : Z) : outcome (bytes * Z) :=
  if AARCH64 t then copyOverlap16Shuffle_AARCH64 dmem op match' offset
  else if SSSE3 t then copyOverlap16Shuffle_SSSE3 dmem op match' offset
  else copyOverlap16 dmem op match' offset.

Definition masks32 : list Z :=
  [ 0; 1; 2; 2; 4; 2; 2; 4; 8; 5; 2; 10; 8; 6; 4; 2; 16; 15; 14; 13; 12; 11; 10; 9; 8; 7; 6; 5; 4; 3; 2; 1;
    0; 0; 0; 0; 0; 0; 0; 0; 0; 0; 0; 0; 0; 0; 0; 0; 0; 0; 0; 0; 0; 0; 0; 0; 0; 0; 0; 0; 0; 0; 0; 0;
    0; 1; 0; 1; 0; 1; 0; 1; 0; 1; 0; 1; 0; 1; 0; 1; 0; 1; 0; 1; 0; 1; 0; 1; 0; 1; 0; 1; 0; 1; 0; 1;
    0; 1; 2; 0; 1; 2; 0; 1; 2; 0; 1; 2; 0; 1; 2; 0; 1; 2; 0; 1; 2; 0; 1; 2; 0; 1; 2; 0; 1; 2; 0; 1;
    0; 1; 2; 3; 0; 1; 2; 3; 0; 1; 2; 3; 0; 1; 2; 3; 0; 1; 2; 3; 0; 1; 2; 3; 0; 1; 2; 3; 0; 1; 2; 3;
    0; 1; 2; 3; 4; 0; 1; 2; 3; 4; 0; 1; 2; 3; 4; 0; 1; 2; 3; 4; 0; 1; 2; 3; 4; 0; 1; 2; 3; 4; 0; 1;
    0; 1; 2; 3; 4; 5; 0; 1; 2; 3; 4; 5; 0; 1; 2; 3; 4; 5; 0; 1; 2; 3; 4; 5; 0; 1; 2; 3; 4; 5; 0; 1;
    0; 1; 2; 3; 4; 5; 6; 0; 1; 2; 3; 4; 5; 6; 0; 1; 2; 3; 4; 5; 6; 0; 1; 2; 3; 4; 5; 6; 0; 1; 2; 3;
    0; 1; 2; 3; 4; 5; 6; 7; 0; 1; 2; 3; 4; 5; 6; 7; 0; 1; 2; 3; 4; 5; 6; 7; 0; 1; 2; 3; 4; 5; 6; 7;
    0; 1; 2; 3; 4; 5; 6; 7; 8; 0; 1; 2; 3; 4; 5; 6; 7; 8; 0; 1; 2; 3; 4; 5; 6; 7; 8; 0; 1; 2; 3; 4;
    0; 1; 2; 3; 4; 5; 6; 7; 8; 9; 0; 1; 2; 3; 4; 5; 6; 7; 8; 9; 0; 1; 2; 3; 4; 5; 6; 7; 8; 9; 0; 1;
    0; 1; 2; 3; 4; 5; 6; 7; 8; 9; 10; 0; 1; 2; 3; 4; 5; 6; 7; 8; 9; 10; 0; 1; 2; 3; 4; 5; 6; 7; 8; 9;
    0; 1; 2; 3; 4; 5; 6; 7; 8; 9; 10; 11; 0; 1; 2; 3; 4; 5; 6; 7; 8; 9; 10; 11; 0; 1; 2; 3; 4; 5; 6; 7;
    0; 1; 2; 3; 4; 5; 6; 7; 8; 9; 10; 11; 12; 0; 1; 2; 3; 4; 5; 6; 7; 8; 9; 10; 11; 12; 0; 1; 2; 3; 4; 5;
    0; 1; 2; 3; 4; 5; 6; 7; 8; 9; 10; 11; 12; 13; 0; 1; 2; 3; 4; 5; 6; 7; 8; 9; 10; 11; 12; 13; 0; 1; 2; 3;
    0; 1; 2; 3; 4; 5; 6; 7; 8; 9; 10; 11; 12; 13; 14; 0; 1; 2; 3; 4; 5; 6; 7; 8; 9; 10; 11; 12; 13; 14; 0; 1;
    0; 1; 2; 3; 4; 5; 6; 7; 8; 9; 10; 11; 12; 13; 14; 15; 0; 1; 2; 3; 4; 5; 6; 7; 8; 9; 10; 11; 12; 13; 14; 15;
    0; 1; 2; 3; 4; 5; 6; 7; 8; 9; 10; 11; 12; 13; 14; 15; 16; 0; 1; 2; 3; 4; 5; 6; 7; 8; 9; 10; 11; 12; 13; 14;
    0; 1; 2; 3; 4; 5; 6; 7; 8; 9; 10; 11; 12; 13; 14; 15; 16; 17; 0; 1; 2; 3; 4; 5; 6; 7; 8; 9; 10; 11; 12; 13;
    0; 1; 2; 3; 4; 5; 6; 7; 8; 9; 10; 11; 12; 13; 14; 15; 16; 17; 18; 0; 1; 2; 3; 4; 5; 6; 7; 8; 9; 10; 11; 12;
    0; 1; 2; 3; 4; 5; 6; 7; 8; 9; 10; 11; 12; 13; 14; 15; 16; 17; 18; 19; 0; 1; 2; 3; 4; 5; 6; 7; 8; 9; 10; 11;
    0; 1; 2; 3; 4; 5; 6; 7; 8; 9; 10; 11; 12; 13; 14; 15; 16; 17; 18; 19; 20; 0; 1; 2; 3; 4; 5; 6; 7; 8; 9; 10;
    0; 1; 2; 3; 4; 5; 6; 7; 8; 9; 10; 11; 12; 13; 14; 15; 16; 17; 18; 19; 20; 21; 0; 1; 2; 3; 4; 5; 6; 7; 8; 9;
    0; 1; 2; 3; 4; 5; 6; 7; 8; 9; 10; 11; 12; 13; 14; 15; 16; 17; 18; 19; 20; 21; 22; 0; 1; 2; 3; 4; 5; 6; 7; 8;
    0; 1; 2; 3; 4; 5; 6; 7; 8; 9; 10; 11; 12; 13; 14; 15; 16; 17; 18; 19; 20; 21; 22; 23; 0; 1; 2; 3; 4; 5; 6; 7;
    0; 1; 2; 3; 4; 5; 6; 7; 8; 9; 10; 11; 12; 13; 14; 15; 16; 17; 18; 19; 20; 21; 22; 23; 24; 0; 1; 2; 3; 4; 5; 6;
    0; 1; 2; 3; 4; 5; 6; 7; 8; 9; 10; 11; 12; 13; 14; 15; 16; 17; 18; 19; 20; 21; 22; 23; 24; 25; 0; 1; 2; 3; 4; 5;
    0; 1; 2; 3; 4; 5; 6; 7; 8; 9; 10; 11; 12; 13; 14; 15; 16; 17; 18; 19; 20; 21; 22; 23; 24; 25; 26; 0; 1; 2; 3; 4;
    0; 1; 2; 3; 4; 5; 6; 7; 8; 9; 10; 11; 12; 13; 14; 15; 16; 17; 18; 19; 20; 21; 22; 23; 24; 25; 26; 27; 0; 1; 2; 3;
    0; 1; 2; 3; 4; 5; 6; 7; 8; 9; 10; 11; 12; 13; 14; 15; 16; 17; 18; 19; 20; 21; 22; 23; 24; 25; 26; 27; 28; 0; 1; 2;
    0; 1; 2; 3; 4; 5; 6; 7; 8; 9; 10; 11; 12; 13; 14; 15; 16; 17; 18; 19; 20; 21; 22; 23; 24; 25; 26; 27; 28; 29; 0; 1;
    0; 1; 2; 3; 4; 5; 6; 7; 8; 9; 10; 11; 12; 13; 14; 15; 16; 17; 18; 19; 20; 21; 22; 23; 24; 25; 26; 27; 28; 29; 30; 0 ].

Definition copyOverlap32Shuffle (dmem : bytes) (op match' offset : Z) : outcome (bytes * Z) :=
  mask ← read_bytes masks32 (32 * offset) 32;
  v ← read_bytes dmem match' 32;
  dmem ← write_bytes dmem op (mm256_permutexvar_epi8 mask v);
  s ← at_ masks32 offset;
  Ret (dmem, match' + s).

(** [copyOverlap<N, USE_SHUFFLE>]. *)
Definition copyOverlap (t : Target) (N : Z) (use_shuffle : bool) (dmem : bytes) (op match' offset : Z)
  : outcome (bytes * Z) :=
  if N =? 8 then
    if use_shuffle then copyOverlap8Shuffle t dmem op match' offset else copyOverlap8 dmem op match' offset
  else if N =? 16 then
    if use_shuffle then copyOverlap16Shuffle t dmem op match' offset else copyOverlap16 dmem op match' offset
  else
    if use_shuffle && USE_MULTITARGET_CODE t then copyOverlap32Shuffle dmem op match' offset
    else copyOverlap32 dmem op match' offset.

(** * Decompression *)

(** [continue_read_length]. *)
Fixpoint continue_read_length (fuel : nat) (source : bytes) (input_end ip length : Z) : outcome (Z * Z) :=
  match fuel with
  | O => OutOfFuel
  | S fuel =>
      s ← load 1 source ip;
      let ip := ip + 1 in
      let length := u64 (length + s) in
      if (s =? 255) && (ip <? input_end) then continue_read_length fuel source input_end ip length
      else Ret (ip, length)
  end.

(** The length whose first four bits are [length]; [None] when the function returns false. *)
Definition read_length (source : bytes) (input_end ip length : Z) : outcome (option (Z * Z)) :=
  if length =? 0x0F then
    if input_end <=? ip + 1 then Ret None
    else
      r ← continue_read_length (Z.to_nat (input_end - ip)) source input_end ip length;
      Ret (Some r)
  else Ret (Some (ip, length)).

(** What a part of the body of the loop does: it goes on, or the function returns. *)
Inductive control := Go (ip op : Z) (dmem : bytes) | Return (result : bool) (dmem : bytes).

Section decompressImpl.
Context (t : Target) (copy_amount : Z) (use_shuffle : bool).
Context (source : bytes) (input_end output_end : Z).

Definition real_length (length : Z) : Z :=
  if copy_amount =? 8 then u64 ((Z.shiftr length 3 + 1) * 8)
  else if copy_amount =? 16 then u64 ((Z.shiftr length 4 + 1) * 16)
  else u64 ((Z.shiftr length 5 + 1) * 32).

(** From the literal length to the label [decompress_match]. *)
Definition copy_literals (token : Z) (ip op : Z) (dmem : bytes) : outcome control :=
  r ← read_length source input_end ip (Z.shiftr token 4);
  match r with
  | None => Ret (Return false dmem)
  | Some (ip, length) =>
      let copy_end := op + length in
      if output_end <? copy_end then Ret (Return false dmem)
      else if input_end + ADDITIONAL_BYTES_AT_END_OF_BUFFER <=? ip + real_length length then
        Ret (Return false dmem)
      else
        dmem ← wildCopy t copy_amount (Source source) (S (Z.to_nat length)) dmem op ip copy_end;
        if copy_end =? output_end then Ret (Return true dmem)
        else Ret (Go (ip + length) copy_end dmem)
  end.

(** The copy of a match of [length] bytes at distance [offset]; false when the function
    returns false. *)
Definition copy_match (op offset length : Z) (dmem : bytes) : outcome (bool * bytes) :=
  let match' := op - offset in
  let copy_end := op + length in
  '(dmem, match') ←
    (if offset <? copy_amount then copyOverlap t copy_amount use_shuffle dmem op match' offset
     else dmem ← copy t copy_amount Dest dmem op match'; Ret (dmem, match' + copy_amount));
  let op := op + copy_amount in
  dmem ← copy t copy_amount Dest dmem op match';
  if copy_amount * 2 <? length then
    if output_end <? copy_end then Ret (false, dmem)
    else
      dmem ← wildCopy t copy_amount Dest (S (Z.to_nat length)) dmem
        (op + copy_amount) (match' + copy_amount) copy_end;
      Ret (true, dmem)
  else Ret (true, dmem).

(** From the label [decompress_match] to the end of the body. *)
Definition decompress_match (token : Z) (ip op : Z) (dmem : bytes) : outcome control :=
  if input_end <=? ip + 1 then Ret (Return false dmem)
  else
    offset ← LZ4_readLE16 source ip;
    let ip := ip + 2 in
    if op - offset <? 0 then Ret (Return false dmem)
    else
      r ← read_length source input_end ip (Z.land token 0x0F);
      match r with
      | None => Ret (Return false dmem)
      | Some (ip, length) =>
          let length := u64 (length + 4) in
          let copy_end := op + length in
          if output_end <? copy_end then Ret (Return false dmem)
          else
            '(result, dmem) ← copy_match op offset length dmem;
            Ret (if result : bool then Go ip copy_end dmem else Return false dmem)
      end.

Definition iteration (ip op : Z) (dmem : bytes) : outcome control :=
  if input_end <=? ip then Ret (Return false dmem)
  else
    token ← load 1 source ip;
    let ip := ip + 1 in
    if (copy_amount =? 8) && (Z.shiftr token 4 =? 0) then decompress_match token ip op dmem
    else
      r ← copy_literals token ip op dmem;
      match r with
      | Go ip op dmem => decompress_match token ip op dmem
      | Return result dmem => Ret (Return result dmem)
      end.

Fixpoint decompress_loop (fuel : nat) (ip op : Z) (dmem : bytes) : outcome (bool * bytes) :=
  match fuel with
  | O => OutOfFuel
  | S fuel =>
      r ← iteration ip op dmem;
      match r with
      | Go ip op dmem => decompress_loop fuel ip op dmem
      | Return result dmem => Ret (result, dmem)
      end
  end.
End decompressImpl.

Definition decompressImpl (t : Target) (copy_amount : Z) (use_shuffle : bool)
  (source dest : bytes) (source_size dest_size : Z) : outcome (bool * bytes) :=
  decompress_loop t copy_amount use_shuffle source source_size dest_size (S (Z.to_nat source_size)) 0 0 dest.

(** [best_variant] is what [PerformanceStatistics::select] returns. *)
Definition decompress (t : Target) (best_variant : Z) (source dest : bytes) (source_size dest_size : Z)
  : outcome (bool * bytes) :=
  if (source_size =? 0) || (dest_size =? 0) then Ret (true, dest)
  else if 32768 <=? dest_size then
    if best_variant =? 0 then decompressImpl t 16 true source dest source_size dest_size
    else if best_variant =? 1 then decompressImpl t 16 false source dest source_size dest_size
    else if best_variant =? 2 then decompressImpl t 8 true source dest source_size dest_size
    else if best_variant =? 3 then decompressImpl t 32 false source dest source_size dest_size
    else if best_variant =? 4 then decompressImpl t 32 true source dest source_size dest_size
    else Ret (true, dest)
  else decompressImpl t 8 false source dest source_size dest_size.

(** * The format of LZ4 blocks *)

(** A sequence: literals, and a match that repeats [match_length] bytes from
    [match_offset] bytes back. *)
Record sequence := mk_seq { literals : bytes; match_offset : Z; match_length : Z }.

(** A length has four bits in the token, and further bytes when they are all set. *)
Definition nibble (l : Z) : Z := Z.min l 15.

Definition length_bytes (l : Z) : bytes :=
  if l <? 15 then [] else replicate (Z.to_nat ((l - 15) / 255)) 255 ++ [(l - 15) mod 255].

Definition encode_seq (s : sequence) : bytes :=
  (nibble (blen (literals s)) * 16 + nibble (match_length s - 4)) ::
  length_bytes (blen (literals s)) ++ literals s ++
  le_split 2 (match_offset s) ++ length_bytes (match_length s - 4).

(** The last sequence has literals only; [low] are the bits of its token for the match. *)
Definition encode_last (low : Z) (lits : bytes) : bytes :=
  (nibble (blen lits) * 16 + low) :: length_bytes (blen lits) ++ lits.

(** A match, byte by byte: it may repeat bytes that it has made. *)
Fixpoint repeat_match (out : bytes) (offset : Z) (n : nat) : bytes :=
  match n with
  | O => out
  | S n => repeat_match (out ++ [pick out (blen out - offset)]) offset n
  end.

Definition apply_seq (out : bytes) (s : sequence) : bytes :=
  repeat_match (out ++ literals s) (match_offset s) (Z.to_nat (match_length s)).

(** [lz4_rest out block final]: after [out] has been decoded, the bytes [block] decode to
    the rest of [final]. *)
Inductive lz4_rest : bytes → bytes → bytes → Prop :=
| lz4_last out low lits :
    is_bytes lits → lits ≠ [] → 0 ≤ low < 16 →
    lz4_rest out (encode_last low lits) (out ++ lits)
| lz4_seq out s block final :
    is_bytes (literals s) → 1 ≤ match_offset s < 2 ^ 16 → match_offset s ≤ blen (out ++ literals s) →
    4 ≤ match_length s →
    lz4_rest (apply_seq out s) block final →
    lz4_rest out (encode_seq s ++ block) final.

Definition lz4_block (block final : bytes) : Prop := lz4_rest [] block final.

(** * Periodic memory *)

(** The bytes [a, a + c) of [w] repeated for ever. *)
Definition seg (w : bytes) (a c : nat) : bytes := (λ k, nth (k mod length w) w 0) <$> seq a c.

Section periodic.
Implicit Types w pre rest : bytes.

Lemma length_seg w a c : length (seg w a c) = c.
Proof. unfold seg. by rewrite length_fmap, length_seq. Qed.

Lemma blen_seg w a c : blen (seg w a c) = Z.of_nat c.
Proof. unfold blen. by rewrite length_seg. Qed.

Lemma seg_app w a c1 c2 : seg w a (c1 + c2) = seg w a c1 ++ seg w (a + c1) c2.
Proof. unfold seg. by rewrite seq_app, fmap_app. Qed.

Lemma seg_period w a c k : seg w (a + k * length w) c = seg w a c.
Proof.
  unfold seg. rewrite <- (Nat.add_comm (k * length w)), <- (fmap_add_seq (k * length w) a c), <- list_fmap_compose.
  apply list_fmap_ext. intros i x _. simpl. by rewrite Nat.add_comm, Nat.Div0.mod_add.
Qed.

Lemma seg_all w : seg w 0 (length w) = w.
Proof.
  apply list_eq. intros i. unfold seg. rewrite list_lookup_fmap.
  destruct (decide (i < length w)%nat) as [Hi|Hi].
  - rewrite lookup_seq_lt by done. simpl. rewrite Nat.mod_small by done.
    destruct (lookup_lt_is_Some_2 w i Hi) as [x Hx]. by rewrite Hx, (nth_lookup_Some _ _ _ _ Hx).
  - rewrite lookup_seq_ge, lookup_ge_None_2 by lia. done.
Qed.

(** Reading from the repeated bytes. *)
Lemma read_seg w pre m rest pos s c :
  pos = blen pre + Z.of_nat s → (s + c ≤ m)%nat →
  read_bytes (pre ++ seg w 0 m ++ rest) pos (Z.of_nat c) = Ret (seg w s c).
Proof.
  intros -> Hm. replace m with (s + (c + (m - s - c)))%nat by lia.
  rewrite seg_app, seg_app, <- !app_assoc, (app_assoc pre).
  apply read_bytes_app; [rewrite blen_app, blen_seg; lia|by rewrite blen_seg].
Qed.

(** Writing the next of them. *)
Lemma write_seg w pre m rest pos s c :
  pos = blen pre + Z.of_nat m → (∃ k, m = s + k * length w)%nat → (c ≤ length rest)%nat →
  write_bytes (pre ++ seg w 0 m ++ rest) pos (seg w s c) = Ret (pre ++ seg w 0 (m + c) ++ drop c rest).
Proof.
  intros -> [k ->] Hc. rewrite app_assoc, write_at; [|rewrite blen_app, blen_seg; lia|].
  - unfold over. rewrite length_seg, (seg_app w 0 (s + k * length w) c), <- !app_assoc.
    do 4 f_equal. symmetry. apply (seg_period w s c k).
  - rewrite blen_seg. unfold blen. lia.
Qed.

(** Copying by [c] bytes from a distance that is a multiple of the period. *)
Lemma load_store_seg w pre m rest dst src c d :
  dst = blen pre + Z.of_nat m → src = dst - Z.of_nat d → (c ≤ d ≤ m)%nat → (∃ k, d = k * length w)%nat →
  (c ≤ length rest)%nat →
  load_store Dest (pre ++ seg w 0 m ++ rest) dst src (Z.of_nat c) =
    Ret (pre ++ seg w 0 (m + c) ++ drop c rest).
Proof.
  intros -> -> Hd [k ->] Hc. unfold load_store. cbn [read_from].
  rewrite (read_seg w pre m rest _ (m - k * length w) c) by lia. cbn [mbind outcome_bind].
  apply write_seg; [done|exists k; lia|done].
Qed.

Lemma memcpy_seg w pre m rest dst src c d :
  dst = blen pre + Z.of_nat m → src = dst - Z.of_nat d → (c ≤ d ≤ m)%nat → (∃ k, d = k * length w)%nat →
  (c ≤ length rest)%nat →
  memcpy Dest (pre ++ seg w 0 m ++ rest) dst src (Z.of_nat c) =
    Ret (pre ++ seg w 0 (m + c) ++ drop c rest).
Proof.
  intros Hdst Hsrc Hd Hk Hc. unfold memcpy. rewrite ub_unless_true by (apply Z.leb_le; lia).
  cbn [mbind outcome_bind]. by apply load_store_seg with d.
Qed.
End periodic.

(** The three copy amounts. *)
Definition amount (N : nat) : Prop := N = 8%nat ∨ N = 16%nat ∨ N = 32%nat.

Section copies.
Context (t : Target).
Implicit Types w pre rest : bytes.

Lemma copy_seg N w pre m rest dst src d :
  amount N → dst = blen pre + Z.of_nat m → src = dst - Z.of_nat d → (N ≤ d ≤ m)%nat →
  (∃ k, d = k * length w)%nat → (N ≤ length rest)%nat →
  copy t (Z.of_nat N) Dest (pre ++ seg w 0 m ++ rest) dst src =
    Ret (pre ++ seg w 0 (m + N) ++ drop N rest).
Proof.
  intros [-> | [-> | ->]] Hdst Hsrc Hd Hk Hc; unfold copy; cbn [Z.of_nat Z.eqb].
  - apply (memcpy_seg w pre m rest dst src 8 d); [done..|lia].
  - change (16 =? 8) with false. change (16 =? 16) with true. cbn iota. unfold copy16.
    destruct (SSE2 t); [apply (load_store_seg w pre m rest dst src 16 d)|apply (memcpy_seg w pre m rest dst src 16 d)];
      done || lia.
  - change (32 =? 8) with false. change (32 =? 16) with false. cbn iota. unfold copy32.
    assert (16 ≤ length (drop 16 rest))%nat by (rewrite length_drop; lia).
    replace (m + 32)%nat with (m + 16 + 16)%nat by lia. change (drop 32 rest) with (drop (16 + 16) rest).
    rewrite <- (drop_drop rest 16 16).
    destruct (SSE2 t).
    + pose proof (load_store_seg w pre m rest dst src 16 d Hdst Hsrc ltac:(lia) Hk ltac:(lia)) as E.
      change (Z.of_nat 16) with 16 in E. rewrite E. cbn [mbind outcome_bind].
      apply (load_store_seg w pre (m + 16) (drop 16 rest) (dst + 16) (src + 16) 16 d); done || lia.
    + pose proof (memcpy_seg w pre m rest dst src 16 d Hdst Hsrc ltac:(lia) Hk ltac:(lia)) as E.
      change (Z.of_nat 16) with 16 in E. rewrite E. cbn [mbind outcome_bind].
      apply (memcpy_seg w pre (m + 16) (drop 16 rest) (dst + 16) (src + 16) 16 d); done || lia.
Qed.

Lemma wildCopy_seg N w pre d fuel m rest dst src dst_end :
  amount N → dst = blen pre + Z.of_nat m → src = dst - Z.of_nat d → (N ≤ d ≤ m)%nat →
  (∃ k, d = k * length w)%nat → dst < dst_end →
  dst_end - dst + Z.of_nat N ≤ blen rest → (Z.to_nat (dst_end - dst) ≤ fuel)%nat →
  ∃ m', wildCopy t (Z.of_nat N) Dest fuel (pre ++ seg w 0 m ++ rest) dst src dst_end =
      Ret (pre ++ seg w 0 (m + m') ++ drop m' rest) ∧
    dst_end - dst ≤ Z.of_nat m' < dst_end - dst + Z.of_nat N.
Proof.
  intros HN Hdst Hsrc Hd Hk Hend. assert (0 < N)%nat by (destruct HN as [-> | [-> | ->]]; lia).
  revert m rest dst src Hdst Hsrc Hd Hend.
  induction fuel as [|fuel IH]; intros m rest dst src Hdst Hsrc Hd Hend Hrest Hf; [lia|].
  cbn [wildCopy]. rewrite (copy_seg N w pre m rest dst src d) by (done || (unfold blen in *; lia)).
  cbn [mbind outcome_bind]. destruct (Z.ltb_spec (dst + Z.of_nat N) dst_end) as [Hlt|Hge].
  - destruct (IH (m + N)%nat (drop N rest) (dst + Z.of_nat N) (src + Z.of_nat N)) as (m' & -> & Hm');
      [lia|lia|lia|done|unfold blen in *; rewrite length_drop; lia|lia|].
    exists (N + m')%nat. rewrite drop_drop, Nat.add_assoc. split; [done|lia].
  - exists N. split; [done|lia].
Qed.
End copies.

(** ** The tables *)

(** After [c] bytes have been made from a match at distance [n], moving the source by [s]
    gives a distance of at least [c] that is a multiple of [n]. *)
Definition shift_ok (n c s : Z) : bool :=
  (0 <=? s) && (s <=? n) && ((n =? 0) || ((c + n - s) mod n =? 0)).

Lemma shifts8 n : 0 ≤ n < 8 → ∃ s1 s2,
  at_ shift8_1 n = Ret s1 ∧ at_ shift8_2 n = Ret s2 ∧ shift_ok n 4 s1 = true ∧ shift_ok n 8 (s1 + s2) = true.
Proof.
  intros Hn. assert (∃ k, n = Z.of_nat k ∧ (k < 8)%nat) as (k & -> & Hk) by (exists (Z.to_nat n); lia).
  clear Hn. do 8 (destruct k as [|k]; [by do 2 eexists|]). lia.
Qed.

Lemma shifts16 n : 0 ≤ n < 16 → ∃ s1 s2 s3,
  at_ shift16_1 n = Ret s1 ∧ at_ shift16_2 n = Ret s2 ∧ at_ shift16_3 n = Ret s3 ∧
  shift_ok n 4 s1 = true ∧ shift_ok n 8 (s1 + s2) = true ∧ shift_ok n 16 (s1 + s2 + s3) = true.
Proof.
  intros Hn. assert (∃ k, n = Z.of_nat k ∧ (k < 16)%nat) as (k & -> & Hk) by (exists (Z.to_nat n); lia).
  clear Hn. do 16 (destruct k as [|k]; [by do 3 eexists|]). lia.
Qed.

Lemma shifts32 n : 0 ≤ n < 32 → ∃ s1 s2 s3 s4,
  at_ shift32_1 n = Ret s1 ∧ at_ shift32_2 n = Ret s2 ∧ at_ shift32_3 n = Ret s3 ∧ at_ shift32_4 n = Ret s4 ∧
  shift_ok n 4 s1 = true ∧ shift_ok n 8 (s1 + s2) = true ∧ shift_ok n 16 (s1 + s2 + s3) = true ∧
  shift_ok n 32 (s1 + s2 + s3 + s4) = true.
Proof.
  intros Hn. assert (∃ k, n = Z.of_nat k ∧ (k < 32)%nat) as (k & -> & Hk) by (exists (Z.to_nat n); lia).
  clear Hn. do 32 (destruct k as [|k]; [by do 4 eexists|]). lia.
Qed.

(** The row of a mask for distance [n]. *)
Definition mask_row (n N : nat) : list Z := (λ i, Z.of_nat (i mod n)) <$> seq 0 N.

Lemma masks8_row n : (n < 8)%nat → ∃ more s,
  read_bytes masks8 (8 * Z.of_nat n) 16 = Ret (take 8 (drop (8 * n) masks8) ++ more) ∧
  read_bytes (take 64 masks8) (8 * Z.of_nat n) 8 = Ret (take 8 (drop (8 * n) masks8)) ∧
  (0 < n → take 8 (drop (8 * n) masks8) = mask_row n 8)%nat ∧
  blen more = 8 ∧ at_ masks8 (Z.of_nat n) = Ret s ∧ shift_ok (Z.of_nat n) 8 s = true.
Proof.
  intros Hn. exists (take 8 (drop (8 * n + 8) masks8)).
  do 8 (destruct n as [|n]; [eexists; vm_compute; repeat split; (done || lia)|]). lia.
Qed.

Lemma masks16_row n : (n < 16)%nat → ∃ s,
  read_bytes masks16 (16 * Z.of_nat n) 16 = Ret (take 16 (drop (16 * n) masks16)) ∧
  read_bytes masks16 (16 * Z.of_nat n) 8 = Ret (take 8 (drop (16 * n) masks16)) ∧
  read_bytes masks16 (16 * Z.of_nat n + 8) 8 = Ret (take 8 (drop (16 * n + 8) masks16)) ∧
  (0 < n → take 16 (drop (16 * n) masks16) = mask_row n 16)%nat ∧
  at_ masks16 (Z.of_nat n) = Ret s ∧ shift_ok (Z.of_nat n) 16 s = true.
Proof.
  intros Hn. do 16 (destruct n as [|n]; [eexists; vm_compute; repeat split; (done || lia)|]). lia.
Qed.

Lemma masks32_row n : (n < 32)%nat → ∃ s,
  read_bytes masks32 (32 * Z.of_nat n) 32 = Ret (take 32 (drop (32 * n) masks32)) ∧
  (0 < n → take 32 (drop (32 * n) masks32) = mask_row n 32)%nat ∧
  at_ masks32 (Z.of_nat n) = Ret s ∧ shift_ok (Z.of_nat n) 32 s = true.
Proof.
  intros Hn. do 32 (destruct n as [|n]; [eexists; vm_compute; repeat split; (done || lia)|]). lia.
Qed.
Lemma shift_ok_dist (n c : nat) (s : Z) :
  (0 < n)%nat → shift_ok (Z.of_nat n) (Z.of_nat c) s = true →
  ∃ d, Z.of_nat d = Z.of_nat c + Z.of_nat n - s ∧ (∃ k, d = k * n)%nat ∧ (c ≤ d ≤ n + c)%nat.
Proof.
  unfold shift_ok. rewrite !andb_true_iff, orb_true_iff, !Z.leb_le, !Z.eqb_eq.
  intros Hn [[Hs1 Hs2] [?|Hm]]; [lia|].
  exists (Z.to_nat (Z.of_nat c + Z.of_nat n - s)). split; [lia|]. split; [|lia].
  apply Z.mod_divide in Hm as [k Hk]; [|lia]. exists (Z.to_nat k). nia.
Qed.

(** * Overlapping copies *)

Section overlap.
Context (w pre : bytes).
Abbreviation n := (length w).
Abbreviation st m rest := (pre ++ seg w 0 m ++ rest).
Context (Hn : (0 < n)%nat).

Lemma copy_4_bytes_seg rest :
  (4 ≤ length rest)%nat →
  copy_4_bytes (st n rest) (blen pre + Z.of_nat n) (blen pre) = Ret (st (n + 4) (drop 4 rest)).
Proof.
  intros Hr. unfold copy_4_bytes, copy_byte.
  pose proof (λ m r i Hm Hr Hi, load_store_seg w pre m r (blen pre + Z.of_nat n + i) (blen pre + i) 1 n
    Hi ltac:(lia) Hm ltac:(exists 1%nat; lia) Hr) as E. change (Z.of_nat 1) with 1 in E.
  pose proof (E n rest 0) as E0. rewrite !Z.add_0_r in E0. rewrite E0 by lia. cbn [mbind outcome_bind].
  rewrite E, drop_drop by (rewrite ?length_drop; lia). cbn [mbind outcome_bind].
  rewrite E, drop_drop by (rewrite ?length_drop; lia). cbn [mbind outcome_bind].
  rewrite E, drop_drop by (rewrite ?length_drop; lia). do 3 f_equal. f_equal. lia.
Qed.

(** Doubling what has been made. *)
Lemma overlap_double (c : nat) (s cz dst src : Z) rest :
  cz = Z.of_nat c → dst = blen pre + Z.of_nat n + cz → src = blen pre + s →
  shift_ok (Z.of_nat n) cz s = true → cz ≤ blen rest →
  memcpy Dest (st (n + c) rest) dst src cz = Ret (st (n + (c + c)) (drop c rest)).
Proof.
  intros -> -> -> (d & Hd & Hk & Hc)%shift_ok_dist Hr; [|done].
  rewrite (memcpy_seg w pre (n + c) rest _ _ c d) by (done || lia || (unfold blen in *; lia)).
  by rewrite Nat.add_assoc.
Qed.

(** What an overlapping copy by [N] bytes does: it makes [N] bytes, and leaves the source
    at a distance from which copies by [N] bytes go on. *)
Definition overlaps (N : nat) (rest : bytes) (r : outcome (bytes * Z)) : Prop :=
  ∃ rest' s, r = Ret (st (n + N) rest', blen pre + s) ∧ blen rest' = blen rest - Z.of_nat N ∧
    shift_ok (Z.of_nat n) (Z.of_nat N) s = true.

Lemma copyOverlap8_seg rest :
  (n < 8)%nat → 8 ≤ blen rest →
  overlaps 8 rest (copyOverlap8 (st n rest) (blen pre + Z.of_nat n) (blen pre) (Z.of_nat n)).
Proof.
  intros HN Hr. destruct (shifts8 (Z.of_nat n)) as (s1 & s2 & E1 & E2 & Hs1 & Hs2); [lia|].
  unfold copyOverlap8. rewrite copy_4_bytes_seg by (unfold blen in *; lia). cbn [mbind outcome_bind].
  rewrite E1. cbn [mbind outcome_bind].
  rewrite (overlap_double 4 (s1)), drop_drop by (done || lia || blia). cbn [mbind outcome_bind Nat.add].
  rewrite E2. cbn [mbind outcome_bind].
  exists (drop 8 rest), (s1 + s2). rewrite !Z.add_assoc. split; [done|]. split; [blia|done].
Qed.

Lemma copyOverlap16_seg rest :
  (n < 16)%nat → 16 ≤ blen rest →
  overlaps 16 rest (copyOverlap16 (st n rest) (blen pre + Z.of_nat n) (blen pre) (Z.of_nat n)).
Proof.
  intros HN Hr. destruct (shifts16 (Z.of_nat n)) as (s1 & s2 & s3 & E1 & E2 & E3 & Hs1 & Hs2 & Hs3); [lia|].
  unfold copyOverlap16. rewrite copy_4_bytes_seg by (unfold blen in *; lia). cbn [mbind outcome_bind].
  rewrite E1. cbn [mbind outcome_bind].
  rewrite (overlap_double 4 (s1)), drop_drop by (done || lia || blia). cbn [mbind outcome_bind Nat.add].
  rewrite E2. cbn [mbind outcome_bind].
  rewrite (overlap_double 8 (s1 + s2)), drop_drop by (done || lia || blia). cbn [mbind outcome_bind Nat.add].
  rewrite E3. cbn [mbind outcome_bind].
  exists (drop 16 rest), (s1 + s2 + s3). rewrite !Z.add_assoc. split; [done|]. split; [blia|done].
Qed.

Lemma copyOverlap32_seg rest :
  (n < 32)%nat → 32 ≤ blen rest →
  overlaps 32 rest (copyOverlap32 (st n rest) (blen pre + Z.of_nat n) (blen pre) (Z.of_nat n)).
Proof.
  intros HN Hr. destruct (shifts32 (Z.of_nat n)) as (s1 & s2 & s3 & s4 & E1 & E2 & E3 & E4 & Hs1 & Hs2 & Hs3 & Hs4); [lia|].
  unfold copyOverlap32. rewrite copy_4_bytes_seg by (unfold blen in *; lia). cbn [mbind outcome_bind].
  rewrite E1. cbn [mbind outcome_bind].
  rewrite (overlap_double 4 (s1)), drop_drop by (done || lia || blia). cbn [mbind outcome_bind Nat.add].
  rewrite E2. cbn [mbind outcome_bind].
  rewrite (overlap_double 8 (s1 + s2)), drop_drop by (done || lia || blia). cbn [mbind outcome_bind Nat.add].
  rewrite E3. cbn [mbind outcome_bind].
  rewrite (overlap_double 16 (s1 + s2 + s3)), drop_drop by (done || lia || blia). cbn [mbind outcome_bind Nat.add].
  rewrite E4. cbn [mbind outcome_bind].
  exists (drop 32 rest), (s1 + s2 + s3 + s4). rewrite !Z.add_assoc. split; [done|]. split; [blia|done].
Qed.

(** ** Shuffles *)

Lemma read_vector m rest L :
  (n ≤ m)%nat → Z.of_nat n ≤ L ≤ Z.of_nat m + blen rest →
  ∃ v', read_bytes (st m rest) (blen pre) L = Ret (w ++ v') ∧ blen (w ++ v') = L.
Proof.
  intros Hm HL. replace m with (n + (m - n))%nat by lia. rewrite seg_app, seg_all.
  set (tl := seg w (0 + n) (m - n) ++ rest).
  assert (blen tl = Z.of_nat m - Z.of_nat n + blen rest) as Htl
    by (unfold tl; rewrite blen_app, blen_seg; lia).
  destruct (split_at tl (L - Z.of_nat n)) as (v' & tl' & E & Hv'); [lia|].
  exists v'. rewrite <- app_assoc. fold tl. rewrite E, (app_assoc w). split.
  - apply read_bytes_app; [done|]. rewrite blen_app, Hv'. unfold blen. lia.
  - rewrite blen_app, Hv'. unfold blen. lia.
Qed.

Lemma pick_vector v' i : pick (w ++ v') (Z.of_nat (i mod n)) = nth (i mod n) w 0.
Proof. unfold pick. rewrite Nat2Z.id. apply app_nth1, Nat.mod_upper_bound. lia. Qed.

(** A mask whose bytes are indices modulo the distance picks the repeated bytes. *)
Lemma shuffle_row v' a N :
  (n ≤ 16)%nat → mm_shuffle_epi8 (w ++ v') ((λ i, Z.of_nat (i mod n)) <$> seq a N) = seg w a N.
Proof.
  intros H16. unfold mm_shuffle_epi8, seg. rewrite <- list_fmap_compose. apply list_fmap_ext.
  intros j i _. simpl. pose proof (Nat.mod_upper_bound i n ltac:(lia)) as Hi.
  rewrite (proj2 (Z.leb_gt _ _)) by lia. change 15 with (Z.ones 4). rewrite Z.land_ones by lia.
  rewrite Z.mod_small by (change (2 ^ 4) with 16; lia). apply pick_vector.
Qed.

Lemma vtbl_row v' a N : vtbl_u8 (w ++ v') ((λ i, Z.of_nat (i mod n)) <$> seq a N) = seg w a N.
Proof.
  unfold vtbl_u8, seg. rewrite <- list_fmap_compose. apply list_fmap_ext.
  intros j i _. simpl. pose proof (Nat.mod_upper_bound i n ltac:(lia)) as Hi.
  rewrite (proj2 (Z.ltb_lt _ _)); [apply pick_vector|]. rewrite blen_app. unfold blen. lia.
Qed.

Lemma permute_row v' a N :
  (n ≤ 32)%nat → mm256_permutexvar_epi8 ((λ i, Z.of_nat (i mod n)) <$> seq a N) (w ++ v') = seg w a N.
Proof.
  intros H32. unfold mm256_permutexvar_epi8, seg. rewrite <- list_fmap_compose. apply list_fmap_ext.
  intros j i _. simpl. pose proof (Nat.mod_upper_bound i n ltac:(lia)) as Hi.
  change 31 with (Z.ones 5). rewrite Z.land_ones by lia.
  rewrite Z.mod_small by (change (2 ^ 5) with 32; lia). apply pick_vector.
Qed.

Lemma write_row m s c rest pos :
  pos = blen pre + Z.of_nat m → (m = s + n)%nat → (c ≤ length rest)%nat →
  write_bytes (st m rest) pos (seg w s c) = Ret (st (m + c) (drop c rest)).
Proof. intros ? ? ?. apply write_seg; [done|exists 1%nat; lia|done]. Qed.

Lemma copyOverlap8Shuffle_seg t rest :
  (n < 8)%nat → 16 ≤ blen rest →
  overlaps 8 rest (copyOverlap8Shuffle t (st n rest) (blen pre + Z.of_nat n) (blen pre) (Z.of_nat n)).
Proof.
  intros HN Hr. unfold copyOverlap8Shuffle.
  destruct (masks8_row n HN) as (more & s & E16 & E8 & Hrow & Hmore & Es & Hs).
  rewrite (Hrow Hn) in E16, E8. destruct (AARCH64 t); [|destruct (SSSE3 t); [|apply copyOverlap8_seg; lia]].
  - unfold copyOverlap8Shuffle_AARCH64.
    destruct (read_vector n rest 8) as (v' & -> & Hv); [lia..|]. cbn [mbind outcome_bind].
    rewrite E8. cbn [mbind outcome_bind]. unfold mask_row. rewrite vtbl_row.
    rewrite write_row by (done || lia || (unfold blen in *; lia)). cbn [mbind outcome_bind].
    rewrite Es. cbn [mbind outcome_bind]. eexists _, _. split; [done|]. split; [blia|done].
  - unfold copyOverlap8Shuffle_SSSE3.
    destruct (read_vector n rest 16) as (v' & -> & Hv); [lia..|]. cbn [mbind outcome_bind].
    rewrite E16. cbn [mbind outcome_bind]. unfold mask_row, mm_shuffle_epi8. rewrite fmap_app.
    fold (mm_shuffle_epi8 (w ++ v') ((λ i, Z.of_nat (i mod n)) <$> seq 0 8)).
    rewrite shuffle_row by lia. set (more' := _ <$> more).
    assert (blen more' = 8) by (unfold more', blen in *; rewrite length_fmap; lia).
    rewrite (app_assoc pre), write_at by (rewrite ?blen_app, ?blen_seg; lia).
    cbn [mbind outcome_bind]. rewrite Es. cbn [mbind outcome_bind].
    exists (over more' (drop 8 rest)), s. split_and!; [|rewrite blen_over; blia|done].
    rewrite over_app, length_seg, (seg_app w 0 n 8), <- !app_assoc. do 4 f_equal.
    by rewrite <- (seg_period w 0 8 1), Nat.mul_1_l.
Qed.

Lemma copyOverlap16Shuffle_seg t rest :
  (n < 16)%nat → 16 ≤ blen rest →
  overlaps 16 rest (copyOverlap16Shuffle t (st n rest) (blen pre + Z.of_nat n) (blen pre) (Z.of_nat n)).
Proof.
  intros HN Hr. unfold copyOverlap16Shuffle.
  destruct (masks16_row n HN) as (s & E16 & E8 & E8' & Hrow & Es & Hs).
  destruct (AARCH64 t); [|destruct (SSSE3 t); [|apply copyOverlap16_seg; lia]].
  - unfold copyOverlap16Shuffle_AARCH64.
    assert (take 8 (drop (16 * n) masks16) = (λ i, Z.of_nat (i mod n)) <$> seq 0 8) as Hrow1.
    { change 8%nat with (8 `min` 16)%nat at 1. by rewrite <- take_take, (Hrow Hn). }
    assert (take 8 (drop (16 * n + 8) masks16) = (λ i, Z.of_nat (i mod n)) <$> seq 8 8) as Hrow2.
    { rewrite <- drop_drop, take_drop_commute. change (8 + 8)%nat with 16%nat. by rewrite (Hrow Hn). }
    rewrite Hrow1 in E8. rewrite Hrow2 in E8'.
    destruct (read_vector n rest 16) as (v' & -> & Hv); [lia..|]. cbn [mbind outcome_bind].
    rewrite E8. cbn [mbind outcome_bind]. rewrite vtbl_row.
    rewrite write_row by (done || lia || (unfold blen in *; lia)). cbn [mbind outcome_bind].
    destruct (read_vector (n + 8) (drop 8 rest) 16) as (v2 & -> & Hv2); [lia|blia|]. cbn [mbind outcome_bind].
    rewrite E8'. cbn [mbind outcome_bind]. rewrite vtbl_row.
    rewrite write_row by (rewrite ?length_drop; unfold blen in *; lia). cbn [mbind outcome_bind].
    rewrite Es. cbn [mbind outcome_bind]. rewrite drop_drop, <- Nat.add_assoc.
    eexists _, _. split; [done|]. split; [blia|done].
  - unfold copyOverlap16Shuffle_SSSE3. rewrite (Hrow Hn) in E16.
    destruct (read_vector n rest 16) as (v' & -> & Hv); [lia..|]. cbn [mbind outcome_bind].
    rewrite E16. cbn [mbind outcome_bind]. unfold mask_row. rewrite shuffle_row by lia.
    rewrite write_row by (done || lia || (unfold blen in *; lia)). cbn [mbind outcome_bind].
    rewrite Es. cbn [mbind outcome_bind]. eexists _, _. split; [done|]. split; [blia|done].
Qed.

Lemma copyOverlap32Shuffle_seg rest :
  (n < 32)%nat → 32 ≤ blen rest →
  overlaps 32 rest (copyOverlap32Shuffle (st n rest) (blen pre + Z.of_nat n) (blen pre) (Z.of_nat n)).
Proof.
  intros HN Hr. unfold copyOverlap32Shuffle.
  destruct (masks32_row n HN) as (s & E32 & Hrow & Es & Hs). rewrite (Hrow Hn) in E32.
  rewrite E32. cbn [mbind outcome_bind].
  destruct (read_vector n rest 32) as (v' & -> & Hv); [lia..|]. cbn [mbind outcome_bind].
  unfold mask_row. rewrite permute_row by lia.
  rewrite write_row by (done || lia || (unfold blen in *; lia)). cbn [mbind outcome_bind].
  rewrite Es. cbn [mbind outcome_bind]. eexists _, _. split; [done|]. split; [blia|done].
Qed.

Lemma copyOverlap_seg t N sh rest :
  amount N → (n < N)%nat → 32 ≤ blen rest →
  overlaps N rest (copyOverlap t (Z.of_nat N) sh (st n rest) (blen pre + Z.of_nat n) (blen pre) (Z.of_nat n)).
Proof.
  intros [-> | [-> | ->]] HN Hr; unfold copyOverlap.
  - change (Z.of_nat 8 =? 8) with true. cbn iota.
    destruct sh; [apply copyOverlap8Shuffle_seg|apply copyOverlap8_seg]; lia.
  - change (Z.of_nat 16 =? 8) with false. change (Z.of_nat 16 =? 16) with true. cbn iota.
    destruct sh; [apply copyOverlap16Shuffle_seg|apply copyOverlap16_seg]; lia.
  - change (Z.of_nat 32 =? 8) with false. change (Z.of_nat 32 =? 16) with false. cbn iota.
    destruct (sh && _); [apply copyOverlap32Shuffle_seg|apply copyOverlap32_seg]; lia.
Qed.
End overlap.
(** * Matches *)

(** The bytes a match repeats are the last [offset] ones. *)
Lemma repeat_match_seg w pre m k :
  (0 < length w)%nat → (length w ≤ m)%nat →
  repeat_match (pre ++ seg w 0 m) (blen w) k = pre ++ seg w 0 (m + k).
Proof.
  intros Hw. revert m. induction k as [|k IH]; intros m Hm; simpl; [by rewrite Nat.add_0_r|].
  replace (m + S k)%nat with (S m + k)%nat by lia. rewrite <- IH by lia. f_equal.
  replace (S m) with (m + 1)%nat by lia. rewrite seg_app, app_assoc. f_equal. unfold seg. simpl. f_equal.
  unfold pick. replace (Z.to_nat _) with (length pre + (m - length w))%nat
    by (unfold blen; rewrite length_app, length_fmap, length_seq; lia).
  rewrite app_nth2_plus. erewrite nth_lookup_Some; [done|].
  rewrite list_lookup_fmap, lookup_seq_lt by lia. simpl. do 2 f_equal.
  transitivity ((m - length w + 1 * length w) mod length w)%nat; [by rewrite Nat.Div0.mod_add|f_equal; lia].
Qed.

Section match_copies.
Context (t : Target) (N : nat) (use_shuffle : bool) (HN : amount N).
Context (output_end : Z).

Lemma first_copy w pre rest :
  (0 < length w)%nat → 32 ≤ blen rest →
  overlaps w pre N rest
    (if Z.of_nat (length w) <? Z.of_nat N
     then copyOverlap t (Z.of_nat N) use_shuffle (pre ++ seg w 0 (length w) ++ rest)
       (blen pre + Z.of_nat (length w)) (blen pre) (Z.of_nat (length w))
     else dmem ← copy t (Z.of_nat N) Dest (pre ++ seg w 0 (length w) ++ rest)
       (blen pre + Z.of_nat (length w)) (blen pre); Ret (dmem, blen pre + Z.of_nat N)).
Proof.
  intros Hw Hr. destruct (Z.ltb_spec (Z.of_nat (length w)) (Z.of_nat N)); [by apply copyOverlap_seg; [..|lia|]|].
  assert (N ≤ 32)%nat by (destruct HN as [-> | [-> | ->]]; lia).
  rewrite (copy_seg t N w pre (length w) rest _ _ (length w));
    [|done|lia|lia|lia|exists 1%nat; lia|unfold blen in *; lia].
  cbn [mbind outcome_bind]. exists (drop N rest), (Z.of_nat N). split; [done|]. split; [blia|].
  unfold shift_ok. rewrite !andb_true_iff, orb_true_iff, !Z.leb_le, !Z.eqb_eq.
  split; [lia|right]. replace (_ + _ - _) with (1 * Z.of_nat (length w)) by lia. apply Z_mod_mult.
Qed.

(** [copy_match] makes the bytes of the match; what follows them may change. *)
Lemma copy_match_spec out rest (offset length : Z) :
  1 ≤ offset ≤ blen out → 4 ≤ length → length + 64 ≤ blen rest → blen out + length ≤ output_end →
  ∃ rest', copy_match t (Z.of_nat N) use_shuffle output_end (blen out) offset length (out ++ rest) =
      Ret (true, repeat_match out offset (Z.to_nat length) ++ rest') ∧
    blen rest' = blen rest - length ∧ blen (repeat_match out offset (Z.to_nat length)) = blen out + length.
Proof.
  intros Ho Hlen Hrest Hend. destruct (split_at out (blen out - offset)) as (pre & w & Hout & Hpre); [lia|].
  rewrite <- (seg_all w) in Hout. subst out. rewrite blen_app, blen_seg in *.
  assert (offset = blen w) as -> by (unfold blen in *; lia).
  assert (0 < List.length w)%nat as Hw by (unfold blen in *; lia).
  assert (8 ≤ N ≤ 32)%nat as HN32 by (destruct HN as [-> | [-> | ->]]; lia).
  rewrite repeat_match_seg by lia. rewrite !blen_app, !blen_seg, <- !app_assoc. unfold copy_match.
  change (blen w) with (Z.of_nat (List.length w)).
  destruct (first_copy w pre rest Hw ltac:(lia)) as (rest1 & s & E & Hr1 & Hs).
  replace (blen pre + Z.of_nat (List.length w) - Z.of_nat (List.length w)) with (blen pre) by lia.
  rewrite E. cbn [mbind outcome_bind]. clear E.
  destruct (shift_ok_dist _ _ _ Hw Hs) as (d & Hd & Hk & Hdb).
  rewrite (copy_seg t N w pre (List.length w + N) rest1 _ _ d);
    [|done|lia|lia|lia|done|unfold blen in *; lia].
  cbn [mbind outcome_bind]. set (rest2 := drop N rest1).
  assert (blen rest2 = blen rest1 - Z.of_nat N) as Hr2 by (unfold rest2; blia).
  set (L := Z.to_nat length).
  (* enough bytes have been made *)
  assert (∀ m rest3, (List.length w + L ≤ m)%nat → blen rest3 = blen rest + Z.of_nat (List.length w) - Z.of_nat m →
    ∃ rest', pre ++ seg w 0 m ++ rest3 = pre ++ seg w 0 (List.length w + L) ++ rest' ∧
      blen rest' = blen rest - length) as Hdone.
  { intros m rest3 Hm Hr3. replace m with (List.length w + L + (m - (List.length w + L)))%nat by lia.
    rewrite seg_app, <- app_assoc. eexists. split; [done|]. rewrite blen_app, blen_seg. lia. }
  destruct (Z.ltb_spec (Z.of_nat N * 2) length) as [Hlong|Hshort].
  - rewrite (proj2 (Z.ltb_ge _ _)) by lia.
    destruct (wildCopy_seg t N w pre d (S L) (List.length w + N + N) rest2
      (blen pre + Z.of_nat (List.length w) + Z.of_nat N + Z.of_nat N) (blen pre + s + Z.of_nat N)
      (blen pre + Z.of_nat (List.length w) + length)) as (m' & E & Hm');
      [done|lia|lia|lia|done|lia|lia|lia|].
    rewrite E. cbn [mbind outcome_bind]. 
    destruct (Hdone (List.length w + N + N + m')%nat (drop m' rest2)) as (rest' & -> & ?); [lia|rewrite blen_drop; lia|].
    exists rest'. rewrite <- app_assoc. split; [done|lia].
  - destruct (Hdone (List.length w + N + N)%nat rest2) as (rest' & -> & ?); [lia..|].
    exists rest'. rewrite <- app_assoc. split; [done|lia].
Qed.
End match_copies.
(** * Literals and lengths *)

Section literals.
Context (t : Target) (N : nat) (HN : amount N).
Implicit Types pre rest smem : bytes.

Lemma read_bytes_range (buf : bytes) (pos n : nat) :
  (pos + n ≤ length buf)%nat → read_bytes buf (Z.of_nat pos) (Z.of_nat n) = Ret (take n (drop pos buf)).
Proof.
  intros Hl. unfold read_bytes. rewrite !Nat2Z.id.
  by replace (_ && _ && _) with true by (symmetry; rewrite !andb_true_iff, !Z.leb_le; unfold blen; lia).
Qed.

Lemma load_store_source smem pre rest dst (src n : nat) :
  dst = blen pre → (src + n ≤ length smem)%nat → (n ≤ length rest)%nat →
  load_store (Source smem) (pre ++ rest) dst (Z.of_nat src) (Z.of_nat n) =
    Ret ((pre ++ take n (drop src smem)) ++ drop n rest).
Proof.
  intros -> Hs Hr. unfold load_store. cbn [read_from]. rewrite read_bytes_range by done. cbn [mbind outcome_bind].
  assert (length (take n (drop src smem)) = n) as Hl by (rewrite length_take, length_drop; lia).
  rewrite write_at by (done || (unfold blen; lia)). unfold over. by rewrite Hl, app_assoc.
Qed.

Lemma copy_source smem pre rest dst (src : nat) :
  dst = blen pre → (src + N ≤ length smem)%nat → (N ≤ length rest)%nat →
  copy t (Z.of_nat N) (Source smem) (pre ++ rest) dst (Z.of_nat src) =
    Ret ((pre ++ take N (drop src smem)) ++ drop N rest).
Proof.
  intros -> Hs Hr.
  assert (∀ n, (n ≤ N)%nat → memcpy (Source smem) (pre ++ rest) (blen pre) (Z.of_nat src) (Z.of_nat n) =
    Ret ((pre ++ take n (drop src smem)) ++ drop n rest)) as Hm by (intros; apply load_store_source; lia).
  pose proof (λ n (Hle : (n ≤ N)%nat), load_store_source smem pre rest (blen pre) src n eq_refl
    ltac:(lia) ltac:(lia)) as Hl.
  unfold copy. destruct HN as [-> | [-> | ->]].
  - apply (Hm 8%nat). lia.
  - change (Z.of_nat 16 =? 8) with false. change (Z.of_nat 16 =? 16) with true. cbn iota. unfold copy16.
    destruct (SSE2 t); [apply (Hl 16%nat)|apply (Hm 16%nat)]; lia.
  - change (Z.of_nat 32 =? 8) with false. change (Z.of_nat 32 =? 16) with false. cbn iota. unfold copy32.
    pose proof (Hm 16%nat ltac:(lia)) as Hm16. pose proof (Hl 16%nat ltac:(lia)) as Hl16.
    change (Z.of_nat 16) with 16 in *.
    assert (length (take 16 (drop src smem)) = 16%nat) as Ht by (rewrite length_take, length_drop; lia).
    pose proof (load_store_source smem (pre ++ take 16 (drop src smem)) (drop 16 rest) (blen pre + 16) (src + 16) 16)
      as Hl2. change (Z.of_nat 16) with 16 in *. replace (Z.of_nat (src + 16)) with (Z.of_nat src + 16) in Hl2 by lia.
    replace (take 32 (drop src smem)) with (take 16 (drop src smem) ++ take 16 (drop (src + 16) smem))
      by (rewrite <- drop_drop; apply (take_take_drop _ 16 16)).
    rewrite app_assoc. change (drop 32 rest) with (drop (16 + 16) rest). rewrite <- (drop_drop rest).
    destruct (SSE2 t); [rewrite Hl16|rewrite Hm16]; cbn [mbind outcome_bind]; (etransitivity; [|apply Hl2]; [done|..]);
      rewrite ?blen_app, ?length_drop; unfold blen; rewrite ?Ht; lia.
Qed.

(** [wildCopy] from the source copies at least up to [dst_end]. *)
Lemma wildCopy_source smem fuel pre rest dst (src len : nat) :
  dst = blen pre → (len < fuel)%nat →
  (src + (len / N + 1) * N ≤ length smem)%nat → ((len / N + 1) * N ≤ length rest)%nat →
  ∃ n, (len ≤ n ≤ (len / N + 1) * N)%nat ∧
    wildCopy t (Z.of_nat N) (Source smem) fuel (pre ++ rest) dst (Z.of_nat src) (dst + Z.of_nat len) =
      Ret (pre ++ take n (drop src smem) ++ drop n rest).
Proof.
  assert (0 < N)%nat as HN0 by (destruct HN as [-> | [-> | ->]]; lia).
  revert pre rest dst src len. induction fuel as [|fuel IH]; intros pre rest dst src len Hdst Hf Hs Hr; [lia|].
  cbn [wildCopy]. rewrite copy_source by (done || lia). cbn [mbind outcome_bind].
  destruct (Z.ltb_spec (dst + Z.of_nat N) (dst + Z.of_nat len)) as [Hlt|Hge].
  - assert ((len / N = (len - N) / N + 1)%nat) as Hq.
    { replace len with (len - N + 1 * N)%nat at 1 by lia. rewrite Nat.div_add by lia. lia. }
    rewrite Hq, (Nat.mul_add_distr_r (_ + 1)), Nat.mul_1_l in Hs, Hr.
    replace (Z.of_nat src + Z.of_nat N) with (Z.of_nat (src + N)) by lia.
    replace (dst + Z.of_nat len) with (dst + Z.of_nat N + Z.of_nat (len - N)) by lia.
    assert (length (take N (drop src smem)) = N) as Hl by (rewrite length_take, length_drop; lia).
    destruct (IH (pre ++ take N (drop src smem)) (drop N rest) (dst + Z.of_nat N) (src + N)%nat (len - N)%nat)
      as (n & Hn & ->); [rewrite blen_app; unfold blen in *; lia|lia| | |].
    { by rewrite <- Nat.add_assoc, (Nat.add_comm N). }
    { rewrite length_drop. by apply Nat.le_add_le_sub_r. }
    exists (N + n)%nat. rewrite Hq, (Nat.mul_add_distr_r (_ + 1)), Nat.mul_1_l. split; [lia|]. rewrite drop_drop, <- app_assoc. do 2 f_equal. rewrite app_assoc. f_equal.
    rewrite <- (drop_drop smem N src). apply take_take_drop.
  - exists N. split; [|by rewrite <- app_assoc].
    split; [lia|]. rewrite Nat.mul_add_distr_r, Nat.mul_1_l. apply Nat.le_add_l.
Qed.
End literals.

Lemma continue_read_length_spec (k : nat) (r : Z) pre post input_end fuel length :
  0 ≤ r < 255 → (k < fuel)%nat → blen pre + Z.of_nat k < input_end →
  0 ≤ length → length + 255 * Z.of_nat k + r < 2 ^ 64 →
  continue_read_length fuel (pre ++ replicate k 255 ++ r :: post) input_end (blen pre) length =
    Ret (blen pre + Z.of_nat k + 1, length + 255 * Z.of_nat k + r).
Proof.
  intros Hr. revert pre fuel length. induction k as [|k IH]; intros pre fuel length Hf Hend Hl Hmax;
    (destruct fuel as [|fuel]; [lia|]); cbn [continue_read_length replicate app].
  - rewrite load_byte by done. cbn [mbind outcome_bind]. rewrite (proj2 (Z.eqb_neq r 255)) by lia. cbn [andb].
    rewrite wrap_small by zlia. do 2 f_equal; lia.
  - rewrite load_byte by done. cbn [mbind outcome_bind]. change (255 =? 255) with true.
    rewrite (proj2 (Z.ltb_lt _ _)) by lia. cbn [andb]. rewrite wrap_small by zlia.
    replace (pre ++ 255 :: replicate k 255 ++ r :: post) with ((pre ++ [255]) ++ replicate k 255 ++ r :: post)
      by (by rewrite <- app_assoc).
    replace (blen pre + 1) with (blen (pre ++ [255])) by blia.
    rewrite IH by (rewrite ?blen_app, ?blen_cons, ?blen_nil; lia). do 2 f_equal; blia.
Qed.

Lemma read_length_spec (l : Z) pre post input_end :
  0 ≤ l < 2 ^ 63 → blen pre + blen (length_bytes l) < input_end →
  read_length (pre ++ length_bytes l ++ post) input_end (blen pre) (nibble l) =
    Ret (Some (blen pre + blen (length_bytes l), l)).
Proof.
  intros Hl Hend. unfold read_length, nibble, length_bytes in *. destruct (Z.ltb_spec l 15).
  - rewrite Z.min_l, (proj2 (Z.eqb_neq _ _)) by lia. do 3 f_equal. blia.
  - rewrite Z.min_r by lia. change (15 =? 15) with true. cbn iota.
    pose proof (Z.mod_pos_bound (l - 15) 255 ltac:(lia)). pose proof (Z.div_mod (l - 15) 255 ltac:(lia)) as Hdm.
    pose proof (Z.div_pos (l - 15) 255 ltac:(lia) ltac:(lia)).
    set (q := (l - 15) / 255) in *. set (r := (l - 15) mod 255) in *. clearbody q r.
    rewrite blen_app, blen_replicate, blen_cons, blen_nil in *.
    rewrite (proj2 (Z.leb_gt _ _)) by lia. rewrite <- app_assoc. cbn [app].
    rewrite continue_read_length_spec by (lia || zlia). cbn [mbind outcome_bind]. do 3 f_equal; lia.
Qed.
End LZ4.
