(* ===== verification/LZ4Block.v ===== *)
(** The LZ4 decompressor on whole blocks: it decodes every block of the LZ4 format, and
    on any other bytes it stays within its buffers and terminates
    (src/src/Compression/LZ4_decompress_faster.cpp); and the codec LZ4 made of it
    (CompressionCodecLZ4.cpp). *)

From S2P Require Import Prelude LZ4Decompress.
From stdpp Require Import base tactics list numbers list_numbers.
Local Open Scope Z_scope.
Import LZ4.

(** * Blocks of the format *)

Lemma nibble_range l : 0 ≤ l → 0 ≤ nibble l < 16.
Proof. unfold nibble. lia. Qed.

Lemma token_high a b : 0 ≤ b < 16 → Z.shiftr (a * 16 + b) 4 = a.
Proof. intros. rewrite Z.shiftr_div_pow2 by lia. change (2 ^ 4) with 16. rewrite Z.div_add_l, Z.div_small by lia. lia. Qed.

Lemma token_low a b : 0 ≤ b < 16 → Z.land (a * 16 + b) 0x0F = b.
Proof.
  intros. change 0x0F with (Z.ones 4). rewrite Z.land_ones by lia. change (2 ^ 4) with 16.
  rewrite Z.add_comm, Z.mod_add, Z.mod_small by lia. done.
Qed.

Lemma readLE16_spec pre (x : Z) post :
  0 ≤ x < 2 ^ 16 → LZ4_readLE16 (pre ++ le_split 2 x ++ post) (blen pre) = Ret x.
Proof.
  intros Hx. unfold LZ4_readLE16. cbn [le_split app]. rewrite (load_byte pre _ _ (blen pre)) by done. cbn [mbind outcome_bind].
  replace (pre ++ x mod 256 :: x / 256 mod 256 :: post) with ((pre ++ [x mod 256]) ++ x / 256 mod 256 :: post)
    by (by rewrite <- app_assoc).
  rewrite load_byte by blia. cbn [mbind outcome_bind]. f_equal. rewrite Z.shiftl_mul_pow2 by lia.
  change (2 ^ 16) with 65536 in Hx. change (2 ^ 8) with 256.
  rewrite (Z.mod_small (x / 256)) by (split; [apply Z.div_pos; lia|apply Z.div_lt_upper_bound; lia]).
  pose proof (Z.div_mod x 256). lia.
Qed.

Lemma blen_repeat_match out offset n : blen (repeat_match out offset n) = blen out + Z.of_nat n.
Proof. revert out. induction n as [|n IH]; intros out; simpl; [lia|]. rewrite IH. blia. Qed.

Lemma blen_apply_seq out s :
  0 ≤ match_length s → blen (apply_seq out s) = blen out + blen (literals s) + match_length s.
Proof. intros. unfold apply_seq. rewrite blen_repeat_match. blia. Qed.

Lemma lz4_rest_grows out block final : lz4_rest out block final → blen out < blen final ∧ 0 < blen block.
Proof.
  induction 1 as [out low lits Hb Hne|out s block final Hb Ho Ho' Hm Hrest IH].
  - destruct lits as [|b lits]; [done|]. split; [blia|]. unfold encode_last. rewrite blen_cons.
    pose proof (blen_nonneg (length_bytes (blen (b :: lits)) ++ b :: lits)). lia.
  - rewrite blen_apply_seq in IH by lia. pose proof (blen_nonneg (literals s)).
    rewrite blen_app. pose proof (blen_nonneg (encode_seq s)). lia.
Qed.

Section blocks.
Context (t : Target) (N : nat) (use_shuffle : bool) (HN : amount N).
Abbreviation c := (Z.of_nat N).

Lemma amount_range : (8 ≤ N ≤ 32)%nat.
Proof. destruct HN as [-> | [-> | ->]]; lia. Qed.

Lemma real_length_range l : 0 ≤ l < 2 ^ 63 → real_length c l = (l / c + 1) * c ∧ l < (l / c + 1) * c ≤ l + c.
Proof.
  intros Hl. assert (0 < c) by (pose proof amount_range; lia).
  pose proof (Z.div_mod l c ltac:(lia)). pose proof (Z.mod_pos_bound l c ltac:(lia)).
  split; [|nia]. unfold real_length.
  pose proof (Z.div_pos l c ltac:(lia) ltac:(lia)).
  assert ((l / c + 1) * c ≤ l + c) as Hle by nia. pose proof amount_range as Hr.
  destruct HN as [-> | [-> | ->]];
    [change (Z.of_nat 8) with 8 in *|change (Z.of_nat 16) with 16 in *|change (Z.of_nat 32) with 32 in *];
    cbn [Z.eqb Pos.eqb]; rewrite Z.shiftr_div_pow2 by lia; pow2_consts; (rewrite wrap_small; [done|]); zlia.
Qed.

Lemma copy_literals_spec lits low pre post input_end output_end out rest :
  0 ≤ low < 16 →
  blen pre + blen (length_bytes (blen lits)) < input_end →
  blen pre + blen (length_bytes (blen lits)) + blen lits ≤ input_end →
  input_end + 64 ≤ blen (pre ++ length_bytes (blen lits) ++ lits ++ post) →
  blen lits < 2 ^ 63 → blen out + blen lits ≤ output_end → blen lits + 64 ≤ blen rest →
  ∃ rest', blen rest' = blen rest - blen lits ∧
    copy_literals t c (pre ++ length_bytes (blen lits) ++ lits ++ post) input_end output_end
      (nibble (blen lits) * 16 + low) (blen pre) (blen out) (out ++ rest) =
    Ret (if blen out + blen lits =? output_end then Return true ((out ++ lits) ++ rest')
         else Go (blen pre + blen (length_bytes (blen lits)) + blen lits) (blen out + blen lits)
                ((out ++ lits) ++ rest')).
Proof.
  intros Hlow Hlt Hend Hsrc Hl Hout Hrest. pose proof (blen_nonneg lits) as Hl0. pose proof amount_range as HNr.
  unfold copy_literals. rewrite token_high by done.
  rewrite (read_length_spec (blen lits) pre) by lia. cbn [mbind outcome_bind].
  rewrite (proj2 (Z.ltb_ge _ _)) by lia.
  destruct (real_length_range (blen lits)) as [Hreal Hrr]; [lia|].
  unfold ADDITIONAL_BYTES_AT_END_OF_BUFFER. rewrite Hreal, (proj2 (Z.leb_gt _ _)) by lia.
  rewrite (app_assoc pre) in *. set (pre' := pre ++ length_bytes (blen lits)) in *.
  replace (blen pre + blen (length_bytes (blen lits))) with (blen pre') in * by (unfold pre'; by rewrite blen_app).
  set (source := pre' ++ lits ++ post) in *.
  assert (Z.of_nat ((length lits / N + 1) * N) = (blen lits / c + 1) * c) as Hq
    by (unfold blen; rewrite Nat2Z.inj_mul, Nat2Z.inj_add, Nat2Z.inj_div; lia).
  destruct (wildCopy_source t N HN source (S (Z.to_nat (blen lits))) out rest (blen out) (length pre') (length lits))
    as (n & Hn & Hcopy); [done|unfold blen; lia|unfold blen in *; lia|unfold blen in *; lia|].
  change (Z.of_nat (length pre')) with (blen pre') in Hcopy. change (Z.of_nat (length lits)) with (blen lits) in Hcopy.
  rewrite Hcopy. cbn [mbind outcome_bind]. unfold source in *. rewrite drop_app_length.
  rewrite take_app_ge by lia. exists (take (n - length lits) post ++ drop n rest).
  rewrite !blen_app in Hsrc. rewrite <- !app_assoc. split; [|by destruct (_ =? _)].
  rewrite blen_app, blen_take, blen_drop. unfold blen in *. lia.
Qed.

Lemma decompress_match_spec (offset length : Z) high pre block tail output_end out rest :
  1 ≤ offset < 2 ^ 16 → offset ≤ blen out → 4 ≤ length < 2 ^ 63 → 0 < blen block →
  blen out + length ≤ output_end → length + 64 ≤ blen rest →
  let enc := le_split 2 offset ++ length_bytes (length - 4) in
  ∃ rest', blen rest' = blen rest - length ∧
    decompress_match t c use_shuffle (pre ++ enc ++ block ++ tail) (blen pre + blen enc + blen block) output_end
      (high * 16 + nibble (length - 4)) (blen pre) (blen out) (out ++ rest) =
    Ret (Go (blen pre + blen enc) (blen out + length) (repeat_match out offset (Z.to_nat length) ++ rest')).
Proof.
  intros Hoff Hoff' Hlen Hblock Hout Hrest enc. unfold decompress_match.
  assert (blen enc = 2 + blen (length_bytes (length - 4))) as Henc
    by (unfold enc; rewrite blen_app, blen_le_split; lia).
  pose proof (blen_nonneg (length_bytes (length - 4))).
  rewrite (proj2 (Z.leb_gt _ _)) by lia.
  replace (LZ4_readLE16 _ _) with (Ret offset)
    by (symmetry; unfold enc; rewrite <- (app_assoc (le_split 2 offset)); apply readLE16_spec; lia).
  cbn [mbind outcome_bind]. rewrite (proj2 (Z.ltb_ge _ _)) by lia.
  rewrite token_low by (apply nibble_range; lia).
  replace (pre ++ enc ++ block ++ tail)
    with ((pre ++ le_split 2 offset) ++ length_bytes (length - 4) ++ block ++ tail)
    by (unfold enc; by rewrite <- !app_assoc).
  replace (blen pre + 2) with (blen (pre ++ le_split 2 offset)) by (rewrite blen_app, blen_le_split; lia).
  rewrite read_length_spec by (zlia || (rewrite blen_app, blen_le_split; lia)). cbn [mbind outcome_bind].
  rewrite wrap_small by zlia. replace (length - 4 + 4) with length by lia.
  rewrite (proj2 (Z.ltb_ge _ _)) by lia.
  destruct (copy_match_spec t N use_shuffle HN output_end out rest offset length) as (rest' & -> & Hr' & _);
    [lia..|]. cbn [mbind outcome_bind].
  exists rest'. split; [done|]. do 2 f_equal. rewrite blen_app, blen_le_split. lia.
Qed.

Lemma iteration_last low lits pre tail out rest :
  lits ≠ [] → 0 ≤ low < 16 → blen lits < 2 ^ 63 → 64 ≤ blen tail → blen lits + 64 ≤ blen rest →
  ∃ rest', blen rest' = blen rest - blen lits ∧
    iteration t c use_shuffle (pre ++ encode_last low lits ++ tail) (blen pre + blen (encode_last low lits))
      (blen (out ++ lits)) (blen pre) (blen out) (out ++ rest) = Ret (Return true ((out ++ lits) ++ rest')).
Proof.
  intros Hne Hlow Hl Htail Hrest. unfold iteration.
  assert (0 < blen lits) as Hpos by (destruct lits; [done|blia]).
  assert (blen (encode_last low lits) = 1 + blen (length_bytes (blen lits)) + blen lits) as He
    by (unfold encode_last; rewrite blen_cons, blen_app; lia).
  pose proof (blen_nonneg (length_bytes (blen lits))).
  rewrite He, blen_app, (proj2 (Z.leb_gt _ _)) by lia. clear He.
  set (token := nibble (blen lits) * 16 + low).
  assert (encode_last low lits = token :: length_bytes (blen lits) ++ lits) as -> by done.
  cbn [app]. rewrite load_byte by done. cbn [mbind outcome_bind]. unfold token at 1.
  rewrite token_high, andb_comm by done.
  rewrite (proj2 (Z.eqb_neq (nibble _) 0)) by (unfold nibble; lia). cbn [andb].
  replace (pre ++ token :: (length_bytes (blen lits) ++ lits) ++ tail)
    with ((pre ++ [token]) ++ length_bytes (blen lits) ++ lits ++ tail)
    by (by rewrite <- !app_assoc).
  replace (blen pre + 1) with (blen (pre ++ [token])) by blia.
  destruct (copy_literals_spec lits low (pre ++ [token]) tail (blen pre + (1 + blen (length_bytes (blen lits)) + blen lits))
    (blen out + blen lits) out rest) as (rest' & Hr' & E); [done|blia|blia|blia|done|lia|done|].
  fold token in E. exists rest'. rewrite E. split; [done|]. cbn [mbind outcome_bind]. by rewrite Z.eqb_refl.
Qed.

Lemma iteration_seq s pre block tail output_end out rest :
  1 ≤ match_offset s < 2 ^ 16 → match_offset s ≤ blen (out ++ literals s) → 4 ≤ match_length s →
  blen (apply_seq out s) < output_end → output_end < 2 ^ 63 → 0 < blen block → 64 ≤ blen tail →
  output_end - blen out + 64 ≤ blen rest →
  ∃ rest', blen rest' = blen rest - (blen (apply_seq out s) - blen out) ∧
    iteration t c use_shuffle (pre ++ encode_seq s ++ block ++ tail)
      (blen pre + blen (encode_seq s) + blen block) output_end (blen pre) (blen out) (out ++ rest) =
    Ret (Go (blen pre + blen (encode_seq s)) (blen (apply_seq out s)) (apply_seq out s ++ rest')).
Proof.
  intros Hoff Hoff' Hlen Hlt Hmax Hblock Htail Hrest. rewrite blen_apply_seq in * by lia.
  unfold iteration. pose proof (blen_nonneg (literals s)) as Hl0. pose proof (blen_nonneg out).
  set (lb := length_bytes (blen (literals s))). set (lits := literals s) in *.
  set (mt := le_split 2 (match_offset s) ++ length_bytes (match_length s - 4)).
  set (token := nibble (blen lits) * 16 + nibble (match_length s - 4)).
  assert (encode_seq s = token :: lb ++ lits ++ mt) as -> by done.
  pose proof (blen_nonneg lb). assert (2 ≤ blen mt) as Hmt.
  { unfold mt. rewrite blen_app, blen_le_split. pose proof (blen_nonneg (length_bytes (match_length s - 4))). lia. }
  rewrite !blen_cons, !blen_app. rewrite (proj2 (Z.leb_gt _ _)) by lia. cbn [app]. rewrite load_byte by done.
  cbn [mbind outcome_bind]. unfold token at 1. rewrite token_high by (apply nibble_range; lia).
  replace (pre ++ token :: (lb ++ lits ++ mt) ++ block ++ tail)
    with ((pre ++ [token]) ++ lb ++ lits ++ mt ++ block ++ tail) by (by rewrite <- !app_assoc).
  replace (blen pre + 1) with (blen (pre ++ [token])) by (rewrite blen_app; unfold blen; simpl; lia).
  assert (blen (pre ++ [token]) = blen pre + 1) as Hpre by (rewrite blen_app; unfold blen; simpl; lia).
  (* the match, after the literals *)
  assert (∀ rest1, output_end - (blen out + blen lits) + 64 ≤ blen rest1 → ∃ rest',
    blen rest' = blen rest1 - match_length s ∧
    decompress_match t c use_shuffle ((pre ++ [token]) ++ lb ++ lits ++ mt ++ block ++ tail)
      (blen pre + (1 + (blen lb + (blen lits + blen mt))) + blen block) output_end token
      (blen (pre ++ [token]) + blen lb + blen lits) (blen out + blen lits) ((out ++ lits) ++ rest1) =
    Ret (Go (blen pre + (1 + (blen lb + (blen lits + blen mt)))) (blen out + blen lits + match_length s)
      (apply_seq out s ++ rest'))) as Hmatch.
  { intros rest1 Hrest1.
    destruct (decompress_match_spec (match_offset s) (match_length s) (nibble (blen lits))
      ((pre ++ [token]) ++ lb ++ lits) block tail output_end (out ++ lits) rest1) as (rest' & Hr' & E);
      [done|done|lia|done|rewrite blen_app; lia|lia|].
    fold mt in E. rewrite !(blen_app _ lits), (blen_app _ (lb ++ lits)), (blen_app lb lits), Hpre in E.
    exists rest'. split; [done|]. rewrite Hpre, <- !app_assoc in *. cbn [app] in *.
    fold token in E. unfold apply_seq. fold lits.
    replace (blen pre + (1 + (blen lb + (blen lits + blen mt))) + blen block)
      with (blen pre + 1 + (blen lb + blen lits) + blen mt + blen block) by lia.
    replace (blen pre + 1 + blen lb + blen lits) with (blen pre + 1 + (blen lb + blen lits)) by lia.
    rewrite E. do 2 f_equal. lia. }
  destruct ((c =? 8) && (nibble (blen lits) =? 0)) eqn:Hshort.
  - apply andb_true_iff in Hshort as [_ Hnib%Z.eqb_eq].
    assert (blen lits = 0) as Hz by (unfold nibble in Hnib; lia).
    destruct (Hmatch rest) as (rest' & Hr' & E); [lia|]. exists rest'. split; [lia|].
    assert (lb = []) as Hlb by (unfold lb; fold lits; by rewrite Hz).
    apply blen_0_nil in Hz as Hlits. rewrite Hz, Hlb, Hlits, app_nil_r, blen_nil, !Z.add_0_r in E.
    rewrite Hlb, Hlits, blen_nil, !Z.add_0_r. exact E.
  - destruct (copy_literals_spec lits (nibble (match_length s - 4)) (pre ++ [token]) (mt ++ block ++ tail)
      (blen pre + (1 + (blen lb + (blen lits + blen mt))) + blen block) output_end out rest)
      as (rest1 & Hr1 & E); [apply nibble_range; lia|fold lb; lia|fold lb; lia| |lia|lia|lia|].
    { fold lb. rewrite !blen_app. rewrite blen_app in Hpre. lia. }
    fold lb in E. fold token in E. rewrite E. cbn [mbind outcome_bind].
    rewrite (proj2 (Z.eqb_neq _ _)) by lia.
    destruct (Hmatch rest1) as (rest' & Hr' & E'); [lia|]. exists rest'. split; [lia|done].
Qed.

Lemma lz4_loop_spec out block final :
  lz4_rest out block final → blen final < 2 ^ 63 →
  ∀ fuel pre tail rest,
    (length block < fuel)%nat → 64 ≤ blen tail → blen final - blen out + 64 ≤ blen rest →
    ∃ rest', blen rest' = blen rest - (blen final - blen out) ∧
      decompress_loop t c use_shuffle (pre ++ block ++ tail) (blen pre + blen block) (blen final)
        fuel (blen pre) (blen out) (out ++ rest) = Ret (true, final ++ rest').
Proof.
  induction 1 as [out low lits Hb Hne Hlow|out s block final Hb Ho Ho' Hm Hseq IH];
    intros Hmax fuel pre tail rest Hf Ht Hr; (destruct fuel as [|fuel]; [lia|]); cbn [decompress_loop].
  - rewrite blen_app in Hr, Hmax. pose proof (blen_nonneg out).
    destruct (iteration_last low lits pre tail out rest) as (rest' & Hr' & ->); [done|done|lia|done|lia|].
    exists rest'. split; [blia|done].
  - pose proof (lz4_rest_grows _ _ _ Hseq) as [Hg1 Hg2]. pose proof (blen_apply_seq out s ltac:(lia)) as Ha.
    pose proof (blen_nonneg (literals s)). rewrite <- app_assoc, blen_app, Z.add_assoc.
    destruct (iteration_seq s pre block tail (blen final) out rest) as (rest1 & Hr1 & ->); [done..|].
    cbn [mbind outcome_bind]. rewrite length_app in Hf.
    assert (0 < length (encode_seq s))%nat by (unfold encode_seq; simpl; lia).
    destruct (IH Hmax fuel (pre ++ encode_seq s) tail rest1) as (rest' & Hr' & E); [lia|done|lia|].
    rewrite blen_app, <- app_assoc in E. exists rest'. split; [lia|done].
Qed.

Lemma decompressImpl_block block final tail dest :
  lz4_block block final → blen final < 2 ^ 63 → 64 ≤ blen tail → blen final + 64 ≤ blen dest →
  ∃ extra, blen (final ++ extra) = blen dest ∧
    decompressImpl t c use_shuffle (block ++ tail) dest (blen block) (blen final) = Ret (true, final ++ extra).
Proof.
  intros Hblock Hmax Ht Hd. unfold decompressImpl.
  destruct (lz4_loop_spec [] block final Hblock Hmax (S (Z.to_nat (blen block))) [] tail dest)
    as (rest' & Hr' & E); [unfold blen; lia|done|rewrite blen_nil; lia|].
  exists rest'. rewrite blen_nil in Hr'. split; [blia|done].
Qed.
End blocks.

(** * Any bytes *)

(** Memory that has been written to stays memory of the same size. *)
Definition kept (dmem dmem' : bytes) : Prop := blen dmem' = blen dmem ∧ is_bytes dmem'.

Lemma kept_refl dmem : is_bytes dmem → kept dmem dmem.
Proof. done. Qed.

Lemma kept_trans d1 d2 d3 : kept d1 d2 → kept d2 d3 → kept d1 d3.
Proof. intros [E1 _] [E2 ?]. split; [congruence|done]. Qed.

Section any_bytes.
Context (t : Target) (N : nat) (use_shuffle : bool) (HN : amount N).
Abbreviation c := (Z.of_nat N).
Implicit Types dmem : bytes.

Lemma load_store_safe dmem dst src n :
  is_bytes dmem → 0 ≤ src → 0 ≤ dst → 0 ≤ n → src + n ≤ blen dmem → dst + n ≤ blen dmem →
  safe (load_store Dest dmem dst src n) (kept dmem).
Proof.
  intros Hb Hs Hd Hn Hse Hde. unfold load_store. cbn [read_from].
  destruct (read_bytes_safe dmem src n) as (bs & -> & Hl & Hbs); [done..|]. cbn [mbind outcome_bind].
  destruct (write_bytes_safe dmem dst bs) as (d' & -> & Hl' & Hb'); [done|lia|]. split; [done|auto].
Qed.

Lemma memcpy_safe dmem dst src n :
  is_bytes dmem → 0 ≤ src → src + n ≤ dst → 0 ≤ n → dst + n ≤ blen dmem →
  safe (memcpy Dest dmem dst src n) (kept dmem).
Proof.
  intros. unfold memcpy. rewrite ub_unless_true by (apply Z.leb_le; lia). apply load_store_safe; auto; lia.
Qed.

Lemma copy_safe dmem dst src :
  is_bytes dmem → 0 ≤ src → src + c ≤ dst → dst + c ≤ blen dmem →
  safe (copy t c Dest dmem dst src) (kept dmem).
Proof.
  intros Hb Hs Hd Hl. unfold copy. destruct HN as [-> | [-> | ->]];
    [change (Z.of_nat 8) with 8 in *|change (Z.of_nat 16) with 16 in *|change (Z.of_nat 32) with 32 in *];
    cbn [Z.eqb Pos.eqb].
  - apply memcpy_safe; auto; lia.
  - unfold copy16. destruct (SSE2 t); [apply load_store_safe|apply memcpy_safe]; auto; lia.
  - unfold copy32. destruct (SSE2 t); (eapply safe_bind; [first [apply load_store_safe|apply memcpy_safe]; auto; lia|]);
      intros d' [Hl' Hb']; (eapply safe_mono; [first [apply load_store_safe|apply memcpy_safe]; auto; lia|]);
      intros d'' ?; by apply kept_trans with d'.
Qed.

Lemma wildCopy_safe fuel dmem dst src dst_end :
  is_bytes dmem → 0 ≤ src → src + c ≤ dst → Z.max dst (dst_end - 1) + c ≤ blen dmem →
  (Z.to_nat (dst_end - dst) < fuel)%nat →
  safe (wildCopy t c Dest fuel dmem dst src dst_end) (kept dmem).
Proof.
  pose proof (amount_range N HN). revert dmem dst src.
  induction fuel as [|fuel IH]; intros dmem dst src Hb Hs Hd Hl Hf; [lia|]. cbn [wildCopy].
  eapply safe_bind; [apply copy_safe; auto; lia|]. intros d' [Hl' Hb'].
  destruct (Z.ltb_spec (dst + c) dst_end); [|done].
  eapply safe_mono; [apply IH; auto; lia|]. intros d'' ?. by apply kept_trans with d'.
Qed.

Lemma copy_4_bytes_safe dmem op match' :
  is_bytes dmem → 0 ≤ match' → match' ≤ op → op + 4 ≤ blen dmem →
  safe (copy_4_bytes dmem op match') (kept dmem).
Proof.
  intros Hb Hm Hop Hl. unfold copy_4_bytes, copy_byte.
  eapply safe_bind; [apply load_store_safe; auto; lia|]. intros d1 [L1 B1].
  eapply safe_bind; [apply load_store_safe; auto; lia|]. intros d2 [L2 B2].
  eapply safe_bind; [apply load_store_safe; auto; lia|]. intros d3 [L3 B3].
  eapply safe_mono; [apply load_store_safe; auto; lia|]. intros d4 [L4 B4]. split; [lia|done].
Qed.

Lemma shift_ok_bound n k s : shift_ok n k s = true → 0 ≤ s ≤ n.
Proof. unfold shift_ok. rewrite !andb_true_iff, !Z.leb_le. lia. Qed.

(** What an overlapping copy leaves: the source is before the bytes just made. *)
Definition overlap_kept (dmem : bytes) (op : Z) (r : bytes * Z) : Prop :=
  kept dmem r.1 ∧ 0 ≤ r.2 ≤ op.

Ltac overlap_step :=
  eapply safe_bind; [first [apply memcpy_safe|apply copy_4_bytes_safe]; auto; lia|];
  let d := fresh "d" in let L := fresh "L" in let B := fresh "B" in intros d [L B];
  cbn [mbind outcome_bind].

Lemma copyOverlap8_safe dmem op n :
  is_bytes dmem → 0 ≤ n < 8 → 0 ≤ op - n → op + 8 ≤ blen dmem →
  safe (copyOverlap8 dmem op (op - n) n) (overlap_kept dmem op).
Proof.
  intros Hb Hn Hop Hl. destruct (shifts8 n Hn) as (s1 & s2 & E1 & E2 & Hs1%shift_ok_bound & Hs2%shift_ok_bound).
  unfold copyOverlap8. rewrite E1, E2. repeat overlap_step. split; [split; [simpl; lia|done]|simpl; lia].
Qed.

Lemma copyOverlap16_safe dmem op n :
  is_bytes dmem → 0 ≤ n < 16 → 0 ≤ op - n → op + 16 ≤ blen dmem →
  safe (copyOverlap16 dmem op (op - n) n) (overlap_kept dmem op).
Proof.
  intros Hb Hn Hop Hl. destruct (shifts16 n Hn) as (s1 & s2 & s3 & E1 & E2 & E3 &
    Hs1%shift_ok_bound & Hs2%shift_ok_bound & Hs3%shift_ok_bound).
  unfold copyOverlap16. rewrite E1, E2, E3. repeat overlap_step. split; [split; [simpl; lia|done]|simpl; lia].
Qed.

Lemma copyOverlap32_safe dmem op n :
  is_bytes dmem → 0 ≤ n < 32 → 0 ≤ op - n → op + 32 ≤ blen dmem →
  safe (copyOverlap32 dmem op (op - n) n) (overlap_kept dmem op).
Proof.
  intros Hb Hn Hop Hl. destruct (shifts32 n Hn) as (s1 & s2 & s3 & s4 & E1 & E2 & E3 & E4 &
    Hs1%shift_ok_bound & Hs2%shift_ok_bound & Hs3%shift_ok_bound & Hs4%shift_ok_bound).
  unfold copyOverlap32. rewrite E1, E2, E3, E4. repeat overlap_step. split; [split; [simpl; lia|done]|simpl; lia].
Qed.
Lemma pick_byte v i : is_bytes v → is_byte (pick v i).
Proof.
  intros Hv. unfold pick. destruct (nth_in_or_default (Z.to_nat i) v 0) as [Hin | ->]; [|unfold is_byte; lia].
  rewrite Forall_forall in Hv. apply Hv. by apply list_elem_of_In.
Qed.

Lemma write_shuffled dmem op (f : Z → Z) mask :
  is_bytes dmem → (∀ m, is_byte (f m)) → 0 ≤ op → op + blen mask ≤ blen dmem →
  ∃ d', write_bytes dmem op (f <$> mask) = Ret d' ∧ kept dmem d'.
Proof.
  intros Hb Hf Hop Hl. destruct (write_bytes_safe dmem op (f <$> mask)) as (d' & -> & Hl' & Hb');
    [done|unfold blen in *; rewrite length_fmap; lia|].
  exists d'. split; [done|]. split; [done|]. apply Hb'; [done|]. apply Forall_fmap, Forall_true. intros. apply Hf.
Qed.

Lemma byte_zero : is_byte 0.
Proof. unfold is_byte. lia. Qed.
#[local] Hint Resolve byte_zero pick_byte : codec.

Lemma copyOverlap8Shuffle_safe dmem op n :
  is_bytes dmem → 0 ≤ n < 8 → 0 ≤ op - n → op + 16 ≤ blen dmem →
  safe (copyOverlap8Shuffle t dmem op (op - n) n) (overlap_kept dmem op).
Proof.
  intros Hb Hn Hop Hl. unfold copyOverlap8Shuffle.
  destruct (masks8_row (Z.to_nat n)) as (more & s & E16 & E8 & _ & Hmore & Es & Hs%shift_ok_bound); [lia|].
  rewrite Z2Nat.id in * by lia. set (row := take 8 _) in *.
  assert (blen row = 8) as Hrow.
  { destruct (read_bytes_safe (take 64 masks8) (8 * n) 8) as (bs & E & Hbs & _);
      [lia|lia|change (blen (take 64 masks8)) with 64; lia|]. congruence. }
  destruct (AARCH64 t); [|destruct (SSSE3 t); [|apply copyOverlap8_safe; auto; lia]].
  - unfold copyOverlap8Shuffle_AARCH64.
    destruct (read_bytes_safe dmem (op - n) 8) as (v & -> & Hv & Hvb); [lia..|]. cbn [mbind outcome_bind].
    rewrite E8. cbn [mbind outcome_bind].
    destruct (write_shuffled dmem op (λ m, if m <? blen v then pick v m else 0) row) as (d' & E & Hd');
      [done|intros m; destruct (m <? _); auto with codec|lia|lia|].
    unfold vtbl_u8. rewrite E. cbn [mbind outcome_bind]. rewrite Es. cbn. split; [done|simpl; lia].
  - unfold copyOverlap8Shuffle_SSSE3.
    destruct (read_bytes_safe dmem (op - n) 16) as (v & -> & Hv & Hvb); [lia..|]. cbn [mbind outcome_bind].
    rewrite E16. cbn [mbind outcome_bind].
    destruct (write_shuffled dmem op (λ m, if 128 <=? m then 0 else pick v (Z.land m 15)) (row ++ more)) as (d' & E & Hd');
      [done|intros m; destruct (128 <=? _); auto with codec|lia|rewrite blen_app; lia|].
    unfold mm_shuffle_epi8. rewrite E. cbn [mbind outcome_bind]. rewrite Es. cbn. split; [done|simpl; lia].
Qed.

Lemma copyOverlap16Shuffle_safe dmem op n :
  is_bytes dmem → 0 ≤ n < 16 → 0 ≤ op - n → op + 16 ≤ blen dmem →
  safe (copyOverlap16Shuffle t dmem op (op - n) n) (overlap_kept dmem op).
Proof.
  intros Hb Hn Hop Hl. unfold copyOverlap16Shuffle.
  destruct (masks16_row (Z.to_nat n)) as (s & _ & _ & _ & _ & Es & Hs%shift_ok_bound); [lia|].
  rewrite Z2Nat.id in * by lia.
  pose proof (λ pos k, read_bytes_safe masks16 pos k) as Hread. change (blen masks16) with 256 in Hread.
  destruct (AARCH64 t); [|destruct (SSSE3 t); [|apply copyOverlap16_safe; auto; lia]].
  - unfold copyOverlap16Shuffle_AARCH64.
    destruct (read_bytes_safe dmem (op - n) 16) as (v & -> & Hv & Hvb); [lia..|]. cbn [mbind outcome_bind].
    destruct (Hread (16 * n) 8) as (m1 & -> & Hm1 & _); [lia..|]. cbn [mbind outcome_bind].
    destruct (write_shuffled dmem op (λ m, if m <? blen v then pick v m else 0) m1) as (d1 & E & L1 & B1);
      [done|intros m; destruct (m <? _); auto with codec|lia|lia|].
    unfold vtbl_u8. rewrite E. cbn [mbind outcome_bind].
    destruct (read_bytes_safe d1 (op - n) 16) as (v2 & -> & Hv2 & Hvb2); [lia..|]. cbn [mbind outcome_bind].
    destruct (Hread (16 * n + 8) 8) as (m2 & -> & Hm2 & _); [lia..|]. cbn [mbind outcome_bind].
    destruct (write_shuffled d1 (op + 8) (λ m, if m <? blen v2 then pick v2 m else 0) m2) as (d2 & E2 & Hd2);
      [done|intros m; destruct (m <? _); auto with codec|lia|lia|].
    rewrite E2. cbn [mbind outcome_bind]. rewrite Es. cbn.
    split; [by apply kept_trans with d1|simpl; lia].
  - unfold copyOverlap16Shuffle_SSSE3.
    destruct (read_bytes_safe dmem (op - n) 16) as (v & -> & Hv & Hvb); [lia..|]. cbn [mbind outcome_bind].
    destruct (Hread (16 * n) 16) as (m1 & -> & Hm1 & _); [lia..|]. cbn [mbind outcome_bind].
    destruct (write_shuffled dmem op (λ m, if 128 <=? m then 0 else pick v (Z.land m 15)) m1) as (d' & E & Hd');
      [done|intros m; destruct (128 <=? _); auto with codec|lia|lia|].
    unfold mm_shuffle_epi8. rewrite E. cbn [mbind outcome_bind]. rewrite Es. cbn. split; [done|simpl; lia].
Qed.

Lemma copyOverlap32Shuffle_safe dmem op n :
  is_bytes dmem → 0 ≤ n < 32 → 0 ≤ op - n → op + 32 ≤ blen dmem →
  safe (copyOverlap32Shuffle dmem op (op - n) n) (overlap_kept dmem op).
Proof.
  intros Hb Hn Hop Hl. unfold copyOverlap32Shuffle.
  destruct (masks32_row (Z.to_nat n)) as (s & _ & _ & Es & Hs%shift_ok_bound); [lia|].
  rewrite Z2Nat.id in * by lia.
  destruct (read_bytes_safe masks32 (32 * n) 32) as (m1 & -> & Hm1 & _);
    [lia|lia|change (blen masks32) with 1024; lia|]. cbn [mbind outcome_bind].
  destruct (read_bytes_safe dmem (op - n) 32) as (v & -> & Hv & Hvb); [lia..|]. cbn [mbind outcome_bind].
  destruct (write_shuffled dmem op (λ m, pick v (Z.land m 31)) m1) as (d' & E & Hd');
    [done|intros m; auto with codec|lia|lia|].
  unfold mm256_permutexvar_epi8. rewrite E. cbn [mbind outcome_bind]. rewrite Es. cbn. split; [done|simpl; lia].
Qed.

Lemma copyOverlap_safe dmem op n :
  is_bytes dmem → 0 ≤ n < c → 0 ≤ op - n → op + 32 ≤ blen dmem →
  safe (copyOverlap t c use_shuffle dmem op (op - n) n) (overlap_kept dmem op).
Proof.
  intros Hb Hn Hop Hl. unfold copyOverlap. destruct HN as [-> | [-> | ->]];
    [change (Z.of_nat 8) with 8 in *|change (Z.of_nat 16) with 16 in *|change (Z.of_nat 32) with 32 in *];
    cbn [Z.eqb Pos.eqb].
  - destruct use_shuffle; [apply copyOverlap8Shuffle_safe|apply copyOverlap8_safe]; auto; lia.
  - destruct use_shuffle; [apply copyOverlap16Shuffle_safe|apply copyOverlap16_safe]; auto; lia.
  - destruct (use_shuffle && _); [apply copyOverlap32Shuffle_safe|apply copyOverlap32_safe]; auto; lia.
Qed.

Lemma copy_match_safe output_end op offset length dmem :
  is_bytes dmem → 0 ≤ offset ≤ op → 0 ≤ length → op + length ≤ output_end → output_end + 64 ≤ blen dmem →
  safe (copy_match t c use_shuffle output_end op offset length dmem) (λ r, kept dmem r.2).
Proof.
  intros Hb Ho Hlen Hend Hl. pose proof (amount_range N HN) as Hr. unfold copy_match.
  eapply (safe_bind _ _ (λ r, kept dmem r.1 ∧ 0 ≤ r.2 ≤ op)).
  { destruct (Z.ltb_spec offset c); [apply copyOverlap_safe; auto; lia|].
    eapply safe_bind; [apply copy_safe; auto; lia|]. intros d' Hd'. split; [done|simpl; lia]. }
  intros [d1 m] [[L1 B1] Hm]. cbn [fst snd] in *.
  eapply safe_bind; [apply copy_safe; auto; lia|]. intros d2 [L2 B2].
  assert (kept dmem d2) as Hk by (split; [congruence|done]).
  destruct (Z.ltb_spec (c * 2) length); [|done]. destruct (output_end <? op + length); [done|].
  eapply safe_bind; [apply wildCopy_safe; auto; lia|]. intros d3 Hd3. by apply kept_trans with d2.
Qed.

Context (source : bytes) (input_end output_end : Z).
Context (Hsource : is_bytes source) (Hin : input_end + 64 ≤ blen source) (Hout : 0 ≤ output_end < 2 ^ 63).

Lemma continue_read_length_safe fuel ip length :
  0 ≤ ip < input_end → input_end - ip ≤ Z.of_nat fuel →
  safe (continue_read_length fuel source input_end ip length)
    (λ r, ip < r.1 ≤ input_end ∧ 0 ≤ r.2 < 2 ^ 64).
Proof.
  revert ip length. induction fuel as [|fuel IH]; intros ip length Hip Hf; [lia|]. cbn [continue_read_length].
  destruct (load_safe 1 source ip) as (b & -> & Hb); [done|lia..|]. cbn [mbind outcome_bind].
  pose proof (wrap_range 8 (length + b) ltac:(lia)).
  destruct (b =? 255); cbn [andb]; [|simpl; lia]. destruct (Z.ltb_spec (ip + 1) input_end); [|simpl; lia].
  eapply safe_mono; [apply IH; lia|]. simpl. intros r ?. lia.
Qed.

Lemma read_length_safe ip length :
  0 ≤ ip → 0 ≤ length < 2 ^ 64 →
  safe (read_length source input_end ip length)
    (λ r, ∀ ip' l, r = Some (ip', l) → ip ≤ ip' ∧ 0 ≤ l < 2 ^ 64).
Proof.
  intros Hip Hl. unfold read_length. destruct (length =? 15); [|simpl; intros; simplify_eq; lia].
  destruct (Z.leb_spec input_end (ip + 1)); [simpl; intros; simplify_eq|].
  eapply safe_bind; [apply continue_read_length_safe; lia|]. intros [ip1 l1] [? ?]. simpl in *.
  intros; simplify_eq; lia.
Qed.

(** What a part of an iteration leaves. *)
Definition step_kept (ip op : Z) (dmem : bytes) (r : control) : Prop :=
  match r with
  | Go ip' op' dmem' => ip ≤ ip' ∧ op ≤ op' ≤ output_end ∧ kept dmem dmem'
  | Return _ dmem' => kept dmem dmem'
  end.

Lemma copy_literals_safe token ip op dmem :
  0 ≤ token < 256 → is_bytes dmem → 0 ≤ ip → 0 ≤ op ≤ output_end → output_end + 64 ≤ blen dmem →
  safe (copy_literals t c source input_end output_end token ip op dmem) (step_kept ip op dmem).
Proof.
  intros Ht Hb Hip Hop Hl. pose proof (amount_range N HN) as Hr. unfold copy_literals.
  eapply safe_bind; [apply read_length_safe; [done|]|].
  { rewrite Z.shiftr_div_pow2 by lia. change (2 ^ 4) with 16. pow2_consts.
    pose proof (Z.div_pos token 16 ltac:(lia) ltac:(lia)). pose proof (Z.div_le_upper_bound token 16 16). lia. }
  intros [[ip1 len]|] Hrl; [|done]. destruct (Hrl _ _ eq_refl) as [Hip1 Hlen]. clear Hrl.
  destruct (Z.ltb_spec output_end (op + len)); [done|].
  destruct (real_length_range N HN len) as [Hreal Hrr]; [lia|]. unfold ADDITIONAL_BYTES_AT_END_OF_BUFFER.
  destruct (Z.leb_spec (input_end + 64) (ip1 + real_length c len)) as [|Hlt]; [done|]. rewrite Hreal in Hlt.
  destruct (split_at dmem op) as (pre & rest & -> & Hpre); [lia|]. rewrite blen_app in Hl.
  apply Forall_app in Hb as [Hbp Hbr].
  assert (Z.of_nat ((Z.to_nat len / N + 1) * N) = (len / c + 1) * c) as Hq
    by (rewrite Nat2Z.inj_mul, Nat2Z.inj_add, Nat2Z.inj_div, Z2Nat.id; lia).
  destruct (wildCopy_source t N HN source (S (Z.to_nat len)) pre rest op (Z.to_nat ip1) (Z.to_nat len))
    as (n & Hn & Hcopy); [done|lia|unfold blen in *; lia|unfold blen in *; lia|].
  rewrite !Z2Nat.id in Hcopy by lia. rewrite Hcopy. cbn [mbind outcome_bind].
  assert (kept (pre ++ rest) (pre ++ take n (drop (Z.to_nat ip1) source) ++ drop n rest)) as Hk.
  { split; [rewrite !blen_app, blen_take, !blen_drop; unfold blen in *; lia|].
    apply Forall_app; split; [done|]. apply Forall_app; split; auto using Forall_take, Forall_drop. }
  destruct (_ =? _); simpl; [done|]. split; [lia|]. split; [lia|done].
Qed.

Lemma decompress_match_safe token ip op dmem :
  0 ≤ token < 256 → is_bytes dmem → 0 ≤ ip → 0 ≤ op ≤ output_end → output_end + 64 ≤ blen dmem →
  safe (decompress_match t c use_shuffle source input_end output_end token ip op dmem) (step_kept ip op dmem).
Proof.
  intros Ht Hb Hip Hop Hl. unfold decompress_match. destruct (Z.leb_spec input_end (ip + 1)); [done|].
  unfold LZ4_readLE16. destruct (load_safe 1 source ip) as (p0 & -> & Hp0); [done|lia..|]. cbn [mbind outcome_bind].
  destruct (load_safe 1 source (ip + 1)) as (p1 & -> & Hp1); [done|lia..|]. cbn [mbind outcome_bind].
  rewrite Z.shiftl_mul_pow2 by lia. set (offset := p0 + p1 * 2 ^ 8).
  assert (0 ≤ offset) by (unfold offset; pow2_consts; lia).
  destruct (Z.ltb_spec (op - offset) 0); [done|].
  eapply safe_bind; [apply read_length_safe; [lia|]|].
  { change 15 with (Z.ones 4). rewrite Z.land_ones by lia. pow2_consts.
    pose proof (Z.mod_pos_bound token 16 ltac:(lia)). lia. }
  intros [[ip1 len]|] Hrl; [|done]. destruct (Hrl _ _ eq_refl) as [Hip1 Hlen]. clear Hrl.
  pose proof (wrap_range 8 (len + 4) ltac:(lia)) as Hw. set (l := u64 (len + 4)) in *.
  destruct (Z.ltb_spec output_end (op + l)); [done|].
  eapply safe_bind; [apply copy_match_safe; auto; lia|].
  intros [[] d'] Hd'; simpl in *; [|done]. split; [lia|]. split; [lia|done].
Qed.

Lemma iteration_safe ip op dmem :
  is_bytes dmem → 0 ≤ ip → 0 ≤ op ≤ output_end → output_end + 64 ≤ blen dmem →
  safe (iteration t c use_shuffle source input_end output_end ip op dmem)
    (λ r, step_kept (ip + 1) op dmem r ∧ (ip < input_end ∨ r = Return false dmem)).
Proof.
  intros Hb Hip Hop Hl. unfold iteration. destruct (Z.leb_spec input_end ip); [split; [done|by right]|].
  destruct (load_safe 1 source ip) as (token & -> & Ht); [done|lia..|]. cbn [mbind outcome_bind].
  change (2 ^ (8 * 1)) with 256 in Ht.
  destruct (_ && _).
  { eapply safe_mono; [apply decompress_match_safe; auto; lia|]. intros r Hr'. split; [done|by left]. }
  eapply safe_bind; [apply copy_literals_safe; auto; lia|].
  intros [ip1 op1 d1|res d1] Hk; simpl in *; [|split; [done|by left]].
  destruct Hk as (Hip1 & Hop1 & [Hl1 Hb1]).
  eapply safe_mono; [apply decompress_match_safe; auto; lia|].
  intros [ip2 op2 d2|res d2] Hk2; simpl in *; (split; [|by left]).
  - destruct Hk2 as (? & ? & ?). split; [lia|]. split; [lia|]. by apply kept_trans with d1.
  - by apply kept_trans with d1.
Qed.

Lemma lz4_loop_safe fuel ip op dmem :
  is_bytes dmem → 0 ≤ ip → 0 ≤ op ≤ output_end → output_end + 64 ≤ blen dmem →
  Z.max 0 (input_end - ip) < Z.of_nat fuel →
  safe (decompress_loop t c use_shuffle source input_end output_end fuel ip op dmem) (λ r, kept dmem r.2).
Proof.
  revert ip op dmem. induction fuel as [|fuel IH]; intros ip op dmem Hb Hip Hop Hl Hf; [lia|].
  cbn [decompress_loop]. eapply safe_bind; [by apply iteration_safe|].
  intros [ip1 op1 d1|res d1] [Hk [Hlt|Heq]]; simpl in Hk; try done.
  destruct Hk as (Hip1 & Hop1 & Hl1 & Hb1).
  eapply safe_mono; [apply IH; auto; lia|]. intros r Hr'. by apply kept_trans with d1.
Qed.
End any_bytes.

Lemma decompressImpl_safe t N use_shuffle source dest source_size dest_size :
  amount N → is_bytes source → is_bytes dest → 0 ≤ source_size → source_size + 64 ≤ blen source →
  0 ≤ dest_size < 2 ^ 63 → dest_size + 64 ≤ blen dest →
  safe (decompressImpl t (Z.of_nat N) use_shuffle source dest source_size dest_size) (λ r, kept dest r.2).
Proof.
  intros HN Hs Hd Hss Hsl Hds Hdl. unfold decompressImpl. apply lz4_loop_safe; auto; lia.
Qed.

(** [decompress] runs one of the specialisations. *)
Lemma decompress_variant t best_variant source dest source_size dest_size :
  0 ≤ best_variant < 5 → 0 < source_size → 0 < dest_size →
  ∃ N use_shuffle, amount N ∧
    decompress t best_variant source dest source_size dest_size =
    decompressImpl t (Z.of_nat N) use_shuffle source dest source_size dest_size.
Proof.
  intros Hv Hs Hd. unfold decompress. rewrite (proj2 (Z.eqb_neq source_size 0)), (proj2 (Z.eqb_neq dest_size 0)) by lia.
  cbn [orb]. unfold amount. destruct (32768 <=? dest_size); [|by exists 8%nat, false; auto].
  destruct (Z.eqb_spec best_variant 0); [by exists 16%nat, true; auto|].
  destruct (Z.eqb_spec best_variant 1); [by exists 16%nat, false; auto|].
  destruct (Z.eqb_spec best_variant 2); [by exists 8%nat, true; auto|].
  destruct (Z.eqb_spec best_variant 3); [by exists 32%nat, false; auto|].
  destruct (Z.eqb_spec best_variant 4); [by exists 32%nat, true; auto|lia].
Qed.

(** A block of literals only. *)
Lemma literal_block lits : is_bytes lits → lits ≠ [] → lz4_block (encode_last 0 lits) lits.
Proof. intros. by apply (lz4_last [] 0 lits). Qed.

Lemma blen_literal_block lits : blen (encode_last 0 lits) ≤ blen lits + blen lits / 255 + 16.
Proof.
  unfold encode_last, length_bytes. pose proof (blen_nonneg lits). rewrite blen_cons, blen_app.
  destruct (Z.ltb_spec (blen lits) 15).
  - rewrite blen_nil. pose proof (Z.div_pos (blen lits) 255). lia.
  - rewrite blen_app, blen_replicate, blen_cons, blen_nil.
    pose proof (Z.div_pos (blen lits - 15) 255 ltac:(lia) ltac:(lia)).
    pose proof (Z.div_le_mono (blen lits - 15) (blen lits) 255). lia.
Qed.

(** * Theorems *)

(** C8: [LZ4::decompress], whichever of its specialisations the statistics choose and for
    every target, decodes every block of the LZ4 format, as defined byte by byte by
    [lz4_block], exactly: it returns true, the destination begins with the data, and
    besides it only bytes within the 64 additional ones may have changed. *)
Theorem lz4_decodes_every_block (t : Target) (best_variant : Z) (block data tail dest : bytes) :
  0 ≤ best_variant < 5 → lz4_block block data → blen data < 2 ^ 63 →
  ADDITIONAL_BYTES_AT_END_OF_BUFFER ≤ blen tail →
  blen data + ADDITIONAL_BYTES_AT_END_OF_BUFFER ≤ blen dest →
  ∃ extra, decompress t best_variant (block ++ tail) dest (blen block) (blen data) = Ret (true, data ++ extra) ∧
    blen (data ++ extra) = blen dest.
Proof.
  intros Hv Hb Hd Ht Hdest. destruct (lz4_rest_grows _ _ _ Hb) as [H1 H2]. rewrite blen_nil in H1.
  destruct (decompress_variant t best_variant (block ++ tail) dest (blen block) (blen data) Hv H2 H1)
    as (N & sh & HN & ->).
  destruct (decompressImpl_block t N sh HN block data tail dest Hb Hd Ht Hdest) as (extra & Hl & ->). eauto.
Qed.

Lemma lz4_decodes_every_block_witness :
  ∃ extra, decompress (Build_Target true true false true) 0
    ((encode_seq (mk_seq [97; 98; 99] 3 9) ++ encode_last 0 [120; 121]) ++ replicate 64 7) (replicate 78 0)
    (blen (encode_seq (mk_seq [97; 98; 99] 3 9) ++ encode_last 0 [120; 121]))
    (blen [97; 98; 99; 97; 98; 99; 97; 98; 99; 97; 98; 99; 120; 121]) =
      Ret (true, [97; 98; 99; 97; 98; 99; 97; 98; 99; 97; 98; 99; 120; 121] ++ extra) ∧
    blen ([97; 98; 99; 97; 98; 99; 97; 98; 99; 97; 98; 99; 120; 121] ++ extra) = blen (replicate 78 0).
Proof.
  apply lz4_decodes_every_block; [lia| |vm_compute; done..].
  apply (lz4_seq [] (mk_seq [97; 98; 99] 3 9)); [by apply is_bytes_compute|simpl; lia|vm_compute; done|simpl; lia|].
  apply (lz4_last [97; 98; 99; 97; 98; 99; 97; 98; 99; 97; 98; 99] 0 [120; 121]);
    [by apply is_bytes_compute|done|lia].
Defined.

(** C9: [LZ4::decompress] on any bytes whatever, with the 64 additional bytes after both
    buffers, returns: it neither reads nor writes outside of them, no [memcpy] overlaps,
    and its loops end. *)
Theorem lz4_decompress_never_ub (t : Target) (best_variant : Z) (source dest : bytes) (source_size dest_size : Z) :
  0 ≤ best_variant < 5 → is_bytes source → is_bytes dest →
  0 ≤ source_size → source_size + ADDITIONAL_BYTES_AT_END_OF_BUFFER ≤ blen source →
  0 ≤ dest_size < 2 ^ 63 → dest_size + ADDITIONAL_BYTES_AT_END_OF_BUFFER ≤ blen dest →
  safe (decompress t best_variant source dest source_size dest_size)
    (λ r, blen r.2 = blen dest ∧ is_bytes r.2).
Proof.
  intros Hv Hs Hd Hss Hsl Hds Hdl.
  destruct (decide (source_size = 0 ∨ dest_size = 0)) as [H0|H0].
  - unfold decompress. by destruct H0 as [-> | ->]; rewrite ?orb_true_r.
  - destruct (decompress_variant t best_variant source dest source_size dest_size) as (N & sh & HN & ->); [lia..|].
    by apply decompressImpl_safe.
Qed.

Lemma lz4_decompress_never_ub_witness :
  safe (decompress (Build_Target false false true false) 4 (replicate 70 255) (replicate 100 0) 6 36)
    (λ r, blen r.2 = blen (replicate 100 0) ∧ is_bytes r.2).
Proof.
  apply lz4_decompress_never_ub; [lia|by apply is_bytes_compute|by apply is_bytes_compute|vm_compute; done..].
Defined.

(** A block that ends before its literals do is not rejected: a block of the one byte
    [n * 16], which announces [n] literals and has none, decompresses successfully to the
    [n] bytes that follow the block in memory. *)
Theorem lz4_truncated_block_accepted (t : Target) (n : Z) (tail dest : bytes) :
  1 ≤ n < 15 → ADDITIONAL_BYTES_AT_END_OF_BUFFER ≤ blen tail →
  n + ADDITIONAL_BYTES_AT_END_OF_BUFFER ≤ blen dest →
  ∃ extra, decompress t 0 ([n * 16] ++ tail) dest 1 n = Ret (true, take (Z.to_nat n) tail ++ extra).
Proof.
  intros Hn Ht Hd. unfold ADDITIONAL_BYTES_AT_END_OF_BUFFER in *. unfold decompress.
  rewrite (proj2 (Z.eqb_neq n 0)) by lia. change (1 =? 0) with false. cbn [orb].
  rewrite (proj2 (Z.leb_gt 32768 n)) by lia. unfold decompressImpl. change (S (Z.to_nat 1)) with 2%nat.
  cbn [decompress_loop]. unfold iteration. change (1 <=? 0) with false. cbn iota. cbn [app]. rewrite load_first.
  cbn [mbind outcome_bind]. rewrite <- (Z.add_0_r (n * 16)), token_high by lia.
  rewrite (proj2 (Z.eqb_neq n 0)) by lia. change (8 =? 8) with true. cbn [andb].
  unfold copy_literals, read_length. rewrite token_high, (proj2 (Z.eqb_neq n 15)) by lia. cbn [mbind outcome_bind].
  rewrite (proj2 (Z.ltb_ge n (0 + n))) by lia.
  assert (amount 8) as H8 by (left; done).
  destruct (real_length_range 8 H8 n) as [Hreal Hrr]; [zlia|]. change (Z.of_nat 8) with 8 in *.
  rewrite Hreal. unfold ADDITIONAL_BYTES_AT_END_OF_BUFFER. rewrite (proj2 (Z.leb_gt _ _)) by lia.
  assert (Z.of_nat ((Z.to_nat n / 8 + 1) * 8) = (n / 8 + 1) * 8) as Hq
    by (rewrite Nat2Z.inj_mul, Nat2Z.inj_add, Nat2Z.inj_div, Z2Nat.id; lia).
  destruct (wildCopy_source t 8 H8 ((n * 16 + 0) :: tail) (S (Z.to_nat n)) [] dest 0 1 (Z.to_nat n)) as (k & Hk & Hc);
    [done|lia|cbn [length]; unfold blen in *; lia|unfold blen in *; lia|].
  rewrite Z2Nat.id in Hc by lia. change (Z.of_nat 8) with 8 in Hc. change (Z.of_nat 1) with 1 in Hc.
  cbn [app] in Hc. change (0 + 1) with 1. rewrite Hc. cbn [mbind outcome_bind].
  rewrite Z.add_0_l, Z.eqb_refl. cbn [mbind outcome_bind]. cbn [drop].
  exists (take (k - Z.to_nat n) (drop (Z.to_nat n) tail) ++ drop k dest).
  rewrite app_assoc. do 3 f_equal. replace k with (Z.to_nat n + (k - Z.to_nat n))%nat at 1 by lia.
  symmetry. apply take_take_drop.
Qed.

Lemma lz4_truncated_block_accepted_witness :
  ∃ extra, decompress (Build_Target true true false true) 0 ([5 * 16] ++ replicate 64 42) (replicate 69 0) 1 5 =
    Ret (true, take (Z.to_nat 5) (replicate 64 42) ++ extra).
Proof. apply lz4_truncated_block_accepted; [lia|vm_compute; done..]. Defined.

(** A match with offset 0, which the format forbids, is not rejected either: such a
    block decompresses successfully, and two specialisations of the decompressor, between
    which the statistics choose, make different data of it. *)
Theorem lz4_zero_offset_accepted :
  let t := Build_Target true true false true in
  let block := [0x10; 97; 0; 0; 0x10; 98] ++ replicate 64 0 in
  let dest := replicate 70 0 in
  ∃ d1 d2,
    decompressImpl t 8 false block dest 6 6 = Ret (true, d1) ∧
    decompressImpl t 16 true block dest 6 6 = Ret (true, d2) ∧
    take 6 d1 = [97; 0; 0; 16; 98; 98] ∧ take 6 d2 = [97; 0; 0; 16; 0; 98].
Proof. intros t block dest. do 2 eexists. split_and!; vm_compute; reflexivity. Qed.
