(* ===== verification/CodecLibraries.v ===== *)
(** The codecs that call compression libraries: LZ4 and LZ4HC
    (src/src/Compression/CompressionCodecLZ4.cpp), which compress with the LZ4 library and
    decompress with the decompressor of LZ4Decompress.v, and ZSTD
    (CompressionCodecZSTD.cpp). The functions of the libraries are parameters. *)

From S2P Require Import Prelude CodecBase LZ4Decompress LZ4Block.
From stdpp Require Import base tactics list numbers.
Local Open Scope Z_scope.

(** * LZ4 *)

(** The LZ4 library: the bytes that a call writes to a destination of the given capacity,
    none when it fails. *)
Class LZ4Library := {
  LZ4_COMPRESSBOUND : Z → Z;
  LZ4_compress_default : bytes → Z → bytes;
  LZ4_compress_HC : bytes → Z → Z → bytes;
}.

(** What its documentation says: the bound for inputs that are not too large, and that
    compression into that much memory succeeds and makes an LZ4 block. *)
Definition LZ4_MAX_INPUT_SIZE : Z := 0x7E000000.

Class LZ4LibraryOk `{LZ4Library} := {
  compress_bound n : 0 ≤ n ≤ LZ4_MAX_INPUT_SIZE → LZ4_COMPRESSBOUND n = n + n / 255 + 16;
  compress_default_block source capacity :
    is_bytes source → 0 < blen source ≤ LZ4_MAX_INPUT_SIZE → LZ4_COMPRESSBOUND (blen source) ≤ capacity →
    LZ4.lz4_block (LZ4_compress_default source capacity) source ∧
    is_bytes (LZ4_compress_default source capacity) ∧ blen (LZ4_compress_default source capacity) ≤ capacity;
  compress_HC_block source capacity level :
    is_bytes source → 0 < blen source ≤ LZ4_MAX_INPUT_SIZE → LZ4_COMPRESSBOUND (blen source) ≤ capacity →
    LZ4.lz4_block (LZ4_compress_HC source capacity level) source ∧
    is_bytes (LZ4_compress_HC source capacity level) ∧ blen (LZ4_compress_HC source capacity level) ≤ capacity;
}.

(** The target of the build, and the variant of the decompressor that the statistics of
    the codec select. *)
Class LZ4Build := {
  lz4_target : LZ4.Target;
  lz4_best_variant : Z;
  lz4_best_variant_range : 0 ≤ lz4_best_variant < 5;
}.

Section LZ4.
Context `{LZ4Library} `{LZ4Build}.

Definition LZ4_getMaxCompressedDataSize (uncompressed_size : Z) : Z := u32 (LZ4_COMPRESSBOUND uncompressed_size).

Definition LZ4_doCompressData (source : bytes) (source_size : Z) (dest : bytes) : outcome (bytes * Z) :=
  src ← read_bytes source 0 source_size;
  let out := LZ4_compress_default src (LZ4_COMPRESSBOUND source_size) in
  dest ← write_bytes dest 0 out;
  Ret (dest, u32 (blen out)).

Definition LZ4_doDecompressData (source : bytes) (source_size : Z) (dest : bytes) (uncompressed_size : Z)
  : outcome bytes :=
  '(success, dest) ← LZ4.decompress lz4_target lz4_best_variant source dest source_size uncompressed_size;
  _ ← throw_if (negb success) CANNOT_DECOMPRESS;
  Ret dest.

Definition CompressionCodecLZ4 (ec : ErrorCode) : codec := {|
  getMethodByte := method_byte LZ4;
  doCompressData := LZ4_doCompressData;
  doDecompressData := LZ4_doDecompressData;
  getMaxCompressedDataSize := LZ4_getMaxCompressedDataSize;
  getAdditionalSizeAtTheEndOfBuffer := LZ4.ADDITIONAL_BYTES_AT_END_OF_BUFFER;
  decompression_error_code := ec;
|}.

Definition LZ4HC_doCompressData (level : Z) (source : bytes) (source_size : Z) (dest : bytes)
  : outcome (bytes * Z) :=
  src ← read_bytes source 0 source_size;
  let out := LZ4_compress_HC src (LZ4_COMPRESSBOUND source_size) level in
  let success := blen out in
  dest ← write_bytes dest 0 out;
  _ ← throw_if (success =? 0) CANNOT_COMPRESS;
  Ret (dest, u32 success).

(** [CompressionCodecLZ4HC] inherits the rest from [CompressionCodecLZ4]. *)
Definition CompressionCodecLZ4HC (ec : ErrorCode) (level : Z) : codec := {|
  getMethodByte := method_byte LZ4;
  doCompressData := LZ4HC_doCompressData level;
  doDecompressData := LZ4_doDecompressData;
  getMaxCompressedDataSize := LZ4_getMaxCompressedDataSize;
  getAdditionalSizeAtTheEndOfBuffer := LZ4.ADDITIONAL_BYTES_AT_END_OF_BUFFER;
  decompression_error_code := ec;
|}.
End LZ4.

(** * ZSTD *)

(** The ZSTD library. [ZSTD_compress2] is given the parameters of the context: the level
    and, with long distance matching, the window; [None] is an error code. The second
    component of [ZSTD_decompress] is what it has written to the destination. *)
Class ZSTDLibrary := {
  ZSTD_compressBound : Z → Z;
  ZSTD_compress2 : Z → option Z → bytes → Z → option bytes;
  ZSTD_decompress : bytes → Z → option bytes;
  ZSTD_maxCLevel : Z;
  (** The bounds of the parameter windowLog, or an error. *)
  ZSTD_windowLog_bounds : option (Z * Z);
}.

(** What zstd.h says: the bound, and that compression into that much memory, with a level
    and a window within the limits, succeeds and is undone by decompression. *)
Definition ZSTD_window_ok `{ZSTDLibrary} (w : Z) : Prop :=
  w = 0 ∨ ∃ lower upper, ZSTD_windowLog_bounds = Some (lower, upper) ∧ lower ≤ w ≤ upper.

Class ZSTDLibraryOk `{ZSTDLibrary} := {
  zstd_bound n : 0 ≤ n < 2 ^ 31 →
    ZSTD_compressBound n = n + n / 2 ^ 8 + (if n <? 2 ^ 17 then (2 ^ 17 - n) / 2 ^ 11 else 0);
  zstd_undoes level window_log source capacity :
    level ≤ ZSTD_maxCLevel → (∀ w, window_log = Some w → ZSTD_window_ok w) →
    is_bytes source → 0 < blen source < 2 ^ 31 → ZSTD_compressBound (blen source) ≤ capacity →
    ∃ out, ZSTD_compress2 level window_log source capacity = Some out ∧
      is_bytes out ∧ blen out ≤ capacity ∧ ZSTD_decompress out (blen source) = Some source;
}.

Section ZSTD.
Context `{ZSTDLibrary}.

Definition ZSTD_getMaxCompressedDataSize (uncompressed_size : Z) : Z := u32 (ZSTD_compressBound uncompressed_size).

(** [window_log] is given when [enable_long_range]. *)
Definition ZSTD_doCompressData (level : Z) (window_log : option Z) (source : bytes) (source_size : Z) (dest : bytes)
  : outcome (bytes * Z) :=
  src ← read_bytes source 0 source_size;
  match ZSTD_compress2 level window_log src (ZSTD_compressBound source_size) with
  | None => Throw CANNOT_COMPRESS
  | Some out =>
      dest ← write_bytes dest 0 out;
      Ret (dest, u32 (blen out))
  end.

Definition ZSTD_doDecompressData (source : bytes) (source_size : Z) (dest : bytes) (uncompressed_size : Z)
  : outcome bytes :=
  src ← read_bytes source 0 source_size;
  match ZSTD_decompress src uncompressed_size with
  | None => Throw CANNOT_DECOMPRESS
  | Some out => write_bytes dest 0 out
  end.

Definition CompressionCodecZSTD (ec : ErrorCode) (level : Z) (window_log : option Z) : codec := {|
  getMethodByte := method_byte ZSTD;
  doCompressData := ZSTD_doCompressData level window_log;
  doDecompressData := ZSTD_doDecompressData;
  getMaxCompressedDataSize := ZSTD_getMaxCompressedDataSize;
  getAdditionalSizeAtTheEndOfBuffer := 0;
  decompression_error_code := ec;
|}.
End ZSTD.

(** * The codec contract *)

Section contract.
Context `{LZ4Library} `{!LZ4LibraryOk} `{LZ4Build}.

(** Sources within the limits of the library. *)
Definition lz4_valid (source : bytes) : Prop := 0 < blen source ≤ LZ4_MAX_INPUT_SIZE.

Lemma lz4_max_size n : 0 ≤ n ≤ LZ4_MAX_INPUT_SIZE → LZ4_getMaxCompressedDataSize n = n + n / 255 + 16.
Proof.
  intros Hn. unfold LZ4_getMaxCompressedDataSize. rewrite compress_bound by done. apply wrap_small.
  unfold LZ4_MAX_INPUT_SIZE in *. pose proof (Z.div_pos n 255). pose proof (Z.div_le_upper_bound n 255 n). zlia.
Qed.

(** A block of the format is decompressed. *)
Lemma lz4_undone c out source :
  doDecompressData c = LZ4_doDecompressData → getAdditionalSizeAtTheEndOfBuffer c = 64 →
  LZ4.lz4_block out source → blen source ≤ LZ4_MAX_INPUT_SIZE → undone_by c out source.
Proof.
  intros Hc Ha Hb Hs tail dest Ht Hd. rewrite Hc. rewrite Ha in *. unfold LZ4_doDecompressData.
  destruct (lz4_rest_grows _ _ _ Hb) as [Hs1 Hs2]. rewrite blen_nil in Hs1.
  destruct (decompress_variant lz4_target lz4_best_variant (out ++ tail) dest (blen out) (blen source)
    lz4_best_variant_range Hs2 Hs1) as (N & sh & HN & ->).
  destruct (decompressImpl_block lz4_target N sh HN out source tail dest Hb) as (extra & Hl & ->);
    [unfold LZ4_MAX_INPUT_SIZE in Hs; zlia|done|done|]. cbn. eauto.
Qed.

#[export] Instance lz4_correct ec : CodecCorrect (CompressionCodecLZ4 ec) lz4_valid.
Proof.
  split; [split; vm_compute; done|vm_compute; done|]. intros source tail dest Hb Hv Hd. simpl in *.
  unfold lz4_valid in Hv. rewrite lz4_max_size in * by lia.
  destruct (compress_default_block source (LZ4_COMPRESSBOUND (blen source)) Hb Hv) as (Hblk & Hbytes & Hl); [lia|].
  set (out := LZ4_compress_default _ _) in *. rewrite compress_bound in Hl by lia.
  exists out. split_and!; [|done|done|].
  - unfold LZ4_doCompressData. rewrite read_bytes_prefix by done. cbn [mbind outcome_bind]. fold out.
    rewrite write_first by lia. cbn [mbind outcome_bind]. rewrite wrap_small; [done|].
    unfold LZ4_MAX_INPUT_SIZE in Hv. pose proof (blen_nonneg out). pose proof (Z.div_le_upper_bound (blen source) 255 (blen source)).
    zlia.
  - apply lz4_undone; [done|done|done|lia].
Qed.

#[export] Instance lz4hc_correct ec level : CodecCorrect (CompressionCodecLZ4HC ec level) lz4_valid.
Proof.
  split; [split; vm_compute; done|vm_compute; done|]. intros source tail dest Hb Hv Hd. simpl in *.
  unfold lz4_valid in Hv. rewrite lz4_max_size in * by lia.
  destruct (compress_HC_block source (LZ4_COMPRESSBOUND (blen source)) level Hb Hv) as (Hblk & Hbytes & Hl); [lia|].
  set (out := LZ4_compress_HC _ _ _) in *. rewrite compress_bound in Hl by lia.
  destruct (lz4_rest_grows _ _ _ Hblk) as [_ Hpos].
  exists out. split_and!; [|done|done|].
  - unfold LZ4HC_doCompressData. rewrite read_bytes_prefix by done. cbn [mbind outcome_bind]. fold out.
    rewrite write_first by lia. cbn [mbind outcome_bind].
    rewrite throw_if_false by (apply Z.eqb_neq; lia). cbn [mbind outcome_bind]. rewrite wrap_small; [done|].
    unfold LZ4_MAX_INPUT_SIZE in Hv. pose proof (Z.div_le_upper_bound (blen source) 255 (blen source)). zlia.
  - apply lz4_undone; [done|done|done|lia].
Qed.
End contract.

Section zstd_contract.
Context `{ZSTDLibrary} `{!ZSTDLibraryOk}.

Lemma zstd_max_size n : 0 ≤ n < 2 ^ 31 →
  ZSTD_getMaxCompressedDataSize n = n + n / 2 ^ 8 + (if n <? 2 ^ 17 then (2 ^ 17 - n) / 2 ^ 11 else 0).
Proof.
  intros Hn. unfold ZSTD_getMaxCompressedDataSize. rewrite zstd_bound by done. apply wrap_small.
  destruct (Z.ltb_spec n (2 ^ 17)); dlia.
Qed.

Lemma zstd_correct ec level window_log :
  level ≤ ZSTD_maxCLevel → (∀ w, window_log = Some w → ZSTD_window_ok w) →
  CodecCorrect (CompressionCodecZSTD ec level window_log) (λ source, 0 < blen source < 2 ^ 31).
Proof.
  intros Hl Hw. split; [split; vm_compute; done|done|]. intros source tail dest Hb Hs Hd. simpl in *.
  destruct (zstd_undoes level window_log source (ZSTD_compressBound (blen source)) Hl Hw Hb Hs) as (out & Hc & Hbo & Hlo & Hun); [lia|].
  assert (ZSTD_getMaxCompressedDataSize (blen source) = ZSTD_compressBound (blen source)) as HM
    by (rewrite zstd_max_size, zstd_bound by lia; done).
  assert (ZSTD_compressBound (blen source) < 2 ^ 32)
    by (rewrite zstd_bound by lia; destruct (Z.ltb_spec (blen source) (2 ^ 17)); dlia).
  exists out. pose proof (blen_nonneg out). split_and!; [|done|lia|].
  - unfold ZSTD_doCompressData. rewrite read_bytes_prefix by done. cbn [mbind outcome_bind]. rewrite Hc.
    rewrite write_first by lia. cbn [mbind outcome_bind]. by rewrite wrap_small by zlia.
  - intros tail' dest' _ Hd'. simpl in *. unfold ZSTD_doDecompressData. rewrite read_bytes_prefix by done.
    cbn [mbind outcome_bind]. rewrite Hun, write_first by lia. eexists. split; [reflexivity|].
    apply blen_over. lia.
Qed.
End zstd_contract.

Section safety.
Context `{LZ4Library} `{LZ4Build}.

Lemma lz4_doDecompressData_safe source source_size dest uncompressed_size :
  is_bytes source → is_bytes dest → 0 ≤ source_size → source_size + 64 ≤ blen source →
  0 < uncompressed_size < 2 ^ 32 → uncompressed_size + 64 ≤ blen dest →
  safe (LZ4_doDecompressData source source_size dest uncompressed_size) (λ d, blen d = blen dest ∧ is_bytes d).
Proof.
  intros Hb Hd Hs Hsl Hu Hdl. unfold LZ4_doDecompressData.
  assert (safe (LZ4.decompress lz4_target lz4_best_variant source dest source_size uncompressed_size)
    (λ r, kept dest r.2)) as Hsafe.
  { destruct (decide (source_size = 0)) as [->|].
    - unfold LZ4.decompress. cbn. done.
    - destruct (decompress_variant lz4_target lz4_best_variant source dest source_size uncompressed_size
        lz4_best_variant_range) as (N & sh & HN & ->); [lia..|].
      apply decompressImpl_safe; auto; zlia. }
  eapply safe_bind; [exact Hsafe|]. intros [[] d] Hk; [|done]. exact Hk.
Qed.

#[export] Instance lz4_safe ec : CodecSafe (CompressionCodecLZ4 ec).
Proof. split. intros. apply lz4_doDecompressData_safe; auto. Qed.

#[export] Instance lz4hc_safe ec level : CodecSafe (CompressionCodecLZ4HC ec level).
Proof. split. intros. apply lz4_doDecompressData_safe; auto. Qed.
End safety.

(** * Theorems *)

(** A library that makes blocks of literals only. *)
Module LiteralLibrary.
#[export] Instance library : LZ4Library := {|
  LZ4_COMPRESSBOUND n := n + n / 255 + 16;
  LZ4_compress_default source _ := LZ4.encode_last 0 source;
  LZ4_compress_HC source _ _ := LZ4.encode_last 0 source;
|}.

Lemma literal_bytes source : is_bytes source → is_bytes (LZ4.encode_last 0 source).
Proof.
  intros Hb. unfold LZ4.encode_last, LZ4.length_bytes, LZ4.nibble. pose proof (blen_nonneg source).
  constructor; [unfold is_byte; destruct (Z.ltb_spec (blen source) 15); lia|]. apply Forall_app. split; [|done].
  destruct (_ <? _); [constructor|]. apply Forall_app. split; [by apply Forall_replicate|].
  constructor; [|constructor]. unfold is_byte. pose proof (Z.mod_pos_bound (blen source - 15) 255). lia.
Qed.

Lemma literal_ok source capacity :
  is_bytes source → 0 < blen source → blen source + blen source / 255 + 16 ≤ capacity →
  LZ4.lz4_block (LZ4.encode_last 0 source) source ∧
  is_bytes (LZ4.encode_last 0 source) ∧ blen (LZ4.encode_last 0 source) ≤ capacity.
Proof.
  intros Hb Hs Hc. assert (LZ4.lz4_block (LZ4.encode_last 0 source) source) as Hblk
    by (apply literal_block; [done|by intros ->]).
  split_and!; [done|by apply literal_bytes|]. pose proof (blen_literal_block source). lia.
Qed.

#[export] Instance library_ok : LZ4LibraryOk.
Proof. split; simpl; [done|intros; apply literal_ok; auto; lia..]. Qed.

#[export, refine] Instance build : LZ4Build := {|
  lz4_target := {| LZ4.SSE2 := true; LZ4.SSSE3 := true; LZ4.AARCH64 := false; LZ4.USE_MULTITARGET_CODE := false |};
  lz4_best_variant := 2;
|}.
Proof. lia. Defined.
End LiteralLibrary.

(** The codec LZ4, or LZ4HC of a level. *)
Definition lz4_codec `{LZ4Library} `{LZ4Build} (ec : ErrorCode) (level : option Z) : codec :=
  match level with Some level => CompressionCodecLZ4HC ec level | None => CompressionCodecLZ4 ec end.

(** C10: a block that the codec LZ4 or LZ4HC of any level makes with the LZ4 library, of any
    source that the library takes, is within the size that the codec reserves, and the
    codec LZ4 decompresses it to the source, with any variant of the decompressor on any
    target; 64 bytes of room behind the block and behind the destination are enough. *)
Theorem lz4_roundtrip `{LZ4Library} `{!LZ4LibraryOk} `{LZ4Build} (ec ec' : ErrorCode) (level : option Z)
    (source tail dest dest' : bytes) :
  is_bytes source → 0 < blen source ≤ LZ4_MAX_INPUT_SIZE →
  getCompressedReserveSize (lz4_codec ec level) (blen source) ≤ blen dest →
  64 ≤ blen tail → blen source + 64 ≤ blen dest' →
  ∃ blk extra,
    compress (lz4_codec ec level) source (blen source) dest = Ret (over blk dest, blen blk) ∧
    blen blk ≤ 25 + blen source + blen source / 255 ∧
    decompress (CompressionCodecLZ4 ec') (blk ++ tail) (blen blk) dest' = Ret (source ++ extra, blen source).
Proof.
  intros Hb Hs Hd Ht Hd'. pose proof (lz4_max_size (blen source) ltac:(lia)) as Hm.
  assert (9 + LZ4_getMaxCompressedDataSize (blen source) < 2 ^ 32).
  { rewrite Hm. unfold LZ4_MAX_INPUT_SIZE in Hs. pose proof (Z.div_le_upper_bound (blen source) 255 (2 ^ 24)). zlia. }
  assert (0 ≤ blen source / 255) by (apply Z.div_pos; lia).
  assert (CodecCorrect (lz4_codec ec level) lz4_valid) as Hcorrect by (destruct level; apply _).
  assert (getMaxCompressedDataSize (lz4_codec ec level) = LZ4_getMaxCompressedDataSize ∧
    getMethodByte (lz4_codec ec level) = 0x82) as [HM Hmeth] by by destruct level.
  rewrite reserve_small, HM in Hd by (rewrite HM; lia).
  destruct (block_roundtrip (lz4_codec ec level) lz4_valid source [] dest Hb) as (out & Hc & Ho & Hl & _ & Hun);
    [done|unfold LZ4_MAX_INPUT_SIZE in Hs; zlia|by rewrite HM|by rewrite HM|].
  assert (undone_by (CompressionCodecLZ4 ec') out source) as Hun' by (destruct level; exact Hun).
  destruct (Hun' tail dest' Ht Hd') as (extra & Hdec & _).
  exists (CodecBase.block (CompressionCodecLZ4 ec') out (blen source)), extra.
  replace (CodecBase.block (lz4_codec ec level) out (blen source)) with (CodecBase.block (CompressionCodecLZ4 ec') out (blen source)) in Hc
    by (unfold CodecBase.block; by rewrite Hmeth).
  rewrite app_nil_r in Hc. rewrite Hc. rewrite HM, Hm in Hl. split_and!; [done|rewrite blen_block; lia|].
  apply decompress_block; [lia|unfold LZ4_MAX_INPUT_SIZE in Hs; zlia|exact Hdec].
Qed.

Import LiteralLibrary.

Lemma lz4_roundtrip_witness :
  let source := [1; 2; 3; 1; 2; 3; 1; 2; 3; 1; 2; 3; 1; 2; 3; 1; 2; 3] in
  ∃ blk extra,
    compress (lz4_codec CORRUPTED_DATA (Some 9)) source 18 (replicate 43 0) = Ret (over blk (replicate 43 0), blen blk) ∧
    blen blk ≤ 25 + 18 + 18 / 255 ∧
    decompress (CompressionCodecLZ4 CANNOT_DECOMPRESS) (blk ++ replicate 64 7) (blen blk) (replicate 82 0) =
      Ret (source ++ extra, 18).
Proof.
  intros source. apply (lz4_roundtrip CORRUPTED_DATA CANNOT_DECOMPRESS (Some 9) source (replicate 64 7));
    [by apply is_bytes_compute|vm_compute; split; congruence|vm_compute; congruence..].
Defined.
