(* ===== verification/CodecEncrypted.v ===== *)
(** The encryption codecs, src/src/Compression/CompressionCodecEncrypted.cpp and .h: the
    configuration of keys and nonces, its loading and reloading, the framing of encrypted
    data and the calls of OpenSSL, which is a parameter. *)

From S2P Require Import Prelude VarInt CodecBase.
From stdpp Require Import base tactics list numbers strings gmap.
Local Open Scope Z_scope.

Module Encrypted.

Inductive EncryptionMethod := AES_128_GCM_SIV | AES_256_GCM_SIV | MAX_ENCRYPTION_METHOD.

#[global] Instance EncryptionMethod_eq_dec : EqDecision EncryptionMethod.
Proof. solve_decision. Defined.

Definition toEncryptionMethod (name : string) : outcome EncryptionMethod :=
  if decide (name = "AES_128_GCM_SIV"%string) then Ret AES_128_GCM_SIV
  else if decide (name = "AES_256_GCM_SIV"%string) then Ret AES_256_GCM_SIV
  else Throw BAD_ARGUMENTS.

Definition getMethodName (method : EncryptionMethod) : string :=
  match method with
  | AES_128_GCM_SIV => "AES_128_GCM_SIV"
  | AES_256_GCM_SIV => "AES_256_GCM_SIV"
  | MAX_ENCRYPTION_METHOD => ""
  end.

Definition getMethodCode (method : EncryptionMethod) : outcome Z :=
  match method with
  | AES_128_GCM_SIV => Ret (method_byte CodecBase.AES_128_GCM_SIV)
  | AES_256_GCM_SIV => Ret (method_byte CodecBase.AES_256_GCM_SIV)
  | MAX_ENCRYPTION_METHOD => Throw BAD_ARGUMENTS
  end.

Definition tag_size : Z := 16.
Definition key_id_max_size : Z := 8.
Definition nonce_max_size : Z := 13.
Definition actual_nonce_size : Z := 12.
Definition empty_nonce : bytes := replicate 12 0.

Definition methodKeySize (method : EncryptionMethod) : outcome Z :=
  match method with
  | AES_128_GCM_SIV => Ret 16
  | AES_256_GCM_SIV => Ret 32
  | MAX_ENCRYPTION_METHOD => Throw BAD_ARGUMENTS
  end.

(** * OpenSSL *)

(** The calls of [encrypt] and [decrypt]. A cipher is known by its name; the functions
    that depend on what the context has been given before have it as arguments. Failure
    is [false] or [None]; the others return what they write. *)
Class OpenSSL := {
  s390x : bool;
  EVP_CIPHER_CTX_new : bool;
  EVP_CIPHER_fetch : string → bool;
  EVP_Init : string → bool;
  EVP_CTRL_GCM_SET_IVLEN : string → Z → bool;
  EVP_Init_key : string → bytes → bytes → bool;
  EVP_EncryptUpdate : string → bytes → bytes → bytes → option bytes;
  EVP_EncryptFinal_ex : string → bytes → bytes → bytes → option bytes;
  EVP_CTRL_GCM_GET_TAG : string → bytes → bytes → bytes → option bytes;
  EVP_CTRL_GCM_SET_TAG : string → bytes → bool;
  EVP_DecryptUpdate : string → bytes → bytes → bytes → bytes → option bytes;
  EVP_DecryptFinal_ex : string → bytes → bytes → bytes → bytes → option bytes;
}.

Section codec.
Context `{OpenSSL}.

Definition getMethod (method : EncryptionMethod) : outcome string :=
  match method with
  | AES_128_GCM_SIV => Ret (if s390x then "AES-128-GCM" else "AES-128-GCM-SIV")%string
  | AES_256_GCM_SIV => Ret (if s390x then "AES-256-GCM" else "AES-256-GCM-SIV")%string
  | MAX_ENCRYPTION_METHOD => Throw BAD_ARGUMENTS
  end.

Definition check (ok : bool) : outcome unit := throw_if (negb ok) OPENSSL_ERROR.

Definition get {A} (r : option A) : outcome A :=
  match r with Some a => Ret a | None => Throw OPENSSL_ERROR end.

(** The handler of exceptions frees the cipher, whose pointer is not initialised when
    [getMethod] throws. *)
Definition fetch (method : EncryptionMethod) : outcome string :=
  match getMethod method with
  | Ret name => _ ← check (EVP_CIPHER_fetch name); Ret name
  | _ => UB
  end.

(** [ciphertext_and_tag] is an offset into [mem]. *)
Definition encrypt (plaintext : bytes) (mem : bytes) (ciphertext_and_tag : Z) (method : EncryptionMethod)
  (key nonce : bytes) : outcome (bytes * Z) :=
  _ ← check EVP_CIPHER_CTX_new;
  cipher ← fetch method;
  _ ← check (EVP_Init cipher);
  _ ← check (EVP_CTRL_GCM_SET_IVLEN cipher (blen nonce));
  _ ← check (EVP_Init_key cipher key nonce);
  out ← get (EVP_EncryptUpdate cipher key nonce plaintext);
  mem ← write_bytes mem ciphertext_and_tag out;
  out' ← get (EVP_EncryptFinal_ex cipher key nonce plaintext);
  mem ← write_bytes mem (ciphertext_and_tag + blen out) out';
  let ciphertext_len := blen out + blen out' in
  tag ← get (EVP_CTRL_GCM_GET_TAG cipher key nonce plaintext);
  mem ← write_bytes mem (ciphertext_and_tag + blen plaintext) tag;
  Ret (mem, ciphertext_len + tag_size).

Definition decrypt (mem : bytes) (ciphertext ciphertext_size : Z) (dest : bytes) (method : EncryptionMethod)
  (key nonce : bytes) : outcome (bytes * Z) :=
  _ ← check EVP_CIPHER_CTX_new;
  cipher ← fetch method;
  _ ← check (EVP_Init cipher);
  _ ← check (EVP_CTRL_GCM_SET_IVLEN cipher (blen nonce));
  _ ← check (EVP_Init_key cipher key nonce);
  tag ← read_bytes mem (ciphertext + ciphertext_size - tag_size) tag_size;
  _ ← check (EVP_CTRL_GCM_SET_TAG cipher tag);
  text ← read_bytes mem ciphertext (ciphertext_size - tag_size);
  out ← get (EVP_DecryptUpdate cipher key nonce tag text);
  dest ← write_bytes dest 0 out;
  out' ← get (EVP_DecryptFinal_ex cipher key nonce tag text);
  dest ← write_bytes dest (blen out) out';
  Ret (dest, blen out + blen out').

(** * Nonces *)

Definition writeNonce (nonce : bytes) (mem : bytes) (dest : Z) : outcome (bytes * Z) :=
  if decide (nonce ≠ empty_nonce) then
    mem ← write_bytes mem dest [1];
    let dest := dest + 1 in
    mem ← write_bytes mem dest nonce;
    Ret (mem, dest + blen nonce)
  else
    mem ← write_bytes mem dest [0];
    Ret (mem, dest + 1).

Definition readNonce (mem : bytes) (source : Z) : outcome (bytes * Z) :=
  b ← load 1 mem source;
  if b =? 0 then Ret (empty_nonce, source + 1)
  else
    let source := source + 1 in
    nonce ← read_bytes mem source actual_nonce_size;
    Ret (nonce, source + actual_nonce_size).

(** * Configuration *)

Record Params := mk_params {
  keys_storage : EncryptionMethod → gmap Z bytes;
  current_key_id : EncryptionMethod → Z;
  params_nonce : EncryptionMethod → bytes;
}.

Definition new_Params : Params := mk_params (λ _, ∅) (λ _, 0) (λ _, []).

Definition set_at {A} (method : EncryptionMethod) (a : A) (f : EncryptionMethod → A) : EncryptionMethod → A :=
  λ m, if decide (m = method) then a else f m.

(** [Poco::Util::AbstractConfiguration]; [getUInt64] throws when the value is not a number. *)
Record AbstractConfiguration := {
  has : string → bool;
  keys : string → list string;
  getString : string → bytes → bytes;
  getUInt64 : string → Z → outcome Z;
}.

(** [boost::algorithm::unhex], which throws on other characters. *)
Context (boost_unhex : bytes → option bytes).

Definition unhexKey (hex : bytes) : outcome bytes :=
  match boost_unhex hex with Some key => Ret key | None => Throw BAD_ARGUMENTS end.

(** The key that [config_key] names, if it names one. *)
Definition read_key (config : AbstractConfiguration) (config_prefix config_key : string) : outcome (option (bytes * Z)) :=
  let path := (config_prefix +:+ "." +:+ config_key)%string in
  if bool_decide (config_key = "key"%string) || String.prefix "key["%string config_key then
    let key := getString config path [] in
    key_id ← getUInt64 config (path +:+ "[@id]")%string 0;
    Ret (Some (key, key_id))
  else if bool_decide (config_key = "key_hex"%string) || String.prefix "key_hex["%string config_key then
    key ← unhexKey (getString config path []);
    key_id ← getUInt64 config (path +:+ "[@id]")%string 0;
    Ret (Some (key, key_id))
  else Ret None.

(** The loop over the keys of the configuration. *)
Fixpoint load_keys (config : AbstractConfiguration) (config_prefix : string) (method : EncryptionMethod)
  (config_keys : list string) (new_params : Params) : outcome Params :=
  match config_keys with
  | [] => Ret new_params
  | config_key :: config_keys =>
      r ← read_key config config_prefix config_key;
      match r with
      | None => load_keys config config_prefix method config_keys new_params
      | Some (key, key_id) =>
          _ ← throw_if (bool_decide (is_Some (keys_storage new_params method !! key_id))) BAD_ARGUMENTS;
          size ← methodKeySize method;
          _ ← throw_if (negb (blen key =? size)) BAD_ARGUMENTS;
          load_keys config config_prefix method config_keys
            (mk_params (set_at method (<[key_id := key]> (keys_storage new_params method)) (keys_storage new_params))
               (current_key_id new_params) (params_nonce new_params))
      end
  end.

Definition loadImpl (config : AbstractConfiguration) (config_prefix : string) (method : EncryptionMethod)
  (new_params : Params) : outcome Params :=
  _ ← throw_if (bool_decide (method = MAX_ENCRYPTION_METHOD)) BAD_ARGUMENTS;
  new_params ← load_keys config config_prefix method (keys config config_prefix) new_params;
  let storage := keys_storage new_params method in
  _ ← throw_if (bool_decide (storage = ∅)) BAD_ARGUMENTS;
  _ ← throw_if (negb (has config (config_prefix +:+ ".current_key_id")%string) && bool_decide (1 < size storage)%nat)
        BAD_ARGUMENTS;
  _ ← throw_if (negb (has config (config_prefix +:+ ".current_key_id")%string) &&
                bool_decide (size storage = 1%nat) && negb (bool_decide (is_Some (storage !! 0)))) BAD_ARGUMENTS;
  id ← getUInt64 config (config_prefix +:+ ".current_key_id")%string 0;
  _ ← throw_if (negb (bool_decide (is_Some (storage !! id)))) BAD_ARGUMENTS;
  nonce ← (if has config (config_prefix +:+ ".nonce_hex")%string
           then unhexKey (getString config (config_prefix +:+ ".nonce_hex")%string [])
           else Ret (getString config (config_prefix +:+ ".nonce")%string []));
  _ ← throw_if (negb (blen nonce =? actual_nonce_size) && negb (blen nonce =? 0)) BAD_ARGUMENTS;
  Ret (mk_params (keys_storage new_params) (set_at method id (current_key_id new_params))
         (set_at method nonce (params_nonce new_params))).

(** The parameters that [load] makes of a configuration. *)
Definition load_params (config : AbstractConfiguration) (config_prefix : string) : outcome Params :=
  let new_params := new_Params in
  new_params ← (if has config (config_prefix +:+ ".aes_128_gcm_siv")%string
    then loadImpl config (config_prefix +:+ ".aes_128_gcm_siv")%string AES_128_GCM_SIV new_params
    else Ret new_params);
  if has config (config_prefix +:+ ".aes_256_gcm_siv")%string
  then loadImpl config (config_prefix +:+ ".aes_256_gcm_siv")%string AES_256_GCM_SIV new_params
  else Ret new_params.

(** The state of [Configuration] is its member [params], null at first. *)
Definition load (config : AbstractConfiguration) (config_prefix : string) (params : option Params)
  : outcome unit * option Params :=
  match load_params config config_prefix with
  | Ret new_params => (Ret tt, Some new_params)
  | Throw e => (Throw e, params)
  | UB => (UB, params)
  | OutOfFuel => (OutOfFuel, params)
  end.

Definition tryLoad (config : AbstractConfiguration) (config_prefix : string) (params : option Params)
  : outcome bool * option Params :=
  match load config config_prefix params with
  | (Ret _, params) => (Ret true, params)
  | (Throw _, params) => (Ret false, params)
  | (UB, params) => (UB, params)
  | (OutOfFuel, params) => (OutOfFuel, params)
  end.

Definition getCurrentKeyAndNonce (params : option Params) (method : EncryptionMethod) : outcome (Z * bytes * bytes) :=
  match params with
  | None => Throw BAD_ARGUMENTS
  | Some current_params =>
      let key_id := current_key_id current_params method in
      match keys_storage current_params method !! key_id with
      | None => Throw BAD_ARGUMENTS
      | Some current_key =>
          let nonce := params_nonce current_params method in
          Ret (key_id, current_key, if blen nonce =? 0 then empty_nonce else nonce)
      end
  end.

Definition getKey (params : option Params) (method : EncryptionMethod) (key_id : Z) : outcome bytes :=
  match params with
  | None => Throw BAD_ARGUMENTS
  | Some current_params =>
      match keys_storage current_params method !! key_id with
      | None => Throw BAD_ARGUMENTS
      | Some key => Ret key
      end
  end.

(** * The codec *)

Definition getMaxCompressedDataSize (uncompressed_size : Z) : Z :=
  u32 (uncompressed_size + tag_size + key_id_max_size + nonce_max_size).

Definition doCompressData (params : option Params) (encryption_method : EncryptionMethod)
  (source : bytes) (source_size : Z) (dest : bytes) : outcome (bytes * Z) :=
  '(key_id, current_key, nonce) ← getCurrentKeyAndNonce params encryption_method;
  '(dest, ciphertext_with_nonce) ← writeVarUInt_ptr max_varuint_bytes key_id dest 0;
  let keyid_size := ciphertext_with_nonce in
  '(dest, ciphertext) ← writeNonce nonce dest ciphertext_with_nonce;
  let nonce_size := ciphertext - ciphertext_with_nonce in
  plaintext ← read_bytes source 0 source_size;
  '(dest, out_len) ← encrypt plaintext dest ciphertext encryption_method current_key nonce;
  _ ← throw_if (negb (out_len =? source_size + tag_size)) LOGICAL_ERROR;
  let out_size := out_len + keyid_size + nonce_size in
  _ ← throw_if (2 ^ 32 <=? out_size) LOGICAL_ERROR;
  Ret (dest, out_size).

Definition doDecompressData (params : option Params) (encryption_method : EncryptionMethod)
  (source : bytes) (source_size : Z) (dest : bytes) (uncompressed_size : Z) : outcome bytes :=
  '(key_id, ciphertext_with_nonce) ← readVarUInt_ptr max_varuint_bytes 0 0 source 0 source_size;
  let keyid_size := ciphertext_with_nonce in
  key ← getKey params encryption_method key_id;
  '(nonce, ciphertext) ← readNonce source ciphertext_with_nonce;
  let nonce_size := ciphertext - ciphertext_with_nonce in
  let ciphertext_size := u64 (source_size - keyid_size - nonce_size) in
  _ ← throw_if (negb (ciphertext_size =? u64 (uncompressed_size + tag_size))) LOGICAL_ERROR;
  '(dest, out_len) ← decrypt source ciphertext ciphertext_size dest encryption_method key nonce;
  _ ← throw_if (negb (out_len =? u64 (ciphertext_size - tag_size))) LOGICAL_ERROR;
  Ret dest.

(** [getMethodByte] does not throw for the two methods that are registered. *)
Definition codec (ec : ErrorCode) (params : option Params) (encryption_method : EncryptionMethod) : codec := {|
  getMethodByte := match getMethodCode encryption_method with Ret code => code | _ => 0 end;
  CodecBase.doCompressData := doCompressData params encryption_method;
  CodecBase.doDecompressData := doDecompressData params encryption_method;
  CodecBase.getMaxCompressedDataSize := getMaxCompressedDataSize;
  getAdditionalSizeAtTheEndOfBuffer := 0;
  decompression_error_code := ec;
|}.
End codec.

(** * The configuration *)

(** Every key has the size of its method and a UInt64 as its id, nonces are absent or of
    their size, and a method that has keys has a current one. *)
Record params_ok (p : Params) : Prop := {
  ok_keys m id key : keys_storage p m !! id = Some key →
    methodKeySize m = Ret (blen key) ∧ is_bytes key ∧ 0 ≤ id < 2 ^ 64;
  ok_nonce m : (params_nonce p m = [] ∨ blen (params_nonce p m) = actual_nonce_size) ∧ is_bytes (params_nonce p m);
  ok_current m : keys_storage p m ≠ ∅ → is_Some (keys_storage p m !! current_key_id p m);
}.

(** What [Poco] and [boost] return are bytes and UInt64. *)
Record config_ok (config : AbstractConfiguration) : Prop := {
  config_strings path : is_bytes (getString config path []);
  config_numbers path x : getUInt64 config path 0 = Ret x → 0 ≤ x < 2 ^ 64;
  config_defined path : defined (getUInt64 config path 0);
}.

Section configuration.
Context (boost_unhex : bytes → option bytes).
Context (unhex_bytes : ∀ hex key, boost_unhex hex = Some key → is_bytes key).
Context (config : AbstractConfiguration) (Hconfig : config_ok config).

Lemma unhexKey_bytes hex key : unhexKey boost_unhex hex = Ret key → is_bytes key.
Proof. unfold unhexKey. destruct (boost_unhex hex) eqn:E; [|done]. intros [= <-]. by apply unhex_bytes in E. Qed.

Lemma read_key_bytes prefix name key id :
  read_key boost_unhex config prefix name = Ret (Some (key, id)) → is_bytes key ∧ 0 ≤ id < 2 ^ 64.
Proof.
  unfold read_key. destruct (_ || _); [|destruct (_ || _); [|done]].
  - destruct (getUInt64 _ _ _) eqn:E; cbn; [|done..]. intros [= <- <-].
    split; [by apply config_strings|by eapply config_numbers].
  - destruct (unhexKey _ _) eqn:E1; cbn; [|done..]. destruct (getUInt64 _ _ _) eqn:E; cbn; [|done..]. intros [= <- <-].
    split; [by eapply unhexKey_bytes|by eapply config_numbers].
Qed.

(** Loading the keys of one method. *)
Lemma load_keys_spec prefix method names p p' :
  (∀ id key, keys_storage p method !! id = Some key →
    methodKeySize method = Ret (blen key) ∧ is_bytes key ∧ 0 ≤ id < 2 ^ 64) →
  load_keys boost_unhex config prefix method names p = Ret p' →
  (∀ id key, keys_storage p' method !! id = Some key →
    methodKeySize method = Ret (blen key) ∧ is_bytes key ∧ 0 ≤ id < 2 ^ 64) ∧
  (∀ m, m ≠ method → keys_storage p' m = keys_storage p m) ∧
  current_key_id p' = current_key_id p ∧ params_nonce p' = params_nonce p.
Proof.
  revert p. induction names as [|name names IH]; intros p Hp; cbn [load_keys].
  - intros [= <-]. auto.
  - destruct (read_key _ _ _ _) as [[[key id]|]| | |] eqn:Er; cbn; [|by apply IH|done..].
    destruct (throw_if _ _); cbn; [|done..].
    destruct (methodKeySize method) as [sz| | |] eqn:Esz; cbn; [|done..].
    destruct (Z.eqb_spec (blen key) sz) as [Hsz|]; cbn; [|done]. intros Hl.
    apply read_key_bytes in Er as [Hkb Hid]. apply IH in Hl as (H1 & H2 & H3 & H4).
    + split; [done|]. split; [|done]. intros m Hm. rewrite H2 by done. simpl. unfold set_at. by rewrite decide_False.
    + intros id' key'. simpl. unfold set_at. rewrite decide_True by done.
      destruct (decide (id' = id)) as [->|]; [rewrite lookup_insert_eq|rewrite lookup_insert_ne by done].
      * intros [= <-]. by rewrite Hsz.
      * apply Hp.
Qed.

Lemma loadImpl_ok prefix method p p' :
  params_ok p → loadImpl boost_unhex config prefix method p = Ret p' → params_ok p' ∧ keys_storage p' method ≠ ∅.
Proof.
  intros Hp. unfold loadImpl. destruct (throw_if _ _); cbn; [|done..].
  destruct (load_keys _ _ _ _ _ _) as [p1| | |] eqn:El; cbn; [|done..].
  destruct (load_keys_spec _ _ _ _ _ (ok_keys p Hp method) El) as (Hk & Hother & Hc & Hn). clear El.
  destruct (bool_decide_reflect (keys_storage p1 method = ∅)) as [|Hne]; cbn; [done|].
  do 2 (match goal with |- (throw_if ?b _ ≫= _) = _ → _ => destruct b end; cbn; [done|]).
  destruct (getUInt64 _ _ _) as [id| | |] eqn:Eid; cbn; [|done..].
  destruct (bool_decide_reflect (is_Some (keys_storage p1 method !! id))) as [Hid|]; cbn; [|done].
  match goal with |- context [?m ≫= _] => destruct m as [nonce| | |] eqn:En end; cbn; [|done..].
  assert (is_bytes nonce) as Hnb.
  { destruct (has _ _); [by eapply unhexKey_bytes|]. injection En as <-. by apply config_strings. }
  destruct (negb (blen nonce =? actual_nonce_size) && _) eqn:Hsz; cbn; [done|]. intros [= <-].
  split; [|done]. split; cbn [keys_storage current_key_id params_nonce].
  - intros m id' key. destruct (decide (m = method)) as [->|]; [apply Hk|rewrite Hother by done; apply (ok_keys p Hp)].
  - intros m. unfold set_at. destruct (decide _); [|rewrite Hn; apply (ok_nonce p Hp)]. split; [|done].
    apply andb_false_iff in Hsz as [Hsz|Hsz]; apply negb_false_iff, Z.eqb_eq in Hsz; [by right|left].
    by apply blen_0_nil.
  - intros m Hm. unfold set_at. destruct (decide (m = method)) as [->|]; [done|].
    rewrite Hc, Hother in * by done. by apply (ok_current p Hp).
Qed.

Lemma new_Params_ok : params_ok new_Params.
Proof. split; simpl; [intros m id key; by rewrite lookup_empty|auto|done]. Qed.

Lemma load_params_ok prefix p : load_params boost_unhex config prefix = Ret p → params_ok p.
Proof.
  unfold load_params.
  assert (∀ path method q q', params_ok q →
    (if has config path then loadImpl boost_unhex config path method q else Ret q) = Ret q' → params_ok q') as Hstep.
  { intros path method q q' Hq. destruct (has config path); [|by intros [= <-]]. intros. by eapply loadImpl_ok. }
  destruct (if has config _ then _ else _) as [p1| | |] eqn:E1; cbn; [|done..].
  intros E2. eapply Hstep; [|exact E2]. eapply Hstep; [|exact E1]. apply new_Params_ok.
Qed.

(** Loading returns or throws. *)
Lemma load_keys_defined prefix method names p : defined (load_keys boost_unhex config prefix method names p).
Proof.
  revert p. induction names as [|name names IH]; intros p; cbn [load_keys]; [done|].
  assert (defined (read_key boost_unhex config prefix name)) as Hr.
  { unfold read_key, unhexKey. pose proof (config_defined config Hconfig) as Hd.
    destruct (_ || _); [|destruct (_ || _); [|done]].
    - specialize (Hd ((prefix +:+ "." +:+ name) +:+ "[@id]")%string). by destruct (getUInt64 _ _ _).
    - destruct (boost_unhex _); cbn; [|done].
      specialize (Hd ((prefix +:+ "." +:+ name) +:+ "[@id]")%string). by destruct (getUInt64 _ _ _). }
  destruct (read_key _ _ _ _) as [[[key id]|]| | |]; cbn; try done.
  destruct (bool_decide _); cbn; [done|]. destruct method; cbn; try done; destruct (blen key =? _); cbn; done || apply IH.
Qed.

Lemma loadImpl_defined prefix method p : defined (loadImpl boost_unhex config prefix method p).
Proof.
  unfold loadImpl. destruct (bool_decide _); cbn; [done|].
  pose proof (load_keys_defined prefix method (keys config prefix) p) as Hk.
  destruct (load_keys _ _ _ _ _ _) as [p1| | |]; cbn; try done.
  do 3 (match goal with |- defined (throw_if ?b _ ≫= _) => destruct b end; cbn; [done|]).
  pose proof (config_defined config Hconfig (prefix +:+ ".current_key_id")%string) as Hd.
  destruct (getUInt64 _ _ _); cbn; try done. destruct (bool_decide _); cbn; [|done].
  unfold unhexKey. destruct (has _ _); [destruct (boost_unhex _); cbn; [|done]|cbn]; by destruct (_ && _).
Qed.

Lemma load_params_defined prefix : defined (load_params boost_unhex config prefix).
Proof.
  unfold load_params. pose proof (λ path m q, loadImpl_defined path m q) as Hi.
  destruct (has config (prefix +:+ ".aes_128_gcm_siv")%string).
  - specialize (Hi (prefix +:+ ".aes_128_gcm_siv")%string AES_128_GCM_SIV new_Params) as H1.
    destruct (loadImpl _ _ _ _ _) as [q| | |]; cbn; try done. destruct (has config _); [apply Hi|done].
  - cbn. destruct (has config _); [apply Hi|done].
Qed.
End configuration.

(** * Encrypted data *)

(** What the documentation of OpenSSL says of an authenticated cipher: with keys and nonces
    of its sizes the calls succeed, the ciphertext is as long as the plaintext, and
    decryption with the tag that encryption made gives the plaintext back. *)
Class OpenSSLOk `{OpenSSL} := {
  openssl_available : EVP_CIPHER_CTX_new = true;
  openssl_cipher method cipher : getMethod method = Ret cipher →
    EVP_CIPHER_fetch cipher = true ∧ EVP_Init cipher = true ∧
    EVP_CTRL_GCM_SET_IVLEN cipher actual_nonce_size = true;
  openssl_key method cipher key nonce : getMethod method = Ret cipher →
    methodKeySize method = Ret (blen key) → blen nonce = actual_nonce_size → EVP_Init_key cipher key nonce = true;
  openssl_encrypt method cipher key nonce plaintext : getMethod method = Ret cipher →
    methodKeySize method = Ret (blen key) → blen nonce = actual_nonce_size →
    is_bytes plaintext → blen plaintext < 2 ^ 31 →
    ∃ c1 c2 tag p1 p2,
      EVP_EncryptUpdate cipher key nonce plaintext = Some c1 ∧
      EVP_EncryptFinal_ex cipher key nonce plaintext = Some c2 ∧
      EVP_CTRL_GCM_GET_TAG cipher key nonce plaintext = Some tag ∧
      blen (c1 ++ c2) = blen plaintext ∧ blen tag = tag_size ∧ is_bytes (c1 ++ c2 ++ tag) ∧
      EVP_CTRL_GCM_SET_TAG cipher tag = true ∧
      EVP_DecryptUpdate cipher key nonce tag (c1 ++ c2) = Some p1 ∧
      EVP_DecryptFinal_ex cipher key nonce tag (c1 ++ c2) = Some p2 ∧ p1 ++ p2 = plaintext;
}.

Definition nonce_bytes (nonce : bytes) : bytes :=
  if decide (nonce ≠ empty_nonce) then 1 :: nonce else [0].

Section framing.
Context `{OpenSSL} `{!OpenSSLOk}.

Lemma write_key_id id dest :
  0 ≤ id < 2 ^ 64 → getLengthOfVarUInt id ≤ blen dest →
  writeVarUInt_ptr max_varuint_bytes id dest 0 =
    Ret (over (vlq max_varuint_bytes id) dest, blen (vlq max_varuint_bytes id)).
Proof.
  intros Hid Hd. rewrite <- length_vlq in Hd by done.
  destruct (split_at dest (blen (vlq max_varuint_bytes id))) as (old & post & -> & Hold);
    [pose proof (blen_nonneg (vlq max_varuint_bytes id)); lia|].
  pose proof (ptr_vlq max_varuint_bytes id [] old post) as E. rewrite blen_nil in E. cbn [app] in E.
  rewrite E by (unfold max_varuint_bytes in *; zlia || done). rewrite Z.add_0_l. unfold over.
  do 2 f_equal. f_equal. unfold blen in Hold. by rewrite <- (Nat2Z.inj _ _ Hold), drop_app_length.
Qed.

Lemma getLengthOfVarUInt_range id : 1 ≤ getLengthOfVarUInt id ≤ 10 ∧ (id < 2 ^ 56 → getLengthOfVarUInt id ≤ 8).
Proof.
  unfold getLengthOfVarUInt. rewrite !Z.shiftl_1_l. repeat case_match; lia.
Qed.

Lemma writeNonce_over nonce l dest pos :
  pos = blen l → blen l + blen (nonce_bytes nonce) ≤ blen dest →
  writeNonce nonce (over l dest) pos =
    Ret (over (l ++ nonce_bytes nonce) dest, pos + blen (nonce_bytes nonce)).
Proof.
  intros -> Hl. unfold writeNonce, nonce_bytes in *. destruct (decide _).
  - rewrite blen_cons in *. pose proof (blen_nonneg nonce).
    rewrite write_over by (rewrite ?blen_cons, ?blen_nil; lia). cbn [mbind outcome_bind].
    rewrite write_over by (rewrite blen_app, ?blen_cons, ?blen_nil; lia). cbn [mbind outcome_bind].
    rewrite <- app_assoc. do 2 f_equal. lia.
  - rewrite write_over by done. done.
Qed.

Lemma readNonce_spec nonce pre post pos :
  blen nonce = actual_nonce_size → pos = blen pre →
  readNonce (pre ++ nonce_bytes nonce ++ post) pos = Ret (nonce, pos + blen (nonce_bytes nonce)).
Proof.
  intros Hn ->. unfold readNonce, nonce_bytes. destruct (decide _) as [|E]; cbn [app]; rewrite load_byte by done;
    cbn [mbind outcome_bind Z.eqb].
  - rewrite (app_assoc pre [1] (nonce ++ post) : pre ++ 1 :: nonce ++ post = _).
    rewrite read_bytes_app by (done || blia). cbn [mbind outcome_bind]. do 2 f_equal. rewrite blen_cons. lia.
  - by apply dec_stable in E as ->.
Qed.

Lemma nonce_bytes_length nonce :
  blen nonce = actual_nonce_size →
  1 ≤ blen (nonce_bytes nonce) ≤ nonce_max_size ∧ (nonce = empty_nonce → blen (nonce_bytes nonce) = 1).
Proof.
  unfold nonce_bytes, actual_nonce_size, nonce_max_size. intros Hn.
  destruct (decide (nonce ≠ empty_nonce)); rewrite ?blen_cons, ?blen_nil; split; (done || lia).
Qed.

Lemma fetch_spec method cipher : getMethod method = Ret cipher → fetch method = Ret cipher.
Proof.
  intros Hm. unfold fetch, check. rewrite Hm. by destruct (openssl_cipher method cipher Hm) as (-> & _ & _).
Qed.

Lemma encrypt_over method key nonce plaintext l dest pos :
  method ≠ MAX_ENCRYPTION_METHOD → methodKeySize method = Ret (blen key) → blen nonce = actual_nonce_size →
  is_bytes plaintext → blen plaintext < 2 ^ 31 → pos = blen l → blen l + blen plaintext + tag_size ≤ blen dest →
  ∃ ciphertext,
    encrypt plaintext (over l dest) pos method key nonce =
      Ret (over (l ++ ciphertext) dest, blen plaintext + tag_size) ∧
    blen ciphertext = blen plaintext + tag_size ∧ is_bytes ciphertext ∧
    (∀ pre post dest', blen plaintext ≤ blen dest' →
      decrypt (pre ++ ciphertext ++ post) (blen pre) (blen ciphertext) dest' method key nonce =
        Ret (over plaintext dest', blen plaintext)).
Proof.
  intros Hmax Hkey Hnonce Hb Hp -> Hl.
  assert (∃ cipher, getMethod method = Ret cipher) as [cipher Hm] by (destruct method; naive_solver).
  destruct (openssl_cipher method cipher Hm) as (_ & Hinit & Hiv).
  pose proof (openssl_key method cipher key nonce Hm Hkey Hnonce) as Hik.
  destruct (openssl_encrypt method cipher key nonce plaintext Hm Hkey Hnonce Hb Hp)
    as (c1 & c2 & tag & p1 & p2 & E1 & E2 & Et & Hc & Ht & Hbytes & Hst & D1 & D2 & Hpp).
  rewrite blen_app in Hc. pose proof (blen_nonneg c1). pose proof (blen_nonneg c2). unfold tag_size in *.
  exists (c1 ++ c2 ++ tag). split_and!.
  - unfold encrypt. rewrite openssl_available, (fetch_spec method cipher Hm). cbn [check negb throw_if mbind outcome_bind].
    rewrite Hinit, Hnonce, Hiv, Hik. cbn [check negb throw_if mbind outcome_bind].
    rewrite E1. cbn [get mbind outcome_bind]. rewrite write_over by (done || lia). cbn [mbind outcome_bind].
    rewrite E2. cbn [get mbind outcome_bind]. rewrite write_over by (rewrite blen_app; lia). cbn [mbind outcome_bind].
    rewrite Et. cbn [get mbind outcome_bind]. rewrite write_over by (rewrite !blen_app; lia). cbn [mbind outcome_bind].
    rewrite <- !app_assoc. do 2 f_equal. unfold tag_size. lia.
  - rewrite !blen_app. lia.
  - done.
  - intros pre post dest' Hd'. unfold decrypt.
    rewrite openssl_available, (fetch_spec method cipher Hm). cbn [check negb throw_if mbind outcome_bind].
    rewrite Hinit, Hnonce, Hiv, Hik. cbn [check negb throw_if mbind outcome_bind]. unfold tag_size.
    replace (pre ++ (c1 ++ c2 ++ tag) ++ post) with ((pre ++ c1 ++ c2) ++ tag ++ post) by (by rewrite <- !app_assoc).
    rewrite (read_bytes_app (pre ++ c1 ++ c2) tag post (blen pre + blen (c1 ++ c2 ++ tag) - 16)) by (rewrite ?blen_app; lia). cbn [mbind outcome_bind].
    rewrite Hst. cbn [check negb throw_if mbind outcome_bind].
    rewrite <- (app_assoc pre), (read_bytes_app pre (c1 ++ c2)) by (rewrite ?blen_app; lia). cbn [mbind outcome_bind].
    rewrite D1. cbn [get mbind outcome_bind]. assert (blen p1 + blen p2 = blen plaintext) as Hpl by (by rewrite <- Hpp, blen_app).
    pose proof (blen_nonneg p2). pose proof (blen_nonneg p1).
    rewrite write_first by lia. cbn [mbind outcome_bind]. rewrite D2. cbn [get mbind outcome_bind].
    rewrite write_over by (done || lia). cbn [mbind outcome_bind]. by rewrite Hpp, Hpl.
Qed.

(** The nonce that is used for encryption. *)
Definition effective_nonce (p : Params) (method : EncryptionMethod) : bytes :=
  if blen (params_nonce p method) =? 0 then empty_nonce else params_nonce p method.

Lemma effective_nonce_size p method : params_ok p → blen (effective_nonce p method) = actual_nonce_size.
Proof.
  intros Hp. unfold effective_nonce. destruct (ok_nonce p Hp method) as [[-> | Hn] _]; [done|]. by rewrite Hn.
Qed.

(** The data written with the parameters [p] are read with any parameters that still have
    the key. *)
Lemma encrypted_spec p p' method id key source tail dest :
  params_ok p → method ≠ MAX_ENCRYPTION_METHOD → id = current_key_id p method →
  keys_storage p method !! id = Some key → keys_storage p' method !! id = Some key →
  (id < 2 ^ 56 ∨ effective_nonce p method = empty_nonce) →
  is_bytes source → blen source < 2 ^ 31 - 64 → getMaxCompressedDataSize (blen source) ≤ blen dest →
  ∃ out,
    doCompressData (Some p) method (source ++ tail) (blen source) dest = Ret (over out dest, blen out) ∧
    is_bytes out ∧ blen out ≤ getMaxCompressedDataSize (blen source) ∧
    ∀ tail' dest', blen source ≤ blen dest' →
      doDecompressData (Some p') method (out ++ tail') (blen out) dest' (blen source) = Ret (over source dest').
Proof.
  intros Hp Hmax -> Hkey Hkey' Hfit Hb Hsrc Hd. set (id := current_key_id p method) in *.
  destruct (ok_keys p Hp _ _ _ Hkey) as (Hks & Hkb & Hid). pose proof (effective_nonce_size p method Hp) as Hn.
  pose proof (getLengthOfVarUInt_range id) as [Hlr1 Hlr2]. pose proof (blen_nonneg source) as Hs0.
  destruct (nonce_bytes_length (effective_nonce p method) Hn) as [Hnb1 Hnb2].
  unfold getMaxCompressedDataSize, tag_size, key_id_max_size, nonce_max_size in *.
  rewrite wrap_small in * by zlia.
  set (idb := vlq max_varuint_bytes id). assert (blen idb = getLengthOfVarUInt id) as Hidb by (by apply length_vlq).
  set (nb := nonce_bytes (effective_nonce p method)) in *.
  assert (blen idb + blen nb ≤ 21) as Hhead by (destruct Hfit; [pose proof (Hlr2 ltac:(done))|rewrite Hnb2 by done]; lia).
  destruct (encrypt_over method key (effective_nonce p method) source (idb ++ nb) dest (blen (idb ++ nb)))
    as (ct & Henc & Hct & Hctb & Hdec); [done|done|done|done|lia|done|rewrite blen_app; unfold tag_size; lia|].
  unfold tag_size in *. exists (idb ++ nb ++ ct). split_and!.
  - unfold doCompressData, getCurrentKeyAndNonce. fold id. rewrite Hkey. cbn [mbind outcome_bind].
    fold (effective_nonce p method). rewrite write_key_id by (done || lia). cbn [mbind outcome_bind]. fold idb.
    rewrite writeNonce_over by (fold nb; done || lia). cbn [mbind outcome_bind]. fold nb.
    rewrite read_bytes_prefix by done. cbn [mbind outcome_bind]. rewrite blen_app in Henc. rewrite Henc.
    cbn [mbind outcome_bind]. unfold tag_size. rewrite Z.eqb_refl. cbn [negb throw_if mbind outcome_bind].
    rewrite throw_if_false by (apply Z.leb_gt; zlia). cbn [mbind outcome_bind].
    rewrite <- app_assoc, !blen_app, Hct. do 2 f_equal. lia.
  - apply Forall_app; split; [apply vlq_bytes; unfold max_varuint_bytes; zlia|]. apply Forall_app; split; [|done].
    unfold nb, nonce_bytes. destruct (decide _); [|repeat constructor; unfold is_byte; lia].
    constructor; [unfold is_byte; lia|]. unfold effective_nonce.
    destruct (_ =? 0); [by apply is_bytes_compute|]. by apply (ok_nonce p Hp).
  - rewrite !blen_app, Hct. lia.
  - intros tail' dest' Hd'. unfold doDecompressData.
    pose proof (ptr_roundtrip id [] (nb ++ ct) tail' Hid) as Hr. fold idb in Hr. rewrite blen_nil in Hr.
    cbn [app] in Hr. rewrite !Z.add_0_l in Hr. rewrite Hr. cbn [mbind outcome_bind].
    unfold getKey. rewrite Hkey'. cbn [mbind outcome_bind].
    rewrite <- (app_assoc idb), <- (app_assoc nb). unfold nb. rewrite readNonce_spec by done.
    cbn [mbind outcome_bind]. fold nb.
    replace (blen (idb ++ nb ++ ct) - blen idb - (blen idb + blen nb - blen idb)) with (blen ct) by (rewrite !blen_app; lia).
    unfold tag_size. rewrite Hct, (wrap_small 8 (blen source + 16)) by zlia. rewrite Z.eqb_refl. cbn [negb throw_if mbind outcome_bind].
    specialize (Hdec (idb ++ nb) tail' dest' Hd'). rewrite blen_app, <- app_assoc, Hct in Hdec. rewrite Hdec.
    cbn [mbind outcome_bind]. rewrite wrap_small by zlia. rewrite throw_if_false; [done|].
    apply negb_false_iff, Z.eqb_eq. lia.
Qed.

Lemma encrypted_correct ec p method key :
  params_ok p → method ≠ MAX_ENCRYPTION_METHOD → keys_storage p method !! current_key_id p method = Some key →
  (current_key_id p method < 2 ^ 56 ∨ effective_nonce p method = empty_nonce) →
  CodecCorrect (codec ec (Some p) method) (λ source, blen source < 2 ^ 31 - 64).
Proof.
  intros Hp Hm Hk Hid. split; [destruct method; [split; vm_compute; done..|done]|done|].
  intros source tail dest Hb Hs Hd. simpl in *.
  destruct (encrypted_spec p p method (current_key_id p method) key source tail dest) as (out & H1 & H2 & H3 & H4); try done.
  exists out. split_and!; [done|done|done|]. intros tail' dest' _ Hd'. simpl in *. rewrite H4 by lia.
  eexists. split; [reflexivity|]. apply blen_over. lia.
Qed.
End framing.

(** * Theorems *)

(** C11: reloading the configuration is atomic and keeps it well formed: either it succeeds
    and the new parameters have keys of the right sizes, nonces of the right size and,
    for every method that has keys, a current key; or it fails and the parameters in use
    stay what they were. *)
Theorem encryption_reload_atomic (boost_unhex : bytes → option bytes) (config : AbstractConfiguration)
    (prefix : string) (params : option Params) :
  (∀ hex key, boost_unhex hex = Some key → is_bytes key) → config_ok config →
  (∃ p, tryLoad boost_unhex config prefix params = (Ret true, Some p) ∧ params_ok p) ∨
  tryLoad boost_unhex config prefix params = (Ret false, params).
Proof.
  intros Hu Hc. unfold tryLoad, load. pose proof (load_params_defined boost_unhex config Hc prefix) as Hd.
  destruct (load_params _ _ _) as [p|e| |] eqn:E; try done; [left|by right].
  exists p. split; [done|]. by eapply load_params_ok.
Qed.

(** A configuration of one key of 16 bytes with id 5 and a nonce. *)
Definition example_config (id : Z) : AbstractConfiguration := {|
  has path := bool_decide (path ∈ ["c.aes_128_gcm_siv"; "c.aes_128_gcm_siv.current_key_id"]%string);
  keys path := ["key"; "nonce"; "current_key_id"]%string;
  getString path default :=
    if decide (path = "c.aes_128_gcm_siv.key"%string) then replicate 16 65
    else if decide (path = "c.aes_128_gcm_siv.nonce"%string) then replicate 12 66
    else default;
  getUInt64 path default := Ret id;
|}.

Lemma example_config_ok id : 0 ≤ id < 2 ^ 64 → config_ok (example_config id).
Proof.
  intros Hid. split; [|by intros path x [= <-]|done].
  intros path. simpl. do 2 (destruct (decide _); [by apply is_bytes_compute|]). constructor.
Qed.

Lemma encryption_reload_atomic_witness :
  (∃ p, tryLoad (λ _, None) (example_config 5) "c" None = (Ret true, Some p) ∧ params_ok p) ∨
  tryLoad (λ _, None) (example_config 5) "c" None = (Ret false, None).
Proof. apply encryption_reload_atomic; [done|apply example_config_ok; lia]. Defined.

(** C34: data encrypted with the current key of a loaded configuration stays readable after
    the configuration has been reloaded any number of times, with other current keys and
    nonces, as long as the key keeps its id: compression stays within the reserved size
    for key ids below 2^56, and decompression gives the source back. *)
Theorem encrypted_survives_reload `{OpenSSL} `{!OpenSSLOk} (boost_unhex : bytes → option bytes)
    (config : AbstractConfiguration) (prefix : string) (p p' : Params) (method : EncryptionMethod) (key : bytes)
    (source tail dest : bytes) :
  (∀ hex key, boost_unhex hex = Some key → is_bytes key) → config_ok config →
  load_params boost_unhex config prefix = Ret p → method ≠ MAX_ENCRYPTION_METHOD →
  current_key_id p method < 2 ^ 56 →
  keys_storage p method !! current_key_id p method = Some key →
  keys_storage p' method !! current_key_id p method = Some key →
  is_bytes source → blen source < 2 ^ 31 - 64 → getMaxCompressedDataSize (blen source) ≤ blen dest →
  ∃ out,
    doCompressData (Some p) method (source ++ tail) (blen source) dest = Ret (over out dest, blen out) ∧
    blen out ≤ getMaxCompressedDataSize (blen source) ∧
    ∀ tail' dest', blen source ≤ blen dest' →
      doDecompressData (Some p') method (out ++ tail') (blen out) dest' (blen source) = Ret (over source dest').
Proof.
  intros Hu Hc Hload Hm Hid Hk Hk' Hb Hs Hd.
  destruct (encrypted_spec p p' method (current_key_id p method) key source tail dest) as (out & H1 & _ & H2 & H3);
    [by eapply load_params_ok|done|done|done|done|by left|done|done|done|eauto].
Qed.

(** A cipher that changes nothing. *)
#[local] Instance identity_cipher : OpenSSL := {|
  s390x := false;
  EVP_CIPHER_CTX_new := true;
  EVP_CIPHER_fetch _ := true;
  EVP_Init _ := true;
  EVP_CTRL_GCM_SET_IVLEN _ _ := true;
  EVP_Init_key _ _ _ := true;
  EVP_EncryptUpdate _ _ _ text := Some text;
  EVP_EncryptFinal_ex _ _ _ _ := Some [];
  EVP_CTRL_GCM_GET_TAG _ _ _ _ := Some (replicate 16 7);
  EVP_CTRL_GCM_SET_TAG _ _ := true;
  EVP_DecryptUpdate _ _ _ _ text := Some text;
  EVP_DecryptFinal_ex _ _ _ _ _ := Some [];
|}.

#[local] Instance identity_cipher_ok : OpenSSLOk.
Proof.
  split; [done|done|done|]. intros method cipher key nonce plaintext _ _ _ Hb Hl.
  exists plaintext, [], (replicate 16 7), plaintext, []. rewrite app_nil_r. split_and!; try done.
  apply Forall_app. split; [done|by apply is_bytes_compute].
Qed.

Lemma encrypted_survives_reload_witness :
  ∃ p p' out,
    load_params (λ _, None) (example_config 5) "c" = Ret p ∧
    doCompressData (Some p) AES_128_GCM_SIV ([1; 2; 3] ++ []) (blen [1; 2; 3]) (replicate 40 0) =
      Ret (over out (replicate 40 0), blen out) ∧
    params_nonce p' AES_128_GCM_SIV = [] ∧
    doDecompressData (Some p') AES_128_GCM_SIV (out ++ []) (blen out) [0; 0; 0] (blen [1; 2; 3]) =
      Ret (over [1; 2; 3] [0; 0; 0]).
Proof.
  destruct (load_params (λ _, None) (example_config 5) "c") as [p| | |] eqn:E; [|exfalso; vm_compute in E; discriminate..].
  set (p' := mk_params (λ _, {[5 := replicate 16 65]}) (λ _, 5) (λ _, [])).
  destruct (encrypted_survives_reload (λ _, None) (example_config 5) "c" p p' AES_128_GCM_SIV (replicate 16 65)
    [1; 2; 3] [] (replicate 40 0)) as (out & H1 & _ & H3);
    [done|apply example_config_ok; lia|exact E|done|vm_compute in E; injection E as <-; vm_compute; done..
    |by apply is_bytes_compute|vm_compute; done|vm_compute; done|].
  exists p, p', out. split; [done|]. split; [done|]. split; [done|]. by apply H3.
Defined.

(** The reserved size allows eight bytes for the key id, but an id of 2^56 or more takes
    nine or ten: with a nonce in the configuration, [doCompressData] then writes the tag
    past the end of a destination of the reserved size. *)
Theorem encrypted_large_key_id_overflow `{OpenSSL} `{!OpenSSLOk} (p : Params) (method : EncryptionMethod)
    (key source dest : bytes) :
  params_ok p → method ≠ MAX_ENCRYPTION_METHOD → 2 ^ 56 ≤ current_key_id p method →
  keys_storage p method !! current_key_id p method = Some key →
  params_nonce p method ≠ [] → params_nonce p method ≠ empty_nonce →
  is_bytes source → blen source < 2 ^ 31 - 64 → blen dest = getMaxCompressedDataSize (blen source) →
  doCompressData (Some p) method source (blen source) dest = UB.
Proof.
  intros Hp Hmax Hid Hkey Hn1 Hn2 Hb Hs Hd. destruct (ok_keys p Hp _ _ _ Hkey) as (Hks & _ & Hidr).
  destruct (ok_nonce p Hp method) as [[?|Hn] _]; [done|]. set (id := current_key_id p method) in *.
  pose proof (getLengthOfVarUInt_range id) as [Hlr _]. pose proof (blen_nonneg source).
  assert (9 ≤ getLengthOfVarUInt id) as H9.
  { unfold getLengthOfVarUInt. rewrite !Z.shiftl_1_l. repeat case_match; zlia. }
  unfold getMaxCompressedDataSize, tag_size, key_id_max_size, nonce_max_size in Hd. rewrite wrap_small in Hd by zlia.
  assert (∃ cipher, getMethod method = Ret cipher) as [cipher Hm] by (destruct method; naive_solver).
  destruct (openssl_cipher method cipher Hm) as (_ & Hinit & Hiv).
  pose proof (openssl_key method cipher key _ Hm Hks Hn) as Hik.
  destruct (openssl_encrypt method cipher key _ source Hm Hks Hn Hb ltac:(lia))
    as (c1 & c2 & tag & p1 & p2 & E1 & E2 & Et & Hc & Ht & _). rewrite blen_app in Hc.
  pose proof (blen_nonneg c1). pose proof (blen_nonneg c2).
  unfold doCompressData, getCurrentKeyAndNonce. fold id. rewrite Hkey. cbn [mbind outcome_bind].
  rewrite Hn. change (actual_nonce_size =? 0) with false. cbn iota.
  rewrite write_key_id by (done || lia). cbn [mbind outcome_bind].
  set (idb := vlq max_varuint_bytes id). assert (blen idb = getLengthOfVarUInt id) as Hidb by (by apply length_vlq).
  assert (nonce_bytes (params_nonce p method) = 1 :: params_nonce p method) as Hnb
    by (unfold nonce_bytes; by rewrite decide_True).
  unfold actual_nonce_size in *.
  rewrite writeNonce_over by (rewrite ?Hnb, ?blen_cons; lia). cbn [mbind outcome_bind].
  rewrite read_bytes_all. cbn [mbind outcome_bind]. unfold encrypt.
  rewrite openssl_available, (fetch_spec method cipher Hm). cbn [check negb throw_if mbind outcome_bind].
  rewrite Hinit, Hn, Hiv, Hik. cbn [check negb throw_if mbind outcome_bind].
  rewrite E1. cbn [get mbind outcome_bind]. rewrite Hnb.
  rewrite write_over by (rewrite ?blen_app, ?blen_cons; lia). cbn [mbind outcome_bind].
  rewrite E2. cbn [get mbind outcome_bind].
  rewrite write_over by (rewrite ?blen_app, ?blen_cons; lia). cbn [mbind outcome_bind].
  rewrite Et. cbn [get mbind outcome_bind]. unfold write_bytes at 1.
  rewrite blen_over by (rewrite ?blen_app, ?blen_cons; lia). unfold tag_size in *.
  replace ((0 <=? _) && _) with false; [done|]. symmetry. apply andb_false_iff. right. apply Z.leb_gt.
  rewrite blen_cons. lia.
Qed.

Lemma encrypted_large_key_id_overflow_witness :
  ∃ p, doCompressData (Some p) AES_128_GCM_SIV [1; 2; 3] (blen [1; 2; 3]) (replicate 40 0) = UB.
Proof.
  destruct (load_params (λ _, None) (example_config (2 ^ 56)) "c") as [p| | |] eqn:E;
    [|exfalso; vm_compute in E; discriminate..].
  exists p. apply (encrypted_large_key_id_overflow p AES_128_GCM_SIV (replicate 16 65));
    [eapply load_params_ok; [| |exact E]; [done|apply example_config_ok; zlia]|done
    |vm_compute in E; injection E as <-; vm_compute; done..|by apply is_bytes_compute|vm_compute; done|vm_compute; done].
Defined.

(** [doDecompressData] reads the byte that tells whether there is a nonce without
    checking that the source has it: data that ends with the id of an existing key makes
    it read outside of the source. *)
Theorem encrypted_short_data_ub `{OpenSSL} (p : Params) (method : EncryptionMethod) (id : Z) (key dest : bytes)
    (uncompressed_size : Z) :
  0 ≤ id < 2 ^ 64 → keys_storage p method !! id = Some key →
  let source := vlq max_varuint_bytes id in
  doDecompressData (Some p) method source (blen source) dest uncompressed_size = UB.
Proof.
  intros Hid Hkey source. unfold doDecompressData.
  pose proof (ptr_roundtrip id [] [] [] Hid) as Hr. rewrite blen_nil, !app_nil_r in Hr. cbn [app] in Hr.
  rewrite !Z.add_0_l in Hr. fold source in Hr. rewrite Hr. cbn [mbind outcome_bind].
  unfold getKey. rewrite Hkey. cbn [mbind outcome_bind]. unfold readNonce.
  replace (Prelude.load 1 source (blen source)) with (@UB Z); [done|].
  unfold Prelude.load, read_bytes. by rewrite (proj2 (Z.leb_gt (blen source + 1) (blen source))), andb_false_r by lia.
Qed.

Lemma encrypted_short_data_ub_witness :
  doDecompressData (Some (mk_params (λ _, {[5 := [1]]}) (λ _, 5) (λ _, []))) AES_128_GCM_SIV
    (vlq max_varuint_bytes 5) (blen (vlq max_varuint_bytes 5)) [0; 0; 0] 3 = UB.
Proof. apply (encrypted_short_data_ub _ _ 5 [1]); [lia|done]. Defined.
End Encrypted.
