(* ===== verification/CompressedBuffers.v ===== *)
(** Streams of compressed blocks: [CompressedWriteBuffer]
    (src/src/Compression/CompressedWriteBuffer.cpp) and [CompressedReadBuffer]
    (CompressedReadBuffer.cpp) over [CompressedReadBufferBase]
    (CompressedReadBufferBase.cpp), with the checksums of the blocks. The two
    classes derive from the buffers of Buffers.v and work over buffers of the same
    kind. *)

From S2P Require Import Prelude Buffers CodecBase CodecObject.
From stdpp Require Import base tactics list numbers.
Local Open Scope Z_scope.

(** The size of a [CityHash_v1_0_2::uint128]. *)
Definition checksum_size : Z := 16.

(** [CityHash_v1_0_2::CityHash128] of the library: the low and the high half of the
    hash, two 64-bit integers. *)
Class CityHash := CityHash128 : bytes → Z * Z.
Class CityHashRange `{CityHash} :=
  CityHash128_range bs : in_width 8 (CityHash128 bs).1 ∧ in_width 8 (CityHash128 bs).2.

(** * CompressedWriteBuffer *)

Module CompressedWriteBuffer.

(** The members the class adds to [WriteBuffer]. *)
Record sink (Sk : Type) := mk_sink {
  out : WriteBuffer.t Sk;
  sink_codec : codec;
  compressed_buffer : bytes;
}.
Arguments mk_sink {Sk} _ _ _.
Arguments out {Sk} _.
Arguments sink_codec {Sk} _.
Arguments compressed_buffer {Sk} _.

Definition t (Sk : Type) : Type := WriteBuffer.t (sink Sk).

Section operations.
Context `{FreshMemory} `{CityHash} {Sk : Type} `{WriteBuffer.NextImpl Sk}.
Implicit Types (wb : WriteBuffer.t Sk) (s : sink Sk).

(** [writeBinaryLittleEndian(checksum.low64, out)], then the high half. *)
Definition write_checksum (checksum : Z * Z) wb : outcome unit * WriteBuffer.t Sk :=
  let '(res, wb) := WriteBuffer.write (le_split 8 checksum.1) wb in
  match res with
  | Ret _ => WriteBuffer.write (le_split 8 checksum.2) wb
  | _ => (res, wb)
  end.

(** The block is compressed in the memory of [out] after its cursor. *)
Definition compress_in_place (source : bytes) (decompressed_size : Z) (c : codec) wb
  : outcome (Z * (Z * Z) * WriteBuffer.t Sk) :=
  let start := WriteBuffer.wb_pos wb + checksum_size in
  '(working, compressed_size) ←
    on_tail (WriteBuffer.wb_working wb) start (compress c source decompressed_size);
  block ← read_bytes working start compressed_size;
  Ret (compressed_size, CityHash128 block, WriteBuffer.set_cursor wb working (WriteBuffer.wb_pos wb)).

(** [position() += compressed_size]. *)
Definition move_cursor (n : Z) wb : outcome unit * WriteBuffer.t Sk :=
  (Ret tt, WriteBuffer.set_cursor wb (WriteBuffer.wb_working wb) (WriteBuffer.wb_pos wb + n)).

(** [data] is the contents of the working buffer up to the cursor. *)
Definition nextImpl (data : bytes) s : outcome unit * sink Sk :=
  if blen data =? 0 then (Ret tt, s) else
  let decompressed_size := u32 (blen data) in
  let compressed_reserve_size := getCompressedReserveSize (sink_codec s) decompressed_size in
  if compressed_reserve_size + checksum_size <=? WriteBuffer.available (out s) then
    match compress_in_place data decompressed_size (sink_codec s) (out s) with
    | Ret (compressed_size, checksum, wb) =>
        let '(res, wb) := write_checksum checksum wb in
        let '(res, wb) := match res with Ret _ => move_cursor compressed_size wb | _ => (res, wb) end in
        (res, mk_sink wb (sink_codec s) (compressed_buffer s))
    | Throw e => (Throw e, s)
    | UB => (UB, s)
    | OutOfFuel => (OutOfFuel, s)
    end
  else
    let buf := CodecBase.resize compressed_reserve_size (compressed_buffer s) in
    match ('(buf, compressed_size) ← compress (sink_codec s) data decompressed_size buf;
           block ← read_bytes buf 0 compressed_size;
           Ret (buf, block)) with
    | Ret (buf, block) =>
        let '(res, wb) := write_checksum (CityHash128 block) (out s) in
        let '(res, wb) := match res with Ret _ => WriteBuffer.write block wb | _ => (res, wb) end in
        (res, mk_sink wb (sink_codec s) buf)
    | Throw e => (Throw e, s)
    | UB => (UB, s)
    | OutOfFuel => (OutOfFuel, s)
    end.

#[global] Instance sink_nextImpl : WriteBuffer.NextImpl (sink Sk) := nextImpl.

(** A buffer with [buf_size] bytes of memory. *)
Definition create (wb : WriteBuffer.t Sk) (c : codec) (buf_size : nat) : t Sk :=
  WriteBuffer.create buf_size (mk_sink wb c []).
End operations.
End CompressedWriteBuffer.

(** * CompressedReadBufferBase *)

Module CompressedReadBufferBase.

(** ** Checksums *)

Definition flip_bit (buf : bytes) (pos : Z) : outcome bytes :=
  b ← load 1 buf (pos / 8);
  write_bytes buf (pos / 8) [u8 (Z.lxor b (Z.shiftl 1 (pos mod 8)))].

Definition popcount (x : Z) : Z :=
  Z.of_nat (length (filter (λ i, Z.testbit x (Z.of_nat i)) (seq 0 64))).

(** What the message of the exception says about the mismatch. *)
Inductive mismatch_reason :=
| flip_in_data (bit_pos : Z)
| flip_in_checksum
| unexplained.

Section checksums.
Context `{CityHash}.

(** The loop over the bits of the data, [n] of them left. *)
Fixpoint find_flip (n : nat) (bit_pos : Z) (tmp_data : bytes) (expected_checksum : Z * Z)
  : outcome (option Z) :=
  match n with
  | O => Ret None
  | S n =>
      tmp_data ← flip_bit tmp_data bit_pos;
      if bool_decide (expected_checksum = CityHash128 tmp_data) then Ret (Some bit_pos) else
      tmp_data ← flip_bit tmp_data bit_pos;
      find_flip n (bit_pos + 1) tmp_data expected_checksum
  end.

Definition find_mismatch_reason (data : bytes) (expected_checksum calculated_checksum : Z * Z)
  : outcome mismatch_reason :=
  found ←
    (if blen data <? Z.shiftl 1 20
     then find_flip (Z.to_nat (blen data * 8)) 0 data expected_checksum
     else Ret None);
  match found with
  | Some bit_pos => Ret (flip_in_data bit_pos)
  | None =>
      let difference :=
        popcount (Z.lxor expected_checksum.1 calculated_checksum.1) +
        popcount (Z.lxor expected_checksum.2 calculated_checksum.2) in
      if difference =? 1 then Ret flip_in_checksum else Ret unexplained
  end.

Definition validateChecksum (data : bytes) (size : Z) (expected_checksum : Z * Z) : outcome unit :=
  data ← read_bytes data 0 size;
  let calculated_checksum := CityHash128 data in
  if bool_decide (expected_checksum = calculated_checksum) then Ret tt else
  _ ← find_mismatch_reason data expected_checksum calculated_checksum;
  Throw CHECKSUM_DOESNT_MATCH.
End checksums.

(** ** Blocks *)

(** [compressed_buffer] is the memory from the pointer of that name on. *)
Record t := mk {
  compressed_in : ReadBuffer.t;
  own_compressed_buffer : bytes;
  compressed_buffer : bytes;
  disable_checksum : bool;
  allow_different_codecs : bool;
  external_data : bool;
  base_codec : option codec_ptr;
}.

Definition create (cin : ReadBuffer.t) (allow_different_codecs external_data : bool) : t :=
  mk cin [] [] false allow_different_codecs external_data None.

Definition disableChecksumming (s : t) : t :=
  mk (compressed_in s) (own_compressed_buffer s) (compressed_buffer s) true
    (allow_different_codecs s) (external_data s) (base_codec s).

Definition set_in (s : t) (cin : ReadBuffer.t) : t :=
  mk cin (own_compressed_buffer s) (compressed_buffer s) (disable_checksum s)
    (allow_different_codecs s) (external_data s) (base_codec s).

Definition set_codec (s : t) (p : codec_ptr) : t :=
  mk (compressed_in s) (own_compressed_buffer s) (compressed_buffer s) (disable_checksum s)
    (allow_different_codecs s) (external_data s) (Some p).

Section operations.
Context `{FreshMemory} `{CityHash}.
(** [CompressionCodecFactory::instance().get(uint8_t)]. *)
Context (factory_get : Z → outcome ICompressionCodec).

(** The codec for the method byte of a header, as both functions below choose it. *)
Definition choose_codec (method : Z) (p : option codec_ptr) (allow_different_codecs external_data : bool)
  : outcome codec_ptr :=
  p ← (match p with
       | None => o ← factory_get method; Ret (make_ptr o)
       | Some p =>
           if negb (method =? getMethodByte (ptr_codec p)) then
             if allow_different_codecs then o ← factory_get method; Ret (make_ptr o)
             else Throw CANNOT_DECOMPRESS
           else Ret p
       end);
  Ret (if external_data : bool then setExternalDataFlag p else p).

(** The codec, [size_decompressed] and [size_compressed_without_checksum]. *)
Definition readHeaderAndGetCodecAndSize (compressed_buffer : bytes) (header_size : Z) (p : option codec_ptr)
  (allow_different_codecs external_data : bool) : outcome (codec_ptr * Z * Z) :=
  method ← readMethod compressed_buffer;
  p ← choose_codec method p allow_different_codecs external_data;
  size_compressed_without_checksum ← readCompressedBlockSize (ptr_error_code p) compressed_buffer;
  size_decompressed ← readDecompressedBlockSize (ptr_error_code p) compressed_buffer;
  _ ← throw_if (DBMS_MAX_COMPRESSED_SIZE <? size_compressed_without_checksum) TOO_LARGE_SIZE_COMPRESSED;
  _ ← throw_if (size_compressed_without_checksum <? header_size) CORRUPTED_DATA;
  Ret (p, size_decompressed, size_compressed_without_checksum).

Definition check_block (s : t) (own cbuf : bytes) (size : Z) : outcome unit :=
  if disable_checksum s then Ret tt else
  low64 ← load 8 own 0;
  high64 ← load 8 own 8;
  validateChecksum cbuf size (low64, high64).

(** The memory with the whole block, once its header is in [own]: [own], the memory
    from [compressed_buffer] on, and the input. *)
Definition locate_block (always_copy : bool) (size additional : Z) (own : bytes) (cin : ReadBuffer.t)
  : outcome (bytes * bytes * ReadBuffer.t) :=
  let header_size := getHeaderSize in
  if negb always_copy && (header_size + checksum_size <=? ReadBuffer.rb_pos cin) &&
     (size - header_size + additional + checksum_size <=? ReadBuffer.available cin) then
    let cin := ReadBuffer.advance cin (- header_size) in
    cbuf ← tail_at (ReadBuffer.rb_working cin) (ReadBuffer.rb_pos cin);
    Ret (own, cbuf, ReadBuffer.advance cin size)
  else
    let own := CodecBase.resize (checksum_size + size + additional) own in
    '(bs, cin) ← ReadBuffer.readStrict (size - header_size) cin;
    own ← write_bytes own (checksum_size + header_size) bs;
    cbuf ← tail_at own checksum_size;
    Ret (own, cbuf, cin).

(** [None] stands for the result 0; otherwise the result, [size_decompressed] and
    [size_compressed_without_checksum]. *)
Definition readCompressedData (always_copy : bool) (s : t) : outcome (option (Z * Z * Z) * t) :=
  let '(is_eof, cin) := ReadBuffer.eof (compressed_in s) in
  if is_eof then Ret (None, set_in s cin) else
  let header_size := getHeaderSize in
  '(own, cin) ← ReadBuffer.readStrict (checksum_size + header_size) cin;
  header ← tail_at own checksum_size;
  '(p, size_decompressed, size) ←
    readHeaderAndGetCodecAndSize header header_size (base_codec s) (allow_different_codecs s) (external_data s);
  '(own, cbuf, cin) ←
    locate_block always_copy size (getAdditionalSizeAtTheEndOfBuffer (ptr_codec p)) own cin;
  _ ← check_block s own cbuf size;
  Ret (Some (size + checksum_size, size_decompressed, size),
       mk cin own cbuf (disable_checksum s) (allow_different_codecs s) (external_data s) (Some p)).

Definition readCompressedDataBlockForAsynchronous (s : t) : outcome (option (Z * Z * Z) * t) :=
  let header_size := getHeaderSize in
  let '(is_eof, cin) := ReadBuffer.eof (compressed_in s) in
  if is_eof || (ReadBuffer.available cin <? header_size + checksum_size) then Ret (None, set_in s cin) else
  '(own, cin) ← ReadBuffer.readStrict (checksum_size + header_size) cin;
  header ← tail_at own checksum_size;
  '(p, size_decompressed, size) ←
    readHeaderAndGetCodecAndSize header header_size (base_codec s) (allow_different_codecs s) (external_data s);
  let additional := getAdditionalSizeAtTheEndOfBuffer (ptr_codec p) in
  let s' cin cbuf :=
    mk cin own cbuf (disable_checksum s) (allow_different_codecs s) (external_data s) (Some p) in
  if (header_size + checksum_size <=? ReadBuffer.rb_pos cin) &&
     (size - header_size + additional + checksum_size <=? ReadBuffer.available cin) then
    let cin := ReadBuffer.advance cin (- header_size) in
    cbuf ← tail_at (ReadBuffer.rb_working cin) (ReadBuffer.rb_pos cin);
    _ ← check_block s own cbuf size;
    Ret (Some (size + checksum_size, size_decompressed, size), s' (ReadBuffer.advance cin size) cbuf)
  else
    Ret (None, s' (ReadBuffer.advance cin (- (checksum_size + header_size))) (compressed_buffer s)).

Definition readHeaderAndGetCodec (s : t) : outcome t :=
  method ← readMethod (compressed_buffer s);
  p ← choose_codec method (base_codec s) (allow_different_codecs s) (external_data s);
  Ret (set_codec s p).

(** [to] is the memory from the pointer of that name on. *)
Definition decompressTo (to : bytes) (size_compressed_without_checksum : Z) (s : t) : outcome (bytes * t) :=
  s ← readHeaderAndGetCodec s;
  match base_codec s with
  | None => UB
  | Some p =>
      '(to, _) ← CodecBase.decompress (ptr_codec p) (compressed_buffer s)
                   (u32 size_compressed_without_checksum) to;
      Ret (to, s)
  end.

(** [to] is the memory from the beginning of the buffer [to] on, of which the buffer
    has [size_decompressed] bytes: the contents of the buffer [to] after the call, and
    that memory. *)
Definition decompress (to : bytes) (size_decompressed size_compressed_without_checksum : Z) (s : t)
  : outcome (bytes * bytes * t) :=
  s ← readHeaderAndGetCodec s;
  match base_codec s with
  | None => UB
  | Some p =>
      if isNone (ptr_object p) then
        let header_size := getHeaderSize in
        _ ← throw_if (size_compressed_without_checksum <? header_size) CORRUPTED_DATA;
        working ← read_bytes (compressed_buffer s) header_size (size_compressed_without_checksum - header_size);
        Ret (working, to, s)
      else
        '(to, _) ← CodecBase.decompress (ptr_codec p) (compressed_buffer s)
                     (u32 size_compressed_without_checksum) to;
        working ← read_bytes to 0 size_decompressed;
        Ret (working, to, s)
  end.
End operations.
End CompressedReadBufferBase.

(** * CompressedReadBuffer *)

Module CompressedReadBuffer.

(** [memory], the working buffer with its cursor and counter as in [ReadBuffer], and
    the base. *)
Record t := mk {
  base : CompressedReadBufferBase.t;
  memory : bytes;
  working : bytes;
  pos : Z;
  count_bytes : Z;
  size_compressed : Z;
}.

Definition create (cin : ReadBuffer.t) (allow_different_codecs external_data : bool) : t :=
  mk (CompressedReadBufferBase.create cin allow_different_codecs external_data) [] [] 0 0 0.

Definition available (s : t) : Z := blen (working s) - pos s.
Definition advance (s : t) (n : Z) : t :=
  mk (base s) (memory s) (working s) (pos s + n) (count_bytes s) (size_compressed s).

Section operations.
Context `{FreshMemory} `{CityHash}.
Context (factory_get : Z → outcome ICompressionCodec).

(** Decompresses the block just read into [memory] and points the working buffer to
    the result. *)
Definition load_block (s : t) (b : CompressedReadBufferBase.t) (size_decompressed size : Z)
  (compressed : Z) (start count : Z) : outcome t :=
  match CompressedReadBufferBase.base_codec b with
  | None => UB
  | Some p =>
      let additional := getAdditionalSizeAtTheEndOfBuffer (ptr_codec p) in
      let memory := CodecBase.resize (size_decompressed + additional) (memory s) in
      '(working, memory, b) ←
        CompressedReadBufferBase.decompress factory_get memory size_decompressed size b;
      Ret (mk b memory working start count compressed)
  end.

Definition nextImpl (s : t) : outcome (bool * t) :=
  '(r, b) ← CompressedReadBufferBase.readCompressedData factory_get false (base s);
  match r with
  | None => Ret (false, mk b (memory s) (working s) (pos s) (count_bytes s) 0)
  | Some (n, size_decompressed, size) =>
      s ← load_block s b size_decompressed size n (pos s) (count_bytes s);
      Ret (true, s)
  end.

(** [ReadBuffer::next], [eof] and [read] with this [nextImpl]. *)
Definition next (s : t) : outcome (bool * t) :=
  let count := u64 (count_bytes s + pos s) in
  '(res, s) ← nextImpl s;
  Ret (res, if res : bool then mk (base s) (memory s) (working s) 0 count (size_compressed s)
            else mk (base s) (memory s) [] 0 count (size_compressed s)).

Definition eof (s : t) : outcome (bool * t) :=
  if 0 <? available s then Ret (false, s)
  else '(res, s) ← next s; Ret (negb res, s).

Fixpoint read_loop (fuel : nat) (copied : bytes) (n : Z) (s : t) : outcome (bytes * t) :=
  if blen copied <? n then
    '(is_eof, s) ← eof s;
    if is_eof : bool then Ret (copied, s) else
    match fuel with
    | O => OutOfFuel
    | S fuel =>
        let bytes_to_copy := Z.min (available s) (n - blen copied) in
        bs ← read_bytes (working s) (pos s) bytes_to_copy;
        read_loop fuel (copied ++ bs) n (advance s bytes_to_copy)
    end
  else Ret (copied, s).

(** Every iteration but the first reads a block, which is not empty. *)
Definition loop_fuel (s : t) : nat :=
  S (length (ReadBuffer.remaining (CompressedReadBufferBase.compressed_in (base s)))).

Definition read (n : Z) (s : t) : outcome (bytes * t) := read_loop (loop_fuel s) [] n s.

(** The loop of [readBig]; [to] is the memory it fills, [bytes_read] of it already. *)
Fixpoint readBig_loop (fuel : nat) (to : bytes) (bytes_read n : Z) (s : t) : outcome (bytes * Z * t) :=
  if bytes_read <? n then
    match fuel with
    | O => OutOfFuel
    | S fuel =>
        '(r, b) ← CompressedReadBufferBase.readCompressedData factory_get false (base s);
        let s := mk b (memory s) (working s) (pos s) (count_bytes s) (size_compressed s) in
        match r, CompressedReadBufferBase.base_codec b with
        | None, _ => Ret (to, bytes_read, s)
        | Some _, None => UB
        | Some (_, size_decompressed, size), Some p =>
            let additional := getAdditionalSizeAtTheEndOfBuffer (ptr_codec p) in
            if size_decompressed + additional <=? n - bytes_read then
              '(to, b) ← on_tail to bytes_read (λ to,
                 CompressedReadBufferBase.decompressTo factory_get to size b);
              readBig_loop fuel to (bytes_read + size_decompressed) n
                (mk b (memory s) (working s) (pos s) (u64 (count_bytes s + size_decompressed)) (size_compressed s))
            else
              s ← load_block s b size_decompressed size (size_compressed s) 0
                    (u64 (count_bytes s + pos s));
              '(bs, s) ← read (n - bytes_read) s;
              to ← write_bytes to bytes_read bs;
              Ret (to, bytes_read + blen bs, s)
        end
    end
  else Ret (to, bytes_read, s).

(** The memory [to] after the call, and how many bytes were read into it. *)
Definition readBig (to : bytes) (n : Z) (s : t) : outcome (bytes * Z * t) :=
  '(to, bytes_read, s) ←
    (if pos s <? blen (working s) then
       '(bs, s) ← read (Z.min (available s) n) s;
       to ← write_bytes to 0 bs;
       Ret (to, blen bs, s)
     else Ret (to, 0, s));
  readBig_loop (loop_fuel s) to bytes_read n s.
End operations.
End CompressedReadBuffer.

#[local] Arguments le_split : simpl never.

(** * The format of the stream *)

(** A block with its checksum. A part of the stream is the data a block was made of
    and what the codec made of it. *)
Section format.
Context `{CityHash}.

Definition checksum_bytes (blk : bytes) : bytes :=
  le_split 8 (CityHash128 blk).1 ++ le_split 8 (CityHash128 blk).2.

Definition part_block (c : codec) (part : bytes * bytes) : bytes := CodecBase.block c part.2 (blen part.1).

Definition frame (c : codec) (part : bytes * bytes) : bytes :=
  checksum_bytes (part_block c part) ++ part_block c part.

Definition frames (c : codec) (parts : list (bytes * bytes)) : bytes := concat (frame c <$> parts).
Definition sources (parts : list (bytes * bytes)) : bytes := concat (fst <$> parts).

(** The parts that a reader accepts: within the limits of the format, and undone by
    the codec. *)
Record part_ok (c : codec) (part : bytes * bytes) : Prop := {
  part_source : is_bytes part.1;
  part_size : 0 < blen part.1 < 2 ^ 31;
  part_out : is_bytes part.2;
  part_compressed_size : 9 + blen part.2 ≤ DBMS_MAX_COMPRESSED_SIZE;
  part_undone : undone_by c part.2 part.1;
}.

Lemma blen_checksum_bytes blk : blen (checksum_bytes blk) = 16.
Proof. unfold checksum_bytes. by rewrite blen_app, !blen_le_split. Qed.

Lemma checksum_bytes_bytes blk : is_bytes (checksum_bytes blk).
Proof. apply Forall_app. auto using le_split_bytes. Qed.

Lemma frames_snoc c parts part : frames c (parts ++ [part]) = frames c parts ++ frame c part.
Proof. unfold frames. rewrite fmap_app, concat_app. simpl. by rewrite app_nil_r. Qed.

Lemma sources_snoc parts part : sources (parts ++ [part]) = sources parts ++ part.1.
Proof. unfold sources. rewrite fmap_app, concat_app. simpl. by rewrite app_nil_r. Qed.
End format.

(** * Writing *)

Section writer.
Context `{FreshMemory} `{CityHash} {Sk : Type} `{WriteBuffer.Sink Sk}.
Implicit Types (wb : WriteBuffer.t Sk).

(** A write that fits in the buffer copies and does nothing else. *)
Lemma write_in_place wb m1 m2 m3 data :
  WriteBuffer.wb_working wb = m1 ++ m2 ++ m3 → WriteBuffer.wb_pos wb = blen m1 →
  blen m2 = blen data → 0 < blen data → WriteBuffer.wb_finalized wb = false →
  WriteBuffer.write data wb =
    (Ret tt, WriteBuffer.set_cursor wb (m1 ++ data ++ m3) (WriteBuffer.wb_pos wb + blen data)).
Proof.
  intros Hw Hp Hl Hd Hf. unfold WriteBuffer.write. rewrite Hf.
  pose proof (blen_nonneg m3). assert (WriteBuffer.available wb = blen data + blen m3) as Ha
    by (unfold WriteBuffer.available; rewrite Hw, Hp; blia).
  destruct data as [|d data']; [by rewrite blen_nil in Hd|]. set (data := d :: data') in *.
  change (length data) with (S (length data')). cbn [WriteBuffer.write_loop].
  rewrite (proj2 (Z.ltb_lt _ _) Hd). unfold WriteBuffer.nextIfAtEnd, WriteBuffer.hasPendingData.
  rewrite (proj2 (Z.ltb_lt 0 (WriteBuffer.available wb))) by lia. cbn iota beta.
  rewrite Z.min_r by lia. rewrite Z.sub_0_r.
  rewrite read_bytes_all. cbn [mbind outcome_bind]. rewrite Hw, write_bytes_app by done. rewrite Z.add_0_l.
  destruct data'; cbn [WriteBuffer.write_loop length]; by rewrite Z.ltb_irrefl.
Qed.

(** The checksum written in place. *)
Lemma write_checksum_in_place wb m1 m2 m3 blk :
  WriteBuffer.wb_working wb = m1 ++ m2 ++ m3 → WriteBuffer.wb_pos wb = blen m1 →
  blen m2 = checksum_size → WriteBuffer.wb_finalized wb = false →
  CompressedWriteBuffer.write_checksum (CityHash128 blk) wb =
    (Ret tt, WriteBuffer.set_cursor wb (m1 ++ checksum_bytes blk ++ m3)
               (WriteBuffer.wb_pos wb + checksum_size)).
Proof.
  unfold checksum_size. intros Hw Hp Hl Hf. destruct (split_at m2 8) as (a & b & -> & Ha); [lia|].
  rewrite blen_app in Hl. unfold CompressedWriteBuffer.write_checksum, checksum_bytes.
  rewrite <- app_assoc in Hw.
  erewrite (write_in_place wb m1 a (b ++ m3)) by (rewrite ?blen_le_split; done || lia).
  erewrite (write_in_place _ (m1 ++ le_split 8 (CityHash128 blk).1) b m3).
  - unfold WriteBuffer.set_cursor. simpl. rewrite !blen_le_split, <- !app_assoc. do 2 f_equal. lia.
  - simpl. by rewrite <- app_assoc.
  - simpl. rewrite Hp. blia.
  - rewrite blen_le_split. lia.
  - by rewrite blen_le_split.
  - done.
Qed.

Lemma write_checksum_spec wb bs blk :
  WriteBuffer.writes wb bs →
  match CompressedWriteBuffer.write_checksum (CityHash128 blk) wb with
  | (Ret _, wb') => WriteBuffer.writes wb' (bs ++ checksum_bytes blk)
  | (Throw _, _) => True
  | _ => False
  end.
Proof.
  intros Hw. unfold CompressedWriteBuffer.write_checksum, checksum_bytes.
  pose proof (WriteBuffer.write_spec (le_split 8 (CityHash128 blk).1) wb bs Hw ltac:(auto with codec)) as Hr1.
  destruct (WriteBuffer.write _ wb) as [[] wb1]; try done. destruct Hr1 as (Hw1 & _).
  pose proof (WriteBuffer.write_spec (le_split 8 (CityHash128 blk).2) wb1 _ Hw1 ltac:(auto with codec)) as Hr2.
  destruct (WriteBuffer.write _ wb1) as [[] wb2]; try done. destruct Hr2 as (Hw2 & _).
  by rewrite <- app_assoc in Hw2.
Qed.

(** A codec that takes every source up to [max_source] bytes, and whose blocks are
    within the limit of the format. *)
Class StreamCodec (c : codec) (max_source : Z) := {
  stream_valid : bytes → Prop;
  #[global] stream_correct :: CodecCorrect c stream_valid;
  stream_accepts source : is_bytes source → 0 < blen source ≤ max_source → stream_valid source;
  stream_max_source : max_source < 2 ^ 31;
  stream_reserve n : 0 < n ≤ max_source →
    0 ≤ getMaxCompressedDataSize c n ∧ 9 + getMaxCompressedDataSize c n ≤ DBMS_MAX_COMPRESSED_SIZE;
}.

Section codec.
Context (c : codec) (max_source : Z) `{!StreamCodec c max_source}.

(** What [compress] does with a buffer of the stream, in memory of the reserved size. *)
Lemma compress_part data dest :
  is_bytes data → 0 < blen data ≤ max_source →
  getCompressedReserveSize c (blen data) = 9 + getMaxCompressedDataSize c (blen data) ∧
  (9 + getMaxCompressedDataSize c (blen data) ≤ blen dest →
   ∃ o, part_ok c (data, o) ∧
    compress c data (blen data) dest =
      Ret (over (part_block c (data, o)) dest, blen (part_block c (data, o))) ∧
    blen (part_block c (data, o)) ≤ 9 + getMaxCompressedDataSize c (blen data)).
Proof.
  intros Hb Hl. pose proof (stream_reserve (blen data) Hl) as [Hm1 Hm2]. unfold DBMS_MAX_COMPRESSED_SIZE in *.
  split; [apply reserve_small; zlia|]. intros Hd. pose proof stream_max_source.
  destruct (codec_roundtrip data [] (drop 9 dest) Hb (stream_accepts data Hb Hl)) as (o & Hc & Ho & Hol & Hu).
  { blia. }
  rewrite app_nil_r in Hc. exists o. unfold part_block. rewrite blen_block. simpl. split_and!.
  - split; simpl; [done|lia|done|unfold DBMS_MAX_COMPRESSED_SIZE; lia|done].
  - apply compress_block; [zlia|lia|done].
  - lia.
Qed.

(** The sink stands for the data of the blocks written to [out] since it held
    [before]. *)
Definition holds_compressed (before : bytes) (s : CompressedWriteBuffer.sink Sk) (bs : bytes) : Prop :=
  CompressedWriteBuffer.sink_codec s = c ∧
  ∃ parts, Forall (part_ok c) parts ∧ bs = sources parts ∧
    WriteBuffer.writes (CompressedWriteBuffer.out s) (before ++ frames c parts).

Lemma holds_compressed_snoc before parts part wb buf :
  Forall (part_ok c) parts → part_ok c part →
  WriteBuffer.writes wb ((before ++ frames c parts) ++ frame c part) →
  holds_compressed before (CompressedWriteBuffer.mk_sink wb c buf) (sources parts ++ part.1).
Proof.
  intros Hps Hp Hw. split; [done|]. exists (parts ++ [part]).
  rewrite Forall_app, sources_snoc, frames_snoc, (assoc_L (++)). by auto using Forall_cons, Forall_nil.
Qed.

Lemma compress_in_place_part bs data wb :
  WriteBuffer.writes wb bs → is_bytes data → 0 < blen data ≤ max_source →
  9 + getMaxCompressedDataSize c (blen data) + checksum_size ≤ WriteBuffer.available wb →
  ∃ o m1 m2 m3, let blk := part_block c (data, o) in
    part_ok c (data, o) ∧ WriteBuffer.wb_working wb = m1 ++ m2 ++ m3 ∧
    WriteBuffer.wb_pos wb = blen m1 ∧ blen m2 = checksum_size ∧ blen blk ≤ blen m3 ∧
    CompressedWriteBuffer.compress_in_place data (blen data) c wb =
      Ret (blen blk, CityHash128 blk,
           WriteBuffer.set_cursor wb (m1 ++ m2 ++ over blk m3) (WriteBuffer.wb_pos wb)).
Proof.
  intros [_ Hp _ _] Hb Hl Ha. unfold WriteBuffer.available, checksum_size in *.
  destruct (stream_reserve (blen data) Hl) as [Hm _].
  destruct (split_at (WriteBuffer.wb_working wb) (WriteBuffer.wb_pos wb)) as (m1 & m23 & Hw & Hm1); [lia|].
  destruct (split_at m23 16) as (m2 & m3 & -> & Hm2); [rewrite Hw in Ha; blia|].
  rewrite Hw, <- Hm1 in Ha. autorewrite with blen in Ha.
  destruct (compress_part data m3 Hb Hl) as [_ (o & Ho & Hc & Hol)]; [lia|].
  exists o, m1, m2, m3. split_and!; [done|done|done|done|lia|].
  unfold CompressedWriteBuffer.compress_in_place, checksum_size. rewrite Hw, !(assoc_L (++)).
  rewrite (on_tail_app (m1 ++ m2) m3 (WriteBuffer.wb_pos wb + 16) _ _ _ ltac:(blia) Hc). cbn [mbind outcome_bind].
  set (blk := part_block c (data, o)) in *.
  replace (read_bytes ((m1 ++ m2) ++ over blk m3) _ _) with (Ret blk)
    by (symmetry; unfold over; apply read_bytes_app; [blia|done]).
  done.
Qed.

(** Both ways of [nextImpl] append a frame. *)
Lemma nextImpl_in_place before parts data wb buf :
  Forall (part_ok c) parts → WriteBuffer.writes wb (before ++ frames c parts) →
  is_bytes data → 0 < blen data ≤ max_source →
  9 + getMaxCompressedDataSize c (blen data) + checksum_size ≤ WriteBuffer.available wb →
  match CompressedWriteBuffer.nextImpl data (CompressedWriteBuffer.mk_sink wb c buf) with
  | (Ret _, s') => holds_compressed before s' (sources parts ++ data)
  | (Throw _, _) => True
  | _ => False
  end.
Proof.
  intros Hps Hwr Hb Hl Ha. pose proof stream_max_source.
  destruct (compress_in_place_part _ data wb Hwr Hb Hl Ha) as (o & m1 & m2 & m3 & Ho & Hw & Hm1 & Hm2 & Hol & Hc).
  set (blk := part_block c (data, o)) in *.
  unfold CompressedWriteBuffer.nextImpl. cbn [CompressedWriteBuffer.sink_codec CompressedWriteBuffer.out].
  rewrite (proj2 (Z.eqb_neq _ _)) by lia. rewrite wrap_small by zlia.
  destruct (compress_part data [] Hb Hl) as [Hr _]. rewrite Hr, (proj2 (Z.leb_le _ _)) by done. rewrite Hc.
  destruct (WriteBuffer.wb_finalized wb) eqn:Hf.
  { unfold CompressedWriteBuffer.write_checksum, WriteBuffer.write. simpl. by rewrite Hf. }
  erewrite (write_checksum_in_place _ m1 m2 (over blk m3)) by done.
  cbn [CompressedWriteBuffer.move_cursor].
  apply (holds_compressed_snoc before parts (data, o)); [done|done|].
  destruct (split_at m3 (blen blk)) as (o1 & o2 & -> & Ho1); [pose proof (blen_nonneg blk); lia|].
  replace (over blk (o1 ++ o2)) with (blk ++ o2)
    by (unfold over; f_equal; symmetry; apply drop_app_length'; unfold blen in *; lia).
  destruct (WriteBuffer.writes_append wb (before ++ frames c parts) m1 (m2 ++ o1) o2 (frame c (data, o)) Hwr)
    as [Hwr' _].
  - by rewrite Hw, <- !app_assoc.
  - done.
  - unfold frame. fold blk. rewrite !blen_app, blen_checksum_bytes. unfold checksum_size in *. lia.
  - apply Forall_app. split; [apply checksum_bytes_bytes|]. destruct Ho. apply block_bytes; [apply codec_method|done].
  - unfold frame in Hwr' at 1 2. fold blk in Hwr'. unfold WriteBuffer.set_cursor in *. simpl.
    rewrite blen_app, blen_checksum_bytes, <- app_assoc, Z.add_assoc in Hwr'. done.
Qed.

Lemma nextImpl_copy before parts data wb buf :
  Forall (part_ok c) parts → WriteBuffer.writes wb (before ++ frames c parts) →
  is_bytes data → 0 < blen data ≤ max_source →
  ¬ 9 + getMaxCompressedDataSize c (blen data) + checksum_size ≤ WriteBuffer.available wb →
  match CompressedWriteBuffer.nextImpl data (CompressedWriteBuffer.mk_sink wb c buf) with
  | (Ret _, s') => holds_compressed before s' (sources parts ++ data)
  | (Throw _, _) => True
  | _ => False
  end.
Proof.
  intros Hps Hwr Hb Hl Ha. pose proof stream_max_source.
  destruct (stream_reserve (blen data) Hl) as [Hm _].
  unfold CompressedWriteBuffer.nextImpl.
  cbn [CompressedWriteBuffer.sink_codec CompressedWriteBuffer.out CompressedWriteBuffer.compressed_buffer].
  rewrite (proj2 (Z.eqb_neq _ _)) by lia. rewrite wrap_small by zlia.
  set (n := 9 + getMaxCompressedDataSize c (blen data)) in *.
  destruct (compress_part data (CodecBase.resize n buf) Hb Hl) as [Hr Hc]. rewrite Hr. fold n.
  rewrite (proj2 (Z.leb_gt _ _)) by lia.
  destruct Hc as (o & Ho & Hc & Hol); [by rewrite blen_resize by lia|]. rewrite Hc. cbn [mbind outcome_bind].
  set (blk := part_block c (data, o)) in *.
  replace (read_bytes (over blk (CodecBase.resize n buf)) 0 (blen blk)) with (Ret blk)
    by (symmetry; by apply (read_bytes_app [] blk)).
  cbn [mbind outcome_bind].
  pose proof (write_checksum_spec wb _ blk Hwr) as Hck.
  destruct (CompressedWriteBuffer.write_checksum _ wb) as [[] wb1]; try done.
  assert (is_bytes blk) as Hbb by (destruct Ho; apply block_bytes; [apply codec_method|done]).
  pose proof (WriteBuffer.write_spec blk wb1 _ Hck Hbb) as Hwb.
  destruct (WriteBuffer.write blk wb1) as [[] wb2]; try done. destruct Hwb as (Hwb & _).
  apply (holds_compressed_snoc before parts (data, o)); [done|done|].
  by rewrite <- app_assoc in Hwb.
Qed.

(** Whatever the state of the buffer [out], [nextImpl] appends the data. *)
Lemma nextImpl_holds before data s held :
  is_bytes data → 0 < blen data ≤ max_source → holds_compressed before s held →
  match CompressedWriteBuffer.nextImpl data s with
  | (Ret _, s') => holds_compressed before s' (held ++ data)
  | (Throw _, _) => True
  | _ => False
  end.
Proof.
  intros Hb Hl (Hc & parts & Hps & -> & Hwr). destruct s as [wb c' buf]. simpl in Hc, Hwr. subst c'.
  destruct (decide (9 + getMaxCompressedDataSize c (blen data) + checksum_size ≤ WriteBuffer.available wb));
    [by apply nextImpl_in_place|by apply nextImpl_copy].
Qed.

Definition compressed_sink (before : bytes) : WriteBuffer.Sink (CompressedWriteBuffer.sink Sk) :=
  {| WriteBuffer.holds := holds_compressed before;
     WriteBuffer.max_data := max_source;
     WriteBuffer.nextImpl_spec := nextImpl_holds before |}.
End codec.
End writer.

(** * Reading blocks *)

(** What the readers rely on of [CompressionCodecFactory::get(uint8_t)]. *)
Class FactoryOk (factory_get : Z → outcome ICompressionCodec) := {
  factory_additional m o ec :
    factory_get m = Ret o → 0 ≤ getAdditionalSizeAtTheEndOfBuffer (codec_of o ec) ≤ max_additional;
  factory_method m o ec : factory_get m = Ret o → getMethodByte (codec_of o ec) = m;
  factory_none m o :
    factory_get m = Ret o → isNone o = true → codec_of o = CompressionCodecNone;
}.

Section reading.
Import CompressedReadBufferBase.
Context `{FreshMemory} `{CityHash} (factory_get : Z → outcome ICompressionCodec) `{!FactoryOk factory_get}.

(** A codec of the reader comes from the factory. *)
Definition ptr_ok (p : codec_ptr) : Prop := ∃ m, factory_get m = Ret (ptr_object p).

Definition base_ok (s : t) : Prop :=
  ReadBuffer.wf (compressed_in s) ∧ ReadBuffer.contiguous (compressed_in s) ∧
  ∀ p, base_codec s = Some p → ptr_ok p.

Lemma ptr_additional p :
  ptr_ok p → 0 ≤ getAdditionalSizeAtTheEndOfBuffer (ptr_codec p) ≤ max_additional.
Proof. intros [m Hm]. by eapply factory_additional. Qed.

Lemma choose_codec_ok m op b1 b2 p' :
  (∀ p, op = Some p → ptr_ok p) → choose_codec factory_get m op b1 b2 = Ret p' →
  factory_get m = Ret (ptr_object p') ∧ (b2 = true → ptr_error_code p' = CANNOT_DECOMPRESS).
Proof.
  intros Hop Hc.
  assert (∀ p, p' = (if b2 : bool then setExternalDataFlag p else p) →
    ptr_object p' = ptr_object p ∧ (b2 = true → ptr_error_code p' = CANNOT_DECOMPRESS)) as Hset
    by (intros p ->; by destruct b2).
  unfold choose_codec in Hc. destruct op as [p|].
  - destruct (Z.eqb_spec m (getMethodByte (ptr_codec p))) as [->|Hm]; simpl in Hc.
    + injection Hc as Hc. destruct (Hset p) as [-> ?]; [done|]. split; [|done].
      destruct (Hop p eq_refl) as [m' Hm']. unfold ptr_codec. by rewrite (factory_method _ _ _ Hm').
    + destruct b1; [|done]. destruct (factory_get m) eqn:Hg; try done. simpl in Hc. injection Hc as Hc.
      by destruct (Hset (make_ptr a)) as [-> ?].
  - destruct (factory_get m) eqn:Hg; try done. simpl in Hc. injection Hc as Hc.
    by destruct (Hset (make_ptr a)) as [-> ?].
Qed.

Lemma readHeader_ptr header n op b1 b2 p sd size :
  (∀ p, op = Some p → ptr_ok p) →
  readHeaderAndGetCodecAndSize factory_get header n op b1 b2 = Ret (p, sd, size) → ptr_ok p.
Proof.
  intros Hop. unfold readHeaderAndGetCodecAndSize. destruct (readMethod header) as [m| | |]; try done. simpl.
  destruct (choose_codec factory_get m op b1 b2) as [p'| | |] eqn:Hc; try done. simpl.
  destruct (choose_codec_ok _ _ _ _ _ Hop Hc) as [Hg _].
  destruct (readCompressedBlockSize _ header); try done. destruct (readDecompressedBlockSize _ header); try done. simpl.
  destruct (DBMS_MAX_COMPRESSED_SIZE <? a), (a <? n); simpl; try done. intros [= <- _ _]. by exists m.
Qed.

Lemma readHeader_ok header op b1 b2 p sd size :
  (∀ p, op = Some p → ptr_ok p) → is_bytes header →
  readHeaderAndGetCodecAndSize factory_get header 9 op b1 b2 = Ret (p, sd, size) →
  ptr_ok p ∧ 9 ≤ size ≤ DBMS_MAX_COMPRESSED_SIZE ∧ 0 < sd < 2 ^ 32 ∧
  readMethod header = Ret (getMethodByte (ptr_codec p)) ∧
  readDecompressedBlockSize (ptr_error_code p) header = Ret sd.
Proof.
  intros Hop Hb. unfold readHeaderAndGetCodecAndSize.
  destruct (readMethod header) as [m| | |] eqn:Hm; try done. simpl.
  destruct (choose_codec factory_get m op b1 b2) as [p'| | |] eqn:Hc; try done. simpl.
  destruct (choose_codec_ok _ _ _ _ _ Hop Hc) as [Hg _].
  destruct (readCompressedBlockSize _ header) as [n| | |] eqn:Hn; try done. simpl.
  destruct (readDecompressedBlockSize _ header) as [d| | |] eqn:Hd; try done. simpl.
  destruct (Z.ltb_spec DBMS_MAX_COMPRESSED_SIZE n); [done|]. simpl.
  destruct (Z.ltb_spec n 9); [done|]. simpl. intros [= <- <- <-].
  split_and!; [by exists m|done|done| | | |done].
  1, 2: unfold readDecompressedBlockSize in Hd; destruct (load 4 header 5) as [x| | |] eqn:Hl; try done; simpl in Hd;
    destruct (Z.eqb_spec x 0); [done|]; injection Hd as <-;
    apply (load_range _ _ _ _ Hb) in Hl; zlia.
  f_equal. symmetry. by apply factory_method.
Qed.

(** The next block of a stream whose bytes are [rest], whatever the buffers they come
    in: the codec, the size of the data, the block and the bytes after it; [None] at
    the end of the stream. *)
Definition next_block (s : t) (rest : bytes) : outcome (option (codec_ptr * Z * bytes * bytes)) :=
  if blen rest =? 0 then Ret None else
  _ ← throw_if (blen rest <? 25) CANNOT_READ_ALL_DATA;
  '(p, size_decompressed, size) ←
    readHeaderAndGetCodecAndSize factory_get (take 9 (drop 16 rest)) 9 (base_codec s)
      (allow_different_codecs s) (external_data s);
  _ ← throw_if (blen rest <? 16 + size) CANNOT_READ_ALL_DATA;
  let blk := take (Z.to_nat size) (drop 16 rest) in
  _ ← (if disable_checksum s then Ret tt
       else validateChecksum blk size (le_combine (take 8 rest), le_combine (take 8 (drop 8 rest))));
  Ret (Some (p, size_decompressed, blk, drop (Z.to_nat (16 + size)) rest)).

(** The two ways [readCompressedData] gets at the block after a header that ended up
    in [own]. *)
Section block_memory.
Context (ck header body rest : bytes) (cin : ReadBuffer.t) (additional : Z).
Context (Hwf : ReadBuffer.wf cin) (Hadd : 0 ≤ additional).
Context (Hck : blen ck = 16) (Hh : blen header = 9).
Context (Hrem : ReadBuffer.remaining cin = body ++ rest).
Abbreviation size := (9 + blen body).

(** The rest of the state after the block has been passed. *)
Definition past_block (tail : bytes) (cin' : ReadBuffer.t) : Prop :=
  additional ≤ blen tail ∧ is_bytes tail ∧
  ReadBuffer.wf cin' ∧ (ReadBuffer.contiguous cin → ReadBuffer.contiguous cin') ∧ ReadBuffer.remaining cin' = rest.

Lemma block_in_place :
  (ck ++ header) `suffix_of` ReadBuffer.passed cin →
  size - 9 + additional + 16 ≤ ReadBuffer.available cin →
  ∃ tail, tail_at (ReadBuffer.rb_working cin) (ReadBuffer.rb_pos cin - 9) = Ret ((header ++ body) ++ tail) ∧
    past_block tail (ReadBuffer.advance cin (blen body)).
Proof.
  intros [pre Hpre] Hav. unfold ReadBuffer.passed in Hpre. pose proof (blen_nonneg body).
  pose proof (ReadBuffer.wf_pos _ Hwf) as Hp. pose proof (ReadBuffer.remaining_pending cin Hp) as Hpend.
  assert (is_bytes (ReadBuffer.rb_working cin)) as Hwb by apply Hwf.
  unfold ReadBuffer.available, ReadBuffer.remaining in *.
  destruct (split_at (drop (Z.to_nat (ReadBuffer.rb_pos cin)) (ReadBuffer.rb_working cin)) (blen body))
    as (b1 & tail & Hb & Hbl); [lia|].
  rewrite Hb, <- app_assoc in Hrem. apply app_inj_1 in Hrem as [-> Hrest]; [|unfold blen in Hbl; lia].
  assert (ReadBuffer.rb_working cin = (pre ++ ck) ++ header ++ body ++ tail) as Hw.
  { rewrite <- (take_drop (Z.to_nat (ReadBuffer.rb_pos cin)) (ReadBuffer.rb_working cin)).
    by rewrite Hpre, Hb, <- !app_assoc. }
  apply (f_equal blen) in Hpre. rewrite blen_take in Hpre. rewrite Hb in Hpend. autorewrite with blen in *.
  pose proof (blen_nonneg tail).
  exists tail. rewrite Hw at 1. rewrite tail_at_app by blia. split; [by rewrite <- app_assoc|].
  assert (0 ≤ blen body ≤ ReadBuffer.available cin) by (unfold ReadBuffer.available; lia).
  split_and!; [lia| |by apply ReadBuffer.wf_advance|by apply ReadBuffer.advance_contiguous|].
  - rewrite Hw, !Forall_app in Hwb. tauto.
  - rewrite ReadBuffer.remaining_advance by done. unfold ReadBuffer.remaining.
    by rewrite Hb, <- app_assoc, to_nat_blen, drop_app_length.
Qed.

Lemma block_copied :
  ∃ own' tail cin',
    ('(bs, cin) ← ReadBuffer.readStrict (size - 9) cin;
     own ← write_bytes (CodecBase.resize (16 + size + additional) (ck ++ header)) (16 + 9) bs;
     cbuf ← tail_at own 16;
     Ret (own, cbuf, cin)) = Ret ((ck ++ header) ++ own', (header ++ body) ++ tail, cin') ∧
    past_block tail cin'.
Proof.
  pose proof (blen_nonneg body). replace (size - 9) with (blen body) by lia.
  pose proof (ReadBuffer.readStrict_spec (blen body) cin Hwf ltac:(lia)) as Hr.
  rewrite Hrem, (proj2 (Z.leb_le _ _)) in Hr by (pose proof (blen_nonneg rest); blia).
  rewrite to_nat_blen, take_app_length, drop_app_length in Hr.
  destruct Hr as (cin' & -> & Hwf' & Hrem' & Hu'). cbn [mbind outcome_bind].
  rewrite resize_grow by (rewrite blen_app; lia).
  set (f := CodecBase.fresh _). assert (blen f = blen body + additional) as Hf.
  { unfold f, blen. rewrite fresh_length, length_app. unfold blen in *. lia. }
  assert (is_bytes f) as Hfb by apply fresh_bytes.
  destruct (split_at f (blen body)) as (f1 & f2 & Hff & Hf1); [lia|]. rewrite Hff in *.
  rewrite write_bytes_app by (rewrite ?blen_app; lia). cbn [mbind outcome_bind].
  rewrite <- app_assoc, tail_at_app by lia. cbn [mbind outcome_bind].
  exists (body ++ f2), f2, cin'. split; [by rewrite <- !app_assoc|].
  rewrite blen_app in Hf. apply Forall_app in Hfb as [_ ?].
  split_and!; [lia|done|done|by apply Hu'|done].
Qed.

Lemma locate_block_spec always_copy :
  always_copy = true ∨ (25 ≤ ReadBuffer.rb_pos cin → (ck ++ header) `suffix_of` ReadBuffer.passed cin) →
  ∃ own' tail cin',
    locate_block always_copy size additional (ck ++ header) cin =
      Ret ((ck ++ header) ++ own', (header ++ body) ++ tail, cin') ∧
    past_block tail cin'.
Proof.
  intros Hs. unfold locate_block, checksum_size, getHeaderSize, COMPRESSED_BLOCK_HEADER_SIZE.
  destruct (negb always_copy && _ && _) eqn:E; [|apply block_copied].
  rewrite !andb_true_iff, negb_true_iff, !Z.leb_le in E. destruct E as [[Hac Hpos] Hav].
  destruct Hs as [Hs|Hs]; [by rewrite Hac in Hs|].
  destruct (block_in_place (Hs Hpos) Hav) as (tail & Ht & Hpast).
  exists [], tail, (ReadBuffer.advance cin (blen body)). split; [|done].
  unfold ReadBuffer.advance. cbn [ReadBuffer.rb_working ReadBuffer.rb_pos ReadBuffer.rb_bytes ReadBuffer.rb_source].
  rewrite Z.add_opp_r, Ht. cbn [mbind outcome_bind].
  rewrite app_nil_r. do 3 f_equal. lia.
Qed.

(** A stream that ends within the block. *)
Lemma locate_block_short always_copy (n : Z) (r : bytes) cin' own :
  ReadBuffer.wf cin' → ReadBuffer.remaining cin' = r → blen r < n - 9 → 9 ≤ n →
  locate_block always_copy n additional own cin' = Throw CANNOT_READ_ALL_DATA.
Proof.
  intros Hwf' Hrem' Hlt Hn. unfold locate_block, checksum_size, getHeaderSize, COMPRESSED_BLOCK_HEADER_SIZE.
  pose proof (ReadBuffer.remaining_pending cin' (ReadBuffer.wf_pos _ Hwf')) as Hp.
  assert (ReadBuffer.available cin' ≤ blen r).
  { rewrite <- Hrem', <- Hp. unfold ReadBuffer.remaining. rewrite blen_app.
    pose proof (blen_nonneg (concat (ReadBuffer.chunk_data <$> ReadBuffer.rb_source cin'))). lia. }
  rewrite (proj2 (Z.leb_gt (n - 9 + additional + 16) _)) by lia. rewrite andb_false_r.
  pose proof (ReadBuffer.readStrict_spec (n - 9) cin' Hwf' ltac:(lia)) as Hr.
  rewrite Hrem', (proj2 (Z.leb_gt _ _)) in Hr by lia. by rewrite Hr.
Qed.
End block_memory.

(** The state after a block has been read. *)
Definition with_block (s : t) (cin : ReadBuffer.t) (own cbuf : bytes) (p : codec_ptr) : t :=
  mk cin own cbuf (disable_checksum s) (allow_different_codecs s) (external_data s) (Some p).

Lemma remaining_bytes rb : ReadBuffer.wf rb → is_bytes (ReadBuffer.remaining rb).
Proof.
  intros [Hb _ Hs]. apply Forall_app. split; [by apply Forall_drop|]. apply Forall_concat, Forall_fmap.
  eapply Forall_impl; [|exact Hs]. intros [data off] [Hd _]. by apply Forall_drop.
Qed.

(** The checksum stored in front of the header. *)
Lemma check_block_eq s ck own' blk tail :
  blen ck = 16 →
  check_block s (ck ++ own') (blk ++ tail) (blen blk) =
  (if disable_checksum s then Ret tt
   else validateChecksum blk (blen blk) (le_combine (take 8 ck), le_combine (take 8 (drop 8 ck)))).
Proof.
  intros Hck. unfold check_block. destruct (disable_checksum s); [done|].
  destruct (split_at ck 8) as (a & b & -> & Ha); [lia|]. rewrite blen_app in Hck.
  rewrite take_app_length', drop_app_length', take_ge by (unfold blen in *; lia).
  replace (load 8 ((a ++ b) ++ own') 0) with (Ret (le_combine a))
    by (symmetry; rewrite <- app_assoc; by apply (load_app 8 [])).
  cbn [mbind outcome_bind]. rewrite <- app_assoc, load_app by lia. cbn [mbind outcome_bind].
  unfold validateChecksum.
  by rewrite read_bytes_all, read_bytes_prefix.
Qed.

(** The state is as before the call, but for the input: what [readCompressedData] needs
    of the next call, with or without copying. *)
Definition stream_kept (s s' : t) : Prop :=
  ReadBuffer.wf (compressed_in s') ∧
  (ReadBuffer.contiguous (compressed_in s) → ReadBuffer.contiguous (compressed_in s')) ∧
  ∀ p, base_codec s' = Some p → ptr_ok p.

(** Where the block is not looked for in the buffer of the input, nothing has to be known
    of the bytes that this buffer has in front of its cursor. *)
Lemma readCompressedData_stream always_copy s :
  ReadBuffer.wf (compressed_in s) → always_copy = true ∨ ReadBuffer.contiguous (compressed_in s) →
  (∀ p, base_codec s = Some p → ptr_ok p) →
  match next_block s (ReadBuffer.remaining (compressed_in s)) with
  | Ret None => ∃ cin', readCompressedData factory_get always_copy s = Ret (None, set_in s cin') ∧
      stream_kept s (set_in s cin') ∧ ReadBuffer.remaining cin' = []
  | Ret (Some (p, sd, blk, rest)) => ∃ cin' own tail,
      readCompressedData factory_get always_copy s =
        Ret (Some (blen blk + 16, sd, blen blk), with_block s cin' own (blk ++ tail) p) ∧
      stream_kept s (with_block s cin' own (blk ++ tail) p) ∧ ReadBuffer.remaining cin' = rest ∧
      getAdditionalSizeAtTheEndOfBuffer (ptr_codec p) ≤ blen tail ∧ is_bytes tail
  | Throw e => readCompressedData factory_get always_copy s = Throw e
  | UB => readCompressedData factory_get always_copy s = UB
  | OutOfFuel => readCompressedData factory_get always_copy s = OutOfFuel
  end.
Proof.
  intros Hwf Hu Hop. unfold readCompressedData, next_block.
  destruct (ReadBuffer.eof_spec _ Hwf) as (b & cin1 & Heof & Hwf1 & Hrem1 & _ & Hb & _). rewrite Heof.
  assert (ReadBuffer.contiguous (compressed_in s) → ReadBuffer.contiguous cin1) as Hu1
    by (intros [before Hbf]; exists before; exact (ReadBuffer.eof_window _ _ _ _ Hwf Hbf Heof)).
  set (rest := ReadBuffer.remaining (compressed_in s)) in *.
  destruct (decide (rest = [])) as [Hnil|Hne].
  { destruct b; [|exfalso; by apply Hb]. rewrite Hnil, blen_nil. simpl.
    exists cin1. rewrite Hnil in Hrem1. by split. }
  destruct b; [exfalso; destruct Hb as [_ Hb]; specialize (Hb Hne); done|].
  rewrite (proj2 (Z.eqb_neq _ _)) by (intros E; by apply blen_0_nil in E).
  unfold checksum_size, getHeaderSize, COMPRESSED_BLOCK_HEADER_SIZE.
  pose proof (ReadBuffer.readStrict_spec (16 + 9) cin1 Hwf1 ltac:(lia)) as Hr. rewrite Hrem1 in Hr.
  destruct (Z.ltb_spec (blen rest) 25); [by rewrite (proj2 (Z.leb_gt _ _)) in Hr by lia; rewrite Hr|].
  rewrite (proj2 (Z.leb_le _ _)) in Hr by lia. destruct Hr as (cin2 & -> & Hwf2 & Hrem2 & Hu2).
  assert (ReadBuffer.contiguous (compressed_in s) → ReadBuffer.contiguous cin2) as Hu2' by (intros Hc; by apply Hu2, Hu1).
  assert (is_bytes rest) as Hrb by (apply remaining_bytes, Hwf).
  destruct (split_at rest 16) as (ck & r1 & Hrest & Hck); [lia|]. rewrite Hrest in *. clear Hrest rest.
  rewrite blen_app in *. destruct (split_at r1 9) as (header & r2 & -> & Hh); [lia|].
  rewrite !Forall_app in Hrb. destruct Hrb as (? & ? & Hr2b).
  change (Z.to_nat (16 + 9)) with 25%nat in *.
  assert (take 25 (ck ++ header ++ r2) = ck ++ header) as Ht25
    by (rewrite (assoc_L (++)); apply take_app_length'; rewrite length_app; unfold blen in *; lia).
  assert (drop 25 (ck ++ header ++ r2) = r2) as Hd25
    by (rewrite (assoc_L (++)); apply drop_app_length'; rewrite length_app; unfold blen in *; lia).
  rewrite Ht25 in *. rewrite Hd25 in *.
  rewrite (drop_app_length' ck) by (unfold blen in *; lia).
  rewrite (take_app_length' header) by (unfold blen in *; lia).
  cbn [mbind outcome_bind throw_if]. rewrite tail_at_app by lia. cbn [mbind outcome_bind].
  destruct (readHeaderAndGetCodecAndSize _ header 9 _ _ _) as [[[p sd] size]| | |] eqn:Hhd; try done.
  cbn [mbind outcome_bind].
  destruct (readHeader_ok header _ _ _ _ _ _ Hop ltac:(done) Hhd) as (Hp & Hsz & _).
  pose proof (ptr_additional p Hp) as [Hadd _]. autorewrite with blen.
  destruct (Z.ltb_spec (blen ck + (blen header + blen r2)) (16 + size)).
  { by rewrite (locate_block_short _ Hadd _ _ r2) by (done || lia). }
  destruct (split_at r2 (size - 9)) as (body & r3 & -> & Hbody); [lia|].
  destruct (locate_block_spec ck header body r3 cin2 _ Hwf2 Hadd Hck Hh Hrem2 always_copy)
    as (own' & tail & cin3 & Hloc & Htail & Htb & Hwf3 & Hu3 & Hrem3); [destruct Hu as [?|Hc]; [by left|right; by apply Hu2, Hu1]|].
  replace (9 + blen body) with size in Hloc by lia. rewrite Hloc. cbn [mbind outcome_bind throw_if].
  rewrite <- app_assoc. replace size with (blen (header ++ body)) by blia.
  rewrite check_block_eq by done.
  rewrite (assoc_L (++) header body r3), to_nat_blen, take_app_length.
  rewrite (take_app_le ck), (drop_app_le ck _ 8), (take_app_le (drop 8 ck)) by (rewrite ?length_drop; unfold blen in *; lia).
  destruct (if disable_checksum s then _ else _) as [[]| | |]; try done. cbn [mbind outcome_bind].
  exists cin3, (ck ++ header ++ own'), tail. split; [done|].
  split; [split; [done|]; split; [by intros Hc; apply Hu3, Hu2'|]; by intros ? [= <-]|]. split; [|done].
  rewrite Hrem3. symmetry. rewrite (assoc_L (++)). apply drop_app_length'. unfold blen in *. rewrite !length_app in *. lia.
Qed.

Lemma readCompressedData_next_block always_copy s :
  base_ok s →
  match next_block s (ReadBuffer.remaining (compressed_in s)) with
  | Ret None => ∃ cin', readCompressedData factory_get always_copy s = Ret (None, set_in s cin') ∧
      base_ok (set_in s cin') ∧ ReadBuffer.remaining cin' = []
  | Ret (Some (p, sd, blk, rest)) => ∃ cin' own tail,
      readCompressedData factory_get always_copy s =
        Ret (Some (blen blk + 16, sd, blen blk), with_block s cin' own (blk ++ tail) p) ∧
      base_ok (with_block s cin' own (blk ++ tail) p) ∧ ReadBuffer.remaining cin' = rest ∧
      getAdditionalSizeAtTheEndOfBuffer (ptr_codec p) ≤ blen tail ∧ is_bytes tail
  | Throw e => readCompressedData factory_get always_copy s = Throw e
  | UB => readCompressedData factory_get always_copy s = UB
  | OutOfFuel => readCompressedData factory_get always_copy s = OutOfFuel
  end.
Proof.
  intros (Hwf & Hu & Hop). pose proof (readCompressedData_stream always_copy s Hwf (or_intror Hu) Hop) as Hr.
  destruct (next_block _ _) as [[[[[p sd] blk] rest]|]| | |]; try done.
  - destruct Hr as (cin' & own & tail & ? & (? & Hc & ?) & Hr). exists cin', own, tail. split_and!; try apply Hr; [done|].
    split; [done|]. split; [by apply Hc|done].
  - destruct Hr as (cin' & ? & (? & Hc & ?) & Hr). exists cin'. split_and!; [done| |done].
    split; [done|]. split; [by apply Hc|done].
Qed.

(** The codec chosen for a block is chosen again when the block is decompressed. *)
Lemma choose_codec_again m op b1 b2 p :
  (∀ p, op = Some p → ptr_ok p) → choose_codec factory_get m op b1 b2 = Ret p →
  choose_codec factory_get m (Some p) b1 b2 = Ret p.
Proof.
  intros Hop Hc. destruct (choose_codec_ok _ _ _ _ _ Hop Hc) as [Hg He].
  unfold choose_codec, ptr_codec. rewrite (factory_method _ _ _ Hg), Z.eqb_refl. simpl.
  destruct p as [o ec]. destruct b2; [|done]. simpl in He. by rewrite He.
Qed.

(** ** Streams of parts *)

Section parts.
Context `{!CityHashRange} (c : codec) (o : ICompressionCodec).
Context (Hm : is_byte (getMethodByte c)).
Context (Hget : factory_get (getMethodByte c) = Ret o).
Context (Hlike : ∀ ec, decodes_like (codec_of o ec) c).

(** The reader has chosen no codec yet, or the one for [c]. *)
Definition codec_ready (s : t) : Prop := ∀ p, base_codec s = Some p → ptr_object p = o.

Lemma choose_codec_ready s :
  codec_ready s →
  ∃ p, choose_codec factory_get (getMethodByte c) (base_codec s) (allow_different_codecs s) (external_data s) = Ret p
    ∧ ptr_object p = o.
Proof.
  intros Hr. unfold choose_codec. destruct (base_codec s) as [p|] eqn:Hp.
  - specialize (Hr p Hp). unfold ptr_codec. rewrite Hr.
    rewrite (factory_method _ _ _ Hget), Z.eqb_refl. simpl. eexists. split; [done|]. by destruct (external_data s).
  - rewrite Hget. simpl. eexists. split; [done|]. by destruct (external_data s).
Qed.

(** The header of a block is within its first bytes. *)
Lemma part_header part :
  part_ok c part →
  ∃ header, part_block c part = header ++ part.2 ∧ blen header = 9 ∧
    readMethod header = Ret (getMethodByte c) ∧
    ∀ ec, readCompressedBlockSize ec header = Ret (blen (part_block c part)) ∧
      readDecompressedBlockSize ec header = Ret (blen part.1).
Proof.
  intros [? ? ? Hsz _]. unfold DBMS_MAX_COMPRESSED_SIZE in Hsz. destruct part as [source out]. simpl in *.
  set (hd := getMethodByte c :: le_split 4 (9 + blen out) ++ le_split 4 (blen source)).
  exists hd. unfold part_block. rewrite blen_block. cbn [fst snd]. split_and!.
  - unfold hd, CodecBase.block. by rewrite <- app_comm_cons, <- app_assoc.
  - unfold hd. rewrite blen_cons, blen_app, !blen_le_split. done.
  - apply load_first.
  - intros ec. pose proof (blen_nonneg out).
    assert (load 4 hd 1 = Ret (9 + blen out)) as Hl1.
    { transitivity (Ret (le_combine (le_split 4 (9 + blen out)))).
      - by apply (load_app 4 [getMethodByte c] (le_split 4 (9 + blen out))).
      - by rewrite le_combine_split by (simpl; zlia). }
    assert (load 4 hd 5 = Ret (blen source)) as Hl5.
    { transitivity (Ret (le_combine (le_split 4 (blen source)))).
      - unfold hd. rewrite app_comm_cons, <- (app_nil_r (le_split 4 (blen source))) at 1.
        by apply (load_app 4 (getMethodByte c :: le_split 4 (9 + blen out))).
      - by rewrite le_combine_split by (simpl; zlia). }
    unfold readCompressedBlockSize, readDecompressedBlockSize. rewrite Hl1, Hl5. cbn [mbind outcome_bind].
    by rewrite !throw_if_false by (apply Z.eqb_neq; lia).
Qed.

Lemma checksum_of_frame blk rest :
  (le_combine (take 8 (checksum_bytes blk ++ rest)),
   le_combine (take 8 (drop 8 (checksum_bytes blk ++ rest)))) = CityHash128 blk.
Proof.
  destruct (CityHash128_range blk) as [Hlo Hhi]. unfold checksum_bytes. rewrite <- app_assoc.
  rewrite take_app_length', drop_app_length', take_app_length' by (by rewrite length_le_split).
  rewrite !le_combine_split by (apply Hlo || apply Hhi). by destruct (CityHash128 blk).
Qed.

Lemma next_block_frame s part rest :
  base_ok s → codec_ready s → part_ok c part →
  ∃ p, next_block s (frame c part ++ rest) = Ret (Some (p, blen part.1, part_block c part, rest)) ∧
    ptr_object p = o ∧
    choose_codec factory_get (getMethodByte c) (Some p) (allow_different_codecs s) (external_data s) = Ret p.
Proof.
  intros (_ & _ & Hop) Hr Hp. destruct (choose_codec_ready s Hr) as (p & Hc & Ho). exists p.
  split_and!; [|done|by eapply choose_codec_again].
  destruct (part_header part Hp) as (hd & Hblk & Hhd & Hmeth & Hsizes).
  assert (blen (part_block c part) = 9 + blen part.2) as Hl by apply blen_block.
  pose proof (blen_nonneg part.2). pose proof (blen_nonneg rest).
  assert (blen (frame c part ++ rest) = 25 + blen part.2 + blen rest) as Hlen
    by (unfold frame; rewrite !blen_app, blen_checksum_bytes, Hl; lia).
  unfold next_block. rewrite (proj2 (Z.eqb_neq _ _)), (proj2 (Z.ltb_ge _ 25)) by lia.
  cbn [throw_if mbind outcome_bind]. unfold frame. rewrite <- app_assoc.
  rewrite drop_app_length' by (pose proof (blen_checksum_bytes (part_block c part)); unfold blen in *; lia).
  assert (take 9 (part_block c part ++ rest) = hd) as ->
    by (rewrite Hblk, <- app_assoc; apply take_app_length'; unfold blen in *; lia).
  unfold readHeaderAndGetCodecAndSize. rewrite Hmeth. cbn [mbind outcome_bind]. rewrite Hc. cbn [mbind outcome_bind].
  destruct (Hsizes (ptr_error_code p)) as [-> ->]. cbn [mbind outcome_bind].
  pose proof (part_compressed_size _ _ Hp).
  rewrite (proj2 (Z.ltb_ge DBMS_MAX_COMPRESSED_SIZE _)), (proj2 (Z.ltb_ge _ 9)) by lia.
  cbn [throw_if mbind outcome_bind].
  rewrite !blen_app, blen_checksum_bytes, (proj2 (Z.ltb_ge _ _)) by lia. cbn [throw_if mbind outcome_bind].
  rewrite to_nat_blen, take_app_length, checksum_of_frame.
  replace (validateChecksum _ _ _) with (Ret tt).
  - destruct (disable_checksum s); cbn [mbind outcome_bind]; do 3 f_equal; rewrite (assoc_L (++));
      apply drop_app_length'; rewrite length_app; pose proof (blen_checksum_bytes (part_block c part));
      unfold blen in *; lia.
  - unfold validateChecksum. rewrite read_bytes_all. cbn [mbind outcome_bind]. by rewrite bool_decide_true.
Qed.

(** ** Decompressing a part *)

(** A state in which the block of a part has just been read. *)
Definition has_block (s : t) (part : bytes * bytes) : Prop :=
  part_ok c part ∧ ∃ p tail,
    compressed_buffer s = part_block c part ++ tail ∧ base_codec s = Some p ∧ ptr_object p = o ∧
    getAdditionalSizeAtTheEndOfBuffer (ptr_codec p) ≤ blen tail ∧
    choose_codec factory_get (getMethodByte c) (Some p) (allow_different_codecs s) (external_data s) = Ret p.

Lemma readHeaderAndGetCodec_part s part : has_block s part → readHeaderAndGetCodec factory_get s = Ret s.
Proof.
  intros (Hp & p & tail & Hb & Hc & _ & _ & Hch). unfold readHeaderAndGetCodec. rewrite Hb, Hc.
  unfold readMethod, part_block. rewrite block_method. cbn [mbind outcome_bind]. rewrite Hch. cbn [mbind outcome_bind].
  unfold set_codec. rewrite <- Hc. by destruct s.
Qed.

Lemma additional_same p : ptr_object p = o →
  getAdditionalSizeAtTheEndOfBuffer (ptr_codec p) = getAdditionalSizeAtTheEndOfBuffer c.
Proof. intros <-. apply (like_additional _ _ (Hlike (ptr_error_code p))). Qed.

Lemma decompress_part p part tail dest :
  ptr_object p = o → part_ok c part →
  getAdditionalSizeAtTheEndOfBuffer (ptr_codec p) ≤ blen tail →
  blen part.1 + getAdditionalSizeAtTheEndOfBuffer c ≤ blen dest →
  ∃ extra, CodecBase.decompress (ptr_codec p) (part_block c part ++ tail) (blen (part_block c part)) dest =
    Ret (part.1 ++ extra, blen part.1) ∧ blen (part.1 ++ extra) = blen dest.
Proof.
  intros Ho [? ? ? Hsz Hun] Ht Hd. unfold DBMS_MAX_COMPRESSED_SIZE in Hsz. unfold ptr_codec in *. rewrite Ho in *.
  destruct (Hlike (ptr_error_code p)) as [Hmeth Hadd Hund].
  destruct (Hund _ _ Hun tail dest) as (extra & Hdec & Hl); [lia|lia|].
  exists extra. split; [|done]. unfold part_block, CodecBase.block. rewrite <- Hmeth.
  apply decompress_block; [zlia|zlia|done].
Qed.

Lemma none_part part : isNone o = true → part_ok c part → part.2 = part.1.
Proof.
  intros Hn [_ _ _ _ Hun]. destruct (Hlike CORRUPTED_DATA) as [_ _ Hund]. apply Hund in Hun.
  rewrite (factory_none _ _ Hget Hn) in Hun. destruct (Hun [] part.1) as (extra & Hd & Hl); [done|simpl; lia|].
  simpl in Hd. unfold None_doDecompressData in Hd. rewrite app_nil_r in Hd.
  destruct (Z.eqb_spec (blen part.2) (blen part.1)) as [E|]; [|done]. simpl in Hd.
  rewrite <- E in Hd. rewrite read_bytes_all in Hd. cbn [mbind outcome_bind] in Hd.
  unfold write_bytes in Hd. rewrite E, (proj2 (Z.leb_le (0 + _) _)) in Hd by lia. simpl in Hd.
  injection Hd as Hd. rewrite Z.add_0_l, to_nat_blen, drop_all, app_nil_r in Hd.
  rewrite blen_app in Hl. assert (extra = []) as -> by (apply blen_0_nil; lia). by rewrite app_nil_r in Hd.
Qed.

Lemma decompressTo_part s part dest :
  has_block s part → blen part.1 + getAdditionalSizeAtTheEndOfBuffer c ≤ blen dest →
  ∃ extra, decompressTo factory_get dest (blen (part_block c part)) s = Ret (part.1 ++ extra, s) ∧
    blen (part.1 ++ extra) = blen dest.
Proof.
  intros Hb Hd. unfold decompressTo. rewrite (readHeaderAndGetCodec_part _ _ Hb). cbn [mbind outcome_bind].
  destruct Hb as (Hp & p & tail & -> & -> & Ho & Ht & _). pose proof (part_compressed_size _ _ Hp) as Hsz.
  unfold DBMS_MAX_COMPRESSED_SIZE in Hsz. pose proof (blen_nonneg part.2).
  rewrite wrap_small by (unfold part_block; rewrite blen_block; zlia).
  destruct (decompress_part p part tail dest Ho Hp Ht Hd) as (extra & -> & Hl). by exists extra.
Qed.

Lemma decompress_to_part s part dest :
  has_block s part → blen part.1 + getAdditionalSizeAtTheEndOfBuffer c ≤ blen dest →
  ∃ dest', decompress factory_get dest (blen part.1) (blen (part_block c part)) s = Ret (part.1, dest', s).
Proof.
  intros Hb Hd. unfold decompress. rewrite (readHeaderAndGetCodec_part _ _ Hb). cbn [mbind outcome_bind].
  destruct Hb as (Hp & p & tail & -> & -> & Ho & Ht & _). pose proof (part_compressed_size _ _ Hp) as Hsz.
  unfold DBMS_MAX_COMPRESSED_SIZE in Hsz. pose proof (blen_nonneg part.2).
  assert (blen (part_block c part) = 9 + blen part.2) as Hl by apply blen_block.
  destruct (isNone (ptr_object p)) eqn:Hn.
  - rewrite Ho in Hn. unfold getHeaderSize, COMPRESSED_BLOCK_HEADER_SIZE.
    rewrite (proj2 (Z.ltb_ge _ _)) by lia. cbn [throw_if mbind outcome_bind].
    destruct (part_header part Hp) as (hd & -> & Hhd & _). rewrite blen_app, <- app_assoc.
    rewrite read_bytes_app by lia. cbn [mbind outcome_bind].
    rewrite (none_part part Hn Hp). by exists dest.
  - rewrite wrap_small by zlia.
    destruct (decompress_part p part tail dest Ho Hp Ht Hd) as (extra & -> & _). cbn [mbind outcome_bind].
    rewrite read_bytes_prefix by done. by exists (part.1 ++ extra).
Qed.

Lemma readCompressedData_part s part rest :
  base_ok s → codec_ready s → part_ok c part →
  ReadBuffer.remaining (compressed_in s) = frame c part ++ rest →
  ∃ s' n, readCompressedData factory_get false s =
      Ret (Some (n, blen part.1, blen (part_block c part)), s') ∧
    base_ok s' ∧ codec_ready s' ∧ has_block s' part ∧ ReadBuffer.remaining (compressed_in s') = rest.
Proof.
  intros Hok Hr Hp Hrem. pose proof (readCompressedData_next_block false s Hok) as Hrd. rewrite Hrem in Hrd.
  destruct (next_block_frame s part rest Hok Hr Hp) as (p & Hn & Ho & Hch). rewrite Hn in Hrd.
  destruct Hrd as (cin' & own & tail & -> & Hok' & Hrem' & Ht & _).
  do 2 eexists. split; [done|]. split; [done|]. split; [by intros ? [= <-]|]. split; [|done].
  split; [done|]. by exists p, tail.
Qed.

(** ** The stream of a reader *)

(** The [ReadBuffer] that a [CompressedReadBuffer] with the blocks of [parts] still to
    come amounts to. *)
Definition as_ReadBuffer (s : CompressedReadBuffer.t) (parts : list (bytes * bytes)) : ReadBuffer.t :=
  ReadBuffer.mk (CompressedReadBuffer.working s) (CompressedReadBuffer.pos s)
    (CompressedReadBuffer.count_bytes s) ((λ part, (part.1, 0)) <$> parts).

Record reads (s : CompressedReadBuffer.t) (parts : list (bytes * bytes)) : Prop := {
  reads_base : base_ok (CompressedReadBuffer.base s);
  reads_codec : codec_ready (CompressedReadBuffer.base s);
  reads_parts : Forall (part_ok c) parts;
  reads_rest : ReadBuffer.remaining (compressed_in (CompressedReadBuffer.base s)) = frames c parts;
  reads_working : is_bytes (CompressedReadBuffer.working s);
  reads_pos : 0 ≤ CompressedReadBuffer.pos s ≤ blen (CompressedReadBuffer.working s);
}.

Lemma as_ReadBuffer_wf s parts : reads s parts → ReadBuffer.wf (as_ReadBuffer s parts).
Proof.
  intros [_ _ Hps _ Hw Hp]. split; simpl; [done|done|]. apply Forall_fmap.
  eapply Forall_impl; [|exact Hps]. intros part [? ? _ _ _]. split; simpl; [done|lia].
Qed.

Lemma frames_length parts : (length parts ≤ length (frames c parts))%nat.
Proof.
  induction parts as [|part parts IH]; [done|].
  change (frames c (part :: parts)) with (frame c part ++ frames c parts). unfold frame. rewrite !length_app.
  pose proof (blen_checksum_bytes (part_block c part)). unfold blen in *. simpl. lia.
Qed.

Lemma additional_nonneg : 0 ≤ getAdditionalSizeAtTheEndOfBuffer c.
Proof.
  rewrite <- (like_additional _ _ (Hlike CORRUPTED_DATA)). by apply (factory_additional _ _ CORRUPTED_DATA Hget).
Qed.

Lemma load_block_part s b part n start count :
  has_block b part →
  ∃ memory', CompressedReadBuffer.load_block factory_get s b (blen part.1) (blen (part_block c part)) n start count =
    Ret (CompressedReadBuffer.mk b memory' part.1 start count n).
Proof.
  intros Hb. unfold CompressedReadBuffer.load_block.
  pose proof Hb as (Hp & p & tail & _ & Hc & Ho & _). rewrite Hc, (additional_same p Ho).
  pose proof additional_nonneg. pose proof (part_size _ _ Hp).
  destruct (decompress_to_part b part (CodecBase.resize (blen part.1 + getAdditionalSizeAtTheEndOfBuffer c)
    (CompressedReadBuffer.memory s)) Hb) as (dest' & ->); [rewrite blen_resize; lia|].
  by exists dest'.
Qed.

Lemma nextImpl_part s part parts :
  reads s (part :: parts) →
  ∃ b memory' n, CompressedReadBuffer.nextImpl factory_get s =
    Ret (true, CompressedReadBuffer.mk b memory' part.1 (CompressedReadBuffer.pos s)
                 (CompressedReadBuffer.count_bytes s) n) ∧
    base_ok b ∧ codec_ready b ∧ ReadBuffer.remaining (compressed_in b) = frames c parts.
Proof.
  intros [Hb Hr Hps Hrem _ _]. inversion_clear Hps.
  destruct (readCompressedData_part _ part (frames c parts) Hb Hr ltac:(done) Hrem)
    as (b & n & Hrd & Hb' & Hr' & Hhas & Hrem').
  unfold CompressedReadBuffer.nextImpl. rewrite Hrd. cbn [mbind outcome_bind].
  edestruct (load_block_part s b part n) as (memory' & ->); [done|]. by exists b, memory', n.
Qed.

Lemma nextImpl_end s :
  reads s [] →
  ∃ cin', CompressedReadBuffer.nextImpl factory_get s =
    Ret (false, CompressedReadBuffer.mk (set_in (CompressedReadBuffer.base s) cin') (CompressedReadBuffer.memory s)
      (CompressedReadBuffer.working s) (CompressedReadBuffer.pos s) (CompressedReadBuffer.count_bytes s) 0) ∧
    base_ok (set_in (CompressedReadBuffer.base s) cin') ∧ ReadBuffer.remaining cin' = [].
Proof.
  intros [Hb Hr _ Hrem _ _]. unfold CompressedReadBuffer.nextImpl.
  pose proof (readCompressedData_next_block false _ Hb) as Hrd. rewrite Hrem in Hrd. simpl in Hrd.
  destruct Hrd as (cin' & -> & Hb' & Hrem'). by exists cin'.
Qed.

Lemma eof_simulated s parts b rb' :
  reads s parts → ReadBuffer.eof (as_ReadBuffer s parts) = (b, rb') →
  ∃ s' parts', CompressedReadBuffer.eof factory_get s = Ret (b, s') ∧ reads s' parts' ∧
    rb' = as_ReadBuffer s' parts'.
Proof.
  intros Hs. unfold ReadBuffer.eof, CompressedReadBuffer.eof, ReadBuffer.hasPendingData.
  change (ReadBuffer.available (as_ReadBuffer s parts)) with (CompressedReadBuffer.available s).
  destruct (0 <? CompressedReadBuffer.available s); [intros [= <- <-]; by exists s, parts|].
  unfold ReadBuffer.next, CompressedReadBuffer.next. destruct parts as [|part parts]; simpl.
  - intros [= <- <-]. destruct (nextImpl_end s Hs) as (cin' & -> & Hb' & Hrem'). cbn [mbind outcome_bind].
    eexists _, []. split; [done|]. split; [|done]. destruct Hs. split; try done; simpl; blia.
  - intros [= <- <-]. destruct (nextImpl_part s part parts Hs) as (b & memory' & n & -> & Hb' & Hr' & Hrem').
    cbn [mbind outcome_bind]. eexists _, parts. split; [done|]. rewrite Z.min_l by apply blen_nonneg.
    split; [|done]. destruct Hs as [_ _ Hps _ _ _]. inversion_clear Hps as [|? ? [? ? _ _ _] ?].
    split; simpl; try done. blia.
Qed.

Lemma read_loop_simulated fuel copied n s parts bs rb' :
  reads s parts → ReadBuffer.read_loop fuel copied n (as_ReadBuffer s parts) = Ret (bs, rb') →
  ∃ s' parts', CompressedReadBuffer.read_loop factory_get fuel copied n s = Ret (bs, s') ∧
    reads s' parts' ∧ rb' = as_ReadBuffer s' parts'.
Proof.
  revert copied s parts. induction fuel as [|fuel IH]; intros copied s parts Hs; simpl;
    (destruct (blen copied <? n); [|intros [= <- <-]; by exists s, parts]);
    destruct (ReadBuffer.eof (as_ReadBuffer s parts)) as [b rb1] eqn:Heof;
    destruct (eof_simulated s parts b rb1 Hs Heof) as (s1 & parts1 & -> & Hs1 & ->);
    cbn [mbind outcome_bind]; (destruct b; [intros [= <- <-]; by exists s1, parts1|]); [done|].
  change (ReadBuffer.available (as_ReadBuffer s1 parts1)) with (CompressedReadBuffer.available s1).
  set (k := Z.min _ _). simpl. destruct (read_bytes _ _ k) as [cs| | |] eqn:Hrd; try done. simpl.
  apply (IH _ (CompressedReadBuffer.advance s1 k) parts1).
  destruct Hs1 as [? ? ? ? ? Hp]. split; try done. simpl. unfold read_bytes in Hrd.
  destruct (Z.leb_spec 0 (CompressedReadBuffer.pos s1)), (Z.leb_spec 0 k),
    (Z.leb_spec (CompressedReadBuffer.pos s1 + k) (blen (CompressedReadBuffer.working s1))); try done. lia.
Qed.

(** The decompressed bytes a reader has still to deliver. *)
Definition data_left (s : CompressedReadBuffer.t) (parts : list (bytes * bytes)) : bytes :=
  drop (Z.to_nat (CompressedReadBuffer.pos s)) (CompressedReadBuffer.working s) ++ sources parts.

Lemma data_left_remaining s parts : ReadBuffer.remaining (as_ReadBuffer s parts) = data_left s parts.
Proof.
  unfold ReadBuffer.remaining, data_left, sources. simpl. f_equal. f_equal.
  rewrite <- list_fmap_compose. by apply list_fmap_ext.
Qed.

Lemma read_parts n s parts :
  reads s parts → 0 ≤ n →
  ∃ s' parts', CompressedReadBuffer.read factory_get n s = Ret (take (Z.to_nat n) (data_left s parts), s') ∧
    reads s' parts' ∧ data_left s' parts' = drop (Z.to_nat n) (data_left s parts).
Proof.
  intros Hs Hn. unfold CompressedReadBuffer.read.
  destruct (ReadBuffer.read_loop_spec (CompressedReadBuffer.loop_fuel s) [] n (as_ReadBuffer s parts))
    as (rb' & Hr & _ & Hrem).
  - by apply as_ReadBuffer_wf.
  - done.
  - intros _. unfold CompressedReadBuffer.loop_fuel. rewrite (reads_rest _ _ Hs). simpl. rewrite length_fmap.
    pose proof (frames_length parts). destruct (ReadBuffer.hasPendingData _); lia.
  - rewrite blen_nil, Z.sub_0_r, data_left_remaining in *. rewrite app_nil_l in Hr.
    destruct (read_loop_simulated _ _ _ _ _ _ _ Hs Hr) as (s' & parts' & -> & Hs' & ->).
    exists s', parts'. by rewrite <- (data_left_remaining s').
Qed.

(** A reader with nothing in its buffer. *)
Lemma data_left_drained s parts :
  reads s parts → CompressedReadBuffer.available s = 0 → data_left s parts = sources parts.
Proof.
  unfold CompressedReadBuffer.available, data_left. intros [_ _ _ _ _ Hp] Ha.
  rewrite drop_ge; [done|]. unfold blen in *. lia.
Qed.

(** The state with another base, and the counters changed. *)
Lemma reads_with_base s b parts m count n :
  reads s parts → ∀ parts', base_ok b → codec_ready b → Forall (part_ok c) parts' →
  ReadBuffer.remaining (compressed_in b) = frames c parts' →
  reads (CompressedReadBuffer.mk b m (CompressedReadBuffer.working s) (CompressedReadBuffer.pos s) count n) parts'.
Proof. intros [] parts' ????. by split. Qed.

Lemma read_into to got old n s parts :
  reads s parts → to = got ++ old → 0 ≤ n ≤ blen old →
  ∃ extra s' parts',
    ('(bs, s) ← CompressedReadBuffer.read factory_get n s;
     to ← write_bytes to (blen got) bs;
     Ret (to, blen got + blen bs, s)) =
      Ret (got ++ take (Z.to_nat n) (data_left s parts) ++ extra,
           blen got + blen (take (Z.to_nat n) (data_left s parts)), s') ∧
    blen (got ++ take (Z.to_nat n) (data_left s parts) ++ extra) = blen to ∧
    reads s' parts' ∧ data_left s' parts' = drop (Z.to_nat n) (data_left s parts).
Proof.
  intros Hs -> Hn. destruct (read_parts n s parts Hs) as (s' & parts' & -> & Hs' & Hd); [lia|].
  cbn [mbind outcome_bind]. set (bs := take _ _). assert (blen bs ≤ n) by (unfold bs; rewrite blen_take; lia).
  destruct (split_at old (blen bs)) as (o1 & o2 & -> & Ho1); [pose proof (blen_nonneg bs); lia|].
  rewrite write_bytes_app by done. exists o2, s', parts'. split_and!; [done|blia|done|done].
Qed.

(** [readBig]. *)
Lemma readBig_loop_parts fuel to got old n s parts :
  reads s parts → (length parts < fuel)%nat → to = got ++ old → blen got ≤ n ≤ blen to →
  (blen got < n → CompressedReadBuffer.available s = 0) →
  ∃ extra s' parts', let bs := take (Z.to_nat (n - blen got)) (data_left s parts) in
    CompressedReadBuffer.readBig_loop factory_get fuel to (blen got) n s =
      Ret (got ++ bs ++ extra, blen got + blen bs, s') ∧
    blen (got ++ bs ++ extra) = blen to ∧
    reads s' parts' ∧ data_left s' parts' = drop (Z.to_nat (n - blen got)) (data_left s parts).
Proof.
  revert to got old s parts. induction fuel as [|fuel IH]; intros to got old s parts Hs Hf -> Hn Hav; [lia|].
  simpl. destruct (Z.ltb_spec (blen got) n) as [Hlt|Hge].
  2: { exists old, s, parts. replace (n - blen got) with 0 by lia. simpl.
       by rewrite drop_0, Z.add_0_r. }
  rewrite (data_left_drained s parts Hs (Hav Hlt)). rewrite blen_app in Hn.
  pose proof Hs as [Hb Hr Hps Hrem _ _].
  destruct parts as [|part parts].
  { pose proof (readCompressedData_next_block false _ Hb) as Hrd. rewrite Hrem in Hrd. simpl in Hrd.
    destruct Hrd as (cin' & -> & Hb' & Hrem'). cbn [mbind outcome_bind].
    change (sources []) with (@nil Z). eexists old, _, []. rewrite take_nil, drop_nil. split; [by rewrite blen_nil, Z.add_0_r|].
    split; [done|]. split; [by apply (reads_with_base s _ [])|]. unfold data_left. simpl. rewrite drop_ge; [done|].
    specialize (Hav Hlt). unfold CompressedReadBuffer.available, blen in Hav. lia. }
  inversion_clear Hps as [|? ? Hp Hps'].
  destruct (readCompressedData_part _ part (frames c parts) Hb Hr Hp Hrem) as (b & k & -> & Hb' & Hr' & Hhas & Hrem').
  cbn [mbind outcome_bind]. pose proof Hhas as (_ & p & tail & _ & Hc & Ho & _). rewrite Hc, (additional_same p Ho).
  pose proof additional_nonneg. pose proof (part_size _ _ Hp).
  change (sources (part :: parts)) with (part.1 ++ sources parts).
  destruct (Z.leb_spec (blen part.1 + getAdditionalSizeAtTheEndOfBuffer c) (n - blen got)).
  - destruct (decompressTo_part b part old Hhas) as (extra & Hd & Hl); [lia|].
    rewrite (on_tail_app got old (blen got) _ _ _ eq_refl Hd). cbn [mbind outcome_bind].
    rewrite (assoc_L (++)), <- blen_app.
    destruct (IH ((got ++ part.1) ++ extra) (got ++ part.1) extra _ parts
      (reads_with_base s b _ (CompressedReadBuffer.memory s) (u64 (CompressedReadBuffer.count_bytes s + blen part.1))
         (CompressedReadBuffer.size_compressed s) Hs parts Hb' Hr' Hps' Hrem')) as (extra' & s' & parts' & HIH);
      [simpl in Hf; lia|done|rewrite !blen_app in *; lia|intros _; apply Hav; lia|].
    rewrite data_left_drained in HIH;
      [|by apply (reads_with_base s b (part :: parts))|by apply Hav].
    cbn zeta in HIH. exists extra', s', parts'.
    replace (Z.to_nat (n - blen got)) with (length part.1 + Z.to_nat (n - blen (got ++ part.1)))%nat
      by (rewrite blen_app; unfold blen in *; lia).
    rewrite take_app_add, drop_app_add. set (m := Z.to_nat (n - blen (got ++ part.1))) in *.
    destruct HIH as (H1' & H2' & H3' & H4'). rewrite H1'. split_and!; [|rewrite blen_app in *; blia|done|done].
    rewrite <- !app_assoc. do 3 f_equal. rewrite !blen_app. lia.
  - match goal with |- context [CompressedReadBuffer.load_block _ ?s0 b _ _ ?n0 ?st ?co] =>
      destruct (load_block_part s0 b part n0 st co Hhas) as (memory' & ->) end.
    cbn [mbind outcome_bind].
    match goal with |- context [CompressedReadBuffer.read _ _ ?s1] => assert (reads s1 parts) as Hs1 end.
    { split; simpl; try done; [by destruct Hp|lia]. }
    destruct (read_into (got ++ old) got old (n - blen got) _ _ Hs1) as (extra & s' & parts' & Hrd & Hl & Hs' & Hd);
      [done|lia|].
    exists extra, s', parts'. cbn zeta. rewrite Hrd. by split_and!.
Qed.

(** A read of what is in the buffer does not go further. *)
Lemma read_drains s parts k :
  reads s parts → 0 < k → k = CompressedReadBuffer.available s →
  CompressedReadBuffer.read factory_get k s =
    Ret (drop (Z.to_nat (CompressedReadBuffer.pos s)) (CompressedReadBuffer.working s),
         CompressedReadBuffer.advance s k).
Proof.
  intros Hs Hk ->. pose proof (reads_pos _ _ Hs) as Hp. unfold CompressedReadBuffer.read, CompressedReadBuffer.loop_fuel.
  cbn [CompressedReadBuffer.read_loop]. rewrite blen_nil, (proj2 (Z.ltb_lt _ _) Hk).
  unfold CompressedReadBuffer.eof. rewrite (proj2 (Z.ltb_lt _ _) Hk). cbn [mbind outcome_bind].
  rewrite Z.sub_0_r, Z.min_id. unfold CompressedReadBuffer.available in *.
  destruct (split_at (CompressedReadBuffer.working s) (CompressedReadBuffer.pos s)) as (w1 & w2 & Hw & Hw1); [lia|].
  rewrite Hw, <- Hw1, read_bytes_suffix by blia. cbn [mbind outcome_bind].
  rewrite to_nat_blen, drop_app_length, app_nil_l.
  destruct (length _); cbn [CompressedReadBuffer.read_loop]; rewrite (proj2 (Z.ltb_ge _ _)) by blia; done.
Qed.

Lemma readBig_parts to n s parts :
  reads s parts → 0 ≤ n ≤ blen to →
  ∃ extra s' parts', let bs := take (Z.to_nat n) (data_left s parts) in
    CompressedReadBuffer.readBig factory_get to n s = Ret (bs ++ extra, blen bs, s') ∧
    reads s' parts' ∧ data_left s' parts' = drop (Z.to_nat n) (data_left s parts).
Proof.
  intros Hs Hn. pose proof (reads_pos _ _ Hs) as Hp. unfold CompressedReadBuffer.readBig.
  assert (∀ s parts, reads s parts → (length parts < CompressedReadBuffer.loop_fuel s)%nat) as Hfuel.
  { intros s1 parts1 Hs1. unfold CompressedReadBuffer.loop_fuel. rewrite (reads_rest _ _ Hs1).
    pose proof (frames_length parts1). lia. }
  destruct (Z.ltb_spec (CompressedReadBuffer.pos s) (blen (CompressedReadBuffer.working s))) as [Hlt|Hge].
  - set (k := Z.min (CompressedReadBuffer.available s) n).
    assert (0 ≤ k ≤ n ∧ k ≤ CompressedReadBuffer.available s) as [Hk Hka] by (unfold k, CompressedReadBuffer.available; lia).
    destruct (read_parts k s parts Hs) as (s1 & parts1 & Hrd & Hs1 & Hd1); [lia|].
    rewrite Hrd. cbn [mbind outcome_bind]. set (got := take (Z.to_nat k) (data_left s parts)) in *.
    assert (blen got = k) as Hgot.
    { unfold got, data_left. rewrite blen_take, blen_app, blen_drop. unfold CompressedReadBuffer.available in Hka.
      pose proof (blen_nonneg (sources parts)). lia. }
    destruct (split_at to k) as (o1 & o2 & -> & Ho1); [lia|]. rewrite blen_app in Hn.
    replace (write_bytes (o1 ++ o2) 0 got) with (Ret (got ++ o2))
      by (symmetry; apply (write_bytes_app [] o1); [done|lia]).
    cbn [mbind outcome_bind].
    destruct (readBig_loop_parts (CompressedReadBuffer.loop_fuel s1) (got ++ o2) got o2 n s1 parts1 Hs1)
      as (extra & s' & parts' & Hr & _ & Hs' & Hd); [by apply Hfuel|done|blia| |].
    { intros Hlt'. assert (k = CompressedReadBuffer.available s) as Hka' by lia.
      rewrite (read_drains s parts k Hs) in Hrd by (unfold CompressedReadBuffer.available in *; lia).
      injection Hrd as _ <-. unfold CompressedReadBuffer.available in *. simpl. lia. }
    exists extra, s', parts'. cbn zeta. rewrite Hr, Hgot, Hd1. rewrite Hd, Hgot, Hd1, drop_drop.
    replace (Z.to_nat k + Z.to_nat (n - k))%nat with (Z.to_nat n) by lia.
    split_and!; [|done|done].
    assert (got ++ take (Z.to_nat (n - k)) (drop (Z.to_nat k) (data_left s parts)) = take (Z.to_nat n) (data_left s parts)) as Heq.
    { unfold got. rewrite take_take_drop. f_equal. lia. }
    rewrite (assoc_L (++)), Heq, <- Heq, !blen_app, Hgot. done.
  - cbn [mbind outcome_bind].
    destruct (readBig_loop_parts (CompressedReadBuffer.loop_fuel s) to [] to n s parts Hs)
      as (extra & s' & parts' & Hr & _ & Hs' & Hd); [by apply Hfuel|done|done| |].
    { intros _. unfold CompressedReadBuffer.available. lia. }
    exists extra, s', parts'. rewrite blen_nil, Z.sub_0_r in *. by split_and!.
Qed.
End parts.
End reading.
