(* ===== verification/CompressedStreams.v ===== *)
(** What the readers and the writer of compressed streams guarantee: the round trip of
    a stream, the independence of the reader from the way its input is buffered, the
    detection of corrupted blocks, and that no input makes the reader touch memory out
    of bounds or run forever. *)

From S2P Require Import Prelude Buffers CodecBase CodecObject CompressedBuffers.
From stdpp Require Import base tactics list numbers.
Local Open Scope Z_scope.

(** * Reading in pieces *)

(** Calls of [read(to, n)] and [readBig(to, n)] in any order, and what they return. *)
Inductive call := call_read (n : Z) | call_readBig (n : Z).
Definition call_size (k : call) : Z := match k with call_read n | call_readBig n => n end.

Section calls.
Context `{FreshMemory} `{CityHash} (factory_get : Z → outcome ICompressionCodec).

Definition do_call (k : call) (s : CompressedReadBuffer.t) : outcome (bytes * CompressedReadBuffer.t) :=
  match k with
  | call_read n => CompressedReadBuffer.read factory_get n s
  | call_readBig n =>
      '(to, bytes_read, s) ← CompressedReadBuffer.readBig factory_get (CodecBase.fresh (Z.to_nat n)) n s;
      bs ← read_bytes to 0 bytes_read;
      Ret (bs, s)
  end.

Fixpoint do_calls (calls : list call) (s : CompressedReadBuffer.t) : outcome (list bytes) :=
  match calls with
  | [] => Ret []
  | k :: calls =>
      '(bs, s) ← do_call k s;
      bss ← do_calls calls s;
      Ret (bs :: bss)
  end.
End calls.

(** The consecutive pieces of [data] of the given sizes, the last ones shorter. *)
Fixpoint pieces (ns : list Z) (data : bytes) : list bytes :=
  match ns with
  | [] => []
  | n :: ns => take (Z.to_nat n) data :: pieces ns (drop (Z.to_nat n) data)
  end.

Section roundtrip.
Context `{FreshMemory} `{CityHashRange} (factory_get : Z → outcome ICompressionCodec) `{!FactoryOk factory_get}.
Context (c : codec) (o : ICompressionCodec).
Context (Hget : factory_get (getMethodByte c) = Ret o).
Context (Hlike : ∀ ec, decodes_like (codec_of o ec) c).

Lemma do_call_parts k s parts :
  reads factory_get c o s parts → 0 ≤ call_size k →
  ∃ s' parts', do_call factory_get k s = Ret (take (Z.to_nat (call_size k)) (data_left s parts), s') ∧
    reads factory_get c o s' parts' ∧
    data_left s' parts' = drop (Z.to_nat (call_size k)) (data_left s parts).
Proof.
  intros Hs Hn. destruct k as [n|n]; simpl in *.
  - by apply (read_parts factory_get c o Hget Hlike).
  - destruct (readBig_parts factory_get c o Hget Hlike (CodecBase.fresh (Z.to_nat n)) n s parts Hs)
      as (extra & s' & parts' & -> & Hs' & Hd); [unfold blen; rewrite fresh_length; lia|].
    cbn [mbind outcome_bind]. rewrite read_bytes_prefix by done. by exists s', parts'.
Qed.

Lemma do_calls_parts calls s parts :
  reads factory_get c o s parts → Forall (λ k, 0 ≤ call_size k) calls →
  do_calls factory_get calls s = Ret (pieces (call_size <$> calls) (data_left s parts)).
Proof.
  intros Hs Hc. revert s parts Hs. induction Hc as [|k calls Hk _ IH]; intros s parts Hs; simpl; [done|].
  destruct (do_call_parts k s parts Hs Hk) as (s' & parts' & -> & Hs' & <-). cbn [mbind outcome_bind].
  by rewrite (IH s' parts' Hs').
Qed.

Lemma reads_create cin allow external parts :
  ReadBuffer.wf cin → ReadBuffer.contiguous cin → Forall (part_ok c) parts →
  ReadBuffer.remaining cin = frames c parts →
  reads factory_get c o (CompressedReadBuffer.create cin allow external) parts ∧
  data_left (CompressedReadBuffer.create cin allow external) parts = sources parts.
Proof. intros. split; [|done]. split; simpl; try done. Qed.
End roundtrip.

(** C1: data written through a [CompressedWriteBuffer], with any buffer size and any
    sequence of writes, over a buffer [wb] of any size, is read back by a
    [CompressedReadBuffer]: when the writes and [finalize] return, the bytes added to
    [wb] are a compressed stream such that, however the buffers of the reader's input
    cut it, as long as they are windows of one stream ([ReadBuffer.contiguous]), and with
    any sequence of calls of [read] and [readBig] of any sizes, the calls return the
    consecutive pieces of the written data. The writer has no
    undefined behaviour. The codec is any that takes every source up to the size of
    the buffer, and the factory makes from its method byte one that undoes it. *)
Theorem compressed_stream_roundtrip `{FreshMemory} `{CityHashRange} {Sk : Type} `{WriteBuffer.Sink Sk}
    (factory_get : Z → outcome ICompressionCodec) `{!FactoryOk factory_get}
    (c : codec) (max_source : Z) `{!StreamCodec c max_source} (o : ICompressionCodec)
    (wb : WriteBuffer.t Sk) (before : bytes) (buf_size : nat) (datas : list bytes) :
  factory_get (getMethodByte c) = Ret o → (∀ ec, decodes_like (codec_of o ec) c) →
  WriteBuffer.writes wb before → 0 < Z.of_nat buf_size ≤ max_source → Forall is_bytes datas →
  match WriteBuffer.write_all datas (CompressedWriteBuffer.create wb c buf_size) with
  | (Ret _, cwb) =>
      match WriteBuffer.finalize cwb with
      | (Ret _, cwb') => ∃ compressed,
          WriteBuffer.writes (CompressedWriteBuffer.out (WriteBuffer.wb_sink cwb')) (before ++ compressed) ∧
          ∀ cin allow_different_codecs external_data calls,
            ReadBuffer.wf cin → ReadBuffer.contiguous cin → ReadBuffer.remaining cin = compressed →
            Forall (λ k, 0 ≤ call_size k) calls →
            do_calls factory_get calls (CompressedReadBuffer.create cin allow_different_codecs external_data) =
              Ret (pieces (call_size <$> calls) (concat datas))
      | (Throw _, _) => True
      | _ => False
      end
  | (Throw _, _) => True
  | _ => False
  end.
Proof.
  intros Hget Hlike Hwb Hsize Hd.
  set (Sink' := compressed_sink c max_source before).
  assert (@WriteBuffer.writes _ _ Sink' (CompressedWriteBuffer.create wb c buf_size) []) as Hw.
  { apply WriteBuffer.create_writes; [done|]. split; [done|]. exists []. by rewrite app_nil_r. }
  pose proof (@WriteBuffer.write_all_spec _ _ Sink' datas _ [] Hw eq_refl Hd) as Hall.
  destruct (WriteBuffer.write_all datas _) as [[] cwb]; try done.
  destruct Hall as (Hw1 & Hf & Hc). pose proof (@WriteBuffer.finalize_spec _ _ Sink' cwb _ Hw1 Hf Hc) as Hfin.
  destruct (WriteBuffer.finalize cwb) as [[] cwb']; try done.
  destruct Hfin as [(_ & parts & Hps & Hsrc & Hout) _]. exists (frames c parts). split; [done|].
  intros cin allow external calls Hwf Hu Hrem Hcalls.
  destruct (reads_create factory_get c o cin allow external parts Hwf Hu Hps Hrem) as [Hr Hdl].
  rewrite (do_calls_parts factory_get c o Hget Hlike calls _ parts Hr Hcalls), Hdl, <- Hsrc. done.
Qed.

(** ** A concrete instance *)

(** A stand-in for the hash, and a factory of the codec NONE alone. *)
#[local] Instance sum_hash : CityHash := λ bs, (wrap 8 (foldr Z.add 0 bs), wrap 8 (blen bs)).
#[local] Instance sum_hash_range : CityHashRange.
Proof. intros bs. split; apply (wrap_in_width 8). Qed.

#[local, refine] Instance zero_fill : FreshMemory := {| CodecBase.fresh n := replicate n 0 |}.
Proof.
  - intros n. apply length_replicate.
  - intros n. apply Forall_replicate. unfold is_byte. lia.
Defined.

Definition none_factory (m : Z) : outcome ICompressionCodec :=
  if m =? method_byte NONE then Ret None_object else Throw UNKNOWN_CODEC.

#[local] Instance none_factory_ok : FactoryOk none_factory.
Proof.
  split; unfold none_factory; intros m o; intros; destruct (Z.eqb_spec m (method_byte NONE)); by simplify_eq.
Qed.

#[local, refine] Instance none_stream ec : StreamCodec (CompressionCodecNone ec) 1000 := {| stream_valid _ := True |}.
Proof. all: simpl; unfold DBMS_MAX_COMPRESSED_SIZE; intros; done || lia. Qed.

Lemma compressed_stream_roundtrip_witness :
  let cwb := CompressedWriteBuffer.create (WriteBuffer.create 30 (WriteBuffer.File [] 1000))
               (CompressionCodecNone CORRUPTED_DATA) 3 in
  ∃ cwb1 cwb2 compressed,
    WriteBuffer.write_all [[1; 2; 3; 4]; [5]] cwb = (Ret tt, cwb1) ∧ WriteBuffer.finalize cwb1 = (Ret tt, cwb2) ∧
    do_calls none_factory [call_read 2; call_readBig 2; call_read 7]
      (CompressedReadBuffer.create (ReadBuffer.from_memory compressed) false false) =
      Ret [[1; 2]; [3; 4]; [5]].
Proof.
  intros cwb.
  pose proof (compressed_stream_roundtrip none_factory (CompressionCodecNone CORRUPTED_DATA) 1000 None_object
    (WriteBuffer.create 30 (WriteBuffer.File [] 1000)) [] 3 [[1; 2; 3; 4]; [5]] eq_refl) as Hrt.
  fold cwb in Hrt.
  destruct (WriteBuffer.write_all _ cwb) as [r1 cwb1] eqn:E1. vm_compute in E1. injection E1 as <- <-.
  destruct (WriteBuffer.finalize _) as [r2 cwb2] eqn:E2. vm_compute in E2. injection E2 as <- <-.
  destruct Hrt as (compressed & [_ _ _ (held & <- & Hc)] & Hrd).
  - intros ec. apply None_like.
  - by apply WriteBuffer.create_writes.
  - lia.
  - repeat constructor; cbv; congruence.
  - vm_compute in Hc. subst compressed. do 3 eexists. split; [reflexivity|]. split; [vm_compute; reflexivity|].
    apply Hrd; [|by apply ReadBuffer.unshifted_contiguous|apply ReadBuffer.remaining_from_memory|repeat constructor; simpl; lia].
    apply ReadBuffer.wf_from_memory, is_bytes_compute. vm_compute. reflexivity.
Defined.

(** * Checksums *)

Section checksums.
Import CompressedReadBufferBase.
Context `{CityHash}.

(** [data] with the bit at [pos] inverted. *)
Definition flipped (data : bytes) (pos : Z) : bytes :=
  alter (λ b, Z.lxor b (2 ^ (pos mod 8))) (Z.to_nat (pos / 8)) data.

Lemma bit_byte pos : 0 ≤ pos → 0 ≤ 2 ^ (pos mod 8) < 2 ^ 8.
Proof.
  intros. pose proof (Z.mod_pos_bound pos 8 ltac:(lia)). split; [apply Z.pow_nonneg; lia|].
  apply Z.pow_lt_mono_r; lia.
Qed.

Lemma flip_bit_flipped data pos :
  is_bytes data → 0 ≤ pos < 8 * blen data → flip_bit data pos = Ret (flipped data pos).
Proof.
  intros Hb Hp. assert (0 ≤ pos / 8 < blen data) as Hi.
  { split; [apply Z.div_pos; lia|apply Z.div_lt_upper_bound; lia]. }
  destruct (split_at data (pos / 8)) as (d1 & d2 & -> & Hd1); [lia|].
  destruct d2 as [|b d2]; [rewrite app_nil_r in *; lia|]. apply Forall_app in Hb as [_ Hb]. inversion_clear Hb.
  unfold flip_bit. change (b :: d2) with ([b] ++ d2). rewrite load_app by done. cbn [mbind outcome_bind].
  rewrite write_bytes_app by done. unfold flipped. f_equal.
  rewrite <- Hd1, to_nat_blen. change (d1 ++ [b] ++ d2) with (d1 ++ b :: d2).
  replace (length d1) with (length d1 + 0)%nat by lia. rewrite alter_app_r. simpl. do 2 f_equal.
  rewrite Z.add_0_r, Z.shiftl_1_l. pose proof (bit_byte pos ltac:(lia)).
  apply wrap_small, lxor_range; [lia| |done]. unfold is_byte in *. zlia.
Qed.

Lemma flipped_flipped data pos : flipped (flipped data pos) pos = data.
Proof.
  unfold flipped. rewrite list_alter_alter_eq. apply list_alter_id. intros b. simpl.
  by rewrite Z.lxor_assoc, Z.lxor_nilpotent, Z.lxor_0_r.
Qed.

Lemma flipped_bytes data pos : 0 ≤ pos → is_bytes data → is_bytes (flipped data pos).
Proof.
  intros Hp Hb. apply Forall_alter; [done|]. intros b _ Hbb. pose proof (bit_byte pos Hp).
  apply (lxor_range b _ 8); unfold is_byte in *; zlia.
Qed.

Lemma blen_flipped data pos : blen (flipped data pos) = blen data.
Proof. unfold blen, flipped. by rewrite length_alter. Qed.

(** The loop finds the first position that explains the mismatch. *)
Lemma find_flip_spec n pos data expected :
  is_bytes data → 0 ≤ pos → pos + Z.of_nat n = 8 * blen data →
  (∃ p, find_flip n pos data expected = Ret (Some p) ∧ pos ≤ p < 8 * blen data ∧
     CityHash128 (flipped data p) = expected ∧ ∀ q, pos ≤ q < p → CityHash128 (flipped data q) ≠ expected) ∨
  (find_flip n pos data expected = Ret None ∧
     ∀ q, pos ≤ q < 8 * blen data → CityHash128 (flipped data q) ≠ expected).
Proof.
  revert pos. induction n as [|n IH]; intros pos Hb Hp Hn; simpl; [right; split; [done|lia]|].
  rewrite flip_bit_flipped by (done || lia). cbn [mbind outcome_bind].
  destruct (bool_decide_reflect (expected = CityHash128 (flipped data pos))) as [->|Hne].
  { left. exists pos. split_and!; [done|lia|lia|done|lia]. }
  rewrite flip_bit_flipped by (by apply flipped_bytes || (rewrite blen_flipped; lia)). cbn [mbind outcome_bind].
  rewrite flipped_flipped.
  destruct (IH (pos + 1) Hb ltac:(lia) ltac:(lia)) as [(p & Hf & Hr & Hh & Hmin)|[Hf Hnone]].
  - left. exists p. split_and!; [done|lia|lia|done|]. intros q Hq.
    destruct (decide (q = pos)) as [->|]; [done|]. apply Hmin. lia.
  - right. split; [done|]. intros q Hq. destruct (decide (q = pos)) as [->|]; [done|]. apply Hnone. lia.
Qed.

Lemma popcount_bit i : 0 ≤ i < 64 → popcount (2 ^ i) = 1.
Proof.
  intros Hi. assert (forallb (λ n, popcount (2 ^ Z.of_nat n) =? 1) (seq 0 64) = true) as Hall by (vm_compute; done).
  rewrite forallb_forall in Hall. specialize (Hall (Z.to_nat i)). rewrite Z2Nat.id in Hall by lia.
  apply Z.eqb_eq, Hall, in_seq. lia.
Qed.

Lemma lxor_flip x y : Z.lxor (Z.lxor x y) x = y.
Proof. by rewrite (Z.lxor_comm x y), Z.lxor_assoc, Z.lxor_nilpotent, Z.lxor_0_r. Qed.
(** The search for a reason has no effect of its own. *)
Lemma validateChecksum_eq data expected :
  is_bytes data →
  validateChecksum data (blen data) expected =
    if bool_decide (expected = CityHash128 data) then Ret tt else Throw CHECKSUM_DOESNT_MATCH.
Proof.
  intros Hb. unfold validateChecksum. rewrite read_bytes_all. cbn [mbind outcome_bind].
  case_bool_decide; [done|]. unfold find_mismatch_reason. pose proof (blen_nonneg data).
  destruct (blen data <? Z.shiftl 1 20); [|by simpl; case_match].
  destruct (find_flip_spec (Z.to_nat (blen data * 8)) 0 data expected Hb) as [(p & -> & _)|[-> _]];
    [lia|lia|done|by simpl; case_match].
Qed.
End checksums.

(** A block whose checksum does not match is rejected with CHECKSUM_DOESNT_MATCH,
    and the reason put in the message is right: it names a bit of the data exactly when
    inverting that bit, and none before it, gives the stored checksum, so that a single
    inverted bit is always recognised as such, the data being restored after every
    attempt; and when no bit of the data explains the mismatch, a single inverted bit of
    the stored checksum is recognised. *)
Theorem checksum_mismatch_diagnosed `{CityHash} (data : bytes) (expected : Z * Z) :
  is_bytes data → blen data < 2 ^ 20 → expected ≠ CityHash128 data →
  ∃ reason,
    CompressedReadBufferBase.validateChecksum data (blen data) expected = Throw CHECKSUM_DOESNT_MATCH ∧
    CompressedReadBufferBase.find_mismatch_reason data expected (CityHash128 data) = Ret reason ∧
    (∀ p, reason = CompressedReadBufferBase.flip_in_data p ↔
       0 ≤ p < 8 * blen data ∧ CityHash128 (flipped data p) = expected ∧
       ∀ q, 0 ≤ q < p → CityHash128 (flipped data q) ≠ expected) ∧
    (∀ original p, data = flipped original p → 0 ≤ p < 8 * blen data → expected = CityHash128 original →
       ∃ q, q ≤ p ∧ reason = CompressedReadBufferBase.flip_in_data q) ∧
    (∀ i, (∀ q, 0 ≤ q < 8 * blen data → CityHash128 (flipped data q) ≠ expected) → 0 ≤ i < 64 →
       expected = (Z.lxor (CityHash128 data).1 (2 ^ i), (CityHash128 data).2) ∨
       expected = ((CityHash128 data).1, Z.lxor (CityHash128 data).2 (2 ^ i)) →
       reason = CompressedReadBufferBase.flip_in_checksum).
Proof.
  intros Hb Hl Hne. unfold CompressedReadBufferBase.validateChecksum, CompressedReadBufferBase.find_mismatch_reason.
  rewrite read_bytes_all. cbn [mbind outcome_bind]. rewrite bool_decide_false by done.
  change (Z.shiftl 1 20) with (2 ^ 20). rewrite (proj2 (Z.ltb_lt _ _) Hl).
  pose proof (blen_nonneg data).
  destruct (find_flip_spec (Z.to_nat (blen data * 8)) 0 data expected Hb ltac:(lia) ltac:(lia))
    as [(p & -> & Hp & Hh & Hmin)|[-> Hnone]]; cbn [mbind outcome_bind].
  - exists (CompressedReadBufferBase.flip_in_data p). split_and!; [done|done| | |].
    + intros q. split; [by intros [= <-]|]. intros (Hq & Hhq & Hminq). f_equal.
      destruct (Z.lt_trichotomy p q) as [Hlt|[?|Hlt]]; [|done|].
      * exfalso. apply (Hminq p); [lia|done].
      * exfalso. apply (Hmin q); [lia|done].
    + intros original q -> Hq ->. exists p. split; [|done]. apply Z.nlt_ge. intros Hlt.
      apply (Hmin q); [lia|]. by rewrite flipped_flipped.
    + intros i Hnone. exfalso. by apply (Hnone p).
  - match goal with |- context [?a =? 1] => set (difference := a) end.
    assert (∀ r, (∀ p, r ≠ CompressedReadBufferBase.flip_in_data p) → ∀ p,
      r = CompressedReadBufferBase.flip_in_data p ↔ 0 ≤ p < 8 * blen data ∧ CityHash128 (flipped data p) = expected ∧
        ∀ q, 0 ≤ q < p → CityHash128 (flipped data q) ≠ expected) as Hdata.
    { intros r Hr p. split; [intros E; by destruct (Hr p)|]. intros (Hp & Hh & _). by destruct (Hnone p). }
    assert (∀ original p, data = flipped original p → 0 ≤ p < 8 * blen data → expected ≠ CityHash128 original) as Horig.
    { intros original p -> Hp E. apply (Hnone p Hp). by rewrite flipped_flipped. }
    destruct (Z.eqb_spec difference 1) as [Hd|Hd]; eexists; (split_and!; [done|done|by apply Hdata|naive_solver|]);
      [done|].
    intros i _ Hi Hflip. exfalso. apply Hd. unfold difference.
    destruct Hflip as [-> | ->]; simpl; rewrite lxor_flip, Z.lxor_nilpotent, popcount_bit by done; done.
Qed.

Lemma checksum_mismatch_diagnosed_witness :
  ∃ reason,
    CompressedReadBufferBase.find_mismatch_reason [1; 2; 7] (CityHash128 [1; 2; 3]) (CityHash128 [1; 2; 7]) = Ret reason ∧
    reason = CompressedReadBufferBase.flip_in_data 18.
Proof.
  destruct (checksum_mismatch_diagnosed [1; 2; 7] (CityHash128 [1; 2; 3])) as (reason & _ & Hr & Hp & _).
  - by apply is_bytes_compute.
  - done.
  - done.
  - exists reason. split; [exact Hr|]. apply Hp.
    split; [split; [lia|vm_compute; reflexivity]|]. split; [vm_compute; reflexivity|].
    intros q Hq. assert (forallb (λ q, negb (bool_decide
      (CityHash128 (flipped [1; 2; 7] (Z.of_nat q)) = CityHash128 [1; 2; 3]))) (seq 0 18) = true) as Hall
      by (vm_compute; reflexivity).
    rewrite forallb_forall in Hall. specialize (Hall (Z.to_nat q)). rewrite Z2Nat.id in Hall by lia.
    apply (bool_decide_eq_false_1 (CityHash128 (flipped [1; 2; 7] q) = CityHash128 [1; 2; 3])).
    apply negb_true_iff, Hall, in_seq. lia.
Defined.

(** * Arbitrary input *)

Section any_input.
Import CompressedReadBufferBase.
Context `{FreshMemory} `{CityHash} (factory_get : Z → outcome ICompressionCodec) `{!FactoryOk factory_get}.
Context (Hdefined : ∀ m, defined (factory_get m)).
Context (Hsafe : ∀ m o ec, factory_get m = Ret o → CodecSafe (codec_of o ec)).

(** A block whose codec has been chosen from its header. *)
Definition chosen_block (s : t) (p : codec_ptr) (sd : Z) (blk : bytes) : Prop :=
  ∃ header body m, blk = header ++ body ∧ blen header = 9 ∧ is_bytes blk ∧
    blen blk ≤ DBMS_MAX_COMPRESSED_SIZE ∧ 0 < sd < 2 ^ 32 ∧ ptr_ok factory_get p ∧
    readMethod header = Ret m ∧ load 4 header 5 = Ret sd ∧
    choose_codec factory_get m (Some p) (allow_different_codecs s) (external_data s) = Ret p.

Lemma choose_codec_defined m op b1 b2 : defined (choose_codec factory_get m op b1 b2).
Proof.
  unfold choose_codec. specialize (Hdefined m).
  destruct op as [p|]; [destruct (negb _); [destruct b1; [|exact I]|exact I]|]; by destruct (factory_get m).
Qed.

Lemma readHeader_safe header op b1 b2 :
  (∀ p, op = Some p → ptr_ok factory_get p) → is_bytes header → blen header = 9 →
  safe (readHeaderAndGetCodecAndSize factory_get header 9 op b1 b2) (λ r,
    let '(p, sd, size) := r in 9 ≤ size ≤ DBMS_MAX_COMPRESSED_SIZE ∧ 0 < sd < 2 ^ 32 ∧ ptr_ok factory_get p ∧
    load 4 header 5 = Ret sd ∧
    ∃ m, readMethod header = Ret m ∧ choose_codec factory_get m (Some p) b1 b2 = Ret p).
Proof.
  intros Hop Hb Hl. unfold readHeaderAndGetCodecAndSize, readMethod, readCompressedBlockSize, readDecompressedBlockSize.
  destruct (load_safe 1 header 0 Hb) as (m & Hm & _); [lia..|]. rewrite Hm. cbn [mbind outcome_bind].
  destruct (load_safe 4 header 1 Hb) as (size & -> & _); [lia..|].
  destruct (load_safe 4 header 5 Hb) as (sd & Hsd & Hsdr); [lia..|]. rewrite Hsd.
  pose proof (choose_codec_defined m op b1 b2) as Hd.
  destruct (choose_codec factory_get m op b1 b2) as [p| | |] eqn:Hc; try done. cbn [mbind outcome_bind].
  destruct (Z.eqb_spec size 0); [done|]. destruct (Z.eqb_spec sd 0); [done|]. cbn [throw_if mbind outcome_bind].
  destruct (Z.ltb_spec DBMS_MAX_COMPRESSED_SIZE size); [done|]. cbn [throw_if mbind outcome_bind].
  destruct (Z.ltb_spec size 9); [done|]. cbn [throw_if mbind outcome_bind safe].
  destruct (choose_codec_ok factory_get _ _ _ _ _ Hop Hc) as [Hg _].
  split_and!; [lia|lia|lia|zlia|by exists m|done|]. exists m. split; [done|]. by eapply choose_codec_again.
Qed.

Lemma next_block_safe s rest :
  (∀ p, base_codec s = Some p → ptr_ok factory_get p) → is_bytes rest →
  safe (next_block factory_get s rest) (λ r, match r with
    | None => rest = []
    | Some (p, sd, blk, rest') => chosen_block s p sd blk ∧ blen rest = 16 + blen blk + blen rest'
    end).
Proof.
  intros Hop Hb. unfold next_block. destruct (Z.eqb_spec (blen rest) 0) as [E|]; [by apply blen_0_nil|].
  destruct (Z.ltb_spec (blen rest) 25); [done|]. cbn [throw_if mbind outcome_bind].
  eapply safe_bind; [apply readHeader_safe; [done|by apply Forall_take, Forall_drop|blia]|].
  intros [[p sd] size] (Hsize & Hsd & Hp & Hload & m & Hm & Hc).
  destruct (Z.ltb_spec (blen rest) (16 + size)); [done|]. cbn [throw_if mbind outcome_bind].
  set (blk := take (Z.to_nat size) (drop 16 rest)).
  assert (blen blk = size) as Hl by (unfold blk; blia).
  assert (is_bytes blk) as Hbb by (by apply Forall_take, Forall_drop).
  assert (∀ x, defined x → safe x (λ _ : unit, True)) as Hds by (by intros []).
  eapply safe_bind.
  { apply Hds. destruct (disable_checksum s); [done|]. rewrite <- Hl, validateChecksum_eq by done. by case_bool_decide. }
  intros [] _. cbn [safe]. split; [|rewrite Hl; blia].
  exists (take 9 (drop 16 rest)), (drop 9 blk), m.
  split_and!; try done; [|blia|lia|lia|lia].
  rewrite <- (take_drop 9 blk) at 1. f_equal. unfold blk. rewrite take_take. f_equal. lia.
Qed.

(** A state in which such a block has been read. *)
Definition block_loaded (s : t) (p : codec_ptr) (sd : Z) (blk : bytes) : Prop :=
  base_codec s = Some p ∧ chosen_block s p sd blk ∧ ∃ tail, compressed_buffer s = blk ++ tail ∧ is_bytes tail ∧
    getAdditionalSizeAtTheEndOfBuffer (ptr_codec p) ≤ blen tail.

Lemma readHeaderAndGetCodec_loaded s p sd blk :
  block_loaded s p sd blk → readHeaderAndGetCodec factory_get s = Ret s.
Proof.
  intros (Hp & (header & body & m & -> & _ & _ & _ & _ & _ & Hm & _ & Hc) & tail & Hb & _).
  unfold readHeaderAndGetCodec, readMethod in *. rewrite Hb, <- app_assoc, (load_app_l _ _ _ _ _ Hm).
  cbn [mbind outcome_bind]. rewrite Hp, Hc. cbn [mbind outcome_bind]. unfold set_codec. rewrite <- Hp. by destruct s.
Qed.

Lemma codec_decompress_safe s p sd blk to :
  block_loaded s p sd blk → is_bytes to → sd + getAdditionalSizeAtTheEndOfBuffer (ptr_codec p) ≤ blen to →
  safe (CodecBase.decompress (ptr_codec p) (compressed_buffer s) (u32 (blen blk)) to)
    (λ r, blen r.1 = blen to ∧ is_bytes r.1).
Proof.
  intros (_ & (header & body & m & -> & Hhl & Hbb & Hsize & _ & [m' Hp] & _ & Hload & _) & tail & -> & Htb & Hta) Hto Hl.
  pose proof (blen_nonneg (header ++ body)). unfold DBMS_MAX_COMPRESSED_SIZE in Hsize. rewrite wrap_small by zlia.
  pose proof (Hsafe m' (ptr_object p) (ptr_error_code p) Hp) as Hcs.
  apply (decompress_safe (ptr_codec p)).
  - by apply Forall_app.
  - done.
  - zlia.
  - by eapply (factory_additional m').
  - rewrite (blen_app _ tail). lia.
  - intros n. unfold readDecompressedBlockSize. rewrite <- app_assoc, (load_app_l _ _ _ _ _ Hload).
    cbn [mbind outcome_bind]. destruct (sd =? 0); [done|]. by intros [= <-].
Qed.

Lemma decompressTo_safe s p sd blk to :
  block_loaded s p sd blk → is_bytes to → sd + getAdditionalSizeAtTheEndOfBuffer (ptr_codec p) ≤ blen to →
  safe (decompressTo factory_get to (blen blk) s) (λ r, r.2 = s ∧ blen r.1 = blen to ∧ is_bytes r.1).
Proof.
  intros Hb Hto Hl. unfold decompressTo. rewrite (readHeaderAndGetCodec_loaded _ _ _ _ Hb). cbn [mbind outcome_bind].
  pose proof Hb as (-> & _). eapply safe_bind; [by eapply codec_decompress_safe|]. by intros [r n] [? ?].
Qed.

Lemma load_block_safe rs s p sd blk n start count :
  block_loaded s p sd blk → is_bytes (CompressedReadBuffer.memory rs) →
  safe (CompressedReadBuffer.load_block factory_get rs s sd (blen blk) n start count) (λ r,
    CompressedReadBuffer.base r = s ∧ is_bytes (CompressedReadBuffer.memory r) ∧
    is_bytes (CompressedReadBuffer.working r) ∧ CompressedReadBuffer.pos r = start).
Proof.
  intros Hb Hm. unfold CompressedReadBuffer.load_block, decompress.
  rewrite (readHeaderAndGetCodec_loaded _ _ _ _ Hb).
  pose proof Hb as (Hbp & (header & body & m & -> & Hhl & Hbb & _ & Hsd & [m' Hp] & _) & tail & Hcb & Htb & _).
  pose proof (factory_additional _ _ (ptr_error_code p) Hp) as [Hadd _]. fold (ptr_codec p) in Hadd.
  cbn [mbind outcome_bind]. rewrite Hbp. set (mem := CodecBase.resize _ _).
  assert (is_bytes mem) by (by apply resize_bytes).
  assert (blen mem = sd + getAdditionalSizeAtTheEndOfBuffer (ptr_codec p)) by (unfold mem; rewrite blen_resize; lia).
  pose proof (blen_nonneg body).
  destruct (isNone (ptr_object p)).
  - unfold getHeaderSize, COMPRESSED_BLOCK_HEADER_SIZE.
    rewrite (proj2 (Z.ltb_ge _ _)) by blia. cbn [throw_if mbind outcome_bind]. rewrite Hcb, <- app_assoc.
    rewrite read_bytes_app by blia. cbn [mbind outcome_bind safe]. apply Forall_app in Hbb as [_ ?]. simpl. auto.
  - apply (safe_bind _ _ (λ r, r.2 = s ∧ is_bytes r.1.1 ∧ is_bytes r.1.2)).
    + eapply safe_bind; [eapply codec_decompress_safe; [done|done|lia]|].
      intros [mem' k] [Hl Hbm]. cbn [fst] in *. destruct (read_bytes_safe mem' 0 sd) as (w & -> & _ & Hwb); [lia..|].
      cbn [mbind outcome_bind safe]. auto.
    + intros [[w mem'] s'] (Hs' & ? & ?). simpl in *. auto.
Qed.

(** ** The reader *)

Record reader_ok (s : CompressedReadBuffer.t) : Prop := {
  reader_base : base_ok factory_get (CompressedReadBuffer.base s);
  reader_memory : is_bytes (CompressedReadBuffer.memory s);
  reader_working : is_bytes (CompressedReadBuffer.working s);
  reader_pos : 0 ≤ CompressedReadBuffer.pos s ≤ blen (CompressedReadBuffer.working s);
}.

(** The bytes of the input that have not been read. *)
Definition input_left (b : t) : Z := blen (ReadBuffer.remaining (compressed_in b)).

Lemma readCompressedData_safe b :
  base_ok factory_get b →
  safe (readCompressedData factory_get false b) (λ r, base_ok factory_get r.2 ∧ match r.1 with
    | None => input_left r.2 = 0
    | Some (n, sd, size) => input_left r.2 + 25 ≤ input_left b ∧
        ∃ p blk, size = blen blk ∧ block_loaded r.2 p sd blk
    end).
Proof.
  intros Hb. pose proof (readCompressedData_next_block factory_get false b Hb) as Hr.
  destruct Hb as (Hwf & _ & Hop).
  pose proof (next_block_safe b _ Hop (remaining_bytes _ Hwf)) as Hn.
  destruct (next_block factory_get b _) as [[[[[p sd] blk] rest']|]| | |]; try done; [| |by rewrite Hr].
  - destruct Hr as (cin' & own & tail & -> & Hb' & Hrem & Ht & Htb). destruct Hn as [Hc Hl]. split; [done|].
    unfold input_left. simpl. rewrite Hrem, Hl.
    assert (9 ≤ blen blk) by (destruct Hc as (hd & body & _ & -> & Hhd & _); pose proof (blen_nonneg body); blia).
    split; [lia|]. exists p, blk. split; [done|]. split; [done|]. split; [done|]. by exists tail.
  - destruct Hr as (cin' & -> & Hb' & Hrem). split; [done|]. unfold input_left. simpl. by rewrite Hrem.
Qed.

Lemma nextImpl_safe s :
  reader_ok s →
  safe (CompressedReadBuffer.nextImpl factory_get s) (λ r,
    base_ok factory_get (CompressedReadBuffer.base r.2) ∧ is_bytes (CompressedReadBuffer.memory r.2) ∧
    (r.1 = true → is_bytes (CompressedReadBuffer.working r.2) ∧
       input_left (CompressedReadBuffer.base r.2) + 25 ≤ input_left (CompressedReadBuffer.base s))).
Proof.
  intros [Hb Hm Hw Hp]. unfold CompressedReadBuffer.nextImpl.
  eapply safe_bind; [by apply readCompressedData_safe|]. intros [[[[n sd] size]|] b'] [Hb' Hr]; simpl in *; [|done].
  destruct Hr as (Hl & p & blk & -> & Hload).
  eapply safe_bind; [by eapply load_block_safe|]. intros s' (Hbase & ? & ? & _). simpl. by rewrite Hbase.
Qed.

(** [eof] either leaves the state alone or has read a block or the end of the input. *)
Lemma eof_safe s :
  reader_ok s →
  safe (CompressedReadBuffer.eof factory_get s) (λ r, reader_ok r.2 ∧
    (r.1 = false → r.2 = s ∧ 0 < CompressedReadBuffer.available s ∨
      input_left (CompressedReadBuffer.base r.2) + 25 ≤ input_left (CompressedReadBuffer.base s))).
Proof.
  intros Hs. unfold CompressedReadBuffer.eof. destruct (Z.ltb_spec 0 (CompressedReadBuffer.available s)); [simpl; auto|].
  unfold CompressedReadBuffer.next. pose proof (nextImpl_safe s Hs) as Hn.
  destruct (CompressedReadBuffer.nextImpl factory_get s) as [[res s']| | |]; try done.
  destruct Hn as (Hb & Hm & Hr). destruct res; simpl in *.
  - destruct Hr as [Hw Hl]; [done|]. split; [|auto]. split; simpl; try done. split; [lia|apply blen_nonneg].
  - split; [|done]. by split.
Qed.

Lemma read_loop_safe fuel copied n s :
  reader_ok s → blen copied ≤ n → is_bytes copied →
  (blen copied < n →
    input_left (CompressedReadBuffer.base s) + (if 0 <? CompressedReadBuffer.available s then 1 else 0) ≤ Z.of_nat fuel) →
  safe (CompressedReadBuffer.read_loop factory_get fuel copied n s)
    (λ r, reader_ok r.2 ∧ blen r.1 ≤ n ∧ is_bytes r.1).
Proof.
  revert copied s. induction fuel as [|fuel IH]; intros copied s Hs Hn Hcb Hf; simpl;
    (destruct (Z.ltb_spec (blen copied) n) as [Hlt|]; [|done]); specialize (Hf Hlt);
    pose proof (eof_safe s Hs) as He; destruct (CompressedReadBuffer.eof factory_get s) as [[b s1]| | |]; try done;
    destruct He as [Hs1 He]; cbn [mbind outcome_bind fst snd] in *; (destruct b; [done|]); specialize (He eq_refl);
    assert (0 ≤ input_left (CompressedReadBuffer.base s1)) by apply blen_nonneg.
  { exfalso. destruct He as [[-> Ha]|He]; [|destruct (0 <? _); lia].
    rewrite (proj2 (Z.ltb_lt _ _) Ha) in Hf. lia. }
  pose proof Hs1 as [Hb1 Hm1 Hw1 Hp1]. unfold CompressedReadBuffer.available in *.
  set (k := Z.min _ _). assert (0 ≤ k) by (unfold k; lia).
  destruct (read_bytes_safe (CompressedReadBuffer.working s1) (CompressedReadBuffer.pos s1) k) as (bs & -> & Hl & Hbs);
    [lia|lia|unfold k; lia|].
  cbn [mbind outcome_bind]. apply IH.
  - split; simpl; try done. unfold k. lia.
  - rewrite blen_app. unfold k in *. lia.
  - apply Forall_app. auto.
  - rewrite blen_app, Hl. intros Hlt'. simpl.
    assert (k = blen (CompressedReadBuffer.working s1) - CompressedReadBuffer.pos s1) as Hk by (unfold k in *; lia).
    rewrite (proj2 (Z.ltb_ge _ _)) by lia.
    destruct He as [[-> Ha]|He]; [|destruct (0 <? _); lia].
    rewrite (proj2 (Z.ltb_lt _ _) Ha) in Hf. lia.
Qed.

Lemma read_safe n s :
  reader_ok s → 0 ≤ n →
  safe (CompressedReadBuffer.read factory_get n s) (λ r, reader_ok r.2 ∧ blen r.1 ≤ n ∧ is_bytes r.1).
Proof.
  intros Hs Hn. apply read_loop_safe; [done|done|constructor|]. intros _.
  unfold CompressedReadBuffer.loop_fuel, input_left, blen. destruct (0 <? _); lia.
Qed.

Lemma readBig_loop_safe fuel to got n s :
  reader_ok s → is_bytes to → 0 ≤ got ≤ n → n ≤ blen to →
  (got < n → input_left (CompressedReadBuffer.base s) < Z.of_nat fuel) →
  safe (CompressedReadBuffer.readBig_loop factory_get fuel to got n s)
    (λ r, reader_ok r.2 ∧ blen r.1.1 = blen to ∧ 0 ≤ r.1.2 ≤ n ∧ is_bytes r.1.1).
Proof.
  revert to got s. induction fuel as [|fuel IH]; intros to got s Hs Hto Hgot Hn Hf; simpl;
    (destruct (Z.ltb_spec got n) as [Hlt|]; [|simpl; auto with lia]); specialize (Hf Hlt);
    assert (0 ≤ input_left (CompressedReadBuffer.base s)) by apply blen_nonneg; [lia|].
  destruct Hs as [Hb Hm Hw Hp]. eapply safe_bind; [by apply readCompressedData_safe|].
  intros [[[[k sd] size]|] b'] [Hb' Hr]; cbn [fst snd] in *; [|simpl; split; [by split|]; auto with lia].
  destruct Hr as (Hl & p & blk & -> & Hload). pose proof Hload as (-> & (hd & body & m & _ & _ & _ & _ & Hsd & [m' Hg] & _) & _).
  pose proof (factory_additional _ _ (ptr_error_code p) Hg) as [Hadd _]. fold (ptr_codec p) in Hadd.
  destruct (Z.leb_spec (sd + getAdditionalSizeAtTheEndOfBuffer (ptr_codec p)) (n - got)).
  - eapply safe_bind; [apply (on_tail_safe to got _ (λ b, b = b')); [lia|done|]|].
    { intros t0 Ht0 Ht0b. eapply safe_mono; [by apply (decompressTo_safe b' p sd blk); [| |lia]|]. naive_solver. }
    intros [to' b1] (Hl' & Hb2 & Hb1). cbn [fst snd] in *. subst b1.
    rewrite <- Hl'. apply IH; [by split|done|lia|lia|simpl; lia].
  - eapply safe_bind; [by eapply load_block_safe|]. intros s1 (Hbase & Hm1 & Hw1 & Hp1).
    eapply safe_bind; [apply read_safe; [|lia]|].
    { split; [by rewrite Hbase|done|done|]. rewrite Hp1. pose proof (blen_nonneg (CompressedReadBuffer.working s1)). lia. }
    intros [bs s2] (Hs2 & Hbl & Hbb). cbn [fst snd] in *. pose proof (blen_nonneg bs).
    destruct (write_bytes_safe to got bs) as (to' & -> & Hl' & Hb2); [lia|lia|]. simpl. auto with lia.
Qed.

Lemma readBig_safe to n s :
  reader_ok s → is_bytes to → 0 ≤ n ≤ blen to →
  safe (CompressedReadBuffer.readBig factory_get to n s)
    (λ r, reader_ok r.2 ∧ blen r.1.1 = blen to ∧ 0 ≤ r.1.2 ≤ n ∧ is_bytes r.1.1).
Proof.
  intros Hs Hto Hn. unfold CompressedReadBuffer.readBig.
  assert (∀ s, input_left (CompressedReadBuffer.base s) < Z.of_nat (CompressedReadBuffer.loop_fuel s)) as Hfuel
    by (intros s'; unfold CompressedReadBuffer.loop_fuel, input_left, blen; lia).
  destruct (Z.ltb_spec (CompressedReadBuffer.pos s) (blen (CompressedReadBuffer.working s))).
  - unfold CompressedReadBuffer.available.
    pose proof (read_safe (Z.min (blen (CompressedReadBuffer.working s) - CompressedReadBuffer.pos s) n) s Hs ltac:(lia)) as Hr.
    destruct (CompressedReadBuffer.read factory_get _ s) as [[bs s1]| | |]; try done.
    destruct Hr as (Hs1 & Hbl & Hbb). cbn [mbind outcome_bind fst snd] in *. pose proof (blen_nonneg bs).
    destruct (write_bytes_safe to 0 bs) as (to' & -> & Hl & Hb'); [lia|lia|]. cbn [mbind outcome_bind].
    rewrite <- Hl. apply readBig_loop_safe; auto with lia.
  - cbn [mbind outcome_bind]. apply readBig_loop_safe; auto with lia.
Qed.

Lemma do_calls_safe calls s :
  reader_ok s → Forall (λ k, 0 ≤ call_size k) calls → defined (do_calls factory_get calls s).
Proof.
  intros Hs Hc. revert s Hs. induction Hc as [|k calls Hk _ IH]; intros s Hs; [done|]. simpl.
  assert (safe (do_call factory_get k s) (λ r, reader_ok r.2)) as Hcall.
  { destruct k as [n|n]; simpl in *.
    - eapply safe_mono; [by apply read_safe|]. by intros r (? & _).
    - eapply safe_bind; [apply readBig_safe; [done|apply fresh_bytes|unfold blen; rewrite fresh_length; lia]|].
      intros [[to got] s'] (Hs' & Hl & Hgot & _). cbn [fst snd] in *. unfold blen in Hl. rewrite fresh_length in Hl.
      destruct (read_bytes_safe to 0 got) as (bs & -> & _); [lia|lia|unfold blen; lia|]. done. }
  destruct (do_call factory_get k s) as [[bs s']| | |]; try done. cbn [mbind outcome_bind].
  specialize (IH s' Hcall). by destruct (do_calls factory_get calls s').
Qed.
End any_input.

(** C2: no input makes the reader of a compressed stream access memory out of bounds or
    loop forever: whatever the bytes, however they are cut into buffers that are windows
    of one stream ([ReadBuffer.contiguous]), and whatever the sequence of calls of [read]
    and [readBig], the calls return or throw, provided that the codecs the factory makes
    are safe in the sense of [CodecSafe]. *)
Theorem compressed_reader_never_ub `{FreshMemory} `{CityHash} (factory_get : Z → outcome ICompressionCodec)
    `{!FactoryOk factory_get} (cin : ReadBuffer.t) (allow_different_codecs external_data : bool) (calls : list call) :
  (∀ m, defined (factory_get m)) → (∀ m o ec, factory_get m = Ret o → CodecSafe (codec_of o ec)) →
  ReadBuffer.wf cin → ReadBuffer.contiguous cin → Forall (λ k, 0 ≤ call_size k) calls →
  defined (do_calls factory_get calls (CompressedReadBuffer.create cin allow_different_codecs external_data)).
Proof.
  intros Hd Hs Hwf Hu Hc. apply (do_calls_safe factory_get Hd Hs); [|done].
  split; simpl; [|constructor|constructor|done]. split; [done|]. by split.
Qed.

Lemma compressed_reader_never_ub_witness :
  defined (do_calls none_factory [call_readBig 4; call_read 100]
    (CompressedReadBuffer.create (ReadBuffer.mk [1; 2] 0 0 [(replicate 40 9, 0)]) true true)).
Proof.
  apply (compressed_reader_never_ub none_factory).
  - intros m. unfold none_factory. by destruct (m =? _).
  - intros m o ec. unfold none_factory. destruct (m =? _); [|done]. intros [= <-]. apply None_safe.
  - split; simpl; [by apply is_bytes_compute|by vm_compute|]. repeat constructor; by vm_compute.
  - apply ReadBuffer.unshifted_contiguous. by repeat constructor.
  - repeat constructor; simpl; lia.
Defined.

(** C3: the next block is found whatever the buffers its bytes come in: [readCompressedData]
    returns, or throws, what [next_block] computes from the bytes of the stream alone,
    leaves the input exactly after the block, and [compressed_buffer] points to the block
    followed by the bytes that the codec wants to be readable. With [always_copy] this is
    so for every input; without it the buffers have to be windows of one stream, in that
    the bytes a buffer has in front of its cursor are those of the stream
    ([ReadBuffer.contiguous]; [in_place_block_of_other_bytes] shows why). *)
Theorem read_block_refines_stream `{FreshMemory} `{CityHash} (factory_get : Z → outcome ICompressionCodec)
    `{!FactoryOk factory_get} (always_copy : bool) (s : CompressedReadBufferBase.t) :
  ReadBuffer.wf (CompressedReadBufferBase.compressed_in s) →
  always_copy = true ∨ ReadBuffer.contiguous (CompressedReadBufferBase.compressed_in s) →
  (∀ p, CompressedReadBufferBase.base_codec s = Some p → ptr_ok factory_get p) →
  match next_block factory_get s (ReadBuffer.remaining (CompressedReadBufferBase.compressed_in s)) with
  | Ret None => ∃ s', CompressedReadBufferBase.readCompressedData factory_get always_copy s = Ret (None, s') ∧
      ReadBuffer.remaining (CompressedReadBufferBase.compressed_in s') = []
  | Ret (Some (p, size_decompressed, blk, rest)) => ∃ s' tail,
      CompressedReadBufferBase.readCompressedData factory_get always_copy s =
        Ret (Some (blen blk + checksum_size, size_decompressed, blen blk), s') ∧
      CompressedReadBufferBase.compressed_buffer s' = blk ++ tail ∧
      CompressedReadBufferBase.base_codec s' = Some p ∧
      getAdditionalSizeAtTheEndOfBuffer (ptr_codec p) ≤ blen tail ∧
      ReadBuffer.remaining (CompressedReadBufferBase.compressed_in s') = rest
  | Throw e => CompressedReadBufferBase.readCompressedData factory_get always_copy s = Throw e
  | UB => CompressedReadBufferBase.readCompressedData factory_get always_copy s = UB
  | OutOfFuel => CompressedReadBufferBase.readCompressedData factory_get always_copy s = OutOfFuel
  end.
Proof.
  intros Hwf Hu Hop. pose proof (readCompressedData_stream factory_get always_copy s Hwf Hu Hop) as Hr.
  destruct (next_block _ _ _) as [[[[[p sd] blk] rest]|]| | |]; try done.
  - destruct Hr as (cin' & own & tail & -> & _ & Hrem & Ht & _). eexists _, tail. split; [reflexivity|]. done.
  - destruct Hr as (cin' & -> & _ & Hrem). by eexists.
Qed.

(** The block of the codec NONE with the bytes 7 and 8, in two buffers, of which the
    second starts with the bytes of the first: it is not copied. *)
Lemma read_block_refines_stream_witness :
  let blk := [2; 11; 0; 0; 0; 2; 0; 0; 0; 7; 8] in
  let s := CompressedReadBufferBase.create
    (ReadBuffer.mk [] 0 0 [(checksum_bytes blk ++ take 5 blk, 0); (checksum_bytes blk ++ blk ++ replicate 16 1, 21)])
    false false in
  ∃ s' tail, CompressedReadBufferBase.readCompressedData none_factory false s = Ret (Some (27, 2, 11), s') ∧
    CompressedReadBufferBase.compressed_buffer s' = blk ++ tail.
Proof.
  intros blk s. pose proof (read_block_refines_stream none_factory false s) as Hr.
  replace (next_block _ _ _) with (Ret (Some (make_ptr None_object, 2, blk, replicate 16 1))) in Hr.
  - destruct Hr as (s' & tail & Hrd & Hc & _); [| | |by exists s', tail].
    + split; simpl; [constructor|done|]. repeat constructor; by vm_compute.
    + right. exists []. split; [apply suffix_nil|]. simpl. split; [apply suffix_nil|]. split; [|done].
      by exists [].
    + done.
  - symmetry. vm_compute. reflexivity.
Defined.

(** The same, but the bytes that the second buffer has in front of its cursor are others:
    the test of [offset()] takes them for the checksum and the header, and the block that
    [always_copy] finds is refused. *)
Lemma in_place_block_of_other_bytes :
  let blk := [2; 11; 0; 0; 0; 2; 0; 0; 0; 7; 8] in
  let cin := ReadBuffer.mk [] 0 0
    [(checksum_bytes blk ++ take 5 blk, 0); (replicate 21 0 ++ drop 5 blk ++ replicate 16 1, 21)] in
  let s := CompressedReadBufferBase.create cin false false in
  ReadBuffer.wf cin ∧ ReadBuffer.remaining cin = checksum_bytes blk ++ blk ++ replicate 16 1 ∧
  (∃ s', CompressedReadBufferBase.readCompressedData none_factory true s = Ret (Some (27, 2, 11), s')) ∧
  CompressedReadBufferBase.readCompressedData none_factory false s = Throw CHECKSUM_DOESNT_MATCH.
Proof.
  intros blk cin s. split; [split; simpl; [constructor|done|]; repeat constructor; by vm_compute|].
  split; [by vm_compute|]. split; [eexists; vm_compute; reflexivity|by vm_compute].
Qed.

(** C4: corruption of a block is detected before any of its data is used. If the stream
    starts with a checksum and a block that a header describes, and the hash of the block
    is not the stored checksum, then reading it throws CHECKSUM_DOESNT_MATCH, whatever the
    buffers, windows of one stream ([ReadBuffer.contiguous]); so do [nextImpl] of the reader and [readBig], unless they can serve the call
    from data decompressed before. *)
Theorem corrupted_block_rejected `{FreshMemory} `{CityHash} (factory_get : Z → outcome ICompressionCodec)
    `{!FactoryOk factory_get} (s : CompressedReadBuffer.t) (always_copy : bool) (to ck header body rest : bytes)
    (n : Z) (p : codec_ptr) (size_decompressed : Z) :
  let b := CompressedReadBuffer.base s in
  base_ok factory_get b → CompressedReadBufferBase.disable_checksum b = false →
  blen ck = checksum_size → blen header = getHeaderSize →
  ReadBuffer.remaining (CompressedReadBufferBase.compressed_in b) = ck ++ header ++ body ++ rest →
  CompressedReadBufferBase.readHeaderAndGetCodecAndSize factory_get header getHeaderSize
    (CompressedReadBufferBase.base_codec b) (CompressedReadBufferBase.allow_different_codecs b)
    (CompressedReadBufferBase.external_data b) = Ret (p, size_decompressed, blen (header ++ body)) →
  (le_combine (take 8 ck), le_combine (drop 8 ck)) ≠ CityHash128 (header ++ body) →
  CompressedReadBufferBase.readCompressedData factory_get always_copy b = Throw CHECKSUM_DOESNT_MATCH ∧
  CompressedReadBuffer.nextImpl factory_get s = Throw CHECKSUM_DOESNT_MATCH ∧
  (blen (CompressedReadBuffer.working s) ≤ CompressedReadBuffer.pos s → 0 < n →
   CompressedReadBuffer.readBig factory_get to n s = Throw CHECKSUM_DOESNT_MATCH).
Proof.
  intros b Hb Hdis Hck Hh Hrem Hhd Hne. unfold checksum_size, getHeaderSize, COMPRESSED_BLOCK_HEADER_SIZE in *.
  assert (is_bytes (ck ++ header ++ body ++ rest)) as Hbytes by (rewrite <- Hrem; apply remaining_bytes, Hb).
  rewrite !Forall_app in Hbytes. destruct Hbytes as (_ & Hhb & Hbb & _).
  assert (next_block factory_get b (ck ++ header ++ body ++ rest) = Throw CHECKSUM_DOESNT_MATCH) as Hnext.
  { unfold next_block. pose proof (blen_nonneg body). pose proof (blen_nonneg rest).
    assert (blen (ck ++ header ++ body ++ rest) = 25 + blen body + blen rest) as -> by blia.
    rewrite (proj2 (Z.eqb_neq _ _)), (proj2 (Z.ltb_ge _ 25)) by lia. cbn [throw_if mbind outcome_bind].
    rewrite (drop_app_length' ck), (take_app_length' header) by (unfold blen in *; lia).
    rewrite Hhd. cbn [mbind outcome_bind]. rewrite (proj2 (Z.ltb_ge _ _)) by blia. cbn [throw_if mbind outcome_bind].
    rewrite Hdis, to_nat_blen, (assoc_L (++) header body rest), take_app_length.
    rewrite (take_app_le ck), (drop_app_le ck _ 8), (take_app_le (drop 8 ck)), (take_ge (drop 8 ck)) by (rewrite ?length_drop; unfold blen in *; lia).
    assert (is_bytes (header ++ body)) as Hhbb by (by apply Forall_app).
    rewrite validateChecksum_eq, bool_decide_false by done. done. }
  assert (∀ ac, CompressedReadBufferBase.readCompressedData factory_get ac b = Throw CHECKSUM_DOESNT_MATCH) as Hrd.
  { intros ac. pose proof (readCompressedData_next_block factory_get ac b Hb) as Hr. by rewrite Hrem, Hnext in Hr. }
  split; [done|]. split; [unfold CompressedReadBuffer.nextImpl; fold b; by rewrite Hrd|].
  intros Hpos Hn. unfold CompressedReadBuffer.readBig. rewrite (proj2 (Z.ltb_ge _ _) Hpos). cbn [mbind outcome_bind].
  cbn [CompressedReadBuffer.loop_fuel CompressedReadBuffer.readBig_loop].
  unfold CompressedReadBuffer.loop_fuel. cbn [CompressedReadBuffer.readBig_loop].
  rewrite (proj2 (Z.ltb_lt _ _) Hn). fold b. by rewrite Hrd.
Qed.

(** The block of the codec NONE with the bytes 7 and 8, of which the last is damaged. *)
Lemma corrupted_block_rejected_witness :
  let blk := [2; 11; 0; 0; 0; 2; 0; 0; 0; 7; 8] in
  let s := CompressedReadBuffer.create
    (ReadBuffer.from_memory (checksum_bytes blk ++ [2; 11; 0; 0; 0; 2; 0; 0; 0; 7; 9])) false false in
  CompressedReadBuffer.nextImpl none_factory s = Throw CHECKSUM_DOESNT_MATCH.
Proof.
  intros blk s.
  destruct (corrupted_block_rejected none_factory s false [] (checksum_bytes blk) [2; 11; 0; 0; 0; 2; 0; 0; 0] [7; 9] []
    0 (make_ptr None_object) 2) as (_ & Hn & _); try done.
  - split; [|split; [by apply ReadBuffer.unshifted_contiguous|done]]. apply ReadBuffer.wf_from_memory, is_bytes_compute. by vm_compute.
Defined.

(** The attempt to read a block for asynchronous decompression either does exactly
    what [readCompressedData] does without copying, the block staying in the buffer of
    the input, or it reads nothing: the input is left where it was. *)
Theorem async_read_all_or_nothing `{FreshMemory} `{CityHash} (factory_get : Z → outcome ICompressionCodec)
    `{!FactoryOk factory_get} (s : CompressedReadBufferBase.t) :
  base_ok factory_get s →
  match CompressedReadBufferBase.readCompressedDataBlockForAsynchronous factory_get s with
  | Ret (Some r, s') => CompressedReadBufferBase.readCompressedData factory_get false s = Ret (Some r, s')
  | Ret (None, s') => ReadBuffer.remaining (CompressedReadBufferBase.compressed_in s') =
      ReadBuffer.remaining (CompressedReadBufferBase.compressed_in s) ∧ base_ok factory_get s'
  | Throw e => CompressedReadBufferBase.readCompressedData factory_get false s = Throw e
  | UB => CompressedReadBufferBase.readCompressedData factory_get false s = UB
  | OutOfFuel => CompressedReadBufferBase.readCompressedData factory_get false s = OutOfFuel
  end.
Proof.
  intros (Hwf & Hu & Hop).
  unfold CompressedReadBufferBase.readCompressedDataBlockForAsynchronous, CompressedReadBufferBase.readCompressedData.
  destruct (ReadBuffer.eof_spec _ Hwf) as (b & cin & Heof & Hwf1 & Hrem & _ & _ & _). rewrite Heof.
  assert (ReadBuffer.contiguous cin) as Hu1
    by (destruct Hu as [before Hbf]; exists before; exact (ReadBuffer.eof_window _ _ _ _ Hwf Hbf Heof)).
  unfold CompressedReadBufferBase.locate_block, checksum_size, getHeaderSize, COMPRESSED_BLOCK_HEADER_SIZE.
  destruct b; [done|]. simpl orb.
  destruct (Z.ltb_spec (ReadBuffer.available cin) (9 + 16)); [done|].
  destruct (ReadBuffer.readStrict_within (16 + 9) cin Hwf1) as [own Hown]; [lia|]. rewrite Hown.
  cbn [mbind outcome_bind]. destruct (tail_at own 16) as [header| | |]; try done. cbn [mbind outcome_bind].
  destruct (CompressedReadBufferBase.readHeaderAndGetCodecAndSize factory_get header 9 _ _ _)
    as [[[p sd] size]| | |] eqn:Hhd; try done. cbn [mbind outcome_bind negb andb].
  set (cin2 := ReadBuffer.advance cin (16 + 9)).
  destruct ((9 + 16 <=? ReadBuffer.rb_pos cin2) && _).
  - destruct (tail_at _ _) as [cbuf| | |]; try done. cbn [mbind outcome_bind].
    by destruct (CompressedReadBufferBase.check_block s own cbuf size).
  - simpl. assert (ReadBuffer.advance cin2 (- (16 + 9)) = cin) as ->.
    { unfold cin2, ReadBuffer.advance. simpl. destruct cin. simpl. f_equal. lia. }
    split; [done|]. split; [done|]. split; [done|]. intros p' [= <-]. by eapply readHeader_ptr.
Qed.

Lemma async_read_all_or_nothing_witness :
  let blk := [2; 11; 0; 0; 0; 2; 0; 0; 0; 7; 8] in
  let s := CompressedReadBufferBase.create (ReadBuffer.from_memory (checksum_bytes blk ++ blk)) false false in
  ∃ s', CompressedReadBufferBase.readCompressedDataBlockForAsynchronous none_factory s = Ret (None, s') ∧
    ReadBuffer.remaining (CompressedReadBufferBase.compressed_in s') = checksum_bytes blk ++ blk.
Proof.
  intros blk s. pose proof (async_read_all_or_nothing none_factory s) as Ha.
  destruct (CompressedReadBufferBase.readCompressedDataBlockForAsynchronous none_factory s) as [[r s']| | |] eqn:E;
    try discriminate E.
  destruct r; [discriminate E|]. exists s'. split; [done|]. apply Ha.
  split; [|split; [by apply ReadBuffer.unshifted_contiguous|done]]. apply ReadBuffer.wf_from_memory, is_bytes_compute. by vm_compute.
Defined.
