(* ===== verification/CodecFactory.v ===== *)
(** The factory of compression codecs: the objects that the constructors of the codecs
    make (src/src/Compression/CompressionCodec*.cpp), their registration and look-up
    (CompressionFactory.cpp), and the validation of codec expressions of columns
    (CompressionFactoryAdditions.cpp). *)

From S2P Require Import Prelude DataTypes CodecBase CodecDelta CodecGCD CodecDoubleDelta CodecGorilla CodecT64.
From S2P Require Import CodecFPC CodecObject LZ4Decompress LZ4Block CodecLibraries CodecEncrypted.
From stdpp Require Import base tactics list numbers strings gmap.
Local Open Scope Z_scope.

(** What the codecs call and depend on: the libraries, the configuration of encryption,
    the hash of codecs ([SipHash] over what [updateHash] gives it), and the width that the
    function-local static of Gorilla keeps. *)
Class CodecEnvironment := {
  #[global] env_memory :: FreshMemory;
  #[global] env_lz4 :: LZ4Library;
  #[global] env_lz4_build :: LZ4Build;
  #[global] env_zstd :: ZSTDLibrary;
  #[global] env_openssl :: Encrypted.OpenSSL;
  env_boost_gcd : Z → Z → Z;
  env_libdivide : Z → Z → Z → Z;
  env_encryption : option Encrypted.Params;
  env_siphash : list hash_item → Z;
  env_gorilla_first_bytes_size : Z;
}.

Definition uint_literal (x : Z) : AST := ASTLiteral (Field.UInt64_value (u64 x)).

(** * Objects *)

Section objects.
Context `{CodecEnvironment}.

(** What the classes have in common: [desc] is what their constructors pass to
    [setCodecDescription], [hashed] the members that [updateHash] adds. *)
Definition described (codec_of : ErrorCode → codec) (name : string) (arguments : list AST) (hashed : list Z)
  (isCompression isGenericCompression isEncryption isFloatingPointTimeSeriesCodec isDeltaCompression isNone : bool)
  : ICompressionCodec := {|
  CodecObject.codec_of := codec_of;
  full_codec_desc := Some (setCodecDescription name arguments);
  updateHash :=
    hash_tree (match arguments with [] => ASTIdentifier name | _ => ASTFunction name arguments end) ::
    (hash_value <$> hashed);
  CodecObject.isCompression := isCompression;
  CodecObject.isGenericCompression := isGenericCompression;
  CodecObject.isEncryption := isEncryption;
  CodecObject.isFloatingPointTimeSeriesCodec := isFloatingPointTimeSeriesCodec;
  CodecObject.isDeltaCompression := isDeltaCompression;
  isExperimental := false;
  isDeflateQpl := false;
  isZstdQat := false;
  CodecObject.isNone := isNone;
|}.

Definition LZ4_object : ICompressionCodec :=
  described CompressionCodecLZ4 "LZ4" [] [] true true false false false false.

Definition LZ4HC_object (level : Z) : ICompressionCodec :=
  described (λ ec, CompressionCodecLZ4HC ec level) "LZ4HC" [uint_literal level] [] true true false false false false.

Definition ZSTD_object (level : Z) (window_log : option Z) : ICompressionCodec :=
  described (λ ec, CompressionCodecZSTD ec level window_log) "ZSTD"
    (uint_literal level :: match window_log with Some w => [uint_literal w] | None => [] end)
    [] true true false false false false.

Definition Delta_object (delta_bytes_size : Z) : ICompressionCodec :=
  described (λ ec, Delta.codec ec delta_bytes_size) "Delta" [uint_literal delta_bytes_size] []
    false false false false true false.

Definition GCD_object (gcd_bytes_size : Z) : ICompressionCodec :=
  described (λ ec, GCD.codec env_boost_gcd env_libdivide ec gcd_bytes_size) "GCD" [] []
    false false false false false false.

Definition DoubleDelta_object (data_bytes_size : Z) : ICompressionCodec :=
  described (λ ec, DoubleDelta.codec ec data_bytes_size) "DoubleDelta" [] [data_bytes_size]
    true false false false true false.

Definition Gorilla_object (data_bytes_size : Z) : ICompressionCodec :=
  described (λ ec, Gorilla.codec ec env_gorilla_first_bytes_size data_bytes_size) "Gorilla" [] [data_bytes_size]
    true false false true false false.

(** The position of a type in the enumeration stands for its value. *)
Definition type_index_value (idx : TypeIndex.t) : Z :=
  match idx with
  | TypeIndex.Nothing => 0 | TypeIndex.UInt8 => 1 | TypeIndex.UInt16 => 2 | TypeIndex.UInt32 => 3
  | TypeIndex.UInt64 => 4 | TypeIndex.UInt128 => 5 | TypeIndex.UInt256 => 6 | TypeIndex.Int8 => 7
  | TypeIndex.Int16 => 8 | TypeIndex.Int32 => 9 | TypeIndex.Int64 => 10 | TypeIndex.Int128 => 11
  | TypeIndex.Int256 => 12 | TypeIndex.Float32 => 13 | TypeIndex.Float64 => 14 | TypeIndex.Date => 15
  | TypeIndex.Date32 => 16 | TypeIndex.DateTime => 17 | TypeIndex.DateTime64 => 18 | TypeIndex.String => 19
  | TypeIndex.FixedString => 20 | TypeIndex.Enum8 => 21 | TypeIndex.Enum16 => 22 | TypeIndex.Decimal32 => 23
  | TypeIndex.Decimal64 => 24 | TypeIndex.Decimal128 => 25 | TypeIndex.Decimal256 => 26 | TypeIndex.UUID => 27
  | TypeIndex.Array => 28 | TypeIndex.Tuple => 29 | TypeIndex.Set' => 30 | TypeIndex.Interval => 31
  | TypeIndex.Nullable => 32 | TypeIndex.Function' => 33 | TypeIndex.AggregateFunction => 34
  | TypeIndex.LowCardinality => 35 | TypeIndex.Map => 36 | TypeIndex.ObjectDeprecated => 37
  | TypeIndex.Object => 38 | TypeIndex.IPv4 => 39 | TypeIndex.IPv6 => 40 | TypeIndex.JSONPaths => 41
  | TypeIndex.Variant => 42 | TypeIndex.Dynamic => 43
  end.

Definition T64_object (type_idx : option TypeIndex.t) (variant : T64.Variant) : ICompressionCodec :=
  described (λ ec, T64.codec ec type_idx variant) "T64"
    match variant with T64.Byte => [] | T64.Bit => [ASTLiteral (Field.String_value "bit")] end
    [type_index_value (default TypeIndex.Nothing type_idx); T64.variant_bit variant]
    true false false false false false.

Definition FPC_object (float_width level : Z) : ICompressionCodec :=
  described (λ ec, FPC.codec ec float_width level) "FPC" [uint_literal level] []
    true false false true false false.

Definition Encrypted_object (method : Encrypted.EncryptionMethod) : ICompressionCodec :=
  described (λ ec, Encrypted.codec ec env_encryption method) (Encrypted.getMethodName method) [] []
    false false true false false false.

(** ** Multiple *)

(** The codec that the factory finds for a method byte, for decompression. *)
Context (factory_get : Z → outcome codec).

Definition Multiple_codec (codecs : list ICompressionCodec) (ec : ErrorCode) : codec :=
  CompressionCodecMultiple factory_get ec ((λ o, codec_of o CORRUPTED_DATA) <$> codecs).

Definition Multiple_with (codecs : list ICompressionCodec) (desc : option AST) : ICompressionCodec := {|
  codec_of := Multiple_codec codecs;
  full_codec_desc := desc;
  updateHash := concat (updateHash <$> codecs);
  isCompression := existsb isCompression codecs;
  isGenericCompression := false;
  isEncryption := false;
  isFloatingPointTimeSeriesCodec := false;
  isDeltaCompression := false;
  isExperimental := false;
  isDeflateQpl := false;
  isZstdQat := false;
  isNone := false;
|}.

(** The default constructor, for the factory. *)
Definition Multiple_default : ICompressionCodec := Multiple_with [] None.

Fixpoint all_descs (codecs : list ICompressionCodec) : outcome (list AST) :=
  match codecs with
  | [] => Ret []
  | codec :: codecs =>
      desc ← getCodecDesc codec;
      descs ← all_descs codecs;
      Ret (desc :: descs)
  end.

Definition Multiple_object (codecs : list ICompressionCodec) : outcome ICompressionCodec :=
  arguments ← all_descs codecs;
  Ret (Multiple_with codecs (Some (setCodecDescription "" arguments))).
End objects.

(** * Creators *)

(** [arguments] are the children of the list of arguments, if there is one. *)
Definition CreatorWithType : Type := option (list AST) → option IDataType → outcome ICompressionCodec.
Definition Creator : Type := option (list AST) → outcome ICompressionCodec.
Definition SimpleCreator : Type := outcome ICompressionCodec.

(** An unsigned literal. *)
Definition uint_argument (a : AST) : outcome Z :=
  match a with
  | ASTLiteral value =>
      _ ← throw_if (negb (bool_decide (Field.getType value = Field.UInt64))) ILLEGAL_CODEC_PARAMETER;
      Field.safeGet_UInt64 value
  | _ => Throw ILLEGAL_CODEC_PARAMETER
  end.

(** The one argument of Delta, DoubleDelta and Gorilla, a width of 1, 2, 4 or 8 bytes. *)
Definition width_argument (children : list AST) : outcome Z :=
  match children with
  | [child] =>
      user_bytes_size ← uint_argument child;
      _ ← throw_if (negb (valid_size user_bytes_size)) ILLEGAL_CODEC_PARAMETER;
      Ret (u8 user_bytes_size)
  | _ => Throw ILLEGAL_SYNTAX_FOR_CODEC_TYPE
  end.

(** The width of a type for those codecs. *)
Definition getDeltaBytesSize (column_type : IDataType) : outcome Z :=
  _ ← throw_if (negb (isValueUnambiguouslyRepresentedInFixedSizeContiguousMemoryRegion column_type)) BAD_ARGUMENTS;
  max_size ← getSizeOfValueInMemory column_type;
  if valid_size max_size then Ret (u8 max_size) else Throw BAD_ARGUMENTS.

Definition getGCDBytesSize (column_type : IDataType) : outcome Z :=
  let which := getTypeId column_type in
  _ ← throw_if (negb (WhichDataType.isInt which || WhichDataType.isUInt which || WhichDataType.isDecimal which ||
                      WhichDataType.isDateOrDate32 which || WhichDataType.isDateTime which ||
                      WhichDataType.isDateTime64 which)) BAD_ARGUMENTS;
  max_size ← getSizeOfValueInMemory column_type;
  if GCD.valid_gcd_size max_size then Ret (u8 max_size) else Throw BAD_ARGUMENTS.

Definition getFloatBytesSize (column_type : IDataType) : outcome Z :=
  _ ← throw_if (negb (WhichDataType.isFloat (getTypeId column_type))) BAD_ARGUMENTS;
  float_size ← getSizeOfValueInMemory column_type;
  if 4 <=? float_size then Ret (u8 float_size) else Throw BAD_ARGUMENTS.

(** The width given by the argument or else by the type, 1 without either. *)
Definition width_of (arguments : option (list AST)) (column_type : option IDataType) : outcome Z :=
  match arguments, column_type with
  | Some ((_ :: _) as children), _ => width_argument children
  | _, Some type => getDeltaBytesSize type
  | _, None => Ret 1
  end.

Section creators.
Context `{CodecEnvironment}.

Definition create_Delta : CreatorWithType := λ arguments column_type,
  delta_bytes_size ← width_of arguments column_type; Ret (Delta_object delta_bytes_size).

Definition create_DoubleDelta : CreatorWithType := λ arguments column_type,
  data_bytes_size ← width_of arguments column_type; Ret (DoubleDelta_object data_bytes_size).

Definition create_Gorilla : CreatorWithType := λ arguments column_type,
  data_bytes_size ← width_of arguments column_type; Ret (Gorilla_object data_bytes_size).

Definition create_GCD : CreatorWithType := λ arguments column_type,
  gcd_bytes_size ←
    match arguments, column_type with
    | Some (_ :: _), _ => Throw ILLEGAL_SYNTAX_FOR_CODEC_TYPE
    | _, Some type => getGCDBytesSize type
    | _, None => Ret 1
    end;
  Ret (GCD_object gcd_bytes_size).

Definition T64_variant (name : string) : outcome T64.Variant :=
  if decide (name = "byte"%string) then Ret T64.Byte
  else if decide (name = "bit"%string) then Ret T64.Bit
  else Throw ILLEGAL_CODEC_PARAMETER.

Definition create_T64 : CreatorWithType := λ arguments type,
  variant ←
    match arguments with
    | Some ((child :: rest) as children) =>
        _ ← throw_if (bool_decide (1 < length children)%nat) ILLEGAL_SYNTAX_FOR_CODEC_TYPE;
        match child with
        | ASTLiteral value => name ← Field.safeGet_String value; T64_variant name
        | _ => Throw ILLEGAL_CODEC_PARAMETER
        end
    | _ => Ret T64.Byte
    end;
  type_idx ←
    match type with
    | Some type =>
        let type_idx := T64.typeIdx (Some (getTypeId type)) in
        _ ← throw_if (bool_decide (type_idx = TypeIndex.Nothing)) ILLEGAL_SYNTAX_FOR_CODEC_TYPE;
        Ret (Some type_idx)
    | None => Ret None
    end;
  Ret (T64_object type_idx variant).

(** The level and, if there are two arguments, the width. *)
Definition FPC_arguments (children : list AST) (float_width : Z) : outcome (Z * Z) :=
  match children with
  | [] => Ret (FPC.DEFAULT_COMPRESSION_LEVEL, float_width)
  | child :: rest =>
      _ ← throw_if (bool_decide (2 < length children)%nat) ILLEGAL_SYNTAX_FOR_CODEC_TYPE;
      value ← uint_argument child;
      let level := u8 value in
      _ ← throw_if ((level <? 1) || (FPC.MAX_COMPRESSION_LEVEL <? level)) ILLEGAL_CODEC_PARAMETER;
      match rest with
      | ASTLiteral value :: _ =>
          _ ← throw_if (negb (Field.isInt64OrUInt64FieldType (Field.getType value))) ILLEGAL_CODEC_PARAMETER;
          user_float_width ← Field.safeGet_UInt64 value;
          _ ← throw_if (negb (user_float_width =? 4) && negb (user_float_width =? 8)) ILLEGAL_CODEC_PARAMETER;
          Ret (level, u8 user_float_width)
      | _ :: _ => Throw ILLEGAL_CODEC_PARAMETER
      | [] => Ret (level, float_width)
      end
  end.

Definition create_FPC : CreatorWithType := λ arguments column_type,
  float_width ← match column_type with Some type => getFloatBytesSize type | None => Ret 4 end;
  '(level, float_width) ← FPC_arguments (default [] arguments) float_width;
  Ret (FPC_object float_width level).

(** A literal of any type that can be read as a UInt64, cast to int. *)
Definition int_argument (a : AST) : outcome Z :=
  match a with
  | ASTLiteral value => x ← Field.safeGet_UInt64 value; Ret (to_signed 4 x)
  | _ => Throw ILLEGAL_CODEC_PARAMETER
  end.

Definition ZSTD_DEFAULT_LEVEL : Z := 1.

Definition create_ZSTD : Creator := λ arguments,
  match arguments with
  | Some ((child :: rest) as children) =>
      _ ← throw_if (bool_decide (2 < length children)%nat) ILLEGAL_SYNTAX_FOR_CODEC_TYPE;
      level ← int_argument child;
      _ ← throw_if (ZSTD_maxCLevel <? level) ILLEGAL_CODEC_PARAMETER;
      match rest with
      | window :: _ =>
          window_log ← int_argument window;
          match ZSTD_windowLog_bounds with
          | None => Throw ILLEGAL_CODEC_PARAMETER
          | Some (lowerBound, upperBound) =>
              _ ← throw_if (negb (window_log =? 0) && ((upperBound <? window_log) || (window_log <? lowerBound)))
                    ILLEGAL_CODEC_PARAMETER;
              Ret (ZSTD_object level (Some window_log))
          end
      | [] => Ret (ZSTD_object level None)
      end
  | _ => Ret (ZSTD_object ZSTD_DEFAULT_LEVEL None)
  end.

Definition create_LZ4HC : Creator := λ arguments,
  match arguments with
  | Some ((child :: _) as children) =>
      _ ← throw_if (bool_decide (1 < length children)%nat) ILLEGAL_SYNTAX_FOR_CODEC_TYPE;
      level ← int_argument child;
      Ret (LZ4HC_object level)
  | _ => Ret (LZ4HC_object 0)
  end.

Definition create_Encrypted (method : Encrypted.EncryptionMethod) : Creator := λ arguments,
  match arguments with
  | Some (_ :: _) => Throw ILLEGAL_SYNTAX_FOR_CODEC_TYPE
  | _ => Ret (Encrypted_object method)
  end.
End creators.

(** * The factory *)

Record CompressionCodecFactory := mk_factory {
  family_name_with_codec : gmap string CreatorWithType;
  family_code_with_codec : gmap Z CreatorWithType;
  default_codec : option ICompressionCodec;
}.

(** A creator is a function here, never null. *)
Definition registerCompressionCodecWithType (factory : CompressionCodecFactory) (family_name : string)
  (byte_code : option Z) (creator : CreatorWithType) : outcome CompressionCodecFactory :=
  _ ← throw_if (bool_decide (is_Some (family_name_with_codec factory !! family_name))) LOGICAL_ERROR;
  let names := <[family_name := creator]> (family_name_with_codec factory) in
  match byte_code with
  | None => Ret (mk_factory names (family_code_with_codec factory) (default_codec factory))
  | Some byte_code =>
      _ ← throw_if (bool_decide (is_Some (family_code_with_codec factory !! byte_code))) LOGICAL_ERROR;
      Ret (mk_factory names (<[byte_code := creator]> (family_code_with_codec factory)) (default_codec factory))
  end.

Definition registerCompressionCodec (factory : CompressionCodecFactory) (family_name : string)
  (byte_code : option Z) (creator : Creator) : outcome CompressionCodecFactory :=
  registerCompressionCodecWithType factory family_name byte_code (λ ast _, creator ast).

Definition registerSimpleCompressionCodec (factory : CompressionCodecFactory) (family_name : string)
  (byte_code : option Z) (creator : SimpleCreator) : outcome CompressionCodecFactory :=
  registerCompressionCodec factory family_name byte_code (λ ast,
    match ast with Some _ => Throw DATA_TYPE_CANNOT_HAVE_ARGUMENTS | None => creator end).

Section factory.
Context `{CodecEnvironment}.

Definition registerCodecNone (factory : CompressionCodecFactory) : outcome CompressionCodecFactory :=
  registerSimpleCompressionCodec factory "NONE" (Some (method_byte NONE)) (Ret None_object).

Definition registerCodecLZ4 (factory : CompressionCodecFactory) : outcome CompressionCodecFactory :=
  registerSimpleCompressionCodec factory "LZ4" (Some (method_byte LZ4)) (Ret LZ4_object).

Definition registerCodecLZ4HC (factory : CompressionCodecFactory) : outcome CompressionCodecFactory :=
  registerCompressionCodec factory "LZ4HC" None create_LZ4HC.

Definition registerCodecZSTD (factory : CompressionCodecFactory) : outcome CompressionCodecFactory :=
  registerCompressionCodec factory "ZSTD" (Some (method_byte ZSTD)) create_ZSTD.

Definition registerCodecMultiple (factory_get : Z → outcome codec) (factory : CompressionCodecFactory)
  : outcome CompressionCodecFactory :=
  registerSimpleCompressionCodec factory "Multiple" (Some (method_byte Multiple)) (Ret (Multiple_default factory_get)).

Definition registerCodecDelta (factory : CompressionCodecFactory) : outcome CompressionCodecFactory :=
  registerCompressionCodecWithType factory "Delta" (Some (method_byte CodecBase.Delta)) create_Delta.

Definition registerCodecT64 (factory : CompressionCodecFactory) : outcome CompressionCodecFactory :=
  registerCompressionCodecWithType factory "T64" (Some (method_byte CodecBase.T64)) create_T64.

Definition registerCodecDoubleDelta (factory : CompressionCodecFactory) : outcome CompressionCodecFactory :=
  registerCompressionCodecWithType factory "DoubleDelta" (Some (method_byte CodecBase.DoubleDelta)) create_DoubleDelta.

Definition registerCodecGorilla (factory : CompressionCodecFactory) : outcome CompressionCodecFactory :=
  registerCompressionCodecWithType factory "Gorilla" (Some (method_byte CodecBase.Gorilla)) create_Gorilla.

Definition registerEncryptionCodec (method : Encrypted.EncryptionMethod) (factory : CompressionCodecFactory)
  : outcome CompressionCodecFactory :=
  method_code ← Encrypted.getMethodCode method;
  registerCompressionCodec factory (Encrypted.getMethodName method) (Some method_code) (create_Encrypted method).

Definition registerCodecEncrypted (factory : CompressionCodecFactory) : outcome CompressionCodecFactory :=
  factory ← registerEncryptionCodec Encrypted.AES_128_GCM_SIV factory;
  registerEncryptionCodec Encrypted.AES_256_GCM_SIV factory.

Definition registerCodecFPC (factory : CompressionCodecFactory) : outcome CompressionCodecFactory :=
  registerCompressionCodecWithType factory "FPC" (Some (method_byte CodecBase.FPC)) create_FPC.

Definition registerCodecGCD (factory : CompressionCodecFactory) : outcome CompressionCodecFactory :=
  registerCompressionCodecWithType factory "GCD" (Some (method_byte CodecBase.GCD)) create_GCD.

(** [get(uint8_t)]. *)
Definition get_code (factory : CompressionCodecFactory) (byte_code : Z) : outcome ICompressionCodec :=
  match family_code_with_codec factory !! byte_code with
  | None => Throw UNKNOWN_CODEC
  | Some creator => creator None None
  end.

(** [getImpl]. *)
Definition getImpl (factory : CompressionCodecFactory) (family_name : string) (arguments : option (list AST))
  (column_type : option IDataType) : outcome ICompressionCodec :=
  _ ← throw_if (bool_decide (family_name = "Multiple"%string)) UNKNOWN_CODEC;
  match family_name_with_codec factory !! family_name with
  | None => Throw UNKNOWN_CODEC
  | Some creator => creator arguments column_type
  end.

Definition DEFAULT_CODEC_NAME : string := "Default".

(** The family and the arguments that an element of a codec expression names. *)
Definition family_of (inner_codec_ast : AST) : outcome (string * option (list AST)) :=
  match inner_codec_ast with
  | ASTIdentifier name => Ret (name, None)
  | ASTFunction name arguments => Ret (name, Some arguments)
  | _ => Throw UNEXPECTED_AST_STRUCTURE
  end.

(** A pointer to a codec that is used. *)
Definition deref (codec : option ICompressionCodec) : outcome ICompressionCodec :=
  match codec with Some codec => Ret codec | None => UB end.

(** The loop of [get(ast)]. *)
Fixpoint get_codecs (factory : CompressionCodecFactory) (column_type : option IDataType)
  (current_default : option ICompressionCodec) (only_generic : bool) (children : list AST)
  : outcome (list ICompressionCodec) :=
  match children with
  | [] => Ret []
  | inner_codec_ast :: children =>
      '(codec_family_name, codec_arguments) ← family_of inner_codec_ast;
      codec ← (if decide (codec_family_name = DEFAULT_CODEC_NAME) then deref current_default
               else getImpl factory codec_family_name codec_arguments column_type);
      codecs ← get_codecs factory column_type current_default only_generic children;
      Ret (if only_generic && negb (isGenericCompression codec) then codecs else codec :: codecs)
  end.

(** [get(ast, column_type, current_default, only_generic)]; [factory_get] is for the codec
    Multiple that it may make. *)
Definition get_ast (factory_get : Z → outcome codec) (factory : CompressionCodecFactory) (ast : AST)
  (column_type : option IDataType) (current_default : option ICompressionCodec) (only_generic : bool)
  : outcome ICompressionCodec :=
  let current_default := match current_default with None => default_codec factory | _ => current_default end in
  match ast with
  | ASTFunction _ children =>
      codecs ← get_codecs factory column_type current_default only_generic children;
      match codecs with
      | [codec] => Ret codec
      | [] => Ret None_object
      | _ => Multiple_object factory_get codecs
      end
  | _ => Throw UNEXPECTED_AST_STRUCTURE
  end.

(** The expression that a family and a level are turned into; [upper_name] is the name in
    upper case, which [Poco::toUpper] makes. *)
Definition family_ast (upper_name : string) (level : option Z) : AST :=
  ASTFunction "CODEC"
    [match level with
     | Some level => ASTFunction upper_name [uint_literal level]
     | None => ASTIdentifier upper_name
     end].

(** [get(family_name, level)]. *)
Definition get_family (factory_get : Z → outcome codec) (factory : CompressionCodecFactory) (upper_name : string)
  (level : option Z) : outcome ICompressionCodec :=
  get_ast factory_get factory (family_ast upper_name level) None None false.

(** The registrations of the constructor, in a build without QAT and QPL: the calls of
    [registerCodecZSTDQAT] under USE_QATLIB and [registerCodecDeflateQpl] under USE_QPL are left out. *)
Definition register_all (factory_get : Z → outcome codec) : outcome CompressionCodecFactory :=
  let factory := mk_factory ∅ ∅ None in
  factory ← registerCodecNone factory;
  factory ← registerCodecLZ4 factory;
  factory ← registerCodecZSTD factory;
  factory ← registerCodecLZ4HC factory;
  factory ← registerCodecMultiple factory_get factory;
  factory ← registerCodecDelta factory;
  factory ← registerCodecT64 factory;
  factory ← registerCodecDoubleDelta factory;
  factory ← registerCodecGorilla factory;
  factory ← registerCodecEncrypted factory;
  factory ← registerCodecFPC factory;
  registerCodecGCD factory.

(** The constructor; [factory_get] is what the codec Multiple calls the factory for. *)
Definition construct (factory_get : Z → outcome codec) : outcome CompressionCodecFactory :=
  factory ← register_all factory_get;
  default_codec ← get_family factory_get factory "LZ4" None;
  Ret (mk_factory (family_name_with_codec factory) (family_code_with_codec factory) (Some default_codec)).

(** What the codec Multiple finds in the factory. Multiple is itself in it, and decompression
    with it asks the factory again: [depth] bounds how deep such calls are nested, as the
    stack does. *)
Fixpoint instance_get (depth : nat) (byte_code : Z) : outcome codec :=
  match depth with
  | O => OutOfFuel
  | S depth =>
      factory ← construct (instance_get depth);
      o ← get_code factory byte_code;
      Ret (codec_of o CORRUPTED_DATA)
  end.

(** The factory, [instance()]. *)
Definition instance (depth : nat) : outcome CompressionCodecFactory := construct (instance_get depth).

(** * Validation of codec expressions *)

(** The local variables of [validateCodecAndGetPreprocessedAST]; positions are kept in
    the order of their insertion, which is increasing. *)
Record survey := mk_survey {
  codecs_descriptions : list AST;
  with_compression_codec : bool;
  with_none_codec : bool;
  first_generic_compression_codec_pos : option Z;
  first_delta_codec_pos : option Z;
  last_floating_point_time_series_codec_pos : option Z;
  encryption_codecs_pos : list Z;
  can_substitute_codec_arguments : bool;
}.

Definition survey_start : survey := mk_survey [] false false None None None [] true.

(** The callback over the streams of a column: [prev_codec] and
    [can_substitute_codec_arguments]; [result_codec] is the last codec made. *)
Fixpoint over_streams (factory : CompressionCodecFactory) (codec_family_name : string)
  (codec_arguments : option (list AST)) (types : list IDataType) (prev_codec : option ICompressionCodec)
  (can_substitute : bool) : outcome (option ICompressionCodec * bool) :=
  match types with
  | [] => Ret (prev_codec, can_substitute)
  | last_type :: types =>
      result_codec ← getImpl factory codec_family_name codec_arguments (Some last_type);
      let can_substitute :=
        match prev_codec with
        | Some prev_codec =>
            if negb (env_siphash (updateHash prev_codec) =? env_siphash (updateHash result_codec)) then false
            else can_substitute
        | None => can_substitute
        end in
      over_streams factory codec_family_name codec_arguments types (Some result_codec) can_substitute
  end.

(** The codec of an element that is not the default one. *)
Definition result_codec (factory : CompressionCodecFactory) (codec_family_name : string)
  (codec_arguments : option (list AST)) (column_type : option IDataType) (can_substitute : bool)
  : outcome (ICompressionCodec * bool) :=
  match column_type with
  | Some type =>
      '(codec, can_substitute) ←
        over_streams factory codec_family_name codec_arguments (special_streams type) None can_substitute;
      match codec with Some codec => Ret (codec, can_substitute) | None => Throw LOGICAL_ERROR end
  | None =>
      codec ← getImpl factory codec_family_name codec_arguments None;
      Ret (codec, can_substitute)
  end.

(** The codec of an element, its description, and [can_substitute_codec_arguments]. *)
Definition element (factory : CompressionCodecFactory) (column_type : option IDataType)
  (allow_experimental_codecs enable_deflate_qpl_codec enable_zstd_qat_codec : bool)
  (inner_codec_ast : AST) (can_substitute : bool) : outcome (ICompressionCodec * AST * bool) :=
  '(codec_family_name, codec_arguments) ← family_of inner_codec_ast;
  if decide (codec_family_name = DEFAULT_CODEC_NAME) then
    _ ← throw_if (bool_decide (is_Some codec_arguments)) BAD_ARGUMENTS;
    codec ← deref (default_codec factory);
    Ret (codec, ASTIdentifier DEFAULT_CODEC_NAME, can_substitute)
  else
    '(codec, can_substitute) ← result_codec factory codec_family_name codec_arguments column_type can_substitute;
    _ ← throw_if (negb allow_experimental_codecs && isExperimental codec) BAD_ARGUMENTS;
    _ ← throw_if (negb enable_deflate_qpl_codec && isDeflateQpl codec) BAD_ARGUMENTS;
    _ ← throw_if (negb enable_zstd_qat_codec && isZstdQat codec) BAD_ARGUMENTS;
    desc ← getCodecDesc codec;
    Ret (codec, desc, can_substitute).

(** What the end of the body of the loop records about the codec at position [i]. *)
Definition record_codec (i : Z) (codec : ICompressionCodec) (desc : AST) (can_substitute : bool) (s : survey)
  : survey := {|
  codecs_descriptions := codecs_descriptions s ++ [desc];
  with_compression_codec := with_compression_codec s || isCompression codec;
  with_none_codec := with_none_codec s || isNone codec;
  first_generic_compression_codec_pos :=
    if isGenericCompression codec && bool_decide (first_generic_compression_codec_pos s = None) then Some i
    else first_generic_compression_codec_pos s;
  first_delta_codec_pos :=
    if isDeltaCompression codec && bool_decide (first_delta_codec_pos s = None) then Some i
    else first_delta_codec_pos s;
  last_floating_point_time_series_codec_pos :=
    if isFloatingPointTimeSeriesCodec codec then Some i else last_floating_point_time_series_codec_pos s;
  encryption_codecs_pos :=
    if isEncryption codec then encryption_codecs_pos s ++ [i] else encryption_codecs_pos s;
  can_substitute_codec_arguments := can_substitute;
|}.

Fixpoint survey_codecs (factory : CompressionCodecFactory) (column_type : option IDataType)
  (allow_experimental_codecs enable_deflate_qpl_codec enable_zstd_qat_codec : bool)
  (children : list AST) (i : Z) (s : survey) : outcome survey :=
  match children with
  | [] => Ret s
  | inner_codec_ast :: children =>
      '(codec, desc, can_substitute) ←
        element factory column_type allow_experimental_codecs enable_deflate_qpl_codec enable_zstd_qat_codec
          inner_codec_ast (can_substitute_codec_arguments s);
      survey_codecs factory column_type allow_experimental_codecs enable_deflate_qpl_codec enable_zstd_qat_codec
        children (i + 1) (record_codec i codec desc can_substitute s)
  end.

(** The checks of [sanity_check]. *)
Definition sanity_checks (column_type : option IDataType) (s : survey) : outcome unit :=
  let size := Z.of_nat (length (codecs_descriptions s)) in
  let encryption_size := Z.of_nat (length (encryption_codecs_pos s)) in
  _ ← throw_if ((1 <? size) && with_none_codec s) BAD_ARGUMENTS;
  _ ← throw_if (negb (with_compression_codec s) && negb (with_none_codec s) && negb (encryption_size =? size))
        BAD_ARGUMENTS;
  _ ← throw_if (match encryption_codecs_pos s with
                | first :: _ => negb (first =? u64 (size - encryption_size))
                | [] => false
                end) BAD_ARGUMENTS;
  _ ← throw_if (match last_floating_point_time_series_codec_pos s, column_type with
                | Some _, Some type => negb (innerDataTypeIsFloat type)
                | _, _ => false
                end) BAD_ARGUMENTS;
  _ ← throw_if (match first_delta_codec_pos s, last_floating_point_time_series_codec_pos s with
                | Some delta, Some floating_point => delta <? floating_point
                | _, _ => false
                end) BAD_ARGUMENTS;
  throw_if (match first_generic_compression_codec_pos s with
            | Some generic => negb (generic =? u64 (size - 1 - encryption_size))
            | None => false
            end) BAD_ARGUMENTS.

Definition validateCodecAndGetPreprocessedAST (factory : CompressionCodecFactory) (ast : AST)
  (column_type : option IDataType)
  (sanity_check allow_experimental_codecs enable_deflate_qpl_codec enable_zstd_qat_codec : bool) : outcome AST :=
  match ast with
  | ASTFunction _ children =>
      s ← survey_codecs factory column_type allow_experimental_codecs enable_deflate_qpl_codec
            enable_zstd_qat_codec children 0 survey_start;
      _ ← (if sanity_check then sanity_checks column_type s else Ret tt);
      Ret (if can_substitute_codec_arguments s then ASTFunction "CODEC" (codecs_descriptions s) else ast)
  | _ => Throw UNKNOWN_CODEC
  end.

(** [upper_name] is [family_name] in upper case. *)
Definition validateCodec (factory : CompressionCodecFactory) (family_name upper_name : string) (level : option Z)
  (sanity_check allow_experimental_codecs enable_deflate_qpl_codec enable_zstd_qat_codec : bool) : outcome unit :=
  _ ← throw_if (bool_decide (family_name = ""%string)) BAD_ARGUMENTS;
  _ ← validateCodecAndGetPreprocessedAST factory (family_ast upper_name level) None
        sanity_check allow_experimental_codecs enable_deflate_qpl_codec enable_zstd_qat_codec;
  Ret tt.
End factory.
