(* ===== verification/FactoryCorrect.v ===== *)
(** The factory of compression codecs is correct: which codecs it makes, that it undoes
    with the codec it makes from a method byte what a codec it made from an expression has
    compressed, and what the validation of codec expressions accepts and returns
    (src/src/Compression/CompressionFactory.cpp, CompressionFactoryAdditions.cpp). *)

From S2P Require Import Prelude DataTypes CodecBase CodecDelta CodecGCD CodecDoubleDelta CodecGorilla CodecT64.
From S2P Require Import CodecFPC CodecObject LZ4Decompress LZ4Block CodecLibraries CodecEncrypted CompressedBuffers.
From S2P Require Import CodecFactory.
From stdpp Require Import base tactics list numbers strings gmap.
Local Open Scope Z_scope.

(** * Codecs that decode alike *)

(** [m'] returns what [m] returns; they may throw different errors. *)
Definition agree {A} (m m' : outcome A) : Prop := ∀ r, m = Ret r → m' = Ret r.

Lemma agree_refl {A} (m : outcome A) : agree m m.
Proof. by intros r. Qed.

Lemma agree_bind {A B} (m m' : outcome A) (f f' : A → outcome B) :
  agree m m' → (∀ a, agree (f a) (f' a)) → agree (m ≫= f) (m' ≫= f').
Proof. intros Hm Hf r (x & ->%Hm & Hx)%bind_Ret_inv. by apply Hf. Qed.

Lemma agree_throw_if b e e' : agree (throw_if b e) (throw_if b e').
Proof. intros r. by destruct b. Qed.

Lemma agree_like (c' c : codec) :
  getMethodByte c' = getMethodByte c →
  getAdditionalSizeAtTheEndOfBuffer c' = getAdditionalSizeAtTheEndOfBuffer c →
  (∀ source source_size dest uncompressed_size,
     agree (doDecompressData c source source_size dest uncompressed_size)
       (doDecompressData c' source source_size dest uncompressed_size)) →
  decodes_like c' c.
Proof.
  intros Hm Ha Hd. split; [done..|]. intros out source Hun tail dest Ht Hl. rewrite Ha in *.
  destruct (Hun tail dest Ht Hl) as (extra & Hr & He). exists extra. split; [by apply Hd|done].
Qed.

Section multiple_like.
Context `{FreshMemory} (factory_get : Z → outcome codec).

Lemma Multiple_decompress_loop_agree ec ec' source n size buf ubuf source_size :
  agree (Multiple_decompress_loop factory_get ec source n size buf ubuf source_size)
    (Multiple_decompress_loop factory_get ec' source n size buf ubuf source_size).
Proof.
  revert buf ubuf source_size. induction n as [|n IH]; intros buf ubuf source_size; [by intros r|].
  cbn [Multiple_decompress_loop]. apply agree_bind; [|intros [[b u] s]; apply IH].
  unfold Multiple_decompress_step, readDecompressedBlockSize.
  repeat first [apply agree_throw_if|apply agree_refl|apply agree_bind; [|intros ?]].
Qed.

Lemma Multiple_like codecs codecs' ec ec' :
  decodes_like (CompressionCodecMultiple factory_get ec' codecs') (CompressionCodecMultiple factory_get ec codecs).
Proof.
  apply agree_like; [done..|]. intros. simpl. unfold Multiple_doDecompressData.
  repeat first [apply agree_throw_if|apply agree_refl|apply Multiple_decompress_loop_agree|apply agree_bind; [|intros ?]].
Qed.
End multiple_like.

(** * Registration *)

Lemma register_fresh factory name code creator :
  family_name_with_codec factory !! name = None →
  (∀ b, code = Some b → family_code_with_codec factory !! b = None) →
  registerCompressionCodecWithType factory name code creator =
    Ret (mk_factory (<[name := creator]> (family_name_with_codec factory))
      match code with
      | Some b => <[b := creator]> (family_code_with_codec factory)
      | None => family_code_with_codec factory
      end (default_codec factory)).
Proof.
  intros Hn Hc. unfold registerCompressionCodecWithType. rewrite Hn. cbn [mbind outcome_bind].
  rewrite throw_if_false by (apply bool_decide_eq_false; by intros []). cbn [mbind outcome_bind].
  destruct code as [b|]; [|done]. rewrite (Hc b eq_refl).
  by rewrite throw_if_false by (apply bool_decide_eq_false; by intros []).
Qed.

Section families.
Context `{CodecEnvironment}.

Definition no_arguments (creator : outcome ICompressionCodec) : CreatorWithType :=
  λ arguments _, match arguments with Some _ => Throw DATA_TYPE_CANNOT_HAVE_ARGUMENTS | None => creator end.

Definition no_type (creator : Creator) : CreatorWithType := λ arguments _, creator arguments.

(** The families, the last one registered first, with their method bytes. *)
Definition families (factory_get : Z → outcome codec) : list (string * option Z * CreatorWithType) :=
  [("GCD", Some 0x9a, create_GCD);
   ("FPC", Some 0x98, create_FPC);
   ("AES_256_GCM_SIV", Some 0x97, no_type (create_Encrypted Encrypted.AES_256_GCM_SIV));
   ("AES_128_GCM_SIV", Some 0x96, no_type (create_Encrypted Encrypted.AES_128_GCM_SIV));
   ("Gorilla", Some 0x95, create_Gorilla);
   ("DoubleDelta", Some 0x94, create_DoubleDelta);
   ("T64", Some 0x93, create_T64);
   ("Delta", Some 0x92, create_Delta);
   ("Multiple", Some 0x91, no_arguments (Ret (Multiple_default factory_get)));
   ("LZ4HC", None, no_type create_LZ4HC);
   ("ZSTD", Some 0x90, no_type create_ZSTD);
   ("LZ4", Some 0x82, no_arguments (Ret LZ4_object));
   ("NONE", Some 0x02, no_arguments (Ret None_object))]%string.

Definition family_names (factory_get : Z → outcome codec) : gmap string CreatorWithType :=
  list_to_map ((λ f, (f.1.1, f.2)) <$> families factory_get).

Definition family_codes (factory_get : Z → outcome codec) : gmap Z CreatorWithType :=
  list_to_map (omap (λ f, match f.1.2 with Some b => Some (b, f.2) | None => None end) (families factory_get)).

Lemma register_all_families factory_get :
  register_all factory_get = Ret (mk_factory (family_names factory_get) (family_codes factory_get) None).
Proof.
  unfold register_all, registerCodecNone, registerCodecLZ4, registerCodecZSTD, registerCodecLZ4HC,
    registerCodecMultiple, registerCodecDelta, registerCodecT64, registerCodecDoubleDelta, registerCodecGorilla,
    registerCodecEncrypted, registerEncryptionCodec, registerCodecFPC, registerCodecGCD,
    registerSimpleCompressionCodec, registerCompressionCodec, Encrypted.getMethodCode, Encrypted.getMethodName.
  repeat (rewrite register_fresh;
    [cbn [mbind outcome_bind family_name_with_codec family_code_with_codec default_codec]
    |by simplify_map_eq|intros b [= <-]; by simplify_map_eq]).
  reflexivity.
Qed.

(** The factory that the constructor makes. *)
Definition built (factory_get : Z → outcome codec) : CompressionCodecFactory :=
  mk_factory (family_names factory_get) (family_codes factory_get) (Some LZ4_object).

Lemma construct_built factory_get : construct factory_get = Ret (built factory_get).
Proof. unfold construct. rewrite register_all_families. reflexivity. Qed.

Lemma instance_get_S depth b :
  instance_get (S depth) b = (o ← get_code (built (instance_get depth)) b; Ret (codec_of o CORRUPTED_DATA)).
Proof. cbn [instance_get]. by rewrite construct_built. Qed.

Lemma family_names_lookup factory_get name creator :
  family_names factory_get !! name = Some creator →
  (name, creator) ∈ (λ f, (f.1.1, f.2)) <$> families factory_get.
Proof. apply elem_of_list_to_map_2. Qed.

Lemma family_codes_lookup factory_get b creator :
  family_codes factory_get !! b = Some creator →
  (b, creator) ∈ omap (λ f, match f.1.2 with Some b => Some (b, f.2) | None => None end) (families factory_get).
Proof. apply elem_of_list_to_map_2. Qed.

(** * The codecs the factory makes *)

(** The objects of the creators, Multiple apart. *)
Inductive made : ICompressionCodec → Prop :=
| made_NONE : made None_object
| made_LZ4 : made LZ4_object
| made_LZ4HC level : -2 ^ 31 ≤ level < 2 ^ 31 → made (LZ4HC_object level)
| made_ZSTD level window_log :
    -2 ^ 31 ≤ level < 2 ^ 31 → (∀ w, window_log = Some w → -2 ^ 31 ≤ w < 2 ^ 31) →
    made (ZSTD_object level window_log)
| made_Delta n : valid_size n = true → made (Delta_object n)
| made_DoubleDelta n : valid_size n = true → made (DoubleDelta_object n)
| made_Gorilla n : valid_size n = true → made (Gorilla_object n)
| made_GCD n : GCD.valid_gcd_size n = true → made (GCD_object n)
| made_T64 type_idx variant :
    (∀ t, type_idx = Some t → T64.typeIdx (Some t) = t ∧ t ≠ TypeIndex.Nothing) → made (T64_object type_idx variant)
| made_FPC n level : n = 4 ∨ n = 8 → 1 ≤ level ≤ FPC.MAX_COMPRESSION_LEVEL → made (FPC_object n level)
| made_Encrypted method : method ≠ Encrypted.MAX_ENCRYPTION_METHOD → made (Encrypted_object method).

Lemma width_argument_valid children n : width_argument children = Ret n → valid_size n = true.
Proof.
  unfold width_argument. destruct children as [|child [|]]; intros Hn; inv_ret.
  apply negb_false_iff in Hthrow. by destruct (Delta.valid_size_cases _ Hthrow) as (w & -> & ?); rewrite wrap_small by zlia.
Qed.

Lemma getDeltaBytesSize_valid type n : getDeltaBytesSize type = Ret n → valid_size n = true.
Proof.
  unfold getDeltaBytesSize. intros Hn; inv_ret.
  by destruct (Delta.valid_size_cases x) as (w & -> & ?); [done|]; rewrite wrap_small by zlia.
Qed.

Lemma width_of_valid arguments type n : width_of arguments type = Ret n → valid_size n = true.
Proof.
  unfold width_of.
  destruct arguments as [[|? ?]|], type as [type|]; intros Hn;
    try (by eapply getDeltaBytesSize_valid); try (by eapply width_argument_valid); by inv_ret.
Qed.

Lemma getGCDBytesSize_valid type n : getGCDBytesSize type = Ret n → GCD.valid_gcd_size n = true.
Proof.
  unfold getGCDBytesSize. intros Hn; inv_ret. rewrite wrap_small; [done|].
  unfold GCD.valid_gcd_size in *. rewrite !orb_true_iff, !Z.eqb_eq in *. zlia.
Qed.

Lemma int_argument_range a x : int_argument a = Ret x → -2 ^ 31 ≤ x < 2 ^ 31.
Proof.
  unfold int_argument. destruct a; intros Hx; inv_ret. apply (to_signed_range 4). lia.
Qed.

Lemma getFloatBytesSize_valid type n : getFloatBytesSize type = Ret n → n = 4 ∨ n = 8.
Proof.
  unfold getFloatBytesSize. intros Hn; inv_ret. apply negb_false_iff in Hthrow.
  destruct type as [idx| | | | | |]; try discriminate. destruct idx; try discriminate; cbn in Hret; inv_ret; auto.
Qed.

Lemma FPC_arguments_valid children n level n' :
  FPC_arguments children n = Ret (level, n') → n = 4 ∨ n = 8 →
  (n' = 4 ∨ n' = 8) ∧ 1 ≤ level ≤ FPC.MAX_COMPRESSION_LEVEL.
Proof.
  unfold FPC_arguments, FPC.MAX_COMPRESSION_LEVEL. intros Hf Hn.
  destruct children as [|child rest]; [by injection Hf as <- <-|]. inv_ret.
  apply orb_false_iff in Hthrow0 as [?%Z.ltb_ge ?%Z.ltb_ge].
  destruct rest as [|[| |value|] rest]; inv_ret; simplify_eq; [auto|].
  split; [|done]. apply andb_false_iff in Hthrow1 as [?%negb_false_iff%Z.eqb_eq|?%negb_false_iff%Z.eqb_eq]; subst; auto.
Qed.

Lemma create_T64_made arguments type o : create_T64 arguments type = Ret o → made o.
Proof.
  unfold create_T64. intros Ho. inv_ret; constructor; intros t [= <-].
  all: match goal with H : bool_decide (T64.typeIdx _ = _) = false |- _ => apply bool_decide_eq_false in H end.
  all: split; [by destruct (getTypeId _)|done].
Qed.

Lemma create_FPC_made arguments type o : create_FPC arguments type = Ret o → made o.
Proof.
  unfold create_FPC. intros (x & Hx & Ho)%bind_Ret_inv.
  assert (x = 4 ∨ x = 8) as Hw by (destruct type; inv_ret; eauto using getFloatBytesSize_valid). clear Hx.
  inv_ret. destruct (FPC_arguments_valid _ _ _ _ Hret Hw) as [? ?]. by constructor.
Qed.

Lemma create_GCD_made arguments type o : create_GCD arguments type = Ret o → made o.
Proof.
  unfold create_GCD. destruct arguments as [[|? ?]|]; intros Ho; inv_ret; apply made_GCD;
    first [done|by eapply getGCDBytesSize_valid].
Qed.

Lemma create_ZSTD_made arguments o : create_ZSTD arguments = Ret o → made o.
Proof.
  unfold create_ZSTD. destruct arguments as [[|child rest]|]; intros Ho; inv_ret; [by constructor| |by constructor].
  apply int_argument_range in Hret. destruct rest as [|window rest]; inv_ret; [by constructor|].
  apply int_argument_range in Hret0. apply made_ZSTD; [done|]. by intros w [= <-].
Qed.

Lemma create_LZ4HC_made arguments o : create_LZ4HC arguments = Ret o → made o.
Proof.
  unfold create_LZ4HC. destruct arguments as [[|child rest]|]; intros Ho; inv_ret; constructor; try lia.
  by eapply int_argument_range.
Qed.

(** What the creator of a family makes. *)
Lemma creator_made factory_get name creator arguments type o :
  (name, creator) ∈ (λ f, (f.1.1, f.2)) <$> families factory_get → name ≠ "Multiple"%string →
  creator arguments type = Ret o → made o.
Proof.
  intros Hc Hn Ho. unfold families in Hc. cbn [fmap list_fmap fst snd] in Hc.
  repeat (apply elem_of_cons in Hc as [[= -> ->]|Hc]; [|try by apply elem_of_nil in Hc]);
    try done; eauto using create_T64_made, create_FPC_made, create_GCD_made, create_ZSTD_made, create_LZ4HC_made;
    unfold no_type, no_arguments, create_Encrypted, create_Delta, create_DoubleDelta, create_Gorilla in Ho;
    inv_ret; try (constructor; by eapply width_of_valid).
  all: try by constructor.
  all: destruct arguments as [[|? ?]|]; inv_ret; by constructor.
Qed.

Lemma getImpl_made factory_get name arguments type o :
  getImpl (built factory_get) name arguments type = Ret o → made o.
Proof.
  unfold getImpl, built. cbn [family_name_with_codec]. intros Ho. inv_ret. apply bool_decide_eq_false in Hthrow.
  by eapply creator_made; [apply family_names_lookup| |].
Qed.

(** * Decoding *)

Lemma get_code_like factory_get o ec :
  made o →
  ∃ o', get_code (built factory_get) (getMethodByte (codec_of o ec)) = Ret o' ∧
    ∀ ec', decodes_like (codec_of o' ec') (codec_of o ec).
Proof.
  destruct 1 as [| | | | | | | | | |[] ?]; try done; (eexists; split; [reflexivity|]); intros ec';
    first [apply None_like|apply agree_like; [done..|]; intros; apply agree_refl].
Qed.

Lemma get_codecs_made factory_get type only_generic children codecs :
  get_codecs (built factory_get) type (Some LZ4_object) only_generic children = Ret codecs → Forall made codecs.
Proof.
  revert codecs. induction children as [|child children IH]; intros codecs Hc; cbn [get_codecs] in Hc.
  - injection Hc as <-. constructor.
  - apply bind_Ret_inv in Hc as ([name arguments] & _ & Hc).
    apply bind_Ret_inv in Hc as (o & Ho & Hc). apply bind_Ret_inv in Hc as (os & Hos & Hc). injection Hc as <-.
    assert (made o) as Hm by (destruct (decide _); [injection Ho as <-; constructor|by eapply getImpl_made]).
    destruct (only_generic && _); [by apply IH|]. constructor; [done|by apply IH].
Qed.

Lemma made_desc o : made o → ∃ desc, getCodecDesc o = Ret desc.
Proof. by destruct 1 as [| | |? []| | | | |? []| |[]]; eexists. Qed.

Lemma all_descs_made codecs : Forall made codecs → ∃ descs, all_descs codecs = Ret descs.
Proof.
  induction 1 as [|o os Ho _ (descs & IH)]; [by eexists|]. destruct (made_desc o Ho) as [desc Hd].
  exists (desc :: descs). cbn [all_descs]. by rewrite Hd; cbn; rewrite IH.
Qed.

Lemma instance_get_like depth o :
  made o →
  ∃ c', instance_get (S depth) (getMethodByte (codec_of o CORRUPTED_DATA)) = Ret c' ∧
    decodes_like c' (codec_of o CORRUPTED_DATA).
Proof.
  intros Ho. destruct (get_code_like (instance_get depth) o CORRUPTED_DATA Ho) as (o' & Hg & Hl).
  exists (codec_of o' CORRUPTED_DATA). rewrite instance_get_S, Hg. auto.
Qed.

(** The codecs made from method bytes. *)
Lemma get_code_cases factory_get m o :
  get_code (built factory_get) m = Ret o →
  made o ∧ m = getMethodByte (codec_of o CORRUPTED_DATA) ∨ o = Multiple_default factory_get ∧ m = method_byte Multiple.
Proof.
  unfold get_code, built. cbn [family_code_with_codec]. intros Ho. destruct (family_codes _ !! m) as [creator|] eqn:E; [|done].
  apply family_codes_lookup in E. unfold families in E. cbn [omap list_omap fst snd] in E.
  repeat (apply elem_of_cons in E as [[= -> ->]|E]; [|try by apply elem_of_nil in E]);
    cbn in Ho; injection Ho as <-; first [by right|left; split; [constructor; solve [done|by left]|done]].
Qed.

#[export] Instance factory_ok factory_get : FactoryOk (get_code (built factory_get)).
Proof.
  split.
  - intros m o ec [[Hm _]|[-> _]]%get_code_cases; [destruct Hm|]; cbn; unfold LZ4.ADDITIONAL_BYTES_AT_END_OF_BUFFER, max_additional; lia.
  - intros m o ec [[Hm ->]|[-> ->]]%get_code_cases; [by destruct Hm|done].
  - intros m o [[Hm _]|[-> _]]%get_code_cases; [by destruct Hm|done].
Qed.

Lemma get_code_defined factory_get m : defined (get_code (built factory_get) m).
Proof.
  unfold get_code, built. cbn [family_code_with_codec]. destruct (family_codes _ !! m) as [creator|] eqn:E; [|done].
  apply family_codes_lookup in E. unfold families in E. cbn [omap list_omap fst snd] in E.
  by repeat (apply elem_of_cons in E as [[= -> ->]|E]; [|try by apply elem_of_nil in E]).
Qed.

Lemma family_names_domain factory_get name :
  is_Some (family_names factory_get !! name) ↔
    name ∈ ["GCD"; "FPC"; "AES_256_GCM_SIV"; "AES_128_GCM_SIV"; "Gorilla"; "DoubleDelta"; "T64"; "Delta";
            "Multiple"; "LZ4HC"; "ZSTD"; "LZ4"; "NONE"]%string.
Proof.
  rewrite <- elem_of_dom. unfold family_names. by rewrite dom_list_to_map_L, elem_of_list_to_set.
Qed.

Lemma get_code_range factory_get m :
  let codes := [0x9a; 0x98; 0x97; 0x96; 0x95; 0x94; 0x93; 0x92; 0x91; 0x90; 0x82; 0x02] in
  match get_code (built factory_get) m with
  | Ret o => m ∈ codes ∧
      ∀ ec, getMethodByte (codec_of o ec) = m ∧ 0 ≤ getAdditionalSizeAtTheEndOfBuffer (codec_of o ec) ≤ 64 ∧
        (isNone o = true → codec_of o = CompressionCodecNone)
  | Throw e => e = UNKNOWN_CODEC ∧ m ∉ codes
  | UB | OutOfFuel => False
  end.
Proof.
  intros codes. pose proof (get_code_defined factory_get m) as Hd.
  assert (m ∈ codes ↔ is_Some (family_codes factory_get !! m)) as Hdom.
  { rewrite <- elem_of_dom. unfold family_codes. by rewrite dom_list_to_map_L, elem_of_list_to_set. }
  destruct (get_code (built factory_get) m) as [o|e| |] eqn:E; try done.
  - split.
    + apply Hdom. unfold get_code in E. cbn [family_code_with_codec built] in E. by destruct (family_codes _ !! m).
    + intros ec. apply get_code_cases in E as [[Hm ->]|[-> ->]]; [destruct Hm as [| | | | | | | | | |[]]|]; cbn;
        unfold LZ4.ADDITIONAL_BYTES_AT_END_OF_BUFFER; split_and!; done || lia.
  - rewrite Hdom. unfold get_code in E. cbn [family_code_with_codec built] in E.
    destruct (family_codes _ !! m) as [creator|] eqn:F.
    + exfalso. apply family_codes_lookup in F. unfold families in F. cbn [omap list_omap fst snd] in F.
      by repeat (apply elem_of_cons in F as [[= -> ->]|F]; [|try by apply elem_of_nil in F]).
    + injection E as <-. split; [done|]. by intros [].
Qed.

(** The codec that the factory makes of a list of codecs. *)
Definition combined (factory_get : Z → outcome codec) (codecs : list ICompressionCodec) : outcome ICompressionCodec :=
  match codecs with
  | [codec] => Ret codec
  | [] => Ret None_object
  | _ => Multiple_object factory_get codecs
  end.

Lemma combined_total factory_get codecs : Forall made codecs → ∃ o, combined factory_get codecs = Ret o.
Proof.
  intros Hm. destruct codecs as [|o1 [|o2 codecs]]; [by eexists..|]. unfold combined, Multiple_object.
  destruct (all_descs_made _ Hm) as [descs ->]. by eexists.
Qed.

(** What a codec that the factory made has compressed is undone by the codec that the
    factory makes from its method byte. *)
Lemma combined_like factory_get codecs o ec :
  Forall made codecs → combined factory_get codecs = Ret o →
  ∃ o', get_code (built factory_get) (getMethodByte (codec_of o ec)) = Ret o' ∧
    ∀ ec', decodes_like (codec_of o' ec') (codec_of o ec).
Proof.
  intros Hm Ho. destruct codecs as [|o1 [|o2 codecs]]; cbn [combined] in Ho.
  - injection Ho as <-. apply get_code_like. constructor.
  - injection Ho as <-. apply get_code_like. by inversion Hm.
  - unfold Multiple_object in Ho. inv_ret. eexists. split; [reflexivity|]. intros ec'. apply Multiple_like.
Qed.

(** The sources that a list of codecs takes. *)
Definition accepts (codecs : list codec) (source : bytes) : Prop :=
  match codecs with
  | [] => True
  | [c] => ∃ valid, CodecCorrect c valid ∧ valid source ∧ 0 ≤ getMaxCompressedDataSize c (blen source) ∧
      9 + getMaxCompressedDataSize c (blen source) < 2 ^ 32
  | _ => (length codecs ≤ 255)%nat ∧ chain codecs (blen source) source ∧
      0 ≤ foldl (λ n c, getCompressedReserveSize c n) (blen source) codecs < 2 ^ 32 - 265
  end.

Lemma combined_correct depth codecs o source :
  Forall made codecs → combined (instance_get (S depth)) codecs = Ret o → 0 < blen source < 2 ^ 31 →
  accepts ((λ o, codec_of o CORRUPTED_DATA) <$> codecs) source →
  let c := codec_of o CORRUPTED_DATA in
  ∃ valid, CodecCorrect c valid ∧ valid source ∧
    0 ≤ getMaxCompressedDataSize c (blen source) ∧ 9 + getMaxCompressedDataSize c (blen source) < 2 ^ 32.
Proof.
  intros Hm Ho Hs Ha. destruct codecs as [|o1 [|o2 codecs]]; cbn [combined] in Ho.
  - injection Ho as <-. exists (λ _, True). split; [apply None_correct|]. simpl. zlia.
  - injection Ho as <-. exact Ha.
  - unfold Multiple_object in Ho. inv_ret. set (all := o1 :: o2 :: codecs) in *.
    set (cs := (λ o, codec_of o CORRUPTED_DATA) <$> all) in *.
    change ((length cs ≤ 255)%nat ∧ chain cs (blen source) source ∧
      0 ≤ foldl (λ n c, getCompressedReserveSize c n) (blen source) cs < 2 ^ 32 - 265) in Ha.
    destruct Ha as (H255 & Hchain & Hfold).
    set (size := 1 + Z.of_nat (length cs) + foldl (λ n c, getCompressedReserveSize c n) (blen source) cs).
    intros c. assert (getMaxCompressedDataSize c (blen source) = size) as HM
      by (change (wrap 4 size = size); apply wrap_small; unfold size; zlia).
    exists (λ s, s = source). split_and!; [|done|rewrite HM; unfold size; lia..].
    split; [split; vm_compute; done|done|]. intros s tail dest Hb -> Hd.
    destruct (Multiple_compress (instance_get (S depth)) CORRUPTED_DATA cs source tail dest) as (out & Hc & Hob & Hl & Hun);
      [done|done| |done|lia|done|by exists out].
    intros c0 (oc & -> & Hoc)%list_elem_of_fmap. apply instance_get_like. by eapply Forall_forall.
Qed.
(** ** The sizes that codecs take *)

(** What the libraries promise, and that the width with which Gorilla was first used is one of
    the four that it knows. *)
Class EnvironmentOk := {
  environment_lz4 : LZ4LibraryOk;
  environment_zstd : ZSTDLibraryOk;
  environment_openssl : Encrypted.OpenSSLOk;
  environment_gcd a b : 0 ≤ a → 0 ≤ b → env_boost_gcd a b = Z.gcd a b;
  environment_libdivide t x d :
    t = 4 ∨ t = 8 → 0 ≤ x < 2 ^ (8 * t) → 0 < d < 2 ^ (8 * t) → env_libdivide t x d = x / d;
  environment_gorilla : valid_size env_gorilla_first_bytes_size = true;
}.

(** [takes o n]: the codec [o] takes every source of [n] bytes. DoubleDelta and T64 want whole
    values, Gorilla one value and a first use with values that were not narrower, T64 a type,
    and encryption a current key whose id has at most eight bytes in a block. *)
Inductive takes : ICompressionCodec → Z → Prop :=
| takes_NONE n : takes None_object n
| takes_LZ4 n : 0 < n → takes LZ4_object n
| takes_LZ4HC level n : 0 < n → takes (LZ4HC_object level) n
| takes_ZSTD level window_log n :
    level ≤ ZSTD_maxCLevel → (∀ w, window_log = Some w → ZSTD_window_ok w) → 0 < n → takes (ZSTD_object level window_log) n
| takes_Delta w n : valid_size w = true → 0 < n → takes (Delta_object w) n
| takes_DoubleDelta w n : valid_size w = true → 0 < n ≤ 2 ^ 27 → n mod w = 0 → takes (DoubleDelta_object w) n
| takes_Gorilla w n : valid_size w = true → w ≤ env_gorilla_first_bytes_size → w ≤ n ≤ 2 ^ 27 → takes (Gorilla_object w) n
| takes_GCD w n : GCD.valid_gcd_size w = true → 0 < n → takes (GCD_object w) n
| takes_T64 t variant signed w n :
    T64.type_width t = Some (signed, w) → 0 < n → n mod Z.of_nat w = 0 → takes (T64_object (Some t) variant) n
| takes_FPC w level n : w = 4 ∨ w = 8 → 1 ≤ level ≤ FPC.MAX_COMPRESSION_LEVEL → 0 < n → takes (FPC_object w level) n
| takes_Encrypted method p key n :
    method ≠ Encrypted.MAX_ENCRYPTION_METHOD → env_encryption = Some p → Encrypted.params_ok p →
    Encrypted.keys_storage p method !! Encrypted.current_key_id p method = Some key →
    (Encrypted.current_key_id p method < 2 ^ 56 ∨ Encrypted.effective_nonce p method = Encrypted.empty_nonce) →
    0 < n → takes (Encrypted_object method) n.

Section takes.
Context `{!EnvironmentOk}.
#[local] Existing Instances environment_lz4 environment_zstd environment_openssl.

(** What a codec promises of the sources of a size it takes. *)
Lemma takes_correct o n :
  takes o n → n < DBMS_MAX_COMPRESSED_SIZE →
  ∃ valid, CodecCorrect (codec_of o CORRUPTED_DATA) valid ∧ ∀ source, blen source = n → valid source.
Proof.
  unfold DBMS_MAX_COMPRESSED_SIZE. destruct 1; intros Hmax.
  - exists (λ _, True). split; [apply None_correct|done].
  - eexists. split; [apply lz4_correct|]. intros source <-. unfold lz4_valid, LZ4_MAX_INPUT_SIZE. lia.
  - eexists. split; [apply lz4hc_correct|]. intros source <-. unfold lz4_valid, LZ4_MAX_INPUT_SIZE. lia.
  - eexists. split; [by apply zstd_correct|]. intros source <-. simpl. lia.
  - eexists. split; [by apply Delta.delta_correct|]. intros source <-. simpl. zlia.
  - eexists. split; [by apply DoubleDelta.double_delta_correct|]. intros source <-. done.
  - eexists. split; [apply Gorilla.gorilla_correct; [done|apply environment_gorilla|done]|]. intros source <-. done.
  - eexists. split; [apply GCD.gcd_correct; [apply environment_gcd|apply environment_libdivide|done]|]. intros source <-. simpl. zlia.
  - eexists. split; [by eapply T64.t64_correct|]. intros source <-. simpl. zlia.
  - eexists. split; [apply FPC.fpc_correct; [rewrite orb_true_iff, !Z.eqb_eq; tauto|done]|].
    intros source <-. simpl. unfold FPC.max_source. zlia.
  - eexists. split; [cbn; match goal with He : env_encryption = _ |- _ => rewrite He end; by eapply Encrypted.encrypted_correct|]. intros source <-. simpl. zlia.
Qed.

(** More is reserved for a larger source, and few bytes are wanted behind a block. *)
Lemma takes_sizes o n m :
  takes o n → n < DBMS_MAX_COMPRESSED_SIZE → 0 < m ≤ n →
  let c := codec_of o CORRUPTED_DATA in
  0 ≤ getMaxCompressedDataSize c m ≤ getMaxCompressedDataSize c n ∧ getAdditionalSizeAtTheEndOfBuffer c ≤ max_additional.
Proof.
  unfold DBMS_MAX_COMPRESSED_SIZE, max_additional. intros Ht Hn Hm. cbv zeta. split; [|destruct Ht; cbn; unfold LZ4.ADDITIONAL_BYTES_AT_END_OF_BUFFER; lia].
  destruct Ht; cbn [codec_of described None_object LZ4_object LZ4HC_object ZSTD_object Delta_object DoubleDelta_object Gorilla_object GCD_object T64_object FPC_object Encrypted_object].
  - simpl. lia.
  - simpl. rewrite !lz4_max_size by (unfold LZ4_MAX_INPUT_SIZE; lia). dlia.
  - simpl. rewrite !lz4_max_size by (unfold LZ4_MAX_INPUT_SIZE; lia). dlia.
  - simpl. rewrite !zstd_max_size by zlia. destruct (Z.ltb_spec m (2 ^ 17)), (Z.ltb_spec n (2 ^ 17)); dlia.
  - simpl. unfold Delta.getMaxCompressedDataSize. rewrite !wrap_small by zlia. lia.
  - apply DoubleDelta.double_delta_getMax_mono; [done|lia|unfold DoubleDelta.max_source; lia].
  - apply Gorilla.gorilla_getMax_mono; [done|apply environment_gorilla|lia|unfold Gorilla.max_source; lia].
  - simpl. unfold GCD.getMaxCompressedDataSize, GCD.valid_gcd_size in *. rewrite !orb_true_iff, !Z.eqb_eq in *.
    rewrite !wrap_small by zlia. lia.
  - simpl. unfold T64.getMaxCompressedDataSize, T64.MAX_COMPRESSED_BLOCK_SIZE, T64.HEADER_SIZE. rewrite !wrap_small by zlia. lia.
  - apply FPC.fpc_getMax_mono; [rewrite orb_true_iff, !Z.eqb_eq; tauto|lia|unfold FPC.max_source; lia].
  - simpl. unfold Encrypted.getMaxCompressedDataSize, Encrypted.tag_size, Encrypted.key_id_max_size, Encrypted.nonce_max_size.
    rewrite !wrap_small by zlia. lia.
Qed.

(** The sizes between [lo] and [hi] are taken by the first codec, and the sizes of the blocks
    that it may make of them by the ones that follow; no block is too large for a reader. *)
Fixpoint column_takes (codecs : list ICompressionCodec) (lo hi : Z) : Prop :=
  hi + max_additional < DBMS_MAX_COMPRESSED_SIZE ∧
  match codecs with
  | [] => True
  | o :: codecs =>
      (∀ n, lo ≤ n ≤ hi → takes o n) ∧
      column_takes codecs getHeaderSize (getHeaderSize + getMaxCompressedDataSize (codec_of o CORRUPTED_DATA) hi)
  end.

Lemma column_takes_hi codecs lo hi : column_takes codecs lo hi → hi + max_additional < DBMS_MAX_COMPRESSED_SIZE.
Proof. by destruct codecs as [|o codecs]; intros [? _]. Qed.

Lemma column_chain codecs : ∀ lo hi source,
  is_bytes source → 0 < blen source → lo ≤ blen source ≤ hi → column_takes codecs lo hi →
  chain ((λ o, codec_of o CORRUPTED_DATA) <$> codecs) hi source.
Proof.
  induction codecs as [|o codecs IH]; intros lo hi source Hb Hpos Hs [Hhi Ht].
  - constructor; [done|lia|lia].
  - destruct Ht as [Ht Hrest]. rewrite fmap_cons. pose proof (column_takes_hi _ _ _ Hrest) as Hnext.
    unfold max_additional, DBMS_MAX_COMPRESSED_SIZE, getHeaderSize, COMPRESSED_BLOCK_HEADER_SIZE in *.
    destruct (takes_correct o (blen source) (Ht _ Hs)) as (valid & Hc & Hv); [unfold DBMS_MAX_COMPRESSED_SIZE; lia|].
    pose proof (λ m, takes_sizes o hi m (Ht hi ltac:(lia)) ltac:(unfold DBMS_MAX_COMPRESSED_SIZE; lia)) as Hsizes.
    destruct (Hsizes (blen source) ltac:(lia)) as [Hsize Hadd].
    apply (chain_cons _ _ valid); [done|by apply Hv|done|lia|unfold max_additional, DBMS_MAX_COMPRESSED_SIZE; lia|done|zlia| |].
    + intros n Hn. by apply Hsizes.
    + intros out Ho Hl _. eapply IH; [|..|exact Hrest].
      * apply block_bytes; [apply Hc|done].
      * rewrite blen_block. pose proof (blen_nonneg out). lia.
      * rewrite blen_block. pose proof (blen_nonneg out). lia.
Qed.

(** The size that several codecs reserve is that of the last block. *)
Lemma column_reserve codecs : ∀ lo hi,
  0 < lo ≤ hi → column_takes codecs lo hi →
  0 ≤ foldl (λ n c, getCompressedReserveSize c n) hi ((λ o, codec_of o CORRUPTED_DATA) <$> codecs) < DBMS_MAX_COMPRESSED_SIZE.
Proof.
  induction codecs as [|o codecs IH]; intros lo hi Hlo [Hhi Ht]; simpl; unfold max_additional, DBMS_MAX_COMPRESSED_SIZE in *; [lia|].
  destruct Ht as [Ht Hrest]. pose proof (column_takes_hi _ _ _ Hrest) as Hnext.
  unfold max_additional, DBMS_MAX_COMPRESSED_SIZE, getHeaderSize, COMPRESSED_BLOCK_HEADER_SIZE in *.
  destruct (takes_sizes o hi hi (Ht hi ltac:(lia))) as [Hsize _]; [unfold DBMS_MAX_COMPRESSED_SIZE; lia|lia|].
  rewrite reserve_small by zlia. eapply IH; [|exact Hrest]. lia.
Qed.

Lemma column_accepts codecs source :
  is_bytes source → 0 < blen source → (length codecs ≤ 255)%nat → column_takes codecs (blen source) (blen source) →
  accepts ((λ o, codec_of o CORRUPTED_DATA) <$> codecs) source.
Proof.
  intros Hb Hpos Hlen Ht. destruct codecs as [|o1 [|o2 codecs]]; [done| |].
  - destruct Ht as (Hhi & Ht & Hnext & _). unfold max_additional, DBMS_MAX_COMPRESSED_SIZE, getHeaderSize, COMPRESSED_BLOCK_HEADER_SIZE in *.
    destruct (takes_correct o1 (blen source) (Ht (blen source) ltac:(lia))) as (valid & Hc & Hv); [unfold DBMS_MAX_COMPRESSED_SIZE; lia|].
    destruct (takes_sizes o1 (blen source) (blen source) (Ht (blen source) ltac:(lia))) as [Hsize _]; [unfold DBMS_MAX_COMPRESSED_SIZE; lia|lia|].
    exists valid. split_and!; [done|by apply Hv|lia|zlia].
  - pose proof (column_chain _ (blen source) (blen source) source Hb Hpos ltac:(lia) Ht) as Hchain.
    pose proof (column_reserve _ (blen source) (blen source) ltac:(lia) Ht) as Hres. unfold DBMS_MAX_COMPRESSED_SIZE in Hres.
    split; [by rewrite length_fmap|]. split; [exact Hchain|]. zlia.
Qed.
End takes.
End families.

(** * Theorems *)

(** C5: the codec that the factory makes of the expression of a column compresses a source into
    a block from whose method byte alone the factory makes a codec that decompresses it to the
    source. So it is for expressions of up to 255 codecs, also of none or one, although the factory
    gives the codec that decompresses neither the arguments of the expression nor the type of
    the column, for the sizes that the codecs take ([column_takes]): the first one takes the size
    of the source ([takes]), which for DoubleDelta and T64 is a multiple of the width, for Gorilla
    at least the width, and for DoubleDelta and Gorilla at most [2 ^ 27]; each following one takes
    every size that the block of the one before it may have, which DoubleDelta and T64 do with
    values of one byte only; and every block, at the size reserved for it, is smaller than
    DBMS_MAX_COMPRESSED_SIZE by 4096 bytes. T64 has a type, Gorilla was not first used with
    narrower values, and an encryption codec has a current key whose id is below [2 ^ 56]. The
    libraries behave as documented ([EnvironmentOk]). *)
Theorem column_codec_roundtrip `{CodecEnvironment} `{!EnvironmentOk} (depth : nat) (factory : CompressionCodecFactory)
    (name : string) (children : list AST) (type : option IDataType) (codecs : list ICompressionCodec) (source : bytes) :
  instance (S depth) = Ret factory →
  get_codecs factory type (default_codec factory) false children = Ret codecs →
  is_bytes source → 0 < blen source → (length codecs ≤ 255)%nat → column_takes codecs (blen source) (blen source) →
  ∃ o, get_ast (instance_get (S depth)) factory (ASTFunction name children) type None false = Ret o ∧
    let c := codec_of o CORRUPTED_DATA in
    ∀ tail dest dest' ec',
      getCompressedReserveSize c (blen source) ≤ blen dest →
      getAdditionalSizeAtTheEndOfBuffer c ≤ blen tail →
      blen source + getAdditionalSizeAtTheEndOfBuffer c ≤ blen dest' →
      ∃ blk extra m o',
        compress c source (blen source) dest = Ret (over blk dest, blen blk) ∧
        blen blk ≤ getCompressedReserveSize c (blen source) ∧
        readMethod (blk ++ tail) = Ret m ∧ get_code factory m = Ret o' ∧
        decompress (codec_of o' ec') (blk ++ tail) (blen blk) dest' = Ret (source ++ extra, blen source).
Proof.
  unfold instance. rewrite construct_built. intros [= <-] Hcs Hb Hpos Hlen Ht0.
  pose proof (column_accepts codecs source Hb Hpos Hlen Ht0) as Ha.
  assert (0 < blen source < 2 ^ 31) as Hs.
  { pose proof (column_takes_hi _ _ _ Ht0) as Hhi. unfold max_additional, DBMS_MAX_COMPRESSED_SIZE in Hhi. zlia. }
  pose proof (get_codecs_made _ _ _ _ _ Hcs) as Hm. destruct (combined_total (instance_get (S depth)) codecs Hm) as [o Ho].
  exists o. split; [unfold get_ast; cbn [default_codec built] in *; rewrite Hcs; exact Ho|].
  cbv zeta. intros tail dest dest' ec' Hd Ht Hd'. set (c := codec_of o CORRUPTED_DATA) in *.
  destruct (combined_correct depth codecs o source Hm Ho Hs Ha) as (valid & Hcorrect & Hv & Hmin & Hmax).
  destruct (combined_like (instance_get (S depth)) codecs o CORRUPTED_DATA Hm Ho) as (o' & Hg & Hlike).
  fold c in Hcorrect, Hmin, Hmax, Hg, Hlike. rewrite reserve_small in * by done.
  destruct (block_roundtrip c valid source [] dest Hb Hv) as (out & Hc & Hob & Hl & _ & Hun); [lia|lia|lia|].
  destruct (Hlike ec') as [Hlm Hla Hlu]. rewrite <- Hla in Ht, Hd'.
  destruct (Hlu out source Hun tail dest' Ht Hd') as (extra & Hdec & _).
  exists (CodecBase.block c out (blen source)), extra, (getMethodByte c), o'. rewrite app_nil_r in Hc.
  split_and!; [done|rewrite blen_block; lia|apply block_method|done|].
  unfold CodecBase.block. rewrite <- Hlm. by apply decompress_block; [lia|lia|].
Qed.

(** C39: in a build without the accelerators QAT and QPL (neither USE_QATLIB nor USE_QPL), whose codecs
    ZSTD_QAT and DEFLATE_QPL are not modelled, the constructor of the factory registers its thirteen
    families without a clash of names or of method bytes, and sets the default codec to LZ4. [get] of a byte makes a codec whose
    method byte is that byte, needs at most 64 bytes at the end of buffers, is of the class of
    NONE if it says so, and throws UNKNOWN_CODEC for every byte but those of the twelve families
    that have one; LZ4HC has none of its own. *)
Theorem factory_registers_all `{CodecEnvironment} (depth : nat) :
  ∃ factory, instance depth = Ret factory ∧ default_codec factory = Some LZ4_object ∧
    (∀ name, is_Some (family_name_with_codec factory !! name) ↔
       name ∈ ["GCD"; "FPC"; "AES_256_GCM_SIV"; "AES_128_GCM_SIV"; "Gorilla"; "DoubleDelta"; "T64"; "Delta";
               "Multiple"; "LZ4HC"; "ZSTD"; "LZ4"; "NONE"]%string) ∧
    ∀ m, match get_code factory m with
         | Ret o => m ∈ [0x9a; 0x98; 0x97; 0x96; 0x95; 0x94; 0x93; 0x92; 0x91; 0x90; 0x82; 0x02] ∧
             ∀ ec, getMethodByte (codec_of o ec) = m ∧
               0 ≤ getAdditionalSizeAtTheEndOfBuffer (codec_of o ec) ≤ 64 ∧
               (isNone o = true → codec_of o = CompressionCodecNone)
         | Throw e => e = UNKNOWN_CODEC ∧
             m ∉ [0x9a; 0x98; 0x97; 0x96; 0x95; 0x94; 0x93; 0x92; 0x91; 0x90; 0x82; 0x02]
         | UB | OutOfFuel => False
         end.
Proof.
  exists (built (instance_get depth)). split; [apply construct_built|]. split; [done|]. generalize (instance_get depth).
  intros factory_get. split; [apply family_names_domain|]. intros m. apply get_code_range.
Qed.

(** Of the codecs that the factory makes from method bytes, NONE, LZ4, Delta, T64,
    DoubleDelta and FPC decompress any bytes whatever without undefined behaviour and to the
    end, staying within the source and the destination; ZSTD and the encryption are up to
    their libraries, and GCD, Gorilla and Multiple are not safe on every input. *)
Theorem factory_codecs_safe `{CodecEnvironment} (depth : nat) (factory : CompressionCodecFactory)
    (method : CompressionMethodByte) (o : ICompressionCodec) (ec : ErrorCode) :
  instance depth = Ret factory →
  method = NONE ∨ method = LZ4 ∨ method = CodecBase.Delta ∨ method = CodecBase.T64 ∨
    method = CodecBase.DoubleDelta ∨ method = CodecBase.FPC →
  get_code factory (method_byte method) = Ret o → CodecSafe (codec_of o ec).
Proof.
  unfold instance. rewrite construct_built. intros [= <-]. generalize (instance_get depth). intros factory_get Hm Ho.
  assert (o = None_object ∨ o = LZ4_object ∨ o = Delta_object 1 ∨ o = T64_object None T64.Byte ∨
    o = DoubleDelta_object 1 ∨ o = FPC_object 4 FPC.DEFAULT_COMPRESSION_LEVEL) as Hcases.
  { destruct Hm as [->|[->|[->|[->|[->| ->]]]]]; cbn in Ho; injection Ho as <-; tauto. }
  destruct Hcases as [->|[->|[->|[->|[->| ->]]]]]; cbn; apply _.
Qed.

(** An environment: the LZ4 library of literals, a ZSTD that stores, and the cipher that
    stores. *)
Module ConcreteEnvironment.
Export LiteralLibrary.

#[export] Instance zstd : ZSTDLibrary := {|
  ZSTD_compressBound n := n + n / 2 ^ 8 + (if n <? 2 ^ 17 then (2 ^ 17 - n) / 2 ^ 11 else 0);
  ZSTD_compress2 _ _ source _ := Some source;
  ZSTD_decompress source _ := Some source;
  ZSTD_maxCLevel := 22;
  ZSTD_windowLog_bounds := Some (10, 31);
|}.

#[export, refine] Instance memory : FreshMemory := {| CodecBase.fresh n := replicate n 0 |}.
Proof. - intros n. apply length_replicate. - intros n. by apply Forall_replicate. Defined.

#[export] Instance environment : CodecEnvironment := {|
  env_memory := memory;
  env_lz4 := library;
  env_lz4_build := build;
  env_zstd := zstd;
  env_openssl := Encrypted.identity_cipher;
  env_boost_gcd := Z.gcd;
  env_libdivide _ a b := a / b;
  env_encryption := None;
  env_siphash _ := 0;
  env_gorilla_first_bytes_size := 8;
|}.

#[export] Instance environment_ok : EnvironmentOk.
Proof.
  split; [apply _| |apply Encrypted.identity_cipher_ok|done|done|done]. split; [done|].
  intros level window_log source capacity _ _ Hb Hs Hc. exists source. split_and!; [done|done| |done].
  cbn [ZSTD_compressBound zstd env_zstd environment] in Hc.
  destruct (Z.ltb_spec (blen source) (2 ^ 17)); dlia.
Qed.
End ConcreteEnvironment.

Import ConcreteEnvironment.

Lemma factory_codecs_safe_witness :
  ∃ factory o, instance 1 = Ret factory ∧ get_code factory 0x93 = Ret o ∧ CodecSafe (codec_of o CANNOT_DECOMPRESS).
Proof.
  exists (built (instance_get 1)), (T64_object None T64.Byte). split; [apply construct_built|]. split; [reflexivity|].
  apply (factory_codecs_safe 1 (built (instance_get 1)) CodecBase.T64);
    [apply construct_built|right; right; right; left; reflexivity|reflexivity].
Defined.

Lemma delta_lz4_takes : column_takes [Delta_object 2; LZ4_object] 9 9.
Proof.
  split; [done|]. split; [intros n Hn; constructor; [done|lia]|]. split; [done|].
  split; [intros n Hn; constructor; unfold getHeaderSize, COMPRESSED_BLOCK_HEADER_SIZE in Hn; lia|]. split; [|done].
  vm_compute. reflexivity.
Qed.

Definition delta_lz4 : list AST := [ASTFunction "Delta" [uint_literal 2]; ASTIdentifier "LZ4"].

Lemma delta_lz4_codecs factory_get :
  get_codecs (built factory_get) None (Some LZ4_object) false delta_lz4 = Ret [Delta_object 2; LZ4_object].
Proof. reflexivity. Qed.

Lemma delta_lz4_ast factory_get :
  get_ast factory_get (built factory_get) (ASTFunction "CODEC" delta_lz4) None None false =
    Ret (Multiple_with factory_get [Delta_object 2; LZ4_object] (Some (ASTFunction "CODEC" delta_lz4))).
Proof. reflexivity. Qed.

Lemma column_codec_roundtrip_witness :
  let source := [1; 0; 2; 0; 3; 0; 4; 0; 5] in
  ∃ factory o blk extra m o',
    instance 1 = Ret factory ∧
    get_ast (instance_get 1) factory (ASTFunction "CODEC" delta_lz4) None None false = Ret o ∧
    compress (codec_of o CORRUPTED_DATA) source 9 (replicate 60 0) = Ret (over blk (replicate 60 0), blen blk) ∧
    readMethod (blk ++ []) = Ret m ∧ get_code factory m = Ret o' ∧
    decompress (codec_of o' CANNOT_DECOMPRESS) (blk ++ []) (blen blk) (replicate 9 0) = Ret (source ++ extra, 9).
Proof.
  intros source. exists (built (instance_get 1)).
  destruct (column_codec_roundtrip 0 (built (instance_get 1)) "CODEC" delta_lz4 None [Delta_object 2; LZ4_object] source
    (construct_built _) (delta_lz4_codecs _)) as (o & Ho & Hrt); [by apply is_bytes_compute|by vm_compute|simpl; lia|exact delta_lz4_takes|].
  rewrite delta_lz4_ast in Ho. injection Ho as <-.
  destruct (Hrt [] (replicate 60 0) (replicate 9 0) CANNOT_DECOMPRESS) as (blk & extra & m & o' & H1 & _ & H2 & H3 & H4).
  1-3: vm_compute; congruence.
  eexists _, blk, extra, m, o'. split; [apply construct_built|]. split; [apply delta_lz4_ast|]. split_and!; assumption.
Defined.
