(* ===== verification/FactoryValidation.v ===== *)
(** The validation of codec expressions (src/src/Compression/CompressionFactoryAdditions.cpp):
    the expressions that the sanity check accepts, and that the expression it returns means
    the same as the one it was given. *)

From S2P Require Import Prelude DataTypes CodecBase CodecDelta CodecGCD CodecDoubleDelta CodecGorilla CodecT64.
From S2P Require Import CodecFPC CodecObject CodecLibraries CodecEncrypted CodecFactory FactoryCorrect.
From stdpp Require Import base tactics list numbers strings gmap.
Local Open Scope Z_scope.

(** * Positions *)

(** The positions, from [i] on, of the elements that satisfy [p]. *)
Fixpoint positions {A} (p : A → bool) (i : Z) (l : list A) : list Z :=
  match l with
  | [] => []
  | a :: l => if p a then i :: positions p (i + 1) l else positions p (i + 1) l
  end.

Section positions.
Context {A : Type} (p : A → bool).
Implicit Types (l : list A) (i : Z).

Lemma positions_app i l k :
  positions p i (l ++ k) = positions p i l ++ positions p (i + Z.of_nat (length l)) k.
Proof.
  revert i. induction l as [|a l IH]; intros i; simpl; [by rewrite Z.add_0_r|].
  rewrite IH. replace (i + 1 + Z.of_nat (length l)) with (i + Z.of_nat (S (length l))) by lia. by destruct (p a).
Qed.

Lemma positions_none i l : positions p i l = [] ↔ Forall (λ a, p a = false) l.
Proof.
  revert i. induction l as [|a l IH]; intros i; simpl; [done|]. rewrite Forall_cons, <- (IH (i + 1)).
  destruct (p a); naive_solver.
Qed.

Lemma positions_le i l : (length (positions p i l) ≤ length l)%nat.
Proof. revert i. induction l as [|a l IH]; intros i; simpl; [done|]. specialize (IH (i + 1)). destruct (p a); simpl; lia. Qed.

Lemma positions_all i l : length (positions p i l) = length l ↔ Forall (λ a, p a = true) l.
Proof.
  revert i. induction l as [|a l IH]; intros i; simpl; [done|]. rewrite Forall_cons, <- (IH (i + 1)).
  pose proof (positions_le (i + 1) l). destruct (p a); simpl; split; [naive_solver lia|naive_solver lia|lia|naive_solver].
Qed.

(** The first and the last of them. *)
Lemma positions_head i l h ps :
  positions p i l = h :: ps →
  ∃ front a rest, l = front ++ a :: rest ∧ Forall (λ b, p b = false) front ∧ p a = true ∧
    h = i + Z.of_nat (length front) ∧ ps = positions p (h + 1) rest.
Proof.
  revert i. induction l as [|a l IH]; intros i; simpl; [done|]. destruct (p a) eqn:Ha.
  - intros [= <- <-]. exists [], a, l. split_and!; [done|constructor|done|simpl; lia|done].
  - intros (front & b & rest & -> & Hf & Hb & -> & ->)%IH. exists (a :: front), b, rest.
    split_and!; [done|by constructor|done|simpl; lia|f_equal; simpl; lia].
Qed.

Lemma positions_last i l h :
  last (positions p i l) = Some h →
  ∃ front a rest, l = front ++ a :: rest ∧ Forall (λ b, p b = false) rest ∧ p a = true ∧
    h = i + Z.of_nat (length front).
Proof.
  induction l as [|a l IH] using rev_ind; simpl; [done|]. rewrite positions_app. simpl. destruct (p a) eqn:Ha.
  - rewrite last_snoc. intros [= <-]. exists l, a, []. split_and!; [done|constructor|done|done].
  - rewrite app_nil_r. intros (front & b & rest & -> & Hr & Hb & ->)%IH. exists front, b, (rest ++ [a]).
    split_and!; [by rewrite <- app_assoc|by apply Forall_app; split; [|constructor]|done|done].
Qed.
End positions.

(** * The survey *)

(** What the loop of the validation has found out about the codecs [cs]. *)
Record summarises (s : survey) (cs : list ICompressionCodec) : Prop := {
  sum_size : length (codecs_descriptions s) = length cs;
  sum_compression : with_compression_codec s = existsb isCompression cs;
  sum_none : with_none_codec s = existsb isNone cs;
  sum_generic : first_generic_compression_codec_pos s = head (positions isGenericCompression 0 cs);
  sum_delta : first_delta_codec_pos s = head (positions isDeltaCompression 0 cs);
  sum_float : last_floating_point_time_series_codec_pos s = last (positions isFloatingPointTimeSeriesCodec 0 cs);
  sum_encryption : encryption_codecs_pos s = positions isEncryption 0 cs;
}.

Lemma summarises_start : summarises survey_start [].
Proof. done. Qed.

Lemma head_snoc_if {A} (b : bool) (l : list A) x :
  (if b && bool_decide (head l = None) then Some x else head l) = head (l ++ if b then [x] else []).
Proof. destruct l, b; done. Qed.

Lemma summarises_record s cs i c desc can :
  summarises s cs → i = Z.of_nat (length cs) → summarises (record_codec i c desc can s) (cs ++ [c]).
Proof.
  intros [H1 H2 H3 H4 H5 H6 H7] ->. split; simpl.
  - rewrite !length_app. simpl. lia.
  - rewrite existsb_app, H2. simpl. by rewrite orb_false_r.
  - rewrite existsb_app, H3. simpl. by rewrite orb_false_r.
  - by rewrite positions_app, H4, head_snoc_if.
  - by rewrite positions_app, H5, head_snoc_if.
  - rewrite positions_app, H6. simpl. destruct (isFloatingPointTimeSeriesCodec c); [by rewrite last_snoc|by rewrite app_nil_r].
  - rewrite positions_app, H7. simpl. destruct (isEncryption c); [done|by rewrite app_nil_r].
Qed.

(** * What makes sense *)

(** The lists of codecs that make sense for a column. *)
Record sensible (type : option IDataType) (cs : list ICompressionCodec) : Prop := {
  (** NONE is alone. *)
  none_alone o : o ∈ cs → isNone o = true → cs = [o];
  (** Something is compressed, unless that is not wanted or the data is only encrypted. *)
  something_compressed :
    existsb isCompression cs = true ∨ existsb isNone cs = true ∨ Forall (λ o, isEncryption o = true) cs;
  (** Encryption comes last. *)
  encryption_last : ∃ front back, cs = front ++ back ∧
    Forall (λ o, isEncryption o = false) front ∧ Forall (λ o, isEncryption o = true) back;
  (** Codecs for floating-point numbers are for columns of those. *)
  float_column o t : o ∈ cs → isFloatingPointTimeSeriesCodec o = true → type = Some t → innerDataTypeIsFloat t = true;
  (** and do not follow codecs that take differences. *)
  float_not_after_delta before o after : cs = before ++ o :: after → isDeltaCompression o = true →
    Forall (λ o', isFloatingPointTimeSeriesCodec o' = false) after;
  (** Only encryption follows generic compression. *)
  generic_last before o after : cs = before ++ o :: after → isGenericCompression o = true →
    Forall (λ o', isEncryption o' = true) after;
}.

Section checks.
Context (s : survey) (cs : list ICompressionCodec) (Hs : summarises s cs).
Context (type : option IDataType) (Hsize : Z.of_nat (length cs) < 2 ^ 64).
Context (Hboth : Forall (λ o, isGenericCompression o = true → isEncryption o = false) cs).

Lemma check_none :
  (1 <? Z.of_nat (length cs)) && existsb isNone cs = false ↔ (∀ o, o ∈ cs → isNone o = true → cs = [o]).
Proof.
  rewrite andb_false_iff, Z.ltb_ge, <- not_true_iff_false, existsb_elem. split.
  - intros [Hl|Hn] o Ho Hno; [|naive_solver]. destruct cs as [|a [|b cs']]; [by apply elem_of_nil in Ho| |simpl in Hl; lia].
    by apply list_elem_of_singleton in Ho as ->.
  - intros Hall. destruct (decide (Z.of_nat (length cs) ≤ 1)); [by left|]. right. intros (o & Ho & Hno).
    rewrite (Hall o Ho Hno) in *. simpl in *. lia.
Qed.

Lemma check_encryption :
  match positions isEncryption 0 cs with
  | first :: _ => negb (first =? u64 (Z.of_nat (length cs) - Z.of_nat (length (positions isEncryption 0 cs))))
  | [] => false
  end = false ↔
  ∃ front back, cs = front ++ back ∧
    Forall (λ o, isEncryption o = false) front ∧ Forall (λ o, isEncryption o = true) back.
Proof.
  pose proof (positions_le isEncryption 0 cs). rewrite wrap_small by zlia.
  destruct (positions isEncryption 0 cs) as [|h ps] eqn:E.
  - apply positions_none in E. split; [|done]. intros _. exists cs, []. by rewrite app_nil_r.
  - rewrite negb_false_iff, Z.eqb_eq. pose proof E as E'.
    apply positions_head in E' as (front & a & rest & Hc & Hf & Ha & -> & ->).
    pose proof (positions_le isEncryption (0 + Z.of_nat (length front) + 1) rest) as Hle.
    rewrite Hc in *. rewrite length_app. simpl. split.
    + intros Heq. exists front, (a :: rest). split; [done|]. split; [done|]. constructor; [done|].
      apply (positions_all isEncryption (0 + Z.of_nat (length front) + 1)). lia.
    + intros (f & b & Hfb & Hf' & Hb). assert (Forall (λ o, isEncryption o = true) rest) as Hr%(positions_all isEncryption (0 + Z.of_nat (length front) + 1)).
      { apply app_eq_inv in Hfb as [(k & -> & ->)|(k & -> & Hk)].
        - by apply Forall_app in Hb as [_ Hb%Forall_inv_tail].
        - destruct k as [|x k]; simplify_eq/=; [by apply Forall_inv_tail in Hb|].
          apply Forall_app in Hf' as [_ Hf'%Forall_inv]. congruence. }
      lia.
Qed.

Lemma check_delta :
  match head (positions isDeltaCompression 0 cs), last (positions isFloatingPointTimeSeriesCodec 0 cs) with
  | Some delta, Some floating_point => delta <? floating_point
  | _, _ => false
  end = false ↔
  (∀ before o after, cs = before ++ o :: after → isDeltaCompression o = true →
    Forall (λ o', isFloatingPointTimeSeriesCodec o' = false) after).
Proof.
  destruct (positions isDeltaCompression 0 cs) as [|d ds] eqn:Ed; simpl.
  { apply positions_none in Ed. split; [|done]. intros _ before o after Hc Ho. rewrite Hc in Ed.
    apply Forall_app in Ed as [_ Ed%Forall_inv]. congruence. }
  apply positions_head in Ed as (front & a & rest & Hc & Hf & Ha & -> & ->).
  destruct (last _) as [f|] eqn:El.
  - apply positions_last in El as (front' & b & rest' & Hc' & Hr' & Hb & ->). rewrite Z.ltb_ge. split.
    + intros Hle before o after Hcs Ho. apply Forall_forall. intros x Hx.
      destruct (isFloatingPointTimeSeriesCodec x) eqn:Ex; [|done]. exfalso.
      apply list_elem_of_split in Hx as (a1 & a2 & ->).
      assert (length front ≤ length before)%nat.
      { rewrite Hc in Hcs. apply app_eq_inv in Hcs as [(k & -> & Hk)|(k & -> & Hk)]; [|rewrite length_app; lia].
        destruct k as [|x' k]; [rewrite app_nil_r; lia|]. simplify_eq/=.
        apply Forall_app in Hf as [_ Hf%Forall_inv]. congruence. }
      assert (length before + S (length a1) ≤ length front')%nat; [|lia].
      rewrite Hcs in Hc'. replace (before ++ o :: a1 ++ x :: a2) with ((before ++ o :: a1) ++ x :: a2) in Hc'
        by by rewrite <- app_assoc.
      apply app_eq_inv in Hc' as [(k & Hk1 & Hk)|(k & -> & Hk)]; [|rewrite !length_app; simpl; lia].
      destruct k as [|x' k]; [rewrite app_nil_r in Hk1; rewrite <- Hk1, length_app; simpl; lia|].
      simplify_eq/=. apply Forall_app in Hr' as [_ Hr'%Forall_inv]. congruence.
    + intros Hall. specialize (Hall front a rest Hc Ha). rewrite Hc in Hc'.
      destruct (decide (length front' ≤ length front)%nat); [lia|]. exfalso.
      apply app_eq_inv in Hc' as [(k & -> & Hk)|(k & -> & Hk)]; [rewrite length_app in *; lia|].
      destruct k as [|x' k]; [rewrite app_nil_r in *; lia|]. simplify_eq/=.
      apply Forall_app in Hall as [_ Hall%Forall_inv]. congruence.
  - split; [|done]. intros _ before o after Hcs Ho. apply last_None in El.
    apply positions_none in El. rewrite Hcs in El. by apply Forall_app in El as [_ El%Forall_inv_tail].
Qed.

Lemma check_compression :
  negb (existsb isCompression cs) && negb (existsb isNone cs) &&
    negb (Z.of_nat (length (positions isEncryption 0 cs)) =? Z.of_nat (length cs)) = false ↔
  existsb isCompression cs = true ∨ existsb isNone cs = true ∨ Forall (λ o, isEncryption o = true) cs.
Proof.
  rewrite !andb_false_iff, !negb_false_iff, Z.eqb_eq, Nat2Z.inj_iff, positions_all. naive_solver.
Qed.

Lemma check_float :
  match last (positions isFloatingPointTimeSeriesCodec 0 cs), type with
  | Some _, Some type => negb (innerDataTypeIsFloat type)
  | _, _ => false
  end = false ↔
  (∀ o t, o ∈ cs → isFloatingPointTimeSeriesCodec o = true → type = Some t → innerDataTypeIsFloat t = true).
Proof.
  destruct (last _) as [f|] eqn:El.
  - apply positions_last in El as (front & b & rest & Hc & _ & Hb & _). destruct type as [t|]; [|naive_solver].
    rewrite negb_false_iff. split; [by intros Ht o t' _ _ [= <-]|].
    intros Hall. apply (Hall b t); [rewrite Hc; set_solver|done|done].
  - split; [|done]. intros _ o t Ho Hf _. apply last_None, positions_none in El.
    rewrite Forall_forall in El. specialize (El o Ho). simpl in El. congruence.
Qed.

Lemma check_generic front back :
  cs = front ++ back → Forall (λ o, isEncryption o = false) front → Forall (λ o, isEncryption o = true) back →
  match head (positions isGenericCompression 0 cs) with
  | Some generic =>
      negb (generic =? u64 (Z.of_nat (length cs) - 1 - Z.of_nat (length (positions isEncryption 0 cs))))
  | None => false
  end = false ↔
  (∀ before o after, cs = before ++ o :: after → isGenericCompression o = true →
    Forall (λ o', isEncryption o' = true) after).
Proof.
  intros Hc Hf Hb. assert (length (positions isEncryption 0 cs) = length back) as ->.
  { rewrite Hc, positions_app, (proj2 (positions_none _ _ _) Hf). simpl. by apply positions_all. }
  destruct (positions isGenericCompression 0 cs) as [|g gs] eqn:Eg; simpl.
  { apply positions_none in Eg. split; [|done]. intros _ before o after Hcs Ho. rewrite Hcs in Eg.
    apply Forall_app in Eg as [_ Eg%Forall_inv]. congruence. }
  apply positions_head in Eg as (before & a & after & Hcs & Hg & Ha & -> & ->).
  assert (isEncryption a = false) as Hae by (rewrite Forall_forall in Hboth; apply Hboth; [rewrite Hcs; set_solver|done]).
  assert (∃ k, after = k ++ back ∧ front = before ++ a :: k) as (k & -> & ->).
  { rewrite Hcs in Hc. apply app_eq_inv in Hc as [(k & -> & ->)|(k & -> & Hk)].
    - apply Forall_app in Hb as [_ Hb%Forall_inv]. congruence.
    - destruct k as [|x k]; [|simplify_eq/=; eauto]. simplify_eq/=. apply Forall_inv in Hb. congruence. }
  rewrite Hcs, !length_app in *. simpl. rewrite length_app in *. simpl in *. rewrite length_app in *.
  rewrite wrap_small by zlia. rewrite negb_false_iff, Z.eqb_eq. split.
  - intros Heq before' o after' Hcs' Ho. destruct k; [|simpl in Heq; lia]. simpl in *.
    apply app_eq_inv in Hcs' as [(k & -> & Hk)|(k & -> & Hk)].
    + destruct k as [|x k]; [by simplify_eq/=|]. simplify_eq/=. apply Forall_app in Hg as [_ Hg%Forall_inv]. congruence.
    + destruct k as [|x k]; [by simplify_eq/=|]. simplify_eq/=. by apply Forall_app in Hb as [_ Hb%Forall_inv_tail].
  - intros Hall. specialize (Hall before a (k ++ back) eq_refl Ha). destruct k as [|x k]; [simpl; lia|].
    apply Forall_app in Hf as [_ Hf%Forall_inv_tail%Forall_inv]. apply Forall_inv in Hall. congruence.
Qed.

(** The checks pass exactly for the lists of codecs that make sense. *)
Lemma sanity_checks_sensible : sanity_checks type s = Ret tt ↔ sensible type cs.
Proof.
  unfold sanity_checks. destruct Hs as [-> -> -> -> -> -> ->]. split.
  - intros Hok. inv_ret. pose proof (proj1 check_encryption Hthrow1) as (front & back & Hc & Hf & Hb).
    exact (Build_sensible _ _ (proj1 check_none Hthrow) (proj1 check_compression Hthrow0)
      (proj1 check_encryption Hthrow1) (proj1 check_float Hthrow2) (proj1 check_delta Hthrow3)
      (proj1 (check_generic front back Hc Hf Hb) Hok)).
  - intros [H1 H2 H3 H4 H5 H6]. pose proof H3 as (front & back & Hc & Hf & Hb).
    rewrite (proj2 check_none H1), (proj2 check_compression H2), (proj2 check_encryption H3),
      (proj2 check_float H4), (proj2 check_delta H5), (proj2 (check_generic front back Hc Hf Hb) H6). done.
Qed.

Lemma sanity_checks_reject : ¬ sensible type cs → sanity_checks type s = Throw BAD_ARGUMENTS.
Proof.
  rewrite <- sanity_checks_sensible. unfold sanity_checks, throw_if. by repeat case_match.
Qed.
End checks.

(** * The codecs of an expression *)

Lemma defined_bind {A B} (m : outcome A) (f : A → outcome B) :
  defined m → (∀ a, m = Ret a → defined (f a)) → defined (m ≫= f).
Proof. destruct m; simpl; auto. Qed.

Fixpoint getSizeOfValueInMemory_defined (type : IDataType) : defined (getSizeOfValueInMemory type).
Proof.
  destruct type as [idx|n|t|t|elems|k v|t]; simpl; try done.
  - by destruct idx.
  - generalize 0. induction elems as [|elem elems IH]; intros res; [done|].
    pose proof (getSizeOfValueInMemory_defined elem). destruct (getSizeOfValueInMemory elem); try done. apply IH.
Qed.

Section expressions.
Context `{CodecEnvironment} (factory_get : Z → outcome codec).
Abbreviation factory := (built factory_get).

(** Case analysis on all that a creator looks at. *)
Ltac creator_cases :=
  repeat match goal with
  | |- defined (_ ≫= _) => apply defined_bind; [|intros ? ?]
  | |- defined (throw_if ?b _) => by destruct b
  | |- defined (getSizeOfValueInMemory _) => apply getSizeOfValueInMemory_defined
  | |- defined (Ret _) => done
  | |- defined (Throw _) => done
  | |- context [match ?x with _ => _ end] => destruct x
  end; try done.

Lemma uint_argument_defined a : defined (uint_argument a).
Proof. unfold uint_argument, Field.safeGet_UInt64. creator_cases. Qed.

Lemma width_of_defined arguments type : defined (width_of arguments type).
Proof.
  unfold width_of, width_argument, getDeltaBytesSize. creator_cases. apply uint_argument_defined.
Qed.

Lemma FPC_arguments_defined children n : defined (FPC_arguments children n).
Proof.
  unfold FPC_arguments. creator_cases; try apply uint_argument_defined; unfold Field.safeGet_UInt64; creator_cases.
Qed.

Lemma creator_defined name creator arguments type :
  (name, creator) ∈ (λ f, (f.1.1, f.2)) <$> families factory_get → defined (creator arguments type).
Proof.
  intros Hc. unfold families in Hc. cbn [fmap list_fmap fst snd] in Hc.
  repeat (apply elem_of_cons in Hc as [[= -> ->]|Hc]; [|try by apply elem_of_nil in Hc]);
    unfold no_arguments, no_type, create_GCD, create_FPC, create_Encrypted, create_Gorilla, create_DoubleDelta, create_T64,
      create_Delta, create_LZ4HC, create_ZSTD, getGCDBytesSize, getFloatBytesSize, int_argument, T64_variant;
    creator_cases; try apply width_of_defined; try apply FPC_arguments_defined;
    unfold Field.safeGet_UInt64, Field.safeGet_String; creator_cases.
Qed.

Lemma getImpl_defined name arguments type : defined (getImpl factory name arguments type).
Proof.
  unfold getImpl. apply defined_bind; [by destruct (bool_decide _)|]. intros _ _. cbn [family_name_with_codec built].
  destruct (family_names factory_get !! name) eqn:E; [|done].
  by eapply creator_defined, family_names_lookup.
Qed.

Lemma over_streams_defined name arguments types prev can :
  defined (over_streams factory name arguments types prev can).
Proof.
  revert prev can. induction types as [|t types IH]; intros prev can; [done|]. cbn [over_streams].
  apply defined_bind; [apply getImpl_defined|]. intros o _. apply IH.
Qed.

Lemma over_streams_made name arguments types prev can o can' :
  over_streams factory name arguments types prev can = Ret (Some o, can') →
  (∀ o', prev = Some o' → made o') → made o.
Proof.
  revert prev can. induction types as [|t types IH]; intros prev can; cbn [over_streams].
  - intros [= -> _] Hp. auto.
  - intros (o1 & Ho1 & Hr)%bind_Ret_inv _. eapply IH; [exact Hr|]. intros o' [= <-]. by eapply getImpl_made.
Qed.

Lemma result_codec_safe name arguments type can :
  safe (result_codec factory name arguments type can) (λ r, made r.1).
Proof.
  unfold result_codec. destruct type as [type|].
  - pose proof (over_streams_defined name arguments (special_streams type) None can) as Hd.
    destruct (over_streams _ _ _ _ _ _) as [[[o|] can']| | |] eqn:E; try done. simpl.
    by eapply over_streams_made.
  - pose proof (getImpl_defined name arguments None) as Hd.
    destruct (getImpl _ _ _ _) eqn:E; try done. simpl. by eapply getImpl_made.
Qed.

Context (type : option IDataType) (allow_experimental_codecs enable_deflate_qpl_codec enable_zstd_qat_codec : bool).
Abbreviation element_of :=
  (element factory type allow_experimental_codecs enable_deflate_qpl_codec enable_zstd_qat_codec).

Lemma element_safe child can : safe (element_of child can) (λ r, made r.1.1).
Proof.
  unfold element. destruct child as [name|name arguments| |]; try done; cbn [family_of mbind outcome_bind];
    (destruct (decide _); [simpl; try done; constructor|]).
  all: eapply safe_bind; [apply result_codec_safe|]; intros [o can'] Ho; cbn [fst snd] in *.
  all: do 3 (eapply safe_bind; [by apply (safe_throw_if _ _ (λ _, True))|]; intros _ _).
  all: destruct (made_desc o Ho) as [desc ->]; done.
Qed.
End expressions.

(** The codecs of the elements of an expression, with their descriptions. *)
Fixpoint elements `{CodecEnvironment} (factory : CompressionCodecFactory) (type : option IDataType)
  (allow_experimental_codecs enable_deflate_qpl_codec enable_zstd_qat_codec : bool)
  (children : list AST) (can_substitute : bool) : outcome (list (ICompressionCodec * AST) * bool) :=
  match children with
  | [] => Ret ([], can_substitute)
  | child :: children =>
      '(codec, desc, can_substitute) ←
        element factory type allow_experimental_codecs enable_deflate_qpl_codec enable_zstd_qat_codec child can_substitute;
      '(rest, can_substitute) ←
        elements factory type allow_experimental_codecs enable_deflate_qpl_codec enable_zstd_qat_codec children can_substitute;
      Ret ((codec, desc) :: rest, can_substitute)
  end.

Section validation.
Context `{CodecEnvironment} (factory_get : Z → outcome codec) (type : option IDataType) (a b c : bool).
Abbreviation factory := (built factory_get).

Lemma elements_safe children can :
  safe (elements factory type a b c children can) (λ r, Forall made r.1.*1 ∧ length r.1 = length children).
Proof.
  revert can. induction children as [|child children IH]; intros can; [by split; [constructor|]|]. cbn [elements].
  eapply safe_bind; [apply element_safe|]. intros [[o desc] can1] Ho. eapply safe_bind; [apply IH|].
  intros [rest can2] [Hr Hl]. cbn in *. split; [by constructor|lia].
Qed.

Lemma survey_elements children i s cs :
  summarises s cs → i = Z.of_nat (length cs) →
  match elements factory type a b c children (can_substitute_codec_arguments s) with
  | Ret (l, can) => ∃ s', survey_codecs factory type a b c children i s = Ret s' ∧ summarises s' (cs ++ l.*1) ∧
      codecs_descriptions s' = codecs_descriptions s ++ l.*2 ∧ can_substitute_codec_arguments s' = can
  | Throw e => survey_codecs factory type a b c children i s = Throw e
  | UB | OutOfFuel => True
  end.
Proof.
  revert i s cs. induction children as [|child children IH]; intros i s cs Hs Hi; cbn [elements survey_codecs].
  - exists s. by rewrite !app_nil_r.
  - destruct (element _ _ _ _ _ child _) as [[[o desc] can]| | |]; try done. cbn [mbind outcome_bind].
    specialize (IH (i + 1) (record_codec i o desc can s) (cs ++ [o]) (summarises_record _ _ _ _ _ _ Hs Hi)
      ltac:(rewrite length_app; simpl; lia)). cbn [can_substitute_codec_arguments record_codec] in IH.
    destruct (elements _ _ _ _ _ children can) as [[l can']| | |]; try done. cbn [mbind outcome_bind].
    destruct IH as (s' & -> & Hs' & Hd & Hc). exists s'. split_and!; [done| | |done].
    + by rewrite <- app_assoc in Hs'.
    + rewrite Hd. simpl. by rewrite <- app_assoc.
Qed.

Lemma made_not_both o : made o → isGenericCompression o = true → isEncryption o = false.
Proof. by destruct 1. Qed.
End validation.

(** * Descriptions *)

(** The arguments that descriptions keep: those of DoubleDelta and Gorilla and the second one
    of FPC are not in them. *)
Definition restorable (name : string) (arguments : option (list AST)) : Prop :=
  (name = "DoubleDelta"%string ∨ name = "Gorilla"%string → default [] arguments = []) ∧
  (name = "FPC"%string → (length (default [] arguments) ≤ 1)%nat).

Lemma get_ast_combined `{CodecEnvironment} factory_get name children type only_generic codecs :
  get_codecs (built factory_get) type (Some LZ4_object) only_generic children = Ret codecs →
  get_ast factory_get (built factory_get) (ASTFunction name children) type None only_generic = combined factory_get codecs.
Proof. intros Hc. unfold get_ast. cbn [default_codec built]. rewrite Hc. by destruct codecs as [|? []]. Qed.

Section descriptions.
Context `{CodecEnvironment} (factory_get : Z → outcome codec) (Hlevel : 1 ≤ ZSTD_maxCLevel).
Abbreviation factory := (built factory_get).

(** The description [desc] makes the codec [o] again. *)
Definition restores (type : option IDataType) (desc : AST) (o : ICompressionCodec) : Prop :=
  ∃ name arguments, family_of desc = Ret (name, arguments) ∧ name ≠ DEFAULT_CODEC_NAME ∧
    getImpl factory name arguments type = Ret o.

Lemma int_argument_literal x : -2 ^ 31 ≤ x < 2 ^ 31 → int_argument (uint_literal x) = Ret x.
Proof.
  intros Hx. unfold int_argument, uint_literal, Field.safeGet_UInt64. cbn [mbind outcome_bind]. f_equal.
  etrans; [|apply (to_signed_id 4 x); simpl; lia]. apply to_signed_wrap_arg. rewrite !wrap_wrap. unfold wrap. symmetry.
  symmetry. apply Z.mod_mod_divide. exists (2 ^ 32). done.
Qed.

Lemma Delta_restored n type : valid_size n = true → create_Delta (Some [uint_literal n]) type = Ret (Delta_object n).
Proof. unfold valid_size. rewrite !orb_true_iff, !Z.eqb_eq. by intros [[[-> | ->]| ->]| ->]. Qed.

Lemma ZSTD_restored arguments o desc type :
  create_ZSTD arguments = Ret o → getCodecDesc o = Ret desc → restores type desc o.
Proof.
  unfold create_ZSTD. destruct arguments as [[|child rest]|]; intros Ho Hd.
  1,3: inv_ret; cbn in Hd; injection Hd as <-; exists "ZSTD"%string, (Some [uint_literal 1]); split_and!; [done|done|];
    change (create_ZSTD (Some [uint_literal 1]) = Ret (ZSTD_object 1 None)); unfold create_ZSTD;
    rewrite int_argument_literal by lia; cbn; rewrite throw_if_false by (apply Z.ltb_ge; lia); done.
  inv_ret. apply int_argument_range in Hret. destruct rest as [|window rest]; inv_ret.
  - cbn in Hd. injection Hd as <-. eexists _, _. split_and!; [done|done|].
    change (create_ZSTD (Some [uint_literal x]) = Ret (ZSTD_object x None)). unfold create_ZSTD.
    rewrite int_argument_literal by lia. cbn. by rewrite throw_if_false.
  - apply int_argument_range in Hret0. cbn in Hd. injection Hd as <-. eexists _, _. split_and!; [done|done|].
    change (create_ZSTD (Some [uint_literal x; uint_literal x0]) = Ret (ZSTD_object x (Some x0))). unfold create_ZSTD.
    rewrite !int_argument_literal by lia. cbn. rewrite throw_if_false by done. cbn.
    match goal with E : ZSTD_windowLog_bounds = _ |- _ => rewrite E end. by rewrite throw_if_false.
Qed.

Lemma LZ4HC_restored arguments o desc type :
  create_LZ4HC arguments = Ret o → getCodecDesc o = Ret desc → restores type desc o.
Proof.
  unfold create_LZ4HC. intros Ho Hd.
  assert (∃ level, -2 ^ 31 ≤ level < 2 ^ 31 ∧ o = LZ4HC_object level) as (level & Hl & ->).
  { destruct arguments as [[|child rest]|]; inv_ret; eexists; (split; [|reflexivity]); try lia. by eapply int_argument_range. }
  cbn in Hd. injection Hd as <-. eexists _, _. split_and!; [done|done|].
  change (create_LZ4HC (Some [uint_literal level]) = Ret (LZ4HC_object level)). unfold create_LZ4HC.
  by rewrite int_argument_literal by lia.
Qed.

Lemma uint_argument_literal x : 0 ≤ x < 2 ^ 64 → uint_argument (uint_literal x) = Ret x.
Proof. intros Hx. unfold uint_argument, uint_literal. cbn. by rewrite wrap_wrap, wrap_small by zlia. Qed.

Lemma FPC_level_argument level n : 1 ≤ level ≤ 28 → FPC_arguments [uint_literal level] n = Ret (level, n).
Proof.
  intros Hl. unfold FPC_arguments. rewrite uint_argument_literal by lia. cbn -[Z.ltb wrap].
  rewrite wrap_small by zlia. unfold FPC.MAX_COMPRESSION_LEVEL. rewrite throw_if_false; [done|].
  apply orb_false_iff. rewrite !Z.ltb_ge. lia.
Qed.

Lemma FPC_restored arguments o desc type :
  (length (default [] arguments) ≤ 1)%nat →
  create_FPC arguments type = Ret o → getCodecDesc o = Ret desc → restores type desc o.
Proof.
  intros Hlen Ho Hd. pose proof Ho as Ho'. unfold create_FPC in Ho. apply bind_Ret_inv in Ho as (n & Hn & Ho).
  apply bind_Ret_inv in Ho as ([level n'] & Ha & Ho). injection Ho as <-.
  assert (n = 4 ∨ n = 8) as Hw by (destruct type; inv_ret; eauto using getFloatBytesSize_valid).
  destruct (FPC_arguments_valid _ _ _ _ Ha Hw) as [_ Hl]. unfold FPC.MAX_COMPRESSION_LEVEL in Hl.
  assert (n' = n) as ->.
  { unfold FPC_arguments in Ha. destruct (default [] arguments) as [|? [|? ?]]; [by simplify_eq/=| |simpl in Hlen; lia].
    repeat (apply bind_Ret_inv in Ha as (? & _ & Ha)). by simplify_eq/=. }
  cbn in Hd. injection Hd as <-. eexists _, _. split_and!; [done|done|].
  change (create_FPC (Some [uint_literal level]) type = Ret (FPC_object n level)). unfold create_FPC. rewrite Hn.
  cbn [mbind outcome_bind]. change (default [] (Some [uint_literal level])) with [uint_literal level].
  by rewrite FPC_level_argument by lia.
Qed.

Lemma T64_restored arguments o desc type :
  create_T64 arguments type = Ret o → getCodecDesc o = Ret desc → restores type desc o.
Proof.
  unfold create_T64. intros (variant & _ & (type_idx & Ht & Ho)%bind_Ret_inv)%bind_Ret_inv Hd. injection Ho as <-.
  destruct variant; cbn in Hd; injection Hd as <-; eexists _, _; (split_and!; [done|done|]).
  all: match type of Ht with ?m = _ => match goal with |- _ = Ret (T64_object _ ?v) =>
    change ((m ≫= λ t, Ret (T64_object t v)) = Ret (T64_object type_idx v)) end end; by rewrite Ht.
Qed.

(** Families whose description is their name. *)
Lemma named_restored (creator : CreatorWithType) name type o desc :
  family_names factory_get !! name = Some creator → name ≠ "Multiple"%string → name ≠ DEFAULT_CODEC_NAME →
  creator None type = Ret o → getCodecDesc o = Ret desc → getCodecDesc o = Ret (ASTIdentifier name) → restores type desc o.
Proof.
  intros Hn Hm Hd Hc Hdesc Ho. rewrite Ho in Hdesc. injection Hdesc as <-. exists name, None. split_and!; [done|done|].
  unfold getImpl. rewrite throw_if_false by by apply bool_decide_eq_false.
  change (match (family_names factory_get !! name : option CreatorWithType) with
          | Some creator => creator None type | None => Throw UNKNOWN_CODEC end = Ret o). by rewrite Hn.
Qed.

Lemma description_restores name arguments type o desc :
  getImpl factory name arguments type = Ret o → restorable name arguments →
  getCodecDesc o = Ret desc → restores type desc o.
Proof.
  unfold getImpl. cbn [family_name_with_codec built]. intros Ho [Hr1 Hr2] Hd. inv_ret.
  apply bool_decide_eq_false in Hthrow. match goal with E : family_names _ !! _ = Some _ |- _ => rename E into Hn end.
  pose proof (family_names_lookup _ _ _ Hn) as Hc. unfold families in Hc. cbn [fmap list_fmap fst snd] in Hc.
  repeat (apply elem_of_cons in Hc as [[= -> ->]|Hc]; [|try by apply elem_of_nil in Hc]); try done;
    eauto using ZSTD_restored, LZ4HC_restored, T64_restored, FPC_restored.
  - assert (create_GCD None type = Ret o) as Ho' by by destruct arguments as [[|]|].
    apply (named_restored _ _ _ _ _ Hn Hthrow ltac:(done) Ho' Hd). clear Ho. unfold create_GCD in Ho'. by inv_ret.
  - assert (o = Encrypted_object Encrypted.AES_256_GCM_SIV) as -> by (destruct arguments as [[|]|]; cbn in Ho; congruence).
    by eapply (named_restored _ _ _ _ _ Hn).
  - assert (o = Encrypted_object Encrypted.AES_128_GCM_SIV) as -> by (destruct arguments as [[|]|]; cbn in Ho; congruence).
    by eapply (named_restored _ _ _ _ _ Hn).
  - assert (create_Gorilla None type = Ret o) as Ho' by (specialize (Hr1 ltac:(auto)); by destruct arguments as [[|]|]).
    apply (named_restored _ _ _ _ _ Hn Hthrow ltac:(done) Ho' Hd). clear Ho. unfold create_Gorilla in Ho'. by inv_ret.
  - assert (create_DoubleDelta None type = Ret o) as Ho' by (specialize (Hr1 ltac:(auto)); by destruct arguments as [[|]|]).
    apply (named_restored _ _ _ _ _ Hn Hthrow ltac:(done) Ho' Hd). clear Ho. unfold create_DoubleDelta in Ho'. by inv_ret.
  - unfold create_Delta in Ho. inv_ret. apply width_of_valid in Hret. cbn in Hd. injection Hd as <-.
    eexists _, _. split_and!; [done|done|]. by apply Delta_restored.
  - assert (o = LZ4_object) as -> by (destruct arguments; cbn in Ho; congruence). by eapply (named_restored _ _ _ _ _ Hn).
  - assert (o = None_object) as -> by (destruct arguments; cbn in Ho; congruence). by eapply (named_restored _ _ _ _ _ Hn).
Qed.

(** The hash of a codec begins with its description. *)
Lemma made_hash o : made o → ∃ desc items, updateHash o = hash_tree desc :: items ∧ getCodecDesc o = Ret desc.
Proof.
  destruct 1 as [| | |? []| | | | |? []| |[] ?]; try done;
    (eexists _, _; split; [reflexivity|reflexivity]).
Qed.

(** When the callback leaves the arguments substitutable, the codecs of all streams have the
    same hash. *)
Lemma over_streams_same name arguments types prev can r :
  over_streams factory name arguments types prev can = Ret (r, true) →
  can = true ∧
  (∀ o o', r = Some o → prev = Some o' → env_siphash (updateHash o') = env_siphash (updateHash o)) ∧
  ∀ t o, t ∈ types → r = Some o →
    ∃ o', getImpl factory name arguments (Some t) = Ret o' ∧ env_siphash (updateHash o') = env_siphash (updateHash o).
Proof.
  revert prev can. induction types as [|t types IH]; intros prev can; cbn [over_streams].
  - intros [= -> ->]. split; [done|]. split; [naive_solver|]. intros t o []%elem_of_nil.
  - intros (o1 & Ho1 & Hr)%bind_Ret_inv. apply IH in Hr as (Hcan & Hprev & Hall). split_and!.
    + destruct prev; [|done]. by destruct (negb _).
    + intros o o' -> ->. rewrite <- (Hprev o o1 eq_refl eq_refl). cbn in Hcan.
      destruct (Z.eqb_spec (env_siphash (updateHash o')) (env_siphash (updateHash o1))); [done|discriminate Hcan].
    + intros t' o [->|Ht]%elem_of_cons ->; [exists o1; auto|by apply Hall].
Qed.

Definition family_restorable (child : AST) : Prop :=
  ∀ name arguments, family_of child = Ret (name, arguments) → restorable name arguments.

(** The hash tells apart the codecs that an element gives for the streams of the column. *)
Definition no_collisions (type : IDataType) (child : AST) : Prop :=
  ∀ name arguments t t' o o', family_of child = Ret (name, arguments) →
    t ∈ special_streams type → t' ∈ special_streams type →
    getImpl factory name arguments (Some t) = Ret o → getImpl factory name arguments (Some t') = Ret o' →
    env_siphash (updateHash o) = env_siphash (updateHash o') → updateHash o = updateHash o'.

(** The codec of an element for a stream. *)
Definition stream_codec (t : IDataType) (child : AST) (o : ICompressionCodec) : Prop :=
  ∃ name arguments, family_of child = Ret (name, arguments) ∧
    (if decide (name = DEFAULT_CODEC_NAME) then o = LZ4_object else getImpl factory name arguments (Some t) = Ret o).

Lemma over_streams_last name arguments types prev can o can' :
  over_streams factory name arguments types prev can = Ret (Some o, can') →
  prev = Some o ∨ ∃ t, t ∈ types ∧ getImpl factory name arguments (Some t) = Ret o.
Proof.
  revert prev can. induction types as [|t types IH]; intros prev can; cbn [over_streams].
  - intros [= -> _]. auto.
  - intros (o1 & Ho1 & Hr)%bind_Ret_inv. apply IH in Hr as [[= ->]|(t' & Ht' & Ho)]; right; set_solver.
Qed.

Lemma element_same type a b c child can o desc t :
  element factory (Some type) a b c child can = Ret (o, desc, true) →
  family_restorable child → no_collisions type child → t ∈ special_streams type →
  can = true ∧ ∃ o', stream_codec t child o' ∧ stream_codec t desc o'.
Proof.
  unfold element. intros ([name arguments] & Hf & He)%bind_Ret_inv Hr Hh Ht. specialize (Hr _ _ Hf).
  destruct (decide (name = DEFAULT_CODEC_NAME)) as [->|Hn].
  - inv_ret. simplify_eq. split; [done|]. exists LZ4_object.
    split; [by exists DEFAULT_CODEC_NAME, arguments|by exists DEFAULT_CODEC_NAME, None].
  - cbn [result_codec] in He. apply bind_Ret_inv in He as ([o1 can1] & Ho1 & He). unfold result_codec in Ho1.
    apply bind_Ret_inv in Ho1 as ([[o2|] can2] & Hs & Ho1); [|done]. injection Ho1 as -> ->. cbn beta in He.
    do 4 (apply bind_Ret_inv in He as (? & ? & He)). injection He as -> -> ->.
    destruct (over_streams_same _ _ _ _ _ _ Hs) as (-> & _ & Hall). destruct (Hall t o Ht eq_refl) as (o' & Ho' & Hhash).
    destruct (over_streams_last _ _ _ _ _ _ _ Hs) as [[=]|(t' & Ht' & Ho)].
    pose proof (Hh _ _ _ _ _ _ Hf Ht Ht' Ho' Ho Hhash) as Heq. split; [done|]. exists o'.
    destruct (made_hash o (getImpl_made _ _ _ _ _ Ho)) as (d & items & Hu & Hd).
    destruct (made_hash o' (getImpl_made _ _ _ _ _ Ho')) as (d' & items' & Hu' & Hd').
    assert (desc = d') as ->.
    { rewrite Hu, Hu' in Heq. injection Heq as -> _. congruence. }
    split; [exists name, arguments; by destruct (decide _)|].
    destruct (description_restores _ _ _ _ _ Ho' Hr Hd') as (name' & arguments' & Hf' & Hn' & Hg).
    exists name', arguments'. by destruct (decide _).
Qed.

Lemma stream_codec_step t only_generic child children o :
  stream_codec t child o →
  get_codecs factory (Some t) (Some LZ4_object) only_generic (child :: children) =
    (codecs ← get_codecs factory (Some t) (Some LZ4_object) only_generic children;
     Ret (if only_generic && negb (isGenericCompression o) then codecs else o :: codecs)).
Proof.
  intros (name & arguments & Hf & Ho). cbn [get_codecs]. rewrite Hf. cbn [mbind outcome_bind].
  destruct (decide (name = DEFAULT_CODEC_NAME)); [by subst|]. by rewrite Ho.
Qed.

Lemma elements_same type a b c children can l t only_generic :
  elements factory (Some type) a b c children can = Ret (l, true) →
  Forall family_restorable children → Forall (no_collisions type) children → t ∈ special_streams type →
  can = true ∧ ∃ codecs,
    get_codecs factory (Some t) (Some LZ4_object) only_generic children = Ret codecs ∧
    get_codecs factory (Some t) (Some LZ4_object) only_generic l.*2 = Ret codecs.
Proof.
  intros He Hr Hh Ht. revert can l He. induction Hr as [|child children Hr1 Hr IH]; intros can l He; cbn [elements] in He.
  - injection He as <- ->. split; [done|]. by exists [].
  - apply Forall_cons in Hh as [Hh1 Hh]. apply bind_Ret_inv in He as ([[o desc] can1] & He1 & He).
    apply bind_Ret_inv in He as ([l2 can2] & He2 & He). injection He as <- ->.
    destruct (IH Hh can1 l2 He2) as (-> & codecs & H1 & H2).
    destruct (element_same _ _ _ _ _ _ _ _ t He1 Hr1 Hh1 Ht) as (-> & o' & Ho1 & Ho2). split; [done|].
    eexists. rewrite (stream_codec_step t _ _ _ _ Ho1), H1. split; [reflexivity|].
    change ((desc :: l2.*2)) with (((o, desc) :: l2).*2) in *. cbn [fmap list_fmap snd].
    by rewrite (stream_codec_step t _ _ _ _ Ho2), H2.
Qed.
End descriptions.

(** * Theorems *)

(** C6: [validateCodecAndGetPreprocessedAST] with the sanity check accepts the expression of a
    column exactly when each of its elements names a codec that the factory makes for the
    column, and the codecs in their order make sense: NONE is alone; something compresses,
    unless all is encryption; only encryption follows encryption and generic compression,
    of which there is at most one; codecs for floating-point series are for columns of
    floating-point numbers and do not follow delta codecs. It then returns the descriptions of
    the codecs, or the expression itself when those depend on the stream. It rejects the
    others with BAD_ARGUMENTS, and elements that are not codecs with the factory's error. *)
Theorem codec_expression_sanity `{CodecEnvironment} (depth : nat) (factory : CompressionCodecFactory) (name : string)
    (children : list AST) (type : option IDataType) (a b c : bool) :
  instance depth = Ret factory → Z.of_nat (length children) < 2 ^ 64 →
  let ast := ASTFunction name children in
  match elements factory type a b c children true with
  | Ret (l, can_substitute) =>
      (sensible type l.*1 → validateCodecAndGetPreprocessedAST factory ast type true a b c =
         Ret (if can_substitute then ASTFunction "CODEC" l.*2 else ast)) ∧
      (¬ sensible type l.*1 → validateCodecAndGetPreprocessedAST factory ast type true a b c = Throw BAD_ARGUMENTS)
  | Throw e => validateCodecAndGetPreprocessedAST factory ast type true a b c = Throw e
  | UB | OutOfFuel => False
  end.
Proof.
  unfold instance. rewrite construct_built. intros [= <-] Hl. cbn [validateCodecAndGetPreprocessedAST].
  pose proof (elements_safe (instance_get depth) type a b c children true) as He.
  pose proof (survey_elements (instance_get depth) type a b c children 0 survey_start [] summarises_start eq_refl) as Hsv.
  cbn [can_substitute_codec_arguments survey_start] in Hsv.
  destruct (elements _ _ _ _ _ _ _) as [[l can]|e| |]; try done; [|by rewrite Hsv].
  destruct He as [Hm Hlen]. destruct Hsv as (s' & -> & Hs & Hd & Hc). cbn [mbind outcome_bind app] in *.
  rewrite Hd, Hc. assert (Z.of_nat (length l.*1) < 2 ^ 64) as Hz by (rewrite length_fmap; cbn in Hlen; lia).
  assert (Forall (λ o, isGenericCompression o = true → isEncryption o = false) l.*1) as Hb
    by (eapply Forall_impl; [exact Hm|]; apply made_not_both).
  split; intros Hsen.
  - by rewrite (proj2 (sanity_checks_sensible s' l.*1 Hs type Hz Hb) Hsen).
  - by rewrite (sanity_checks_reject s' l.*1 Hs type Hz Hb Hsen).
Qed.

(** C7: the expression that [validateCodecAndGetPreprocessedAST] returns, which is what is stored
    with the table, gives every stream of the column for which codecs may be chosen by type
    ([special_streams]) the codec that the given expression gives it: [get] makes a codec of both,
    and the same. This is for elements whose arguments their descriptions keep
    ([family_restorable]): DoubleDelta and Gorilla without argument and FPC with at most one; an
    argument of DoubleDelta is lost ([double_delta_argument_lost]). And it needs that the hash tells
    apart the codecs that an element gives to different streams of the column ([no_collisions]). *)
Theorem validated_expression_same `{CodecEnvironment} (depth : nat) (factory : CompressionCodecFactory) (name : string)
    (children : list AST) (type t : IDataType) (sanity_check a b c : bool) (ast' : AST) (only_generic : bool) :
  instance depth = Ret factory → 1 ≤ ZSTD_maxCLevel →
  validateCodecAndGetPreprocessedAST factory (ASTFunction name children) (Some type) sanity_check a b c = Ret ast' →
  Forall family_restorable children → Forall (no_collisions (instance_get depth) type) children →
  t ∈ special_streams type →
  get_ast (instance_get depth) factory ast' (Some t) None only_generic =
    get_ast (instance_get depth) factory (ASTFunction name children) (Some t) None only_generic ∧
  (ast' ≠ ASTFunction name children →
   ∃ o, get_ast (instance_get depth) factory ast' (Some t) None only_generic = Ret o).
Proof.
  unfold instance. rewrite construct_built. intros [= <-] Hz Hv Hr Hh Ht. cbn [validateCodecAndGetPreprocessedAST] in Hv.
  apply bind_Ret_inv in Hv as (s & Hs & Hv). apply bind_Ret_inv in Hv as (_ & _ & Hv). injection Hv as <-.
  pose proof (survey_elements (instance_get depth) (Some type) a b c children 0 survey_start [] summarises_start eq_refl) as Hsv.
  pose proof (elements_safe (instance_get depth) (Some type) a b c children true) as Hsafe.
  cbn [can_substitute_codec_arguments survey_start] in Hsv. rewrite Hs in Hsv.
  destruct (elements _ _ _ _ _ _ _) as [[l can]|e| |] eqn:He; try done.
  destruct Hsv as (s' & [= <-] & _ & Hd & ->). cbn [app codecs_descriptions survey_start] in Hd. rewrite Hd.
  destruct can; [|done].
  destruct (elements_same (instance_get depth) Hz _ _ _ _ _ _ _ t only_generic He Hr Hh Ht) as (_ & codecs & H1 & H2).
  rewrite (get_ast_combined _ _ _ _ _ _ H1), (get_ast_combined _ _ _ _ _ _ H2). split; [done|]. intros _.
  apply combined_total. by eapply get_codecs_made.
Qed.

(** The argument of DoubleDelta is lost: for a String column CODEC(DoubleDelta(8)) passes the
    validation with the sanity check, but what it returns and the table stores is
    CODEC(DoubleDelta), for which [get] then throws BAD_ARGUMENTS when the column is written. *)
Theorem double_delta_argument_lost `{CodecEnvironment} (depth : nat) :
  let type := DataTypeSimple TypeIndex.String in
  let ast := ASTFunction "CODEC" [ASTFunction "DoubleDelta" [uint_literal 8]] in
  let stored := ASTFunction "CODEC" [ASTIdentifier "DoubleDelta"] in
  ∃ factory, instance depth = Ret factory ∧
    validateCodecAndGetPreprocessedAST factory ast (Some type) true false false false = Ret stored ∧
    get_ast (instance_get depth) factory ast (Some type) None false = Ret (DoubleDelta_object 8) ∧
    get_ast (instance_get depth) factory stored (Some type) None false = Throw BAD_ARGUMENTS.
Proof.
  exists (built (instance_get depth)). split; [apply construct_built|]. generalize (instance_get depth).
  intros factory_get. split_and!; reflexivity.
Qed.

(** ** Concrete instances *)

Import ConcreteEnvironment.

Definition lz4_delta : list AST := [ASTIdentifier "LZ4"; ASTFunction "Delta" [uint_literal 2]].

Lemma lz4_delta_elements factory_get :
  elements (built factory_get) None false false false lz4_delta true =
    Ret ([(LZ4_object, ASTIdentifier "LZ4"); (Delta_object 2, ASTFunction "Delta" [uint_literal 2])], true).
Proof. reflexivity. Qed.

Lemma codec_expression_sanity_witness :
  ∃ factory, instance 1 = Ret factory ∧
    validateCodecAndGetPreprocessedAST factory (ASTFunction "CODEC" lz4_delta) None true false false false =
      Throw BAD_ARGUMENTS.
Proof.
  exists (built (instance_get 1)). split; [apply construct_built|].
  pose proof (codec_expression_sanity 1 (built (instance_get 1)) "CODEC" lz4_delta None false false false
    (construct_built _) ltac:(done)) as Hv.
  rewrite lz4_delta_elements in Hv. apply Hv. intros Hs.
  pose proof (generic_last _ _ Hs [] LZ4_object [Delta_object 2] eq_refl eq_refl) as Hf.
  apply Forall_inv in Hf. discriminate Hf.
Defined.

(** A column of two types of four bytes. *)
Definition pair_type : IDataType :=
  DataTypeTuple [DataTypeSimple TypeIndex.UInt32; DataTypeSimple TypeIndex.DateTime].

Definition plain_delta : list AST := [ASTIdentifier "Delta"; ASTIdentifier "LZ4"].

Lemma plain_delta_validated factory_get :
  validateCodecAndGetPreprocessedAST (built factory_get) (ASTFunction "CODEC" plain_delta) (Some pair_type)
    true false false false =
    Ret (ASTFunction "CODEC" [ASTFunction "Delta" [uint_literal 4]; ASTIdentifier "LZ4"]).
Proof. reflexivity. Qed.

Lemma plain_delta_no_collisions factory_get : Forall (no_collisions factory_get pair_type) plain_delta.
Proof.
  unfold plain_delta. rewrite !Forall_cons. split_and!; [..|constructor].
  all: intros name arguments t t' o o' [= <- <-] Ht Ht' Ho Ho' _;
    assert (t ∈ [DataTypeSimple TypeIndex.UInt32; DataTypeSimple TypeIndex.DateTime]) as Hs by exact Ht;
    assert (t' ∈ [DataTypeSimple TypeIndex.UInt32; DataTypeSimple TypeIndex.DateTime]) as Hs' by exact Ht';
    clear Ht Ht'; rewrite !elem_of_cons, elem_of_nil in Hs, Hs';
    destruct Hs as [->|[->|[]]], Hs' as [->|[->|[]]];
    assert (Ret o = Ret o') as [= ->] by (etrans; [symmetry; exact Ho|exact Ho']); done.
Qed.

Lemma plain_delta_restorable : Forall family_restorable plain_delta.
Proof.
  unfold plain_delta. rewrite !Forall_cons. split_and!; [..|constructor].
  all: intros name arguments [= <- <-]; split; [done|simpl; lia].
Qed.

Lemma validated_expression_same_witness :
  ∃ factory, instance 1 = Ret factory ∧
    get_ast (instance_get 1) factory (ASTFunction "CODEC" [ASTFunction "Delta" [uint_literal 4]; ASTIdentifier "LZ4"])
      (Some (DataTypeSimple TypeIndex.DateTime)) None false =
    get_ast (instance_get 1) factory (ASTFunction "CODEC" plain_delta) (Some (DataTypeSimple TypeIndex.DateTime)) None false.
Proof.
  exists (built (instance_get 1)). split; [apply construct_built|].
  apply (validated_expression_same 1 (built (instance_get 1)) "CODEC" plain_delta pair_type
    (DataTypeSimple TypeIndex.DateTime) true false false false);
    [apply construct_built|vm_compute; congruence|apply plain_delta_validated|apply plain_delta_restorable
    |apply plain_delta_no_collisions|].
  right. left.
Defined.
