(* ===== verification/Doubles.v ===== *)
(** What the modelled code does with [double]: conversions from and to integers, minimum and
    maximum. Doubles are those of SpecFloat with 53 bits of precision and exponents up to 1024. *)

From stdpp Require Import base tactics numbers.
From Stdlib Require Import SpecFloat.
From S2P Require Import Prelude.
Local Open Scope Z_scope.

Definition double_of_size (n : Z) : spec_float := binary_normalize 53 1024 n 0 false.

(** [std::min(a, b)] is [b < a ? b : a], [std::max(a, b)] is [a < b ? b : a]. *)
Definition double_min (a b : spec_float) : spec_float := if SFltb b a then b else a.
Definition double_max (a b : spec_float) : spec_float := if SFltb a b then b else a.

Definition double_add (a b : spec_float) : spec_float := SFadd 53 1024 a b.
Definition double_mul (a b : spec_float) : spec_float := SFmul 53 1024 a b.
Definition double_div (a b : spec_float) : spec_float := SFdiv 53 1024 a b.

Definition double_zero : spec_float := S754_zero false.
Definition double_one : spec_float := double_of_size 1.
Definition double_half : spec_float := double_div double_one (double_of_size 2).

(** [static_cast<size_t>] drops the fraction and is undefined for what does not fit. *)
Definition size_of_double (x : spec_float) : outcome Z :=
  match x with
  | S754_zero _ => Ret 0
  | S754_finite negative m e =>
      let magnitude := if 0 <=? e then Zpos m * 2 ^ e else Zpos m / 2 ^ (- e) in
      let n := if negative then - magnitude else magnitude in
      if (0 <=? n) && (n <? 2 ^ 64) then Ret n else UB
  | S754_infinity _ | S754_nan => UB
  end.
