(* ===== verification/Containers.v ===== *)
(** Standard containers as the caches use them: [std::list] with its iterators, and lemmas
    on maps that are made of lists of entries. An iterator is the identity of a node; it
    stays valid when the node is moved, within a list or to another one. *)

From S2P Require Import Prelude.
From stdpp Require Import base tactics list numbers gmap.
Local Open Scope Z_scope.

(** * std::list *)

Record node (A : Type) := mk_node { node_id : nat; node_value : A }.
Arguments mk_node {A} node_id node_value.
Arguments node_id {A} n.
Arguments node_value {A} n.

Section std_list.
Context {A : Type}.
Implicit Types (l : list (node A)) (it : nat).

(** [insert(end(), value)]: the node that is made has the identity [it]. *)
Definition list_insert_end it (value : A) l : list (node A) := l ++ [mk_node it value].

(** The node of an iterator and the list without it; undefined if the iterator is not of
    this list. *)
Fixpoint list_take it l : outcome (node A * list (node A)) :=
  match l with
  | [] => UB
  | n :: l =>
      if decide (node_id n = it) then Ret (n, l)
      else '(m, l) ← list_take it l; Ret (m, n :: l)
  end.

(** [erase(it)]. *)
Definition list_erase it l : outcome (list (node A)) := '(_, l) ← list_take it l; Ret l.

(** [splice(end(), *this, it)]. *)
Definition list_move_to_end it l : outcome (list (node A)) := '(n, l) ← list_take it l; Ret (l ++ [n]).

(** [to.splice(to.end(), from, it)]; the lists [(from, to)]. *)
Definition list_splice_end it (from to : list (node A)) : outcome (list (node A) * list (node A)) :=
  '(n, from) ← list_take it from; Ret (from, to ++ [n]).

(** [front()], undefined for an empty list. *)
Definition list_front l : outcome A := match l with n :: _ => Ret (node_value n) | [] => UB end.

(** [pop_front()], undefined for an empty list. *)
Definition list_pop_front l : outcome (list (node A)) := match l with _ :: l => Ret l | [] => UB end.

Lemma list_take_app it pre n post :
  node_id n = it → it ∉ (node_id <$> pre) → list_take it (pre ++ n :: post) = Ret (n, pre ++ post).
Proof.
  intros Hn. induction pre as [|m pre IH]; simpl; intros Hp; [by rewrite decide_True|].
  rewrite decide_False by set_solver. rewrite IH by set_solver. done.
Qed.
End std_list.

(** * Lists of entries *)

Section entries.
Context {K V : Type} `{Countable K}.
Implicit Types (l pre post : list (K * V)) (k : K) (v : V).

Lemma entries_split l k v :
  NoDup l.*1 → (list_to_map l : gmap K V) !! k = Some v ↔ ∃ pre post, l = pre ++ (k, v) :: post.
Proof.
  intros Hnd. rewrite <- elem_of_list_to_map by done. split; [apply list_elem_of_split|].
  intros (pre & post & ->). set_solver.
Qed.

Lemma entries_NoDup pre k v post :
  NoDup (pre ++ (k, v) :: post).*1 → NoDup (pre ++ post).*1 ∧ k ∉ (pre ++ post).*1.
Proof. rewrite !fmap_app. simpl. rewrite <- Permutation_middle, NoDup_cons. tauto. Qed.

Lemma entries_delete pre k v post :
  NoDup (pre ++ (k, v) :: post).*1 →
  delete k (list_to_map (pre ++ (k, v) :: post) : gmap K V) = list_to_map (pre ++ post).
Proof.
  intros Hnd. destruct (entries_NoDup _ _ _ _ Hnd) as [_ Hk].
  rewrite (list_to_map_proper (pre ++ (k, v) :: post) ((k, v) :: pre ++ post)) by (done || by rewrite Permutation_middle).
  simpl. rewrite delete_insert_id; [done|]. by apply not_elem_of_list_to_map.
Qed.

Lemma entries_move pre k v post :
  NoDup (pre ++ (k, v) :: post).*1 →
  (list_to_map (pre ++ (k, v) :: post) : gmap K V) = list_to_map (pre ++ post ++ [(k, v)]).
Proof.
  intros Hnd. apply list_to_map_proper; [done|]. rewrite <- Permutation_middle, app_assoc. apply Permutation_cons_append.
Qed.

Lemma entries_update pre k v v' post :
  NoDup (pre ++ (k, v) :: post).*1 →
  <[k := v']> (list_to_map (pre ++ (k, v) :: post) : gmap K V) = list_to_map (pre ++ post ++ [(k, v')]).
Proof.
  intros Hnd. destruct (entries_NoDup _ _ _ _ Hnd) as [Hnd' Hk].
  rewrite <- insert_delete_eq, entries_delete by done.
  rewrite (app_assoc pre post), (list_to_map_proper ((pre ++ post) ++ [(k, v')]) ((k, v') :: pre ++ post)); [done| |].
  - rewrite fmap_app. simpl. rewrite <- Permutation_cons_append. by constructor.
  - symmetry. apply Permutation_cons_append.
Qed.

Lemma entries_insert l k v :
  NoDup l.*1 → k ∉ l.*1 → <[k := v]> (list_to_map l : gmap K V) = list_to_map (l ++ [(k, v)]).
Proof.
  intros Hnd Hk. rewrite (list_to_map_proper (l ++ [(k, v)]) ((k, v) :: l)); [done| |].
  - rewrite fmap_app. simpl. rewrite <- Permutation_cons_append. by constructor.
  - symmetry. apply Permutation_cons_append.
Qed.

Lemma entries_unique l k v v' : NoDup l.*1 → (k, v) ∈ l → (k, v') ∈ l → v = v'.
Proof. intros Hnd H1 H2. apply (elem_of_list_to_map (M := gmap K)) in H1, H2; [congruence|done..]. Qed.

Lemma entries_size l : NoDup l.*1 → size (list_to_map l : gmap K V) = length l.
Proof.
  intros Hnd. rewrite <- size_dom, dom_list_to_map_L, size_list_to_set by done. apply length_fmap.
Qed.
End entries.

(** * Sums over the values of a map *)

Section sum_map.
Context {K A : Type} `{Countable K}.
Implicit Types (f g : A → Z) (m : gmap K A).

Definition sum_map f m : Z := map_fold (λ _ a, Z.add (f a)) 0 m.

Lemma sum_map_empty f : sum_map f ∅ = 0.
Proof. done. Qed.

Lemma sum_map_insert f m i a : m !! i = None → sum_map f (<[i := a]> m) = f a + sum_map f m.
Proof. intros Hi. unfold sum_map. rewrite map_fold_insert_L; [done|intros; lia|done]. Qed.

Lemma sum_map_delete f m i a : m !! i = Some a → sum_map f m = f a + sum_map f (delete i m).
Proof.
  intros Hi. rewrite <- (insert_delete_id m i a Hi) at 1. apply sum_map_insert, lookup_delete_eq.
Qed.

Lemma sum_map_update f m i a b : m !! i = Some a → sum_map f (<[i := b]> m) = sum_map f m - f a + f b.
Proof.
  intros Hi. rewrite <- insert_delete_eq, sum_map_insert by apply lookup_delete_eq. rewrite (sum_map_delete f m i a Hi). lia.
Qed.

Lemma sum_map_le f g m : (∀ a, f a ≤ g a) → sum_map f m ≤ sum_map g m.
Proof.
  intros Hle. induction m as [|i a m Hi IH] using map_ind; [done|]. rewrite !sum_map_insert by done. specialize (Hle a). lia.
Qed.

Lemma sum_map_nonneg f m : (∀ a, 0 ≤ f a) → 0 ≤ sum_map f m.
Proof.
  intros Hf. induction m as [|i a m Hi IH] using map_ind; [done|]. rewrite sum_map_insert by done. specialize (Hf a). lia.
Qed.

Lemma sum_map_insert_le f m i a : (∀ a, 0 ≤ f a) → sum_map f (<[i := a]> m) ≤ f a + sum_map f m.
Proof.
  intros Hf. destruct (m !! i) as [b|] eqn:Hi; [|by rewrite sum_map_insert].
  rewrite <- insert_delete_eq, sum_map_insert by apply lookup_delete_eq. rewrite (sum_map_delete f m i b Hi).
  specialize (Hf b). lia.
Qed.

Lemma sum_map_zero f m : (∀ i a, m !! i = Some a → f a = 0) → sum_map f m = 0.
Proof.
  intros Hf. induction m as [|i a m Hi IH] using map_ind; [done|]. rewrite sum_map_insert by done.
  rewrite (Hf i a) by apply lookup_insert_eq. rewrite IH; [done|]. intros j b Hj. apply (Hf j). by rewrite lookup_insert_ne by congruence.
Qed.

Lemma sum_map_one m : sum_map (λ _, 1) m = Z.of_nat (size m).
Proof.
  induction m as [|i a m Hi IH] using map_ind; [done|]. rewrite sum_map_insert, map_size_insert_None by done. lia.
Qed.
End sum_map.
