(* ===== verification/CachePolicy.v ===== *)
(** The interface of the cache policies (src/src/Common/ICachePolicy.h) and what a policy
    promises to the cache that uses it.

    A pointer to a value is an option: a null pointer may be stored. The operations are
    functions on the state of the policy. *)

From stdpp Require Import base tactics list numbers gmap.
From S2P Require Import Prelude Containers.
Local Open Scope Z_scope.

Definition EqualWeightFunction {Mapped : Type} (value : Mapped) : Z := 1.

(** A UUID is a number of 128 bits. *)
Notation UUID := Z (only parsing).

Record ICachePolicy (Key Mapped St : Type) := mk_policy {
  policy_sizeInBytes : St → Z;
  policy_count : St → Z;
  policy_maxSizeInBytes : St → Z;
  policy_setMaxCount : Z → St → outcome St;
  policy_setMaxSizeInBytes : Z → St → outcome St;
  policy_setQuotaForUser : UUID → Z → Z → St → St;
  policy_get : Key → St → outcome (option Mapped * St);
  policy_getWithKey : Key → St → outcome (option (Key * option Mapped) * St);
  policy_set : Key → option Mapped → St → outcome St;
  policy_remove : Key → St → outcome St;
  policy_remove_if : (Key → option Mapped → bool) → St → outcome St;
  policy_clear : St → St;
  policy_dump : St → list (Key * option Mapped);
}.
Arguments policy_sizeInBytes {Key Mapped St}.
Arguments policy_count {Key Mapped St}.
Arguments policy_maxSizeInBytes {Key Mapped St}.
Arguments policy_setMaxCount {Key Mapped St}.
Arguments policy_setMaxSizeInBytes {Key Mapped St}.
Arguments policy_setQuotaForUser {Key Mapped St}.
Arguments policy_get {Key Mapped St}.
Arguments policy_getWithKey {Key Mapped St}.
Arguments policy_set {Key Mapped St}.
Arguments policy_remove {Key Mapped St}.
Arguments policy_remove_if {Key Mapped St}.
Arguments policy_clear {Key Mapped St}.
Arguments policy_dump {Key Mapped St}.

(** [m] returns a good state that satisfies [P]. *)
Definition returns {A} (m : outcome A) (P : A → Prop) : Prop := ∃ a, m = Ret a ∧ P a.

(** What a policy promises: [stored] is what it holds for a key. Lookups find it and change
    nothing; an insertion may evict any entries, also the new one, but it invents none. The
    maximal sizes that may be set are those of [policy_limit]. *)
Class PolicyCorrect {Key Mapped St : Type} (P : ICachePolicy Key Mapped St) := {
  policy_ok : St → Prop;
  policy_limit : St → Z → Prop;
  stored : St → Key → option (option Mapped);
  get_law s key : policy_ok s →
    returns (policy_get P key s) (λ '(found, s'),
      policy_ok s' ∧ found = (stored s key ≫= id) ∧ ∀ k, stored s' k = stored s k);
  getWithKey_law s key : policy_ok s →
    returns (policy_getWithKey P key s) (λ '(found, s'),
      policy_ok s' ∧ found = pair key <$> stored s key ∧ ∀ k, stored s' k = stored s k);
  set_law s key mapped : policy_ok s →
    returns (policy_set P key mapped s) (λ s',
      policy_ok s' ∧ (stored s' key = None ∨ stored s' key = Some mapped) ∧
      ∀ k, k ≠ key → stored s' k = None ∨ stored s' k = stored s k);
  remove_law s key : policy_ok s →
    returns (policy_remove P key s) (λ s',
      policy_ok s' ∧ stored s' key = None ∧ ∀ k, k ≠ key → stored s' k = stored s k);
  remove_if_law s predicate : policy_ok s →
    returns (policy_remove_if P predicate s) (λ s',
      policy_ok s' ∧
      ∀ k, stored s' k = (stored s k ≫= λ mapped, if predicate k mapped then None else Some mapped));
  clear_law s : policy_ok s → policy_ok (policy_clear P s) ∧ ∀ k, stored (policy_clear P s) k = None;
  setMaxCount_law s n : policy_ok s → 0 ≤ n < 2 ^ 64 →
    returns (policy_setMaxCount P n s) (λ s', policy_ok s' ∧ ∀ k, stored s' k = None ∨ stored s' k = stored s k);
  setMaxSizeInBytes_law s n : policy_ok s → policy_limit s n →
    returns (policy_setMaxSizeInBytes P n s) (λ s', policy_ok s' ∧ ∀ k, stored s' k = None ∨ stored s' k = stored s k);
}.

(** * A policy that is chosen at run time *)

Section either.
Context {Key Mapped St1 St2 : Type} (P1 : ICachePolicy Key Mapped St1) (P2 : ICachePolicy Key Mapped St2).

(** A virtual call. *)
Definition dispatch {A} (f1 : St1 → A) (f2 : St2 → A) (s : St1 + St2) : A :=
  match s with inl s => f1 s | inr s => f2 s end.

Definition dispatch_update {A} (f1 : St1 → outcome (A * St1)) (f2 : St2 → outcome (A * St2)) (s : St1 + St2) :
    outcome (A * (St1 + St2)) :=
  match s with
  | inl s => '(a, s) ← f1 s; Ret (a, inl s)
  | inr s => '(a, s) ← f2 s; Ret (a, inr s)
  end.

Definition dispatch_change (f1 : St1 → outcome St1) (f2 : St2 → outcome St2) (s : St1 + St2) : outcome (St1 + St2) :=
  match s with
  | inl s => s ← f1 s; Ret (inl s)
  | inr s => s ← f2 s; Ret (inr s)
  end.

Definition either_policy : ICachePolicy Key Mapped (St1 + St2) := {|
  policy_sizeInBytes := dispatch (policy_sizeInBytes P1) (policy_sizeInBytes P2);
  policy_count := dispatch (policy_count P1) (policy_count P2);
  policy_maxSizeInBytes := dispatch (policy_maxSizeInBytes P1) (policy_maxSizeInBytes P2);
  policy_setMaxCount n := dispatch_change (policy_setMaxCount P1 n) (policy_setMaxCount P2 n);
  policy_setMaxSizeInBytes n := dispatch_change (policy_setMaxSizeInBytes P1 n) (policy_setMaxSizeInBytes P2 n);
  policy_setQuotaForUser user a b :=
    dispatch (λ s, inl (policy_setQuotaForUser P1 user a b s)) (λ s, inr (policy_setQuotaForUser P2 user a b s));
  policy_get key := dispatch_update (policy_get P1 key) (policy_get P2 key);
  policy_getWithKey key := dispatch_update (policy_getWithKey P1 key) (policy_getWithKey P2 key);
  policy_set key mapped := dispatch_change (policy_set P1 key mapped) (policy_set P2 key mapped);
  policy_remove key := dispatch_change (policy_remove P1 key) (policy_remove P2 key);
  policy_remove_if predicate := dispatch_change (policy_remove_if P1 predicate) (policy_remove_if P2 predicate);
  policy_clear := dispatch (λ s, inl (policy_clear P1 s)) (λ s, inr (policy_clear P2 s));
  policy_dump := dispatch (policy_dump P1) (policy_dump P2);
|}.

#[export] Program Instance either_policy_correct `{!PolicyCorrect P1, !PolicyCorrect P2} : PolicyCorrect either_policy := {|
  policy_ok := dispatch policy_ok policy_ok;
  policy_limit := dispatch policy_limit policy_limit;
  stored := dispatch stored stored;
|}.
Next Obligation.
  intros ? ? [s|s] key Hs; [destruct (get_law s key Hs) as ([a s'] & Heq & HQ); exists (a, inl s')|
    destruct (get_law s key Hs) as ([a s'] & Heq & HQ); exists (a, inr s')]; simpl; by rewrite Heq.
Qed.
Next Obligation.
  intros ? ? [s|s] key Hs; [destruct (getWithKey_law s key Hs) as ([a s'] & Heq & HQ); exists (a, inl s')|
    destruct (getWithKey_law s key Hs) as ([a s'] & Heq & HQ); exists (a, inr s')]; simpl; by rewrite Heq.
Qed.
Next Obligation.
  intros ? ? [s|s] key mapped Hs; [destruct (set_law s key mapped Hs) as (s' & Heq & HQ); exists (inl s')|
    destruct (set_law s key mapped Hs) as (s' & Heq & HQ); exists (inr s')]; simpl; by rewrite Heq.
Qed.
Next Obligation.
  intros ? ? [s|s] key Hs; [destruct (remove_law s key Hs) as (s' & Heq & HQ); exists (inl s')|
    destruct (remove_law s key Hs) as (s' & Heq & HQ); exists (inr s')]; simpl; by rewrite Heq.
Qed.
Next Obligation.
  intros ? ? [s|s] predicate Hs; [destruct (remove_if_law s predicate Hs) as (s' & Heq & HQ); exists (inl s')|
    destruct (remove_if_law s predicate Hs) as (s' & Heq & HQ); exists (inr s')]; simpl; by rewrite Heq.
Qed.
Next Obligation. intros ? ? [s|s] Hs; by apply clear_law. Qed.
Next Obligation.
  intros ? ? [s|s] n Hs Hn; [destruct (setMaxCount_law s n Hs Hn) as (s' & Heq & HQ); exists (inl s')|
    destruct (setMaxCount_law s n Hs Hn) as (s' & Heq & HQ); exists (inr s')]; simpl; by rewrite Heq.
Qed.
Next Obligation.
  intros ? ? [s|s] n Hs Hn; [destruct (setMaxSizeInBytes_law s n Hs Hn) as (s' & Heq & HQ); exists (inl s')|
    destruct (setMaxSizeInBytes_law s n Hs Hn) as (s' & Heq & HQ); exists (inr s')]; simpl; by rewrite Heq.
Qed.
End either.

(** * Sequences of operations *)

Section operations.
Context {Key Mapped : Type}.

Inductive op :=
  | SetMaxCount (max_count : Z)
  | SetMaxSizeInBytes (max_size : Z)
  | Clear
  | Remove (key : Key)
  | RemoveIf (predicate : Key → option Mapped → bool)
  | Get (key : Key)
  | GetWithKey (key : Key)
  | Put (key : Key) (mapped : option Mapped).

(** What an operation returns: nothing, a pointer, or a key with its value. *)
Inductive answer :=
  | Nothing
  | Pointer (mapped : option Mapped)
  | Found (found : option (Key * option Mapped)).

Section run.
Context {St Sp : Type} (P : ICachePolicy Key Mapped St) (specified : op → Sp → answer * Sp).

Definition apply (o : op) (s : St) : outcome (answer * St) :=
  match o with
  | SetMaxCount n => s ← policy_setMaxCount P n s; Ret (Nothing, s)
  | SetMaxSizeInBytes n => s ← policy_setMaxSizeInBytes P n s; Ret (Nothing, s)
  | Clear => Ret (Nothing, policy_clear P s)
  | Remove key => s ← policy_remove P key s; Ret (Nothing, s)
  | RemoveIf predicate => s ← policy_remove_if P predicate s; Ret (Nothing, s)
  | Get key => '(r, s) ← policy_get P key s; Ret (Pointer r, s)
  | GetWithKey key => '(r, s) ← policy_getWithKey P key s; Ret (Found r, s)
  | Put key mapped => s ← policy_set P key mapped s; Ret (Nothing, s)
  end.

Fixpoint run (ops : list op) (s : St) : outcome (list answer * St) :=
  match ops with
  | [] => Ret ([], s)
  | o :: ops => '(a, s) ← apply o s; '(answers, s) ← run ops s; Ret (a :: answers, s)
  end.

(** The same with operations as a specification performs them. *)
Fixpoint run_spec (ops : list op) (p : Sp) : list answer * Sp :=
  match ops with
  | [] => ([], p)
  | o :: ops => let '(a, p) := specified o p in let '(answers, p) := run_spec ops p in (a :: answers, p)
  end.

(** A simulation of single operations is one of sequences of them. *)
Lemma run_simulates (simulates : St → Sp → Prop) (sensible : op → Prop) :
  (∀ o s p, simulates s p → sensible o →
    ∃ s', apply o s = Ret ((specified o p).1, s') ∧ simulates s' (specified o p).2) →
  ∀ ops s p, simulates s p → Forall sensible ops →
    ∃ s', run ops s = Ret ((run_spec ops p).1, s') ∧ simulates s' (run_spec ops p).2.
Proof.
  intros Hstep. induction ops as [|o ops IH]; intros s p Hsim Hops; [by exists s|].
  apply Forall_cons in Hops as [Ho Hops]. destruct (Hstep o s p Hsim Ho) as (s1 & Ha & Hsim1).
  simpl. rewrite Ha. destruct (specified o p) as [a p1]. simpl in *.
  destruct (IH s1 p1 Hsim1 Hops) as (s2 & Hr & Hsim2). rewrite Hr. destruct (run_spec ops p1) as [answers p2].
  by exists s2.
Qed.
End run.
End operations.
Arguments op : clear implicits.
Arguments answer : clear implicits.

(** * Lists of entries and their weights *)

Section entries_weights.
Context {Key Mapped : Type} `{Countable Key} (weight_function : Mapped → Z).
Implicit Types (es : list (Key * option Mapped)) (key : Key).

Definition weight (mapped : option Mapped) : Z :=
  match mapped with Some value => weight_function value | None => 0 end.

Definition total_weight (es : list (Key * option Mapped)) : Z := foldr (λ e, Z.add (weight e.2)) 0 es.

Definition others (key : Key) (es : list (Key * option Mapped)) : list (Key * option Mapped) :=
  filter (λ e, e.1 ≠ key) es.

Definition find (key : Key) (es : list (Key * option Mapped)) : option (Key * option Mapped) :=
  list_find (λ e, e.1 = key) es ≫= λ ie, Some ie.2.

Definition touch (key : Key) (es : list (Key * option Mapped)) : list (Key * option Mapped) :=
  match find key es with Some e => others key es ++ [e] | None => es end.

(** An entry stays if its key has not been visited or it does not satisfy the predicate. *)
Definition kept (predicate : Key → option Mapped → bool) (keys : list Key) (e : Key * option Mapped) : Prop :=
  e.1 ∉ keys ∨ predicate e.1 e.2 = false.

#[global] Instance kept_dec predicate keys e : Decision (kept predicate keys e) := _.

Lemma total_app es1 es2 : total_weight (es1 ++ es2) = total_weight es1 + total_weight es2.
Proof. induction es1 as [|e es1 IH]; simpl; lia. Qed.

#[global] Instance total_proper : Proper ((≡ₚ) ==> (=)) total_weight.
Proof. intros es1 es2 Hp. induction Hp; simpl; lia. Qed.

Lemma others_app key es1 es2 : others key (es1 ++ es2) = others key es1 ++ others key es2.
Proof. apply filter_app. Qed.

Lemma others_all key es : key ∉ es.*1 → others key es = es.
Proof.
  intros Hk. apply list_filter_all. intros e He Heq. subst key. apply Hk, list_elem_of_fmap. eauto.
Qed.

(** One more key is visited, and its entry is removed or kept. *)
Section visited.
Context (predicate : Key → option Mapped → bool) (es : list (Key * option Mapped)).
Context (key : Key) (mapped : option Mapped) (keys : list Key).
Context (Hnd : NoDup es.*1) (Hin : (key, mapped) ∈ es).

Lemma kept_removed e :
  predicate key mapped = true → e ∈ es → kept predicate (key :: keys) e ↔ kept predicate keys e ∧ e.1 ≠ key.
Proof.
  intros Hp He. destruct e as [k v]. unfold kept. simpl. rewrite not_elem_of_cons.
  destruct (decide (k = key)) as [->|]; [|tauto]. rewrite (entries_unique _ _ _ _ Hnd He Hin), Hp. intuition congruence.
Qed.

Lemma kept_stays e :
  predicate key mapped = false → e ∈ es → kept predicate (key :: keys) e ↔ kept predicate keys e.
Proof.
  intros Hp He. destruct e as [k v]. unfold kept. simpl. rewrite not_elem_of_cons.
  destruct (decide (k = key)) as [->|]; [|tauto]. rewrite (entries_unique _ _ _ _ Hnd He Hin), Hp. tauto.
Qed.
End visited.

Section bounded.
Context (bound : Z) (weights : ∀ value, 0 ≤ weight_function value < bound) (bound_pos : 0 < bound).

Lemma weight_range (mapped : option Mapped) : 0 ≤ weight mapped < bound.
Proof. destruct mapped; simpl; [apply weights|lia]. Qed.

Lemma total_nonneg es : 0 ≤ total_weight es.
Proof. induction es as [|e es IH]; simpl; [lia|]. pose proof (weight_range e.2). lia. Qed.

Lemma total_filter (P : Key * option Mapped → Prop) `{!∀ e, Decision (P e)} es : total_weight (filter P es) ≤ total_weight es.
Proof.
  induction es as [|e es IH]; [done|]. rewrite filter_cons. pose proof (weight_range e.2). case_decide; simpl; lia.
Qed.
End bounded.

Lemma others_elem key k v es : (k, v) ∈ others key es ↔ k ≠ key ∧ (k, v) ∈ es.
Proof. unfold others. by rewrite list_elem_of_filter. Qed.

Lemma find_elem key es e : find key es = Some e → e ∈ es ∧ e.1 = key.
Proof.
  unfold find. intros ([i e'] & (Hl & Hk & _)%list_find_Some & Heq)%bind_Some. simplify_eq/=.
  split; [by eapply list_elem_of_lookup_2|done].
Qed.

Lemma find_map key es : find key es = pair key <$> (list_to_map es : gmap Key (option Mapped)) !! key.
Proof.
  unfold find. induction es as [|[k v] es IH]; simpl; [by rewrite lookup_empty|].
  case_decide as Hk; simpl.
  - subst k. by rewrite lookup_insert_eq.
  - rewrite lookup_insert_ne by done. rewrite <- IH. by destruct (list_find _ _) as [[i e]|].
Qed.

Lemma touch_elem key es e : NoDup es.*1 → e ∈ touch key es ↔ e ∈ es.
Proof.
  intros Hnd. unfold touch. destruct (find key es) as [[k v]|] eqn:Hf; [|done].
  apply find_elem in Hf as [Hin Hk]. simpl in Hk. subst k. unfold others.
  rewrite elem_of_app, list_elem_of_filter, list_elem_of_singleton. destruct e as [k w]. simpl.
  split; [intros [[_ ?]|[= -> ->]]; done|]. intros He. destruct (decide (k = key)) as [->|]; [right|by left].
  by rewrite (entries_unique _ _ _ _ Hnd He Hin).
Qed.
End entries_weights.
