(* ===== verification/LRUCache.v ===== *)
(** The cache policy LRU (src/src/Common/LRUCachePolicy.h) and that it is a queue of entries
    in the order of their use, from which the least recently used ones are dropped until the
    limits are kept.

    Keys are compared by equality; [weight_function] is a parameter, as in the class. What
    [on_weight_loss_function] is called with is logged. The order in which the hash map lists
    its keys is the parameter [listing]. [std::terminate], which the code calls when the queue
    is inconsistent, is the outcome [UB]. Failure to allocate memory is not modelled. *)

From stdpp Require Import base tactics list numbers gmap.
From S2P Require Import Prelude Containers CachePolicy.
Local Open Scope Z_scope.

Module LRU.
Section policy.
Context {Key Mapped : Type} `{Countable Key} (weight_function : Mapped → Z).
Context (listing : ∀ V, gmap Key V → list Key).
Local Notation weight := (weight weight_function).
Local Notation total := (total_weight weight_function).

Record Cell := mk_cell {
  cell_value : option Mapped;
  cell_size : Z;
  queue_iterator : nat;
}.

(** [next_iterator] is the identity of the next node of the list. *)
Record t := mk {
  queue : list (node Key);
  cells : gmap Key Cell;
  current_size_in_bytes : Z;
  max_size_in_bytes : Z;
  max_count : Z;
  next_iterator : nat;
  weight_losses : list Z;
}.

Definition create (max_size_in_bytes max_count : Z) : t := mk [] ∅ 0 max_size_in_bytes max_count 0 [].

Definition sizeInBytes (s : t) : Z := current_size_in_bytes s.
Definition count (s : t) : Z := Z.of_nat (size (cells s)).
Definition maxSizeInBytes (s : t) : Z := max_size_in_bytes s.

Definition set_contents (s : t) (queue : list (node Key)) (cells : gmap Key Cell) (current_size_in_bytes : Z) : t :=
  mk queue cells current_size_in_bytes (max_size_in_bytes s) (max_count s) (next_iterator s) (weight_losses s).

(** The condition of the loop, except for the last part. *)
Definition overflows (s : t) (queue_size : nat) : bool :=
  (max_size_in_bytes s <? current_size_in_bytes s) ||
  (negb (max_count s =? 0) && (max_count s <? Z.of_nat queue_size)).

Fixpoint removeOverflow_loop (queue_size : nat) (current_weight_lost : Z) (s : t) : outcome (t * Z) :=
  match queue_size with
  | O => Ret (s, current_weight_lost)
  | S rest =>
      if overflows s queue_size then
        key ← list_front (queue s);
        match cells s !! key with
        | None => UB
        | Some cell =>
            queue' ← list_pop_front (queue s);
            removeOverflow_loop rest (u64 (current_weight_lost + cell_size cell))
              (set_contents s queue' (delete key (cells s)) (u64 (current_size_in_bytes s - cell_size cell)))
        end
      else Ret (s, current_weight_lost)
  end.

Definition removeOverflow (s : t) : outcome t :=
  '(s, current_weight_lost) ← removeOverflow_loop (size (cells s)) 0 s;
  let s := mk (queue s) (cells s) (current_size_in_bytes s) (max_size_in_bytes s) (max_count s) (next_iterator s)
             (weight_losses s ++ [current_weight_lost]) in
  _ ← ub_unless (current_size_in_bytes s <=? 2 ^ 63);
  Ret s.

Definition setMaxCount (max_count : Z) (s : t) : outcome t :=
  removeOverflow (mk (queue s) (cells s) (current_size_in_bytes s) (max_size_in_bytes s) max_count (next_iterator s)
    (weight_losses s)).

Definition setMaxSizeInBytes (max_size_in_bytes : Z) (s : t) : outcome t :=
  removeOverflow (mk (queue s) (cells s) (current_size_in_bytes s) max_size_in_bytes (max_count s) (next_iterator s)
    (weight_losses s)).

Definition clear (s : t) : t := set_contents s [] ∅ 0.

Definition remove (key : Key) (s : t) : outcome t :=
  match cells s !! key with
  | None => Ret s
  | Some cell =>
      queue' ← list_erase (queue_iterator cell) (queue s);
      Ret (set_contents s queue' (delete key (cells s)) (u64 (current_size_in_bytes s - cell_size cell)))
  end.

(** The loop over the cells. *)
Fixpoint remove_if_loop (predicate : Key → option Mapped → bool) (keys : list Key) (s : t) : outcome t :=
  match keys with
  | [] => Ret s
  | key :: keys =>
      match cells s !! key with
      | None => UB
      | Some cell =>
          s ← (if predicate key (cell_value cell) then
                 queue' ← list_erase (queue_iterator cell) (queue s);
                 Ret (set_contents s queue' (delete key (cells s)) (u64 (current_size_in_bytes s - cell_size cell)))
               else Ret s);
          remove_if_loop predicate keys s
      end
  end.

Definition remove_if (predicate : Key → option Mapped → bool) (s : t) : outcome t :=
  remove_if_loop predicate (listing _ (cells s)) s.

Definition getWithKey (key : Key) (s : t) : outcome (option (Key * option Mapped) * t) :=
  match cells s !! key with
  | None => Ret (None, s)
  | Some cell =>
      queue' ← list_move_to_end (queue_iterator cell) (queue s);
      Ret (Some (key, cell_value cell), set_contents s queue' (cells s) (current_size_in_bytes s))
  end.

(** A null pointer stands for nothing found. *)
Definition get (key : Key) (s : t) : outcome (option Mapped * t) :=
  match cells s !! key with
  | None => Ret (None, s)
  | Some cell =>
      queue' ← list_move_to_end (queue_iterator cell) (queue s);
      Ret (cell_value cell, set_contents s queue' (cells s) (current_size_in_bytes s))
  end.

Definition set (key : Key) (mapped : option Mapped) (s : t) : outcome t :=
  '(iterator, s) ←
    match cells s !! key with
    | None =>
        Ret (next_iterator s,
             mk (list_insert_end (next_iterator s) key (queue s)) (cells s) (current_size_in_bytes s)
               (max_size_in_bytes s) (max_count s) (S (next_iterator s)) (weight_losses s))
    | Some cell =>
        queue' ← list_move_to_end (queue_iterator cell) (queue s);
        Ret (queue_iterator cell,
             set_contents s queue' (cells s) (u64 (current_size_in_bytes s - cell_size cell)))
    end;
  let cell := mk_cell mapped (weight mapped) iterator in
  removeOverflow (set_contents s (queue s) (<[key := cell]> (cells s)) (u64 (current_size_in_bytes s + cell_size cell))).

Definition dump (s : t) : list (Key * option Mapped) :=
  omap (λ key, cell ← cells s !! key; Some (key, cell_value cell))%stdpp (listing _ (cells s)).

(** [setQuotaForUser] reaches [NoCachePolicyUserQuota], which ignores it. *)
Definition policy : ICachePolicy Key Mapped t := {|
  policy_sizeInBytes := sizeInBytes;
  policy_count := count;
  policy_maxSizeInBytes := maxSizeInBytes;
  policy_setMaxCount := setMaxCount;
  policy_setMaxSizeInBytes := setMaxSizeInBytes;
  policy_setQuotaForUser _ _ _ s := s;
  policy_get := get;
  policy_getWithKey := getWithKey;
  policy_set := set;
  policy_remove := remove;
  policy_remove_if := remove_if;
  policy_clear := clear;
  policy_dump := dump;
|}.

(** * The specification: the entries from the least to the most recently used one *)

Definition excess (max_size max_count : Z) (es : list (Key * option Mapped)) : bool :=
  (max_size <? total es) || (negb (max_count =? 0) && (max_count <? Z.of_nat (length es))).

(** The oldest entries are dropped, only as long as a limit is exceeded. *)
Fixpoint evict (max_size max_count : Z) (es : list (Key * option Mapped)) : list (Key * option Mapped) :=
  match es with
  | [] => []
  | _ :: es' => if excess max_size max_count es then evict max_size max_count es' else es
  end.

(** [reported] are the weights that the evictions have been reported with. *)
Record spec := mk_spec {
  entries : list (Key * option Mapped);
  limit_size : Z;
  limit_count : Z;
  reported : list Z;
}.

Definition evicted (es : list (Key * option Mapped)) (max_size max_count : Z) (log : list Z) : spec :=
  let kept := evict max_size max_count es in
  mk_spec kept max_size max_count (log ++ [total es - total kept]).

Definition specified (o : op Key Mapped) (p : spec) : answer Key Mapped * spec :=
  let es := entries p in
  let with_entries es := mk_spec es (limit_size p) (limit_count p) (reported p) in
  match o with
  | SetMaxCount n => (Nothing, evicted es (limit_size p) n (reported p))
  | SetMaxSizeInBytes n => (Nothing, evicted es n (limit_count p) (reported p))
  | Clear => (Nothing, with_entries [])
  | Remove key => (Nothing, with_entries (others key es))
  | RemoveIf predicate => (Nothing, with_entries (filter (λ e, predicate e.1 e.2 = false) es))
  | Get key => (Pointer (find key es ≫= snd), with_entries (touch key es))
  | GetWithKey key => (Found (find key es), with_entries (touch key es))
  | Put key mapped => (Nothing, evicted (others key es ++ [(key, mapped)]) (limit_size p) (limit_count p) (reported p))
  end.

(** * The cache refines its specification *)

Context (weights : ∀ value, 0 ≤ weight_function value < 2 ^ 63).
Context (listing_ok : ∀ V (m : gmap Key V), listing V m ≡ₚ (map_to_list m).*1).
Implicit Types (lc pre post : list (Key * Cell)) (es : list (Key * option Mapped)) (key : Key) (s : t).

Definition nodes lc : list (node Key) := (λ kc, mk_node (queue_iterator kc.2) kc.1) <$> lc.

Definition contents lc : list (Key * option Mapped) := (λ kc, (kc.1, cell_value kc.2)) <$> lc.

(** The queue and the map of [s] are made of the cells [lc]. *)
Record mirror s lc : Prop := {
  mirror_queue : queue s = nodes lc;
  mirror_cells : cells s = list_to_map lc;
  mirror_keys : NoDup lc.*1;
  mirror_iterators : NoDup ((λ kc, queue_iterator kc.2) <$> lc);
  mirror_fresh : Forall (λ kc, (queue_iterator kc.2 < next_iterator s)%nat) lc;
  mirror_sizes : Forall (λ kc, cell_size kc.2 = weight (cell_value kc.2)) lc;
  mirror_total : current_size_in_bytes s = total (contents lc);
}.

Record represents s (p : spec) : Prop := {
  represents_mirror : ∃ lc, mirror s lc ∧ entries p = contents lc;
  represents_size : max_size_in_bytes s = limit_size p;
  represents_count : max_count s = limit_count p;
  represents_log : weight_losses s = reported p;
}.

(** The limits are kept. *)
Definition within (p : spec) : Prop :=
  total (entries p) ≤ limit_size p ∧ (limit_count p = 0 ∨ Z.of_nat (length (entries p)) ≤ limit_count p).

Lemma lru_weight_range (mapped : option Mapped) : 0 ≤ weight mapped < 2 ^ 63.
Proof. by apply weight_range. Qed.

Lemma lru_total_nonneg es : 0 ≤ total es.
Proof. by eapply total_nonneg. Qed.

Lemma contents_length lc : length (contents lc) = length lc.
Proof. apply length_fmap. Qed.

Lemma contents_app lc1 lc2 : contents (lc1 ++ lc2) = contents lc1 ++ contents lc2.
Proof. apply fmap_app. Qed.

Lemma others_absent key lc : key ∉ lc.*1 → others key (contents lc) = contents lc.
Proof.
  unfold others. induction lc as [|[k c] lc IH]; simpl; [done|]. intros Hk.
  rewrite filter_cons_True by set_solver. f_equal. apply IH. set_solver.
Qed.

Lemma others_present pre key c post :
  NoDup (pre ++ (key, c) :: post).*1 → others key (contents (pre ++ (key, c) :: post)) = contents (pre ++ post).
Proof.
  intros [_ Hk]%entries_NoDup. rewrite <- (others_absent key (pre ++ post)) by done.
  rewrite !contents_app. unfold others. rewrite !filter_app. simpl. by rewrite filter_cons_False by naive_solver.
Qed.

Lemma find_absent key lc : key ∉ lc.*1 → find key (contents lc) = None.
Proof.
  intros Hk. unfold find. rewrite (proj2 (list_find_None _ _)); [done|]. apply Forall_forall.
  intros e (kc & -> & Hkc)%list_elem_of_fmap. simpl. intros <-. apply Hk. apply list_elem_of_fmap. eauto.
Qed.

Lemma find_present pre key c post :
  NoDup (pre ++ (key, c) :: post).*1 → find key (contents (pre ++ (key, c) :: post)) = Some (key, cell_value c).
Proof.
  intros [_ Hk]%entries_NoDup. unfold find. rewrite contents_app.
  rewrite list_find_app_r; [|apply list_find_None, Forall_forall].
  - simpl. by rewrite decide_True.
  - intros e (kc & -> & Hkc)%list_elem_of_fmap. simpl. intros <-. apply Hk. rewrite fmap_app.
    apply elem_of_app. left. apply list_elem_of_fmap. eauto.
Qed.

Section mirrored.
Context (s : t) (lc : list (Key * Cell)) (Hm : mirror s lc).

Lemma mirror_lookup key c : cells s !! key = Some c ↔ ∃ pre post, lc = pre ++ (key, c) :: post.
Proof. destruct Hm as [_ -> Hk _ _ _ _]. by apply entries_split. Qed.

Lemma mirror_lookup_None key : cells s !! key = None ↔ key ∉ lc.*1.
Proof. destruct Hm as [_ -> _ _ _ _ _]. symmetry. apply not_elem_of_list_to_map. Qed.

Lemma mirror_take pre key c post :
  lc = pre ++ (key, c) :: post →
  list_take (queue_iterator c) (queue s) = Ret (mk_node (queue_iterator c) key, nodes (pre ++ post)).
Proof.
  intros ->. destruct Hm as [-> _ _ Hi _ _ _]. unfold nodes. rewrite !fmap_app. simpl.
  apply list_take_app; [done|]. rewrite fmap_app, NoDup_app in Hi. destruct Hi as (_ & Hi & _).
  intros (kc & Hkc & Hin)%list_elem_of_fmap. apply list_elem_of_fmap in Hin as ([k d] & -> & Hin). simpl in *.
  apply (Hi (queue_iterator c)); [|simpl; constructor]. apply list_elem_of_fmap. exists (k, d). auto.
Qed.

Lemma mirror_size : size (cells s) = length lc.
Proof. destruct Hm as [_ -> Hk _ _ _ _]. by apply entries_size. Qed.

(** An entry leaves the cache. *)
Lemma mirror_drop pre key c post :
  lc = pre ++ (key, c) :: post → total (contents lc) < 2 ^ 64 →
  mirror (set_contents s (nodes (pre ++ post)) (delete key (cells s)) (u64 (current_size_in_bytes s - cell_size c)))
    (pre ++ post) ∧ u64 (current_size_in_bytes s - cell_size c) = total (contents (pre ++ post)).
Proof.
  intros -> Ht. destruct Hm as [_ Hc Hk Hi Hf Hz Hcur].
  assert (u64 (current_size_in_bytes s - cell_size c) = total (contents (pre ++ post))) as Hu.
  { apply Forall_app in Hz as [_ [Hz _]%Forall_cons]. simpl in Hz.
    pose proof (lru_total_nonneg (contents (pre ++ post))). rewrite Hcur, Hz in *.
    rewrite !contents_app, !total_app in *. simpl in *. pose proof (lru_weight_range (cell_value c)).
    rewrite wrap_small; zlia. }
  split; [|done]. split; simpl; try done.
  - rewrite Hc. by apply entries_delete with (v := c).
  - by apply entries_NoDup in Hk as [? _].
  - rewrite fmap_app in *. simpl in Hi. rewrite <- Permutation_middle in Hi. by apply NoDup_cons in Hi as [_ ?].
  - apply Forall_app in Hf as [? [_ ?]%Forall_cons]. by apply Forall_app.
  - apply Forall_app in Hz as [? [_ ?]%Forall_cons]. by apply Forall_app.
Qed.

(** An entry becomes the most recent one. *)
Lemma mirror_touch pre key c post :
  lc = pre ++ (key, c) :: post →
  mirror (set_contents s (nodes (pre ++ post) ++ [mk_node (queue_iterator c) key]) (cells s) (current_size_in_bytes s))
    (pre ++ post ++ [(key, c)]).
Proof.
  intros ->. destruct Hm as [_ Hc Hk Hi Hf Hz Hcur].
  assert (Hp : pre ++ post ++ [(key, c)] ≡ₚ pre ++ (key, c) :: post).
  { rewrite <- (Permutation_middle pre post (key, c)), app_assoc. symmetry. apply Permutation_cons_append. }
  split; simpl.
  - unfold nodes. by rewrite app_assoc, !fmap_app.
  - rewrite Hc. by apply entries_move.
  - by rewrite Hp.
  - by rewrite Hp.
  - by rewrite Hp.
  - by rewrite Hp.
  - rewrite Hcur, !contents_app, !total_app. simpl. lia.
Qed.
End mirrored.

(** A new entry becomes the most recent one. *)
Lemma mirror_append s lc key c next :
  mirror s lc → key ∉ lc.*1 → queue_iterator c ∉ (λ kc, queue_iterator kc.2) <$> lc →
  (queue_iterator c < next)%nat → (next_iterator s ≤ next)%nat → cell_size c = weight (cell_value c) →
  total (contents lc) + weight (cell_value c) < 2 ^ 64 →
  mirror (mk (nodes lc ++ [mk_node (queue_iterator c) key]) (<[key := c]> (cells s))
    (u64 (current_size_in_bytes s + cell_size c)) (max_size_in_bytes s) (max_count s) next (weight_losses s))
    (lc ++ [(key, c)]).
Proof.
  intros [_ Hcells Hnd Hit Hfr Hz Hcur] Hk Hi Hn Hn' Hc Ht.
  pose proof (lru_weight_range (cell_value c)). pose proof (lru_total_nonneg (contents lc)). split; simpl.
  - unfold nodes. by rewrite fmap_app.
  - rewrite Hcells. by apply entries_insert.
  - rewrite fmap_app. simpl. rewrite <- Permutation_cons_append. by constructor.
  - rewrite fmap_app. simpl. rewrite <- Permutation_cons_append. by constructor.
  - apply Forall_app. split; [|by constructor]. eapply Forall_impl; [exact Hfr|]. intros kc Hkc. simpl in *. lia.
  - apply Forall_app. split; [done|]. by constructor.
  - rewrite Hcur, Hc, contents_app, total_app. simpl. rewrite wrap_small by zlia. lia.
Qed.

Lemma mirror_eq s lc : mirror s lc → s = set_contents s (nodes lc) (list_to_map lc) (total (contents lc)).
Proof. intros [Hq Hc _ _ _ _ Hcur]. destruct s. simpl in *. by subst. Qed.

Lemma evict_within es max_size max_count log :
  0 ≤ max_size → 0 ≤ max_count → within (evicted es max_size max_count log).
Proof.
  intros Hs Hc. unfold within, evicted. simpl. induction es as [|e es IH]; simpl; [lia|].
  unfold excess. destruct (_ || _) eqn:He; [done|]. apply orb_false_iff in He as [?%Z.ltb_ge [?%negb_false_iff|?]%andb_false_iff].
  - split; [done|]. left. lia.
  - split; [done|]. right. by apply Z.ltb_ge.
Qed.

Lemma evict_total es max_size max_count : total (evict max_size max_count es) ≤ total es.
Proof.
  induction es as [|e es IH]; simpl; [done|]. pose proof (lru_weight_range e.2). case_match; simpl; lia.
Qed.

Lemma overflows_excess s lc : mirror s lc →
  overflows s (length lc) = excess (max_size_in_bytes s) (max_count s) (contents lc).
Proof. intros Hm. unfold overflows, excess. by rewrite (mirror_total _ _ Hm), contents_length. Qed.

Lemma removeOverflow_step s key c lc lost :
  mirror s ((key, c) :: lc) →
  removeOverflow_loop (length ((key, c) :: lc)) lost s =
    if excess (max_size_in_bytes s) (max_count s) (contents ((key, c) :: lc)) then
      removeOverflow_loop (length lc) (u64 (lost + cell_size c))
        (set_contents s (nodes lc) (delete key (cells s)) (u64 (current_size_in_bytes s - cell_size c)))
    else Ret (s, lost).
Proof.
  intros Hm. rewrite <- overflows_excess by done. cbn [removeOverflow_loop length].
  destruct (overflows _ _); [|done]. rewrite (mirror_queue _ _ Hm). simpl.
  by rewrite (proj2 (mirror_lookup s _ Hm key c)) by (by exists [], lc).
Qed.

Lemma removeOverflow_loop_spec lc : ∀ s lost,
  mirror s lc → 0 ≤ lost → lost + total (contents lc) < 2 ^ 64 →
  ∃ lc', let s' := set_contents s (nodes lc') (list_to_map lc') (total (contents lc')) in
    contents lc' = evict (max_size_in_bytes s) (max_count s) (contents lc) ∧ mirror s' lc' ∧
    removeOverflow_loop (length lc) lost s = Ret (s', lost + (total (contents lc) - total (contents lc'))).
Proof.
  induction lc as [|[key c] lc IH]; intros s lost Hm Hl Hlt; pose proof (mirror_eq _ _ Hm) as Heq.
  { exists []. cbn zeta. rewrite <- Heq. split_and!; [done..|]. simpl. do 2 f_equal. lia. }
  rewrite removeOverflow_step by done.
  pose proof (lru_total_nonneg (contents lc)). pose proof (lru_weight_range (cell_value c)).
  assert (total (contents ((key, c) :: lc)) = weight (cell_value c) + total (contents lc)) as Htot by done.
  cbn [contents fmap list_fmap evict]. change ((key, cell_value c) :: _) with (contents ((key, c) :: lc)).
  fold (contents lc). destruct (excess _ _ _).
  - destruct (mirror_drop s _ Hm [] key c lc) as [Hm' Hu]; [done|lia|]. cbn [app] in *.
    pose proof (mirror_sizes _ _ Hm) as [Hz _]%Forall_cons. simpl in Hz. rewrite Hz in *.
    rewrite (wrap_small 8 (lost + _)) by zlia.
    destruct (IH _ (lost + weight (cell_value c)) Hm') as (lc' & He & Hm2 & Hr); [lia..|].
    exists lc'. cbn zeta in *. split_and!; [done..|]. rewrite Hr. simpl. do 2 f_equal. lia.
  - exists ((key, c) :: lc). cbn zeta. rewrite <- Heq. split_and!; [done..|]. simpl. do 2 f_equal. lia.
Qed.

Lemma removeOverflow_spec s lc :
  mirror s lc → total (contents lc) < 2 ^ 64 → 0 ≤ max_size_in_bytes s ≤ 2 ^ 63 → 0 ≤ max_count s →
  ∃ s', removeOverflow s = Ret s' ∧
    represents s' (evicted (contents lc) (max_size_in_bytes s) (max_count s) (weight_losses s)).
Proof.
  intros Hm Ht Hs Hc. destruct (removeOverflow_loop_spec lc s 0 Hm) as (lc' & He & Hm' & Hr); [lia..|]. cbn zeta in *.
  pose proof (evict_within (contents lc) _ _ [] (proj1 Hs) Hc) as [Hw _]. simpl in Hw.
  unfold removeOverflow. rewrite (mirror_size s lc Hm), Hr. simpl.
  rewrite ub_unless_true by (simpl; rewrite He; lia). simpl. eexists. split; [done|]. split; simpl; try done.
  - exists lc'. split; [|done]. by destruct Hm'.
  - by rewrite He.
Qed.

(** ** Every operation *)

Definition sensible_limits (p : spec) : Prop := 0 ≤ limit_size p ≤ 2 ^ 63 ∧ 0 ≤ limit_count p.

(** The limits that are set are 64-bit numbers, the one of the size at most [2 ^ 63]. *)
Definition sensible_op (o : op Key Mapped) : Prop :=
  match o with
  | SetMaxCount n => 0 ≤ n
  | SetMaxSizeInBytes n => 0 ≤ n ≤ 2 ^ 63
  | _ => True
  end.

Record simulates s (p : spec) : Prop := {
  simulates_represents : represents s p;
  simulates_within : within p;
  simulates_limits : sensible_limits p;
}.

(** [m] does what [specified] says of the operation [o]. *)
Definition performs (o : op Key Mapped) (p : spec) (m : outcome (answer Key Mapped * t)) : Prop :=
  ∃ s', m = Ret ((specified o p).1, s') ∧ simulates s' (specified o p).2.

Lemma performs_evicted s lc o p es :
  mirror s lc → contents lc = es → total es < 2 ^ 64 →
  0 ≤ max_size_in_bytes s ≤ 2 ^ 63 → 0 ≤ max_count s →
  specified o p = (Nothing, evicted es (max_size_in_bytes s) (max_count s) (weight_losses s)) →
  performs o p (s ← removeOverflow s; Ret (Nothing, s)).
Proof.
  intros Hm <- Ht Hs Hc Ho. destruct (removeOverflow_spec s lc Hm Ht Hs Hc) as (s' & -> & Hr).
  exists s'. rewrite Ho. split; [done|]. split; [done|apply evict_within; lia|done].
Qed.

Lemma others_total key es : total (others key es) ≤ total es.
Proof. by eapply total_filter. Qed.

Section operations.
Context (s : t) (p : spec) (Hsim : simulates s p).

Lemma simulates_mirror : ∃ lc, mirror s lc ∧
  p = mk_spec (contents lc) (max_size_in_bytes s) (max_count s) (weight_losses s) ∧
  total (contents lc) ≤ max_size_in_bytes s ∧ 0 ≤ max_size_in_bytes s ≤ 2 ^ 63 ∧ 0 ≤ max_count s.
Proof.
  destruct Hsim as [[(lc & Hm & He) Hs Hc Hl] [Hw _] Hlim]. destruct p as [es ms mc log]. unfold sensible_limits in Hlim.
  simpl in *. exists lc. subst. do 3 (split; [done|]). tauto.
Qed.

(** The entries are a part of the old ones, in another order. *)
Lemma simulates_part s' lc' es' :
  mirror s' lc' → es' = contents lc' →
  max_size_in_bytes s' = max_size_in_bytes s → max_count s' = max_count s → weight_losses s' = weight_losses s →
  total es' ≤ total (entries p) → (length es' ≤ length (entries p))%nat →
  simulates s' (mk_spec es' (limit_size p) (limit_count p) (reported p)).
Proof.
  intros Hm He Hs Hc Hl Ht Hn. destruct Hsim as [[_ Hs' Hc' Hl'] [Hw1 Hw2] Hlim].
  split; [split; simpl; [by exists lc'|congruence..]|split; simpl; [lia|]|done].
  destruct Hw2; [by left|right; lia].
Qed.

Lemma setMaxCount_performs n : 0 ≤ n → performs (SetMaxCount n) p (apply policy (SetMaxCount n) s).
Proof.
  intros Hn. destruct simulates_mirror as (lc & Hm & Hp & Ht & Hs & Hc).
  apply (performs_evicted _ lc _ _ (contents lc)); simpl; [by destruct Hm|done|lia|done..|by rewrite Hp].
Qed.

Lemma setMaxSizeInBytes_performs n :
  0 ≤ n ≤ 2 ^ 63 → performs (SetMaxSizeInBytes n) p (apply policy (SetMaxSizeInBytes n) s).
Proof.
  intros Hn. destruct simulates_mirror as (lc & Hm & Hp & Ht & Hs & Hc).
  apply (performs_evicted _ lc _ _ (contents lc)); simpl; [by destruct Hm|done|lia|done..|by rewrite Hp].
Qed.

Lemma clear_performs : performs Clear p (apply policy Clear s).
Proof.
  exists (clear s). split; [done|]. apply (simulates_part _ []); simpl; [|done..| |lia].
  - split; simpl; by try constructor.
  - apply lru_total_nonneg.
Qed.

Lemma remove_performs key : performs (Remove key) p (apply policy (Remove key) s).
Proof.
  destruct simulates_mirror as (lc & Hm & Hp & Ht & Hs & Hc). simpl. unfold remove.
  destruct (cells s !! key) as [c|] eqn:Hk.
  - apply (mirror_lookup s lc Hm) in Hk as (pre & post & Hlc). unfold list_erase.
    rewrite (mirror_take s _ Hm _ _ _ _ Hlc). simpl. eexists. split; [done|].
    apply (simulates_part _ (pre ++ post)); try done.
    + apply (mirror_drop s lc Hm pre key c post Hlc). lia.
    + rewrite Hp, Hlc. apply others_present. rewrite <- Hlc. apply (mirror_keys _ _ Hm).
    + apply others_total.
    + apply length_filter.
  - apply (mirror_lookup_None s lc Hm) in Hk. exists s. split; [done|]. simpl.
    rewrite Hp. simpl. rewrite others_absent by done. by rewrite <- Hp.
Qed.

(** What the lookups have in common. *)
Lemma touch_spec key :
  match cells s !! key with
  | None => find key (entries p) = None ∧ touch key (entries p) = entries p
  | Some c =>
      find key (entries p) = Some (key, cell_value c) ∧
      ∃ queue', list_move_to_end (queue_iterator c) (queue s) = Ret queue' ∧
        simulates (set_contents s queue' (cells s) (current_size_in_bytes s)) (specified (Get key) p).2
  end.
Proof.
  destruct simulates_mirror as (lc & Hm & Hp & Ht & Hs & Hc).
  destruct (cells s !! key) as [c|] eqn:Hk.
  - apply (mirror_lookup s lc Hm) in Hk as (pre & post & Hlc). pose proof (mirror_keys _ _ Hm) as Hnd.
    assert (find key (entries p) = Some (key, cell_value c)) as Hf.
    { rewrite Hp, Hlc. apply find_present. by rewrite <- Hlc. }
    split; [done|]. unfold list_move_to_end. rewrite (mirror_take s _ Hm _ _ _ _ Hlc). simpl. eexists. split; [done|].
    unfold touch. rewrite Hf. eapply simulates_part; [by eapply mirror_touch|..]; try done.
    + rewrite Hp. simpl. rewrite Hlc, others_present by (by rewrite <- Hlc). by rewrite !contents_app, <- app_assoc.
    + rewrite Hp. simpl. rewrite Hlc, others_present by (by rewrite <- Hlc). rewrite !contents_app, !total_app. simpl. lia.
    + rewrite Hp. simpl. rewrite Hlc, others_present by (by rewrite <- Hlc).
      rewrite length_app, !contents_length, !length_app. simpl. lia.
  - apply (mirror_lookup_None s lc Hm) in Hk.
    assert (find key (entries p) = None) as Hf by (rewrite Hp; by apply find_absent).
    split; [done|]. unfold touch. by rewrite Hf.
Qed.

Lemma get_performs key : performs (Get key) p (apply policy (Get key) s).
Proof.
  pose proof (touch_spec key) as Ht. simpl. unfold get. destruct (cells s !! key) as [c|].
  - destruct Ht as (Hf & queue' & -> & Hsim'). eexists. split; [|done]. simpl. by rewrite Hf.
  - destruct Ht as [Hf Ht]. exists s. simpl. rewrite Hf, Ht. split; [done|]. by destruct p.
Qed.

Lemma getWithKey_performs key : performs (GetWithKey key) p (apply policy (GetWithKey key) s).
Proof.
  pose proof (touch_spec key) as Ht. simpl. unfold getWithKey. destruct (cells s !! key) as [c|].
  - destruct Ht as (Hf & queue' & -> & Hsim'). eexists. split; [|done]. simpl. by rewrite Hf.
  - destruct Ht as [Hf Ht]. exists s. simpl. rewrite Hf, Ht. split; [done|]. by destruct p.
Qed.

Lemma set_performs key mapped : performs (Put key mapped) p (apply policy (Put key mapped) s).
Proof.
  destruct simulates_mirror as (lc & Hm & Hp & Ht & Hs & Hc). pose proof (lru_weight_range mapped).
  simpl. unfold set. destruct (cells s !! key) as [c|] eqn:Hk.
  - apply (mirror_lookup s lc Hm) in Hk as (pre & post & Hlc). pose proof (mirror_keys _ _ Hm) as Hnd.
    destruct (mirror_drop s lc Hm pre key c post Hlc) as [Hd Hu]; [lia|].
    assert (others key (entries p) = contents (pre ++ post)) as Hoth.
    { rewrite Hp, Hlc. apply others_present. by rewrite <- Hlc. }
    pose proof (others_total key (entries p)) as Hle. rewrite Hoth, Hp in Hle. simpl in Hle.
    unfold list_move_to_end. rewrite (mirror_take s _ Hm _ _ _ _ Hlc). simpl.
    set (c' := mk_cell mapped (weight mapped) (queue_iterator c)).
    apply (performs_evicted _ ((pre ++ post) ++ [(key, c')]) _ _ (contents (pre ++ post) ++ [(key, mapped)])); simpl;
      [|by rewrite contents_app|rewrite total_app; simpl; lia|done..|by rewrite Hoth, Hp].
    rewrite <- insert_delete_eq. rewrite Hlc in Hnd, Hm.
    apply (mirror_append _ _ key c' (next_iterator s) Hd); simpl; [by apply entries_NoDup in Hnd as [_ ?]| | |done..|lia].
    + pose proof (mirror_iterators _ _ Hm) as Hit. rewrite fmap_app in Hit. simpl in Hit.
      rewrite <- Permutation_middle, <- fmap_app in Hit. by apply NoDup_cons in Hit as [? _].
    + pose proof (mirror_fresh _ _ Hm) as Hfr. by apply Forall_app in Hfr as [_ [? _]%Forall_cons].
  - apply (mirror_lookup_None s lc Hm) in Hk. set (c := mk_cell mapped (weight mapped) (next_iterator s)).
    apply (performs_evicted _ (lc ++ [(key, c)]) _ _ (contents lc ++ [(key, mapped)])); simpl;
      [|by rewrite contents_app|rewrite total_app; simpl; lia|done..|rewrite Hp; simpl; by rewrite others_absent].
    rewrite (mirror_queue _ _ Hm).
    apply (mirror_append s lc key c (S (next_iterator s)) Hm Hk); simpl; [|lia..|done|lia].
    intros (kc & Heq & Hin)%list_elem_of_fmap. pose proof (mirror_fresh _ _ Hm) as Hfr.
    rewrite Forall_forall in Hfr. specialize (Hfr _ Hin). lia.
Qed.
End operations.

(** ** Removal by a predicate *)

Definition with_entries (p : spec) es : spec := mk_spec es (limit_size p) (limit_count p) (reported p).

Lemma simulates_keys s p : simulates s p → NoDup (entries p).*1.
Proof.
  intros Hsim. destruct (simulates_mirror s p Hsim) as (lc & Hm & -> & _). simpl. unfold contents.
  rewrite <- list_fmap_compose. apply (mirror_keys _ _ Hm).
Qed.

Lemma simulates_lookup s p key :
  simulates s p → key ∈ (entries p).*1 → ∃ c, cells s !! key = Some c ∧ (key, cell_value c) ∈ entries p.
Proof.
  intros Hsim. destruct (simulates_mirror s p Hsim) as (lc & Hm & -> & _). simpl. unfold contents.
  intros ([k v] & Hk & ([k' c] & ? & Hin)%list_elem_of_fmap)%list_elem_of_fmap. simplify_eq/=.
  exists c. split; [|apply list_elem_of_fmap; by exists (k', c)].
  apply (mirror_lookup s lc Hm). by apply list_elem_of_split.
Qed.

Lemma remove_if_step predicate key keys s c :
  cells s !! key = Some c →
  remove_if_loop predicate (key :: keys) s =
    (s ← (if predicate key (cell_value c) then remove key s else Ret s); remove_if_loop predicate keys s).
Proof. intros Hc. simpl. unfold remove. by rewrite Hc. Qed.

Lemma remove_if_loop_spec predicate keys : ∀ s p,
  simulates s p → NoDup keys → keys ⊆ (entries p).*1 →
  ∃ s', remove_if_loop predicate keys s = Ret s' ∧
    simulates s' (with_entries p (filter (kept predicate keys) (entries p))).
Proof.
  induction keys as [|key keys IH]; intros s p Hsim Hnd Hsub.
  { exists s. split; [done|]. rewrite list_filter_all by (intros; left; set_solver). by destruct p. }
  apply NoDup_cons in Hnd as [Hkey Hnd]. pose proof (simulates_keys s p Hsim) as Hkeys.
  destruct (simulates_lookup s p key Hsim) as (c & Hc & Hin); [set_solver|]. rewrite (remove_if_step _ _ _ _ _ Hc).
  destruct (predicate key (cell_value c)) eqn:Hpred.
  - destruct (remove_performs s p Hsim key) as (s' & Hr & Hsim'). simpl in Hr, Hsim'.
    destruct (remove key s) as [s1| | |]; simplify_eq/=.
    destruct (IH _ _ Hsim' Hnd) as (s'' & -> & Hsim''); simpl.
    { intros k Hk. specialize (Hsub k ltac:(set_solver)). apply list_elem_of_fmap in Hsub as (e & -> & He).
      apply list_elem_of_fmap. exists e. split; [done|]. apply list_elem_of_filter. split; [congruence|done]. }
    exists s''. split; [done|]. simpl in Hsim''. unfold with_entries in *. simpl in *. unfold others in Hsim''.
    rewrite list_filter_filter in Hsim''. erewrite list_filter_ext; [exact Hsim''|]. intros e He. by eapply kept_removed.
  - simpl. destruct (IH _ _ Hsim Hnd) as (s'' & -> & Hsim''); [set_solver|]. exists s''. split; [done|].
    erewrite list_filter_ext; [exact Hsim''|]. intros e He. by eapply kept_stays.
Qed.

Lemma remove_if_performs predicate s p :
  simulates s p → performs (RemoveIf predicate) p (apply policy (RemoveIf predicate) s).
Proof.
  intros Hsim. assert (Hl : listing _ (cells s) ≡ₚ (entries p).*1).
  { destruct (simulates_mirror s p Hsim) as (lc & Hm & -> & _). simpl. unfold contents.
    rewrite <- list_fmap_compose, listing_ok, (mirror_cells _ _ Hm), map_to_list_to_map by apply (mirror_keys _ _ Hm). done. }
  destruct (remove_if_loop_spec predicate (listing _ (cells s)) s p Hsim) as (s' & Hr & Hsim').
  - rewrite Hl. by apply (simulates_keys s).
  - intros k. by rewrite Hl.
  - exists s'. simpl. unfold remove_if. rewrite Hr. split; [done|].
    erewrite list_filter_ext; [exact Hsim'|]. intros e He. unfold kept. rewrite Hl.
    split; [by right|]. intros [Hn|]; [|done]. destruct Hn. apply list_elem_of_fmap. eauto.
Qed.

Lemma apply_performs o s p : simulates s p → sensible_op o → performs o p (apply policy o s).
Proof.
  intros Hsim Ho. destruct o; simpl in Ho; [by apply setMaxCount_performs|by apply setMaxSizeInBytes_performs|..].
  - by apply clear_performs.
  - by apply remove_performs.
  - by apply remove_if_performs.
  - by apply get_performs.
  - by apply getWithKey_performs.
  - by apply set_performs.
Qed.

Lemma create_simulates max_size max_count :
  0 ≤ max_size ≤ 2 ^ 63 → 0 ≤ max_count → simulates (create max_size max_count) (mk_spec [] max_size max_count []).
Proof.
  intros Hs Hc. split; [split; simpl; [|done..]|split; simpl; [lia|right; lia]|done].
  exists []. split; [|done]. split; simpl; by try constructor.
Qed.

(** C15: Whatever operations are performed on a new LRU cache, the answers are those of a list
    of entries in the order of their last use, from which the oldest ones are dropped as long
    as a limit is exceeded: no iterator dangles, [std::terminate] is not reached, the size in
    bytes is the sum of the weights of the entries and does not exceed the maximum, neither
    does the number of entries, and what is reported as lost is the weight that was evicted.
    The limits that are set are at most [2 ^ 63]. A limit of 0 bytes keeps the entries without
    weight, a null pointer for example ([zero_size_accepts_null]). *)
Theorem lru_refines_queue (ops : list (op Key Mapped)) (max_size max_count : Z) :
  0 ≤ max_size ≤ 2 ^ 63 → 0 ≤ max_count → Forall sensible_op ops →
  let '(answers, p) := run_spec specified ops (mk_spec [] max_size max_count []) in
  ∃ s, run policy ops (create max_size max_count) = Ret (answers, s) ∧
    maxSizeInBytes s = limit_size p ∧ weight_losses s = reported p ∧
    sizeInBytes s = total (entries p) ∧ sizeInBytes s ≤ maxSizeInBytes s ∧
    count s = Z.of_nat (length (entries p)) ∧ (limit_count p = 0 ∨ count s ≤ limit_count p) ∧
    (∀ key, find key (entries p) = (λ c, (key, cell_value c)) <$> cells s !! key).
Proof.
  intros Hs Hc Hops. destruct (run_simulates policy specified simulates sensible_op apply_performs ops _ _
    (create_simulates max_size max_count Hs Hc) Hops) as (s & Hr & Hsim).
  destruct (run_spec _ _) as [answers p]. exists s. simpl in *. split; [done|].
  pose proof (simulates_within _ _ Hsim) as [Hw1 Hw2].
  destruct (simulates_mirror s p Hsim) as (lc & Hm & Hp & Ht & _).
  assert (count s = Z.of_nat (length (entries p))) as Hn.
  { unfold count. rewrite (mirror_size s lc Hm), Hp. simpl. by rewrite contents_length. }
  assert (sizeInBytes s = total (entries p)) as Hz by (rewrite Hp; apply (mirror_total _ _ Hm)).
  rewrite Hn, Hz. split_and!; try done.
  - symmetry. by rewrite Hp.
  - by rewrite Hp.
  - by rewrite Hp.
  - intros key. pose proof (touch_spec s p Hsim key) as Htouch.
    destruct (cells s !! key); simpl; by destruct Htouch.
Qed.

(** The newest entry survives the eviction if it fits at all. *)
Lemma evict_last max_size max_count es e :
  0 ≤ max_count →
  if weight e.2 <=? max_size then e ∈ evict max_size max_count (es ++ [e]) else evict max_size max_count (es ++ [e]) = [].
Proof.
  intros Hc. destruct (Z.leb_spec (weight e.2) max_size) as [Hw|Hw]; induction es as [|e' es IH]; simpl.
  - unfold excess. simpl. rewrite (proj2 (Z.ltb_ge _ _)) by lia. simpl.
    destruct (_ && _) eqn:Hb; [|by constructor]. apply andb_true_iff in Hb as [?%negb_true_iff%Z.eqb_neq ?%Z.ltb_lt]. lia.
  - case_match; [done|]. constructor. apply elem_of_app. right. by constructor.
  - unfold excess. simpl. by rewrite (proj2 (Z.ltb_lt _ _)) by lia.
  - pose proof (lru_total_nonneg es). pose proof (lru_weight_range e'.2). unfold excess. simpl. rewrite total_app. simpl.
    by rewrite (proj2 (Z.ltb_lt _ _)) by lia.
Qed.

(** * The contract of a cache policy *)

Definition lru_stored (s : t) (key : Key) : option (option Mapped) := cell_value <$> cells s !! key.

Lemma stored_elem s p key v : simulates s p → lru_stored s key = Some v ↔ (key, v) ∈ entries p.
Proof.
  intros Hsim. destruct (simulates_mirror s p Hsim) as (lc & Hm & -> & _). unfold lru_stored, contents. simpl.
  rewrite fmap_Some, list_elem_of_fmap, (mirror_cells _ _ Hm). split.
  - intros (c & Hc%elem_of_list_to_map_2 & ->). by exists (key, c).
  - intros ([k c] & Heq & Hin). simplify_eq/=. exists c. split; [|done].
    apply elem_of_list_to_map; [apply (mirror_keys _ _ Hm)|done].
Qed.

Lemma stored_part s p s' p' key :
  simulates s p → simulates s' p' → (∀ v, (key, v) ∈ entries p' → (key, v) ∈ entries p) →
  lru_stored s' key = None ∨ lru_stored s' key = lru_stored s key.
Proof.
  intros Hs Hs' Hsub. destruct (lru_stored s' key) as [v|] eqn:Hv; [right|by left].
  symmetry. apply (stored_elem s p); [done|]. by apply Hsub, (stored_elem s').
Qed.

Lemma stored_same s p s' p' key :
  simulates s p → simulates s' p' → (∀ v, (key, v) ∈ entries p' ↔ (key, v) ∈ entries p) →
  lru_stored s' key = lru_stored s key.
Proof.
  intros Hs Hs' Heq. apply option_eq. intros v. by rewrite (stored_elem s' p'), (stored_elem s p), Heq.
Qed.

Lemma evict_elem e max_size max_count es : e ∈ evict max_size max_count es → e ∈ es.
Proof. induction es as [|e' es IH]; simpl; [done|]. case_match; set_solver. Qed.

Lemma find_stored s p key : simulates s p → find key (entries p) = pair key <$> lru_stored s key.
Proof.
  intros Hsim. pose proof (touch_spec s p Hsim key) as Ht. unfold lru_stored. destruct (cells s !! key); by destruct Ht.
Qed.

(** An operation that returns nothing, as the specification performs it. *)
Lemma performs_nothing o p (m : outcome t) :
  performs o p (s ← m; Ret (Nothing, s)) → ∃ s', m = Ret s' ∧ simulates s' (specified o p).2.
Proof. intros (s' & Hr & Hsim). destruct m; simplify_eq/=. by exists s'. Qed.

#[export] Program Instance lru_policy_correct : PolicyCorrect policy := {|
  policy_ok s := ∃ p, simulates s p;
  policy_limit _ n := 0 ≤ n ≤ 2 ^ 63;
  stored := lru_stored;
|}.
Next Obligation.
  intros s key [p Hsim]. destruct (get_performs s p Hsim key) as (s' & Hr & Hsim'). simpl in Hr, Hsim'.
  unfold policy. simpl. destruct (get key s) as [[r s1]| | |]; simplify_eq/=. eexists. split; [done|].
  split_and!; [eauto| |].
  - rewrite (find_stored s p) by done. by destruct (lru_stored s key).
  - intros k. apply (stored_same _ _ _ _ _ Hsim Hsim'). intros v. simpl. apply touch_elem. by eapply simulates_keys.
Qed.
Next Obligation.
  intros s key [p Hsim]. destruct (getWithKey_performs s p Hsim key) as (s' & Hr & Hsim'). simpl in Hr, Hsim'.
  unfold policy. simpl. destruct (getWithKey key s) as [[r s1]| | |]; simplify_eq/=. eexists. split; [done|].
  split_and!; [eauto| |].
  - by apply find_stored.
  - intros k. apply (stored_same _ _ _ _ _ Hsim Hsim'). intros v. simpl. apply touch_elem. by eapply simulates_keys.
Qed.
Next Obligation.
  intros s key mapped [p Hsim]. destruct (performs_nothing _ _ _ (set_performs s p Hsim key mapped)) as (s' & Hr & Hsim').
  exists s'. split; [done|]. split_and!; [eauto| |].
  - destruct (lru_stored s' key) as [v|] eqn:Hv; [right|by left]. f_equal.
    apply (stored_elem _ _ _ _ Hsim') in Hv. apply evict_elem in Hv.
    rewrite elem_of_app, others_elem, list_elem_of_singleton in Hv. naive_solver.
  - intros k Hk. apply (stored_part _ _ _ _ _ Hsim Hsim'). intros v Hv%evict_elem.
    rewrite elem_of_app, others_elem, list_elem_of_singleton in Hv. naive_solver.
Qed.
Next Obligation.
  intros s key [p Hsim]. destruct (performs_nothing _ _ _ (remove_performs s p Hsim key)) as (s' & Hr & Hsim').
  exists s'. split; [done|]. simpl in Hsim'. split_and!; [eauto| |].
  - destruct (lru_stored s' key) as [v|] eqn:Hv; [|done].
    apply (stored_elem _ _ _ _ Hsim') in Hv. simpl in Hv. rewrite others_elem in Hv. naive_solver.
  - intros k Hk. apply (stored_same _ _ _ _ _ Hsim Hsim'). intros v. simpl. rewrite others_elem. naive_solver.
Qed.
Next Obligation.
  intros s predicate [p Hsim]. destruct (performs_nothing _ _ _ (remove_if_performs predicate s p Hsim)) as (s' & Hr & Hsim').
  exists s'. split; [done|]. split; [eauto|]. intros k. apply option_eq. intros v.
  rewrite (stored_elem _ _ _ _ Hsim'), bind_Some. simpl. rewrite list_elem_of_filter. simpl. split.
  - intros [Hp Hin]. exists v. rewrite (stored_elem s p), Hp by done. done.
  - intros (w & Hw%(stored_elem s p) & Hif); [|done]. destruct (predicate k w) eqn:?; by simplify_eq.
Qed.
Next Obligation.
  intros s [p Hsim]. destruct (clear_performs s p Hsim) as (s' & Hr & Hsim'). simplify_eq/=. split; [eauto|]. done.
Qed.
Next Obligation.
  intros s n [p Hsim] Hn. destruct (performs_nothing _ _ _ (setMaxCount_performs s p Hsim n (proj1 Hn))) as (s' & Hr & Hsim').
  exists s'. split; [done|]. split; [eauto|]. intros k. apply (stored_part _ _ _ _ _ Hsim Hsim').
  intros v. apply evict_elem.
Qed.
Next Obligation.
  intros s n [p Hsim] Hn. destruct (performs_nothing _ _ _ (setMaxSizeInBytes_performs s p Hsim n Hn)) as (s' & Hr & Hsim').
  exists s'. split; [done|]. split; [eauto|]. intros k. apply (stored_part _ _ _ _ _ Hsim Hsim').
  intros v. apply evict_elem.
Qed.

Lemma set_then_get s p key value :
  simulates s p →
  ∃ s' found s'', set key (Some value) s = Ret s' ∧ get key s' = Ret (found, s'') ∧
    if weight_function value <=? maxSizeInBytes s then found = Some value
    else found = None ∧ count s' = 0.
Proof.
  intros Hsim. destruct (performs_nothing _ _ _ (set_performs s p Hsim key (Some value))) as (s' & Hr & Hsim').
  destruct (get_law (PolicyCorrect := lru_policy_correct) s' key (ex_intro _ _ Hsim')) as ([found s''] & Hget & _ & -> & _).
  exists s'. do 2 eexists. split; [done|]. split; [done|]. unfold maxSizeInBytes.
  rewrite (represents_size _ _ (simulates_represents _ _ Hsim)).
  pose proof (evict_last (limit_size p) (limit_count p) (others key (entries p)) (key, Some value)
    (proj2 (simulates_limits _ _ Hsim))) as He. simpl in He.
  destruct (weight_function value <=? limit_size p).
  - simpl. by rewrite (proj2 (stored_elem s' _ key (Some value) Hsim')).
  - destruct (simulates_mirror _ _ Hsim') as (lc & Hm & Hp & _). simpl in Hp. unfold evicted in Hp. rewrite He in Hp.
    destruct lc; [|done]. unfold count. simpl. unfold lru_stored. by rewrite (mirror_size _ _ Hm), (mirror_cells _ _ Hm).
Qed.

(** In every LRU cache that operations lead to, a value that is set is found by the next
    lookup of its key, whatever was in the cache, if its weight does not exceed the maximum;
    otherwise the lookup finds nothing and the set has emptied the cache. *)
Theorem lru_set_then_get (ops : list (op Key Mapped)) (max_size max_count : Z) answers s key value :
  0 ≤ max_size ≤ 2 ^ 63 → 0 ≤ max_count → Forall sensible_op ops →
  run policy ops (create max_size max_count) = Ret (answers, s) →
  ∃ s' found s'', set key (Some value) s = Ret s' ∧ get key s' = Ret (found, s'') ∧
    if weight_function value <=? maxSizeInBytes s then found = Some value
    else found = None ∧ count s' = 0.
Proof.
  intros Hs Hc Hops Hrun.
  destruct (run_simulates policy specified simulates sensible_op apply_performs ops _ _
    (create_simulates max_size max_count Hs Hc) Hops) as (s0 & Hr & Hsim).
  rewrite Hr in Hrun. simplify_eq. by eapply set_then_get.
Qed.
End policy.

(** ** A cache of two entries *)

Definition listed {Key} `{Countable Key} V (m : gmap Key V) : list Key := (map_to_list m).*1.

Definition three_sets : list (op Z Z) := [Put 1 (Some 10); Put 2 (Some 20); Get 1; Put 3 (Some 30)].

Lemma equal_weights (value : Z) : 0 ≤ EqualWeightFunction value < 2 ^ 63.
Proof. unfold EqualWeightFunction. lia. Qed.

Lemma three_sets_sensible : Forall sensible_op three_sets.
Proof. repeat constructor. Qed.

Lemma lru_refines_queue_witness :
  ∃ s, run (policy EqualWeightFunction listed) three_sets (create 2 0) = Ret ([Nothing; Nothing; Pointer (Some 10); Nothing], s) ∧
    weight_losses s = [0; 0; 1] ∧ count s = 2 ∧ cell_value <$> cells s !! 1 = Some (Some 10) ∧ cells s !! 2 = None.
Proof.
  destruct (lru_refines_queue EqualWeightFunction listed equal_weights (λ _ _, reflexivity _) three_sets 2 0
    ltac:(lia) ltac:(lia) three_sets_sensible) as (s & Hr & _ & Hw & _ & _ & Hc & _ & Hf).
  exists s. split; [exact Hr|]. split; [exact Hw|]. split; [exact Hc|].
  assert ((λ c, (1, cell_value c)) <$> cells s !! 1 = Some (1, Some 10)) as H1 by (rewrite <- Hf; vm_compute; reflexivity).
  assert ((λ c, (2, cell_value c)) <$> cells s !! 2 = None) as H2 by (rewrite <- Hf; vm_compute; reflexivity).
  clear - H1 H2. destruct (cells s !! 1), (cells s !! 2); simpl in *; split; congruence.
Defined.

(** The comment on the constructor says that a cache with [max_size_in_bytes] 0 accepts no
    entries; an entry without weight is accepted, here a null pointer. *)
Lemma zero_size_accepts_null :
  ∃ s, set (Key := Z) (Mapped := Z) EqualWeightFunction 1 None (create 0 0) = Ret s ∧ count s = 1 ∧ sizeInBytes s = 0 ∧
    cell_value <$> cells s !! 1 = Some None.
Proof. eexists. split; [vm_compute; reflexivity|]. by vm_compute. Qed.

Lemma lru_set_then_get_witness :
  ∃ s' s'', set EqualWeightFunction 2 (Some 7) (create 5 1) = Ret s' ∧ get 2 s' = Ret (Some 7, s'').
Proof.
  destruct (lru_set_then_get EqualWeightFunction listed equal_weights (λ _ _, reflexivity _) [] 5 1 [] (create 5 1) 2 7
    ltac:(lia) ltac:(lia) (Forall_nil_2 _) eq_refl) as (s' & found & s'' & Hs & Hg & Hf).
  exists s', s''. split; [exact Hs|]. simpl in Hf. rewrite Hg. by rewrite Hf.
Defined.
End LRU.
