(* ===== verification/SLRUCache.v ===== *)
(** The cache policy SLRU (src/src/Common/SLRUCachePolicy.h): a probationary and a protected
    queue. A new entry is on probation; it becomes protected when it is used again. The
    overflow of the protected queue goes back on probation and the overflow of the whole
    cache is dropped from the probationary queue.

    Keys, weights, the hash map, reports of lost weight and [std::terminate] are as in
    LRUCache.v. The ratio of the protected part is a double, as in Doubles.v. *)

From stdpp Require Import base tactics list numbers gmap.
From Stdlib Require Import SpecFloat.
From S2P Require Import Prelude Doubles Containers CachePolicy LRUCache.
Local Open Scope Z_scope.

Module SLRU.

Definition calculateMaxProtectedSize (max_size_in_bytes : Z) (size_ratio : spec_float) : outcome Z :=
  size_of_double
    (double_mul (double_of_size max_size_in_bytes) (double_max double_zero (double_min double_one size_ratio))).

Section policy.
Context {Key Mapped : Type} `{Countable Key} (weight_function : Mapped → Z).
Context (listing : ∀ V, gmap Key V → list Key).
Local Notation weight := (weight weight_function).
Local Notation total := (total_weight weight_function).

(** * The policy *)

Record Cell := mk_cell {
  is_protected : bool;
  cell_value : option Mapped;
  cell_size : Z;
  queue_iterator : nat;
}.

Record t := mk {
  probationary_queue : list (node Key);
  protected_queue : list (node Key);
  cells : gmap Key Cell;
  max_size_in_bytes : Z;
  max_protected_size : Z;
  max_count : Z;
  size_ratio : spec_float;
  current_protected_size : Z;
  current_size_in_bytes : Z;
  next_iterator : nat;
  weight_losses : list Z;
}.

Definition create (max_size_in_bytes max_count : Z) (size_ratio : spec_float) : outcome t :=
  max_protected_size ← calculateMaxProtectedSize max_size_in_bytes size_ratio;
  Ret (mk [] [] ∅ max_size_in_bytes max_protected_size max_count size_ratio 0 0 0 []).

Definition sizeInBytes (s : t) : Z := current_size_in_bytes s.
Definition count (s : t) : Z := Z.of_nat (size (cells s)).
Definition maxSizeInBytes (s : t) : Z := max_size_in_bytes s.

(** The queues, the cells, and the sizes of the protected part and of the whole cache. *)
Definition set_contents (s : t) (probationary protected : list (node Key)) (cells : gmap Key Cell) (protected_size size : Z) : t :=
  mk probationary protected cells (max_size_in_bytes s) (max_protected_size s) (max_count s) (size_ratio s)
    protected_size size (next_iterator s) (weight_losses s).

(** What the callers of [removeOverflow] pass along with its argument [is_protected]: the
    queue, the limit and a reference to the size. *)
Definition queue (protected : bool) (s : t) : list (node Key) :=
  if protected then protected_queue s else probationary_queue s.
Definition max_weight_size (protected : bool) (s : t) : Z :=
  if protected then max_protected_size s else max_size_in_bytes s.
Definition current_weight_size (protected : bool) (s : t) : Z :=
  if protected then current_protected_size s else current_size_in_bytes s.

Definition set_queue (protected : bool) (q : list (node Key)) (s : t) : t :=
  if protected then set_contents s (probationary_queue s) q (cells s) (current_protected_size s) (current_size_in_bytes s)
  else set_contents s q (protected_queue s) (cells s) (current_protected_size s) (current_size_in_bytes s).
Definition set_current_weight_size (protected : bool) (n : Z) (s : t) : t :=
  if protected then set_contents s (probationary_queue s) (protected_queue s) (cells s) n (current_size_in_bytes s)
  else set_contents s (probationary_queue s) (protected_queue s) (cells s) (current_protected_size s) n.
Definition set_cells (c : gmap Key Cell) (s : t) : t :=
  set_contents s (probationary_queue s) (protected_queue s) c (current_protected_size s) (current_size_in_bytes s).

Definition set_is_protected (protected : bool) (cell : Cell) : Cell :=
  mk_cell protected (cell_value cell) (cell_size cell) (queue_iterator cell).

(** [probationary_queue.splice(probationary_queue.end(), queue, it)]. *)
Definition splice_to_probationary (protected : bool) (it : nat) (s : t) : outcome t :=
  if protected then
    '(from, to) ← list_splice_end it (protected_queue s) (probationary_queue s);
    Ret (set_contents s to from (cells s) (current_protected_size s) (current_size_in_bytes s))
  else
    q ← list_move_to_end it (probationary_queue s);
    Ret (set_contents s q (protected_queue s) (cells s) (current_protected_size s) (current_size_in_bytes s)).

(** [protected_queue.splice(protected_queue.end(), probationary_queue, it)]. *)
Definition splice_to_protected (it : nat) (s : t) : outcome t :=
  '(from, to) ← list_splice_end it (probationary_queue s) (protected_queue s);
  Ret (set_contents s from to (cells s) (current_protected_size s) (current_size_in_bytes s)).

(** The difference of the sizes of two containers, as a [size_t]. *)
Definition size_difference (a b : nat) : Z :=
  if (a <? b)%nat then Z.of_nat a - Z.of_nat b + 2 ^ 64 else Z.of_nat a - Z.of_nat b.

(** The condition of the loop, except for [queue_size > 0]. *)
Definition need_remove (protected : bool) (s : t) : bool :=
  let number :=
    if protected then size_difference (size (cells s)) (length (probationary_queue s))
    else Z.of_nat (size (cells s)) in
  (negb (max_count s =? 0) && (max_count s <? number)) || (max_weight_size protected s <? current_weight_size protected s).

Fixpoint removeOverflow_loop (protected : bool) (queue_size : nat) (current_weight_lost : Z) (s : t) : outcome (t * Z) :=
  match queue_size with
  | O => Ret (s, current_weight_lost)
  | S rest =>
      if need_remove protected s then
        key ← list_front (queue protected s);
        match cells s !! key with
        | None => UB
        | Some cell =>
            let s := set_current_weight_size protected (u64 (current_weight_size protected s - cell_size cell)) s in
            if is_protected cell then
              let s := set_cells (<[key := set_is_protected false cell]> (cells s)) s in
              s ← splice_to_probationary protected (queue_iterator cell) s;
              removeOverflow_loop protected rest current_weight_lost s
            else
              let s := set_cells (delete key (cells s)) s in
              q ← list_pop_front (queue protected s);
              removeOverflow_loop protected rest (u64 (current_weight_lost + cell_size cell)) (set_queue protected q s)
        end
      else Ret (s, current_weight_lost)
  end.

Definition removeOverflow (protected : bool) (s : t) : outcome t :=
  '(s, current_weight_lost) ← removeOverflow_loop protected (length (queue protected s)) 0 s;
  let s :=
    if protected then s
    else mk (probationary_queue s) (protected_queue s) (cells s) (max_size_in_bytes s) (max_protected_size s) (max_count s)
           (size_ratio s) (current_protected_size s) (current_size_in_bytes s) (next_iterator s)
           (weight_losses s ++ [current_weight_lost]) in
  _ ← ub_unless (current_size_in_bytes s <=? 2 ^ 63);
  Ret s.

Definition setMaxCount (max_count : Z) (s : t) : outcome t :=
  let s := mk (probationary_queue s) (protected_queue s) (cells s) (max_size_in_bytes s) (max_protected_size s) max_count
             (size_ratio s) (current_protected_size s) (current_size_in_bytes s) (next_iterator s) (weight_losses s) in
  s ← removeOverflow true s;
  removeOverflow false s.

Definition setMaxSizeInBytes (max_size_in_bytes : Z) (s : t) : outcome t :=
  max_protected_size ← calculateMaxProtectedSize max_size_in_bytes (size_ratio s);
  let s := mk (probationary_queue s) (protected_queue s) (cells s) max_size_in_bytes max_protected_size (max_count s)
             (size_ratio s) (current_protected_size s) (current_size_in_bytes s) (next_iterator s) (weight_losses s) in
  s ← removeOverflow true s;
  removeOverflow false s.

Definition clear (s : t) : t := set_contents s [] [] ∅ 0 0.

Definition erase_cell (key : Key) (cell : Cell) (s : t) : outcome t :=
  let s := set_current_weight_size false (u64 (current_size_in_bytes s - cell_size cell)) s in
  let s := if is_protected cell then set_current_weight_size true (u64 (current_protected_size s - cell_size cell)) s else s in
  q ← list_erase (queue_iterator cell) (queue (is_protected cell) s);
  Ret (set_cells (delete key (cells s)) (set_queue (is_protected cell) q s)).

Definition remove (key : Key) (s : t) : outcome t :=
  match cells s !! key with
  | None => Ret s
  | Some cell => erase_cell key cell s
  end.

(** The loop over the cells. *)
Fixpoint remove_if_loop (predicate : Key → option Mapped → bool) (keys : list Key) (s : t) : outcome t :=
  match keys with
  | [] => Ret s
  | key :: keys =>
      match cells s !! key with
      | None => UB
      | Some cell =>
          s ← (if predicate key (cell_value cell) then erase_cell key cell s else Ret s);
          remove_if_loop predicate keys s
      end
  end.

Definition remove_if (predicate : Key → option Mapped → bool) (s : t) : outcome t :=
  remove_if_loop predicate (listing _ (cells s)) s.

(** What the two lookups do to the entry that they have found. *)
Definition use_cell (key : Key) (cell : Cell) (s : t) : outcome t :=
  if is_protected cell then
    q ← list_move_to_end (queue_iterator cell) (protected_queue s);
    Ret (set_queue true q s)
  else
    let s := set_cells (<[key := set_is_protected true cell]> (cells s)) s in
    let s := set_current_weight_size true (u64 (current_protected_size s + cell_size cell)) s in
    s ← splice_to_protected (queue_iterator cell) s;
    removeOverflow true s.

Definition get (key : Key) (s : t) : outcome (option Mapped * t) :=
  match cells s !! key with
  | None => Ret (None, s)
  | Some cell => s ← use_cell key cell s; Ret (cell_value cell, s)
  end.

Definition getWithKey (key : Key) (s : t) : outcome (option (Key * option Mapped) * t) :=
  match cells s !! key with
  | None => Ret (None, s)
  | Some cell => s ← use_cell key cell s; Ret (Some (key, cell_value cell), s)
  end.

Definition set (key : Key) (mapped : option Mapped) (s : t) : outcome t :=
  '(protected, iterator, s) ←
    match cells s !! key with
    | None =>
        Ret (false, next_iterator s,
             mk (list_insert_end (next_iterator s) key (probationary_queue s)) (protected_queue s) (cells s)
               (max_size_in_bytes s) (max_protected_size s) (max_count s) (size_ratio s)
               (current_protected_size s) (current_size_in_bytes s) (S (next_iterator s)) (weight_losses s))
    | Some cell =>
        let s := set_current_weight_size false (u64 (current_size_in_bytes s - cell_size cell)) s in
        if is_protected cell then
          let s := set_current_weight_size true (u64 (current_protected_size s - cell_size cell)) s in
          q ← list_move_to_end (queue_iterator cell) (protected_queue s);
          Ret (true, queue_iterator cell, set_queue true q s)
        else
          s ← splice_to_protected (queue_iterator cell) s;
          Ret (true, queue_iterator cell, s)
    end;
  let cell := mk_cell protected mapped (weight mapped) iterator in
  let s := set_cells (<[key := cell]> (cells s)) s in
  let s := set_current_weight_size false (u64 (current_size_in_bytes s + cell_size cell)) s in
  let s := set_current_weight_size true (u64 (current_protected_size s + (if protected then cell_size cell else 0))) s in
  s ← removeOverflow true s;
  removeOverflow false s.

Definition dump (s : t) : list (Key * option Mapped) :=
  omap (λ key, cell ← cells s !! key; Some (key, cell_value cell))%stdpp (listing _ (cells s)).

(** [setQuotaForUser] reaches [NoCachePolicyUserQuota], which ignores it. *)
Definition policy : ICachePolicy Key Mapped t := {|
  policy_sizeInBytes := sizeInBytes;
  policy_count := count;
  policy_maxSizeInBytes := maxSizeInBytes;
  policy_setMaxCount := setMaxCount;
  policy_setMaxSizeInBytes := setMaxSizeInBytes;
  policy_setQuotaForUser _ _ _ s := s;
  policy_get := get;
  policy_getWithKey := getWithKey;
  policy_set := set;
  policy_remove := remove;
  policy_remove_if := remove_if;
  policy_clear := clear;
  policy_dump := dump;
|}.

(** * The specification: two lists, each from the least to the most recently used entry *)

Record spec := mk_spec {
  probation : list (Key * option Mapped);
  protected : list (Key * option Mapped);
  limit_size : Z;
  limit_protected : Z;
  limit_count : Z;
  ratio : spec_float;
  reported : list Z;
}.

Definition exceeds (max_size max_count : Z) (es : list (Key * option Mapped)) : bool :=
  (negb (max_count =? 0) && (max_count <? Z.of_nat (length es))) || (max_size <? total es).

(** The oldest protected entries go on probation as long as a limit of the protected part is
    exceeded. *)
Fixpoint demote (max_protected max_count : Z) (prob prot : list (Key * option Mapped)) :
    list (Key * option Mapped) * list (Key * option Mapped) :=
  match prot with
  | [] => (prob, [])
  | e :: prot' =>
      if exceeds max_protected max_count prot then demote max_protected max_count (prob ++ [e]) prot' else (prob, prot)
  end.

(** The oldest entries on probation are dropped as long as a limit of the cache is exceeded. *)
Fixpoint evict (max_size max_count : Z) (prob prot : list (Key * option Mapped)) : list (Key * option Mapped) :=
  match prob with
  | [] => []
  | _ :: prob' => if exceeds max_size max_count (prob ++ prot) then evict max_size max_count prob' prot else prob
  end.

Definition with_entries (prob prot : list (Key * option Mapped)) (p : spec) : spec :=
  mk_spec prob prot (limit_size p) (limit_protected p) (limit_count p) (ratio p) (reported p).

Definition demoted (p : spec) : spec :=
  let '(prob, prot) := demote (limit_protected p) (limit_count p) (probation p) (protected p) in with_entries prob prot p.

Definition evicted (p : spec) : spec :=
  let prob := evict (limit_size p) (limit_count p) (probation p) (protected p) in
  mk_spec prob (protected p) (limit_size p) (limit_protected p) (limit_count p) (ratio p)
    (reported p ++ [total (probation p) - total prob]).

Definition lookup_entry (key : Key) (p : spec) : option (Key * option Mapped) := find key (probation p ++ protected p).

(** A used entry becomes the most recent protected one. *)
Definition promote (key : Key) (mapped : option Mapped) (p : spec) : spec :=
  with_entries (others key (probation p)) (others key (protected p) ++ [(key, mapped)]) p.

Definition specified (o : op Key Mapped) (p : spec) : answer Key Mapped * spec :=
  let use key := match lookup_entry key p with Some (_, mapped) => demoted (promote key mapped p) | None => p end in
  match o with
  | SetMaxCount n =>
      (Nothing, evicted (demoted (mk_spec (probation p) (protected p) (limit_size p) (limit_protected p) n (ratio p) (reported p))))
  | SetMaxSizeInBytes n =>
      match calculateMaxProtectedSize n (ratio p) with
      | Ret m => (Nothing, evicted (demoted (mk_spec (probation p) (protected p) n m (limit_count p) (ratio p) (reported p))))
      | _ => (Nothing, p)
      end
  | Clear => (Nothing, with_entries [] [] p)
  | Remove key => (Nothing, with_entries (others key (probation p)) (others key (protected p)) p)
  | RemoveIf predicate =>
      (Nothing, with_entries (filter (λ e, predicate e.1 e.2 = false) (probation p))
        (filter (λ e, predicate e.1 e.2 = false) (protected p)) p)
  | Get key => (Pointer (lookup_entry key p ≫= snd), use key)
  | GetWithKey key => (Found (lookup_entry key p), use key)
  | Put key mapped =>
      (Nothing, evicted (demoted (match lookup_entry key p with
        | Some _ => promote key mapped p
        | None => with_entries (probation p ++ [(key, mapped)]) (protected p) p
        end)))
  end.

(** * The cache refines its specification *)

Context (weights : ∀ value, 0 ≤ weight_function value < 2 ^ 62).
Context (listing_ok : ∀ V (m : gmap Key V), listing V m ≡ₚ (map_to_list m).*1).
Implicit Types (l lp lt pre post : list (Key * Cell)) (es prob prot : list (Key * option Mapped)) (key : Key) (s : t).

Definition nodes l : list (node Key) := (λ kc, mk_node (queue_iterator kc.2) kc.1) <$> l.
Definition contents l : list (Key * option Mapped) := (λ kc, (kc.1, cell_value kc.2)) <$> l.
Definition iterators l : list nat := (λ kc, queue_iterator kc.2) <$> l.

(** The cells [l] have different keys and iterators, and the right sizes. *)
Record good (next : nat) l : Prop := {
  good_keys : NoDup l.*1;
  good_iterators : NoDup (iterators l);
  good_cells : Forall (λ kc, (queue_iterator kc.2 < next)%nat ∧ cell_size kc.2 = weight (cell_value kc.2)) l;
}.

Definition flagged (b : bool) l : Prop := Forall (λ kc, is_protected kc.2 = b) l.

(** The policy whose queues are made of the cells [lp] and [lt]. *)
Definition build s lp lt : t :=
  set_contents s (nodes lp) (nodes lt) (list_to_map (lp ++ lt)) (total (contents lt)) (total (contents (lp ++ lt))).

Definition spec_of s lp lt : spec :=
  mk_spec (contents lp) (contents lt) (max_size_in_bytes s) (max_protected_size s) (max_count s) (size_ratio s)
    (weight_losses s).

Lemma slru_weight_range (mapped : option Mapped) : 0 ≤ weight mapped < 2 ^ 62.
Proof. by apply weight_range. Qed.

Lemma slru_total_nonneg es : 0 ≤ total es.
Proof. by eapply total_nonneg. Qed.

Lemma slru_contents_app l1 l2 : contents (l1 ++ l2) = contents l1 ++ contents l2.
Proof. apply fmap_app. Qed.

Lemma contents_cons key c l : contents ((key, c) :: l) = (key, cell_value c) :: contents l.
Proof. done. Qed.

Lemma nodes_app l1 l2 : nodes (l1 ++ l2) = nodes l1 ++ nodes l2.
Proof. apply fmap_app. Qed.

Lemma slru_contents_length l : length (contents l) = length l.
Proof. apply length_fmap. Qed.

Lemma nodes_length l : length (nodes l) = length l.
Proof. apply length_fmap. Qed.

Lemma contents_keys l : (contents l).*1 = l.*1.
Proof. unfold contents. by rewrite <- list_fmap_compose. Qed.

Section good.
Context (next : nat).

#[local] Instance good_proper : Proper ((≡ₚ) ==> iff) (good next).
Proof.
  assert (∀ l l', l ≡ₚ l' → good next l → good next l') as Hp.
  { intros l l' Hp [Hk Hi Hc]. split; [by rewrite <- Hp| |by rewrite <- Hp].
    unfold iterators in *. by rewrite <- Hp. }
  intros l l' Hl. split; by apply Hp.
Qed.

Lemma good_cons key c l :
  good next ((key, c) :: l) ↔
  key ∉ l.*1 ∧ queue_iterator c ∉ iterators l ∧ (queue_iterator c < next)%nat ∧ cell_size c = weight (cell_value c) ∧
  good next l.
Proof.
  split.
  - intros [Hk Hi Hc]. apply NoDup_cons in Hk as [? ?]. simpl in Hi. apply NoDup_cons in Hi as [? ?].
    apply Forall_cons in Hc as [[? ?] ?]. by split_and!.
  - intros (? & ? & ? & ? & [? ? ?]). split; simpl; by constructor.
Qed.

Lemma cells_perm l l' : good next l → l ≡ₚ l' → (list_to_map l : gmap Key Cell) = list_to_map l'.
Proof. intros Hg Hp. apply list_to_map_proper; [apply Hg|done]. Qed.

Lemma cells_update l key c c' rest l' :
  good next l → l ≡ₚ (key, c) :: rest → l' ≡ₚ (key, c') :: rest →
  <[key := c']> (list_to_map l : gmap Key Cell) = list_to_map l'.
Proof.
  intros Hg Hl Hl'. rewrite (cells_perm _ _ Hg Hl). rewrite Hl in Hg. simpl. rewrite insert_insert_eq.
  rewrite (list_to_map_proper l' ((key, c') :: rest)); [done| |done]. rewrite Hl'. apply (good_keys _ _ Hg).
Qed.

Lemma cells_delete l key c rest :
  good next l → l ≡ₚ (key, c) :: rest → delete key (list_to_map l : gmap Key Cell) = list_to_map rest.
Proof.
  intros Hg Hl. rewrite (cells_perm _ _ Hg Hl). rewrite Hl in Hg. apply good_cons in Hg as (Hk & _). simpl.
  rewrite delete_insert_id; [done|]. by apply not_elem_of_list_to_map.
Qed.

Lemma cells_insert l key c l' :
  good next l → key ∉ l.*1 → l' ≡ₚ (key, c) :: l → <[key := c]> (list_to_map l : gmap Key Cell) = list_to_map l'.
Proof.
  intros Hg Hk Hl. rewrite (list_to_map_proper l' ((key, c) :: l)); [done| |done].
  rewrite Hl. constructor; [done|]. apply Hg.
Qed.

Lemma cells_lookup l key c rest : good next l → l ≡ₚ (key, c) :: rest → (list_to_map l : gmap Key Cell) !! key = Some c.
Proof. intros Hg Hl. rewrite (cells_perm _ _ Hg Hl). simpl. by rewrite lookup_insert_eq. Qed.

Lemma cells_size l : good next l → size (list_to_map l : gmap Key Cell) = length l.
Proof. intros Hg. apply entries_size, Hg. Qed.

Lemma nodes_take pre key c post rest l :
  good next l → l ≡ₚ (pre ++ (key, c) :: post) ++ rest →
  list_take (queue_iterator c) (nodes (pre ++ (key, c) :: post)) = Ret (mk_node (queue_iterator c) key, nodes (pre ++ post)).
Proof.
  intros Hg Hl. rewrite Hl, <- app_assoc in Hg. simpl in Hg. rewrite <- Permutation_middle in Hg.
  apply good_cons in Hg as (_ & Hi & _). rewrite !nodes_app. simpl. apply list_take_app; [done|].
  unfold nodes. rewrite <- list_fmap_compose. intros Hin. apply Hi. unfold iterators. rewrite fmap_app.
  apply elem_of_app. by left.
Qed.

(** The cell of a key is in the queue that its flag names. *)
Lemma cells_find lp lt key c :
  good next (lp ++ lt) → flagged false lp → flagged true lt →
  (list_to_map (lp ++ lt) : gmap Key Cell) !! key = Some c →
  ∃ pre post, (if is_protected c then lt else lp) = pre ++ (key, c) :: post.
Proof.
  intros Hg Hp Ht Hc. apply elem_of_list_to_map_2, elem_of_app in Hc as [Hc|Hc].
  - unfold flagged in Hp. rewrite Forall_forall in Hp. specialize (Hp _ Hc). simpl in Hp. rewrite Hp. by apply list_elem_of_split.
  - unfold flagged in Ht. rewrite Forall_forall in Ht. specialize (Ht _ Hc). simpl in Ht. rewrite Ht. by apply list_elem_of_split.
Qed.
End good.
#[local] Existing Instance good_proper.

(** ** Overflow *)

Lemma need_remove_protected s lp lt next :
  good next (lp ++ lt) →
  need_remove true (build s lp lt) = exceeds (max_protected_size s) (max_count s) (contents lt).
Proof.
  intros Hg. unfold need_remove, exceeds, size_difference. simpl.
  rewrite (cells_size next) by done. rewrite nodes_length, length_app, slru_contents_length.
  rewrite (proj2 (Nat.ltb_ge _ _)) by lia. do 3 f_equal. lia.
Qed.

Lemma need_remove_probationary s lp lt next :
  good next (lp ++ lt) →
  need_remove false (build s lp lt) = exceeds (max_size_in_bytes s) (max_count s) (contents (lp ++ lt)).
Proof.
  intros Hg. unfold need_remove, exceeds. simpl. by rewrite (cells_size next), slru_contents_length.
Qed.

Lemma demote_step s lp key c lt lost :
  good (next_iterator s) (lp ++ (key, c) :: lt) → is_protected c = true →
  total (contents (lp ++ (key, c) :: lt)) < 2 ^ 64 →
  removeOverflow_loop true (length ((key, c) :: lt)) lost (build s lp ((key, c) :: lt)) =
    if exceeds (max_protected_size s) (max_count s) (contents ((key, c) :: lt)) then
      removeOverflow_loop true (length lt) lost (build s (lp ++ [(key, set_is_protected false c)]) lt)
    else Ret (build s lp ((key, c) :: lt), lost).
Proof.
  intros Hg Hf Ht. rewrite <- (need_remove_protected s lp _ _ Hg). cbn [removeOverflow_loop length].
  destruct (need_remove _ _); [|done]. simpl.
  rewrite (cells_lookup _ _ key c (lp ++ lt) Hg) by (by rewrite Permutation_middle). rewrite Hf. simpl.
  unfold list_splice_end. simpl. rewrite decide_True by done. simpl. f_equal. unfold build, set_contents. simpl.
  pose proof Hg as Hg'. rewrite <- Permutation_middle in Hg'. apply good_cons in Hg' as (_ & _ & _ & Hz & _).
  pose proof (slru_total_nonneg (contents lp)). pose proof (slru_total_nonneg (contents lt)). pose proof (slru_weight_range (cell_value c)).
  rewrite !slru_contents_app, !total_app in *. simpl in Ht |- *. f_equal.
  - by rewrite nodes_app.
  - apply (cells_update _ _ key c _ (lp ++ lt) _ Hg); [by rewrite Permutation_middle|].
    rewrite <- app_assoc. simpl. by rewrite Permutation_middle.
  - rewrite Hz, wrap_small by zlia. lia.
  - lia.
Qed.

Lemma evict_step s key c lp lt lost :
  good (next_iterator s) (((key, c) :: lp) ++ lt) → is_protected c = false →
  total (contents (((key, c) :: lp) ++ lt)) < 2 ^ 64 →
  removeOverflow_loop false (length ((key, c) :: lp)) lost (build s ((key, c) :: lp) lt) =
    if exceeds (max_size_in_bytes s) (max_count s) (contents (((key, c) :: lp) ++ lt)) then
      removeOverflow_loop false (length lp) (u64 (lost + weight (cell_value c))) (build s lp lt)
    else Ret (build s ((key, c) :: lp) lt, lost).
Proof.
  intros Hg Hf Ht. rewrite <- (need_remove_probationary s _ _ _ Hg). cbn [removeOverflow_loop length].
  destruct (need_remove _ _); [|done]. simpl. rewrite lookup_insert_eq, Hf. simpl.
  pose proof Hg as Hg'. apply good_cons in Hg' as (Hk & _ & _ & Hz & _).
  pose proof (slru_total_nonneg (contents (lp ++ lt))). pose proof (slru_weight_range (cell_value c)).
  rewrite Hz. f_equal. unfold build, set_contents, set_queue, set_cells. simpl. f_equal.
  - rewrite delete_insert_id; [done|]. by apply not_elem_of_list_to_map.
  - simpl in Ht. rewrite wrap_small; zlia.
Qed.

Lemma demote_loop s lost lt : ∀ lp,
  good (next_iterator s) (lp ++ lt) → flagged false lp → flagged true lt → total (contents (lp ++ lt)) < 2 ^ 64 →
  ∃ lp' lt', removeOverflow_loop true (length lt) lost (build s lp lt) = Ret (build s lp' lt', lost) ∧
    good (next_iterator s) (lp' ++ lt') ∧ flagged false lp' ∧ flagged true lt' ∧
    demote (max_protected_size s) (max_count s) (contents lp) (contents lt) = (contents lp', contents lt').
Proof.
  induction lt as [|[key c] lt IH]; intros lp Hg Hp Ht Htot; [by exists lp, []|].
  apply Forall_cons in Ht as [Hf Ht]. simpl in Hf. rewrite demote_step by done.
  rewrite (contents_cons key c lt). cbn [demote]. rewrite <- (contents_cons key c lt). destruct (exceeds _ _ _).
  - set (c' := set_is_protected false c) in *. destruct (IH (lp ++ [(key, c')])) as (lp' & lt' & Hr & Hg' & Hp' & Ht' & Hd).
    + rewrite <- app_assoc. simpl. rewrite <- Permutation_middle in Hg |- *. apply good_cons in Hg. by apply good_cons.
    + apply Forall_app. split; [done|]. by constructor.
    + done.
    + rewrite !slru_contents_app, !total_app in *. simpl in *. lia.
    + exists lp', lt'. split_and!; try done. rewrite slru_contents_app in Hd. done.
  - exists lp, ((key, c) :: lt). split_and!; try done. by constructor.
Qed.

Lemma evict_loop s lt lp : ∀ lost,
  good (next_iterator s) (lp ++ lt) → flagged false lp → 0 ≤ lost → lost + total (contents (lp ++ lt)) < 2 ^ 64 →
  ∃ lp', removeOverflow_loop false (length lp) lost (build s lp lt) =
      Ret (build s lp' lt, lost + (total (contents lp) - total (contents lp'))) ∧
    good (next_iterator s) (lp' ++ lt) ∧ flagged false lp' ∧
    evict (max_size_in_bytes s) (max_count s) (contents lp) (contents lt) = contents lp'.
Proof.
  induction lp as [|[key c] lp IH]; intros lost Hg Hp Hl Htot.
  { exists []. split_and!; try done. simpl. do 2 f_equal. lia. }
  apply Forall_cons in Hp as [Hf Hp]. simpl in Hf. simpl in Htot.
  pose proof (slru_total_nonneg (contents (lp ++ lt))). pose proof (slru_weight_range (cell_value c)).
  rewrite evict_step by (done || (simpl; lia)).
  rewrite slru_contents_app, (contents_cons key c lp). cbn [evict]. destruct (exceeds _ _ _).
  - apply good_cons in Hg as (_ & _ & _ & _ & Hg).
    destruct (IH (u64 (lost + weight (cell_value c)))) as (lp' & Hr & Hg' & Hp' & He); [done..| | |].
    + rewrite wrap_small; zlia.
    + rewrite wrap_small; zlia.
    + exists lp'. rewrite Hr, wrap_small by zlia. split_and!; try done. simpl. do 2 f_equal. lia.
  - exists ((key, c) :: lp). split_and!; try done; [|by constructor]. simpl. do 2 f_equal. lia.
Qed.

(** ** Limits *)

(** The limits of the whole cache and of its protected part are kept. *)
Definition within (p : spec) : Prop :=
  exceeds (limit_size p) (limit_count p) (probation p ++ protected p) = false ∧
  exceeds (limit_protected p) (limit_count p) (protected p) = false.

Definition sensible_limits (p : spec) : Prop :=
  0 ≤ limit_protected p ≤ limit_size p ∧ limit_size p ≤ 2 ^ 62 ∧ 0 ≤ limit_count p.

Lemma exceeds_false max_size max_count es :
  exceeds max_size max_count es = false ↔
  total es ≤ max_size ∧ (max_count = 0 ∨ Z.of_nat (length es) ≤ max_count).
Proof.
  unfold exceeds. rewrite orb_false_iff, andb_false_iff, negb_false_iff, Z.eqb_eq, !Z.ltb_ge. tauto.
Qed.

(** Fewer entries do not exceed a limit that more entries keep. *)
Lemma exceeds_mono max_size max_size' max_count es es' :
  exceeds max_size max_count es = false → max_size ≤ max_size' → total es' ≤ total es → (length es' ≤ length es)%nat →
  exceeds max_size' max_count es' = false.
Proof. rewrite !exceeds_false. intros [? [?|?]] ? ? ?; (split; [lia|]); [by left|right; lia]. Qed.

Lemma demote_spec max_protected max_count prot : ∀ prob prob' prot',
  0 ≤ max_protected → 0 ≤ max_count → demote max_protected max_count prob prot = (prob', prot') →
  prob' ++ prot' = prob ++ prot ∧ exceeds max_protected max_count prot' = false.
Proof.
  induction prot as [|e prot IH]; simpl; intros prob prob' prot' Hs Hc Hd; simplify_eq.
  - split; [done|]. apply exceeds_false. simpl. lia.
  - destruct (exceeds _ _ _) eqn:He; simplify_eq; [|done].
    destruct (IH _ _ _ Hs Hc Hd) as [-> ?]. split; [by rewrite <- app_assoc|done].
Qed.

Lemma demote_within max_protected max_count prob prot :
  exceeds max_protected max_count prot = false → demote max_protected max_count prob prot = (prob, prot).
Proof. destruct prot; simpl; [done|]. by intros ->. Qed.

Lemma evict_spec max_size max_count prob prot :
  exceeds max_size max_count prot = false →
  exceeds max_size max_count (evict max_size max_count prob prot ++ prot) = false ∧
  ∃ dropped, prob = dropped ++ evict max_size max_count prob prot.
Proof.
  intros Hprot. induction prob as [|e prob [IH1 [dropped IH2]]]; simpl; [by split; [|exists []]|].
  destruct (exceeds _ _ (e :: prob ++ prot)) eqn:He; [|by split; [|exists []]].
  split; [done|]. exists (e :: dropped). simpl. by f_equal.
Qed.

(** ** The simulation *)

Record simulates s (p : spec) : Prop := {
  simulates_build : ∃ lp lt, s = build s lp lt ∧ good (next_iterator s) (lp ++ lt) ∧ flagged false lp ∧ flagged true lt ∧
    p = spec_of s lp lt;
  simulates_within : within p;
  simulates_limits : sensible_limits p;
}.

Lemma build_build s lp lt lp' lt' : build (build s lp lt) lp' lt' = build s lp' lt'.
Proof. done. Qed.

Lemma within_bound s lp lt :
  within (spec_of s lp lt) → sensible_limits (spec_of s lp lt) → total (contents (lp ++ lt)) ≤ 2 ^ 62.
Proof.
  intros [[Hw _]%exceeds_false _] (_ & Hl & _). simpl in *. rewrite slru_contents_app. lia.
Qed.

Section settle.
Context (s : t) (lp lt : list (Key * Cell)).
Context (Hgood : good (next_iterator s) (lp ++ lt)) (Hp : flagged false lp) (Ht : flagged true lt).
Context (Htotal : total (contents (lp ++ lt)) < 2 ^ 63).
Context (Hlimits : sensible_limits (spec_of s lp lt)).

Lemma removeOverflow_protected : ∃ lp' lt',
  removeOverflow true (build s lp lt) = Ret (build s lp' lt') ∧
  good (next_iterator s) (lp' ++ lt') ∧ flagged false lp' ∧ flagged true lt' ∧
  demoted (spec_of s lp lt) = spec_of s lp' lt' ∧ contents (lp' ++ lt') = contents (lp ++ lt) ∧
  exceeds (max_protected_size s) (max_count s) (contents lt') = false.
Proof.
  destruct Hlimits as ([Hmp _] & _ & Hmc). simpl in *.
  destruct (demote_loop s 0 lt lp) as (lp' & lt' & Hr & Hg' & Hp' & Ht' & Hd); [done..|lia|].
  destruct (demote_spec _ _ _ _ _ _ Hmp Hmc Hd) as [Happ He].
  exists lp', lt'. rewrite !slru_contents_app. split_and!; try done.
  - unfold removeOverflow. simpl. rewrite nodes_length, Hr. simpl. rewrite ub_unless_true; [done|].
    rewrite slru_contents_app, Happ, <- slru_contents_app. lia.
  - unfold demoted. simpl. by rewrite Hd.
Qed.

Lemma removeOverflow_probationary :
  exceeds (max_protected_size s) (max_count s) (contents lt) = false →
  ∃ s', removeOverflow false (build s lp lt) = Ret s' ∧ simulates s' (evicted (spec_of s lp lt)).
Proof.
  intros He. destruct (evict_loop s lt lp 0) as (lp' & Hr & Hg' & Hp' & Hev); [done..|lia|].
  assert (exceeds (max_size_in_bytes s) (max_count s) (contents lt) = false) as He'.
  { eapply exceeds_mono; [done|apply Hlimits|done|done]. }
  destruct (evict_spec _ _ (contents lp) _ He') as [Hw _]. rewrite Hev in Hw.
  unfold removeOverflow. simpl. rewrite nodes_length, Hr. simpl. rewrite ub_unless_true.
  - eexists. split; [done|]. split; simpl; [|by split; simpl; [rewrite Hev|]|done].
    exists lp', lt. split_and!; try done. unfold evicted, spec_of. simpl. by rewrite Hev.
  - apply exceeds_false in Hw as [Hw _]. destruct Hlimits as (_ & Hl & _). simpl in Hl. rewrite slru_contents_app. lia.
Qed.
End settle.

(** Both queues are cut, as after an insertion. *)
Lemma settle_spec s lp lt :
  good (next_iterator s) (lp ++ lt) → flagged false lp → flagged true lt → total (contents (lp ++ lt)) < 2 ^ 63 →
  sensible_limits (spec_of s lp lt) →
  ∃ s', (s ← removeOverflow true (build s lp lt); removeOverflow false s) = Ret s' ∧
    simulates s' (evicted (demoted (spec_of s lp lt))).
Proof.
  intros Hg Hp Ht Htot Hl.
  destruct (removeOverflow_protected s lp lt) as (lp' & lt' & -> & Hg' & Hp' & Ht' & -> & Hc & He); [done..|].
  simpl. apply removeOverflow_probationary; try done. by rewrite Hc.
Qed.

(** ** A cell is taken out of its queue *)

Lemma others_contents pre key c post :
  key ∉ (pre ++ post).*1 → others key (contents (pre ++ (key, c) :: post)) = contents (pre ++ post).
Proof.
  intros Hk. rewrite <- (others_all key (contents (pre ++ post))) by (by rewrite contents_keys).
  rewrite !slru_contents_app, !others_app, contents_cons. f_equal. unfold others. by rewrite filter_cons_False by naive_solver.
Qed.

Lemma others_contents_all key l : key ∉ l.*1 → others key (contents l) = contents l.
Proof. intros Hk. apply others_all. by rewrite contents_keys. Qed.

(** [lp0] and [lt0] are the queues without the cell [c] of [key]. *)
Record without (key : Key) (c : Cell) lp lt lp0 lt0 : Prop := {
  without_perm : lp ++ lt ≡ₚ (key, c) :: lp0 ++ lt0;
  without_probationary : flagged false lp0;
  without_protected : flagged true lt0;
  without_others_probationary : contents lp0 = others key (contents lp);
  without_others_protected : contents lt0 = others key (contents lt);
  without_take :
    list_take (queue_iterator c) (if is_protected c then nodes lt else nodes lp) =
      Ret (mk_node (queue_iterator c) key, if is_protected c then nodes lt0 else nodes lp0);
  without_same :
    if is_protected c then lp = lp0 ∧ lt ≡ₚ (key, c) :: lt0 else lt = lt0 ∧ lp ≡ₚ (key, c) :: lp0;
}.

Lemma take_cell next lp lt key c :
  good next (lp ++ lt) → flagged false lp → flagged true lt →
  (list_to_map (lp ++ lt) : gmap Key Cell) !! key = Some c → ∃ lp0 lt0, without key c lp lt lp0 lt0.
Proof.
  intros Hg Hp Ht Hc. pose proof (cells_find _ _ _ _ _ Hg Hp Ht Hc) as (pre & post & Hsplit).
  destruct (is_protected c) eqn:Hf.
  - assert (lp ++ lt ≡ₚ (key, c) :: lp ++ pre ++ post) as Hperm.
    { rewrite Hsplit, app_assoc, <- Permutation_middle. by rewrite app_assoc. }
    pose proof Hg as Hg'. rewrite Hperm in Hg'. apply good_cons in Hg' as (Hk & _).
    rewrite fmap_app, not_elem_of_app in Hk. destruct Hk as [Hk1 Hk2].
    exists lp, (pre ++ post). split; rewrite ?Hf; try done.
    + rewrite Hsplit in Ht. apply Forall_app in Ht as [? [_ ?]%Forall_cons]. by apply Forall_app.
    + by rewrite others_contents_all.
    + rewrite Hsplit. by rewrite others_contents.
    + rewrite Hsplit. eapply (nodes_take next pre key c post lp); [exact Hg|]. rewrite Hsplit. apply Permutation_app_comm.
    + split; [done|]. by rewrite Hsplit, <- Permutation_middle.
  - assert (lp ++ lt ≡ₚ (key, c) :: (pre ++ post) ++ lt) as Hperm.
    { by rewrite Hsplit, <- Permutation_middle. }
    pose proof Hg as Hg'. rewrite Hperm in Hg'. apply good_cons in Hg' as (Hk & _).
    rewrite fmap_app, not_elem_of_app in Hk. destruct Hk as [Hk1 Hk2].
    exists (pre ++ post), lt. split; rewrite ?Hf; try done.
    + rewrite Hsplit in Hp. apply Forall_app in Hp as [? [_ ?]%Forall_cons]. by apply Forall_app.
    + rewrite Hsplit. by rewrite others_contents.
    + by rewrite others_contents_all.
    + rewrite Hsplit. eapply (nodes_take next pre key c post lt); [exact Hg|]. by rewrite Hsplit.
    + split; [done|]. by rewrite Hsplit, <- Permutation_middle.
Qed.

#[local] Instance contents_proper : Proper ((≡ₚ) ==> (≡ₚ)) contents.
Proof. intros l l' Hl. unfold contents. by rewrite Hl. Qed.

Section taken.
Context (s : t) (lp lt lp0 lt0 : list (Key * Cell)) (key : Key) (c : Cell).
Context (Hgood : good (next_iterator s) (lp ++ lt)) (Hw : without key c lp lt lp0 lt0).
Context (Htotal : total (contents (lp ++ lt)) < 2 ^ 63).

Lemma taken_facts :
  key ∉ (lp0 ++ lt0).*1 ∧ queue_iterator c ∉ iterators (lp0 ++ lt0) ∧ (queue_iterator c < next_iterator s)%nat ∧
  cell_size c = weight (cell_value c) ∧ good (next_iterator s) (lp0 ++ lt0).
Proof. apply good_cons. rewrite <- (without_perm _ _ _ _ _ _ Hw). done. Qed.

(** The sizes without the cell. *)
Lemma taken_size : u64 (total (contents (lp ++ lt)) - cell_size c) = total (contents (lp0 ++ lt0)).
Proof.
  destruct taken_facts as (_ & _ & _ & Hz & _). rewrite (without_perm _ _ _ _ _ _ Hw) in *. rewrite contents_cons in *.
  simpl in *. pose proof (slru_total_nonneg (contents (lp0 ++ lt0))). pose proof (slru_weight_range (cell_value c)).
  rewrite Hz, wrap_small; zlia.
Qed.

Lemma taken_protected_size :
  total (contents lt) = (if is_protected c then weight (cell_value c) else 0) + total (contents lt0).
Proof.
  pose proof (without_same _ _ _ _ _ _ Hw) as Hs. destruct (is_protected c); destruct Hs as [Hs1 Hs2].
  - by rewrite Hs2.
  - by rewrite Hs1.
Qed.

Lemma taken_protected_bound : 0 ≤ total (contents lt) < 2 ^ 63.
Proof.
  rewrite slru_contents_app, total_app in Htotal. pose proof (slru_total_nonneg (contents lp)). pose proof (slru_total_nonneg (contents lt)). lia.
Qed.

Lemma erase_cell_build : erase_cell key c (build s lp lt) = Ret (build s lp0 lt0).
Proof.
  pose proof taken_size as Hsize. pose proof taken_protected_size as Hps. pose proof taken_protected_bound as Hpb.
  pose proof (slru_total_nonneg (contents lt0)). pose proof (slru_weight_range (cell_value c)).
  destruct taken_facts as (_ & _ & _ & Hz & _).
  pose proof (cells_delete _ _ key c (lp0 ++ lt0) Hgood (without_perm _ _ _ _ _ _ Hw)) as Hcells.
  pose proof (without_take _ _ _ _ _ _ Hw) as Htake. pose proof (without_same _ _ _ _ _ _ Hw) as Hs.
  unfold erase_cell, list_erase, build, set_cells, set_queue, set_contents. destruct (is_protected c); simpl; rewrite Htake; simpl.
  - destruct Hs as [-> Hs]. rewrite Hcells, Hsize. do 2 f_equal. rewrite Hz, wrap_small; zlia.
  - destruct Hs as [-> Hs]. rewrite Hcells, Hsize. done.
Qed.

Lemma perm_last (x : Key * Cell) : lp0 ++ lt0 ++ [x] ≡ₚ x :: lp0 ++ lt0.
Proof. rewrite app_assoc. symmetry. apply Permutation_cons_append. Qed.

(** The cell comes back as the last protected one, changed. *)
Lemma taken_good c' :
  queue_iterator c' = queue_iterator c → cell_size c' = weight (cell_value c') →
  good (next_iterator s) (lp0 ++ lt0 ++ [(key, c')]).
Proof.
  intros Hi Hz. rewrite perm_last. destruct taken_facts as (? & ? & ? & _ & ?). apply good_cons. by rewrite Hi.
Qed.

Lemma taken_cells c' : <[key := c']> (list_to_map (lp ++ lt) : gmap Key Cell) = list_to_map (lp0 ++ lt0 ++ [(key, c')]).
Proof. eapply cells_update; [exact Hgood|apply (without_perm _ _ _ _ _ _ Hw)|]. apply perm_last. Qed.

Lemma use_cell_protected :
  is_protected c = true → use_cell key c (build s lp lt) = Ret (build s lp0 (lt0 ++ [(key, c)])).
Proof.
  intros Hf. pose proof (without_take _ _ _ _ _ _ Hw) as Htake. pose proof (without_same _ _ _ _ _ _ Hw) as Hs.
  rewrite Hf in Htake, Hs. unfold use_cell. rewrite Hf. unfold list_move_to_end. simpl. rewrite Htake. simpl.
  unfold build, set_contents, set_queue. simpl. destruct Hs as [Hs1 Hs2].
  assert (contents (lp ++ lt) ≡ₚ contents (lp0 ++ lt0 ++ [(key, c)])) as Hperm
    by (by rewrite perm_last, (without_perm _ _ _ _ _ _ Hw)).
  rewrite <- Hperm, <- taken_cells, insert_id, nodes_app, (slru_contents_app lt0), (total_app _ (contents lt0)), taken_protected_size, Hf, Hs1.
  - simpl. do 2 f_equal. lia.
  - eapply cells_lookup; [exact Hgood|]. apply (without_perm _ _ _ _ _ _ Hw).
Qed.

Lemma use_cell_probationary :
  is_protected c = false →
  use_cell key c (build s lp lt) = removeOverflow true (build s lp0 (lt0 ++ [(key, set_is_protected true c)])).
Proof.
  intros Hf. pose proof (without_take _ _ _ _ _ _ Hw) as Htake. pose proof (without_same _ _ _ _ _ _ Hw) as Hs.
  rewrite Hf in Htake, Hs. unfold use_cell. rewrite Hf. unfold splice_to_protected, list_splice_end. simpl. rewrite Htake. simpl.
  f_equal. unfold build, set_contents. simpl. destruct Hs as [Hs1 Hs2]. destruct taken_facts as (_ & _ & _ & Hz & _).
  assert (contents (lp ++ lt) ≡ₚ contents (lp0 ++ lt0 ++ [(key, set_is_protected true c)])) as Hperm
    by (by rewrite perm_last, (without_perm _ _ _ _ _ _ Hw)).
  rewrite <- Hperm, <- taken_cells, nodes_app, (slru_contents_app lt0), total_app, <- Hs1. f_equal.
  pose proof (slru_weight_range (cell_value c)). pose proof taken_protected_bound. simpl. rewrite Hz, wrap_small; [lia|].
  zlia.
Qed.

Lemma set_present mapped :
  set key mapped (build s lp lt) =
    (s ← removeOverflow true (build s lp0 (lt0 ++ [(key, mk_cell true mapped (weight mapped) (queue_iterator c))]));
     removeOverflow false s).
Proof.
  pose proof (without_take _ _ _ _ _ _ Hw) as Htake. pose proof (without_same _ _ _ _ _ _ Hw) as Hs.
  pose proof (cells_lookup _ _ key c (lp0 ++ lt0) Hgood (without_perm _ _ _ _ _ _ Hw)) as Hc.
  pose proof taken_size as Hsize. pose proof taken_protected_size as Hps. pose proof taken_protected_bound as Hpb.
  destruct taken_facts as (_ & _ & _ & Hz & _). pose proof (slru_weight_range mapped). pose proof (slru_weight_range (cell_value c)).
  pose proof (slru_total_nonneg (contents lt0)). pose proof (slru_total_nonneg (contents (lp0 ++ lt0))).
  assert (total (contents (lp0 ++ lt0)) ≤ total (contents (lp ++ lt))) as Hle.
  { rewrite (without_perm _ _ _ _ _ _ Hw), contents_cons. simpl. lia. }
  unfold set, splice_to_protected, list_move_to_end, list_splice_end. simpl. rewrite Hc. simpl.
  set (c' := mk_cell true mapped (weight mapped) (queue_iterator c)).
  assert (contents (lp0 ++ lt0 ++ [(key, c')]) ≡ₚ (key, mapped) :: contents (lp0 ++ lt0)) as Hperm by (by rewrite perm_last).
  destruct (is_protected c); simpl; rewrite Htake; simpl; do 2 f_equal; unfold build, set_contents, set_queue; simpl;
    destruct Hs as [Hs1 Hs2]; rewrite Hperm, taken_cells, nodes_app, (slru_contents_app lt0), total_app, ?Hsize; simpl; subst c'; simpl;
    rewrite ?Hz.
  - rewrite <- Hs1 in *. rewrite (wrap_small 8 (total (contents lt) - weight (cell_value c))) by zlia.
    f_equal; rewrite wrap_small; zlia.
  - rewrite <- Hs1 in *. f_equal; rewrite wrap_small; zlia.
Qed.
End taken.

(** ** Every operation *)

(** The maximal sizes that may be set. *)
Definition sensible_size (size_ratio : spec_float) (n : Z) : Prop :=
  0 ≤ n ≤ 2 ^ 62 ∧ ∃ m, calculateMaxProtectedSize n size_ratio = Ret m ∧ 0 ≤ m ≤ n.

Definition sensible_op (size_ratio : spec_float) (o : op Key Mapped) : Prop :=
  match o with
  | SetMaxCount n => 0 ≤ n
  | SetMaxSizeInBytes n => sensible_size size_ratio n
  | _ => True
  end.

Definition performs (o : op Key Mapped) (p : spec) (m : outcome (answer Key Mapped * t)) : Prop :=
  ∃ s', m = Ret ((specified o p).1, s') ∧ simulates s' (specified o p).2.

Lemma lookup_contents key l : find key (contents l) = (λ c, (key, cell_value c)) <$> (list_to_map l : gmap Key Cell) !! key.
Proof.
  rewrite find_map. change (contents l) with (prod_map id cell_value <$> l).
  rewrite list_to_map_fmap, lookup_fmap. by destruct (_ !! key).
Qed.

Lemma others_length key es : (length (others key es) ≤ length es)%nat.
Proof. apply length_filter. Qed.

Lemma slru_others_total key es : total (others key es) ≤ total es.
Proof. by eapply total_filter. Qed.

Section operations.
Context (s : t) (lp lt : list (Key * Cell)).
Context (Hgood : good (next_iterator s) (lp ++ lt)) (Hp : flagged false lp) (Ht : flagged true lt).
Context (Hwithin : within (spec_of s lp lt)) (Hlimits : sensible_limits (spec_of s lp lt)).
Local Notation p := (spec_of s lp lt).

Lemma bound : total (contents (lp ++ lt)) ≤ 2 ^ 62.
Proof. by eapply within_bound. Qed.

(** Entries that are not more or heavier than before. *)
Lemma simulates_fewer lp' lt' :
  good (next_iterator s) (lp' ++ lt') → flagged false lp' → flagged true lt' →
  total (contents lp') ≤ total (contents lp) → total (contents lt') ≤ total (contents lt) →
  (length lp' ≤ length lp)%nat → (length lt' ≤ length lt)%nat →
  simulates (build s lp' lt') (with_entries (contents lp') (contents lt') p).
Proof.
  intros Hg Hp' Ht' Htp Htt Hlp Hlt. destruct Hwithin as [Hw1 Hw2].
  split; [by exists lp', lt'|split; simpl in *|done].
  - eapply exceeds_mono; [exact Hw1|done|rewrite !total_app; lia|rewrite !length_app, !slru_contents_length; lia].
  - eapply exceeds_mono; [exact Hw2|done|lia|rewrite !slru_contents_length; lia].
Qed.

Lemma slru_setMaxCount_performs n : 0 ≤ n → performs (SetMaxCount n) p (apply policy (SetMaxCount n) (build s lp lt)).
Proof.
  intros Hn. pose proof bound. destruct Hlimits as (Hl1 & Hl2 & Hl3). simpl in *. unfold setMaxCount.
  set (s1 := mk (probationary_queue s) (protected_queue s) (cells s) (max_size_in_bytes s) (max_protected_size s) n
    (size_ratio s) (current_protected_size s) (current_size_in_bytes s) (next_iterator s) (weight_losses s)).
  destruct (settle_spec s1 lp lt) as (s' & Hr & Hsim); [done..|lia|unfold sensible_limits; simpl; lia|]. exists s'. simpl.
  change (mk _ _ _ _ _ _ _ _ _ _ _) with (build s1 lp lt) at 1. rewrite Hr. done.
Qed.

Lemma slru_setMaxSizeInBytes_performs n :
  sensible_size (size_ratio s) n →
  performs (SetMaxSizeInBytes n) p (apply policy (SetMaxSizeInBytes n) (build s lp lt)).
Proof.
  intros (Hn & m & Hm & Hmn). pose proof bound. destruct Hlimits as (Hl1 & Hl2 & Hl3). unfold performs. simpl in *.
  unfold setMaxSizeInBytes. simpl. rewrite Hm. simpl.
  set (s1 := mk (probationary_queue s) (protected_queue s) (cells s) n m (max_count s)
    (size_ratio s) (current_protected_size s) (current_size_in_bytes s) (next_iterator s) (weight_losses s)).
  destruct (settle_spec s1 lp lt) as (s' & Hr & Hsim); [done..|lia|unfold sensible_limits; simpl; lia|]. exists s'.
  change (mk _ _ _ _ _ _ _ _ _ _ _) with (build s1 lp lt) at 1. rewrite Hr. done.
Qed.

Lemma slru_clear_performs : performs Clear p (apply policy Clear (build s lp lt)).
Proof.
  eexists. split; [done|]. pose proof (slru_total_nonneg (contents lp)). pose proof (slru_total_nonneg (contents lt)).
  apply (simulates_fewer [] []); simpl; try done; try lia; try (by constructor). by split; constructor.
Qed.

Lemma lookup_spec key :
  lookup_entry key p = (λ c, (key, cell_value c)) <$> (list_to_map (lp ++ lt) : gmap Key Cell) !! key.
Proof. unfold lookup_entry. simpl. by rewrite <- slru_contents_app, lookup_contents. Qed.

Lemma absent_keys key :
  (list_to_map (lp ++ lt) : gmap Key Cell) !! key = None → key ∉ lp.*1 ∧ key ∉ lt.*1.
Proof. intros Hk%not_elem_of_list_to_map. rewrite fmap_app in Hk. set_solver. Qed.

Lemma slru_remove_performs key : performs (Remove key) p (apply policy (Remove key) (build s lp lt)).
Proof.
  pose proof bound. simpl. unfold remove. simpl.
  destruct ((list_to_map (lp ++ lt) : gmap Key Cell) !! key) as [c|] eqn:Hk.
  - destruct (take_cell _ _ _ _ _ Hgood Hp Ht Hk) as (lp0 & lt0 & Hw).
    rewrite (erase_cell_build s lp lt lp0 lt0 key c) by (done || lia). simpl. eexists. split; [done|]. simpl.
    pose proof (without_others_probationary _ _ _ _ _ _ Hw) as Ho1.
    pose proof (without_others_protected _ _ _ _ _ _ Hw) as Ho2. rewrite <- Ho1, <- Ho2.
    destruct (taken_facts s lp lt lp0 lt0 key c Hgood Hw) as (_ & _ & _ & _ & Hg0).
    apply simulates_fewer; [done|apply Hw|apply Hw|..]; rewrite <- ?(slru_contents_length lp0), <- ?(slru_contents_length lt0), ?Ho1, ?Ho2;
      rewrite <- ?(slru_contents_length lp), <- ?(slru_contents_length lt); apply slru_others_total || apply others_length.
  - apply absent_keys in Hk as [Hk1 Hk2]. eexists. split; [done|]. simpl. rewrite !others_contents_all by done.
    by apply simulates_fewer.
Qed.

Lemma exceeds_perm max_size max_count es es' : es ≡ₚ es' → exceeds max_size max_count es = exceeds max_size max_count es'.
Proof. intros Hes. unfold exceeds. by rewrite Hes. Qed.

(** What [promote] makes of the entries. *)
Lemma promote_spec key c lp0 lt0 c' :
  without key c lp lt lp0 lt0 → promote key (cell_value c') p = spec_of s lp0 (lt0 ++ [(key, c')]).
Proof.
  intros Hw. unfold promote, with_entries, spec_of. simpl. rewrite slru_contents_app.
  by rewrite (without_others_probationary _ _ _ _ _ _ Hw), (without_others_protected _ _ _ _ _ _ Hw).
Qed.

Lemma use_cell_spec key c :
  (list_to_map (lp ++ lt) : gmap Key Cell) !! key = Some c →
  ∃ s', use_cell key c (build s lp lt) = Ret s' ∧ simulates s' (demoted (promote key (cell_value c) p)).
Proof.
  intros Hk. pose proof bound as Hb. destruct (take_cell _ _ _ _ _ Hgood Hp Ht Hk) as (lp0 & lt0 & Hw).
  assert (Hprobation := without_probationary _ _ _ _ _ _ Hw). assert (Hprotected := without_protected _ _ _ _ _ _ Hw).
  assert (∀ b, contents (lp0 ++ lt0 ++ [(key, set_is_protected b c)]) ≡ₚ contents (lp ++ lt)) as Hperm.
  { intros b. by rewrite perm_last, (without_perm _ _ _ _ _ _ Hw). }
  destruct (taken_facts s lp lt lp0 lt0 key c Hgood Hw) as (_ & _ & _ & Hz & _). destruct Hwithin as [Hw1 Hw2].
  assert (∀ b, good (next_iterator s) (lp0 ++ lt0 ++ [(key, set_is_protected b c)])) as Hg0.
  { intros b. by eapply (taken_good s lp lt lp0 lt0 key c). }
  destruct (is_protected c) eqn:Hf.
  - rewrite (use_cell_protected s lp lt lp0 lt0 key c) by done. eexists. split; [done|].
    rewrite (promote_spec key c lp0 lt0 c Hw). pose proof (without_same _ _ _ _ _ _ Hw) as Hs. rewrite Hf in Hs. destruct Hs as [Hs1 Hs2].
    assert (contents (lt0 ++ [(key, c)]) ≡ₚ contents lt) as Hperm2.
    { rewrite Hs2. unfold contents. by rewrite fmap_app, Permutation_app_comm. }
    assert (c = set_is_protected true c) as Hc by (destruct c; simpl in Hf; by subst).
    unfold demoted. simpl. rewrite demote_within by (by rewrite (exceeds_perm _ _ _ _ Hperm2)).
    apply simulates_fewer; [rewrite Hc; apply Hg0|done| |by rewrite Hs1|by rewrite Hperm2|by rewrite Hs1|].
    + apply Forall_app. split; [done|]. by constructor.
    + by rewrite <- (slru_contents_length lt), <- Hperm2, slru_contents_length.
  - rewrite (use_cell_probationary s lp lt lp0 lt0 key c) by (done || lia).
    change (cell_value c) with (cell_value (set_is_protected true c)). rewrite (promote_spec key c lp0 lt0 _ Hw).
    destruct (removeOverflow_protected s lp0 (lt0 ++ [(key, set_is_protected true c)]))
      as (lp' & lt' & -> & Hg' & Hp' & Ht' & -> & Hcont & He); [apply Hg0|done| |rewrite Hperm; lia|done|].
    + apply Forall_app. split; [done|]. by constructor.
    + eexists. split; [done|]. split; [by exists lp', lt'|split; simpl; [|done]|done].
      rewrite <- slru_contents_app, Hcont, (exceeds_perm _ _ _ _ (Hperm true)), slru_contents_app. done.
Qed.

Lemma slru_get_performs key : performs (Get key) p (apply policy (Get key) (build s lp lt)).
Proof.
  unfold performs. simpl. rewrite lookup_spec. unfold get. simpl.
  destruct ((list_to_map (lp ++ lt) : gmap Key Cell) !! key) as [c|] eqn:Hk; simpl.
  - destruct (use_cell_spec key c Hk) as (s' & -> & Hsim). by exists s'.
  - eexists. split; [done|]. by apply simulates_fewer.
Qed.

Lemma slru_getWithKey_performs key : performs (GetWithKey key) p (apply policy (GetWithKey key) (build s lp lt)).
Proof.
  unfold performs. simpl. rewrite lookup_spec. unfold getWithKey. simpl.
  destruct ((list_to_map (lp ++ lt) : gmap Key Cell) !! key) as [c|] eqn:Hk; simpl.
  - destruct (use_cell_spec key c Hk) as (s' & -> & Hsim). by exists s'.
  - eexists. split; [done|]. by apply simulates_fewer.
Qed.

Lemma set_absent key mapped :
  (list_to_map (lp ++ lt) : gmap Key Cell) !! key = None →
  let s1 := mk (probationary_queue s) (protected_queue s) (cells s) (max_size_in_bytes s) (max_protected_size s) (max_count s)
    (size_ratio s) (current_protected_size s) (current_size_in_bytes s) (S (next_iterator s)) (weight_losses s) in
  let lp1 := lp ++ [(key, mk_cell false mapped (weight mapped) (next_iterator s))] in
  set key mapped (build s lp lt) = (s ← removeOverflow true (build s1 lp1 lt); removeOverflow false s) ∧
  good (next_iterator s1) (lp1 ++ lt) ∧ contents (lp1 ++ lt) ≡ₚ (key, mapped) :: contents (lp ++ lt).
Proof.
  intros Hk s1 lp1. pose proof bound as Hb. pose proof (slru_weight_range mapped).
  pose proof (slru_total_nonneg (contents lp)). pose proof (slru_total_nonneg (contents lt)).
  set (c := mk_cell false mapped (weight mapped) (next_iterator s)) in *.
  assert (lp1 ++ lt ≡ₚ (key, c) :: lp ++ lt) as Hperm.
  { unfold lp1. rewrite <- app_assoc. simpl. by rewrite Permutation_middle. }
  pose proof Hk as Hk'. apply not_elem_of_list_to_map in Hk'.
  split_and!; [| |by rewrite Hperm].
  - unfold set. simpl. rewrite Hk. simpl. do 2 f_equal. unfold build, set_contents, s1. simpl. fold c.
    rewrite (cells_insert (next_iterator s) (lp ++ lt) key c (lp1 ++ lt)) by done.
    assert (total (contents (lp1 ++ lt)) = weight mapped + total (contents (lp ++ lt))) as -> by (by rewrite Hperm).
    unfold lp1. rewrite nodes_app. rewrite slru_contents_app, total_app in *. f_equal.
    + rewrite wrap_small; zlia.
    + simpl. rewrite wrap_small; zlia.
  - rewrite Hperm. apply good_cons. simpl. split_and!; try done; [|lia|].
    + intros (kc & Heq & Hin)%list_elem_of_fmap. pose proof (good_cells _ _ Hgood) as Hc.
      rewrite Forall_forall in Hc. specialize (Hc _ Hin) as [? _]. lia.
    + destruct Hgood as [? ? Hc]. split; try done. eapply Forall_impl; [exact Hc|]. intros kc [? ?]. split; [lia|done].
Qed.

Lemma slru_set_performs key mapped : performs (Put key mapped) p (apply policy (Put key mapped) (build s lp lt)).
Proof.
  pose proof bound as Hb. pose proof (slru_weight_range mapped) as Hm. unfold performs. simpl. rewrite lookup_spec.
  destruct ((list_to_map (lp ++ lt) : gmap Key Cell) !! key) as [c|] eqn:Hk.
  - destruct (take_cell _ _ _ _ _ Hgood Hp Ht Hk) as (lp0 & lt0 & Hw).
    destruct (taken_facts s lp lt lp0 lt0 key c Hgood Hw) as (_ & _ & _ & _ & Hg0).
    rewrite (set_present s lp lt lp0 lt0 key c) by (done || lia).
    set (c' := mk_cell true mapped (weight mapped) (queue_iterator c)).
    assert (total (contents (lp0 ++ lt0)) ≤ total (contents (lp ++ lt))) as Hle.
    { rewrite (without_perm _ _ _ _ _ _ Hw), contents_cons. simpl. pose proof (slru_weight_range (cell_value c)). lia. }
    destruct (settle_spec s lp0 (lt0 ++ [(key, c')])) as (s' & -> & Hsim).
    + by eapply (taken_good s lp lt lp0 lt0 key c).
    + apply Hw.
    + apply Forall_app. split; [apply Hw|]. by constructor.
    + rewrite perm_last, contents_cons. simpl. lia.
    + done.
    + exists s'. split; [done|]. simpl. by rewrite <- (promote_spec key c lp0 lt0 c' Hw) in Hsim.
  - destruct (set_absent key mapped Hk) as (-> & Hg1 & Hperm). set (s1 := mk _ _ _ _ _ _ _ _ _ _ _) in *.
    destruct (settle_spec s1 (lp ++ [(key, mk_cell false mapped (weight mapped) (next_iterator s))]) lt) as (s' & -> & Hsim);
      [done| |done|rewrite Hperm; simpl; lia|done|].
    + apply Forall_app. split; [done|]. by constructor.
    + exists s'. split; [done|]. unfold spec_of in Hsim. rewrite slru_contents_app in Hsim. exact Hsim.
Qed.
End operations.

Lemma simulates_elim s p (P : t → spec → Prop) :
  simulates s p →
  (∀ lp lt, good (next_iterator s) (lp ++ lt) → flagged false lp → flagged true lt →
    within (spec_of s lp lt) → sensible_limits (spec_of s lp lt) → P (build s lp lt) (spec_of s lp lt)) →
  P s p.
Proof.
  intros [(lp & lt & Hs & Hg & Hp & Ht & ->) Hw Hl] HP. rewrite Hs at 1. by apply HP.
Qed.

(** ** Removal by a predicate *)

Definition all_entries (p : spec) : list (Key * option Mapped) := probation p ++ protected p.

Lemma slru_simulates_keys s p : simulates s p → NoDup (all_entries p).*1.
Proof.
  intros Hsim. apply (simulates_elim s p (λ _ p, NoDup (all_entries p).*1) Hsim). intros lp lt Hg _ _ _ _.
  unfold all_entries. simpl. rewrite <- slru_contents_app, contents_keys. apply Hg.
Qed.

Definition slru_stored (s : t) (key : Key) : option (option Mapped) := cell_value <$> cells s !! key.

Lemma slru_stored_elem s p key v : simulates s p → slru_stored s key = Some v ↔ (key, v) ∈ all_entries p.
Proof.
  intros Hsim. apply (simulates_elim s p (λ s p, slru_stored s key = Some v ↔ (key, v) ∈ all_entries p) Hsim).
  intros lp lt Hg _ _ _ _. unfold slru_stored, all_entries. simpl. rewrite <- slru_contents_app. unfold contents.
  rewrite fmap_Some, list_elem_of_fmap. split.
  - intros (c & Hc%elem_of_list_to_map_2 & ->). by exists (key, c).
  - intros ([k c] & Heq & Hin). simplify_eq/=. exists c. split; [|done]. apply elem_of_list_to_map; [apply Hg|done].
Qed.

Lemma slru_remove_if_step predicate key keys s c :
  cells s !! key = Some c →
  remove_if_loop predicate (key :: keys) s =
    (s ← (if predicate key (cell_value c) then remove key s else Ret s); remove_if_loop predicate keys s).
Proof. intros Hc. simpl. unfold remove. by rewrite Hc. Qed.

Definition keep (predicate : Key → option Mapped → bool) (keys : list Key) (p : spec) : spec :=
  with_entries (filter (kept predicate keys) (probation p)) (filter (kept predicate keys) (protected p)) p.

Lemma keep_ext predicate keys keys' p :
  (∀ e, e ∈ all_entries p → kept predicate keys e ↔ kept predicate keys' e) →
  keep predicate keys p = keep predicate keys' p.
Proof.
  intros He. unfold keep. f_equal; apply list_filter_ext; intros e Hin; apply He, elem_of_app; auto.
Qed.

Lemma keep_others predicate key keys p :
  keep predicate keys (with_entries (others key (probation p)) (others key (protected p)) p) =
  with_entries (filter (λ e, kept predicate keys e ∧ e.1 ≠ key) (probation p))
    (filter (λ e, kept predicate keys e ∧ e.1 ≠ key) (protected p)) p.
Proof. unfold keep, with_entries, others. simpl. by rewrite !list_filter_filter. Qed.

Lemma slru_remove_if_loop_spec predicate keys : ∀ s p,
  simulates s p → NoDup keys → keys ⊆ (all_entries p).*1 →
  ∃ s', remove_if_loop predicate keys s = Ret s' ∧ simulates s' (keep predicate keys p).
Proof.
  induction keys as [|key keys IH]; intros s p Hsim Hnd Hsub.
  { exists s. split; [done|]. unfold keep. rewrite !list_filter_all by (intros; left; set_solver). by destruct p. }
  apply NoDup_cons in Hnd as [Hkey Hnd]. pose proof (slru_simulates_keys s p Hsim) as Hkeys.
  assert (key ∈ (all_entries p).*1) as Hin by set_solver. apply list_elem_of_fmap in Hin as ([k v] & Heq & Hin).
  simpl in Heq. subst k. pose proof Hin as Hc. apply (slru_stored_elem s p _ _ Hsim), fmap_Some in Hc as (c & Hc & ->).
  rewrite (slru_remove_if_step _ _ _ _ _ Hc). destruct (predicate key (cell_value c)) eqn:Hpred.
  - assert (performs (Remove key) p (apply policy (Remove key) s)) as (s' & Hr & Hsim').
    { apply (simulates_elim s p (λ s p, performs (Remove key) p (apply policy (Remove key) s)) Hsim). intros. by apply slru_remove_performs. }
    simpl in Hr, Hsim'. destruct (remove key s) as [s1| | |]; simplify_eq/=.
    destruct (IH _ _ Hsim' Hnd) as (s'' & -> & Hsim'').
    { intros k Hk. specialize (Hsub k ltac:(set_solver)). apply list_elem_of_fmap in Hsub as ([k' v] & -> & He). simpl in *.
      apply list_elem_of_fmap. exists (k', v). split; [done|]. unfold all_entries in *. simpl.
      rewrite elem_of_app, !others_elem. rewrite elem_of_app in He. destruct (decide (k' = key)); [congruence|tauto]. }
    exists s''. split; [done|]. rewrite keep_others in Hsim''. unfold keep. erewrite (list_filter_ext _ _ (probation p)),
      (list_filter_ext _ _ (protected p)); [exact Hsim''|..]; intros e He;
      (eapply kept_removed; [exact Hkeys|exact Hin|done|apply elem_of_app; auto]).
  - simpl. destruct (IH _ _ Hsim Hnd) as (s'' & -> & Hsim''); [set_solver|]. exists s''. split; [done|].
    erewrite keep_ext; [exact Hsim''|]. intros e He. by eapply kept_stays.
Qed.

Lemma slru_remove_if_performs predicate s p :
  simulates s p → performs (RemoveIf predicate) p (apply policy (RemoveIf predicate) s).
Proof.
  intros Hsim. assert (Hl : listing _ (cells s) ≡ₚ (all_entries p).*1).
  { apply (simulates_elim s p (λ s p, listing _ (cells s) ≡ₚ (all_entries p).*1) Hsim). intros lp lt Hg _ _ _ _.
    unfold all_entries. simpl. rewrite <- slru_contents_app, contents_keys, listing_ok, map_to_list_to_map by apply Hg. done. }
  destruct (slru_remove_if_loop_spec predicate (listing _ (cells s)) s p Hsim) as (s' & Hr & Hsim').
  - rewrite Hl. by apply (slru_simulates_keys s).
  - intros k. by rewrite Hl.
  - exists s'. simpl. unfold remove_if. rewrite Hr. split; [done|]. unfold keep in Hsim'.
    erewrite (list_filter_ext _ _ (probation p)), (list_filter_ext _ _ (protected p)); [exact Hsim'|..];
      intros e He; unfold kept; rewrite Hl; (split; [by right|]); intros [Hn|]; try done; destruct Hn;
      apply list_elem_of_fmap; exists e; (split; [done|]); apply elem_of_app; auto.
Qed.

Lemma slru_apply_performs o s p :
  simulates s p → sensible_op (ratio p) o → performs o p (apply policy o s).
Proof.
  intros Hsim. destruct o as [n|n| |key|predicate|key|key|key mapped];
    apply (simulates_elim s p (λ s p, sensible_op (ratio p) _ → performs _ p (apply policy _ s)) Hsim);
    intros lp lt ? ? ? ? ? Ho.
  - by apply slru_setMaxCount_performs.
  - by apply slru_setMaxSizeInBytes_performs.
  - by apply slru_clear_performs.
  - by apply slru_remove_performs.
  - apply slru_remove_if_performs. split; [by exists lp, lt|done..].
  - by apply slru_get_performs.
  - by apply slru_getWithKey_performs.
  - by apply slru_set_performs.
Qed.

Lemma specified_ratio o p : ratio (specified o p).2 = ratio p.
Proof.
  assert (∀ q : spec, ratio (demoted q) = ratio q) as Hd.
  { intros q. unfold demoted. by destruct (demote _ _ _ _). }
  destruct o; simpl; rewrite ?Hd; try done; repeat (case_match; simpl; rewrite ?Hd; try done).
Qed.

Lemma slru_create_simulates max_size max_count size_ratio :
  sensible_size size_ratio max_size → 0 ≤ max_count →
  ∃ s m, create max_size max_count size_ratio = Ret s ∧ calculateMaxProtectedSize max_size size_ratio = Ret m ∧
    simulates s (mk_spec [] [] max_size m max_count size_ratio []).
Proof.
  intros (Hn & m & Hm & Hmn) Hc. unfold create. rewrite Hm. simpl. eexists _, m. split; [done|]. split; [done|].
  split; [|split; apply exceeds_false; simpl; lia|unfold sensible_limits; simpl; lia].
  exists [], []. split_and!; [done| |by constructor..|done]. by split; constructor.
Qed.

Lemma run_reachable (ops : list (op Key Mapped)) s p :
  simulates s p → Forall (sensible_op (ratio p)) ops →
  ∃ s' p', run policy ops s = Ret ((run_spec specified ops p).1, s') ∧ p' = (run_spec specified ops p).2 ∧ simulates s' p'.
Proof.
  intros Hsim Hops. destruct (run_simulates policy specified (λ s' p', simulates s' p' ∧ ratio p' = ratio p) (sensible_op (ratio p)))
    with (ops := ops) (s := s) (p := p) as (s' & Hr & Hsim'); [|done|done|].
  - intros o s1 p1 [Hsim1 Hr1] Ho. rewrite <- Hr1 in Ho |- *. destruct (slru_apply_performs o s1 p1 Hsim1 Ho) as (s2 & ? & ?).
    exists s2. by rewrite specified_ratio.
  - destruct Hsim' as [Hsim' _]. by eexists s', _.
Qed.

(** C16: Whatever operations are performed on a new SLRU cache, the answers are those of two
    lists of entries: one on probation, one protected. An entry that is used again becomes the
    most recent protected one, the oldest protected ones go back on probation while the
    protected part is over its limits, and the oldest ones on probation are dropped while the
    cache is. No iterator dangles, [std::terminate] is not reached, both sizes in bytes are
    the sums of the weights of the entries, and no limit is exceeded. The limits that are set
    are at most [2 ^ 62], and the limit [m] of the protected part, which the constructor
    computes from the ratio, is not larger than that of the cache: with a ratio between 0 and 1
    it could only be so by the rounding of large sizes to [double]. A limit [m] of 0 is a limit
    like any other ([zero_ratio_protects_nothing]). *)
Theorem slru_refines_two_queues (ops : list (op Key Mapped)) (max_size max_count m : Z) (size_ratio : spec_float) :
  0 ≤ max_size ≤ 2 ^ 62 → 0 ≤ max_count → calculateMaxProtectedSize max_size size_ratio = Ret m → 0 ≤ m ≤ max_size →
  Forall (sensible_op size_ratio) ops →
  let '(answers, p) := run_spec specified ops (mk_spec [] [] max_size m max_count size_ratio []) in
  let es := probation p ++ protected p in
  ∃ s s', create max_size max_count size_ratio = Ret s ∧ run policy ops s = Ret (answers, s') ∧
    sizeInBytes s' = total es ∧ sizeInBytes s' ≤ maxSizeInBytes s' ∧ maxSizeInBytes s' = limit_size p ∧
    current_protected_size s' = total (protected p) ∧ current_protected_size s' ≤ limit_protected p ∧
    count s' = Z.of_nat (length es) ∧ (limit_count p = 0 ∨ count s' ≤ limit_count p) ∧
    weight_losses s' = reported p ∧
    (∀ key, find key es = (λ c, (key, cell_value c)) <$> cells s' !! key).
Proof.
  intros Hn Hc Hm Hmn Hops.
  destruct (slru_create_simulates max_size max_count size_ratio) as (s & m' & Hs & Hm' & Hsim); [by split; [|exists m]|done|].
  rewrite Hm in Hm'. simplify_eq. set (p0 := mk_spec _ _ _ _ _ _ _) in *.
  destruct (run_reachable ops s p0 Hsim Hops) as (s' & p & Hr & Hp & Hsim').
  destruct (run_spec specified ops p0) as [answers p']. simpl in *. subst p'. exists s, s'. split; [done|]. split; [done|].
  apply (simulates_elim s' p (λ s' p, sizeInBytes s' = total (probation p ++ protected p) ∧ sizeInBytes s' ≤ maxSizeInBytes s' ∧
    maxSizeInBytes s' = limit_size p ∧ current_protected_size s' = total (protected p) ∧
    current_protected_size s' ≤ limit_protected p ∧
    count s' = Z.of_nat (length (probation p ++ protected p)) ∧ (limit_count p = 0 ∨ count s' ≤ limit_count p) ∧
    weight_losses s' = reported p ∧
    (∀ key, find key (probation p ++ protected p) = (λ c, (key, cell_value c)) <$> cells s' !! key)) Hsim').
  intros lp lt Hg Hp Ht [Hw1 Hw3] _. pose proof (proj1 (exceeds_false _ _ _) Hw1) as [Hs1 Hs2].
  pose proof (proj1 (exceeds_false _ _ _) Hw3) as [Hs3 _].
  unfold count, sizeInBytes, maxSizeInBytes. simpl in *. rewrite (cells_size _ _ Hg), <- slru_contents_app in *.
  rewrite slru_contents_length in *. split_and!; try done. intros key. apply lookup_contents.
Qed.

(** * The contract of a cache policy *)

Lemma demote_all max_protected max_count prot : ∀ prob,
  (demote max_protected max_count prob prot).1 ++ (demote max_protected max_count prob prot).2 = prob ++ prot.
Proof.
  induction prot as [|e prot IH]; simpl; intros prob; [done|]. destruct (exceeds _ _ _); simpl; [|done].
  by rewrite IH, <- app_assoc.
Qed.

Lemma demoted_all p : all_entries (demoted p) = all_entries p.
Proof.
  unfold demoted, all_entries. pose proof (demote_all (limit_protected p) (limit_count p) (protected p) (probation p)) as Hd.
  by destruct (demote _ _ _ _).
Qed.

Lemma evicted_elem e p : e ∈ all_entries (evicted p) → e ∈ all_entries p.
Proof.
  unfold evicted, all_entries. simpl. rewrite !elem_of_app. intros [He|]; [left|by right].
  induction (probation p) as [|e' prob IH]; simpl in *; [done|]. case_match; set_solver.
Qed.

Lemma settled_elem e p : e ∈ all_entries (evicted (demoted p)) → e ∈ all_entries p.
Proof. intros He%evicted_elem. by rewrite demoted_all in He. Qed.

Lemma promote_elem key mapped k v p :
  (k, v) ∈ all_entries (promote key mapped p) ↔ k = key ∧ v = mapped ∨ k ≠ key ∧ (k, v) ∈ all_entries p.
Proof.
  unfold promote, all_entries. simpl. rewrite !elem_of_app, !others_elem, list_elem_of_singleton. naive_solver.
Qed.

Lemma slru_stored_part s p s' p' key :
  simulates s p → simulates s' p' → (∀ v, (key, v) ∈ all_entries p' → (key, v) ∈ all_entries p) →
  slru_stored s' key = None ∨ slru_stored s' key = slru_stored s key.
Proof.
  intros Hs Hs' Hsub. destruct (slru_stored s' key) as [v|] eqn:Hv; [right|by left].
  symmetry. apply (slru_stored_elem s p); [done|]. by apply Hsub, (slru_stored_elem s').
Qed.

Lemma slru_stored_same s p s' p' key :
  simulates s p → simulates s' p' → (∀ v, (key, v) ∈ all_entries p' ↔ (key, v) ∈ all_entries p) →
  slru_stored s' key = slru_stored s key.
Proof.
  intros Hs Hs' Heq. apply option_eq. intros v. by rewrite (slru_stored_elem s' p'), (slru_stored_elem s p), Heq.
Qed.

Lemma slru_find_stored s p key : simulates s p → lookup_entry key p = pair key <$> slru_stored s key.
Proof.
  intros Hsim. apply (simulates_elim s p (λ s p, lookup_entry key p = pair key <$> slru_stored s key) Hsim).
  intros lp lt _ _ _ _ _. rewrite lookup_spec. unfold slru_stored. simpl. by destruct (_ !! key).
Qed.

Lemma slru_performs_nothing o p (m : outcome t) :
  performs o p (s ← m; Ret (Nothing, s)) → ∃ s', m = Ret s' ∧ simulates s' (specified o p).2.
Proof. intros (s' & Hr & Hsim). destruct m; simplify_eq/=. by exists s'. Qed.

(** The lookups change the order of the entries only. *)
Lemma use_elem s p key k v :
  simulates s p → (k, v) ∈ all_entries (specified (Get key) p).2 ↔ (k, v) ∈ all_entries p.
Proof.
  intros Hsim. simpl. rewrite (slru_find_stored s p) by done. destruct (slru_stored s key) as [w|] eqn:Hw; simpl; [|done].
  rewrite demoted_all, promote_elem. apply (slru_stored_elem s p) in Hw; [|done].
  destruct (decide (k = key)) as [->|]; [|naive_solver]. split; [naive_solver|]. intros Hv.
  left. split; [done|]. apply (entries_unique (all_entries p) key); [by apply (slru_simulates_keys s)|done..].
Qed.

Lemma ratio_size s p : simulates s p → ratio p = size_ratio s.
Proof. intros Hsim. by apply (simulates_elim s p (λ s p, ratio p = size_ratio s) Hsim). Qed.

#[export] Program Instance slru_policy_correct : PolicyCorrect policy := {|
  policy_ok s := ∃ p, simulates s p;
  policy_limit s n := sensible_size (size_ratio s) n;
  stored := slru_stored;
|}.
Next Obligation.
  intros s key [p Hsim]. destruct (slru_apply_performs (Get key) s p Hsim I) as (s' & Hr & Hsim'). simpl in Hr.
  unfold policy. simpl. destruct (get key s) as [[r s1]| | |]; simplify_eq/=. eexists. split; [done|].
  split_and!; [eauto| |].
  - rewrite (slru_find_stored s p) by done. by destruct (slru_stored s key).
  - intros k. apply (slru_stored_same _ _ _ _ _ Hsim Hsim'). intros v. by apply (use_elem s p).
Qed.
Next Obligation.
  intros s key [p Hsim]. destruct (slru_apply_performs (GetWithKey key) s p Hsim I) as (s' & Hr & Hsim'). simpl in Hr.
  unfold policy. simpl. destruct (getWithKey key s) as [[r s1]| | |]; simplify_eq/=. eexists. split; [done|].
  split_and!; [eauto| |].
  - by apply slru_find_stored.
  - intros k. apply (slru_stored_same _ _ _ _ _ Hsim Hsim'). intros v. by apply (use_elem s p).
Qed.
Next Obligation.
  intros s key mapped [p Hsim].
  destruct (slru_performs_nothing _ _ _ (slru_apply_performs (Put key mapped) s p Hsim I)) as (s' & Hr & Hsim').
  exists s'. split; [done|]. assert (∀ k v, (k, v) ∈ all_entries (specified (Put key mapped) p).2 →
    k = key ∧ v = mapped ∨ k ≠ key ∧ (k, v) ∈ all_entries p) as Hsub.
  { intros k v Hv%settled_elem. rewrite (slru_find_stored s p) in Hv by done.
    destruct (slru_stored s key) as [w|] eqn:Hw; simpl in Hv; [by apply promote_elem in Hv|].
    unfold all_entries in *. simpl in Hv. rewrite !elem_of_app, list_elem_of_singleton in Hv.
    destruct (decide (k = key)) as [->|]; [left|rewrite elem_of_app; naive_solver].
    destruct Hv as [[Hv|[= ->]]|Hv]; [|done|];
      (rewrite (proj2 (slru_stored_elem s p key v Hsim)) in Hw; [done|]; apply elem_of_app; auto). }
  split_and!; [eauto| |].
  - destruct (slru_stored s' key) as [v|] eqn:Hv; [right|by left]. f_equal.
    apply (slru_stored_elem _ _ _ _ Hsim'), Hsub in Hv. naive_solver.
  - intros k Hk. apply (slru_stored_part _ _ _ _ _ Hsim Hsim'). intros v Hv%Hsub. naive_solver.
Qed.
Next Obligation.
  intros s key [p Hsim]. destruct (slru_performs_nothing _ _ _ (slru_apply_performs (Remove key) s p Hsim I)) as (s' & Hr & Hsim').
  exists s'. split; [done|].
  assert (∀ k v, (k, v) ∈ all_entries (specified (Remove key) p).2 ↔ k ≠ key ∧ (k, v) ∈ all_entries p) as Hsub.
  { intros k v. unfold all_entries. simpl. rewrite !elem_of_app, !others_elem. tauto. }
  split_and!; [eauto| |].
  - destruct (slru_stored s' key) as [v|] eqn:Hv; [|done]. apply (slru_stored_elem _ _ _ _ Hsim'), Hsub in Hv. naive_solver.
  - intros k Hk. apply (slru_stored_same _ _ _ _ _ Hsim Hsim'). intros v. rewrite Hsub. naive_solver.
Qed.
Next Obligation.
  intros s predicate [p Hsim].
  destruct (slru_performs_nothing _ _ _ (slru_apply_performs (RemoveIf predicate) s p Hsim I)) as (s' & Hr & Hsim').
  exists s'. split; [done|]. split; [eauto|]. intros k. apply option_eq. intros v.
  rewrite (slru_stored_elem _ _ _ _ Hsim'), bind_Some. unfold all_entries. simpl. rewrite elem_of_app, !list_elem_of_filter. simpl.
  assert ((k, v) ∈ all_entries p ↔ (k, v) ∈ probation p ∨ (k, v) ∈ protected p) as Hall by apply elem_of_app.
  split.
  - intros Hin. exists v. rewrite (slru_stored_elem s p), Hall by done. destruct Hin as [[Hp Hin]|[Hp Hin]]; rewrite Hp; auto.
  - intros (w & Hw & Hif). apply (slru_stored_elem s p) in Hw; [|done]. destruct (predicate k w) eqn:Hp; simplify_eq. tauto.
Qed.
Next Obligation.
  intros s [p Hsim]. destruct (slru_apply_performs Clear s p Hsim I) as (s' & Hr & Hsim'). simplify_eq/=. split; [eauto|]. done.
Qed.
Next Obligation.
  intros s n [p Hsim] Hn. destruct (slru_performs_nothing _ _ _ (slru_apply_performs (SetMaxCount n) s p Hsim (proj1 Hn))) as (s' & Hr & Hsim').
  exists s'. split; [done|]. split; [eauto|]. intros k. apply (slru_stored_part _ _ _ _ _ Hsim Hsim'). intros v. apply settled_elem.
Qed.
Next Obligation.
  intros s n [p Hsim] Hn. rewrite <- (ratio_size s p Hsim) in Hn.
  destruct (slru_performs_nothing _ _ _ (slru_apply_performs (SetMaxSizeInBytes n) s p Hsim Hn)) as (s' & Hr & Hsim').
  exists s'. split; [done|]. split; [eauto|]. intros k. apply (slru_stored_part _ _ _ _ _ Hsim Hsim'). intros v.
  destruct Hn as (_ & m & Hm & _). simpl. rewrite Hm. apply settled_elem.
Qed.

(** * Sequential scans *)

Lemma protected_elem s p key v :
  simulates s p →
  (∃ c, cells s !! key = Some c ∧ is_protected c = true ∧ cell_value c = v) ↔ (key, v) ∈ protected p.
Proof.
  intros Hsim. apply (simulates_elim s p (λ s p,
    (∃ c, cells s !! key = Some c ∧ is_protected c = true ∧ cell_value c = v) ↔ (key, v) ∈ protected p) Hsim).
  intros lp lt Hg Hp Ht _ _. simpl. unfold contents. rewrite list_elem_of_fmap. split.
  - intros (c & Hc & Hf & <-). exists (key, c). split; [done|].
    destruct (cells_find _ _ _ _ _ Hg Hp Ht Hc) as (pre & post & Hsplit). rewrite Hf in Hsplit. rewrite Hsplit.
    apply elem_of_app. right. by constructor.
  - intros ([k c] & Heq & Hin). simplify_eq/=. exists c. split_and!; [|exact (proj1 (Forall_forall _ _) Ht _ Hin)|done].
    apply elem_of_list_to_map; [apply Hg|]. apply elem_of_app. by right.
Qed.

(** A new entry leaves the protected ones alone, and adds no other entry. *)
Lemma put_absent s p key mapped :
  simulates s p → cells s !! key = None →
  protected (specified (Put key mapped) p).2 = protected p ∧
  ∀ k v, (k, v) ∈ all_entries (specified (Put key mapped) p).2 → k = key ∨ (k, v) ∈ all_entries p.
Proof.
  intros Hsim Hk. assert (lookup_entry key p = None) as Hl.
  { rewrite (slru_find_stored s p) by done. unfold slru_stored. by rewrite Hk. }
  destruct Hsim as [_ [_ Hw] _]. split.
  - simpl. rewrite Hl. unfold demoted. simpl. by rewrite demote_within.
  - intros k v Hv%settled_elem. rewrite Hl in Hv. unfold all_entries in *. simpl in Hv.
    rewrite !elem_of_app, list_elem_of_singleton in Hv. rewrite elem_of_app. naive_solver.
Qed.

Lemma scan_protected scan : ∀ s p,
  simulates s p → NoDup scan.*1 → (∀ k, k ∈ scan.*1 → cells s !! k = None) →
  ∃ answers s' p', run policy (uncurry Put <$> scan) s = Ret (answers, s') ∧ simulates s' p' ∧ protected p' = protected p.
Proof.
  induction scan as [|[key mapped] scan IH]; intros s p Hsim Hnd Habs; [by eexists [], s, p|].
  apply NoDup_cons in Hnd as [Hkey Hnd]. pose proof (Habs key ltac:(set_solver)) as Hk.
  destruct (slru_performs_nothing _ _ _ (slru_apply_performs (Put key mapped) s p Hsim I)) as (s1 & Hr & Hsim1).
  destruct (put_absent s p key mapped Hsim Hk) as [Hprot Hsub].
  destruct (IH s1 _ Hsim1 Hnd) as (answers & s' & p' & Hr' & Hsim' & Hp').
  { intros k Hin. destruct (cells s1 !! k) as [c|] eqn:Hc; [|done].
    assert ((k, cell_value c) ∈ all_entries (specified (Put key mapped) p).2) as He.
    { apply (slru_stored_elem s1 _ _ _ Hsim1). unfold slru_stored. by rewrite Hc. }
    apply Hsub in He as [->|He]; [done|]. apply (slru_stored_elem s p _ _ Hsim) in He. unfold slru_stored in He.
    by rewrite (Habs k ltac:(set_solver)) in He. }
  assert (apply policy (Put key mapped) s = Ret (Nothing, s1)) as Ha by (simpl in *; by rewrite Hr).
  eexists _, s', p'. rewrite fmap_cons. cbn [run uncurry]. rewrite Ha, bind_Ret, Hr'. split_and!; [done..|]. by rewrite Hp'.
Qed.

(** C17: A scan does not evict what is protected: when values of any number of different keys
    that are not in the cache are set, every entry that was protected before is still there,
    protected and with the same value. *)
Theorem slru_scan_resistant (ops : list (op Key Mapped)) (max_size max_count m : Z) (size_ratio : spec_float)
    answers s0 s key c (scan : list (Key * option Mapped)) :
  0 ≤ max_size ≤ 2 ^ 62 → 0 ≤ max_count → calculateMaxProtectedSize max_size size_ratio = Ret m → 0 ≤ m ≤ max_size →
  Forall (sensible_op size_ratio) ops →
  create max_size max_count size_ratio = Ret s0 → run policy ops s0 = Ret (answers, s) →
  cells s !! key = Some c → is_protected c = true →
  NoDup scan.*1 → (∀ k, k ∈ scan.*1 → cells s !! k = None) →
  ∃ answers' s' c', run policy (uncurry Put <$> scan) s = Ret (answers', s') ∧
    cells s' !! key = Some c' ∧ is_protected c' = true ∧ cell_value c' = cell_value c.
Proof.
  intros Hn Hc Hm Hmn Hops Hs0 Hrun Hk Hf Hnd Habs.
  destruct (slru_create_simulates max_size max_count size_ratio) as (s1 & m' & Hs1 & Hm' & Hsim); [by split; [|exists m]|done|].
  destruct (run_reachable ops s1 _ Hsim Hops) as (s2 & p & Hr & _ & Hsim2).
  rewrite Hs1 in Hs0. injection Hs0 as ->. rewrite Hr in Hrun. injection Hrun as _ ->.
  destruct (scan_protected scan s p Hsim2 Hnd Habs) as (answers' & s' & p' & Hr' & Hsim' & Hp').
  assert ((key, cell_value c) ∈ protected p') as He by (rewrite Hp'; apply (protected_elem s p _ _ Hsim2); eauto).
  apply (protected_elem s' p' _ _ Hsim') in He as (c' & ? & ? & ?). by exists answers', s', c'.
Qed.
End policy.

(** ** A cache of two entries, one of them protected *)

Definition two_uses : list (op Z Z) := [Put 1 (Some 10); Get 1].

Lemma slru_equal_weights (value : Z) : 0 ≤ EqualWeightFunction value < 2 ^ 62.
Proof. unfold EqualWeightFunction. lia. Qed.

Lemma two_uses_sensible : Forall (sensible_op double_half) two_uses.
Proof. repeat constructor. Qed.

Definition used_twice : outcome (list (answer Z Z) * t (Key := Z) (Mapped := Z)) :=
  s ← create 2 0 double_half; run (policy EqualWeightFunction LRU.listed) two_uses s.

Lemma slru_refines_two_queues_witness :
  ∃ s s', create 2 0 double_half = Ret s ∧
    run (policy EqualWeightFunction LRU.listed) two_uses s = Ret ([Nothing; Pointer (Some 10)], s') ∧
    sizeInBytes s' = 1 ∧ current_protected_size s' = 1.
Proof.
  destruct (slru_refines_two_queues EqualWeightFunction LRU.listed slru_equal_weights (λ _ _, reflexivity _) two_uses 2 0 1 double_half
    ltac:(lia) ltac:(lia) ltac:(vm_compute; reflexivity) ltac:(lia) two_uses_sensible)
    as (s & s' & Hs & Hr & Hz & _ & _ & Hp & _).
  exists s, s'. split; [exact Hs|]. split; [exact Hr|]. split; [exact Hz|exact Hp].
Defined.

(** The comment on the constructor says that a protected size of 0 stands for half of the
    total size; with the ratio 0 the limit of the protected part is 0, and no entry with a
    weight is protected: the one that was used again is back on probation. *)
Lemma zero_ratio_protects_nothing :
  ∃ s s' answers, create 2 0 double_zero = Ret s ∧ max_protected_size s = 0 ∧
    run (policy EqualWeightFunction LRU.listed) two_uses s = Ret (answers, s') ∧ current_protected_size s' = 0 ∧
    is_protected <$> cells s' !! 1 = Some false.
Proof. do 3 eexists. split; [vm_compute; reflexivity|]. split; [reflexivity|]. split; [vm_compute; reflexivity|]. by vm_compute. Qed.

Lemma slru_scan_resistant_witness :
  ∃ answers s c answers' s' c', used_twice = Ret (answers, s) ∧ cells s !! 1 = Some c ∧
    run (policy EqualWeightFunction LRU.listed) [Put 2 None; Put 3 (Some 30); Put 4 (Some 40)] s = Ret (answers', s') ∧
    cells s' !! 1 = Some c' ∧ cell_value c' = Some 10.
Proof.
  destruct used_twice as [[answers s]| | |] eqn:Hu; [|vm_compute in Hu; discriminate..].
  pose proof Hu as Hv. vm_compute in Hv. injection Hv as Ha Hs.
  destruct (cells s !! 1) as [c|] eqn:Hc; [|exfalso; rewrite <- Hs in Hc; vm_compute in Hc; discriminate].
  assert (is_protected c = true ∧ cell_value c = Some 10) as [Hf Hval].
  { rewrite <- Hs in Hc. vm_compute in Hc. injection Hc as <-. split; reflexivity. }
  destruct (create (Key := Z) (Mapped := Z) 2 0 double_half) as [s0| | |] eqn:Hs0; [|vm_compute in Hs0; discriminate..].
  destruct (slru_scan_resistant EqualWeightFunction LRU.listed slru_equal_weights (λ _ _, reflexivity _) two_uses 2 0 1 double_half
    answers s0 s 1 c [(2, None); (3, Some 30); (4, Some 40)]
    ltac:(lia) ltac:(lia) ltac:(vm_compute; reflexivity) ltac:(lia) two_uses_sensible Hs0
    ltac:(unfold used_twice in Hu; rewrite Hs0 in Hu; exact Hu) Hc Hf) as (answers' & s' & c' & Hr & Hc' & _ & Hv').
  - clear. simpl. repeat (constructor; [set_solver|]). constructor.
  - intros k Hk. rewrite <- Hs. simpl in Hk. rewrite !elem_of_cons in Hk. destruct Hk as [->|[->|[->|[]%not_elem_of_nil]]]; vm_compute; reflexivity.
  - exists answers, s, c, answers', s', c'. split; [reflexivity|]. split; [exact Hc|].
    split; [exact Hr|]. split; [exact Hc'|]. rewrite Hv'. exact Hval.
Defined.
End SLRU.
