(* ===== verification/TTLCache.v ===== *)
(** The cache policy TTL (src/src/Common/TTLCachePolicy.h), which drops stale entries only
    when there is not enough space, and the quotas of users (src/src/Common/
    ICachePolicyUserQuota.h).

    A key is found by a part of it, [ident], which is what the hash function and the
    comparison of keys look at; the user is another part. The stored pointers are not null.
    Whether an entry is stale changes with time, so [is_stale] is an argument of [set]. A
    [chassert] does nothing in a release build. *)

From stdpp Require Import base tactics list numbers gmap.
From S2P Require Import Prelude Containers CachePolicy.
Local Open Scope Z_scope.

(** * Quotas *)

Module UserQuota.

Record Resources := mk { size_in_bytes : Z; num_items : Z }.

(** [NoCachePolicyUserQuota] and [PerUserTTLCachePolicyUserQuota]. *)
Inductive t :=
  | NoQuota
  | PerUser (quotas actual : gmap UUID Resources).

Definition none : Resources := mk 0 0.

Definition setQuotaForUser (user_id : UUID) (max_size_in_bytes max_entries : Z) (q : t) : t :=
  match q with
  | NoQuota => NoQuota
  | PerUser quotas actual => PerUser (<[user_id := mk max_size_in_bytes max_entries]> quotas) actual
  end.

Definition increaseActual (user_id : UUID) (entry_size_in_bytes : Z) (q : t) : t :=
  match q with
  | NoQuota => NoQuota
  | PerUser quotas actual =>
      let a := default none (actual !! user_id) in
      PerUser quotas (<[user_id := mk (u64 (size_in_bytes a + entry_size_in_bytes)) (u64 (num_items a + 1))]> actual)
  end.

Definition decreaseActual (user_id : UUID) (entry_size_in_bytes : Z) (q : t) : t :=
  match q with
  | NoQuota => NoQuota
  | PerUser quotas actual =>
      let a := default none (actual !! user_id) in
      PerUser quotas (<[user_id := mk (u64 (size_in_bytes a - entry_size_in_bytes)) (u64 (num_items a - 1))]> actual)
  end.

Definition unlimited_if_zero (n : Z) : Z := if n =? 0 then 2 ^ 64 - 1 else n.

Definition approveWrite (user_id : UUID) (entry_size_in_bytes : Z) (q : t) : bool :=
  match q with
  | NoQuota => true
  | PerUser quotas actual =>
      let actual_for_user := default none (actual !! user_id) in
      let quota_for_user := default (mk (2 ^ 64 - 1) (2 ^ 64 - 1)) (quotas !! user_id) in
      let max_size := unlimited_if_zero (size_in_bytes quota_for_user) in
      let max_items := unlimited_if_zero (num_items quota_for_user) in
      if max_size <? u64 (size_in_bytes actual_for_user + entry_size_in_bytes) then false
      else if max_items <? u64 (num_items actual_for_user + 1) then false
      else true
  end.

Definition clear (q : t) : t :=
  match q with
  | NoQuota => NoQuota
  | PerUser quotas _ => PerUser quotas ∅
  end.
End UserQuota.

(** * The policy *)

Module TTL.
Section policy.
Context {Key Id Mapped : Type} `{Countable Id} (ident : Key → Id) (user_id : Key → option UUID).
Context (weight_function : Mapped → Z) (listing : ∀ V, gmap Id V → list Id).

Record t := mk {
  cache : gmap Id (Key * Mapped);
  user_quotas : UserQuota.t;
  size_in_bytes : Z;
  max_size_in_bytes : Z;
  max_count : Z;
}.

Definition create (quotas : UserQuota.t) : t := mk ∅ quotas 0 0 0.

Definition sizeInBytes (s : t) : Z := size_in_bytes s.
Definition count (s : t) : Z := Z.of_nat (size (cache s)).
Definition maxSizeInBytes (s : t) : Z := max_size_in_bytes s.

Definition setMaxCount (max_count : Z) (s : t) : t :=
  mk (cache s) (user_quotas s) (size_in_bytes s) (max_size_in_bytes s) max_count.

Definition setMaxSizeInBytes (max_size_in_bytes : Z) (s : t) : t :=
  mk (cache s) (user_quotas s) (size_in_bytes s) max_size_in_bytes (max_count s).

Definition setQuotaForUser (user_id : UUID) (max_size_in_bytes_ max_entries : Z) (s : t) : t :=
  mk (cache s) (UserQuota.setQuotaForUser user_id max_size_in_bytes_ max_entries (user_quotas s))
    (size_in_bytes s) (max_size_in_bytes s) (max_count s).

Definition clear (s : t) : t :=
  mk ∅ (UserQuota.clear (user_quotas s)) (size_in_bytes s) (max_size_in_bytes s) (max_count s).

(** What all the removals do to the entry that they have found. *)
Definition erase (id : Id) (key : Key) (mapped : Mapped) (s : t) : t :=
  let sz := weight_function mapped in
  let quotas :=
    match user_id key with
    | Some user => UserQuota.decreaseActual user sz (user_quotas s)
    | None => user_quotas s
    end in
  mk (delete id (cache s)) quotas (u64 (size_in_bytes s - sz)) (max_size_in_bytes s) (max_count s).

Definition remove (key : Key) (s : t) : t :=
  match cache s !! ident key with
  | None => s
  | Some (found, mapped) => erase (ident key) found mapped s
  end.

(** A loop over the entries that erases those that satisfy a condition. *)
Fixpoint erase_if_loop (condition : Key → Mapped → bool) (ids : list Id) (s : t) : outcome t :=
  match ids with
  | [] => Ret s
  | id :: ids =>
      match cache s !! id with
      | None => UB
      | Some (key, mapped) => erase_if_loop condition ids (if condition key mapped then erase id key mapped s else s)
      end
  end.

Definition remove_if (predicate : Key → Mapped → bool) (s : t) : outcome t :=
  erase_if_loop predicate (listing _ (cache s)) s.

Definition get (key : Key) (s : t) : option Mapped :=
  match cache s !! ident key with
  | None => None
  | Some (_, mapped) => Some mapped
  end.

Definition getWithKey (key : Key) (s : t) : option (Key * Mapped) :=
  match cache s !! ident key with
  | None => None
  | Some (found, mapped) => Some (found, mapped)
  end.

Definition sufficient_space_in_cache (entry_size_in_bytes : Z) (s : t) : bool :=
  (u64 (size_in_bytes s + entry_size_in_bytes) <=? max_size_in_bytes s) && (Z.of_nat (size (cache s)) + 1 <=? max_count s).

Definition sufficient_space_in_cache_for_user (key : Key) (entry_size_in_bytes : Z) (s : t) : bool :=
  match user_id key with
  | Some user => UserQuota.approveWrite user entry_size_in_bytes (user_quotas s)
  | None => true
  end.

(** Insert or replace the key. *)
Definition store (key : Key) (mapped : Mapped) (entry_size_in_bytes : Z) (s : t) : t :=
  let s :=
    match cache s !! ident key with
    | Some (found, mapped) => erase (ident key) found mapped s
    | None => s
    end in
  let quotas :=
    match user_id key with
    | Some user => UserQuota.increaseActual user entry_size_in_bytes (user_quotas s)
    | None => user_quotas s
    end in
  mk (<[ident key := (key, mapped)]> (cache s)) quotas (u64 (size_in_bytes s + entry_size_in_bytes))
    (max_size_in_bytes s) (max_count s).

(** A null pointer is dereferenced. *)
Definition set (is_stale : Key → bool) (key : Key) (mapped : option Mapped) (s : t) : outcome t :=
  match mapped with
  | None => UB
  | Some mapped =>
      let entry_size_in_bytes := weight_function mapped in
      s ← (if negb (sufficient_space_in_cache entry_size_in_bytes s) ||
              negb (sufficient_space_in_cache_for_user key entry_size_in_bytes s)
           then erase_if_loop (λ key _, is_stale key) (listing _ (cache s)) s
           else Ret s);
      if sufficient_space_in_cache entry_size_in_bytes s && sufficient_space_in_cache_for_user key entry_size_in_bytes s
      then Ret (store key mapped entry_size_in_bytes s)
      else Ret s
  end.

Definition dump (s : t) : list (Key * Mapped) := omap (λ id, cache s !! id) (listing _ (cache s)).

(** * The accounts *)

Context (weights : ∀ mapped, 0 ≤ weight_function mapped < 2 ^ 63).
Context (listing_ok : ∀ V (m : gmap Id V), listing V m ≡ₚ (map_to_list m).*1).
Implicit Types (s : t) (key : Key) (id : Id) (e : Key * Mapped).

Definition of_user (user : UUID) e : bool := bool_decide (user_id e.1 = Some user).

Definition total s : Z := sum_map (λ e, weight_function e.2) (cache s).

(** What the entries of a user weigh, and how many they are. *)
Definition user_total (user : UUID) s : Z := sum_map (λ e, if of_user user e then weight_function e.2 else 0) (cache s).
Definition user_count (user : UUID) s : Z := sum_map (λ e, if of_user user e then 1 else 0) (cache s).

Definition user_resources (user : UUID) s : UserQuota.Resources := UserQuota.mk (user_total user s) (user_count user s).

(** The size and the resources of every user are those of the entries, except for [leaked]. *)
Record accounted (leaked : Z) s : Prop := {
  accounted_size : size_in_bytes s = total s + leaked;
  accounted_leaked : 0 ≤ leaked;
  accounted_bound : size_in_bytes s ≤ 2 ^ 63;
  accounted_count : count s < 2 ^ 64;
  accounted_keys id key mapped : cache s !! id = Some (key, mapped) → ident key = id;
  accounted_users :
    match user_quotas s with
    | UserQuota.NoQuota => True
    | UserQuota.PerUser _ actual => ∀ user, default UserQuota.none (actual !! user) = user_resources user s
    end;
}.

Lemma user_weight_range user e : 0 ≤ (if of_user user e then weight_function e.2 else 0) ≤ weight_function e.2.
Proof. pose proof (weights e.2). case_match; lia. Qed.

Lemma user_one_range user e : 0 ≤ (if of_user user e then 1 else 0) ≤ 1.
Proof. case_match; lia. Qed.

Lemma ttl_total_nonneg s : 0 ≤ total s.
Proof. apply sum_map_nonneg. intros e. pose proof (weights e.2). lia. Qed.

Lemma user_total_range user s : 0 ≤ user_total user s ≤ total s.
Proof.
  split; [apply sum_map_nonneg; intros e; apply user_weight_range|].
  apply sum_map_le. intros e. apply user_weight_range.
Qed.

Lemma user_count_range user s : 0 ≤ user_count user s ≤ count s.
Proof.
  split; [apply sum_map_nonneg; intros e; apply user_one_range|].
  unfold count. rewrite <- sum_map_one. apply sum_map_le. intros e. apply user_one_range.
Qed.

Lemma erase_accounted leaked s id key mapped :
  accounted leaked s → cache s !! id = Some (key, mapped) → accounted leaked (erase id key mapped s).
Proof.
  intros [Hs Hl Hb Hc Hk Hu] Hid. pose proof (ttl_total_nonneg s). pose proof (weights mapped).
  assert (∀ f : Key * Mapped → Z, sum_map f (delete id (cache s)) = sum_map f (cache s) - f (key, mapped)) as Hdel.
  { intros f. rewrite (sum_map_delete f _ id (key, mapped) Hid). lia. }
  pose proof (Hdel (λ e, weight_function e.2)) as Hd.
  assert (0 ≤ total (erase id key mapped s)) by apply ttl_total_nonneg. unfold total in *. simpl in *.
  split; simpl; try done.
  - unfold total. simpl. rewrite Hd, wrap_small; zlia.
  - rewrite wrap_small; zlia.
  - unfold count in *. simpl. rewrite <- sum_map_one in *. rewrite Hdel. lia.
  - intros id' key' mapped' (_ & Hin)%lookup_delete_Some. eauto.
  - destruct (user_quotas s) as [|quotas actual] eqn:Hq; [by destruct (user_id key)|]. simpl.
    assert (∀ user, user_resources user (erase id key mapped s) =
      if of_user user (key, mapped) then UserQuota.mk (user_total user s - weight_function mapped) (user_count user s - 1)
      else user_resources user s) as Hres.
    { intros user. unfold user_resources, user_total, user_count. simpl. rewrite !Hdel. simpl. case_match; f_equal; lia. }
    assert (∀ user, of_user user (key, mapped) = bool_decide (user_id key = Some user)) as Hof by done.
    pose proof (λ user, user_total_range user (erase id key mapped s)) as Hut.
    pose proof (λ user, user_count_range user (erase id key mapped s)) as Huc.
    destruct (user_id key) as [user|]; simpl.
    + intros user'. specialize (Hres user'). rewrite Hres. rewrite Hof in *. case_bool_decide as Heq.
      * simplify_eq. rewrite lookup_insert_eq. simpl. rewrite Hu. simpl. injection Hres as Ht1 Ht2.
        specialize (Hut user'). specialize (Huc user'). rewrite Ht1, Ht2 in *.
        pose proof (user_total_range user' s). pose proof (user_count_range user' s). unfold total in *.
        by rewrite !wrap_small by zlia.
      * rewrite lookup_insert_ne by congruence. apply Hu.
    + intros user'. by rewrite Hres, Hu, Hof.
Qed.

Lemma insert_accounted leaked s key mapped :
  accounted leaked s → cache s !! ident key = None →
  size_in_bytes s + weight_function mapped ≤ 2 ^ 63 → count s + 1 < 2 ^ 64 →
  accounted leaked (store key mapped (weight_function mapped) s).
Proof.
  intros [Hs Hl Hb Hc Hk Hu] Hid Hw Hn. unfold store. rewrite Hid. pose proof (ttl_total_nonneg s). pose proof (weights mapped).
  assert (∀ f : Key * Mapped → Z, sum_map f (<[ident key := (key, mapped)]> (cache s)) = f (key, mapped) + sum_map f (cache s)) as Hins.
  { intros f. by apply sum_map_insert. }
  unfold total, count in *. split; simpl.
  - unfold total. simpl. rewrite Hins. simpl. rewrite wrap_small; zlia.
  - done.
  - rewrite wrap_small; zlia.
  - unfold count. simpl. rewrite <- sum_map_one in *. rewrite Hins. lia.
  - intros id' key' mapped' [[<- [= <- <-]]|[_ Hin]]%lookup_insert_Some; [done|eauto].
  - destruct (user_quotas s) as [|quotas actual] eqn:Hq; [by destruct (user_id key)|].
    assert (∀ user s', cache s' = <[ident key := (key, mapped)]> (cache s) → user_resources user s' =
      if bool_decide (user_id key = Some user)
      then UserQuota.mk (user_total user s + weight_function mapped) (user_count user s + 1)
      else user_resources user s) as Hres.
    { intros user s' Hs'. unfold user_resources, user_total, user_count. rewrite Hs', !Hins. unfold of_user. simpl.
      case_bool_decide; f_equal; lia. }
    destruct (user_id key) as [user|]; simpl; intros user'; rewrite Hres by done; [|apply Hu].
    pose proof (user_total_range user' s). pose proof (user_count_range user' s). unfold total, count in *.
    case_bool_decide as Heq.
    + simplify_eq. rewrite lookup_insert_eq. simpl. rewrite Hu. simpl. by rewrite !wrap_small by zlia.
    + rewrite lookup_insert_ne by congruence. apply Hu.
Qed.

(** The limits of the users. *)
Definition limits (q : UserQuota.t) : gmap UUID UserQuota.Resources :=
  match q with UserQuota.NoQuota => ∅ | UserQuota.PerUser quotas _ => quotas end.

Record same_limits s s' : Prop := {
  same_max_size : max_size_in_bytes s' = max_size_in_bytes s;
  same_max_count : max_count s' = max_count s;
  same_quotas : limits (user_quotas s') = limits (user_quotas s);
}.

Lemma same_limits_refl s : same_limits s s.
Proof. done. Qed.

Lemma same_limits_trans s1 s2 s3 : same_limits s1 s2 → same_limits s2 s3 → same_limits s1 s3.
Proof. intros [] []. split; congruence. Qed.

Lemma erase_limits id key mapped s : same_limits s (erase id key mapped s).
Proof. split; try done. simpl. destruct (user_id key), (user_quotas s); done. Qed.

(** The entries that the loop leaves. *)
Definition left_over (condition : Key → Mapped → bool) (ids : list Id) (id : Id) (entry : option (Key * Mapped)) : option (Key * Mapped) :=
  match entry with
  | Some (key, mapped) => if bool_decide (id ∈ ids) && condition key mapped then None else Some (key, mapped)
  | None => None
  end.

Lemma erase_if_loop_spec leaked condition ids : ∀ s,
  accounted leaked s → NoDup ids → (∀ id, id ∈ ids → is_Some (cache s !! id)) →
  ∃ s', erase_if_loop condition ids s = Ret s' ∧ accounted leaked s' ∧ same_limits s s' ∧
    ∀ id, cache s' !! id = left_over condition ids id (cache s !! id).
Proof.
  induction ids as [|id ids IH]; intros s Ha Hnd Hids; simpl.
  { exists s. split_and!; try done. intros id. by destruct (cache s !! id) as [[key mapped]|]. }
  apply NoDup_cons in Hnd as [Hid Hnd]. destruct (Hids id ltac:(set_solver)) as [[key mapped] Hc]. rewrite Hc.
  assert (∀ id', id' ≠ id → bool_decide (id' ∈ id :: ids) = bool_decide (id' ∈ ids)) as Hdec
    by (intros id' ?; apply bool_decide_ext; set_solver).
  destruct (condition key mapped) eqn:Hcond.
  - destruct (IH (erase id key mapped s)) as (s' & Hr & Ha' & Hl' & Hc').
    + by apply erase_accounted.
    + done.
    + intros id' Hin. simpl. rewrite lookup_delete_ne by set_solver. apply Hids. set_solver.
    + exists s'. split_and!; try done; [by eapply same_limits_trans; [apply erase_limits|]|].
      intros id'. rewrite Hc'. simpl. destruct (decide (id' = id)) as [->|Hne].
      * rewrite lookup_delete_eq, Hc. simpl. by rewrite bool_decide_true, Hcond by set_solver.
      * rewrite lookup_delete_ne by done. unfold left_over. by rewrite Hdec.
  - destruct (IH s Ha Hnd) as (s' & Hr & Ha' & Hl' & Hc'); [intros; apply Hids; set_solver|].
    exists s'. split_and!; try done. intros id'. rewrite Hc'. destruct (decide (id' = id)) as [->|Hne].
    + rewrite Hc. simpl. by rewrite Hcond, !andb_false_r.
    + unfold left_over. by rewrite Hdec.
Qed.

(** The loop over the whole cache. *)
Lemma erase_if_spec leaked condition s :
  accounted leaked s →
  ∃ s', erase_if_loop condition (listing _ (cache s)) s = Ret s' ∧ accounted leaked s' ∧ same_limits s s' ∧
    ∀ id, cache s' !! id =
      match cache s !! id with
      | Some (key, mapped) => if condition key mapped then None else Some (key, mapped)
      | None => None
      end.
Proof.
  intros Ha. assert (∀ id, id ∈ listing _ (cache s) ↔ is_Some (cache s !! id)) as Hl.
  { intros id. rewrite listing_ok, list_elem_of_fmap. split.
    - intros ([k e] & -> & Hin%elem_of_map_to_list). by eexists.
    - intros [e He]. exists (id, e). split; [done|]. by apply elem_of_map_to_list. }
  destruct (erase_if_loop_spec leaked condition (listing _ (cache s)) s Ha) as (s' & Hr & Ha' & Hl' & Hc').
  - rewrite listing_ok. apply NoDup_fst_map_to_list.
  - intros id. apply Hl.
  - exists s'. split_and!; try done. intros id. rewrite Hc'. unfold left_over.
    destruct (cache s !! id) as [[key mapped]|] eqn:He; [|done]. by rewrite bool_decide_true by (apply Hl; by eexists).
Qed.

Definition limited s : Prop := 0 ≤ max_size_in_bytes s ≤ 2 ^ 63 ∧ 0 ≤ max_count s < 2 ^ 64.

(** The quota of a user; 0 is no quota. *)
Definition quota_size (user : UUID) s : Z :=
  UserQuota.unlimited_if_zero
    (UserQuota.size_in_bytes (default (UserQuota.mk (2 ^ 64 - 1) (2 ^ 64 - 1)) (limits (user_quotas s) !! user))).
Definition quota_items (user : UUID) s : Z :=
  UserQuota.unlimited_if_zero
    (UserQuota.num_items (default (UserQuota.mk (2 ^ 64 - 1) (2 ^ 64 - 1)) (limits (user_quotas s) !! user))).

Section insertion.
Context (leaked : Z) (s : t) (key : Key) (mapped : Mapped).
Context (Ha : accounted leaked s) (Hl : limited s).
Local Notation w := (weight_function mapped).

Lemma sufficient_space_spec :
  sufficient_space_in_cache w s = true → size_in_bytes s + w ≤ max_size_in_bytes s ∧ count s + 1 ≤ max_count s.
Proof.
  unfold sufficient_space_in_cache. intros [H1%Z.leb_le H2%Z.leb_le]%andb_true_iff. split; [|done].
  pose proof (weights mapped). pose proof (ttl_total_nonneg s). destruct Ha as [? ? ? _ _ _]. rewrite wrap_small in H1; zlia.
Qed.

(** An entry of the same key goes first. *)
Lemma store_eq :
  ∃ s', accounted leaked s' ∧ same_limits s s' ∧ size_in_bytes s' ≤ size_in_bytes s ∧ count s' ≤ count s ∧
    cache s' = delete (ident key) (cache s) ∧ store key mapped w s = store key mapped w s'.
Proof.
  destruct (cache s !! ident key) as [[found old]|] eqn:Hk.
  - exists (erase (ident key) found old s). pose proof (erase_accounted _ _ _ _ _ Ha Hk) as Ha'.
    pose proof (sum_map_delete (λ e, weight_function e.2) _ _ _ Hk) as Hd1.
    pose proof (sum_map_delete (λ _, 1) _ _ _ Hk) as Hd2. rewrite sum_map_one in Hd2.
    pose proof (weights old). simpl in Hd1.
    split_and!; [done|apply erase_limits| | |done|].
    + rewrite (accounted_size _ _ Ha'), (accounted_size _ _ Ha). unfold total. simpl. lia.
    + unfold count. simpl. rewrite <- sum_map_one. lia.
    + unfold store. rewrite Hk. simpl. by rewrite lookup_delete_eq.
  - exists s. split_and!; try done. by rewrite delete_id.
Qed.

Lemma store_limits s' : same_limits s' (store key mapped w s').
Proof.
  assert (∀ s1 quotas size c, limits quotas = limits (user_quotas s1) → same_limits s1 (mk c quotas size (max_size_in_bytes s1) (max_count s1))) as Hmk by done.
  unfold store. destruct (cache s' !! ident key) as [[found old]|].
  - eapply same_limits_trans; [apply (erase_limits (ident key) found old)|]. apply Hmk.
    destruct (user_id key), (user_quotas (erase _ _ _ _)); done.
  - apply Hmk. destruct (user_id key), (user_quotas s'); done.
Qed.

Lemma store_spec :
  sufficient_space_in_cache w s = true →
  let s' := store key mapped w s in
  accounted leaked s' ∧ same_limits s s' ∧ cache s' = <[ident key := (key, mapped)]> (cache s) ∧
  size_in_bytes s' ≤ max_size_in_bytes s ∧ count s' ≤ max_count s.
Proof.
  intros [Hsz Hn]%sufficient_space_spec. pose proof (store_limits s) as Hlim.
  destruct store_eq as (s1 & Ha1 & Hl1 & Hs1 & Hc1 & Hcache & Heq). cbn zeta. rewrite Heq in *.
  destruct Hl as [Hm1 Hm2]. assert (cache s1 !! ident key = None) as Hnone by (rewrite Hcache; apply lookup_delete_eq).
  assert (accounted leaked (store key mapped w s1)) as Ha2 by (apply insert_accounted; [done..|lia|lia]).
  pose proof (ttl_total_nonneg s1). pose proof (weights mapped). pose proof (accounted_size _ _ Ha1). pose proof (accounted_leaked _ _ Ha1).
  split_and!; [done|done|..]; unfold store; rewrite Hnone; simpl.
  - by rewrite Hcache, insert_delete_eq.
  - rewrite wrap_small; zlia.
  - unfold count in *. simpl. rewrite <- sum_map_one in *. rewrite sum_map_insert by done. rewrite sum_map_one in *. lia.
Qed.

(** The quota of the user is not exceeded either. *)
Lemma store_quota user :
  sufficient_space_in_cache w s = true → sufficient_space_in_cache_for_user key w s = true → user_id key = Some user →
  user_total user (store key mapped w s) ≤ quota_size user s ∧ user_count user (store key mapped w s) ≤ quota_items user s.
Proof.
  intros Hsuf Happ Huser. destruct (store_spec Hsuf) as (Ha' & Hlim & Hcache & _).
  apply sufficient_space_spec in Hsuf as [Hsz Hn]. unfold sufficient_space_in_cache_for_user in Happ. rewrite Huser in Happ.
  pose proof (sum_map_insert_le (λ e, if of_user user e then weight_function e.2 else 0) (cache s) (ident key) (key, mapped)
    (λ e, proj1 (user_weight_range user e))) as H1.
  pose proof (sum_map_insert_le (λ e, if of_user user e then 1 else 0) (cache s) (ident key) (key, mapped)
    (λ e, proj1 (user_one_range user e))) as H2.
  assert (of_user user (key, mapped) = true) as Hof by (by apply bool_decide_true). cbv beta in H1, H2. rewrite Hof in H1, H2.
  simpl in H1.
  rewrite <- Hcache in H1, H2. fold (user_total user (store key mapped w s)) (user_total user s) in H1.
  fold (user_count user (store key mapped w s)) (user_count user s) in H2.
  pose proof (user_total_range user s). pose proof (user_count_range user s). pose proof (accounted_leaked _ _ Ha).
  pose proof (accounted_users _ _ Ha) as Hu. pose proof (accounted_size _ _ Ha). destruct Hl as [Hm1 Hm2]. pose proof (weights mapped).
  unfold quota_size, quota_items. destruct (user_quotas s) as [|quotas actual]; simpl in *.
  - rewrite lookup_empty. change (UserQuota.unlimited_if_zero _) with (2 ^ 64 - 1). lia.
  - rewrite Hu in Happ. simpl in Happ. rewrite !wrap_small in Happ by zlia.
    destruct (Z.ltb_spec (UserQuota.unlimited_if_zero
      (UserQuota.size_in_bytes (default (UserQuota.mk (2 ^ 64 - 1) (2 ^ 64 - 1)) (quotas !! user)))) (user_total user s + w)); [done|].
    destruct (Z.ltb_spec (UserQuota.unlimited_if_zero
      (UserQuota.num_items (default (UserQuota.mk (2 ^ 64 - 1) (2 ^ 64 - 1)) (quotas !! user)))) (user_count user s + 1)); [done|]. lia.
Qed.
End insertion.

(** [s'] has the entries of [s], except stale ones. *)
Definition without_stale (is_stale : Key → bool) s s' : Prop :=
  ∀ id, cache s' !! id = cache s !! id ∨
    ∃ key mapped, cache s !! id = Some (key, mapped) ∧ is_stale key = true ∧ cache s' !! id = None.

(** The entry is stored, or it is refused. *)
Definition stored_or_refused (is_stale : Key → bool) (key : Key) (mapped : Mapped) s s' : Prop :=
  (∃ s1, without_stale is_stale s s1 ∧ cache s' = <[ident key := (key, mapped)]> (cache s1) ∧
    size_in_bytes s' ≤ max_size_in_bytes s ∧ count s' ≤ max_count s ∧
    ∀ user, user_id key = Some user → user_total user s' ≤ quota_size user s ∧ user_count user s' ≤ quota_items user s) ∨
  without_stale is_stale s s'.

Lemma without_stale_refl is_stale s : without_stale is_stale s s.
Proof. by left. Qed.

Lemma set_spec leaked is_stale key mapped s :
  accounted leaked s → limited s →
  ∃ s', set is_stale key (Some mapped) s = Ret s' ∧ accounted leaked s' ∧ same_limits s s' ∧
    stored_or_refused is_stale key mapped s s'.
Proof.
  intros Ha Hl. simpl. set (w := weight_function mapped).
  assert (∃ s1, (if negb (sufficient_space_in_cache w s) || negb (sufficient_space_in_cache_for_user key w s)
    then erase_if_loop (λ key _, is_stale key) (listing _ (cache s)) s else Ret s) = Ret s1 ∧
    accounted leaked s1 ∧ same_limits s s1 ∧ without_stale is_stale s s1) as (s1 & -> & Ha1 & Hl1 & Hst).
  { destruct (_ || _); [|by exists s; split_and!; try done; apply without_stale_refl].
    destruct (erase_if_spec leaked (λ key _, is_stale key) s Ha) as (s1 & Hr & Ha1 & Hl1 & Hc). exists s1. split_and!; try done.
    intros id. rewrite Hc. destruct (cache s !! id) as [[k v]|] eqn:He; [|by left].
    destruct (is_stale k) eqn:Hk; [right|by left]. by exists k, v. }
  simpl. assert (limited s1) as Hlim by (destruct Hl1 as [H1 H2 _]; unfold limited; by rewrite H1, H2).
  destruct (sufficient_space_in_cache w s1) eqn:Hs1; simpl; [|by exists s1; split_and!; try done; right].
  destruct (sufficient_space_in_cache_for_user key w s1) eqn:Hs2; [|by exists s1; split_and!; try done; right].
  destruct (store_spec leaked s1 key mapped Ha1 Hlim Hs1) as (Ha2 & Hl2 & Hc2 & Hsz & Hn).
  eexists. split; [done|]. split; [done|]. split; [by eapply same_limits_trans|]. left. exists s1.
  destruct Hl1 as [<- <- Hq]. split_and!; try done. intros user Huser.
  pose proof (store_quota leaked s1 key mapped Ha1 Hlim user Hs1 Hs2 Huser) as Hquota.
  unfold quota_size, quota_items in *. by rewrite <- Hq.
Qed.

(** * Sequences of operations *)

Inductive ttl_op :=
  | TtlSetMaxCount (n : Z)
  | TtlSetMaxSizeInBytes (n : Z)
  | TtlSetQuotaForUser (user : UUID) (max_size max_entries : Z)
  | TtlClear
  | TtlRemove (key : Key)
  | TtlRemoveIf (predicate : Key → Mapped → bool)
  | TtlSet (is_stale : Key → bool) (key : Key) (mapped : Mapped).

Definition ttl_apply (o : ttl_op) (s : t) : outcome t :=
  match o with
  | TtlSetMaxCount n => Ret (setMaxCount n s)
  | TtlSetMaxSizeInBytes n => Ret (setMaxSizeInBytes n s)
  | TtlSetQuotaForUser user max_size max_entries => Ret (setQuotaForUser user max_size max_entries s)
  | TtlClear => Ret (clear s)
  | TtlRemove key => Ret (remove key s)
  | TtlRemoveIf predicate => remove_if predicate s
  | TtlSet is_stale key mapped => set is_stale key (Some mapped) s
  end.

Fixpoint ttl_run (ops : list ttl_op) (s : t) : outcome t :=
  match ops with
  | [] => Ret s
  | o :: ops => s ← ttl_apply o s; ttl_run ops s
  end.

Definition sensible_ttl_op (o : ttl_op) : Prop :=
  match o with
  | TtlSetMaxCount n => 0 ≤ n < 2 ^ 64
  | TtlSetMaxSizeInBytes n => 0 ≤ n ≤ 2 ^ 63
  | _ => True
  end.

Lemma clear_accounted leaked s : accounted leaked s → accounted (leaked + total s) (clear s).
Proof.
  intros [Hs Hl Hb Hc Hk Hu]. pose proof (ttl_total_nonneg s). split; simpl.
  - rewrite Hs. unfold total. simpl. rewrite sum_map_empty. lia.
  - lia.
  - done.
  - unfold count. simpl. rewrite map_size_empty. lia.
  - intros id key mapped. by rewrite lookup_empty.
  - destruct (user_quotas s); simpl; [done|]. intros user. by rewrite lookup_empty.
Qed.

Lemma ttl_apply_accounted leaked o s :
  accounted leaked s → limited s → sensible_ttl_op o →
  ∃ s' leaked', ttl_apply o s = Ret s' ∧ accounted leaked' s' ∧ limited s' ∧ (o ≠ TtlClear → leaked' = leaked).
Proof.
  intros Ha Hl Ho. assert (∀ s', same_limits s s' → limited s') as Hsame.
  { intros s' [H1 H2 _]. unfold limited. by rewrite H1, H2. }
  destruct o as [n|n|user max_size max_entries| |key|predicate|is_stale key mapped]; simpl.
  - eexists _, leaked. split_and!; [done|by destruct Ha|split; [apply Hl|done]|done].
  - eexists _, leaked. split_and!; [done|by destruct Ha|split; [done|apply Hl]|done].
  - eexists _, leaked. split_and!; [done| |apply Hl|done]. destruct Ha as [? ? ? ? ? Hu]. split; try done.
    simpl. by destruct (user_quotas s).
  - eexists _, _. split_and!; [done|by apply clear_accounted|apply Hl|done].
  - unfold remove. destruct (cache s !! ident key) as [[found mapped]|] eqn:Hk; [|by exists s, leaked].
    eexists _, leaked. split_and!; [done|by apply erase_accounted|apply Hsame, erase_limits|done].
  - destruct (erase_if_spec leaked predicate s Ha) as (s' & Hr & Ha' & Hl' & _). exists s', leaked. split_and!; auto.
  - destruct (set_spec leaked is_stale key mapped s Ha Hl) as (s' & Hr & Ha' & Hl' & _). exists s', leaked. split_and!; auto.
Qed.

Lemma ttl_run_accounted ops : ∀ leaked s,
  accounted leaked s → limited s → Forall sensible_ttl_op ops →
  ∃ s' leaked', ttl_run ops s = Ret s' ∧ accounted leaked' s' ∧ limited s' ∧ (TtlClear ∉ ops → leaked' = leaked).
Proof.
  induction ops as [|o ops IH]; intros leaked s Ha Hl Hops; [by exists s, leaked|].
  apply Forall_cons in Hops as [Ho Hops]. destruct (ttl_apply_accounted leaked o s Ha Hl Ho) as (s1 & leaked1 & Hr1 & Ha1 & Hl1 & He1).
  destruct (IH leaked1 s1 Ha1 Hl1 Hops) as (s2 & leaked2 & Hr2 & Ha2 & Hl2 & He2). exists s2, leaked2. simpl. rewrite Hr1. simpl.
  split_and!; try done. rewrite not_elem_of_cons. intros [Hne Hnin]. rewrite He2, He1; congruence.
Qed.

Lemma create_accounted quotas : accounted 0 (create (UserQuota.PerUser quotas ∅)) ∧ limited (create (UserQuota.PerUser quotas ∅)).
Proof.
  split; [|unfold limited; simpl; lia]. split; simpl; done.
Qed.

(** The class of the quotas does not change. *)
Definition per_user (q : UserQuota.t) : bool := match q with UserQuota.NoQuota => false | UserQuota.PerUser _ _ => true end.

Lemma erase_per_user id key mapped s : per_user (user_quotas (erase id key mapped s)) = per_user (user_quotas s).
Proof. simpl. destruct (user_id key), (user_quotas s); done. Qed.

Lemma erase_if_per_user condition ids : ∀ s s',
  erase_if_loop condition ids s = Ret s' → per_user (user_quotas s') = per_user (user_quotas s).
Proof.
  induction ids as [|id ids IH]; simpl; intros s s' Hr; [by simplify_eq|].
  destruct (cache s !! id) as [[key mapped]|]; [|done]. apply IH in Hr as ->.
  case_match; [apply erase_per_user|done].
Qed.

Lemma ttl_apply_per_user o s s' : ttl_apply o s = Ret s' → per_user (user_quotas s') = per_user (user_quotas s).
Proof.
  destruct o as [n|n|user max_size max_entries| |key|predicate|is_stale key mapped]; simpl; intros Hr; simplify_eq; try done.
  - simpl. by destruct (user_quotas s).
  - simpl. by destruct (user_quotas s).
  - unfold remove. case_match; [|done]. case_match. apply erase_per_user.
  - by eapply erase_if_per_user.
  - apply bind_Ret_inv in Hr as (s1 & Hs1 & Hr).
    assert (per_user (user_quotas s1) = per_user (user_quotas s)) as <-.
    { destruct (_ || _); [by eapply erase_if_per_user|by simplify_eq]. }
    destruct (_ && _); simplify_eq; [|done]. unfold store. simpl.
    transitivity (per_user (user_quotas (match cache s1 !! ident key with
      | Some (found, mapped) => erase (ident key) found mapped s1 | None => s1 end))).
    + by destruct (user_id key), (user_quotas (match cache s1 !! ident key with Some _ => _ | None => _ end)).
    + destruct (cache s1 !! ident key) as [[found old]|]; [apply erase_per_user|done].
Qed.

Lemma ttl_run_per_user ops : ∀ s s', ttl_run ops s = Ret s' → per_user (user_quotas s') = per_user (user_quotas s).
Proof.
  induction ops as [|o ops IH]; simpl; intros s s' Hr; [by simplify_eq|].
  apply bind_Ret_inv in Hr as (s1 & H1 & Hr). rewrite (IH _ _ Hr). by eapply ttl_apply_per_user.
Qed.

(** C18: Whatever operations are performed on a new TTL cache with quotas of users, what is
    accounted to every user is exactly the weight and the number of their entries. The size
    of the cache is at least the weight of its entries, and exactly that if the cache has
    never been cleared. *)
Theorem ttl_accounts_exact (ops : list ttl_op) (quotas : gmap UUID UserQuota.Resources) :
  Forall sensible_ttl_op ops →
  ∃ s, ttl_run ops (create (UserQuota.PerUser quotas ∅)) = Ret s ∧
    total s ≤ sizeInBytes s ∧ (TtlClear ∉ ops → sizeInBytes s = total s) ∧
    ∃ quotas' actual, user_quotas s = UserQuota.PerUser quotas' actual ∧
      ∀ user, default UserQuota.none (actual !! user) = UserQuota.mk (user_total user s) (user_count user s).
Proof.
  intros Hops. destruct (create_accounted quotas) as [Ha Hl].
  destruct (ttl_run_accounted ops 0 _ Ha Hl Hops) as (s & leaked & Hr & Ha' & _ & He). exists s.
  pose proof (ttl_run_per_user _ _ _ Hr) as Hq. pose proof (accounted_users _ _ Ha') as Hu.
  pose proof (accounted_size _ _ Ha'). pose proof (accounted_leaked _ _ Ha'). unfold sizeInBytes.
  destruct (user_quotas s) as [|quotas' actual]; [done|].
  split_and!; [done|lia|intros Hc; rewrite He in * by done; lia|]. by exists quotas', actual.
Qed.

(** C19: A set into a TTL cache that operations lead to either stores the value, and then
    neither the limits of the cache nor the quota of the user of the key are exceeded, or
    refuses it; in both cases no entry of another key is lost unless it is stale. *)
Theorem ttl_set_keeps_limits (ops : list ttl_op) (quotas : gmap UUID UserQuota.Resources) s is_stale key mapped :
  Forall sensible_ttl_op ops → ttl_run ops (create (UserQuota.PerUser quotas ∅)) = Ret s →
  ∃ s', set is_stale key (Some mapped) s = Ret s' ∧ stored_or_refused is_stale key mapped s s'.
Proof.
  intros Hops Hrun. destruct (create_accounted quotas) as [Ha Hl].
  destruct (ttl_run_accounted ops 0 _ Ha Hl Hops) as (s1 & leaked & Hr & Ha' & Hl' & _). rewrite Hrun in Hr. simplify_eq.
  destruct (set_spec leaked is_stale key mapped s1 Ha' Hl') as (s' & ? & _ & _ & ?). by exists s'.
Qed.

(** [clear] does not reset the size in bytes: after the cache has been emptied, values are
    refused as if all the entries that were in it still took up space. *)
Theorem ttl_clear_keeps_size (ops : list ttl_op) (quotas : gmap UUID UserQuota.Resources) s is_stale key mapped :
  Forall sensible_ttl_op ops → ttl_run ops (create (UserQuota.PerUser quotas ∅)) = Ret s →
  maxSizeInBytes s < total s + weight_function mapped →
  count (clear s) = 0 ∧ sizeInBytes (clear s) = sizeInBytes s ∧ set is_stale key (Some mapped) (clear s) = Ret (clear s).
Proof.
  intros Hops Hrun Hw. destruct (create_accounted quotas) as [Ha Hl].
  destruct (ttl_run_accounted ops 0 _ Ha Hl Hops) as (s1 & leaked & Hr & Ha' & Hl' & _). rewrite Hrun in Hr. simplify_eq.
  split_and!; [unfold count; simpl; by rewrite map_size_empty|done|].
  pose proof (accounted_size _ _ Ha'). pose proof (accounted_leaked _ _ Ha'). pose proof (accounted_bound _ _ Ha').
  pose proof (ttl_total_nonneg s1). pose proof (weights mapped).
  assert (sufficient_space_in_cache (weight_function mapped) (clear s1) = false) as Hno.
  { unfold sufficient_space_in_cache, maxSizeInBytes in *. simpl. rewrite wrap_small by zlia.
    by rewrite (proj2 (Z.leb_gt _ _)) by lia. }
  simpl. rewrite Hno. simpl. assert (listing _ (∅ : gmap Id (Key * Mapped)) = []) as ->.
  { apply Permutation_nil_r. rewrite listing_ok. by rewrite map_to_list_empty. }
  simpl. by rewrite Hno.
Qed.
End policy.

(** ** A cache for one entry of one user *)

Definition one_entry : list (ttl_op (Key := Z * option Z) (Mapped := Z)) :=
  [TtlSetMaxCount 2; TtlSetMaxSizeInBytes 1; TtlSetQuotaForUser 7 5 1; TtlSet (λ _, false) (1, Some 7) 10].

Definition listed V (m : gmap Z V) : list Z := (map_to_list m).*1.

Lemma one_entry_sensible : Forall sensible_ttl_op one_entry.
Proof. repeat constructor; simpl; lia. Qed.

Lemma unit_weights (value : Z) : 0 ≤ EqualWeightFunction value < 2 ^ 63.
Proof. unfold EqualWeightFunction. lia. Qed.

Definition after_one_entry : t (Key := Z * option Z) (Id := Z) (Mapped := Z) := mk {[ 1 := ((1, Some 7), 10) ]}
  (UserQuota.PerUser {[ 7 := UserQuota.mk 5 1 ]} {[ 7 := UserQuota.mk 1 1 ]}) 1 1 2.

Lemma one_entry_run :
  ttl_run fst snd EqualWeightFunction listed one_entry (create (UserQuota.PerUser ∅ ∅)) = Ret after_one_entry.
Proof. vm_compute. reflexivity. Qed.

Lemma ttl_accounts_exact_witness :
  ∃ s, ttl_run fst snd EqualWeightFunction listed one_entry (create (UserQuota.PerUser ∅ ∅)) = Ret s ∧
    sizeInBytes s = total EqualWeightFunction s.
Proof.
  destruct (ttl_accounts_exact fst snd EqualWeightFunction listed unit_weights (λ _ _, reflexivity _) one_entry ∅
    one_entry_sensible) as (s & Hr & _ & Hz & _).
  exists s. split; [exact Hr|]. apply Hz. unfold one_entry. set_solver.
Defined.

Lemma ttl_set_keeps_limits_witness :
  ∃ s', set fst snd EqualWeightFunction listed (λ _, true) (2, Some 7) (Some 20) after_one_entry = Ret s' ∧
    stored_or_refused fst snd EqualWeightFunction (λ _, true) (2, Some 7) 20 after_one_entry s'.
Proof.
  apply (ttl_set_keeps_limits fst snd EqualWeightFunction listed unit_weights (λ _ _, reflexivity _) one_entry ∅
    after_one_entry (λ _, true) (2, Some 7) 20 one_entry_sensible one_entry_run).
Defined.

Lemma ttl_clear_keeps_size_witness :
  count (clear after_one_entry) = 0 ∧ sizeInBytes (clear after_one_entry) = 1 ∧
  set fst snd EqualWeightFunction listed (λ _, true) (2, None) (Some 20) (clear after_one_entry) = Ret (clear after_one_entry).
Proof.
  apply (ttl_clear_keeps_size fst snd EqualWeightFunction listed unit_weights (λ _ _, reflexivity _) one_entry ∅
    after_one_entry (λ _, true) (2, None) 20 one_entry_sensible one_entry_run).
  vm_compute. reflexivity.
Defined.
End TTL.
