(* ===== verification/CacheBase.v ===== *)
(** The thread-safe cache (src/src/Common/CacheBase.h) on top of a cache policy: the methods
    that hold the mutex of the cache, and [getOrSet], with which concurrent threads load a
    missing value once.

    A step of [getOrSet] is a part of it within which no other thread can interfere: it ends
    where the thread releases its last mutex, calls [load_func] or waits for a mutex. The
    mutex of the cache is only held within a step, that of an insert token also between
    steps. [load_func] is not part of the cache; what it does is an argument of the step. *)

From stdpp Require Import base tactics list numbers strings gmap.
From Stdlib Require Import SpecFloat.
From S2P Require Import Prelude Doubles Containers CachePolicy LRUCache SLRUCache.
Local Open Scope Z_scope.

Section cache.
Context {Key Mapped St : Type} `{Countable Key} (P : ICachePolicy Key Mapped St).

(** * The state *)

(** [token_owner] is the thread that holds the mutex. The key is not a member of the token;
    it is the key under which the token is registered. *)
Record InsertToken := mk_token {
  token_key : Key;
  token_owner : option nat;
  cleaned_up : bool;
  token_value : option Mapped;
  refcount : Z;
}.

(** How [getOrSet] ends. *)
Inductive result :=
  | Returned (value : option Mapped) (produced : bool)
  | Threw.

(** Where a thread is in [getOrSet]. The flag is the member [cleaned_up] of its token holder. *)
Inductive position :=
  | Entering
  | Acquired (token : nat)
  | Loading (token : nat) (holder_cleaned_up : bool)
  | Loaded (token : nat) (holder_cleaned_up : bool)
  | Leaving (token : nat) (holder_cleaned_up : bool) (r : result)
  | Unlinking (token : nat) (r : result)
  | Finished (r : result).

Record Thread := mk_thread { thread_key : Key; thread_position : position }.

(** [supplied] are the values that were ever set or loaded; nothing reads it. *)
Record State := mk_state {
  cache_policy : St;
  hits : Z;
  misses : Z;
  insert_tokens : gmap Key nat;
  tokens : gmap nat InsertToken;
  next_token : nat;
  threads : gmap nat Thread;
  supplied : list (Key * option Mapped);
}.

Definition set_policy (p : St) (s : State) : State :=
  mk_state p (hits s) (misses s) (insert_tokens s) (tokens s) (next_token s) (threads s) (supplied s).
Definition set_insert_tokens (m : gmap Key nat) (s : State) : State :=
  mk_state (cache_policy s) (hits s) (misses s) m (tokens s) (next_token s) (threads s) (supplied s).
Definition set_token (i : nat) (t : InsertToken) (s : State) : State :=
  mk_state (cache_policy s) (hits s) (misses s) (insert_tokens s) (<[i := t]> (tokens s)) (next_token s) (threads s) (supplied s).
Definition set_thread (tid : nat) (th : Thread) (s : State) : State :=
  mk_state (cache_policy s) (hits s) (misses s) (insert_tokens s) (tokens s) (next_token s) (<[tid := th]> (threads s)) (supplied s).
Definition supply (key : Key) (mapped : option Mapped) (s : State) : State :=
  mk_state (cache_policy s) (hits s) (misses s) (insert_tokens s) (tokens s) (next_token s) (threads s) ((key, mapped) :: supplied s).
Definition hit (s : State) : State :=
  mk_state (cache_policy s) (u64 (hits s + 1)) (misses s) (insert_tokens s) (tokens s) (next_token s) (threads s) (supplied s).
Definition miss (s : State) : State :=
  mk_state (cache_policy s) (hits s) (u64 (misses s + 1)) (insert_tokens s) (tokens s) (next_token s) (threads s) (supplied s).

Definition create (p : St) : State := mk_state p 0 0 ∅ ∅ 0 ∅ [].

(** * Methods that hold the mutex of the cache *)

Definition get (key : Key) (s : State) : outcome (option Mapped * State) :=
  '(res, p) ← policy_get P key (cache_policy s);
  let s := set_policy p s in
  Ret (res, match res with Some _ => hit s | None => miss s end).

Definition getWithKey (key : Key) (s : State) : outcome (option (Key * option Mapped) * State) :=
  '(res, p) ← policy_getWithKey P key (cache_policy s);
  let s := set_policy p s in
  Ret (res, match res with Some _ => hit s | None => miss s end).

Definition set (key : Key) (mapped : option Mapped) (s : State) : outcome State :=
  p ← policy_set P key mapped (cache_policy s);
  Ret (supply key mapped (set_policy p s)).

Definition getStats (s : State) : Z * Z := (hits s, misses s).

Definition dump (s : State) : list (Key * option Mapped) := policy_dump P (cache_policy s).

Definition clear (s : State) : State :=
  mk_state (policy_clear P (cache_policy s)) 0 0 ∅ (tokens s) (next_token s) (threads s) (supplied s).

Definition remove (key : Key) (s : State) : outcome State :=
  p ← policy_remove P key (cache_policy s); Ret (set_policy p s).

Definition remove_if (predicate : Key → option Mapped → bool) (s : State) : outcome State :=
  p ← policy_remove_if P predicate (cache_policy s); Ret (set_policy p s).

Definition sizeInBytes (s : State) : Z := policy_sizeInBytes P (cache_policy s).
Definition count (s : State) : Z := policy_count P (cache_policy s).
Definition maxSizeInBytes (s : State) : Z := policy_maxSizeInBytes P (cache_policy s).

Definition setMaxCount (max_count : Z) (s : State) : outcome State :=
  p ← policy_setMaxCount P max_count (cache_policy s); Ret (set_policy p s).

Definition setMaxSizeInBytes (max_size_in_bytes : Z) (s : State) : outcome State :=
  p ← policy_setMaxSizeInBytes P max_size_in_bytes (cache_policy s); Ret (set_policy p s).

Definition setQuotaForUser (user_id : UUID) (max_size_in_bytes max_entries : Z) (s : State) : State :=
  set_policy (policy_setQuotaForUser P user_id max_size_in_bytes max_entries (cache_policy s)) s.

(** * getOrSet *)

Definition set_owner (owner : option nat) (t : InsertToken) : InsertToken :=
  mk_token (token_key t) owner (cleaned_up t) (token_value t) (refcount t).
Definition set_value (value : option Mapped) (t : InsertToken) : InsertToken :=
  mk_token (token_key t) (token_owner t) (cleaned_up t) value (refcount t).
Definition set_refcount (n : Z) (t : InsertToken) : InsertToken :=
  mk_token (token_key t) (token_owner t) (cleaned_up t) (token_value t) n.
Definition set_cleaned_up (t : InsertToken) : InsertToken :=
  mk_token (token_key t) (token_owner t) true (token_value t) (refcount t).

(** The token of the key, which is made if there is none. *)
Definition obtain (key : Key) (s : State) : nat * State :=
  match insert_tokens s !! key with
  | Some i => (i, s)
  | None =>
      let i := next_token s in
      (i, mk_state (cache_policy s) (hits s) (misses s) (<[key := i]> (insert_tokens s))
            (<[i := mk_token key None false None 0]> (tokens s)) (S i) (threads s) (supplied s))
  end.

(** [InsertTokenHolder::acquire]. *)
Definition acquire (i : nat) (s : State) : State :=
  match tokens s !! i with
  | Some t => set_token i (set_refcount (u64 (refcount t + 1)) t) s
  | None => s
  end.

(** [InsertTokenHolder::cleanup], of the token [t] with the number [i]. *)
Definition cleanup (key : Key) (i : nat) (t : InsertToken) (s : State) : State :=
  set_token i (set_cleaned_up t) (set_insert_tokens (delete key (insert_tokens s)) s).

(** What [load_func] does: it returns a pointer or throws. *)
Inductive loading := LoadValue (value : option Mapped) | LoadThrow.

(** One step of the thread [tid]; [None] if it waits for a mutex or has finished. *)
Definition step (tid : nat) (load : loading) (s : State) : outcome (option State) :=
  match threads s !! tid with
  | None => Ret None
  | Some th =>
      let key := thread_key th in
      let go position s := set_thread tid (mk_thread key position) s in
      match thread_position th with
      | Entering =>
          '(val, p) ← policy_get P key (cache_policy s);
          let s := set_policy p s in
          match val with
          | Some _ => Ret (Some (go (Finished (Returned val false)) (hit s)))
          | None => let '(i, s) := obtain key s in Ret (Some (go (Acquired i) (acquire i s)))
          end
      | Acquired i =>
          match tokens s !! i with
          | None => UB
          | Some t =>
              if token_owner t is Some _ then Ret None
              else match token_value t with
              | Some _ => Ret (Some (go (Leaving i (cleaned_up t) (Returned (token_value t) false)) (hit s)))
              | None => Ret (Some (go (Loading i (cleaned_up t)) (set_token i (set_owner (Some tid) t) (miss s))))
              end
          end
      | Loading i holder =>
          match tokens s !! i with
          | None => UB
          | Some t =>
              match load with
              | LoadValue value => Ret (Some (go (Loaded i holder) (set_token i (set_value value t) (supply key value s))))
              | LoadThrow => Ret (Some (go (Leaving i holder Threw) (set_token i (set_owner None t) s)))
              end
          end
      | Loaded i holder =>
          match tokens s !! i with
          | None => UB
          | Some t =>
              let result := bool_decide (insert_tokens s !! key = Some i) in
              s ← (if result then p ← policy_set P key (token_value t) (cache_policy s); Ret (set_policy p s) else Ret s);
              let t' := set_owner None t in
              let go' holder s := Ret (Some (go (Leaving i holder (Returned (token_value t) result)) s)) in
              if cleaned_up t then go' holder (set_token i t' s) else go' true (cleanup key i t' s)
          end
      | Leaving i holder r =>
          if holder then Ret (Some (go (Finished r) s))
          else match tokens s !! i with
          | None => UB
          | Some t =>
              if token_owner t is Some _ then Ret None
              else if cleaned_up t then Ret (Some (go (Finished r) s))
              else Ret (Some (go (Unlinking i r) (set_token i (set_owner (Some tid) t) s)))
          end
      | Unlinking i r =>
          match tokens s !! i with
          | None => UB
          | Some t =>
              let t' := set_owner None (set_refcount (u64 (refcount t - 1)) t) in
              Ret (Some (go (Finished r) (if refcount t' =? 0 then cleanup key i t' s else set_token i t' s)))
          end
      | Finished _ => Ret None
      end
  end.

(** A new call of [getOrSet]. There are less than [2 ^ 64] threads. *)
Definition start (tid : nat) (key : Key) (s : State) : option State :=
  match threads s !! tid with
  | Some _ => None
  | None => if Z.of_nat (size (threads s)) + 1 <? 2 ^ 64 then Some (set_thread tid (mk_thread key Entering) s) else None
  end.

(** * Histories *)

Inductive event :=
  | Run (tid : nat) (load : loading)
  | Start (tid : nat) (key : Key)
  | Call (o : op Key Mapped).

(** [None] if the event cannot happen now. *)
Definition perform (e : event) (s : State) : outcome (option State) :=
  match e with
  | Run tid load => step tid load s
  | Start tid key => Ret (start tid key s)
  | Call (SetMaxCount n) => s ← setMaxCount n s; Ret (Some s)
  | Call (SetMaxSizeInBytes n) => s ← setMaxSizeInBytes n s; Ret (Some s)
  | Call Clear => Ret (Some (clear s))
  | Call (Remove key) => s ← remove key s; Ret (Some s)
  | Call (RemoveIf predicate) => s ← remove_if predicate s; Ret (Some s)
  | Call (Get key) => '(_, s) ← get key s; Ret (Some s)
  | Call (GetWithKey key) => '(_, s) ← getWithKey key s; Ret (Some s)
  | Call (Put key mapped) => s ← set key mapped s; Ret (Some s)
  end.

Context `{!PolicyCorrect P}.

(** The limits that are set are ones that the policy accepts. *)
Definition acceptable (e : event) (s : State) : Prop :=
  match e with
  | Call (SetMaxCount n) => 0 ≤ n < 2 ^ 64
  | Call (SetMaxSizeInBytes n) => policy_limit (cache_policy s) n
  | _ => True
  end.

(** The states that events of some kind lead to, from an empty cache. *)
Inductive reachable (allowed : event → Prop) : State → Prop :=
  | reachable_create p : policy_ok p → (∀ k, stored p k = None) → reachable allowed (create p)
  | reachable_perform s e s' :
      reachable allowed s → allowed e → acceptable e s → perform e s = Ret (Some s') → reachable allowed s'.

(** * What holds in every history *)

Definition token_of (p : position) : option nat :=
  match p with
  | Acquired i | Loading i _ | Loaded i _ | Leaving i _ _ | Unlinking i _ => Some i
  | Entering | Finished _ => None
  end.

(** The token whose mutex a thread holds. *)
Definition owns (p : position) : option nat :=
  match p with
  | Loading i _ | Loaded i _ | Unlinking i _ => Some i
  | _ => None
  end.

Definition result_of (p : position) : option result :=
  match p with
  | Leaving _ _ r | Unlinking _ r | Finished r => Some r
  | _ => None
  end.

Definition token_at (s : State) (i : nat) (key : Key) : Prop := ∃ t, tokens s !! i = Some t ∧ token_key t = key.

Record consistent (s : State) : Prop := {
  consistent_policy : policy_ok (cache_policy s);
  consistent_stored k v : stored (cache_policy s) k = Some v → (k, v) ∈ supplied s;
  consistent_registered k i : insert_tokens s !! k = Some i → token_at s i k;
  consistent_fresh i : is_Some (tokens s !! i) → (i < next_token s)%nat;
  consistent_value i t v : tokens s !! i = Some t → token_value t = Some v → (token_key t, Some v) ∈ supplied s;
  consistent_owner i t tid : tokens s !! i = Some t →
    token_owner t = Some tid ↔ ∃ th, threads s !! tid = Some th ∧ owns (thread_position th) = Some i;
  consistent_thread tid th i : threads s !! tid = Some th → token_of (thread_position th) = Some i → token_at s i (thread_key th);
  consistent_loaded tid th i h t : threads s !! tid = Some th → thread_position th = Loaded i h → tokens s !! i = Some t →
    (thread_key th, token_value t) ∈ supplied s;
  consistent_result tid th v b : threads s !! tid = Some th → result_of (thread_position th) = Some (Returned v b) →
    (thread_key th, v) ∈ supplied s;
}.

(** Another policy state, which stores nothing that was not supplied. *)
Lemma consistent_set_policy s p :
  consistent s → policy_ok p → (∀ k v, stored p k = Some v → (k, v) ∈ supplied s) → consistent (set_policy p s).
Proof. intros []. by split. Qed.

Lemma consistent_supply s key mapped : consistent s → consistent (supply key mapped s).
Proof. intros []. split; simpl; eauto using list_elem_of_further. Qed.

Lemma consistent_counts s h m :
  consistent s →
  consistent (mk_state (cache_policy s) h m (insert_tokens s) (tokens s) (next_token s) (threads s) (supplied s)).
Proof. intros []. by split. Qed.

Lemma consistent_unregister s m :
  consistent s → (∀ k i, m !! k = Some i → insert_tokens s !! k = Some i) → consistent (set_insert_tokens m s).
Proof. intros [] Hm. split; simpl; eauto. Qed.

Lemma owns_token p i : owns p = Some i → token_of p = Some i.
Proof. by destruct p. Qed.

(** A thread goes on, and its token, if it has one, changes with it. *)
Lemma consistent_move s tid key p p' i t t' :
  consistent s → threads s !! tid = Some (mk_thread key p) → token_of p = Some i → token_of p' = Some i ∨ token_of p' = None →
  tokens s !! i = Some t → token_key t' = token_key t →
  (token_owner t' = if decide (owns p' = Some i) then Some tid
                    else if decide (owns p = Some i) then None else token_owner t) →
  (token_owner t = None ∨ owns p = Some i ∨ owns p' = None) →
  (∀ v, token_value t' = Some v → (key, Some v) ∈ supplied s) →
  (∀ h, p' = Loaded i h → (key, token_value t') ∈ supplied s) →
  (∀ tid' th h, tid' ≠ tid → threads s !! tid' = Some th → thread_position th = Loaded i h → token_value t' = token_value t) →
  (∀ v b, result_of p' = Some (Returned v b) → (key, v) ∈ supplied s) →
  consistent (set_thread tid (mk_thread key p') (set_token i t' s)).
Proof.
  intros Hc Hth Htok Htok' Ht Hk Howner Hexcl Hval Hloaded Hothers Hres. pose proof Hc as [C1 C2 C3 C4 C5 C6 C7 C8 C9].
  assert (token_key t = key) as Htk by (destruct (C7 _ _ _ Hth Htok) as (t0 & ? & ?); by simplify_eq/=).
  assert (∀ j k, token_at s j k → token_at (set_thread tid (mk_thread key p') (set_token i t' s)) j k) as Hat.
  { intros j k (t0 & Hj & Hk0). unfold token_at. simpl. destruct (decide (i = j)) as [->|].
    - rewrite lookup_insert_eq. exists t'. split; [done|]. congruence.
    - rewrite lookup_insert_ne by done. eauto. }
  split; simpl; try done.
  - intros k j Hj%C3. by apply Hat.
  - intros j. destruct (decide (i = j)) as [->|].
    + intros _. apply C4. by eexists.
    + rewrite lookup_insert_ne by done. apply C4.
  - intros j t0 v Hj Hv. apply lookup_insert_Some in Hj as [[<- <-]|[Hne Hj]]; [|eauto]. rewrite Hk, Htk. eauto.
  - intros j t0 tid0 Hj. pose proof (C6 i t tid Ht) as Hme. assert (token_owner t = Some tid ↔ owns p = Some i) as Hown.
    { rewrite Hme. split; [intros (th & ? & ?); by simplify_eq|]. intros. by exists (mk_thread key p). }
    clear Hme. destruct (decide (tid0 = tid)) as [->|Hne].
    + assert (∀ j, (∃ th, <[tid := mk_thread key p']> (threads s) !! tid = Some th ∧ owns (thread_position th) = Some j) ↔ owns p' = Some j) as ->.
      { intros k. rewrite lookup_insert_eq. split; [intros (th & ? & ?); by simplify_eq|]. intros. by eexists. }
      apply lookup_insert_Some in Hj as [[<- <-]|[Hne' Hj]].
      * rewrite Howner. repeat case_decide; naive_solver.
      * rewrite (C6 j t0 tid Hj), Hth. split.
        -- intros (th & ? & Hown'%owns_token). by simplify_eq/=.
        -- intros Hown'%owns_token. destruct Htok'; congruence.
    + rewrite lookup_insert_ne by done. apply lookup_insert_Some in Hj as [[<- <-]|[Hne' Hj]]; [|by apply C6].
      rewrite <- (C6 i t tid0 Ht), Howner. repeat case_decide; naive_solver.
  - intros tid0 th j Hth0 Hj. apply lookup_insert_Some in Hth0 as [[<- <-]|[Hne Hth0]]; [|by apply Hat, (C7 tid0 th)].
    simpl in *. apply Hat. destruct Htok' as [Htok'|Htok']; [|congruence]. simplify_eq. exists t. auto.
  - intros tid0 th j h t0 Hth0 Hp Hj. apply lookup_insert_Some in Hth0 as [[<- <-]|[Hne Hth0]]; simpl in *.
    + subst p'. simpl in *. destruct Htok' as [Htok'|]; [|done]. simplify_eq. rewrite lookup_insert_eq in Hj. simplify_eq. by eapply Hloaded.
    + apply lookup_insert_Some in Hj as [[<- <-]|[Hne' Hj]]; [|eauto]. rewrite (Hothers tid0 th h) by done. eauto.
  - intros tid0 th v b Hth0 Hr. apply lookup_insert_Some in Hth0 as [[<- <-]|[Hne Hth0]]; simpl in *; eauto.
Qed.

(** A thread that holds no mutex goes on, or begins, without one. *)
Lemma consistent_set_thread s tid key p' :
  consistent s → (∀ th, threads s !! tid = Some th → owns (thread_position th) = None) → owns p' = None →
  (∀ i, token_of p' = Some i → token_at s i key) →
  (∀ v b, result_of p' = Some (Returned v b) → (key, v) ∈ supplied s) →
  consistent (set_thread tid (mk_thread key p') s).
Proof.
  intros [C1 C2 C3 C4 C5 C6 C7 C8 C9] Hth Hown Htok Hres. split; simpl; try done.
  - intros i t tid0 Hi. rewrite (C6 i t tid0 Hi). destruct (decide (tid0 = tid)) as [->|Hne].
    + rewrite lookup_insert_eq. split; [intros (th & ?%Hth & ?); congruence|]. intros (th & ? & ?). by simplify_eq/=.
    + by rewrite lookup_insert_ne.
  - intros tid0 th i [[<- <-]|[Hne Hth0]]%lookup_insert_Some Hi; [by apply Htok|]. by apply (C7 tid0 th).
  - intros tid0 th i h t [[<- <-]|[Hne Hth0]]%lookup_insert_Some Hp Hi; [|eauto]. simpl in Hp. by subst p'.
  - intros tid0 th v b [[<- <-]|[Hne Hth0]]%lookup_insert_Some Hr; simpl in *; eauto.
Qed.

(** The reference count and the flag of a token are of no importance here. *)
Lemma consistent_set_token s i t t' :
  consistent s → tokens s !! i = Some t → token_key t' = token_key t → token_owner t' = token_owner t →
  token_value t' = token_value t → consistent (set_token i t' s).
Proof.
  intros [C1 C2 C3 C4 C5 C6 C7 C8 C9] Hi Hk Ho Hv.
  assert (∀ j k, token_at s j k → token_at (set_token i t' s) j k) as Hat.
  { intros j k (t0 & Hj & Hk0). unfold token_at. simpl. destruct (decide (i = j)) as [->|].
    - rewrite lookup_insert_eq. exists t'. split; [done|]. congruence.
    - rewrite lookup_insert_ne by done. eauto. }
  split; simpl; try done; eauto.
  - intros j. destruct (decide (i = j)) as [->|].
    + intros _. apply C4. by eexists.
    + rewrite lookup_insert_ne by done. apply C4.
  - intros j t0 v [[<- <-]|[Hne Hj]]%lookup_insert_Some; [|by apply (C5 j)]. rewrite Hk, Hv. by apply (C5 i).
  - intros j t0 tid0 [[<- <-]|[Hne Hj]]%lookup_insert_Some; [|by apply C6]. rewrite Ho. by apply C6.
  - intros tid0 th j h t0 Hth Hp [[<- <-]|[Hne Hj]]%lookup_insert_Some; [|eauto]. rewrite Hv. eauto.
Qed.

Lemma obtain_consistent key s :
  consistent s → let '(i, s') := obtain key s in
  consistent s' ∧ token_at s' i key ∧ threads s' = threads s ∧ supplied s' = supplied s.
Proof.
  intros Hc. unfold obtain. destruct (insert_tokens s !! key) as [i|] eqn:Hi.
  { split_and!; try done. by apply (consistent_registered s). }
  destruct Hc as [C1 C2 C3 C4 C5 C6 C7 C8 C9]. set (i := next_token s) in *.
  assert (tokens s !! i = None) as Hnew.
  { apply eq_None_not_Some. intros Hs%C4. unfold i in Hs. lia. }
  set (t := mk_token key None false None 0).
  assert (∀ j k, token_at s j k → ∃ t0, <[i := t]> (tokens s) !! j = Some t0 ∧ token_key t0 = k) as Hat.
  { intros j k (t0 & Hj & Hk). exists t0. by rewrite lookup_insert_ne by congruence. }
  split_and!; try done; [|unfold token_at; simpl; rewrite lookup_insert_eq; by eexists]. split; simpl; try done.
  - intros k j [[<- <-]|[Hne Hj]]%lookup_insert_Some; [unfold token_at; simpl; rewrite lookup_insert_eq; by eexists|].
    by apply Hat, C3.
  - intros j [<-|[Hne Hj]]%lookup_insert_is_Some; [lia|]. specialize (C4 j Hj). lia.
  - intros j t0 v [[<- <-]|[Hne Hj]]%lookup_insert_Some; [done|]. by apply (C5 j).
  - intros j t0 tid [[<- <-]|[Hne Hj]]%lookup_insert_Some; [|by apply C6]. split; [done|].
    intros (th & Hth & Ho%owns_token). destruct (C7 tid th i Hth Ho) as (t1 & ? & _). congruence.
  - intros tid th j Hth Hj. by apply Hat, (C7 tid th).
  - intros tid th j h t0 Hth Hp [[<- <-]|[Hne Hj]]%lookup_insert_Some; [|eauto].
    destruct (C7 tid th i Hth) as (t1 & ? & _); [by rewrite Hp|]. congruence.
Qed.

(** [m] is defined, and the state that it leads to, if any, satisfies [Q]. *)
Definition leads (m : outcome (option State)) (Q : State → Prop) : Prop :=
  ∃ o, m = Ret o ∧ ∀ s', o = Some s' → Q s'.

Lemma leads_some s (Q : State → Prop) : Q s → leads (Ret (Some s)) Q.
Proof. intros HQ. eexists. split; [done|]. intros s' [= <-]. done. Qed.

Lemma leads_none (Q : State → Prop) : leads (Ret None) Q.
Proof. by eexists. Qed.

Lemma set_token_set_token s i t t' : set_token i t (set_token i t' s) = set_token i t s.
Proof. unfold set_token. simpl. by rewrite insert_insert_eq. Qed.

Section steps.
Context (tid : nat) (key : Key) (s : State) (Hc : consistent s).

Lemma enter_consistent load :
  threads s !! tid = Some (mk_thread key Entering) → leads (step tid load s) consistent.
Proof.
  intros Hth. unfold step. rewrite Hth. simpl. pose proof Hc as [C1 C2 C3 C4 C5 C6 C7 C8 C9].
  destruct (get_law (cache_policy s) key C1) as ([val p] & -> & Hok & Hval & Hst). simpl.
  assert (consistent (set_policy p s)) as Hp.
  { apply consistent_set_policy; [done..|]. intros k v. rewrite Hst. apply C2. }
  destruct val as [v|]; apply leads_some || destruct (obtain _ _) as [i s1] eqn:Ho; [|apply leads_some].
  - apply consistent_set_thread; [by apply consistent_counts| |done..|].
    + intros th Hth'. simpl in Hth'. by simplify_eq.
    + intros v' b [= <- <-]. simpl. destruct (stored (cache_policy s) key) eqn:Hs; simpl in Hval; simplify_eq. by apply C2.
  - pose proof (obtain_consistent key _ Hp) as Hob. rewrite Ho in Hob. destruct Hob as (Hc1 & (t & Ht & Hk) & Hthreads & Hsup).
    unfold acquire. rewrite Ht. apply consistent_set_thread; [by eapply consistent_set_token| |done| |done].
    + simpl. rewrite Hthreads. intros th Hth'. simpl in Hth'. by simplify_eq.
    + intros j [= <-]. unfold token_at. simpl. rewrite lookup_insert_eq. by eexists.
Qed.

Lemma acquired_consistent load i :
  threads s !! tid = Some (mk_thread key (Acquired i)) → leads (step tid load s) consistent.
Proof.
  intros Hth. unfold step. rewrite Hth. simpl. pose proof Hc as [C1 C2 C3 C4 C5 C6 C7 C8 C9].
  destruct (C7 _ _ _ Hth eq_refl) as (t & Ht & Hk). simpl in Hk. rewrite Ht.
  destruct (token_owner t) as [owner|] eqn:Ho; [apply leads_none|].
  destruct (token_value t) as [v|] eqn:Hv; apply leads_some.
  - apply consistent_set_thread; [by apply consistent_counts| |done| |].
    + intros th Hth'. simpl in Hth'. by simplify_eq.
    + intros j [= <-]. by exists t.
    + intros v' b [= <- <-]. simpl. rewrite <- Hk. by apply (C5 i).
  - apply (consistent_move _ _ _ (Acquired i) _ i t); simpl; auto; try done.
    + by rewrite decide_True.
    + by rewrite Hv.
Qed.

Lemma owned_token p i :
  threads s !! tid = Some (mk_thread key p) → owns p = Some i →
  ∃ t, tokens s !! i = Some t ∧ token_key t = key ∧ token_owner t = Some tid ∧
    ∀ tid' th h, tid' ≠ tid → threads s !! tid' = Some th → thread_position th ≠ Loaded i h.
Proof.
  intros Hth Hown. destruct (consistent_thread _ Hc _ _ i Hth) as (t & Ht & Hk); [by apply owns_token|].
  assert (token_owner t = Some tid) as Ho by (apply (consistent_owner _ Hc i t tid Ht); by eexists).
  exists t. split_and!; try done. intros tid' th h Hne Hth' Hp.
  assert (token_owner t = Some tid'); [|congruence]. apply (consistent_owner _ Hc i t tid' Ht). exists th. by rewrite Hp.
Qed.

Lemma loading_consistent load i h :
  threads s !! tid = Some (mk_thread key (Loading i h)) → leads (step tid load s) consistent.
Proof.
  intros Hth. unfold step. rewrite Hth. simpl. destruct (owned_token _ i Hth eq_refl) as (t & Ht & Hk & Ho & Hex). rewrite Ht.
  destruct load as [value|]; apply leads_some.
  - apply (consistent_move _ _ _ (Loading i h) _ i t); simpl; auto; try done.
    + by apply consistent_supply.
    + by rewrite decide_True.
    + intros v ->. by left.
    + by left.
    + intros tid' th h' ? ? ?. by destruct (Hex tid' th h').
  - apply (consistent_move _ _ _ (Loading i h) _ i t); simpl; auto; try done.
    + by rewrite decide_True.
    + intros v Hv. rewrite <- Hk. by apply (consistent_value _ Hc i).
Qed.

(** A thread releases the mutex of its token. *)
Lemma release_consistent s' p i t t' r :
  consistent s' → threads s' = threads s → tokens s' = tokens s → supplied s' = supplied s →
  threads s !! tid = Some (mk_thread key p) → owns p = Some i → tokens s !! i = Some t →
  owns r = None → (token_of r = Some i ∨ token_of r = None) →
  token_key t' = token_key t → token_owner t' = None → token_value t' = token_value t →
  (∀ v b, result_of r = Some (Returned v b) → (key, v) ∈ supplied s) →
  consistent (set_thread tid (mk_thread key r) (set_token i t' s')).
Proof.
  intros Hc' Hths Htoks Hsup Hth Hown Ht Hr Htok Hk Ho Hv Hres.
  destruct (owned_token _ i Hth Hown) as (t0 & Ht0 & Hk0 & Ho0 & Hex). simplify_eq.
  apply (consistent_move _ _ _ p _ i t); rewrite ?Hths, ?Htoks, ?Hsup; try done; auto using owns_token.
  - rewrite Hr, Hown, decide_False, decide_True by done. done.
  - intros v Hv'. apply (consistent_value _ Hc i t v Ht). congruence.
  - intros h ->. done.
Qed.

Lemma loaded_consistent load i h :
  threads s !! tid = Some (mk_thread key (Loaded i h)) → leads (step tid load s) consistent.
Proof.
  intros Hth. unfold step. rewrite Hth. simpl. destruct (owned_token _ i Hth eq_refl) as (t & Ht & Hk & Ho & Hex). rewrite Ht.
  pose proof (consistent_loaded _ Hc _ _ i h t Hth eq_refl Ht) as Hsup. simpl in Hsup.
  assert (∃ p, (if bool_decide (insert_tokens s !! key = Some i)
      then p ← policy_set P key (token_value t) (cache_policy s); Ret (set_policy p s) else Ret s) = Ret (set_policy p s) ∧
    consistent (set_policy p s)) as (p & -> & Hp).
  { case_bool_decide; [|exists (cache_policy s); by destruct s].
    destruct (set_law (cache_policy s) key (token_value t) (consistent_policy _ Hc)) as (p & -> & Hok & Hst & Hst').
    exists p. split; [done|]. apply consistent_set_policy; [done..|]. intros k v Hkv. destruct (decide (k = key)) as [->|Hne].
    - destruct Hst; congruence.
    - apply (consistent_stored _ Hc). destruct (Hst' k Hne); congruence. }
  rewrite bind_Ret. destruct (cleaned_up t); apply leads_some.
  - eapply (release_consistent _ (Loaded i h) i t); try done; [by left|]. by intros v b [= <- <-].
  - eapply (release_consistent _ (Loaded i h) i t); try done; [|by left|by intros v b [= <- <-]].
    apply consistent_unregister; [done|]. intros k j. simpl. by intros [_ ?]%lookup_delete_Some.
Qed.

Lemma leaving_consistent load i h r :
  threads s !! tid = Some (mk_thread key (Leaving i h r)) → leads (step tid load s) consistent.
Proof.
  intros Hth. unfold step. rewrite Hth. simpl.
  assert (consistent (set_thread tid (mk_thread key (Finished r)) s)) as Hfin.
  { apply consistent_set_thread; try done; [intros th ?; by simplify_eq|]. intros v b Hr. by apply (consistent_result _ Hc _ _ v b Hth). }
  destruct h; [by apply leads_some|]. destruct (consistent_thread _ Hc _ _ i Hth eq_refl) as (t & Ht & Hk). rewrite Ht.
  destruct (token_owner t) eqn:Ho; [apply leads_none|]. destruct (cleaned_up t); apply leads_some; [done|].
  apply (consistent_move _ _ _ (Leaving i false r) _ i t); simpl; auto; try done.
  - by rewrite decide_True.
  - intros v Hv. simpl in Hk. rewrite <- Hk. by apply (consistent_value _ Hc i).
  - intros v b Hr. by apply (consistent_result _ Hc _ _ v b Hth).
Qed.

Lemma unlinking_consistent load i r :
  threads s !! tid = Some (mk_thread key (Unlinking i r)) → leads (step tid load s) consistent.
Proof.
  intros Hth. unfold step. rewrite Hth. simpl. destruct (owned_token _ i Hth eq_refl) as (t & Ht & Hk & Ho & Hex). rewrite Ht.
  apply leads_some. assert (∀ v b, result_of (Finished r) = Some (Returned v b) → (key, v) ∈ supplied s) as Hres.
  { intros v b Hr. by apply (consistent_result _ Hc _ _ v b Hth). }
  case_match; eapply (release_consistent _ (Unlinking i r) i t); try done; auto.
  apply consistent_unregister; [done|]. intros k j. simpl. by intros [_ ?]%lookup_delete_Some.
Qed.
End steps.

Lemma step_consistent tid load s : consistent s → leads (step tid load s) consistent.
Proof.
  intros Hc. destruct (threads s !! tid) as [[key p]|] eqn:Hth.
  - destruct p; [by eapply enter_consistent|by eapply acquired_consistent|by eapply loading_consistent|
      by eapply loaded_consistent|by eapply leaving_consistent|by eapply unlinking_consistent|].
    unfold step. rewrite Hth. apply leads_none.
  - unfold step. rewrite Hth. apply leads_none.
Qed.

Lemma part_supplied s p :
  consistent s → (∀ k, stored p k = None ∨ stored p k = stored (cache_policy s) k) →
  ∀ k v, stored p k = Some v → (k, v) ∈ supplied s.
Proof. intros Hc Hp k v Hv. apply (consistent_stored _ Hc). destruct (Hp k); congruence. Qed.

Lemma call_consistent o s : consistent s → acceptable (Call o) s → leads (perform (Call o) s) consistent.
Proof.
  intros Hc Ha. pose proof (consistent_policy _ Hc) as Hok. destruct o as [n|n| |key|predicate|key|key|key mapped]; simpl in Ha |- *.
  - unfold setMaxCount. destruct (setMaxCount_law _ n Hok Ha) as (p & -> & Hp & Hst). apply leads_some.
    apply consistent_set_policy; [done..|]. by apply part_supplied.
  - unfold setMaxSizeInBytes. destruct (setMaxSizeInBytes_law _ n Hok Ha) as (p & -> & Hp & Hst). apply leads_some.
    apply consistent_set_policy; [done..|]. by apply part_supplied.
  - apply leads_some. destruct (clear_law _ Hok) as [Hp Hst]. destruct Hc. split; simpl; try done. intros k v. by rewrite Hst.
  - unfold remove. destruct (remove_law _ key Hok) as (p & -> & Hp & Hst & Hst'). apply leads_some.
    apply consistent_set_policy; [done..|]. apply part_supplied; [done|]. intros k. destruct (decide (k = key)) as [->|]; auto.
  - unfold remove_if. destruct (remove_if_law _ predicate Hok) as (p & -> & Hp & Hst). apply leads_some.
    apply consistent_set_policy; [done..|]. apply part_supplied; [done|]. intros k. rewrite Hst.
    destruct (stored (cache_policy s) k) as [v|]; simpl; [case_match|]; auto.
  - unfold get. destruct (get_law _ key Hok) as ([v p] & -> & Hp & _ & Hst). apply leads_some.
    assert (consistent (set_policy p s)) by (apply consistent_set_policy; [done..|]; apply part_supplied; auto).
    case_match; by apply consistent_counts.
  - unfold getWithKey. destruct (getWithKey_law _ key Hok) as ([v p] & -> & Hp & _ & Hst). apply leads_some.
    assert (consistent (set_policy p s)) by (apply consistent_set_policy; [done..|]; apply part_supplied; auto).
    case_match; by apply consistent_counts.
  - unfold set. destruct (set_law _ key mapped Hok) as (p & -> & Hp & Hst & Hst'). apply leads_some.
    destruct (consistent_supply s key mapped Hc). split; simpl; try done. intros k v Hv.
    destruct (decide (k = key)) as [->|Hne].
    + destruct Hst as [Hst|Hst]; rewrite Hst in Hv; simplify_eq. by left.
    + right. apply (consistent_stored _ Hc). destruct (Hst' k Hne); congruence.
Qed.

Lemma perform_consistent e s : consistent s → acceptable e s → leads (perform e s) consistent.
Proof.
  intros Hc Ha. destruct e as [tid load|tid key|o]; [by apply step_consistent| |by apply call_consistent].
  simpl. unfold start. destruct (threads s !! tid) eqn:Hth; [apply leads_none|]. case_match; [|apply leads_none].
  apply leads_some, consistent_set_thread; try done. intros th Hth'. congruence.
Qed.

Lemma reachable_consistent allowed s : reachable allowed s → consistent s.
Proof.
  induction 1 as [p Hok Hst|s e s' _ IH _ Ha Hp].
  - split; simpl; try done; try (intros; by simplify_map_eq). intros k v. by rewrite Hst.
  - destruct (perform_consistent e s IH Ha) as (o & Hr & HQ). rewrite Hr in Hp. simplify_eq. by apply HQ.
Qed.

(** C13: In every history of concurrent calls, no matter how the steps of the threads are
    interleaved, no step is undefined and what [getOrSet] returns for a key is a value that
    was set for this key or that [load_func] returned for it. *)
Theorem getOrSet_values_genuine (s : State) tid th value produced :
  reachable (λ _, True) s →
  (∀ e, acceptable e s → defined (perform e s)) ∧
  (threads s !! tid = Some th → thread_position th = Finished (Returned value produced) →
   (thread_key th, value) ∈ supplied s).
Proof.
  intros Hs%reachable_consistent. split.
  - intros e Ha. destruct (perform_consistent e s Hs Ha) as (o & -> & _). done.
  - intros Hth Hp. apply (consistent_result _ Hs tid th value produced Hth). by rewrite Hp.
Qed.

(** * Every call ends *)

Definition finished (p : position) : bool := match p with Finished _ => true | _ => false end.

Definition all_finished (s : State) : Prop := ∀ tid th, threads s !! tid = Some th → finished (thread_position th) = true.

(** The number of steps that are left, at most. *)
Definition rank (p : position) : Z :=
  match p with
  | Entering => 6
  | Acquired _ => 5
  | Loading _ _ => 4
  | Loaded _ _ => 3
  | Leaving _ _ _ => 2
  | Unlinking _ _ => 1
  | Finished _ => 0
  end.

Definition steps_left (s : State) : Z := sum_map (λ th, rank (thread_position th)) (threads s).

Lemma obtain_threads key s : threads (obtain key s).2 = threads s.
Proof. unfold obtain. by destruct (insert_tokens s !! key). Qed.

Lemma acquire_threads i s : threads (acquire i s) = threads s.
Proof. unfold acquire. by destruct (tokens s !! i). Qed.

(** A step moves its thread forward and no other one. *)
Lemma step_moves tid load s s' :
  step tid load s = Ret (Some s') →
  ∃ key p p', threads s !! tid = Some (mk_thread key p) ∧ threads s' = <[tid := mk_thread key p']> (threads s) ∧ rank p' < rank p.
Proof.
  unfold step. destruct (threads s !! tid) as [[key p]|]; [|done]. simpl. intros Hr. exists key, p.
  destruct p as [|i|i h|i h|i h r|i r|r]; simpl in Hr.
  - apply bind_Ret_inv in Hr as ([val q] & _ & Hr). destruct val; [|destruct (obtain _ _) as [i s1] eqn:Ho]; simplify_eq; eexists.
    + split; [done|]. split; [done|]. done.
    + split; [done|]. simpl. rewrite acquire_threads. pose proof (obtain_threads key (set_policy q s)) as Ht. rewrite Ho in Ht.
      simpl in Ht. rewrite Ht. done.
  - destruct (tokens s !! i) as [t|]; [|done]. destruct (token_owner t); [done|]. destruct (token_value t); simplify_eq; by eexists.
  - destruct (tokens s !! i) as [t|]; [|done]. destruct load; simplify_eq; by eexists.
  - destruct (tokens s !! i) as [t|]; [|done]. apply bind_Ret_inv in Hr as (s1 & Hs1 & Hr).
    assert (threads s1 = threads s) as Ht.
    { case_bool_decide; [apply bind_Ret_inv in Hs1 as (q & _ & Hs1)|]; by simplify_eq. }
    destruct (cleaned_up t); simplify_eq; simpl; rewrite Ht; by eexists.
  - destruct h; [simplify_eq; by eexists|]. destruct (tokens s !! i) as [t|]; [|done]. destruct (token_owner t); [done|].
    destruct (cleaned_up t); simplify_eq; by eexists.
  - destruct (tokens s !! i) as [t|]; [|done]. case_match; simplify_eq; by eexists.
  - done.
Qed.

Lemma step_decreases tid load s s' : step tid load s = Ret (Some s') → steps_left s' < steps_left s ∧ size (threads s') = size (threads s).
Proof.
  intros (key & p & p' & Hth & Hths & Hrank)%step_moves. unfold steps_left. rewrite Hths.
  rewrite (sum_map_update _ _ _ _ _ Hth). simpl. split; [lia|]. rewrite map_size_insert. by rewrite Hth.
Qed.

Lemma steps_left_range s : 0 ≤ steps_left s ≤ 6 * Z.of_nat (size (threads s)).
Proof.
  unfold steps_left. split; [apply sum_map_nonneg; intros [key p]; simpl; destruct p; simpl; lia|].
  rewrite <- (sum_map_one (threads s)). induction (threads s) as [|tid th m Hm IH] using map_ind; [done|].
  rewrite !sum_map_insert by done. destruct th as [key []]; simpl; lia.
Qed.

(** A thread that is not waiting for a mutex can make a step. *)
Lemma runs_unless_waiting s tid key p load :
  consistent s → threads s !! tid = Some (mk_thread key p) → finished p = false →
  (∀ i t, token_of p = Some i → owns p = None → tokens s !! i = Some t → token_owner t = None) →
  ∃ s', step tid load s = Ret (Some s').
Proof.
  intros Hc Hth Hf Hwait. destruct (step_consistent tid load s Hc) as (o & Hr & _). destruct o as [s'|]; [eauto|]. exfalso.
  unfold step in Hr. rewrite Hth in Hr. destruct p as [|i|i h|i h|i h r|i r|r]; simpl in Hr, Hf; try done.
  - apply bind_Ret_inv in Hr as ([val q] & _ & Hr). destruct val; [done|]. by destruct (obtain _ _).
  - destruct (tokens s !! i) as [t|] eqn:Ht; [|done]. rewrite (Hwait i t eq_refl eq_refl Ht) in Hr. by destruct (token_value t).
  - destruct (tokens s !! i) as [t|]; [|done]. by destruct load.
  - destruct (tokens s !! i) as [t|]; [|done]. apply bind_Ret_inv in Hr as (s1 & _ & Hr). by destruct (cleaned_up t).
  - destruct h; [done|]. destruct (tokens s !! i) as [t|] eqn:Ht; [|done]. rewrite (Hwait i t eq_refl eq_refl Ht) in Hr.
    by destruct (cleaned_up t).
  - by destruct (tokens s !! i) as [t|].
Qed.

(** Threads cannot wait for each other. *)
Lemma progress s :
  consistent s → ¬ all_finished s → ∃ tid, ∀ load, ∃ s', step tid load s = Ret (Some s').
Proof.
  intros Hc Hnot. assert (∃ tid key p, threads s !! tid = Some (mk_thread key p) ∧ finished p = false) as (tid & key & p & Hth & Hf).
  { destruct (decide (map_Forall (λ _ th, finished (thread_position th) = true) (threads s))) as [Hall|Hex]; [done|].
    apply map_not_Forall in Hex as (tid & [key p] & Hth & Hf); [|apply _]. exists tid, key, p. split; [done|].
    simpl in Hf. by destruct (finished p). }
  assert (∀ tid key p, threads s !! tid = Some (mk_thread key p) → finished p = false →
    (∀ i t, token_of p = Some i → owns p = None → tokens s !! i = Some t → token_owner t = None) →
    ∃ tid, ∀ load, ∃ s', step tid load s = Ret (Some s')) as Hrun.
  { intros tid0 key0 p0 ? ? ?. exists tid0. intros load. by eapply runs_unless_waiting. }
  destruct (token_of p) as [i|] eqn:Hi; [|eapply Hrun; [done..|congruence]].
  destruct (consistent_thread _ Hc _ _ i Hth Hi) as (t & Ht & _). destruct (token_owner t) as [tid'|] eqn:Ho.
  - apply (consistent_owner _ Hc i t tid' Ht) in Ho as ([key' p'] & Hth' & Hown). simpl in Hown.
    apply (Hrun tid' key' p' Hth'); [by destruct p'|]. congruence.
  - apply (Hrun tid key p Hth Hf). intros j t' Hj _ Ht'. congruence.
Qed.

(** [n] steps of threads, of whatever threads can make them. *)
Inductive steps : nat → State → State → Prop :=
  | steps_done s : steps 0 s s
  | steps_step n tid load s s' s'' : step tid load s = Ret (Some s') → steps n s' s'' → steps (S n) s s''.

Lemma steps_bounded n s s' : steps n s s' → Z.of_nat n + steps_left s' ≤ steps_left s.
Proof. induction 1 as [|n tid load s s' s'' [Hd _]%step_decreases _ IH]; lia. Qed.

Lemma steps_consistent n s s' : steps n s s' → consistent s → consistent s'.
Proof.
  induction 1 as [|n tid load s s' s'' Hr _ IH]; [done|]. intros Hc. apply IH.
  destruct (step_consistent tid load s Hc) as (o & Hr' & HQ). rewrite Hr in Hr'. simplify_eq. by apply HQ.
Qed.

Lemma steps_finish (load : nat → loading) : ∀ (bound : nat) s,
  consistent s → steps_left s ≤ Z.of_nat bound → ∃ n s', steps n s s' ∧ all_finished s'.
Proof.
  induction bound as [|bound IH]; intros s Hc Hb.
  - exists 0%nat, s. split; [constructor|]. intros tid [key p] Hth. destruct (finished p) eqn:Hf; [done|exfalso].
    destruct (progress s Hc) as (tid' & Hrun); [intros Hall; specialize (Hall tid _ Hth); simpl in Hall; congruence|].
    destruct (Hrun (load 0%nat)) as (s' & [Hd _]%step_decreases). pose proof (steps_left_range s'). lia.
  - destruct (decide (map_Forall (λ _ th, finished (thread_position th) = true) (threads s))) as [Hall|Hex].
    { exists 0%nat, s. split; [constructor|]. intros tid th. apply Hall. }
    destruct (progress s Hc) as (tid & Hrun); [done|]. destruct (Hrun (load tid)) as (s1 & Hr).
    pose proof (step_decreases _ _ _ _ Hr) as [Hd _].
    destruct (IH s1) as (n & s' & Hsteps & Hfin); [|lia|].
    + eapply (steps_consistent 1); [|exact Hc]. econstructor; [done|constructor].
    + exists (S n), s'. split; [by econstructor|done].
Qed.

(** C14: In every history, the calls of [getOrSet] that are under way end if their [load_func]
    do: as long as one has not finished, some thread can make a step whatever its [load_func]
    does, so that no threads wait for each other; and no schedule consists of more than six
    steps for each thread. *)
Theorem getOrSet_completes (s : State) :
  reachable (λ _, True) s →
  (∀ n s', steps n s s' → Z.of_nat n ≤ 6 * Z.of_nat (size (threads s))) ∧
  (∀ n s', steps n s s' → ¬ all_finished s' → ∃ tid, ∀ load, ∃ s'', step tid load s' = Ret (Some s'')) ∧
  ∃ n s', steps n s s' ∧ all_finished s'.
Proof.
  intros Hs%reachable_consistent. split_and!.
  - intros n s' Hn%steps_bounded. pose proof (steps_left_range s). pose proof (steps_left_range s'). lia.
  - intros n s' Hn Hnot. apply progress; [|done]. by eapply steps_consistent.
  - apply (steps_finish (λ _, LoadThrow) (Z.to_nat (steps_left s)) s Hs). pose proof (steps_left_range s). lia.
Qed.

(** * One thread loads *)

(** Events of histories in which the cache is not cleared and no [load_func] returns a null
    pointer. *)
Definition orderly (e : event) : Prop :=
  match e with
  | Call Clear => False
  | Run _ (LoadValue None) => False
  | _ => True
  end.

(** The thread counts as a holder of the token [i]. *)
Definition holds (i : nat) (p : position) : bool :=
  match p with
  | Acquired j | Loading j _ | Loaded j _ | Leaving j false _ | Unlinking j _ => bool_decide (j = i)
  | _ => false
  end.

Definition one (b : bool) : Z := if b then 1 else 0.

Definition holders (i : nat) (s : State) : Z := sum_map (λ th, one (holds i (thread_position th))) (threads s).

Record exclusive (s : State) : Prop := {
  exclusive_live i t : tokens s !! i = Some t → cleaned_up t = false →
    insert_tokens s !! token_key t = Some i ∧ refcount t = holders i s;
  exclusive_registered k i t : insert_tokens s !! k = Some i → tokens s !! i = Some t → cleaned_up t = false;
  exclusive_dead i t : tokens s !! i = Some t → cleaned_up t = true → token_value t = None → holders i s = 0;
  exclusive_value i t : tokens s !! i = Some t → cleaned_up t = false → token_value t ≠ None →
    ∃ tid th h, threads s !! tid = Some th ∧ thread_position th = Loaded i h;
  exclusive_loading tid th i h t : threads s !! tid = Some th → thread_position th = Loading i h → tokens s !! i = Some t →
    h = false ∧ token_value t = None;
  exclusive_loaded tid th i h t : threads s !! tid = Some th → thread_position th = Loaded i h → tokens s !! i = Some t →
    h = false ∧ cleaned_up t = false ∧ token_value t ≠ None;
  exclusive_unlinking tid th i r t : threads s !! tid = Some th → thread_position th = Unlinking i r → tokens s !! i = Some t →
    cleaned_up t = false;
  exclusive_threads : Z.of_nat (size (threads s)) < 2 ^ 64;
}.

Lemma exclusive_ext s s' :
  exclusive s → insert_tokens s' = insert_tokens s → tokens s' = tokens s → threads s' = threads s → exclusive s'.
Proof.
  intros [] H1 H2 H3. assert (∀ i, holders i s' = holders i s) as Hh by (intros i; unfold holders; by rewrite H3).
  split; intros *; rewrite ?H1, ?H2, ?H3, ?Hh; eauto.
Qed.

Lemma holders_update s tid key p p' j :
  threads s !! tid = Some (mk_thread key p) →
  holders j (set_thread tid (mk_thread key p') s) = holders j s - one (holds j p) + one (holds j p').
Proof. intros Hth. unfold holders. simpl. by rewrite (sum_map_update _ _ _ _ _ Hth). Qed.

Lemma one_range b : 0 ≤ one b ≤ 1.
Proof. destruct b; simpl; lia. Qed.

Lemma holders_range s i : 0 ≤ holders i s ≤ Z.of_nat (size (threads s)).
Proof.
  unfold holders. rewrite <- sum_map_one. split; [apply sum_map_nonneg|apply sum_map_le]; intros th; apply one_range.
Qed.

(** A holder is counted. *)
Lemma holder_counted s tid key p i : threads s !! tid = Some (mk_thread key p) → holds i p = true → 1 ≤ holders i s.
Proof.
  intros Hth Hh. unfold holders. rewrite (sum_map_delete _ _ _ _ Hth). simpl. rewrite Hh. simpl.
  pose proof (sum_map_nonneg (λ th, one (holds i (thread_position th))) (delete tid (threads s)) (λ th, proj1 (one_range _))). lia.
Qed.

(** A thread goes on together with its token, which may be cleaned up with it. *)
Lemma exclusive_move s s' tid key p p' i t t' :
  consistent s → exclusive s →
  threads s !! tid = Some (mk_thread key p) → tokens s !! i = Some t → token_key t = key → token_key t' = key →
  threads s' = <[tid := mk_thread key p']> (threads s) → tokens s' = <[i := t']> (tokens s) →
  (∀ j, j ≠ i → holds j p = false ∧ holds j p' = false) → (token_of p' = Some i ∨ token_of p' = None) →
  (insert_tokens s' = insert_tokens s ∧ cleaned_up t' = cleaned_up t ∨
   insert_tokens s' = delete key (insert_tokens s) ∧ cleaned_up t = false ∧ cleaned_up t' = true) →
  (let n := holders i s - one (holds i p) + one (holds i p') in
   if cleaned_up t' then token_value t' = None → n = 0 else refcount t' = n) →
  (cleaned_up t' = false → token_value t' ≠ None →
   (∃ h, p' = Loaded i h) ∨ token_value t = token_value t' ∧ ∀ h, p ≠ Loaded i h) →
  (∀ h, p' = Loading i h → h = false ∧ token_value t' = None) →
  (∀ h, p' = Loaded i h → h = false ∧ cleaned_up t' = false ∧ token_value t' ≠ None) →
  (∀ r, p' = Unlinking i r → cleaned_up t' = false) →
  (token_value t' = token_value t ∧ cleaned_up t' = cleaned_up t ∨
   ∀ tid' th, tid' ≠ tid → threads s !! tid' = Some th → owns (thread_position th) ≠ Some i) →
  exclusive s'.
Proof.
  intros Hc He Hth Ht Hk Hk' Hths Htoks Hj Htok Hreg Hcount Hval Hloading Hloaded Hunlinking Hothers.
  assert (∀ j, holders j s' = holders j s - one (holds j p) + one (holds j p')) as Hh.
  { intros j. rewrite <- (holders_update s tid key p p' j Hth). unfold holders. by rewrite Hths. }
  assert (∀ j, j ≠ i → holders j s' = holders j s) as Hhj.
  { intros j [H1 H2]%Hj. rewrite Hh, H1, H2. simpl. lia. }
  destruct He as [E1 E2 E3 E4 E5 E6 E7 E8].
  split.
  - intros j t0 Hj0 Hcl. rewrite Htoks in Hj0. apply lookup_insert_Some in Hj0 as [[<- <-]|[Hne Hj0]].
    + rewrite Hcl in Hcount. rewrite Hh. split; [|done]. destruct Hreg as [[-> Heq]|(_ & _ & Hcl')]; [|congruence].
      rewrite Hk', <- Hk. apply (E1 i t Ht). congruence.
    + rewrite Hhj by done. destruct (E1 j t0 Hj0 Hcl) as [Hr Hcnt]. split; [|done]. destruct Hreg as [[-> _]|(-> & Hcl' & _)]; [done|].
      rewrite lookup_delete_ne; [done|]. intros Heq. rewrite <- Heq, <- Hk, (proj1 (E1 i t Ht Hcl')) in Hr. congruence.
  - intros k j t0 Hk0 Hj0. rewrite Htoks in Hj0. apply lookup_insert_Some in Hj0 as [[<- <-]|[Hne Hj0]].
    + destruct Hreg as [[Hm Heq]|(Hm & Hcl & _)]; rewrite Hm in Hk0.
      * rewrite Heq. by eapply E2.
      * apply lookup_delete_Some in Hk0 as [Hkne Hk0]. destruct (consistent_registered _ Hc k i Hk0) as (t0 & ? & ?). congruence.
    + destruct Hreg as [[Hm Heq]|(Hm & Hcl & _)]; rewrite Hm in Hk0; [by eapply E2|].
      apply lookup_delete_Some in Hk0 as [_ Hk0]. by eapply E2.
  - intros j t0 Hj0 Hcl Hv. rewrite Htoks in Hj0. apply lookup_insert_Some in Hj0 as [[<- <-]|[Hne Hj0]].
    + rewrite Hcl in Hcount. rewrite Hh. by apply Hcount.
    + rewrite Hhj by done. by eapply E3.
  - intros j t0 Hj0 Hcl Hv. rewrite Htoks in Hj0. apply lookup_insert_Some in Hj0 as [[<- <-]|[Hne Hj0]].
    + destruct (Hval Hcl Hv) as [[h ->]|[Heq Hp]]; [exists tid; rewrite Hths, lookup_insert_eq; by eexists _, h|].
      assert (cleaned_up t = false) as Hcl' by (destruct Hreg as [[_ ?]|(_ & ? & ?)]; congruence).
      destruct (E4 i t Ht Hcl' ltac:(congruence)) as (tid0 & th & h & Hth0 & Hp0). exists tid0, th, h. split; [|done].
      rewrite Hths, lookup_insert_ne; [done|]. intros <-. simplify_eq/=. by destruct (Hp h).
    + destruct (E4 j t0 Hj0 Hcl Hv) as (tid0 & th & h & Hth0 & Hp0). exists tid0, th, h. split; [|done].
      rewrite Hths, lookup_insert_ne; [done|]. intros <-. simplify_eq/=. destruct (Hj j) as [Hh0 _]; [done|].
      simpl in Hh0. by case_bool_decide.
  - intros tid0 th j h t0 Hth0 Hp Hj0. rewrite Hths in Hth0. rewrite Htoks in Hj0.
    apply lookup_insert_Some in Hth0 as [[<- <-]|[Hne Hth0]]; simpl in *.
    + subst p'. simpl in Htok. destruct Htok as [[= ->]|]; [|done]. rewrite lookup_insert_eq in Hj0. simplify_eq. by apply Hloading.
    + apply lookup_insert_Some in Hj0 as [[<- <-]|[Hne' Hj0]]; [|by eapply E5]. destruct Hothers as [[Hv _]|Hothers].
      * rewrite Hv. by eapply E5.
      * exfalso. apply (Hothers tid0 th); [done..|]. by rewrite Hp.
  - intros tid0 th j h t0 Hth0 Hp Hj0. rewrite Hths in Hth0. rewrite Htoks in Hj0.
    apply lookup_insert_Some in Hth0 as [[<- <-]|[Hne Hth0]]; simpl in *.
    + subst p'. simpl in Htok. destruct Htok as [[= ->]|]; [|done]. rewrite lookup_insert_eq in Hj0. simplify_eq. by apply Hloaded.
    + apply lookup_insert_Some in Hj0 as [[<- <-]|[Hne' Hj0]]; [|by eapply E6]. destruct Hothers as [[Hv1 Hv2]|Hothers].
      * rewrite Hv1, Hv2. by eapply E6.
      * exfalso. apply (Hothers tid0 th); [done..|]. by rewrite Hp.
  - intros tid0 th j r t0 Hth0 Hp Hj0. rewrite Hths in Hth0. rewrite Htoks in Hj0.
    apply lookup_insert_Some in Hth0 as [[<- <-]|[Hne Hth0]]; simpl in *.
    + subst p'. simpl in Htok. destruct Htok as [[= ->]|]; [|done]. rewrite lookup_insert_eq in Hj0. simplify_eq. by eapply Hunlinking.
    + apply lookup_insert_Some in Hj0 as [[<- <-]|[Hne' Hj0]]; [|by eapply E7]. destruct Hothers as [[_ Hv]|Hothers].
      * rewrite Hv. by eapply E7.
      * exfalso. apply (Hothers tid0 th); [done..|]. by rewrite Hp.
  - rewrite Hths, map_size_insert, Hth. done.
Qed.

(** A thread that holds no token goes on, or begins. *)
Lemma exclusive_set_thread s tid key p' :
  exclusive s → (∀ th, threads s !! tid = Some th → ∀ i, holds i (thread_position th) = false) → (∀ i, holds i p' = false) →
  Z.of_nat (size (<[tid := mk_thread key p']> (threads s))) < 2 ^ 64 →
  exclusive (set_thread tid (mk_thread key p') s).
Proof.
  intros [E1 E2 E3 E4 E5 E6 E7 E8] Hold Hnew Hsize.
  assert (∀ i, holders i (set_thread tid (mk_thread key p') s) = holders i s) as Hh.
  { intros i. unfold holders. simpl. destruct (threads s !! tid) as [th|] eqn:Hth.
    - rewrite (sum_map_update _ _ _ _ _ Hth). simpl. rewrite Hnew, (Hold th eq_refl). simpl. lia.
    - rewrite sum_map_insert by done. simpl. rewrite Hnew. done. }
  assert (∀ tid0 th, <[tid := mk_thread key p']> (threads s) !! tid0 = Some th →
    threads s !! tid0 = Some th ∨ ∀ i, holds i (thread_position th) = false) as Hcase.
  { intros tid0 th [[<- <-]|[_ ?]]%lookup_insert_Some; auto. }
  assert (∀ i p, owns p = Some i → holds i p = true) as Hown.
  { intros i p. destruct p; simpl; try done; intros [= ->]; by apply bool_decide_true. }
  split; simpl; try done.
  - intros i t. rewrite Hh. apply E1.
  - intros i t. rewrite Hh. apply E3.
  - intros i t Hi Hcl Hv. destruct (E4 i t Hi Hcl Hv) as (tid0 & th & h & Hth & Hp). exists tid0, th, h. split; [|done].
    rewrite lookup_insert_ne; [done|]. intros <-. pose proof (Hold th Hth i) as Ho. rewrite Hp in Ho. by rewrite Hown in Ho.
  - intros tid0 th i h t [Hth|Hn]%Hcase Hp Ht; [by eapply E5|]. specialize (Hn i). rewrite Hp, Hown in Hn; done.
  - intros tid0 th i h t [Hth|Hn]%Hcase Hp Ht; [by eapply E6|]. specialize (Hn i). rewrite Hp, Hown in Hn; done.
  - intros tid0 th i r t [Hth|Hn]%Hcase Hp Ht; [by eapply E7|]. specialize (Hn i). rewrite Hp, Hown in Hn; done.
Qed.

Lemma obtain_exclusive key s :
  consistent s → exclusive s → let '(i, s') := obtain key s in
  exclusive s' ∧ ∃ t, tokens s' !! i = Some t ∧ token_key t = key ∧ cleaned_up t = false.
Proof.
  intros Hc He. unfold obtain. destruct (insert_tokens s !! key) as [i|] eqn:Hi.
  { split; [done|]. destruct (consistent_registered _ Hc key i Hi) as (t & Ht & Hk). exists t. split_and!; try done.
    by eapply exclusive_registered. }
  set (i := next_token s). set (t := mk_token key None false None 0).
  split; [|exists t; simpl; by rewrite lookup_insert_eq]. destruct He as [E1 E2 E3 E4 E5 E6 E7 E8].
  assert (∀ j t0, tokens s !! j = Some t0 → j ≠ i) as Hfresh.
  { intros j t0 Hj ->. pose proof (consistent_fresh _ Hc i ltac:(by eexists)). unfold i in *. lia. }
  assert (∀ tid th, threads s !! tid = Some th → token_of (thread_position th) ≠ Some i) as Hno.
  { intros tid th Hth Htok. destruct (consistent_thread _ Hc _ _ _ Hth Htok) as (t0 & Ht0 & _). by apply Hfresh in Ht0. }
  match goal with |- exclusive ?s' => set (s1 := s') end. assert (∀ j, holders j s1 = holders j s) as Hh by done.
  assert (holders i s = 0) as Hzero.
  { unfold holders. apply sum_map_zero. intros tid [key0 p] Hth. specialize (Hno tid _ Hth). simpl in *.
    destruct p as [| | | |? []| |]; simpl in *; try done; by rewrite bool_decide_false by congruence. }
  split; simpl; try done.
  - intros j t0 [[<- <-]|[Hne Hj]]%lookup_insert_Some Hcl; rewrite Hh.
    + simpl. rewrite lookup_insert_eq. split; [done|lia].
    + destruct (E1 j t0 Hj Hcl) as [Hr Hn]. rewrite lookup_insert_ne; [done|]. congruence.
  - intros k j t0 [[<- <-]|[Hne Hk]]%lookup_insert_Some Hj.
    + rewrite lookup_insert_eq in Hj. by simplify_eq.
    + destruct (consistent_registered _ Hc k j Hk) as (t1 & Ht1 & _). rewrite lookup_insert_ne in Hj by (symmetry; eauto). by eapply E2.
  - intros j t0 [[<- <-]|[Hne Hj]]%lookup_insert_Some Hcl Hv; [done|]. rewrite Hh. by eapply E3.
  - intros j t0 [[<- <-]|[Hne Hj]]%lookup_insert_Some Hcl Hv; [done|]. by eapply E4.
  - intros tid th j h t0 Hth Hp [[<- <-]|[Hne Hj]]%lookup_insert_Some; [|by eapply E5]. destruct (Hno tid th Hth). by rewrite Hp.
  - intros tid th j h t0 Hth Hp [[<- <-]|[Hne Hj]]%lookup_insert_Some; [|by eapply E6]. destruct (Hno tid th Hth). by rewrite Hp.
  - intros tid th j r t0 Hth Hp [[<- <-]|[Hne Hj]]%lookup_insert_Some; [|by eapply E7]. destruct (Hno tid th Hth). by rewrite Hp.
Qed.

Section exclusive_steps.
Context (tid : nat) (key : Key) (s s' : State) (Hc : consistent s) (He : exclusive s).

Lemma size_same p p' :
  threads s !! tid = Some (mk_thread key p) → Z.of_nat (size (<[tid := mk_thread key p']> (threads s))) < 2 ^ 64.
Proof. intros Hth. rewrite map_size_insert, Hth. apply He. Qed.

Lemma others_own_not p i :
  threads s !! tid = Some (mk_thread key p) → owns p = Some i →
  ∀ tid' th, tid' ≠ tid → threads s !! tid' = Some th → owns (thread_position th) ≠ Some i.
Proof.
  intros Hth Hown tid' th Hne Hth' Ho. destruct (owned_token tid key s Hc p i Hth Hown) as (t & Ht & _ & Hot & _).
  assert (token_owner t = Some tid'); [|congruence]. apply (consistent_owner _ Hc i t tid' Ht). eauto.
Qed.

Lemma enter_exclusive load :
  threads s !! tid = Some (mk_thread key Entering) → step tid load s = Ret (Some s') → exclusive s'.
Proof.
  intros Hth Hr. unfold step in Hr. rewrite Hth in Hr. simpl in Hr. pose proof (consistent_policy _ Hc) as Hok.
  destruct (get_law (cache_policy s) key Hok) as ([val p] & Hget & Hok' & Hval & Hst). rewrite Hget in Hr. simpl in Hr.
  assert (consistent (set_policy p s)) as Hcp.
  { apply consistent_set_policy; [done..|]. intros k v. rewrite Hst. apply (consistent_stored _ Hc). }
  assert (exclusive (set_policy p s)) as Hep by (by apply (exclusive_ext s)).
  destruct val as [v|].
  - simplify_eq. apply exclusive_set_thread; [by apply (exclusive_ext s)| |done|by eapply size_same].
    simpl. intros th Hth'. by simplify_eq.
  - pose proof (obtain_exclusive key _ Hcp Hep) as Hob. pose proof (obtain_consistent key _ Hcp) as Hoc.
    destruct (obtain key (set_policy p s)) as [i s1]. destruct Hob as (He1 & t & Ht & Hk & Hcl).
    destruct Hoc as (Hc1 & _ & Hths & _). simplify_eq. unfold acquire. rewrite Ht.
    assert (threads s1 !! tid = Some (mk_thread (token_key t) Entering)) as Hth1 by (by rewrite Hths).
    destruct (exclusive_live _ He1 i t Ht Hcl) as [_ Hn]. pose proof (holders_range s1 i) as Hrange.
    assert (holders i s1 + 1 < 2 ^ 64) as Hlt.
    { pose proof (holders_update s1 tid (token_key t) Entering (Acquired i) i Hth1) as Hup. simpl in Hup.
      rewrite bool_decide_true in Hup by done. simpl in Hup.
      pose proof (holders_range (set_thread tid (mk_thread (token_key t) (Acquired i)) s1) i) as Hr1. simpl in Hr1.
      rewrite map_size_insert, Hth1 in Hr1. unfold id in Hr1. pose proof (exclusive_threads _ He1). lia. }
    eapply (exclusive_move s1 _ tid (token_key t) Entering (Acquired i) i t (set_refcount (u64 (refcount t + 1)) t)); try done.
    + intros j Hj. simpl. by rewrite bool_decide_false.
    + by left.
    + by left.
    + simpl. rewrite Hcl, bool_decide_true by done. simpl. rewrite wrap_small; [lia|]. zlia.
    + simpl. intros _ Hv. right. by split.
    + by left.
Qed.

Lemma acquired_exclusive load i :
  threads s !! tid = Some (mk_thread key (Acquired i)) → step tid load s = Ret (Some s') → exclusive s'.
Proof.
  intros Hth Hr. unfold step in Hr. rewrite Hth in Hr. simpl in Hr.
  destruct (consistent_thread _ Hc _ _ _ Hth eq_refl) as (t & Ht & Hk). simpl in Hk. rewrite Ht in Hr.
  destruct (token_owner t) as [owner|] eqn:Ho; [done|].
  assert (token_value t ≠ None → cleaned_up t = true) as Hcl.
  { intros Hv. destruct (cleaned_up t) eqn:Hcl; [done|]. destruct (exclusive_value _ He i t Ht Hcl Hv) as (tid0 & th & h & Hth0 & Hp).
    assert (token_owner t = Some tid0); [|congruence]. apply (consistent_owner _ Hc i t tid0 Ht). exists th. by rewrite Hp. }
  destruct (token_value t) as [v|] eqn:Hv; simplify_eq.
  - rewrite Hcl by done. eapply (exclusive_move s _ tid _ (Acquired i) _ i t t); try done; simpl.
    + by rewrite insert_id.
    + intros j Hj. by rewrite bool_decide_false.
    + by left.
    + by left.
    + rewrite Hcl by done. by rewrite Hv.
    + rewrite Hcl by done. done.
    + by left.
  - assert (cleaned_up t = false) as Hf.
    { destruct (cleaned_up t) eqn:Hcl'; [|done]. pose proof (exclusive_dead _ He i t Ht Hcl' Hv).
      pose proof (holder_counted s tid _ (Acquired i) i Hth ltac:(by apply bool_decide_true)). lia. }
    destruct (exclusive_live _ He i t Ht Hf) as [_ Hn]. rewrite Hf.
    eapply (exclusive_move s _ tid _ (Acquired i) _ i t (set_owner (Some tid) t)); try done; simpl.
    + intros j Hj. by rewrite bool_decide_false.
    + by left.
    + by left.
    + rewrite Hf, bool_decide_true by done. simpl. lia.
    + by intros h [= <-].
    + by left.
Qed.

Lemma holds_other i j p : token_of p = Some i → j ≠ i → holds j p = false.
Proof. intros Hp Hj. destruct p as [| | | |? []| |]; simpl in *; simplify_eq; try done; by apply bool_decide_false. Qed.

Lemma holds_own i p : owns p = Some i → holds i p = true.
Proof. destruct p; simpl; intros Hp; simplify_eq; by apply bool_decide_true. Qed.

(** While a thread loads, its token is registered and has not been cleaned up. *)
Lemma loading_live p i h t :
  threads s !! tid = Some (mk_thread key p) → p = Loading i h → tokens s !! i = Some t →
  h = false ∧ token_value t = None ∧ cleaned_up t = false.
Proof.
  intros Hth -> Ht. destruct (exclusive_loading _ He tid _ i h t Hth eq_refl Ht) as [-> Hv]. split_and!; try done.
  destruct (cleaned_up t) eqn:Hcl; [|done]. pose proof (exclusive_dead _ He i t Ht Hcl Hv).
  pose proof (holder_counted s tid _ _ i Hth (holds_own i (Loading i false) eq_refl)). lia.
Qed.

Lemma loading_exclusive load i h :
  threads s !! tid = Some (mk_thread key (Loading i h)) → load ≠ LoadValue None → step tid load s = Ret (Some s') → exclusive s'.
Proof.
  intros Hth Hload Hr. unfold step in Hr. rewrite Hth in Hr. simpl in Hr.
  destruct (owned_token tid key s Hc _ i Hth eq_refl) as (t & Ht & Hk & _). rewrite Ht in Hr.
  destruct (loading_live _ i h t Hth eq_refl Ht) as (-> & Hv & Hcl).
  destruct (exclusive_live _ He i t Ht Hcl) as [_ Hn]. pose proof (others_own_not _ i Hth eq_refl) as Hex.
  destruct load as [value|]; simplify_eq.
  - eapply (exclusive_move s _ tid _ (Loading i false) (Loaded i false) i t (set_value value t)); try done.
    + intros j Hj. split; by apply (holds_other i).
    + by left.
    + by left.
    + cbn zeta. simpl. rewrite Hcl, bool_decide_true by done. simpl. lia.
    + intros _ _. left. by eexists.
    + intros h [= <-]. simpl. rewrite Hcl. by destruct value.
    + by right.
  - eapply (exclusive_move s _ tid _ (Loading i false) (Leaving i false Threw) i t (set_owner None t)); try done.
    + intros j Hj. split; by apply (holds_other i).
    + by left.
    + by left.
    + cbn zeta. simpl. rewrite Hcl, bool_decide_true by done. simpl. lia.
    + by right.
Qed.

(** When a thread has loaded, its token is still registered, so that the value is stored. *)
Lemma loaded_registered i h :
  threads s !! tid = Some (mk_thread key (Loaded i h)) → insert_tokens s !! key = Some i.
Proof.
  intros Hth. destruct (owned_token tid key s Hc _ i Hth eq_refl) as (t & Ht & Hk & _).
  destruct (exclusive_loaded _ He tid _ i h t Hth eq_refl Ht) as (_ & Hcl & _). rewrite <- Hk. apply (exclusive_live _ He i t Ht Hcl).
Qed.

Lemma loaded_exclusive load i h :
  threads s !! tid = Some (mk_thread key (Loaded i h)) → step tid load s = Ret (Some s') → exclusive s'.
Proof.
  intros Hth Hr. unfold step in Hr. rewrite Hth in Hr. simpl in Hr.
  destruct (owned_token tid key s Hc _ i Hth eq_refl) as (t & Ht & Hk & _). rewrite Ht in Hr.
  destruct (exclusive_loaded _ He tid _ i h t Hth eq_refl Ht) as (-> & Hcl & Hval). pose proof (others_own_not _ i Hth eq_refl) as Hex.
  rewrite Hcl in Hr. apply bind_Ret_inv in Hr as (s1 & Hs1 & Hr).
  assert (tokens s1 = tokens s ∧ threads s1 = threads s ∧ insert_tokens s1 = insert_tokens s) as (Hx1 & Hx2 & Hx3).
  { case_bool_decide; [apply bind_Ret_inv in Hs1 as (q & _ & Hs1)|]; by simplify_eq. }
  simplify_eq. eapply (exclusive_move s _ tid _ (Loaded i false) (Leaving i true _) i t (set_cleaned_up (set_owner None t)));
    simpl; rewrite ?Hx1, ?Hx2, ?Hx3; try done.
  - intros j Hj. split; [|done]. by apply bool_decide_false.
  - by left.
  - by right.
  - by right.
Qed.

Lemma leaving_exclusive load i h r :
  threads s !! tid = Some (mk_thread key (Leaving i h r)) → step tid load s = Ret (Some s') → exclusive s'.
Proof.
  intros Hth Hr. unfold step in Hr. rewrite Hth in Hr. simpl in Hr. destruct h.
  { simplify_eq. apply exclusive_set_thread; try done; [|by eapply size_same]. intros th Hth' i'. by simplify_eq. }
  destruct (consistent_thread _ Hc _ _ _ Hth eq_refl) as (t & Ht & Hk). simpl in Hk. rewrite Ht in Hr.
  pose proof (holder_counted s tid _ _ i Hth ltac:(by apply bool_decide_true)) as Hone.
  destruct (token_owner t) as [owner|] eqn:Ho; [done|]. destruct (cleaned_up t) eqn:Hcl; simplify_eq.
  - eapply (exclusive_move s _ tid _ (Leaving i false r) (Finished r) i t t); simpl; try done.
    + by rewrite insert_id.
    + intros j Hj. split; [|done]. by apply bool_decide_false.
    + by right.
    + by left.
    + rewrite Hcl. intros Hv. pose proof (exclusive_dead _ He i t Ht Hcl Hv). lia.
    + congruence.
    + by left.
  - destruct (exclusive_live _ He i t Ht Hcl) as [_ Hn].
    assert (token_value t = None) as Hv.
    { destruct (token_value t) eqn:Hv; [|done]. destruct (exclusive_value _ He i t Ht Hcl ltac:(congruence)) as (tid0 & th & h & Hth0 & Hp).
      assert (token_owner t = Some tid0); [|congruence]. apply (consistent_owner _ Hc i t tid0 Ht). exists th. by rewrite Hp. }
    eapply (exclusive_move s _ tid _ (Leaving i false r) (Unlinking i r) i t (set_owner (Some tid) t)); simpl; try done.
    + intros j Hj. split; by apply bool_decide_false.
    + by left.
    + by left.
    + rewrite Hcl, bool_decide_true by done. simpl. lia.
    + by left.
Qed.

Lemma unlinking_exclusive load i r :
  threads s !! tid = Some (mk_thread key (Unlinking i r)) → step tid load s = Ret (Some s') → exclusive s'.
Proof.
  intros Hth Hr. unfold step in Hr. rewrite Hth in Hr. simpl in Hr.
  destruct (owned_token tid key s Hc _ i Hth eq_refl) as (t & Ht & Hk & Ho & Hnl). rewrite Ht in Hr.
  pose proof (exclusive_unlinking _ He tid _ i r t Hth eq_refl Ht) as Hcl.
  destruct (exclusive_live _ He i t Ht Hcl) as [_ Hn]. pose proof (others_own_not _ i Hth eq_refl) as Hex.
  pose proof (holder_counted s tid _ _ i Hth (holds_own i (Unlinking i r) eq_refl)) as Hone.
  pose proof (holders_range s i). pose proof (exclusive_threads _ He).
  assert (token_value t = None) as Hv.
  { destruct (token_value t) eqn:Hv; [|done]. destruct (exclusive_value _ He i t Ht Hcl ltac:(congruence)) as (tid0 & th & h & Hth0 & Hp).
    destruct (decide (tid0 = tid)) as [->|Hne]; [by simplify_eq/=|]. destruct (Hex tid0 th Hne Hth0). by rewrite Hp. }
  rewrite wrap_small in Hr by zlia. destruct (Z.eqb_spec (refcount t - 1) 0) as [Hz|Hz]; simplify_eq.
  - eapply (exclusive_move s _ tid _ (Unlinking i r) (Finished r) i t
      (set_cleaned_up (set_owner None (set_refcount (refcount t - 1) t)))); simpl; try done.
    + intros j Hj. split; [|done]. by apply bool_decide_false.
    + by right.
    + by right.
    + intros _. rewrite bool_decide_true by done. simpl. lia.
    + by right.
  - eapply (exclusive_move s _ tid _ (Unlinking i r) (Finished r) i t (set_owner None (set_refcount (refcount t - 1) t))); simpl; try done.
    + intros j Hj. split; [|done]. by apply bool_decide_false.
    + by right.
    + by left.
    + rewrite Hcl, bool_decide_true by done. simpl. lia.
    + by left.
Qed.
End exclusive_steps.

Lemma step_exclusive tid load s s' :
  consistent s → exclusive s → load ≠ LoadValue None → step tid load s = Ret (Some s') → exclusive s'.
Proof.
  intros Hc He Hload Hr. destruct (threads s !! tid) as [[key p]|] eqn:Hth; [|unfold step in Hr; by rewrite Hth in Hr].
  destruct p; [by eapply enter_exclusive|by eapply acquired_exclusive|by eapply loading_exclusive|by eapply loaded_exclusive|
    by eapply leaving_exclusive|by eapply unlinking_exclusive|]. unfold step in Hr. by rewrite Hth in Hr.
Qed.

(** The other methods do not touch the tokens. *)
Lemma call_tokens o s s' :
  o ≠ Clear → perform (Call o) s = Ret (Some s') →
  insert_tokens s' = insert_tokens s ∧ tokens s' = tokens s ∧ threads s' = threads s.
Proof.
  intros Ho Hr. destruct o; simpl in Hr; [..|done| | | | |].
  all: unfold setMaxCount, setMaxSizeInBytes, remove, remove_if, get, getWithKey, set in Hr.
  all: repeat match goal with
    | H : (_ ≫= _) = Ret _ |- _ => apply bind_Ret_inv in H as (? & ? & H)
    | x : (_ * _)%type |- _ => destruct x
    end; simplify_eq; try done; by case_match.
Qed.

Lemma perform_exclusive e s s' :
  consistent s → exclusive s → orderly e → perform e s = Ret (Some s') → exclusive s'.
Proof.
  intros Hc He Ho Hr. destruct e as [tid load|tid key|o]; simpl in Hr.
  - eapply step_exclusive; [done..| |done]. by intros ->.
  - unfold start in Hr. destruct (threads s !! tid) eqn:Hth; [done|]. destruct (_ <? _) eqn:Hsize; simplify_eq.
    apply exclusive_set_thread; try done; [congruence|]. rewrite map_size_insert, Hth. simpl. lia.
  - destruct (call_tokens o s s') as (? & ? & ?); [by intros ->|done|]. by apply (exclusive_ext s).
Qed.

Lemma reachable_exclusive s : reachable orderly s → exclusive s.
Proof.
  induction 1 as [p Hok Hst|s e s' Hs IH Ho Ha Hp].
  - split; simpl; try done; intros; by simplify_map_eq.
  - eapply perform_exclusive; [|done..]. by eapply reachable_consistent.
Qed.

(** Other threads do not change what a thread has loaded while it holds its token. *)
Lemma step_others tid' load s s' tid :
  consistent s → tid' ≠ tid → step tid' load s = Ret (Some s') →
  threads s' !! tid = threads s !! tid ∧
  ∀ i t, tokens s !! i = Some t → token_owner t = Some tid →
    ∃ t', tokens s' !! i = Some t' ∧ token_value t' = token_value t.
Proof.
  intros Hc Hne Hr. unfold step in Hr. destruct (threads s !! tid') as [[key p]|] eqn:Hth; [|done]. simpl in Hr.
  assert (∀ s1 i0 t0 t1, tokens s1 !! i0 = Some t0 → token_value t1 = token_value t0 →
    ∀ i t, tokens s1 !! i = Some t → ∃ t', <[i0 := t1]> (tokens s1) !! i = Some t' ∧ token_value t' = token_value t) as Hset.
  { intros s1 i0 t0 t1 H0 Hv i t Ht. destruct (decide (i0 = i)) as [->|].
    - rewrite lookup_insert_eq. exists t1. split; [done|]. by simplify_eq.
    - rewrite lookup_insert_ne by done. by exists t. }
  destruct p as [|i0|i0 h|i0 h|i0 h r|i0 r|r]; [| | | | | |done].
  - apply bind_Ret_inv in Hr as ([val q] & _ & Hr). destruct val; simplify_eq/=.
    { rewrite lookup_insert_ne by done. eauto. }
    unfold obtain in Hr. simpl in Hr. destruct (insert_tokens s !! key) as [i0|] eqn:Hi0; unfold acquire in Hr; simpl in Hr.
    + destruct (consistent_registered _ Hc _ _ Hi0) as (t0 & H0 & _). rewrite H0 in Hr. simplify_eq/=.
      rewrite lookup_insert_ne by done. split; [done|]. intros i t Ht _. by eapply Hset.
    + rewrite lookup_insert_eq in Hr. simplify_eq/=. rewrite lookup_insert_ne by done. split; [done|]. intros i t Ht _.
      assert (next_token s ≠ i). { intros <-. pose proof (consistent_fresh _ Hc (next_token s) ltac:(by eexists)). lia. }
      rewrite insert_insert_eq, lookup_insert_ne by done. by exists t.
  - destruct (tokens s !! i0) as [t0|] eqn:H0; [|done]. destruct (token_owner t0); [done|].
    destruct (token_value t0) eqn:Hv; simplify_eq/=; rewrite lookup_insert_ne by done; (split; [done|]); [eauto|].
    intros i t Ht _. by eapply Hset.
  - destruct (owned_token tid' key s Hc _ i0 Hth eq_refl) as (t0 & H0 & _ & Ho & _). rewrite H0 in Hr.
    destruct load; simplify_eq/=; rewrite lookup_insert_ne by done; (split; [done|]); intros i t Ht Hown;
      (assert (i0 ≠ i) by congruence); rewrite lookup_insert_ne by done; by exists t.
  - destruct (owned_token tid' key s Hc _ i0 Hth eq_refl) as (t0 & H0 & _). rewrite H0 in Hr.
    apply bind_Ret_inv in Hr as (s1 & Hs1 & Hr).
    assert (tokens s1 = tokens s ∧ threads s1 = threads s) as [Hx1 Hx2].
    { case_bool_decide; [apply bind_Ret_inv in Hs1 as (q & _ & Hs1)|]; by simplify_eq. }
    destruct (cleaned_up t0); simplify_eq/=; rewrite lookup_insert_ne, Hx2 by done; (split; [done|]);
      intros i t Ht _; rewrite Hx1; by eapply Hset.
  - destruct h; simplify_eq/=; [rewrite lookup_insert_ne by done; eauto|].
    destruct (tokens s !! i0) as [t0|] eqn:H0; [|done]. destruct (token_owner t0); [done|].
    destruct (cleaned_up t0); simplify_eq/=; rewrite lookup_insert_ne by done; (split; [done|]); [eauto|].
    intros i t Ht _. by eapply Hset.
  - destruct (tokens s !! i0) as [t0|] eqn:H0; [|done]. simplify_eq/=.
    destruct (_ =? 0); simpl; rewrite lookup_insert_ne by done; (split; [done|]); intros i t Ht _; by eapply Hset.
Qed.

(** From a state to one that events of some kind lead to. *)
Inductive continues (allowed : event → Prop) : State → State → Prop :=
  | continues_here s : continues allowed s s
  | continues_perform s e s1 s2 :
      allowed e → acceptable e s → perform e s = Ret (Some s1) → continues allowed s1 s2 → continues allowed s s2.

(** The events of the other threads, and the calls of the other methods. *)
Definition of_others (tid : nat) (e : event) : Prop := orderly e ∧ ∀ load, e ≠ Run tid load.

Lemma loaded_kept tid key i h value s s' :
  continues (of_others tid) s s' → reachable orderly s →
  threads s !! tid = Some (mk_thread key (Loaded i h)) → (token_value <$> tokens s !! i) = Some value →
  reachable orderly s' ∧ threads s' !! tid = Some (mk_thread key (Loaded i h)) ∧
  (token_value <$> tokens s' !! i) = Some value.
Proof.
  induction 1 as [|s e s1 s2 [Ho Hother] Ha Hp _ IH]; intros Hs Hth Hv; [done|].
  pose proof (reachable_consistent _ s Hs) as Hc.
  destruct (owned_token tid key s Hc _ i Hth eq_refl) as (t & Ht & _ & Hown & _). rewrite Ht in Hv. simpl in Hv.
  apply IH; [by econstructor|..]; clear IH; destruct e as [tid' load|tid' key'|o]; simpl in Hp.
  all: try (destruct (step_others tid' load s s1 tid Hc ltac:(intros ->; by apply (Hother load)) Hp) as [Hx1 Hx2]).
  all: try (destruct (call_tokens o s s1 ltac:(by intros ->) Hp) as (Hx1 & Hx2 & Hx3)).
  all: try (unfold start in Hp; destruct (threads s !! tid') eqn:Hn; [done|]; destruct (_ <? _); [|done]; simplify_eq/=).
  - by rewrite Hx1.
  - rewrite lookup_insert_ne by congruence. done.
  - by rewrite Hx3.
  - destruct (Hx2 i t Ht Hown) as (t' & -> & Hv'). simpl. congruence.
  - by rewrite Ht.
  - by rewrite Hx2, Ht.
Qed.

(** What a thread has loaded is put into the cache. *)
Lemma loaded_put tid load key i h value s :
  reachable orderly s → threads s !! tid = Some (mk_thread key (Loaded i h)) → (token_value <$> tokens s !! i) = Some (Some value) →
  ∃ s', step tid load s = Ret (Some s') ∧ policy_set P key (Some value) (cache_policy s) = Ret (cache_policy s') ∧
    threads s' !! tid = Some (mk_thread key (Leaving i true (Returned (Some value) true))).
Proof.
  intros Hs H1 Hv. pose proof (reachable_consistent _ s Hs) as Hc. pose proof (reachable_exclusive s Hs) as He.
  destruct (owned_token tid key s Hc _ i H1 eq_refl) as (t & Ht & Hk & _). rewrite Ht in Hv. injection Hv as Hvalue.
  destruct (exclusive_loaded _ He tid _ i h t H1 eq_refl Ht) as (-> & Hcl & _).
  destruct (set_law (cache_policy s) key (Some value) (consistent_policy _ Hc)) as (p & Hset & _).
  eexists. unfold step. rewrite H1. simpl. rewrite Ht, bool_decide_true by (by eapply loaded_registered).
  rewrite Hvalue, Hset. simpl. rewrite Hcl. split; [done|]. simpl. by rewrite lookup_insert_eq.
Qed.

(** C12: As long as the cache is not cleared and no [load_func] returns a null pointer, at most
    one thread at a time calls [load_func] for a key, however the steps are interleaved, and
    what it loads is put into the cache: whatever the other threads do after [load_func] has
    returned a value, the next step of the thread is done, it gives the key and that value to
    [set] of the cache policy, whose state it leaves, and [getOrSet] returns the value and
    that it has produced it. *)
Theorem getOrSet_single_loader (s : State) tid key i h :
  reachable orderly s → threads s !! tid = Some (mk_thread key (Loading i h)) →
  (∀ tid' i' h', threads s !! tid' = Some (mk_thread key (Loading i' h')) → tid' = tid) ∧
  ∀ value, ∃ s1, step tid (LoadValue (Some value)) s = Ret (Some s1) ∧
    ∀ s2 load, continues (of_others tid) s1 s2 → ∃ s3,
      step tid load s2 = Ret (Some s3) ∧
      policy_set P key (Some value) (cache_policy s2) = Ret (cache_policy s3) ∧
      threads s3 !! tid = Some (mk_thread key (Leaving i true (Returned (Some value) true))).
Proof.
  intros Hs H1. pose proof (reachable_consistent _ s Hs) as Hc. pose proof (reachable_exclusive s Hs) as He.
  destruct (owned_token tid key s Hc _ i H1 eq_refl) as (t1 & Ht1 & Hk1 & Ho1 & _). split.
  - intros tid2 i2 h2 H2. destruct (owned_token tid2 key s Hc _ i2 H2 eq_refl) as (t2 & Ht2 & Hk2 & Ho2 & _).
    destruct (loading_live tid key s He _ i h t1 H1 eq_refl Ht1) as (_ & _ & Hcl1).
    destruct (loading_live tid2 key s He _ i2 h2 t2 H2 eq_refl Ht2) as (_ & _ & Hcl2).
    pose proof (proj1 (exclusive_live _ He i t1 Ht1 Hcl1)) as Hr1. pose proof (proj1 (exclusive_live _ He i2 t2 Ht2 Hcl2)) as Hr2.
    congruence.
  - intros value. assert (∃ s1, step tid (LoadValue (Some value)) s = Ret (Some s1) ∧
      threads s1 !! tid = Some (mk_thread key (Loaded i h)) ∧ (token_value <$> tokens s1 !! i) = Some (Some value)) as (s1 & Hstep & Hth1 & Hv1).
    { unfold step. rewrite H1. simpl. rewrite Ht1. eexists. split; [done|]. simpl. by rewrite !lookup_insert_eq. }
    exists s1. split; [done|]. intros s2 load Hcont.
    assert (reachable orderly s1) as Hs1 by (by apply (reachable_perform orderly s (Run tid (LoadValue (Some value))))).
    destruct (loaded_kept _ _ _ _ _ _ _ Hcont Hs1 Hth1 Hv1) as (Hs2 & Hth2 & Hv2). by apply (loaded_put tid load key i h).
Qed.

(** Events one after the other. *)
Fixpoint perform_all (es : list event) (s : State) : outcome (option State) :=
  match es with
  | [] => Ret (Some s)
  | e :: es => r ← perform e s; match r with Some s => perform_all es s | None => Ret None end
  end.

Lemma reachable_all allowed es : ∀ s s',
  reachable allowed s → Forall (λ e, allowed e ∧ ∀ s, acceptable e s) es → perform_all es s = Ret (Some s') → reachable allowed s'.
Proof.
  induction es as [|e es IH]; simpl; intros s s' Hs Hes Hr; [by simplify_eq|]. apply Forall_cons in Hes as [[Hal Hac] Hes].
  apply bind_Ret_inv in Hr as (o & Ho & Hr). destruct o as [s1|]; [|done]. eapply IH; [|done..]. by econstructor.
Qed.
End cache.

(** * Caches whose policy is chosen by its name *)

Module NamedCache.
Section named.
Context {Key Mapped : Type} `{Countable Key} (weight_function : Mapped → Z) (listing : ∀ V, gmap Key V → list Key).

(** [CacheBase(cache_policy_name, max_size_in_bytes, max_count, size_ratio)]. *)
Definition make_policy (cache_policy_name : string) (max_size_in_bytes max_count : Z) (size_ratio : spec_float) :
    outcome (LRU.t (Key := Key) (Mapped := Mapped) + SLRU.t (Key := Key) (Mapped := Mapped)) :=
  let cache_policy_name := if decide (cache_policy_name = ""%string) then "SLRU"%string else cache_policy_name in
  if decide (cache_policy_name = "LRU"%string) then Ret (inl (LRU.create max_size_in_bytes max_count))
  else if decide (cache_policy_name = "SLRU"%string) then
    s ← SLRU.create max_size_in_bytes max_count size_ratio; Ret (inr s)
  else Throw BAD_ARGUMENTS.

(** [CacheBase(max_size_in_bytes, max_count, size_ratio)]. *)
Definition make_default_policy := make_policy "SLRU".

Definition named_policy := either_policy (LRU.policy weight_function listing) (SLRU.policy weight_function listing).

Context (weights : ∀ value, 0 ≤ weight_function value < 2 ^ 62).
Context (listing_ok : ∀ V (m : gmap Key V), listing V m ≡ₚ (map_to_list m).*1).

Lemma wider_weights (value : Mapped) : 0 ≤ weight_function value < 2 ^ 63.
Proof. pose proof (weights value). lia. Qed.

#[export] Instance named_policy_correct : PolicyCorrect named_policy :=
  either_policy_correct _ _
    (PolicyCorrect0 := LRU.lru_policy_correct weight_function listing wider_weights listing_ok)
    (PolicyCorrect1 := SLRU.slru_policy_correct weight_function listing weights listing_ok).

(** The constructor that is given the name of a policy makes an empty cache, with which
    histories of concurrent calls begin, for the names LRU and SLRU and for the empty name;
    for every other name it throws BAD_ARGUMENTS. *)
Theorem cache_policy_by_name (name : string) (max_size max_count : Z) (size_ratio : spec_float) allowed :
  SLRU.sensible_size size_ratio max_size → 0 ≤ max_count →
  if bool_decide (name ∈ [""; "LRU"; "SLRU"]%string) then
    ∃ p, make_policy name max_size max_count size_ratio = Ret p ∧ reachable named_policy allowed (create p) ∧
      policy_sizeInBytes named_policy p = 0 ∧ policy_maxSizeInBytes named_policy p = max_size
  else make_policy name max_size max_count size_ratio = Throw BAD_ARGUMENTS.
Proof.
  intros Hsize Hcount. unfold make_policy. case_bool_decide as Hname.
  - destruct (SLRU.slru_create_simulates (Key := Key) weight_function max_size max_count size_ratio Hsize Hcount) as (s & m & Hs & _ & Hsim).
    assert (∃ p, SLRU.create (Key := Key) (Mapped := Mapped) max_size max_count size_ratio = Ret p ∧
      reachable named_policy allowed (create (inr p)) ∧ SLRU.sizeInBytes p = 0 ∧ SLRU.maxSizeInBytes p = max_size) as Hslru.
    { exists s. split; [done|]. unfold SLRU.create in Hs. destruct Hsize as (_ & m' & Hm' & _). rewrite Hm' in Hs. simplify_eq/=.
      split; [|done]. constructor; [by eexists|done]. }
    rewrite !elem_of_cons in Hname. destruct Hname as [->|[->|[->|[]%not_elem_of_nil]]]; simpl.
    + destruct Hslru as (p & -> & ? & ? & ?). by exists (inr p).
    + exists (inl (LRU.create max_size max_count)). split; [done|]. split; [|done].
      constructor; [|done]. exists (LRU.mk_spec [] max_size max_count []).
      apply LRU.create_simulates; [|done]. destruct Hsize. lia.
    + destruct Hslru as (p & -> & ? & ? & ?). by exists (inr p).
  - assert (name ≠ "" ∧ name ≠ "LRU" ∧ name ≠ "SLRU")%string as (? & ? & ?) by set_solver.
    rewrite (decide_False (P := name = ""%string)) by done. cbv zeta. by do 2 (rewrite decide_False by done).
Qed.
End named.

(** ** Small histories *)

Definition lru := LRU.policy (Key := Z) (Mapped := Z) EqualWeightFunction LRU.listed.

#[export] Instance lru_correct : PolicyCorrect lru :=
  LRU.lru_policy_correct EqualWeightFunction LRU.listed LRU.equal_weights (λ _ _, reflexivity _).

Definition empty_cache := create (Key := Z) (Mapped := Z) (LRU.create (Key := Z) (Mapped := Z) 2 0).

Lemma empty_reachable allowed : reachable lru allowed empty_cache.
Proof. constructor; [|done]. exists (LRU.mk_spec [] 2 0 []). apply LRU.create_simulates; lia. Qed.

(** Two threads want the same value; the first one is loading it. *)
Definition first_loads : list (event (Key := Z) (Mapped := Z)) :=
  [Start 1 5; Start 2 5; Run 1 LoadThrow; Run 2 LoadThrow; Run 1 LoadThrow].

(** The first one has returned. *)
Definition first_returns : list (event (Key := Z) (Mapped := Z)) :=
  first_loads ++ [Run 1 (LoadValue (Some 50)); Run 1 LoadThrow; Run 1 LoadThrow].

Definition state_after es := match perform_all lru es empty_cache with Ret (Some s) => s | _ => empty_cache end.

Lemma first_loads_reachable allowed :
  (∀ e, orderly e → allowed e) → reachable lru allowed (state_after first_loads) ∧ reachable lru allowed (state_after first_returns).
Proof.
  intros Hal. split; [apply (reachable_all lru allowed first_loads empty_cache)|apply (reachable_all lru allowed first_returns empty_cache)].
  - apply empty_reachable.
  - unfold first_loads. repeat (constructor; [split; [by apply Hal|done]|]). constructor.
  - vm_compute. reflexivity.
  - apply empty_reachable.
  - unfold first_returns, first_loads. simpl. repeat (constructor; [split; [by apply Hal|done]|]). constructor.
  - vm_compute. reflexivity.
Qed.

Lemma getOrSet_values_genuine_witness :
  ∃ th, threads (state_after first_returns) !! 1%nat = Some th ∧ (thread_key th, Some 50) ∈ supplied (state_after first_returns).
Proof.
  destruct (getOrSet_values_genuine lru (state_after first_returns) 1 (mk_thread 5 (Finished (Returned (Some 50) true))) (Some 50) true
    (proj2 (first_loads_reachable (λ _, True) (λ _ _, I)))) as [_ Hv].
  eexists. split; [vm_compute; reflexivity|]. apply Hv; vm_compute; reflexivity.
Defined.

Lemma getOrSet_completes_witness : ∃ n s', steps lru n (state_after first_loads) s' ∧ all_finished s'.
Proof.
  apply (getOrSet_completes lru (state_after first_loads) (proj1 (first_loads_reachable (λ _, True) (λ _ _, I)))).
Defined.

(** The second thread waits for the first one, a third one begins, and 50 is put. *)
Lemma getOrSet_single_loader_witness :
  let s2 := state_after (first_loads ++ [Run 1 (LoadValue (Some 50)); Start 3 5; Run 3 LoadThrow]) in
  threads (state_after first_loads) !! 1%nat = Some (mk_thread 5 (Loading 0 false)) ∧
  ∃ s3, step lru 1 LoadThrow s2 = Ret (Some s3) ∧ policy_set lru 5 (Some 50) (cache_policy s2) = Ret (cache_policy s3).
Proof.
  intros s2.
  assert (threads (state_after first_loads) !! 1%nat = Some (mk_thread 5 (Loading 0 false))) as H1 by (vm_compute; reflexivity).
  split; [exact H1|].
  destruct (getOrSet_single_loader lru (state_after first_loads) 1 5 0 false
    (proj1 (first_loads_reachable orderly (λ _ Ho, Ho))) H1) as [_ Hput].
  destruct (Hput 50) as (s1 & Hs1 & Hnext).
  assert (s1 = state_after (first_loads ++ [Run 1 (LoadValue (Some 50))])) as ->
    by (vm_compute in Hs1; injection Hs1 as <-; vm_compute; reflexivity).
  destruct (Hnext s2 LoadThrow) as (s3 & H3 & Hset & _); [|exists s3; by split].
  apply (continues_perform _ _ _ (Start 3 5) (state_after (first_loads ++ [Run 1 (LoadValue (Some 50)); Start 3 5])));
    [by split|done|vm_compute; reflexivity|].
  apply (continues_perform _ _ _ (Run 3 LoadThrow) s2);
    [split; [done|]; by intros load [= ]|done|vm_compute; reflexivity|constructor].
Defined.

(** ** A thread that began before the cache was cleared *)

(** The first thread is loading when the cache is cleared. The second one begins afterwards,
    registers a token of its own and is loading, too. Then the first one ends. *)
Definition cleared_while_loading : list (event (Key := Z) (Mapped := Z)) :=
  [Start 1 5; Run 1 LoadThrow; Run 1 LoadThrow; Call Clear;
   Start 2 5; Run 2 LoadThrow; Run 2 LoadThrow; Run 1 (LoadValue (Some 50)); Run 1 LoadThrow].

(** The first thread unregisters the token of the second one: a third one loads at the same
    time as the second one, although both have begun after the cache was cleared, and what
    the second one has loaded is not put into the cache, although the cache has not been
    cleared since it began. *)
Lemma clear_unregisters_later_token :
  insert_tokens (state_after cleared_while_loading) = ∅ ∧
  (let s := state_after (cleared_while_loading ++ [Start 3 5; Run 3 LoadThrow; Run 3 LoadThrow]) in
   threads s !! 2%nat = Some (mk_thread 5 (Loading 1 false)) ∧ threads s !! 3%nat = Some (mk_thread 5 (Loading 2 false))) ∧
  (let s := state_after (cleared_while_loading ++ [Run 2 (LoadValue (Some 51)); Run 2 LoadThrow]) in
   threads s !! 2%nat = Some (mk_thread 5 (Leaving 1 true (Returned (Some 51) false))) ∧ count lru s = 0).
Proof. vm_compute. done. Qed.

Lemma cache_policy_by_name_witness :
  make_policy (Key := Z) (Mapped := Z) "TTL" 2 0 double_half = Throw BAD_ARGUMENTS.
Proof.
  apply (cache_policy_by_name EqualWeightFunction LRU.listed SLRU.slru_equal_weights (λ _ _, reflexivity _) "TTL" 2 0 double_half
    (λ _, True)); [|lia].
  split; [lia|]. exists 1. split; [vm_compute; reflexivity|lia].
Defined.
End NamedCache.
