(* ===== verification/Itoa.v ===== *)
(** Printing integers: base/base/itoa.cpp. The text is written through a [char *], here a buffer
    and an offset; the routines return the offset after the text. Up to 64 bits the digits are
    taken two at a time from a fixed-point product; wider integers are cut into blocks of 18
    digits. The reference is [decimal], which divides by ten. *)

From Stdlib Require Import String Ascii.
From stdpp Require Import base list tactics numbers.
From S2P Require Import Prelude Doubles.
Local Open Scope Z_scope.

(** * The reference *)

Definition digit (v : Z) : Z := 48 + v.

Fixpoint decimal_upto (fuel : nat) (n : Z) : bytes :=
  match fuel with
  | O => []
  | S fuel => if n <? 10 then [digit n] else decimal_upto fuel (n / 10) ++ [digit (n mod 10)]
  end.

(** The decimal digits of a natural number, without leading zeros. *)
Definition decimal (n : Z) : bytes := decimal_upto (S (Z.to_nat (Z.log2 n))) n.

(** The text of an integer. *)
Definition text (i : Z) : bytes := if i <? 0 then 45 :: decimal (- i) else decimal i.

(** The characters of a literal. *)
Definition chars (s : string) : bytes := (λ c, Z.of_nat (nat_of_ascii c)) <$> list_ascii_of_string s.

(** * Pairs of digits *)

(** Code that writes through a pointer and returns the pointer after it. *)
Abbreviation writer := (bytes → Z → outcome (bytes * Z)).

Definition outOneDigit (value : Z) : writer := λ buf p,
  buf ← write_bytes buf p [u8 (48 + value)]; Ret (buf, p + 1).

(** [pair(int n)] and [pair(char c)]. *)
Definition pair_of_int (n : Z) : bytes := [digit (n / 10); digit (n mod 10)].
Definition pair_of_char (c : Z) : bytes := [c; 0].

(** The table of 201 characters. *)
Definition two_digits : bytes := concat (pair_of_int <$> seqZ 0 100) ++ [0].

Definition outTwoDigits (value : Z) : writer := λ buf p,
  bs ← read_bytes two_digits (value * 2) 2;
  buf ← write_bytes buf p bs;
  Ret (buf, p + 2).

(** [digits.dd] and [digits.fd]. *)
Definition digits_dd : list bytes := pair_of_int <$> seqZ 0 100.
Definition digits_fd : list bytes :=
  ((λ v, pair_of_char (digit v)) <$> seqZ 0 10) ++ (pair_of_int <$> seqZ 10 90).

(** [*reinterpret_cast<pair *>(b) = table[index]]. *)
Definition put_pair (table : list bytes) (index : Z) (buf : bytes) (b : Z) : outcome bytes :=
  match table !! Z.to_nat index with
  | Some bs => write_bytes buf b bs
  | None => UB
  end.

(** [mask24], [mask32] and [mask57]. *)
Definition mask (p : Z) : Z := 2 ^ p - 1.

(** The statements [f' = (f & mask) * 100] and [digits.dd[f' >> p]] stored two characters on,
    [k] times. *)
Fixpoint next_pairs (p : Z) (k : nat) (f : Z) (buf : bytes) (b : Z) : outcome bytes :=
  match k with
  | O => Ret buf
  | S k =>
      let f' := u64 (Z.land f (mask p) * 100) in
      buf ← put_pair digits_dd (Z.shiftr f' p) buf b;
      next_pairs p k f' buf (b + 2)
  end.

(** The first pair from [digits.fd], one character back if the number is [short] (its first pair
    has one digit), then [k] pairs. *)
Definition leading_pairs (p : Z) (k : nat) (f0 : Z) (short : bool) : writer := λ buf b,
  buf ← put_pair digits_fd (Z.shiftr f0 p) buf b;
  let b := b - (if short then 1 else 0) in
  buf ← next_pairs p k f0 buf (b + 2);
  Ret (buf, b + 2 + 2 * Z.of_nat k).

(** The first pair from [digits.dd], then [k] pairs. *)
Definition padded_pairs (p : Z) (k : nat) (f0 : Z) : writer := λ buf b,
  buf ← put_pair digits_dd (Z.shiftr f0 p) buf b;
  buf ← next_pairs p k f0 buf (b + 2);
  Ret (buf, b + 2 + 2 * Z.of_nat k).

(** [UInt64(numerator / denominator + 1)], computed in double. *)
Definition reciprocal (numerator denominator : Z) : Z :=
  match size_of_double (double_add (double_div (double_of_size numerator) (double_of_size denominator)) double_one) with
  | Ret c => c
  | _ => 0
  end.

Definition c_four : Z := reciprocal (10 * 2 ^ 24) (10 ^ 3).
Definition c_six : Z := reciprocal (10 * 2 ^ 32) (10 ^ 5).
Definition c_eight : Z := reciprocal (10 * 2 ^ 48) (10 ^ 7).
Definition c_ten : Z := reciprocal (10 * 2 ^ 57) (10 ^ 9).
Definition c_padded : Z := reciprocal (2 ^ 48) (10 ^ 6).

(** * to_text_from_integer *)

(** Up to four digits, in an unsigned type of [w] bytes. *)
Definition upto_four (w : Z) (n : Z) (short : bool) : writer :=
  leading_pairs 24 1 (wrap w (c_four * n)) short.

Definition upto_six (n : Z) (short : bool) : writer := leading_pairs 32 2 (u64 (c_six * n)) short.

Definition upto_eight (n : Z) (short : bool) : writer :=
  leading_pairs 32 3 (Z.shiftr (u64 (c_eight * n)) 16) short.

Definition upto_ten (n : Z) (short : bool) : writer := leading_pairs 57 4 (u64 (c_ten * n)) short.

(** do 8 digits *)
Definition eight_digits (z : Z) : writer :=
  padded_pairs 32 3 (u64 (Z.shiftr (u64 (c_padded * z)) 16 + 1)).

(** The two digits of [u], which has no leading zero. *)
Definition put_two (u : Z) : writer := λ buf b,
  buf ← put_pair digits_dd u buf b; Ret (buf, b + 2).

(** What is above the last eight digits of a number of more than 32 bits. *)
Definition high_part (u : Z) : writer := λ buf b,
  if u <? 10 ^ 2 then put_two u buf b
  else if u <? 10 ^ 6 then
    if u <? 10 ^ 4 then upto_four 8 u (u <? 10 ^ 3) buf b
    else upto_six u (u <? 10 ^ 5) buf b
  else if u <? 10 ^ 8 then upto_eight u (u <? 10 ^ 7) buf b
  else if u <? 2 ^ 32 then upto_ten u (u <? 10 ^ 9) buf b
  else
    let y := u32 (u mod 10 ^ 8) in
    let u := u / 10 ^ 8 in
    '(buf, b) ← (if u <? 10 ^ 2 then put_two u buf b else upto_four 8 u (u <? 10 ^ 3) buf b);
    eight_digits y buf b.

(** The digits of [n], a value of the unsigned type of [w] bytes, 1, 2, 4 or 8. *)
Definition unsigned_text (w : Z) (n : Z) : writer := λ buf b,
  if n <? 10 ^ 2 then (if n <? 10 then outOneDigit n buf b else outTwoDigits n buf b)
  else if n <? 10 ^ 6 then
    if (w =? 1) || (n <? 10 ^ 4) then
      upto_four (if w =? 8 then 8 else 4) n (if w =? 1 then true else n <? 10 ^ 3) buf b
    else upto_six n (if w =? 2 then true else n <? 10 ^ 5) buf b
  else if (w =? 4) || (n <? 2 ^ 32) then
    if n <? 10 ^ 8 then upto_eight n (n <? 10 ^ 7) buf b
    else upto_ten n (n <? 10 ^ 9) buf b
  else
    let z := u32 (n mod 10 ^ 8) in
    let u := n / 10 ^ 8 in
    '(buf, b) ← high_part u buf b;
    eight_digits z buf b.

(** [i] is a value of a type of [w] bytes. *)
Definition to_text_from_integer (w : Z) (i : Z) : writer := λ buf b,
  if i <? 0 then
    buf ← write_bytes buf b [45];
    unsigned_text w (wrap w (0 - wrap w i)) buf (b + 1)
  else unsigned_text w (wrap w i) buf b.

(** * 128 and 256 bits *)

Definition max_multiple_of_hundred_that_fits_in_64_bits : Z := 1000000000000000000.
Definition max_multiple_of_hundred_blocks : Z := 9.

(** The inner loop: the pairs of a remainder, lowest first. *)
Fixpoint put_blocks (fuel : nat) (u64_remainder : Z) (two_values : bytes) (pos : Z) : outcome bytes :=
  if u64_remainder =? 0 then Ret two_values
  else match fuel with
  | O => OutOfFuel
  | S fuel =>
      two_values ← write_bytes two_values pos [u8 (u64_remainder mod 100)];
      put_blocks fuel (u64_remainder / 100) two_values (pos + 1)
  end.

(** The outer loop, until [x] is at most [largest]. *)
Fixpoint cut_blocks (fuel : nat) (largest : Z) (x : Z) (two_values : bytes) (current_block : Z)
    : outcome (Z * bytes * Z) :=
  if x <=? largest then Ret (x, two_values, current_block)
  else match fuel with
  | O => OutOfFuel
  | S fuel =>
      let u64_remainder := u64 (x mod max_multiple_of_hundred_that_fits_in_64_bits) in
      two_values ← put_blocks 64 u64_remainder two_values current_block;
      cut_blocks fuel largest (x / max_multiple_of_hundred_that_fits_in_64_bits) two_values
        (current_block + max_multiple_of_hundred_blocks)
  end.

(** [outTwoDigits(p, two_values[current_block - 1 - i])], [n] being what is left of the loop. *)
Fixpoint print_blocks (n : nat) (two_values : bytes) : writer := λ buf p,
  match n with
  | O => Ret (buf, p)
  | S n =>
      value ← load 1 two_values (Z.of_nat n);
      '(buf, p) ← outTwoDigits value buf p;
      print_blocks n two_values buf p
  end.

Definition writeUIntText_128 (_x : Z) : writer := λ buf p,
  if Z.shiftr _x 64 =? 0 then to_text_from_integer 8 (u64 _x) buf p
  else
    let x := wrap 16 (Z.shiftl (Z.shiftr _x 64) 64 + u64 _x) in
    '(x, two_values, current_block) ← cut_blocks 64 (2 ^ 64 - 1) x (replicate 20 0) 0;
    '(buf, p) ← to_text_from_integer 8 (u64 x) buf p;
    print_blocks (Z.to_nat current_block) two_values buf p.

Definition writeUIntText_256 (_x : Z) : writer := λ buf p,
  if (Z.shiftr _x 192 =? 0) && (u64 (Z.shiftr _x 128) =? 0) then writeUIntText_128 (wrap 16 _x) buf p
  else
    let x := wrap 32 (Z.shiftl (Z.shiftr _x 192) 192 + Z.shiftl (u64 (Z.shiftr _x 128)) 128
                      + Z.shiftl (u64 (Z.shiftr _x 64)) 64 + u64 _x) in
    '(x, two_values, current_pos) ← cut_blocks 64 (2 ^ 128 - 1) x (replicate 39 0) 0;
    let pending := u64 x + Z.shiftl (u64 (Z.shiftr x 64)) 64 in
    '(buf, p) ← writeUIntText_128 pending buf p;
    print_blocks (Z.to_nat current_pos) two_values buf p.

Definition writeLeadingMinus : writer := λ buf pos,
  buf ← write_bytes buf pos [45]; Ret (buf, pos + 1).

(** The text of the least value of a signed type. *)
Definition min_int_text (w : Z) : bytes :=
  if w =? 16 then chars "-170141183460469231731687303715884105728"
  else chars "-57896044618658097711785492504343953926634992332820282019728792003956564819968".

Definition writeUIntText (w : Z) : Z → writer := if w =? 16 then writeUIntText_128 else writeUIntText_256.

Definition writeSIntText (w : Z) (x : Z) : writer := λ buf pos,
  if x =? to_signed w (Z.shiftl 1 (w * 8 - 1)) then
    let res := min_int_text w in
    buf ← write_bytes buf pos res; Ret (buf, pos + blen res)
  else if x <? 0 then
    let x := - x in
    '(buf, pos) ← writeLeadingMinus buf pos;
    writeUIntText w (wrap w x) buf pos
  else writeUIntText w (wrap w x) buf pos.

(** The integer types [itoa] is overloaded for. *)
Inductive integer_type := UInt8 | UInt16 | UInt32 | UInt64 | UInt128 | UInt256
  | Int8 | Int16 | Int32 | Int64 | Int128 | Int256.

Definition type_size (T : integer_type) : Z :=
  match T with
  | UInt8 | Int8 => 1
  | UInt16 | Int16 => 2
  | UInt32 | Int32 => 4
  | UInt64 | Int64 => 8
  | UInt128 | Int128 => 16
  | UInt256 | Int256 => 32
  end.

Definition type_signed (T : integer_type) : bool :=
  match T with
  | UInt8 | UInt16 | UInt32 | UInt64 | UInt128 | UInt256 => false
  | Int8 | Int16 | Int32 | Int64 | Int128 | Int256 => true
  end.

Definition type_min (T : integer_type) : Z :=
  if type_signed T then - 2 ^ (8 * type_size T - 1) else 0.
Definition type_max (T : integer_type) : Z :=
  if type_signed T then 2 ^ (8 * type_size T - 1) - 1 else 2 ^ (8 * type_size T) - 1.
Definition of_type (T : integer_type) (i : Z) : Prop := type_min T ≤ i ≤ type_max T.

Definition itoa (T : integer_type) (i : Z) : writer :=
  match T with
  | UInt128 => writeUIntText_128 i
  | UInt256 => writeUIntText_256 i
  | Int128 | Int256 => writeSIntText (type_size T) i
  | _ => to_text_from_integer (type_size T) i
  end.

(** * Facts about the reference *)

Lemma decimal_upto_enough n : ∀ f g, 0 ≤ n → n < 2 ^ Z.of_nat f → n < 2 ^ Z.of_nat g → (0 < f)%nat → (0 < g)%nat →
  decimal_upto f n = decimal_upto g n.
Proof.
  intros f. revert n. induction f as [|f IH]; intros n g Hn Hf Hg Hf0 Hg0; [lia|].
  destruct g as [|g]; [lia|]. simpl. destruct (Z.ltb_spec n 10); [done|]. f_equal.
  rewrite Nat2Z.inj_succ, Z.pow_succ_r in Hf, Hg by lia.
  apply IH; [dlia..| |].
  - destruct f; [change (2 ^ Z.of_nat 0) with 1 in Hf|]; lia.
  - destruct g; [change (2 ^ Z.of_nat 0) with 1 in Hg|]; lia.
Qed.

Lemma log2_bound n : 0 ≤ n → n < 2 ^ Z.of_nat (S (Z.to_nat (Z.log2 n))).
Proof.
  intros Hn. destruct (decide (n = 0)) as [->|]; [done|]. pose proof (Z.log2_spec n ltac:(lia)).
  pose proof (Z.log2_nonneg n). rewrite Nat2Z.inj_succ, Z2Nat.id by lia. lia.
Qed.

Lemma decimal_small n : 0 ≤ n < 10 → decimal n = [digit n].
Proof. intros. unfold decimal. simpl. by destruct (Z.ltb_spec n 10); [|lia]. Qed.

Lemma decimal_snoc n : 10 ≤ n → decimal n = decimal (n / 10) ++ [digit (n mod 10)].
Proof.
  intros Hn. unfold decimal at 1. cbn [decimal_upto]. destruct (Z.ltb_spec n 10); [lia|]. f_equal.
  pose proof (log2_bound n ltac:(lia)) as Hl. rewrite Nat2Z.inj_succ, Z.pow_succ_r in Hl by lia.
  apply decimal_upto_enough; [dlia..| | |lia].
  - apply log2_bound. dlia.
  - pose proof (Z.log2_le_mono 2 n ltac:(lia)) as Hm. change (Z.log2 2) with 1 in Hm. lia.
Qed.

Lemma decimal_pair n : 100 ≤ n → decimal n = decimal (n / 100) ++ pair_of_int (n mod 100).
Proof.
  intros Hn. rewrite decimal_snoc, (decimal_snoc (n / 10)) by dlia. unfold pair_of_int.
  rewrite <- app_assoc. cbn [app]. repeat (f_equal; try dlia).
Qed.

Lemma decimal_add_pair x v : 1 ≤ x → 0 ≤ v < 100 → decimal (x * 100 + v) = decimal x ++ pair_of_int v.
Proof. intros. rewrite decimal_pair by lia. repeat (f_equal; try dlia). Qed.

Lemma decimal_two v : 10 ≤ v < 100 → decimal v = pair_of_int v.
Proof. intros. rewrite decimal_snoc, decimal_small by dlia. done. Qed.

(** [2 * k] digits, padded with zeros. *)
Fixpoint pairs (k : nat) (m : Z) : bytes :=
  match k with
  | O => []
  | S k => pair_of_int (m / 100 ^ Z.of_nat k) ++ pairs k (m mod 100 ^ Z.of_nat k)
  end.

Lemma length_pairs k m : length (pairs k m) = (2 * k)%nat.
Proof. revert m. induction k as [|k IH]; intros m; [done|]. simpl. rewrite IH. lia. Qed.

Lemma blen_pair v : blen (pair_of_int v) = 2.
Proof. done. Qed.

Lemma blen_pairs k m : blen (pairs k m) = 2 * Z.of_nat k.
Proof. unfold blen. rewrite length_pairs. lia. Qed.

#[local] Hint Rewrite blen_pair blen_pairs : blen.

Lemma decimal_pairs k : ∀ x m, 1 ≤ x → 0 ≤ m < 100 ^ Z.of_nat k →
  decimal (x * 100 ^ Z.of_nat k + m) = decimal x ++ pairs k m.
Proof.
  induction k as [|k IH]; intros x m Hx Hm.
  - change (100 ^ Z.of_nat 0) with 1 in *. simpl. rewrite app_nil_r. f_equal. lia.
  - rewrite Nat2Z.inj_succ, Z.pow_succ_r in * by lia. set (P := 100 ^ Z.of_nat k) in *.
    assert (0 < P) by (apply Z.pow_pos_nonneg; lia).
    pose proof (Z.div_mod m P ltac:(lia)). pose proof (Z.mod_pos_bound m P ltac:(lia)).
    assert (0 ≤ m / P < 100) by (split; [apply Z.div_pos; lia|apply Z.div_lt_upper_bound; lia]).
    replace (x * (100 * P) + m) with ((x * 100 + m / P) * P + m mod P) by lia.
    rewrite IH, decimal_add_pair by lia. cbn [pairs]. fold P. by rewrite <- app_assoc.
Qed.

(** * Writers *)

(** [f] writes [s], using no memory but that of [s]. *)
Definition writes (f : writer) (s : bytes) : Prop := ∀ pre old pos,
  pos = blen pre → blen s ≤ blen old → f (pre ++ old) pos = Ret (pre ++ over s old, pos + blen s).

Lemma writes_nil : writes (λ buf p, Ret (buf, p)) [].
Proof. intros pre old pos -> _. rewrite over_nil. by rewrite Z.add_0_r. Qed.

Lemma writes_bytes s : writes (λ buf p, buf ← write_bytes buf p s; Ret (buf, p + blen s)) s.
Proof. intros pre old pos Hp Hl. by rewrite write_at. Qed.

Lemma writes_seq f g s1 s2 :
  writes f s1 → writes g s2 → writes (λ buf p, '(buf, p) ← f buf p; g buf p) (s1 ++ s2).
Proof.
  intros Hf Hg pre old pos Hp Hl. rewrite Hf by (done || blia). cbn. unfold over at 1.
  rewrite app_assoc, Hg by blia. by rewrite over_app, <- app_assoc, blen_app, Z.add_assoc.
Qed.

Lemma table_lookup v : 0 ≤ v < 100 →
  digits_dd !! Z.to_nat v = Some (pair_of_int v) ∧
  digits_fd !! Z.to_nat v = Some (if v <? 10 then pair_of_char (digit v) else pair_of_int v) ∧
  read_bytes two_digits (v * 2) 2 = Ret (pair_of_int v).
Proof.
  intros Hv. rewrite <- (Z2Nat.id v) by lia. assert (Z.to_nat v < 100)%nat as Hn by lia.
  generalize dependent (Z.to_nat v). clear. intros n Hn. rewrite Nat2Z.id.
  do 100 (destruct n as [|n]; [vm_compute; auto|]). lia.
Qed.

Lemma put_dd v buf b : 0 ≤ v < 100 → put_pair digits_dd v buf b = write_bytes buf b (pair_of_int v).
Proof. intros Hv. unfold put_pair. by rewrite (proj1 (table_lookup v Hv)). Qed.

Lemma put_fd v buf b : 0 ≤ v < 100 →
  put_pair digits_fd v buf b = write_bytes buf b (if v <? 10 then pair_of_char (digit v) else pair_of_int v).
Proof. intros Hv. unfold put_pair. by rewrite (proj1 (proj2 (table_lookup v Hv))). Qed.

Lemma writes_two v : 0 ≤ v < 100 → writes (outTwoDigits v) (pair_of_int v).
Proof.
  intros Hv. unfold outTwoDigits. rewrite (proj2 (proj2 (table_lookup v Hv))). apply writes_bytes.
Qed.

Lemma writes_put_two v : 0 ≤ v < 100 → writes (put_two v) (pair_of_int v).
Proof. intros Hv pre old pos Hp Hl. unfold put_two. rewrite put_dd by done. by apply writes_bytes. Qed.

(** * Digits of a fixed-point product *)

(** [f], with [p] fractional bits, is a number whose first digits are those of [m] when [m] is
    divided by [100 ^ k]. *)
Definition approximates (p : Z) (k : nat) (f m : Z) : Prop :=
  m * 2 ^ p ≤ f * 100 ^ Z.of_nat k < (m + 1) * 2 ^ p.

Section fixed_point.
Context (p : Z) (Hp : 0 ≤ p) (Hfit : 2 ^ p * 100 ≤ 2 ^ 64).

Lemma approximates_quotient k f m : approximates p k f m → f / 2 ^ p = m / 100 ^ Z.of_nat k.
Proof.
  unfold approximates. intros [Hlo Hhi]. set (P := 2 ^ p) in *. set (H := 100 ^ Z.of_nat k) in *.
  assert (0 < P) by (apply Z.pow_pos_nonneg; lia). assert (0 < H) by (apply Z.pow_pos_nonneg; lia).
  pose proof (Z.div_mod m H ltac:(lia)) as Hm. pose proof (Z.mod_pos_bound m H ltac:(lia)).
  set (a := m / H) in *. set (r := m mod H) in *.
  symmetry. apply Z.div_unique with (f - P * a); [left|lia].
  assert (a * P ≤ f) by (apply Z.mul_le_mono_pos_r with H; [done|]; nia).
  assert (f < (a + 1) * P) by (apply Z.mul_lt_mono_pos_r with H; [done|]; nia). lia.
Qed.

Lemma approximates_next k f m :
  approximates p (S k) f m → approximates p k (f mod 2 ^ p * 100) (m mod 100 ^ Z.of_nat (S k)).
Proof.
  intros Hf. pose proof (approximates_quotient _ _ _ Hf) as Hq. unfold approximates in *.
  pose proof (Z.pow_pos_nonneg 2 p ltac:(lia) Hp).
  assert (0 < 100 ^ Z.of_nat (S k)) by (apply Z.pow_pos_nonneg; lia).
  rewrite !Zmod_eq, Hq by lia.
  assert (100 ^ Z.of_nat (S k) = 100 * 100 ^ Z.of_nat k) as E by (rewrite Nat2Z.inj_succ, Z.pow_succ_r; lia).
  rewrite E in *. nia.
Qed.

Lemma next_fits f : u64 (Z.land f (mask p) * 100) = f mod 2 ^ p * 100.
Proof.
  unfold mask. rewrite land_low by done. apply wrap_small. pose proof (Z.pow_pos_nonneg 2 p ltac:(lia) Hp).
  pose proof (Z.mod_pos_bound f (2 ^ p) ltac:(lia)). change (8 * 8) with 64. nia.
Qed.

Lemma quotient_range k f m :
  0 ≤ m < 100 ^ Z.of_nat (S k) → approximates p k f m → 0 ≤ f / 2 ^ p < 100.
Proof.
  intros Hm Hf. rewrite (approximates_quotient k f m Hf). rewrite Nat2Z.inj_succ, Z.pow_succ_r in Hm by lia.
  assert (0 < 100 ^ Z.of_nat k) by (apply Z.pow_pos_nonneg; lia).
  split; [apply Z.div_pos|apply Z.div_lt_upper_bound]; lia.
Qed.

Lemma next_pairs_write k : ∀ f m pre old pos,
  approximates p k f m → pos = blen pre → 2 * Z.of_nat k ≤ blen old →
  next_pairs p k f (pre ++ old) pos = Ret (pre ++ over (pairs k (m mod 100 ^ Z.of_nat k)) old).
Proof.
  induction k as [|k IH]; intros f m pre old pos Hf Hpos Hl; [by rewrite over_nil|].
  cbn [next_pairs]. rewrite next_fits. pose proof (approximates_next k f m Hf) as Hn.
  set (f' := f mod 2 ^ p * 100) in *. set (m' := m mod 100 ^ Z.of_nat (S k)) in *.
  assert (0 ≤ m' < 100 ^ Z.of_nat (S k)) as Hm' by (apply Z.mod_pos_bound, Z.pow_pos_nonneg; lia).
  rewrite Z.shiftr_div_pow2, put_dd by eauto using quotient_range.
  rewrite write_at by (try change (blen (pair_of_int _)) with 2; lia). cbn [mbind outcome_bind].
  rewrite (approximates_quotient k f' m' Hn). unfold over at 1. rewrite app_assoc.
  rewrite (IH f' m') by (done || blia). cbn [pairs]. by rewrite over_app, <- app_assoc.
Qed.

Lemma writes_padded k f m :
  0 ≤ m < 100 ^ Z.of_nat (S k) → approximates p k f m → writes (padded_pairs p k f) (pairs (S k) m).
Proof.
  intros Hm Hf pre old pos Hpos Hl. unfold padded_pairs.
  assert (blen (pairs (S k) m) = 2 + 2 * Z.of_nat k) as E by (unfold blen; rewrite length_pairs; lia).
  rewrite E in *. rewrite Z.shiftr_div_pow2, put_dd by eauto using quotient_range.
  rewrite write_at by (try change (blen (pair_of_int _)) with 2; lia). cbn [mbind outcome_bind].
  rewrite (approximates_quotient k f m Hf). unfold over at 1. rewrite app_assoc.
  rewrite (next_pairs_write k f m) by (done || blia). cbn [mbind outcome_bind pairs].
  rewrite over_app, <- app_assoc. do 2 f_equal. lia.
Qed.

Lemma writes_leading k f n short :
  (1 ≤ k)%nat → 100 ^ Z.of_nat k ≤ n < 100 ^ Z.of_nat (S k) → approximates p k f n →
  short = (n <? 10 * 100 ^ Z.of_nat k) → writes (leading_pairs p k f short) (decimal n).
Proof.
  intros Hk Hn Hf Hs pre old pos Hpos Hl. unfold leading_pairs.
  assert (0 < 100 ^ Z.of_nat k) by (apply Z.pow_pos_nonneg; lia).
  pose proof (quotient_range k f n ltac:(lia) Hf) as Hr. pose proof (approximates_quotient k f n Hf) as Hq.
  pose proof (Z.div_mod n (100 ^ Z.of_nat k) ltac:(lia)) as Hdm.
  pose proof (Z.mod_pos_bound n (100 ^ Z.of_nat k) ltac:(lia)).
  rewrite Z.shiftr_div_pow2, put_fd, Hq by done. rewrite Hq in Hr. set (a := n / 100 ^ Z.of_nat k) in *.
  assert (decimal n = decimal a ++ pairs k (n mod 100 ^ Z.of_nat k)) as E.
  { rewrite Hdm at 1. rewrite Z.mul_comm. apply decimal_pairs; nia. }
  rewrite E in *. pose proof (length_pairs k (n mod 100 ^ Z.of_nat k)) as Hlen.
  assert (short = (a <? 10)) as -> by (rewrite Hs; zcases; nia).
  destruct (Z.ltb_spec a 10).
  - rewrite decimal_small in * by nia. rewrite blen_app in *.
    destruct old as [|o1 [|o2 old]]; [unfold blen in *; simpl in *; lia..|].
    change (o1 :: o2 :: old) with ([o1; o2] ++ old).
    rewrite (write_bytes_app pre [o1; o2] (pair_of_char (digit a)) old pos Hpos) by done. cbn [mbind outcome_bind].
    change (pre ++ pair_of_char (digit a) ++ old) with (pre ++ [digit a] ++ 0 :: old). rewrite app_assoc.
    rewrite (next_pairs_write k f n) by (done || (unfold blen in *; rewrite ?length_app; simpl in *; lia)).
    cbn [mbind outcome_bind]. rewrite <- app_assoc, over_app. unfold over. rewrite Hlen.
    destruct k as [|k]; [lia|]. do 2 f_equal. unfold blen. rewrite Hlen. simpl. lia.
  - rewrite decimal_two in * by lia. rewrite write_at by (try change (blen (pair_of_int _)) with 2; blia).
    cbn [mbind outcome_bind]. unfold over at 1. rewrite app_assoc.
    rewrite (next_pairs_write k f n) by (done || (unfold blen in *; rewrite ?length_app, ?length_drop in *; simpl in *; lia)).
    cbn [mbind outcome_bind]. rewrite <- app_assoc, over_app. do 2 f_equal.
    unfold blen. rewrite length_app, Hlen. simpl. lia.
Qed.
End fixed_point.

(** * The routines for a fixed number of digits *)

(** The constants the doubles give. *)
Lemma constants_exact :
  c_four = 167773 ∧ c_six = 429497 ∧ c_eight = 281474977 ∧ c_ten = 1441151881 ∧ c_padded = 281474977.
Proof. vm_compute. auto. Qed.

Ltac use_constant c :=
  let E := fresh in
  assert (c = _) as E by (vm_compute; reflexivity); rewrite E; clear E.

(** [approximates] at concrete parameters is linear. *)
Ltac fixed_point :=
  unfold approximates;
  repeat match goal with
  | |- context [100 ^ Z.of_nat ?k] => let v := eval vm_compute in (100 ^ Z.of_nat k) in change (100 ^ Z.of_nat k) with v
  end;
  rewrite ?Z.shiftr_div_pow2 by lia; pow2_consts; dlia.

Lemma writes_four w n short :
  w = 4 ∨ w = 8 → 100 ≤ n < 10000 → short = (n <? 1000) → writes (upto_four w n short) (decimal n).
Proof.
  intros Hw Hn ->. unfold upto_four. use_constant c_four.
  rewrite wrap_small by (destruct Hw as [-> | ->]; zlia).
  apply writes_leading; [lia|zlia|lia|simpl; lia|fixed_point|done].
Qed.

Lemma writes_six n short :
  10000 ≤ n < 1000000 → short = (n <? 100000) → writes (upto_six n short) (decimal n).
Proof.
  intros Hn ->. unfold upto_six. use_constant c_six. rewrite wrap_small by zlia.
  apply writes_leading; [lia|zlia|lia|simpl; lia|fixed_point|done].
Qed.

Lemma writes_eight n short :
  1000000 ≤ n < 100000000 → short = (n <? 10000000) → writes (upto_eight n short) (decimal n).
Proof.
  intros Hn ->. unfold upto_eight. use_constant c_eight. rewrite wrap_small by zlia.
  apply writes_leading; [lia|zlia|lia|simpl; lia|fixed_point|done].
Qed.

Lemma writes_ten n short :
  100000000 ≤ n < 2 ^ 32 → short = (n <? 1000000000) → writes (upto_ten n short) (decimal n).
Proof.
  intros Hn ->. pow2_consts. unfold upto_ten. use_constant c_ten. rewrite wrap_small by zlia.
  apply writes_leading; [lia|zlia|lia|simpl; lia|fixed_point|done].
Qed.

Lemma writes_eight_digits z : 0 ≤ z < 100000000 → writes (eight_digits z) (pairs 4 z).
Proof.
  intros Hz. unfold eight_digits. use_constant c_padded. rewrite (wrap_small 8 (_ * z)) by zlia.
  rewrite wrap_small by (rewrite Z.shiftr_div_pow2 by lia; pow2_consts; dlia).
  apply writes_padded; [lia|zlia|simpl; lia|fixed_point].
Qed.

#[local] Opaque upto_four upto_six upto_eight upto_ten eight_digits.

(** A number without its last eight digits, then these. *)
Lemma writes_then_eight f n :
  100000000 ≤ n → writes f (decimal (n / 100000000)) →
  writes (λ buf b, '(buf, b) ← f buf b; eight_digits (u32 (n mod 100000000)) buf b) (decimal n).
Proof.
  intros Hn Hf. rewrite wrap_small by (pow2_consts; dlia).
  replace (decimal n) with (decimal (n / 100000000) ++ pairs 4 (n mod 100000000)).
  - apply writes_seq; [done|]. apply writes_eight_digits. dlia.
  - rewrite <- decimal_pairs by (simpl; dlia). f_equal. simpl. dlia.
Qed.

(** The test for one character less. *)
Ltac short := zcases; lia || done.

Lemma writes_high_part u : 10 ≤ u < 184467440738 → writes (high_part u) (decimal u).
Proof.
  intros Hu. unfold high_part. change (10 ^ 2) with 100. change (10 ^ 6) with 1000000. change (10 ^ 4) with 10000.
  change (10 ^ 8) with 100000000. pow2_consts. zcases; try lia.
  - rewrite decimal_two by lia. apply writes_put_two. lia.
  - apply writes_four; [auto|lia|short].
  - apply writes_four; [auto|lia|short].
  - apply writes_six; [lia|short].
  - apply writes_six; [lia|short].
  - apply writes_eight; [lia|short].
  - apply writes_eight; [lia|short].
  - apply writes_ten; [zlia|short].
  - apply writes_ten; [zlia|short].
  - apply writes_then_eight; [lia|]. rewrite decimal_two by dlia. apply writes_put_two. dlia.
  - apply writes_then_eight; [lia|]. apply writes_four; [auto|dlia|short].
  - apply writes_then_eight; [lia|]. apply writes_four; [auto|dlia|short].
Qed.

Lemma writes_unsigned w n :
  w = 1 ∨ w = 2 ∨ w = 4 ∨ w = 8 → 0 ≤ n < 2 ^ (8 * w) → writes (unsigned_text w n) (decimal n).
Proof.
  intros Hw Hn. unfold unsigned_text. change (10 ^ 2) with 100. change (10 ^ 6) with 1000000.
  change (10 ^ 4) with 10000. change (10 ^ 8) with 100000000.
  destruct (Z.ltb_spec n 100); [destruct (Z.ltb_spec n 10)|].
  { unfold outOneDigit. rewrite decimal_small, wrap_small by zlia. apply (writes_bytes [digit n]). }
  { rewrite decimal_two by lia. apply writes_two. lia. }
  destruct (Z.ltb_spec n 1000000).
  { destruct ((w =? 1) || (n <? 10000)) eqn:Hb; destruct Hw as [-> | [-> | [-> | ->]]]; simpl in Hb; pow2_consts;
      try (apply writes_four; [auto|lia|short]); try (apply writes_six; [lia|short]); lia. }
  destruct ((w =? 4) || (n <? 2 ^ 32)) eqn:Hb.
  { assert (n < 2 ^ 32) by (destruct Hw as [-> | [-> | [-> | ->]]]; simpl in Hb; zlia). pow2_consts.
    destruct (Z.ltb_spec n 100000000); [apply writes_eight; [lia|done]|apply writes_ten; [zlia|done]]. }
  assert (w = 8) as -> by (destruct Hw as [-> | [-> | [-> | ->]]]; simpl in Hb; zlia).
  pow2_consts. simpl in Hb. apply writes_then_eight; [lia|]. apply writes_high_part. dlia.
Qed.

Lemma text_natural n : 0 ≤ n → text n = decimal n.
Proof. intros. unfold text. by destruct (Z.ltb_spec n 0); [lia|]. Qed.

Lemma writes_minus f s : writes f s → writes (λ buf p, buf ← write_bytes buf p [45]; f buf (p + 1)) (45 :: s).
Proof.
  intros Hf. pose proof (writes_seq _ _ _ _ (writes_bytes [45]) Hf) as H. intros pre old pos Hp Hl.
  specialize (H pre old pos Hp Hl). cbn [app] in H. rewrite <- H. by destruct (write_bytes _ _ _).
Qed.

Lemma writes_to_text w i :
  w = 1 ∨ w = 2 ∨ w = 4 ∨ w = 8 → - 2 ^ (8 * w - 1) ≤ i < 2 ^ (8 * w) → writes (to_text_from_integer w i) (text i).
Proof.
  intros Hw Hi. unfold to_text_from_integer, text. destruct (Z.ltb_spec i 0).
  - rewrite wrap_sub_r. rewrite wrap_small by (destruct Hw as [-> | [-> | [-> | ->]]]; zlia).
    apply writes_minus, writes_unsigned; [done|]. destruct Hw as [-> | [-> | [-> | ->]]]; zlia.
  - rewrite wrap_small by lia. apply writes_unsigned; lia.
Qed.

(** * Blocks of two digits *)

(** The number whose pairs, lowest first, are [blocks]. *)
Fixpoint hundreds (blocks : bytes) : Z :=
  match blocks with
  | [] => 0
  | b :: blocks => b + 100 * hundreds blocks
  end.

(** The [k] pairs of [x], lowest first. *)
Fixpoint blocks_of (k : nat) (x : Z) : bytes :=
  match k with
  | O => []
  | S k => x mod 100 :: blocks_of k (x / 100)
  end.

Abbreviation is_block := (λ v, 0 ≤ v < 100).

Lemma length_blocks_of k x : length (blocks_of k x) = k.
Proof. revert x. induction k as [|k IH]; intros x; simpl; [done|by rewrite IH]. Qed.

Lemma blocks_of_range k x : Forall is_block (blocks_of k x).
Proof. revert x. induction k as [|k IH]; intros x; constructor; [apply Z.mod_pos_bound; lia|done]. Qed.

Lemma blocks_of_zero k : blocks_of k 0 = replicate k 0.
Proof. induction k as [|k IH]; simpl; [done|]. by f_equal. Qed.

Lemma hundreds_blocks_of k : ∀ x, 0 ≤ x < 100 ^ Z.of_nat k → hundreds (blocks_of k x) = x.
Proof.
  induction k as [|k IH]; intros x Hx; [simpl in *; lia|].
  rewrite Nat2Z.inj_succ, Z.pow_succ_r in Hx by lia. simpl. rewrite IH by dlia. dlia.
Qed.

Lemma pow_blen_cons b l : 100 ^ blen (b :: l) = 100 * 100 ^ blen l.
Proof. rewrite blen_cons, Z.pow_add_r by blia. done. Qed.

Lemma hundreds_range blocks : Forall is_block blocks → 0 ≤ hundreds blocks < 100 ^ blen blocks.
Proof.
  induction 1 as [|b blocks Hb _ IH]; [done|]. rewrite pow_blen_cons. simpl. lia.
Qed.

Lemma hundreds_app l1 l2 : hundreds (l1 ++ l2) = hundreds l1 + 100 ^ blen l1 * hundreds l2.
Proof.
  induction l1 as [|b l1 IH]; [cbn [app hundreds]; rewrite blen_nil, Z.pow_0_r; lia|]. rewrite pow_blen_cons.
  cbn [app hundreds]. rewrite IH. lia.
Qed.

Lemma decimal_hundreds x blocks : 1 ≤ x → Forall is_block blocks →
  decimal (x * 100 ^ blen blocks + hundreds blocks) = decimal x ++ concat (pair_of_int <$> reverse blocks).
Proof.
  intros Hx. induction 1 as [|b blocks Hb Hbs IH].
  - rewrite blen_nil, Z.pow_0_r, reverse_nil. cbn [hundreds fmap list_fmap concat]. rewrite app_nil_r. f_equal. lia.
  - pose proof (hundreds_range _ Hbs). rewrite pow_blen_cons. cbn [hundreds].
    replace (x * (100 * 100 ^ blen blocks) + (b + 100 * hundreds blocks))
      with ((x * 100 ^ blen blocks + hundreds blocks) * 100 + b) by lia.
    rewrite decimal_add_pair, IH by nia.
    rewrite reverse_cons, fmap_app, concat_app, <- app_assoc. cbn. by rewrite ?app_nil_r.
Qed.

Lemma put_blocks_spec k : ∀ fuel rem pre post pos,
  (k ≤ fuel)%nat → 0 ≤ rem < 100 ^ Z.of_nat k → pos = blen pre →
  put_blocks fuel rem (pre ++ replicate k 0 ++ post) pos = Ret (pre ++ blocks_of k rem ++ post).
Proof.
  induction k as [|k IH]; intros fuel rem pre post pos Hf Hr Hp.
  - assert (rem = 0) as -> by (simpl in Hr; lia). by destruct fuel.
  - destruct fuel as [|fuel]; [lia|]. cbn [put_blocks]. destruct (Z.eqb_spec rem 0) as [->|Hz].
    { by rewrite blocks_of_zero. }
    rewrite Nat2Z.inj_succ, Z.pow_succ_r in Hr by lia.
    change (replicate (S k) 0 ++ post) with ([0] ++ replicate k 0 ++ post).
    rewrite (write_bytes_app pre [0] [_]) by done. cbn [mbind outcome_bind].
    rewrite wrap_small by (pow2_consts; dlia). rewrite (app_assoc pre [_]).
    rewrite IH by (dlia || blia). by rewrite <- app_assoc.
Qed.

Lemma print_blocks_spec blocks : ∀ two_values, Forall is_block blocks → (∃ post, two_values = blocks ++ post) →
  writes (print_blocks (length blocks) two_values) (concat (pair_of_int <$> reverse blocks)).
Proof.
  induction blocks as [|v blocks IH] using rev_ind; intros two_values Hb [post Ht]; [apply writes_nil|].
  apply Forall_app in Hb as [Hb Hv%Forall_inv]. rewrite length_app, Nat.add_1_r. cbn [print_blocks].
  subst two_values. rewrite <- app_assoc. cbn [app]. rewrite load_byte by done. cbn [mbind outcome_bind].
  rewrite reverse_snoc. cbn [fmap list_fmap concat].
  apply writes_seq; [by apply writes_two|]. apply IH; [done|]. by eexists.
Qed.

Lemma cut_blocks_done fuel largest x two_values b :
  x ≤ largest → cut_blocks fuel largest x two_values b = Ret (x, two_values, b).
Proof. intros. destruct fuel; cbn [cut_blocks]; by destruct (Z.leb_spec x largest); [|lia]. Qed.

(** What the outer loop leaves: [x'] and, below it, the blocks. *)
Lemma cut_blocks_spec largest n : max_multiple_of_hundred_that_fits_in_64_bits ≤ largest → ∀ fuel x blocks spare,
  (n ≤ fuel)%nat → 1 ≤ x < (largest + 1) * 100 ^ (9 * Z.of_nat n) → Forall is_block blocks → (9 * n ≤ spare)%nat →
  ∃ x' blocks' post,
    cut_blocks fuel largest x (blocks ++ replicate spare 0) (blen blocks) = Ret (x', blocks' ++ post, blen blocks') ∧
    1 ≤ x' ≤ largest ∧ Forall is_block blocks' ∧
    x' * 100 ^ blen blocks' + hundreds blocks' = x * 100 ^ blen blocks + hundreds blocks.
Proof.
  intros Hbig. induction n as [|n IH]; intros fuel x blocks spare Hf Hx Hb Hs.
  - exists x, blocks, (replicate spare 0). rewrite Z.mul_0_r, Z.pow_0_r in Hx. rewrite cut_blocks_done by lia. auto with lia.
  - destruct (Z.leb_spec x largest) as [Hle|Hgt].
    { exists x, blocks, (replicate spare 0). rewrite cut_blocks_done by lia. auto with lia. }
    destruct fuel as [|fuel]; [lia|]. cbn [cut_blocks]. destruct (Z.leb_spec x largest); [lia|].
    unfold max_multiple_of_hundred_that_fits_in_64_bits, max_multiple_of_hundred_blocks in *.
    rewrite wrap_small by (pow2_consts; dlia). replace spare with (9 + (spare - 9))%nat by lia.
    rewrite replicate_add, put_blocks_spec by (try done; try lia; simpl; dlia). cbn [mbind outcome_bind].
    assert (100 ^ (9 * Z.of_nat (S n)) = 1000000000000000000 * 100 ^ (9 * Z.of_nat n)) as E.
    { rewrite Nat2Z.inj_succ, Z.mul_succ_r, Z.add_comm, Z.pow_add_r by lia. done. }
    pose proof (hundreds_blocks_of 9 (x mod 1000000000000000000) ltac:(simpl; dlia)) as Hh.
    pose proof (length_blocks_of 9 (x mod 1000000000000000000)) as Hl.
    destruct (IH fuel (x / 1000000000000000000) (blocks ++ blocks_of 9 (x mod 1000000000000000000)) (spare - 9)%nat)
      as (x' & blocks' & post & Hc & Hx' & Hb' & Hv); [lia| |by apply Forall_app; auto using blocks_of_range|lia|].
    { split; [dlia|]. apply Z.div_lt_upper_bound; [lia|]. lia. }
    assert (blen (blocks ++ blocks_of 9 (x mod 1000000000000000000)) = blen blocks + 9) as Hn.
    { rewrite blen_app. unfold blen at 2. rewrite Hl. done. }
    rewrite Hn, <- app_assoc in Hc. rewrite Hn in Hv. exists x', blocks', post. split; [exact Hc|]. do 2 (split; [done|]).
    rewrite Hv, hundreds_app, Hh, Z.pow_add_r by auto using blen_nonneg with lia. change (100 ^ 9) with 1000000000000000000.
    pose proof (Z.div_mod x 1000000000000000000 ltac:(lia)). nia.
Qed.

(** Printing what the loop leaves. *)
Lemma writes_cut_blocks (head : Z → writer) largest n spare x :
  max_multiple_of_hundred_that_fits_in_64_bits ≤ largest → (n ≤ 64)%nat → (9 * n ≤ spare)%nat →
  1 ≤ x < (largest + 1) * 100 ^ (9 * Z.of_nat n) →
  (∀ x', 1 ≤ x' ≤ largest → writes (head x') (decimal x')) →
  writes (λ buf p,
    '(x, two_values, current_block) ← cut_blocks 64 largest x (replicate spare 0) 0;
    '(buf, p) ← head x buf p;
    print_blocks (Z.to_nat current_block) two_values buf p) (decimal x).
Proof.
  intros Hbig Hn Hs Hx Hhead.
  destruct (cut_blocks_spec largest n Hbig 64 x [] spare Hn Hx ltac:(constructor) Hs)
    as (x' & blocks' & post & Hc & Hx' & Hb' & Hv).
  cbn [app] in Hc. rewrite blen_nil in Hc. rewrite Hc. cbn [mbind outcome_bind].
  assert (decimal x = decimal x' ++ concat (pair_of_int <$> reverse blocks')) as ->.
  { rewrite <- decimal_hundreds by (done || lia). f_equal. rewrite Hv, blen_nil, Z.pow_0_r. simpl. lia. }
  apply writes_seq; [by apply Hhead|]. rewrite to_nat_blen. apply print_blocks_spec; [done|by eexists].
Qed.

(** * 128 and 256 bits *)

Lemma shift_split x k : 0 ≤ k → Z.shiftl (Z.shiftr x k) k + x mod 2 ^ k = x.
Proof.
  intros Hk. rewrite Z.shiftl_mul_pow2, Z.shiftr_div_pow2 by done.
  pose proof (Z.div_mod x (2 ^ k) ltac:(pose proof (pow2_pos k); lia)). lia.
Qed.

Lemma shiftr_zero x k : 0 ≤ k → 0 ≤ x → Z.shiftr x k = 0 → x < 2 ^ k.
Proof.
  intros Hk Hx. rewrite Z.shiftr_div_pow2 by done. intros E. pose proof (pow2_pos k).
  pose proof (Z.div_mod x (2 ^ k) ltac:(lia)). pose proof (Z.mod_pos_bound x (2 ^ k) ltac:(lia)). lia.
Qed.

Lemma writes_64 x : 0 ≤ x < 2 ^ 64 → writes (to_text_from_integer 8 (u64 x)) (decimal x).
Proof.
  intros Hx. rewrite wrap_small by zlia. rewrite <- text_natural by lia. apply writes_to_text; [auto|zlia].
Qed.

Lemma writes_128 x : 0 ≤ x < 2 ^ 128 → writes (writeUIntText_128 x) (decimal x).
Proof.
  intros Hx. unfold writeUIntText_128. destruct (Z.eqb_spec (Z.shiftr x 64) 0) as [E|E].
  - apply writes_64. apply shiftr_zero in E; lia.
  - unfold u64 at 1. change (8 * 8) with 64. rewrite shift_split, wrap_small by zlia.
    assert (2 ^ 64 ≤ x).
    { destruct (Z.le_gt_cases (2 ^ 64) x); [done|]. destruct E. rewrite Z.shiftr_div_pow2 by lia.
      apply Z.div_small. lia. }
    apply (writes_cut_blocks (λ x, to_text_from_integer 8 (u64 x)) _ 2);
      [vm_compute; discriminate|lia|lia| |intros; apply writes_64; lia].
    split; [lia|]. eapply Z.lt_le_trans; [apply Hx|]. by vm_compute.
Qed.

(** The limb at [k] and the bits below it. *)
Lemma limb_split x k : 0 ≤ k → Z.shiftl (u64 (Z.shiftr x k)) k + x mod 2 ^ k = x mod 2 ^ (k + 64).
Proof.
  intros Hk. rewrite Z.shiftl_mul_pow2, Z.shiftr_div_pow2 by done. unfold wrap. change (8 * 8) with 64.
  rewrite Z.pow_add_r by lia. pose proof (pow2_pos k). rewrite Z.rem_mul_r by lia. lia.
Qed.

Lemma limbs_256 x : 0 ≤ x < 2 ^ 256 →
  Z.shiftl (Z.shiftr x 192) 192 + Z.shiftl (u64 (Z.shiftr x 128)) 128 + Z.shiftl (u64 (Z.shiftr x 64)) 64 + u64 x = x.
Proof.
  intros Hx. pose proof (limb_split x 64 ltac:(lia)) as H64. pose proof (limb_split x 128 ltac:(lia)) as H128.
  pose proof (shift_split x 192 ltac:(lia)) as H192.
  change (64 + 64) with 128 in H64. change (128 + 64) with 192 in H128. unfold wrap at 3. change (8 * 8) with 64. lia.
Qed.

Lemma writes_256 x : 0 ≤ x < 2 ^ 256 → writes (writeUIntText_256 x) (decimal x).
Proof.
  intros Hx. unfold writeUIntText_256. destruct (_ && _) eqn:E.
  - apply andb_true_iff in E as [E1%Z.eqb_eq E2%Z.eqb_eq].
    pose proof (limb_split x 128 ltac:(lia)) as H128. pose proof (shift_split x 192 ltac:(lia)) as H192.
    rewrite E1 in H192. rewrite E2 in H128. change (128 + 64) with 192 in H128. rewrite Z.shiftl_0_l in *.
    assert (x = x mod 2 ^ 128) as Ex by lia.
    assert (x < 2 ^ 128) by (rewrite Ex; apply Z.mod_pos_bound; lia).
    rewrite wrap_small by zlia. apply writes_128. lia.
  - rewrite limbs_256, wrap_small by zlia. assert (2 ^ 128 ≤ x).
    { destruct (Z.le_gt_cases (2 ^ 128) x) as [|Hs]; [done|]. rewrite !Z.shiftr_div_pow2 in E by lia.
      rewrite !Z.div_small in E by zlia. discriminate. }
    apply (writes_cut_blocks (λ x, writeUIntText_128 (u64 x + Z.shiftl (u64 (Z.shiftr x 64)) 64)) _ 3);
      [vm_compute; discriminate|lia|lia| |].
    + split; [lia|]. eapply Z.lt_le_trans; [apply Hx|]. by vm_compute.
    + intros x' Hx'. pose proof (limb_split x' 64 ltac:(lia)) as H64. change (64 + 64) with 128 in H64.
      rewrite (Z.mod_small x' (2 ^ 128)) in H64 by lia. unfold wrap at 1. change (8 * 8) with 64.
      rewrite Z.add_comm, H64. apply writes_128. lia.
Qed.

Lemma writes_signed_wide w x :
  w = 16 ∨ w = 32 → - 2 ^ (8 * w - 1) ≤ x < 2 ^ (8 * w - 1) → writes (writeSIntText w x) (text x).
Proof.
  intros Hw Hx. unfold writeSIntText.
  assert (to_signed w (Z.shiftl 1 (w * 8 - 1)) = - 2 ^ (8 * w - 1)) as -> by (destruct Hw as [-> | ->]; reflexivity).
  assert (∀ n, 0 ≤ n ≤ 2 ^ (8 * w - 1) → writes (writeUIntText w (wrap w n)) (decimal n)) as HU.
  { intros n Hn. rewrite wrap_small by (destruct Hw as [-> | ->]; zlia). unfold writeUIntText.
    destruct Hw as [-> | ->]; [apply writes_128|apply writes_256]; zlia. }
  destruct (Z.eqb_spec x (- 2 ^ (8 * w - 1))) as [->|].
  - replace (text _) with (min_int_text w) by (destruct Hw as [-> | ->]; vm_compute; reflexivity).
    apply writes_bytes.
  - unfold text. destruct (Z.ltb_spec x 0); [|apply HU; lia].
    assert (writes writeLeadingMinus [45]) as Hm by apply (writes_bytes [45]).
    change (45 :: decimal (- x)) with ([45] ++ decimal (- x)). apply (writes_seq _ _ _ _ Hm), HU. lia.
Qed.

Lemma writes_itoa T i : of_type T i → writes (itoa T i) (text i).
Proof.
  intros Hi. destruct T; unfold of_type, type_min, type_max in Hi; simpl type_size in *; simpl type_signed in *;
    cbv iota in Hi; simpl (8 * _) in Hi; simpl (_ - 1) in Hi; unfold itoa;
    try (apply writes_to_text; [auto|simpl type_size; zlia]);
    try (apply writes_signed_wide; [auto|simpl type_size; zlia]);
    rewrite text_natural by lia; [apply writes_128|apply writes_256]; lia.
Qed.

(** C31: [itoa], for every integer type from 8 to 256 bits and each of its values, writes exactly the
    decimal text of the value (a minus sign if negative, no leading zeros) and returns the end of it.
    The two-digit fixed-point steps, whose constants are computed in double, give the digits that
    repeated division by ten gives; no table is read and no byte is written outside of its bounds: a
    buffer as long as the text is enough. *)
Theorem itoa_writes_decimal (T : integer_type) (i : Z) (pre old : bytes) :
  of_type T i → blen (text i) ≤ blen old →
  itoa T i (pre ++ old) (blen pre) = Ret (pre ++ over (text i) old, blen pre + blen (text i)).
Proof. intros Hi Hl. by apply writes_itoa. Qed.

Lemma itoa_writes_decimal_witness :
  itoa Int128 (- 10 ^ 30) (chars "n = " ++ replicate 40 0) (blen (chars "n = ")) =
  Ret (chars "n = -1000000000000000000000000000000" ++ replicate 8 0, 36).
Proof.
  rewrite (itoa_writes_decimal Int128 (- 10 ^ 30) (chars "n = ") (replicate 40 0)).
  - reflexivity.
  - vm_compute; split; discriminate.
  - vm_compute; discriminate.
Defined.
