(* ===== verification/IntText.v ===== *)
(** Integers as text in buffers: [writeIntText] (src/src/IO/WriteIntText.h) over [WriteBuffer] and
    [readIntTextImpl] with its overflow checks (src/src/IO/ReadHelpers.h) over [ReadBuffer]. The
    digits are those of Itoa.v. *)

From stdpp Require Import base list tactics numbers.
From S2P Require Import Prelude Buffers Doubles Itoa.
Local Open Scope Z_scope.

(** * Writing *)

Definition max_int_width (T : integer_type) : Z :=
  match T with
  | UInt8 => 3
  | Int8 => 4
  | UInt16 => 5
  | Int16 => 6
  | UInt32 => 10
  | Int32 => 11
  | UInt64 => 20
  | Int64 => 20
  | UInt128 => 39
  | Int128 => 40
  | UInt256 => 78
  | Int256 => 78
  end.

Section writing.
Context {Sk : Type} `{WriteBuffer.NextImpl Sk}.
Implicit Types buf : WriteBuffer.t Sk.

(** [tmp] is not initialised; its contents do not matter. *)
Definition writeUIntTextFallback (T : integer_type) (x : Z) buf : outcome unit * WriteBuffer.t Sk :=
  match ('(tmp, end_) ← itoa T x (replicate (Z.to_nat (max_int_width T)) 0) 0;
         read_bytes tmp 0 end_) with
  | Ret data => WriteBuffer.write data buf
  | Throw e => (Throw e, buf)
  | UB => (UB, buf)
  | OutOfFuel => (OutOfFuel, buf)
  end.

Definition writeIntText (T : integer_type) (x : Z) buf : outcome unit * WriteBuffer.t Sk :=
  if WriteBuffer.wb_pos buf + max_int_width T <? blen (WriteBuffer.wb_working buf) then
    match itoa T x (WriteBuffer.wb_working buf) (WriteBuffer.wb_pos buf) with
    | Ret (working, pos) => (Ret tt, WriteBuffer.set_cursor buf working pos)
    | Throw e => (Throw e, buf)
    | UB => (UB, buf)
    | OutOfFuel => (OutOfFuel, buf)
    end
  else writeUIntTextFallback T x buf.
End writing.

(** * Reading *)

Import ReadBuffer.

(** [is_big_int_v]. *)
Definition is_big_int (T : integer_type) : bool := 8 <? type_size T.

(** [v] is a value of [T]; conversion to [T]. *)
Definition fits (T : integer_type) (v : Z) : bool := (type_min T <=? v) && (v <=? type_max T).
Definition convert (T : integer_type) (v : Z) : Z :=
  if type_signed T then to_signed (type_size T) v else wrap (type_size T) v.

(** [common::mulOverflow], [addOverflow] and [subOverflow] of values of a type that is not big: the
    exact result if it fits. *)
Definition mulOverflow (T : integer_type) (x y : Z) : option Z := if fits T (x * y) then Some (x * y) else None.
Definition addOverflow (T : integer_type) (x y : Z) : option Z := if fits T (x + y) then Some (x + y) else None.
Definition subOverflow (T : integer_type) (x y : Z) : option Z := if fits T (x - y) then Some (x - y) else None.

(** [std::numeric_limits<T>::max_digits10] is 0 for every integer type. *)
Definition max_digits10 (T : integer_type) : Z := 0.

Inductive ReadIntTextCheckOverflow := DO_NOT_CHECK_OVERFLOW | CHECK_OVERFLOW.
#[global] Instance ReadIntTextCheckOverflow_eq_dec : EqDecision ReadIntTextCheckOverflow.
Proof. solve_decision. Defined.

(** The local variables of [readIntTextImpl]. *)
Record locals := Locals { negative : bool; has_sign : bool; has_number : bool; res : Z }.

(** What one character does: the loop goes on, stops there, or the function returns false. With
    [throw_exception] a wrong sign throws instead; an overflow never does. *)
Inductive action := Continue (l : locals) | Stop | Refuse | Overflow.

Section reading.
Context (T : integer_type) (throw_exception : bool) (check_overflow : ReadIntTextCheckOverflow).

(** The case of a digit. [digits_so_far] is [buf.count() - initial_pos + 1]. *)
Definition on_digit (digits_so_far : Z) (c : Z) (l : locals) : action :=
  let unchecked := Locals (negative l) (has_sign l) true
      (wrap (type_size T) (wrap (type_size T) (res l * 10) + (c - 48))) in
  if bool_decide (check_overflow = CHECK_OVERFLOW) && negb (is_big_int T) then
    if max_digits10 T <=? digits_so_far then
      if negative l then
        let signed_res := convert T (- res l) in
        match mulOverflow T signed_res 10 ≫= λ signed_res, subOverflow T signed_res (c - 48) with
        | Some signed_res =>
            Continue (Locals (negative l) (has_sign l) true (wrap (type_size T) (- wrap (type_size T) signed_res)))
        | None => Overflow
        end
      else
        let signed_res := convert T (res l) in
        match mulOverflow T signed_res 10 ≫= λ signed_res, addOverflow T signed_res (c - 48) with
        | Some signed_res =>
            Continue (Locals (negative l) (has_sign l) true (wrap (type_size T) signed_res))
        | None => Overflow
        end
    else Continue unchecked
  else Continue unchecked.

(** The [switch]. *)
Definition on_char (digits_so_far : Z) (c : Z) (l : locals) : action :=
  if c =? 43 then
    if has_number l then Stop
    else if has_sign l then Refuse
    else Continue (Locals (negative l) true (has_number l) (res l))
  else if c =? 45 then
    if has_number l then Stop
    else if has_sign l then Refuse
    else if type_signed T then Continue (Locals true true (has_number l) (res l))
    else Refuse
  else if (48 <=? c) && (c <=? 57) then on_digit digits_so_far c l
  else Stop.

(** The loop: the variables at [end], or no variables if the function has returned false. *)
Fixpoint read_digits (fuel : nat) (initial_pos : Z) (l : locals) (buf : t) : outcome (option locals * t) :=
  let '(is_eof, buf) := eof buf in
  if is_eof then Ret (Some l, buf) else
  match fuel with
  | O => OutOfFuel
  | S fuel =>
      c ← load 1 (rb_working buf) (rb_pos buf);
      match on_char (u64 (u64 (count buf - initial_pos) + 1)) c l with
      | Continue l => read_digits fuel initial_pos l (advance buf 1)
      | Stop => Ret (Some l, buf)
      | Refuse => if throw_exception then Throw CANNOT_PARSE_NUMBER else Ret (None, buf)
      | Overflow => Ret (None, buf)
      end
  end.

(** After [end]: what is returned and assigned to [x]. *)
Definition finish (l : locals) (x : Z) : outcome (bool * Z) :=
  if has_sign l && negb (has_number l) then
    if throw_exception then Throw CANNOT_PARSE_NUMBER else Ret (false, x)
  else
    let x := convert T (res l) in
    if type_signed T && negative l then
      if bool_decide (check_overflow = CHECK_OVERFLOW) then
        if is_big_int T then Ret (true, convert T (convert T (res l) * -1))
        else if fits T (res l * -1) then Ret (true, res l * -1)
        else Ret (false, convert T (res l * -1))
      else Ret (true, convert T (- res l))
    else Ret (true, x).

(** The value returned (without [throw_exception]) and [x] after the call. *)
Definition readIntTextImpl (x : Z) (buf : t) : outcome (bool * Z * t) :=
  let '(is_eof, buf) := eof buf in
  if is_eof then (if throw_exception then Throw ATTEMPT_TO_READ_AFTER_EOF else Ret (false, x, buf)) else
  let initial_pos := count buf in
  '(l, buf) ← read_digits (S (length (remaining buf))) initial_pos (Locals false false false 0) buf;
  match l with
  | Some l => '(ok, x) ← finish l x; Ret (ok, x, buf)
  | None => Ret (false, x, buf)
  end.
End reading.

(** [readIntText] throws, [tryReadIntText] returns whether it has read a number. *)
Definition readIntText (check_overflow : ReadIntTextCheckOverflow) (T : integer_type) (x : Z) (buf : t) : outcome (Z * t) :=
  '(_, x, buf) ← readIntTextImpl T true check_overflow x buf; Ret (x, buf).

Definition tryReadIntText (T : integer_type) (x : Z) (buf : t) : outcome (bool * Z * t) :=
  readIntTextImpl T false CHECK_OVERFLOW x buf.

(** * The text of a number *)

(** The value of digits after [m]. *)
Definition value (m : Z) (ds : list Z) : Z := foldl (λ m d, m * 10 + d) m ds.

Abbreviation is_digit := (λ d, 0 ≤ d ≤ 9).

Lemma decimal_value_nat n : 0 ≤ n → ∃ ds, decimal n = digit <$> ds ∧ ds ≠ [] ∧ Forall is_digit ds ∧ value 0 ds = n.
Proof.
  intros Hn. induction (Z.lt_wf 0 n) as [n _ IH]. destruct (Z.lt_ge_cases n 10) as [Hs|Hs].
  - exists [n]. rewrite decimal_small by lia. split_and!; [done|done|constructor; [lia|constructor]|done].
  - destruct (IH (n / 10)) as (ds & Hd & _ & Hf & Hv); [dlia..|]. exists (ds ++ [n mod 10]).
    rewrite decimal_snoc, Hd, fmap_app by lia. split_and!; [done|by destruct ds| |].
    + apply Forall_app. split; [done|]. constructor; [dlia|constructor].
    + unfold value in *. rewrite foldl_app, Hv. simpl. dlia.
Qed.

Lemma decimal_blen k : ∀ n, 0 ≤ n < 10 ^ Z.of_nat (S k) → blen (decimal n) ≤ Z.of_nat (S k).
Proof.
  induction k as [|k IH]; intros n Hn.
  - rewrite decimal_small by (simpl in Hn; lia). done.
  - destruct (Z.lt_ge_cases n 10) as [Hs|Hs]; [rewrite decimal_small, blen_cons, blen_nil; lia|].
    rewrite decimal_snoc, blen_app, blen_cons, blen_nil by lia.
    rewrite Nat2Z.inj_succ, Z.pow_succ_r in Hn by lia. specialize (IH (n / 10)). dlia.
Qed.

(** The bounds of a concrete type as numbers. *)
Ltac type_bounds :=
  unfold of_type in *;
  repeat match goal with
  | H : context [type_min ?T] |- _ => let v := eval vm_compute in (type_min T) in change (type_min T) with v in H
  | H : context [type_max ?T] |- _ => let v := eval vm_compute in (type_max T) in change (type_max T) with v in H
  | |- context [type_min ?T] => let v := eval vm_compute in (type_min T) in change (type_min T) with v
  | |- context [type_max ?T] => let v := eval vm_compute in (type_max T) in change (type_max T) with v
  end.

Lemma text_fits_width T i : of_type T i → blen (text i) ≤ max_int_width T.
Proof.
  intros Hi. unfold text. destruct (Z.ltb_spec i 0).
  - rewrite blen_cons. assert (blen (decimal (- i)) ≤ Z.of_nat (S (Z.to_nat (max_int_width T - 2)))) as Hd.
    { apply decimal_blen. destruct T; type_bounds; match goal with |- _ ≤ _ < ?e => let v := eval vm_compute in e in change e with v end; lia. }
    destruct T; type_bounds; simpl in *; lia.
  - assert (blen (decimal i) ≤ Z.of_nat (S (Z.to_nat (max_int_width T - 1)))) as Hd.
    { apply decimal_blen. destruct T; type_bounds; match goal with |- _ ≤ _ < ?e => let v := eval vm_compute in e in change e with v end; lia. }
    destruct T; simpl in *; lia.
Qed.

Lemma decimal_bytes n : 0 ≤ n → is_bytes (decimal n).
Proof.
  intros Hn. destruct (decimal_value_nat n Hn) as (ds & -> & _ & Hd & _). apply Forall_fmap.
  eapply List.Forall_impl; [|exact Hd]. intros d Hr. unfold is_byte, compose, digit. simpl in Hr. lia.
Qed.

Lemma text_bytes i : is_bytes (text i).
Proof.
  unfold text. destruct (Z.ltb_spec i 0); [constructor; [done|]|]; apply decimal_bytes; lia.
Qed.

(** * What [writeIntText] writes *)

Section written.
Context {Sk : Type} `{WriteBuffer.Sink Sk}.

Lemma writeIntText_spec T i (wb : WriteBuffer.t Sk) bs :
  WriteBuffer.writes wb bs → of_type T i →
  match writeIntText T i wb with
  | (Ret _, wb') => WriteBuffer.writes wb' (bs ++ text i)
      ∧ WriteBuffer.wb_finalized wb' = WriteBuffer.wb_finalized wb
      ∧ WriteBuffer.wb_canceled wb' = WriteBuffer.wb_canceled wb
  | (Throw _, wb') => WriteBuffer.wb_finalized wb = false → WriteBuffer.pending wb' = []
  | _ => False
  end.
Proof.
  intros Hw Hi. pose proof (text_fits_width T i Hi) as Hlen. pose proof (writes_itoa T i Hi) as Ht.
  unfold writeIntText. destruct (Z.ltb_spec (WriteBuffer.wb_pos wb + max_int_width T) (blen (WriteBuffer.wb_working wb))).
  - pose proof Hw as [_ Hp _ _].
    destruct (split_at (WriteBuffer.wb_working wb) (WriteBuffer.wb_pos wb)) as (m1 & m23 & Hm & Hm1); [lia|].
    destruct (split_at m23 (blen (text i))) as (m2 & m3 & -> & Hm2); [rewrite Hm, blen_app in *; pose proof (blen_nonneg (text i)); lia|].
    rewrite Hm, Ht by blia. unfold over. unfold blen in Hm2. rewrite drop_app_length' by lia.
    destruct (WriteBuffer.writes_append wb bs m1 m2 m3 (text i) Hw Hm) as [Hw' _];
      [done|unfold blen; lia|apply text_bytes|]. done.
  - unfold writeUIntTextFallback. specialize (Ht [] (replicate (Z.to_nat (max_int_width T)) 0) 0).
    cbn [app] in Ht. rewrite Ht by (done || (rewrite blen_replicate; lia)). cbn [mbind outcome_bind]. unfold over. rewrite read_bytes_prefix by done.
    pose proof (WriteBuffer.write_spec (text i) wb bs Hw (text_bytes i)) as Hs.
    destruct (WriteBuffer.write _ wb) as [[] wb']; naive_solver.
Qed.
End written.

(** * The characters of a stream *)

Lemma eof_empty rb : wf rb → remaining rb = [] → ∃ rb', eof rb = (true, rb') ∧ wf rb' ∧ remaining rb' = [].
Proof.
  intros Hw Hr. destruct (eof_spec rb Hw) as (b & rb' & He & Hw' & Hr' & _ & Hb & _). exists rb'.
  rewrite He, Hr', Hr. split_and!; [|done|done]. destruct b; [done|]. by destruct (proj1 Hb).
Qed.

Lemma eof_char rb c s : wf rb → remaining rb = c :: s →
  ∃ rb', eof rb = (false, rb') ∧ wf rb' ∧ remaining rb' = c :: s ∧
    load 1 (rb_working rb') (rb_pos rb') = Ret c ∧ wf (advance rb' 1) ∧ remaining (advance rb' 1) = s.
Proof.
  intros Hw Hr. destruct (eof_spec rb Hw) as (b & rb' & He & Hw' & Hr' & _ & Hb & Ha). exists rb'.
  assert (b = false) as -> by (apply Hb; by rewrite Hr). destruct (Ha eq_refl) as [Hav _]. rewrite Hr in Hr'.
  split_and!; [done|done|done| |by apply wf_advance; [|lia]|].
  - pose proof Hw' as [_ Hp _]. destruct (split_at (rb_working rb') (rb_pos rb')) as (m1 & m2 & Hm & Hm1); [lia|].
    unfold remaining, available in *. rewrite Hm, <- Hm1, to_nat_blen, drop_app_length in *.
    destruct m2 as [|c' m2]; [rewrite Hm1, app_nil_r in Hav; blia|]. simplify_eq/=. by apply load_byte.
  - by rewrite remaining_advance, Hr' by (done || lia).
Qed.

(** The next character is not a digit. *)
Definition no_digit (rest : bytes) : Prop :=
  match rest with c :: _ => ¬ (48 ≤ c ≤ 57) | [] => True end.

(** * The digits *)

Lemma value_nonneg ds : ∀ m, 0 ≤ m → Forall is_digit ds → m ≤ value m ds.
Proof.
  induction ds as [|d ds IH]; intros m Hm Hd; [simpl; lia|]. inversion Hd as [|? ? H1 H2]; subst. simpl in H1.
  change (value m (d :: ds)) with (value (m * 10 + d) ds). specialize (IH (m * 10 + d) ltac:(lia) H2). lia.
Qed.

(** Digits taken one at a time, until one is not accepted. *)
Fixpoint accept_all (accept : Z → Z → option Z) (m : Z) (ds : list Z) : option Z :=
  match ds with
  | [] => Some m
  | d :: ds => m ← accept m d; accept_all accept m ds
  end.

Section loop.
Context (T : integer_type) (throw_exception : bool) (check_overflow : ReadIntTextCheckOverflow) (negative0 : bool).
Context (accept : Z → Z → option Z) (valid : Z → Prop).
Context (Haccept : ∀ n s h m d, 0 ≤ n → valid m → is_digit d →
  on_digit T check_overflow n (digit d) (Locals negative0 s h m) =
  match accept m d with Some m' => Continue (Locals negative0 s true m') | None => Overflow end).
Context (Hvalid : ∀ m d m', valid m → is_digit d → accept m d = Some m' → valid m').

Lemma on_char_digit n d l : is_digit d → on_char T check_overflow n (digit d) l = on_digit T check_overflow n (digit d) l.
Proof.
  intros Hd. unfold on_char, digit in *. simpl in Hd.
  destruct (Z.eqb_spec (48 + d) 43); [lia|]. destruct (Z.eqb_spec (48 + d) 45); [lia|].
  by destruct (Z.leb_spec 48 (48 + d)), (Z.leb_spec (48 + d) 57); try lia.
Qed.

Lemma on_char_stop n c l : ¬ (48 ≤ c ≤ 57) → has_number l = true → on_char T check_overflow n c l = Stop.
Proof.
  intros Hc Hn. unfold on_char. rewrite Hn. destruct (c =? 43); [done|]. destruct (c =? 45); [done|].
  by destruct (Z.leb_spec 48 c), (Z.leb_spec c 57); try lia.
Qed.

Lemma read_digits_stop fuel p l rb rest :
  wf rb → remaining rb = rest → no_digit rest → has_number l = true →
  ∃ rb', wf rb' ∧ remaining rb' = rest ∧ read_digits T throw_exception check_overflow (S fuel) p l rb = Ret (Some l, rb').
Proof.
  intros Hw Hr Hn Hh. cbn [read_digits]. destruct rest as [|c rest].
  - destruct (eof_empty rb Hw Hr) as (rb' & -> & Hw' & Hr'). eauto.
  - destruct (eof_char rb c rest Hw Hr) as (rb' & -> & Hw' & Hr' & -> & _). cbn [mbind outcome_bind].
    rewrite on_char_stop by done. eauto.
Qed.

Lemma read_digits_spec ds : ∀ fuel p s h m rb rest,
  wf rb → remaining rb = (digit <$> ds) ++ rest → no_digit rest → Forall is_digit ds → valid m →
  (h = true ∨ ds ≠ []) → (length ds < fuel)%nat →
  ∃ rb', wf rb' ∧
    match accept_all accept m ds with
    | Some m' => remaining rb' = rest ∧ read_digits T throw_exception check_overflow fuel p (Locals negative0 s h m) rb =
        Ret (Some (Locals negative0 s true m'), rb')
    | None => read_digits T throw_exception check_overflow fuel p (Locals negative0 s h m) rb = Ret (None, rb')
    end.
Proof.
  induction ds as [|d ds IH]; intros fuel p s h m rb rest Hw Hr Hn Hd Hm Hh Hf; destruct fuel as [|fuel]; try (simpl in Hf; lia).
  - destruct Hh as [-> |]; [|done].
    destruct (read_digits_stop fuel p (Locals negative0 s true m) rb rest Hw Hr Hn eq_refl) as (rb' & ? & ? & ?).
    exists rb'. by split_and!.
  - inversion Hd as [|? ? Hd0 Hds]; subst.
    destruct (eof_char rb (digit d) _ Hw Hr) as (rb1 & He & Hw1 & Hr1 & Hl & Hw2 & Hr2).
    cbn [read_digits]. rewrite He, Hl. cbn [mbind outcome_bind].
    rewrite on_char_digit, Haccept by (done || apply wrap_range; lia). cbn [accept_all].
    destruct (accept m d) as [m'|] eqn:Ha; cbn [mbind option_bind].
    + apply IH; eauto. simpl in Hf. lia.
    + eauto.
Qed.
End loop.

(** With the check, digits are accepted as long as the number is a value of the type. *)
Definition bound (T : integer_type) (negative : bool) : Z := if negative then - type_min T else type_max T.

Definition accept_checked (T : integer_type) (negative : bool) (m d : Z) : option Z :=
  if m * 10 + d <=? bound T negative then Some (m * 10 + d) else None.

Definition accept_unchecked (T : integer_type) (m d : Z) : option Z := Some (wrap (type_size T) (m * 10 + d)).

Lemma accept_all_checked T negative ds : ∀ m, 0 ≤ m ≤ bound T negative → Forall is_digit ds →
  accept_all (accept_checked T negative) m ds =
  if value m ds <=? bound T negative then Some (value m ds) else None.
Proof.
  induction ds as [|d ds IH]; intros m Hm Hd.
  - simpl. by destruct (Z.leb_spec m (bound T negative)); [|lia].
  - inversion Hd as [|? ? H1 H2]; subst. simpl in H1.
    change (value m (d :: ds)) with (value (m * 10 + d) ds). cbn [accept_all].
    assert (accept_checked T negative m d = if m * 10 + d <=? bound T negative then Some (m * 10 + d) else None) as -> by done.
    destruct (Z.leb_spec (m * 10 + d) (bound T negative)); cbn [mbind option_bind].
    + apply IH; [lia|done].
    + pose proof (value_nonneg ds (m * 10 + d) ltac:(lia) H2) as Hv. by destruct (Z.leb_spec (value (m * 10 + d) ds) (bound T negative)); [lia|].
Qed.

Lemma value_wrap w ds : ∀ m, wrap w (value (wrap w m) ds) = wrap w (value m ds).
Proof.
  induction ds as [|d ds IH]; intros m; [apply wrap_wrap|].
  change (wrap w (value (wrap w m * 10 + d) ds) = wrap w (value (m * 10 + d) ds)).
  rewrite <- (IH (wrap w m * 10 + d)), <- (IH (m * 10 + d)). do 2 f_equal.
  by rewrite <- wrap_add_l, wrap_mul_l, wrap_add_l.
Qed.

Lemma accept_all_unchecked T ds : ∀ m, 0 ≤ m < 2 ^ (8 * type_size T) →
  accept_all (accept_unchecked T) m ds = Some (wrap (type_size T) (value m ds)).
Proof.
  induction ds as [|d ds IH]; intros m Hm; [simpl; by rewrite wrap_small|].
  cbn [accept_all]. change (accept_unchecked T m d) with (Some (wrap (type_size T) (m * 10 + d))). cbn [mbind option_bind].
  rewrite IH, value_wrap by (apply wrap_range; destruct T; simpl; lia). done.
Qed.

(** * Values of a type *)

Lemma type_range T : type_min T ≤ 0 < type_max T ∧ - type_min T ≤ type_max T + 1 ∧ type_max T < 2 ^ (8 * type_size T) ∧
  - type_min T < 2 ^ (8 * type_size T) ∧ 1 ≤ type_size T.
Proof. destruct T; type_bounds; simpl; zlia. Qed.

Lemma fits_spec T v : fits T v = true ↔ of_type T v.
Proof. unfold fits, of_type. rewrite andb_true_iff, !Z.leb_le. done. Qed.

(** A value of the type is determined by its bits. *)
Lemma convert_eq T x v : of_type T v → wrap (type_size T) x = wrap (type_size T) v → convert T x = v.
Proof.
  intros Hv Hx. unfold convert. destruct (type_signed T) eqn:Hs.
  - rewrite (to_signed_wrap_arg _ _ _ Hx), <- (to_signed_wrap_arg _ _ _ (wrap_wrap _ v)).
    apply to_signed_id; [destruct T; simpl; lia|]. unfold of_type, type_min, type_max in Hv. rewrite Hs in Hv. lia.
  - rewrite Hx. apply wrap_small. unfold of_type, type_min, type_max in Hv. rewrite Hs in Hv. lia.
Qed.

Lemma on_digit_checked T neg : is_big_int T = false → ∀ n s h m d, 0 ≤ n → 0 ≤ m ≤ bound T neg → is_digit d →
  on_digit T CHECK_OVERFLOW n (digit d) (Locals neg s h m) =
  match accept_checked T neg m d with Some m' => Continue (Locals neg s true m') | None => Overflow end.
Proof.
  intros Hbig n s h m d Hn Hm Hd. unfold on_digit, accept_checked, max_digits10. simpl in Hd. cbn [negative has_sign res].
  rewrite Hbig, bool_decide_true by done. destruct (Z.leb_spec 0 n); [|lia]. cbn [andb negb].
  pose proof (type_range T) as (H0 & H1 & H2 & H3 & _). unfold bound, digit, mulOverflow, subOverflow, addOverflow in *.
  replace (48 + d - 48) with d by lia. destruct neg.
  - rewrite (convert_eq T (- m) (- m)) by (done || (unfold of_type; lia)).
    destruct (fits T (- m * 10)) eqn:E1; cbn [mbind option_bind].
    + apply fits_spec in E1. unfold of_type in E1. destruct (fits T (- m * 10 - d)) eqn:E2.
      * apply fits_spec in E2. unfold of_type in E2. destruct (Z.leb_spec (m * 10 + d) (- type_min T)); [|lia].
        rewrite wrap_opp, wrap_small by lia. do 2 f_equal. lia.
      * destruct (Z.leb_spec (m * 10 + d) (- type_min T)); [|done].
        rewrite (proj2 (fits_spec T _)) in E2 by (unfold of_type; lia). done.
    + destruct (Z.leb_spec (m * 10 + d) (- type_min T)); [|done].
      rewrite (proj2 (fits_spec T _)) in E1 by (unfold of_type; lia). done.
  - rewrite (convert_eq T m m) by (done || (unfold of_type; lia)).
    destruct (fits T (m * 10)) eqn:E1; cbn [mbind option_bind].
    + apply fits_spec in E1. unfold of_type in E1. destruct (fits T (m * 10 + d)) eqn:E2.
      * apply fits_spec in E2. unfold of_type in E2. destruct (Z.leb_spec (m * 10 + d) (type_max T)); [|lia].
        by rewrite wrap_small by lia.
      * destruct (Z.leb_spec (m * 10 + d) (type_max T)); [|done].
        rewrite (proj2 (fits_spec T _)) in E2 by (unfold of_type; lia). done.
    + destruct (Z.leb_spec (m * 10 + d) (type_max T)); [|done].
      rewrite (proj2 (fits_spec T _)) in E1 by (unfold of_type; lia). done.
Qed.

Lemma on_digit_unchecked T check neg : check = DO_NOT_CHECK_OVERFLOW ∨ is_big_int T = true →
  ∀ n s h m d, on_digit T check n (digit d) (Locals neg s h m) =
  Continue (Locals neg s true (wrap (type_size T) (m * 10 + d))).
Proof.
  intros Hc n s h m d. unfold on_digit, digit. cbn [negative has_sign res].
  assert (bool_decide (check = CHECK_OVERFLOW) && negb (is_big_int T) = false) as ->.
  { destruct Hc as [-> | ->]; [done|]. apply andb_false_r. }
  rewrite wrap_add_l. do 3 f_equal. lia.
Qed.

Lemma wrap_convert T v : wrap (type_size T) (convert T v) = wrap (type_size T) v.
Proof. unfold convert. pose proof (type_range T). destruct (type_signed T); [apply to_signed_mod; lia|apply wrap_wrap]. Qed.

Lemma convert_in_type T v : of_type T (convert T v).
Proof.
  pose proof (type_range T) as (_ & _ & _ & _ & Hw). unfold of_type, convert, type_min, type_max.
  destruct (type_signed T); [pose proof (to_signed_range (type_size T) v Hw)|pose proof (wrap_range (type_size T) v)]; lia.
Qed.

(** Conversion depends on the bits alone. *)
Lemma convert_cong T x y : wrap (type_size T) x = wrap (type_size T) y → convert T x = convert T y.
Proof. intros Hx. apply convert_eq; [apply convert_in_type|]. by rewrite wrap_convert. Qed.

Lemma convert_fits T v : fits T v = true → convert T v = v.
Proof. intros Hv%fits_spec. by apply convert_eq. Qed.

(** * Signs *)

Inductive sign := NoSign | Plus | Minus.
#[global] Instance sign_eq_dec : EqDecision sign.
Proof. solve_decision. Defined.

Definition sign_text (sg : sign) : bytes := match sg with NoSign => [] | Plus => [43] | Minus => [45] end.
Definition is_minus (sg : sign) : bool := match sg with Minus => true | _ => false end.
Definition is_written (sg : sign) : bool := match sg with NoSign => false | _ => true end.

(** The number with this sign and these digits. *)
Definition number (sg : sign) (ds : list Z) : Z := if is_minus sg then - value 0 ds else value 0 ds.

Section whole.
Context (T : integer_type) (throw_exception : bool) (check : ReadIntTextCheckOverflow).
Context (sg : sign) (ds : list Z) (rest : bytes) (rb : t) (x : Z).
Context (Hsigned : is_minus sg = true → type_signed T = true) (Hds : Forall is_digit ds) (Hne : ds ≠ []) (Hrest : no_digit rest).
Context (Hwf : wf rb) (Hrem : remaining rb = sign_text sg ++ (digit <$> ds) ++ rest).

Lemma read_number (accept : Z → Z → option Z) (valid : Z → Prop) :
  (∀ n s h m d, 0 ≤ n → valid m → is_digit d →
    on_digit T check n (digit d) (Locals (is_minus sg) s h m) =
    match accept m d with Some m' => Continue (Locals (is_minus sg) s true m') | None => Overflow end) →
  (∀ m d m', valid m → is_digit d → accept m d = Some m' → valid m') → valid 0 →
  ∃ rb', wf rb' ∧
    match accept_all accept 0 ds with
    | Some m => remaining rb' = rest ∧ readIntTextImpl T throw_exception check x rb =
        ('(ok, x) ← finish T throw_exception check (Locals (is_minus sg) (is_written sg) true m) x; Ret (ok, x, rb'))
    | None => readIntTextImpl T throw_exception check x rb = Ret (false, x, rb')
    end.
Proof.
  intros Haccept Hvalid H0.
  assert (∃ c s, remaining rb = c :: s) as (c & s & Hcs).
  { rewrite Hrem. destruct sg; simpl; eauto. destruct ds; [done|]. simpl. eauto. }
  destruct (eof_char rb c s Hwf Hcs) as (rb1 & He & Hw1 & Hr1 & Hl1 & Hwa & Hra). unfold readIntTextImpl. rewrite He.
  assert (∀ fuel p rb2, wf rb2 → remaining rb2 = (digit <$> ds) ++ rest → (length ds < fuel)%nat → ∃ rb', wf rb' ∧
    match accept_all accept 0 ds with
    | Some m' => remaining rb' = rest ∧ read_digits T throw_exception check fuel p (Locals (is_minus sg) (is_written sg) false 0) rb2 =
        Ret (Some (Locals (is_minus sg) (is_written sg) true m'), rb')
    | None => read_digits T throw_exception check fuel p (Locals (is_minus sg) (is_written sg) false 0) rb2 = Ret (None, rb')
    end) as Hdigits.
  { intros fuel p rb2 Hw2 Hr2 Hf. apply (read_digits_spec T throw_exception check (is_minus sg) accept valid Haccept Hvalid ds); auto. }
  rewrite <- Hcs in Hr1. rewrite Hrem in Hr1, Hcs.
  assert (∃ fuel p rb2, wf rb2 ∧ remaining rb2 = (digit <$> ds) ++ rest ∧ (length ds < fuel)%nat ∧
    read_digits T throw_exception check (S (length (remaining rb1))) (count rb1) (Locals false false false 0) rb1 =
    read_digits T throw_exception check fuel p (Locals (is_minus sg) (is_written sg) false 0) rb2) as (fuel & p & rb2 & Hw2 & Hr2 & Hf & ->).
  { destruct (decide (sg = NoSign)) as [->|Hsg].
    - exists (S (length (remaining rb1))), (count rb1), rb1. split_and!; [done|done| |done].
      rewrite Hr1. simpl. rewrite length_app, length_fmap. lia.
    - destruct (eof_char rb1 c s Hw1) as (rb2 & He2 & Hw2 & Hr2 & Hl2 & Hwa2 & Hra2); [by rewrite Hr1|].
      exists (length (remaining rb1)), (count rb1), (advance rb2 1). split_and!; [done| | |].
      + rewrite Hra2. destruct sg; [done|by simplify_eq/=|by simplify_eq/=].
      + rewrite Hr1, !length_app, length_fmap. destruct sg; simpl; [done|lia|lia].
      + cbn [read_digits]. rewrite He2, Hl2. cbn [mbind outcome_bind].
        destruct sg; [done|by simplify_eq/=|]. simplify_eq/=. unfold on_char. simpl. by rewrite Hsigned. }
  destruct (Hdigits fuel p rb2 Hw2 Hr2 Hf) as (rb' & Hw' & Hd). exists rb'. split; [done|].
  destruct (accept_all accept 0 ds) as [m|]; [destruct Hd as [Hr' ->]; by split|by rewrite Hd].
Qed.

Lemma value_zero_nonneg : 0 ≤ value 0 ds.
Proof. by apply value_nonneg. Qed.

(** With the check, exactly the values of the type are read. *)
Lemma read_checked : check = CHECK_OVERFLOW → is_big_int T = false → ∃ rb', wf rb' ∧
  if fits T (number sg ds) then
    remaining rb' = rest ∧ readIntTextImpl T throw_exception check x rb = Ret (true, number sg ds, rb')
  else readIntTextImpl T throw_exception check x rb = Ret (false, x, rb').
Proof.
  intros Hcheck Hbig. pose proof (type_range T) as (H0 & H1 & H2 & H3 & _). pose proof value_zero_nonneg as Hv.
  assert (0 ≤ bound T (is_minus sg)) by (unfold bound; destruct (is_minus sg); lia).
  destruct (read_number (accept_checked T (is_minus sg)) (λ m, 0 ≤ m ≤ bound T (is_minus sg))) as (rb' & Hw' & Hr).
  - intros. rewrite Hcheck. by apply on_digit_checked.
  - intros m d m' Hm Hd. unfold accept_checked. simpl in Hd. destruct (Z.leb_spec (m * 10 + d) (bound T (is_minus sg))); naive_solver lia.
  - lia.
  - exists rb'. split; [done|]. rewrite accept_all_checked in Hr by (done || lia).
    assert (fits T (number sg ds) = (value 0 ds <=? bound T (is_minus sg))) as ->.
    { unfold fits, number, bound. destruct (is_minus sg); zcases; lia || done. }
    destruct (Z.leb_spec (value 0 ds) (bound T (is_minus sg))) as [Hle|]; [|done].
    destruct Hr as [Hr' ->]. split; [done|]. unfold finish, number. cbn [negative has_sign has_number res].
    rewrite andb_false_r, Hbig, bool_decide_true by done. unfold bound in Hle. destruct (is_minus sg) eqn:Hm.
    + rewrite Hsigned by done. cbn [andb]. rewrite (proj2 (fits_spec T _)) by (unfold of_type; lia).
      cbn [mbind outcome_bind]. do 3 f_equal. lia.
    + rewrite andb_false_r. cbn [mbind outcome_bind]. by rewrite (convert_eq T _ (value 0 ds)) by (done || (unfold of_type; lia)).
Qed.

(** Without the check, numbers wrap around. *)
Lemma read_unchecked : check = DO_NOT_CHECK_OVERFLOW ∨ is_big_int T = true →
  ∃ rb', wf rb' ∧ remaining rb' = rest ∧ readIntTextImpl T throw_exception check x rb = Ret (true, convert T (number sg ds), rb').
Proof.
  intros Hcheck. pose proof (type_range T) as (H0 & H1 & H2 & H3 & Hw).
  destruct (read_number (accept_unchecked T) (λ m, 0 ≤ m < 2 ^ (8 * type_size T))) as (rb' & Hw' & Hr).
  - intros. by apply on_digit_unchecked.
  - intros m d m' Hm Hd. unfold accept_unchecked. intros. simplify_eq. apply wrap_range. lia.
  - split; [lia|]. apply Z.pow_pos_nonneg; lia.
  - exists rb'. split; [done|]. rewrite accept_all_unchecked in Hr by (split; [lia|apply Z.pow_pos_nonneg; lia]).
    destruct Hr as [Hr' ->]. split; [done|]. unfold finish, number in *. cbn [negative has_sign has_number res].
    rewrite andb_false_r. destruct (is_minus sg) eqn:Hm.
    + rewrite Hsigned by done. cbn [andb]. case_bool_decide.
      * destruct Hcheck as [|Hbig]; [congruence|]. rewrite Hbig. cbn [mbind outcome_bind].
        rewrite (convert_cong T _ (- value 0 ds)); [done|]. rewrite <- wrap_mul_l, wrap_convert, wrap_wrap, wrap_mul_l. f_equal. lia.
      * cbn [mbind outcome_bind]. rewrite (convert_cong T _ (- value 0 ds)); [done|]. apply wrap_opp.
    + rewrite andb_false_r. cbn [mbind outcome_bind]. rewrite (convert_cong T _ (value 0 ds)); [done|]. apply wrap_wrap.
Qed.
End whole.

(** A minus in front of a number without sign. *)
Lemma read_minus_refused T throw_exception check rb s x :
  wf rb → remaining rb = 45 :: s → type_signed T = false →
  ∃ rb', readIntTextImpl T throw_exception check x rb =
    (if throw_exception then Throw CANNOT_PARSE_NUMBER else Ret (false, x, rb')).
Proof.
  intros Hw Hr Hs. destruct (eof_char rb 45 s Hw Hr) as (rb1 & He & Hw1 & Hr1 & _).
  destruct (eof_char rb1 45 s Hw1 Hr1) as (rb2 & He2 & _ & _ & Hl2 & _).
  exists rb2. unfold readIntTextImpl. rewrite He. cbn [read_digits]. rewrite He2, Hl2. cbn [mbind outcome_bind].
  unfold on_char. simpl. rewrite Hs. by destruct throw_exception.
Qed.

(** The text of an integer has a sign and digits. *)
Lemma text_number i : ∃ sg ds, text i = sign_text sg ++ (digit <$> ds) ∧ ds ≠ [] ∧ Forall is_digit ds ∧ number sg ds = i ∧
  (is_minus sg = true ↔ i < 0).
Proof.
  unfold text. destruct (Z.ltb_spec i 0).
  - destruct (decimal_value_nat (- i)) as (ds & -> & Hne & Hd & Hv); [lia|]. exists Minus, ds. unfold number. simpl.
    split_and!; [done|done|done|lia|done].
  - destruct (decimal_value_nat i) as (ds & -> & Hne & Hd & Hv); [lia|]. exists NoSign, ds. unfold number. simpl.
    split_and!; [done|done|done|done|]. split; [done|lia].
Qed.

Lemma read_text T throw_exception check i rb rest x :
  of_type T i → wf rb → remaining rb = text i ++ rest → no_digit rest →
  ∃ rb', wf rb' ∧ remaining rb' = rest ∧ readIntTextImpl T throw_exception check x rb = Ret (true, i, rb').
Proof.
  intros Hi Hw Hr Hn. destruct (text_number i) as (sg & ds & Ht & Hne & Hd & Hv & Hneg). rewrite Ht, <- app_assoc in Hr.
  assert (is_minus sg = true → type_signed T = true) as Hs.
  { intros Hm%Hneg. unfold of_type, type_min in Hi. destruct (type_signed T); [done|lia]. }
  subst i. destruct (decide (check = CHECK_OVERFLOW ∧ is_big_int T = false)) as [[Hc Hbig]|Hcb].
  - destruct (read_checked T throw_exception check sg ds rest rb x Hs Hd Hne Hn Hw Hr Hc Hbig) as (rb' & ? & Hread).
    rewrite (proj2 (fits_spec T _) Hi) in Hread. exists rb'. naive_solver.
  - rewrite <- (convert_fits T (number sg ds)) by (by apply fits_spec).
    apply (read_unchecked T throw_exception check sg ds rest rb x); try done.
    destruct check; [by left|]. destruct (is_big_int T); [by right|]. by destruct Hcb.
Qed.

(** * Arbitrary input *)

Lemma read_digits_safe T throw_exception check fuel : ∀ p l rb,
  wf rb → (length (remaining rb) < fuel)%nat → safe (read_digits T throw_exception check fuel p l rb) (λ r, wf r.2).
Proof.
  induction fuel as [|fuel IH]; intros p l rb Hw Hf; [lia|]. cbn [read_digits]. destruct (remaining rb) as [|c s] eqn:Hr.
  - destruct (eof_empty rb Hw Hr) as (rb' & -> & Hw' & _). done.
  - destruct (eof_char rb c s Hw Hr) as (rb' & -> & Hw' & _ & -> & Hwa & Hra). cbn [mbind outcome_bind].
    destruct (on_char _ _ _ _ _); [|done|by destruct throw_exception|done].
    apply IH; [done|]. rewrite Hra. simpl in Hf. lia.
Qed.

Lemma finish_in_type T throw_exception check l x :
  of_type T x → safe (finish T throw_exception check l x) (λ r, of_type T r.2).
Proof.
  intros Hx. unfold finish. destruct (_ && negb _); [by destruct throw_exception|].
  destruct (type_signed T && _); [|apply convert_in_type]. case_bool_decide; [|apply convert_in_type].
  destruct (is_big_int T); [apply convert_in_type|]. destruct (fits T (res l * -1)) eqn:E; [by apply fits_spec|apply convert_in_type].
Qed.

(** Whatever the input is, reading an integer is defined and ends, and [x] remains a value of its type. *)
Lemma readIntTextImpl_safe T throw_exception check x rb :
  wf rb → of_type T x → safe (readIntTextImpl T throw_exception check x rb) (λ '(_, x', rb'), of_type T x' ∧ wf rb').
Proof.
  intros Hw Hx. unfold readIntTextImpl. destruct (eof_spec rb Hw) as (b & rb1 & -> & Hw1 & _).
  destruct b; [by destruct throw_exception|]. eapply safe_bind; [apply read_digits_safe; [done|lia]|].
  intros [[l|] rb2] Hw2; [|done]. eapply safe_bind; [by apply finish_in_type|]. by intros [ok x'].
Qed.

Lemma read_digits_returns T check fuel : ∀ p l rb, wf rb → (length (remaining rb) < fuel)%nat →
  ∃ r, read_digits T false check fuel p l rb = Ret r.
Proof.
  induction fuel as [|fuel IH]; intros p l rb Hw Hf; [lia|]. cbn [read_digits]. destruct (remaining rb) as [|c s] eqn:Hr.
  - destruct (eof_empty rb Hw Hr) as (rb' & -> & Hw' & _). eauto.
  - destruct (eof_char rb c s Hw Hr) as (rb' & -> & Hw' & _ & -> & Hwa & Hra). cbn [mbind outcome_bind].
    destruct (on_char _ _ _ _ _); eauto. apply IH; [done|]. rewrite Hra. simpl in Hf. lia.
Qed.

(** The variant that returns a bool does not throw. *)
Lemma readIntTextImpl_returns T check x rb : wf rb → ∃ r, readIntTextImpl T false check x rb = Ret r.
Proof.
  intros Hw. unfold readIntTextImpl. destruct (eof_spec rb Hw) as (b & rb1 & -> & Hw1 & _). destruct b; [eauto|].
  destruct (read_digits_returns T check (S (length (remaining rb1))) (count rb1) (Locals false false false 0) rb1 Hw1) as [[o rb2] ->]; [lia|].
  cbn [mbind outcome_bind]. destruct o as [l|]; [|eauto]. unfold finish.
  repeat match goal with |- context [if ?b then _ else _] => destruct b end; cbn [mbind outcome_bind]; eauto.
Qed.

(** C32: What [writeIntText] writes, [readIntTextImpl] reads back, for every integer type and value,
    with or without exceptions and overflow checks: the writer appends exactly the decimal text,
    whether it prints into the buffer or, near its end, into a temporary array; the reader, however
    its input is cut into buffers, returns the value and stops after the text if no digit follows. *)
Theorem int_text_roundtrip {Sk : Type} `{WriteBuffer.Sink Sk} (T : integer_type) (i : Z) (wb : WriteBuffer.t Sk) (bs : bytes)
    (rb : t) (rest : bytes) (throw_exception : bool) (check : ReadIntTextCheckOverflow) (x : Z) :
  of_type T i → WriteBuffer.writes wb bs → wf rb → remaining rb = text i ++ rest → no_digit rest →
  match writeIntText T i wb with
  | (Ret _, wb') => WriteBuffer.writes wb' (bs ++ text i)
  | (Throw _, wb') => WriteBuffer.wb_finalized wb = false → WriteBuffer.pending wb' = []
  | _ => False
  end ∧
  ∃ rb', readIntTextImpl T throw_exception check x rb = Ret (true, i, rb') ∧ remaining rb' = rest.
Proof.
  intros Hi Hwb Hw Hr Hn. split.
  - pose proof (writeIntText_spec T i wb bs Hwb Hi) as Hs. destruct (writeIntText T i wb) as [[] wb']; naive_solver.
  - destruct (read_text T throw_exception check i rb rest x Hi Hw Hr Hn) as (rb' & _ & ? & ?). eauto.
Qed.

(** The text is longer than the buffer and split over two buffers of the reader. *)
Lemma int_text_roundtrip_witness :
  (∃ wb', writeIntText Int64 (-1234) (WriteBuffer.create 4 (WriteBuffer.File [9] 100)) = (Ret tt, wb') ∧
     WriteBuffer.file_data (WriteBuffer.wb_sink wb') ++ WriteBuffer.pending wb' = [9; 45; 49; 50; 51; 52]) ∧
  ∃ rb', readIntTextImpl Int64 true CHECK_OVERFLOW 0 (mk [45; 49] 0 0 [([50; 51; 52; 95], 0)]) = Ret (true, -1234, rb') ∧ remaining rb' = [95].
Proof.
  destruct (int_text_roundtrip Int64 (-1234) (WriteBuffer.create 4 (WriteBuffer.File [9] 100)) [9]
    (mk [45; 49] 0 0 [([50; 51; 52; 95], 0)]) [95] true CHECK_OVERFLOW 0) as [Hw Hr].
  - vm_compute. split; discriminate.
  - apply WriteBuffer.create_writes; [vm_compute; split; [reflexivity|discriminate]|reflexivity].
  - split; [by apply is_bytes_compute|vm_compute; split; discriminate|].
    constructor; [|constructor]. split; [by apply is_bytes_compute|vm_compute; split; [discriminate|reflexivity]].
  - reflexivity.
  - simpl. lia.
  - split; [|exact Hr]. clear. eexists. split; [vm_compute; reflexivity|reflexivity].
Defined.

(** C33: What [readIntTextImpl] reads from an optional sign and one or more digits, leading zeros
    included, after which no further digit comes, for every integer type, with and without exceptions
    and the overflow check. A minus in front of a
    type without sign is refused, with CANNOT_PARSE_NUMBER where exceptions are asked for. A value of
    the type is read, and the input is left after its last digit. A number that is no value of the
    type is refused by the check, which returns false, throws nothing and leaves [x] as it was; it
    wraps around and is accepted where there is no check, be it that none is asked for or that the
    type has 128 or 256 bits, for which the check that [tryReadIntText] asks for is not made. *)
Theorem read_int_text_exact (T : integer_type) (throw_exception : bool) (check : ReadIntTextCheckOverflow)
    (sg : sign) (ds : list Z) (rest : bytes) (rb : t) (x : Z) :
  Forall is_digit ds → ds ≠ [] → no_digit rest → wf rb → remaining rb = sign_text sg ++ (digit <$> ds) ++ rest →
  ∃ rb', if is_minus sg && negb (type_signed T) then
      readIntTextImpl T throw_exception check x rb =
        (if throw_exception then Throw CANNOT_PARSE_NUMBER else Ret (false, x, rb'))
    else if fits T (number sg ds) then
      readIntTextImpl T throw_exception check x rb = Ret (true, number sg ds, rb') ∧ remaining rb' = rest
    else if bool_decide (check = CHECK_OVERFLOW) && negb (is_big_int T) then
      readIntTextImpl T throw_exception check x rb = Ret (false, x, rb')
    else
      readIntTextImpl T throw_exception check x rb = Ret (true, convert T (number sg ds), rb') ∧ remaining rb' = rest.
Proof.
  intros Hd Hne Hn Hw Hr. destruct (is_minus sg && negb (type_signed T)) eqn:Hm.
  { apply andb_true_iff in Hm as [Hm Hs%negb_true_iff]. destruct sg; try done.
    by apply (read_minus_refused T _ _ rb ((digit <$> ds) ++ rest)). }
  assert (is_minus sg = true → type_signed T = true) as Hs by (intros Hms; rewrite Hms in Hm; by destruct (type_signed T)).
  case_bool_decide as Hc; [destruct (is_big_int T) eqn:Hbig|]; cbn [andb negb].
  2: { destruct (read_checked T throw_exception check sg ds rest rb x Hs Hd Hne Hn Hw Hr Hc Hbig) as (rb' & _ & Hread).
       exists rb'. destruct (fits T (number sg ds)); naive_solver. }
  all: destruct (read_unchecked T throw_exception check sg ds rest rb x Hs Hd Hne Hn Hw Hr) as (rb' & _ & Hrest & Hread);
    [destruct check; auto|]; exists rb'; destruct (fits T (number sg ds)) eqn:Hf; [rewrite convert_fits in Hread by done|]; by split.
Qed.

Lemma read_int_text_exact_witness :
  (∃ rb', tryReadIntText Int8 5 (from_memory [45; 48; 49; 50; 56; 44]) = Ret (true, -128, rb') ∧ remaining rb' = [44]) ∧
  (∃ rb', tryReadIntText Int8 5 (from_memory [43; 49; 50; 56]) = Ret (false, 5, rb')).
Proof.
  split.
  - destruct (read_int_text_exact Int8 false CHECK_OVERFLOW Minus [0; 1; 2; 8] [44] (from_memory [45; 48; 49; 50; 56; 44]) 5) as (rb' & Hr);
      [repeat (constructor; [simpl; lia|]); constructor|done|simpl; lia|apply wf_from_memory; by apply is_bytes_compute|reflexivity|].
    exists rb'. exact Hr.
  - destruct (read_int_text_exact Int8 false CHECK_OVERFLOW Plus [1; 2; 8] [] (from_memory [43; 49; 50; 56]) 5) as (rb' & Hr);
      [repeat (constructor; [simpl; lia|]); constructor|done|done|apply wf_from_memory; by apply is_bytes_compute|reflexivity|].
    exists rb'. exact Hr.
Defined.

(** [2 ^ 128] is accepted as 0 by [tryReadIntText] of a type of 128 bits. *)
Lemma wide_overflow_accepted :
  match tryReadIntText UInt128 5 (from_memory (text (2 ^ 128))) with
  | Ret (ok, x, _) => (ok, x) = (true, 0)
  | _ => False
  end.
Proof. vm_compute. reflexivity. Qed.

(** The variant that throws does not: with the overflow check, which only the reader of times of day
    asks of it, a number that is too large is not reported and leaves [x] as it was. *)
Theorem checked_overflow_not_thrown (T : integer_type) (sg : sign) (ds : list Z) (rest : bytes) (rb : t) (x : Z) :
  is_big_int T = false → (is_minus sg = true → type_signed T = true) →
  Forall is_digit ds → ds ≠ [] → no_digit rest → wf rb → remaining rb = sign_text sg ++ (digit <$> ds) ++ rest →
  fits T (number sg ds) = false → ∃ rb', readIntText CHECK_OVERFLOW T x rb = Ret (x, rb').
Proof.
  intros Hbig Hs Hd Hne Hn Hw Hr Hf. unfold readIntText.
  destruct (read_checked T true CHECK_OVERFLOW sg ds rest rb x Hs Hd Hne Hn Hw Hr eq_refl Hbig) as (rb' & _ & Hread).
  rewrite Hf in Hread. exists rb'. by rewrite Hread.
Qed.
