(* ===== verification/PartInfo.v ===== *)
(** Names and block ranges of data parts: [MergeTreePartInfo] and [DetachedPartInfo]
    (src/src/Storages/MergeTree/MergeTreePartInfo.h and .cpp), with the readers of characters they
    use (src/src/IO/ReadHelpers.h).

    Strings are lists of bytes. A name is parsed from a buffer in memory; writing to a string that
    grows appends. *)

From Stdlib Require Import String.
From stdpp Require Import base list tactics numbers sets sorting.
From S2P Require Import Prelude Buffers Itoa IntText.
Local Open Scope Z_scope.

(** * Characters *)

Section characters.
Import ReadBuffer.

(** [ignore()]. *)
Definition ignore_char (rb : t) : outcome t :=
  let '(is_eof, rb) := eof rb in
  if is_eof then Throw ATTEMPT_TO_READ_AFTER_EOF else Ret (advance rb 1).

Definition checkChar (c : Z) (rb : t) : outcome (bool * t) :=
  '(a, rb) ← peek rb;
  match a with
  | Some a => if a =? c then rb ← ignore_char rb; Ret (true, rb) else Ret (false, rb)
  | None => Ret (false, rb)
  end.

Definition readChar (rb : t) : outcome (Z * t) :=
  let '(is_eof, rb) := eof rb in
  if is_eof then Throw ATTEMPT_TO_READ_AFTER_EOF else
  x ← load 1 (rb_working rb) (rb_pos rb);
  Ret (x, advance rb 1).
End characters.

(** What [writeIntText] appends to a string. *)
Definition printed (T : integer_type) (x : Z) : outcome bytes :=
  '(tmp, end_) ← itoa T x (replicate (Z.to_nat (max_int_width T)) 0) 0;
  read_bytes tmp 0 end_.

(** * MergeTreePartInfo *)

Module MergeTreePartInfo.

Record t := mk {
  partition_id : bytes;
  min_block : Z;
  max_block : Z;
  level : Z;
  mutation : Z;
  use_legacy_max_level : bool;
}.

#[global] Instance part_info_eq_dec : EqDecision t.
Proof. solve_decision. Defined.

Definition MAX_LEVEL : Z := 999999999.
Definition LEGACY_MAX_LEVEL : Z := 2 ^ 32 - 1.

(** [std::string] compares characters as unsigned. *)
Fixpoint compare_strings (a b : bytes) : comparison :=
  match a, b with
  | [], [] => Eq
  | [], _ :: _ => Lt
  | _ :: _, [] => Gt
  | x :: a, y :: b => match x ?= y with Eq => compare_strings a b | c => c end
  end.

Definition next_field (c d : comparison) : comparison := match c with Eq => d | _ => c end.

(** The tuples of [operator<]. *)
Definition compare (a b : t) : comparison :=
  next_field (compare_strings (partition_id a) (partition_id b))
    (next_field (min_block a ?= min_block b)
      (next_field (max_block a ?= max_block b)
        (next_field (level a ?= level b) (mutation a ?= mutation b)))).

Definition less (a b : t) : bool := match compare a b with Lt => true | _ => false end.
Definition not_equal (a b : t) : bool := less a b || less b a.
Definition equal (a b : t) : bool := negb (not_equal a b).

Definition getDataVersion (a : t) : Z := if mutation a =? 0 then min_block a else mutation a.

Definition contains (a rhs : t) : bool :=
  let strictly_contains_block_range :=
    ((min_block a =? min_block rhs) && (max_block a =? max_block rhs)) || (level rhs <? level a)
    || (level a =? MAX_LEVEL) || (level a =? LEGACY_MAX_LEVEL) in
  bool_decide (partition_id a = partition_id rhs)
  && (min_block a <=? min_block rhs)
  && (max_block rhs <=? max_block a)
  && (level rhs <=? level a)
  && (mutation rhs <=? mutation a)
  && strictly_contains_block_range.

Definition isMutationChildOf (a parent_candidate : t) : bool :=
  bool_decide (partition_id a = partition_id parent_candidate)
  && (min_block a =? min_block parent_candidate)
  && (max_block a =? max_block parent_candidate)
  && (level a =? level parent_candidate)
  && (mutation parent_candidate <=? mutation a).

Definition isDisjoint (a rhs : t) : bool :=
  bool_decide (partition_id a ≠ partition_id rhs)
  || (max_block rhs <? min_block a)
  || (max_block a <? min_block rhs).

Definition isFakeDropRangePart (a : t) : bool := (level a =? MAX_LEVEL) || (level a =? LEGACY_MAX_LEVEL).

(** ** Names *)

Definition MERGE_TREE_DATA_MIN_FORMAT_VERSION_WITH_CUSTOM_PARTITIONING : Z := 1.

(** The end of a name, from the level on. *)
Definition level_and_mutation (a : t) : outcome bytes :=
  l ← (if use_legacy_max_level a then printed UInt32 LEGACY_MAX_LEVEL else printed UInt32 (level a));
  if mutation a =? 0 then Ret l
  else m ← printed Int64 (mutation a); Ret (l ++ [95] ++ m).

Definition getPartNameV1 (a : t) : outcome bytes :=
  lo ← printed Int64 (min_block a);
  hi ← printed Int64 (max_block a);
  rest ← level_and_mutation a;
  Ret (partition_id a ++ [95] ++ lo ++ [95] ++ hi ++ [95] ++ rest).


Definition getPartNameAndCheckFormat (format_version : Z) (a : t) : outcome bytes :=
  if format_version =? MERGE_TREE_DATA_MIN_FORMAT_VERSION_WITH_CUSTOM_PARTITIONING then getPartNameV1 a
  else Throw BAD_DATA_PART_NAME.

(** [return std::nullopt] if the call returns false. *)
Definition require_int {A} (T : integer_type) (rb : ReadBuffer.t) (k : Z → ReadBuffer.t → outcome (option A)) : outcome (option A) :=
  '(ok, x, rb) ← tryReadIntText T 0 rb; if ok : bool then k x rb else Ret None.

Definition require_char {A} (c : Z) (rb : ReadBuffer.t) (k : ReadBuffer.t → outcome (option A)) : outcome (option A) :=
  '(ok, rb) ← checkChar c rb; if ok : bool then k rb else Ret None.

(** The loop that reads the partition id up to the first underscore. *)
Fixpoint read_partition_id (fuel : nat) (id : bytes) (rb : ReadBuffer.t) : outcome (bytes * ReadBuffer.t) :=
  let '(is_eof, rb) := ReadBuffer.eof rb in
  if is_eof then Ret (id, rb) else
  match fuel with
  | O => OutOfFuel
  | S fuel =>
      '(c, rb) ← readChar rb;
      if c =? 95 then Ret (id, rb) else read_partition_id fuel (id ++ [c]) rb
  end.

(** The part, with the legacy maximum level replaced. *)
Definition make_part (id : bytes) (min_block_num max_block_num level mutation : Z) : t :=
  let legacy := level =? LEGACY_MAX_LEVEL in
  mk id min_block_num max_block_num (if legacy then MAX_LEVEL else level) mutation legacy.

(** The end of the name, after the level. *)
Definition parse_mutation (id : bytes) (min_block_num max_block_num level : Z) (rb : ReadBuffer.t) : outcome (option t) :=
  if max_block_num <? min_block_num then Ret None else
  let '(is_eof, rb) := ReadBuffer.eof rb in
  if is_eof then Ret (Some (make_part id min_block_num max_block_num level 0)) else
  require_char 95 rb (λ rb,
  require_int UInt32 rb (λ mutation rb,
  let '(is_eof, rb) := ReadBuffer.eof rb in
  if is_eof then Ret (Some (make_part id min_block_num max_block_num level mutation)) else Ret None)).

(** The name after the partition id. *)
Definition parse_blocks (id : bytes) (rb : ReadBuffer.t) : outcome (option t) :=
  if bool_decide (id = []) then Ret None else
  require_int Int64 rb (λ min_block_num rb,
  require_char 95 rb (λ rb,
  require_int Int64 rb (λ max_block_num rb,
  require_char 95 rb (λ rb,
  require_int UInt32 rb (λ level rb,
  parse_mutation id min_block_num max_block_num level rb))))).

Definition tryParsePartName (part_name : bytes) (format_version : Z) : outcome (option t) :=
  let rb := ReadBuffer.from_memory part_name in
  if format_version <? MERGE_TREE_DATA_MIN_FORMAT_VERSION_WITH_CUSTOM_PARTITIONING then
    require_int UInt32 rb (λ min_yyyymmdd rb,
    require_char 95 rb (λ rb,
    require_int UInt32 rb (λ max_yyyymmdd rb,
    require_char 95 rb (λ rb,
    id ← printed UInt32 (min_yyyymmdd / 100);
    parse_blocks id rb))))
  else
    '(id, rb) ← read_partition_id (S (length part_name)) [] rb;
    parse_blocks id rb.

Definition fromPartName (part_name : bytes) (format_version : Z) : outcome t :=
  o ← tryParsePartName part_name format_version;
  match o with Some part => Ret part | None => Throw BAD_DATA_PART_NAME end.

Definition contains_names (outer_part_name inner_part_name : bytes) (format_version : Z) : outcome bool :=
  outer ← fromPartName outer_part_name format_version;
  inner ← fromPartName inner_part_name format_version;
  Ret (contains outer inner).

(** ** Partition ids *)

Definition isNumericASCII (c : Z) : bool := (48 <=? c) && (c <=? 57).
Definition isAlphaASCII (c : Z) : bool := ((97 <=? c) && (c <=? 122)) || ((65 <=? c) && (c <=? 90)).
Definition isAlphaNumericASCII (c : Z) : bool := isAlphaASCII c || isNumericASCII c.

(** The argument is the string of the literal, if the expression is a string literal. *)
Definition validatePartitionID (partition_id_literal : option bytes) (format_version : Z) : outcome unit :=
  match partition_id_literal with
  | None => Throw INVALID_PARTITION_VALUE
  | Some id =>
      if bool_decide (id = []) then Throw INVALID_PARTITION_VALUE
      else if format_version <? MERGE_TREE_DATA_MIN_FORMAT_VERSION_WITH_CUSTOM_PARTITIONING then
        throw_if (negb (blen id =? 6) || negb (forallb isNumericASCII id)) INVALID_PARTITION_VALUE
      else throw_if (negb (forallb (λ c, (c =? 45) || isAlphaNumericASCII c) id)) INVALID_PARTITION_VALUE
  end.

(** ** Coverage of a range *)

Definition precedes (a b : t) : Prop := less b a = false.
#[global] Instance precedes_dec : RelDecision precedes.
Proof. intros a b. unfold precedes. apply _. Defined.

(** [int64_t] arithmetic is undefined when it overflows. *)
Definition int64_add (a b : Z) : outcome Z :=
  if (- 2 ^ 63 <=? a + b) && (a + b <? 2 ^ 63) then Ret (a + b) else UB.

(** The loop; the result is [current_right_block], or nothing if the function has returned false. *)
Fixpoint covered_loop (candidates : list t) (current_right_block : Z) : outcome (option Z) :=
  match candidates with
  | [] => Ret (Some current_right_block)
  | candidate :: candidates =>
      next ← int64_add current_right_block 1;
      if next =? min_block candidate then covered_loop candidates (max_block candidate) else Ret None
  end.

Definition areAllBlockNumbersCovered (blocks_range : t) (candidates : list t) : outcome bool :=
  match merge_sort precedes candidates with
  | [] => Ret false
  | (first :: _) as sorted =>
      if negb (min_block first =? min_block blocks_range) then Ret false else
      start ← int64_add (min_block first) (-1);
      o ← covered_loop sorted start;
      match o with
      | None => Ret false
      | Some current_right_block => Ret (current_right_block =? max_block blocks_range)
      end
  end.
End MergeTreePartInfo.

(** * DetachedPartInfo *)

Module DetachedPartInfo.
Import MergeTreePartInfo.






End DetachedPartInfo.

(** * Names are read back *)

Lemma printed_text T x : of_type T x → printed T x = Ret (text x).
Proof.
  intros Hx. unfold printed. pose proof (text_fits_width T x Hx) as Hlen.
  pose proof (writes_itoa T x Hx [] (replicate (Z.to_nat (max_int_width T)) 0) 0) as Ht. cbn [app] in Ht.
  rewrite Ht by (done || (rewrite blen_replicate; lia)). cbn [mbind outcome_bind]. unfold over. by apply read_bytes_prefix.
Qed.

Section streams.
Import ReadBuffer.

Lemma checkChar_yes rb c s : wf rb → remaining rb = c :: s → ∃ rb', checkChar c rb = Ret (true, rb') ∧ wf rb' ∧ remaining rb' = s.
Proof.
  intros Hw Hr. destruct (eof_char rb c s Hw Hr) as (rb1 & He & Hw1 & Hr1 & Hl & _).
  destruct (eof_char rb1 c s Hw1 Hr1) as (rb2 & He2 & _ & _ & _ & Hw2 & Hr2). exists (advance rb2 1).
  unfold checkChar, peek. rewrite He, Hl. cbn [mbind outcome_bind]. rewrite Z.eqb_refl. unfold ignore_char. by rewrite He2.
Qed.

Lemma checkChar_safe rb c : wf rb → ∃ ok rb', checkChar c rb = Ret (ok, rb') ∧ wf rb'.
Proof.
  intros Hw. unfold checkChar, peek. destruct (remaining rb) as [|a s] eqn:Hr.
  - destruct (eof_empty rb Hw Hr) as (rb' & -> & Hw' & _). by eexists _, _.
  - destruct (eof_char rb a s Hw Hr) as (rb1 & -> & Hw1 & Hr1 & -> & _). cbn [mbind outcome_bind].
    destruct (a =? c); [|by eexists _, _].
    destruct (eof_char rb1 a s Hw1 Hr1) as (rb2 & He2 & _ & _ & _ & Hw2 & _). unfold ignore_char. rewrite He2. by eexists _, _.
Qed.

Lemma readChar_yes rb c s : wf rb → remaining rb = c :: s → ∃ rb', readChar rb = Ret (c, rb') ∧ wf rb' ∧ remaining rb' = s.
Proof.
  intros Hw Hr. destruct (eof_char rb c s Hw Hr) as (rb1 & He & Hw1 & Hr1 & Hl & Hw2 & Hr2). exists (advance rb1 1).
  unfold readChar. by rewrite He, Hl.
Qed.
End streams.

Module PartNames.
Import MergeTreePartInfo.

Section requirements.
Context {A : Type}.
Implicit Types rb : ReadBuffer.t.

Lemma require_int_text T i rb rest (k : Z → ReadBuffer.t → outcome (option A)) :
  of_type T i → ReadBuffer.wf rb → ReadBuffer.remaining rb = text i ++ rest → no_digit rest →
  ∃ rb', require_int T rb k = k i rb' ∧ ReadBuffer.wf rb' ∧ ReadBuffer.remaining rb' = rest.
Proof.
  intros Hi Hw Hr Hn. destruct (read_text T false CHECK_OVERFLOW i rb rest 0 Hi Hw Hr Hn) as (rb' & Hw' & Hr' & Hread).
  exists rb'. unfold require_int, tryReadIntText. by rewrite Hread.
Qed.

(** A number that is no value of the type is refused. *)
Lemma require_int_refused T i rb rest (k : Z → ReadBuffer.t → outcome (option A)) :
  is_big_int T = false → fits T i = false → ReadBuffer.wf rb → ReadBuffer.remaining rb = text i ++ rest → no_digit rest →
  require_int T rb k = Ret None.
Proof.
  intros Hbig Hf Hw Hr Hn. destruct (text_number i) as (sg & ds & Ht & Hne & Hd & Hv & _). rewrite Ht, <- app_assoc in Hr.
  unfold require_int, tryReadIntText. destruct (is_minus sg && negb (type_signed T)) eqn:Hm.
  - apply andb_true_iff in Hm as [Hm Hs%negb_true_iff]. destruct sg; try done.
    by destruct (read_minus_refused T false CHECK_OVERFLOW rb ((digit <$> ds) ++ rest) 0 Hw Hr Hs) as [rb' ->].
  - assert (is_minus sg = true → type_signed T = true) as Hs by (intros Hms; rewrite Hms in Hm; by destruct (type_signed T)).
    destruct (read_checked T false CHECK_OVERFLOW sg ds rest rb 0 Hs Hd Hne Hn Hw Hr eq_refl Hbig) as (rb' & _ & Hread).
    rewrite Hv, Hf in Hread. by rewrite Hread.
Qed.

Lemma require_char_yes rb c s (k : ReadBuffer.t → outcome (option A)) :
  ReadBuffer.wf rb → ReadBuffer.remaining rb = c :: s →
  ∃ rb', require_char c rb k = k rb' ∧ ReadBuffer.wf rb' ∧ ReadBuffer.remaining rb' = s.
Proof.
  intros Hw Hr. destruct (checkChar_yes rb c s Hw Hr) as (rb' & Hc & Hw' & Hr'). exists rb'. unfold require_char. by rewrite Hc.
Qed.

(** On arbitrary input: nothing is returned, or the rest is tried with a value of the type. *)
Lemma require_int_safe T rb (k : Z → ReadBuffer.t → outcome (option A)) (P : outcome (option A) → Prop) :
  ReadBuffer.wf rb → P (Ret None) → (∀ x rb', of_type T x → ReadBuffer.wf rb' → P (k x rb')) → P (require_int T rb k).
Proof.
  intros Hw H0 Hk. unfold require_int, tryReadIntText.
  pose proof (readIntTextImpl_safe T false CHECK_OVERFLOW 0 rb Hw) as Hs. pose proof (type_range T) as Ht.
  specialize (Hs ltac:(unfold of_type; lia)).
  pose proof (readIntTextImpl_returns T CHECK_OVERFLOW 0 rb Hw) as (r & Hr). rewrite Hr in *.
  destruct r as [[ok x] rb']. cbn [mbind outcome_bind]. destruct Hs as [Hx Hw']. destruct ok; [by apply Hk|done].
Qed.

Lemma require_char_safe rb c (k : ReadBuffer.t → outcome (option A)) (P : outcome (option A) → Prop) :
  ReadBuffer.wf rb → P (Ret None) → (∀ rb', ReadBuffer.wf rb' → P (k rb')) → P (require_char c rb k).
Proof.
  intros Hw H0 Hk. unfold require_char. destruct (checkChar_safe rb c Hw) as (ok & rb' & -> & Hw'). cbn [mbind outcome_bind].
  destruct ok; [by apply Hk|done].
Qed.
End requirements.

(** The parts that have a name of their own: what [tryParsePartName] may return. *)
Record nameable (a : t) : Prop := {
  nameable_bytes : is_bytes (partition_id a);
  nameable_id : partition_id a ≠ [];
  nameable_separator : 95 ∉ partition_id a;
  nameable_min : of_type Int64 (min_block a);
  nameable_max : of_type Int64 (max_block a);
  nameable_range : min_block a ≤ max_block a;
  nameable_level : of_type UInt32 (level a);
  nameable_legacy : if use_legacy_max_level a then level a = MAX_LEVEL else level a ≠ LEGACY_MAX_LEVEL;
  nameable_mutation : of_type UInt32 (mutation a);
}.

(** The parts whose fields are values of their types, with a partition id that a name can have. *)
Record representable (a : t) : Prop := {
  representable_bytes : is_bytes (partition_id a);
  representable_separator : 95 ∉ partition_id a;
  representable_min : of_type Int64 (min_block a);
  representable_max : of_type Int64 (max_block a);
  representable_level : of_type UInt32 (level a);
  representable_mutation : of_type Int64 (mutation a);
}.

(** The part that the name of [a] denotes, if it denotes one: a mutation has to fit 32 bits, and the
    legacy maximum level is read as the maximum level and the flag. *)
Definition reread (a : t) : option t :=
  if bool_decide (partition_id a = []) || (max_block a <? min_block a) || negb (fits UInt32 (mutation a)) then None
  else
    let legacy := use_legacy_max_level a || (level a =? LEGACY_MAX_LEVEL) in
    Some (mk (partition_id a) (min_block a) (max_block a) (if legacy then MAX_LEVEL else level a) (mutation a) legacy).

Lemma nameable_representable a : nameable a → representable a.
Proof. intros [? ? ? ? ? ? ? ? Hm]. split; try done. type_bounds. lia. Qed.

Lemma reread_same a : representable a → reread a = Some a ↔ nameable a.
Proof.
  intros [Hb Hs Hlo Hhi Hl Hm]. unfold reread. destruct a as [id lo hi l m legacy]. cbn in *. split.
  - case_bool_decide as Hid; [done|]. destruct (Z.ltb_spec hi lo); [done|].
    destruct (fits UInt32 m) eqn:Hf; [|done]. apply fits_spec in Hf. cbn. intros [= Hlevel Hlegacy].
    split; cbn; try done. rewrite Hlegacy in Hlevel. destruct legacy; [done|]. cbn in Hlegacy. by apply Z.eqb_neq in Hlegacy.
  - intros [_ Hid _ _ _ Hr _ Hlegacy Hm']. cbn in *. rewrite bool_decide_false by done.
    rewrite (proj2 (Z.ltb_ge _ _) Hr), (proj2 (fits_spec UInt32 m) Hm'). cbn.
    destruct legacy; cbn; [by subst l|]. by rewrite (proj2 (Z.eqb_neq _ _) Hlegacy).
Qed.

(** The level that is written. *)
Definition written_level (a : t) : Z := if use_legacy_max_level a then LEGACY_MAX_LEVEL else level a.

Definition mutation_text (a : t) : bytes := if mutation a =? 0 then [] else 95 :: text (mutation a).

Lemma level_and_mutation_text a :
  of_type UInt32 (level a) → of_type Int64 (mutation a) →
  level_and_mutation a = Ret (text (written_level a) ++ mutation_text a).
Proof.
  intros Hl Hm. unfold level_and_mutation, written_level, mutation_text.
  assert ((if use_legacy_max_level a then printed UInt32 LEGACY_MAX_LEVEL else printed UInt32 (level a)) =
    Ret (text (if use_legacy_max_level a then LEGACY_MAX_LEVEL else level a))) as ->.
  { destruct (use_legacy_max_level a); apply printed_text; [vm_compute; split; discriminate|done]. }
  cbn [mbind outcome_bind]. destruct (mutation a =? 0); [by rewrite app_nil_r|]. by rewrite printed_text.
Qed.

(** What follows the partition id in a name. *)
Definition blocks_text (a : t) : bytes :=
  text (min_block a) ++ 95 :: text (max_block a) ++ 95 :: text (written_level a) ++ mutation_text a.

Lemma getPartNameV1_text a :
  representable a → getPartNameV1 a = Ret (partition_id a ++ 95 :: blocks_text a).
Proof.
  intros [_ _ Hlo Hhi Hl Hm]. unfold getPartNameV1. rewrite !printed_text, level_and_mutation_text by done.
  cbn [mbind outcome_bind]. unfold blocks_text. by rewrite <- ?app_assoc.
Qed.

(** ** Parsing what was printed *)

Lemma written_level_type a : representable a → of_type UInt32 (written_level a).
Proof. intros Ha. unfold written_level. destruct (use_legacy_max_level a); [vm_compute; split; discriminate|apply Ha]. Qed.

Lemma make_part_written a :
  make_part (partition_id a) (min_block a) (max_block a) (written_level a) (mutation a) =
  (let legacy := use_legacy_max_level a || (level a =? LEGACY_MAX_LEVEL) in
   mk (partition_id a) (min_block a) (max_block a) (if legacy then MAX_LEVEL else level a) (mutation a) legacy).
Proof. unfold make_part, written_level. by destruct (use_legacy_max_level a). Qed.

(** The fields up to the level, whatever follows. *)
Lemma parse_blocks_prefix id lo hi l rb tail :
  id ≠ [] → of_type Int64 lo → of_type Int64 hi → of_type UInt32 l → no_digit tail →
  ReadBuffer.wf rb → ReadBuffer.remaining rb = text lo ++ 95 :: text hi ++ 95 :: text l ++ tail →
  ∃ rb', ReadBuffer.wf rb' ∧ ReadBuffer.remaining rb' = tail ∧ parse_blocks id rb = parse_mutation id lo hi l rb'.
Proof.
  intros Hid Hlo Hhi Hl Htail Hw Hr. unfold parse_blocks. rewrite bool_decide_false by done.
  edestruct (require_int_text (A := t) Int64 lo rb) as (r1 & -> & Hw1 & Hr1); [done..|simpl; lia|].
  edestruct (require_char_yes (A := t) r1 95) as (r2 & -> & Hw2 & Hr2); [done|done|].
  edestruct (require_int_text (A := t) Int64 hi r2) as (r3 & -> & Hw3 & Hr3); [done..|simpl; lia|].
  edestruct (require_char_yes (A := t) r3 95) as (r4 & -> & Hw4 & Hr4); [done|done|].
  edestruct (require_int_text (A := t) UInt32 l r4) as (r5 & -> & Hw5 & Hr5); [done..|]. by exists r5.
Qed.

Lemma parse_blocks_text a rb :
  representable a → ReadBuffer.wf rb → ReadBuffer.remaining rb = blocks_text a → parse_blocks (partition_id a) rb = Ret (reread a).
Proof.
  intros Ha Hw Hr. unfold reread. case_bool_decide as Hid; [unfold parse_blocks; by rewrite bool_decide_true|].
  destruct (parse_blocks_prefix (partition_id a) (min_block a) (max_block a) (written_level a) rb (mutation_text a))
    as (r5 & Hw5 & Hr5 & ->); try apply Ha; try done; [by apply written_level_type| |].
  { unfold mutation_text. destruct (mutation a =? 0); simpl; [done|lia]. }
  unfold parse_mutation. destruct (max_block a <? min_block a); [done|]. cbn [orb].
  unfold mutation_text in Hr5. destruct (Z.eqb_spec (mutation a) 0) as [Hm|Hm].
  - destruct (eof_empty r5 Hw5 Hr5) as (r6 & -> & _). rewrite <- Hm at 1. rewrite make_part_written. by rewrite Hm.
  - destruct (eof_char r5 _ _ Hw5 Hr5) as (r6 & -> & Hw6 & Hr6 & _).
    edestruct (require_char_yes (A := t) r6 95) as (r7 & -> & Hw7 & Hr7); [done|done|]. rewrite <- (app_nil_r (text _)) in Hr7.
    destruct (fits UInt32 (mutation a)) eqn:Hf; [|by apply (require_int_refused UInt32 (mutation a) r7 [])].
    edestruct (require_int_text (A := t) UInt32 (mutation a) r7) as (r8 & -> & Hw8 & Hr8); [by apply fits_spec|done|done|done|].
    destruct (eof_empty r8 Hw8 Hr8) as (r9 & -> & _). by rewrite make_part_written.
Qed.

Lemma read_partition_id_text id : ∀ fuel acc rb rest,
  95 ∉ id → ReadBuffer.wf rb → ReadBuffer.remaining rb = id ++ 95 :: rest → (length id < fuel)%nat →
  ∃ rb', read_partition_id fuel acc rb = Ret (acc ++ id, rb') ∧ ReadBuffer.wf rb' ∧ ReadBuffer.remaining rb' = rest.
Proof.
  induction id as [|c id IH]; intros fuel acc rb rest Hn Hw Hr Hf; destruct fuel as [|fuel]; try (simpl in Hf; lia);
    cbn [read_partition_id]; destruct (eof_char rb _ _ Hw Hr) as (r1 & -> & Hw1 & Hr1 & _);
    destruct (readChar_yes r1 _ _ Hw1 Hr1) as (r2 & -> & Hw2 & Hr2); cbn [mbind outcome_bind].
  - rewrite app_nil_r. by exists r2.
  - destruct (Z.eqb_spec c 95) as [->|]; [set_solver|]. simpl in Hf.
    destruct (IH fuel (acc ++ [c]) r2 rest) as (rb' & -> & ? & ?); [set_solver|done|done|lia|].
    exists rb'. by rewrite <- app_assoc.
Qed.

Lemma blocks_text_bytes a : is_bytes (blocks_text a).
Proof.
  assert (is_byte 95) by (unfold is_byte; lia). unfold blocks_text, mutation_text.
  apply Forall_app; split; [apply text_bytes|]. constructor; [done|]. apply Forall_app; split; [apply text_bytes|]. constructor; [done|].
  apply Forall_app; split; [apply text_bytes|]. destruct (mutation a =? 0); constructor; [done|apply text_bytes].
Qed.

Lemma parse_name_v1 a format_version : representable a → 1 ≤ format_version →
  tryParsePartName (partition_id a ++ 95 :: blocks_text a) format_version = Ret (reread a).
Proof.
  intros Ha Hv. unfold tryParsePartName, MERGE_TREE_DATA_MIN_FORMAT_VERSION_WITH_CUSTOM_PARTITIONING.
  destruct (Z.ltb_spec format_version 1); [lia|].
  destruct (read_partition_id_text (partition_id a) (S (length (partition_id a ++ 95 :: blocks_text a))) []
    (ReadBuffer.from_memory (partition_id a ++ 95 :: blocks_text a)) (blocks_text a)) as (rb' & -> & Hw & Hr).
  - apply Ha.
  - apply ReadBuffer.wf_from_memory, Forall_app. split; [apply Ha|]. constructor; [unfold is_byte; lia|apply blocks_text_bytes].
  - apply ReadBuffer.remaining_from_memory.
  - rewrite length_app. lia.
  - cbn [mbind outcome_bind app]. by apply parse_blocks_text.
Qed.

Lemma parse_name_v1_same a format_version : nameable a → 1 ≤ format_version →
  tryParsePartName (partition_id a ++ 95 :: blocks_text a) format_version = Ret (Some a).
Proof.
  intros Ha Hv. pose proof (nameable_representable a Ha) as Hr. rewrite parse_name_v1 by done. f_equal. by apply reread_same.
Qed.








(** ** Arbitrary names *)

(** A call that returns nothing, or a part with a name of its own. *)
Definition parses (m : outcome (option t)) : Prop := ∃ o, m = Ret o ∧ ∀ a, o = Some a → nameable a.

Lemma parses_none : parses (Ret None).
Proof. by exists None. Qed.
#[local] Hint Resolve parses_none : core.

Lemma make_part_nameable id lo hi l m :
  is_bytes id → id ≠ [] → 95 ∉ id → of_type Int64 lo → of_type Int64 hi → lo ≤ hi → of_type UInt32 l → of_type UInt32 m →
  parses (Ret (Some (make_part id lo hi l m))).
Proof.
  intros. eexists. split; [done|]. intros ? [= <-]. unfold make_part. destruct (Z.eqb_spec l LEGACY_MAX_LEVEL) as [Hl|Hl];
    by split.
Qed.

Lemma parse_mutation_parses id lo hi l rb :
  is_bytes id → id ≠ [] → 95 ∉ id → of_type Int64 lo → of_type Int64 hi → of_type UInt32 l → ReadBuffer.wf rb →
  parses (parse_mutation id lo hi l rb).
Proof.
  intros Hb Hid Hn Hlo Hhi Hl Hw. unfold parse_mutation. destruct (Z.ltb_spec hi lo); [done|].
  destruct (ReadBuffer.eof_spec rb Hw) as (b & r1 & -> & Hw1 & _). destruct b.
  { by apply make_part_nameable. }
  apply require_char_safe; [done|done|]. intros r2 Hw2. apply require_int_safe; [done|done|]. intros m r3 Hm Hw3.
  destruct (ReadBuffer.eof_spec r3 Hw3) as (b & r4 & -> & _). destruct b; [|done]. by apply make_part_nameable.
Qed.

Lemma parse_blocks_parses id rb : is_bytes id → 95 ∉ id → ReadBuffer.wf rb → parses (parse_blocks id rb).
Proof.
  intros Hb Hn Hw. unfold parse_blocks. case_bool_decide as Hid; [done|].
  apply require_int_safe; [done|done|]. intros lo r1 Hlo Hw1. apply require_char_safe; [done|done|]. intros r2 Hw2.
  apply require_int_safe; [done|done|]. intros hi r3 Hhi Hw3. apply require_char_safe; [done|done|]. intros r4 Hw4.
  apply require_int_safe; [done|done|]. intros l r5 Hl Hw5. by apply parse_mutation_parses.
Qed.

Lemma read_partition_id_safe fuel : ∀ acc rb,
  ReadBuffer.wf rb → (length (ReadBuffer.remaining rb) < fuel)%nat → is_bytes (ReadBuffer.remaining rb) → is_bytes acc → 95 ∉ acc →
  ∃ id rb', read_partition_id fuel acc rb = Ret (id, rb') ∧ ReadBuffer.wf rb' ∧ is_bytes id ∧ 95 ∉ id.
Proof.
  induction fuel as [|fuel IH]; intros acc rb Hw Hf Hrb Hb Hn; [lia|]. cbn [read_partition_id].
  destruct (ReadBuffer.remaining rb) as [|c s] eqn:Hr.
  - destruct (eof_empty rb Hw Hr) as (r1 & -> & Hw1 & _). by eexists _, _.
  - destruct (eof_char rb c s Hw Hr) as (r1 & -> & Hw1 & Hr1 & _).
    destruct (readChar_yes r1 c s Hw1 Hr1) as (r2 & -> & Hw2 & Hr2). cbn [mbind outcome_bind].
    destruct (Z.eqb_spec c 95) as [->|Hc]; [by eexists _, _|]. inversion Hrb; subst. simpl in Hf.
    apply IH; [done|lia|done|apply Forall_app; auto|]. set_solver.
Qed.

Lemma decimal_no_separator n : 0 ≤ n → 95 ∉ decimal n.
Proof.
  intros Hn. destruct (decimal_value_nat n Hn) as (ds & -> & _ & Hd & _). intros (d & Heq & Hin)%list_elem_of_fmap.
  rewrite Forall_forall in Hd. specialize (Hd d Hin). unfold digit in Heq. simpl in Hd. lia.
Qed.

Lemma tryParsePartName_parses name format_version : is_bytes name → parses (tryParsePartName name format_version).
Proof.
  intros Hb. pose proof (ReadBuffer.wf_from_memory name Hb) as Hw. unfold tryParsePartName. destruct (_ <? _).
  - apply require_int_safe; [done|done|]. intros d1 r1 Hd1 Hw1. apply require_char_safe; [done|done|]. intros r2 Hw2.
    apply require_int_safe; [done|done|]. intros d2 r3 Hd2 Hw3. apply require_char_safe; [done|done|]. intros r4 Hw4.
    assert (of_type UInt32 (d1 / 100)) as Hd by (type_bounds; dlia). rewrite printed_text by done. cbn [mbind outcome_bind].
    apply parse_blocks_parses; [apply text_bytes| |done]. type_bounds. rewrite text_natural by lia. apply decimal_no_separator. lia.
  - destruct (read_partition_id_safe (S (length name)) [] (ReadBuffer.from_memory name)) as (id & rb' & -> & Hw' & Hb' & Hn');
      rewrite ?ReadBuffer.remaining_from_memory; [done|lia|done|constructor|set_solver|].
    cbn [mbind outcome_bind]. by apply parse_blocks_parses.
Qed.

(** Any string can be given to [tryParsePartName]: it neither throws nor reads out of bounds and
    ends; what it accepts is a part with a name of its own, with a block range that is not empty and
    numbers that fit their types, so that the name of the parsed part, in the new format, denotes the
    part again. *)
Theorem part_name_parse_canonical (name : bytes) (format_version : Z) :
  is_bytes name →
  ∃ o, tryParsePartName name format_version = Ret o ∧
    ∀ a, o = Some a → nameable a ∧
      ∃ canonical, getPartNameAndCheckFormat 1 a = Ret canonical ∧ tryParsePartName canonical 1 = Ret (Some a).
Proof.
  intros Hb. destruct (tryParsePartName_parses name format_version Hb) as (o & -> & Ho). exists o. split; [done|].
  intros a Ha. specialize (Ho a Ha). split; [done|]. eexists. split; [|by apply (parse_name_v1_same a 1)].
  by apply getPartNameV1_text, nameable_representable.
Qed.

(** A name with leading zeros, a plus sign and missing numbers. *)
Lemma part_name_parse_canonical_witness :
  tryParsePartName (chars "all__007_+2") 1 = Ret (Some (mk (chars "all") 0 7 2 0 false)) ∧
  tryParsePartName (chars "all_0_7_2") 1 = Ret (Some (mk (chars "all") 0 7 2 0 false)).
Proof.
  destruct (part_name_parse_canonical (chars "all__007_+2") 1) as (o & Ho & Hc); [by apply is_bytes_compute|].
  split; [vm_compute; reflexivity|]. destruct o as [a|]; [|vm_compute in Ho; discriminate].
  destruct (Hc a eq_refl) as (_ & c & Hn & Hp). vm_compute in Ho. injection Ho as <-. vm_compute in Hn. injection Hn as <-. exact Hp.
Defined.

(** ** Large mutation numbers *)

(** A mutation number beyond 32 bits is written in full but read into [UInt32]: the name of such a
    part is refused. *)
Theorem part_name_large_mutation_refused (a : t) :
  representable a → 2 ^ 32 ≤ mutation a →
  ∃ name, getPartNameV1 a = Ret name ∧ tryParsePartName name 1 = Ret None.
Proof.
  intros Ha Hm. eexists. split; [by apply getPartNameV1_text|]. rewrite parse_name_v1 by done. unfold reread.
  assert (fits UInt32 (mutation a) = false) as ->; [|by rewrite orb_true_r].
  destruct (fits UInt32 (mutation a)) eqn:E; [|done]. apply fits_spec in E. type_bounds. zlia.
Qed.

End PartNames.

(** * The order of parts *)

Module PartOrder.
Import MergeTreePartInfo.

(** A comparison that is a total order up to [Eq]. *)
Record comparable {A} (c : A → A → comparison) : Prop := {
  comparable_opp : ∀ a b, c b a = CompOpp (c a b);
  comparable_trans : ∀ a b d, c a b = Lt → c b d = Lt → c a d = Lt;
  comparable_eq : ∀ a b d, c a b = Eq → c a d = c b d;
}.

Lemma comparable_Z : comparable Z.compare.
Proof.
  split; [intros; apply Z.compare_antisym|intros a b d; rewrite !Z.compare_lt_iff; lia|by intros a b d ->%Z.compare_eq].
Qed.

Lemma comparable_proj {A B} (f : A → B) c : comparable c → comparable (λ a b, c (f a) (f b)).
Proof. intros [? ? ?]. split; eauto. Qed.

Lemma comparable_eq_r {A} (c : A → A → comparison) a b d : comparable c → c a b = Eq → c d a = c d b.
Proof.
  intros Hc Hab. rewrite (comparable_opp c Hc a d), (comparable_opp c Hc b d). by rewrite (comparable_eq c Hc a b d Hab).
Qed.

Lemma comparable_next {A} (c d : A → A → comparison) :
  comparable c → comparable d → comparable (λ a b, next_field (c a b) (d a b)).
Proof.
  intros Hc Hd. split.
  - intros a b. rewrite (comparable_opp c Hc a b), (comparable_opp d Hd a b). by destruct (c a b).
  - intros x y z. unfold next_field. destruct (c x y) eqn:E1; [|destruct (c y z) eqn:E2|done]; try done.
    + rewrite (comparable_eq c Hc x y z E1). destruct (c y z); try done. apply (comparable_trans d Hd).
    + by rewrite <- (comparable_eq_r c y z x Hc E2), E1.
    + by rewrite (comparable_trans c Hc x y z E1 E2).
  - intros x y z. unfold next_field. destruct (c x y) eqn:E1; try done. intros E2.
    by rewrite (comparable_eq c Hc x y z E1), (comparable_eq d Hd x y z E2).
Qed.

Lemma compare_strings_eq a : ∀ b, compare_strings a b = Eq ↔ a = b.
Proof.
  induction a as [|x a IH]; intros [|y b]; simpl; try done. destruct (Z.compare_spec x y) as [->|?|?].
  - rewrite IH. split; congruence.
  - split; [done|]. intros [= -> ->]. lia.
  - split; [done|]. intros [= -> ->]. lia.
Qed.

Lemma comparable_strings : comparable compare_strings.
Proof.
  split.
  - induction a as [|x a IH]; intros [|y b]; simpl; try done. rewrite (Z.compare_antisym x y). destruct (x ?= y); simpl; auto.
  - induction a as [|x a IH]; intros [|y b] [|z d]; simpl; try done.
    destruct (Z.compare_spec x y), (Z.compare_spec y z), (Z.compare_spec x z); subst; try done; try lia. apply IH.
  - by intros a b d ->%compare_strings_eq.
Qed.

Lemma comparable_compare : comparable compare.
Proof.
  unfold compare. apply comparable_next; [apply comparable_proj, comparable_strings|].
  repeat (apply comparable_next; [apply comparable_proj, comparable_Z|]). apply comparable_proj, comparable_Z.
Qed.

Lemma less_Lt a b : less a b = true ↔ compare a b = Lt.
Proof. unfold less. by destruct (compare a b). Qed.

Lemma less_irrefl a : less a a = false.
Proof.
  pose proof (comparable_opp _ comparable_compare a a) as H. unfold less. by destruct (compare a a).
Qed.

Lemma less_trans a b c : less a b = true → less b c = true → less a c = true.
Proof. rewrite !less_Lt. apply (comparable_trans _ comparable_compare). Qed.

(** [less b a] is false exactly if [a] comes first or the tuples are equal. *)
Lemma precedes_cases a b : precedes a b ↔ compare a b = Lt ∨ compare a b = Eq.
Proof.
  unfold precedes, less. rewrite (comparable_opp _ comparable_compare a b). destruct (compare a b); simpl; naive_solver.
Qed.

#[global] Instance precedes_trans : Transitive precedes.
Proof.
  intros a b c. rewrite !precedes_cases. intros [H1|H1] [H2|H2].
  - left. by eapply (comparable_trans _ comparable_compare).
  - left. by rewrite <- (comparable_eq_r _ _ _ a comparable_compare H2).
  - left. by rewrite (comparable_eq _ comparable_compare _ _ c H1).
  - right. by rewrite (comparable_eq _ comparable_compare _ _ c H1).
Qed.

#[global] Instance precedes_total : Total precedes.
Proof.
  intros a b. rewrite !precedes_cases, (comparable_opp _ comparable_compare a b). destruct (compare a b); simpl; auto.
Qed.

(** What the order says of the fields. *)
Lemma compare_fields a b c : compare a b = c → c ≠ Gt →
  compare_strings (partition_id a) (partition_id b) ≠ Gt ∧
  (partition_id a = partition_id b → min_block a ≤ min_block b).
Proof.
  unfold compare, next_field. intros <-. destruct (compare_strings (partition_id a) (partition_id b)) eqn:E; [| |done].
  - destruct (Z.compare_spec (min_block a) (min_block b)); intros ?; split; try done; lia.
  - intros _. split; [done|]. intros Hp. by rewrite (proj2 (compare_strings_eq _ _) Hp) in E.
Qed.

Lemma precedes_min a b : precedes a b → partition_id a = partition_id b → min_block a ≤ min_block b.
Proof. rewrite precedes_cases. intros [H|H]; by eapply compare_fields. Qed.

Lemma compare_Eq_fields a b : compare a b = Eq →
  partition_id a = partition_id b ∧ min_block a = min_block b ∧ max_block a = max_block b ∧ level a = level b ∧ mutation a = mutation b.
Proof.
  unfold compare, next_field. destruct (compare_strings _ _) eqn:E; try done. apply compare_strings_eq in E.
  destruct (Z.compare_spec (min_block a) (min_block b)); try done. destruct (Z.compare_spec (max_block a) (max_block b)); try done.
  destruct (Z.compare_spec (level a) (level b)); try done. by destruct (Z.compare_spec (mutation a) (mutation b)).
Qed.

Lemma partitions_between a b c : precedes a b → precedes b c → partition_id a = partition_id c → partition_id b = partition_id a.
Proof.
  intros Hab Hbc Hac. assert (compare_strings (partition_id a) (partition_id b) ≠ Gt) as H1.
  { apply precedes_cases in Hab as [H|H]; by eapply compare_fields. }
  assert (compare_strings (partition_id b) (partition_id c) ≠ Gt) as H2.
  { apply precedes_cases in Hbc as [H|H]; by eapply compare_fields. }
  rewrite <- Hac, (comparable_opp _ comparable_strings (partition_id a)) in H2.
  destruct (compare_strings (partition_id a) (partition_id b)) eqn:E; try done. by apply compare_strings_eq in E.
Qed.
End PartOrder.

(** * Coverage *)

Module Coverage.
Import MergeTreePartInfo PartOrder.

(** The block number [b] is in the part. *)
Definition has_block (b : Z) (c : t) : Prop := min_block c ≤ b ≤ max_block c.
#[global] Instance has_block_dec b c : Decision (has_block b c).
Proof. unfold has_block. apply _. Defined.

Definition multiplicity (b : Z) (cs : list t) : nat := length (filter (has_block b) cs).

(** A part of the partition, with block numbers that leave room for [+ 1]. *)
Record candidate_ok (id : bytes) (c : t) : Prop := {
  candidate_partition : partition_id c = id;
  candidate_range : min_block c ≤ max_block c;
  candidate_low : - 2 ^ 63 < min_block c;
  candidate_high : max_block c < 2 ^ 63 - 1;
}.

Lemma multiplicity_cons b c cs : multiplicity b (c :: cs) = ((if decide (has_block b c) then 1 else 0) + multiplicity b cs)%nat.
Proof. unfold multiplicity. rewrite filter_cons. by destruct (decide (has_block b c)). Qed.

Lemma multiplicity_in b c cs : c ∈ cs → has_block b c → (1 ≤ multiplicity b cs)%nat.
Proof.
  intros Hc Hb. unfold multiplicity. assert (c ∈ filter (has_block b) cs) as Hf by by apply list_elem_of_filter.
  destruct (filter (has_block b) cs); [by apply not_elem_of_nil in Hf|]. simpl. lia.
Qed.

Section loop.
Context (id : bytes).

Lemma covered_loop_right cs : ∀ cur r, Forall (candidate_ok id) cs → covered_loop cs cur = Ret (Some r) → cur ≤ r.
Proof.
  induction cs as [|c cs IH]; intros cur r Hcs; simpl; [intros [= ->]; lia|]. inversion Hcs as [|? ? Hc Hcs']; subst.
  intros (next & Hn & H)%bind_Ret_inv. unfold int64_add in Hn. destruct (_ && _); [|done]. injection Hn as <-.
  destruct (Z.eqb_spec (cur + 1) (min_block c)); [|done]. specialize (IH _ _ Hcs' H). destruct Hc. lia.
Qed.

Lemma covered_loop_returns cs : ∀ cur, Forall (candidate_ok id) cs → - 2 ^ 63 - 1 ≤ cur < 2 ^ 63 - 1 → ∃ o, covered_loop cs cur = Ret o.
Proof.
  induction cs as [|c cs IH]; intros cur Hcs Hcur; simpl; [eauto|]. inversion Hcs as [|? ? Hc Hcs']; subst.
  unfold int64_add. destruct (Z.leb_spec (- 2 ^ 63) (cur + 1)), (Z.ltb_spec (cur + 1) (2 ^ 63)); try lia. cbn [andb mbind outcome_bind].
  destruct (_ =? _); [|eauto]. apply IH; [done|]. destruct Hc. lia.
Qed.

Lemma covered_loop_counts cs : ∀ lo hi, Forall (candidate_ok id) cs → covered_loop cs (lo - 1) = Ret (Some hi) →
  ∀ b, multiplicity b cs = if decide (lo ≤ b ≤ hi) then 1%nat else 0%nat.
Proof.
  induction cs as [|c cs IH]; intros lo hi Hcs.
  { simpl. intros [= <-] b. by destruct (decide _); [lia|]. }
  inversion Hcs as [|? ? Hc Hcs']; subst. cbn [covered_loop]. intros (next & Hn & H)%bind_Ret_inv b. unfold int64_add in Hn.
  destruct (_ && _); [|done]. injection Hn as <-. destruct (Z.eqb_spec (lo - 1 + 1) (min_block c)) as [Hlo|]; [|done].
  pose proof (covered_loop_right _ _ _ Hcs' H) as Hr. replace (max_block c) with (max_block c + 1 - 1) in H by lia.
  rewrite multiplicity_cons, (IH _ _ Hcs' H b). destruct Hc. unfold has_block. repeat destruct (decide _); lia.
Qed.

Lemma counts_covered_loop cs : ∀ lo hi, Forall (candidate_ok id) cs → StronglySorted precedes cs → lo ≤ hi + 1 →
  - 2 ^ 63 < lo → hi < 2 ^ 63 - 1 →
  (∀ b, multiplicity b cs = if decide (lo ≤ b ≤ hi) then 1%nat else 0%nat) → covered_loop cs (lo - 1) = Ret (Some hi).
Proof.
  induction cs as [|c cs IH]; intros lo hi Hcs Hsorted Hle Hl Hh Hcount.
  { simpl. do 2 f_equal. specialize (Hcount lo). cbv [multiplicity filter list_filter length] in Hcount. destruct (decide _); lia. }
  inversion Hcs as [|? ? Hc Hcs']; subst. inversion Hsorted as [|? ? Hs Hfirst]; subst.
  assert (∀ b, has_block b c → lo ≤ b ≤ hi) as Hin.
  { intros b Hb. pose proof (multiplicity_in b c (c :: cs) ltac:(left) Hb) as Hm. rewrite Hcount in Hm. destruct (decide _); [done|lia]. }
  pose proof Hc as [Hp Hr _ _]. pose proof (Hin (min_block c) ltac:(unfold has_block; lia)) as H1.
  pose proof (Hin (max_block c) ltac:(unfold has_block; lia)) as H2.
  assert (min_block c = lo) as Hmin.
  { destruct (decide (has_block lo c)) as [Hb|Hb]; [unfold has_block in Hb; lia|].
    pose proof (Hcount lo) as Hone. rewrite multiplicity_cons, decide_False, decide_True in Hone by (done || lia).
    unfold multiplicity in Hone. destruct (filter (has_block lo) cs) as [|c' l] eqn:Hf; [done|].
    assert (c' ∈ filter (has_block lo) cs) as [Hb' Hc']%list_elem_of_filter by (rewrite Hf; left).
    rewrite Forall_forall in Hfirst, Hcs'. pose proof (precedes_min c c' (Hfirst c' Hc')) as Hm.
    rewrite Hp, (candidate_partition id c' (Hcs' c' Hc')) in Hm. unfold has_block in *. specialize (Hm eq_refl). lia. }
  cbn [covered_loop]. unfold int64_add. pose proof (candidate_low id c Hc). pose proof (candidate_high id c Hc).
  destruct (Z.leb_spec (- 2 ^ 63) (lo - 1 + 1)), (Z.ltb_spec (lo - 1 + 1) (2 ^ 63)); try lia. cbn [andb mbind outcome_bind].
  destruct (Z.eqb_spec (lo - 1 + 1) (min_block c)); [|lia]. replace (max_block c) with (max_block c + 1 - 1) by lia.
  apply IH; try done; try lia. intros b. specialize (Hcount b). rewrite multiplicity_cons in Hcount. unfold has_block in Hcount.
  repeat destruct (decide _); lia.
Qed.
End loop.

(** C29: [areAllBlockNumbersCovered] decides whether the candidates tile the range. For parts of one
    partition, in any order, it returns true exactly if every block number of the range is in exactly
    one candidate and no candidate has another block number; block numbers keep away from the limits
    of 64 bits, where the additions would be undefined. *)
Theorem blocks_covered_exactly (blocks_range : t) (candidates : list t) (id : bytes) :
  candidate_ok id blocks_range → Forall (candidate_ok id) candidates →
  ∃ r, areAllBlockNumbersCovered blocks_range candidates = Ret r ∧
    (r = true ↔ ∀ b, multiplicity b candidates = if decide (has_block b blocks_range) then 1%nat else 0%nat).
Proof.
  intros Hrange Hcs. pose proof (merge_sort_Permutation precedes candidates) as Hperm.
  pose proof (StronglySorted_merge_sort precedes candidates) as Hsorted. unfold areAllBlockNumbersCovered.
  set (sorted := merge_sort precedes candidates) in *.
  assert (Forall (candidate_ok id) sorted) as Hok by by rewrite Hperm.
  assert (∀ b, multiplicity b candidates = multiplicity b sorted) as Hmult by (intros b; unfold multiplicity; by rewrite Hperm).
  pose proof Hrange as [_ Hr Hlow Hhigh].
  assert ((∀ b, multiplicity b candidates = if decide (has_block b blocks_range) then 1%nat else 0%nat) ↔
    covered_loop sorted (min_block blocks_range - 1) = Ret (Some (max_block blocks_range))) as Hiff.
  { setoid_rewrite Hmult. split; [apply (counts_covered_loop id); done || lia|apply (covered_loop_counts id _ _ _ Hok)]. }
  destruct sorted as [|first rest] eqn:Hs.
  { eexists. split; [done|]. rewrite Hiff. split; [done|]. simpl. intros [= H]. lia. }
  destruct (Z.eqb_spec (min_block first) (min_block blocks_range)) as [Heq|Hne].
  - unfold int64_add at 1. pose proof (candidate_low _ _ (Forall_inv Hok)). pose proof (candidate_high _ _ (Forall_inv Hok)).
    pose proof (candidate_range _ _ (Forall_inv Hok)).
    destruct (Z.leb_spec (- 2 ^ 63) (min_block first + -1)), (Z.ltb_spec (min_block first + -1) (2 ^ 63)); try lia.
    cbn [negb andb mbind outcome_bind]. replace (min_block first + -1) with (min_block first - 1) by lia.
    destruct (covered_loop_returns id (first :: rest) (min_block first - 1) Hok ltac:(lia)) as [o Ho]. rewrite Ho. cbn [mbind outcome_bind].
    rewrite <- Heq in Hiff.
    destruct o as [r|]; eexists; (split; [done|]); rewrite Hiff, Ho, ?Z.eqb_eq; naive_solver.
  - cbn [negb]. eexists. split; [done|]. rewrite Hiff. split; [done|]. cbn [covered_loop]. unfold int64_add.
    destruct (_ && _); cbn [mbind outcome_bind]; [|done]. by destruct (Z.eqb_spec (min_block blocks_range - 1 + 1) (min_block first)); [lia|].
Qed.

Lemma blocks_covered_exactly_witness :
  areAllBlockNumbersCovered (mk (chars "all") 1 9 0 0 false)
    [mk (chars "all") 4 9 1 0 false; mk (chars "all") 1 3 2 0 false] = Ret true ∧
  areAllBlockNumbersCovered (mk (chars "all") 1 9 0 0 false)
    [mk (chars "all") 5 9 1 0 false; mk (chars "all") 1 3 2 0 false] = Ret false.
Proof.
  assert (∀ lo hi l, - 2 ^ 63 < lo → lo ≤ hi → hi < 2 ^ 63 - 1 → candidate_ok (chars "all") (mk (chars "all") lo hi l 0 false)) as Hok.
  { intros. by split. }
  split.
  - destruct (blocks_covered_exactly (mk (chars "all") 1 9 0 0 false)
      [mk (chars "all") 4 9 1 0 false; mk (chars "all") 1 3 2 0 false] (chars "all")) as (r & Hr & _);
      [apply Hok; lia|repeat constructor; simpl; lia|]. vm_compute in Hr. vm_compute. congruence.
  - destruct (blocks_covered_exactly (mk (chars "all") 1 9 0 0 false)
      [mk (chars "all") 5 9 1 0 false; mk (chars "all") 1 3 2 0 false] (chars "all")) as (r & Hr & Hiff);
      [apply Hok; lia|repeat constructor; simpl; lia|]. destruct r; [|exact Hr]. pose proof (proj1 Hiff eq_refl 4) as H4. vm_compute in H4. discriminate.
Defined.
End Coverage.

(** * Names of detached parts *)

Module DetachedNames.
Import MergeTreePartInfo PartNames DetachedPartInfo.









End DetachedNames.
