(* ===== verification/ActivePartSet.v ===== *)
(** The set of active data parts: [ActiveDataPartSet]
    (src/src/Storages/MergeTree/ActiveDataPartSet.h and .cpp).

    [part_info_to_name] is a [std::map] ordered by [operator<] of the parts: here the list of its
    entries in that order. An iterator is a position in the list: the entries before it, nearest
    first, and those from it on. *)

From Stdlib Require Import String.
From stdpp Require Import base list tactics numbers sets sorting.
From S2P Require Import Prelude Itoa IntText PartInfo.
Import MergeTreePartInfo.
Local Open Scope Z_scope.

Module ActiveDataPartSet.

Definition entry : Type := t * bytes.

Record set := mk_set {
  format_version : Z;
  part_info_to_name : list entry;
}.

Inductive AddPartOutcome := Added | HasCovering | HasIntersectingPart.
#[global] Instance AddPartOutcome_eq_dec : EqDecision AddPartOutcome.
Proof. solve_decision. Defined.

Definition with_entries (es : list entry) (s : set) : set := mk_set (format_version s) es.

(** [lower_bound]: the entries that are less than the part, nearest first, and the others. *)
Fixpoint lower_bound (part_info : t) (before : list entry) (es : list entry) : list entry * list entry :=
  match es with
  | [] => (before, [])
  | e :: es' => if less e.1 part_info then lower_bound part_info (e :: before) es' else (before, es)
  end.

(** The entries from the beginning of the map, of an iterator. *)
Definition whole (before after : list entry) : list entry := reverse before ++ after.

Definition getContainingPartImpl (part_info : t) (s : set) : option entry :=
  let '(before, after) := lower_bound part_info [] (part_info_to_name s) in
  let previous :=
    match before with
    | p :: _ => if contains p.1 part_info then Some p else None
    | [] => None
    end in
  match after with
  | n :: _ => if contains n.1 part_info then Some n else previous
  | [] => previous
  end.

(** Let's go left: the entries erased, from right to left, those left before the iterator, and
    whether an entry intersects the part. *)
Fixpoint go_left (part_info : t) (before : list entry) : list entry * list entry * bool :=
  match before with
  | [] => ([], [], false)
  | e :: before' =>
      if contains part_info e.1 then
        let '(erased, rest, intersects) := go_left part_info before' in (e :: erased, rest, intersects)
      else ([], before, negb (isDisjoint part_info e.1))
  end.

(** Let's go to the right: the entries erased, and those left. *)
Fixpoint go_right (part_info : t) (after : list entry) : list entry * list entry :=
  match after with
  | [] => ([], [])
  | e :: after' =>
      if contains part_info e.1 then
        let '(erased, rest) := go_right part_info after' in (e :: erased, rest)
      else ([], after)
  end.

(** The outcome, the names of the replaced parts ([out_replaced_parts], which is not touched if the
    outcome is [HasCovering]: no names here), and the set. When the outcome is [HasIntersectingPart]
    the entries that were erased before stay erased. *)
Definition addImpl (part_info : t) (name : bytes) (s : set) : AddPartOutcome * list bytes * set :=
  match getContainingPartImpl part_info s with
  | Some _ => (HasCovering, [], s)
  | None =>
      let '(before, after) := lower_bound part_info [] (part_info_to_name s) in
      let '(erased_left, before, intersects) := go_left part_info before in
      if intersects then (HasIntersectingPart, erased_left.*2, with_entries (whole before after) s) else
      let '(erased_right, after) := go_right part_info after in
      let out_replaced_parts := reverse (erased_left.*2) ++ erased_right.*2 in
      let next_intersects := match after with e :: _ => negb (isDisjoint part_info e.1) | [] => false end in
      if next_intersects then (HasIntersectingPart, out_replaced_parts, with_entries (whole before after) s) else
      (Added, out_replaced_parts, with_entries (whole before ((part_info, name) :: after)) s)
  end.

(** [add], which throws when parts intersect; the set is changed even then. *)
Definition add_named (part_info : t) (name : bytes) (s : set) : outcome (bool * list bytes) * set :=
  let '(o, replaced, s) := addImpl part_info name s in
  match o with
  | HasIntersectingPart => (Throw LOGICAL_ERROR, s)
  | Added => (Ret (true, replaced), s)
  | HasCovering => (Ret (false, replaced), s)
  end.

Definition on_outcome {A B} (m : outcome A) (s : set) (k : A → outcome B * set) : outcome B * set :=
  match m with
  | Ret a => k a
  | Throw e => (Throw e, s)
  | UB => (UB, s)
  | OutOfFuel => (OutOfFuel, s)
  end.

Definition add (name : bytes) (s : set) : outcome (bool * list bytes) * set :=
  on_outcome (fromPartName name (format_version s)) s (λ part_info, add_named part_info name s).

Definition add_part (part_info : t) (s : set) : outcome (bool * list bytes) * set :=
  on_outcome (getPartNameAndCheckFormat (format_version s) part_info) s (λ name, add_named part_info name s).

Definition tryAddPart (part_info : t) (s : set) : outcome AddPartOutcome * set :=
  on_outcome (getPartNameAndCheckFormat (format_version s) part_info) s (λ name,
    let '(o, _, s) := addImpl part_info name s in (Ret o, s)).

(** The constructor from names. *)
Fixpoint add_names (names : list bytes) (s : set) : outcome unit * set :=
  match names with
  | [] => (Ret tt, s)
  | name :: names =>
      let '(r, s) := add name s in
      match r with
      | Ret _ => add_names names s
      | Throw e => (Throw e, s)
      | UB => (UB, s)
      | OutOfFuel => (OutOfFuel, s)
      end
  end.

Definition create (format_version : Z) : set := mk_set format_version [].
Definition create_from (format_version : Z) (names : list bytes) : outcome unit * set := add_names names (create format_version).

(** [erase(key)], which compares keys by [operator<]. *)
Definition remove_part (part_info : t) (s : set) : bool * set :=
  let kept := filter (λ e, equal e.1 part_info = false) (part_info_to_name s) in
  (negb (length kept =? length (part_info_to_name s))%nat, with_entries kept s).

Definition remove (part_name : bytes) (s : set) : outcome bool * set :=
  on_outcome (fromPartName part_name (format_version s)) s (λ part_info,
    let '(r, s) := remove_part part_info s in (Ret r, s)).

(** The first loop of [getPartsCoveredByImpl]: the covered entries before the iterator, from right
    to left; nothing if the entry before them contains the part. *)
Fixpoint covered_before (part_info : t) (before : list entry) : option (list entry) :=
  match before with
  | [] => Some []
  | e :: before =>
      if contains part_info e.1 then es ← covered_before part_info before; Some (e :: es)
      else if contains e.1 part_info then None else Some []
  end.

Definition getPartsCoveredByImpl (part_info : t) (s : set) : list entry :=
  let '(before, after) := lower_bound part_info [] (part_info_to_name s) in
  match covered_before part_info before, covered_before part_info after with
  | Some left_part, Some right_part => reverse left_part ++ right_part
  | _, _ => []
  end.

Definition getPartsCoveredBy (part_info : t) (s : set) : list bytes := (getPartsCoveredByImpl part_info s).*2.
Definition getPartInfosCoveredBy (part_info : t) (s : set) : list t := (getPartsCoveredByImpl part_info s).*1.

(** An empty string if there is none. *)
Definition getContainingPart (part_info : t) (s : set) : bytes :=
  match getContainingPartImpl part_info s with Some e => e.2 | None => [] end.

Definition getContainingPart_name (name : bytes) (s : set) : outcome bytes :=
  part_info ← fromPartName name (format_version s); Ret (getContainingPart part_info s).

Definition getParts (s : set) : list bytes := (part_info_to_name s).*2.
Definition getPartInfos (s : set) : list t := (part_info_to_name s).*1.
Definition set_size (s : set) : Z := Z.of_nat (length (part_info_to_name s)).
Definition clear (s : set) : set := with_entries [] s.
Definition swap (s other : set) : set * set := (other, s).

(** [result &= remove(part)] for the names of a list that [selected] keeps. *)
Fixpoint remove_all (selected : bytes → bool) (names : list bytes) (result : bool) (s : set) : outcome bool * set :=
  match names with
  | [] => (Ret result, s)
  | name :: names =>
      if selected name then
        let '(r, s) := remove name s in
        match r with
        | Ret b => remove_all selected names (result && b) s
        | Throw e => (Throw e, s)
        | UB => (UB, s)
        | OutOfFuel => (OutOfFuel, s)
        end
      else remove_all selected names result s
  end.

Definition removePartAndCoveredParts (part_name : bytes) (s : set) : outcome bool * set :=
  on_outcome (fromPartName part_name (format_version s)) s (λ part_info,
    let parts_covered_by := getPartsCoveredBy part_info s in
    let '(r, s) := remove part_name s in
    on_outcome r s (λ result, remove_all (λ _, true) parts_covered_by result s)).

Definition removePartsCoveredBy (part_name : bytes) (s : set) : outcome bool * set :=
  on_outcome (fromPartName part_name (format_version s)) s (λ part_info,
    remove_all (λ part, negb (bool_decide (part = part_name))) (getPartsCoveredBy part_info s) true s).

(** [checkIntersectingParts], with the loops of [addImpl] on a map that is not changed. *)
Definition checkIntersectingParts (part_info : t) (s : set) : outcome unit :=
  let '(before, after) := lower_bound part_info [] (part_info_to_name s) in
  let '(passed, before, intersects) := go_left part_info before in
  if intersects then Throw LOGICAL_ERROR else
  let '(_, after) := go_right part_info (reverse passed ++ after) in
  match after with
  | e :: _ => throw_if (negb (isDisjoint part_info e.1)) LOGICAL_ERROR
  | [] => Ret tt
  end.

Definition checkIntersectingParts_name (name : bytes) (s : set) : outcome unit :=
  part_info ← fromPartName name (format_version s); checkIntersectingParts part_info s.
End ActiveDataPartSet.

(** * Disjoint parts in order *)

Module ActiveParts.
Import PartOrder ActiveDataPartSet.

(** The block range of [a] is before that of [b], or its partition is. *)
Definition ahead (a b : t) : Prop :=
  compare_strings (partition_id a) (partition_id b) = Lt ∨ (partition_id a = partition_id b ∧ max_block a < min_block b).

Definition nonempty (a : t) : Prop := min_block a ≤ max_block a.

Definition ahead_entry (e f : entry) : Prop := ahead e.1 f.1.

(** The invariant of the set: its parts are pairwise disjoint, and in order. *)
Record disjoint_parts (es : list entry) : Prop := {
  disjoint_sorted : StronglySorted ahead_entry es;
  disjoint_nonempty : ∀ e, e ∈ es → nonempty e.1;
}.

Section order.
Implicit Types a b c : t.

Lemma ahead_less a b : nonempty a → ahead a b → less a b = true.
Proof.
  intros Ha. rewrite less_Lt. unfold compare, next_field, nonempty in *. intros [->|[Hp Hm]]; [done|].
  rewrite (proj2 (compare_strings_eq _ _) Hp). by rewrite (proj2 (Z.compare_lt_iff _ _)) by lia.
Qed.

Lemma ahead_trans a b c : nonempty b → ahead a b → ahead b c → ahead a c.
Proof.
  unfold ahead, nonempty. intros Hb [H1|[H1 ?]] [H2|[H2 ?]].
  - left. by eapply (comparable_trans _ comparable_strings).
  - left. by rewrite <- H2.
  - left. by rewrite H1.
  - right. split; [congruence|lia].
Qed.

Lemma disjoint_cases a b : isDisjoint a b = true ↔
  partition_id a ≠ partition_id b ∨ max_block b < min_block a ∨ max_block a < min_block b.
Proof. unfold isDisjoint. rewrite !orb_true_iff, bool_decide_eq_true, !Z.ltb_lt. tauto. Qed.

Lemma disjoint_comm a b : isDisjoint a b = isDisjoint b a.
Proof. apply eq_iff_eq_true. rewrite !disjoint_cases. naive_solver. Qed.

Lemma contains_fields a b : contains a b = true →
  partition_id a = partition_id b ∧ min_block a ≤ min_block b ∧ max_block b ≤ max_block a.
Proof.
  unfold contains. rewrite !andb_true_iff, !Z.leb_le. intros (((((H & ?) & ?) & _) & _) & _).
  apply bool_decide_eq_true in H. auto.
Qed.

Lemma contains_refl a : contains a a = true.
Proof. unfold contains. rewrite bool_decide_true, !Z.leb_refl, !Z.eqb_refl by done. done. Qed.

(** Disjoint parts that are ordered by [operator<]. *)
Lemma precedes_ahead a b : nonempty a → nonempty b → precedes a b → isDisjoint a b = true → ahead a b.
Proof.
  intros Ha Hb Hp Hd. unfold ahead, nonempty in *. destruct (decide (partition_id a = partition_id b)) as [Heq|Hne].
  - right. split; [done|]. pose proof (precedes_min a b Hp Heq). apply disjoint_cases in Hd. naive_solver lia.
  - left. assert (compare_strings (partition_id a) (partition_id b) ≠ Gt) as Hgt.
    { apply precedes_cases in Hp as [H|H]; by eapply compare_fields. }
    destruct (compare_strings (partition_id a) (partition_id b)) eqn:E; try done. by apply compare_strings_eq in E.
Qed.

Lemma ahead_disjoint a b : ahead a b → isDisjoint a b = true.
Proof.
  rewrite disjoint_cases. intros [H|[_ H]]; [|auto]. left. intros Heq. by rewrite (proj2 (compare_strings_eq _ _) Heq) in H.
Qed.

Lemma less_precedes a b : less a b = true → precedes a b.
Proof. intros H%less_Lt. apply precedes_cases. auto. Qed.
End order.

(** ** The position of a part *)

Lemma lower_bound_spec p es : ∀ bf, ∃ l after, lower_bound p bf es = (reverse l ++ bf, after) ∧ es = l ++ after ∧
  Forall (λ e, less e.1 p = true) l ∧ (∀ n rest, after = n :: rest → precedes p n.1).
Proof.
  induction es as [|e es IH]; intros bf; simpl.
  { exists [], []. split_and!; [done|done|constructor|done]. }
  destruct (less e.1 p) eqn:Hl.
  - destruct (IH (e :: bf)) as (l & after & -> & -> & Hf & Hn). exists (e :: l), after.
    rewrite reverse_cons, <- app_assoc. split_and!; [done|done|by constructor|done].
  - exists [], (e :: es). split_and!; [done|done|constructor|]. intros n rest [= <- <-]. exact Hl.
Qed.

Section set.
Context (es : list entry) (Hes : disjoint_parts es) (p : t) (Hp : nonempty p).

Lemma sorted_cases (l : list entry) e f : StronglySorted ahead_entry l → e ∈ l → f ∈ l → e = f ∨ ahead e.1 f.1 ∨ ahead f.1 e.1.
Proof.
  induction 1 as [|x l _ IH Hx]; [by intros ?%not_elem_of_nil|]. rewrite Forall_forall in Hx.
  intros [->|He]%elem_of_cons [->|Hf]%elem_of_cons; auto.
  - right; left. by apply Hx.
  - right; right. by apply Hx.
Qed.

(** Parts of the set that share a block are the same. *)
Lemma shared_block_same e f b : e ∈ es → f ∈ es → partition_id e.1 = partition_id f.1 →
  min_block e.1 ≤ b ≤ max_block e.1 → min_block f.1 ≤ b ≤ max_block f.1 → e = f.
Proof.
  intros He Hf Hpart H1 H2. destruct (sorted_cases es e f (disjoint_sorted es Hes) He Hf) as [|[H|H]]; [done| |];
    apply ahead_disjoint, disjoint_cases in H; naive_solver lia.
Qed.

Lemma container_unique e f : e ∈ es → f ∈ es → contains e.1 p = true → contains f.1 p = true → e = f.
Proof.
  intros He Hf H1%contains_fields H2%contains_fields. unfold nonempty in Hp.
  apply (shared_block_same e f (min_block p)); [done|done|naive_solver congruence|lia|lia].
Qed.

Lemma nonempty_at e l1 l2 : es = l1 ++ e :: l2 → nonempty e.1.
Proof. intros H. apply (disjoint_nonempty es Hes). rewrite H. set_solver. Qed.

(** The parts on both sides of the position, as the position is found. *)
Section position.
Context (l after : list entry) (Hsplit : es = l ++ after) (Hless : Forall (λ e, less e.1 p = true) l).
Context (Hafter : ∀ n rest, after = n :: rest → precedes p n.1).

Lemma after_precedes e : e ∈ after → precedes p e.1.
Proof.
  intros He. destruct after as [|n rest] eqn:Ha; [by apply not_elem_of_nil in He|].
  apply elem_of_cons in He as [->|He]; [by eapply Hafter|]. etrans; [by eapply Hafter|]. apply less_precedes, ahead_less.
  - by eapply (nonempty_at n l rest).
  - pose proof (disjoint_sorted es Hes) as Hs. rewrite Hsplit in Hs. apply StronglySorted_app_1_r in Hs.
    apply StronglySorted_inv in Hs as [_ Hf]. rewrite Forall_forall in Hf. by apply Hf.
Qed.

Lemma left_precedes e : e ∈ l → precedes e.1 p.
Proof. intros He. rewrite Forall_forall in Hless. by apply less_precedes, Hless. Qed.

(** Only the next part can contain the part, from the position on. *)
Lemma container_next e : e ∈ after → contains e.1 p = true → ∃ rest, after = e :: rest.
Proof.
  intros He Hc. destruct after as [|n rest] eqn:Ha; [by apply not_elem_of_nil in He|].
  apply elem_of_cons in He as [->|He]; [eauto|]. exfalso.
  pose proof (Hafter n rest eq_refl) as Hn. pose proof (disjoint_sorted es Hes) as Hs. rewrite Hsplit in Hs.
  apply StronglySorted_app_1_r, StronglySorted_inv in Hs as [_ Hf]. rewrite Forall_forall in Hf. specialize (Hf e He).
  pose proof (nonempty_at n l rest Hsplit) as Hne. apply contains_fields in Hc as (Hpart & H1 & H2). unfold ahead_entry in Hf.
  assert (precedes n.1 e.1) as Hne' by by apply less_precedes, ahead_less.
  pose proof (partitions_between p n.1 e.1 Hn Hne' (eq_sym Hpart)) as Hpn.
  pose proof (precedes_min p n.1 Hn (eq_sym Hpn)). unfold nonempty in *.
  destruct Hf as [Hlt|[_ Hlt]]; [|lia]. rewrite Hpn, <- Hpart, (proj2 (compare_strings_eq _ _) eq_refl) in Hlt. done.
Qed.

(** Only the previous part can contain the part, before the position. *)
Lemma container_previous e : e ∈ l → contains e.1 p = true → ∃ l', l = l' ++ [e].
Proof.
  intros He Hc. apply list_elem_of_split in He as (l1 & l2 & Hl). destruct l2 as [|x l2]; [eauto|]. exfalso.
  pose proof (disjoint_sorted es Hes) as Hs. rewrite Hsplit, Hl in Hs.
  apply StronglySorted_app_1_l, StronglySorted_app_1_r, StronglySorted_inv in Hs as [_ Hf%Forall_inv]. unfold ahead_entry in Hf.
  rewrite Hl, Forall_app, !Forall_cons in Hless. destruct Hless as (_ & _ & Hx & _). apply less_precedes in Hx.
  apply contains_fields in Hc as (Hpart & H1 & H2). assert (nonempty e.1) as Hne.
  { apply (disjoint_nonempty es Hes). rewrite Hsplit, Hl. set_solver. }
  assert (precedes e.1 x.1) as Hex by by apply less_precedes, ahead_less.
  pose proof (partitions_between e.1 x.1 p Hex Hx Hpart) as Hpx. rewrite Hpart in Hpx.
  pose proof (precedes_min x.1 p Hx Hpx). unfold nonempty in *.
  destruct Hf as [Hlt|[_ Hlt]]; [|lia]. rewrite Hpx, Hpart, (proj2 (compare_strings_eq _ _) eq_refl) in Hlt. done.
Qed.
End position.
End set.

Lemma sorted_sublist {A} (R : A → A → Prop) k l : k `sublist_of` l → StronglySorted R l → StronglySorted R k.
Proof.
  induction 1 as [|x k l Hk IH|x k l Hk IH]; [done| |]; intros [H Hx]%StronglySorted_inv; [|by apply IH].
  constructor; [auto|]. rewrite Forall_forall in Hx |- *. intros y Hy. apply Hx. by eapply elem_of_sublist.
Qed.

Lemma disjoint_parts_sublist k es : k `sublist_of` es → disjoint_parts es → disjoint_parts k.
Proof.
  intros Hk [Hs Hn]. split; [by eapply sorted_sublist|]. intros e He. apply Hn. by eapply elem_of_sublist.
Qed.

Lemma disjoint_not_contained p e : nonempty e → isDisjoint p e = true → contains p e = false.
Proof.
  intros He Hd. destruct (contains p e) eqn:Hc; [|done]. apply contains_fields in Hc as (H1 & H2 & H3).
  apply disjoint_cases in Hd. unfold nonempty in He. naive_solver lia.
Qed.

Lemma position_spec p es : ∃ l after, lower_bound p [] es = (reverse l, after) ∧ es = l ++ after ∧
  Forall (λ e, less e.1 p = true) l ∧ (∀ n rest, after = n :: rest → precedes p n.1).
Proof. destruct (lower_bound_spec p es []) as (l & after & H). rewrite app_nil_r in H. eauto. Qed.

(** ** Containing parts *)

Lemma getContainingPartImpl_spec p s e : disjoint_parts (part_info_to_name s) → nonempty p →
  getContainingPartImpl p s = Some e ↔ e ∈ part_info_to_name s ∧ contains e.1 p = true.
Proof.
  intros Hes Hp. unfold getContainingPartImpl.
  destruct (position_spec p (part_info_to_name s)) as (l & after & -> & Hsplit & Hless & Hafter).
  split.
  - rewrite Hsplit. destruct l as [|x l _] using rev_ind; [|rewrite reverse_snoc];
      destruct after as [|n rest]; try (destruct (contains n.1 p) eqn:Hn); try (destruct (contains x.1 p) eqn:Hx);
      intros [= <-]; (split; [set_solver|done]).
  - intros [He Hc]. pose proof He as He'. rewrite Hsplit in He'. apply elem_of_app in He' as [He'|He'].
    + destruct (container_previous _ Hes p Hp _ _ Hsplit Hless Hafter e He' Hc) as (l' & ->).
      rewrite reverse_snoc, Hc. destruct after as [|n rest]; [done|]. destruct (contains n.1 p) eqn:Hn; [|done].
      f_equal. eapply (container_unique _ Hes p Hp n e); [rewrite Hsplit; set_solver|done|done|done].
    + destruct (container_next _ Hes p Hp _ _ Hsplit Hafter e He' Hc) as (rest & ->). by rewrite Hc.
Qed.

Lemma getContainingPartImpl_none p s : disjoint_parts (part_info_to_name s) → nonempty p →
  getContainingPartImpl p s = None → ∀ e, e ∈ part_info_to_name s → contains e.1 p = false.
Proof.
  intros Hes Hp Hn e He. destruct (contains e.1 p) eqn:Hc; [|done].
  by rewrite (proj2 (getContainingPartImpl_spec p s e Hes Hp) (conj He Hc)) in Hn.
Qed.

(** ** Adding a part *)

Definition next_intersects (p : t) (es : list entry) : bool :=
  match es with e :: _ => negb (isDisjoint p e.1) | [] => false end.

Lemma go_left_spec p bf : ∃ erased rest, go_left p bf = (erased, rest, next_intersects p rest) ∧ bf = erased ++ rest ∧
  Forall (λ e, contains p e.1 = true) erased ∧ (∀ e rest', rest = e :: rest' → contains p e.1 = false).
Proof.
  induction bf as [|e bf IH]; simpl; [by exists [], []|]. destruct (contains p e.1) eqn:Hc.
  - destruct IH as (er & rest & -> & -> & Hf & Hn). exists (e :: er), rest. split_and!; [done|done|by constructor|done].
  - exists [], (e :: bf). split_and!; [done|done|constructor|by intros ? ? [= <- <-]].
Qed.

Lemma go_right_spec p af : ∃ erased rest, go_right p af = (erased, rest) ∧ af = erased ++ rest ∧
  Forall (λ e, contains p e.1 = true) erased ∧ (∀ e rest', rest = e :: rest' → contains p e.1 = false).
Proof.
  induction af as [|e af IH]; simpl; [by exists [], []|]. destruct (contains p e.1) eqn:Hc.
  - destruct IH as (er & rest & -> & -> & Hf & Hn). exists (e :: er), rest. split_and!; [done|done|by constructor|done].
  - exists [], (e :: af). split_and!; [done|done|constructor|by intros ? ? [= <- <-]].
Qed.

(** If the nearest part is disjoint, all those behind it are. *)
Lemma rest_left_ahead es p k tail : disjoint_parts es → nonempty p → es = reverse k ++ tail →
  (∀ e, e ∈ k → precedes e.1 p) → next_intersects p k = false → ∀ e, e ∈ k → ahead e.1 p.
Proof.
  intros Hes Hp Hsplit Hk Hd e He. destruct k as [|x k]; [by apply not_elem_of_nil in He|]. simpl in Hd. apply negb_false_iff in Hd.
  assert (nonempty x.1) as Hx by (apply (disjoint_nonempty es Hes); rewrite Hsplit; set_solver).
  assert (ahead x.1 p) as Hxp by (apply precedes_ahead; [done|done|apply Hk; set_solver|by rewrite disjoint_comm]).
  apply elem_of_cons in He as [->|He]; [done|]. apply (ahead_trans _ x.1); [done| |done].
  pose proof (disjoint_sorted es Hes) as Hs. rewrite Hsplit, reverse_cons in Hs. apply StronglySorted_app_1_l in Hs.
  eapply (StronglySorted_app_1_elem_of ahead_entry); [done|set_solver|set_solver].
Qed.

Lemma rest_right_ahead es p k l : disjoint_parts es → nonempty p → es = l ++ k →
  (∀ e, e ∈ k → precedes p e.1) → next_intersects p k = false → ∀ e, e ∈ k → ahead p e.1.
Proof.
  intros Hes Hp Hsplit Hk Hd e He. destruct k as [|x k]; [by apply not_elem_of_nil in He|]. simpl in Hd. apply negb_false_iff in Hd.
  assert (nonempty x.1) as Hx by (apply (disjoint_nonempty es Hes); rewrite Hsplit; set_solver).
  assert (ahead p x.1) as Hxp by (apply precedes_ahead; [done|done|apply Hk; set_solver|done]).
  apply elem_of_cons in He as [->|He]; [done|]. apply (ahead_trans _ x.1); [done|done|].
  pose proof (disjoint_sorted es Hes) as Hs. rewrite Hsplit in Hs. apply StronglySorted_app_1_r, StronglySorted_inv in Hs as [_ Hf].
  rewrite Forall_forall in Hf. by apply Hf.
Qed.

(** The new part between those ahead of it and those behind it. *)
Lemma disjoint_parts_insert l m r e : disjoint_parts (l ++ m ++ r) → nonempty e.1 →
  (∀ x, x ∈ l → ahead x.1 e.1) → (∀ x, x ∈ r → ahead e.1 x.1) → disjoint_parts (l ++ e :: r).
Proof.
  intros [Hs Hn] He Hl Hr. rewrite !StronglySorted_app in Hs. destruct Hs as (Hlmr & Hls & _ & _ & Hrs). split.
  - apply StronglySorted_app. split_and!; [|done|].
    + intros x y Hx [->|Hy]%elem_of_cons; [by apply Hl|]. apply Hlmr; set_solver.
    + constructor; [done|]. apply Forall_forall. exact Hr.
  - intros x. rewrite elem_of_app, elem_of_cons. intros [Hx|[->|Hx]]; [|done|]; apply Hn; set_solver.
Qed.

(** What [addImpl] does when no part contains the new one: the parts before, those erased, those after. *)
Record add_step (p : t) (name : bytes) (s : set) (before erased after : list entry) : Prop := {
  step_split : part_info_to_name s = before ++ erased ++ after;
  step_erased : Forall (λ e, contains p e.1 = true) erased;
  step_result :
    (∃ replaced, addImpl p name s = (HasIntersectingPart, replaced, with_entries (before ++ after) s) ∧
      ∃ e, e ∈ before ++ after ∧ contains p e.1 = false ∧ isDisjoint p e.1 = false) ∨
    (addImpl p name s = (Added, erased.*2, with_entries (before ++ (p, name) :: after) s) ∧
      (∀ e, e ∈ before → ahead e.1 p) ∧ (∀ e, e ∈ after → ahead p e.1));
}.

Lemma addImpl_step p name s : disjoint_parts (part_info_to_name s) → nonempty p → getContainingPartImpl p s = None →
  ∃ before erased after, add_step p name s before erased after.
Proof.
  intros Hes Hp Hnone. destruct (position_spec p (part_info_to_name s)) as (l & after & Hlb & Hsplit & Hless & Hafter).
  destruct (go_left_spec p (reverse l)) as (er & rest & Hgl & Hrev & Her & Hrest).
  destruct (go_right_spec p after) as (er' & rest' & Hgr & Haf & Her' & Hrest').
  assert (l = reverse rest ++ reverse er) as Hl by (rewrite <- reverse_app, <- Hrev; by rewrite reverse_involutive).
  destruct (next_intersects p rest) eqn:Hi.
  - exists (reverse rest), (reverse er), after. split.
    + by rewrite Hsplit, Hl, <- app_assoc.
    + by apply Forall_reverse.
    + left. exists (er.*2). unfold addImpl, whole. rewrite Hnone, Hlb, Hgl. split; [done|].
      destruct rest as [|x rest]; [done|]. exists x. split_and!; [set_solver|by eapply Hrest|by apply negb_true_iff].
  - exists (reverse rest), (reverse er ++ er'), rest'. split.
    + by rewrite Hsplit, Hl, Haf, <- !app_assoc.
    + apply Forall_app. split; [by apply Forall_reverse|done].
    + destruct (next_intersects p rest') eqn:Hi'.
      * left. exists (reverse (er.*2) ++ er'.*2). unfold addImpl, whole. rewrite Hnone, Hlb, Hgl, Hgr.
        destruct rest' as [|x rest']; [done|]. simpl in Hi'. rewrite Hi'. split; [done|].
        exists x. split_and!; [set_solver|by eapply Hrest'|by apply negb_true_iff].
      * right. unfold addImpl, whole. rewrite Hnone, Hlb, Hgl, Hgr. unfold next_intersects in Hi'. rewrite Hi', fmap_app, fmap_reverse.
        split_and!; [done| |].
        -- intros x Hx. rewrite elem_of_reverse in Hx. revert x Hx. apply (rest_left_ahead (part_info_to_name s) p rest (reverse er ++ after)); [done|done| | |done].
           ++ by rewrite Hsplit, Hl, <- app_assoc.
           ++ intros e He. eapply (left_precedes p l Hless). rewrite Hl. set_solver.
        -- apply (rest_right_ahead (part_info_to_name s) p rest' (l ++ er')); [done|done| | |done].
           ++ by rewrite Hsplit, Haf, <- app_assoc.
           ++ intros e He. eapply (after_precedes _ Hes p Hp l after Hsplit Hafter). rewrite Haf. set_solver.
Qed.

(** The outcome by a scan of the whole set. *)
Definition add_reference (p : t) (es : list entry) : AddPartOutcome :=
  if existsb (λ e, contains e.1 p) es then HasCovering
  else if existsb (λ e, negb (contains p e.1) && negb (isDisjoint p e.1)) es then HasIntersectingPart
  else Added.

Definition covered (p : t) (e : entry) : Prop := contains p e.1 = true.
#[global] Instance covered_dec p e : Decision (covered p e).
Proof. unfold covered. apply _. Defined.

(** After a part has been added, the set is the new part and the parts that are not covered by it. *)
Lemma add_step_added p name s before erased after : disjoint_parts (part_info_to_name s) → nonempty p →
  part_info_to_name s = before ++ erased ++ after → Forall (covered p) erased →
  (∀ e, e ∈ before → ahead e.1 p) → (∀ e, e ∈ after → ahead p e.1) →
  disjoint_parts (before ++ (p, name) :: after) ∧
  filter (covered p) (part_info_to_name s) = erased ∧
  before ++ (p, name) :: after ≡ₚ (p, name) :: filter (λ e, ¬ covered p e) (part_info_to_name s) ∧
  (∀ e, e ∈ part_info_to_name s → covered p e ∨ isDisjoint p e.1 = true).
Proof.
  intros Hes Hp Hsplit Her Hb Ha. pose proof (disjoint_nonempty _ Hes) as Hn.
  assert (∀ e, e ∈ before → isDisjoint p e.1 = true) as Hdb by (intros e He; rewrite disjoint_comm; by apply ahead_disjoint, Hb).
  assert (∀ e, e ∈ after → isDisjoint p e.1 = true) as Hda by (intros e He; by apply ahead_disjoint, Ha).
  assert (∀ k, (∀ e, e ∈ k → e ∈ part_info_to_name s ∧ isDisjoint p e.1 = true) → Forall (λ e, ¬ covered p e) k) as Hnc.
  { intros k Hk. apply Forall_forall. intros e [He Hd]%Hk. unfold covered. rewrite disjoint_not_contained; auto. }
  rewrite Hsplit in Hnc, Hes. assert (Forall (λ e, ¬ covered p e) before) as Hncb by (apply Hnc; set_solver).
  assert (Forall (λ e, ¬ covered p e) after) as Hnca by (apply Hnc; set_solver). split_and!.
  - by apply (disjoint_parts_insert before erased after (p, name)).
  - rewrite Hsplit, !filter_app, (list_filter_none _ before), (list_filter_all _ erased), (list_filter_none _ after) by by apply Forall_forall.
    by rewrite app_nil_r.
  - rewrite Hsplit, !filter_app, (list_filter_all _ before), (list_filter_none _ erased), (list_filter_all _ after); [|by apply Forall_forall| |by apply Forall_forall].
    + by rewrite Permutation_middle.
    + intros e He Hne. rewrite Forall_forall in Her. by apply Hne, Her.
  - intros e He. rewrite Hsplit, !elem_of_app in He. rewrite Forall_forall in Her. destruct He as [He|[He|He]]; auto.
Qed.

(** C24: [addImpl], which looks only at the parts next to the place of the new one, decides as a scan of
    the whole set would, for every set of disjoint parts: a part is refused if some part contains it;
    it intersects if some part is neither covered by it nor disjoint; otherwise it is added. Then the
    set is the new part and exactly the parts it does not cover, the names of the others are returned in
    order, and every part that was in the set is in a part of the new one. The set stays a set of
    disjoint parts in order, also when the part intersects: then only covered parts are lost. *)
Theorem active_set_add (p : t) (name : bytes) (s : set) :
  disjoint_parts (part_info_to_name s) → nonempty p →
  let es := part_info_to_name s in
  ∃ replaced s', addImpl p name s = (add_reference p es, replaced, s') ∧
    format_version s' = format_version s ∧ disjoint_parts (part_info_to_name s') ∧
    match add_reference p es with
    | HasCovering => s' = s
    | Added =>
        part_info_to_name s' ≡ₚ (p, name) :: filter (λ e, ¬ covered p e) es ∧
        replaced = (filter (covered p) es).*2 ∧
        (∀ e, e ∈ es → ∃ f, f ∈ part_info_to_name s' ∧ contains f.1 e.1 = true)
    | HasIntersectingPart =>
        ∃ lost, es ≡ₚ part_info_to_name s' ++ lost ∧ Forall (covered p) lost
    end.
Proof.
  intros Hes Hp es. destruct (getContainingPartImpl p s) as [e|] eqn:Hc.
  - assert (add_reference p es = HasCovering) as Href.
    { apply getContainingPartImpl_spec in Hc; [|done|done]. unfold add_reference. by rewrite (proj2 (existsb_elem _ _)) by eauto. }
    rewrite Href. unfold addImpl. rewrite Hc. eauto 10.
  - pose proof (getContainingPartImpl_none p s Hes Hp Hc) as Hnone.
    destruct (addImpl_step p name s Hes Hp Hc) as (before & erased & after & [Hsplit Her [Hr|(Hr & Hb & Ha)]]).
    + destruct Hr as (replaced & Hr & e & He & H1 & H2).
      assert (add_reference p es = HasIntersectingPart) as Href.
      { unfold add_reference. rewrite existsb_none by done. rewrite (proj2 (existsb_elem _ _)); [done|]. exists e.
        rewrite H1, H2. split; [|done]. unfold es. rewrite Hsplit. set_solver. }
      rewrite Href, Hr. do 2 eexists. split_and!; [done|done| |].
      * eapply disjoint_parts_sublist; [|exact Hes]. rewrite Hsplit. simpl.
        apply sublist_app; [done|]. by apply sublist_inserts_l.
      * exists erased. split; [|done]. unfold es. rewrite Hsplit. simpl. by rewrite <- app_assoc, (Permutation_app_comm erased).
    + destruct (add_step_added p name s before erased after) as (Hd & Hf & Hperm & Hcases); [done..|].
      assert (add_reference p es = Added) as Href.
      { unfold add_reference. rewrite existsb_none by done. rewrite existsb_none; [done|]. intros e [Hcv|Hdj]%Hcases.
        - by rewrite Hcv.
        - by rewrite Hdj, andb_false_r. }
      rewrite Href, Hr. do 2 eexists. split_and!; [done|done|done|exact Hperm|unfold es; by rewrite Hf|].
      intros e He. simpl. destruct (decide (covered p e)) as [Hcv|Hncv]; [exists (p, name); split; [set_solver|done]|].
      exists e. split; [|apply contains_refl]. rewrite Hperm. apply elem_of_cons. right. by apply list_elem_of_filter.
Qed.

Definition part_1_1 : t := mk (chars "all") 1 1 0 0 false.
Definition part_2_3 : t := mk (chars "all") 2 3 1 0 false.
Definition part_4_6 : t := mk (chars "all") 4 6 1 0 false.
Definition part_1_3 : t := mk (chars "all") 1 3 2 0 false.
Definition part_2_5 : t := mk (chars "all") 2 5 2 0 false.

Definition three_parts : set := mk_set 1
  [(part_1_1, chars "all_1_1_0"); (part_2_3, chars "all_2_3_1"); (part_4_6, chars "all_4_6_1")].

Lemma three_parts_disjoint : disjoint_parts (part_info_to_name three_parts).
Proof.
  split.
  - repeat constructor; right; (split; [done|simpl; lia]).
  - intros e He. repeat (apply elem_of_cons in He as [->|He]; [unfold nonempty; simpl; lia|]). by apply not_elem_of_nil in He.
Defined.

Lemma active_set_add_witness :
  addImpl part_1_3 (chars "all_1_3_2") three_parts =
    (Added, [chars "all_1_1_0"; chars "all_2_3_1"],
     mk_set 1 [(part_1_3, chars "all_1_3_2"); (part_4_6, chars "all_4_6_1")]) ∧
  ∃ replaced s', addImpl part_1_3 (chars "all_1_3_2") three_parts = (Added, replaced, s') ∧ disjoint_parts (part_info_to_name s').
Proof.
  split; [vm_compute; reflexivity|].
  assert (nonempty part_1_3) as Hp by (unfold nonempty; simpl; lia).
  destruct (active_set_add part_1_3 (chars "all_1_3_2") three_parts three_parts_disjoint Hp) as (r & s' & H & _ & Hd & _).
  exists r, s'. split; [exact H|exact Hd].
Defined.

(** A part that intersects another is refused, but the parts it covers have been erased by then. *)
Lemma intersecting_add_loses_parts :
  addImpl part_2_5 (chars "all_2_5_2") three_parts =
    (HasIntersectingPart, [chars "all_2_3_1"],
     mk_set 1 [(part_1_1, chars "all_1_1_0"); (part_4_6, chars "all_4_6_1")]).
Proof. vm_compute. reflexivity. Qed.

(** ** Covered parts *)

(** No part overlaps the part in another way than by covering it or being covered. *)
Definition no_intersection (p : t) (es : list entry) : Prop :=
  ∀ e, e ∈ es → covered p e ∨ contains e.1 p = true ∨ isDisjoint p e.1 = true.

Lemma covered_before_spec p k : ∃ er rest, k = er ++ rest ∧ Forall (covered p) er ∧
  (∀ e rest', rest = e :: rest' → ¬ covered p e) ∧
  covered_before p k = match rest with e :: _ => if contains e.1 p then None else Some er | [] => Some er end.
Proof.
  induction k as [|e k IH]; simpl; [by exists [], []|]. destruct (contains p e.1) eqn:Hc.
  - destruct IH as (er & rest & -> & Hf & Hn & ->). exists (e :: er), rest. split_and!; [done|by constructor|done|].
    destruct rest as [|x rest]; [done|]. by destruct (contains x.1 p).
  - exists [], (e :: k). split_and!; [done|constructor| |done]. intros ? ? [= <- <-]. unfold covered. by rewrite Hc.
Qed.

(** If a part contains the part and is not covered by it, it covers no part. *)
Lemma container_covers_none es p x : disjoint_parts es → x ∈ es → contains x.1 p = true → ¬ covered p x → filter (covered p) es = [].
Proof.
  intros Hes Hx Hc Hnc. apply list_filter_none. intros e He Hcv. apply Hnc.
  replace x with e; [done|]. unfold covered in Hcv. apply contains_fields in Hc as (? & ? & ?). apply contains_fields in Hcv as (? & ? & ?).
  pose proof (disjoint_nonempty es Hes e He) as Hn. unfold nonempty in Hn.
  apply (shared_block_same es Hes e x (min_block e.1)); [done|done|congruence|lia|lia].
Qed.

Lemma ahead_not_covered (es : list entry) p (k : list entry) : disjoint_parts es → (∀ e, e ∈ k → e ∈ es ∧ isDisjoint p e.1 = true) → filter (covered p) k = [].
Proof.
  intros Hes Hk. apply list_filter_none. intros e [He Hd]%Hk. unfold covered.
  rewrite disjoint_not_contained; [done| |done]. by apply (disjoint_nonempty es Hes).
Qed.

Lemma no_intersection_next p es k : no_intersection p es → (∀ e, e ∈ k → e ∈ es) →
  (∀ e rest, k = e :: rest → ¬ covered p e ∧ contains e.1 p = false) → next_intersects p k = false.
Proof.
  intros Hno Hk Hh. destruct k as [|x k]; [done|]. simpl. destruct (Hh x k eq_refl) as [H1 H2].
  destruct (Hno x) as [H|[H| -> ]]; [apply Hk; set_solver|done|congruence|done].
Qed.

Lemma getPartsCoveredByImpl_spec p s : disjoint_parts (part_info_to_name s) → nonempty p →
  no_intersection p (part_info_to_name s) → getPartsCoveredByImpl p s = filter (covered p) (part_info_to_name s).
Proof.
  intros Hes Hp Hno. unfold getPartsCoveredByImpl.
  destruct (position_spec p (part_info_to_name s)) as (l & after & -> & Hsplit & Hless & Hafter).
  destruct (covered_before_spec p (reverse l)) as (er & rest & Hrev & Her & Hrest & ->).
  destruct (covered_before_spec p after) as (er' & rest' & Haf & Her' & Hrest' & ->).
  assert (l = reverse rest ++ reverse er) as Hl by (rewrite <- reverse_app, <- Hrev; by rewrite reverse_involutive).
  assert (part_info_to_name s = reverse rest ++ reverse er ++ er' ++ rest') as Hall by by rewrite Hsplit, Hl, Haf, <- !app_assoc.
  assert (∀ e, e ∈ rest → e ∈ part_info_to_name s) as Hin by (rewrite Hall; set_solver).
  assert (∀ e, e ∈ rest' → e ∈ part_info_to_name s) as Hin' by (rewrite Hall; set_solver).
  destruct (match rest with e :: _ => contains e.1 p | [] => false end) eqn:Hx.
  { destruct rest as [|x rest]; [done|]. rewrite Hx. symmetry.
    apply (container_covers_none _ p x Hes); [apply Hin; set_solver|done|by eapply Hrest]. }
  destruct (match rest' with e :: _ => contains e.1 p | [] => false end) eqn:Hx'.
  { destruct rest' as [|x' rest']; [done|]. rewrite Hx'. transitivity ([] : list entry); [by repeat case_match|]. symmetry.
    apply (container_covers_none _ p x' Hes); [apply Hin'; set_solver|done|by eapply Hrest']. }
  transitivity (reverse er ++ er'); [by destruct rest, rest'; rewrite ?Hx, ?Hx'|].
  rewrite Hall, !filter_app, (list_filter_all _ (reverse er)), (list_filter_all _ er') by (apply Forall_forall; done || by apply Forall_reverse).
  rewrite (ahead_not_covered _ p (reverse rest) Hes), (ahead_not_covered _ p rest' Hes); [by rewrite app_nil_r| |].
  - intros e He. split; [by apply Hin'|]. apply ahead_disjoint.
    eapply (rest_right_ahead _ p rest' (l ++ er') Hes Hp); [by rewrite Hsplit, Haf, <- app_assoc| | |done].
    + intros f Hf. eapply (after_precedes _ Hes p Hp l after Hsplit Hafter). rewrite Haf. set_solver.
    + eapply no_intersection_next; [done|done|]. intros f r ->. split; [by eapply Hrest'|done].
  - intros e He. rewrite elem_of_reverse in He. split; [by apply Hin|]. rewrite disjoint_comm. apply ahead_disjoint.
    eapply (rest_left_ahead _ p rest (reverse er ++ after) Hes Hp); [by rewrite Hsplit, Hl, <- app_assoc| | |done].
    + intros f Hf. eapply (left_precedes p l Hless). rewrite Hl. set_solver.
    + eapply no_intersection_next; [done|done|]. intros f r ->. split; [by eapply Hrest|done].
Qed.

(** ** Names of the parts of the set *)

Import PartNames.

(** The name of an entry denotes its part. *)
Record named (format_version : Z) (e : entry) : Prop := {
  named_part : nameable e.1;
  named_parses : fromPartName e.2 format_version = Ret e.1;
}.

(** The invariant of the set. *)
Record active (s : set) : Prop := {
  active_disjoint : disjoint_parts (part_info_to_name s);
  active_named : ∀ e, e ∈ part_info_to_name s → named (format_version s) e;
}.

Lemma fromPartName_cases name fv : is_bytes name →
  (∃ p, fromPartName name fv = Ret p ∧ nameable p) ∨ fromPartName name fv = Throw BAD_DATA_PART_NAME.
Proof.
  intros Hb. destruct (tryParsePartName_parses name fv Hb) as ([p|] & Hp & Hn); unfold fromPartName; rewrite Hp; [|auto].
  left. exists p. split; [done|]. by apply Hn.
Qed.

Lemma part_name_named p name fv : nameable p → getPartNameAndCheckFormat fv p = Ret name → named fv (p, name).
Proof.
  intros Hp. unfold getPartNameAndCheckFormat. destruct (Z.eqb_spec fv MERGE_TREE_DATA_MIN_FORMAT_VERSION_WITH_CUSTOM_PARTITIONING) as [->|]; [|done].
  rewrite getPartNameV1_text by (by apply nameable_representable). intros [= <-]. split; [done|]. unfold fromPartName.
  by rewrite (parse_name_v1_same p _ Hp) by done.
Qed.

Lemma named_nonempty fv e : named fv e → nonempty e.1.
Proof. intros H. apply H. Qed.

Lemma active_sublist k s : active s → k `sublist_of` part_info_to_name s → active (with_entries k s).
Proof.
  intros [Hd Hn] Hk. split; [by eapply disjoint_parts_sublist|]. intros e He. apply Hn. by eapply elem_of_sublist.
Qed.

Lemma addImpl_active p name s : active s → named (format_version s) (p, name) →
  ∃ o replaced s', addImpl p name s = (o, replaced, s') ∧ active s' ∧ format_version s' = format_version s ∧
    (∀ e, e ∈ part_info_to_name s' → e = (p, name) ∨ e ∈ part_info_to_name s) ∧
    (o ≠ HasIntersectingPart →
      ∀ e, e = (p, name) ∨ e ∈ part_info_to_name s → ∃ f, f ∈ part_info_to_name s' ∧ contains f.1 e.1 = true).
Proof.
  intros Hs Hnew. pose proof Hs as [Hes Hn]. pose proof (named_nonempty _ _ Hnew) as Hp. simpl in Hp.
  destruct (getContainingPartImpl p s) as [e|] eqn:Hc.
  - unfold addImpl. rewrite Hc. apply getContainingPartImpl_spec in Hc as [He Hc]; [|done|done].
    do 3 eexists. split_and!; [done|done|done|auto|]. intros _ f [->|Hf]; [eauto|]. exists f. split; [done|apply contains_refl].
  - destruct (addImpl_step p name s Hes Hp Hc) as (before & erased & after & [Hsplit Her [Hr|(Hr & Hb & Ha)]]).
    + destruct Hr as (replaced & Hr & _). rewrite Hr. do 3 eexists. split; [done|]. split; [|split; [done|split; [|done]]].
      * apply active_sublist; [done|]. rewrite Hsplit. apply sublist_app; [done|]. by apply sublist_inserts_l.
      * intros e He. right. rewrite Hsplit. simpl in He. set_solver.
    + destruct (add_step_added p name s before erased after) as (Hd & Hf & Hperm & Hcases); [done..|].
      rewrite Hr. do 3 eexists. split; [done|].
      assert (∀ e, e ∈ before ++ (p, name) :: after → e = (p, name) ∨ e ∈ part_info_to_name s) as Hin.
      { intros e. rewrite Hsplit. set_solver. }
      split_and!; [split; [done|]|done|done|].
      * intros e [->|He]%Hin; [done|by apply Hn].
      * intros _ e He. simpl. destruct (decide (covered p e)) as [Hcv|Hncv]; [exists (p, name); split; [set_solver|done]|].
        exists e. split; [|apply contains_refl]. rewrite Hperm. apply elem_of_cons. destruct He as [->|He]; [auto|].
        right. by apply list_elem_of_filter.
Qed.

(** ** Removing parts *)

Lemma contains_trans a b c : contains a b = true → contains b c = true → contains a c = true.
Proof.
  unfold contains. rewrite !andb_true_iff, !orb_true_iff, !andb_true_iff, !bool_decide_eq_true, !Z.leb_le, !Z.ltb_lt, !Z.eqb_eq.
  unfold MAX_LEVEL, LEGACY_MAX_LEVEL. intros H1 H2. split_and!; try lia. intuition congruence.
Qed.

Lemma equal_fields a b : equal a b = true ↔
  partition_id a = partition_id b ∧ min_block a = min_block b ∧ max_block a = max_block b ∧ level a = level b ∧ mutation a = mutation b.
Proof.
  unfold equal, not_equal. rewrite negb_true_iff, orb_false_iff. split.
  - intros [H1 H2]. apply compare_Eq_fields. unfold less in H1, H2. rewrite (comparable_opp _ comparable_compare a b) in H2.
    by destruct (compare a b).
  - intros (H1 & H2 & H3 & H4 & H5). unfold less, compare. rewrite H1, H2, H3, H4, H5.
    by rewrite (proj2 (compare_strings_eq _ _) eq_refl), !Z.compare_refl.
Qed.

Lemma equal_contains a b : equal a b = true → contains a b = true.
Proof.
  intros (H1 & H2 & H3 & H4 & H5)%equal_fields. unfold contains.
  rewrite bool_decide_true, H2, H3, H4, H5, !Z.leb_refl, !Z.eqb_refl by done. done.
Qed.

Lemma equal_sym a b : equal a b = equal b a.
Proof. unfold equal, not_equal. by rewrite orb_comm. Qed.

(** A part of the set is found by the fields of [operator<]. *)
Lemma equal_same es e f : disjoint_parts es → e ∈ es → f ∈ es → equal e.1 f.1 = true → e = f.
Proof.
  intros Hes He Hf (H1 & H2 & H3 & _)%equal_fields. pose proof (disjoint_nonempty es Hes e He) as Hn. unfold nonempty in Hn.
  apply (shared_block_same es Hes e f (min_block e.1)); [done|done|done|lia|lia].
Qed.

(** Removing a part of the set by its name removes it alone; a part that is not in the set is not found. *)
Lemma remove_entry s e : active s → e ∈ part_info_to_name s →
  remove e.2 s = (Ret true, with_entries (filter (λ f, f ≠ e) (part_info_to_name s)) s).
Proof.
  intros [Hes Hn] He. unfold remove, remove_part. rewrite (named_parses _ _ (Hn e He)). simpl.
  rewrite (list_filter_ext (λ f : entry, equal f.1 e.1 = false) (λ f, f ≠ e)).
  - assert (length (filter (λ f, f ≠ e) (part_info_to_name s)) < length (part_info_to_name s))%nat as Hlt.
    { apply (length_filter_lt _ _ e He). naive_solver. }
    rewrite (proj2 (Nat.eqb_neq _ _)); [done|exact (Nat.lt_neq _ _ Hlt)].
  - intros f Hf. split.
    + intros Hfe ->. pose proof (proj2 (equal_fields e.1 e.1)). intuition congruence.
    + intros Hfe. destruct (equal f.1 e.1) eqn:E; [|done]. by apply (equal_same _ _ _ Hes Hf He) in E.
Qed.

Lemma remove_absent s p name : fromPartName name (format_version s) = Ret p →
  (∀ e, e ∈ part_info_to_name s → equal e.1 p = false) → remove name s = (Ret false, s).
Proof.
  intros Hp Hno. unfold remove, remove_part. rewrite Hp. simpl. rewrite list_filter_all by done.
  rewrite Nat.eqb_refl. by destruct s.
Qed.

Lemma disjoint_NoDup es : disjoint_parts es → NoDup es.
Proof.
  intros [Hs Hn]. induction Hs as [|e es Hs IH He]; [constructor|]. constructor; [|apply IH; set_solver].
  intros Hin. rewrite Forall_forall in He. specialize (He e Hin). apply ahead_disjoint, disjoint_cases in He.
  pose proof (Hn e ltac:(set_solver)) as Hne. unfold nonempty in Hne. naive_solver lia.
Qed.

(** Removing parts of the set by their names. *)
Lemma remove_all_entries sel (k : list entry) : ∀ s r, active s → NoDup k → (∀ e, e ∈ k → e ∈ part_info_to_name s) →
  remove_all sel k.*2 r s =
    (Ret r, with_entries (filter (λ e, ¬ (e ∈ k ∧ sel e.2 = true)) (part_info_to_name s)) s).
Proof.
  induction k as [|e k IH]; intros s r Hs Hnd Hk; cbn [fmap list_fmap remove_all].
  { rewrite list_filter_all; [by destruct s|]. intros e _ [He _]. by apply not_elem_of_nil in He. }
  apply NoDup_cons in Hnd as [Hnot Hnd]. destruct (sel e.2) eqn:Hsel.
  - rewrite (remove_entry s e) by set_solver. rewrite andb_true_r, IH; [|apply active_sublist; [done|apply sublist_filter]|done|].
    + simpl. rewrite list_filter_filter. unfold with_entries. simpl. do 2 f_equal. apply list_filter_ext. intros f _. set_solver.
    + intros f Hf. apply list_elem_of_filter. split; [set_solver|]. apply Hk. set_solver.
  - rewrite IH; [|done|done|set_solver]. do 2 f_equal. apply list_filter_ext. intros f _. rewrite elem_of_cons. naive_solver congruence.
Qed.

(** A part that is in the set is the only one it covers. *)
Lemma covered_only es p e : disjoint_parts es → e ∈ es → equal e.1 p = true → filter (covered p) es = [e].
Proof.
  intros Hes He Heq. assert (covered p e) as Hce by (unfold covered; apply equal_contains; by rewrite equal_sym).
  assert (∀ f, f ∈ filter (covered p) es → f = e) as Hall.
  { intros f [Hcf Hf]%list_elem_of_filter. unfold covered in Hcf. apply contains_fields in Hcf as (? & ? & ?).
    apply equal_fields in Heq as (? & ? & ? & _). pose proof (disjoint_nonempty es Hes f Hf) as Hn. unfold nonempty in Hn.
    apply (shared_block_same es Hes f e (min_block f.1)); [done|done|congruence|lia|lia]. }
  assert (e ∈ filter (covered p) es) as Hin by by apply list_elem_of_filter.
  pose proof (NoDup_filter (covered p) es (disjoint_NoDup es Hes)) as Hnd.
  destruct (filter (covered p) es) as [|x [|y l]]; [by apply not_elem_of_nil in Hin| |].
  - f_equal. apply Hall. set_solver.
  - exfalso. rewrite (Hall x), (Hall y) in Hnd by set_solver. apply NoDup_cons in Hnd as [Hnot _]. set_solver.
Qed.

(** C27: With a set of disjoint parts in which nothing intersects a part, [getPartsCoveredBy] finds
    exactly the parts it covers, though it looks only around its place; [removePartsCoveredBy] removes
    exactly those with another name, and returns true; [removePartAndCoveredParts] removes exactly the
    covered parts, the part itself included. It always returns false: a part that is in the set is also
    among those it covers, and is not there any more when it is removed again. *)
Theorem active_set_removal (name : bytes) (p : t) (s : set) :
  active s → is_bytes name → fromPartName name (format_version s) = Ret p →
  let es := part_info_to_name s in
  no_intersection p es →
  getPartsCoveredBy p s = (filter (covered p) es).*2 ∧
  removePartsCoveredBy name s = (Ret true, with_entries (filter (λ e, ¬ (covered p e ∧ e.2 ≠ name)) es) s) ∧
  removePartAndCoveredParts name s = (Ret false, with_entries (filter (λ e, ¬ covered p e) es) s).
Proof.
  intros Hs Hb Hname es Hno. pose proof Hs as [Hes Hn].
  assert (nonempty p) as Hp.
  { destruct (fromPartName_cases name (format_version s) Hb) as [(p' & Hp' & Hn')|Hp']; [|congruence].
    assert (p = p') as -> by congruence. apply Hn'. }
  assert (getPartsCoveredBy p s = (filter (covered p) es).*2) as Hcov by (unfold getPartsCoveredBy; by rewrite getPartsCoveredByImpl_spec).
  assert (NoDup (filter (covered p) es)) as Hnd by by apply NoDup_filter, disjoint_NoDup.
  assert (∀ e, e ∈ filter (covered p) es → e ∈ es) as Hsub by (intros e He; by apply list_elem_of_filter in He as [_ ?]).
  split; [done|]. unfold removePartsCoveredBy, removePartAndCoveredParts. rewrite Hname. cbn [on_outcome]. rewrite Hcov. split.
  { rewrite remove_all_entries by done. do 2 f_equal. apply list_filter_ext. intros e He.
    rewrite list_elem_of_filter, negb_true_iff, bool_decide_eq_false. naive_solver. }
  destruct (existsb (λ e, equal e.1 p) es) eqn:Hex.
  - apply existsb_elem in Hex as (e & He & Heq). rewrite (covered_only es p e Hes He Heq). simpl.
    assert (remove name s = remove e.2 s) as ->.
    { unfold remove. rewrite Hname, (named_parses _ _ (Hn e He)). cbn [on_outcome]. unfold remove_part.
      rewrite (list_filter_ext (λ f : entry, equal f.1 p = false) (λ f : entry, equal f.1 e.1 = false)); [done|].
      apply equal_fields in Heq as (E1 & E2 & E3 & E4 & E5). intros f _.
      assert (equal f.1 p = equal f.1 e.1) as ->; [|done]. apply eq_iff_eq_true. rewrite !equal_fields, E1, E2, E3, E4, E5. done. }
    rewrite (remove_entry s e Hs He). cbn [on_outcome].
    rewrite (remove_absent _ e.1 e.2); [|by apply (named_parses _ _ (Hn e He))|].
    + do 2 f_equal. apply list_filter_ext. intros f Hf. split.
      * intros Hfe Hcf. apply Hfe. assert (f ∈ filter (covered p) es) as Hin by by apply list_elem_of_filter.
        rewrite (covered_only es p e Hes He Heq) in Hin. set_solver.
      * intros Hcf ->. apply Hcf. unfold covered. apply equal_contains. by rewrite equal_sym.
    + intros f [Hfe Hf]%list_elem_of_filter. destruct (equal f.1 e.1) eqn:E; [|done]. by apply (equal_same _ _ _ Hes Hf He) in E.
  - rewrite (remove_absent s p name); [|done|].
    + cbn [on_outcome]. rewrite remove_all_entries by done. do 2 f_equal. apply list_filter_ext. intros e He.
      rewrite list_elem_of_filter. naive_solver.
    + intros e He. destruct (equal e.1 p) eqn:E; [|done]. rewrite (proj2 (existsb_elem _ _)) in Hex by eauto. done.
Qed.

Lemma three_parts_active : active three_parts.
Proof.
  split; [exact three_parts_disjoint|]. intros e He.
  repeat (apply elem_of_cons in He as [->|He]; [split; [|vm_compute; reflexivity]|]); [| | |by apply not_elem_of_nil in He].
  all: split; simpl; try (unfold of_type, type_min, type_max; simpl; lia); try done; try lia; try (repeat constructor; unfold is_byte; lia).
  all: vm_compute; set_solver.
Defined.

Lemma active_set_removal_witness :
  removePartAndCoveredParts (chars "all_1_3_2") three_parts = (Ret false, mk_set 1 [(part_4_6, chars "all_4_6_1")]).
Proof.
  assert (no_intersection part_1_3 (part_info_to_name three_parts)) as Hno.
  { intros e He. repeat (apply elem_of_cons in He as [->|He]; [unfold covered; vm_compute; tauto|]). by apply not_elem_of_nil in He. }
  assert (is_bytes (chars "all_1_3_2")) as Hb by (repeat constructor; unfold is_byte; lia).
  assert (fromPartName (chars "all_1_3_2") (format_version three_parts) = Ret part_1_3) as Hname by (vm_compute; reflexivity).
  destruct (active_set_removal (chars "all_1_3_2") part_1_3 three_parts three_parts_active Hb Hname Hno) as (_ & _ & H).
  rewrite H. vm_compute. reflexivity.
Defined.

(** ** The constructor from names *)

Lemma add_active name s : active s → is_bytes name →
  ∃ r s', add name s = (r, s') ∧ active s' ∧ format_version s' = format_version s ∧
    (∀ e, e ∈ part_info_to_name s' → e.2 = name ∨ e ∈ part_info_to_name s) ∧
    match r with
    | Ret _ => ∃ p, fromPartName name (format_version s) = Ret p ∧ nameable p ∧
        ∀ e, e.1 = p ∨ e ∈ part_info_to_name s → ∃ f, f ∈ part_info_to_name s' ∧ contains f.1 e.1 = true
    | Throw e => e = BAD_DATA_PART_NAME ∨ e = LOGICAL_ERROR
    | _ => False
    end.
Proof.
  intros Hs Hb. unfold add. destruct (fromPartName_cases name (format_version s) Hb) as [(p & Hp & Hnp)|Hp]; rewrite Hp; cbn [on_outcome].
  - unfold add_named. destruct (addImpl_active p name s Hs) as (o & rep & s' & -> & Ha & Hf & Hin & Hcov); [by split|].
    assert (∀ e, e ∈ part_info_to_name s' → e.2 = name ∨ e ∈ part_info_to_name s) as Hin'.
    { intros e [->|He]%Hin; auto. }
    destruct o; (do 2 eexists; split; [done|]; split_and!; [done|done|done|]); [| |auto].
    all: exists p; split_and!; [done|done|]; intros e [He|He]; [|by apply Hcov; auto].
    all: destruct (Hcov ltac:(done) (p, name)) as (f & Hf' & Hc); [auto|]; exists f; by rewrite He.
  - do 2 eexists. split; [done|]. split_and!; [done|done|auto|auto].
Qed.

Lemma add_names_covers names : ∀ s, active s → Forall is_bytes names →
  ∃ r s', add_names names s = (r, s') ∧ active s' ∧ format_version s' = format_version s ∧
    (∀ e, e ∈ part_info_to_name s' → e.2 ∈ names ∨ e ∈ part_info_to_name s) ∧
    match r with
    | Ret _ =>
        (∀ e, e ∈ part_info_to_name s → ∃ f, f ∈ part_info_to_name s' ∧ contains f.1 e.1 = true) ∧
        (∀ name, name ∈ names → ∃ p, fromPartName name (format_version s) = Ret p ∧ nameable p ∧
          ∃ f, f ∈ part_info_to_name s' ∧ contains f.1 p = true)
    | Throw e => e = BAD_DATA_PART_NAME ∨ e = LOGICAL_ERROR
    | _ => False
    end.
Proof.
  induction names as [|name names IH]; intros s Hs Hb; simpl.
  { do 2 eexists. split; [done|]. split_and!; [done|done|auto| |by intros ? ?%not_elem_of_nil]. intros e He. exists e. split; [done|apply contains_refl]. }
  apply Forall_cons in Hb as [Hb Hbs]. destruct (add_active name s Hs Hb) as (r & s1 & -> & Hs1 & Hf1 & Hin1 & Hr).
  destruct r as [u|e| |]; try done.
  2: { do 2 eexists. split; [done|]. split_and!; [done|done| |done]. intros f [->|Hf]%Hin1; set_solver. }
  destruct (IH s1 Hs1 Hbs) as (r & s' & -> & Hs' & Hf' & Hin' & Hr'). rewrite Hf1 in *.
  do 2 eexists. split; [done|]. split_and!; [done|done| |].
  { intros e [He|[->|He]%Hin1]%Hin'; set_solver. }
  destruct r as [u'|e| |]; try done. destruct Hr as (p & Hp & Hnp & Hcov), Hr' as [Hcov' Hnames].
  assert (∀ e, e.1 = p ∨ e ∈ part_info_to_name s → ∃ f, f ∈ part_info_to_name s' ∧ contains f.1 e.1 = true) as Hboth.
  { intros e (f & Hf & Hc)%Hcov. destruct (Hcov' f Hf) as (g & Hg & Hc'). exists g. split; [done|]. by eapply contains_trans. }
  split; [auto|]. intros n [->|Hn]%elem_of_cons; [|auto]. exists p. split_and!; [done|done|]. apply (Hboth (p, name)). auto.
Qed.

Lemma active_create fv : active (create fv).
Proof. split; [split; [constructor|]|]; simpl; by intros e ?%not_elem_of_nil. Qed.

(** C26: A set made from the names of parts, whatever their order: it ends with a set of disjoint parts, or
    throws because a name is not one of a part or because parts intersect. If it returns, every part that
    was named is in the part of the set that [getContainingPart] returns for it, and that part was named
    too: merged parts replace their sources and nothing is lost. *)
Theorem active_set_covers (fv : Z) (names : list bytes) :
  Forall is_bytes names →
  ∃ r s, create_from fv names = (r, s) ∧ active s ∧
    match r with
    | Ret _ => ∀ name, name ∈ names → ∃ outer, getContainingPart_name name s = Ret outer ∧ outer ∈ names ∧ outer ∈ getParts s ∧
        contains_names outer name fv = Ret true
    | Throw e => e = BAD_DATA_PART_NAME ∨ e = LOGICAL_ERROR
    | _ => False
    end.
Proof.
  intros Hb. destruct (add_names_covers names (create fv) (active_create fv) Hb) as (r & s & Hr & Hs & Hf & Hin & Hcase).
  exists r, s. split_and!; [done|done|]. destruct r as [u|e| |]; try done. destruct Hcase as [_ Hnames]. simpl in Hf, Hin, Hnames.
  intros name Hname. destruct (Hnames name Hname) as (p & Hp & Hnp & f & Hfin & Hc). exists f.2.
  assert (getContainingPartImpl p s = Some f) as Hget by (apply getContainingPartImpl_spec; [apply Hs|apply Hnp|done]).
  assert (f.2 ∈ names) as Hn by (destruct (Hin f Hfin) as [|?%not_elem_of_nil]; done).
  pose proof (active_named s Hs f Hfin) as Hfn. rewrite Hf in Hfn. split_and!; [|done| |].
  - unfold getContainingPart_name, getContainingPart. rewrite Hf, Hp. cbn [mbind outcome_bind]. by rewrite Hget.
  - unfold getParts. apply list_elem_of_fmap. eauto.
  - unfold contains_names. rewrite (named_parses _ _ Hfn), Hp. cbn [mbind outcome_bind]. by rewrite Hc.
Qed.

Lemma active_set_covers_witness :
  create_from 1 [chars "all_2_3_1"; chars "all_1_1_0"; chars "all_4_6_1"; chars "all_1_3_2"; chars "all_2_2_0"] =
    (Ret tt, mk_set 1 [(part_1_3, chars "all_1_3_2"); (part_4_6, chars "all_4_6_1")]) ∧
  ∃ r s, create_from 1 [chars "all_2_3_1"; chars "all_1_3_2"] = (r, s) ∧ active s.
Proof.
  split; [vm_compute; reflexivity|].
  destruct (active_set_covers 1 [chars "all_2_3_1"; chars "all_1_3_2"]) as (r & s & H & Hs & _); [|eauto].
  repeat constructor; unfold is_byte; lia.
Defined.

(** ** Any sequence of operations *)

Inductive op :=
| AddName (name : bytes)
| AddNamed (p : t) (name : bytes)
| AddPart (p : t)
| TryAddPart (p : t)
| RemoveName (name : bytes)
| RemovePart (p : t)
| RemovePartAndCovered (name : bytes)
| RemoveCovered (name : bytes)
| Clear.

(** The set after an operation, whether it returned or threw. *)
Definition run (o : op) (s : set) : set :=
  match o with
  | AddName name => (add name s).2
  | AddNamed p name => (add_named p name s).2
  | AddPart p => (add_part p s).2
  | TryAddPart p => (tryAddPart p s).2
  | RemoveName name => (remove name s).2
  | RemovePart p => (remove_part p s).2
  | RemovePartAndCovered name => (removePartAndCoveredParts name s).2
  | RemoveCovered name => (removePartsCoveredBy name s).2
  | Clear => clear s
  end.

(** Names are strings of bytes, parts are those that have a name, and a part given with a name has that one. *)
Definition valid (fv : Z) (o : op) : Prop :=
  match o with
  | AddName name => is_bytes name
  | AddNamed p name => named fv (p, name)
  | AddPart p | TryAddPart p => nameable p
  | _ => True
  end.

Definition keeps (s s' : set) : Prop := active s' ∧ format_version s' = format_version s.

Lemma remove_keeps name s : active s → keeps s (remove name s).2.
Proof.
  intros Hs. unfold remove. destruct (fromPartName _ _); try by split. simpl. split; [|done].
  apply active_sublist; [done|apply sublist_filter].
Qed.

Lemma remove_all_keeps sel names : ∀ r s, active s → keeps s (remove_all sel names r s).2.
Proof.
  induction names as [|name names IH]; intros r s Hs; simpl; [by split|]. destruct (sel name); [|auto].
  destruct (remove_keeps name s Hs) as [H1 H2]. destruct (remove name s) as [[b|e| |] s1]; simpl in *; [|by split..].
  destruct (IH (r && b) s1 H1) as [H3 H4]. split; [done|congruence].
Qed.

Lemma add_named_keeps p name s : active s → named (format_version s) (p, name) → keeps s (add_named p name s).2.
Proof.
  intros Hs Hn. unfold add_named. destruct (addImpl_active p name s Hs Hn) as (o & rep & s' & -> & Ha & Hf & _).
  by destruct o; split.
Qed.

Lemma run_keeps o s : active s → valid (format_version s) o → keeps s (run o s).
Proof.
  intros Hs Hv. destruct o as [name|p name|p|p|name|p|name|name|]; simpl in *.
  - destruct (add_active name s Hs Hv) as (r & s' & -> & Ha & Hf & _). by split.
  - by apply add_named_keeps.
  - unfold add_part. destruct (getPartNameAndCheckFormat _ p) as [name| | |] eqn:Hn; try by split.
    cbn [on_outcome]. apply add_named_keeps; [done|]. by apply part_name_named.
  - unfold tryAddPart. destruct (getPartNameAndCheckFormat _ p) as [name| | |] eqn:Hn; try by split.
    cbn [on_outcome]. destruct (addImpl_active p name s Hs) as (o & rep & s' & -> & Ha & Hf & _); [by apply part_name_named|by split].
  - by apply remove_keeps.
  - split; [|done]. apply active_sublist; [done|apply sublist_filter].
  - unfold removePartAndCoveredParts. destruct (fromPartName _ _); try by split. cbn [on_outcome].
    destruct (remove_keeps name s Hs) as [H1 H2]. destruct (remove name s) as [[b|e| |] s1]; simpl in *; try by split.
    match goal with |- keeps s (remove_all ?f ?l ?r s1).2 => destruct (remove_all_keeps f l r s1 H1) as [H3 H4] end. split; [done|congruence].
  - unfold removePartsCoveredBy. destruct (fromPartName _ _); try by split. by apply remove_all_keeps.
  - split; [|done]. apply active_sublist; [done|apply sublist_nil_l].
Qed.

Lemma disjoint_increasing es : disjoint_parts es → StronglySorted (λ a b, less a b = true) es.*1.
Proof.
  intros [Hs Hn]. induction Hs as [|e es Hs IH He]; simpl; [constructor|]. constructor; [apply IH; set_solver|].
  rewrite Forall_forall in He. apply Forall_forall. intros a (f & -> & Hf)%list_elem_of_fmap. apply ahead_less; [apply Hn; set_solver|by apply He].
Qed.

(** C25: Whatever operations are called in whatever order, also those that throw, the set holds parts with
    their own names, in strictly ascending order, any two of which have no block in common; a part is found
    by [getContainingPart] exactly if some part of the set contains it. *)
Theorem active_set_invariant (fv : Z) (ops : list op) :
  Forall (valid fv) ops →
  let s := foldl (λ s o, run o s) (create fv) ops in
  active s ∧ format_version s = fv ∧
  StronglySorted (λ a b, less a b = true) (getPartInfos s) ∧
  (∀ e f, e ∈ part_info_to_name s → f ∈ part_info_to_name s → e ≠ f → isDisjoint e.1 f.1 = true) ∧
  (∀ p, nonempty p → ∀ e, getContainingPartImpl p s = Some e ↔ e ∈ part_info_to_name s ∧ contains e.1 p = true).
Proof.
  intros Hv s. assert (active s ∧ format_version s = fv) as [Hs Hf].
  { assert (∀ s0, active s0 → format_version s0 = fv →
      active (foldl (λ s o, run o s) s0 ops) ∧ format_version (foldl (λ s o, run o s) s0 ops) = fv) as H; [|by apply H; [apply active_create|]].
    clear s. induction Hv as [|o ops Ho Hv IH]; intros s0 Hs0 Hf0; simpl; [done|].
    destruct (run_keeps o s0 Hs0) as [H1 H2]; [by rewrite Hf0|]. apply IH; [done|congruence]. }
  pose proof (active_disjoint s Hs) as Hes. split_and!; [done|done|by apply disjoint_increasing| |].
  - intros e f He Hf' Hne. destruct (sorted_cases _ e f (disjoint_sorted _ Hes) He Hf') as [|[H|H]]; [done| |].
    + by apply ahead_disjoint.
    + rewrite disjoint_comm. by apply ahead_disjoint.
  - intros p Hp e. by apply getContainingPartImpl_spec.
Qed.

Lemma active_set_invariant_witness :
  active (foldl (λ s o, run o s) (create 1)
    [AddName (chars "all_2_3_1"); AddPart part_4_6; TryAddPart part_2_5; AddNamed part_1_1 (chars "all_1_1_0");
     RemoveName (chars "all_4_6_1"); RemoveCovered (chars "all_1_3_2")]).
Proof.
  apply (active_set_invariant 1). pose proof (active_named _ three_parts_active (part_4_6, chars "all_4_6_1") ltac:(set_solver)) as H46.
  pose proof (active_named _ three_parts_active (part_1_1, chars "all_1_1_0") ltac:(set_solver)) as H11.
  assert (nameable part_2_5) as H25.
  { split; simpl; try (unfold of_type, type_min, type_max; simpl; lia); try done; try lia; try (repeat constructor; unfold is_byte; lia).
    vm_compute; set_solver. }
  constructor; [repeat constructor; unfold is_byte; lia|]. constructor; [exact (named_part _ _ H46)|].
  constructor; [exact H25|]. constructor; [exact H11|]. repeat constructor.
Defined.

(** ** Checking for intersections *)

Lemma go_right_app p er k : Forall (covered p) er → (go_right p (er ++ k)).2 = (go_right p k).2.
Proof.
  induction 1 as [|e er He _ IH]; [done|]. simpl. unfold covered in He. rewrite He. by destruct (go_right p (er ++ k)).
Qed.

(** [checkIntersectingParts] throws exactly if a part is neither covered by the part nor disjoint. *)
Lemma checkIntersectingParts_spec p s : disjoint_parts (part_info_to_name s) → nonempty p →
  checkIntersectingParts p s =
    throw_if (existsb (λ e, negb (contains p e.1) && negb (isDisjoint p e.1)) (part_info_to_name s)) LOGICAL_ERROR.
Proof.
  intros Hes Hp. unfold checkIntersectingParts.
  destruct (position_spec p (part_info_to_name s)) as (l & after & -> & Hsplit & Hless & Hafter).
  destruct (go_left_spec p (reverse l)) as (er & rest & -> & Hrev & Her & Hrest).
  destruct (go_right_spec p after) as (er' & rest' & Hgr & Haf & Her' & Hrest').
  assert (l = reverse rest ++ reverse er) as Hl by (rewrite <- reverse_app, <- Hrev; by rewrite reverse_involutive).
  assert (∀ x, x ∈ rest ∨ x ∈ rest' → x ∈ part_info_to_name s) as Hin by (rewrite Hsplit, Hl, Haf; set_solver).
  assert (∀ x, x ∈ rest ∨ x ∈ rest' → contains p x.1 = false → isDisjoint p x.1 = false →
    existsb (λ e, negb (contains p e.1) && negb (isDisjoint p e.1)) (part_info_to_name s) = true) as Hyes.
  { intros x Hx H1 H2. apply existsb_elem. exists x. split; [auto|by rewrite H1, H2]. }
  destruct (next_intersects p rest) eqn:Hi.
  { destruct rest as [|x rest]; [done|]. rewrite (Hyes x); [done|set_solver|by eapply Hrest|by apply negb_true_iff]. }
  pose proof (go_right_app p (reverse er) after ltac:(by apply Forall_reverse)) as Hga. rewrite Hgr in Hga.
  destruct (go_right p (reverse er ++ after)) as [u k]. simpl in Hga. subst k.
  destruct (next_intersects p rest') eqn:Hi'.
  { destruct rest' as [|x rest']; [done|]. simpl in Hi'. rewrite Hi', (Hyes x); [done|set_solver|by eapply Hrest'|by apply negb_true_iff]. }
  assert (∀ e, e ∈ rest → ahead e.1 p) as Hal.
  { apply (rest_left_ahead _ p rest (reverse er ++ after) Hes Hp); [by rewrite Hsplit, Hl, <- app_assoc| |done].
    intros e He. eapply (left_precedes p l Hless). rewrite Hl. set_solver. }
  assert (∀ e, e ∈ rest' → ahead p e.1) as Har.
  { apply (rest_right_ahead _ p rest' (l ++ er') Hes Hp); [by rewrite Hsplit, Haf, <- app_assoc| |done].
    intros e He. eapply (after_precedes _ Hes p Hp l after Hsplit Hafter). rewrite Haf. set_solver. }
  rewrite existsb_none; [by destruct rest'; simpl in *; rewrite ?Hi'|].
  rewrite Forall_forall in Her, Her'. intros x. rewrite Hsplit, Hl, Haf, !elem_of_app, !elem_of_reverse.
  intros [[Hx|Hx]|[Hx|Hx]]; [| by rewrite Her | by rewrite Her' |].
  - rewrite disjoint_comm, (ahead_disjoint _ _ (Hal x Hx)). by rewrite andb_false_r.
  - rewrite (ahead_disjoint _ _ (Har x Hx)). by rewrite andb_false_r.
Qed.

End ActiveParts.
