(* ===== verification/HashTable.v ===== *)
(** The open-addressing hash table: [HashTable] (src/src/Common/HashTable/HashTable.h), its cells and
    the maps and sets made of it (HashMap.h, HashSet.h, ClearableHashSet.h).

    The buffer is the list of its cells; a null pointer is the empty list (an allocated buffer has
    cells). A pointer to a cell is its position, or the storage of the zero key. The [Cell] parameter
    of the template is the class [HashCell]. Allocation asks [memory], which says what the allocator
    throws for a number of bytes, if it does; it is given to each operation. *)

From stdpp Require Import base list tactics numbers sets.
From S2P Require Import Prelude.
Local Open Scope Z_scope.

(** * Cells *)

(** The interface of cells ([HashTableCell]). Placement new and [Cell()] are given the cell that was in
    the memory before. *)
Class HashCell (Key Mapped State Cell : Type) := {
  getKey : Cell → Key;
  getMapped : Cell → Mapped;
  keyEquals : Cell → Key → Z → State → bool;
  setHash : Z → Cell → Cell;
  getHash : Cell → Z;
  cell_isZero : Cell → State → bool;
  key_isZero : Key → State → bool;
  setZero : Cell → Cell;
  need_zero_value_storage : bool;
  setMapped : Mapped → Cell → Cell;
  construct : Key → State → Cell → Cell;
  construct_default : Cell → Cell;
  (** zeroed memory *)
  zero_memory : Cell;
}.

(** [HashMapCell]; a set has no mapped value. *)
Module HashMapCell.
Section cell.
Context {Key Mapped : Type} `{EqDecision Key} (zero_key : Key) (zero_mapped : Mapped) (hash : Key → Z).

Record cell := mk { first : Key; second : Mapped }.

Definition keyEquals (c : cell) (key_ : Key) : bool := bool_decide (first c = key_).
Definition setZero (c : cell) : cell := mk zero_key (second c).
Definition setMapped (v : Mapped) (c : cell) : cell := mk (first c) v.

#[local] Instance HashMapCell_cell : HashCell Key Mapped unit cell := {|
  HashTable.getKey := first;
  HashTable.getMapped := second;
  HashTable.keyEquals c k _ _ := keyEquals c k;
  HashTable.setHash _ c := c;
  HashTable.getHash c := hash (first c);
  HashTable.cell_isZero c _ := bool_decide (first c = zero_key);
  HashTable.key_isZero k _ := bool_decide (k = zero_key);
  HashTable.setZero := setZero;
  HashTable.need_zero_value_storage := true;
  HashTable.setMapped := setMapped;
  (* the mapped value is not initialised *)
  HashTable.construct k _ c := mk k (second c);
  HashTable.construct_default _ := mk zero_key zero_mapped;
  HashTable.zero_memory := mk zero_key zero_mapped;
|}.
End cell.
End HashMapCell.

(** [HashMapCellWithSavedHash]. *)
Module HashMapCellWithSavedHash.
Section cell.
Context {Key Mapped : Type} `{EqDecision Key} (zero_key : Key) (zero_mapped : Mapped).

Record cell := mk { first : Key; second : Mapped; saved_hash : Z }.

Definition keyEquals (c : cell) (key_ : Key) (hash_ : Z) : bool :=
  (saved_hash c =? hash_) && bool_decide (first c = key_).
Definition setHash (hash_value : Z) (c : cell) : cell := mk (first c) (second c) hash_value.
Definition setZero (c : cell) : cell := mk zero_key (second c) (saved_hash c).
Definition setMapped (v : Mapped) (c : cell) : cell := mk (first c) v (saved_hash c).

#[local] Instance HashMapCellWithSavedHash_cell : HashCell Key Mapped unit cell := {|
  HashTable.getKey := first;
  HashTable.getMapped := second;
  HashTable.keyEquals c k h _ := keyEquals c k h;
  HashTable.setHash := setHash;
  HashTable.getHash := saved_hash;
  HashTable.cell_isZero c _ := bool_decide (first c = zero_key);
  HashTable.key_isZero k _ := bool_decide (k = zero_key);
  HashTable.setZero := setZero;
  HashTable.need_zero_value_storage := true;
  HashTable.setMapped := setMapped;
  HashTable.construct k _ c := mk k (second c) (saved_hash c);
  HashTable.construct_default _ := mk zero_key zero_mapped 0;
  HashTable.zero_memory := mk zero_key zero_mapped 0;
|}.
End cell.
End HashMapCellWithSavedHash.

(** [ClearableHashTableCell] over [HashMapCell], and its state, the version of the table. *)
Module ClearableHashTableCell.
Section cell.
Context {Key Mapped : Type} `{EqDecision Key} (zero_key : Key) (zero_mapped : Mapped) (hash : Key → Z).

Record cell := mk { first : Key; second : Mapped; version : Z }.

Definition isZero (c : cell) (state : Z) : bool := negb (version c =? state).
Definition setZero (c : cell) : cell := mk (first c) (second c) 0.
Definition setMapped (v : Mapped) (c : cell) : cell := mk (first c) v (version c).

#[local] Instance ClearableHashTableCell_cell : HashCell Key Mapped Z cell := {|
  HashTable.getKey := first;
  HashTable.getMapped := second;
  HashTable.keyEquals c k _ _ := bool_decide (first c = k);
  HashTable.setHash _ c := c;
  HashTable.getHash c := hash (first c);
  HashTable.cell_isZero := isZero;
  HashTable.key_isZero _ _ := false;
  HashTable.setZero := setZero;
  HashTable.need_zero_value_storage := false;
  HashTable.setMapped := setMapped;
  HashTable.construct k state c := mk k (second c) state;
  HashTable.construct_default c := c;
  HashTable.zero_memory := mk zero_key zero_mapped 0;
|}.
End cell.
End ClearableHashTableCell.

(** * The size of the table *)

(** [HashTableGrowerWithPrecalculation]. *)
Module Grower.

Record t := mk {
  size_degree : Z;
  precalculated_mask : Z;
  precalculated_max_fill : Z;
}.

Definition max_size_degree : Z := 23.

(** Shifts by a negative number, or by 64 or more, are undefined. *)
Definition increaseSizeDegree (delta : Z) (g : t) : outcome t :=
  let size_degree := u8 (size_degree g + delta) in
  if (1 <=? size_degree) && (size_degree <? 64) then
    Ret (mk size_degree (u64 (Z.shiftl 1 size_degree - 1)) (u64 (Z.shiftl 1 (size_degree - 1))))
  else UB.

Definition bufSize (g : t) : Z := Z.shiftl 1 (size_degree g).
Definition place (g : t) (x : Z) : Z := Z.land x (precalculated_mask g).
Definition next (g : t) (pos : Z) : Z := Z.land (u64 (pos + 1)) (precalculated_mask g).
Definition overflow (g : t) (elems : Z) : bool := precalculated_max_fill g <? elems.
Definition increaseSize (g : t) : outcome t := increaseSizeDegree (if max_size_degree <=? size_degree g then 1 else 2) g.

(** The C library, on numbers that are converted to [double] and from it: [static_cast<size_t>(log2(x))]
    and [static_cast<size_t>(log2(x) + 1)]. *)
Record libm := Libm {
  log2 : Z → Z;
  log2_plus_1 : Z → Z;
}.

Section sizes.
Context (lib : libm) (initial_size_degree : Z).

Definition initial : t := mk initial_size_degree (Z.shiftl 1 initial_size_degree - 1) (Z.shiftl 1 (initial_size_degree - 1)).

Definition with_degree (d : Z) (g : t) : t := mk (u8 d) (precalculated_mask g) (precalculated_max_fill g).

Definition set (num_elems : Z) (g : t) : outcome t :=
  let d :=
    if num_elems <=? 1 then initial_size_degree
    else if log2 lib (num_elems - 1) + 2 <? initial_size_degree then initial_size_degree
    else log2 lib (num_elems - 1) + 2 in
  increaseSizeDegree 0 (with_degree d g).

Definition setBufSize (buf_size_ : Z) (g : t) : outcome t :=
  increaseSizeDegree 0 (with_degree (log2_plus_1 lib (u64 (buf_size_ - 1))) g).
End sizes.
End Grower.

(** * The table *)

Record table (State Cell : Type) := Table {
  m_size : Z;
  buf : list Cell;
  grower : Grower.t;
  state : State;
  has_zero : bool;
  zero_value : Cell;
}.
Arguments Table {State Cell}.
Arguments m_size {State Cell}.
Arguments buf {State Cell}.
Arguments grower {State Cell}.
Arguments state {State Cell}.
Arguments has_zero {State Cell}.
Arguments zero_value {State Cell}.

(** [LookupResult]: a pointer to the cell of the zero key, or into the buffer. *)
Inductive pointer := ToZero | ToCell (pos : Z).

#[global] Instance pointer_eq_dec : EqDecision pointer.
Proof. solve_decision. Defined.

(** What the allocator throws for a number of bytes. *)
Abbreviation memory_state := (Z → option ErrorCode).

Section HashTable.
Context {Key Mapped State Cell : Type} `{HashCell Key Mapped State Cell}.
Context (hash : Key → Z) (lib : Grower.libm) (initial_size_degree sizeof_cell : Z).
Implicit Types (x : Key) (t : table State Cell) (memory : memory_state).

Definition with_size (n : Z) t : table State Cell := Table n (buf t) (grower t) (state t) (has_zero t) (zero_value t).
Definition with_buf (b : list Cell) t : table State Cell := Table (m_size t) b (grower t) (state t) (has_zero t) (zero_value t).
Definition with_grower (g : Grower.t) t : table State Cell := Table (m_size t) (buf t) g (state t) (has_zero t) (zero_value t).
Definition with_zero (has : bool) (c : Cell) t : table State Cell := Table (m_size t) (buf t) (grower t) (state t) has c.

(** The result of a step and the table after it. *)
Definition then_ {A B} (r : outcome A * table State Cell) (k : A → table State Cell → outcome B * table State Cell) :
  outcome B * table State Cell :=
  match r with
  | (Ret a, t) => k a t
  | (Throw e, t) => (Throw e, t)
  | (UB, t) => (UB, t)
  | (OutOfFuel, t) => (OutOfFuel, t)
  end.

Definition cell_at (b : list Cell) (pos : Z) : outcome Cell :=
  if pos <? 0 then UB else match b !! Z.to_nat pos with Some c => Ret c | None => UB end.

Definition put_cell (pos : Z) (c : Cell) t : table State Cell := with_buf (<[Z.to_nat pos := c]> (buf t)) t.

(** The fuel is the number of cells: in a full buffer without the key the loop would not end. *)
Fixpoint findCell_loop (fuel : nat) t x (hash_value place_value : Z) : outcome Z :=
  match fuel with
  | O => OutOfFuel
  | S fuel =>
      c ← cell_at (buf t) place_value;
      if negb (cell_isZero c (state t)) && negb (keyEquals c x hash_value (state t)) then
        findCell_loop fuel t x hash_value (Grower.next (grower t) place_value)
      else Ret place_value
  end.

Definition findCell t x (hash_value place_value : Z) : outcome Z := findCell_loop (length (buf t)) t x hash_value place_value.

Fixpoint findEmptyCell_loop (fuel : nat) t (place_value : Z) : outcome Z :=
  match fuel with
  | O => OutOfFuel
  | S fuel =>
      c ← cell_at (buf t) place_value;
      if cell_isZero c (state t) then Ret place_value
      else findEmptyCell_loop fuel t (Grower.next (grower t) place_value)
  end.

Definition findEmptyCell t (place_value : Z) : outcome Z := findEmptyCell_loop (length (buf t)) t place_value.

Definition allocCheckOverflow (buffer_size : Z) : outcome Z :=
  if buffer_size * sizeof_cell <? 2 ^ 64 then Ret (buffer_size * sizeof_cell) else Throw CANNOT_ALLOCATE_MEMORY.

(** [Allocator::alloc] and [realloc] ([checkSize], then the memory tracker and the C library). *)
Definition allocate memory (size : Z) : outcome unit :=
  if 0x8000000000000000 <=? size then Throw LOGICAL_ERROR else
  match memory size with Some e => Throw e | None => Ret tt end.

Definition alloc memory (new_grower : Grower.t) t : outcome unit * table State Cell :=
  match size ← allocCheckOverflow (Grower.bufSize new_grower); allocate memory size with
  | Ret _ => (Ret tt, with_grower new_grower (with_buf (replicate (Z.to_nat (Grower.bufSize new_grower)) zero_memory) t))
  | Throw e => (Throw e, t)
  | UB => (UB, t)
  | OutOfFuel => (OutOfFuel, t)
  end.

Definition free t : table State Cell := with_buf [] t.

(** [reinsert] of the cell at a position. *)
Definition reinsert (pos : Z) (hash_value : Z) t : outcome (Z * table State Cell) :=
  let place_value := Grower.place (grower t) hash_value in
  if pos =? place_value then Ret (place_value, t) else
  x ← cell_at (buf t) pos;
  place_value ← findCell t (getKey x) hash_value place_value;
  c ← cell_at (buf t) place_value;
  if negb (cell_isZero c (state t)) then Ret (place_value, t) else
  let x := setHash hash_value x in
  Ret (place_value, put_cell pos (setZero x) (put_cell place_value x t)).

(** The loop over the cells of the old buffer, from [i] on. *)
Fixpoint rehash_old (n : nat) (i : Z) t : outcome (table State Cell) :=
  match n with
  | O => Ret t
  | S n =>
      c ← cell_at (buf t) i;
      if cell_isZero c (state t) then rehash_old n (i + 1) t else
      '(_, t) ← reinsert i (getHash c) t;
      rehash_old n (i + 1) t
  end.

(** The loop over the tail of the collision resolution chain behind them; [n] is [new_size - i]. *)
Fixpoint rehash_tail (n : nat) (i : Z) t : outcome (table State Cell) :=
  match n with
  | O => Ret t
  | S n =>
      c ← cell_at (buf t) i;
      if cell_isZero c (state t) then Ret t else
      '(_, t) ← reinsert i (getHash c) t;
      rehash_tail n (i + 1) t
  end.

(** The grower of the new size, or nothing if the buffer is large enough. *)
Definition new_grower (for_num_elems for_buf_size : Z) (g : Grower.t) : outcome (option Grower.t) :=
  let at_least (g' : Grower.t) := if Grower.bufSize g' <=? Grower.bufSize g then None else Some g' in
  if negb (for_num_elems =? 0) then g' ← Grower.set lib initial_size_degree for_num_elems g; Ret (at_least g')
  else if negb (for_buf_size =? 0) then g' ← Grower.setBufSize lib for_buf_size g; Ret (at_least g')
  else g' ← Grower.increaseSize g; Ret (Some g').

(** What is left of [resize] after the buffer has grown. *)
Definition rehash (old_size : Z) t : outcome (table State Cell) :=
  t ← rehash_old (Z.to_nat old_size) 0 t;
  rehash_tail (Z.to_nat (Grower.bufSize (grower t) - old_size)) old_size t.

(** [realloc] keeps the cells and clears the memory behind them. *)
Definition resize memory (for_num_elems for_buf_size : Z) t : outcome unit * table State Cell :=
  let old_size := Grower.bufSize (grower t) in
  match new_grower for_num_elems for_buf_size (grower t) with
  | Ret None => (Ret tt, t)
  | Ret (Some g) =>
      match size ← allocCheckOverflow (Grower.bufSize g); allocate memory size with
      | Ret _ =>
          let grown := buf t ++ replicate (Z.to_nat (Grower.bufSize g - old_size)) zero_memory in
          match rehash old_size (with_grower g (with_buf grown t)) with
          | Ret t => (Ret tt, t)
          | Throw e => (Throw e, t)
          | UB => (UB, t)
          | OutOfFuel => (OutOfFuel, t)
          end
      | Throw e => (Throw e, t)
      | UB => (UB, t)
      | OutOfFuel => (OutOfFuel, t)
      end
  | Throw e => (Throw e, t)
  | UB => (UB, t)
  | OutOfFuel => (OutOfFuel, t)
  end.

(** ** Zero key *)

Definition setHasZero t : table State Cell := with_zero true (construct_default (zero_value t)) t.
Definition clearHasZero t : table State Cell := with_zero false (zero_value t) t.

(** ** Constructors *)

Definition create memory (st : State) (old : Cell) (g : Grower.t) : outcome unit * table State Cell :=
  let t := Table 0 [] g st false old in
  let t := if need_zero_value_storage then with_zero false (setZero (zero_value t)) t else t in
  alloc memory g t.

(** [HashTable()]. *)
Definition create_default memory (st : State) (old : Cell) : outcome unit * table State Cell :=
  create memory st old (Grower.initial initial_size_degree).

(** [HashTable(reserve_for_num_elements)]. *)
Definition create_reserved memory (st : State) (old : Cell) (reserve_for_num_elements : Z) : outcome unit * table State Cell :=
  match Grower.set lib initial_size_degree reserve_for_num_elements (Grower.initial initial_size_degree) with
  | Ret g => create memory st old g
  | Throw e => (Throw e, Table 0 [] (Grower.initial initial_size_degree) st false old)
  | UB => (UB, Table 0 [] (Grower.initial initial_size_degree) st false old)
  | OutOfFuel => (OutOfFuel, Table 0 [] (Grower.initial initial_size_degree) st false old)
  end.

(** ** Insertion *)

(** Nothing if the key is not the zero key. *)
Definition emplaceIfZero x (hash_value : Z) t : option (pointer * bool) * table State Cell :=
  if negb need_zero_value_storage then (None, t) else
  if key_isZero x (state t) then
    if has_zero t then (Some (ToZero, false), t) else
    let t := setHasZero (with_size (m_size t + 1) t) in
    (Some (ToZero, true), with_zero true (setHash hash_value (zero_value t)) t)
  else (None, t).

Definition emplaceNonZeroImpl memory (place_value : Z) x (hash_value : Z) t : outcome (pointer * bool) * table State Cell :=
  match cell_at (buf t) place_value with
  | Ret c =>
      if negb (cell_isZero c (state t)) then (Ret (ToCell place_value, false), t) else
      let t := put_cell place_value (setHash hash_value (construct x (state t) c)) t in
      let t := with_size (m_size t + 1) t in
      if Grower.overflow (grower t) (m_size t) then
        match resize memory 0 0 t with
        | (Ret _, t) =>
            match findCell t x hash_value (Grower.place (grower t) hash_value) with
            | Ret new_place => (Ret (ToCell new_place, true), t)
            | Throw e => (Throw e, t)
            | UB => (UB, t)
            | OutOfFuel => (OutOfFuel, t)
            end
        | (Throw e, t) =>
            let t := with_size (m_size t - 1) t in
            match cell_at (buf t) place_value with
            | Ret c => (Throw e, put_cell place_value (setZero c) t)
            | _ => (UB, t)
            end
        | (UB, t) => (UB, t)
        | (OutOfFuel, t) => (OutOfFuel, t)
        end
      else (Ret (ToCell place_value, true), t)
  | Throw e => (Throw e, t)
  | UB => (UB, t)
  | OutOfFuel => (OutOfFuel, t)
  end.

Definition emplaceNonZero memory x (hash_value : Z) t : outcome (pointer * bool) * table State Cell :=
  match findCell t x hash_value (Grower.place (grower t) hash_value) with
  | Ret place_value => emplaceNonZeroImpl memory place_value x hash_value t
  | Throw e => (Throw e, t)
  | UB => (UB, t)
  | OutOfFuel => (OutOfFuel, t)
  end.

Definition emplace memory x (hash_value : Z) t : outcome (pointer * bool) * table State Cell :=
  match emplaceIfZero x hash_value t with
  | (Some r, t) => (Ret r, t)
  | (None, t) => emplaceNonZero memory x hash_value t
  end.

(** The cell a pointer points to, and writing through it. *)
Definition deref (p : pointer) t : outcome Cell :=
  match p with ToZero => Ret (zero_value t) | ToCell pos => cell_at (buf t) pos end.

Definition assign (p : pointer) (f : Cell → Cell) t : outcome unit * table State Cell :=
  match p with
  | ToZero => (Ret tt, with_zero (has_zero t) (f (zero_value t)) t)
  | ToCell pos =>
      match cell_at (buf t) pos with
      | Ret c => (Ret tt, put_cell pos (f c) t)
      | _ => (UB, t)
      end
  end.

(** [insert] of a key and its mapped value. *)
Definition insert memory x (v : Mapped) t : outcome (pointer * bool) * table State Cell :=
  then_ (emplace memory x (hash x) t) (λ '(p, inserted) t,
    if inserted : bool then then_ (assign p (setMapped v) t) (λ _ t, (Ret (p, inserted), t)) else (Ret (p, inserted), t)).

Definition insertUniqueNonZero memory (c : Cell) (hash_value : Z) t : outcome unit * table State Cell :=
  match findEmptyCell t (Grower.place (grower t) hash_value) with
  | Ret place_value =>
      let t := with_size (m_size t + 1) (put_cell place_value c t) in
      if Grower.overflow (grower t) (m_size t) then resize memory 0 0 t else (Ret tt, t)
  | Throw e => (Throw e, t)
  | UB => (UB, t)
  | OutOfFuel => (OutOfFuel, t)
  end.

Definition reserve memory (num_elements : Z) t : outcome unit * table State Cell := resize memory num_elements 0 t.

(** ** Lookup *)

Definition find x (hash_value : Z) t : outcome (option pointer) :=
  if key_isZero x (state t) then Ret (if has_zero t then Some ToZero else None) else
  place_value ← findCell t x hash_value (Grower.place (grower t) hash_value);
  c ← cell_at (buf t) place_value;
  Ret (if negb (cell_isZero c (state t)) then Some (ToCell place_value) else None).

Definition has x (hash_value : Z) t : outcome bool :=
  if key_isZero x (state t) then Ret (has_zero t) else
  place_value ← findCell t x hash_value (Grower.place (grower t) hash_value);
  c ← cell_at (buf t) place_value;
  Ret (negb (cell_isZero c (state t))).

(** ** Removal *)

(** The loop of [erase]: the position that is free in the end, and the table. *)
Fixpoint erase_loop (fuel : nat) (erased_key_position next_position : Z) t : outcome (Z * table State Cell) :=
  match fuel with
  | O => OutOfFuel
  | S fuel =>
      let next_position := Grower.next (grower t) next_position in
      c ← cell_at (buf t) next_position;
      if cell_isZero c (state t) then Ret (erased_key_position, t) else
      let optimal_position := Grower.place (grower t) (getHash c) in
      if optimal_position =? next_position then erase_loop fuel erased_key_position next_position t else
      if (erased_key_position <? next_position) && (erased_key_position <? optimal_position) && (optimal_position <? next_position) then
        erase_loop fuel erased_key_position next_position t else
      if (next_position <? erased_key_position) && ((erased_key_position <? optimal_position) || (optimal_position <? next_position)) then
        erase_loop fuel erased_key_position next_position t else
      erase_loop fuel next_position next_position (put_cell erased_key_position c t)
  end.

Definition erase x (hash_value : Z) t : outcome bool * table State Cell :=
  if key_isZero x (state t) then
    if has_zero t then (Ret true, clearHasZero (with_size (m_size t - 1) t)) else (Ret false, t)
  else
    match findCell t x hash_value (Grower.place (grower t) hash_value) with
    | Ret erased_key_position =>
        match cell_at (buf t) erased_key_position with
        | Ret c =>
            if cell_isZero c (state t) then (Ret false, t) else
            match
              '(erased_key_position, t) ← erase_loop (length (buf t)) erased_key_position erased_key_position t;
              c ← cell_at (buf t) erased_key_position;
              Ret (put_cell erased_key_position (setZero c) t)
            with
            | Ret t => (Ret true, with_size (m_size t - 1) t)
            | Throw e => (Throw e, t)
            | UB => (UB, t)
            | OutOfFuel => (OutOfFuel, t)
            end
        | _ => (UB, t)
        end
    | Throw e => (Throw e, t)
    | UB => (UB, t)
    | OutOfFuel => (OutOfFuel, t)
    end.

(** [destroyElements] of cells with no destructor, and what uses it. *)
Definition destroyElements t : table State Cell := clearHasZero t.

Definition clear t : table State Cell :=
  let t := with_size 0 (destroyElements t) in
  with_buf (replicate (Z.to_nat (Grower.bufSize (grower t))) zero_memory) t.

Definition clearAndShrink t : table State Cell := free (with_size 0 (destroyElements t)).

Definition size t : Z := m_size t.
Definition empty t : bool := m_size t =? 0.

(** ** Iteration *)

(** The cells [ptr] skips, in the buffer. *)
Fixpoint skip_empty (fuel : nat) t (ptr : Z) : outcome Z :=
  if ptr <? Grower.bufSize (grower t) then
    match fuel with
    | O => OutOfFuel
    | S fuel => c ← cell_at (buf t) ptr; if cell_isZero c (state t) then skip_empty fuel t (ptr + 1) else Ret ptr
    end
  else Ret ptr.

Definition end_ t : pointer := ToCell (match buf t with [] => 0 | _ => Grower.bufSize (grower t) end).

Definition begin t : outcome pointer :=
  match buf t with
  | [] => Ret (end_ t)
  | _ => if has_zero t then Ret ToZero else ptr ← skip_empty (length (buf t)) t 0; Ret (ToCell ptr)
  end.

(** [operator++]. *)
Definition increment (it : pointer) t : outcome pointer :=
  c ← deref it t;
  let ptr := if cell_isZero c (state t) then 0 else match it with ToZero => 0 | ToCell pos => pos + 1 end in
  ptr ← skip_empty (length (buf t)) t ptr;
  Ret (ToCell ptr).

(** The cells that a loop from [begin] to [end] visits. *)
Fixpoint iterate (fuel : nat) (it : pointer) t : outcome (list Cell) :=
  if bool_decide (it = end_ t) then Ret [] else
  match fuel with
  | O => OutOfFuel
  | S fuel => c ← deref it t; it ← increment it t; cs ← iterate fuel it t; Ret (c :: cs)
  end.

Definition iteration t : outcome (list Cell) := it ← begin t; iterate (S (length (buf t))) it t.

(** ** HashMapTable *)

Section map.
(** The value-initialised mapped value, [Mapped()]. *)
Context (default : Mapped).

(** [operator[]], to which [f] is applied. *)
Definition subscript memory x (f : Mapped → Mapped) t : outcome unit * table State Cell :=
  then_ (emplace memory x (hash x) t) (λ '(it, inserted) t,
    let init c := if inserted : bool then setMapped default c else c in
    assign it (λ c, setMapped (f (getMapped (init c))) (init c)) t).

Definition insertIfNotPresent memory x (value : Mapped) t : outcome unit * table State Cell :=
  then_ (emplace memory x (hash x) t) (λ '(it, inserted) t,
    if inserted : bool then assign it (λ c, setMapped value (setMapped default c)) t else (Ret tt, t)).

(** [find(x) != end()] compares with a null pointer, the conversion of an iterator to a cell. *)
Definition at_ x t : outcome Mapped :=
  r ← find x (hash x) t;
  match r with
  | Some it => c ← deref it t; Ret (getMapped c)
  | None => Throw LOGICAL_ERROR
  end.

End map.
End HashTable.

(** [ClearableHashSet::clear], which makes all the cells those of an old version. *)
Definition clear_version {Cell : Type} (t : table Z Cell) : table Z Cell :=
  Table 0 (buf t) (grower t) (u32 (state t + 1)) (has_zero t) (zero_value t).
