(* ===== verification/HashTableProbing.v ===== *)
(** Linear probing: the collision resolution chains of [HashTable], the search along them, the removal
    of a cell and the rehashing in place of a buffer that has grown. *)

From stdpp Require Import base list tactics numbers sets.
From S2P Require Import Prelude HashTable.
Local Open Scope Z_scope.

(** What the table relies on of its cells. A state that is [good] is one in which zeroed cells are empty. *)
Class HashCellLaws {Key Mapped State Cell : Type} (HC : HashCell Key Mapped State Cell) (hash : Key → Z)
    (good : State → Prop) := {
  setZero_isZero c st : good st → cell_isZero (setZero c) st = true;
  zero_memory_isZero st : good st → cell_isZero zero_memory st = true;
  keyEquals_key c k st : getHash c = hash (getKey c) → keyEquals c k (hash k) st = true ↔ getKey c = k;
  constructed_key k st c h : getKey (setHash h (construct k st c)) = k;
  constructed_hash k st c : getHash (setHash (hash k) (construct k st c)) = hash k;
  constructed_isZero k st c h : cell_isZero (setHash h (construct k st c)) st = key_isZero k st;
  setHash_same c : setHash (getHash c) c = c;
  (* an occupied cell does not hold the zero key, which is unique *)
  occupied_key c st : cell_isZero c st = false → key_isZero (getKey c) st = false;
  zero_key_unique k k' st : key_isZero k st = true → key_isZero k' st = true → k = k';
  no_zero_storage k st : need_zero_value_storage = false → key_isZero k st = false;
  setZero_key c st : need_zero_value_storage = true → key_isZero (getKey (setZero c)) st = true;
  construct_default_key c st h : need_zero_value_storage = true → key_isZero (getKey c) st = true →
    key_isZero (getKey (setHash h (construct_default c))) st = true;
  setMapped_key v c : getKey (setMapped v c) = getKey c;
  setMapped_hash v c : getHash (setMapped v c) = getHash c;
  setMapped_isZero v c st : cell_isZero (setMapped v c) st = cell_isZero c st;
  setMapped_mapped v c : getMapped (setMapped v c) = v;
  setMapped_setMapped v w c : setMapped v (setMapped w c) = setMapped v c;
}.

(** * Positions *)

Section positions.
Context (M : Z).

(** [q] is passed on the way from [h] to [p], around the end of the buffer if [p] is before [h]. *)
Definition path (h q p : Z) : Prop :=
  (h ≤ p ∧ h ≤ q < p) ∨ (p < h ∧ (h ≤ q < M ∨ 0 ≤ q < p)).

Definition distance (p q : Z) : Z := if p <=? q then q - p else q - p + M.

Definition in_range (p : Z) : Prop := 0 ≤ p < M.

Definition following (p : Z) : Z := if p + 1 =? M then 0 else p + 1.

Lemma following_range p : in_range p → in_range (following p).
Proof. unfold in_range, following. zcases; lia. Qed.

Lemma path_range h q p : in_range h → in_range p → path h q p → in_range q.
Proof. unfold in_range, path. lia. Qed.

Lemma path_self h q : ¬ path h q h.
Proof. unfold path. lia. Qed.

Lemma path_total h p q : in_range h → in_range p → in_range q → p ≠ q → path h p q ∨ path h q p.
Proof. unfold in_range, path. lia. Qed.

Lemma path_step h q p : in_range h → in_range p → h ≠ p → path h q p ↔ q = h ∨ path (following h) q p.
Proof. unfold in_range, path, following. zcases; lia. Qed.

Lemma distance_step p q : in_range p → in_range q → p ≠ q → distance (following p) q = distance p q - 1.
Proof. unfold in_range, distance, following. zcases; lia. Qed.

Lemma distance_bounds p q : in_range p → in_range q → 0 ≤ distance p q < M.
Proof. unfold in_range, distance. zcases; lia. Qed.
End positions.

(** * Growers *)

Record grower_ok (g : Grower.t) : Prop := {
  degree_range : 1 ≤ Grower.size_degree g ≤ 62;
  mask_value : Grower.precalculated_mask g = 2 ^ Grower.size_degree g - 1;
  max_fill_value : Grower.precalculated_max_fill g = 2 ^ (Grower.size_degree g - 1);
}.

Section growers.
Context (g : Grower.t) (Hg : grower_ok g).

Lemma bufSize_power : Grower.bufSize g = 2 ^ Grower.size_degree g.
Proof. unfold Grower.bufSize. by rewrite Z.shiftl_mul_pow2, Z.mul_1_l by (pose proof (degree_range _ Hg); lia). Qed.

Lemma bufSize_bounds : 2 ≤ Grower.bufSize g ≤ 2 ^ 62.
Proof.
  rewrite bufSize_power. pose proof (degree_range _ Hg). split.
  - change 2 with (2 ^ 1) at 1. apply Z.pow_le_mono_r; lia.
  - apply Z.pow_le_mono_r; lia.
Qed.

Lemma bufSize_max_fill : Grower.bufSize g = 2 * Grower.precalculated_max_fill g.
Proof.
  rewrite bufSize_power, (max_fill_value _ Hg). pose proof (degree_range _ Hg).
  rewrite <- Z.pow_succ_r by lia. f_equal. lia.
Qed.

Lemma place_range x : in_range (Grower.bufSize g) (Grower.place g x).
Proof.
  unfold Grower.place, in_range. rewrite (mask_value _ Hg), bufSize_power.
  rewrite Z.sub_1_r, <- Z.ones_equiv, Z.land_ones by (pose proof (degree_range _ Hg); lia).
  apply Z.mod_pos_bound. apply Z.pow_pos_nonneg; [lia|]. pose proof (degree_range _ Hg). lia.
Qed.

Lemma place_eq x : Grower.place g x = x mod Grower.bufSize g.
Proof.
  unfold Grower.place. rewrite (mask_value _ Hg), bufSize_power.
  by rewrite Z.sub_1_r, <- Z.ones_equiv, Z.land_ones by (pose proof (degree_range _ Hg); lia).
Qed.

Lemma next_following p : in_range (Grower.bufSize g) p → Grower.next g p = following (Grower.bufSize g) p.
Proof.
  intros Hp. unfold in_range in Hp. pose proof bufSize_bounds as Hb.
  assert (Grower.next g p = (p + 1) mod Grower.bufSize g) as ->.
  { rewrite <- place_eq. unfold Grower.next, Grower.place. rewrite wrap_small; [done|]. zlia. }
  unfold following. destruct (Z.eqb_spec (p + 1) (Grower.bufSize g)) as [->|]; [apply Z.mod_same; lia|]. apply Z.mod_small. lia.
Qed.
End growers.

(** * Cells of a buffer *)

Section cells.
Context {Key Mapped State Cell : Type} {HC : HashCell Key Mapped State Cell}.
Implicit Types (b : list Cell) (c : Cell) (p q : Z) (st : State).

Definition at_pos b p c : Prop := 0 ≤ p ∧ b !! Z.to_nat p = Some c.

(** The occupied cells. *)
Definition item st b p c : Prop := at_pos b p c ∧ cell_isZero c st = false.
Definition occupied st b p : Prop := ∃ c, item st b p c.
Definition vacant st b p : Prop := ∃ c, at_pos b p c ∧ cell_isZero c st = true.

Definition items st b : list Cell := filter (λ c, cell_isZero c st = false) b.

Definition put b p c : list Cell := <[Z.to_nat p := c]> b.

Lemma at_pos_range b p c : at_pos b p c → in_range (Z.of_nat (length b)) p.
Proof. intros [H1 H2]. apply lookup_lt_Some in H2. unfold in_range. lia. Qed.

Lemma at_pos_exists b p : in_range (Z.of_nat (length b)) p → ∃ c, at_pos b p c.
Proof.
  unfold in_range. intros Hp. destruct (lookup_lt_is_Some_2 b (Z.to_nat p)) as [c Hc]; [lia|]. exists c. split; [lia|done].
Qed.

Lemma at_pos_unique b p c c' : at_pos b p c → at_pos b p c' → c = c'.
Proof. intros [_ H1] [_ H2]. congruence. Qed.

Lemma cell_at_pos b p c : at_pos b p c → cell_at b p = Ret c.
Proof. intros [H1 H2]. unfold cell_at. destruct (Z.ltb_spec p 0); [lia|]. by rewrite H2. Qed.

Lemma occupied_or_vacant st b p : in_range (Z.of_nat (length b)) p → occupied st b p ∨ vacant st b p.
Proof.
  intros (c & Hc)%at_pos_exists. destruct (cell_isZero c st) eqn:E; [right; by exists c|left; by exists c].
Qed.

Lemma occupied_not_vacant st b p : occupied st b p → ¬ vacant st b p.
Proof. intros (c & Hc & H1) (c' & Hc' & H2). rewrite (at_pos_unique _ _ _ _ Hc Hc') in H1. congruence. Qed.

Lemma occupied_range st b p : occupied st b p → in_range (Z.of_nat (length b)) p.
Proof. intros (c & Hc & _). by eapply at_pos_range. Qed.

Lemma vacant_range st b p : vacant st b p → in_range (Z.of_nat (length b)) p.
Proof. intros (c & Hc & _). by eapply at_pos_range. Qed.

Lemma length_put b p c : length (put b p c) = length b.
Proof. apply length_insert. Qed.

Lemma put_put b p c d : put (put b p c) p d = put b p d.
Proof. apply list_insert_insert_eq. Qed.

Lemma at_pos_put_eq b p c : in_range (Z.of_nat (length b)) p → at_pos (put b p c) p c.
Proof. unfold in_range. intros Hp. split; [lia|]. apply list_lookup_insert_eq. lia. Qed.

Lemma at_pos_put_ne b p c q d : p ≠ q → 0 ≤ p → at_pos (put b p c) q d ↔ at_pos b q d.
Proof.
  intros Hne Hp. unfold at_pos, put. destruct (decide (0 ≤ q)) as [Hq|]; [|naive_solver].
  rewrite list_lookup_insert_ne by lia. done.
Qed.

Lemma at_pos_put b p c q d : in_range (Z.of_nat (length b)) p →
  at_pos (put b p c) q d ↔ (q = p ∧ d = c) ∨ (q ≠ p ∧ at_pos b q d).
Proof.
  intros Hp. pose proof (at_pos_put_eq b p c Hp) as Heq. destruct (decide (q = p)) as [->|Hne].
  - split; [intros Hd; left; split; [done|by eapply at_pos_unique]|]. intros [[_ ->]|[? _]]; done.
  - rewrite at_pos_put_ne; [|done|unfold in_range in Hp; lia]. naive_solver.
Qed.

Lemma item_put st b p c q d : in_range (Z.of_nat (length b)) p →
  item st (put b p c) q d ↔ (q = p ∧ d = c ∧ cell_isZero c st = false) ∨ (q ≠ p ∧ item st b q d).
Proof. intros Hp. unfold item. rewrite at_pos_put by done. naive_solver. Qed.

Lemma occupied_put st b p c q : in_range (Z.of_nat (length b)) p →
  occupied st (put b p c) q ↔ (q = p ∧ cell_isZero c st = false) ∨ (q ≠ p ∧ occupied st b q).
Proof. intros Hp. unfold occupied. setoid_rewrite item_put; [|done]. naive_solver. Qed.

(** ** The occupied cells as a list *)

Definition item_list st c : list Cell := if cell_isZero c st then [] else [c].

Lemma cell_items_app st b1 b2 : items st (b1 ++ b2) = items st b1 ++ items st b2.
Proof. apply filter_app. Qed.

Lemma cell_items_cons st c b : items st (c :: b) = item_list st c ++ items st b.
Proof. unfold items, item_list. rewrite filter_cons. by destruct (cell_isZero c st). Qed.

Lemma items_put st b p c d : at_pos b p c → items st (put b p d) ++ item_list st c ≡ₚ items st b ++ item_list st d.
Proof.
  intros [Hp Hc]. unfold put. pose proof (take_drop_middle b (Z.to_nat p) c Hc) as Hb.
  rewrite <- Hb at 2. rewrite insert_take_drop by (by eapply lookup_lt_Some).
  rewrite !cell_items_app, !cell_items_cons. rewrite <- !app_assoc. apply Permutation_app_head.
  rewrite (Permutation_app_comm (item_list st d)), (Permutation_app_comm (item_list st c)), <- !app_assoc.
  apply Permutation_app_head, Permutation_app_comm.
Qed.

Lemma items_elem st b c : c ∈ items st b ↔ ∃ p, item st b p c.
Proof.
  unfold items. rewrite list_elem_of_filter, list_elem_of_lookup. unfold item, at_pos. split.
  - intros [Hz [i Hi]]. exists (Z.of_nat i). split; [|done]. split; [lia|]. by rewrite Nat2Z.id.
  - intros (p & [_ Hp] & Hz). split; [done|]. by exists (Z.to_nat p).
Qed.

(** Overwriting a vacant cell adds an item, clearing an occupied one removes it. *)
Lemma items_put_vacant st b p c : vacant st b p → cell_isZero c st = false → items st (put b p c) ≡ₚ c :: items st b.
Proof.
  intros (d & Hd & Hz) Hc. pose proof (items_put st b p d c Hd) as Hi. unfold item_list in Hi.
  rewrite Hz, Hc, app_nil_r in Hi. by rewrite Hi, Permutation_app_comm.
Qed.

Lemma items_put_occupied st b p c d : item st b p c → cell_isZero d st = true → items st b ≡ₚ c :: items st (put b p d).
Proof.
  intros [Hc Hz] Hd. pose proof (items_put st b p c d Hc) as Hi. unfold item_list in Hi.
  rewrite Hz, Hd, app_nil_r in Hi. by rewrite <- Hi, Permutation_app_comm.
Qed.

(** Moving an item to a vacant cell. *)
Lemma items_move st b p q c d : item st b p c → vacant st b q → cell_isZero d st = true → items st (put (put b q c) p d) ≡ₚ items st b.
Proof.
  intros Hp Hq Hd. pose proof Hp as [Hpos Hz]. assert (p ≠ q) as Hne.
  { intros ->. eapply occupied_not_vacant; [by exists c|done]. }
  assert (item st (put b q c) p c) as Hp'. { apply item_put; [by eapply vacant_range|]. naive_solver. }
  pose proof (items_put_occupied st _ p c d Hp' Hd) as H1. pose proof (items_put_vacant st b q c Hq Hz) as H2.
  rewrite H2 in H1. by apply Permutation_cons_inv in H1.
Qed.

Lemma items_replicate st n c : cell_isZero c st = true → items st (replicate n c) = [].
Proof. intros Hc. induction n as [|n IH]; simpl; [done|]. rewrite cell_items_cons, IH. unfold item_list. by rewrite Hc. Qed.

(** A range of cells that are all occupied. *)
Lemma items_all st b : (∀ p, in_range (Z.of_nat (length b)) p → occupied st b p) → items st b = b.
Proof.
  intros Hall. apply list_filter_all. intros c Hc. apply list_elem_of_lookup in Hc as [i Hi].
  pose proof (lookup_lt_Some _ _ _ Hi). destruct (Hall (Z.of_nat i)) as (d & [_ Hd] & Hz); [unfold in_range; lia|].
  rewrite Nat2Z.id in Hd. congruence.
Qed.

Lemma items_length_le st b : (length (items st b) ≤ length b)%nat.
Proof. apply length_filter. Qed.
End cells.

(** * Searching *)

Section search.
Context {Key Mapped State Cell : Type} {HC : HashCell Key Mapped State Cell}.
Context (t : table State Cell) (M : Z) (Hg : grower_ok (grower t)).
Context (HM : M = Grower.bufSize (grower t)) (Hlen : Z.of_nat (length (buf t)) = M).
Let b := buf t.
Let st := state t.

(** Where the search for a key ends. *)
Definition stop (x : Key) (h p : Z) : Prop :=
  ∃ c, at_pos b p c ∧ (cell_isZero c st = true ∨ keyEquals c x h st = true).

Lemma findCell_loop_spec x h : ∀ fuel p r0, in_range M p → stop x h r0 → distance M p r0 < Z.of_nat fuel →
  ∃ r, findCell_loop fuel t x h p = Ret r ∧ stop x h r ∧ ∀ q, path M p q r → ¬ stop x h q.
Proof.
  induction fuel as [|fuel IH]; intros p r0 Hp Hr0 Hd.
  { destruct Hr0 as (c & Hc%at_pos_range & _). unfold b in Hc. rewrite Hlen in Hc. pose proof (distance_bounds M p r0 Hp Hc). lia. }
  assert (in_range M r0) as Hr0'. { destruct Hr0 as (c & Hc%at_pos_range & _). unfold b in Hc. by rewrite Hlen in Hc. }
  destruct (at_pos_exists b p) as (c & Hc); [unfold b; by rewrite Hlen|].
  simpl. fold b. rewrite (cell_at_pos _ _ _ Hc). cbn [mbind outcome_bind].
  destruct (negb (cell_isZero c (state t)) && negb (keyEquals c x h (state t))) eqn:E.
  - apply andb_true_iff in E as [E1%negb_true_iff E2%negb_true_iff].
    assert (¬ stop x h p) as Hns.
    { intros (d & Hd' & Hs). rewrite (at_pos_unique _ _ _ _ Hd' Hc) in Hs. unfold st in Hs. rewrite E1, E2 in Hs. naive_solver. }
    assert (p ≠ r0) as Hne by (intros ->; done). rewrite next_following by (by rewrite <- ?HM). rewrite <- HM.
    destruct (IH (following M p) r0) as (r & Hr & Hs & Hq); [by apply following_range|done|rewrite distance_step by done; lia|].
    exists r. split_and!; [done|done|]. intros q Hpath. destruct (decide (p = r)) as [->|Hpr]; [by apply path_self in Hpath|].
    apply path_step in Hpath as [->|Hpath]; [done|by apply Hq|done| |done].
    destruct Hs as (d & Hd'%at_pos_range & _). unfold b in Hd'. by rewrite Hlen in Hd'.
  - exists p. split_and!; [done| |by intros q ?%path_self]. exists c. split; [done|].
    apply andb_false_iff in E as [E%negb_false_iff|E%negb_false_iff]; auto.
Qed.

Lemma findCell_spec x h p : in_range M p → (∃ r, stop x h r) →
  ∃ r, findCell t x h p = Ret r ∧ stop x h r ∧ ∀ q, path M p q r → ¬ stop x h q.
Proof.
  intros Hp (r0 & Hr0). apply (findCell_loop_spec x h _ p r0 Hp Hr0). destruct Hr0 as (c & Hc%at_pos_range & _).
  unfold b in Hc. rewrite Hlen in Hc. pose proof (distance_bounds M p r0 Hp Hc). unfold b. lia.
Qed.

Lemma findEmptyCell_loop_spec : ∀ fuel p r0, in_range M p → vacant st b r0 → distance M p r0 < Z.of_nat fuel →
  ∃ r, findEmptyCell_loop fuel t p = Ret r ∧ vacant st b r ∧ ∀ q, path M p q r → occupied st b q.
Proof.
  induction fuel as [|fuel IH]; intros p r0 Hp Hr0 Hd; pose proof (vacant_range _ _ _ Hr0) as Hr0'; unfold b in Hr0'; rewrite Hlen in Hr0'.
  { pose proof (distance_bounds M p r0 Hp Hr0'). lia. }
  destruct (at_pos_exists b p) as (c & Hc); [unfold b; by rewrite Hlen|].
  simpl. fold b. rewrite (cell_at_pos _ _ _ Hc). cbn [mbind outcome_bind]. fold st. destruct (cell_isZero c st) eqn:E.
  - exists p. split_and!; [done|by exists c|by intros q ?%path_self].
  - assert (occupied st b p) as Hocc by by exists c.
    assert (p ≠ r0) as Hne by (intros ->; by eapply occupied_not_vacant). rewrite next_following by (by rewrite <- ?HM). rewrite <- HM.
    destruct (IH (following M p) r0) as (r & Hr & Hs & Hq); [by apply following_range|done|rewrite distance_step by done; lia|].
    exists r. split_and!; [done|done|]. intros q Hpath. destruct (decide (p = r)) as [->|Hpr]; [by apply path_self in Hpath|].
    apply path_step in Hpath as [->|Hpath]; [done|by apply Hq|done| |done].
    apply vacant_range in Hs. unfold b in Hs. by rewrite Hlen in Hs.
Qed.

Lemma findEmptyCell_spec p : in_range M p → (∃ r, vacant st b r) →
  ∃ r, findEmptyCell t p = Ret r ∧ vacant st b r ∧ ∀ q, path M p q r → occupied st b q.
Proof.
  intros Hp (r0 & Hr0). apply (findEmptyCell_loop_spec _ p r0 Hp Hr0). apply vacant_range in Hr0. unfold b in Hr0. rewrite Hlen in Hr0.
  pose proof (distance_bounds M p r0 Hp Hr0). unfold b. lia.
Qed.
End search.

(** * Collision resolution chains *)

Section chains.
Context {Key Mapped State Cell : Type} {HC : HashCell Key Mapped State Cell}.
Context (hash : Key → Z) (good : State → Prop) {Laws : HashCellLaws HC hash good}.
Implicit Types (b : list Cell) (c d : Cell) (p q : Z) (st : State).

Definition home (M : Z) c : Z := getHash c mod M.

(** The cells between the place of a cell by its hash and where it is are occupied; no key is in two cells. *)
Record probing st b : Prop := {
  probing_hash p c : item st b p c → getHash c = hash (getKey c);
  probing_chain p c q : item st b p c → path (Z.of_nat (length b)) (home (Z.of_nat (length b)) c) q p → occupied st b q;
  probing_keys p c p' c' : item st b p c → item st b p' c' → getKey c = getKey c' → p = p';
}.

Lemma home_range M c : 0 < M → in_range M (home M c).
Proof. intros HM. unfold in_range, home. by apply Z.mod_pos_bound. Qed.

Lemma item_range st b p c : item st b p c → in_range (Z.of_nat (length b)) p.
Proof. intros H. eapply occupied_range. by exists c. Qed.

(** The search for a key from its place ends at its cell, or at a vacant one if it is in no cell. *)
Lemma findCell_key t x : grower_ok (grower t) → Z.of_nat (length (buf t)) = Grower.bufSize (grower t) →
  probing (state t) (buf t) → (∃ p, vacant (state t) (buf t) p) →
  ∃ r, findCell t x (hash x) (Grower.place (grower t) (hash x)) = Ret r ∧
    ((∃ c, item (state t) (buf t) r c ∧ getKey c = x) ∨
     (vacant (state t) (buf t) r ∧ (∀ p c, item (state t) (buf t) p c → getKey c ≠ x) ∧
      ∀ q, path (Z.of_nat (length (buf t))) (hash x mod Z.of_nat (length (buf t))) q r → occupied (state t) (buf t) q)).
Proof.
  intros Hg Hlen Hpr (v & Hv). set (M := Grower.bufSize (grower t)) in *. pose proof (bufSize_bounds _ Hg) as HM. fold M in HM.
  destruct (findCell_spec t M Hg eq_refl Hlen x (hash x) (Grower.place (grower t) (hash x))) as (r & Hr & Hs & Hq).
  { apply (place_range _ Hg). }
  { destruct Hv as (c & Hc & Hz). exists v, c. auto. }
  exists r. split; [done|]. rewrite (place_eq _ Hg) in Hq. fold M in Hq. rewrite Hlen.
  destruct Hs as (c & Hc & Hs). destruct (cell_isZero c (state t)) eqn:Hz.
  - right. assert (vacant (state t) (buf t) r) as Hvr by by exists c.
    assert (in_range M r) as Hrr by (rewrite <- Hlen; by eapply at_pos_range).
    assert (in_range M (hash x mod M)) as Hhr by (apply Z.mod_pos_bound; lia). split_and!; [done| |].
    + intros p d Hd Hk. pose proof (probing_hash _ _ Hpr p d Hd) as Hh.
      assert (stop t x (hash x) p) as Hsp. { exists d. split; [apply Hd|]. right. by apply keyEquals_key. }
      destruct (decide (p = r)) as [->|Hne].
      { eapply occupied_not_vacant; [by exists d|done]. }
      assert (in_range M p) as Hpr' by (rewrite <- Hlen; by eapply item_range).
      destruct (path_total M (hash x mod M) p r) as [Hpath|Hpath]; [done|done|done|done| |].
      * by apply (Hq p).
      * apply (occupied_not_vacant (state t) (buf t) r); [|done]. eapply (probing_chain _ _ Hpr p d); [done|].
        unfold home. rewrite Hlen, Hh, Hk. done.
    + intros q Hpath. destruct (occupied_or_vacant (state t) (buf t) q) as [|(d & Hd & Hdz)]; [|done|].
      * rewrite Hlen. by apply (path_range M (hash x mod M) q r).
      * exfalso. apply (Hq q Hpath). exists d. auto.
  - left. exists c. destruct Hs as [|Hs]; [done|]. assert (item (state t) (buf t) r c) as Hi by done.
    split; [done|]. apply (keyEquals_key c x (state t)); [|done]. by apply (probing_hash _ _ Hpr r).
Qed.

(** A new cell at the end of the chain of its key. *)
Lemma probing_insert st b p c : probing st b → vacant st b p → cell_isZero c st = false → getHash c = hash (getKey c) →
  (∀ p' c', item st b p' c' → getKey c' ≠ getKey c) →
  (∀ q, path (Z.of_nat (length b)) (home (Z.of_nat (length b)) c) q p → occupied st b q) → probing st (put b p c).
Proof.
  intros [Hh Hc Hk] Hv Hz Hhash Hnew Hpath. pose proof (vacant_range _ _ _ Hv) as Hp.
  assert (∀ q, occupied st b q → occupied st (put b p c) q) as Hmono.
  { intros q Hq. apply occupied_put; [done|]. destruct (decide (q = p)) as [->|]; auto. }
  split.
  - intros p' c'. rewrite item_put by done. naive_solver.
  - intros p' c' q. rewrite length_put, item_put by done. intros [(-> & -> & _)|[_ Hi]] Hq; apply Hmono; eauto.
  - intros p1 c1 p2 c2. rewrite !item_put by done. intros [(-> & -> & _)|[_ H1]] [(-> & -> & _)|[_ H2]] Heq; eauto.
    + exfalso. by eapply Hnew.
    + exfalso. by eapply Hnew.
Qed.

(** ** Removal *)

(** [h] is in the sequence after [e] up to [n]. *)
Definition within (e h n : Z) : Prop := (e < n ∧ e < h ≤ n) ∨ (n < e ∧ (e < h ∨ h ≤ n)).

(** The cell at [e] is to be freed, those after it up to [n] do not need it. *)
Record erasing st b (e n : Z) : Prop := {
  erasing_occupied : occupied st b e;
  erasing_n : in_range (Z.of_nat (length b)) n;
  erasing_hash p c : p ≠ e → item st b p c → getHash c = hash (getKey c);
  erasing_chain p c q : p ≠ e → item st b p c → path (Z.of_nat (length b)) (home (Z.of_nat (length b)) c) q p → occupied st b q;
  erasing_keys p c p' c' : p ≠ e → p' ≠ e → item st b p c → item st b p' c' → getKey c = getKey c' → p = p';
  erasing_passed q : in_range (Z.of_nat (length b)) q → within e q n → occupied st b q;
  erasing_kept q c : within e q n → item st b q c → within e (home (Z.of_nat (length b)) c) q;
}.

Lemma erasing_start st b p : probing st b → occupied st b p → erasing st b p p.
Proof.
  intros [Hh Hc Hk] Hp. pose proof (occupied_range _ _ _ Hp). split; eauto; intros q; unfold within; lia.
Qed.

(** Once the next cell is vacant the cell can be freed. *)
Lemma erasing_end st b e n z : good st → erasing st b e n → vacant st b (following (Z.of_nat (length b)) n) →
  cell_isZero z st = true → probing st (put b e z).
Proof.
  intros Hgood He Hv Hz. set (M := Z.of_nat (length b)) in *. pose proof (occupied_range _ _ _ (erasing_occupied _ _ _ _ He)) as Hre.
  assert (∀ p c, item st (put b e z) p c → p ≠ e ∧ item st b p c) as Hitem.
  { intros p c [(_ & -> & ?)|?]%item_put; [congruence|done|done]. }
  split.
  - intros p c [Hne Hi]%Hitem. by eapply (erasing_hash _ _ _ _ He).
  - intros p c q [Hne Hi]%Hitem. rewrite length_put. fold M. intros Hpath. apply occupied_put; [done|]. right.
    pose proof (erasing_chain _ _ _ _ He p c q Hne Hi Hpath) as Hq. split; [|done]. intros ->.
    pose proof (item_range _ _ _ _ Hi) as Hrp. pose proof (erasing_n _ _ _ _ He) as Hrn. fold M in Hre, Hrp, Hrn.
    assert (in_range M (home M c)) as Hrh by (apply home_range; unfold in_range in Hrp; lia).
    destruct (decide (path M (home M c) (following M n) p)) as [Hfar|Hnear].
    + eapply occupied_not_vacant; [|exact Hv]. by eapply (erasing_chain _ _ _ _ He p c).
    + assert (p ≠ following M n) by (intros ->; eapply occupied_not_vacant; [by exists c|done]).
      assert (e ≠ following M n) by (intros ->; eapply occupied_not_vacant; [apply (erasing_occupied _ _ _ _ He)|done]).
      assert (within e p n) as Hw. { clear -Hpath Hnear H H0 Hre Hrp Hrn Hrh Hne. unfold within, path, in_range, following in *. revert Hnear H H0. zcases; lia. }
      pose proof (erasing_kept _ _ _ _ He p c Hw Hi) as Hk. fold M in Hk. unfold within, path in *. lia.
  - intros p c p' c' [Hne Hi]%Hitem [Hne' Hi']%Hitem. by eapply (erasing_keys _ _ _ _ He).
Qed.

(** A cell that does not need the freed one is passed. *)
Lemma erasing_pass st b e n c : let M := Z.of_nat (length b) in
  erasing st b e n → item st b (following M n) c → following M n ≠ e → within e (home M c) (following M n) →
  erasing st b e (following M n).
Proof.
  intros M [H1 H2 H3 H4 H5 H6 H7] Hi Hne Hw. pose proof (occupied_range _ _ _ H1) as Hre. fold M in H2, H4, H6, H7, Hre.
  assert (∀ q, in_range M q → within e q (following M n) → q = following M n ∨ within e q n) as Hcases.
  { intros q Hq Hwq. clear - Hq Hwq Hre H2 Hne. unfold within, in_range, following in *. revert Hwq Hne. zcases; lia. }
  split; try done.
  - by apply following_range.
  - intros q Hq [->|Hwq]%Hcases; [by exists c|by apply H6|done].
  - intros q d Hwq Hd. pose proof (item_range _ _ _ _ Hd) as Hrq. destruct (Hcases q Hrq Hwq) as [->|Hwq']; [|by eapply H7].
    rewrite (at_pos_unique _ _ _ _ (proj1 Hd) (proj1 Hi)). done.
Qed.

(** A cell that needs it is moved there. *)
Lemma erasing_move st b e n c : let M := Z.of_nat (length b) in
  erasing st b e n → item st b (following M n) c → following M n ≠ e → ¬ within e (home M c) (following M n) →
  erasing st (put b e c) (following M n) (following M n).
Proof.
  intros M [H1 H2 H3 H4 H5 H6 H7] Hi Hne Hw. pose proof (occupied_range _ _ _ H1) as Hre. pose proof (item_range _ _ _ _ Hi) as Hrn. fold M in H2, H4, H6, H7, Hre, Hrn.
  assert (∀ q, occupied st b q → occupied st (put b e c) q) as Hmono.
  { intros q Hq. apply occupied_put; [done|]. destruct (decide (q = e)) as [->|]; [left; split; [done|apply Hi]|auto]. }
  assert (∀ p d, p ≠ following M n → item st (put b e c) p d → (p = e ∧ d = c) ∨ (p ≠ e ∧ item st b p d)) as Hcases.
  { intros p d _ Hd. apply item_put in Hd; [|done]. naive_solver. }
  split.
  - apply Hmono. by exists c.
  - by rewrite length_put.
  - intros p d Hp Hd. destruct (Hcases p d Hp Hd) as [[-> ->]|[Hpe Hd']]; [by eapply H3|by eapply H3].
  - rewrite length_put. fold M. intros p d q Hp Hd Hpath. apply Hmono. destruct (Hcases p d Hp Hd) as [[-> ->]|[Hpe Hd']]; [|by eapply H4].
    apply (H4 (following M n) c q Hne Hi). assert (in_range M (home M c)) as Hrh by (apply home_range; unfold in_range in Hre; lia).
    clear - Hpath Hw Hre Hrn Hrh Hne. unfold within, path, in_range in *. lia.
  - intros p d p' d' Hp Hp' Hd Hd' Heq.
    destruct (Hcases p d Hp Hd) as [[-> ->]|[Hpe Hd1]], (Hcases p' d' Hp' Hd') as [[-> ->]|[Hpe' Hd1']].
    + done.
    + exfalso. by apply Hp', (H5 p' d' (following M n) c).
    + exfalso. by apply Hp, (H5 p d (following M n) c).
    + by eapply (H5 p d p' d').
  - intros q _. unfold within. lia.
  - intros q d. unfold within. lia.
Qed.

Lemma erase_loop_spec z : ∀ fuel (t : table State Cell) e n v,
  grower_ok (grower t) → Z.of_nat (length (buf t)) = Grower.bufSize (grower t) → good (state t) → cell_isZero z (state t) = true →
  erasing (state t) (buf t) e n → vacant (state t) (buf t) v → distance (Z.of_nat (length (buf t))) n v ≤ Z.of_nat fuel →
  ∃ e' b', erase_loop fuel e n t = Ret (e', with_buf b' t) ∧ length b' = length (buf t) ∧ occupied (state t) b' e' ∧
    probing (state t) (put b' e' z) ∧ items (state t) (put b' e' z) ≡ₚ items (state t) (put (buf t) e z).
Proof.
  induction fuel as [|fuel IH]; intros t e n v Hg Hlen Hgood Hz He Hv Hd;
    set (M := Z.of_nat (length (buf t))) in *; pose proof (vacant_range _ _ _ Hv) as Hrv; fold M in Hrv;
    pose proof (erasing_n _ _ _ _ He) as Hrn; fold M in Hrn; pose proof (erasing_occupied _ _ _ _ He) as Hoe;
    pose proof (occupied_range _ _ _ Hoe) as Hre; fold M in Hre.
  - exfalso. assert (n = v) as -> by (clear -Hd Hrv Hrn; unfold distance, in_range in *; revert Hd; zcases; lia).
    eapply occupied_not_vacant; [|exact Hv]. destruct (decide (v = e)) as [->|Hne]; [done|].
    apply (erasing_passed _ _ _ _ He); [done|]. unfold within. lia.
  - simpl. rewrite next_following by (by rewrite <- ?Hlen). rewrite <- Hlen.
    pose proof (following_range M n Hrn) as Hrf. destruct (at_pos_exists (buf t) (following M n) Hrf) as (c & Hc).
    rewrite (cell_at_pos _ _ _ Hc). cbn [mbind outcome_bind]. destruct (cell_isZero c (state t)) eqn:Hcz.
    + exists e, (buf t). split_and!; [by destruct t|done|done| |done]. eapply erasing_end; [done|exact He|by exists c|done].
    + assert (item (state t) (buf t) (following M n) c) as Hi by done.
      assert (n ≠ v) as Hnv.
      { intros ->. eapply occupied_not_vacant; [|exact Hv]. destruct (decide (v = e)) as [->|Hne]; [done|].
        apply (erasing_passed _ _ _ _ He); [done|]. unfold within. lia. }
      assert (following M n ≠ e) as Hfe.
      { intros Hfe. eapply occupied_not_vacant; [|exact Hv]. destruct (decide (v = e)) as [->|Hne]; [done|].
        apply (erasing_passed _ _ _ _ He); [done|]. clear -Hfe Hnv Hrv Hrn Hre Hne. unfold within, following, in_range in *. revert Hfe. zcases; lia. }
      assert (distance M (following M n) v ≤ Z.of_nat fuel) as Hd' by (rewrite distance_step by done; lia).
      rewrite (place_eq _ Hg), <- Hlen. fold (home M c). set (f := following M n) in *.
      assert (in_range M (home M c)) as Hrh by (apply home_range; unfold in_range in Hre; lia).
      assert (within e (home M c) f → erasing (state t) (buf t) e f) as Hpass by (intros Hw; by apply (erasing_pass _ _ e n c)).
      destruct (Z.eqb_spec (home M c) f) as [Heq|Hhf].
      { apply (IH t e f v); [done..|apply Hpass|done|done]. unfold within. lia. }
      destruct (decide (within e (home M c) f)) as [Hw|Hw].
      { assert ((e <? f) && (e <? home M c) && (home M c <? f) || (f <? e) && ((e <? home M c) || (home M c <? f)) = true) as Hcond.
        { apply orb_true_iff. rewrite !andb_true_iff, orb_true_iff, !Z.ltb_lt. unfold within in Hw. lia. }
        apply orb_true_iff in Hcond. destruct ((e <? f) && (e <? home M c) && (home M c <? f)); [by apply (IH t e f v); auto|].
        destruct Hcond as [|Hcond]; [done|]. rewrite Hcond. by apply (IH t e f v); auto. }
      assert ((e <? f) && (e <? home M c) && (home M c <? f) = false) as ->.
      { apply not_true_iff_false. rewrite !andb_true_iff, !Z.ltb_lt. intros Hcond. apply Hw. unfold within. lia. }
      assert ((f <? e) && ((e <? home M c) || (home M c <? f)) = false) as ->.
      { apply not_true_iff_false. rewrite andb_true_iff, orb_true_iff, !Z.ltb_lt. intros Hcond. apply Hw. unfold within. lia. }
      destruct (IH (put_cell e c t) f f v) as (e' & b' & Hloop & Hl & Ho & Hpr & Hit); try done.
      * simpl. by rewrite length_insert.
      * by apply (erasing_move _ _ e n c).
      * simpl. destruct Hv as (w & Hw' & Hwz). exists w. split; [|done]. apply at_pos_put_ne; [|unfold in_range in Hre; lia|done].
        intros ->. eapply occupied_not_vacant; [exact Hoe|by exists w].
      * simpl. by rewrite length_insert.
      * exists e', b'. split_and!; [done|simpl in Hl; by rewrite length_insert in Hl|done|done|]. simpl in Hit. rewrite Hit.
        (* the cell at [f] has moved to [e] *)
        fold (put (buf t) e c). destruct Hoe as (d & Hde).
        assert (item (state t) (put (buf t) e c) f c) as Hf1 by (apply item_put; [done|naive_solver]).
        assert (item (state t) (put (buf t) e z) f c) as Hf2 by (apply item_put; [done|naive_solver]).
        assert (vacant (state t) (put (buf t) e z) e) as Hve by (exists z; split; [by apply at_pos_put_eq|done]).
        pose proof (items_put_occupied _ _ f c z Hf1 Hz) as P1.
        pose proof (items_put_vacant _ _ e c Hve Hcz) as P2. rewrite put_put in P2. rewrite P2 in P1. by apply Permutation_cons_inv in P1.
Qed.

(** ** Moving cells of a grown buffer *)

Definition full st b (lo hi : Z) : Prop := ∀ q, lo ≤ q < hi → occupied st b q.

(** What moving cells keeps. *)
Record distinct st b : Prop := {
  distinct_hash p c : item st b p c → getHash c = hash (getKey c);
  distinct_keys p c p' c' : item st b p c → item st b p' c' → getKey c = getKey c' → p = p';
}.

Definition moved b (i r : Z) c : list Cell := put (put b r c) i (setZero c).

Section moving.
Context st b (i r : Z) c (Hgood : good st) (Hi : item st b i c) (Hr : vacant st b r).

Lemma moved_ne : i ≠ r.
Proof. intros ->. eapply occupied_not_vacant; [by exists c|done]. Qed.

Lemma length_moved : length (moved b i r c) = length b.
Proof. unfold moved. by rewrite !length_put. Qed.

Lemma item_moved q d : item st (moved b i r c) q d ↔ (q = r ∧ d = c) ∨ (q ≠ r ∧ q ≠ i ∧ item st b q d).
Proof.
  pose proof moved_ne as Hne. pose proof (item_range _ _ _ _ Hi) as Hri. pose proof (vacant_range _ _ _ Hr) as Hrr. unfold moved.
  rewrite !item_put by (rewrite ?length_put; done). rewrite setZero_isZero by done. destruct Hi as [_ Hz]. naive_solver.
Qed.

Lemma occupied_moved q : occupied st (moved b i r c) q ↔ q = r ∨ (q ≠ i ∧ occupied st b q).
Proof.
  unfold occupied. setoid_rewrite item_moved. pose proof moved_ne as Hne. split.
  - intros (d & [[-> ->]|(? & ? & ?)]); eauto.
  - intros [->|[Hq (d & Hd)]]; [eauto|]. exists d. destruct (decide (q = r)) as [->|]; [|auto].
    exfalso. eapply occupied_not_vacant; [by exists d|done].
Qed.

Lemma vacant_moved q : q ≠ r → vacant st b q → vacant st (moved b i r c) q.
Proof.
  intros Hq Hv. destruct (occupied_or_vacant st (moved b i r c) q) as [[->|[_ Ho]]%occupied_moved|]; [|done| |done].
  - rewrite length_moved. by apply (vacant_range st).
  - exfalso. by eapply occupied_not_vacant.
Qed.

Lemma items_moved : items st (moved b i r c) ≡ₚ items st b.
Proof. unfold moved. apply items_move; [done|done|by apply setZero_isZero]. Qed.

Lemma distinct_moved : distinct st b → distinct st (moved b i r c).
Proof.
  intros [Hh Hk]. split.
  - intros p d. rewrite item_moved. intros [[-> ->]|(_ & _ & Hd)]; eauto.
  - intros p d p' d'. rewrite !item_moved.
    intros [[-> ->]|(H1 & H2 & Hd)] [[-> ->]|(H1' & H2' & Hd')] Heq; [done| | |by eapply Hk].
    + exfalso. apply H2'. by eapply (Hk p' d' i c).
    + exfalso. apply H2. by eapply (Hk p d i c).
Qed.

Lemma full_moved lo hi : full st b lo hi → ¬ (lo ≤ i < hi) → full st (moved b i r c) lo hi.
Proof. intros Hf Hni q Hq. apply occupied_moved. right. split; [lia|by apply Hf]. Qed.
End moving.

(** [reinsert] leaves a cell whose chain is unbroken, or moves it to the first gap of its chain. *)
Lemma reinsert_spec (t : table State Cell) i c : let M := Z.of_nat (length (buf t)) in let st := state t in
  grower_ok (grower t) → M = Grower.bufSize (grower t) → good st → distinct st (buf t) → item st (buf t) i c →
  ∃ r b', reinsert i (getHash c) t = Ret (r, with_buf b' t) ∧
    ((b' = buf t ∧ ∀ q, path M (home M c) q i → occupied st (buf t) q) ∨
     (b' = moved (buf t) i r c ∧ vacant st (buf t) r ∧ ∀ q, path M (home M c) q r → occupied st (buf t) q ∧ q ≠ i)).
Proof.
  intros M st Hg HM Hgood [Hh Hk] Hi. unfold reinsert. rewrite (place_eq _ Hg), <- HM. fold (home M c).
  assert (with_buf (buf t) t = t) as Ht by by destruct t.
  destruct (Z.eqb_spec i (home M c)) as [Heq|Hne].
  { exists (home M c), (buf t). rewrite Ht. split; [done|]. left. split; [done|]. intros q. rewrite <- Heq. by intros ?%path_self. }
  rewrite (cell_at_pos _ _ _ (proj1 Hi)). cbn [mbind outcome_bind].
  pose proof (Hh i c Hi) as Hhash. pose proof (item_range _ _ _ _ Hi) as Hri. fold M in Hri.
  assert (in_range M (home M c)) as Hrh by (apply home_range; unfold in_range in Hri; lia).
  assert (stop t (getKey c) (getHash c) i) as Hstop. { exists c. split; [apply Hi|]. right. rewrite Hhash. by apply keyEquals_key. }
  destruct (findCell_spec t M Hg HM eq_refl (getKey c) (getHash c) (home M c) Hrh) as (r & -> & Hs & Hq); [eauto|].
  cbn [mbind outcome_bind]. destruct Hs as (d & Hd & Hs). rewrite (cell_at_pos _ _ _ Hd). cbn [mbind outcome_bind].
  assert (∀ q, path M (home M c) q r → occupied st (buf t) q) as Hocc.
  { intros q Hpath. assert (in_range M r) as Hrr by by eapply at_pos_range.
    destruct (occupied_or_vacant st (buf t) q) as [|(w & Hw & Hwz)]; [by apply (path_range M (home M c) q r)|done|].
    exfalso. apply (Hq q Hpath). exists w. auto. }
  destruct (cell_isZero d (state t)) eqn:Hdz; cbn [negb].
  - exists r, (moved (buf t) i r c). split; [by rewrite setHash_same|]. right. split_and!; [done|by exists d|].
    intros q Hpath. split; [by apply Hocc|]. intros ->. by apply (Hq i Hpath).
  - exists r, (buf t). rewrite Ht. split; [done|]. left. split; [done|].
    assert (r = i) as ->; [|done]. destruct Hs as [|Hs]; [congruence|]. assert (item st (buf t) r d) as Hid by done.
    eapply Hk; [done|done|]. apply (keyEquals_key d (getKey c) st); [by apply (Hh r)|]. by rewrite <- Hhash.
Qed.

(** ** Rehashing in place *)

Section rehashing.
(** The old buffer, and the size of the new one. *)
Context st (Hgood : good st) (b0 : list Cell) (M : Z).
Let N := Z.of_nat (length b0).
Context (Hpr : probing st b0) (HN : 0 < N) (HMN : 2 * N ≤ M) (Hdiv : (N | M)).

Lemma home_old c : home M c < N → home N c = home M c.
Proof.
  intros Hh. unfold home in *. assert (0 ≤ getHash c mod M) by (apply Z.mod_pos_bound; lia).
  rewrite <- (Z.mod_small (getHash c mod M) N) by lia. destruct Hdiv as [k Hk]. rewrite Hk.
  rewrite Z.mul_comm. rewrite Z.rem_mul_r by nia. rewrite Z.mul_comm, Z.mod_add, Z.mod_mod by lia. done.
Qed.

(** When the cells before [i] have been processed: those in the old part have unbroken chains, those
    in the new part may have chains that begin in the old part and are broken there. *)
Record rehashing b (i : Z) : Prop := {
  rehashing_length : Z.of_nat (length b) = M;
  rehashing_distinct : distinct st b;
  rehashing_items : items st b ≡ₚ items st b0;
  rehashing_rest p : i ≤ p < N → ∀ c, at_pos b p c ↔ at_pos b0 p c;
  rehashing_done p c : item st b p c → p < i →
    (home M c ≤ p ∧ full st b (home M c) p) ∨ (N ≤ home M c ∧ full st b (home M c) M ∧ full st b 0 p);
  rehashing_new p c : item st b p c → N ≤ p →
    (N ≤ home M c ≤ p ∧ full st b (home M c) p) ∨ (home M c < N ∧ full st b N p);
}.

Lemma rehashing_start n z : Z.of_nat n = M - N → cell_isZero z st = true → rehashing (b0 ++ replicate n z) 0.
Proof.
  intros Hn Hz. assert (∀ p c, item st (b0 ++ replicate n z) p c → item st b0 p c) as Hit.
  { intros p c [[Hp Hc] Hcz]. split; [split; [done|]|done]. apply lookup_app_Some in Hc as [Hc|[_ Hc]]; [done|].
    apply lookup_replicate in Hc as [-> _]. congruence. }
  split.
  - rewrite length_app, length_replicate. unfold N in *. lia.
  - split.
    + intros p c Hi%Hit. by eapply (probing_hash _ _ Hpr).
    + intros p c p' c' Hi%Hit Hi'%Hit. by eapply (probing_keys _ _ Hpr).
  - by rewrite cell_items_app, items_replicate, app_nil_r.
  - intros p Hp c. unfold at_pos. rewrite lookup_app_l by (unfold N in Hp; lia). done.
  - intros p c [[Hp _] _]. lia.
  - intros p c Hi%Hit%item_range. unfold in_range in Hi. fold N in Hi. lia.
Qed.

(** There are not enough cells to fill the new part and one cell of the old part. *)
Lemma new_part_not_full b i p c : rehashing b i → item st b p c → p < N → ¬ full st b N M.
Proof.
  intros [Hlen _ Hit _ _ _] Hi Hp Hfull. pose proof (items_length_le st b0) as Hle. rewrite <- Hit in Hle.
  rewrite <- (take_drop (length b0) b), cell_items_app, length_app in Hle.
  rewrite (items_all st (drop (length b0) b)), length_drop in Hle.
  - assert (c ∈ items st (take (length b0) b)) as Hc.
    { apply items_elem. exists p. destruct Hi as [[Hp0 Hc] Hz]. split; [|done]. split; [done|]. rewrite lookup_take_lt; [done|unfold N in Hp; lia]. }
    destruct (items st (take (length b0) b)) as [|x l]; [by apply not_elem_of_nil in Hc|]. simpl in Hle. unfold N in *. lia.
  - intros q Hq. unfold in_range in Hq. rewrite length_drop in Hq. destruct (Hfull (N + q)) as (d & [Hq0 Hd] & Hz); [unfold N in *; lia|].
    exists d. split; [|done]. split; [lia|]. rewrite lookup_drop. rewrite <- Hd. f_equal. unfold N. lia.
Qed.

Lemma rehashing_vacant b i : rehashing b i → ¬ occupied st b i → rehashing b (i + 1).
Proof.
  intros [H1 H2 H3 H4 H5 H6] Hv. split; try done.
  - intros p Hp. apply H4. lia.
  - intros p c Hi Hp. apply (H5 p c Hi). destruct (decide (p = i)) as [->|]; [|lia]. exfalso. apply Hv. by exists c.
Qed.

(** The chain of a cell that has not been processed and was moved around the end of the old buffer. *)
Lemma rehashing_wrapped b i c : rehashing b i → item st b i c → i < home M c < N → full st b (home M c) N.
Proof.
  intros Hb Hi Hh q Hq. assert (item st b0 i c) as Hi0.
  { destruct Hi as [Hc Hz]. split; [|done]. apply (rehashing_rest _ _ Hb); [lia|done]. }
  destruct (probing_chain _ _ Hpr i c q Hi0) as (d & Hd & Hz).
  - fold N. rewrite home_old by lia. unfold path. right. split; [lia|]. left. lia.
  - exists d. split; [|done]. apply (rehashing_rest _ _ Hb); [lia|done].
Qed.

Lemma rehashing_stays b i c : rehashing b i → item st b i c → 0 ≤ i < N →
  (∀ q, path M (home M c) q i → occupied st b q) → rehashing b (i + 1).
Proof.
  intros Hb Hi HiN Hpath. pose proof Hb as [H1 H2 H3 H4 H5 H6]. split; try done.
  - intros p Hp. apply H4. lia.
  - intros p d Hd Hp. destruct (decide (p = i)) as [->|]; [|apply (H5 p d Hd); lia].
    rewrite (at_pos_unique _ _ _ _ (proj1 Hd) (proj1 Hi)). assert (in_range M (home M c)) as Hrh by (apply home_range; lia). unfold in_range in Hrh.
    destruct (decide (home M c ≤ i)) as [Hle|Hgt].
    { left. split; [done|]. intros q Hq. apply Hpath. unfold path. lia. }
    assert (full st b (home M c) M) as Hf by (intros q Hq; apply Hpath; unfold path; lia).
    destruct (decide (home M c < N)) as [Hlt|Hge].
    { exfalso. apply (new_part_not_full b i i c Hb Hi); [lia|]. intros q Hq. apply Hf. lia. }
    right. split_and!; [lia|done|]. intros q Hq. apply Hpath. unfold path. lia.
Qed.

Lemma rehashing_moved b i r c : rehashing b i → item st b i c → 0 ≤ i < N → vacant st b r →
  (∀ q, path M (home M c) q r → occupied st b q ∧ q ≠ i) → rehashing (moved b i r c) (i + 1).
Proof.
  intros Hb Hi HiN Hr Hpath. pose proof Hb as [H1 H2 H3 H4 H5 H6]. pose proof (moved_ne _ _ _ _ _ Hi Hr) as Hne.
  assert (in_range M (home M c)) as Hrh by (apply home_range; lia). unfold in_range in Hrh.
  pose proof (vacant_range _ _ _ Hr) as Hrr. rewrite H1 in Hrr. unfold in_range in Hrr.
  assert (∀ lo hi, full st b lo hi → ¬ (lo ≤ i < hi) → full st (moved b i r c) lo hi) as Hfull by by apply full_moved.
  assert (∀ lo hi, (∀ q, lo ≤ q < hi → path M (home M c) q r) → full st (moved b i r c) lo hi) as Hfp.
  { intros lo hi Hlh. apply Hfull; [intros q Hq; by apply Hpath, Hlh|]. intros Hc. by apply (Hpath i (Hlh i Hc)). }
  (* where the cell has gone *)
  assert ((N ≤ home M c ≤ r) ∨ (N ≤ home M c ∧ r < i) ∨ (home M c ≤ r < i) ∨ (i < home M c < N ∧ N ≤ r)) as Hwhere.
  { destruct (decide (N ≤ home M c)) as [Hge|Hlt].
    - destruct (decide (home M c ≤ r)); [lia|]. right; left. split; [done|].
      destruct (decide (i < r)); [|lia]. exfalso. apply (Hpath i); [unfold path; lia|done].
    - destruct (decide (home M c ≤ i)) as [Hle|Hgt].
      + right; right; left. destruct (decide (home M c ≤ r < i)); [done|]. exfalso. apply (Hpath i); [unfold path; lia|done].
      + right; right; right. split; [lia|]. destruct (decide (N ≤ r)); [done|]. exfalso.
        destruct (decide (home M c ≤ r)) as [Hle|Hgt'].
        * apply (occupied_not_vacant st b r); [|done]. apply (rehashing_wrapped b i c Hb Hi); lia.
        * apply (new_part_not_full b i i c Hb Hi); [lia|]. intros q Hq. apply Hpath. unfold path. lia. }
  split.
  - by rewrite length_moved.
  - by apply distinct_moved.
  - by rewrite items_moved.
  - intros p Hp d. rewrite <- H4 by lia. unfold moved. assert (p ≠ r) by lia. assert (p ≠ i) by lia.
    rewrite at_pos_put_ne by lia. rewrite at_pos_put_ne by lia. done.
  - intros p d Hd Hp. apply item_moved in Hd as [[-> ->]|(Hpr' & Hpi & Hd)]; [| |done|done|done].
    + destruct Hwhere as [?|[[? ?]|[?|?]]]; [lia| | |lia].
      * right. split_and!; [lia| |]; apply Hfp; intros q Hq; unfold path; lia.
      * left. split; [lia|]. apply Hfp. intros q Hq. unfold path. lia.
    + destruct (H5 p d Hd) as [[? ?]|(? & ? & ?)]; [lia| |].
      * left. split; [done|]. apply Hfull; [done|lia].
      * right. split_and!; [done| |]; (apply Hfull; [done|lia]).
  - intros p d Hd Hp. apply item_moved in Hd as [[-> ->]|(Hpr' & Hpi & Hd)]; [| |done|done|done].
    + destruct Hwhere as [?|[?|[?|?]]]; [|lia|lia|].
      * left. split; [lia|]. apply Hfp. intros q Hq. unfold path. lia.
      * right. split; [lia|]. apply Hfp. intros q Hq. unfold path. lia.
    + destruct (H6 p d Hd Hp) as [[? ?]|[? ?]].
      * left. split; [done|]. apply Hfull; [done|lia].
      * right. split; [done|]. apply Hfull; [done|lia].
Qed.
End rehashing.

Section rehash_loops.
Context (b0 : list Cell) (M : Z).
Let N := Z.of_nat (length b0).
Context (HN : 0 < N) (HMN : 2 * N ≤ M) (Hdiv : (N | M)).

Lemma rehash_old_spec n : ∀ (t : table State Cell) i, good (state t) → probing (state t) b0 → grower_ok (grower t) → M = Grower.bufSize (grower t) →
  0 ≤ i → i + Z.of_nat n = N → rehashing (state t) b0 M (buf t) i →
  ∃ b', rehash_old n i t = Ret (with_buf b' t) ∧ rehashing (state t) b0 M b' N.
Proof.
  induction n as [|n IH]; intros t i Hgood Hpr Hg HM Hi Hn Hb; simpl.
  { exists (buf t). split; [by destruct t|]. by replace N with i by lia. }
  pose proof (rehashing_length _ _ _ _ _ Hb) as Hlen.
  destruct (at_pos_exists (buf t) i) as (c & Hc); [unfold in_range; lia|]. rewrite (cell_at_pos _ _ _ Hc). cbn [mbind outcome_bind].
  destruct (cell_isZero c (state t)) eqn:Hz.
  { apply IH; [done|done|done|done|lia|lia|]. apply rehashing_vacant; [done|]. intros Ho.
    eapply occupied_not_vacant; [done|by exists c]. }
  assert (item (state t) (buf t) i c) as Hic by done.
  destruct (reinsert_spec t i c Hg) as (r & b' & -> & Hcase); [by rewrite Hlen|done|apply Hb|done|]. rewrite Hlen in Hcase. cbn [mbind outcome_bind].
  apply (IH (with_buf b' t) (i + 1)); [done|done|done|done|lia|lia|]. simpl. destruct Hcase as [[-> Hpath]|(-> & Hv & Hpath)].
  - apply (rehashing_stays (state t) b0 M HN HMN (buf t) i c); [done|done|lia|done].
  - apply (rehashing_moved (state t) Hgood b0 M Hpr HN HMN Hdiv (buf t) i r c); [done|done|lia|done|done].
Qed.

(** *** The tail *)

(** [e] is the end of the cells behind the old part that have no gap; those before [i] have been processed. *)
Record tail_rehashing st b (i e : Z) : Prop := {
  tail_length : Z.of_nat (length b) = M;
  tail_distinct : distinct st b;
  tail_items : items st b ≡ₚ items st b0;
  tail_bounds : N ≤ i ≤ e ∧ e ≤ M;
  tail_rest : full st b i e;
  tail_end : e < M → vacant st b e;
  tail_done p c : item st b p c → p < i →
    (home M c ≤ p ∧ full st b (home M c) p) ∨ (e < home M c ∧ p < N ∧ full st b (home M c) M ∧ full st b 0 p);
  tail_left p c : item st b p c → i ≤ p < e → home M c ≤ p;
  tail_far p c : item st b p c → e < p → e < home M c ≤ p ∧ full st b (home M c) p;
}.

Lemma first_vacant st b : Z.of_nat (length b) = M → ∀ n i, Z.of_nat n = M - i → 0 ≤ i →
  ∃ e, i ≤ e ≤ M ∧ full st b i e ∧ (e < M → vacant st b e).
Proof.
  intros Hlen n. induction n as [|n IH]; intros i Hn Hi.
  { exists i. split_and!; [lia|lia| |lia]. intros q. lia. }
  destruct (occupied_or_vacant st b i) as [Ho|Hv]; [unfold in_range; lia| |].
  - destruct (IH (i + 1)) as (e & He & Hf & Hv); [lia|lia|]. exists e. split_and!; [lia|lia| |done].
    intros q Hq. destruct (decide (q = i)) as [->|]; [done|]. apply Hf. lia.
  - exists i. split_and!; [lia|lia| |done]. intros q. lia.
Qed.

Lemma tail_start st b : good st → rehashing st b0 M b N → ∃ e, tail_rehashing st b N e.
Proof.
  intros Hgood Hb. pose proof Hb as [H1 H2 H3 H4 H5 H6]. destruct (first_vacant st b H1 (Z.to_nat (M - N)) N) as (e & He & Hf & Hv); [lia|lia|].
  exists e. split; try done; try lia.
  - intros p c Hi Hp. destruct (H5 p c Hi Hp) as [?|(Hge & Hf1 & Hf2)]; [by left|]. right. split_and!; [|done|done|done].
    destruct (decide (e < home M c)); [done|]. exfalso. assert (in_range M (home M c)) as Hrh by (apply home_range; lia). unfold in_range in Hrh.
    destruct (decide (e < M)) as [Hlt|].
    + apply (occupied_not_vacant st b e); [apply Hf1; lia|by apply Hv].
    + apply (new_part_not_full st b0 M HN HMN b N p c Hb Hi Hp). intros q Hq. apply Hf. fold N in Hq. lia.
  - intros p c Hi Hp. destruct (H6 p c Hi) as [?|?]; unfold N in Hp; lia.
  - intros p c Hi Hp. assert (e < M) as HeM. { apply item_range in Hi. rewrite H1 in Hi. unfold in_range in Hi. lia. }
    destruct (H6 p c Hi) as [[Hh Hfh]|[Hh Hfh]]; [fold N; lia| |]; fold N in Hh, Hfh.
    + split; [|done]. destruct (decide (e < home M c)); [lia|]. exfalso. apply (occupied_not_vacant st b e); [apply Hfh; lia|by apply Hv].
    + exfalso. apply (occupied_not_vacant st b e); [apply Hfh; lia|by apply Hv].
Qed.

Lemma tail_stays st b i e c : tail_rehashing st b i e → item st b i c → i < e →
  (∀ q, path M (home M c) q i → occupied st b q) → tail_rehashing st b (i + 1) e.
Proof.
  intros [H1 H2 H3 H4 H5 H6 H7 H8 H9] Hi Hlt Hpath. split; try done; try lia.
  - intros q Hq. apply H5. lia.
  - intros p d Hd Hp. destruct (decide (p = i)) as [->|]; [|apply (H7 p d Hd); lia].
    rewrite (at_pos_unique _ _ _ _ (proj1 Hd) (proj1 Hi)). left. pose proof (H8 i c Hi) as Hh. split; [lia|]. intros q Hq. apply Hpath. unfold path. lia.
  - intros p d Hd Hp. apply (H8 p d Hd). lia.
Qed.

Lemma tail_moved st b i e r c : good st → tail_rehashing st b i e → item st b i c → i < e → vacant st b r →
  (∀ q, path M (home M c) q r → occupied st b q ∧ q ≠ i) → tail_rehashing st (moved b i r c) (i + 1) e.
Proof.
  intros Hgood [H1 H2 H3 H4 H5 H6 H7 H8 H9] Hi Hlt Hr Hpath. pose proof (moved_ne _ _ _ _ _ Hi Hr) as Hne.
  pose proof (H8 i c Hi ltac:(lia)) as Hh. pose proof (vacant_range _ _ _ Hr) as Hrr. rewrite H1 in Hrr. unfold in_range in Hrr.
  assert (home M c ≤ r < i) as Hri. { destruct (decide (home M c ≤ r < i)); [done|]. exfalso. apply (Hpath i); [unfold path; lia|done]. }
  assert (∀ lo hi, full st b lo hi → ¬ (lo ≤ i < hi) → full st (moved b i r c) lo hi) as Hfull by by apply full_moved.
  split.
  - by rewrite length_moved.
  - by apply distinct_moved.
  - by rewrite items_moved.
  - lia.
  - apply Hfull; [|lia]. intros q Hq. apply H5. lia.
  - intros HeM. apply vacant_moved; [done|done|done|lia|by apply H6].
  - intros p d Hd Hp. apply item_moved in Hd as [[-> ->]|(Hpr' & Hpi & Hd)]; [| |done|done|done].
    + left. split; [lia|]. intros q Hq. apply occupied_moved; [done..|]. right. destruct (Hpath q) as [? ?]; [unfold path; lia|done].
    + destruct (H7 p d Hd) as [[? ?]|(? & ? & ? & ?)]; [lia| |].
      * left. split; [done|]. apply Hfull; [done|lia].
      * right. split_and!; [done|done| |]; (apply Hfull; [done|lia]).
  - intros p d Hd Hp. apply item_moved in Hd as [[-> ->]|(Hpr' & Hpi & Hd)]; [lia| |done|done|done]. apply (H8 p d Hd). lia.
  - intros p d Hd Hp. apply item_moved in Hd as [[-> ->]|(Hpr' & Hpi & Hd)]; [lia| |done|done|done].
    destruct (H9 p d Hd Hp) as [? ?]. split; [done|]. apply Hfull; [done|lia].
Qed.

Lemma tail_finished st b e : tail_rehashing st b e e → probing st b.
Proof.
  intros [H1 H2 H3 H4 H5 H6 H7 H8 H9]. split; [apply H2| |apply H2].
  rewrite H1. intros p c q Hi Hpath. pose proof (item_range _ _ _ _ Hi) as Hrp. rewrite H1 in Hrp. unfold in_range in Hrp.
  assert (in_range M (home M c)) as Hrh by (apply home_range; lia). unfold in_range in Hrh.
  destruct (Z.lt_trichotomy p e) as [Hlt|[->|Hgt]].
  - destruct (H7 p c Hi Hlt) as [[? Hf]|(? & ? & Hf1 & Hf2)].
    + apply Hf. unfold path in Hpath. lia.
    + destruct Hpath as [?|[_ [?|?]]]; [lia|apply Hf1; lia|apply Hf2; lia].
  - exfalso. eapply occupied_not_vacant; [by exists c|]. apply H6. lia.
  - destruct (H9 p c Hi Hgt) as [? Hf]. apply Hf. unfold path in Hpath. lia.
Qed.

Lemma rehash_tail_spec n : ∀ (t : table State Cell) i e, good (state t) → grower_ok (grower t) → M = Grower.bufSize (grower t) →
  Z.of_nat n = M - i → tail_rehashing (state t) (buf t) i e →
  ∃ b', rehash_tail n i t = Ret (with_buf b' t) ∧ Z.of_nat (length b') = M ∧ probing (state t) b' ∧ items (state t) b' ≡ₚ items (state t) b0.
Proof.
  assert (∀ (t : table State Cell) e, tail_rehashing (state t) (buf t) e e → ∃ b', Ret t = Ret (with_buf b' t) ∧
    Z.of_nat (length b') = M ∧ probing (state t) b' ∧ items (state t) b' ≡ₚ items (state t) b0) as Hend.
  { intros t e He. exists (buf t). split_and!; [by destruct t|apply He|by eapply tail_finished|apply He]. }
  induction n as [|n IH]; intros t i e Hgood Hg HM Hn Ht; simpl; pose proof (tail_bounds _ _ _ _ Ht) as Hb.
  { assert (i = e) as -> by lia. by apply (Hend t e). }
  pose proof (tail_length _ _ _ _ Ht) as Hlen.
  destruct (at_pos_exists (buf t) i) as (c & Hc); [unfold in_range; lia|]. rewrite (cell_at_pos _ _ _ Hc). cbn [mbind outcome_bind].
  destruct (cell_isZero c (state t)) eqn:Hz.
  { assert (i = e) as ->; [|by apply (Hend t e)]. destruct (decide (i = e)); [done|]. exfalso.
    apply (occupied_not_vacant (state t) (buf t) i); [apply (tail_rest _ _ _ _ Ht); lia|by exists c]. }
  assert (item (state t) (buf t) i c) as Hic by done. assert (i < e) as Hie.
  { destruct (decide (i = e)) as [->|]; [|lia]. exfalso. eapply occupied_not_vacant; [by exists c|]. apply (tail_end _ _ _ _ Ht). lia. }
  destruct (reinsert_spec t i c Hg) as (r & b' & -> & Hcase); [by rewrite Hlen|done|apply Ht|done|]. rewrite Hlen in Hcase. cbn [mbind outcome_bind].
  apply (IH (with_buf b' t) (i + 1) e); [done|done|done|lia|]. simpl. destruct Hcase as [[-> Hpath]|(-> & Hv & Hpath)].
  - by apply (tail_stays _ _ i e c).
  - by apply tail_moved.
Qed.

(** Rehashing keeps the cells and makes their chains unbroken. *)
Lemma rehash_spec (t : table State Cell) k : good (state t) → probing (state t) b0 → grower_ok (grower t) → M = Grower.bufSize (grower t) →
  buf t = b0 ++ replicate k zero_memory → Z.of_nat k = M - N →
  ∃ b', rehash N t = Ret (with_buf b' t) ∧ Z.of_nat (length b') = M ∧ probing (state t) b' ∧ items (state t) b' ≡ₚ items (state t) b0.
Proof.
  intros Hgood Hpr Hg HM Hbuf Hk. unfold rehash.
  destruct (rehash_old_spec (Z.to_nat N) t 0 Hgood Hpr Hg HM) as (b1 & -> & Hb1); [lia|lia| |].
  { rewrite Hbuf. apply rehashing_start; [done|done|by apply zero_memory_isZero]. }
  cbn [mbind outcome_bind]. destruct (tail_start (state t) b1 Hgood Hb1) as (e & He).
  apply (rehash_tail_spec _ (with_buf b1 t) N e); [done|done|done| |done]. simpl. rewrite <- HM. lia.
Qed.
End rehash_loops.
End chains.
