(* ===== verification/HashTableCorrect.v ===== *)
(** The hash table is a finite map: what the operations of [HashTable] and [HashMapTable] do, for any
    cells that meet [HashCellLaws]. *)

From stdpp Require Import base list tactics numbers sets gmap fin_maps.
From S2P Require Import Prelude HashTable HashTableProbing.
Local Open Scope Z_scope.

(** What is used of [log2]: its integral part is right, or one too large. *)
Definition log2_ok (lib : Grower.libm) : Prop :=
  ∀ n, 1 ≤ n < 2 ^ 60 → Z.log2 n ≤ Grower.log2 lib n ≤ Z.log2 n + 1.

Section table.
Context {Key Mapped State Cell : Type} {HC : HashCell Key Mapped State Cell}.
Context (hash : Key → Z) (good : State → Prop) {Laws : HashCellLaws HC hash good}.
Context (lib : Grower.libm) (initial_size_degree sizeof_cell : Z).
Context (Hlog2 : log2_ok lib) (Hinitial : 1 ≤ initial_size_degree ≤ 62) (Hsizeof : 1 ≤ sizeof_cell).
Implicit Types (t : table State Cell) (c : Cell) (x : Key) (memory : memory_state).

Local Notation resize := (HashTable.resize lib initial_size_degree sizeof_cell).
Local Notation emplace := (HashTable.emplace lib initial_size_degree sizeof_cell).

(** * The invariant *)

Definition elements t : list Cell := (if has_zero t then [zero_value t] else []) ++ items (state t) (buf t).

Record table_wf t : Prop := {
  wf_grower : grower_ok (grower t);
  wf_length : Z.of_nat (length (buf t)) = Grower.bufSize (grower t);
  wf_state : good (state t);
  wf_probing : probing hash (state t) (buf t);
  wf_zero : need_zero_value_storage = true → key_isZero (getKey (zero_value t)) (state t) = true;
  wf_has_zero : has_zero t = true → need_zero_value_storage = true;
  wf_size : m_size t = Z.of_nat (length (elements t));
}.

(** The buffer is at most half full; the zero key is not in the buffer, and not counted here. *)
Record table_ok t : Prop := {
  ok_wf : table_wf t;
  ok_fill : Z.of_nat (length (items (state t) (buf t))) ≤ Grower.precalculated_max_fill (grower t);
}.

(** What a pointer to an element points to. *)
Definition points t (p : pointer) c : Prop :=
  match p with
  | ToZero => has_zero t = true ∧ c = zero_value t
  | ToCell pos => item (state t) (buf t) pos c
  end.

Lemma points_deref t p c : points t p c → deref p t = Ret c.
Proof. destruct p as [|pos]; simpl; [by intros [_ ->]|]. intros [Hc _]. by apply cell_at_pos. Qed.

Lemma points_element t p c : points t p c → c ∈ elements t.
Proof.
  unfold elements. rewrite elem_of_app. destruct p as [|pos]; simpl.
  - intros [-> ->]. left. set_solver.
  - intros Hi. right. apply items_elem. eauto.
Qed.

Lemma items_size t : table_wf t → Z.of_nat (length (items (state t) (buf t))) ≤ m_size t.
Proof. intros Ht. rewrite (wf_size _ Ht). unfold elements. rewrite length_app. lia. Qed.

Lemma exists_vacant (st : State) (b : list Cell) : (length (items st b) < length b)%nat → ∃ p, vacant st b p.
Proof.
  intros Hlt. destruct (decide (Exists (λ c, cell_isZero c st = true) b)) as [He|Hne].
  - apply Exists_exists in He as (c & Hc & Hz). apply list_elem_of_lookup in Hc as [i Hi].
    exists (Z.of_nat i), c. split; [|done]. split; [lia|]. by rewrite Nat2Z.id.
  - exfalso. rewrite items_all in Hlt; [lia|]. intros p Hp. destruct (occupied_or_vacant st b p Hp) as [|(c & [_ Hc] & Hz)]; [done|].
    exfalso. apply Hne, Exists_exists. exists c. split; [|done]. by eapply list_elem_of_lookup_2.
Qed.

Lemma ok_vacant t : table_ok t → ∃ p, vacant (state t) (buf t) p.
Proof.
  intros [Ht Hf]. apply exists_vacant. pose proof (bufSize_max_fill _ (wf_grower _ Ht)).
  pose proof (bufSize_bounds _ (wf_grower _ Ht)). pose proof (wf_length _ Ht). lia.
Qed.

(** The keys of the elements are distinct. *)
Lemma items_keys st b : probing hash st b → NoDup (getKey <$> items st b).
Proof.
  intros Hpr. unfold items. assert (∀ k, NoDup (getKey <$> filter (λ c, cell_isZero c st = false) (drop k b))) as H; [|apply (H 0%nat)].
  intros k. remember (drop k b) as l eqn:Hl. revert k Hl. induction l as [|c l IH]; intros k Hl; [constructor|].
  assert (b !! k = Some c) as Hk by (rewrite <- (Nat.add_0_r k), <- lookup_drop, <- Hl; done).
  assert (l = drop (S k) b) as Hl' by (rewrite (drop_S _ _ _ Hk) in Hl; by injection Hl).
  rewrite filter_cons. destruct (decide (cell_isZero c st = false)) as [Hz|]; [|by eapply IH]. simpl. constructor; [|by eapply IH].
  intros (d & Heq & Hd)%list_elem_of_fmap. apply list_elem_of_filter in Hd as [Hdz Hd]. rewrite Hl' in Hd.
  apply list_elem_of_lookup in Hd as [j Hj]. rewrite lookup_drop in Hj.
  assert (Z.of_nat k = Z.of_nat (S k + j)) as ?; [|lia]. eapply (probing_keys _ _ _ Hpr _ c _ d); [| |done].
  - split; [|done]. split; [lia|]. by rewrite Nat2Z.id.
  - split; [|done]. split; [lia|]. by rewrite Nat2Z.id.
Qed.

Lemma elements_keys t : table_wf t → NoDup (getKey <$> elements t).
Proof.
  intros Ht. unfold elements. rewrite fmap_app. apply NoDup_app. split_and!.
  - destruct (has_zero t); [apply NoDup_singleton|apply NoDup_nil_2].
  - intros k Hk (c & -> & (p & Hi)%items_elem)%list_elem_of_fmap. destruct (has_zero t) eqn:Hz; [|by apply not_elem_of_nil in Hk].
    apply list_elem_of_singleton in Hk. pose proof (wf_zero _ Ht (wf_has_zero _ Ht Hz)) as Hzk.
    pose proof (occupied_key c (state t) (proj2 Hi)). congruence.
  - apply items_keys. apply Ht.
Qed.

(** * Growing *)

(** A grower with the precalculated values of its degree, which may be too large. *)
Record grower_shape (g : Grower.t) : Prop := {
  shape_degree : 1 ≤ Grower.size_degree g ≤ 63;
  shape_mask : Grower.precalculated_mask g = 2 ^ Grower.size_degree g - 1;
  shape_max_fill : Grower.precalculated_max_fill g = 2 ^ (Grower.size_degree g - 1);
}.

Lemma increaseSizeDegree_shape delta (g : Grower.t) : 0 ≤ delta → 1 ≤ Grower.size_degree g + delta ≤ 63 →
  ∃ g', Grower.increaseSizeDegree delta g = Ret g' ∧ grower_shape g' ∧ Grower.size_degree g' = Grower.size_degree g + delta.
Proof.
  intros Hd Hr. unfold Grower.increaseSizeDegree. rewrite wrap_small by (change (2 ^ (8 * 1)) with 256; lia).
  destruct (Z.leb_spec 1 (Grower.size_degree g + delta)), (Z.ltb_spec (Grower.size_degree g + delta) 64); try lia. simpl.
  assert (2 ^ (Grower.size_degree g + delta) ≤ 2 ^ 63) by (apply Z.pow_le_mono_r; lia).
  assert (2 ^ (Grower.size_degree g + delta - 1) ≤ 2 ^ 63) by (apply Z.pow_le_mono_r; lia).
  assert (0 < 2 ^ (Grower.size_degree g + delta)) by (apply Z.pow_pos_nonneg; lia).
  assert (0 < 2 ^ (Grower.size_degree g + delta - 1)) by (apply Z.pow_pos_nonneg; lia).
  eexists. split; [done|]. rewrite !Z.shiftl_mul_pow2, !Z.mul_1_l, !wrap_small by zlia. split; [|done]. split; done.
Qed.

Lemma bufSize_shape g : grower_shape g → Grower.bufSize g = 2 ^ Grower.size_degree g.
Proof. intros Hg. unfold Grower.bufSize. rewrite Z.shiftl_mul_pow2 by (pose proof (shape_degree _ Hg); lia). lia. Qed.

Lemma grower_ok_shape g : grower_ok g → grower_shape g.
Proof. intros [H1 H2 H3]. split; [lia|done|done]. Qed.

Lemma set_shape n (g : Grower.t) : 0 ≤ n ≤ 2 ^ 60 →
  ∃ g', Grower.set lib initial_size_degree n g = Ret g' ∧ grower_shape g' ∧ n ≤ Grower.precalculated_max_fill g'.
Proof.
  intros Hn. unfold Grower.set. set (d := if n <=? 1 then _ else _).
  assert (1 ≤ d ≤ 63 ∧ n ≤ 2 ^ (d - 1)) as [Hd Hfill].
  { unfold d. destruct (Z.leb_spec n 1) as [Hle|Hgt].
    - split; [lia|]. assert (0 < 2 ^ (initial_size_degree - 1)) by (apply Z.pow_pos_nonneg; lia). lia.
    - pose proof (Hlog2 (n - 1) ltac:(lia)) as Hk. pose proof (Z.log2_nonneg (n - 1)).
      assert (Z.log2 (n - 1) < 60) as Hl by (apply Z.log2_lt_pow2; lia). split; [zcases; lia|].
      transitivity (2 ^ Z.succ (Z.log2 (n - 1))); [pose proof (proj2 (Z.log2_spec (n - 1) ltac:(lia))); lia|].
      apply Z.pow_le_mono_r; zcases; lia. }
  assert (u8 d = d) as Hu by (apply wrap_small; change (2 ^ (8 * 1)) with 256; lia).
  destruct (increaseSizeDegree_shape 0 (Grower.with_degree d g)) as (g' & -> & Hs & Hd'); [lia|simpl; rewrite Hu; lia|].
  eexists. split_and!; [done|done|]. rewrite (shape_max_fill _ Hs), Hd'. simpl. rewrite Hu. by rewrite Z.add_0_r.
Qed.

(** What remains of [resize] when the new size is known. *)
Definition grow memory (g : Grower.t) t : outcome unit * table State Cell :=
  match size ← allocCheckOverflow sizeof_cell (Grower.bufSize g); allocate memory size with
  | Ret _ =>
      let grown := buf t ++ replicate (Z.to_nat (Grower.bufSize g - Grower.bufSize (grower t))) zero_memory in
      match rehash (Grower.bufSize (grower t)) (with_grower g (with_buf grown t)) with
      | Ret t => (Ret tt, t)
      | Throw e => (Throw e, t)
      | UB => (UB, t)
      | OutOfFuel => (OutOfFuel, t)
      end
  | Throw e => (Throw e, t)
  | UB => (UB, t)
  | OutOfFuel => (OutOfFuel, t)
  end.

Lemma allocation_cases memory g : grower_shape g →
  (∃ e, (size ← allocCheckOverflow sizeof_cell (Grower.bufSize g); allocate memory size) = Throw e) ∨
  ((size ← allocCheckOverflow sizeof_cell (Grower.bufSize g); allocate memory size) = Ret tt ∧ grower_ok g).
Proof.
  intros Hg. unfold allocCheckOverflow, allocate. rewrite (bufSize_shape _ Hg). pose proof (shape_degree _ Hg) as Hd.
  destruct (Z.ltb_spec (2 ^ Grower.size_degree g * sizeof_cell) (2 ^ 64)) as [Hlt|]; cbn [mbind outcome_bind]; [|eauto].
  destruct (Z.leb_spec 0x8000000000000000 (2 ^ Grower.size_degree g * sizeof_cell)) as [|Hlt']; [eauto|].
  destruct (memory _); [eauto|]. right. split; [done|]. split; [|apply Hg|apply Hg].
  destruct (decide (Grower.size_degree g = 63)) as [E|]; [|lia]. rewrite E in Hlt'. zlia.
Qed.

Lemma grow_spec memory g t : table_wf t → grower_shape g → Grower.size_degree (grower t) < Grower.size_degree g →
  ∃ r t', grow memory g t = (r, t') ∧
    match r with
    | Ret _ => table_wf t' ∧ elements t' ≡ₚ elements t ∧ items (state t) (buf t') ≡ₚ items (state t) (buf t) ∧ grower t' = g ∧ state t' = state t
    | Throw _ => t' = t
    | _ => False
    end.
Proof.
  intros Ht Hg Hd. unfold grow. destruct (allocation_cases memory g Hg) as [(e & ->)|(-> & Hok)].
  { do 2 eexists. split; done. }
  pose proof (wf_grower _ Ht) as Hg0. pose proof (wf_length _ Ht) as Hlen. pose proof (bufSize_bounds _ Hg0) as Hb.
  pose proof (bufSize_power _ Hg0) as Hp0. pose proof (bufSize_power _ Hok) as Hp1. pose proof (degree_range _ Hg0) as Hd0.
  set (k := Grower.size_degree g - Grower.size_degree (grower t)) in *.
  assert (Grower.bufSize g = 2 ^ k * Grower.bufSize (grower t)) as Hk.
  { rewrite Hp0, Hp1, <- Z.pow_add_r by lia. f_equal. lia. }
  assert (2 ^ 1 ≤ 2 ^ k) as H2k by (apply Z.pow_le_mono_r; lia).
  destruct (rehash_spec hash good (buf t) (Grower.bufSize g)) with
    (t := with_grower g (with_buf (buf t ++ replicate (Z.to_nat (Grower.bufSize g - Grower.bufSize (grower t))) zero_memory) t))
    (k := Z.to_nat (Grower.bufSize g - Grower.bufSize (grower t))) as (b' & Hr & Hl & Hpr & Hit).
  - lia.
  - rewrite Hlen, Hk. nia.
  - rewrite Hlen, Hk. apply Z.divide_factor_r.
  - apply Ht.
  - apply Ht.
  - done.
  - done.
  - done.
  - rewrite Hlen. nia.
  - rewrite Hlen in Hr. rewrite Hr. do 2 eexists. split; [done|].
    assert (elements (with_buf b' (with_grower g (with_buf
      (buf t ++ replicate (Z.to_nat (Grower.bufSize g - Grower.bufSize (grower t))) zero_memory) t))) ≡ₚ elements t) as Hel.
    { unfold elements. simpl. simpl in Hit. by rewrite Hit. }
    split_and!; [|done|done|done|done]. split; simpl; try apply Ht; try done. rewrite (wf_size _ Ht). by rewrite Hel.
Qed.

Lemma increaseSize_shape g : grower_ok g →
  ∃ g', Grower.increaseSize g = Ret g' ∧ grower_shape g' ∧ Grower.size_degree g < Grower.size_degree g'.
Proof.
  intros Hg. pose proof (degree_range _ Hg). unfold Grower.increaseSize, Grower.max_size_degree.
  destruct (increaseSizeDegree_shape (if 23 <=? Grower.size_degree g then 1 else 2) g) as (g' & -> & Hs & Hd); [zcases; lia|zcases; lia|].
  eexists. split_and!; [done|done|]. rewrite Hd. zcases; lia.
Qed.

(** When the table has become too full. *)
Lemma resize_grows memory t : table_wf t →
  ∃ r t', resize memory 0 0 t = (r, t') ∧
    match r with
    | Ret _ => table_ok t' ∧ elements t' ≡ₚ elements t ∧ state t' = state t
    | Throw _ => t' = t
    | _ => False
    end.
Proof.
  intros Ht. destruct (increaseSize_shape (grower t) (wf_grower _ Ht)) as (g & Hg & Hs & Hd).
  assert (resize memory 0 0 t = grow memory g t) as ->.
  { unfold HashTable.resize, grow, new_grower. simpl. rewrite Hg. done. }
  destruct (grow_spec memory g t Ht Hs Hd) as (r & t' & -> & Hr). do 2 eexists. split; [done|]. destruct r; try done.
  destruct Hr as (Ht' & He & Hsz & Hgr & Hst). split_and!; [|done|done]. split; [done|]. rewrite Hst, Hsz, Hgr.
  pose proof (wf_grower _ Ht) as Hg0. rewrite (shape_max_fill _ Hs). pose proof (items_length_le (state t) (buf t)) as Hm.
  pose proof (wf_length _ Ht) as Hl. rewrite (bufSize_power _ Hg0) in Hl. pose proof (degree_range _ Hg0).
  assert (2 ^ Grower.size_degree (grower t) ≤ 2 ^ (Grower.size_degree g - 1)) by (apply Z.pow_le_mono_r; lia). lia.
Qed.

(** [reserve]: afterwards as many elements fit in. *)
Lemma reserve_spec memory n t : table_ok t → 1 ≤ n ≤ 2 ^ 60 →
  ∃ r t', reserve lib initial_size_degree sizeof_cell memory n t = (r, t') ∧
    match r with
    | Ret _ => table_ok t' ∧ elements t' ≡ₚ elements t ∧ state t' = state t ∧ n ≤ Grower.precalculated_max_fill (grower t')
    | Throw _ => t' = t
    | _ => False
    end.
Proof.
  intros [Ht Hf] Hn. destruct (set_shape n (grower t) ltac:(lia)) as (g & Hg & Hs & Hfill). pose proof (wf_grower _ Ht) as Hg0.
  pose proof (bufSize_shape _ Hs) as Hb1. pose proof (bufSize_power _ Hg0) as Hb0. pose proof (degree_range _ Hg0) as Hd0. pose proof (shape_degree _ Hs) as Hd1.
  unfold reserve. destruct (Z.leb_spec (Grower.bufSize g) (Grower.bufSize (grower t))) as [Hle|Hgt].
  - do 2 eexists. split.
    { unfold HashTable.resize, new_grower. destruct (Z.eqb_spec n 0); [lia|]. simpl. rewrite Hg. cbn [mbind outcome_bind].
      destruct (Z.leb_spec (Grower.bufSize g) (Grower.bufSize (grower t))); [done|lia]. }
    simpl. split_and!; [by split|done|done|]. rewrite (max_fill_value _ Hg0). rewrite (shape_max_fill _ Hs) in Hfill.
    etrans; [exact Hfill|]. apply Z.pow_le_mono_r; [lia|]. rewrite Hb0, Hb1 in Hle. apply Z.pow_le_mono_r_iff in Hle; lia.
  - assert (HashTable.resize lib initial_size_degree sizeof_cell memory n 0 t = grow memory g t) as ->.
    { unfold HashTable.resize, grow, new_grower. destruct (Z.eqb_spec n 0); [lia|]. simpl. rewrite Hg. cbn [mbind outcome_bind].
      destruct (Z.leb_spec (Grower.bufSize g) (Grower.bufSize (grower t))); [lia|done]. }
    rewrite Hb0, Hb1 in Hgt. apply Z.pow_lt_mono_r_iff in Hgt; [|lia|lia].
    destruct (grow_spec memory g t Ht Hs Hgt) as (r & t' & -> & Hr). do 2 eexists. split; [done|]. destruct r; try done.
    destruct Hr as (Ht' & He & Hsz & Hgr & Hst). split_and!; [|done|done|by rewrite Hgr]. split; [done|]. rewrite Hst, Hsz, Hgr.
    rewrite (max_fill_value _ Hg0) in Hf. rewrite (shape_max_fill _ Hs).
    assert (2 ^ (Grower.size_degree (grower t) - 1) ≤ 2 ^ (Grower.size_degree g - 1)) by (apply Z.pow_le_mono_r; lia). lia.
Qed.

(** * Finding and inserting *)

(** The search for a key that is not the zero key. *)
Lemma findCell_element t x : table_ok t → key_isZero x (state t) = false →
  ∃ r, findCell t x (hash x) (Grower.place (grower t) (hash x)) = Ret r ∧
    ((∃ c, item (state t) (buf t) r c ∧ getKey c = x) ∨
     (vacant (state t) (buf t) r ∧ (∀ c, c ∈ elements t → getKey c ≠ x) ∧
      ∀ q, path (Z.of_nat (length (buf t))) (hash x mod Z.of_nat (length (buf t))) q r → occupied (state t) (buf t) q)).
Proof.
  intros Hok Hx. pose proof Hok as [Ht _].
  destruct (findCell_key hash good t x (wf_grower _ Ht) (wf_length _ Ht) (wf_probing _ Ht) (ok_vacant t Hok)) as (r & Hr & Hcase).
  exists r. split; [done|]. destruct Hcase as [?|(Hv & Hno & Hp)]; [by left|]. right. split_and!; [done| |done].
  intros c Hc <-. unfold elements in Hc. apply elem_of_app in Hc as [Hc|(p & Hi)%items_elem]; [|by eapply Hno].
  destruct (has_zero t) eqn:Hz; [|by apply not_elem_of_nil in Hc]. apply list_elem_of_singleton in Hc as ->.
  pose proof (wf_zero _ Ht (wf_has_zero _ Ht Hz)). congruence.
Qed.

Lemma zero_element t x c : table_wf t → key_isZero x (state t) = true → c ∈ elements t → getKey c = x → has_zero t = true ∧ c = zero_value t.
Proof.
  intros Ht Hx Hc <-. unfold elements in Hc. apply elem_of_app in Hc as [Hc|(p & [_ Hi])%items_elem].
  - destruct (has_zero t); [|by apply not_elem_of_nil in Hc]. by apply list_elem_of_singleton in Hc.
  - pose proof (occupied_key c (state t) Hi). congruence.
Qed.

Lemma find_spec t x : table_ok t →
  ∃ r, find x (hash x) t = Ret r ∧
    match r with
    | Some p => ∃ c, points t p c ∧ getKey c = x
    | None => ∀ c, c ∈ elements t → getKey c ≠ x
    end.
Proof.
  intros Hok. pose proof Hok as [Ht _]. unfold find. destruct (key_isZero x (state t)) eqn:Hx.
  - eexists. split; [done|]. destruct (has_zero t) eqn:Hz.
    + exists (zero_value t). split; [done|]. eapply zero_key_unique; [|exact Hx]. apply (wf_zero _ Ht). by apply (wf_has_zero _ Ht).
    + intros c Hc Hk. destruct (zero_element t x c Ht Hx Hc Hk). congruence.
  - destruct (findCell_element t x Hok Hx) as (r & -> & Hcase). cbn [mbind outcome_bind]. destruct Hcase as [(c & Hi & Hk)|(Hv & Hno & _)].
    + rewrite (cell_at_pos _ _ _ (proj1 Hi)). cbn [mbind outcome_bind]. rewrite (proj2 Hi). eexists. split; [done|]. simpl. eauto.
    + destruct Hv as (c & Hc & Hz). rewrite (cell_at_pos _ _ _ Hc). cbn [mbind outcome_bind]. rewrite Hz. eexists. split; done.
Qed.

Lemma has_spec t x : table_ok t → ∃ b, has x (hash x) t = Ret b ∧ (b = true ↔ ∃ c, c ∈ elements t ∧ getKey c = x).
Proof.
  intros Hok. destruct (find_spec t x Hok) as (r & Hf & Hr). exists (match r with Some _ => true | None => false end). split.
  - unfold find in Hf. unfold has. destruct (key_isZero x (state t)); [injection Hf as <-; by destruct (has_zero t)|].
    destruct (findCell t x (hash x) (Grower.place (grower t) (hash x))) as [p| | |]; try done. cbn [mbind outcome_bind] in *.
    destruct (cell_at (buf t) p) as [c| | |]; try done. cbn [mbind outcome_bind] in *. injection Hf as <-. by destruct (cell_isZero c (state t)).
  - destruct r as [p|].
    + destruct Hr as (c & Hp & Hk). split; [|done]. intros _. exists c. split; [by eapply points_element|done].
    + split; [done|]. intros (c & Hc & Hk). exfalso. by eapply Hr.
Qed.

(** A new cell in the vacant cell that the search for its key ends at. *)
Lemma put_new t x r : table_ok t → key_isZero x (state t) = false → vacant (state t) (buf t) r →
  (∀ c, c ∈ elements t → getKey c ≠ x) →
  (∀ q, path (Z.of_nat (length (buf t))) (hash x mod Z.of_nat (length (buf t))) q r → occupied (state t) (buf t) q) →
  ∀ old, let c := setHash (hash x) (construct x (state t) old) in
  let t' := with_size (m_size t + 1) (put_cell r c t) in
  table_wf t' ∧ elements t' ≡ₚ c :: elements t ∧ item (state t) (buf t') r c.
Proof.
  intros [Ht Hf] Hx Hv Hno Hpath old c t'. pose proof (vacant_range _ _ _ Hv) as Hr.
  assert (cell_isZero c (state t) = false) as Hz by (unfold c; by rewrite (constructed_isZero x)).
  assert (getKey c = x) as Hk by apply constructed_key. assert (getHash c = hash (getKey c)) as Hh by (rewrite Hk; apply constructed_hash).
  assert (elements t' ≡ₚ c :: elements t) as Hel.
  { unfold elements. simpl. fold (put (buf t) r c). rewrite (items_put_vacant _ _ _ _ Hv Hz). by rewrite <- Permutation_middle. }
  split_and!; [|done|].
  - split; simpl; try apply Ht.
    + rewrite length_insert. apply Ht.
    + apply probing_insert; [apply Ht|done|done|done| |].
      * intros p d Hd. rewrite Hk. apply Hno. unfold elements. apply elem_of_app. right. apply items_elem. eauto.
      * unfold home. rewrite Hh, Hk. done.
    + rewrite Hel. simpl. rewrite (wf_size _ Ht). lia.
  - split; [|done]. by apply at_pos_put_eq.
Qed.

(** A vacant cell may be overwritten by another one. *)
Lemma put_vacant t r z : table_ok t → vacant (state t) (buf t) r → cell_isZero z (state t) = true →
  table_ok (put_cell r z t) ∧ elements (put_cell r z t) ≡ₚ elements t.
Proof.
  intros [Ht Hf] Hv Hz. pose proof (vacant_range _ _ _ Hv) as Hr.
  assert (∀ p c, item (state t) (put (buf t) r z) p c ↔ item (state t) (buf t) p c) as Hi.
  { intros p c. rewrite item_put by done. split; [intros [(_ & _ & ?)|[_ ?]]; [congruence|done]|]. intros Hc. right. split; [|done].
    intros ->. eapply occupied_not_vacant; [by exists c|done]. }
  assert (items (state t) (put (buf t) r z) ≡ₚ items (state t) (buf t)) as Hit.
  { destruct Hv as (d & Hd & Hdz). pose proof (items_put (state t) (buf t) r d z Hd) as H. unfold item_list in H.
    by rewrite Hdz, Hz, !app_nil_r in H. }
  assert (elements (put_cell r z t) ≡ₚ elements t) as Hel by (unfold elements; simpl; by rewrite Hit).
  split; [|done]. split.
  - split; simpl; try apply Ht.
    + rewrite length_insert. apply Ht.
    + pose proof (wf_probing _ Ht) as [H1 H2 H3]. fold (put (buf t) r z). split.
      * intros p c. rewrite Hi. apply H1.
      * intros p c q. rewrite length_put, Hi. intros Hc Hq. destruct (H2 p c q Hc Hq) as (d & Hd). exists d. by apply Hi.
      * intros p c p' c'. rewrite !Hi. apply H3.
    + rewrite Hel. apply Ht.
  - simpl. fold (put (buf t) r z). by rewrite Hit.
Qed.

Lemma element_unique t c c' : table_wf t → c ∈ elements t → c' ∈ elements t → getKey c = getKey c' → c = c'.
Proof.
  intros Ht Hc Hc' Hk. pose proof (elements_keys t Ht) as Hnd. apply list_elem_of_lookup in Hc as [i Hi]. apply list_elem_of_lookup in Hc' as [j Hj].
  assert (i = j) as ->; [|congruence]. eapply NoDup_lookup; [exact Hnd| |]; rewrite list_lookup_fmap, ?Hi, ?Hj; simpl; by f_equal.
Qed.

(** What [emplace] may do. When it throws the table was as full as it may be. *)
Definition emplaced t x (r : outcome (pointer * bool)) t' : Prop :=
  state t' = state t ∧
  match r with
  | Ret (p, false) => t' = t ∧ ∃ c, points t p c ∧ getKey c = x
  | Ret (p, true) => table_ok t' ∧ (∀ c, c ∈ elements t → getKey c ≠ x) ∧
      (m_size t < Grower.precalculated_max_fill (grower t) → grower t' = grower t) ∧
      ∃ c, points t' p c ∧ getKey c = x ∧ elements t' ≡ₚ c :: elements t
  | Throw _ => table_ok t' ∧ elements t' ≡ₚ elements t ∧ grower t' = grower t ∧ m_size t' = m_size t ∧
      Grower.precalculated_max_fill (grower t) ≤ m_size t ∧ (∀ c, c ∈ elements t → getKey c ≠ x)
  | _ => False
  end.

Lemma emplaceIfZero_zero t x : table_ok t → key_isZero x (state t) = true →
  ∃ p b t', emplaceIfZero x (hash x) t = (Some (p, b), t') ∧ emplaced t x (Ret (p, b)) t'.
Proof.
  intros [Ht Hf] Hx. unfold emplaceIfZero. destruct need_zero_value_storage eqn:Hn; simpl.
  2: { pose proof (no_zero_storage x (state t) Hn). congruence. }
  rewrite Hx. pose proof (wf_zero _ Ht Hn) as Hz. destruct (has_zero t) eqn:Hh.
  - do 3 eexists. split; [done|]. split; [done|]. split; [done|]. exists (zero_value t). split; [done|]. by eapply zero_key_unique.
  - do 3 eexists. split; [done|]. split; [done|]. simpl. set (c := setHash (hash x) (construct_default (zero_value t))).
    assert (key_isZero (getKey c) (state t) = true) as Hc by by apply construct_default_key.
    split_and!.
    + split; [|done]. split; simpl; try apply Ht; try done. unfold elements. simpl. rewrite (wf_size _ Ht). unfold elements. rewrite Hh. simpl. lia.
    + intros d Hd Hk. destruct (zero_element t x d Ht Hx Hd Hk). congruence.
    + done.
    + exists c. split; [done|]. split; [by apply (zero_key_unique _ _ (state t))|]. unfold elements. simpl. by rewrite Hh.
Qed.

Lemma emplaceNonZero_spec memory t x : table_ok t → key_isZero x (state t) = false →
  ∃ r t', emplaceNonZero lib initial_size_degree sizeof_cell memory x (hash x) t = (r, t') ∧ emplaced t x r t'.
Proof.
  intros Hok Hx. pose proof Hok as [Ht Hf]. unfold emplaceNonZero.
  destruct (findCell_element t x Hok Hx) as (r & -> & [(c & Hi & Hk)|(Hv & Hno & Hpath)]).
  { unfold emplaceNonZeroImpl. rewrite (cell_at_pos _ _ _ (proj1 Hi)), (proj2 Hi). simpl. do 2 eexists. split; [done|]. split; [done|]. split; [done|].
    exists c. split; done. }
  pose proof Hv as (c0 & Hc0 & Hz0). unfold emplaceNonZeroImpl. rewrite (cell_at_pos _ _ _ Hc0), Hz0. cbn [negb]. cbv zeta.
  set (c := setHash (hash x) (construct x (state t) c0)).
  destruct (put_new t x r Hok Hx Hv Hno Hpath c0) as (Ht1 & He1 & Hi1). fold c in Ht1, He1, Hi1.
  set (t1 := with_size (m_size t + 1) (put_cell r c t)) in *. assert (getKey c = x) as Hk by apply constructed_key.
  change (with_size (m_size (put_cell r c t) + 1) (put_cell r c t)) with t1.
  destruct (Grower.overflow (grower t1) (m_size t1)) eqn:Hov; unfold Grower.overflow in Hov; simpl in Hov.
  2: { do 2 eexists. split; [done|]. split; [done|]. apply Z.ltb_ge in Hov. split_and!; [|done|done|].
       - split; [done|]. pose proof (items_size t1 Ht1). simpl in *. lia.
       - exists c. done. }
  apply Z.ltb_lt in Hov. destruct (resize_grows memory t1 Ht1) as (o & t2 & -> & Ho). destruct o as [[]|e| |]; try done.
  - destruct Ho as (Hok2 & He2 & Hst2). simpl in Hst2.
    destruct (findCell_element t2 x Hok2) as (r2 & -> & [(d & Hd & Hdk)|(_ & Hno2 & _)]); [by rewrite Hst2| |].
    + do 2 eexists. split; [done|]. split; [done|]. split_and!; [done|done|lia|]. exists d. split_and!; [done|done|].
      rewrite He2, He1. assert (d = c) as ->; [|done]. apply (element_unique t2); [apply Hok2| | |congruence].
      * by eapply (points_element t2 (ToCell r2)).
      * rewrite He2, He1. set_solver.
    + exfalso. apply (Hno2 c); [|done]. rewrite He2, He1. set_solver.
  - subst t2. rewrite (cell_at_pos (buf (with_size (m_size t1 - 1) t1)) r c) by apply Hi1. do 2 eexists. split; [done|].
    assert (put_cell r (setZero c) (with_size (m_size t1 - 1) t1) = put_cell r (setZero c) t) as ->.
    { unfold t1, put_cell, with_size, with_buf. simpl. f_equal; [lia|]. apply list_insert_insert_eq. }
    destruct (put_vacant t r (setZero c) Hok Hv) as [Hok2 He2]; [apply setZero_isZero; apply Ht|].
    split; [done|]. split_and!; [done|done|done|done|lia|done].
Qed.

Lemma emplace_spec memory t x : table_ok t →
  ∃ r t', emplace memory x (hash x) t = (r, t') ∧ emplaced t x r t'.
Proof.
  intros Hok. unfold HashTable.emplace. destruct (key_isZero x (state t)) eqn:Hx.
  - destruct (emplaceIfZero_zero t x Hok Hx) as (p & b & t' & -> & H). eauto.
  - assert (emplaceIfZero x (hash x) t = (None, t)) as ->.
    { unfold emplaceIfZero. rewrite Hx. by destruct need_zero_value_storage. }
    by apply emplaceNonZero_spec.
Qed.

(** ** Writing through a pointer *)

(** A change of the mapped value of an element. *)
Lemma assign_spec t p c v : table_ok t → points t p c →
  ∃ t' rest, assign p (setMapped v) t = (Ret tt, t') ∧ table_ok t' ∧ state t' = state t ∧ points t' p (setMapped v c) ∧
    elements t ≡ₚ c :: rest ∧ elements t' ≡ₚ setMapped v c :: rest.
Proof.
  intros [Ht Hf] Hp. destruct p as [|pos]; simpl in *.
  - destruct Hp as [Hh ->]. do 2 eexists. split; [done|].
    assert (elements t = zero_value t :: items (state t) (buf t)) as He by (unfold elements; by rewrite Hh).
    split; [|split; [done|split; [done|split; [by rewrite He|unfold elements; simpl; by rewrite Hh]]]].
    split; [|done]. split; simpl; try apply Ht.
    + intros Hn. rewrite setMapped_key. by apply Ht.
    + rewrite (wf_size _ Ht), He. unfold elements. simpl. by rewrite Hh.
  - pose proof Hp as [Hc Hz]. rewrite (cell_at_pos _ _ _ Hc). pose proof (at_pos_range _ _ _ Hc) as Hr.
    set (d := setMapped v c). assert (cell_isZero d (state t) = false) as Hdz by (unfold d; by rewrite setMapped_isZero).
    set (b' := put (buf t) pos d).
    assert (∀ q, occupied (state t) b' q ↔ occupied (state t) (buf t) q) as Hocc.
    { intros q. unfold b'. rewrite occupied_put by done. destruct (decide (q = pos)) as [->|]; [|naive_solver].
      split; [intros _; by exists c|auto]. }
    (* the list of items with the cell replaced *)
    assert (∃ l1 l2, items (state t) (buf t) = l1 ++ c :: l2 ∧ items (state t) b' = l1 ++ d :: l2) as (l1 & l2 & Hl & Hl').
    { destruct Hc as [Hp0 Hc]. pose proof (take_drop_middle (buf t) (Z.to_nat pos) c Hc) as Hb. unfold b', put.
      exists (items (state t) (take (Z.to_nat pos) (buf t))), (items (state t) (drop (S (Z.to_nat pos)) (buf t))). split.
      - rewrite <- Hb at 1. rewrite cell_items_app, cell_items_cons. unfold item_list. by rewrite Hz.
      - rewrite insert_take_drop by (by eapply lookup_lt_Some). rewrite cell_items_app, cell_items_cons. unfold item_list. by rewrite Hdz. }
    exists (put_cell pos d t), ((if has_zero t then [zero_value t] else []) ++ l1 ++ l2). split; [done|]. split; [|split; [done|split; [|split]]].
    + assert (elements (put_cell pos d t) = (if has_zero t then [zero_value t] else []) ++ l1 ++ d :: l2) as He.
      { unfold elements. simpl. fold (put (buf t) pos d). fold b'. by rewrite Hl'. }
      split; [split; simpl; try apply Ht|].
      * rewrite length_insert. apply Ht.
      * fold (put (buf t) pos d). fold b'. pose proof (wf_probing _ Ht) as [H1 H2 H3]. split.
        -- intros p e. unfold b'. rewrite item_put by done. intros [(-> & -> & _)|[_ He']]; [|by eapply H1].
           unfold d. rewrite setMapped_hash, setMapped_key. by eapply H1.
        -- intros p e q. rewrite Hocc. unfold b'. rewrite length_put, item_put by done.
           intros [(-> & -> & _)|[_ He']] Hq; [|by eapply H2]. eapply (H2 pos c); [done|]. unfold home, d in *. by rewrite setMapped_hash in Hq.
        -- intros p e p' e'. unfold b'. rewrite !item_put by done.
           assert (getKey d = getKey c) as Hk by (unfold d; by rewrite setMapped_key).
           intros [(-> & -> & _)|[Hne He']] [(-> & -> & _)|[Hne' He'']] Heq; [done| | |by eapply H3]; rewrite Hk in Heq.
           ++ by eapply H3.
           ++ by eapply H3.
      * rewrite He. rewrite (wf_size _ Ht). unfold elements. rewrite Hl, !length_app. simpl. lia.
      * simpl. fold (put (buf t) pos d). fold b'. rewrite Hl', length_app. rewrite Hl, length_app in Hf. done.
    + split; [|done]. by apply at_pos_put_eq.
    + unfold elements. rewrite Hl. solve_Permutation.
    + unfold elements. simpl. fold (put (buf t) pos d). fold b'. rewrite Hl'. solve_Permutation.
Qed.

(** ** Removal *)

Lemma erase_spec t x : table_ok t →
  ∃ b t', erase x (hash x) t = (Ret b, t') ∧ table_ok t' ∧ state t' = state t ∧
    if b : bool then ∃ c, getKey c = x ∧ elements t ≡ₚ c :: elements t'
    else t' = t ∧ ∀ c, c ∈ elements t → getKey c ≠ x.
Proof.
  intros Hok. pose proof Hok as [Ht Hf]. unfold erase. destruct (key_isZero x (state t)) eqn:Hx.
  - destruct (has_zero t) eqn:Hh.
    + do 2 eexists. split; [done|]. split_and!; [|done|].
      * split; [|done]. split; simpl; try apply Ht; try done. rewrite (wf_size _ Ht). unfold elements. rewrite Hh. simpl. lia.
      * exists (zero_value t). split; [|unfold elements; simpl; by rewrite Hh].
        apply (zero_key_unique _ _ (state t)); [|done]. apply (wf_zero _ Ht). by apply (wf_has_zero _ Ht).
    + do 2 eexists. split; [done|]. split_and!; [done|done|done|]. intros c Hc Hk. destruct (zero_element t x c Ht Hx Hc Hk). congruence.
  - destruct (findCell_element t x Hok Hx) as (r & -> & [(c & Hi & Hk)|(Hv & Hno & _)]).
    2: { destruct Hv as (c & Hc & Hz). rewrite (cell_at_pos _ _ _ Hc), Hz. do 2 eexists. split; [done|]. by split_and!. }
    rewrite (cell_at_pos _ _ _ (proj1 Hi)), (proj2 Hi). destruct (ok_vacant t Hok) as (v & Hv).
    assert (∀ z, cell_isZero z (state t) = true → ∃ e' b', erase_loop (length (buf t)) r r t = Ret (e', with_buf b' t) ∧
      length b' = length (buf t) ∧ occupied (state t) b' e' ∧ probing hash (state t) (put b' e' z) ∧
      items (state t) (put b' e' z) ≡ₚ items (state t) (put (buf t) r z)) as Hloop.
    { intros z Hz. eapply (erase_loop_spec hash good z _ t r r v); [apply Ht|apply Ht|apply Ht|done| |done|].
      - apply erasing_start; [apply Ht|by exists c].
      - pose proof (vacant_range _ _ _ Hv) as Hrv. pose proof (item_range _ _ _ _ Hi) as Hri.
        pose proof (distance_bounds _ r v Hri Hrv). lia. }
    destruct (Hloop (setZero c)) as (e & b' & He & Hl & Ho & _); [apply setZero_isZero; apply Ht|]. rewrite He. cbn [mbind outcome_bind].
    destruct Ho as (d & Hd). rewrite (cell_at_pos (buf (with_buf b' t)) e d) by apply Hd. cbn [mbind outcome_bind].
    destruct (Hloop (setZero d)) as (e2 & b2 & He2 & _ & _ & Hpr & Hit); [apply setZero_isZero; apply Ht|].
    assert (e2 = e ∧ b2 = b') as [-> ->]. { rewrite He in He2. injection He2 as <- Hb. done. }
    set (t' := with_size (m_size (with_buf b' t) - 1) (put_cell e (setZero d) (with_buf b' t))).
    assert (items (state t) (buf t) ≡ₚ c :: items (state t) (buf t')) as Hitems.
    { rewrite (items_put_occupied _ _ _ _ (setZero d) Hi) by (apply setZero_isZero; apply Ht). constructor. symmetry. exact Hit. }
    assert (elements t ≡ₚ c :: elements t') as Hel by (unfold elements; rewrite Hitems; simpl; solve_Permutation).
    exists true, t'. split; [done|]. split_and!; [|done|exists c; done]. split.
    + split; simpl; try apply Ht.
      * rewrite length_insert, Hl. apply Ht.
      * exact Hpr.
      * rewrite (wf_size _ Ht), Hel. simpl. lia.
    + rewrite Hitems in Hf. simpl in *. lia.
Qed.

Lemma clear_spec t : table_ok t → table_ok (clear t) ∧ state (clear t) = state t ∧ elements (clear t) = [].
Proof.
  intros [Ht Hf]. pose proof (bufSize_bounds _ (wf_grower _ Ht)) as Hb. pose proof (zero_memory_isZero (state t) (wf_state _ Ht)) as Hz.
  assert (∀ n p c, ¬ item (state t) (replicate n zero_memory) p c) as Hno.
  { intros n p c [[_ [-> _]%lookup_replicate] Hcz]. congruence. }
  assert (elements (clear t) = []) as He by (unfold elements; simpl; by rewrite items_replicate).
  split_and!; [|done|done]. split.
  - split; simpl; try apply Ht; try done.
    + rewrite length_replicate. lia.
    + split; intros p c; intros; exfalso; by eapply Hno.
    + by rewrite He.
  - simpl. rewrite items_replicate by done. simpl. pose proof (bufSize_max_fill _ (wf_grower _ Ht)). lia.
Qed.

(** A new buffer for a table with no elements. *)
Lemma alloc_spec memory g t : grower_shape g → good (state t) → has_zero t = false → m_size t = 0 →
  (need_zero_value_storage = true → key_isZero (getKey (zero_value t)) (state t) = true) →
  ∃ r t', alloc sizeof_cell memory g t = (r, t') ∧
    match r with
    | Ret _ => table_ok t' ∧ state t' = state t ∧ elements t' = [] ∧ grower t' = g
    | Throw _ => t' = t
    | _ => False
    end.
Proof.
  intros Hg Hst Hh Hm0 Hzk. unfold alloc.
  destruct (allocation_cases memory g Hg) as [(e & ->)|(-> & Hok)]; do 2 eexists; (split; [done|]); [done|].
  pose proof (bufSize_bounds _ Hok) as Hb. pose proof (bufSize_max_fill _ Hok) as Hm.
  pose proof (zero_memory_isZero (state t) Hst) as Hz.
  assert (∀ n p c, ¬ item (state t) (replicate n zero_memory) p c) as Hno.
  { intros n p c [[_ [-> _]%lookup_replicate] Hcz]. congruence. }
  set (t1 := with_grower g _). assert (elements t1 = []) as He.
  { unfold elements, t1. simpl. rewrite Hh, items_replicate by done. done. }
  split_and!; [|done|done|done]. split; [split; simpl|]; try done.
  - rewrite length_replicate. lia.
  - split; intros p c; intros; exfalso; by eapply Hno.
  - by rewrite Hh.
  - by rewrite He, Hm0.
  - change (Z.of_nat (length (items (state t) (replicate (Z.to_nat (Grower.bufSize g)) zero_memory))) ≤ Grower.precalculated_max_fill g).
    rewrite items_replicate by done. cbn [length]. lia.
Qed.

Lemma create_spec memory st old : good st →
  ∃ r t, create_default initial_size_degree sizeof_cell memory st old = (r, t) ∧
    match r with Ret _ => table_ok t ∧ state t = st ∧ elements t = [] | Throw _ => True | _ => False end.
Proof.
  intros Hst. unfold create_default, create. set (g := Grower.initial initial_size_degree).
  assert (grower_shape g) as Hg. { split; simpl; [lia| |]; rewrite Z.shiftl_mul_pow2 by lia; lia. }
  set (t0 := if need_zero_value_storage then _ else _).
  assert (state t0 = st ∧ has_zero t0 = false ∧ m_size t0 = 0 ∧
    (need_zero_value_storage = true → key_isZero (getKey (zero_value t0)) st = true)) as (H1 & H2 & H3 & H4).
  { unfold t0. destruct need_zero_value_storage eqn:Hn; simpl; split_and!; try done. intros _. by apply setZero_key. }
  destruct (alloc_spec memory g t0) as (r & t & -> & Hr); rewrite ?H1; try done. do 2 eexists. split; [done|].
  destruct r; try done. destruct Hr as (Hok & Hs & He & _). split_and!; [done|congruence|done].
Qed.

(** * Iteration *)

Section iteration.
Context t (Hok : table_ok t).
Let b := buf t.
Let st := state t.
Let M := Grower.bufSize (grower t).

Lemma table_length : Z.of_nat (length b) = M.
Proof. apply Hok. Qed.

Lemma items_drop p c : at_pos b p c → items st (drop (Z.to_nat p) b) = item_list st c ++ items st (drop (Z.to_nat (p + 1)) b).
Proof.
  intros [Hp Hc]. rewrite (drop_S _ _ _ Hc), cell_items_cons. do 3 f_equal. lia.
Qed.

Lemma skip_empty_spec : ∀ fuel p, 0 ≤ p ≤ M → M - p ≤ Z.of_nat fuel →
  ∃ q, skip_empty fuel t p = Ret q ∧ p ≤ q ≤ M ∧ (q < M → occupied st b q) ∧ items st (drop (Z.to_nat p) b) = items st (drop (Z.to_nat q) b).
Proof.
  pose proof table_length as Hlen. induction fuel as [|fuel IH]; intros p Hp Hfuel; simpl; fold M.
  - destruct (Z.ltb_spec p M); [lia|]. exists p. split_and!; [done|lia|lia|lia|done].
  - destruct (Z.ltb_spec p M) as [Hlt|]; [|exists p; split_and!; [done|lia|lia|lia|done]].
    destruct (at_pos_exists b p) as (c & Hc); [unfold in_range; lia|]. fold b st. rewrite (cell_at_pos _ _ _ Hc). cbn [mbind outcome_bind].
    destruct (cell_isZero c st) eqn:Hz.
    + destruct (IH (p + 1)) as (q & -> & Hq & Ho & Hi); [lia|lia|]. exists q. split_and!; [done|lia|lia|done|].
      rewrite (items_drop p c Hc). unfold item_list. rewrite Hz. done.
    + exists p. split_and!; [done|lia|lia| |done]. intros _. by exists c.
Qed.

Lemma end_bufSize : end_ t = ToCell M.
Proof.
  unfold end_. pose proof table_length as Hlen. pose proof (bufSize_bounds _ (wf_grower _ (ok_wf _ Hok))) as Hb. fold M in Hb. unfold b in Hlen.
  destruct (buf t) as [|c l]; [simpl in Hlen; lia|done].
Qed.

Lemma iterate_cells : ∀ n q, 0 ≤ q ≤ M → (q < M → occupied st b q) → (length (items st (drop (Z.to_nat q) b)) ≤ n)%nat →
  iterate n (ToCell q) t = Ret (items st (drop (Z.to_nat q) b)).
Proof.
  pose proof table_length as Hlen.
  induction n as [|n IH]; intros q Hq Ho Hn; simpl; rewrite end_bufSize.
  - case_bool_decide as E; [injection E as ->; by rewrite drop_ge by lia|]. exfalso. destruct (Ho) as (c & Hc); [destruct (decide (q = M)); [congruence|lia]|].
    rewrite (items_drop q c (proj1 Hc)) in Hn. unfold item_list in Hn. rewrite (proj2 Hc) in Hn. simpl in Hn. lia.
  - case_bool_decide as E; [injection E as ->; by rewrite drop_ge by lia|].
    assert (q < M) as Hlt by (destruct (decide (q = M)); [congruence|lia]). destruct (Ho Hlt) as (c & Hc & Hz).
    pose proof (items_drop q c Hc) as Hd. unfold item_list in Hd. rewrite Hz in Hd. simpl in Hd.
    fold b. rewrite (cell_at_pos _ _ _ Hc). cbn [mbind outcome_bind]. unfold increment. simpl. fold b st. rewrite (cell_at_pos _ _ _ Hc). cbn [mbind outcome_bind].
    rewrite Hz. destruct (skip_empty_spec (length b) (q + 1)) as (q' & -> & Hq' & Ho' & Hi); [lia|lia|]. cbn [mbind outcome_bind].
    rewrite Hd, Hi in Hn. simpl in Hn. rewrite IH; [|lia|done|lia]. cbn [mbind outcome_bind]. by rewrite Hd, Hi.
Qed.

(** A loop over the table visits every element once: the zero key first, then the buffer from left to right. *)
Lemma iteration_spec : iteration t = Ret (elements t).
Proof.
  pose proof table_length as Hlen. pose proof (bufSize_bounds _ (wf_grower _ (ok_wf _ Hok))) as Hb. fold M in Hb.
  pose proof (items_length_le st b) as Hle. unfold iteration, begin, elements. fold b st. destruct b as [|c0 l] eqn:Hbuf; [simpl in Hlen; lia|].
  rewrite <- Hbuf in *. destruct (skip_empty_spec (length b) 0) as (q & Hs & Hq & Ho & Hi); [lia|lia|]. change (drop (Z.to_nat 0) b) with b in Hi.
  assert (iterate (length b) (ToCell q) t = Ret (items st b)) as Hit by (rewrite Hi; apply iterate_cells; [lia|done|rewrite <- Hi; lia]).
  destruct (has_zero t) eqn:Hh.
  - cbn [mbind outcome_bind iterate]. rewrite end_bufSize, bool_decide_false by done. simpl. unfold increment. simpl.
    assert (∀ s : bool, (if s then 0 else 0) = 0) as -> by by intros []. fold b. rewrite Hs. cbn [mbind outcome_bind]. by rewrite Hit.
  - rewrite Hs. cbn [mbind outcome_bind]. rewrite Hi. apply iterate_cells; [lia|done|]. rewrite <- Hi. lia.
Qed.
End iteration.

(** * The table as a finite map *)

Section map.
Context `{Countable Key} (default_mapped : Mapped).
Implicit Types m : gmap Key Mapped.

Definition entry c : Key * Mapped := (getKey c, getMapped c).

Definition represents t m : Prop := table_ok t ∧ entry <$> elements t ≡ₚ map_to_list m.

Lemma represents_lookup t m x v : represents t m → m !! x = Some v ↔ ∃ c, c ∈ elements t ∧ getKey c = x ∧ getMapped c = v.
Proof.
  intros [_ Hp]. rewrite <- elem_of_map_to_list, <- Hp, list_elem_of_fmap. unfold entry. split.
  - intros (c & [= -> ->] & Hc). eauto.
  - intros (c & Hc & <- & <-). eauto.
Qed.

Lemma represents_none t m x : represents t m → m !! x = None ↔ ∀ c, c ∈ elements t → getKey c ≠ x.
Proof.
  intros Hr. split.
  - intros Hn c Hc Hk. assert (m !! x = Some (getMapped c)) as Hs by (apply (represents_lookup t); eauto). congruence.
  - intros Hno. destruct (m !! x) as [v|] eqn:E; [|done]. apply (represents_lookup t) in E as (c & Hc & Hk & _); [|done]. exfalso. by eapply Hno.
Qed.

Lemma represents_points t m p c : represents t m → points t p c → m !! getKey c = Some (getMapped c).
Proof. intros Hr Hp. apply (represents_lookup t); [done|]. exists c. split; [exact (points_element t p c Hp)|done]. Qed.

Lemma represents_same t t' m : represents t m → table_ok t' → elements t' ≡ₚ elements t → represents t' m.
Proof. intros [_ Hp] Hok He. split; [done|]. by rewrite He. Qed.

Lemma represents_insert t t' m c : represents t m → table_ok t' → elements t' ≡ₚ c :: elements t →
  m !! getKey c = None → represents t' (<[getKey c := getMapped c]> m).
Proof. intros [_ Hp] Hok He Hn. split; [done|]. rewrite He, map_to_list_insert by done. rewrite <- Hp. done. Qed.

Lemma represents_delete t t' m c : represents t m → table_ok t' → elements t ≡ₚ c :: elements t' →
  represents t' (delete (getKey c) m).
Proof.
  intros Hr Hok He. split; [done|]. assert (m !! getKey c = Some (getMapped c)) as Hc.
  { apply (represents_lookup t); [done|]. exists c. split; [rewrite He; set_solver|done]. }
  destruct Hr as [_ Hp]. rewrite He in Hp. rewrite <- (map_to_list_delete m _ _ Hc) in Hp. by apply Permutation_cons_inv in Hp.
Qed.

Lemma represents_update t t' m c c' rest : represents t m → table_ok t' → elements t ≡ₚ c :: rest → elements t' ≡ₚ c' :: rest →
  getKey c' = getKey c → represents t' (<[getKey c := getMapped c']> m).
Proof.
  intros Hr Hok He He' Hk. split; [done|]. assert (m !! getKey c = Some (getMapped c)) as Hc.
  { apply (represents_lookup t); [done|]. exists c. split; [rewrite He; set_solver|done]. }
  destruct Hr as [_ Hp]. rewrite He in Hp. rewrite <- (map_to_list_delete m _ _ Hc) in Hp. apply Permutation_cons_inv in Hp.
  rewrite He'. rewrite <- insert_delete_eq. rewrite map_to_list_insert by apply lookup_delete_eq. simpl. unfold entry at 1. rewrite Hk. by rewrite Hp.
Qed.

Lemma represents_size t m : represents t m → m_size t = Z.of_nat (base.size m).
Proof. intros [[Ht _] Hp]. rewrite (wf_size _ Ht). rewrite <- (length_fmap entry), Hp, length_map_to_list. done. Qed.

(** ** Operations *)

Lemma assign_grower p f t : grower (assign p f t).2 = grower t.
Proof. destruct p as [|pos]; simpl; [done|]. by destruct (cell_at (buf t) pos). Qed.

Lemma insert_refines memory t m x v : represents t m →
  ∃ r t', insert hash lib initial_size_degree sizeof_cell memory x v t = (r, t') ∧ state t' = state t ∧
    match r with
    | Ret (p, inserted) => inserted = bool_decide (m !! x = None) ∧ (∃ c, points t' p c ∧ getKey c = x) ∧
        represents t' (if bool_decide (m !! x = None) then <[x := v]> m else m) ∧
        (m_size t < Grower.precalculated_max_fill (grower t) → grower t' = grower t)
    | Throw _ => represents t' m ∧ m !! x = None ∧ Grower.precalculated_max_fill (grower t) ≤ m_size t
    | _ => False
    end.
Proof.
  intros Hr. pose proof Hr as [Hok _]. unfold insert. destruct (emplace_spec memory t x Hok) as (r & t1 & -> & Hst & He).
  destruct r as [[p [|]]|e| |]; try done; cbn [then_].
  - destruct He as (Hok1 & Hno & Hgr & c & Hp & Hk & Hel). assert (m !! x = None) as Hn by by apply (represents_none t).
    pose proof (assign_grower p (setMapped v) t1) as Hga. destruct (assign_spec t1 p c v Hok1 Hp) as (t2 & rest & Ha & Hok2 & Hst2 & Hp2 & Hr1 & Hr2).
    rewrite Ha in *. cbn [then_ snd] in *.
    do 2 eexists. split; [done|]. split; [congruence|]. rewrite bool_decide_true by done. split_and!; [done| | |by rewrite Hga].
    + exists (setMapped v c). split; [done|]. by rewrite setMapped_key.
    + assert (rest ≡ₚ elements t) as Hrest. { rewrite Hel in Hr1. by apply Permutation_cons_inv in Hr1. }
      rewrite Hrest in Hr2. pose proof (represents_insert t t2 m (setMapped v c) Hr Hok2 Hr2) as Hi.
      rewrite setMapped_key, setMapped_mapped, Hk in Hi. by apply Hi.
  - destruct He as (-> & c & Hp & Hk). do 2 eexists. split; [done|]. split; [done|].
    assert (m !! x = Some (getMapped c)) as Hs by (rewrite <- Hk; by eapply represents_points).
    rewrite bool_decide_false by congruence. split_and!; [done|eauto|done|done].
  - destruct He as (Hok1 & Hel & _ & _ & Hfull & Hno). do 2 eexists. split; [done|]. split; [done|].
    split_and!; [by apply (represents_same t)|by apply (represents_none t)|done].
Qed.

Lemma find_refines t m x : represents t m →
  ∃ r, find x (hash x) t = Ret r ∧
    match r with
    | Some p => ∃ c, points t p c ∧ getKey c = x ∧ m !! x = Some (getMapped c)
    | None => m !! x = None
    end.
Proof.
  intros Hr. destruct (find_spec t x (proj1 Hr)) as ([p|] & -> & Hp); (eexists; split; [done|]).
  - destruct Hp as (c & Hp & Hk). exists c. split_and!; [done|done|]. rewrite <- Hk. by eapply represents_points.
  - by apply (represents_none t).
Qed.

Lemma erase_refines t m x : represents t m →
  ∃ b t', erase x (hash x) t = (Ret b, t') ∧ state t' = state t ∧ b = bool_decide (m !! x ≠ None) ∧ represents t' (delete x m).
Proof.
  intros Hr. destruct (erase_spec t x (proj1 Hr)) as (b & t' & -> & Hok & Hst & Hb). do 2 eexists. split; [done|]. split; [done|]. destruct b.
  - destruct Hb as (c & Hk & He). assert (m !! x = Some (getMapped c)) as Hs.
    { apply (represents_lookup t); [done|]. exists c. split; [rewrite He; set_solver|done]. }
    rewrite bool_decide_true by congruence. split; [done|]. rewrite <- Hk. by eapply represents_delete.
  - destruct Hb as (-> & Hno). assert (m !! x = None) as Hn by by apply (represents_none t).
    rewrite bool_decide_false by naive_solver. split; [done|]. by rewrite delete_id.
Qed.

Lemma assign_ext t p c f g : points t p c → f c = g c → assign p f t = assign p g t.
Proof.
  intros Hp Hfg. destruct p as [|pos]; simpl in *; [destruct Hp as [_ ->]; by rewrite Hfg|].
  rewrite (cell_at_pos _ _ _ (proj1 Hp)). by rewrite Hfg.
Qed.

(** [operator[]] and the assignment of a function of the value it refers to. *)
Lemma subscript_refines memory t m x f : represents t m →
  ∃ r t', subscript hash lib initial_size_degree sizeof_cell default_mapped memory x f t = (r, t') ∧ state t' = state t ∧
    match r with
    | Ret _ => represents t' (<[x := f (default default_mapped (m !! x))]> m)
    | Throw _ => represents t' m ∧ m !! x = None
    | _ => False
    end.
Proof.
  intros Hr. pose proof Hr as [Hok _]. unfold subscript. destruct (emplace_spec memory t x Hok) as (r & t1 & -> & Hst & He).
  destruct r as [[p [|]]|e| |]; try done; cbn [then_].
  - destruct He as (Hok1 & Hno & _ & c & Hp & Hk & Hel). assert (m !! x = None) as Hn by by apply (represents_none t).
    rewrite (assign_ext t1 p c _ (setMapped (f default_mapped)) Hp) by (by rewrite setMapped_mapped, setMapped_setMapped).
    destruct (assign_spec t1 p c (f default_mapped) Hok1 Hp) as (t2 & rest & -> & Hok2 & Hst2 & Hp2 & Hr1 & Hr2).
    do 2 eexists. split; [done|]. split; [congruence|]. rewrite Hn. simpl.
    assert (rest ≡ₚ elements t) as Hrest. { rewrite Hel in Hr1. by apply Permutation_cons_inv in Hr1. }
    rewrite Hrest in Hr2. pose proof (represents_insert t t2 m (setMapped (f default_mapped) c) Hr Hok2 Hr2) as Hi.
    rewrite setMapped_key, setMapped_mapped, Hk in Hi. by apply Hi.
  - destruct He as (-> & c & Hp & Hk). assert (m !! x = Some (getMapped c)) as Hs by (rewrite <- Hk; by eapply represents_points).
    rewrite (assign_ext t p c _ (setMapped (f (getMapped c))) Hp) by done.
    destruct (assign_spec t p c (f (getMapped c)) Hok Hp) as (t2 & rest & -> & Hok2 & Hst2 & Hp2 & Hr1 & Hr2).
    do 2 eexists. split; [done|]. split; [congruence|]. rewrite Hs. simpl.
    pose proof (represents_update t t2 m c (setMapped (f (getMapped c)) c) rest Hr Hok2 Hr1 Hr2) as Hu.
    rewrite setMapped_key, setMapped_mapped, Hk in Hu. by apply Hu.
  - destruct He as (Hok1 & Hel & _ & _ & _ & Hno). do 2 eexists. split; [done|]. split; [done|].
    split; [by apply (represents_same t)|by apply (represents_none t)].
Qed.

Lemma insertIfNotPresent_refines memory t m x v : represents t m →
  ∃ r t', insertIfNotPresent hash lib initial_size_degree sizeof_cell default_mapped memory x v t = (r, t') ∧ state t' = state t ∧
    match r with
    | Ret _ => represents t' (if bool_decide (m !! x = None) then <[x := v]> m else m)
    | Throw _ => represents t' m ∧ m !! x = None
    | _ => False
    end.
Proof.
  intros Hr. pose proof Hr as [Hok _]. unfold insertIfNotPresent. destruct (emplace_spec memory t x Hok) as (r & t1 & -> & Hst & He).
  destruct r as [[p [|]]|e| |]; try done; cbn [then_].
  - destruct He as (Hok1 & Hno & _ & c & Hp & Hk & Hel). assert (m !! x = None) as Hn by by apply (represents_none t).
    rewrite (assign_ext t1 p c _ (setMapped v) Hp) by (by rewrite setMapped_setMapped).
    destruct (assign_spec t1 p c v Hok1 Hp) as (t2 & rest & -> & Hok2 & Hst2 & Hp2 & Hr1 & Hr2).
    do 2 eexists. split; [done|]. split; [congruence|]. rewrite bool_decide_true by done.
    assert (rest ≡ₚ elements t) as Hrest. { rewrite Hel in Hr1. by apply Permutation_cons_inv in Hr1. }
    rewrite Hrest in Hr2. pose proof (represents_insert t t2 m (setMapped v c) Hr Hok2 Hr2) as Hi.
    rewrite setMapped_key, setMapped_mapped, Hk in Hi. by apply Hi.
  - destruct He as (-> & c & Hp & Hk). do 2 eexists. split; [done|]. split; [done|].
    assert (m !! x = Some (getMapped c)) as Hs by (rewrite <- Hk; by eapply represents_points).
    by rewrite bool_decide_false by congruence.
  - destruct He as (Hok1 & Hel & _ & _ & _ & Hno). do 2 eexists. split; [done|]. split; [done|].
    split; [by apply (represents_same t)|by apply (represents_none t)].
Qed.

Lemma at_refines t m x : represents t m → at_ hash x t = match m !! x with Some v => Ret v | None => Throw LOGICAL_ERROR end.
Proof.
  intros Hr. unfold at_. destruct (find_refines t m x Hr) as ([p|] & -> & Hp); cbn [mbind outcome_bind].
  - destruct Hp as (c & Hp & _ & ->). by rewrite (points_deref _ _ _ Hp).
  - by rewrite Hp.
Qed.

Lemma has_refines t m x : represents t m → has x (hash x) t = Ret (bool_decide (m !! x ≠ None)).
Proof.
  intros Hr. destruct (has_spec t x (proj1 Hr)) as (b & -> & Hb). f_equal. apply eq_iff_eq_true. rewrite Hb, bool_decide_eq_true. split.
  - intros (c & Hc & Hk) Hn. by eapply (represents_none t m x Hr).
  - intros Hs. destruct (m !! x) as [v|] eqn:E; [|done]. apply (represents_lookup t) in E as (c & Hc & Hk & _); eauto.
Qed.

Lemma iteration_refines t m : represents t m → ∃ cells, iteration t = Ret cells ∧ entry <$> cells ≡ₚ map_to_list m.
Proof. intros [Hok Hp]. exists (elements t). split; [by apply iteration_spec|done]. Qed.

(** ** Sequences of operations *)

Inductive op :=
| Insert (memory : memory_state) (x : Key) (v : Mapped)
| Subscript (memory : memory_state) (x : Key) (f : Mapped → Mapped)
| InsertIfNotPresent (memory : memory_state) (x : Key) (v : Mapped)
| Find (x : Key)
| At (x : Key)
| Has (x : Key)
| Erase (x : Key)
| Reserve (memory : memory_state) (num_elements : Z)
| Clear
| Size
| Iterate.

Inductive answer :=
| Done
| Bool (b : bool)
| Value (v : option Mapped)
| Count (n : Z)
| Entries (l : list (Key * Mapped))
| Thrown (e : ErrorCode)
| Undefined.

Definition answer_of {A} (r : outcome A) (f : A → answer) : answer :=
  match r with Ret a => f a | Throw e => Thrown e | UB | OutOfFuel => Undefined end.

Definition perform (o : op) t : answer * table State Cell :=
  match o with
  | Insert memory x v =>
      let '(r, t) := insert hash lib initial_size_degree sizeof_cell memory x v t in (answer_of r (λ '(_, inserted), Bool inserted), t)
  | Subscript memory x f =>
      let '(r, t) := subscript hash lib initial_size_degree sizeof_cell default_mapped memory x f t in (answer_of r (λ _, Done), t)
  | InsertIfNotPresent memory x v =>
      let '(r, t) := insertIfNotPresent hash lib initial_size_degree sizeof_cell default_mapped memory x v t in (answer_of r (λ _, Done), t)
  | Find x =>
      let r := it ← find x (hash x) t; match it with Some p => c ← deref p t; Ret (Some (getMapped c)) | None => Ret None end in
      (answer_of r Value, t)
  | At x => (answer_of (at_ hash x t) (λ v, Value (Some v)), t)
  | Has x => (answer_of (has x (hash x) t) Bool, t)
  | Erase x => let '(r, t) := erase x (hash x) t in (answer_of r Bool, t)
  | Reserve memory n => let '(r, t) := reserve lib initial_size_degree sizeof_cell memory n t in (answer_of r (λ _, Done), t)
  | Clear => (Done, clear t)
  | Size => (Count (size t), t)
  | Iterate => (answer_of (iteration t) (λ cells, Entries (entry <$> cells)), t)
  end.

(** What the operation does on a finite map: the answers and the new map. An operation that allocates
    may throw and then changes nothing, but only if it would have added an entry or made room. *)
Definition map_step (o : op) m (a : answer) m' : Prop :=
  match o, a with
  | Insert _ x v, Bool inserted => inserted = bool_decide (m !! x = None) ∧ m' = (if bool_decide (m !! x = None) then <[x := v]> m else m)
  | Insert _ x v, Thrown _ => m !! x = None ∧ m' = m
  | Subscript _ x f, Done => m' = <[x := f (default default_mapped (m !! x))]> m
  | Subscript _ x f, Thrown _ => m !! x = None ∧ m' = m
  | InsertIfNotPresent _ x v, Done => m' = (if bool_decide (m !! x = None) then <[x := v]> m else m)
  | InsertIfNotPresent _ x v, Thrown _ => m !! x = None ∧ m' = m
  | Find x, Value o => o = m !! x ∧ m' = m
  | At x, Value o => o = m !! x ∧ m !! x ≠ None ∧ m' = m
  | At x, Thrown e => e = LOGICAL_ERROR ∧ m !! x = None ∧ m' = m
  | Has x, Bool b => b = bool_decide (m !! x ≠ None) ∧ m' = m
  | Erase x, Bool b => b = bool_decide (m !! x ≠ None) ∧ m' = delete x m
  | Reserve _ _, Done => m' = m
  | Reserve _ _, Thrown _ => m' = m
  | Clear, Done => m' = ∅
  | Size, Count n => n = Z.of_nat (base.size m) ∧ m' = m
  | Iterate, Entries l => l ≡ₚ map_to_list m ∧ m' = m
  | _, _ => False
  end.

Fixpoint perform_all (ops : list op) t : list answer * table State Cell :=
  match ops with
  | [] => ([], t)
  | o :: ops => let '(a, t) := perform o t in let '(l, t) := perform_all ops t in (a :: l, t)
  end.

Fixpoint map_steps (ops : list op) m (answers : list answer) m' : Prop :=
  match ops, answers with
  | [], [] => m' = m
  | o :: ops, a :: answers => ∃ m1, map_step o m a m1 ∧ map_steps ops m1 answers m'
  | _, _ => False
  end.

(** Numbers of elements beyond 2^60 do not fit into memory; 0 is a request of [reserve] to grow. *)
Definition valid (o : op) : Prop := match o with Reserve _ n => 0 ≤ n ≤ 2 ^ 60 | _ => True end.

Lemma reserve_zero memory t : table_ok t →
  ∃ r t', reserve lib initial_size_degree sizeof_cell memory 0 t = (r, t') ∧
    match r with Ret _ => table_ok t' ∧ elements t' ≡ₚ elements t | Throw _ => t' = t | _ => False end.
Proof.
  intros [Ht _]. destruct (resize_grows memory t Ht) as (r & t' & Hr & Hcase). exists r, t'. split; [done|].
  destruct r; try done. by destruct Hcase as (? & ? & _).
Qed.

Lemma perform_refines o t m : represents t m → valid o →
  ∃ a t' m', perform o t = (a, t') ∧ represents t' m' ∧ map_step o m a m'.
Proof.
  intros Hr Hv. destruct o as [memory x v|memory x f|memory x v|x|x|x|x|memory n| | |]; simpl.
  - destruct (insert_refines memory t m x v Hr) as (r & t' & -> & _ & Hc). destruct r as [[p i]|e| |]; try done; do 3 eexists; (split; [done|]).
    + destruct Hc as (-> & _ & Hr' & _). split; [exact Hr'|done].
    + destruct Hc as (Hr' & Hn & _). split; [exact Hr'|done].
  - destruct (subscript_refines memory t m x f Hr) as (r & t' & -> & _ & Hc). destruct r as [[]|e| |]; try done; do 3 eexists; (split; [done|]).
    + by split.
    + destruct Hc as [Hr' Hn]. split; [exact Hr'|done].
  - destruct (insertIfNotPresent_refines memory t m x v Hr) as (r & t' & -> & _ & Hc). destruct r as [[]|e| |]; try done; do 3 eexists; (split; [done|]).
    + by split.
    + destruct Hc as [Hr' Hn]. split; [exact Hr'|done].
  - destruct (find_refines t m x Hr) as ([p|] & -> & Hp); cbn [mbind outcome_bind].
    + destruct Hp as (c & Hp & _ & Hs). rewrite (points_deref _ _ _ Hp). do 3 eexists. split; [done|]. split; [exact Hr|]. simpl. by rewrite Hs.
    + do 3 eexists. split; [done|]. split; [exact Hr|]. simpl. by rewrite Hp.
  - rewrite (at_refines t m x Hr). do 3 eexists. split; [done|]. split; [exact Hr|]. simpl. by destruct (m !! x).
  - rewrite (has_refines t m x Hr). do 3 eexists. split; [done|]. split; [exact Hr|]. done.
  - destruct (erase_refines t m x Hr) as (b & t' & -> & _ & -> & Hr'). do 3 eexists. split; [done|]. split; [exact Hr'|]. done.
  - destruct (decide (n = 0)) as [->|Hne].
    + destruct (reserve_zero memory t (proj1 Hr)) as (r & t' & -> & Hc). destruct r as [[]|e| |]; try done; do 3 eexists; (split; [done|]).
      * destruct Hc as [Hok He]. split; [by apply (represents_same t t' m)|done].
      * subst t'. split; [exact Hr|done].
    + simpl in Hv. destruct (reserve_spec memory n t (proj1 Hr)) as (r & t' & -> & Hc); [lia|].
      destruct r as [[]|e| |]; try done; do 3 eexists; (split; [done|]).
      * destruct Hc as (Hok & He & _). split; [by apply (represents_same t t' m)|done].
      * subst t'. split; [exact Hr|done].
  - destruct (clear_spec t (proj1 Hr)) as (Hok & _ & He). do 3 eexists. split; [done|]. split; [|done].
    split; [done|]. rewrite He. by rewrite map_to_list_empty.
  - do 3 eexists. split; [done|]. split; [exact Hr|]. split; [by apply (represents_size t)|done].
  - destruct (iteration_refines t m Hr) as (cells & -> & Hp). do 3 eexists. split; [done|]. split; [exact Hr|]. done.
Qed.

Lemma perform_all_refines ops : ∀ t m, represents t m → Forall valid ops →
  ∃ answers t' m', perform_all ops t = (answers, t') ∧ represents t' m' ∧ map_steps ops m answers m'.
Proof.
  induction ops as [|o ops IH]; intros t m Hr Hv; simpl; [by exists [], t, m|].
  apply Forall_cons in Hv as [Ho Hv]. destruct (perform_refines o t m Hr Ho) as (a & t1 & m1 & -> & Hr1 & Hs).
  destruct (IH t1 m1 Hr1 Hv) as (l & t2 & m2 & -> & Hr2 & Hs2). exists (a :: l), t2, m2. split_and!; [done|done|]. exists m1. done.
Qed.

(** A table that operations have made from a new one. *)
Lemma built_represents memory st old ops t : good st → Forall valid ops →
  create_default initial_size_degree sizeof_cell memory st old = (Ret tt, t) → ∃ m, represents (perform_all ops t).2 m.
Proof.
  intros Hst Hv Hc. destruct (create_spec memory st old Hst) as (r & t0 & Hc0 & Hr). rewrite Hc in Hc0. injection Hc0 as <- <-.
  destruct Hr as (Hok & _ & He). destruct (perform_all_refines ops t ∅) as (l & t' & m & -> & Hrep & _); [|done|by exists m].
  split; [done|]. by rewrite He, map_to_list_empty.
Qed.

(** C20: A hash table behaves as a finite map under every sequence of operations, whatever the hash
    function and however keys collide, with growth in place and removal without marks: each operation
    answers as it would for the map, an iteration visits each entry once, and where memory is refused the
    operation throws and nothing has changed. No operation has undefined behaviour or runs forever. *)
Theorem hash_table_refines_map (memory : memory_state) (st : State) (old : Cell) (ops : list op) :
  good st → Forall valid ops →
  ∃ r t, create_default initial_size_degree sizeof_cell memory st old = (r, t) ∧
    match r with
    | Ret _ => ∃ answers t' m', perform_all ops t = (answers, t') ∧ represents t' m' ∧ map_steps ops ∅ answers m'
    | Throw _ => True
    | _ => False
    end.
Proof.
  intros Hst Hv. destruct (create_spec memory st old Hst) as (r & t & -> & Hr). do 2 eexists. split; [done|]. destruct r; try done.
  destruct Hr as (Hok & _ & He). apply perform_all_refines; [|done]. split; [done|]. rewrite He. by rewrite map_to_list_empty.
Qed.

(** ** Reserving *)

Fixpoint emplace_all memory (keys : list Key) t : outcome unit * table State Cell :=
  match keys with
  | [] => (Ret tt, t)
  | x :: keys => then_ (emplace memory x (hash x) t) (λ _ t, emplace_all memory keys t)
  end.

Lemma emplace_all_fits memory keys : ∀ t, table_ok t →
  m_size t + Z.of_nat (length keys) ≤ Grower.precalculated_max_fill (grower t) →
  ∃ t', emplace_all memory keys t = (Ret tt, t') ∧ table_ok t' ∧ grower t' = grower t ∧
    ∀ x, x ∈ getKey <$> elements t' ↔ x ∈ keys ∨ x ∈ getKey <$> elements t.
Proof.
  induction keys as [|x keys IH]; intros t Hok Hfit; simpl.
  { exists t. split_and!; [done|done|done|]. set_solver. }
  cbn [length] in Hfit. destruct (emplace_spec memory t x Hok) as (r & t1 & -> & _ & He). destruct r as [[p [|]]|e| |]; try done; cbn [then_].
  - destruct He as (Hok1 & Hno & Hgr & c & Hp & Hk & Hel).
    destruct (IH t1 Hok1) as (t2 & -> & Hok2 & Hg2 & Hkeys).
    { rewrite Hgr by lia. rewrite (wf_size _ (ok_wf _ Hok1)), Hel. rewrite (wf_size _ (ok_wf _ Hok)) in Hfit. simpl. lia. }
    exists t2. split_and!; [done|done|rewrite Hg2; apply Hgr; lia|]. intros y. rewrite Hkeys, Hel. simpl. rewrite Hk. set_solver.
  - destruct He as (-> & c & Hp & Hk). destruct (IH t Hok) as (t2 & -> & Hok2 & Hg2 & Hkeys); [lia|].
    exists t2. split_and!; [done|done|done|]. intros y. rewrite Hkeys, elem_of_cons.
    assert (x ∈ getKey <$> elements t) by (apply list_elem_of_fmap; exists c; split; [done|by eapply points_element]). set_solver.
  - exfalso. destruct He as (_ & _ & _ & _ & Hfull & _). lia.
Qed.

(** C23: [reserve] keeps the entries, or throws and leaves the table as it is. Once it has returned for a
    number of elements, keys can be added up to this number without any further allocation: no memory is
    asked for, whatever the allocator would say, and the buffer stays where it is. *)
Theorem hash_table_reserve (memory : memory_state) (n : Z) (t : table State Cell) :
  table_ok t → 1 ≤ n ≤ 2 ^ 60 →
  ∃ r t', reserve lib initial_size_degree sizeof_cell memory n t = (r, t') ∧
    match r with
    | Ret _ => table_ok t' ∧ entry <$> elements t' ≡ₚ entry <$> elements t ∧
        ∀ memory' keys, m_size t + Z.of_nat (length keys) ≤ n →
          ∃ t'', emplace_all memory' keys t' = (Ret tt, t'') ∧ table_ok t'' ∧ length (buf t'') = length (buf t') ∧
            ∀ x, x ∈ getKey <$> elements t'' ↔ x ∈ keys ∨ x ∈ getKey <$> elements t
    | Throw _ => t' = t
    | _ => False
    end.
Proof.
  intros Hok Hn. destruct (reserve_spec memory n t Hok Hn) as (r & t' & -> & Hr). do 2 eexists. split; [done|]. destruct r; try done.
  destruct Hr as (Hok' & He & _ & Hfill). split_and!; [done|by rewrite He|]. intros memory' keys Hk.
  assert (m_size t' = m_size t) as Hm by (rewrite (wf_size _ (ok_wf _ Hok')), He; symmetry; apply (wf_size _ (ok_wf _ Hok))).
  destruct (emplace_all_fits memory' keys t' Hok') as (t2 & -> & Hok2 & Hg2 & Hkeys); [lia|]. exists t2. split_and!; [done|done| |].
  - pose proof (wf_length _ (ok_wf _ Hok2)). pose proof (wf_length _ (ok_wf _ Hok')). rewrite Hg2 in *. lia.
  - intros x. by rewrite Hkeys, He.
Qed.

End map.
End table.

(** * The cells *)

Section cell_laws.
Context {Key Mapped : Type} `{EqDecision Key} (zero_key : Key) (zero_mapped : Mapped) (hash : Key → Z).

#[global] Instance HashMapCell_laws : HashCellLaws (HashMapCell.HashMapCell_cell zero_key zero_mapped hash) hash (λ _, True).
Proof.
  split; simpl; intros; rewrite ?bool_decide_eq_true in *; rewrite ?bool_decide_eq_false in *; try done; try congruence; try by apply bool_decide_eq_true.
Qed.

#[global] Instance HashMapCellWithSavedHash_laws :
  HashCellLaws (HashMapCellWithSavedHash.HashMapCellWithSavedHash_cell zero_key zero_mapped) hash (λ _, True).
Proof.
  split; simpl; intros; rewrite ?bool_decide_eq_true in *; rewrite ?bool_decide_eq_false in *; try done; try congruence; try by apply bool_decide_eq_true.
  - unfold HashMapCellWithSavedHash.keyEquals. rewrite andb_true_iff, Z.eqb_eq, bool_decide_eq_true. naive_solver congruence.
  - by destruct c.
Qed.

(** The version 0 is that of cells that were never used or have been freed. *)
#[global] Instance ClearableHashTableCell_laws :
  HashCellLaws (ClearableHashTableCell.ClearableHashTableCell_cell zero_key zero_mapped hash) hash (λ version, version ≠ 0).
Proof.
  split; simpl; unfold ClearableHashTableCell.isZero; intros; try done; try (by apply negb_true_iff, Z.eqb_neq; auto).
  - apply bool_decide_eq_true.
  - by rewrite Z.eqb_refl.
Qed.
End cell_laws.

(** * Examples *)

Module HashTableExamples.

#[local] Instance example_cell : HashCell Z Z unit HashMapCell.cell := HashMapCell.HashMapCell_cell 0 0 (λ k, k).

Definition lib : Grower.libm := Grower.Libm Z.log2 (λ x, Z.log2 x + 1).

Lemma lib_ok : log2_ok lib.
Proof. intros n Hn. simpl. lia. Qed.

Definition all_memory : memory_state := λ _, None.

(** A table of four cells; the keys 3, 7, 11 and 15 collide in all the sizes it has. *)
Definition example_ops : list (op (Key := Z) (Mapped := Z)) :=
  [Insert all_memory 3 30; Insert all_memory 7 70; Insert (λ _, Some CANNOT_ALLOCATE_MEMORY) 11 110; Insert all_memory 11 110;
   Insert all_memory 0 5; Subscript all_memory 15 (λ v, v + 1); Erase 3; Find 15; Erase 3; Size; Reserve all_memory 40; Iterate].

Definition example_answers : list (answer (Key := Z) (Mapped := Z)) :=
  [Bool true; Bool true; Thrown CANNOT_ALLOCATE_MEMORY; Bool true; Bool true; Done; Bool true; Value (Some 1); Bool false; Count 4; Done;
   Entries [(0, 5); (7, 70); (11, 110); (15, 1)]].

Lemma hash_table_refines_map_witness :
  (let '(_, t) := create_default 2 16 all_memory tt (HashMapCell.mk 1 1) in
   (perform_all (Cell := HashMapCell.cell) (λ k, k) lib 2 16 0 example_ops t).1 = example_answers) ∧
  ∃ r t, create_default (Cell := HashMapCell.cell) 2 16 all_memory tt (HashMapCell.mk 1 1) = (r, t).
Proof.
  split; [vm_compute; reflexivity|].
  assert (1 ≤ 2 ≤ 62) as Hi by lia. assert (1 ≤ 16) as Hs by lia.
  assert (Forall (valid (Key := Z) (Mapped := Z)) example_ops) as Hv by (repeat constructor; simpl; lia).
  destruct (hash_table_refines_map (λ k : Z, k) (λ _, True) lib 2 16 lib_ok Hi Hs 0 all_memory tt (HashMapCell.mk 1 1) example_ops I Hv)
    as (r & t & H & _).
  exists r, t. exact H.
Defined.

Definition new_table : table unit HashMapCell.cell := (create_default 2 16 all_memory tt (HashMapCell.mk 1 1)).2.

Definition small_ops : list (op (Key := Z) (Mapped := Z)) := [Insert all_memory 3 30; Insert all_memory 7 70].

Definition small_table : table unit HashMapCell.cell := (perform_all (λ k, k) lib 2 16 0 small_ops new_table).2.

Lemma small_table_ok : table_ok (λ k, k) (λ _, True) small_table.
Proof.
  assert (1 ≤ 2 ≤ 62) as Hi by lia. assert (1 ≤ 16) as Hs by lia.
  destruct (built_represents (λ k : Z, k) (λ _, True) lib 2 16 lib_ok Hi Hs 0 all_memory tt (HashMapCell.mk 1 1) small_ops new_table)
    as (m & Hok & _); [done|by repeat constructor|done|done].
Qed.

Lemma hash_table_reserve_witness :
  (∃ t', reserve lib 2 16 all_memory 40 small_table = (Ret tt, t') ∧ length (buf t') = 128%nat) ∧
  ∃ r t', reserve lib 2 16 all_memory 40 small_table = (r, t').
Proof.
  split; [eexists; split; vm_compute; reflexivity|].
  assert (1 ≤ 2 ≤ 62) as Hi by lia. assert (1 ≤ 16) as Hs by lia. assert (1 ≤ 40 ≤ 2 ^ 60) as Hn by lia.
  destruct (hash_table_reserve (λ k : Z, k) (λ _, True) lib 2 16 lib_ok Hi Hs all_memory 40 small_table small_table_ok Hn) as (r & t' & H & _).
  exists r, t'. exact H.
Defined.

(** [reserve(0)], and a [readAndMerge] of an empty set, which calls [resize(0)], make the buffer four
    times as large each time, although nothing is to be added. *)
Lemma reserve_zero_grows :
  ∃ t1 t2, reserve lib 2 16 all_memory 0 new_table = (Ret tt, t1) ∧ reserve lib 2 16 all_memory 0 t1 = (Ret tt, t2) ∧
    length (buf new_table) = 4%nat ∧ length (buf t1) = 16%nat ∧ length (buf t2) = 64%nat.
Proof. do 2 eexists. do 4 (split; [vm_compute; reflexivity|]). vm_compute. reflexivity. Qed.

(** After 2^32 - 1 calls of [clear] the version of a clearable table is that of cells that were never
    used: all its cells count as occupied, and a search does not end. *)
Lemma clear_version_wraps :
  let cell := ClearableHashTableCell.ClearableHashTableCell_cell (Key := Z) 0 tt (λ k, k) in
  let t := (create_default (H := cell) 2 16 all_memory (2 ^ 32 - 1) (ClearableHashTableCell.mk 0 tt 0)).2 in
  find (H := cell) 5 5 t = Ret None ∧ find (H := cell) 5 5 (clear_version t) = OutOfFuel.
Proof. split; vm_compute; reflexivity. Qed.

End HashTableExamples.
