(* ===== verification/HashTableIO.v ===== *)
(** Serialization of hash tables ([HashTable::write], [read] and [Reader] of
    src/src/Common/HashTable/HashTable.h) and the union of sets ([merge] and [readAndMerge] of HashSet.h),
    over the buffers of Buffers.v and the integers of VarInt.v. *)

From stdpp Require Import base list tactics numbers sets gmap fin_maps.
From S2P Require Import Prelude Buffers VarInt HashTable HashTableProbing HashTableCorrect.
Local Open Scope Z_scope.

(** * Operations *)

(** [writePODBinary] and [readPODBinary] of an unsigned integer of [w] bytes. *)
Definition writePODBinary {Sk} `{WriteBuffer.NextImpl Sk} (w x : Z) (wb : WriteBuffer.t Sk) : outcome unit * WriteBuffer.t Sk :=
  WriteBuffer.write (le_split (Z.to_nat w) x) wb.

Definition readPODBinary (w : Z) (rb : ReadBuffer.t) : outcome (Z * ReadBuffer.t) :=
  '(bs, rb) ← ReadBuffer.readStrict w rb; Ret (le_combine bs, rb).

(** [Cell::write], and [Cell::read] into a new cell, of which [getValue] is taken; the same of the state. *)
Class HashCellIO (Key Mapped State Cell : Type) := {
  write_cell {Sk} {NI : WriteBuffer.NextImpl Sk} : Cell → WriteBuffer.t Sk → outcome unit * WriteBuffer.t Sk;
  read_cell : ReadBuffer.t → outcome (Key * Mapped * ReadBuffer.t);
  write_state {Sk} {NI : WriteBuffer.NextImpl Sk} : State → WriteBuffer.t Sk → outcome unit * WriteBuffer.t Sk;
  read_state : ReadBuffer.t → outcome (State * ReadBuffer.t);
}.

(** [HashMapCell] of integers of [wk] and [wm] bytes; [HashTableNoState]. *)
Definition HashMapCell_IO (wk wm : Z) : HashCellIO Z Z unit (HashMapCell.cell (Key := Z) (Mapped := Z)) := {|
  write_cell _ _ c wb := and_then (writePODBinary wk (HashMapCell.first c) wb) (writePODBinary wm (HashMapCell.second c));
  read_cell rb := '(first, rb) ← readPODBinary wk rb; '(second, rb) ← readPODBinary wm rb; Ret (first, second, rb);
  write_state _ _ _ wb := (Ret tt, wb);
  read_state rb := Ret (tt, rb);
|}.

(** [HashTableCell] of an integer of [wk] bytes. *)
Definition HashTableCell_IO (wk : Z) : HashCellIO Z unit unit (HashMapCell.cell (Key := Z) (Mapped := unit)) := {|
  write_cell _ _ c wb := writePODBinary wk (HashMapCell.first c) wb;
  read_cell rb := '(key, rb) ← readPODBinary wk rb; Ret (key, tt, rb);
  write_state _ _ _ wb := (Ret tt, wb);
  read_state rb := Ret (tt, rb);
|}.

(** [ClearableHashTableCell] over [HashTableCell] of an integer of [wk] bytes; [ClearableHashSetState]. The version of a
    cell is not written. *)
Definition ClearableHashTableCell_IO (wk : Z) : HashCellIO Z unit Z (ClearableHashTableCell.cell (Key := Z) (Mapped := unit)) := {|
  write_cell _ _ c wb := writePODBinary wk (ClearableHashTableCell.first c) wb;
  read_cell rb := '(key, rb) ← readPODBinary wk rb; Ret (key, tt, rb);
  write_state _ _ version wb := writePODBinary 4 version wb;
  read_state rb := readPODBinary 4 rb;
|}.

Section serialization.
Context {Key Mapped State Cell : Type} {HC : HashCell Key Mapped State Cell} {IO : HashCellIO Key Mapped State Cell}.
Context (hash : Key → Z) (lib : Grower.libm) (initial_size_degree sizeof_cell : Z).
Implicit Types (t rhs : table State Cell) (memory : memory_state) (rb : ReadBuffer.t).

Definition with_state (st : State) t : table State Cell := Table (m_size t) (buf t) (grower t) st (has_zero t) (zero_value t).

(** The loop of [write]; [n] is the number of cells left. *)
Fixpoint write_loop {Sk} `{WriteBuffer.NextImpl Sk} (n : nat) (i : Z) t (wb : WriteBuffer.t Sk) : outcome unit * WriteBuffer.t Sk :=
  match n with
  | O => (Ret tt, wb)
  | S n =>
      match cell_at (buf t) i with
      | Ret c =>
          if negb (cell_isZero c (state t)) then and_then (write_cell c wb) (write_loop n (i + 1) t)
          else write_loop n (i + 1) t wb
      | _ => (UB, wb)
      end
  end.

Definition write {Sk} `{WriteBuffer.NextImpl Sk} t (wb : WriteBuffer.t Sk) : outcome unit * WriteBuffer.t Sk :=
  and_then (write_state (state t) wb) (λ wb,
  and_then (writeVarUInt max_varuint_bytes (m_size t) wb) (λ wb,
  and_then (if has_zero t then write_cell (zero_value t) wb else (Ret tt, wb)) (λ wb,
  match buf t with
  | [] => (Ret tt, wb)
  | _ => write_loop (Z.to_nat (Grower.bufSize (grower t))) 0 t wb
  end))).

(** The loop of [read] and of [readAndMerge]: [n] values are read and inserted. *)
Fixpoint read_loop (n : nat) memory rb t : outcome ReadBuffer.t * table State Cell :=
  match n with
  | O => (Ret rb, t)
  | S n =>
      then_ (read_cell rb, t) (λ '(x, v, rb) t,
      then_ (insert hash lib initial_size_degree sizeof_cell memory x v t) (λ _ t, read_loop n memory rb t))
  end.

Definition max_serialized_size : Z := 100000000000.

Definition read memory rb t : outcome ReadBuffer.t * table State Cell :=
  then_ (read_state rb, t) (λ '(st, rb) t,
  let t := with_size 0 (destroyElements (with_state st t)) in
  then_ (readVarUInt rb, t) (λ '(new_size, rb) t,
  if max_serialized_size <? new_size then (Throw TOO_LARGE_ARRAY_SIZE, t) else
  let t := free t in
  then_ (Grower.set lib initial_size_degree new_size (grower t), t) (λ new_grower t,
  then_ (alloc sizeof_cell memory new_grower t) (λ _ t,
  read_loop (Z.to_nat new_size) memory rb t)))).

(** ** Reader *)

Record reader := Reader {
  in_ : ReadBuffer.t;
  cell : Key * Mapped;
  read_count : Z;
  reader_size : Z;
  is_eof : bool;
  is_initialized : bool;
}.

(** A new reader; [cell] is what is in its memory. *)
Definition reader_create rb (cell : Key * Mapped) : reader := Reader rb cell 0 0 false false.

(** The state is read, and kept in the reader only. *)
Definition initialize (r : reader) : outcome reader :=
  if is_initialized r then Ret r else
  '(_, rb) ← read_state (in_ r);
  '(size, rb) ← readVarUInt rb;
  Ret (Reader rb (cell r) (read_count r) size (is_eof r) true).

Definition reader_next (r : reader) : outcome (bool * reader) :=
  r ← initialize r;
  if read_count r =? reader_size r then Ret (false, Reader (in_ r) (cell r) (read_count r) (reader_size r) true (is_initialized r))
  else
    '(value, rb) ← read_cell (in_ r);
    Ret (true, Reader rb value (read_count r + 1) (reader_size r) (is_eof r) (is_initialized r)).

Definition reader_get (r : reader) : outcome (Key * Mapped) :=
  if negb (is_initialized r) || is_eof r then Throw NO_AVAILABLE_DATA else Ret (cell r).

(** ** HashSetTable *)

(** The loop of [merge] over the cells of [rhs]; [n] is the number of cells left. *)
Fixpoint merge_loop (n : nat) (i : Z) memory rhs t : outcome unit * table State Cell :=
  match n with
  | O => (Ret tt, t)
  | S n =>
      then_ (cell_at (buf rhs) i, t) (λ c t,
      if negb (cell_isZero c (state t)) then
        then_ (insert hash lib initial_size_degree sizeof_cell memory (getKey c) (getMapped c) t) (λ _ t,
        merge_loop n (i + 1) memory rhs t)
      else merge_loop n (i + 1) memory rhs t)
  end.

Definition merge memory rhs t : outcome unit * table State Cell :=
  let t :=
    if negb (has_zero t) && has_zero rhs then
      let t := setHasZero t in with_size (m_size t + 1) t
    else t in
  merge_loop (Z.to_nat (Grower.bufSize (grower rhs))) 0 memory rhs t.

Definition readAndMerge memory rb t : outcome ReadBuffer.t * table State Cell :=
  then_ (read_state rb, t) (λ '(st, rb) t,
  let t := with_state st t in
  then_ (readVarUInt rb, t) (λ '(new_size, rb) t,
  if max_serialized_size <? new_size then (Throw TOO_LARGE_ARRAY_SIZE, t) else
  then_ (resize lib initial_size_degree sizeof_cell memory new_size 0 t) (λ _ t,
  read_loop (Z.to_nat new_size) memory rb t))).
End serialization.

(** * Formats *)

Lemma writeVarUInt_appends {Sk} `{WriteBuffer.Sink Sk} (x : Z) (wb : WriteBuffer.t Sk) bs :
  0 ≤ x < 2 ^ 64 → WriteBuffer.writes wb bs → appends (writeVarUInt max_varuint_bytes x wb) (bs ++ vlq max_varuint_bytes x).
Proof.
  intros Hx Hw. pose proof (writeVarUInt_vlq max_varuint_bytes x wb bs Hw ltac:(unfold max_varuint_bytes; zlia)) as Hv.
  unfold appends. by destruct (writeVarUInt _ x wb) as [[] ?].
Qed.

Lemma readVarUInt_reads (x : Z) : 0 ≤ x < 2 ^ 64 → reads readVarUInt x (vlq max_varuint_bytes x).
Proof.
  intros Hx rb rest Hwf Hrem. pose proof (readVarUInt_vlq_read rb Hwf) as Hr.
  rewrite Hrem, (vlq_9 x Hx), vlq_read_vlq in Hr by (unfold max_varuint_bytes; zlia).
  destruct Hr as (rb' & Hr & Hwf' & ?). exists rb'. split_and!; [|done|done]. rewrite Hr. do 2 f_equal. zlia.
Qed.

Lemma writePODBinary_appends {Sk} `{WriteBuffer.Sink Sk} w x (wb : WriteBuffer.t Sk) bs :
  WriteBuffer.writes wb bs → appends (writePODBinary w x wb) (bs ++ le_split (Z.to_nat w) x).
Proof. intros Hw. apply data_appends; [done|apply le_split_bytes]. Qed.

Lemma readPODBinary_reads w x : 0 ≤ w → 0 ≤ x < 2 ^ (8 * w) → reads (readPODBinary w) x (le_split (Z.to_nat w) x).
Proof.
  intros Hw Hx rb rest Hwf Hrem. pose proof (ReadBuffer.readStrict_spec w rb Hwf Hw) as Hs.
  assert (length (le_split (Z.to_nat w) x) = Z.to_nat w) as Hl by apply length_le_split.
  rewrite (proj2 (Z.leb_le _ _)) in Hs by (rewrite Hrem; unfold blen; rewrite length_app; lia).
  destruct Hs as (rb' & Hr & Hwf' & Hrem' & _). exists rb'. unfold readPODBinary. rewrite Hr. cbn [mbind outcome_bind].
  rewrite Hrem, take_app_length' in * by done. rewrite drop_app_length' in Hrem' by done.
  split_and!; [|done|done]. do 2 f_equal. apply le_combine_split. by rewrite Z2Nat.id.
Qed.

(** The encoding of cells and states that are in the range of their types. *)
Class HashCellFormat {Key Mapped State Cell : Type} (HC : HashCell Key Mapped State Cell) (IO : HashCellIO Key Mapped State Cell) := {
  storable : Key * Mapped → Prop;
  storable_state : State → Prop;
  cell_bytes : Key * Mapped → bytes;
  state_bytes : State → bytes;
  write_cell_appends {Sk} `{WriteBuffer.Sink Sk} c (wb : WriteBuffer.t Sk) bs :
    storable (getKey c, getMapped c) → WriteBuffer.writes wb bs → appends (write_cell c wb) (bs ++ cell_bytes (getKey c, getMapped c));
  read_cell_reads kv : storable kv → reads read_cell kv (cell_bytes kv);
  write_state_appends {Sk} `{WriteBuffer.Sink Sk} st (wb : WriteBuffer.t Sk) bs :
    storable_state st → WriteBuffer.writes wb bs → appends (write_state st wb) (bs ++ state_bytes st);
  read_state_reads st : storable_state st → reads read_state st (state_bytes st);
}.

Section formats.
Context (wk wm : Z) (Hwk : 0 ≤ wk) (Hwm : 0 ≤ wm) (hash : Z → Z).

Program Definition HashMapCell_format : HashCellFormat (HashMapCell.HashMapCell_cell 0 0 hash) (HashMapCell_IO wk wm) := {|
  storable kv := 0 ≤ kv.1 < 2 ^ (8 * wk) ∧ 0 ≤ kv.2 < 2 ^ (8 * wm);
  storable_state _ := True;
  cell_bytes kv := le_split (Z.to_nat wk) kv.1 ++ le_split (Z.to_nat wm) kv.2;
  state_bytes _ := [];
|}.
Next Obligation.
  intros Sk NI S c wb bs _ Hw. simpl. rewrite app_assoc. eapply and_then_appends; [by apply writePODBinary_appends|].
  intros wb' Hw'. by apply writePODBinary_appends.
Qed.
Next Obligation.
  intros [k m] [Hk Hm]. apply (reads_bind (readPODBinary wk) (λ _, readPODBinary wm) pair k m); by apply readPODBinary_reads.
Qed.
Next Obligation. intros Sk NI S st wb bs _ Hw. simpl. by rewrite app_nil_r. Qed.
Next Obligation. intros [] _ rb rest Hwf Hrem. by exists rb. Qed.

Lemma key_reads k : 0 ≤ k < 2 ^ (8 * wk) → reads (λ rb, '(key, rb) ← readPODBinary wk rb; Ret (key, tt, rb)) (k, tt) (le_split (Z.to_nat wk) k).
Proof.
  intros Hk rb rest Hwf Hrem. destruct (readPODBinary_reads wk k Hwk Hk rb rest Hwf Hrem) as (rb' & -> & ?). by exists rb'.
Qed.

Program Definition HashTableCell_format : HashCellFormat (HashMapCell.HashMapCell_cell 0 tt hash) (HashTableCell_IO wk) := {|
  storable kv := 0 ≤ kv.1 < 2 ^ (8 * wk);
  storable_state _ := True;
  cell_bytes kv := le_split (Z.to_nat wk) kv.1;
  state_bytes _ := [];
|}.
Next Obligation. intros Sk NI S c wb bs _ Hw. by apply writePODBinary_appends. Qed.
Next Obligation. intros [k []] Hk. by apply key_reads. Qed.
Next Obligation. intros Sk NI S st wb bs _ Hw. simpl. by rewrite app_nil_r. Qed.
Next Obligation. intros [] _ rb rest Hwf Hrem. by exists rb. Qed.

Program Definition ClearableHashTableCell_format :
  HashCellFormat (ClearableHashTableCell.ClearableHashTableCell_cell 0 tt hash) (ClearableHashTableCell_IO wk) := {|
  storable kv := 0 ≤ kv.1 < 2 ^ (8 * wk);
  storable_state version := 0 ≤ version < 2 ^ (8 * 4);
  cell_bytes kv := le_split (Z.to_nat wk) kv.1;
  state_bytes version := le_split (Z.to_nat 4) version;
|}.
Next Obligation. intros Sk NI S c wb bs _ Hw. by apply writePODBinary_appends. Qed.
Next Obligation. intros [k []] Hk. by apply key_reads. Qed.
Next Obligation. intros Sk NI S st wb bs _ Hw. by apply writePODBinary_appends. Qed.
Next Obligation. intros st Hst. by apply readPODBinary_reads. Qed.
End formats.

(** * Round trips *)

Section correct.
Context {Key Mapped State Cell : Type} {HC : HashCell Key Mapped State Cell} {IO : HashCellIO Key Mapped State Cell}.
Context {F : HashCellFormat HC IO}.
Context (hash : Key → Z) (good : State → Prop) {Laws : HashCellLaws HC hash good}.
Context (lib : Grower.libm) (initial_size_degree sizeof_cell : Z).
Context (Hlog2 : log2_ok lib) (Hinitial : 1 ≤ initial_size_degree ≤ 62) (Hsizeof : 1 ≤ sizeof_cell).
Context `{Countable Key}.
Implicit Types (t rhs : table State Cell) (m M : gmap Key Mapped) (kvs : list (Key * Mapped)) (memory : memory_state) (rb : ReadBuffer.t).

Local Notation represents := (HashTableCorrect.represents hash good).
Local Notation table_ok := (HashTableCorrect.table_ok hash good).
Local Notation max_fill t := (Grower.precalculated_max_fill (grower t)).
Local Notation read_loop := (HashTableIO.read_loop hash lib initial_size_degree sizeof_cell).
Local Notation read := (HashTableIO.read hash lib initial_size_degree sizeof_cell).
Local Notation merge_loop := (HashTableIO.merge_loop hash lib initial_size_degree sizeof_cell).
Local Notation merge := (HashTableIO.merge hash lib initial_size_degree sizeof_cell).
Local Notation readAndMerge := (HashTableIO.readAndMerge hash lib initial_size_degree sizeof_cell).

(** ** Writing *)

Definition cells_bytes kvs : bytes := kvs ≫= cell_bytes.

Definition encoding t : bytes :=
  state_bytes (state t) ++ vlq max_varuint_bytes (m_size t) ++ cells_bytes (entry <$> elements t).

Lemma cells_bytes_app kvs kvs' : cells_bytes (kvs ++ kvs') = cells_bytes kvs ++ cells_bytes kvs'.
Proof. apply bind_app. Qed.

Lemma write_loop_appends {Sk} `{WriteBuffer.Sink Sk} n : ∀ i t (wb : WriteBuffer.t Sk) bs,
  0 ≤ i → i + Z.of_nat n = Z.of_nat (length (buf t)) →
  Forall storable (entry <$> items (state t) (drop (Z.to_nat i) (buf t))) → WriteBuffer.writes wb bs →
  appends (write_loop n i t wb) (bs ++ cells_bytes (entry <$> items (state t) (drop (Z.to_nat i) (buf t)))).
Proof.
  induction n as [|n IH]; intros i t wb bs Hi Hn Hs Hw; simpl.
  { rewrite drop_ge by lia. simpl. by rewrite app_nil_r. }
  destruct (lookup_lt_is_Some_2 (buf t) (Z.to_nat i)) as [c Hc]; [lia|].
  assert (at_pos (buf t) i c) as Hat by done. rewrite (cell_at_pos _ _ _ Hat).
  rewrite (items_drop t i c Hat) in *. unfold item_list in *.
  destruct (cell_isZero c (state t)); simpl in *; [apply IH; [lia|lia|done|done]|].
  apply Forall_cons in Hs as [Hsc Hs]. rewrite app_assoc. eapply and_then_appends; [by apply write_cell_appends|].
  intros wb' Hw'. apply IH; [lia|lia|done|done].
Qed.

Lemma write_appends {Sk} `{WriteBuffer.Sink Sk} t (wb : WriteBuffer.t Sk) bs :
  table_ok t → storable_state (state t) → Forall storable (entry <$> elements t) → m_size t < 2 ^ 64 →
  WriteBuffer.writes wb bs → appends (write t wb) (bs ++ encoding t).
Proof.
  intros [Ht _] Hst Hs Hm Hw. unfold write, encoding. rewrite !app_assoc.
  unfold elements in *. rewrite fmap_app, Forall_app in Hs. destruct Hs as [Hz Hs].
  eapply and_then_appends; [by apply write_state_appends|]. intros wb1 Hw1.
  eapply and_then_appends; [apply writeVarUInt_appends; [|done]|].
  { rewrite (wf_size _ _ _ Ht) in *. lia. }
  intros wb2 Hw2. rewrite fmap_app, cells_bytes_app, app_assoc.
  eapply and_then_appends with (bs := _ ++ cells_bytes (entry <$> (if has_zero t then [zero_value t] else []))).
  { destruct (has_zero t); simpl in *; [|by rewrite app_nil_r]. apply Forall_cons in Hz as [Hz _].
    unfold cells_bytes. simpl. rewrite app_nil_r. by apply write_cell_appends. }
  intros wb3 Hw3. pose proof (wf_length _ _ _ Ht) as Hl.
  pose proof (bufSize_bounds _ (wf_grower _ _ _ Ht)) as Hb.
  destruct (buf t) as [|c b] eqn:E; [simpl in Hl; lia|]. rewrite <- E in *.
  apply (write_loop_appends (Z.to_nat (Grower.bufSize (grower t))) 0 t wb3); [done|lia|done|done].
Qed.

(** ** Inserting entries one after the other *)

Lemma union_insert m M x (v : Mapped) :
  (if bool_decide (m !! x = None) then <[x := v]> m else m) ∪ M = m ∪ <[x := v]> M.
Proof.
  case_bool_decide as Hx; [by rewrite <- insert_union_l, insert_union_r|].
  apply map_eq. intros y. destruct (decide (y = x)) as [->|]; [|by rewrite !lookup_union, lookup_insert_ne].
  destruct (m !! x) as [w|] eqn:E; [|done]. by rewrite !(lookup_union_Some_l _ _ _ w).
Qed.

Lemma insert_absent_subseteq m x (v : Mapped) : m ⊆ (if bool_decide (m !! x = None) then <[x := v]> m else m).
Proof. case_bool_decide; [by apply insert_subseteq|done]. Qed.

Lemma represents_list t m : represents t m → list_to_map (entry <$> elements t) = m.
Proof.
  intros [Hok Hp]. rewrite <- (list_to_map_to_list m). symmetry. apply list_to_map_proper; [|by symmetry].
  apply NoDup_fst_map_to_list.
Qed.

Lemma map_Forall_to_list_storable m : map_Forall (λ k v, storable (k, v)) m → Forall storable (map_to_list m).
Proof. rewrite map_Forall_to_list. intros Hs. eapply Forall_impl; [exact Hs|]. by intros [k v]. Qed.

(** After the entries of [M] have been inserted into a table for [m], as far as memory was given. *)
Definition added m M (r : outcome unit) t' : Prop :=
  match r with
  | Ret _ => represents t' (m ∪ M)
  | Throw _ => ∃ m', represents t' m' ∧ m ⊆ m' ∧ m' ⊆ m ∪ M
  | _ => False
  end.

Lemma added_insert m M x v r t' :
  added (if bool_decide (m !! x = None) then <[x := v]> m else m) M r t' → added m (<[x := v]> M) r t'.
Proof.
  unfold added. rewrite union_insert. destruct r; try done. intros (m' & Hr & H1 & H2). exists m'. split_and!; [done| |done].
  etrans; [apply insert_absent_subseteq|done].
Qed.

Lemma added_refused m M e t' : represents t' m → added m M (Throw e) t'.
Proof. intros Hr. exists m. split_and!; [done|done|apply map_union_subseteq_l]. Qed.

Definition result_of {A} (r : outcome A) : outcome unit := _ ← r; Ret tt.

Lemma insert_size t m x v : represents t m → ∀ t', represents t' (if bool_decide (m !! x = None) then <[x := v]> m else m) →
  m_size t' ≤ m_size t + 1.
Proof.
  intros Hr t' Hr'. rewrite (represents_size _ _ _ _ Hr), (represents_size _ _ _ _ Hr'). case_bool_decide as Hx; [|lia].
  rewrite map_size_insert_None by done. lia.
Qed.

(** What is read is inserted, without any allocation if there is room for it. *)
Lemma insert_read_spec memory kvs : ∀ rb rest t m,
  represents t m → Forall storable kvs → ReadBuffer.wf rb → ReadBuffer.remaining rb = cells_bytes kvs ++ rest →
  ∃ r t', read_loop (length kvs) memory rb t = (r, t') ∧ state t' = state t ∧ added m (list_to_map kvs) (result_of r) t' ∧
    match r with
    | Ret rb' => ReadBuffer.wf rb' ∧ ReadBuffer.remaining rb' = rest
    | _ => max_fill t < m_size t + Z.of_nat (length kvs)
    end.
Proof.
  induction kvs as [|[x v] kvs IH]; intros rb rest t m Hr Hs Hwf Hrem; simpl.
  { do 2 eexists. split; [done|]. split_and!; [done| |done|done]. simpl. by rewrite (right_id_L ∅ (∪)). }
  apply Forall_cons in Hs as [Hsx Hs]. cbn [cells_bytes mbind list_bind] in Hrem. rewrite <- app_assoc in Hrem.
  destruct (read_cell_reads (x, v) Hsx rb _ Hwf Hrem) as (rb1 & -> & Hwf1 & Hrem1). cbn [then_].
  destruct (insert_refines hash good lib initial_size_degree sizeof_cell Hlog2 Hinitial Hsizeof memory t m x v Hr)
    as (r & t1 & -> & Hst & Hc).
  destruct r as [[p i]|e| |]; try done; cbn [then_].
  - destruct Hc as (_ & _ & Hr1 & Hgr). destruct (IH rb1 rest t1 _ Hr1 Hs Hwf1 Hrem1) as (r & t2 & -> & Hst2 & Ha & Hcase).
    exists r, t2. split_and!; [done|congruence|by apply added_insert|]. pose proof (insert_size t m x v Hr t1 Hr1) as Hsz.
    destruct r; [done|..]; destruct (Z.lt_ge_cases (m_size t) (max_fill t)) as [Hlt|Hge]; try rewrite (Hgr Hlt) in *; lia.
  - destruct Hc as (Hr1 & Hn & Hfull). do 2 eexists. split; [done|]. split_and!; [done|by apply added_refused|lia].
Qed.

(** ** Reading *)

Lemma zero_value_key t st : table_ok t → need_zero_value_storage = true → key_isZero (getKey (zero_value t)) st = true.
Proof.
  intros [Ht _] Hn. pose proof (wf_zero _ _ _ Ht Hn) as Hz. pose proof (setZero_key (zero_value t) (state t) Hn) as Hz'.
  rewrite (zero_key_unique _ _ _ Hz Hz'). by apply setZero_key.
Qed.

Lemma table_read_spec memory t t0 m rb rest :
  represents t m → storable_state (state t) → Forall storable (entry <$> elements t) → m_size t ≤ max_serialized_size →
  table_ok t0 → ReadBuffer.wf rb → ReadBuffer.remaining rb = encoding t ++ rest →
  ∃ r t', read memory rb t0 = (r, t') ∧ state t' = state t ∧
    match r with
    | Ret rb' => represents t' m ∧ ReadBuffer.wf rb' ∧ ReadBuffer.remaining rb' = rest
    | Throw _ => buf t' = [] ∧ m_size t' = 0
    | _ => False
    end.
Proof.
  intros Hr Hst Hs Hm Hok0 Hwf Hrem. pose proof Hr as [Hok _]. pose proof (wf_size _ _ _ (ok_wf _ _ _ Hok)) as Hsz.
  unfold max_serialized_size in Hm. unfold encoding in Hrem. rewrite <- !app_assoc in Hrem. unfold HashTableIO.read.
  destruct (read_state_reads _ Hst rb _ Hwf Hrem) as (rb1 & -> & Hwf1 & Hrem1). cbn [then_].
  destruct (readVarUInt_reads (m_size t)) with (rb := rb1) (rest := cells_bytes (entry <$> elements t) ++ rest)
    as (rb2 & -> & Hwf2 & Hrem2); [lia|done|done|]. cbn [then_].
  rewrite (proj2 (Z.ltb_ge _ _)) by (unfold max_serialized_size; lia).
  destruct (set_shape lib initial_size_degree Hlog2 Hinitial (m_size t) (grower t0)) as (g & Hg & Hshape & Hfill); [lia|].
  set (t1 := free _). change (grower t1) with (grower t0). rewrite Hg. cbn [then_].
  destruct (alloc_spec hash good sizeof_cell Hsizeof memory g t1) as (r & t2 & -> & Hc); try done.
  { apply (wf_state _ _ _ (ok_wf _ _ _ Hok)). }
  { intros Hn. by apply (zero_value_key t0). }
  destruct r as [[]|e| |]; try done; cbn [then_]; [|subst t2; by do 2 eexists].
  destruct Hc as (Hok2 & Hst2 & He2 & Hg2).
  assert (represents t2 ∅) as Hr2 by (split; [done|by rewrite He2, map_to_list_empty]).
  replace (Z.to_nat (m_size t)) with (length (entry <$> elements t)) by (rewrite length_fmap; lia).
  destruct (insert_read_spec memory (entry <$> elements t) rb2 rest t2 ∅ Hr2 Hs Hwf2 Hrem2) as (r & t3 & -> & Hst3 & Ha & Hcase).
  do 2 eexists. split; [done|]. split; [by rewrite Hst3, Hst2|].
  rewrite (represents_list _ _ Hr) in Ha. unfold added in Ha. rewrite (left_id_L ∅ (∪)) in Ha.
  pose proof (represents_size _ _ _ _ Hr2) as Hm2. rewrite Hg2, length_fmap, Hm2, map_size_empty in Hcase.
  destruct r; simpl in *; [done|lia|done|done].
Qed.

(** The client's loop over a [Reader]: the values it gets, and the reader at the end. *)
Fixpoint reader_all (fuel : nat) (r : reader) : outcome (list (Key * Mapped) * reader) :=
  match fuel with
  | O => OutOfFuel
  | S fuel =>
      '(more, r) ← reader_next r;
      if more : bool then value ← reader_get r; '(values, r) ← reader_all fuel r; Ret (value :: values, r) else Ret ([], r)
  end.

Lemma reader_all_spec kvs : ∀ fuel rb rest c n size, (length kvs < fuel)%nat →
  Forall storable kvs → ReadBuffer.wf rb → ReadBuffer.remaining rb = cells_bytes kvs ++ rest → size = n + Z.of_nat (length kvs) →
  ∃ r', reader_all fuel (Reader rb c n size false true) = Ret (kvs, r') ∧ reader_get r' = Throw NO_AVAILABLE_DATA ∧
    ReadBuffer.remaining (in_ r') = rest.
Proof.
  induction kvs as [|kv kvs IH]; intros [|fuel] rb rest c n size Hf Hs Hwf Hrem ->; cbn [length reader_all] in *; try lia.
  { unfold reader_next, initialize. simpl. rewrite Z.add_0_r, Z.eqb_refl. simpl. eexists. split; [done|]. done. }
  apply Forall_cons in Hs as [Hsx Hs]. cbn [cells_bytes mbind list_bind] in Hrem. rewrite <- app_assoc in Hrem.
  destruct (read_cell_reads kv Hsx rb _ Hwf Hrem) as (rb1 & Hrc & Hwf1 & Hrem1).
  unfold reader_next at 1, initialize. cbn -[reader_all Z.add Z.eqb Z.of_nat]. rewrite (proj2 (Z.eqb_neq _ _)) by lia.
  rewrite Hrc. cbn -[reader_all Z.add Z.eqb Z.of_nat].
  destruct (IH fuel rb1 rest kv (n + 1) (n + Z.of_nat (S (length kvs))) ltac:(lia) Hs Hwf1 Hrem1) as (r' & -> & Hg & Hrest); [lia|].
  exists r'. by split_and!.
Qed.

Lemma reader_spec t rb rest c :
  table_ok t → storable_state (state t) → Forall storable (entry <$> elements t) → m_size t < 2 ^ 64 →
  ReadBuffer.wf rb → ReadBuffer.remaining rb = encoding t ++ rest →
  ∃ r', reader_all (S (Z.to_nat (m_size t))) (reader_create rb c) = Ret (entry <$> elements t, r') ∧
    reader_get r' = Throw NO_AVAILABLE_DATA ∧ ReadBuffer.remaining (in_ r') = rest.
Proof.
  intros Hok Hst Hs Hm Hwf Hrem. pose proof (wf_size _ _ _ (ok_wf _ _ _ Hok)) as Hsz.
  unfold encoding in Hrem. rewrite <- !app_assoc in Hrem.
  destruct (read_state_reads _ Hst rb _ Hwf Hrem) as (rb1 & Hr1 & Hwf1 & Hrem1).
  destruct (readVarUInt_reads (m_size t)) with (rb := rb1) (rest := cells_bytes (entry <$> elements t) ++ rest)
    as (rb2 & Hr2 & Hwf2 & Hrem2); [lia|done|done|].
  destruct (reader_all_spec (entry <$> elements t) (S (Z.to_nat (m_size t))) rb2 rest c 0 (m_size t)) as (r' & Hr' & Hg & Hrest); rewrite ?length_fmap; try done; try lia.
  exists r'. split_and!; [|done|done]. rewrite <- Hr'.
  cbn [reader_all]. unfold reader_next, reader_create, initialize at 1. simpl. rewrite Hr1. simpl. by rewrite Hr2.
Qed.

(** C21: A serialized table is restored: whatever the capacity of the buffer it is written to and however
    the data is cut into buffers when it is read, [read] into any table makes it a table of the same
    entries and the same state and takes the bytes that were written, no more. It asks for memory once;
    if it is refused the table is left empty, without a buffer. A [Reader] gets each entry once, then
    throws NO_AVAILABLE_DATA. *)
Theorem hash_table_serialization (t : table State Cell) (m : gmap Key Mapped) :
  represents t m → storable_state (state t) → map_Forall (λ k v, storable (k, v)) m → m_size t ≤ max_serialized_size →
  ∃ e,
    (∀ Sk (NI : WriteBuffer.NextImpl Sk) (S : WriteBuffer.Sink Sk) (wb : WriteBuffer.t Sk) bs,
       WriteBuffer.writes wb bs → appends (write t wb) (bs ++ e)) ∧
    (∀ memory t0 rb rest, table_ok t0 → ReadBuffer.wf rb → ReadBuffer.remaining rb = e ++ rest →
       ∃ r t', read memory rb t0 = (r, t') ∧ state t' = state t ∧
         match r with
         | Ret rb' => represents t' m ∧ ReadBuffer.remaining rb' = rest
         | Throw _ => buf t' = [] ∧ m_size t' = 0
         | _ => False
         end) ∧
    (∀ rb rest c, ReadBuffer.wf rb → ReadBuffer.remaining rb = e ++ rest →
       ∃ values r', reader_all (S (Z.to_nat (m_size t))) (reader_create rb c) = Ret (values, r') ∧ values ≡ₚ map_to_list m ∧
         reader_get r' = Throw NO_AVAILABLE_DATA ∧ ReadBuffer.remaining (in_ r') = rest).
Proof.
  intros Hr Hst Hs Hm. pose proof Hr as [Hok Hp]. assert (m_size t < 2 ^ 64) by (unfold max_serialized_size in Hm; lia).
  assert (Forall storable (entry <$> elements t)) as Hall by (rewrite Hp; by apply map_Forall_to_list_storable).
  exists (encoding t). split_and!.
  - intros. by apply write_appends.
  - intros memory t0 rb rest Hok0 Hwf Hrem.
    destruct (table_read_spec memory t t0 m rb rest) as (r & t' & -> & Hst' & Hc); try done. exists r, t'. split_and!; [done|done|].
    destruct r; try done. by destruct Hc as (? & _ & ?).
  - intros rb rest c Hwf Hrem. destruct (reader_spec t rb rest c) as (r' & -> & Hg & Hrest); try done. by eexists _, _.
Qed.

(** ** Union of sets *)

Lemma with_state_same t : with_state (state t) t = t.
Proof. by destruct t. Qed.

Lemma readAndMerge_spec memory t t0 m m0 rb rest :
  represents t m → storable_state (state t) → Forall storable (entry <$> elements t) → m_size t ≤ max_serialized_size →
  represents t0 m0 → state t0 = state t → ReadBuffer.wf rb → ReadBuffer.remaining rb = encoding t ++ rest →
  ∃ r t', readAndMerge memory rb t0 = (r, t') ∧ added m0 m (result_of r) t' ∧
    match r with Ret rb' => ReadBuffer.remaining rb' = rest | _ => True end.
Proof.
  intros Hr Hst Hs Hm Hr0 Hst0 Hwf Hrem. pose proof Hr as [Hok _]. pose proof (wf_size _ _ _ (ok_wf _ _ _ Hok)) as Hsz.
  unfold encoding in Hrem. rewrite <- !app_assoc in Hrem. unfold HashTableIO.readAndMerge.
  destruct (read_state_reads _ Hst rb _ Hwf Hrem) as (rb1 & -> & Hwf1 & Hrem1). cbn [then_]. rewrite <- Hst0, with_state_same.
  assert (0 ≤ m_size t ≤ 2 ^ 60) as Hrange by (unfold max_serialized_size in Hm; lia).
  destruct (readVarUInt_reads (m_size t)) with (rb := rb1) (rest := cells_bytes (entry <$> elements t) ++ rest)
    as (rb2 & -> & Hwf2 & Hrem2); [lia|done|done|]. cbn [then_].
  rewrite (proj2 (Z.ltb_ge _ _)) by done.
  assert (∃ r t', resize lib initial_size_degree sizeof_cell memory (m_size t) 0 t0 = (r, t') ∧
    match r with Ret _ => represents t' m0 | Throw _ => t' = t0 | _ => False end) as (r & t1 & -> & Hc).
  { destruct (decide (m_size t = 0)) as [->|].
    - destruct (reserve_zero hash good lib initial_size_degree sizeof_cell Hsizeof memory t0 (proj1 Hr0)) as (r & t' & Hz & Hc).
      exists r, t'. split; [done|]. destruct r; try done. destruct Hc. by apply (represents_same _ _ t0).
    - destruct (reserve_spec hash good lib initial_size_degree sizeof_cell Hlog2 Hinitial Hsizeof memory (m_size t) t0 (proj1 Hr0))
        as (r & t' & Hz & Hc); [lia|]. exists r, t'. split; [done|]. destruct r; try done. destruct Hc as (? & ? & _).
      by apply (represents_same _ _ t0). }
  destruct r as [[]|e| |]; try done; cbn [then_].
  - replace (Z.to_nat (m_size t)) with (length (entry <$> elements t)) by (rewrite length_fmap; lia).
    destruct (insert_read_spec memory (entry <$> elements t) rb2 rest t1 m0 Hc Hs Hwf2 Hrem2) as (r & t2 & -> & _ & Ha & Hcase).
    rewrite (represents_list _ _ Hr) in Ha. do 2 eexists. split_and!; [done|done|]. destruct r; try done. apply Hcase.
  - subst t1. do 2 eexists. split_and!; [done|by apply added_refused|done].
Qed.

(** The zero key, which is put in directly. *)
Lemma setHasZero_spec t m x v : represents t m → need_zero_value_storage = true → has_zero t = false →
  key_isZero x (state t) = true → (∀ v w : Mapped, v = w) →
  represents (with_size (m_size t + 1) (setHasZero t)) (<[x := v]> m) ∧ m !! x = None.
Proof.
  intros Hr Hn Hz Hx Hset. pose proof Hr as [[Ht Hf] _]. set (t' := with_size _ _). set (z := construct_default (zero_value t)).
  assert (key_isZero (getKey z) (state t) = true) as Hkz.
  { unfold z. rewrite <- (setHash_same (construct_default (zero_value t))). apply construct_default_key; [done|]. by apply (wf_zero _ _ _ Ht). }
  assert (getKey z = x) as Hzx by (by eapply zero_key_unique).
  assert (elements t' ≡ₚ z :: elements t) as He by (unfold elements, t'; simpl; by rewrite Hz).
  assert (table_ok t') as Hok'.
  { split; [|done]. split; [apply Ht|apply Ht|apply Ht|apply Ht|intros _; exact Hkz|done|].
    rewrite He. cbn [length]. change (m_size t') with (m_size t + 1). rewrite (wf_size _ _ _ Ht). lia. }
  assert (m !! x = None) as Hnone.
  { apply (represents_none hash good t m x Hr). intros c Hc Hk.
    destruct (zero_element hash good t x c Ht Hx Hc Hk) as [Hz' _]. congruence. }
  split; [|done]. rewrite <- Hzx, (Hset v (getMapped z)). apply (represents_insert hash good t t' m z Hr Hok' He). by rewrite Hzx.
Qed.

Lemma merge_loop_spec memory rhs n : ∀ i t m,
  represents t m → state t = state rhs → 0 ≤ i → i + Z.of_nat n = Z.of_nat (length (buf rhs)) →
  ∃ r t', merge_loop n i memory rhs t = (r, t') ∧
    added m (list_to_map (entry <$> items (state rhs) (drop (Z.to_nat i) (buf rhs)))) r t'.
Proof.
  induction n as [|n IH]; intros i t m Hr Hst Hi Hn; simpl.
  { do 2 eexists. split; [done|]. rewrite drop_ge by lia. simpl. by rewrite (right_id_L ∅ (∪)). }
  destruct (lookup_lt_is_Some_2 (buf rhs) (Z.to_nat i)) as [c Hc]; [lia|].
  assert (at_pos (buf rhs) i c) as Hat by done. rewrite (cell_at_pos _ _ _ Hat). cbn [then_].
  rewrite (items_drop rhs i c Hat). unfold item_list. rewrite Hst.
  destruct (cell_isZero c (state rhs)); simpl; [apply IH; [done|done|lia|lia]|].
  destruct (insert_refines hash good lib initial_size_degree sizeof_cell Hlog2 Hinitial Hsizeof memory t m (getKey c) (getMapped c) Hr)
    as (r & t1 & -> & Hst1 & Hcase).
  destruct r as [[p b]|e| |]; try done; cbn [then_].
  - destruct Hcase as (_ & _ & Hr1 & _). destruct (IH (i + 1) t1 _ Hr1) as (r & t2 & -> & Ha); [congruence|lia|lia|].
    do 2 eexists. split; [done|]. by apply added_insert.
  - destruct Hcase as (Hr1 & _). do 2 eexists. split; [done|]. by apply added_refused.
Qed.

Lemma merge_spec memory t rhs m m' :
  represents t m → represents rhs m' → state t = state rhs → (∀ v w : Mapped, v = w) →
  ∃ r t', merge memory rhs t = (r, t') ∧ added m m' r t'.
Proof.
  intros Hr Hr' Hst Hset. pose proof Hr as [[Ht _] _]. pose proof Hr' as [[Ht' _] _].
  pose proof (wf_length _ _ _ Ht') as Hl. pose proof (represents_list _ _ Hr') as Hlist.
  set (items_map := list_to_map (M := gmap Key Mapped) (entry <$> items (state rhs) (drop (Z.to_nat 0) (buf rhs)))).
  set (x := getKey (zero_value rhs)). set (v := getMapped (zero_value rhs)).
  assert (has_zero rhs = true → need_zero_value_storage = true ∧ key_isZero x (state t) = true ∧ m' = <[x := v]> items_map) as Hzero.
  { intros Hz. pose proof (wf_has_zero _ _ _ Ht' Hz) as Hn. rewrite Hst. split_and!; [done|by apply (wf_zero _ _ _ Ht')|].
    rewrite <- Hlist. unfold elements. by rewrite Hz. }
  assert (has_zero rhs = false → m' = items_map) as Hnonzero.
  { intros Hz. rewrite <- Hlist. unfold elements. by rewrite Hz. }
  unfold HashTableIO.merge. destruct (has_zero rhs) eqn:Hz; rewrite ?andb_true_r, ?andb_false_r.
  - destruct (Hzero eq_refl) as (Hn & Hx & ->). destruct (has_zero t) eqn:Hzt; cbn [negb].
    + destruct (merge_loop_spec memory rhs (Z.to_nat (Grower.bufSize (grower rhs))) 0 t m Hr Hst) as (r & t' & -> & Ha); [lia|lia|].
      do 2 eexists. split; [done|]. apply added_insert. assert (m !! x ≠ None) as Hm; [|by rewrite bool_decide_false].
      assert (x = getKey (zero_value t)) as -> by (eapply zero_key_unique; [done|by apply (wf_zero _ _ _ Ht)]).
      by rewrite (represents_points hash good lib initial_size_degree sizeof_cell Hlog2 Hinitial Hsizeof t m ToZero (zero_value t) Hr).
    + destruct (setHasZero_spec t m x v Hr Hn Hzt Hx Hset) as [Hr1 Hm]. cbv zeta. change (m_size (setHasZero t)) with (m_size t).
      destruct (merge_loop_spec memory rhs (Z.to_nat (Grower.bufSize (grower rhs))) 0 _ _ Hr1 Hst) as (r & t' & -> & Ha); [lia|lia|].
      do 2 eexists. split; [done|]. apply added_insert. by rewrite bool_decide_true.
  - rewrite (Hnonzero eq_refl).
    destruct (merge_loop_spec memory rhs (Z.to_nat (Grower.bufSize (grower rhs))) 0 t m Hr Hst) as (r & t' & -> & Ha); [lia|lia|].
    by do 2 eexists.
Qed.

(** C22: Adding a set to another gives their union, whether it is there ([merge]) or serialized
    ([readAndMerge]), with the zero key in either, both or none of them. Where memory is refused the
    operation throws, and what has been added by then is part of the other set. *)
Theorem hash_set_union (memory : memory_state) (t t0 : table State Cell) (m m0 : gmap Key Mapped) :
  (∀ v w : Mapped, v = w) → represents t m → represents t0 m0 → state t0 = state t →
  storable_state (state t) → map_Forall (λ k v, storable (k, v)) m → m_size t ≤ max_serialized_size →
  (∃ r t', merge memory t t0 = (r, t') ∧ added m0 m r t') ∧
  ∃ e, (∀ Sk (NI : WriteBuffer.NextImpl Sk) (S : WriteBuffer.Sink Sk) (wb : WriteBuffer.t Sk) bs,
          WriteBuffer.writes wb bs → appends (write t wb) (bs ++ e)) ∧
    ∀ rb rest, ReadBuffer.wf rb → ReadBuffer.remaining rb = e ++ rest →
      ∃ r t', readAndMerge memory rb t0 = (r, t') ∧ added m0 m (result_of r) t' ∧
        match r with Ret rb' => ReadBuffer.remaining rb' = rest | _ => True end.
Proof.
  intros Hset Hr Hr0 Hst Hss Hs Hm. pose proof Hr as [Hok Hp]. split; [by apply merge_spec|].
  assert (Forall storable (entry <$> elements t)) as Hall by (rewrite Hp; by apply map_Forall_to_list_storable).
  exists (encoding t). split; [|intros; by apply (readAndMerge_spec memory t)].
  intros. apply write_appends; try done. unfold max_serialized_size in Hm. lia.
Qed.
End correct.

(** * Examples *)

Module SerializationExamples.
Import HashTableExamples.

Lemma eight_bytes : 0 ≤ 8.
Proof. lia. Qed.

#[local] Existing Instance example_cell.
#[local] Instance example_io : HashCellIO Z Z unit HashMapCell.cell := HashMapCell_IO 8 8.
#[local] Instance example_format : HashCellFormat example_cell example_io := HashMapCell_format 8 8 eight_bytes eight_bytes (λ k, k).

(** The map of the entries of a table. *)
Definition map_of {Mapped Cell} {HC : HashCell Z Mapped unit Cell} (t : table unit Cell) : gmap Z Mapped := list_to_map (entry <$> elements t).

Lemma map_of_represents {Mapped Cell} {HC : HashCell Z Mapped unit Cell} hash good (t : table unit Cell) (m : gmap Z Mapped) :
  represents hash good t m → represents hash good t (map_of t).
Proof. intros Hr. unfold map_of. by rewrite (represents_list hash good t m Hr). Qed.

Lemma small_table_represents : represents (λ k, k) (λ _, True) small_table (map_of small_table).
Proof.
  assert (1 ≤ 2 ≤ 62) as Hi by lia. assert (1 ≤ 16) as Hs by lia.
  destruct (built_represents (λ k : Z, k) (λ _, True) lib 2 16 lib_ok Hi Hs 0 all_memory tt (HashMapCell.mk 1 1) small_ops new_table)
    as (m & Hm); [done|by repeat constructor|done|by eapply map_of_represents].
Qed.

(** A table of two entries, and a buffer that has its bytes in two pieces. *)
Definition small_bytes : bytes := 2 :: le_split 8 7 ++ le_split 8 70 ++ le_split 8 3 ++ le_split 8 30.
Definition in_pieces : ReadBuffer.t := ReadBuffer.mk (take 5 small_bytes) 0 0 [(drop 5 small_bytes, 0)].

Lemma hash_table_serialization_witness :
  (∃ wb, write small_table (WriteBuffer.create 100 (WriteBuffer.File [] 1000)) = (Ret tt, wb) ∧ WriteBuffer.pending wb = small_bytes) ∧
  (∃ rb t', read (λ k, k) lib 2 16 all_memory in_pieces new_table = (Ret rb, t') ∧ map_of t' = {[3 := 30; 7 := 70]}) ∧
  ∃ e, ∀ (wb : WriteBuffer.t WriteBuffer.file) bs, WriteBuffer.writes wb bs → appends (write small_table wb) (bs ++ e).
Proof.
  split; [eexists; split; vm_compute; reflexivity|]. split; [do 2 eexists; split; vm_compute; reflexivity|].
  assert (1 ≤ 2 ≤ 62) as Hi by lia. assert (1 ≤ 16) as Hs by lia.
  assert (map_of small_table = {[3 := 30; 7 := 70]}) as Hmap by (vm_compute; reflexivity).
  assert (map_Forall (λ k v, storable (k, v)) (map_of small_table)) as Hst.
  { rewrite Hmap. intros k v. rewrite lookup_insert_Some, lookup_singleton_Some. simpl. lia. }
  assert (storable_state (state small_table)) as Hss by exact I.
  assert (m_size small_table ≤ max_serialized_size) as Hm by (vm_compute; discriminate).
  destruct (hash_table_serialization (λ k : Z, k) (λ _, True) lib 2 16 lib_ok Hi Hs small_table (map_of small_table)
    small_table_represents Hss Hst Hm) as (e & Hw & _).
  exists e. intros wb bs. apply Hw.
Defined.

#[local] Instance set_cell : HashCell Z unit unit HashMapCell.cell := HashMapCell.HashMapCell_cell 0 tt (λ k, k).
#[local] Instance set_io : HashCellIO Z unit unit HashMapCell.cell := HashTableCell_IO 8.
#[local] Instance set_format : HashCellFormat set_cell set_io := HashTableCell_format 8 eight_bytes (λ k, k).

(** Two sets: the first has the zero key, the second does not. *)
Definition new_set : table unit HashMapCell.cell := (create_default 2 8 all_memory tt (HashMapCell.mk 1 tt)).2.
Definition set_ops (keys : list Z) : list (op (Key := Z) (Mapped := unit)) := (λ k, Insert all_memory k tt) <$> keys.
Definition set_of (keys : list Z) : table unit HashMapCell.cell := (perform_all (λ k, k) lib 2 8 tt (set_ops keys) new_set).2.

Lemma set_of_represents keys : represents (λ k, k) (λ _, True) (set_of keys) (map_of (set_of keys)).
Proof.
  assert (1 ≤ 2 ≤ 62) as Hi by lia. assert (1 ≤ 8) as Hs by lia.
  destruct (built_represents (λ k : Z, k) (λ _, True) lib 2 8 lib_ok Hi Hs tt all_memory tt (HashMapCell.mk 1 tt) (set_ops keys) new_set)
    as (m & Hm); [done| |done|by eapply map_of_represents].
  unfold set_ops. apply Forall_fmap, Forall_true. done.
Qed.

Lemma hash_set_union_witness :
  (∃ t', merge (λ k, k) lib 2 8 all_memory (set_of [0; 5; 9]) (set_of [5; 6]) = (Ret tt, t') ∧ m_size t' = 4 ∧
     map_of t' = {[0 := tt; 5 := tt; 6 := tt; 9 := tt]}) ∧
  ∃ r t', merge (λ k, k) lib 2 8 all_memory (set_of [0; 5; 9]) (set_of [5; 6]) = (r, t').
Proof.
  split; [eexists; split; [vm_compute; reflexivity|]; split; vm_compute; reflexivity|].
  assert (1 ≤ 2 ≤ 62) as Hi by lia. assert (1 ≤ 8) as Hs by lia.
  assert (∀ v w : unit, v = w) as Hset by (by intros [] []).
  assert (map_of (set_of [0; 5; 9]) = {[0 := tt; 5 := tt; 9 := tt]}) as Hmap by (vm_compute; reflexivity).
  assert (map_Forall (λ k v, storable (k, v)) (map_of (set_of [0; 5; 9]))) as Hst.
  { rewrite Hmap. intros k v. rewrite !lookup_insert_Some, lookup_singleton_Some. simpl. lia. }
  assert (storable_state (state (set_of [0; 5; 9]))) as Hss by exact I.
  assert (m_size (set_of [0; 5; 9]) ≤ max_serialized_size) as Hm by (vm_compute; discriminate).
  destruct (hash_set_union (λ k : Z, k) (λ _, True) lib 2 8 lib_ok Hi Hs all_memory (set_of [0; 5; 9]) (set_of [5; 6]) _ _
    Hset (set_of_represents _) (set_of_represents _) eq_refl Hss Hst Hm) as [(r & t' & Hmerge & _) _].
  exists r, t'. exact Hmerge.
Defined.

(** [read] resets the size before it knows that it can go on: after it has thrown, here because of a
    size that is too large, the table says that it is empty and still finds its keys. *)
Lemma failed_read_keeps_cells :
  ∃ t', read (λ k, k) lib 2 16 all_memory (ReadBuffer.from_memory (vlq 9 (2 ^ 40))) small_table = (Throw TOO_LARGE_ARRAY_SIZE, t') ∧
    size t' = 0 ∧ has 3 3 t' = Ret true.
Proof. eexists. split; [vm_compute; reflexivity|]. split; vm_compute; reflexivity. Qed.
End SerializationExamples.
